(* ===== verification/_CoqProject ===== *)
-Q . S2P
Prelude.v
Errors.v
Bytes.v
Fields.v
Gf8.v
Gf16.v
Gf16Slices.v
LinAlg.v
Matrix.v
Options.v
Leopard.v
InversionCache.v
Parallel.v
Checks.v
Codec.v
Coding.v
Encode.v
Verify.v
ShardByShard.v
Shards.v
Format.v
DecodeMatrix.v
RecoveryPlan.v
Execute.v
LeopardReconstruct.v
Reconstruct.v
OptionVec.v
DecodeIdx.v
Gf8Opt.v
StreamIo.v
Stream.v
StreamPlan.v
StreamReconstruct.v
LeoSlices.v
Lch.v
LeoStages.v
LeoWalsh.v
LeoField16.v
LeoPlan.v
LeoButterfly.v
LeoDit.v
LeoCode.v
LeoGroup.v
LeoCache.v
LeoChunk.v
LeoFlat.v
LeoLocator.v
LeoDecode.v
LeoRestore.v
LeoPlanCache.v
LeoDecoder.v
LeoEngine.v
LeoTables16.v
LeoLch16.v
LeoSkew16.v
LeoOps16.v
LeoGroup16.v
LeoEncode16.v
LeoFused16.v
LeoDecode16.v
LeoLocator16.v
LeoRestore16.v
LeoDecoder16.v
LeoEngine16.v
LeoTables8.v
LeoWalsh8.v
LeoOps8.v
LeoDit8.v
LeoGroup8.v
LeoEncode8.v
LeoDecode8.v
LeoLocator8.v
LeoRestore8.v
LeoDecoder8.v
LeoEngine8.v
LeoFamilies.v
Witnesses.v
OptWitnesses.v
StreamWitnesses.v
LeoWitnesses.v
