(* ===== verification/Prelude.v ===== *)
(** * rustfs-erasure-codec: verification development

    The crate computes Reed-Solomon erasure codes: [d] data shards of equal length are
    extended by [p] parity shards so that any [d] of the [d + p] shards determine the
    rest.  This library models the codec in Rocq, operation by operation, and proves
    what callers rely on.  All paths below are relative to [src/src].

    ** Parts of the program and files of the development

    - Foundations.  [Prelude] (this file): outcomes of a call, indexing, loops, tactics.
      [Errors]: [errors.rs] and the matrix errors.  [Bytes]: bytes and words of 16 bits as bit vectors with
      carry-less arithmetic.  [LinAlg]: sums, row dot products and invertibility over a field.
    - Fields.  [Fields]: the trait [Field] of [lib.rs] as a class, with the laws the codec
      relies on ([FieldLaws]).  [Gf8]: [galois_8], with the tables that [build.rs] generates.
      [Gf16], [Gf16Slices]: the degree-two extension of [galois_16.rs].  Both are
      instances, so every theorem about a [Field] holds for both.
    - [Matrix]: [matrix.rs], with Gaussian elimination as the code performs it.
    - Configuration.  [Options]: [core/options.rs] and machine arithmetic on [usize].
      [Leopard]: family limits and shard length rules of [core/leopard.rs].
      [Parallel]: policy and chunk scheduling of [core/parallel.rs].
      [InversionCache]: [core/inversion_cache.rs].  [Checks]: the macros of [macros.rs].
    - [Codec]: construction, splitting and joining, [core/codec.rs].  [Format]: the
      stable identifier of [core/format.rs].
    - Encoding.  [Coding]: the coding loops; [Encode]: the entry points, [core/encode.rs].
      [Verify]: [core/verify.rs].  [ShardByShard]: [core/shard_by_shard.rs].
    - Reconstruction.  [Shards]: the trait [ReconstructShard] and its implementations.
      [DecodeMatrix]: the decode matrix and its cache; [RecoveryPlan]:
      [core/recovery_plan.rs]; [Execute]: the sequential executor; [LeopardReconstruct]: the
      adapter around the Leopard decoders; [Reconstruct]: the entry points; [OptionVec]:
      the bulk executor for [Vec<Option<Vec<_>>>] ([core/reconstruct.rs]).
    - Byte codecs, [galois_8/policy.rs].  [DecodeIdx]: progressive recovery;
      [Gf8Opt]: the entry points on byte vectors.
    - Streams, [core/stream.rs].  [StreamIo]: readers, writers and block buffers;
      [Stream]: encode and verify; [StreamPlan], [StreamReconstruct]: reconstruction.
    - The Leopard engines, [core/leopard_gf8] and [core/leopard_gf16]: what they share.
      [Lch]: the mathematics of polynomials over a Cantor basis, for any field with such a
      basis; [LeoStages], [LeoButterfly]: in-place passes of radix 4 and the transforms they
      compute.  [LeoWalsh]: Walsh transforms modulo [2^w - 1].  [LeoPlan]: plans of
      transforms; [LeoDit]: their execution on lanes; [LeoGroup]: the inverse transform
      of an encoder's group; [LeoChunk]: plans of all groups, one chunk, the loop over the chunks and the
      caches of an encoder; [LeoSlices]: exclusive or of slices.  [LeoCode]: the code as a specification
      ([leopard_word]).  [LeoCache]: [core/leopard_cache.rs].  For the decoders: [LeoFlat], the
      transforms of a flat work space and the derivative; [LeoLocator], locators by Walsh
      transforms; [LeoDecode], driver, validation and loading; [LeoRestore], [LeoDecoder], the
      correctness of a chunk and of all, for any engine of the class [DecodeEngine];
      [LeoPlanCache], the process-wide cache of decode plans.
      [LeoEngine]: the codec on any engine of the class [LeopardEngine]; [LeoFamilies]: on
      the ones of the crate.
    - GF(2^8): [LeoTables8], [LeoWalsh8], [LeoOps8]: the generated tables and the lane
      operations ([tables.rs], [ops.rs]).  [LeoDit8]: plans, drivers,
      butterflies and [LeoCode] for bytes ([mod.rs], [driver.rs]).  [LeoGroup8], [LeoEncode8]: the
      encoder ([encode.rs], [work.rs]).  [LeoDecode8]:
      the decoder ([decode.rs]), proved correct in [LeoLocator8], [LeoRestore8] and
      [LeoDecoder8].  [LeoEngine8]: the engine as an instance of [LeopardEngine].
    - GF(2^16): [LeoField16]: the shift register and the Cantor
      basis of the code in the tower field.  [LeoTables16], [LeoLch16],
      [LeoSkew16]: the generated tables, the field they describe, Walsh transforms and the skews; the
      tables have up to [2^17] entries, so their theorems have loop invariants where
      those of GF(2^8) evaluate.  [LeoOps16]: lane operations and the layout of the
      user ([ops.rs]).  [LeoGroup16], [LeoEncode16]: plans, groups and the encoder.
      [LeoFused16]: conversions with a product ([fused.rs]).  [LeoDecode16]: the decoder
      ([decode.rs]), proved correct in [LeoLocator16], [LeoRestore16] and [LeoDecoder16].  [LeoEngine16]: the engine as an
      instance of [LeopardEngine].
    - [Witnesses], [OptWitnesses], [StreamWitnesses], [LeoWitnesses]: the theorems applied
      to concrete codecs, shards and streams.

    A codec is the record [ReedSolomon]; a call that changes it (its decode cache) returns
    the new one.  A construction resolves the options ([Options], [Leopard]), builds a
    matrix ([Codec], [Matrix]) and an empty cache ([InversionCache]).  Encoding checks its
    arguments ([Checks]), asks the policy ([Parallel]) and runs the coding loops ([Coding]) with
    the parity rows.  Reconstruction scans the lengths, plans ([RecoveryPlan]) with a decode
    matrix that comes from the cache ([DecodeMatrix]), and executes the plan on the caller's
    containers ([Execute], [OptionVec]).  Streams do this block by block.  A codec of a
    Leopard family calls its engine instead: encoding interpolates groups of data lanes
    and evaluates their sum ([LeoEncode8], [LeoEncode16]); reconstruction stages the survivors
    ([LeopardReconstruct]), then multiplies by the error locator, interpolates,
    differentiates, evaluates and divides ([LeoDecode8], [LeoDecode16]), chunk by chunk, which
    over GF(2^16) may run as jobs on several threads.

    ** Conventions

    - A call has an [outcome]: [Ok], [Err] or [Panic] (index out of range, failed
      [assert!], arithmetic that would overflow where the code does not wrap).  The build is
      a release build: [debug_assert!] does nothing.
    - [usize] has 64 bits.  Shard counts, indices and lengths are [nat]; sizes in bytes and
      budgets are [N] with the saturating and checked operations of the code.
    - Mutable arguments are returned.  Where the encoders return [Err], the contents of their output
      buffers are not tracked; reconstruction returns the shards as the error leaves them.
    - Rayon may run chunk tasks in any order: a schedule is a permutation of the
      tasks ([is_schedule]).  In streams a task may still run after another has
      failed, or not ([StreamIo.Schedule]).
    - Code outside the repository is a class, with its contract as a second class: the
      LRU map ([LruCache], [LruLaws], both discharged by a list), sizes of allocations ([Storage]),
      the machine ([Runtime]: cache sizes, number of threads, environment variables),
      readers and writers ([Read], [Write]), the allocator, which may hand out lanes with any
      contents ([Allocator8]), and the sizes of resources and the threads ([DecodeSizes],
      [PlanSizes16], [DecodeMachine16]).
    - State that threads share is an argument of the call and a part of its result: the cache of decode
      plans is locked twice, and what other callers do in between is a function
      ([other_callers]) that keeps it sound; every job of a parallel decode gets the work space of
      the thread that it runs on ([thread_buffers]).
    - Loops without a structural measure take fuel: [evict_loop] the number of
      entries, [exp_loop] the bits of the exponent, [skip_zero_rows] the rows of the matrix,
      [chunk_loop] and [lane_chunks] the length of the slice, [read_loop] and the loops over stream blocks the number of calls that the readers can answer with bytes or an
      interruption ([read_budget]).  In the Leopard engine: [step_loop] its limit, the
      loops over chunks the shard size plus one, the loops of the plans and of the Walsh
      transforms the number of passes or of elements.  Running out is [Panic], and every theorem
      excludes [Panic], so the fuel is proved to be enough.

    ** What the theorems show

    - Codewords: encoding computes the product with a systematic matrix, verification
      decides it, built-in matrices are MDS, and every loss of at most [p] shards is
      repaired by every reconstruction entry point, in memory and on streams.
    - Agreement: serial, parallel, buffered, workspace, option-vector and cached forms return
      what the plain form returns, under every schedule and policy.
    - Errors: constructors, checks, merges, layouts and streams fail exactly for the cause
      that they name, without panic, and leave what they promise to leave.
    - State: the cache keeps its byte budget and its recency order; the shard-by-shard
      encoder never reports readiness too early; a rolled-back Leopard decode
      leaves the caller's vectors as they were.
    - Leopard: the generated tables describe a field with a Cantor basis; transforms,
      under every butterfly strategy, evaluate and interpolate; the locators are the
      products of distances; the encoder computes the parity of [leopard_word] and
      the decoder restores every loss of at most [p] shards, with any caches, any
      stale work space and any number of jobs.  Through the adapters, for codecs of either
      family: encode, verify and repair agree.
    - Representation: identifiers determine formats; splitting and joining are inverse;
      aligned shard lengths are minimal.

    ** Not modelled

    - SIMD kernels and their selection ([galois_8/backend.rs], [simd_c], the executors
      of [galois_16.rs], [mul_simd.rs], [fwht_simd.rs], [avx2.rs] and the vector loops of the
      Leopard engines): the kernels modelled are the portable ones.
    - Builds without the standard library, beyond the conversions of [LeoFused16].
    - Counters and profiling, cache detection, benchmark-only hooks, bindings, tooling.
    - Failing allocations, messages of I/O errors, mutex poisoning. *)

From Stdlib Require Import ZArith Lia List Bool.
From stdpp Require Import base numbers list.

(** ** Outcomes of a Rust call

    A Rust function returns a value, returns [Err e], or panics (an index out
    of range, a failed [assert!]).  [outcome E A] keeps the three apart, so
    that "this call never panics" is a statement of the model. *)

Inductive outcome (E A : Type) : Type :=
| Ok (a : A)
| Err (e : E)
| Panic.
Arguments Ok {E A} a.
Arguments Err {E A} e.
Arguments Panic {E A}.

Definition obind {E A B : Type} (m : outcome E A) (k : A → outcome E B) : outcome E B :=
  match m with
  | Ok a => k a
  | Err e => Err e
  | Panic => Panic
  end.

(** [Result::map_err] *)
Definition map_err {E E' A : Type} (f : E → E') (m : outcome E A) : outcome E' A :=
  match m with
  | Ok a => Ok a
  | Err e => Err (f e)
  | Panic => Panic
  end.

Definition ok_or {E A : Type} (o : option A) (e : E) : outcome E A :=
  match o with Some a => Ok a | None => Err e end.

Lemma obind_assoc {E A B C : Type} (m : outcome E A) (f : A → outcome E B)
    (g : B → outcome E C) :
  obind (obind m f) g = obind m (λ x, obind (f x) g).
Proof. by destruct m. Qed.

Definition is_ok {E A : Type} (m : outcome E A) : bool :=
  match m with Ok _ => true | _ => false end.

Declare Scope rs_scope.
Delimit Scope rs_scope with rs.
Notation "'let!' x := m 'in' k" := (obind m (fun x => k))
  (at level 10, x name, m at level 100, k at level 200) : rs_scope.
Notation "'let!' ' p := m 'in' k" := (obind m (fun p => k))
  (at level 10, p strict pattern, m at level 100, k at level 200) : rs_scope.
Open Scope rs_scope.

(** ** Loops

    [for x in l { body }] threads the loop state through the body and stops
    at the first error or panic. *)
Fixpoint for_each {E A S : Type} (l : list A) (body : A → S → outcome E S) (s : S)
  : outcome E S :=
  match l with
  | [] => Ok s
  | x :: l => let! s' := body x s in for_each l body s'
  end.

(** [for i in lo..hi { body }] *)
Definition for_range {E S : Type} (lo hi : nat) (body : nat → S → outcome E S) (s : S)
  : outcome E S := for_each (seq lo (hi - lo)) body s.

(** [iter().map(f).collect::<Result<_,_>>()], left to right. *)
Fixpoint map_outcome {E A B : Type} (f : A → outcome E B) (l : list A) : outcome E (list B) :=
  match l with
  | [] => Ok []
  | x :: l => let! y := f x in let! ys := map_outcome f l in Ok (y :: ys)
  end.

(** ** Slices: checked indexing, the panics of [v[i]], [v[i] = x], [&v[s..e]] *)
Section slices.
Context {E A : Type}.

Definition index (l : list A) (i : nat) : outcome E A :=
  match l !! i with Some x => Ok x | None => Panic end.

Definition update (l : list A) (i : nat) (x : A) : outcome E (list A) :=
  if decide (i < length l) then Ok (<[i:=x]> l) else Panic.

Definition slice (l : list A) (s e : nat) : outcome E (list A) :=
  if decide (s ≤ e ∧ e ≤ length l) then Ok (take (e - s) (drop s l)) else Panic.

(** Write the bytes [new] back at [s], the effect of a mutable sub-slice. *)
Definition splice (l : list A) (s : nat) (new : list A) : list A :=
  take s l ++ new ++ drop (s + length new) l.

(** Apply [f] to the mutable sub-slice [&mut l[s..e]]. *)
Definition update_slice (l : list A) (s e : nat)
    (f : list A → outcome E (list A)) : outcome E (list A) :=
  let! view := slice l s e in
  let! new := f view in
  Ok (splice l s new).
End slices.

(** ** Postconditions *)
Definition ensures {E A : Type} (m : outcome E A) (Q : A → Prop) (R : E → Prop) : Prop :=
  match m with
  | Ok a => Q a
  | Err e => R e
  | Panic => False
  end.

Section ensures_rules.
Context {E : Type}.

Lemma ensures_ok {A} (a : A) (Q : A → Prop) (R : E → Prop) :
  Q a → ensures (Ok a) Q R.
Proof. done. Qed.

Lemma ensures_mono {A} (m : outcome E A) (Q Q' : A → Prop) (R R' : E → Prop) :
  ensures m Q R → (∀ a, Q a → Q' a) → (∀ e, R e → R' e) → ensures m Q' R'.
Proof. destruct m; simpl; auto. Qed.

Lemma ensures_bind {A B} (m : outcome E A) (k : A → outcome E B)
    (Q : A → Prop) (Q' : B → Prop) (R : E → Prop) :
  ensures m Q R → (∀ a, Q a → ensures (k a) Q' R) → ensures (obind m k) Q' R.
Proof. destruct m; simpl; auto. Qed.

Lemma ensures_exact {A} (m : outcome E A) (a : A) :
  ensures m (λ x, x = a) (λ _, False) → m = Ok a.
Proof. destruct m; simpl; [by intros ->|done|done]. Qed.

(** Calls that cannot fail. *)
Lemma ensures_weaken {A} (m : outcome E A) (Q Q' : A → Prop) (R : E → Prop) :
  ensures m Q (λ _, False) → (∀ a, Q a → Q' a) → ensures m Q' R.
Proof. destruct m; simpl; [auto|done|done]. Qed.

Lemma ensures_bind_safe {A B} (m : outcome E A) (k : A → outcome E B)
    (Q : A → Prop) (Q' : B → Prop) (R : E → Prop) :
  ensures m Q (λ _, False) → (∀ a, Q a → ensures (k a) Q' R) → ensures (obind m k) Q' R.
Proof. destruct m; simpl; [auto|done|done]. Qed.

Lemma ensures_ok_inv {A} (m : outcome E A) (Q : A → Prop) (R : E → Prop) a :
  ensures m Q R → m = Ok a → Q a.
Proof. by intros H ->. Qed.

Lemma ensures_noerr {A} (m : outcome E A) (Q : A → Prop) :
  ensures m Q (λ _, False) ↔ ∃ a, m = Ok a ∧ Q a.
Proof.
  destruct m as [a|e|]; simpl; split.
  - intros. by exists a.
  - by intros (? & [= <-] & ?).
  - done.
  - by intros (? & ? & ?).
  - done.
  - by intros (? & ? & ?).
Qed.

(** The invariant rule of [for_each]: [I done_prefix_length state]. *)
Lemma for_each_ensures {A S} (l : list A) (body : A → S → outcome E S)
    (I : nat → S → Prop) (R : E → Prop) (s : S) :
  I 0 s →
  (∀ i x s, l !! i = Some x → I i s → ensures (body x s) (I (1 + i)) R) →
  ensures (for_each l body s) (I (length l)) R.
Proof.
  revert I s. induction l as [|x l IH]; intros I s H0 Hstep; [done|].
  simpl. eapply ensures_bind; [apply (Hstep 0); done|].
  intros s' Hs'. apply (IH (λ i, I (1 + i))); [done|].
  intros i y s'' Hy HI. by apply (Hstep (1 + i)).
Qed.

Lemma for_range_ensures {S} (lo hi : nat) (body : nat → S → outcome E S)
    (I : nat → S → Prop) (R : E → Prop) (s : S) :
  lo ≤ hi →
  I lo s →
  (∀ i s, lo ≤ i < hi → I i s → ensures (body i s) (I (1 + i)) R) →
  ensures (for_range lo hi body s) (I hi) R.
Proof.
  intros Hle H0 Hstep. unfold for_range.
  pose proof (for_each_ensures (seq lo (hi - lo)) body (λ i, I (lo + i)) R s) as H.
  rewrite length_seq in H. replace (lo + (hi - lo)) with hi in H by lia.
  apply H; [by rewrite Nat.add_0_r|].
  intros i x s' Hx HI. apply lookup_seq in Hx as [-> ?].
  replace (lo + (1 + i)) with (1 + (lo + i)) by lia. apply Hstep; [lia|done].
Qed.

(** The same rule with a postcondition of its own. *)
Lemma for_range_post {S} (lo hi : nat) (body : nat → S → outcome E S)
    (I : nat → S → Prop) (Q : S → Prop) (R : E → Prop) (s : S) :
  lo ≤ hi →
  I lo s →
  (∀ i s, lo ≤ i < hi → I i s → ensures (body i s) (I (1 + i)) R) →
  (∀ s, I hi s → Q s) →
  ensures (for_range lo hi body s) Q R.
Proof. intros. eapply ensures_mono; [by apply for_range_ensures|done|done]. Qed.

Lemma for_each_post {A S} (l : list A) (body : A → S → outcome E S)
    (I : nat → S → Prop) (Q : S → Prop) (R : E → Prop) (s : S) :
  I 0 s →
  (∀ i x s, l !! i = Some x → I i s → ensures (body x s) (I (1 + i)) R) →
  (∀ s, I (length l) s → Q s) →
  ensures (for_each l body s) Q R.
Proof. intros. eapply ensures_mono; [by apply for_each_ensures|done|done]. Qed.

Lemma for_each_map {A B S} (g : A → B) (body : B → S → outcome E S) l : ∀ s,
  for_each (map g l) body s = for_each l (λ x, body (g x)) s.
Proof.
  induction l as [|x l IH]; intros s; simpl; [done|].
  destruct (body (g x) s); simpl; [apply IH|done..].
Qed.

Lemma for_each_app {A S} (l1 l2 : list A) (body : A → S → outcome E S) (s : S) :
  for_each (l1 ++ l2) body s =
  let! s' := for_each l1 body s in for_each l2 body s'.
Proof.
  revert s. induction l1 as [|x l1 IH]; intros s; [done|].
  simpl. destruct (body x s); simpl; auto.
Qed.

Lemma map_outcome_all {A B} (f : A → outcome E B) (g : A → B) (l : list A) :
  (∀ x, x ∈ l → f x = Ok (g x)) → map_outcome f l = Ok (map g l).
Proof.
  induction l as [|x l IH]; intros H; [done|]. simpl. rewrite H by left. simpl.
  rewrite IH; [done|]. intros y Hy. apply H. by right.
Qed.

Lemma map_outcome_ensures {A B} (f : A → outcome E B) (l : list A)
    (P : A → B → Prop) (R : E → Prop) :
  (∀ x, x ∈ l → ensures (f x) (P x) R) →
  ensures (map_outcome f l) (Forall2 P l) R.
Proof.
  induction l as [|x l IH]; intros H; [constructor|].
  simpl. eapply ensures_bind; [apply H; left|]. intros y Hy.
  eapply ensures_bind; [apply IH; intros; apply H; by right|].
  intros ys Hys. by constructor.
Qed.
End ensures_rules.

(** ** Slice lemmas *)
Section slice_lemmas.
Context {E A : Type}.
Implicit Types l : list A.

Lemma index_ok l i x : l !! i = Some x → index (E:=E) l i = Ok x.
Proof. unfold index. by intros ->. Qed.

Lemma update_ok l i x : i < length l → update (E:=E) l i x = Ok (<[i:=x]> l).
Proof. intros. unfold update. by rewrite decide_True. Qed.

Lemma slice_ok l s e :
  s ≤ e → e ≤ length l → slice (E:=E) l s e = Ok (take (e - s) (drop s l)).
Proof. intros. unfold slice. by rewrite decide_True. Qed.

Lemma length_splice l s new :
  s + length new ≤ length l → length (splice l s new) = length l.
Proof.
  intros. unfold splice. rewrite !length_app, length_take, length_drop. lia.
Qed.

Lemma lookup_splice l s new i :
  s + length new ≤ length l →
  splice l s new !! i =
  if decide (s ≤ i < s + length new) then new !! (i - s) else l !! i.
Proof.
  intros Hl. unfold splice. case_decide as Hi.
  - rewrite lookup_app_r by (rewrite length_take; lia).
    rewrite length_take, Nat.min_l by lia. by rewrite lookup_app_l by lia.
  - destruct (decide (i < s)).
    + rewrite lookup_app_l by (rewrite length_take; lia).
      by rewrite lookup_take_lt by lia.
    + rewrite lookup_app_r by (rewrite length_take; lia).
      rewrite length_take, Nat.min_l by lia.
      rewrite lookup_app_r by lia. rewrite lookup_drop. f_equal. lia.
Qed.

Lemma lookup_slice l s e i :
  take (e - s) (drop s l) !! i = if decide (i < e - s) then l !! (s + i) else None.
Proof.
  case_decide.
  - rewrite lookup_take_lt by lia. by rewrite lookup_drop.
  - by rewrite lookup_take_ge by lia.
Qed.
End slice_lemmas.

Lemma lookup_map {A B} (f : A → B) (l : list A) i :
  map f l !! i = option_map f (l !! i).
Proof. apply list_lookup_fmap. Qed.

Lemma default_map {A B} (f : A → B) (l : list A) i x d :
  l !! i = Some x → default d (map f l !! i) = f x.
Proof. intros H. by rewrite lookup_map, H. Qed.

(** ** Chunked loops

    [let mut start = s; while start < len { let end = min(start + chunk, len);
    body; start = end }].  The fuel bounds the number of iterations; running
    out of it is [Panic], so a result [Ok] shows that the loop terminated. *)
Fixpoint chunk_loop {E S : Type} (fuel chunk len start : nat)
    (body : nat → nat → S → outcome E S) (s : S) : outcome E S :=
  match fuel with
  | O => Panic
  | Datatypes.S fuel =>
      if start <? len then
        let end_ := Nat.min (start + chunk) len in
        let! s' := body start end_ s in
        chunk_loop fuel chunk len end_ body s'
      else Ok s
  end.

Lemma chunk_loop_ensures {E S} (fuel chunk len start : nat)
    (body : nat → nat → S → outcome E S) (I : nat → S → Prop) (R : E → Prop) (s : S) :
  0 < chunk → start ≤ len → len - start < fuel →
  I start s →
  (∀ a b s, start ≤ a → a < b → b ≤ len → b - a ≤ chunk → I a s →
     ensures (body a b s) (I b) R) →
  ensures (chunk_loop fuel chunk len start body s) (I len) R.
Proof.
  intros Hc. revert start s. induction fuel as [|fuel IH]; intros start s Hle Hf HI Hb; [lia|].
  simpl. destruct (Nat.ltb_spec start len).
  - eapply ensures_bind; [apply Hb; [lia..|done]|].
    intros s' HI'. apply IH; [lia..|done|].
    intros a b s'' ?????. apply Hb; [lia..|done].
  - replace len with start by lia. done.
Qed.

Section prefix.
Context {E A : Type}.
Implicit Types l : list A.

Lemma splice_0 l new : length new ≤ length l → splice l 0 new = new ++ drop (length new) l.
Proof. done. Qed.

Lemma insert_splice l i x : i < length l → <[i:=x]> l = splice l i [x].
Proof.
  intros. unfold splice. rewrite insert_take_drop by done. simpl.
  by rewrite Nat.add_1_r.
Qed.

Lemma slice_0_app l1 l2 n : n = length l1 → slice (E:=E) (l1 ++ l2) 0 n = Ok l1.
Proof.
  intros ->. rewrite slice_ok by (rewrite ?length_app; lia).
  by rewrite drop_0, Nat.sub_0_r, take_app_length.
Qed.

(** Two lists agree when they agree at every index below their length. *)
Lemma list_ext_lt l1 l2 :
  length l1 = length l2 → (∀ i, i < length l1 → l1 !! i = l2 !! i) → l1 = l2.
Proof.
  intros Hl H. apply list_eq. intros i. destruct (decide (i < length l1)); [by apply H|].
  rewrite !lookup_ge_None_2 by lia. done.
Qed.

Lemma lookup_zip_with_lt {B C} (f : A → B → C) l (k : list B) i x y :
  l !! i = Some x → k !! i = Some y → zip_with f l k !! i = Some (f x y).
Proof. intros Hx Hy. by rewrite lookup_zip_with, Hx, Hy. Qed.
End prefix.

(** [slice.split_at_mut(mid)] *)
Definition split_at {E A} (l : list A) (mid : nat) : outcome E (list A * list A) :=
  if decide (mid ≤ length l) then Ok (take mid l, drop mid l) else Panic.

(** [a.copy_from_slice(b)] *)
Definition copy_from_slice {E A} (dst src : list A) : outcome E (list A) :=
  if decide (length dst = length src) then Ok src else Panic.

(** [for x in l { body }] whose body may [break]: the body returns the state
    and whether to leave the loop. *)
Fixpoint for_each_break {E A S : Type} (l : list A) (body : A → S → outcome E (S * bool))
    (s : S) : outcome E S :=
  match l with
  | [] => Ok s
  | x :: l =>
      let! ' (s', stop) := body x s in
      if stop then Ok s' else for_each_break l body s'
  end.

(** ** Lists given by a function of the index *)
Definition tabulate {A} (n : nat) (f : nat → A) : list A := map f (seq 0 n).

Lemma tabulate_app {A} a m (f : nat → A) :
  tabulate (a + m) f = tabulate a f ++ tabulate m (λ j, f (a + j)).
Proof.
  unfold tabulate. rewrite seq_app, map_app. f_equal.
  assert (seq (0 + a) m = Nat.add a <$> seq 0 m) as -> by (by rewrite fmap_add_seq, Nat.add_0_r).
  apply map_map.
Qed.

Lemma tabulate_S {A} n (f : nat → A) : tabulate (S n) f = f 0 :: tabulate n (λ i, f (S i)).
Proof. unfold tabulate. cbn [seq map]. by rewrite <- seq_shift, map_map. Qed.

Section tabulate.
Context {E A : Type}.
Implicit Types (f g : nat → A) (l : list A).

Lemma length_tabulate n f : length (tabulate n f) = n.
Proof. unfold tabulate. by rewrite length_map, length_seq. Qed.

Lemma lookup_tabulate n f i : i < n → tabulate n f !! i = Some (f i).
Proof. intros. unfold tabulate. rewrite lookup_map, lookup_seq_lt by done. done. Qed.

Lemma eq_tabulate n f l :
  length l = n → (∀ i, i < n → l !! i = Some (f i)) → l = tabulate n f.
Proof.
  intros Hl H. apply list_ext_lt; [by rewrite length_tabulate|].
  intros i Hi. rewrite H, lookup_tabulate by lia. done.
Qed.

Lemma tabulate_ext n f g : (∀ i, i < n → f i = g i) → tabulate n f = tabulate n g.
Proof.
  intros H. apply eq_tabulate; [apply length_tabulate|].
  intros i Hi. by rewrite lookup_tabulate, H.
Qed.

Lemma tabulate_inj n f g : tabulate n f = tabulate n g → ∀ i, i < n → f i = g i.
Proof.
  intros H i Hi. apply (f_equal (.!! i)) in H. rewrite !lookup_tabulate in H by done.
  congruence.
Qed.

Lemma map_tabulate {B} (h : A → B) n f : map h (tabulate n f) = tabulate n (λ i, h (f i)).
Proof. unfold tabulate. by rewrite map_map. Qed.

Lemma take_tabulate k n f : k ≤ n → take k (tabulate n f) = tabulate k f.
Proof.
  intros. apply eq_tabulate; [rewrite length_take, length_tabulate; lia|].
  intros i Hi. rewrite lookup_take_lt, lookup_tabulate by lia. done.
Qed.

Lemma drop_tabulate k n f :
  drop k (tabulate n f) = tabulate (n - k) (λ i, f (k + i)).
Proof.
  apply eq_tabulate; [rewrite length_drop, length_tabulate; lia|].
  intros i Hi. rewrite lookup_drop, lookup_tabulate by lia. done.
Qed.

Lemma slice_tabulate s e n f :
  s ≤ e → e ≤ n → slice (E:=E) (tabulate n f) s e = Ok (tabulate (e - s) (λ i, f (s + i))).
Proof.
  intros. rewrite slice_ok by (rewrite ?length_tabulate; lia). f_equal.
  rewrite drop_tabulate, take_tabulate by lia. done.
Qed.

Lemma index_tabulate n f i : i < n → index (E:=E) (tabulate n f) i = Ok (f i).
Proof. intros. by apply index_ok, lookup_tabulate. Qed.

Lemma update_tabulate n f i x :
  i < n → update (E:=E) (tabulate n f) i x
          = Ok (tabulate n (λ j, if decide (j = i) then x else f j)).
Proof.
  intros. rewrite update_ok by (by rewrite length_tabulate). f_equal.
  apply eq_tabulate; [by rewrite length_insert, length_tabulate|].
  intros j Hj. case_decide; subst.
  - rewrite list_lookup_insert_eq; [done|by rewrite length_tabulate].
  - rewrite list_lookup_insert_ne by done. by apply lookup_tabulate.
Qed.

Lemma splice_tabulate n m s f g :
  s + m ≤ n →
  splice (tabulate n f) s (tabulate m g)
  = tabulate n (λ i, if decide (s ≤ i < s + m) then g (i - s) else f i).
Proof.
  intros. apply eq_tabulate.
  - rewrite length_splice; rewrite !length_tabulate; done.
  - intros i Hi. rewrite lookup_splice by (rewrite !length_tabulate; done).
    rewrite length_tabulate. case_decide; apply lookup_tabulate; lia.
Qed.

Lemma zip_with_tabulate {B C} (h : A → B → C) n f (g : nat → B) :
  zip_with h (tabulate n f) (tabulate n g) = tabulate n (λ i, h (f i) (g i)).
Proof.
  apply list_ext_lt; [rewrite length_zip_with; unfold tabulate;
    rewrite !length_map, !length_seq; lia|].
  intros i Hi. rewrite length_zip_with in Hi. unfold tabulate in *.
  rewrite !length_map, !length_seq in Hi.
  rewrite lookup_zip_with, !lookup_map, !lookup_seq_lt by lia. done.
Qed.

Lemma splice_app_l l1 l2 s new :
  s + length new ≤ length l1 → splice (l1 ++ l2) s new = splice l1 s new ++ l2.
Proof.
  intros. unfold splice. rewrite take_app_le, drop_app_le by lia.
  by rewrite <-!app_assoc.
Qed.

Lemma splice_app_r l1 l2 s new :
  splice (l1 ++ l2) (length l1 + s) new = l1 ++ splice l2 s new.
Proof.
  unfold splice. rewrite take_app_add, <-Nat.add_assoc, drop_app_add.
  by rewrite <-!app_assoc.
Qed.

(** The two halves of [split_at]. *)
Lemma slice_take l k s e :
  e ≤ k → k ≤ length l → slice (E:=E) (take k l) s e = slice l s e.
Proof.
  intros He Hk. unfold slice. rewrite length_take, Nat.min_l by lia.
  repeat case_decide; try lia; [|done]. f_equal.
  rewrite skipn_firstn_comm, take_take. f_equal. lia.
Qed.

Lemma slice_drop l k s e :
  k ≤ length l → slice (E:=E) (drop k l) s e = slice l (k + s) (k + e).
Proof.
  intros Hk. unfold slice. rewrite length_drop, drop_drop.
  repeat case_decide; try lia; [|done]. do 2 f_equal. lia.
Qed.

Lemma take_splice_drop l k s new :
  k ≤ length l → take k l ++ splice (drop k l) s new = splice l (k + s) new.
Proof.
  intros Hk. pose proof (splice_app_r (take k l) (drop k l) s new) as H.
  rewrite length_take, Nat.min_l, take_drop in H by lia. done.
Qed.

Lemma splice_take_drop l k s new :
  s + length new ≤ k → k ≤ length l → splice (take k l) s new ++ drop k l = splice l s new.
Proof.
  intros Hs Hk. pose proof (splice_app_l (take k l) (drop k l) s new) as H.
  rewrite length_take, Nat.min_l, take_drop in H by lia. by rewrite H by lia.
Qed.
End tabulate.

(** The rule of a loop that may [break]: [I i] holds before iteration [i],
    and every way out establishes [Q]. *)
Lemma for_each_break_ensures {E A S} (l : list A) (body : A → S → outcome E (S * bool))
    (I : nat → S → Prop) (Q : S → Prop) (R : E → Prop) (s : S) :
  I 0 s →
  (∀ i x s, l !! i = Some x → I i s →
     ensures (body x s) (λ r, if r.2 then Q r.1 else I (1 + i) r.1) R) →
  (∀ s, I (length l) s → Q s) →
  ensures (for_each_break l body s) Q R.
Proof.
  revert I s. induction l as [|x l IH]; intros I s H0 Hstep HQ; [by apply HQ|].
  simpl. eapply ensures_bind; [by apply (Hstep 0)|].
  intros [s' []]; simpl; [done|]. intros HI. apply (IH (λ i, I (1 + i))); [done| |done].
  intros i y s'' Hy. by apply (Hstep (1 + i)).
Qed.

(** [filter] splits a list. *)
Lemma length_filter_split {A} (P : A → Prop) `{∀ x, Decision (P x)} (l : list A) :
  length (filter P l) + length (filter (λ x, ¬ P x) l) = length l.
Proof.
  induction l as [|x l IH]; [done|]. rewrite !filter_cons.
  repeat case_decide; simpl; try lia; done.
Qed.

Lemma filter_ext_elem {A} (P Q : A → Prop) `{∀ x, Decision (P x), ∀ x, Decision (Q x)}
    (l : list A) :
  (∀ x, x ∈ l → P x ↔ Q x) → filter P l = filter Q l.
Proof.
  induction l as [|x l IH]; intros Hl; [done|]. rewrite !filter_cons, IH.
  - pose proof (Hl x ltac:(left)) as Hx. destruct (decide (P x)), (decide (Q x)); tauto.
  - intros y Hy. apply Hl. by right.
Qed.

(** ** Automation *)
Create HintDb rs.
Create Rewrite HintDb rs_length.
#[export] Hint Resolve ensures_ok : rs.
#[export] Hint Rewrite @length_tabulate @length_insert @length_app @length_map
  @length_seq @length_take @length_drop @length_replicate : rs_length.

(** Side conditions about lengths. *)
Ltac len := autorewrite with rs_length in *; try lia; try done.
(** Step into a bind whose first computation has a postcondition lemma [H]. *)
Ltac ens_bind H := eapply ensures_bind; [eapply H|].
