(* ===== verification/Errors.v ===== *)
(** * Error values ([src/errors.rs], the error enum of [src/matrix.rs])

    The enums with the source's constructors and the messages of [as_str]. *)

From Stdlib Require Import String.
From stdpp Require Import base decidable.

(** [errors::Error] *)
Inductive Error : Type :=
| TooFewShards
| TooManyShards
| TooFewDataShards
| TooManyDataShards
| TooFewParityShards
| TooManyParityShards
| TooFewBufferShards
| TooManyBufferShards
| IncorrectShardSize
| TooFewShardsPresent
| EmptyShard
| InvalidShardFlags
| InvalidIndex
| InvalidCustomMatrix
| UnsupportedCodecFamily
| UnsupportedLeopardPrototype.

(** [errors::SBSError] *)
Inductive SBSError : Type :=
| TooManyCalls
| LeftoverShards
| RSError (e : Error).

(** [matrix::Error] *)
Inductive MatrixError : Type :=
| EmptyInput
| InconsistentRowSizes
| IncompatibleDimensions
| NonSquare
| SingularMatrix.

#[export] Instance Error_eq_dec : EqDecision Error.
Proof. solve_decision. Defined.
#[export] Instance SBSError_eq_dec : EqDecision SBSError.
Proof. solve_decision. Defined.
#[export] Instance MatrixError_eq_dec : EqDecision MatrixError.
Proof. solve_decision. Defined.

Open Scope string_scope.

(** [Error::as_str] *)
Definition Error_as_str (e : Error) : string :=
  match e with
  | TooFewShards => "The number of provided shards is smaller than the one in codec"
  | TooManyShards => "The number of provided shards is greater than the one in codec"
  | TooFewDataShards =>
      "The number of provided data shards is smaller than the one in codec"
  | TooManyDataShards =>
      "The number of provided data shards is greater than the one in codec"
  | TooFewParityShards =>
      "The number of provided parity shards is smaller than the one in codec"
  | TooManyParityShards =>
      "The number of provided parity shards is greater than the one in codec"
  | TooFewBufferShards =>
      "The number of provided buffer shards is smaller than the number of parity shards in codec"
  | TooManyBufferShards =>
      "The number of provided buffer shards is greater than the number of parity shards in codec"
  | IncorrectShardSize =>
      "At least one of the provided shards is not of the correct size"
  | TooFewShardsPresent =>
      "The number of present shards is smaller than the number of data shards required for reconstruction"
  | EmptyShard => "The first shard provided is of zero length"
  | InvalidShardFlags =>
      "The number of flags does not match the total number of shards"
  | InvalidIndex =>
      "The data shard index provided is greater or equal to the number of data shards in codec"
  | InvalidCustomMatrix =>
      "The encoding matrix is invalid, missing, or incompatible with the reconstruction workspace"
  | UnsupportedCodecFamily =>
      "The selected codec family is not supported for this field or configuration"
  | UnsupportedLeopardPrototype =>
      "The selected Leopard codec family is only available as a prototype skeleton in this build"
  end.

(** [SBSError::as_str] *)
Definition SBSError_as_str (e : SBSError) : string :=
  match e with
  | TooManyCalls => "Too many calls"
  | LeftoverShards => "Leftover shards"
  | RSError e => Error_as_str e
  end.

Close Scope string_scope.

(** The messages identify the error, so a caller can match on the text. *)
Lemma Error_as_str_inj e1 e2 : Error_as_str e1 = Error_as_str e2 → e1 = e2.
Proof. destruct e1, e2; simpl; congruence. Qed.
