(* ===== verification/Bytes.v ===== *)
(** * Bytes and words: the types [u8] and [u16] and their casts

    A [u8] is [Init.Byte.byte].  [u8_to_N] is the value, [as_u8] the truncating
    cast [n as u8], [u8_xor] the operator [^].  A [u16] is its two bytes, the low one first,
    as [from_le_bytes] and a little-endian memory have them, with [u16_to_N], [as_u16] and
    [u16_xor]. *)

From Stdlib Require Import NArith ZArith Lia List Bool.
From Stdlib Require Strings.Byte.
From Stdlib Require Export Init.Byte.
From stdpp Require Import base numbers list.
From S2P Require Import Prelude.

Definition u8_to_N (b : byte) : N := Strings.Byte.to_N b.
Definition u8_to_nat (b : byte) : nat := N.to_nat (u8_to_N b).

(** [n as u8] *)
Definition as_u8 (n : N) : byte :=
  match Strings.Byte.of_N (n mod 256) with Some b => b | None => x00 end.

(** [a ^ b] *)
Definition u8_xor (a b : byte) : byte := as_u8 (N.lxor (u8_to_N a) (u8_to_N b)).

#[export] Instance byte_eq_dec : EqDecision byte := Strings.Byte.byte_eq_dec.

Lemma u8_to_N_bound b : (u8_to_N b < 256)%N.
Proof. pose proof (Strings.Byte.to_N_bounded b). unfold u8_to_N. lia. Qed.

Lemma u8_to_nat_bound b : u8_to_nat b < 256.
Proof. pose proof (u8_to_N_bound b). unfold u8_to_nat. lia. Qed.

Lemma as_u8_to_N b : as_u8 (u8_to_N b) = b.
Proof.
  unfold as_u8. rewrite N.mod_small by apply u8_to_N_bound.
  unfold u8_to_N. by rewrite Strings.Byte.of_to_N.
Qed.

Lemma u8_to_N_as_u8 n : u8_to_N (as_u8 n) = (n mod 256)%N.
Proof.
  unfold as_u8, u8_to_N. destruct (Strings.Byte.of_N (n mod 256)) eqn:E.
  - by apply Strings.Byte.to_of_N.
  - apply Strings.Byte.of_N_None_iff in E.
    pose proof (N.mod_lt n 256). lia.
Qed.

Lemma u8_to_N_inj a b : u8_to_N a = u8_to_N b → a = b.
Proof. intros H. by rewrite <-(as_u8_to_N a), H, as_u8_to_N. Qed.

Lemma u8_to_nat_inj a b : u8_to_nat a = u8_to_nat b → a = b.
Proof. intros H%N2Nat.inj. by apply u8_to_N_inj. Qed.

Lemma as_u8_small_inj n m :
  (n < 256)%N → (m < 256)%N → as_u8 n = as_u8 m → n = m.
Proof.
  intros Hn Hm H%(f_equal u8_to_N). rewrite !u8_to_N_as_u8 in H.
  by rewrite !N.mod_small in H.
Qed.

Lemma lxor_bound a b : (a < 256 → b < 256 → N.lxor a b < 256)%N.
Proof.
  intros Ha Hb. destruct (N.eq_dec (N.lxor a b) 0%N) as [->|Hne]; [lia|].
  change 256%N with (2 ^ 8)%N in *. apply N.log2_lt_pow2; [lia|].
  pose proof (N.log2_lxor a b).
  assert (∀ x, (x < 2 ^ 8)%N → (N.log2 x < 8)%N) as Hlog.
  { intros x Hx. destruct (N.eq_dec x 0%N) as [->|]; [done|].
    apply N.log2_lt_pow2; lia. }
  pose proof (Hlog a Ha). pose proof (Hlog b Hb). lia.
Qed.

Lemma u8_to_N_xor a b : u8_to_N (u8_xor a b) = N.lxor (u8_to_N a) (u8_to_N b).
Proof.
  unfold u8_xor. rewrite u8_to_N_as_u8. apply N.mod_small.
  apply lxor_bound; apply u8_to_N_bound.
Qed.

Lemma u8_xor_comm a b : u8_xor a b = u8_xor b a.
Proof. apply u8_to_N_inj. by rewrite !u8_to_N_xor, N.lxor_comm. Qed.

Lemma u8_xor_assoc a b c : u8_xor a (u8_xor b c) = u8_xor (u8_xor a b) c.
Proof. apply u8_to_N_inj. by rewrite !u8_to_N_xor, N.lxor_assoc. Qed.

Lemma u8_xor_0_l a : u8_xor x00 a = a.
Proof. apply u8_to_N_inj. by rewrite !u8_to_N_xor. Qed.

Lemma u8_xor_0_r a : u8_xor a x00 = a.
Proof. by rewrite u8_xor_comm, u8_xor_0_l. Qed.

Lemma u8_xor_self a : u8_xor a a = x00.
Proof. apply u8_to_N_inj. by rewrite u8_to_N_xor, N.lxor_nilpotent. Qed.

(** ** Exhaustive checking over one byte *)
Definition all_bytes : list byte := map (λ i, as_u8 (N.of_nat i)) (seq 0 256).

Lemma elem_of_all_bytes b : In b all_bytes.
Proof.
  unfold all_bytes. apply in_map_iff. exists (u8_to_nat b). split.
  - unfold u8_to_nat. by rewrite N2Nat.id, as_u8_to_N.
  - apply in_seq. pose proof (u8_to_nat_bound b). lia.
Qed.

Lemma byte_forall (P : byte → bool) :
  forallb P all_bytes = true → ∀ b, P b = true.
Proof. intros H b. eapply forallb_forall in H; [done|]. apply elem_of_all_bytes. Qed.

Record u16 := mk_u16 { u16_lo : byte; u16_hi : byte }.

Definition u16_to_N (a : u16) : N := u8_to_N (u16_lo a) + 256 * u8_to_N (u16_hi a).
Definition u16_to_nat (a : u16) : nat := N.to_nat (u16_to_N a).

(** [n as u16] *)
Definition as_u16 (n : N) : u16 := mk_u16 (as_u8 n) (as_u8 (N.shiftr n 8)).

(** [a ^ b] *)
Definition u16_xor (a b : u16) : u16 :=
  mk_u16 (u8_xor (u16_lo a) (u16_lo b)) (u8_xor (u16_hi a) (u16_hi b)).

Definition u16_0 : u16 := mk_u16 x00 x00.

#[export] Instance u16_eq_dec : EqDecision u16.
Proof. solve_decision. Defined.
#[export] Instance u16_inhabited : Inhabited u16 := populate u16_0.

Lemma u16_to_N_bound a : (u16_to_N a < 2 ^ 16)%N.
Proof.
  unfold u16_to_N. pose proof (u8_to_N_bound (u16_lo a)). pose proof (u8_to_N_bound (u16_hi a)).
  change (2 ^ 16)%N with 65536%N. lia.
Qed.

Lemma as_u16_to_N a : as_u16 (u16_to_N a) = a.
Proof.
  destruct a as [lo hi]. unfold as_u16, u16_to_N. cbn [u16_lo u16_hi].
  pose proof (u8_to_N_bound lo) as Hl. pose proof (u8_to_N_bound hi) as Hh.
  f_equal; apply u8_to_N_inj; rewrite u8_to_N_as_u8.
  - rewrite N.mul_comm, N.Div0.mod_add. by apply N.mod_small.
  - rewrite N.shiftr_div_pow2. change (2 ^ 8)%N with 256%N.
    rewrite N.mul_comm, N.div_add, N.div_small by done. rewrite N.add_0_l. by apply N.mod_small.
Qed.

Lemma u16_to_N_as_u16 n : u16_to_N (as_u16 n) = (n mod 2 ^ 16)%N.
Proof.
  unfold as_u16, u16_to_N. cbn [u16_lo u16_hi]. rewrite !u8_to_N_as_u8, N.shiftr_div_pow2.
  change (2 ^ 8)%N with 256%N. change (2 ^ 16)%N with (256 * 256)%N.
  by rewrite N.Div0.mod_mul_r.
Qed.

Lemma u16_to_N_inj a b : u16_to_N a = u16_to_N b → a = b.
Proof. intros H. rewrite <- (as_u16_to_N a), <- (as_u16_to_N b). by rewrite H. Qed.

Lemma u16_to_nat_inj a b : u16_to_nat a = u16_to_nat b → a = b.
Proof. unfold u16_to_nat. intros H. apply u16_to_N_inj. lia. Qed.

Lemma u16_to_N_small n : (n < 2 ^ 16)%N → u16_to_N (as_u16 n) = n.
Proof. intros H. rewrite u16_to_N_as_u16. by apply N.mod_small. Qed.

Lemma as_u16_0 : as_u16 0 = u16_0.
Proof. reflexivity. Qed.

(** ** Exclusive or *)
Lemma as_u16_lxor n m : as_u16 (N.lxor n m) = u16_xor (as_u16 n) (as_u16 m).
Proof.
  unfold as_u16, u16_xor. cbn [u16_lo u16_hi]. rewrite N.shiftr_lxor.
  f_equal; apply u8_to_N_inj; rewrite u8_to_N_xor, !u8_to_N_as_u8;
    change 256%N with (2 ^ 8)%N; rewrite <- !N.land_ones; symmetry; apply N.bits_inj; intros k;
    repeat rewrite ?N.lxor_spec, ?N.land_spec; by destruct (N.testbit _ k), (N.testbit _ k), (N.testbit _ k).
Qed.

Lemma u16_to_N_xor a b : u16_to_N (u16_xor a b) = N.lxor (u16_to_N a) (u16_to_N b).
Proof.
  rewrite <- (as_u16_to_N a), <- (as_u16_to_N b) at 1. rewrite <- as_u16_lxor.
  apply u16_to_N_small. destruct (N.eq_dec (N.lxor (u16_to_N a) (u16_to_N b)) 0%N) as [->|Hne]; [done|].
  apply N.log2_lt_pow2; [lia|]. eapply N.le_lt_trans; [apply N.log2_lxor|].
  pose proof (u16_to_N_bound a). pose proof (u16_to_N_bound b).
  destruct (N.eq_dec (u16_to_N a) 0%N) as [Ha|Ha], (N.eq_dec (u16_to_N b) 0%N) as [Hb|Hb];
    rewrite ?Ha, ?Hb; try (cbn; lia); apply N.max_lub_lt; try (cbn; lia); apply N.log2_lt_pow2; lia.
Qed.

Lemma u16_xor_comm a b : u16_xor a b = u16_xor b a.
Proof. unfold u16_xor. by rewrite (u8_xor_comm (u16_lo a)), (u8_xor_comm (u16_hi a)). Qed.

Lemma u16_xor_assoc a b c : u16_xor a (u16_xor b c) = u16_xor (u16_xor a b) c.
Proof. unfold u16_xor. cbn. by rewrite !u8_xor_assoc. Qed.

Lemma u16_xor_0_l a : u16_xor u16_0 a = a.
Proof. destruct a. unfold u16_xor. cbn. by rewrite !u8_xor_0_l. Qed.

Lemma u16_xor_0_r a : u16_xor a u16_0 = a.
Proof. by rewrite u16_xor_comm, u16_xor_0_l. Qed.

Lemma u16_xor_self a : u16_xor a a = u16_0.
Proof. unfold u16_xor, u16_0. by rewrite !u8_xor_self. Qed.
