(* ===== verification/Fields.v ===== *)
(** * The [Field] trait ([src/lib.rs])

    [Field] is the trait's interface: the operations a finite field supplies.
    [FieldLaws] is what the codec relies on: the field axioms in
    characteristic two, distinct [nth] elements below [ORDER], and slice
    operations that agree with the element operations.  [Gf8] and [Gf16]
    discharge the laws for the two built-in fields; everything above this file
    is proved against the interface. *)

From Stdlib Require Import ZArith Lia List Bool Ring Ring_theory String.
From Stdlib Require Import Init.Byte.
From stdpp Require Import base numbers list.
From S2P Require Import Prelude.

(** ** The trait *)
Class Field := {
  Elem : Type;
  Elem_eq_dec :: EqDecision Elem;
  ORDER : N;
  add : Elem → Elem → Elem;
  mul : Elem → Elem → Elem;
  div : Elem → Elem → Elem;
  exp : Elem → N → Elem;
  zero : Elem;
  one : Elem;
  nth_internal : N → Elem;
  (** Slice operations take the previous contents of the output slice and
      return the new ones; [None] is the panic on unequal lengths. *)
  mul_slice : Elem → list Elem → list Elem → option (list Elem);
  mul_slice_add : Elem → list Elem → list Elem → option (list Elem);
  (** Byte views of the built-in GF(2^8) kernels.  A mutable view is the
      current bytes with the write-back of new bytes. *)
  as_gf8_slice : list Elem → option (list byte);
  as_gf8_slice_mut : list Elem → option (list byte * (list byte → list Elem));
  (** Persistent format identity. *)
  stable_format : option (string * N);
  write_format_element : Elem → nat → option (list byte);
}.

Declare Scope field_scope.
Delimit Scope field_scope with field.
Infix "+" := add : field_scope.
Infix "*" := mul : field_scope.
Infix "/" := div : field_scope.
Notation "0" := zero : field_scope.
Notation "1" := one : field_scope.
Bind Scope field_scope with Elem.
Local Open Scope field_scope.

(** ** Provided methods *)
Section provided.
Context {F : Field}.

(** [Field::nth_checked] *)
Definition nth_checked (n : N) : option Elem :=
  if (ORDER <=? n)%N then None else Some (nth_internal n).

(** [Field::nth], release build: out-of-range indices wrap. *)
Definition nth (n : N) : Elem :=
  match nth_checked n with
  | Some e => e
  | None => nth_internal (n mod N.max ORDER 1)
  end.

(** The default [Field::mul_slice]. *)
Definition mul_slice_default (elem : Elem) (input out : list Elem) : option (list Elem) :=
  if decide (length input = length out)
  then Some (zip_with (λ i _, elem * i) input out)
  else None.

(** The default [Field::mul_slice_add]. *)
Definition mul_slice_add_default (elem : Elem) (input out : list Elem)
  : option (list Elem) :=
  if decide (length input = length out)
  then Some (zip_with (λ i o, o + elem * i) input out)
  else None.
End provided.

(** ** The laws *)
Class FieldLaws (F : Field) : Prop := {
  add_comm : ∀ a b, a + b = b + a;
  add_assoc : ∀ a b c, a + (b + c) = (a + b) + c;
  add_0_l : ∀ a, 0 + a = a;
  add_self : ∀ a, a + a = 0;
  mul_comm : ∀ a b, a * b = b * a;
  mul_assoc : ∀ a b c, a * (b * c) = (a * b) * c;
  mul_1_l : ∀ a, 1 * a = a;
  mul_add_l : ∀ a b c, (a + b) * c = a * c + b * c;
  one_neq_zero : (1 : Elem) ≠ 0;
  div_mul : ∀ a b, b ≠ 0 → (a / b) * b = a;
  exp_0 : ∀ a, exp a 0 = 1;
  exp_succ : ∀ a n, exp a (N.succ n) = a * exp a n;
  nth_internal_inj : ∀ n m, (n < ORDER)%N → (m < ORDER)%N →
    nth_internal n = nth_internal m → n = m;
  mul_slice_spec : ∀ c input out, mul_slice c input out = mul_slice_default c input out;
  mul_slice_add_spec : ∀ c input out,
    mul_slice_add c input out = mul_slice_add_default c input out;
}.

(** ** Derived arithmetic; [ring] decides equations in characteristic two *)
Section arith.
Context {F : Field} {FL : FieldLaws F}.
Implicit Types a b c : Elem.

Lemma add_0_r a : a + 0 = a.
Proof. by rewrite add_comm, add_0_l. Qed.
Lemma mul_1_r a : a * 1 = a.
Proof. by rewrite mul_comm, mul_1_l. Qed.
Lemma mul_add_r a b c : c * (a + b) = c * a + c * b.
Proof. by rewrite mul_comm, mul_add_l, !(mul_comm c). Qed.
Lemma mul_0_l a : 0 * a = 0.
Proof. by rewrite <-(add_self 0) at 1; rewrite mul_add_l, add_self. Qed.
Lemma mul_0_r a : a * 0 = 0.
Proof. by rewrite mul_comm, mul_0_l. Qed.

Lemma field_ring_theory :
  ring_theory (0 : Elem) 1 add mul add (λ a, a) eq.
Proof.
  constructor; intros.
  - apply add_0_l.
  - apply add_comm.
  - apply add_assoc.
  - apply mul_1_l.
  - apply mul_comm.
  - apply mul_assoc.
  - apply mul_add_l.
  - done.
  - apply add_self.
Qed.

(** Coefficients are taken in Z/2, so that [a + a] normalises to [0]. *)
Definition of_bool (x : bool) : Elem := if x then 1 else 0.

Lemma field_ring_morph :
  ring_morph (0 : Elem) 1 add mul add (λ a, a) eq
    false true xorb andb xorb (λ x, x) Bool.eqb of_bool.
Proof.
  constructor; try done.
  - intros [] []; simpl; by rewrite ?add_self, ?add_0_l, ?add_0_r.
  - intros [] []; simpl; by rewrite ?add_self, ?add_0_l, ?add_0_r.
  - intros [] []; simpl; by rewrite ?mul_1_l, ?mul_0_l, ?mul_0_r.
  - by intros [] [].
Qed.
End arith.

Ltac field_const t :=
  match t with
  | zero => constr:(false)
  | one => constr:(true)
  | _ => constr:(InitialRing.NotConstant)
  end.

(** ** Consequences of the laws *)
Section derived.
Context {F : Field} {FL : FieldLaws F}.
Add Ring elem_ring : field_ring_theory (morphism field_ring_morph, constants [field_const]).
Implicit Types a b c : Elem.

Lemma add_cancel a b : a + b = 0 → a = b.
Proof.
  intros H. replace a with (a + b + b) by ring. rewrite H. ring.
Qed.

Lemma add_eq_0 a b : a + b = 0 ↔ a = b.
Proof. split; [apply add_cancel|]. intros ->. ring. Qed.

Lemma mul_eq_0 a b : a * b = 0 → a = 0 ∨ b = 0.
Proof.
  intros H. destruct (decide (b = 0)) as [|Hb]; [by right|left].
  replace a with ((a * b) * (1 / b)).
  - rewrite H. ring.
  - replace ((a * b) * (1 / b)) with (a * ((1 / b) * b)) by ring.
    rewrite div_mul by done. ring.
Qed.

Lemma mul_neq_0 a b : a ≠ 0 → b ≠ 0 → a * b ≠ 0.
Proof. intros Ha Hb [|]%mul_eq_0; done. Qed.

Lemma mul_cancel_l a b c : a ≠ 0 → a * b = a * c → b = c.
Proof.
  intros Ha H. apply add_cancel. destruct (mul_eq_0 a (b + c)) as [|]; [|done..].
  replace (a * (b + c)) with (a * b + a * c) by ring. rewrite H. ring.
Qed.

Lemma mul_div_cancel a : a ≠ 0 → a * (1 / a) = 1.
Proof. intros. by rewrite mul_comm, div_mul. Qed.

Lemma recip_neq_0 a : a ≠ 0 → 1 / a ≠ 0.
Proof.
  intros Ha H. apply one_neq_zero. rewrite <-(div_mul 1 a Ha), H. apply mul_0_l.
Qed.

(** [exp] is the iterated product. *)
Definition fpow a (n : N) : Elem := N.iter n (mul a) 1.

Lemma fpow_0 a : fpow a 0 = 1.
Proof. done. Qed.
Lemma fpow_succ a n : fpow a (N.succ n) = a * fpow a n.
Proof. apply N.iter_succ. Qed.

Lemma exp_fpow a n : exp a n = fpow a n.
Proof.
  induction n as [|n IH] using N.peano_ind; [apply exp_0|].
  by rewrite exp_succ, fpow_succ, IH.
Qed.

Lemma fpow_add a n m : fpow a (n + m) = fpow a n * fpow a m.
Proof.
  induction n as [|n IH] using N.peano_ind.
  - rewrite fpow_0. rewrite N.add_0_l. ring.
  - rewrite N.add_succ_l, !fpow_succ, IH. ring.
Qed.

Lemma fpow_mul a n m : fpow a (n * m) = fpow (fpow a n) m.
Proof.
  induction m as [|m IH] using N.peano_ind; [by rewrite N.mul_0_r|].
  rewrite N.mul_succ_r, N.add_comm, fpow_add, fpow_succ, IH. done.
Qed.

Lemma fpow_1_l n : fpow 1 n = 1.
Proof.
  induction n as [|n IH] using N.peano_ind; [done|]. rewrite fpow_succ, IH. ring.
Qed.

Lemma fpow_1_r a : fpow a 1 = a.
Proof. change 1%N with (N.succ 0). rewrite fpow_succ, fpow_0. ring. Qed.

Lemma fpow_2 a : fpow a 2 = a * a.
Proof. change 2%N with (1 + 1)%N. by rewrite fpow_add, fpow_1_r. Qed.

Lemma fpow_period a p n : p ≠ 0%N → fpow a p = 1 → fpow a (n mod p) = fpow a n.
Proof.
  intros Hp H. rewrite (N.div_mod n p) at 2 by done.
  rewrite fpow_add, fpow_mul, H, fpow_1_l. ring.
Qed.

(** [Field::nth] is injective below [ORDER] and total. *)
Lemma nth_in_range n : (n < ORDER)%N → nth n = nth_internal n.
Proof.
  intros Hn. unfold nth, nth_checked.
  by rewrite (proj2 (N.leb_gt _ _) Hn).
Qed.

Lemma nth_inj n m : (n < ORDER)%N → (m < ORDER)%N → nth n = nth m → n = m.
Proof. intros Hn Hm. rewrite !nth_in_range by done. by apply nth_internal_inj. Qed.
End derived.
