(* ===== verification/Gf8.v ===== *)
(** * GF(2^8) ([build.rs], [src/galois_8/mod.rs], [src/galois_8/scalar.rs])

    The log, exp and product tables as [build.rs] generates them, the element
    operations that read them and the scalar slice kernels.  The main result is
    the [FieldLaws] instance: the table arithmetic is a field of characteristic
    two.  [mul_nibbles] is the identity every table-shuffle SIMD kernel uses. *)

From Stdlib Require Import NArith ZArith Lia List Bool String.
From stdpp Require Import base numbers list.
From S2P Require Import Prelude Bytes Fields.

(** ** [build.rs]: table generation *)
Definition FIELD_SIZE : nat := 256.
Definition GENERATING_POLYNOMIAL : N := 29.
Definition EXP_TABLE_SIZE : nat := FIELD_SIZE * 2 - 2.

(** [gen_log_table]: the loop state is [(result, b)]. *)
Definition gen_log_table (polynomial : N) : outcome Empty_set (list byte) :=
  let! '(result, _) :=
    for_range 0 (FIELD_SIZE - 1) (λ log '(result, b),
      let! result := update result (N.to_nat b) (as_u8 (N.of_nat log)) in
      let b := N.shiftl b 1 in
      let b := if (N.of_nat FIELD_SIZE <=? b)%N
               then N.lxor (b - N.of_nat FIELD_SIZE) polynomial else b in
      Ok (result, b)) (replicate FIELD_SIZE x00, 1%N)
  in Ok result.

(** [gen_exp_table]: [log_table.iter().enumerate().skip(1)]. *)
Definition gen_exp_table (log_table : list byte) : outcome Empty_set (list byte) :=
  for_each (drop 1 (imap pair log_table)) (λ '(i, log_entry) result,
    let log := u8_to_nat log_entry in
    let! result := update result log (as_u8 (N.of_nat i)) in
    update result (log + FIELD_SIZE - 1) (as_u8 (N.of_nat i)))
  (replicate EXP_TABLE_SIZE x00).

(** Reading a fixed-size table: a byte index is always in range of a table
    of [FIELD_SIZE] entries, and log sums are in range of the exp table. *)
Definition tbl (t : list byte) (i : nat) : byte := default x00 (t !! i).

(** [multiply] *)
Definition multiply (log_table exp_table : list byte) (a b : byte) : byte :=
  if bool_decide (a = x00) || bool_decide (b = x00) then x00
  else
    let log_a := tbl log_table (u8_to_nat a) in
    let log_b := tbl log_table (u8_to_nat b) in
    let log_result := u8_to_nat log_a + u8_to_nat log_b in
    tbl exp_table log_result.

(** [gen_mul_table] *)
Definition gen_mul_table (log_table exp_table : list byte) : list (list byte) :=
  map (λ a, map (λ b, multiply log_table exp_table
                        (as_u8 (N.of_nat a)) (as_u8 (N.of_nat b)))
                (seq 0 FIELD_SIZE))
      (seq 0 FIELD_SIZE).

(** [gen_mul_table_half]: products of the low and of the high nibbles. The
    pass over [b] of one row [a]; [low] and [high] are the row's 16 cells. *)
Definition gen_mul_row_half (log_table exp_table : list byte) (a : nat)
  : outcome Empty_set (list byte * list byte) :=
  for_range 0 FIELD_SIZE (λ b '(low, high),
    let result :=
      if negb ((a =? 0) || (b =? 0)) then
        tbl exp_table (u8_to_nat (tbl log_table a) + u8_to_nat (tbl log_table b))
      else x00 in
    let! low := if (N.land (N.of_nat b) 15 =? N.of_nat b)%N
                then update low b result else Ok low in
    let! high := if (N.land (N.of_nat b) 240 =? N.of_nat b)%N
                 then update high (N.to_nat (N.shiftr (N.of_nat b) 4)) result else Ok high in
    Ok (low, high)) (replicate 16 x00, replicate 16 x00).

Definition gen_mul_table_half (log_table exp_table : list byte)
  : outcome Empty_set (list (list byte * list byte)) :=
  map_outcome (gen_mul_row_half log_table exp_table) (seq 0 FIELD_SIZE).

Definition ok_or_nil {A} (m : outcome Empty_set (list A)) : list A :=
  match m with Ok t => t | _ => [] end.

(** [LOG_TABLE], [EXP_TABLE], [MUL_TABLE] of the generated [table.rs]. *)
Definition LOG_TABLE : list byte :=
  Eval vm_compute in ok_or_nil (gen_log_table GENERATING_POLYNOMIAL).
Definition EXP_TABLE : list byte :=
  Eval vm_compute in ok_or_nil (gen_exp_table LOG_TABLE).
Definition MUL_TABLE : list (list byte) := gen_mul_table LOG_TABLE EXP_TABLE.

Lemma LOG_TABLE_gen : gen_log_table GENERATING_POLYNOMIAL = Ok LOG_TABLE.
Proof. vm_compute. reflexivity. Qed.
Lemma EXP_TABLE_gen : gen_exp_table LOG_TABLE = Ok EXP_TABLE.
Proof. vm_compute. reflexivity. Qed.

(** ** [galois_8]: element operations *)
Module galois_8.
Definition add (a b : byte) : byte := u8_xor a b.

Definition mul (a b : byte) : byte :=
  tbl (default [] (MUL_TABLE !! u8_to_nat a)) (u8_to_nat b).

Definition div (a b : byte) : byte :=
  if bool_decide (a = x00) || bool_decide (b = x00) then x00
  else
    let log_a := tbl LOG_TABLE (u8_to_nat a) in
    let log_b := tbl LOG_TABLE (u8_to_nat b) in
    let log_result := (Z.of_N (u8_to_N log_a) - Z.of_N (u8_to_N log_b))%Z in
    let log_result := if (log_result <? 0)%Z then (log_result + 255)%Z else log_result in
    tbl EXP_TABLE (Z.to_nat log_result).

Definition exp (a : byte) (n : N) : byte :=
  if (n =? 0)%N then x01
  else if bool_decide (a = x00) then x00
  else
    let period := 255%N in
    let log_a := u8_to_N (tbl LOG_TABLE (u8_to_nat a)) in
    let log_result := ((log_a * (n mod period)) mod period)%N in
    tbl EXP_TABLE (N.to_nat log_result).

(** [scalar::mul_slice_pure_rust] *)
Definition mul_slice_pure_rust (c : byte) (input out : list byte) : option (list byte) :=
  if decide (length input = length out) then
    if bool_decide (c = x00) then Some (replicate (length out) x00)
    else if bool_decide (c = x01) then Some input
    else
      let mt := default [] (MUL_TABLE !! u8_to_nat c) in
      Some (zip_with (λ i _, tbl mt (u8_to_nat i)) input out)
  else None.

(** [scalar::mul_slice_xor_pure_rust] *)
Definition mul_slice_xor_pure_rust (c : byte) (input out : list byte)
  : option (list byte) :=
  if decide (length input = length out) then
    if bool_decide (c = x00) then Some out
    else if bool_decide (c = x01) then Some (zip_with (λ i o, u8_xor o i) input out)
    else
      let mt := default [] (MUL_TABLE !! u8_to_nat c) in
      Some (zip_with (λ i o, u8_xor o (tbl mt (u8_to_nat i))) input out)
  else None.
End galois_8.

(** ** The tables are a discrete logarithm *)
Section logs.
Import galois_8.

(** The generator's powers and the discrete log, as naturals. *)
Definition gexp (n : nat) : byte := tbl EXP_TABLE (n mod 255).
Definition glog (a : byte) : nat := u8_to_nat (tbl LOG_TABLE (u8_to_nat a)).

(** Facts of one byte are checked by evaluation over the 256 values. *)
Definition check_log (a : byte) : bool :=
  bool_decide (a = x00) ||
  ((glog a <? 255) && bool_decide (tbl EXP_TABLE (glog a) = a)).
Lemma check_log_all : forallb check_log all_bytes = true.
Proof. vm_compute. reflexivity. Qed.

Definition check_exp (n : nat) : bool :=
  bool_decide (tbl EXP_TABLE (n + 255) = tbl EXP_TABLE n) &&
  (glog (tbl EXP_TABLE n) =? n) && negb (bool_decide (tbl EXP_TABLE n = x00)).
Lemma check_exp_all : forallb check_exp (seq 0 255) = true.
Proof. vm_compute. reflexivity. Qed.

Lemma glog_spec a : a ≠ x00 → glog a < 255 ∧ tbl EXP_TABLE (glog a) = a.
Proof.
  intros Ha. pose proof (byte_forall _ check_log_all a) as H.
  unfold check_log in H. rewrite bool_decide_eq_false_2 in H by done.
  apply andb_true_iff in H as [H1%Nat.ltb_lt H2%bool_decide_eq_true]. done.
Qed.

Lemma exp_table_spec n : n < 255 →
  tbl EXP_TABLE (n + 255) = tbl EXP_TABLE n ∧ glog (tbl EXP_TABLE n) = n
  ∧ tbl EXP_TABLE n ≠ x00.
Proof.
  intros Hn. pose proof check_exp_all as H.
  eapply forallb_forall in H; [|apply in_seq; split; [apply Nat.le_0_l|exact Hn]].
  unfold check_exp in H.
  apply andb_true_iff in H as [[H1%bool_decide_eq_true H2%Nat.eqb_eq]%andb_true_iff H3].
  split; [done|]. split; [done|]. intros E. by rewrite E in H3.
Qed.

(** The exp table is [gexp] on its whole index range. *)
Lemma tbl_exp n : n < 510 → tbl EXP_TABLE n = gexp n.
Proof.
  intros Hn. unfold gexp. destruct (decide (n < 255)).
  - by rewrite Nat.mod_small.
  - replace n with ((n - 255) + 1 * 255) at 2 by lia.
    rewrite Nat.Div0.mod_add, Nat.mod_small by lia.
    replace n with ((n - 255) + 255) at 1 by lia.
    apply exp_table_spec. lia.
Qed.

Lemma gexp_nonzero n : gexp n ≠ x00.
Proof. apply exp_table_spec. by apply Nat.mod_upper_bound. Qed.

Lemma glog_gexp n : glog (gexp n) = n mod 255.
Proof. apply exp_table_spec. by apply Nat.mod_upper_bound. Qed.

Lemma gexp_glog a : a ≠ x00 → gexp (glog a) = a.
Proof.
  intros Ha. destruct (glog_spec a Ha). unfold gexp. by rewrite Nat.mod_small.
Qed.

Lemma gexp_mod n : gexp (n mod 255) = gexp n.
Proof. unfold gexp. by rewrite Nat.Div0.mod_mod. Qed.

Lemma gexp_add_mod_l n m : gexp (n mod 255 + m) = gexp (n + m).
Proof. rewrite <-gexp_mod, Nat.Div0.add_mod_idemp_l. apply gexp_mod. Qed.

Lemma zero_or_gexp a : a = x00 ∨ ∃ n, n < 255 ∧ a = gexp n.
Proof.
  destruct (decide (a = x00)) as [->|Ha]; [by left|right].
  exists (glog a). split; [by apply glog_spec|]. symmetry. by apply gexp_glog.
Qed.

(** [mul] reads the table entry that [multiply] computed. *)
Lemma mul_multiply a b : mul a b = multiply LOG_TABLE EXP_TABLE a b.
Proof.
  unfold mul, MUL_TABLE, gen_mul_table.
  erewrite default_map by (apply lookup_seq_lt, u8_to_nat_bound).
  unfold tbl at 1. erewrite default_map by (apply lookup_seq_lt, u8_to_nat_bound).
  rewrite !Nat.add_0_l. unfold u8_to_nat. by rewrite !N2Nat.id, !as_u8_to_N.
Qed.

Lemma u8_mul_0_l b : mul x00 b = x00.
Proof. by rewrite mul_multiply. Qed.
Lemma u8_mul_0_r a : mul a x00 = x00.
Proof.
  rewrite mul_multiply. unfold multiply.
  by rewrite (bool_decide_eq_true_2 (x00 = x00)), orb_true_r.
Qed.

Lemma mul_gexp n m : mul (gexp n) (gexp m) = gexp (n + m).
Proof.
  rewrite mul_multiply. unfold multiply.
  rewrite !bool_decide_eq_false_2 by apply gexp_nonzero. simpl.
  change (tbl EXP_TABLE (glog (gexp n) + glog (gexp m)) = gexp (n + m)).
  rewrite !glog_gexp.
  pose proof (Nat.mod_upper_bound n 255). pose proof (Nat.mod_upper_bound m 255).
  rewrite tbl_exp by lia.
  by rewrite gexp_add_mod_l, Nat.add_comm, gexp_add_mod_l, Nat.add_comm.
Qed.

Lemma gexp_0 : gexp 0 = x01.
Proof. reflexivity. Qed.

Lemma mul_comm a b : mul a b = mul b a.
Proof.
  destruct (zero_or_gexp a) as [->|[n [_ ->]]]; [by rewrite u8_mul_0_l, u8_mul_0_r|].
  destruct (zero_or_gexp b) as [->|[m [_ ->]]]; [by rewrite u8_mul_0_l, u8_mul_0_r|].
  by rewrite !mul_gexp, Nat.add_comm.
Qed.

Lemma mul_assoc a b c : mul a (mul b c) = mul (mul a b) c.
Proof.
  destruct (zero_or_gexp a) as [->|[n [_ ->]]]; [by rewrite !u8_mul_0_l|].
  destruct (zero_or_gexp b) as [->|[m [_ ->]]]; [by rewrite u8_mul_0_l, u8_mul_0_r, u8_mul_0_l|].
  destruct (zero_or_gexp c) as [->|[k [_ ->]]]; [by rewrite !u8_mul_0_r|].
  by rewrite !mul_gexp, Nat.add_assoc.
Qed.

Lemma mul_1_l a : mul x01 a = a.
Proof.
  destruct (zero_or_gexp a) as [->|[n [_ ->]]]; [by rewrite u8_mul_0_r|].
  by rewrite <-gexp_0, mul_gexp.
Qed.

(** Multiplication by the generator is the shift-and-reduce of [build.rs]. *)
Definition xtime (n : N) : N :=
  N.lxor (N.shiftl n 1) (if N.testbit n 7 then 285 else 0)%N.

Lemma mul_2 a : u8_to_N (mul x02 a) = xtime (u8_to_N a).
Proof.
  rewrite mul_multiply. apply N.eqb_eq. revert a.
  apply (byte_forall (λ a, N.eqb (u8_to_N (multiply LOG_TABLE EXP_TABLE x02 a))
                                 (xtime (u8_to_N a)))).
  vm_compute. reflexivity.
Qed.

Lemma xtime_xor n m : xtime (N.lxor n m) = N.lxor (xtime n) (xtime m).
Proof.
  unfold xtime. rewrite N.shiftl_lxor, N.lxor_spec.
  generalize 285%N, (N.shiftl n 1), (N.shiftl m 1). intros r sn sm.
  apply N.bits_inj. intros i. rewrite !N.lxor_spec.
  destruct (N.testbit n 7), (N.testbit m 7); cbn [xorb];
    rewrite ?N.bits_0; destruct (N.testbit sn i), (N.testbit sm i),
      (N.testbit r i); reflexivity.
Qed.

Lemma mul_2_xor a b : mul x02 (u8_xor a b) = u8_xor (mul x02 a) (mul x02 b).
Proof.
  apply u8_to_N_inj. by rewrite mul_2, !u8_to_N_xor, xtime_xor, !mul_2.
Qed.

Lemma mul_xor_r a b c : mul a (u8_xor b c) = u8_xor (mul a b) (mul a c).
Proof.
  destruct (zero_or_gexp a) as [->|[n [_ ->]]]; [by rewrite !u8_mul_0_l|].
  revert b c. induction n as [|n IH]; intros b c.
  - by rewrite gexp_0, !mul_1_l.
  - change (S n) with (1 + n). rewrite <-mul_gexp, <-!mul_assoc, IH.
    apply mul_2_xor.
Qed.

Lemma div_gexp n m : n < 255 → m < 255 → div (gexp n) (gexp m) = gexp (n + 255 - m).
Proof.
  intros Hn Hm. unfold div.
  rewrite !bool_decide_eq_false_2 by apply gexp_nonzero. simpl.
  rewrite <-!N_nat_Z.
  change (N.to_nat (u8_to_N (tbl LOG_TABLE (u8_to_nat (gexp n))))) with (glog (gexp n)).
  change (N.to_nat (u8_to_N (tbl LOG_TABLE (u8_to_nat (gexp m))))) with (glog (gexp m)).
  rewrite !glog_gexp, !Nat.mod_small by done.
  destruct (Z.ltb_spec (Z.of_nat n - Z.of_nat m) 0).
  - rewrite tbl_exp by lia. f_equal. lia.
  - rewrite tbl_exp by lia.
    replace (n + 255 - m) with ((n - m) + 1 * 255) by lia.
    rewrite <-(gexp_mod (n - m + 1 * 255)), Nat.Div0.mod_add, gexp_mod. f_equal. lia.
Qed.

Lemma div_mul a b : b ≠ x00 → mul (div a b) b = a.
Proof.
  intros Hb. destruct (zero_or_gexp b) as [->|[m [Hm ->]]]; [done|].
  destruct (zero_or_gexp a) as [->|[n [Hn ->]]].
  { unfold div. rewrite bool_decide_eq_true_2 by done. apply u8_mul_0_l. }
  rewrite div_gexp, mul_gexp by done.
  replace (n + 255 - m + m) with (n + 1 * 255) by lia.
  by rewrite <-gexp_mod, Nat.Div0.mod_add, gexp_mod.
Qed.

(** Division by zero returns zero. *)
Lemma div_0_r a : div a x00 = x00.
Proof. unfold div. by rewrite (bool_decide_eq_true_2 (x00 = x00)), orb_true_r. Qed.

Lemma exp_gexp k n : n ≠ 0%N → k < 255 →
  exp (gexp k) n = gexp (k * (N.to_nat n mod 255)).
Proof.
  intros Hn Hk. unfold exp. rewrite (proj2 (N.eqb_neq _ _) Hn).
  rewrite bool_decide_eq_false_2 by apply gexp_nonzero.
  assert (u8_to_N (tbl LOG_TABLE (u8_to_nat (gexp k))) = N.of_nat k) as ->.
  { apply N2Nat.inj. rewrite Nat2N.id.
    change (glog (gexp k) = k). rewrite glog_gexp. by apply Nat.mod_small. }
  rewrite N2Nat.inj_mod, N2Nat.inj_mul, N2Nat.inj_mod, Nat2N.id.
  change (N.to_nat 255) with 255. rewrite tbl_exp.
  - by rewrite gexp_mod.
  - pose proof (Nat.mod_upper_bound (k * (N.to_nat n mod 255)) 255). lia.
Qed.

Lemma exp_succ a n : exp a (N.succ n) = mul a (exp a n).
Proof.
  destruct (zero_or_gexp a) as [->|[k [Hk ->]]].
  { unfold exp. rewrite (proj2 (N.eqb_neq (N.succ n) 0)) by lia.
    rewrite bool_decide_eq_true_2 by done. by rewrite u8_mul_0_l. }
  rewrite exp_gexp by lia. destruct (decide (n = 0%N)) as [->|Hn].
  { change (exp (gexp k) 0) with x01. change x01 with (gexp 0) at 1.
    rewrite mul_gexp. f_equal. simpl. lia. }
  rewrite exp_gexp by done. rewrite mul_gexp, N2Nat.inj_succ.
  rewrite <-gexp_mod, Nat.Div0.mul_mod_idemp_r.
  rewrite <-(gexp_mod (k + _)), <-Nat.Div0.add_mod_idemp_r, Nat.Div0.mul_mod_idemp_r.
  rewrite Nat.Div0.add_mod_idemp_r. f_equal. f_equal. lia.
Qed.
End logs.

(** ** The scalar slice kernels agree with the element product *)
Section scalar.
Import galois_8.

Lemma mul_row c i :
  tbl (default [] (MUL_TABLE !! u8_to_nat c)) (u8_to_nat i) = mul c i.
Proof. done. Qed.

Lemma zip_with_fst_eq {A B C} (f : A → B → C) (g : A → C) (l : list A) (k : list B) :
  length l = length k → (∀ x y, f x y = g x) → zip_with f l k = map g l.
Proof.
  intros Hl Hf. revert k Hl. induction l as [|x l IH]; intros [|y k] Hl; simplify_eq/=; [done|].
  f_equal; [apply Hf|apply IH; lia].
Qed.

Lemma mul_slice_scalar c input out :
  mul_slice_pure_rust c input out =
  if decide (length input = length out)
  then Some (zip_with (λ i _, mul c i) input out) else None.
Proof.
  unfold mul_slice_pure_rust. case_decide as Hl; [|done].
  replace (zip_with (λ i _ : byte, mul c i) input out) with (map (mul c) input)
    by (symmetry; by apply zip_with_fst_eq).
  case_bool_decide as H0; [|case_bool_decide as H1].
  - subst. f_equal. rewrite <-Hl. clear Hl.
    induction input; simpl; [done|]. rewrite u8_mul_0_l. congruence.
  - subst. f_equal. clear Hl.
    induction input; simpl; [done|]. rewrite mul_1_l. congruence.
  - by rewrite (zip_with_fst_eq _ (mul c)) by done.
Qed.

Lemma mul_slice_xor_scalar c input out :
  mul_slice_xor_pure_rust c input out =
  if decide (length input = length out)
  then Some (zip_with (λ i o, u8_xor o (mul c i)) input out) else None.
Proof.
  unfold mul_slice_xor_pure_rust. case_decide as Hl; [|done].
  case_bool_decide as H0; [|case_bool_decide as H1]; [..|done]; subst; f_equal.
  - revert out Hl. induction input as [|i input IH]; intros [|o out] Hl; simplify_eq/=; [done|].
    rewrite u8_mul_0_l, u8_xor_0_r. f_equal. apply IH. lia.
  - clear Hl. revert out. induction input as [|i input IH]; intros [|o out]; simpl; [done..|].
    rewrite mul_1_l. f_equal. apply IH.
Qed.
End scalar.

(** ** The field *)
#[export] Instance gf8 : Field := {|
  Elem := byte;
  ORDER := 256;
  add := galois_8.add;
  mul := galois_8.mul;
  div := galois_8.div;
  exp := galois_8.exp;
  zero := x00;
  one := x01;
  nth_internal := as_u8;
  mul_slice := galois_8.mul_slice_pure_rust;
  mul_slice_add := galois_8.mul_slice_xor_pure_rust;
  as_gf8_slice := Some;
  as_gf8_slice_mut := λ s, Some (s, λ new, new);
  stable_format := Some ("rustfs.gf8.poly-11d.u8.v1"%string, 1%N);
  write_format_element := λ e len, if len =? 1 then Some [e] else None;
|}.

#[export] Instance gf8_laws : FieldLaws gf8.
Proof.
  constructor; simpl; unfold galois_8.add.
  - apply u8_xor_comm.
  - apply u8_xor_assoc.
  - apply u8_xor_0_l.
  - apply u8_xor_self.
  - apply mul_comm.
  - apply mul_assoc.
  - apply mul_1_l.
  - intros a b c. by rewrite !(mul_comm _ c), mul_xor_r.
  - done.
  - apply div_mul.
  - done.
  - apply exp_succ.
  - apply as_u8_small_inj.
  - apply mul_slice_scalar.
  - apply mul_slice_xor_scalar.
Qed.

(** ** Nibble tables *)
Section nibbles.
Import galois_8.

Definition nibble_masks (b : nat) : bool :=
  Bool.eqb (N.land (N.of_nat b) 15 =? N.of_nat b)%N (b <? 16) &&
  Bool.eqb (N.land (N.of_nat b) 240 =? N.of_nat b)%N (b mod 16 =? 0) &&
  (N.to_nat (N.shiftr (N.of_nat b) 4) =? b / 16).
Lemma nibble_masks_all : forallb nibble_masks (seq 0 256) = true.
Proof. vm_compute. reflexivity. Qed.

Definition row_half_inv (a b : nat) (st : list byte * list byte) : Prop :=
  length st.1 = 16 ∧ length st.2 = 16 ∧
  (∀ k, k < 16 → k < b → st.1 !! k = Some (mul (as_u8 (N.of_nat a)) (as_u8 (N.of_nat k)))) ∧
  (∀ k, k < 16 → k * 16 < b →
     st.2 !! k = Some (mul (as_u8 (N.of_nat a)) (as_u8 (N.of_nat (k * 16))))).

Lemma u8_to_nat_as_u8 a : a < 256 → u8_to_nat (as_u8 (N.of_nat a)) = a.
Proof.
  intros. unfold u8_to_nat. rewrite u8_to_N_as_u8, N.mod_small by lia. lia.
Qed.

Lemma mul_cell a b : a < 256 → b < 256 →
  mul (as_u8 (N.of_nat a)) (as_u8 (N.of_nat b)) =
  if negb ((a =? 0) || (b =? 0))
  then tbl EXP_TABLE (u8_to_nat (tbl LOG_TABLE a) + u8_to_nat (tbl LOG_TABLE b))
  else x00.
Proof.
  intros Ha Hb. rewrite mul_multiply. unfold multiply.
  assert (∀ x, x < 256 → bool_decide (as_u8 (N.of_nat x) = x00) = (x =? 0)) as Hz.
  { intros x Hx. apply eq_true_iff_eq. rewrite bool_decide_eq_true, Nat.eqb_eq. split.
    - intros E%(f_equal u8_to_nat). by rewrite u8_to_nat_as_u8 in E.
    - by intros ->. }
  rewrite !Hz, !u8_to_nat_as_u8 by done. by destruct (a =? 0), (b =? 0).
Qed.

Lemma gen_mul_row_half_spec a : a < 256 →
  ensures (gen_mul_row_half LOG_TABLE EXP_TABLE a) (row_half_inv a 256) (λ _, False).
Proof.
  intros Ha. unfold gen_mul_row_half.
  apply for_range_ensures; [unfold FIELD_SIZE; lia| |].
  { split_and!; simpl; [done..|intros; lia|intros; lia]. }
  intros b [low high] Hb (Hl & Hh & Hlow & Hhigh). unfold FIELD_SIZE in Hb. simpl in *.
  pose proof nibble_masks_all as Hm.
  eapply forallb_forall in Hm; [|apply in_seq; split; [apply Nat.le_0_l|apply Hb]].
  unfold nibble_masks in Hm.
  apply andb_true_iff in Hm as [[Hm1%eqb_prop Hm2%eqb_prop]%andb_true_iff Hm3%Nat.eqb_eq].
  rewrite Hm1, Hm2, Hm3. rewrite <-mul_cell by lia.
  set (v := mul _ _).
  assert (∃ low', (if b <? 16 then update low b v else Ok low) = Ok (E:=Empty_set) low' ∧
    length low' = 16 ∧ ∀ k, k < 16 → k < 1 + b →
      low' !! k = Some (mul (as_u8 (N.of_nat a)) (as_u8 (N.of_nat k)))) as (low' & -> & ? & Hlow').
  { destruct (Nat.ltb_spec b 16).
    - eexists. rewrite update_ok by lia. split; [done|]. rewrite length_insert. split; [done|].
      intros k Hk Hkb. destruct (decide (k = b)) as [->|].
      + by rewrite list_lookup_insert_eq by lia.
      + rewrite list_lookup_insert_ne by done. apply Hlow; lia.
    - eexists. split; [done|]. split; [done|]. intros. apply Hlow; lia. }
  cbn [obind].
  destruct (Nat.eqb_spec (b mod 16) 0) as [Hb0|Hb0].
  - pose proof (Nat.div_mod_eq b 16) as Hq. rewrite Hb0 in Hq.
    set (q := b `div` 16) in *. clearbody q.
    rewrite update_ok by lia. cbn [obind ensures].
    split_and!; simpl; rewrite ?length_insert; [done..|].
    intros k Hk Hkb.
    destruct (decide (k = q)) as [->|].
    + rewrite list_lookup_insert_eq by lia. unfold v. do 3 f_equal. f_equal. lia.
    + rewrite list_lookup_insert_ne by done. apply Hhigh; [done|]. lia.
  - simpl. split_and!; simpl; [done..|].
    intros k Hk Hkb. apply Hhigh; [done|].
    assert (k * 16 ≠ b); [|lia]. intros <-. by rewrite Nat.Div0.mod_mul in Hb0.
Qed.
End nibbles.

Section nibble_theorem.
Import galois_8.

Definition low_nibble (b : byte) : nat := u8_to_nat b mod 16.
Definition high_nibble (b : byte) : nat := u8_to_nat b / 16.

Lemma nibble_xor b :
  b = u8_xor (as_u8 (N.of_nat (low_nibble b))) (as_u8 (N.of_nat (high_nibble b * 16))).
Proof.
  apply (bool_decide_eq_true_1 _). revert b.
  apply (byte_forall (λ b, bool_decide (b = u8_xor (as_u8 (N.of_nat (low_nibble b)))
                                           (as_u8 (N.of_nat (high_nibble b * 16)))))).
  vm_compute. reflexivity.
Qed.

(** Every cell of the generated half tables is a product, and a product is
    the XOR of two nibble lookups: the identity of the shuffle kernels. *)
Theorem gen_mul_table_half_spec :
  ∃ t, gen_mul_table_half LOG_TABLE EXP_TABLE = Ok t ∧ length t = 256 ∧
    ∀ a b, ∃ low high, t !! u8_to_nat a = Some (low, high) ∧
      length low = 16 ∧ length high = 16 ∧
      mul a b = u8_xor (tbl low (low_nibble b)) (tbl high (high_nibble b)).
Proof.
  assert (ensures (gen_mul_table_half LOG_TABLE EXP_TABLE)
    (Forall2 (λ a st, row_half_inv a 256 st) (seq 0 FIELD_SIZE)) (λ _, False)) as H.
  { unfold gen_mul_table_half.
    apply (map_outcome_ensures _ _ (λ a st, row_half_inv a 256 st)). intros a [_ Ha]%elem_of_seq.
    apply gen_mul_row_half_spec. unfold FIELD_SIZE in Ha. lia. }
  revert H. generalize (gen_mul_table_half LOG_TABLE EXP_TABLE). intros m H.
  apply ensures_noerr in H as (t & -> & Ht). exists t. split; [done|]. split.
  { apply Forall2_length in Ht. by rewrite length_seq in Ht. }
  intros a b. pose proof (u8_to_nat_bound a) as Ha. pose proof (u8_to_nat_bound b) as Hb.
  destruct (Forall2_lookup_l _ _ _ _ _ Ht (lookup_seq_lt 0 FIELD_SIZE _ Ha))
    as ([low high] & Hlk & Hl & Hh & Hlow & Hhigh). rewrite Nat.add_0_l in *.
  exists low, high. split_and!; [done..|].
  pose proof (Nat.div_mod_eq (u8_to_nat b) 16).
  pose proof (Nat.mod_upper_bound (u8_to_nat b) 16).
  unfold tbl, low_nibble, high_nibble. simpl in Hlow, Hhigh.
  rewrite Hlow, Hhigh by lia. simpl.
  assert (as_u8 (N.of_nat (u8_to_nat a)) = a) as ->.
  { unfold u8_to_nat. by rewrite N2Nat.id, as_u8_to_N. }
  rewrite <-mul_xor_r. f_equal. apply nibble_xor.
Qed.

(** The byte operations of [galois_8] form the field GF(2^8): commutative
    group under XOR in characteristic two, commutative monoid under the table
    product, distributivity, inverses by [div], and [exp] is the power. *)
Theorem gf8_is_field :
  (∀ a b c, add a (add b c) = add (add a b) c) ∧
  (∀ a b, add a b = add b a) ∧ (∀ a, add x00 a = a) ∧ (∀ a, add a a = x00) ∧
  (∀ a b c, mul a (mul b c) = mul (mul a b) c) ∧
  (∀ a b, mul a b = mul b a) ∧ (∀ a, mul x01 a = a) ∧
  (∀ a b c, mul a (add b c) = add (mul a b) (mul a c)) ∧
  (∀ a b, mul (div a b) b = if decide (b = x00) then x00 else a) ∧
  (∀ a, exp a 0 = x01) ∧ (∀ a n, exp a (N.succ n) = mul a (exp a n)).
Proof.
  unfold add. split_and!;
    eauto using u8_xor_assoc, u8_xor_comm, u8_xor_0_l, u8_xor_self, mul_assoc,
      mul_comm, mul_1_l, mul_xor_r, exp_succ.
  intros a b. case_decide as Hb; [subst; apply u8_mul_0_r|by apply div_mul].
Qed.
End nibble_theorem.
