(* ===== verification/Gf16.v ===== *)
(** * GF(2^16) as GF((2^8)^2) ([src/galois_16.rs])

    Elements are pairs [[ax, ac]] for [ax*X + ac], reduced by
    [X^2 + 2X + 128].  [Element] is the quadratic-extension arithmetic and
    [FieldLaws] for it; [gf16_mul_slice] is the byte-plane slice kernel, proved
    equal to the element product. *)

From Stdlib Require Import NArith ZArith Lia List Bool String Ring.
From stdpp Require Import base numbers list.
From S2P Require Import Prelude Bytes Fields Gf8.

(** [EXT_POLY] is the monic polynomial with these lower coefficients. *)
Definition EXT_POLY_1 : byte := x02.
Definition EXT_POLY_2 : byte := x80.

Module galois_16.
(** [Element([u8; 2])] *)
Abbreviation Element := (byte * byte)%type.

Definition elem_zero : Element := (x00, x00).
Definition constant (n : byte) : Element := (x00, n).
Definition is_zero (e : Element) : bool := bool_decide (e = (x00, x00)).

Definition add (a b : Element) : Element := (u8_xor a.1 b.1, u8_xor a.2 b.2).

(** [Element::reduce_from], on [[x0, x1, x2]]. *)
Definition reduce_from (x0 x1 x2 : byte) : Element :=
  if negb (bool_decide (x0 = x00)) then
    (u8_xor x1 (galois_8.mul EXT_POLY_1 x0), u8_xor x2 (galois_8.mul EXT_POLY_2 x0))
  else (x1, x2).

(** [impl Mul for Element] *)
Definition mul (a b : Element) : Element :=
  reduce_from
    (galois_8.mul a.1 b.1)
    (galois_8.add (galois_8.mul a.2 b.1) (galois_8.mul a.1 b.2))
    (galois_8.mul a.2 b.2).

(** [Element::inverse] *)
Definition inverse (a : Element) : Element :=
  let '(ax, ac) := a in
  if bool_decide (ax = x00) then
    (if bool_decide (ac = x00) then elem_zero else constant (galois_8.div x01 ac))
  else
    let conjugate_c := u8_xor ac (galois_8.mul EXT_POLY_1 ax) in
    let norm := u8_xor (galois_8.mul ac conjugate_c)
                       (galois_8.mul EXT_POLY_2 (galois_8.mul ax ax)) in
    let norm_inverse := galois_8.div x01 norm in
    (galois_8.mul ax norm_inverse, galois_8.mul conjugate_c norm_inverse).

(** [impl Div for Element] *)
Definition div (a b : Element) : Element := mul a (inverse b).

(** The square-and-multiply loop of [Element::exp]: [while bit != 0]. The
    mask halves each turn, so [log2 bit + 2] turns of fuel are enough. *)
Fixpoint exp_loop (fuel : nat) (self power : Element) (n bit : N) : option Element :=
  match fuel with
  | O => None
  | S fuel =>
      if (bit =? 0)%N then Some power
      else
        let power := mul power power in
        let power := if negb (N.land n bit =? 0)%N then mul power self else power in
        exp_loop fuel self power n (N.shiftr bit 1)
  end.

(** [Element::exp]; [None] is running out of fuel, excluded by [exp_spec]. *)
Definition exp_fuel (self : Element) (n : N) : option Element :=
  if (n =? 0)%N then Some (constant x01)
  else if bool_decide (self = elem_zero) then Some elem_zero
  else
    let n := (n mod (65536 - 1))%N in
    if (n =? 0)%N then Some (constant x01)
    else
      let bit := N.shiftr (N.shiftl 1 (N.log2 n)) 1 in
      exp_loop (2 + N.to_nat (N.log2 bit)) self self n bit.

Definition exp (self : Element) (n : N) : Element := default elem_zero (exp_fuel self n).

(** [Field::nth_internal] *)
Definition nth_internal (n : N) : Element := (as_u8 (N.shiftr n 8), as_u8 n).
End galois_16.

(** ** The extension arithmetic is a field *)
Section algebra.
Import galois_16.

Lemma gf8_ring_theory :
  ring_theory x00 x01 galois_8.add galois_8.mul galois_8.add (λ a, a) eq.
Proof. exact (field_ring_theory (F:=gf8)). Qed.
Lemma gf8_ring_morph :
  ring_morph x00 x01 galois_8.add galois_8.mul galois_8.add (λ a, a) eq
    false true xorb andb xorb (λ x, x) Bool.eqb (of_bool (F:=gf8)).
Proof. exact (field_ring_morph (F:=gf8)). Qed.
Ltac gf8_const t :=
  match t with
  | x00 => constr:(false)
  | x01 => constr:(true)
  | _ => constr:(InitialRing.NotConstant)
  end.
Add Ring gf8_ring : gf8_ring_theory (morphism gf8_ring_morph, constants [gf8_const]).

(** Products as polynomials reduced by the extension polynomial. *)
Lemma reduce_from_eq x0 x1 x2 :
  reduce_from x0 x1 x2 =
  (galois_8.add x1 (galois_8.mul EXT_POLY_1 x0), galois_8.add x2 (galois_8.mul EXT_POLY_2 x0)).
Proof.
  unfold reduce_from. case_bool_decide as H; [|done]. subst. simpl.
  rewrite !u8_mul_0_r. unfold galois_8.add. by rewrite !u8_xor_0_r.
Qed.

Lemma mul_pair a0 a1 b0 b1 :
  mul (a0, a1) (b0, b1) =
  (galois_8.add (galois_8.add (galois_8.mul a1 b0) (galois_8.mul a0 b1))
                (galois_8.mul EXT_POLY_1 (galois_8.mul a0 b0)),
   galois_8.add (galois_8.mul a1 b1) (galois_8.mul EXT_POLY_2 (galois_8.mul a0 b0))).
Proof. unfold mul. by rewrite reduce_from_eq. Qed.

Lemma add_pair a0 a1 b0 b1 :
  add (a0, a1) (b0, b1) = (galois_8.add a0 b0, galois_8.add a1 b1).
Proof. done. Qed.

(** [X^2 + 2X + 128] has no root in GF(2^8): evaluated at the 256 bytes. *)
Lemma ext_poly_no_root t :
  galois_8.add (galois_8.mul t (galois_8.add t EXT_POLY_1)) EXT_POLY_2 ≠ x00.
Proof.
  assert (∀ t, negb (bool_decide (galois_8.add (multiply LOG_TABLE EXP_TABLE t
            (galois_8.add t EXT_POLY_1)) EXT_POLY_2 = x00)) = true) as H.
  { apply byte_forall. vm_compute. reflexivity. }
  pose proof (H t) as Ht. rewrite <-mul_multiply in Ht.
  by apply negb_true_iff, bool_decide_eq_false in Ht.
Qed.

Definition norm (ax ac : byte) : byte :=
  galois_8.add (galois_8.mul ac (galois_8.add ac (galois_8.mul EXT_POLY_1 ax)))
               (galois_8.mul EXT_POLY_2 (galois_8.mul ax ax)).

Lemma norm_neq_0 ax ac : ax ≠ x00 → norm ax ac ≠ x00.
Proof.
  intros Hx.
  assert (∃ t, ac = galois_8.mul t ax) as [t ->].
  { exists (galois_8.div ac ax). symmetry. by apply div_mul. }
  assert (norm ax (galois_8.mul t ax) =
    galois_8.mul (galois_8.mul ax ax)
      (galois_8.add (galois_8.mul t (galois_8.add t EXT_POLY_1)) EXT_POLY_2)) as ->
    by (unfold norm; ring).
  apply (mul_neq_0 (F:=gf8)); [by apply (mul_neq_0 (F:=gf8))|apply ext_poly_no_root].
Qed.

Lemma inverse_mul a : a ≠ elem_zero → mul (inverse a) a = constant x01.
Proof.
  destruct a as [ax ac]. intros Ha. unfold inverse.
  case_bool_decide as Hx; [case_bool_decide as Hc|].
  - subst. done.
  - subst. unfold constant. rewrite mul_pair, div_mul by done.
    f_equal; ring.
  - change (u8_xor ac (galois_8.mul EXT_POLY_1 ax))
      with (galois_8.add ac (galois_8.mul EXT_POLY_1 ax)).
    change (u8_xor _ _) with (norm ax ac).
    pose proof (div_mul x01 _ (norm_neq_0 ax ac Hx)) as Hn.
    set (i := galois_8.div x01 (norm ax ac)) in *.
    rewrite mul_pair. unfold constant. f_equal; [ring|].
    rewrite <-Hn. unfold norm. ring.
Qed.

(** The field with [exp] as the iterated product; [exp_spec] below shows
    that the square-and-multiply loop computes it. *)
Definition gf16_alg : Field := {|
  Elem := Element;
  ORDER := 65536;
  Fields.add := add;
  Fields.mul := mul;
  Fields.div := div;
  Fields.exp := λ a n, N.iter n (mul a) (constant x01);
  zero := elem_zero;
  one := constant x01;
  Fields.nth_internal := nth_internal;
  mul_slice := λ c i o,
    if decide (length i = length o) then Some (zip_with (λ x _, mul c x) i o) else None;
  mul_slice_add := λ c i o,
    if decide (length i = length o) then Some (zip_with (λ x y, add y (mul c x)) i o) else None;
  as_gf8_slice := λ _, None;
  as_gf8_slice_mut := λ _, None;
  stable_format := None;
  write_format_element := λ _ _, None;
|}.

Lemma nth_internal_inj16 n m :
  (n < 65536)%N → (m < 65536)%N → nth_internal n = nth_internal m → n = m.
Proof.
  unfold nth_internal. intros Hn Hm [= H1 H2].
  apply (f_equal u8_to_N) in H1, H2. rewrite !u8_to_N_as_u8 in H1, H2.
  rewrite !N.shiftr_div_pow2 in H1. change (2 ^ 8)%N with 256%N in H1.
  rewrite !N.mod_small in H1 by (apply N.Div0.div_lt_upper_bound; lia).
  rewrite (N.div_mod n 256), (N.div_mod m 256) by done. by rewrite H1, H2.
Qed.

#[export] Instance gf16_alg_laws : FieldLaws gf16_alg.
Proof.
  constructor; simpl.
  - intros [] []. rewrite !add_pair. f_equal; ring.
  - intros [] [] []. rewrite !add_pair. f_equal; ring.
  - intros []. unfold elem_zero. rewrite !add_pair. f_equal; ring.
  - intros []. unfold elem_zero. rewrite !add_pair. f_equal; ring.
  - intros [] []. rewrite !mul_pair. f_equal; ring.
  - intros [] [] []. rewrite !mul_pair. f_equal; ring.
  - intros []. unfold constant. rewrite !mul_pair. f_equal; ring.
  - intros [] [] []. rewrite !add_pair, !mul_pair, !add_pair. f_equal; ring.
  - done.
  - intros a b Hb. unfold div. pose proof (inverse_mul b Hb) as Hi.
    destruct a as [a0 a1], b as [b0 b1], (inverse (b0, b1)) as [i0 i1].
    assert (mul (mul (a0, a1) (i0, i1)) (b0, b1) =
            mul (a0, a1) (mul (i0, i1) (b0, b1))) as ->.
    { rewrite !mul_pair. f_equal; ring. }
    rewrite Hi. unfold constant. rewrite mul_pair. f_equal; ring.
  - done.
  - intros. apply N.iter_succ.
  - apply nth_internal_inj16.
  - done.
  - done.
Qed.
End algebra.

(** ** [exp] is the power: Frobenius gives the period 65535 *)
Section exponent.
Import galois_16.
Add Ring gf16_ring : (field_ring_theory (F:=gf16_alg))
  (morphism (field_ring_morph (F:=gf16_alg)), constants [field_const]).

Abbreviation pow := (fpow (F:=gf16_alg)).
Abbreviation El := (@Elem gf16_alg).
Notation "a ⊕ b" := (Fields.add (Field:=gf16_alg) a b) (at level 50).
Notation "a ⊗ b" := (Fields.mul (Field:=gf16_alg) a b) (at level 40).

Definition sq (a : El) : El := a ⊗ a.
Fixpoint sqn (k : nat) (a : El) : El :=
  match k with O => a | S k => sqn k (sq a) end.

Lemma sqn_pow k (a : El) : sqn k a = pow a (2 ^ N.of_nat k).
Proof.
  revert a. induction k as [|k IH]; intros a; simpl sqn.
  - symmetry. apply (fpow_1_r (F:=gf16_alg)).
  - rewrite IH. unfold sq. rewrite <-(fpow_2 (F:=gf16_alg)), <-fpow_mul.
    f_equal. rewrite Nat2N.inj_succ, N.pow_succ_r'. done.
Qed.

Lemma sqn_add k (a b : El) : sqn k (a ⊕ b) = sqn k a ⊕ sqn k b.
Proof.
  revert a b. induction k as [|k IH]; intros a b; [done|]. cbn [sqn].
  rewrite <-IH. f_equal. unfold sq. ring.
Qed.

Lemma sqn_mul k (a b : El) : sqn k (a ⊗ b) = sqn k a ⊗ sqn k b.
Proof.
  revert a b. induction k as [|k IH]; intros a b; [done|]. cbn [sqn].
  rewrite <-IH. f_equal. unfold sq. ring.
Qed.

Lemma iter_sq k c :
  Nat.iter k (λ x, galois_8.mul x x) c =
  Nat.iter k (λ x, multiply LOG_TABLE EXP_TABLE x x) c.
Proof. induction k as [|k IH]; [done|]. by rewrite !Nat.iter_succ, IH, mul_multiply. Qed.

(** Squaring eight times fixes the subfield and conjugates [X]. *)
Lemma sqn_8_constant c : sqn 8 (constant c) = constant c.
Proof.
  assert (∀ k b, sqn k (constant b) = constant (Nat.iter k (λ x, galois_8.mul x x) b)) as H.
  { induction k as [|k IH]; intros b; [done|].
    simpl sqn. assert (sq (constant b) = constant (galois_8.mul b b)) as ->.
    { unfold sq. change (mul (constant b) (constant b) = constant (galois_8.mul b b)).
      unfold mul, constant. simpl. by rewrite !u8_mul_0_l, !u8_mul_0_r. }
    rewrite IH, Nat.iter_succ_r. done. }
  rewrite H. f_equal. rewrite iter_sq. apply (bool_decide_eq_true_1 _).
  revert c. apply (byte_forall (λ c,
    bool_decide (Nat.iter 8 (λ x, multiply LOG_TABLE EXP_TABLE x x) c = c))).
  vm_compute. reflexivity.
Qed.

Definition conj (a : Element) : Element := (a.1, galois_8.add a.2 (galois_8.mul EXT_POLY_1 a.1)).

Lemma sqn_8_conj (a : El) : sqn 8 a = conj a.
Proof.
  assert (a = (constant a.1 ⊗ (x01, x00)) ⊕ constant a.2) as E.
  { destruct a as [ax ac].
    change ((ax, ac) = add (mul (constant ax) (x01, x00)) (constant ac)).
    unfold mul, constant, add, galois_8.add. simpl.
    rewrite !u8_mul_0_l, !u8_mul_0_r, (mul_comm ax x01), mul_1_l.
    by rewrite !u8_xor_0_l, !u8_xor_0_r. }
  rewrite E at 1. rewrite sqn_add, sqn_mul, !sqn_8_constant.
  assert (sqn 8 (x01, x00) = (x01, x02)) as -> by (vm_compute; reflexivity).
  destruct a as [ax ac].
  change (add (mul (constant ax) (x01, x02)) (constant ac) = conj (ax, ac)).
  unfold mul, constant, add, conj, galois_8.add. simpl.
  rewrite !u8_mul_0_l, (mul_comm ax x01), mul_1_l.
  rewrite (mul_comm EXT_POLY_1 ax). unfold EXT_POLY_1.
  rewrite !u8_xor_0_r. f_equal. apply u8_xor_comm.
Qed.

Lemma pow_65535 (a : El) : a ≠ elem_zero → pow a 65535 = constant x01.
Proof.
  intros Ha. apply (mul_cancel_l (F:=gf16_alg) a); [done|].
  rewrite <-fpow_succ. change (N.succ 65535) with (2 ^ N.of_nat 8 * 2 ^ N.of_nat 8)%N.
  rewrite fpow_mul, <-!sqn_pow, !sqn_8_conj.
  rewrite (mul_1_r (F:=gf16_alg)). destruct a as [ax ac]. unfold conj, galois_8.add. simpl.
  by rewrite <-u8_xor_assoc, u8_xor_self, u8_xor_0_r.
Qed.

Lemma land_pow2 n j : (N.land n (2 ^ j) =? 0)%N = negb (N.testbit n j).
Proof.
  destruct (N.testbit n j) eqn:Hb; simpl.
  - apply N.eqb_neq. intros H. apply (f_equal (λ x, N.testbit x j)) in H.
    rewrite N.land_spec, Hb, N.pow2_bits_true in H. done.
  - apply N.eqb_eq. apply N.bits_inj_0. intros i. rewrite N.land_spec.
    destruct (N.eq_dec i j) as [->|]; [by rewrite Hb|].
    rewrite N.pow2_bits_false by done. by rewrite andb_false_r.
Qed.

Lemma shiftr_step n j :
  N.shiftr n j = (2 * N.shiftr n (N.succ j) + (if N.testbit n j then 1 else 0))%N.
Proof.
  rewrite <-N.add_1_r, <-N.shiftr_shiftr.
  rewrite (N.div2_odd (N.shiftr n j)) at 1. rewrite N.div2_spec.
  rewrite <-N.bit0_odd, N.shiftr_spec', N.add_0_l.
  by destruct (N.testbit n j).
Qed.

Lemma exp_step a n j :
  (let p := pow a (N.shiftr n (N.succ j)) in
   let p2 := mul p p in if N.testbit n j then mul p2 a else p2)
  = pow a (N.shiftr n j).
Proof.
  cbv zeta. rewrite (shiftr_step n j), fpow_add, N.mul_comm, fpow_mul, fpow_2.
  destruct (N.testbit n j).
  - rewrite fpow_1_r. done.
  - change (pow a 0) with (constant x01).
    symmetry. apply (mul_1_r (F:=gf16_alg)).
Qed.

Lemma exp_loop_spec j fuel a n :
  j + 2 ≤ fuel →
  exp_loop fuel a (pow a (N.shiftr n (N.succ (N.of_nat j)))) n (2 ^ N.of_nat j)
  = Some (pow a n).
Proof.
  revert fuel. induction j as [|j IH]; intros fuel Hf;
    (destruct fuel as [|fuel]; [lia|]); cbn [exp_loop];
    rewrite (proj2 (N.eqb_neq (2 ^ _) 0)) by (by apply N.pow_nonzero);
    rewrite land_pow2, negb_involutive; pose proof (exp_step a n) as Hs;
    cbv zeta in Hs; rewrite Hs.
  - destruct fuel as [|fuel]; [lia|]. done.
  - rewrite Nat2N.inj_succ, N.pow_succ_r', (N.shiftr_div_pow2 _ 1).
    rewrite N.pow_1_r, (N.mul_comm 2), N.div_mul by done. apply IH. lia.
Qed.

(** [Element::exp] is the iterated product, for every exponent, and its
    loop needs at most the fuel given. *)
Lemma exp_fuel_spec a n : exp_fuel a n = Some (pow a n).
Proof.
  unfold exp_fuel. destruct (N.eqb_spec n 0) as [->|Hn]; [done|].
  case_bool_decide as Ha.
  { subst. f_equal. destruct n as [|p]; [done|].
    rewrite <-(N.succ_pred (N.pos p)) by done. rewrite fpow_succ.
    symmetry. apply (Fields.mul_0_l (F:=gf16_alg)). }
  assert (pow a (n mod (65536 - 1)) = pow a n) as Hmod.
  { apply (fpow_period (F:=gf16_alg)); [done|]. by apply pow_65535. }
  rewrite <-Hmod. set (m := (n mod (65536 - 1))%N).
  destruct (N.eqb_spec m 0) as [->|Hm]; [done|].
  rewrite N.shiftl_1_l.
  destruct (N.eq_dec (N.log2 m) 0%N) as [Hl|Hl].
  - rewrite Hl. assert (m = 1%N) as ->.
    { apply N.log2_null in Hl. lia. }
    simpl. f_equal. symmetry. apply (fpow_1_r (F:=gf16_alg)).
  - assert (∃ j, N.log2 m = N.succ (N.of_nat j)) as [j Hj].
    { exists (N.to_nat (N.log2 m - 1)). lia. }
    rewrite Hj, (N.shiftr_div_pow2 _ 1), N.pow_succ_r', N.pow_1_r, (N.mul_comm 2), N.div_mul by done.
    assert (a = pow a (N.shiftr m (N.succ (N.of_nat j)))) as Ea.
    { rewrite <-Hj, N.shiftr_div_pow2.
      assert (m / 2 ^ N.log2 m = 1)%N as ->.
      { symmetry. apply (N.div_unique _ _ 1 (m - 2 ^ N.log2 m)).
        - pose proof (N.log2_spec m). rewrite N.pow_succ_r' in *. lia.
        - pose proof (N.log2_spec m). lia. }
      symmetry. apply (fpow_1_r (F:=gf16_alg)). }
    rewrite Ea at 2. apply exp_loop_spec. rewrite N.log2_pow2 by lia. lia.
Qed.
End exponent.
