(* ===== verification/Gf16Slices.v ===== *)
(** * GF(2^16) slice operations ([src/galois_16.rs], [gf16_mul_slice])

    The slice product de-interleaves the two byte planes of the input in
    chunks of [GF16_CHUNK] elements, multiplies the planes with GF(2^8) slice
    operations and interleaves the result back.  It is proved equal to the
    element-wise product, which completes the [Field] instance of GF(2^16). *)

From Stdlib Require Import NArith ZArith Lia List Bool String Ring.
From stdpp Require Import base numbers list.
From S2P Require Import Prelude Bytes Fields Gf8 Gf16.

(** ** The slice kernel: byte planes *)
Module gf16_slices.
Import galois_16.

(** [slice::as_flattened] of [&[[u8; 2]]] and its inverse view. *)
Definition as_flattened (l : list Element) : list byte :=
  flat_map (λ e, [e.1; e.2]) l.
Fixpoint from_flattened (l : list byte) : list Element :=
  match l with
  | x :: y :: l => (x, y) :: from_flattened l
  | _ => []
  end.

(** [deinterleave_scalar]: [even[i] = src[2i]], [odd[i] = src[2i+1]]. *)
Definition deinterleave_scalar (src even odd : list byte)
  : outcome Empty_set (list byte * list byte) :=
  for_range 0 (Nat.min (length even) (length odd)) (λ i '(even, odd),
    let! x := index src (2 * i) in
    let! even := update even i x in
    let! y := index src (2 * i + 1) in
    let! odd := update odd i y in
    Ok (even, odd)) (even, odd).

(** [interleave_scalar::<ACCUMULATE>] *)
Definition interleave_scalar (accumulate : bool) (even odd dst : list byte)
  : outcome Empty_set (list byte) :=
  for_range 0 (Nat.min (length even) (length odd)) (λ i dst,
    let! e := index even i in
    let! o := index odd i in
    if accumulate then
      let! d0 := index dst (2 * i) in
      let! dst := update dst (2 * i) (u8_xor d0 e) in
      let! d1 := index dst (2 * i + 1) in
      update dst (2 * i + 1) (u8_xor d1 o)
    else
      let! dst := update dst (2 * i) e in
      update dst (2 * i + 1) o) dst.

Definition GF16_CHUNK : nat := 1024.

(** A GF(2^8) slice operation on the first [n] bytes of a plane. *)
Definition on_prefix (n : nat) (f : list byte → option (list byte)) (plane : list byte)
  : outcome Empty_set (list byte) :=
  update_slice plane 0 n (λ view, match f view with Some v => Ok v | None => Panic end).

(** One turn of the loop of [gf16_mul_general]; the planes [ox], [oc] keep
    their contents between turns, [out] is the destination. *)
Definition gf16_chunk (accumulate : bool) (elem : Element) (input : list Element)
    (offset end_ : nat) (st : list byte * list byte * list byte * list byte * list Element)
  : outcome Empty_set (list byte * list byte * list byte * list byte * list Element) :=
  let '(ax, ac, ox, oc, out) := st in
  let cx := elem.1 in
  let cc := elem.2 in
  let coef_a := u8_xor cc (galois_8.mul EXT_POLY_1 cx) in
  let coef_b := cx in
  let coef_c := galois_8.mul EXT_POLY_2 cx in
  let coef_d := cc in
  let n := end_ - offset in
  let! chunk := slice input offset end_ in
  let! ax_n := slice ax 0 n in
  let! ac_n := slice ac 0 n in
  let! '(ax_n, ac_n) := deinterleave_scalar (as_flattened chunk) ax_n ac_n in
  let ax := splice ax 0 ax_n in
  let ac := splice ac 0 ac_n in
  let! ox := on_prefix n (galois_8.mul_slice_pure_rust coef_a ax_n) ox in
  let! ox := on_prefix n (galois_8.mul_slice_xor_pure_rust coef_b ac_n) ox in
  let! oc := on_prefix n (galois_8.mul_slice_pure_rust coef_c ax_n) oc in
  let! oc := on_prefix n (galois_8.mul_slice_xor_pure_rust coef_d ac_n) oc in
  let! ox_n := slice ox 0 n in
  let! oc_n := slice oc 0 n in
  let! out := update_slice out offset end_ (λ view,
      let! flat := interleave_scalar accumulate ox_n oc_n (as_flattened view) in
      Ok (from_flattened flat)) in
  Ok (ax, ac, ox, oc, out).

(** [gf16_mul_general::<ACCUMULATE>] *)
Definition gf16_mul_general (accumulate : bool) (elem : Element)
    (input out : list Element) : outcome Empty_set (list Element) :=
  let z := replicate GF16_CHUNK x00 in
  let! '(_, _, _, _, out) :=
    chunk_loop (1 + length input) GF16_CHUNK (length input) 0
      (gf16_chunk accumulate elem input) (z, z, z, z, out) in
  Ok out.

(** [gf16_mul_slice::<ACCUMULATE>], portable executor. *)
Definition gf16_mul_slice (accumulate : bool) (elem : Element)
    (input out : list Element) : option (list Element) :=
  if decide (length input = length out) then
    if bool_decide (elem.1 = x00) then
      option_map from_flattened
        ((if accumulate then galois_8.mul_slice_xor_pure_rust
          else galois_8.mul_slice_pure_rust)
           elem.2 (as_flattened input) (as_flattened out))
    else if bool_decide (input = []) then Some out
    else
      match gf16_mul_general accumulate elem input out with
      | Ok out => Some out
      | _ => None
      end
  else None.
End gf16_slices.

Section slice_proofs.
Import galois_16 gf16_slices.
Add Ring gf8_ring2 : gf8_ring_theory (morphism gf8_ring_morph).

Lemma length_as_flattened l : length (as_flattened l) = 2 * length l.
Proof. induction l; simpl; lia. Qed.

Lemma lookup_flattened (l : list Element) k e :
  l !! k = Some e →
  as_flattened l !! (2 * k) = Some e.1 ∧ as_flattened l !! (2 * k + 1) = Some e.2.
Proof.
  revert k. induction l as [|e' l IH]; intros [|k] H; simplify_eq/=; [done|].
  replace (k + S (k + 0)) with (S (2 * k)) by lia.
  replace (S (2 * k) + 1) with (S (2 * k + 1)) by lia. simpl. by apply IH.
Qed.

Lemma flattened_ext (dst : list byte) (l : list Element) :
  length dst = 2 * length l →
  (∀ k e, l !! k = Some e → dst !! (2 * k) = Some e.1 ∧ dst !! (2 * k + 1) = Some e.2) →
  dst = as_flattened l.
Proof.
  intros Hl H. apply list_ext_lt; [by rewrite length_as_flattened|].
  intros i Hi. pose proof (Nat.div_mod_eq i 2). pose proof (Nat.mod_upper_bound i 2).
  destruct (lookup_lt_is_Some_2 l (i / 2)) as [e He]; [lia|].
  destruct (H _ _ He) as [Hx1 Hx2], (lookup_flattened _ _ _ He) as [Hy1 Hy2].
  destruct (decide (i mod 2 = 0)).
  - replace i with (2 * (i / 2)) by lia. by rewrite Hx1, Hy1.
  - replace i with (2 * (i / 2) + 1) by lia. by rewrite Hx2, Hy2.
Qed.

Lemma from_as_flattened l : from_flattened (as_flattened l) = l.
Proof. induction l as [|[] l IH]; [done|]. simpl. f_equal. apply IH. Qed.

Lemma deinterleave_spec l even odd :
  length even = length l → length odd = length l →
  deinterleave_scalar (as_flattened l) even odd = Ok (map fst l, map snd l).
Proof.
  intros He Ho.
  assert (ensures (deinterleave_scalar (as_flattened l) even odd)
    (λ st, length st.1 = length l ∧ length st.2 = length l ∧
       ∀ k e, k < length l → l !! k = Some e → st.1 !! k = Some e.1 ∧ st.2 !! k = Some e.2)
    (λ _, False)) as H.
  { unfold deinterleave_scalar. rewrite He, Ho, Nat.min_id.
    apply (for_range_ensures _ _ _ (λ i st, length st.1 = length l ∧ length st.2 = length l ∧
      ∀ k e, k < i → l !! k = Some e → st.1 !! k = Some e.1 ∧ st.2 !! k = Some e.2)); [lia| |].
    { simpl. split_and!; [done..|]. lia. }
    intros i [ev od] Hi (H1 & H2 & H3). simpl in *.
    destruct (lookup_lt_is_Some_2 l i) as [e Hlk]; [lia|].
    destruct (lookup_flattened _ _ _ Hlk) as [Hf1 Hf2].
    rewrite (index_ok _ _ _ Hf1). simpl. rewrite update_ok by lia. simpl.
    rewrite (index_ok _ _ _ Hf2). simpl. rewrite update_ok by lia. simpl.
    rewrite !length_insert. split_and!; [done..|]. intros k e' Hk He'.
    destruct (decide (k = i)) as [->|].
    - rewrite !list_lookup_insert_eq by lia. simplify_eq. by split.
    - rewrite !list_lookup_insert_ne by done. apply H3; [lia|done]. }
  apply ensures_noerr in H as ([ev od] & -> & H1 & H2 & H3). simpl in *.
  repeat f_equal; apply list_ext_lt; rewrite ?length_map; [done| |done|];
    intros i Hi; (destruct (lookup_lt_is_Some_2 l i) as [e Hlk]; [lia|]);
    rewrite lookup_map, Hlk; apply (H3 i e); [lia|done|lia|done].
Qed.

(** What a destination element becomes. *)
Definition slice_elem (accumulate : bool) (elem x y : Element) : Element :=
  if accumulate then add y (mul elem x) else mul elem x.

Lemma interleave_spec (acc : bool) (even odd : list byte) (view res : list Element) :
  length even = length view → length odd = length view → length res = length view →
  (∀ (k : nat) (y : Element), view !! k = Some y → ∃ e o : byte, even !! k = Some e ∧ odd !! k = Some o ∧
     res !! k = Some (if acc then add y (e, o) else (e, o))) →
  interleave_scalar acc even odd (as_flattened view) = Ok (as_flattened res).
Proof.
  intros He Ho Hr Hres.
  assert (ensures (interleave_scalar acc even odd (as_flattened view))
    (λ dst, length dst = 2 * length view ∧
      ∀ (k : nat) (e : Element), res !! k = Some e → dst !! (2 * k) = Some e.1 ∧ dst !! (2 * k + 1) = Some e.2)
    (λ _, False)) as H.
  { unfold interleave_scalar. rewrite He, Ho, Nat.min_id.
    eapply ensures_mono; [apply (for_range_ensures _ _ _ (λ i dst,
      length dst = 2 * length view ∧
      (∀ (k : nat) (e : Element), k < i → res !! k = Some e → dst !! (2 * k) = Some e.1 ∧ dst !! (2 * k + 1) = Some e.2) ∧
      (∀ (k : nat) (e : Element), i ≤ k → view !! k = Some e → dst !! (2 * k) = Some e.1 ∧ dst !! (2 * k + 1) = Some e.2))
      (λ _, False)); [lia| |]|..|done].
    { split_and!; [apply length_as_flattened|lia|]. intros. by apply lookup_flattened. }
    2:{ intros dst (H1 & H2 & _). split; [done|]. intros k e Hk. apply H2; [|done].
        apply lookup_lt_Some in Hk. lia. }
    intros i dst Hi (H1 & H2 & H3).
    destruct (lookup_lt_is_Some_2 view i) as [y Hy]; [lia|].
    destruct (Hres _ _ Hy) as (e & o & Hei & Hoi & Hri).
    destruct (H3 i y) as [Hd1 Hd2]; [lia|done|].
    rewrite (index_ok _ _ _ Hei), (index_ok _ _ _ Hoi). cbn [obind].
    assert (∃ b0 b1, (if acc then add y (e, o) else (e, o)) = (b0, b1) ∧
      (if acc
       then let! d0 := index dst (2 * i) in
            let! dst := update dst (2 * i) (u8_xor d0 e) in
            let! d1 := index dst (2 * i + 1) in
            update dst (2 * i + 1) (u8_xor d1 o)
       else let! dst := update dst (2 * i) e in update dst (2 * i + 1) o)
      = Ok (E:=Empty_set) (<[2 * i + 1 := b1]> (<[2 * i := b0]> dst))) as (b0 & b1 & Eb & ->).
    { destruct acc.
      - exists (u8_xor y.1 e), (u8_xor y.2 o). split; [done|].
        rewrite (index_ok _ _ _ Hd1). cbn [obind]. rewrite update_ok by lia. cbn [obind].
        rewrite (index_ok _ _ y.2) by (by rewrite list_lookup_insert_ne by lia). cbn [obind].
        by rewrite update_ok by (rewrite length_insert; lia).
      - exists e, o. split; [done|]. rewrite update_ok by lia. cbn [obind].
        by rewrite update_ok by (rewrite length_insert; lia). }
    rewrite Eb in Hri. cbn [ensures]. rewrite !length_insert. split_and!; [done| |].
    - intros k e' Hk He'. destruct (decide (k = i)) as [->|].
      + rewrite list_lookup_insert_ne by lia. rewrite !list_lookup_insert_eq
          by (rewrite ?length_insert; lia). simplify_eq. done.
      + rewrite !list_lookup_insert_ne by lia. apply H2; [lia|done].
    - intros k e' Hk He'. rewrite !list_lookup_insert_ne by lia. apply H3; [lia|done]. }
  apply ensures_noerr in H as (dst & -> & H1 & H2). f_equal.
  apply flattened_ext; [lia|done].
Qed.
End slice_proofs.

Section slice_theorem.
Import galois_16 gf16_slices.
Add Ring gf8_ring3 : gf8_ring_theory (morphism gf8_ring_morph).

Lemma on_prefix_ok (n : nat) f (plane v : list byte) :
  n ≤ length plane → f (take n plane) = Some v → length v = n →
  on_prefix n f plane = Ok (v ++ drop n plane).
Proof.
  intros Hn Hf Hv. unfold on_prefix, update_slice.
  rewrite slice_ok by lia. cbn [obind]. rewrite drop_0, Nat.sub_0_r, Hf. cbn [obind].
  rewrite splice_0 by lia. by rewrite Hv.
Qed.

Lemma mul_slice_ok c (i o : list byte) :
  length i = length o → galois_8.mul_slice_pure_rust c i o = Some (map (galois_8.mul c) i).
Proof.
  intros H. rewrite mul_slice_scalar, decide_True by done. f_equal.
  by apply zip_with_fst_eq.
Qed.

Lemma mul_slice_xor_ok c (i o : list byte) :
  length i = length o →
  galois_8.mul_slice_xor_pure_rust c i o =
  Some (zip_with (λ i o, u8_xor o (galois_8.mul c i)) i o).
Proof. intros H. by rewrite mul_slice_xor_scalar, decide_True. Qed.

(** The two plane coordinates of a product by a fixed element. *)
Lemma mul_planes (elem x : Element) :
  mul elem x =
  (u8_xor (galois_8.mul (u8_xor elem.2 (galois_8.mul EXT_POLY_1 elem.1)) x.1)
          (galois_8.mul elem.1 x.2),
   u8_xor (galois_8.mul (galois_8.mul EXT_POLY_2 elem.1) x.1) (galois_8.mul elem.2 x.2)).
Proof.
  destruct elem as [cx cc], x as [ax ac]. rewrite mul_pair. simpl.
  change u8_xor with galois_8.add. f_equal; ring.
Qed.

Lemma plane_pair_ok (n : nat) c0 c1 (p q plane : list byte) :
  length p = n → length q = n → n ≤ length plane →
  (let! ox := on_prefix n (galois_8.mul_slice_pure_rust c0 p) plane in
   on_prefix n (galois_8.mul_slice_xor_pure_rust c1 q) ox) =
  Ok (zip_with (λ x y, u8_xor (galois_8.mul c0 x) (galois_8.mul c1 y)) p q ++ drop n plane).
Proof.
  intros Hp Hq Hn.
  rewrite (on_prefix_ok n _ _ (map (galois_8.mul c0) p)); [|done| |by rewrite length_map].
  2:{ apply mul_slice_ok. rewrite length_take. lia. }
  cbn [obind]. erewrite on_prefix_ok; cycle 1.
  - rewrite length_app, length_map, length_drop. lia.
  - rewrite take_app_length' by (by rewrite length_map).
    apply mul_slice_xor_ok. by rewrite length_map, Hp, Hq.
  - rewrite length_zip_with, length_map. lia.
  - f_equal. f_equal.
    + clear. revert q. induction p as [|x p IH]; intros [|y q]; simpl; [done..|].
      f_equal. apply IH.
    + rewrite drop_app_length' by (by rewrite length_map). done.
Qed.

(** The invariant of the chunk loop: the planes keep their size, and the
    output is finished below the offset and untouched from it on. *)
Definition general_inv (acc : bool) (elem : Element) (input out0 : list Element)
    (offset : nat) (st : list byte * list byte * list byte * list byte * list Element) : Prop :=
  let '(ax, ac, ox, oc, out) := st in
  length ax = GF16_CHUNK ∧ length ac = GF16_CHUNK ∧ length ox = GF16_CHUNK ∧
  length oc = GF16_CHUNK ∧ length out = length out0 ∧
  ∀ (k : nat) (x y : Element), input !! k = Some x → out0 !! k = Some y →
    out !! k = Some (if decide (k < offset) then slice_elem acc elem x y else y).

Lemma plane_elements acc elem (chunk view : list Element) :
  length chunk = length view →
  ∀ (k : nat) (y : Element), view !! k = Some y → ∃ e o : byte,
    zip_with (λ x y, u8_xor (galois_8.mul (u8_xor elem.2 (galois_8.mul EXT_POLY_1 elem.1)) x)
                            (galois_8.mul elem.1 y)) (map fst chunk) (map snd chunk) !! k = Some e ∧
    zip_with (λ x y, u8_xor (galois_8.mul (galois_8.mul EXT_POLY_2 elem.1) x)
                            (galois_8.mul elem.2 y)) (map fst chunk) (map snd chunk) !! k = Some o ∧
    zip_with (slice_elem acc elem) chunk view !! k =
      Some (if acc then add y (e, o) else (e, o)).
Proof.
  intros Hl k y Hy.
  destruct (lookup_lt_is_Some_2 chunk k) as [x Hx].
  { rewrite Hl. by eapply lookup_lt_Some. }
  do 2 eexists. split_and!.
  - erewrite lookup_zip_with_lt; [done| |]; by rewrite lookup_map, Hx.
  - erewrite lookup_zip_with_lt; [done| |]; by rewrite lookup_map, Hx.
  - erewrite lookup_zip_with_lt by done. unfold slice_elem.
    by rewrite (mul_planes elem x).
Qed.

Lemma gf16_chunk_spec acc elem input out0 a b st :
  length input = length out0 → a < b → b ≤ length input → b - a ≤ GF16_CHUNK →
  general_inv acc elem input out0 a st →
  ensures (gf16_chunk acc elem input a b st) (general_inv acc elem input out0 b)
    (λ _, False).
Proof.
  destruct st as [[[[ax ac] ox] oc] out].
  intros Hlen Hab Hb Hn (Hax & Hac & Hox & Hoc & Hout & Hinv).
  unfold gf16_chunk. cbv zeta. set (n := b - a) in *.
  rewrite (slice_ok input) by lia. cbn [obind]. fold n.
  set (chunk := take n (drop a input)).
  assert (length chunk = n) as Hc by (unfold chunk; rewrite length_take, length_drop; lia).
  rewrite !(slice_ok _ 0) by lia. cbn [obind]. rewrite !drop_0, !Nat.sub_0_r.
  rewrite deinterleave_spec by (rewrite length_take; lia). cbn [obind].
  set (p := map fst chunk). set (q := map snd chunk).
  assert (length p = n ∧ length q = n) as [Hp Hq] by (by unfold p, q; rewrite !length_map).
  rewrite <-obind_assoc, plane_pair_ok by lia. cbn [obind].
  rewrite <-obind_assoc, plane_pair_ok by lia. cbn [obind].
  rewrite !slice_0_app by (rewrite length_zip_with; lia). cbn [obind]. unfold update_slice.
  rewrite slice_ok by lia. cbn [obind]. fold n.
  set (view := take n (drop a out)).
  assert (length view = n) as Hv by (unfold view; rewrite length_take, length_drop; lia).
  set (res := zip_with (slice_elem acc elem) chunk view).
  assert (length res = n) as Hres by (unfold res; rewrite length_zip_with; lia).
  rewrite (interleave_spec _ _ _ _ res);
    [|rewrite ?length_zip_with; lia..|apply plane_elements; lia].
  cbn [obind ensures general_inv]. rewrite from_as_flattened.
  rewrite !length_splice by lia.
  rewrite !length_app, !length_zip_with, !length_drop.
  split_and!; [lia..|]. intros k x y Hx Hy. rewrite lookup_splice by lia.
  rewrite Hres. replace (a + n) with b by lia. specialize (Hinv k x y Hx Hy).
  destruct (decide (a ≤ k < b)) as [Hk|Hk].
  - rewrite decide_True by lia. unfold res. apply lookup_zip_with_lt.
    + unfold chunk, n. rewrite lookup_slice, decide_True by lia. rewrite <-Hx. f_equal. lia.
    + unfold view, n. rewrite lookup_slice, decide_True by lia.
      replace (a + (k - a)) with k by lia. rewrite Hinv. by rewrite decide_False by lia.
  - rewrite Hinv. repeat case_decide; (done || lia).
Qed.

Lemma gf16_mul_general_spec acc elem input out :
  length input = length out →
  gf16_mul_general acc elem input out = Ok (zip_with (slice_elem acc elem) input out).
Proof.
  intros Hlen. unfold gf16_mul_general.
  match goal with |- obind ?m _ = _ =>
    assert (ensures m (general_inv acc elem input out (length input)) (λ _, False)) as H end.
  { apply chunk_loop_ensures; [unfold GF16_CHUNK; lia|lia|lia| |].
    - unfold general_inv. rewrite !length_replicate. split_and!; [done..|].
      intros k x y _ ->. by rewrite decide_False by lia.
    - intros. by apply gf16_chunk_spec. }
  apply ensures_noerr in H as ([[[[ax ac] ox] oc] res] & -> & _ & _ & _ & _ & Hres & Hinv).
  cbn [obind]. f_equal. apply list_ext_lt; [rewrite length_zip_with; lia|].
  intros i Hi. destruct (lookup_lt_is_Some_2 input i) as [x Hx]; [lia|].
  destruct (lookup_lt_is_Some_2 out i) as [y Hy]; [lia|].
  rewrite (Hinv i x y) by done. rewrite decide_True by lia.
  symmetry. by apply lookup_zip_with_lt.
Qed.

Lemma flattened_constant (acc : bool) (c : byte) input out :
  length input = length out →
  option_map from_flattened
    ((if acc then galois_8.mul_slice_xor_pure_rust else galois_8.mul_slice_pure_rust)
       c (as_flattened input) (as_flattened out)) =
  Some (zip_with (slice_elem acc (x00, c)) input out).
Proof.
  intros Hlen.
  assert (∀ x : Element, mul (x00, c) x = (galois_8.mul c x.1, galois_8.mul c x.2)) as Hm.
  { intros x. rewrite mul_planes. cbn [fst snd]. rewrite !u8_mul_0_r, !u8_mul_0_l.
    by rewrite !u8_xor_0_r, !u8_xor_0_l. }
  destruct acc.
  - rewrite mul_slice_xor_ok by (rewrite !length_as_flattened; lia). simpl. f_equal.
    revert out Hlen. induction input as [|x l IH]; intros [|y out] Hlen; simplify_eq/=; [done|].
    unfold add. rewrite Hm. f_equal. apply IH. lia.
  - rewrite mul_slice_ok by (rewrite !length_as_flattened; lia). simpl. f_equal.
    revert out Hlen. induction input as [|x l IH]; intros [|y out] Hlen; simplify_eq/=; [done|].
    rewrite Hm. f_equal. apply IH. lia.
Qed.

(** [gf16_mul_slice] is the element-wise product, or product-accumulate,
    on every input; it panics exactly on unequal lengths. *)
Theorem gf16_mul_slice_spec acc elem input out :
  gf16_mul_slice acc elem input out =
  if decide (length input = length out)
  then Some (zip_with (λ x y, if acc then add y (mul elem x) else mul elem x) input out)
  else None.
Proof.
  unfold gf16_mul_slice. case_decide as Hlen; [|done].
  case_bool_decide as Hc.
  - destruct elem as [cx cc]. simpl in Hc. subst. by apply flattened_constant.
  - case_bool_decide as Hn.
    + subst. destruct out; [done|simplify_eq/=].
    + by rewrite gf16_mul_general_spec.
Qed.
End slice_theorem.

(** ** The field *)
#[export] Instance gf16 : Field := {|
  Elem := byte * byte;
  ORDER := 65536;
  Fields.add := galois_16.add;
  Fields.mul := galois_16.mul;
  Fields.div := galois_16.div;
  Fields.exp := galois_16.exp;
  zero := (x00, x00);
  one := (x00, x01);
  Fields.nth_internal := galois_16.nth_internal;
  mul_slice := gf16_slices.gf16_mul_slice false;
  mul_slice_add := gf16_slices.gf16_mul_slice true;
  as_gf8_slice := λ _, None;
  as_gf8_slice_mut := λ _, None;
  stable_format := Some ("rustfs.gf16.tower-11d-x2-02x-80.ax-ac.v1"%string, 2%N);
  write_format_element := λ e len, if len =? 2 then Some [e.1; e.2] else None;
|}.

Lemma gf16_exp a n : galois_16.exp a n = fpow (F:=gf16_alg) a n.
Proof. unfold galois_16.exp. by rewrite exp_fuel_spec. Qed.

#[export] Instance gf16_laws : FieldLaws gf16.
Proof.
  constructor.
  - exact (Fields.add_comm (F:=gf16_alg)).
  - exact (Fields.add_assoc (F:=gf16_alg)).
  - exact (Fields.add_0_l (F:=gf16_alg)).
  - exact (Fields.add_self (F:=gf16_alg)).
  - exact (Fields.mul_comm (F:=gf16_alg)).
  - exact (Fields.mul_assoc (F:=gf16_alg)).
  - exact (Fields.mul_1_l (F:=gf16_alg)).
  - exact (Fields.mul_add_l (F:=gf16_alg)).
  - exact (Fields.one_neq_zero (F:=gf16_alg)).
  - exact (Fields.div_mul (F:=gf16_alg)).
  - intros a. exact (gf16_exp a 0).
  - intros a n. cbn. rewrite !gf16_exp. exact (fpow_succ (F:=gf16_alg) a n).
  - exact nth_internal_inj16.
  - exact (gf16_mul_slice_spec false).
  - exact (gf16_mul_slice_spec true).
Qed.
