(* ===== verification/LinAlg.v ===== *)
(** * Linear algebra over a [Field]

    The mathematics the matrix code rests on, stated on functions: finite sums,
    the kernel of a matrix and its invariance under row operations, the root
    bound for polynomials and the resulting invertibility of Vandermonde and
    Cauchy systems.  Nothing here models code; [Matrix] relates the code's
    row-major matrices to these functions. *)

From Stdlib Require Import NArith ZArith Lia List Bool Ring.
From stdpp Require Import base numbers list.
From S2P Require Import Prelude Fields.

Local Open Scope field_scope.

(** ** Finite sums *)
Section sums.
Context {F : Field} {FL : FieldLaws F}.
Add Ring elem_ring : field_ring_theory (morphism field_ring_morph, constants [field_const]).

(** [bsum n f] is the sum of [f i] for [i < n]. *)
Fixpoint bsum (n : nat) (f : nat → Elem) : Elem :=
  match n with O => 0 | S n => bsum n f + f n end.

Lemma bsum_ext n f g : (∀ i, i < n → f i = g i) → bsum n f = bsum n g.
Proof. induction n as [|n IH]; intros H; simpl; [done|]. rewrite IH, H; auto. Qed.

Lemma bsum_0 n f : (∀ i, i < n → f i = 0) → bsum n f = 0.
Proof.
  induction n as [|n IH]; intros H; simpl; [done|]. rewrite IH, H by auto. ring.
Qed.

Lemma bsum_add n f g : bsum n (λ i, f i + g i) = bsum n f + bsum n g.
Proof. induction n as [|n IH]; simpl; [ring|]. rewrite IH. ring. Qed.

Lemma bsum_mul_l n a f : bsum n (λ i, a * f i) = a * bsum n f.
Proof. induction n as [|n IH]; simpl; [ring|]. rewrite IH. ring. Qed.

Lemma bsum_mul_r n a f : bsum n (λ i, f i * a) = bsum n f * a.
Proof. induction n as [|n IH]; simpl; [ring|]. rewrite IH. ring. Qed.

Lemma bsum_swap n m (f : nat → nat → Elem) :
  bsum n (λ i, bsum m (λ j, f i j)) = bsum m (λ j, bsum n (λ i, f i j)).
Proof.
  induction n as [|n IH]; simpl.
  - symmetry. by apply bsum_0.
  - by rewrite IH, <-bsum_add.
Qed.

Lemma bsum_single n k f : k < n → (∀ i, i < n → i ≠ k → f i = 0) → bsum n f = f k.
Proof.
  induction n as [|n IH]; intros Hk H; [lia|]. simpl.
  destruct (decide (k = n)) as [->|].
  - rewrite bsum_0; [ring|]. intros. apply H; lia.
  - rewrite IH by (try lia; intros; apply H; lia). rewrite (H n) by lia. ring.
Qed.

Lemma bsum_split n m f : bsum (n + m) f = bsum n f + bsum m (λ i, f (n + i)%nat).
Proof.
  induction m as [|m IH]; simpl.
  - rewrite Nat.add_0_r. ring.
  - rewrite Nat.add_succ_r. simpl. rewrite IH. ring.
Qed.

(** The Kronecker delta as a column. *)
Definition delta (i j : nat) : Elem := if decide (i = j) then 1 else 0.

Lemma bsum_delta_l n k f : k < n → bsum n (λ i, delta i k * f i) = f k.
Proof.
  intros Hk. rewrite (bsum_single n k); [|done|].
  - unfold delta. rewrite decide_True by done. ring.
  - intros i _ Hi. unfold delta. rewrite decide_False by done. ring.
Qed.

Lemma bsum_delta_r n k f : k < n → bsum n (λ i, f i * delta i k) = f k.
Proof.
  intros Hk. rewrite <-(bsum_delta_l n k f) by done. apply bsum_ext. intros. ring.
Qed.
End sums.

(** ** Kernels and row operations *)
Section kernels.
Context {F : Field} {FL : FieldLaws F}.
Add Ring elem_ring2 : field_ring_theory (morphism field_ring_morph, constants [field_const]).
Implicit Types M A : nat → nat → Elem.

(** The value of row [r] on a column vector. *)
Definition row_dot (cols : nat) M (x : nat → Elem) (r : nat) : Elem :=
  bsum cols (λ c, M r c * x c).

Definition kernel (rows cols : nat) M (x : nat → Elem) : Prop :=
  ∀ r, r < rows → row_dot cols M x r = 0.

Definition same_kernel (rows cols : nat) M M' : Prop :=
  ∀ x, kernel rows cols M x ↔ kernel rows cols M' x.

#[export] Instance same_kernel_equiv rows cols : Equivalence (same_kernel rows cols).
Proof.
  split.
  - by intros M x.
  - intros M M' H x. by rewrite (H x).
  - intros M1 M2 M3 H1 H2 x. by rewrite (H1 x).
Qed.

Lemma kernel_ext rows cols M M' x :
  (∀ r c, r < rows → c < cols → M r c = M' r c) →
  kernel rows cols M x → kernel rows cols M' x.
Proof.
  intros H HK r Hr. rewrite <-(HK r Hr). apply bsum_ext. intros c Hc.
  by rewrite H.
Qed.

Lemma same_kernel_ext rows cols M M' :
  (∀ r c, r < rows → c < cols → M r c = M' r c) → same_kernel rows cols M M'.
Proof. intros H x. split; apply kernel_ext; intros; [|symmetry]; auto. Qed.

(** Adding a multiple of a row to another one, exchanging rows, scaling. *)
Definition add_row M (src dst : nat) (s : Elem) : nat → nat → Elem :=
  λ r c, if decide (r = dst) then M r c + s * M src c else M r c.
Definition swap_row M (a b : nat) : nat → nat → Elem :=
  λ r c, if decide (r = a) then M b c else if decide (r = b) then M a c else M r c.
Definition scale_row M (a : nat) (s : Elem) : nat → nat → Elem :=
  λ r c, if decide (r = a) then s * M r c else M r c.

Lemma row_dot_add_row cols M src dst s x r :
  row_dot cols (add_row M src dst s) x r =
  if decide (r = dst) then row_dot cols M x r + s * row_dot cols M x src
  else row_dot cols M x r.
Proof.
  unfold row_dot, add_row. case_decide; [|done].
  rewrite <-bsum_mul_l, <-bsum_add. apply bsum_ext. intros. ring.
Qed.

Lemma same_kernel_add_row rows cols M src dst s :
  src < rows → src ≠ dst → same_kernel rows cols M (add_row M src dst s).
Proof.
  intros Hs Hne x. split; intros H r Hr.
  - rewrite row_dot_add_row. rewrite (H r), (H src) by done.
    case_decide; [ring|done].
  - pose proof (H r Hr) as H1. pose proof (H src Hs) as H2.
    rewrite row_dot_add_row in H1, H2. rewrite (decide_False (P:=src = dst)) in H2 by done.
    case_decide; [|done]. rewrite H2 in H1. rewrite <-H1. ring.
Qed.

Lemma same_kernel_swap_row rows cols M a b :
  a < rows → b < rows → same_kernel rows cols M (swap_row M a b).
Proof.
  intros Ha Hb x. unfold kernel, row_dot, swap_row. split; intros H r Hr.
  - repeat case_decide; auto.
  - pose proof (H r Hr) as H1. pose proof (H a Ha) as H2. pose proof (H b Hb) as H3.
    repeat case_decide; subst; done.
Qed.

Lemma same_kernel_scale_row rows cols M a s :
  s ≠ 0 → same_kernel rows cols M (scale_row M a s).
Proof.
  intros Hs x. unfold kernel, row_dot, scale_row. split; intros H r Hr.
  - case_decide; [|by apply H]. rewrite <-(mul_0_r s), <-(H r Hr), <-bsum_mul_l.
    apply bsum_ext. intros. ring.
  - specialize (H r Hr). case_decide; [|done].
    apply (mul_cancel_l s); [done|]. rewrite mul_0_r, <-H, <-bsum_mul_l.
    apply bsum_ext. intros. ring.
Qed.

(** [A] is nonsingular on its first [n] columns: no nonzero kernel vector. *)
Definition nonsingular (rows n : nat) M : Prop :=
  ∀ x, kernel rows n M x → ∀ c, c < n → x c = 0.

Lemma kernel_restrict rows n m M x :
  (∀ c, n ≤ c → x c = 0) → kernel rows (n + m) M x ↔ kernel rows n M x.
Proof.
  intros Hx. unfold kernel, row_dot. split; intros H r Hr; specialize (H r Hr);
    rewrite bsum_split, (bsum_0 m) in * by (intros; rewrite Hx by lia; ring).
  - rewrite <-H. ring.
  - rewrite H. ring.
Qed.

(** A unit upper triangular system of [r] rows with free column [r] has a
    nonzero solution: back substitution. *)
Lemma triangular_solution M r :
  (∀ j, j < r → M j j = 1) → (∀ i j, j < i → i < r → M i j = 0) →
  ∃ x, x r = 1 ∧ (∀ c, r < c → x c = 0) ∧
    ∀ i, i < r → bsum (S r) (λ c, M i c * x c) = 0.
Proof.
  intros Hd Hl.
  assert (∀ k, k ≤ r → ∃ x, x r = 1 ∧ (∀ c, r < c → x c = 0) ∧
    (∀ c, c < r - k → x c = 0) ∧
    ∀ i, r - k ≤ i → i < r → bsum (S r) (λ c, M i c * x c) = 0) as H.
  { induction k as [|k IH]; intros Hk.
    - exists (delta r). unfold delta. split_and!.
      + by rewrite decide_True.
      + intros c Hc. by rewrite decide_False by lia.
      + intros c Hc. by rewrite decide_False by lia.
      + intros; lia.
    - destruct IH as (x & Hx1 & Hx2 & Hx3 & Hx4); [lia|].
      set (i0 := (r - S k)%nat).
      exists (λ c, if decide (c = i0) then bsum (S r) (λ c, M i0 c * x c) else x c).
      assert (∀ i, bsum (S r) (λ c, M i c * (if decide (c = i0) then
            bsum (S r) (λ c0, M i0 c0 * x c0) else x c)) =
          bsum (S r) (λ c, M i c * x c) + M i i0 * bsum (S r) (λ c0, M i0 c0 * x c0)) as Hs.
      { intros i. set (s := bsum (S r) (λ c0, M i0 c0 * x c0)).
        rewrite <-(bsum_delta_r (S r) i0 (λ c, M i c * s)) by (unfold i0; lia).
        rewrite <-bsum_add. apply bsum_ext. intros c Hc. unfold delta.
        case_decide as E; [|ring]. subst c. rewrite (Hx3 i0) by (unfold i0; lia). ring. }
      split_and!.
      + by rewrite decide_False by (unfold i0; lia).
      + intros c Hc. rewrite decide_False by (unfold i0; lia). by apply Hx2.
      + intros c Hc. rewrite decide_False by (unfold i0; lia). apply Hx3. lia.
      + intros i Hi1 Hi2. rewrite Hs. destruct (decide (i = i0)) as [->|].
        * rewrite Hd by done. ring.
        * rewrite (Hl i i0), Hx4 by (unfold i0 in *; lia). ring. }
  destruct (H r) as (x & H1 & H2 & _ & H4); [lia|].
  exists x. split_and!; [done..|]. intros i Hi. apply H4; lia.
Qed.
End kernels.

(** ** Polynomials, as lists of coefficients *)
Section polynomials.
Context {F : Field} {FL : FieldLaws F}.
Add Ring elem_ring3 : field_ring_theory (morphism field_ring_morph, constants [field_const]).
Implicit Types (l p : list Elem) (x a : Elem).

Fixpoint eval p x : Elem :=
  match p with [] => 0 | c :: p => c + x * eval p x end.

(** Synthetic division by [X + a] of a polynomial with tail [l]. *)
Fixpoint quot a l : list Elem :=
  match l with [] => [] | d :: l' => eval l a :: quot a l' end.

Lemma length_quot a l : length (quot a l) = length l.
Proof. induction l as [|d l IH]; cbn; auto. Qed.

Lemma quot_spec a c l x :
  eval (c :: l) x + eval (c :: l) a = (x + a) * eval (quot a l) x.
Proof.
  revert c. induction l as [|d l IH]; intros c; [cbn; ring|].
  cbn [quot]. specialize (IH d). cbn [eval] in *.
  replace (eval (quot a l) x * (x + a)) with ((x + a) * eval (quot a l) x) in * by ring.
  transitivity ((x + a) * (d + a * eval l a) +
    x * ((d + x * eval l x) + (d + a * eval l a))); [ring|].
  rewrite IH. ring.
Qed.

Lemma eval_zeros l x : Forall (λ c, c = 0) l → eval l x = 0.
Proof. induction 1 as [|c l -> _ IH]; cbn [eval]; [done|]. rewrite IH. ring. Qed.

Lemma quot_zeros a l :
  Forall (λ c, c = 0) (quot a l) → Forall (λ c, c = 0) l.
Proof.
  induction l as [|d l IH]; cbn [quot]; [done|].
  intros [H1 H2%IH]%Forall_cons. constructor; [|done].
  cbn [eval] in H1. rewrite eval_zeros in H1 by done. rewrite <-H1. ring.
Qed.

(** A polynomial with at least as many distinct roots as coefficients is zero. *)
Lemma root_bound p roots :
  NoDup roots → length p ≤ length roots →
  (∀ x, x ∈ roots → eval p x = 0) → Forall (λ c, c = 0) p.
Proof.
  revert p. induction roots as [|a roots IH]; intros p Hnd Hl Hr.
  { destruct p; [done|simpl in Hl; lia]. }
  destruct p as [|c l]; [done|]. simpl in Hl.
  apply NoDup_cons in Hnd as [Ha Hnd].
  assert (Forall (λ c, c = 0) l) as Hz.
  { apply (quot_zeros a), IH; [done|rewrite length_quot; lia|].
    intros x Hx. destruct (mul_eq_0 (x + a) (eval (quot a l) x)) as [Hxa|]; [|..|done].
    - rewrite <-(quot_spec a c). rewrite !Hr by (by constructor). ring.
    - apply add_cancel in Hxa. by subst. }
  constructor; [|done]. rewrite <-(Hr a) by left.
  cbn [eval]. rewrite eval_zeros by done. ring.
Qed.

Lemma eval_snoc l d x : eval (l ++ [d]) x = eval l x + d * fpow x (N.of_nat (length l)).
Proof.
  induction l as [|c l IH].
  - cbn [app eval length]. change (fpow x (N.of_nat 0)) with (1 : Elem). ring.
  - cbn [app eval length]. rewrite IH. rewrite Nat2N.inj_succ, fpow_succ. ring.
Qed.

Lemma eval_bsum n (f : nat → Elem) x :
  eval (map f (seq 0 n)) x = bsum n (λ c, f c * fpow x (N.of_nat c)).
Proof.
  induction n as [|n IH]; [done|].
  rewrite seq_S, map_app. cbn [map]. rewrite eval_snoc, IH.
  rewrite length_map, length_seq. done.
Qed.

Lemma poly_zero n m (f : nat → Elem) (pt : nat → Elem) :
  n ≤ m → (∀ i j, i < m → j < m → pt i = pt j → i = j) →
  (∀ i, i < m → bsum n (λ c, f c * fpow (pt i) (N.of_nat c)) = 0) →
  ∀ c, c < n → f c = 0.
Proof.
  intros Hnm Hinj Hz c Hc.
  assert (Forall (λ c, c = 0) (map f (seq 0 n))) as H.
  { apply (root_bound _ (map pt (seq 0 m))).
    - rewrite NoDup_ListNoDup. apply NoDup_map_NoDup_ForallPairs; [|apply seq_NoDup].
      intros i j [_ Hi]%in_seq [_ Hj]%in_seq. apply Hinj; lia.
    - rewrite !length_map, !length_seq. done.
    - intros x Hx. apply list_elem_of_In, in_map_iff in Hx as (i & <- & Hi).
      apply in_seq in Hi. rewrite eval_bsum. apply Hz. lia. }
  rewrite Forall_forall in H. apply H. apply list_elem_of_In, in_map_iff.
  exists c. split; [done|]. apply in_seq. lia.
Qed.

(** The Vandermonde system on distinct points has no nonzero kernel vector. *)
Lemma vandermonde_nonsingular n m (pt : nat → Elem) :
  n ≤ m → (∀ i j, i < m → j < m → pt i = pt j → i = j) →
  nonsingular m n (λ r c, fpow (pt r) (N.of_nat c)).
Proof.
  intros Hnm Hinj x Hx. apply (poly_zero n m x pt); [done..|].
  intros i Hi. rewrite <-(Hx i Hi). apply bsum_ext. intros. ring.
Qed.
End polynomials.

(** ** Products and inverses *)
Section products.
Context {F : Field} {FL : FieldLaws F}.
Add Ring elem_ring4 : field_ring_theory (morphism field_ring_morph, constants [field_const]).
Implicit Types A B X : nat → nat → Elem.

Definition mmul (n : nat) A B : nat → nat → Elem :=
  λ i j, bsum n (λ k, A i k * B k j).

Definition inverse_of (n : nat) A X : Prop :=
  ∀ i j, i < n → j < n → mmul n A X i j = delta i j ∧ mmul n X A i j = delta i j.

(** [A | I] *)
Definition augmented (n : nat) A : nat → nat → Elem :=
  λ r c, if decide (c < n) then A r c else delta r (c - n).

Definition concat (n : nat) (x y : nat → Elem) : nat → Elem :=
  λ c, if decide (c < n) then x c else y (c - n)%nat.

Lemma row_dot_concat n A B x y r :
  row_dot (n + n) (λ r c, if decide (c < n) then A r c else B r (c - n)%nat)
    (concat n x y) r = row_dot n A x r + row_dot n B y r.
Proof.
  unfold row_dot, concat. rewrite bsum_split. f_equal.
  - apply bsum_ext. intros i Hi. by rewrite !decide_True.
  - apply bsum_ext. intros i Hi. rewrite !decide_False by lia.
    by replace (n + i - n)%nat with i by lia.
Qed.

Lemma row_dot_delta n y r : r < n → row_dot n delta y r = y r.
Proof.
  intros Hr. unfold row_dot. rewrite <-(bsum_delta_l n r y) by done.
  apply bsum_ext. intros i Hi. unfold delta. repeat case_decide; congruence.
Qed.

Lemma bsum_delta_sym n k f : k < n → bsum n (λ i, f i * delta k i) = f k.
Proof.
  intros Hk. rewrite <-(bsum_delta_r n k f) by done.
  apply bsum_ext. intros i Hi. unfold delta. repeat case_decide; congruence.
Qed.

(** A matrix row-equivalent to [A | I] with the identity on the left has
    the inverse of [A] on the right. *)
Lemma augmented_inverse n A g :
  same_kernel n (n + n) (augmented n A) g →
  (∀ i j, i < n → j < n → g i j = delta i j) →
  inverse_of n A (λ i j, g i (n + j)%nat).
Proof.
  intros Hk Hg i j Hi Hj. set (X := λ i j, g i (n + j)%nat).
  assert (∀ x y r, r < n → row_dot (n + n) g (concat n x y) r = x r + row_dot n X y r)
    as Hrow.
  { intros x y r Hr. rewrite <-(row_dot_delta n x r Hr), <-row_dot_concat.
    apply bsum_ext. intros c Hc. case_decide as D.
    - by rewrite Hg.
    - unfold X. by replace (n + (c - n))%nat with c by lia. }
  assert (∀ x y r, r < n → row_dot (n + n) (augmented n A) (concat n x y) r
    = row_dot n A x r + y r) as Hrow'.
  { intros x y r Hr. unfold augmented. rewrite row_dot_concat. by rewrite row_dot_delta. }
  split; apply add_cancel.
  - assert (kernel n (n + n) (augmented n A) (concat n (λ c, X c j) (λ c, delta c j)))
      as Hker.
    { apply Hk. intros r Hr. rewrite Hrow by done. unfold row_dot.
      rewrite bsum_delta_r by done. ring. }
    specialize (Hker i Hi). by rewrite Hrow' in Hker.
  - assert (kernel n (n + n) g (concat n (λ c, delta c j) (λ c, A c j))) as Hker.
    { apply Hk. intros r Hr. rewrite Hrow' by done. unfold row_dot.
      rewrite bsum_delta_r by done. ring. }
    specialize (Hker i Hi). rewrite Hrow in Hker by done.
    rewrite <-Hker. unfold mmul, row_dot. ring.
Qed.

Lemma mmul_assoc n m A B X i j :
  mmul m (mmul n A B) X i j = mmul n A (mmul m B X) i j.
Proof.
  unfold mmul.
  transitivity (bsum m (λ k, bsum n (λ l, A i l * B l k * X k j))).
  { apply bsum_ext. intros k _. by rewrite <-bsum_mul_r. }
  rewrite bsum_swap. apply bsum_ext. intros l _. rewrite <-bsum_mul_l.
  apply bsum_ext. intros k _. ring.
Qed.

Lemma mmul_ext n A A' B B' i j :
  (∀ k, k < n → A i k = A' i k) → (∀ k, k < n → B k j = B' k j) →
  mmul n A B i j = mmul n A' B' i j.
Proof. intros HA HB. apply bsum_ext. intros k Hk. by rewrite HA, HB. Qed.

Lemma mmul_delta_r n A i j : j < n → mmul n A delta i j = A i j.
Proof. intros. by apply bsum_delta_r. Qed.

Lemma mmul_delta_l n A i j : i < n → mmul n delta A i j = A i j.
Proof. intros. by apply (row_dot_delta n (λ k, A k j)). Qed.

(** An invertible matrix is nonsingular, and so are its products. *)
Lemma inverse_nonsingular n A X : inverse_of n A X → nonsingular n n A.
Proof.
  intros HX x Hx c Hc. rewrite <-(row_dot_delta n x c Hc).
  transitivity (bsum n (λ k, mmul n X A c k * x k)).
  { apply bsum_ext. intros k Hk. by rewrite (proj2 (HX c k Hc Hk)). }
  transitivity (mmul n (mmul n X A) (λ k _, x k) c 0%nat); [done|].
  rewrite mmul_assoc. apply bsum_0. intros k Hk.
  unfold mmul. change (X c k * row_dot n A x k = 0). rewrite Hx by done. ring.
Qed.

Lemma nonsingular_mmul m n A B :
  nonsingular m n A → nonsingular n n B → nonsingular m n (mmul n A B).
Proof.
  intros HA HB x Hx. apply HB. intros r Hr.
  apply (HA (row_dot n B x)); [|done]. intros r' Hr'.
  rewrite <-(Hx r' Hr').
  symmetry. exact (mmul_assoc n n A B (λ k _, x k) r' 0%nat).
Qed.

Lemma nonsingular_ext m n A B :
  (∀ r c, r < m → c < n → A r c = B r c) → nonsingular m n A → nonsingular m n B.
Proof.
  intros H HA x Hx. apply HA. eapply kernel_ext; [|done]. intros. symmetry. auto.
Qed.

Lemma inverse_of_ext n A A' X X' :
  (∀ r c, r < n → c < n → A r c = A' r c) → (∀ r c, r < n → c < n → X r c = X' r c) →
  inverse_of n A X → inverse_of n A' X'.
Proof.
  intros HA HX H i j Hi Hj. destruct (H i j Hi Hj) as [E1 E2].
  split; [rewrite <-E1|rewrite <-E2]; apply mmul_ext; intros; symmetry; auto.
Qed.

Lemma inverse_of_sym n A X : inverse_of n A X → inverse_of n X A.
Proof. intros H i j Hi Hj. destruct (H i j Hi Hj). done. Qed.

Lemma inverse_of_unique n A X Y i j :
  inverse_of n A X → inverse_of n A Y → i < n → j < n → X i j = Y i j.
Proof.
  intros HX HY Hi Hj.
  rewrite <-(mmul_delta_r n X i j Hj).
  transitivity (mmul n X (mmul n A Y) i j).
  { apply mmul_ext; [done|]. intros k Hk. symmetry. by apply HY. }
  rewrite <-mmul_assoc. rewrite <-(mmul_delta_l n Y i j Hi).
  apply mmul_ext; [|done]. intros k Hk. by apply HX.
Qed.
End products.

(** ** Maximum distance separable matrices

    [t] rows of [n] columns: any [n] distinct rows are independent. *)
Section mds.
Context {F : Field} {FL : FieldLaws F}.
Add Ring elem_ring5 : field_ring_theory (morphism field_ring_morph, constants [field_const]).
Implicit Types M : nat → nat → Elem.

(** [ρ] selects [n] distinct rows below [t]. *)
Definition selection (n t : nat) (ρ : nat → nat) : Prop :=
  (∀ i, i < n → ρ i < t) ∧ (∀ i j, i < n → j < n → ρ i = ρ j → i = j).

Definition mds (n t : nat) M : Prop :=
  ∀ ρ, selection n t ρ → nonsingular n n (λ i c, M (ρ i) c).

Definition systematic (n : nat) M : Prop :=
  ∀ i j, i < n → j < n → M i j = delta i j.

#[export] Instance bounded_exists_dec (n : nat) (P : nat → Prop) `{∀ k, Decision (P k)} :
  Decision (∃ k, k < n ∧ P k).
Proof.
  induction n as [|n IH]; [right; intros (k & Hk & _); lia|].
  destruct IH as [Hy|Hn]; [left; destruct Hy as (k & Hk & HP); exists k; split; [lia|done]|].
  destruct (decide (P n)) as [HP|HP]; [left; exists n; split; [lia|done]|right].
  intros (k & Hk & HPk). destruct (decide (k = n)) as [->|]; [done|].
  apply Hn. exists k. split; [lia|done].
Defined.

(** Pigeonhole: a selection and the rows it misses fit below [t]. *)
Lemma selection_misses n t ρ (l : list nat) :
  selection n t ρ → NoDup l →
  (∀ y, y ∈ l → y < t ∧ ∀ i, i < n → ρ i ≠ y) → n + length l ≤ t.
Proof.
  intros [Hρ1 Hρ2] Hnd Hl.
  assert (NoDup (map ρ (seq 0 n) ++ l)) as Hnd'.
  { apply NoDup_app. split_and!; [| |done].
    - rewrite NoDup_ListNoDup. apply NoDup_map_NoDup_ForallPairs; [|apply seq_NoDup].
      intros i j [_ Hi]%in_seq [_ Hj]%in_seq. apply Hρ2; lia.
    - intros y Hy Hyl. apply list_elem_of_In, in_map_iff in Hy as (i & <- & Hi).
      apply in_seq in Hi. destruct (Hl _ Hyl) as [_ H]. apply (H i); [lia|done]. }
  assert (incl (map ρ (seq 0 n) ++ l) (seq 0 t)) as Hincl.
  { intros y [Hy|Hy]%in_app_iff; apply in_seq.
    - apply in_map_iff in Hy as (i & <- & Hi). apply in_seq in Hi.
      specialize (Hρ1 i). lia.
    - apply list_elem_of_In, Hl in Hy. lia. }
  rewrite NoDup_ListNoDup in Hnd'.
  pose proof (NoDup_incl_length Hnd' Hincl) as Hlen.
  by rewrite length_app, length_map, !length_seq in Hlen.
Qed.

Lemma mds_ext n t M M' :
  (∀ r c, r < t → c < n → M r c = M' r c) → mds n t M → mds n t M'.
Proof.
  intros H HM ρ Hρ. eapply nonsingular_ext; [|by apply HM].
  intros r c Hr Hc. apply H; [by apply Hρ|done].
Qed.

Lemma mds_mmul n t M X : mds n t M → nonsingular n n X → mds n t (mmul n M X).
Proof.
  intros HM HX ρ Hρ. apply (nonsingular_mmul n n (λ i c, M (ρ i) c) X); [by apply HM|done].
Qed.

(** Products of elements and functions given by polynomials. *)
Fixpoint bprod (n : nat) (f : nat → Elem) : Elem :=
  match n with O => 1 | S n => bprod n f * f n end.

Lemma bprod_neq_0 n f : (∀ i, i < n → f i ≠ 0) → bprod n f ≠ 0.
Proof.
  induction n as [|n IH]; intros H; simpl; [apply one_neq_zero|].
  apply mul_neq_0; auto.
Qed.

Lemma bprod_eq_0 n f k : k < n → f k = 0 → bprod n f = 0.
Proof.
  induction n as [|n IH]; intros Hk Hf; [lia|]. simpl.
  destruct (decide (k = n)) as [->|]; [rewrite Hf; ring|]. rewrite IH by (done || lia). ring.
Qed.

Lemma bprod_ext n f g : (∀ i, i < n → f i = g i) → bprod n f = bprod n g.
Proof. induction n as [|n IH]; intros H; simpl; [done|]. rewrite IH, H; auto. Qed.

Definition polyfun (k : nat) (f : Elem → Elem) : Prop :=
  ∃ p, length p = k ∧ ∀ z, eval p z = f z.

Lemma polyfun_add k f g : polyfun k f → polyfun k g → polyfun k (λ z, f z + g z).
Proof.
  intros (p & Hp & Hf) (q & Hq & Hg). exists (zip_with add p q).
  split; [rewrite length_zip_with; lia|]. intros z. rewrite <-Hf, <-Hg. clear Hf Hg.
  revert q k Hp Hq. induction p as [|a p IH]; intros [|b q] [|k] Hp Hq; try discriminate;
    cbn [zip_with eval]; [ring|]. rewrite (IH q k) by (simpl in *; lia). ring.
Qed.

Lemma polyfun_scale k a f : polyfun k f → polyfun k (λ z, a * f z).
Proof.
  intros (p & Hp & Hf). exists (map (mul a) p). split; [by rewrite length_map|].
  intros z. rewrite <-Hf. clear Hp Hf. induction p as [|b p IH]; cbn [map eval]; [ring|].
  rewrite IH. ring.
Qed.

Lemma polyfun_pad k f : polyfun k f → polyfun (S k) f.
Proof.
  intros (p & Hp & Hf). exists (p ++ [0]). split; [rewrite length_app; simpl; lia|].
  intros z. rewrite eval_snoc, Hf. ring.
Qed.

Lemma polyfun_ext k f g : (∀ z, f z = g z) → polyfun k f → polyfun k g.
Proof. intros H (p & Hp & Hf). exists p. split; [done|]. intros z. by rewrite Hf. Qed.

Lemma polyfun_linear k a f : polyfun k f → polyfun (S k) (λ z, f z * (z + a)).
Proof.
  intros Hf. apply (polyfun_ext _ (λ z, z * f z + a * f z)); [intros; ring|].
  apply polyfun_add; [|by apply polyfun_pad, polyfun_scale].
  destruct Hf as (p & Hp & Hf). exists (0 :: p). split; [simpl; lia|].
  intros z. cbn [eval]. rewrite Hf. ring.
Qed.

Lemma polyfun_bsum n k (f : nat → Elem → Elem) :
  (∀ i, i < n → polyfun k (f i)) → polyfun k (λ z, bsum n (λ i, f i z)).
Proof.
  induction n as [|n IH]; intros H; cbn [bsum].
  - exists (replicate k 0). split; [apply length_replicate|]. intros z.
    apply eval_zeros, Forall_replicate. done.
  - apply polyfun_add; [apply IH; auto|auto].
Qed.

(** The product of [z + a c'] over [c' < n] other than [c]. *)
Definition others (n : nat) (a : nat → Elem) (c : nat) (z : Elem) : Elem :=
  bprod n (λ c', if decide (c' = c) then 1 else z + a c').

Lemma polyfun_others n a c : polyfun (if decide (c < n) then n else S n) (others n a c).
Proof.
  induction n as [|n IH].
  - exists [1]. split; [done|]. intros z. unfold others. cbn [eval bprod]. ring.
  - unfold others in *. cbn [bprod].
    destruct (decide (n = c)) as [->|Hne].
    + rewrite decide_True by lia. rewrite decide_False in IH by lia.
      eapply polyfun_ext; [|apply IH]. intros z. cbn. ring.
    + replace (if decide (c < S n) then S n else S (S n))
        with (S (if decide (c < n) then n else S n)) by (repeat case_decide; lia).
      by apply polyfun_linear.
Qed.

Lemma others_factor n a c z :
  c < n → others n a c z * (z + a c) = bprod n (λ c', z + a c').
Proof.
  unfold others. induction n as [|n IH]; intros Hc; [lia|]. cbn [bprod].
  destruct (decide (n = c)) as [->|Hne].
  - rewrite (bprod_ext c _ (λ c', z + a c')) by (intros i Hi; rewrite decide_False by lia; done).
    ring.
  - rewrite <-IH by lia. ring.
Qed.

(** The polynomial behind the Cauchy matrix of the points [pt]. *)
Definition cauchy_poly (n : nat) (pt : nat → Elem) (x : nat → Elem) (z : Elem) : Elem :=
  bsum n (λ c, x c * others n pt c z).

Lemma polyfun_cauchy n pt x : polyfun n (cauchy_poly n pt x).
Proof.
  apply polyfun_bsum. intros i Hi. apply polyfun_scale.
  pose proof (polyfun_others n pt i) as H. by rewrite decide_True in H.
Qed.

Lemma cauchy_poly_at_point n pt x c :
  c < n → cauchy_poly n pt x (pt c) = x c * others n pt c (pt c).
Proof.
  intros Hc. unfold cauchy_poly. rewrite (bsum_single n c); [done|done|].
  intros i Hi Hne. unfold others. rewrite (bprod_eq_0 n _ c); [ring|done|].
  rewrite decide_False by done. ring.
Qed.

Lemma cauchy_poly_off_points n pt x z :
  (∀ c, c < n → z + pt c ≠ 0) →
  cauchy_poly n pt x z = bprod n (λ c, z + pt c) * bsum n (λ c, 1 / (z + pt c) * x c).
Proof.
  intros Hz. unfold cauchy_poly. rewrite <-bsum_mul_l. apply bsum_ext. intros c Hc.
  rewrite <-(others_factor n pt c z Hc).
  replace (others n pt c z * (z + pt c) * (1 / (z + pt c) * x c))
    with (others n pt c z * (1 / (z + pt c) * (z + pt c)) * x c) by ring.
  rewrite div_mul by (by apply Hz). ring.
Qed.

(** The identity above a Cauchy block is MDS. *)
Definition cauchy_matrix (n : nat) (pt : nat → Elem) : nat → nat → Elem :=
  λ r c, if decide (r < n) then delta r c else 1 / (pt r + pt c).

Lemma cauchy_mds n t pt :
  (∀ i j, i < t → j < t → pt i = pt j → i = j) → n ≤ t → mds n t (cauchy_matrix n pt).
Proof.
  intros Hinj Hnt ρ [Hρ1 Hρ2] x Hx.
  assert (∀ i, i < n → cauchy_poly n pt x (pt (ρ i)) = 0) as Hroots.
  { intros i Hi. specialize (Hx i Hi). unfold row_dot, cauchy_matrix in Hx.
    destruct (decide (ρ i < n)).
    - rewrite cauchy_poly_at_point by done.
      change (row_dot n delta x (ρ i) = 0) in Hx. rewrite row_dot_delta in Hx by done.
      rewrite Hx. ring.
    - rewrite cauchy_poly_off_points; [rewrite Hx; ring|].
      intros c Hc Hz%add_cancel. apply Hinj in Hz; [lia|auto|lia]. }
  destruct (polyfun_cauchy n pt x) as (p & Hp & Hev).
  assert (Forall (λ c, c = 0) p) as Hzero.
  { apply (root_bound _ (map (λ i, pt (ρ i)) (seq 0 n))).
    - rewrite NoDup_ListNoDup. apply NoDup_map_NoDup_ForallPairs; [|apply seq_NoDup].
      intros i j [_ Hi]%in_seq [_ Hj]%in_seq Heq. apply Hρ2; [done|done|].
      apply Hinj; [by apply Hρ1|by apply Hρ1|done].
    - rewrite length_map, length_seq. lia.
    - intros z Hz. apply list_elem_of_In, in_map_iff in Hz as (i & <- & Hi).
      apply in_seq in Hi. rewrite Hev. apply Hroots. lia. }
  intros c Hc.
  assert (x c * others n pt c (pt c) = 0) as H0.
  { rewrite <-cauchy_poly_at_point, <-Hev by done. by apply eval_zeros. }
  apply mul_eq_0 in H0 as [|H0]; [done|exfalso].
  revert H0. apply bprod_neq_0. intros i Hi. case_decide; [apply one_neq_zero|].
  intros Hz%add_cancel. apply Hinj in Hz; lia.
Qed.

Lemma vandermonde_mds n t pt :
  (∀ i j, i < t → j < t → pt i = pt j → i = j) → n ≤ t →
  mds n t (λ r c, fpow (pt r) (N.of_nat c)).
Proof.
  intros Hinj Hnt ρ [Hρ1 Hρ2].
  apply (vandermonde_nonsingular n n (λ i, pt (ρ i))); [done|].
  intros i j Hi Hj Heq. apply Hρ2; [done|done|]. apply Hinj; [by apply Hρ1|by apply Hρ1|done].
Qed.

(** The identity above one row of ones is MDS. *)
Definition ones_matrix (n : nat) : nat → nat → Elem :=
  λ r c, if decide (r < n) then delta r c else 1.

Lemma ones_mds n : mds n (n + 1) (ones_matrix n).
Proof.
  intros ρ [Hρ1 Hρ2] x Hx.
  assert (∀ i, i < n → ρ i < n → x (ρ i) = 0) as Hsel.
  { intros i Hi Hlt. specialize (Hx i Hi). unfold row_dot, ones_matrix in Hx.
    destruct (decide (ρ i < n)); [|done].
    change (row_dot n delta x (ρ i) = 0) in Hx. by rewrite row_dot_delta in Hx. }
  intros c Hc.
  destruct (decide (∃ i, i < n ∧ ρ i = c)) as [(i & Hi & <-)|Hno]; [by apply Hsel|].
  (* [c] is the only data row left out, so the row of ones is selected *)
  assert (∀ k, k < n + 1 → k ≠ c → ∃ i, i < n ∧ ρ i = k) as Hall.
  { intros k Hk Hkc. apply dec_stable. intros Hno'.
    assert (n + length [c; k] ≤ n + 1); [|simpl in *; lia].
    apply (selection_misses n (n + 1) ρ); [done| |].
    - apply NoDup_cons. split; [by rewrite list_elem_of_singleton|apply NoDup_singleton].
    - intros y. rewrite elem_of_cons, list_elem_of_singleton. intros [->| ->];
        (split; [lia|]); intros i Hi E; [apply Hno|apply Hno']; by exists i. }
  destruct (Hall n) as (i & Hi & Hρi); [lia..|].
  pose proof (Hx i Hi) as Hrow. unfold row_dot, ones_matrix in Hrow.
  rewrite Hρi in Hrow. destruct (decide (n < n)); [lia|].
  rewrite (bsum_single n c) in Hrow; [rewrite <-Hrow; ring|done|].
  intros k Hk Hkc. destruct (Hall k ltac:(lia) Hkc) as (j & Hj & <-). rewrite Hsel by done. ring.
Qed.

(** Reshaping rows and columns without losing the MDS property: every row of
    [M'] is a nonzero multiple of a row of [M] on a transformed vector. *)
Lemma mds_transform n t M M' (φ : (nat → Elem) → nat → Elem) (k : nat → Elem) (π : nat → nat) :
  selection t t π → (∀ r, r < t → k r ≠ 0) →
  (∀ x r, r < t → row_dot n M' x r = k r * row_dot n M (φ x) (π r)) →
  (∀ x, (∀ c, c < n → φ x c = 0) → ∀ c, c < n → x c = 0) →
  mds n t M → mds n t M'.
Proof.
  intros [Hπ1 Hπ2] Hk Hrow Hφ HM ρ [Hρ1 Hρ2] x Hx. apply Hφ.
  apply (HM (λ i, π (ρ i))).
  - split; [auto|]. intros i j Hi Hj E. apply Hρ2; [done|done|]. apply Hπ2; auto.
  - intros i Hi. specialize (Hx i Hi).
    change (row_dot n M' x (ρ i) = 0) in Hx. rewrite Hrow in Hx by auto.
    apply mul_eq_0 in Hx as [Hx|Hx]; [|done]. by apply Hk in Hx; [|auto].
Qed.

Lemma selection_id t : selection t t (λ r, r).
Proof. split; auto. Qed.

(** Multiplying column [i] by [s], and adding [s] times column [i] to [j]. *)
Lemma mds_scale_col n t M i s :
  s ≠ 0 → i < n → mds n t M → mds n t (λ r c, if decide (c = i) then M r c * s else M r c).
Proof.
  intros Hs Hi.
  apply (mds_transform n t M _ (λ x c, if decide (c = i) then s * x c else x c) (λ _, 1)
    (λ r, r)); [apply selection_id|intros; apply one_neq_zero| |].
  - intros x r _. unfold row_dot. rewrite <-bsum_mul_l. apply bsum_ext. intros c _.
    case_decide; ring.
  - intros x Hx c Hc. specialize (Hx c Hc). cbn in Hx. case_decide; [|done].
    apply mul_eq_0 in Hx as [|]; done.
Qed.

Lemma mds_add_col n t M i j s :
  i ≠ j → i < n → j < n → mds n t M →
  mds n t (λ r c, if decide (c = j) then M r c + s * M r i else M r c).
Proof.
  intros Hij Hi Hj.
  apply (mds_transform n t M _ (λ x c, if decide (c = i) then x c + s * x j else x c) (λ _, 1)
    (λ r, r)); [apply selection_id|intros; apply one_neq_zero| |].
  - intros x r _. rewrite mul_1_l. unfold row_dot.
    transitivity (bsum n (λ c, M r c * x c) + s * M r i * x j).
    + rewrite <-(bsum_delta_r n j (λ c, s * M r i * x c)) by done.
      rewrite <-bsum_add. apply bsum_ext. intros c _. unfold delta.
      case_decide; ring.
    + rewrite <-(bsum_delta_r n i (λ c, s * M r c * x j)) by done.
      rewrite <-bsum_add. apply bsum_ext. intros c _. unfold delta.
      case_decide; subst; ring.
  - intros x Hx c Hc. destruct (decide (c = i)) as [->|Hne].
    + pose proof (Hx i Hc) as H1. pose proof (Hx j Hj) as H2. cbn in H1, H2.
      rewrite decide_True in H1 by done. rewrite decide_False in H2 by done.
      rewrite H2 in H1. rewrite <-H1. ring.
    + specialize (Hx c Hc). cbn in Hx. by rewrite decide_False in Hx.
Qed.

Lemma mds_swap_rows n t M a b :
  a < t → b < t → mds n t M → mds n t (swap_row M a b).
Proof.
  intros Ha Hb.
  apply (mds_transform n t M _ (λ x, x) (λ _, 1)
    (λ r, if decide (r = a) then b else if decide (r = b) then a else r)).
  - split; [intros i Hi; repeat case_decide; lia|].
    intros i j Hi Hj. repeat case_decide; lia.
  - intros; apply one_neq_zero.
  - intros x r _. rewrite mul_1_l. unfold row_dot, swap_row. apply bsum_ext.
    intros c _. repeat case_decide; done.
  - done.
Qed.

(** Scaling rows by nonzero factors. *)
Lemma mds_scale_rows n t M (k : nat → Elem) :
  (∀ r, r < t → k r ≠ 0) → mds n t M → mds n t (λ r c, k r * M r c).
Proof.
  intros Hk. apply (mds_transform n t M _ (λ x, x) k (λ r, r));
    [apply selection_id|done| |done].
  intros x r _. unfold row_dot. rewrite <-bsum_mul_l. apply bsum_ext. intros; ring.
Qed.

(** In an MDS matrix whose first [i] rows are unit rows, column [i] has a
    nonzero entry among the remaining data rows. *)
Lemma mds_pivot n t M i :
  mds n t M → n ≤ t → i < n → (∀ r c, r < i → c < n → M r c = delta r c) →
  ∃ r, i ≤ r ∧ r < n ∧ M r i ≠ 0.
Proof.
  intros HM Hnt Hi Hunit.
  destruct (decide (∃ k, k < n - i ∧ M (i + k)%nat i ≠ 0)) as [(k & Hk & Hne)|Hno].
  { exists (i + k)%nat. split_and!; [lia|lia|done]. }
  exfalso. apply one_neq_zero.
  transitivity (delta i i); [unfold delta; by rewrite decide_True|].
  apply (HM (λ r, r)); [split; intros; lia| |done].
  intros r Hr. unfold row_dot. rewrite (bsum_single n i); [|done|].
  - destruct (decide (r < i)).
    + rewrite Hunit by lia. unfold delta. rewrite decide_False by lia. ring.
    + destruct (decide (M r i = 0)) as [->|Hne]; [ring|]. destruct Hno.
      exists (r - i)%nat. replace (i + (r - i))%nat with r by lia. split; [lia|done].
  - intros c Hc Hne. unfold delta. rewrite decide_False by done. ring.
Qed.

(** A parity entry of a systematic MDS matrix is nonzero. *)
Lemma mds_entry n t M r c :
  mds n t M → systematic n M → n ≤ r → r < t → c < n → M r c ≠ 0.
Proof.
  intros HM Hsys Hr Hrt Hc Hz. apply one_neq_zero.
  transitivity (delta c c); [unfold delta; by rewrite decide_True|].
  apply (HM (λ i, if decide (i = c) then r else i)); [|intros i Hi|done].
  - split; [intros i Hi; case_decide; lia|]. intros i j Hi Hj. repeat case_decide; lia.
  - unfold row_dot. rewrite (bsum_single n c); [|done|].
    + replace (delta c c) with (1 : Elem) by (unfold delta; by rewrite decide_True).
      destruct (decide (i = c)) as [->|Hne]; [rewrite Hz; ring|].
      rewrite Hsys by done. unfold delta. rewrite decide_False by done. ring.
    + intros k Hk Hne. unfold delta. rewrite (decide_False (P:=c = k)) by congruence. ring.
Qed.

(** The Vandermonde matrix extended with the rows of the points 0 and
    infinity. *)
Definition extended_vandermonde (n t : nat) (pt : nat → Elem) : nat → nat → Elem :=
  λ r c, if decide (r = t - 1) then delta (n - 1) c
         else if decide (r = 0)%nat then delta 0 c else fpow (pt r) (N.of_nat c).

Lemma extended_vandermonde_mds n t pt :
  0 < n → n < t → pt 0%nat = 0 → (∀ i j, i < t → j < t → pt i = pt j → i = j) →
  mds n t (extended_vandermonde n t pt).
Proof.
  intros Hn Hnt Hp0 Hinj ρ [Hρ1 Hρ2] x Hx.
  assert (∀ i, i < n → ρ i ≠ t - 1 →
    bsum n (λ c, x c * fpow (pt (ρ i)) (N.of_nat c)) = 0) as Hroot.
  { intros i Hi Hne. rewrite <-(Hx i Hi). apply bsum_ext. intros c Hc.
    unfold extended_vandermonde. rewrite decide_False by done.
    case_decide as H0; [|ring]. rewrite H0, Hp0. unfold delta.
    case_decide as Hc0.
    - subst c. change (N.of_nat 0) with 0%N. rewrite fpow_0. ring.
    - destruct c as [|c]; [done|]. rewrite Nat2N.inj_succ, fpow_succ. ring. }
  destruct (decide (∃ i, i < n ∧ ρ i = t - 1)) as [(i0 & Hi0 & Ht)|Hno].
  - (* the point at infinity is selected: the leading coefficient vanishes *)
    assert (x (n - 1) = 0) as Hlead.
    { pose proof (Hx i0 Hi0) as Hrow. unfold row_dot, extended_vandermonde in Hrow.
      rewrite Ht in Hrow. destruct (decide (t - 1 = t - 1)); [|done].
      change (row_dot n (λ _, delta (n - 1)) x 0 = 0) in Hrow.
      change (row_dot n delta x (n - 1) = 0) in Hrow.
      by rewrite row_dot_delta in Hrow by lia. }
    set (skip := λ i, if decide (i < i0) then i else S i).
    assert (∀ c, c < n - 1 → x c = 0) as Hrest.
    { apply (poly_zero (n - 1) (n - 1) x (λ i, pt (ρ (skip i)))); [done| |].
      - intros i j Hi Hj E. apply Hinj in E.
        + apply Hρ2 in E; unfold skip in *; repeat case_decide; lia.
        + apply Hρ1. unfold skip. case_decide; lia.
        + apply Hρ1. unfold skip. case_decide; lia.
      - intros i Hi.
        assert (skip i < n ∧ skip i ≠ i0) as [Hs1 Hs2] by (unfold skip; case_decide; lia).
        rewrite <-(Hroot (skip i) Hs1).
        + replace n with (S (n - 1)) at 2 by lia. simpl. rewrite Hlead. ring.
        + intros E. apply Hs2. apply Hρ2; [done|done|congruence]. }
    intros c Hc. destruct (decide (c = n - 1)) as [->|]; [done|]. apply Hrest. lia.
  - apply (poly_zero n n x (λ i, pt (ρ i))); [done| |].
    + intros i j Hi Hj E. apply Hinj in E; [|by apply Hρ1|by apply Hρ1]. by apply Hρ2.
    + intros i Hi. apply Hroot; [done|]. intros E. apply Hno. by exists i.
Qed.
End mds.

(** ** Codewords *)
Section codewords.
Context {F : Field} {FL : FieldLaws F}.
Add Ring elem_ring6 : field_ring_theory (morphism field_ring_morph, constants [field_const]).
Implicit Types (M : nat → nat → Elem) (x y : nat → Elem).

(** The rows listed in [l]. *)
Definition rows_at (l : list nat) (i : nat) : nat := default 0%nat (l !! i).

Lemma rows_at_selection n t (l : list nat) :
  NoDup l → n ≤ length l → (∀ r, r ∈ l → r < t) → selection n t (rows_at l).
Proof.
  intros Hnd Hn Hl. split.
  - intros i Hi. destruct (lookup_lt_is_Some_2 l i) as [r Hr]; [lia|].
    unfold rows_at. rewrite Hr. simpl. apply Hl. by eapply list_elem_of_lookup_2.
  - intros i j Hi Hj E. destruct (lookup_lt_is_Some_2 l i) as [r Hr]; [lia|].
    destruct (lookup_lt_is_Some_2 l j) as [r' Hr']; [lia|].
    unfold rows_at in E. rewrite Hr, Hr' in E. simpl in E. subst.
    by eapply NoDup_lookup.
Qed.

Lemma rows_at_elem (l : list nat) i : i < length l → rows_at l i ∈ l.
Proof.
  intros Hi. destruct (lookup_lt_is_Some_2 l i Hi) as [r Hr].
  unfold rows_at. rewrite Hr. by eapply list_elem_of_lookup_2.
Qed.

Lemma row_dot_add n M x y r : row_dot n M (λ c, x c + y c) r = row_dot n M x r + row_dot n M y r.
Proof. unfold row_dot. rewrite <-bsum_add. apply bsum_ext. intros. ring. Qed.

(** Two messages whose codewords agree on [n] rows are equal. *)
Lemma mds_agree n t M (l : list nat) x y :
  mds n t M → NoDup l → n ≤ length l → (∀ r, r ∈ l → r < t) →
  (∀ r, r ∈ l → row_dot n M x r = row_dot n M y r) →
  ∀ c, c < n → x c = y c.
Proof.
  intros HM Hnd Hn Hl Hxy c Hc. apply add_eq_0.
  apply (HM _ (rows_at_selection n t l Hnd Hn Hl) (λ c, x c + y c)); [|done].
  intros i Hi. change (row_dot n M (λ c, x c + y c) (rows_at l i) = 0).
  rewrite row_dot_add. apply add_eq_0. apply Hxy, rows_at_elem. lia.
Qed.

(** ** Sums over lists of indices *)
Fixpoint lsum (l : list nat) (f : nat → Elem) : Elem :=
  match l with [] => 0 | i :: l => f i + lsum l f end.

Lemma lsum_app l k f : lsum (l ++ k) f = lsum l f + lsum k f.
Proof. induction l as [|i l IH]; simpl; [ring|]. rewrite IH. ring. Qed.

Lemma lsum_perm l k f : l ≡ₚ k → lsum l f = lsum k f.
Proof.
  induction 1 as [|i l k _ IH|i j l|l k h _ IH1 _ IH2]; simpl; [done|by rewrite IH|ring|].
  by rewrite IH1.
Qed.

Lemma lsum_seq n f : lsum (seq 0 n) f = bsum n f.
Proof.
  induction n as [|n IH]; [done|]. rewrite seq_S, lsum_app, IH. simpl. ring.
Qed.

Lemma lsum_rows_at l f : lsum l f = bsum (length l) (λ i, f (rows_at l i)).
Proof.
  induction l as [|x l IH] using rev_ind; [done|].
  rewrite lsum_app, IH, length_app, Nat.add_1_r. cbn [lsum length bsum].
  assert (rows_at (l ++ [x]) (length l) = x) as ->.
  { unfold rows_at. by rewrite lookup_app_r, Nat.sub_diag by lia. }
  rewrite (bsum_ext (length l) (λ i, f (rows_at (l ++ [x]) i)) (λ i, f (rows_at l i))); [ring|].
  intros i Hi. unfold rows_at. by rewrite lookup_app_l.
Qed.

(** [X] recovers every message from its values on the rows of [S]. *)
Definition decodes (n : nat) (S X : nat → nat → Elem) : Prop :=
  ∀ z a, a < n → row_dot n X (row_dot n S z) a = z a.

Lemma decodes_nonsingular n S X : decodes n S X → nonsingular n n S.
Proof.
  intros H x Hx c Hc. rewrite <-(H x c Hc). apply bsum_0. intros i Hi.
  rewrite Hx by done. ring.
Qed.

Lemma inverse_decodes n S X : inverse_of n S X → decodes n S X.
Proof.
  intros H z a Ha.
  transitivity (mmul n X (mmul n S (λ k _, z k)) a 0%nat); [done|].
  rewrite <-mmul_assoc.
  transitivity (row_dot n delta z a); [|by apply row_dot_delta].
  apply bsum_ext. intros k Hk. by rewrite (proj2 (H a k Ha Hk)).
Qed.

(** A decoder is the inverse, where there is one. *)
Lemma decodes_unique n S X Y a j :
  decodes n S X → inverse_of n S Y → a < n → j < n → X a j = Y a j.
Proof.
  intros HX HY Ha Hj. rewrite <-(HX (λ c, Y c j) a Ha).
  unfold row_dot at 1.
  rewrite (bsum_ext n _ (λ i, X a i * delta i j)).
  - by rewrite bsum_delta_r.
  - intros i Hi. f_equal. exact (proj1 (HY i j Hi Hj)).
Qed.
End codewords.
