(* ===== verification/Matrix.v ===== *)
(** * Matrices over a field ([src/matrix.rs])

    A [Matrix] is its row-major storage with its two dimensions, as in the
    source; every access goes through the flat index [r * col_count + c] with
    the panics of slice indexing.  [rep m rows cols f] says that the storage
    holds the function [f]; each operation is specified through it, and the
    elimination loops are shown to preserve the kernel of the function. *)

From Stdlib Require Import NArith ZArith Lia List Bool Ring.
From stdpp Require Import base numbers list.
From S2P Require Import Prelude Errors Fields LinAlg.

Local Open Scope field_scope.

(** [flatten]; [m[0]] panics on an empty vector. *)
Definition flatten {E T : Type} (m : list (list T)) : outcome E (list T) :=
  let! _ := index m 0 in
  Ok (fold_left (λ result row, fold_left (λ result v, result ++ [v]) row result) m []).

Definition calc_matrix_row_start_end (col_count row : nat) : nat * nat :=
  let start := (row * col_count)%nat in
  let end_ := (start + col_count)%nat in
  (start, end_).

Record Matrix (T : Type) := mk_matrix {
  row_count : nat;
  col_count : nat;
  data : list T;
}.
Arguments mk_matrix {T} _ _ _.
Arguments row_count {T} _.
Arguments col_count {T} _.
Arguments data {T} _.

Section operations.
Context {F : Field}.
Implicit Types (m self rhs : Matrix Elem).

Definition set_data m (d : list Elem) : Matrix Elem :=
  mk_matrix (row_count m) (col_count m) d.

(** The macro [acc!], read and written. *)
Definition acc {E} m (r c : nat) : outcome E Elem :=
  index (data m) (r * col_count m + c)%nat.
Definition set_acc {E} m (r c : nat) (v : Elem) : outcome E (Matrix Elem) :=
  let! d := update (data m) (r * col_count m + c)%nat v in Ok (set_data m d).

(** [F::as_gf8_slice(&[]).is_some()] *)
Definition byte_rows_p : bool :=
  match as_gf8_slice [] with Some _ => true | None => false end.

(** [Matrix::new] *)
Definition matrix_new (rows cols : nat) : Matrix Elem :=
  mk_matrix rows cols (replicate (rows * cols) 0).

Definition new_with_data (init_data : list (list Elem)) : outcome MatrixError (Matrix Elem) :=
  if decide (init_data = []) then Err EmptyInput else
  let rows := length init_data in
  let! r0 := index init_data 0 in
  let cols := length r0 in
  let! _ := for_each init_data (λ r _,
    if decide (length r ≠ cols) then Err InconsistentRowSizes else Ok tt) tt in
  let! d := flatten init_data in
  Ok (mk_matrix rows cols d).

Definition identity {E} (size : nat) : outcome E (Matrix Elem) :=
  for_range 0 size (λ i result, set_acc result i i 1) (matrix_new size size).

Definition get {E} self (r c : nat) : outcome E Elem := acc self r c.
Definition set {E} self (r c : nat) (val : Elem) : outcome E (Matrix Elem) :=
  set_acc self r c val.

Definition calc_row_start_end self (row : nat) : nat * nat :=
  calc_matrix_row_start_end (col_count self) row.

Definition get_row {E} self (row : nat) : outcome E (list Elem) :=
  let '(start, end_) := calc_row_start_end self row in
  slice (data self) start end_.

Definition add_scaled_slice {E} (scale : Elem) (input output : list Elem)
    (byte_rows : bool) : outcome E (list Elem) :=
  if byte_rows then
    match mul_slice_add scale input output with
    | Some output' => Ok output'
    | None => Panic
    end
  else
    Ok (zip_with (λ output input, output + scale * input) output input
          ++ drop (length input) output).

Definition multiply self rhs : outcome MatrixError (Matrix Elem) :=
  if decide (col_count self ≠ row_count rhs) then Err IncompatibleDimensions else
  let result := matrix_new (row_count self) (col_count rhs) in
  if decide (col_count rhs = 0%nat) then Ok result else
  let byte_rows := byte_rows_p in
  for_range 0 (row_count self) (λ row result,
    let start := (row * col_count rhs)%nat in
    let! d := update_slice (data result) start (start + col_count rhs) (λ output,
      let! coefficients := get_row self row in
      for_each (imap pair coefficients) (λ '(inner, coefficient) output,
        if decide (coefficient ≠ 0) then
          let! r := get_row rhs inner in
          add_scaled_slice coefficient r output byte_rows
        else Ok output) output) in
    Ok (set_data result d)) result.

Definition augment self rhs : outcome MatrixError (Matrix Elem) :=
  if decide (row_count self ≠ row_count rhs) then Err IncompatibleDimensions else
  let result := matrix_new (row_count self) (col_count self + col_count rhs) in
  for_range 0 (row_count self) (λ r result,
    let! result := for_range 0 (col_count self) (λ c result,
      let! v := acc self r c in set_acc result r c v) result in
    let self_column_count := col_count self in
    for_range 0 (col_count rhs) (λ c result,
      let! v := acc rhs r c in
      set_acc result r (self_column_count + c)%nat v) result) result.

(** [usize] subtraction panics (debug) or wraps and then fails to allocate
    (release) below zero; both are [Panic]. *)
Definition sub_matrix {E} self (rmin cmin rmax cmax : nat) : outcome E (Matrix Elem) :=
  if decide (rmin ≤ rmax ∧ cmin ≤ cmax) then
    let result := matrix_new (rmax - rmin) (cmax - cmin) in
    for_range rmin rmax (λ r result,
      for_range cmin cmax (λ c result,
        let! v := acc self r c in
        set_acc result (r - rmin)%nat (c - cmin)%nat v) result) result
  else Panic.

(** A contiguous range of rows, [MatrixRowRange]. *)
Record MatrixRowRange := mk_row_range {
  range_matrix : Matrix Elem;
  range_start : nat;
  range_len : nat;
}.

Definition row_range {E} self (start end_ : nat) : outcome E MatrixRowRange :=
  if decide (start ≤ end_ ∧ end_ ≤ row_count self)
  then Ok (mk_row_range self start (end_ - start)%nat)
  else Panic.

(** [MatrixRowRange::get_row] *)
Definition range_get_row {E} (self : MatrixRowRange) (i : nat) : outcome E (list Elem) :=
  if decide (i < range_len self)
  then get_row (range_matrix self) (range_start self + i)%nat
  else Panic.

(** [slice.swap(a, b)] *)
Definition swap_elems {E} (d : list Elem) (a b : nat) : outcome E (list Elem) :=
  let! x := index d a in
  let! y := index d b in
  let! d := update d a y in
  update d b x.

Definition swap_rows {E} self (r1 r2 : nat) : outcome E (Matrix Elem) :=
  let '(r1_s, _) := calc_row_start_end self r1 in
  let '(r2_s, _) := calc_row_start_end self r2 in
  if decide (r1 = r2) then Ok self else
  for_range 0 (col_count self) (λ i self,
    let! d := swap_elems (data self) (r1_s + i)%nat (r2_s + i)%nat in
    Ok (set_data self d)) self.

Definition is_square self : bool := (row_count self =? col_count self)%nat.

(** The part of [add_scaled_pivot_row] after the rows are borrowed. *)
Definition pivot_row_update {E} (source : nat) (scale : Elem) (byte_rows : bool)
    (input output : list Elem) : outcome E (list Elem) :=
  let zero_prefix := if byte_rows then 0%nat else S source in
  let! input' := slice input zero_prefix (length input) in
  let! output := update_slice output zero_prefix (length output) (λ output',
    add_scaled_slice scale input' output' byte_rows) in
  if negb byte_rows then
    let! o := index output source in
    update output source (o + scale)
  else Ok output.

Definition add_scaled_pivot_row {E} self (source destination : nat) (scale : Elem)
    (byte_rows : bool) : outcome E (Matrix Elem) :=
  let width := col_count self in
  if decide (source < destination) then
    let! ' (before, after) := split_at (data self) (destination * width) in
    let! input := slice before (source * width) ((source + 1) * width) in
    let! after := update_slice after 0 width (λ output,
      pivot_row_update source scale byte_rows input output) in
    Ok (set_data self (before ++ after))
  else
    let! ' (before, after) := split_at (data self) (source * width) in
    let! input := slice after 0 width in
    let! before := update_slice before (destination * width) ((destination + 1) * width)
      (λ output, pivot_row_update source scale byte_rows input output) in
    Ok (set_data self (before ++ after)).

(** The body of the first loop of [gaussian_elim] at row [r], in three
    parts: exchange with a row below when the pivot is zero, ... *)
Definition find_pivot {E} (r : nat) self : outcome E (Matrix Elem) :=
  let! p := acc self r r in
  if decide (p = 0) then
    for_each_break (seq (r + 1) (row_count self - (r + 1))) (λ r_below self,
      let! v := acc self r_below r in
      if decide (v ≠ 0) then
        let! self := swap_rows self r r_below in Ok (self, true)
      else Ok (self, false)) self
  else Ok self.

(** ... scale the pivot to 1, ... *)
Definition normalize_pivot {E} (byte_rows : bool) (r : nat) self : outcome E (Matrix Elem) :=
  let! p := acc self r r in
  if decide (p ≠ 1) then
    let scale := 1 / p in
    let start := (r * col_count self)%nat in
    let zero_prefix := if byte_rows then 0%nat else (r + 1)%nat in
    let! d := update_slice (data self) (start + zero_prefix) (start + col_count self)
      (λ values, Ok (map (λ value, scale * value) values)) in
    let self := set_data self d in
    if negb byte_rows then set_acc self r r 1 else Ok self
  else Ok self.

(** ... and make everything below it 0. *)
Definition clear_below {E} (byte_rows : bool) (r : nat) self : outcome E (Matrix Elem) :=
  for_range (r + 1) (row_count self) (λ r_below self,
    let! scale := acc self r_below r in
    if decide (scale ≠ 0) then add_scaled_pivot_row self r r_below scale byte_rows
    else Ok self) self.

Definition elim_forward_step (byte_rows : bool) (r : nat) self
  : outcome MatrixError (Matrix Elem) :=
  let! self := find_pivot r self in
  let! p := acc self r r in
  if decide (p = 0) then Err SingularMatrix else
  let! self := normalize_pivot byte_rows r self in
  clear_below byte_rows r self.

(** The body of the second loop at row [d]: clear the column above it. *)
Definition elim_back_step (byte_rows : bool) (d : nat) self
  : outcome MatrixError (Matrix Elem) :=
  for_range 0 d (λ r_above self,
    let! scale := acc self r_above d in
    if decide (scale ≠ 0) then add_scaled_pivot_row self d r_above scale byte_rows
    else Ok self) self.

Definition gaussian_elim self : outcome MatrixError (Matrix Elem) :=
  let byte_rows := byte_rows_p in
  let rows := row_count self in
  let! self := for_range 0 rows (elim_forward_step byte_rows) self in
  for_range 0 rows (elim_back_step byte_rows) self.

Definition invert self : outcome MatrixError (Matrix Elem) :=
  if negb (is_square self) then Err NonSquare else
  let rows := row_count self in
  let cols := col_count self in
  let work := matrix_new rows (cols * 2) in
  let! work := for_range 0 rows (λ row work,
    let start := (row * col_count work)%nat in
    let! d := update_slice (data work) start (start + cols) (λ dst,
      let! src := get_row self row in
      if decide (length src = length dst) then Ok src else Panic) in
    set_acc (set_data work d) row (cols + row)%nat 1) work in
  let! work := gaussian_elim work in
  sub_matrix work 0 cols rows (cols * 2).

Definition vandermonde {E} (rows cols : nat) : outcome E (Matrix Elem) :=
  for_range 0 rows (λ r result,
    let r_a := nth (N.of_nat r) in
    for_range 0 cols (λ c result,
      set_acc result r c (exp r_a (N.of_nat c))) result) (matrix_new rows cols).

(** [systematic_from_vandermonde] (feature [experimental-matrix-builder]). *)
Definition systematic_from_vandermonde self : outcome MatrixError (Matrix Elem) :=
  let n := col_count self in
  if decide (row_count self < n) then Err IncompatibleDimensions else
  let work := matrix_new n (n * 2) in
  let! work := for_range 0 n (λ row work,
    let start := (row * col_count work)%nat in
    let! d := update_slice (data work) start (start + n) (λ dst,
      let! src := get_row self row in
      if decide (length src = length dst) then Ok src else Panic) in
    set_acc (set_data work d) row (n + row)%nat 1) work in
  let! work := gaussian_elim work in
  let byte_rows := byte_rows_p in
  for_range 0 (row_count self) (λ row result,
    let start := (row * n)%nat in
    let! d := update_slice (data result) start (start + n) (λ output,
      let! coefficients := get_row self row in
      for_each (imap pair coefficients) (λ '(inner, coefficient) output,
        if decide (coefficient ≠ 0) then
          let! r := get_row work inner in
          let! right := slice r n (length r) in
          add_scaled_slice coefficient right output byte_rows
        else Ok output) output) in
    Ok (set_data result d)) (matrix_new (row_count self) n).
End operations.

(** ** The storage of a matrix represents a function *)
Section representation.
Context {F : Field} {FL : FieldLaws F}.
Add Ring elem_ring : field_ring_theory (morphism field_ring_morph, constants [field_const]).
Implicit Types (m : Matrix Elem) (f g : nat → nat → Elem).

Definition rep m (rows cols : nat) f : Prop :=
  row_count m = rows ∧ col_count m = cols ∧ length (data m) = (rows * cols)%nat ∧
  ∀ r c, r < rows → c < cols → data m !! (r * cols + c)%nat = Some (f r c).

(** A function is determined by its matrix, and conversely. *)
Lemma rep_ext m rows cols f g :
  rep m rows cols f → (∀ r c, r < rows → c < cols → f r c = g r c) → rep m rows cols g.
Proof.
  intros (H1 & H2 & H3 & H4) H. split_and!; [done..|].
  intros r c Hr Hc. by rewrite H4, H.
Qed.

Lemma rep_inj m rows cols f g r c :
  rep m rows cols f → rep m rows cols g → r < rows → c < cols → f r c = g r c.
Proof.
  intros (_ & _ & _ & H1) (_ & _ & _ & H2) Hr Hc.
  specialize (H1 r c Hr Hc). specialize (H2 r c Hr Hc). congruence.
Qed.

Lemma flat_bound rows cols r c : r < rows → c < cols → r * cols + c < rows * cols.
Proof. intros. nia. Qed.

Lemma flat_inj cols r c r' c' :
  c < cols → c' < cols → (r * cols + c = r' * cols + c')%nat → r = r' ∧ c = c'.
Proof. intros. assert (r = r') by nia. subst. split; lia. Qed.

Lemma rep_unique m m' rows cols f :
  rep m rows cols f → rep m' rows cols f → m = m'.
Proof.
  destruct m as [r1 c1 d1], m' as [r2 c2 d2].
  intros (H1 & H2 & H3 & H4) (G1 & G2 & G3 & G4). simpl in *. subst r1 r2 c1 c2. f_equal.
  apply list_ext_lt; [lia|]. intros i Hi. rewrite H3 in Hi.
  assert (cols ≠ 0%nat) by (intros ->; lia).
  rewrite (Nat.div_mod_eq i cols), (Nat.mul_comm cols).
  assert (i / cols < rows) by (apply Nat.Div0.div_lt_upper_bound; lia).
  assert (i mod cols < cols) by (by apply Nat.mod_upper_bound).
  by rewrite H4, G4.
Qed.

Lemma rep_new rows cols : rep (matrix_new rows cols) rows cols (λ _ _, 0).
Proof.
  split_and!; [done..|simpl; by rewrite length_replicate|].
  intros r c Hr Hc. simpl. apply lookup_replicate_2. by apply flat_bound.
Qed.

Section matrix.
Context {E : Type} (m : Matrix Elem) (rows cols : nat) (f : nat → nat → Elem).
Context (Hrep : rep m rows cols f).

Lemma acc_ok r c : r < rows → c < cols → acc (E:=E) m r c = Ok (f r c).
Proof.
  destruct Hrep as (_ & H2 & _ & H4). intros. unfold acc. rewrite H2.
  apply index_ok. by apply H4.
Qed.

(** Overwriting columns [lo..hi] of row [r]. *)
Lemma rep_splice r lo new :
  r < rows → lo + length new ≤ cols →
  rep (set_data m (splice (data m) (r * cols + lo) new)) rows cols
    (λ r' c, if decide (r' = r ∧ lo ≤ c < lo + length new)
             then default 0 (new !! (c - lo)%nat) else f r' c).
Proof.
  destruct Hrep as (H1 & H2 & H3 & H4). intros Hr Hl.
  assert (r * cols + lo + length new ≤ length (data m)) by (rewrite H3; nia).
  split_and!; [done..|simpl; by rewrite length_splice|].
  intros r' c Hr' Hc. simpl. rewrite lookup_splice by done.
  destruct (decide (r' = r)) as [->|Hne].
  - case_decide as D1; case_decide as D2; try (exfalso; lia); [|by apply H4].
    replace (r * cols + c - (r * cols + lo))%nat with (c - lo)%nat by lia.
    destruct (new !! (c - lo)%nat) eqn:E1; [done|]. apply lookup_ge_None in E1. lia.
  - rewrite decide_False by (intros ?; apply Hne; nia).
    rewrite decide_False by (by intros [? _]). by apply H4.
Qed.

Lemma set_acc_ok r c v : r < rows → c < cols →
  ∃ m', set_acc (E:=E) m r c v = Ok m' ∧
    rep m' rows cols (λ r' c', if decide (r' = r ∧ c' = c) then v else f r' c').
Proof.
  intros Hr Hc. pose proof (rep_splice r c [v] Hr) as Hs. cbn [length] in Hs.
  destruct Hrep as (H1 & H2 & H3 & H4).
  pose proof (flat_bound rows cols r c Hr Hc).
  unfold set_acc. rewrite H2, update_ok by lia. simpl. eexists. split; [done|].
  rewrite insert_splice by lia.
  eapply rep_ext; [apply Hs; lia|]. intros r' c' Hr' Hc'. simpl.
  case_decide as D1; case_decide as D2; try done; try (exfalso; lia).
  replace (c' - c)%nat with 0%nat by lia. done.
Qed.

Lemma slice_row r lo hi : r < rows → lo ≤ hi → hi ≤ cols →
  slice (E:=E) (data m) (r * cols + lo) (r * cols + hi)
  = Ok (tabulate (hi - lo) (λ c, f r (lo + c)%nat)).
Proof.
  destruct Hrep as (H1 & H2 & H3 & H4). intros Hr Hlo Hhi.
  rewrite slice_ok by (rewrite ?H3; nia). f_equal.
  apply eq_tabulate.
  - rewrite length_take, length_drop, H3. nia.
  - intros i Hi. rewrite lookup_slice, decide_True by lia.
    rewrite <-Nat.add_assoc. apply H4; lia.
Qed.

Lemma get_row_ok r : r < rows → get_row (E:=E) m r = Ok (tabulate cols (f r)).
Proof.
  intros Hr. unfold get_row, calc_row_start_end, calc_matrix_row_start_end.
  destruct Hrep as (_ & -> & _ & _).
  pose proof (slice_row r 0 cols Hr) as Hs. rewrite Nat.add_0_r, Nat.sub_0_r in Hs.
  apply Hs; lia.
Qed.

(** Updating columns [lo..hi] of row [r] through a mutable borrow. *)
Lemma update_slice_row r lo hi k (w : nat → Elem) :
  r < rows → lo ≤ hi → hi ≤ cols →
  k (tabulate (hi - lo) (λ c, f r (lo + c)%nat)) = Ok (tabulate (hi - lo) w) →
  ∃ d, update_slice (E:=E) (data m) (r * cols + lo) (r * cols + hi) k = Ok d ∧
    rep (set_data m d) rows cols
      (λ r' c, if decide (r' = r ∧ lo ≤ c < hi) then w (c - lo)%nat else f r' c).
Proof.
  intros Hr Hlo Hhi Hk. unfold update_slice. rewrite slice_row by done. simpl.
  rewrite Hk. simpl. eexists. split; [done|].
  eapply rep_ext; [apply rep_splice; [done|rewrite length_tabulate; lia]|].
  intros r' c Hr' Hc. simpl. rewrite length_tabulate.
  case_decide as D1; case_decide as D2; try done; try (exfalso; lia).
  rewrite lookup_tabulate by lia. done.
Qed.
End matrix.
End representation.

(** ** Row operations *)
Section row_operations.
Context {F : Field} {FL : FieldLaws F}.
Add Ring elem_ring2 : field_ring_theory (morphism field_ring_morph, constants [field_const]).
Implicit Types (m : Matrix Elem) (f g : nat → nat → Elem).

Lemma add_scaled_slice_ok {E} s n (a b : nat → Elem) byte_rows :
  add_scaled_slice (E:=E) s (tabulate n a) (tabulate n b) byte_rows
  = Ok (tabulate n (λ i, b i + s * a i)).
Proof.
  unfold add_scaled_slice. destruct byte_rows.
  - rewrite mul_slice_add_spec. unfold mul_slice_add_default.
    rewrite decide_True by (by rewrite !length_tabulate).
    by rewrite zip_with_tabulate.
  - rewrite zip_with_tabulate, drop_ge, app_nil_r by (by rewrite !length_tabulate). done.
Qed.

(** The elimination update adds [s] times the pivot row, whichever of the
    two traversals is used. *)
Lemma pivot_row_update_ok {E} source n (a b : nat → Elem) s byte_rows :
  source < n → (∀ j, j < source → a j = 0) → a source = 1 →
  pivot_row_update (E:=E) source s byte_rows (tabulate n a) (tabulate n b)
  = Ok (tabulate n (λ i, b i + s * a i)).
Proof.
  intros Hs Hz H1. unfold pivot_row_update, update_slice. rewrite !length_tabulate.
  destruct byte_rows.
  - rewrite !slice_tabulate by lia. cbn [obind].
    rewrite add_scaled_slice_ok. cbn [obind negb].
    rewrite splice_tabulate by lia. f_equal. apply tabulate_ext. intros i Hi.
    rewrite decide_True by lia. by replace (0 + (i - 0))%nat with i by lia.
  - rewrite !slice_tabulate by lia. cbn [obind].
    rewrite add_scaled_slice_ok. cbn [obind negb].
    rewrite splice_tabulate by lia. rewrite index_tabulate by lia. cbn [obind].
    rewrite update_tabulate by lia. f_equal. apply tabulate_ext. intros i Hi.
    case_decide as D1; [subst; rewrite decide_False by lia; rewrite H1; ring|].
    case_decide as D2; [by replace (S source + (i - S source))%nat with i by lia|].
    rewrite Hz by lia. ring.
Qed.

Lemma add_scaled_pivot_row_ok {E} m rows cols f source dest s byte_rows :
  rep m rows cols f → source < rows → dest < rows → source ≠ dest → source < cols →
  (∀ j, j < source → f source j = 0) → f source source = 1 →
  ∃ m', add_scaled_pivot_row (E:=E) m source dest s byte_rows = Ok m' ∧
    rep m' rows cols (add_row f source dest s).
Proof.
  intros Hrep Hs Hd Hne Hsc Hz H1.
  pose proof (slice_row (E:=E) _ _ _ _ Hrep source 0 cols Hs) as Hin.
  pose proof (slice_row (E:=E) _ _ _ _ Hrep dest 0 cols Hd) as Hout.
  rewrite !Nat.add_0_r, !Nat.sub_0_r in Hin, Hout.
  specialize (Hin ltac:(lia) ltac:(lia)). specialize (Hout ltac:(lia) ltac:(lia)).
  change (tabulate cols (λ c, f source (0 + c)%nat)) with (tabulate cols (f source)) in Hin.
  change (tabulate cols (λ c, f dest (0 + c)%nat)) with (tabulate cols (f dest)) in Hout.
  pose proof (pivot_row_update_ok (E:=E) source cols (f source) (f dest) s byte_rows
    Hsc Hz H1) as Hk.
  set (new := tabulate cols (λ i, f dest i + s * f source i)) in *.
  assert (length new = cols) as Hnew by apply length_tabulate.
  pose proof Hrep as (Hr & Hc & Hlen & _).
  assert (add_scaled_pivot_row (E:=E) m source dest s byte_rows =
    Ok (set_data m (splice (data m) (dest * cols + 0) new))) as Heq.
  { unfold add_scaled_pivot_row. rewrite Hc.
    replace ((source + 1) * cols)%nat with (source * cols + cols)%nat by lia.
    replace ((dest + 1) * cols)%nat with (dest * cols + cols)%nat by lia.
    unfold split_at. case_decide.
    - rewrite decide_True by nia. cbn [obind].
      rewrite slice_take by nia. rewrite Hin. cbn [obind]. unfold update_slice.
      rewrite slice_drop by nia. rewrite !Nat.add_0_r, Hout. cbn [obind].
      rewrite Hk. cbn [obind]. rewrite take_splice_drop by nia.
      by rewrite Nat.add_0_r.
    - rewrite decide_True by nia. cbn [obind].
      rewrite slice_drop by nia. rewrite !Nat.add_0_r, Hin. cbn [obind].
      unfold update_slice. rewrite slice_take by nia. rewrite Hout. cbn [obind].
      rewrite Hk. cbn [obind]. rewrite splice_take_drop by (rewrite ?Hnew; nia).
      done. }
  eexists. split; [apply Heq|].
  eapply rep_ext; [apply (rep_splice _ _ _ _ Hrep); [done|rewrite Hnew; lia]|].
  intros r c Hr' Hc'. simpl. rewrite Hnew. unfold add_row.
  case_decide as D1; case_decide as D2; try done; try (exfalso; lia).
  destruct D1 as [-> _]. unfold new. rewrite lookup_tabulate by lia. simpl.
  by rewrite Nat.sub_0_r.
Qed.

Lemma swap_elems_ok {E} m rows cols f r1 r2 c :
  rep m rows cols f → r1 < rows → r2 < rows → c < cols →
  ∃ d, swap_elems (E:=E) (data m) (r1 * cols + c) (r2 * cols + c) = Ok d ∧
    rep (set_data m d) rows cols
      (λ r c', if decide (c' = c) then swap_row f r1 r2 r c' else f r c').
Proof.
  intros Hrep H1 H2 Hc. unfold swap_elems.
  pose proof Hrep as (Hr & Hcc & Hlen & Hl).
  rewrite (index_ok _ _ _ (Hl r1 c H1 Hc)), (index_ok _ _ _ (Hl r2 c H2 Hc)). cbn [obind].
  destruct (set_acc_ok (E:=E) m rows cols f Hrep r1 c (f r2 c)) as (m1 & E1 & R1); [done..|].
  unfold set_acc in E1. rewrite Hcc in E1.
  destruct (update (data m) _ _) as [d1| |]; try discriminate.
  cbn [obind] in *. injection E1 as <-.
  destruct (set_acc_ok (E:=E) _ rows cols _ R1 r2 c (f r1 c)) as (m2 & E2 & R2); [done..|].
  unfold set_acc in E2. simpl in E2. rewrite Hcc in E2.
  destruct (update d1 _ _) as [d2| |]; try discriminate.
  cbn [obind] in *. injection E2 as <-.
  eexists. split; [done|]. eapply rep_ext; [apply R2|].
  intros r c' Hr' Hc'. simpl. unfold swap_row.
  repeat case_decide; subst; intuition congruence.
Qed.

Lemma swap_rows_ok {E} m rows cols f r1 r2 :
  rep m rows cols f → r1 < rows → r2 < rows →
  ensures (swap_rows (E:=E) m r1 r2) (λ m', rep m' rows cols (swap_row f r1 r2))
    (λ _, False).
Proof.
  intros Hrep H1 H2. unfold swap_rows, calc_row_start_end, calc_matrix_row_start_end.
  pose proof Hrep as (_ & Hcc & _). rewrite Hcc. case_decide as Hne.
  - simpl. eapply rep_ext; [done|]. intros. unfold swap_row. repeat case_decide; subst; solve [done | congruence].
  - apply (for_range_post _ _ _ (λ k m', rep m' rows cols
      (λ r c, if decide (c < k) then swap_row f r1 r2 r c else f r c))).
    + lia.
    + eapply rep_ext; [done|]. intros. by rewrite decide_False by lia.
    + intros i m' Hi HR.
      destruct (swap_elems_ok (E:=E) m' rows cols _ r1 r2 i HR) as (d & -> & HR'); [lia..|].
      simpl. eapply rep_ext; [apply HR'|]. intros r c Hr Hc. simpl.
      unfold swap_row. repeat case_decide; subst; solve [done | lia | congruence].
    + intros m' HR. eapply rep_ext; [apply HR|]. intros r c Hr Hc. simpl.
      by rewrite decide_True.
Qed.
End row_operations.

(** ** Gaussian elimination *)
Section elimination.
Context {F : Field} {FL : FieldLaws F}.
Add Ring elem_ring3 : field_ring_theory (morphism field_ring_morph, constants [field_const]).
Implicit Types (m : Matrix Elem) (f g : nat → nat → Elem).

(** The first [k] columns are those of a unit upper triangular matrix. *)
Definition unit_upper (k rows : nat) f : Prop :=
  (∀ j, j < k → f j j = 1) ∧ (∀ i j, j < k → j < i → i < rows → f i j = 0).

(** [m] holds a matrix with the kernel of [f] satisfying [P]. *)
Definition reduced m (rows cols : nat) f (P : (nat → nat → Elem) → Prop) : Prop :=
  ∃ g, rep m rows cols g ∧ same_kernel rows cols f g ∧ P g.

Lemma reduced_trans m rows cols f g (P : (nat → nat → Elem) → Prop) :
  same_kernel rows cols f g → reduced m rows cols g P → reduced m rows cols f P.
Proof. intros H (h & H1 & H2 & H3). exists h. split_and!; [done|by rewrite H|done]. Qed.

Section step.
Context {E : Type} (rows cols r : nat).
Context (Hr : r < rows) (Hcols : rows ≤ cols).

Lemma unit_upper_swap f b :
  r ≤ b → b < rows → unit_upper r rows f → unit_upper r rows (swap_row f r b).
Proof.
  intros Hb Hb' [H1 H2]. split.
  - intros j Hj. unfold swap_row. rewrite !decide_False by lia. by apply H1.
  - intros i j Hj Hji Hi. unfold swap_row. repeat case_decide; subst; apply H2; lia.
Qed.

Lemma find_pivot_spec m f :
  rep m rows cols f → unit_upper r rows f →
  ensures (find_pivot (E:=E) r m)
    (λ m', reduced m' rows cols f (λ g, unit_upper r rows g ∧
      (g r r = 0 → ∀ i, r ≤ i → i < rows → g i r = 0)))
    (λ _, False).
Proof.
  intros Hrep Hu. unfold find_pivot.
  rewrite (acc_ok _ _ _ _ Hrep) by lia. cbn [obind].
  destruct (decide (f r r = 0)) as [Hz|Hz]; [|by exists f].
  pose proof Hrep as (Hrc & _). rewrite Hrc.
  apply (for_each_break_ensures _ _
    (λ k s, s = m ∧ ∀ i, r ≤ i → i < r + 1 + k → f i r = 0)).
  - split; [done|]. intros i Hi Hi'. by replace i with r by lia.
  - intros k x s Hx [-> HI]. apply lookup_seq in Hx as [-> Hk].
    rewrite (acc_ok _ _ _ _ Hrep) by lia. cbn [obind].
    case_decide as Hv.
    + eapply ensures_bind; [apply (swap_rows_ok _ _ _ _ _ _ Hrep); lia|].
      intros m' Hm'. cbn. exists (swap_row f r (r + 1 + k)). split_and!; [done|..].
      * apply same_kernel_swap_row; lia.
      * apply unit_upper_swap; [lia|lia|done].
      * unfold swap_row. rewrite decide_True by done. intros ?. by destruct Hv.
    + cbn. split; [done|].
      intros i Hi Hi'. destruct (decide (i = r + 1 + k)%nat); [by subst|].
      apply HI; lia.
  - intros s [-> HI]. exists f. split_and!; [done..|].
    intros _ i Hi Hi'. apply HI; [lia|]. rewrite length_seq. lia.
Qed.

Lemma normalize_pivot_spec m f byte_rows :
  rep m rows cols f → (∀ j, j < r → f r j = 0) → f r r ≠ 0 →
  ensures (normalize_pivot (E:=E) byte_rows r m)
    (λ m', rep m' rows cols (scale_row f r (1 / f r r))) (λ _, False).
Proof.
  intros Hrep Hz Hp. unfold normalize_pivot.
  rewrite (acc_ok _ _ _ _ Hrep) by lia. cbn [obind].
  pose proof Hrep as (_ & Hc & _). rewrite Hc.
  assert (1 / f r r * f r r = 1) as Hinv by (by apply div_mul).
  case_decide as H1.
  - set (zp := if byte_rows then 0%nat else (r + 1)%nat).
    destruct (update_slice_row (E:=E) m rows cols f Hrep r zp cols
      (λ values, Ok (map (λ value, 1 / f r r * value) values))
      (λ c, 1 / f r r * f r (zp + c)%nat)) as (d & -> & Hd);
      [done|unfold zp; destruct byte_rows; lia|lia|by rewrite map_tabulate|].
    cbn [obind]. destruct byte_rows; cbn [negb].
    + simpl. eapply rep_ext; [apply Hd|]. intros r' c Hr' Hc'. cbn.
      unfold scale_row. repeat case_decide; subst; try done; try lia.
      by rewrite Nat.sub_0_r.
    + destruct (set_acc_ok (E:=E) _ _ _ _ Hd r r 1) as (m' & -> & Hm'); [lia..|].
      simpl. eapply rep_ext; [apply Hm'|]. intros r' c Hr' Hc'. cbn.
      unfold scale_row, zp.
      destruct (decide (r' = r)) as [->|Hne];
        [|by rewrite !decide_False by (intros [? _]; done)].
      destruct (decide (c = r)) as [->|Hcr]; [by rewrite decide_True|].
      rewrite decide_False by (by intros [_ ?]). case_decide as D.
      * by replace (r + 1 + (c - (r + 1)))%nat with c by lia.
      * rewrite Hz by lia. ring.
  - simpl. eapply rep_ext; [done|].
    intros r' c Hr' Hc'. unfold scale_row. case_decide; [|done].
    rewrite H1 in Hinv. rewrite mul_1_r in Hinv. rewrite H1, Hinv. ring.
Qed.

(** One row of the loops that clear a column. *)
Lemma clear_row_spec m f src dst byte_rows :
  rep m rows cols f → src < rows → dst < rows → src ≠ dst →
  (∀ j, j < src → f src j = 0) → f src src = 1 →
  ensures (let! scale := acc m dst src in
           if decide (scale ≠ 0)
           then add_scaled_pivot_row (E:=E) m src dst scale byte_rows else Ok m)
    (λ m', rep m' rows cols (add_row f src dst (f dst src))) (λ _, False).
Proof.
  intros Hrep Hs Hd Hne Hz H1. rewrite (acc_ok _ _ _ _ Hrep) by lia. cbn [obind].
  case_decide as Hv.
  - destruct (add_scaled_pivot_row_ok (E:=E) m rows cols f src dst (f dst src) byte_rows)
      as (m' & -> & Hm'); [done|lia..|done|done|]. done.
  - simpl. eapply rep_ext; [done|]. intros r' c _ _.
    unfold add_row. rewrite Hv. case_decide; [ring|done].
Qed.

Lemma clear_below_spec m f byte_rows :
  rep m rows cols f → unit_upper r rows f → f r r = 1 →
  ensures (clear_below (E:=E) byte_rows r m)
    (λ m', reduced m' rows cols f (unit_upper (S r) rows)) (λ _, False).
Proof.
  intros Hrep Hu H1. unfold clear_below. pose proof Hrep as (Hrc & _). rewrite Hrc.
  apply (for_range_post _ _ _ (λ k m', reduced m' rows cols f (λ g,
    unit_upper r rows g ∧ g r r = 1 ∧ ∀ i, r < i → i < k → g i r = 0))).
  - lia.
  - exists f. split_and!; [done|done|done|done|]. intros; lia.
  - intros k s Hk (g & Hg & Hk' & [Hg1 Hg2] & Hg3 & Hg4).
    eapply ensures_mono; [apply (clear_row_spec s g r k); [done|lia..| |done]| |done].
    { intros j Hj. apply Hg2; lia. }
    intros m' Hm'. exists (add_row g r k (g k r)). split_and!; [done| |split|..].
    + rewrite Hk'. apply same_kernel_add_row; lia.
    + intros j Hj. unfold add_row. rewrite decide_False by lia. by apply Hg1.
    + intros i j Hj Hji Hi. unfold add_row. case_decide; [|by apply Hg2].
      subst i. rewrite (Hg2 k j), (Hg2 r j) by lia. ring.
    + unfold add_row. by rewrite decide_False by lia.
    + intros i Hi Hi'. unfold add_row. case_decide.
      * subst. rewrite Hg3. ring.
      * apply Hg4; lia.
  - intros s (g & Hg & Hk & [Hg1 Hg2] & Hg3 & Hg4). exists g.
    split_and!; [done..|]. split.
    + intros j Hj. destruct (decide (j = r)); [by subst|]. apply Hg1. lia.
    + intros i j Hj Hji Hi. destruct (decide (j = r)); [subst; by apply Hg4|].
      apply Hg2; lia.
Qed.
End step.

(** A nonzero kernel vector supported on the first [rows] columns. *)
Definition singular (rows cols : nat) f : Prop :=
  ∃ x, kernel rows cols f x ∧ (∃ c, c < rows ∧ x c ≠ 0) ∧ ∀ c, rows ≤ c → x c = 0.

Lemma singular_same_kernel rows cols f g :
  same_kernel rows cols f g → singular rows cols g → singular rows cols f.
Proof. intros H (x & H1 & H2). exists x. by rewrite (H x). Qed.

Lemma singular_pivot rows cols f r :
  r < rows → rows ≤ cols → unit_upper r rows f →
  (∀ i, r ≤ i → i < rows → f i r = 0) → singular rows cols f.
Proof.
  intros Hr Hc [H1 H2] Hz.
  destruct (triangular_solution f r) as (x & Hx1 & Hx2 & Hx3); [done| |].
  { intros i j ??. apply H2; lia. }
  exists x. split_and!.
  - replace cols with (S r + (cols - S r))%nat by lia.
    rewrite kernel_restrict by (intros; apply Hx2; lia).
    intros i Hi. destruct (decide (i < r)); [by apply Hx3|].
    unfold row_dot. apply bsum_0. intros c Hc'.
    destruct (decide (c = r)) as [->|].
    + rewrite Hz by lia. ring.
    + rewrite H2 by lia. ring.
  - exists r. split; [done|]. rewrite Hx1. apply one_neq_zero.
  - intros c ?. apply Hx2. lia.
Qed.

Lemma unit_upper_scale rows f r s :
  unit_upper r rows f → unit_upper r rows (scale_row f r s).
Proof.
  intros [H1 H2]. split.
  - intros j Hj. unfold scale_row. rewrite decide_False by lia. by apply H1.
  - intros i j Hj Hji Hi. unfold scale_row. rewrite H2 by done.
    case_decide; [ring|done].
Qed.

Section loops.
Context (rows cols : nat) (byte_rows : bool).
Context (Hcols : rows ≤ cols).

Lemma elim_forward_step_spec m f r :
  r < rows → rep m rows cols f → unit_upper r rows f →
  ensures (elim_forward_step byte_rows r m)
    (λ m', reduced m' rows cols f (unit_upper (S r) rows))
    (λ e, e = SingularMatrix ∧ singular rows cols f).
Proof.
  intros Hr Hrep Hu. unfold elim_forward_step.
  eapply ensures_bind_safe; [exact (find_pivot_spec rows cols r Hr Hcols m f Hrep Hu)|].
  intros m1 (g & Hg & Hk & Hgu & Hgz). rewrite (acc_ok _ _ _ _ Hg) by lia. cbn [obind].
  case_decide as Hp.
  { cbn. split; [done|]. eapply singular_same_kernel; [done|].
    apply (singular_pivot _ _ _ r); [done|done|done|by apply Hgz]. }
  eapply ensures_bind_safe;
    [apply (normalize_pivot_spec rows cols r Hr Hcols _ g)|].
  { done. }
  { intros j Hj. by apply Hgu. }
  { done. }
  intros m2 Hm2. eapply ensures_weaken;
    [apply (clear_below_spec rows cols r Hr Hcols _ _ _ Hm2)|].
  - by apply unit_upper_scale.
  - unfold scale_row. rewrite decide_True by done. by apply div_mul.
  - intros m3 H3. eapply reduced_trans; [|exact H3].
    rewrite Hk. apply same_kernel_scale_row. by apply recip_neq_0.
Qed.

Lemma elim_forward_spec m f :
  rep m rows cols f →
  ensures (for_range 0 rows (elim_forward_step byte_rows) m)
    (λ m', reduced m' rows cols f (unit_upper rows rows))
    (λ e, e = SingularMatrix ∧ singular rows cols f).
Proof.
  intros Hrep. apply (for_range_ensures _ _ _
    (λ k m', reduced m' rows cols f (unit_upper k rows))).
  - lia.
  - exists f. split_and!; [done|done|]. split; intros; lia.
  - intros r s Hr (g & Hg & Hk & Hu).
    eapply ensures_mono; [apply (elim_forward_step_spec s g r); [lia|done..]|..].
    + intros m' Hm'. by eapply reduced_trans.
    + intros e [-> He]. split; [done|]. by eapply singular_same_kernel.
Qed.

(** Columns below [k] are columns of the identity. *)
Definition unit_cols (k : nat) f : Prop :=
  unit_upper rows rows f ∧ ∀ i j, j < k → i < j → f i j = 0.

Lemma elim_back_step_spec m f d :
  d < rows → rep m rows cols f → unit_cols d f →
  ensures (elim_back_step byte_rows d m)
    (λ m', reduced m' rows cols f (unit_cols (S d))) (λ _, False).
Proof.
  intros Hd Hrep [Hu Hc]. unfold elim_back_step.
  apply (for_range_post _ _ _ (λ k m', reduced m' rows cols f (λ g,
    unit_cols d g ∧ ∀ i, i < k → g i d = 0))).
  - lia.
  - exists f. split_and!; [done..|]. intros; lia.
  - intros k s Hk (g & Hg & Hkk & [[Hg1 Hg2] Hg3] & Hg4).
    assert (∀ j, j < d → g d j = 0) as Hpre by (intros; apply Hg2; lia).
    eapply ensures_mono; [apply (clear_row_spec rows cols d Hd Hcols s g d k);
      [done|lia..|done|by apply Hg1]| |done].
    intros m' Hm'. exists (add_row g d k (g k d)). split_and!; [done| |repeat split|..].
    + rewrite Hkk. apply same_kernel_add_row; lia.
    + intros j Hj. unfold add_row. case_decide; [|by apply Hg1].
      subst. rewrite Hg1, (Hg2 d k) by lia. ring.
    + intros i j Hj Hji Hi. unfold add_row. case_decide; [|by apply Hg2].
      subst. rewrite (Hg2 k j), (Hg2 d j) by lia. ring.
    + intros i j Hj Hi. unfold add_row. case_decide; [|by apply Hg3].
      subst. rewrite (Hg3 k j), Hpre by lia. ring.
    + intros i Hi. unfold add_row. case_decide.
      * subst. rewrite Hg1 by done. ring.
      * apply Hg4. lia.
  - intros s (g & Hg & Hkk & [Hg1 Hg2] & Hg3). exists g. split_and!; [done..|].
    split; [done|]. intros i j Hj Hi.
    destruct (decide (j = d)); [subst; by apply Hg3|]. apply Hg2; lia.
Qed.

(** The reduced left block is the identity. *)
Definition left_identity f : Prop :=
  ∀ i j, i < rows → j < rows → f i j = delta i j.

Lemma elim_back_spec m f :
  rep m rows cols f → unit_upper rows rows f →
  ensures (for_range 0 rows (elim_back_step byte_rows) m)
    (λ m', reduced m' rows cols f left_identity) (λ _, False).
Proof.
  intros Hrep Hu. apply (for_range_post _ _ _
    (λ k m', reduced m' rows cols f (unit_cols k))).
  - lia.
  - exists f. split_and!; [done|done|]. split; [done|]. intros; lia.
  - intros d s Hd (g & Hg & Hk & Huc).
    eapply ensures_mono; [apply (elim_back_step_spec s g d); [lia|done..]| |done].
    intros m' Hm'. by eapply reduced_trans.
  - intros s (g & Hg & Hk & [[H1 H2] H3]). exists g. split_and!; [done..|].
    intros i j Hi Hj. unfold delta. case_decide; [subst; by apply H1|].
    destruct (decide (j < i)); [by apply H2|]. apply H3; lia.
Qed.
End loops.

(** [gaussian_elim] never panics on a matrix at least as wide as high: it
    reduces the left block to the identity without changing the kernel, or
    reports a singular left block. *)
Lemma gaussian_elim_reduces m rows cols f :
  rep m rows cols f → rows ≤ cols →
  ensures (gaussian_elim m)
    (λ m', reduced m' rows cols f (left_identity rows))
    (λ e, e = SingularMatrix ∧ singular rows cols f).
Proof.
  intros Hrep Hc. unfold gaussian_elim. pose proof Hrep as (Hr & _). rewrite Hr.
  eapply ensures_bind; [by apply elim_forward_spec|].
  intros m1 (g & Hg & Hk & Hu).
  eapply ensures_weaken; [by apply (elim_back_spec rows cols _ Hc m1 g)|].
  intros m2 Hm2. by eapply reduced_trans.
Qed.
End elimination.

(** ** Matrix operations *)
Section specifications.
Context {F : Field} {FL : FieldLaws F}.
Add Ring elem_ring4 : field_ring_theory (morphism field_ring_morph, constants [field_const]).
Implicit Types (m : Matrix Elem) (f g A B : nat → nat → Elem).

Lemma identity_spec {E} n :
  ensures (identity (E:=E) n) (λ m, rep m n n delta) (λ _, False).
Proof.
  apply (for_range_post _ _ _ (λ k m, rep m n n (λ r c,
    if decide (r < k) then delta r c else 0))).
  - lia.
  - eapply rep_ext; [apply rep_new|]. intros. by rewrite decide_False by lia.
  - intros i m Hi Hm.
    destruct (set_acc_ok (E:=E) m n n _ Hm i i 1) as (m' & -> & Hm'); [lia..|].
    simpl. eapply rep_ext; [apply Hm'|]. intros r c Hr Hc. cbn. unfold delta.
    repeat case_decide; try done; lia.
  - intros m Hm. eapply rep_ext; [apply Hm|]. intros. cbn. by rewrite decide_True.
Qed.

Lemma vandermonde_spec {E} rows cols :
  ensures (vandermonde (E:=E) rows cols)
    (λ m, rep m rows cols (λ r c, exp (nth (N.of_nat r)) (N.of_nat c)))
    (λ _, False).
Proof.
  set (V := λ r c : nat, exp (nth (N.of_nat r)) (N.of_nat c)).
  apply (for_range_post _ _ _ (λ k m, rep m rows cols (λ r c,
    if decide (r < k) then V r c else 0))).
  - lia.
  - eapply rep_ext; [apply rep_new|]. intros. by rewrite decide_False by lia.
  - intros i m Hi Hm.
    apply (for_range_post _ _ _ (λ k m, rep m rows cols (λ r c,
      if decide (r < i ∨ r = i ∧ c < k) then V r c else 0))).
    + lia.
    + eapply rep_ext; [apply Hm|]. intros. cbn. repeat case_decide; try done; lia.
    + intros j m1 Hj Hm1.
      destruct (set_acc_ok (E:=E) m1 rows cols _ Hm1 i j (V i j)) as (m' & HE & Hm');
        [lia..|].
      unfold V in HE at 1. rewrite HE. simpl. eapply rep_ext; [apply Hm'|].
      intros r c Hr Hc. cbn. repeat case_decide; try done; try lia.
      by destruct H as [-> ->].
    + intros m1 Hm1. eapply rep_ext; [apply Hm1|]. intros r c Hr Hc. cbn.
      repeat case_decide; try done; lia.
  - intros m Hm. eapply rep_ext; [apply Hm|]. intros. cbn. by rewrite decide_True.
Qed.

Lemma sub_matrix_spec {E} m rows cols f rmin cmin rmax cmax :
  rep m rows cols f → rmin ≤ rmax → rmax ≤ rows → cmin ≤ cmax → cmax ≤ cols →
  ensures (sub_matrix (E:=E) m rmin cmin rmax cmax)
    (λ m', rep m' (rmax - rmin) (cmax - cmin) (λ r c, f (rmin + r) (cmin + c))%nat)
    (λ _, False).
Proof.
  intros Hm H1 H2 H3 H4. unfold sub_matrix. rewrite decide_True by done.
  set (g := λ r c, f (rmin + r)%nat (cmin + c)%nat).
  apply (for_range_post _ _ _ (λ k m', rep m' (rmax - rmin) (cmax - cmin)
    (λ r c, if decide (rmin + r < k) then g r c else 0))).
  - lia.
  - eapply rep_ext; [apply rep_new|]. intros. by rewrite decide_False by lia.
  - intros i m' Hi Hm'.
    apply (for_range_post _ _ _ (λ k m', rep m' (rmax - rmin) (cmax - cmin) (λ r c,
      if decide (rmin + r < i ∨ (rmin + r)%nat = i ∧ cmin + c < k) then g r c else 0))).
    + lia.
    + eapply rep_ext; [apply Hm'|]. intros. cbn. repeat case_decide; try done; lia.
    + intros j m1 Hj Hm1. rewrite (acc_ok _ _ _ _ Hm) by lia. cbn [obind].
      destruct (set_acc_ok (E:=E) m1 _ _ _ Hm1 (i - rmin) (j - cmin) (f i j))
        as (m2 & -> & Hm2); [lia..|].
      simpl. eapply rep_ext; [apply Hm2|].
      intros r c Hr Hc. cbn. unfold g. repeat case_decide; try done; try lia.
      f_equal; lia.
    + intros m1 Hm1. eapply rep_ext; [apply Hm1|]. intros r c Hr Hc. cbn.
      repeat case_decide; try done; lia.
  - intros m' Hm'. eapply rep_ext; [apply Hm'|]. intros. cbn. by rewrite decide_True by lia.
Qed.

(** The inner loop of [multiply]: a combination of rows. *)
Lemma row_combination {E} n cols (a : nat → Elem) (B : nat → nat → Elem)
    (body : nat * Elem → list Elem → outcome E (list Elem)) :
  (∀ i out, i < n →
     body (i, a i) (tabulate cols out) = Ok (tabulate cols (λ c, out c + a i * B i c))) →
  for_each (imap pair (tabulate n a)) body (tabulate cols (λ _, 0))
  = Ok (tabulate cols (λ c, bsum n (λ i, a i * B i c))).
Proof.
  intros Hbody.
  assert (ensures (for_each (imap pair (tabulate n a)) body (tabulate cols (λ _, 0)))
    (λ out, out = tabulate cols (λ c, bsum n (λ i, a i * B i c))) (λ _, False)) as H.
  { apply (for_each_post _ _ (λ k out,
      out = tabulate cols (λ c, bsum k (λ i, a i * B i c)))).
    - done.
    - intros i [j v] out Hx ->.
      assert (i < n) as Hi.
      { apply lookup_lt_Some in Hx. by rewrite length_imap, length_tabulate in Hx. }
      rewrite list_lookup_imap, lookup_tabulate in Hx by done. simpl in Hx.
      injection Hx as <- <-. rewrite Hbody by done. simpl. done.
    - intros out ->. by rewrite length_imap, length_tabulate. }
  destruct (for_each _ _ _); simpl in H; [by subst|done|done].
Qed.

Lemma multiply_spec m1 m2 n k c A B :
  rep m1 n k A → rep m2 k c B →
  ensures (multiply m1 m2) (λ m, rep m n c (mmul k A B)) (λ _, False).
Proof.
  intros H1 H2. unfold multiply.
  pose proof H1 as (Hr1 & Hc1 & _). pose proof H2 as (Hr2 & Hc2 & _).
  rewrite Hr1, Hc1, Hr2, Hc2, decide_False by (intros ?; done).
  case_decide as Hz.
  { simpl. eapply rep_ext; [apply rep_new|]. intros; lia. }
  apply (for_range_post _ _ _ (λ i m, rep m n c (λ r j,
    if decide (r < i) then mmul k A B r j else 0))).
  - lia.
  - eapply rep_ext; [apply rep_new|]. intros. by rewrite decide_False by lia.
  - intros i m Hi Hm. rewrite (get_row_ok _ _ _ _ H1) by lia. cbn [obind].
    destruct (update_slice_row (E:=MatrixError) m n c _ Hm i 0 c (λ output,
      for_each (imap pair (tabulate k (A i))) (λ '(inner, coefficient) output,
        if decide (coefficient ≠ 0) then
          let! r := get_row m2 inner in
          add_scaled_slice coefficient r output byte_rows_p
        else Ok output) output) (mmul k A B i)) as (d & Hd & Hrep); [lia..| |].
    { rewrite Nat.sub_0_r. rewrite (tabulate_ext c _ (λ _, 0))
        by (intros; by rewrite decide_False by lia).
      apply row_combination. intros j out Hj. case_decide as Hnz.
      - rewrite (get_row_ok _ _ _ _ H2) by done. cbn [obind].
        apply add_scaled_slice_ok.
      - f_equal. apply tabulate_ext. intros. rewrite Hnz. ring. }
    rewrite Nat.add_0_r in Hd. rewrite Hd. cbn [obind ensures].
    eapply rep_ext; [apply Hrep|]. intros r j Hr Hj. cbn. rewrite Nat.sub_0_r.
    repeat case_decide; try lia; try done. by destruct H as [-> _].
  - intros m Hm. eapply rep_ext; [apply Hm|]. intros. cbn. by rewrite decide_True.
Qed.

(** The first loop of [invert]: the augmented matrix [A | I]. *)
Lemma augmented_loop m rows cols A :
  rep m rows cols A → cols ≤ rows →
  ensures (for_range 0 cols (λ row work,
    let start := (row * col_count work)%nat in
    let! d := update_slice (data work) start (start + cols) (λ dst,
      let! src := get_row m row in
      if decide (length src = length dst) then Ok src else Panic) in
    set_acc (E:=MatrixError) (set_data work d) row (cols + row)%nat 1)
    (matrix_new cols (cols * 2)))
    (λ work, rep work cols (cols + cols) (augmented cols A)) (λ _, False).
Proof.
  intros Hm Hle. replace (cols * 2)%nat with (cols + cols)%nat by lia.
  apply (for_range_post _ _ _ (λ k work, rep work cols (cols + cols) (λ r c,
    if decide (r < k) then augmented cols A r c else 0))).
  - lia.
  - eapply rep_ext; [apply rep_new|]. intros. by rewrite decide_False by lia.
  - intros i work Hi Hw. cbn zeta. pose proof Hw as (_ & -> & _).
    rewrite (get_row_ok _ _ _ _ Hm) by lia. cbn [obind].
    destruct (update_slice_row (E:=MatrixError) work _ _ _ Hw i 0 cols (λ dst,
      if decide (length (tabulate cols (A i)) = length dst)
      then Ok (tabulate cols (A i)) else Panic) (A i)) as (d & Hd & Hrep); [lia..| |].
    { rewrite Nat.sub_0_r, !length_tabulate. by rewrite decide_True. }
    rewrite Nat.add_0_r in Hd. rewrite Hd. cbn [obind].
    destruct (set_acc_ok (E:=MatrixError) _ _ _ _ Hrep i (cols + i) 1)
      as (w' & -> & Hw'); [lia..|].
    simpl. eapply rep_ext; [apply Hw'|]. intros r c Hr Hc. cbn.
    unfold augmented, delta. rewrite Nat.sub_0_r.
    repeat case_decide; subst; try done; try lia.
    by destruct H0 as [-> _].
  - intros work Hw. eapply rep_ext; [apply Hw|]. intros. cbn. by rewrite decide_True.
Qed.

Lemma singular_augmented n A : singular n (n + n) (augmented n A) → ¬ nonsingular n n A.
Proof.
  intros (x & Hk & (c & Hc & Hxc) & Hx) HA. apply Hxc, HA; [|done].
  apply (kernel_restrict n n n) in Hk; [|done].
  eapply kernel_ext; [|done]. intros r c' Hr Hc'. unfold augmented. by rewrite decide_True.
Qed.

Lemma gaussian_elim_augmented work n A :
  rep work n (n + n) (augmented n A) →
  ensures (gaussian_elim work)
    (λ m', ∃ g, rep m' n (n + n) g ∧ inverse_of n A (λ i j, g i (n + j)%nat))
    (λ e, e = SingularMatrix ∧ ¬ nonsingular n n A).
Proof.
  intros Hw. eapply ensures_mono; [apply (gaussian_elim_reduces work n (n + n) _ Hw); lia|..].
  - intros m' (g & Hg & Hk & Hl). exists g. split; [done|].
    by apply augmented_inverse.
  - intros e [-> Hs]. split; [done|]. by apply singular_augmented.
Qed.

Lemma invert_ensures m n A :
  rep m n n A →
  ensures (invert m) (λ m', ∃ X, rep m' n n X ∧ inverse_of n A X)
    (λ e, e = SingularMatrix ∧ ¬ nonsingular n n A).
Proof.
  intros Hm. pose proof Hm as (Hr & Hc & _). unfold invert, is_square.
  rewrite Hr, Hc, Nat.eqb_refl. cbn [negb].
  eapply ensures_bind_safe; [by apply (augmented_loop m n n A)|].
  intros work Hw. eapply ensures_bind; [by apply gaussian_elim_augmented|].
  intros m' (g & Hg & Hinv). eapply ensures_weaken;
    [apply (sub_matrix_spec _ _ _ _ 0 n n (n * 2) Hg); lia|].
  intros x Hx. exists (λ i j, g i (n + j)%nat). split; [|done].
  rewrite Nat.sub_0_r in Hx. by replace (n * 2 - n)%nat with n in Hx by lia.
Qed.

(** On a nonsingular matrix [invert] returns a matrix. *)
Lemma invert_nonsingular m n A :
  rep m n n A → nonsingular n n A →
  ∃ m' X, invert m = Ok m' ∧ rep m' n n X ∧ inverse_of n A X.
Proof.
  intros Hm HA. pose proof (invert_ensures m n A Hm) as H.
  destruct (invert m) as [m'|e|]; simpl in H.
  - destruct H as (X & HX). by exists m', X.
  - by destruct H as [_ []].
  - done.
Qed.

Lemma systematic_ensures m rows n A :
  rep m rows n A → n ≤ rows →
  ensures (systematic_from_vandermonde m)
    (λ m', ∃ X, inverse_of n A X ∧ rep m' rows n (mmul n A X))
    (λ e, e = SingularMatrix ∧ ¬ nonsingular n n A).
Proof.
  intros Hm Hle. pose proof Hm as (Hr & Hc & _). unfold systematic_from_vandermonde.
  rewrite Hr, Hc, decide_False by lia.
  eapply ensures_bind_safe; [by apply (augmented_loop m rows n A)|].
  intros work Hw. eapply ensures_bind; [by apply gaussian_elim_augmented|].
  intros w (g & Hg & Hinv). set (X := λ i j, g i (n + j)%nat) in *.
  apply (for_range_post _ _ _ (λ i m, rep m rows n (λ r j,
    if decide (r < i) then mmul n A X r j else 0))).
  - lia.
  - eapply rep_ext; [apply rep_new|]. intros. by rewrite decide_False by lia.
  - intros i res Hi Hres. rewrite (get_row_ok _ _ _ _ Hm) by lia. cbn [obind].
    destruct (update_slice_row (E:=MatrixError) res rows n _ Hres i 0 n (λ output,
      for_each (imap pair (tabulate n (A i))) (λ '(inner, coefficient) output,
        if decide (coefficient ≠ 0) then
          let! r := get_row w inner in
          let! right := slice r n (length r) in
          add_scaled_slice coefficient right output byte_rows_p
        else Ok output) output) (mmul n A X i)) as (d & Hd & Hrep); [lia..| |].
    { rewrite Nat.sub_0_r. rewrite (tabulate_ext n (λ c, if decide (i < i)
        then mmul n A X i (0 + c)%nat else 0) (λ _, 0))
        by (intros; by rewrite decide_False by lia).
      apply row_combination. intros j out Hj. case_decide as Hnz.
      - rewrite (get_row_ok _ _ _ _ Hg) by done. cbn [obind].
        rewrite length_tabulate, slice_tabulate by lia. cbn [obind].
        replace (n + n - n)%nat with n by lia. apply add_scaled_slice_ok.
      - f_equal. apply tabulate_ext. intros. rewrite Hnz. ring. }
    rewrite Nat.add_0_r in Hd. rewrite Hd. cbn [obind ensures].
    eapply rep_ext; [apply Hrep|]. intros r j Hr' Hj. cbn. rewrite Nat.sub_0_r.
    repeat case_decide; try lia; try done. by destruct H as [-> _].
  - intros m' Hm'. exists X. split; [done|]. eapply rep_ext; [apply Hm'|].
    intros. cbn. by rewrite decide_True.
Qed.

(** A range of rows is read through the same storage. *)
Lemma row_range_spec {E} m rows cols f s e :
  rep m rows cols f → s ≤ e → e ≤ rows →
  ∃ v, row_range (E:=E) m s e = Ok v ∧ range_len v = (e - s)%nat ∧
    ∀ i, i < e - s → range_get_row (E:=E) v i = Ok (tabulate cols (f (s + i)%nat)).
Proof.
  intros Hm H1 H2. pose proof Hm as (Hr & _). unfold row_range. rewrite Hr.
  rewrite decide_True by done. eexists. split_and!; [done|done|].
  intros i Hi. unfold range_get_row. simpl. rewrite decide_True by done.
  apply (get_row_ok _ _ _ _ Hm). lia.
Qed.
End specifications.

(** ** Matrices from nested vectors *)
Section nested.
Context {F : Field} {FL : FieldLaws F}.

Lemma fold_push {T} (row acc : list T) :
  fold_left (λ result v, result ++ [v]) row acc = acc ++ row.
Proof.
  revert acc. induction row as [|v row IH]; intros acc; simpl; [by rewrite app_nil_r|].
  by rewrite IH, <-app_assoc.
Qed.

Lemma flatten_ok {E T} (l : list (list T)) : l ≠ [] → flatten (E:=E) l = Ok (List.concat l).
Proof.
  intros Hl. destruct l as [|r l]; [done|]. unfold flatten.
  replace (index (r :: l) 0) with (Ok (E:=E) r) by done. cbn [obind]. f_equal.
  assert (∀ (l : list (list T)) (acc : list T), fold_left (λ result row, fold_left (λ result v, result ++ [v]) row result)
    l acc = acc ++ List.concat l) as H; [|by rewrite H].
  clear. intros l. induction l as [|r l IH]; intros acc; [by rewrite app_nil_r|].
  cbn [fold_left]. rewrite fold_push, IH. cbn [List.concat]. by rewrite <-app_assoc.
Qed.

Lemma length_concat_rows {T} (l : list (list T)) cols :
  Forall (λ r, length r = cols) l → length (List.concat l) = (length l * cols)%nat.
Proof.
  induction 1 as [|r l Hr _ IH]; [done|]. cbn [List.concat].
  rewrite length_app, Hr. rewrite IH. simpl. lia.
Qed.

Lemma lookup_concat_rows {T} (l : list (list T)) cols r c :
  Forall (λ r, length r = cols) l → c < cols →
  List.concat l !! (r * cols + c)%nat = l !! r ≫= (.!! c).
Proof.
  intros Hl Hc. revert r. induction Hl as [|row l Hr Hl IH]; intros r; [done|].
  cbn [List.concat].
  destruct r as [|r].
  - simpl. by rewrite lookup_app_l by lia.
  - transitivity (l !! r ≫= (.!! c)); [|done].
    rewrite lookup_app_r by lia. rewrite <-IH. f_equal. simpl. lia.
Qed.

Lemma new_with_data_ok (l : list (list Elem)) cols :
  l ≠ [] → Forall (λ r, length r = cols) l →
  ensures (new_with_data l) (λ m, rep m (length l) cols
    (λ r c, default zero (l !! r ≫= (.!! c)))) (λ _, False).
Proof.
  intros Hne Hl. unfold new_with_data. rewrite decide_False by done.
  destruct l as [|r0 l]; [done|]. cbn [index lookup list_lookup]. simpl length at 1.
  assert (length r0 = cols) as Hr0 by (by inversion Hl).
  replace (index (E:=MatrixError) (r0 :: l) 0) with (Ok (E:=MatrixError) r0) by done.
  cbn [obind]. rewrite Hr0.
  eapply ensures_bind_safe.
  { apply (for_each_ensures _ _ (λ _ _, True) (λ _, False)); [done|].
    intros i r [] Hr _. rewrite decide_False; [done|]. intros H. apply H.
    by eapply Forall_lookup_1 in Hl. }
  intros [] _. rewrite flatten_ok by done. cbn [obind ensures].
  split_and!; [done|done|by apply length_concat_rows|].
  intros r c Hr Hc. cbn [data]. rewrite (lookup_concat_rows _ cols) by done.
  destruct (lookup_lt_is_Some_2 _ _ Hr) as [row Hrow]. rewrite Hrow. simpl.
  eapply Forall_lookup_1 in Hl; [|done].
  destruct (lookup_lt_is_Some_2 row c) as [x Hx]; [lia|]. by rewrite Hx.
Qed.

Lemma new_with_data_err (l : list (list Elem)) (r0 : list Elem) :
  l !! 0%nat = Some r0 → ¬ Forall (λ r, length r = length r0) l →
  new_with_data l = Err InconsistentRowSizes.
Proof.
  intros H0 Hl. unfold new_with_data. rewrite decide_False by (by intros ->).
  unfold index. rewrite H0. cbn [obind].
  assert (∀ k : list (list Elem), ¬ Forall (λ r, length r = length r0) k →
    for_each (E:=MatrixError) k (λ r _, if decide (length r ≠ length r0)
      then Err InconsistentRowSizes else Ok tt) tt = Err InconsistentRowSizes) as H.
  { clear. induction k as [|r k IH]; intros H; [by destruct H|]. simpl.
    destruct (decide (length r ≠ length r0)) as [|Hn]; [done|]. simpl. apply IH.
    intros Hk. apply H. constructor; [by apply dec_stable in Hn|done]. }
  by rewrite H.
Qed.
End nested.

(** ** Properties *)
Section properties.
Context {F : Field} {FL : FieldLaws F}.

(** C25: on a matrix at least as wide as high,
    [gaussian_elim] never panics.  It succeeds exactly when the square left
    block is nonsingular; the result then has the identity on the left and
    the same kernel as the input; otherwise it reports [SingularMatrix]. *)
Theorem gaussian_elim_correct (m : Matrix Elem) rows cols f
    (Hrep : rep m rows cols f) (Hwide : rows ≤ cols) :
  (nonsingular rows rows f →
     ∃ m' g, gaussian_elim m = Ok m' ∧ rep m' rows cols g ∧
       same_kernel rows cols f g ∧
       ∀ i j, i < rows → j < rows → g i j = delta i j) ∧
  (¬ nonsingular rows rows f → gaussian_elim m = Err SingularMatrix).
Proof.
  assert (∀ g, same_kernel rows cols f g → left_identity rows g →
    nonsingular rows rows f) as Hns.
  { intros g Hk Hl x Hx c Hc.
    assert (kernel rows (rows + (cols - rows)) f (concat rows x (λ _, zero))) as Hker.
    { apply kernel_restrict.
      - intros c' Hc'. unfold concat. by rewrite decide_False by lia.
      - intros r Hr. rewrite <-(Hx r Hr). apply bsum_ext. intros i Hi.
        unfold concat. by rewrite decide_True. }
    replace (rows + (cols - rows))%nat with cols in Hker by lia.
    apply Hk in Hker. replace cols with (rows + (cols - rows))%nat in Hker by lia.
    apply kernel_restrict in Hker;
      [|intros c' Hc'; unfold concat; by rewrite decide_False by lia].
    specialize (Hker c Hc). rewrite <-Hker. rewrite <-(row_dot_delta rows x c Hc).
    apply bsum_ext. intros i Hi. unfold concat. rewrite decide_True by done.
    by rewrite Hl. }
  pose proof (gaussian_elim_reduces m rows cols f Hrep Hwide) as H.
  destruct (gaussian_elim m) as [m'|e|]; simpl in H; [|destruct H as [-> Hs]|done].
  - destruct H as (g & Hg & Hk & Hl). split; [intros _; by exists m', g|].
    intros []. by apply (Hns g).
  - split; [|done]. intros HA. destruct Hs as (x & Hx & (c & Hc & Hxc) & Hz).
    destruct Hxc. apply HA; [|done].
    replace cols with (rows + (cols - rows))%nat in Hx by lia.
    by apply kernel_restrict in Hx.
Qed.

(** [Matrix::invert] on a square matrix never panics; it
    returns the two-sided inverse exactly when the matrix is nonsingular and
    [SingularMatrix] otherwise. *)
Theorem invert_correct (m : Matrix Elem) n A (Hrep : rep m n n A) :
  (nonsingular n n A → ∃ m' X, invert m = Ok m' ∧ rep m' n n X ∧ inverse_of n A X) ∧
  (¬ nonsingular n n A → invert m = Err SingularMatrix).
Proof.
  split; [by apply invert_nonsingular|]. intros HA.
  pose proof (invert_ensures m n A Hrep) as H.
  destruct (invert m) as [m'|e|]; simpl in H; [|by destruct H as [-> _]|done].
  destruct H as (X & _ & HX). by apply inverse_nonsingular in HX.
Qed.
End properties.
