(* ===== verification/Options.v ===== *)
(** * Codec options ([src/core/options.rs], the option types of [src/core/mod.rs])

    The configuration enums and records with the source's constructors, the
    builder, and the subset kept for execution.  [usize] is 64 bits wide; sizes
    and budgets that are only compared or added are [N], shard counts and
    indices are [nat]. *)

From Stdlib Require Import NArith Lia List Bool.
From stdpp Require Import base numbers decidable.
From S2P Require Import Prelude.

(** ** [usize] arithmetic *)
Definition USIZE_MAX : N := 18446744073709551615.

Definition saturating_add (a b : N) : N := N.min (a + b) USIZE_MAX.
Definition saturating_mul (a b : N) : N := N.min (a * b) USIZE_MAX.
Definition saturating_sub (a b : N) : N := a - b.
Definition checked_add (a b : N) : option N :=
  if (a + b <=? USIZE_MAX)%N then Some (a + b)%N else None.
Definition checked_mul (a b : N) : option N :=
  if (a * b <=? USIZE_MAX)%N then Some (a * b)%N else None.
Definition div_ceil (a b : N) : N := (a / b + (if a mod b =? 0 then 0 else 1))%N.
Definition next_power_of_two (n : N) : N := if (n =? 0)%N then 1%N else (2 ^ N.log2_up n)%N.
Definition checked_next_power_of_two (n : N) : option N :=
  if (next_power_of_two n <=? USIZE_MAX)%N then Some (next_power_of_two n) else None.
Definition clamp (n lo hi : N) : N := if (n <? lo)%N then lo else if (hi <? n)%N then hi else n.

(** ** The enums *)
Inductive CodecFamily : Type := Classic | LeopardGF8 | LeopardGF16.
Inductive LeopardMode : Type := Disabled | AsNeeded | PreferGF16 | PreferLeopard.
Inductive MatrixMode : Type := Vandermonde | Cauchy | JerasureLike | Custom.

#[export] Instance CodecFamily_eq_dec : EqDecision CodecFamily.
Proof. solve_decision. Defined.
#[export] Instance LeopardMode_eq_dec : EqDecision LeopardMode.
Proof. solve_decision. Defined.
#[export] Instance MatrixMode_eq_dec : EqDecision MatrixMode.
Proof. solve_decision. Defined.

(** ** [CodecOptions] and its builder *)
Record CodecOptions := mk_options {
  fast_one_parity : bool;
  inversion_cache : bool;
  inversion_cache_capacity : N;
  inversion_cache_max_bytes : N;
  codec_family : CodecFamily;
  leopard_mode : LeopardMode;
  matrix_mode : MatrixMode;
  max_parallel_jobs : N;
}.

Definition options_default : CodecOptions := {|
  fast_one_parity := false;
  inversion_cache := true;
  inversion_cache_capacity := 0;
  inversion_cache_max_bytes := 0;
  codec_family := Classic;
  leopard_mode := Disabled;
  matrix_mode := Vandermonde;
  max_parallel_jobs := 0;
|}.

Module builder.
Definition builder : CodecOptions := options_default.
Definition set_codec_family (o : CodecOptions) (family : CodecFamily) : CodecOptions :=
  mk_options (fast_one_parity o) (inversion_cache o) (inversion_cache_capacity o)
    (inversion_cache_max_bytes o) family (leopard_mode o) (matrix_mode o)
    (max_parallel_jobs o).
Definition set_leopard_mode (o : CodecOptions) (mode : LeopardMode) : CodecOptions :=
  mk_options (fast_one_parity o) (inversion_cache o) (inversion_cache_capacity o)
    (inversion_cache_max_bytes o) (codec_family o) mode (matrix_mode o)
    (max_parallel_jobs o).
Definition set_matrix_mode (o : CodecOptions) (mode : MatrixMode) : CodecOptions :=
  mk_options (fast_one_parity o) (inversion_cache o) (inversion_cache_capacity o)
    (inversion_cache_max_bytes o) (codec_family o) (leopard_mode o) mode
    (max_parallel_jobs o).
Definition set_fast_one_parity (o : CodecOptions) (enabled : bool) : CodecOptions :=
  mk_options enabled (inversion_cache o) (inversion_cache_capacity o)
    (inversion_cache_max_bytes o) (codec_family o) (leopard_mode o) (matrix_mode o)
    (max_parallel_jobs o).
Definition set_inversion_cache (o : CodecOptions) (enabled : bool) : CodecOptions :=
  mk_options (fast_one_parity o) enabled (inversion_cache_capacity o)
    (inversion_cache_max_bytes o) (codec_family o) (leopard_mode o) (matrix_mode o)
    (max_parallel_jobs o).
Definition set_inversion_cache_capacity (o : CodecOptions) (capacity : N) : CodecOptions :=
  mk_options (fast_one_parity o) (inversion_cache o) capacity
    (inversion_cache_max_bytes o) (codec_family o) (leopard_mode o) (matrix_mode o)
    (max_parallel_jobs o).
Definition set_inversion_cache_max_bytes (o : CodecOptions) (max_bytes : N) : CodecOptions :=
  mk_options (fast_one_parity o) (inversion_cache o) (inversion_cache_capacity o)
    max_bytes (codec_family o) (leopard_mode o) (matrix_mode o) (max_parallel_jobs o).
Definition set_max_parallel_jobs (o : CodecOptions) (jobs : N) : CodecOptions :=
  mk_options (fast_one_parity o) (inversion_cache o) (inversion_cache_capacity o)
    (inversion_cache_max_bytes o) (codec_family o) (leopard_mode o) (matrix_mode o) jobs.
End builder.

(** ** [ExecutionOptions], [impl From<CodecOptions>] *)
Record ExecutionOptions := mk_execution_options {
  exec_fast_one_parity : bool;
  exec_inversion_cache : bool;
  exec_inversion_cache_capacity : N;
  exec_inversion_cache_max_bytes : N;
  exec_max_parallel_jobs : N;
}.

Definition execution_options (options : CodecOptions) : ExecutionOptions := {|
  exec_fast_one_parity := fast_one_parity options;
  exec_inversion_cache := inversion_cache options;
  exec_inversion_cache_capacity := inversion_cache_capacity options;
  exec_inversion_cache_max_bytes := inversion_cache_max_bytes options;
  exec_max_parallel_jobs := max_parallel_jobs options;
|}.

(** ** Lemmas *)
Lemma div_ceil_spec a b : (b ≠ 0)%N → (a <= div_ceil a b * b)%N ∧ (div_ceil a b * b < a + b)%N.
Proof.
  intros Hb. unfold div_ceil. pose proof (N.div_mod a b Hb) as H.
  pose proof (N.mod_lt a b Hb) as Hlt.
  revert H Hlt. generalize (a / b)%N (a mod b)%N. intros q r H Hlt.
  destruct (N.eqb_spec r 0); nia.
Qed.

Lemma div_ceil_least a b k : (b ≠ 0)%N → (a <= k * b)%N → (div_ceil a b <= k)%N.
Proof.
  intros Hb Hk. destruct (div_ceil_spec a b Hb) as [_ H].
  destruct (N.le_gt_cases (div_ceil a b) k) as [|Hgt]; [done|]. nia.
Qed.

Lemma next_power_of_two_spec n :
  (n <= next_power_of_two n)%N ∧ ∃ k, next_power_of_two n = (2 ^ k)%N.
Proof.
  unfold next_power_of_two. destruct (N.eqb_spec n 0) as [->|Hn].
  - split; [lia|]. by exists 0%N.
  - split; [|by eexists].
    destruct (N.eq_dec n 1%N) as [->|]; [done|].
    apply N.log2_up_spec. lia.
Qed.

Lemma next_power_of_two_least n k : (n <= 2 ^ k)%N → (next_power_of_two n <= 2 ^ k)%N.
Proof.
  intros H. unfold next_power_of_two. destruct (N.eqb_spec n 0).
  - pose proof (N.pow_nonzero 2 k). lia.
  - apply N.pow_le_mono_r; [done|]. by apply N.log2_up_le_pow2; [lia|].
Qed.

Lemma clamp_bounds n lo hi : (lo <= hi)%N → (lo <= clamp n lo hi <= hi)%N.
Proof.
  intros. unfold clamp. destruct (N.ltb_spec n lo); [lia|].
  destruct (N.ltb_spec hi n); lia.
Qed.
