(* ===== verification/Leopard.v ===== *)
(** * Leopard shape rules ([src/core/leopard.rs])

    The shard-length rule of the Leopard codecs, the resolution of the codec
    family, and the checks a family puts on the shard counts.  The FFT engines
    behind [leopard_gf8_encode] and its siblings are separate components. *)

From Stdlib Require Import NArith Lia List Bool.
From Stdlib Require Import Init.Byte.
From stdpp Require Import base numbers list.
From S2P Require Import Prelude Errors Fields Options.

Definition LEOPARD_GF8_MAX_SHARDS : N := 256.
Definition LEOPARD_GF16_MAX_SHARDS : N := 65536.
Definition LEOPARD_MAX_CACHED_WORK_BYTES : N := 4 * 1024 * 1024.
Definition LEOPARD_GF8_MAX_PARITY : N := 128.
Definition LEOPARD_SHARD_MULTIPLE : N := 64.

Definition leopard_work_cache_fits (work_bytes scratch_bytes : N) : bool :=
  (saturating_add work_bytes scratch_bytes <=? LEOPARD_MAX_CACHED_WORK_BYTES)%N.

Definition validate_leopard_shard_len (shard_len : N) : outcome Error unit :=
  if (shard_len =? 0)%N || negb (shard_len mod LEOPARD_SHARD_MULTIPLE =? 0)%N
  then Err IncorrectShardSize
  else Ok tt.

Definition leopard_aligned_shard_len (data_len data_shards : N) : N :=
  let shards := if (data_shards =? 0)%N then 1%N else data_shards in
  let per_shard := div_ceil data_len shards in
  let remainder := (per_shard mod LEOPARD_SHARD_MULTIPLE)%N in
  let rounded :=
    if (remainder =? 0)%N then per_shard
    else saturating_add per_shard (LEOPARD_SHARD_MULTIPLE - remainder) in
  let clamped := N.max rounded LEOPARD_SHARD_MULTIPLE in
  (clamped - clamped mod LEOPARD_SHARD_MULTIPLE)%N.

Definition leopard_shard_combo_fits (data_shards parity_shards order : N) : bool :=
  match checked_next_power_of_two parity_shards with
  | None => false
  | Some m =>
      if (data_shards =? 0)%N || (parity_shards =? 0)%N || (m =? 0)%N || (order <? m)%N
      then false
      else
        match checked_mul (div_ceil data_shards m) m with
        | None => false
        | Some rounded_data => (rounded_data <=? saturating_sub order m)%N
        end
  end.

Definition resolve_codec_family (requested : CodecFamily) (mode : LeopardMode)
    (is_byte_field : bool) (total_shards parity_shards : N) : CodecFamily :=
  if bool_decide (requested ≠ Classic) || negb is_byte_field then requested else
  match mode with
  | Disabled => Classic
  | AsNeeded =>
      if (total_shards <=? LEOPARD_GF8_MAX_SHARDS)%N then Classic else LeopardGF16
  | PreferGF16 => LeopardGF16
  | PreferLeopard =>
      if (total_shards <=? LEOPARD_GF8_MAX_SHARDS)%N
         && (parity_shards <=? LEOPARD_GF8_MAX_PARITY)%N
      then LeopardGF8 else LeopardGF16
  end.

Section field_rules.
Context {F : Field}.

Definition is_byte_field : bool :=
  (ORDER =? 256)%N
  && match as_gf8_slice [] with Some s => bool_decide (length s = 0) | None => false end
  && match as_gf8_slice_mut [] with
     | Some (s, _) => bool_decide (length s = 0)
     | None => false
     end.

Definition validate_leopard_gf8 (data_shards parity_shards : N) : outcome Error unit :=
  if negb is_byte_field then Err UnsupportedCodecFamily else
  if negb (leopard_shard_combo_fits data_shards parity_shards LEOPARD_GF8_MAX_SHARDS)
  then Err TooManyShards else Ok tt.

(** [cfg!(target_endian = "big")]: the little-endian build. *)
Definition target_endian_big : bool := false.

Definition validate_leopard_gf16 (data_shards parity_shards : N) : outcome Error unit :=
  if negb is_byte_field then Err UnsupportedCodecFamily else
  if target_endian_big then Err UnsupportedCodecFamily else
  if negb (leopard_shard_combo_fits data_shards parity_shards LEOPARD_GF16_MAX_SHARDS)
  then Err TooManyShards else Ok tt.

Definition validate_leopard_family (family : CodecFamily) (data_shards parity_shards : N)
  : outcome Error unit :=
  match family with
  | Classic => Ok tt
  | LeopardGF8 => validate_leopard_gf8 data_shards parity_shards
  | LeopardGF16 => validate_leopard_gf16 data_shards parity_shards
  end.

Definition max_total_shards_for_family (family : CodecFamily) : N :=
  match family with
  | Classic => ORDER
  | LeopardGF8 => LEOPARD_GF8_MAX_SHARDS
  | LeopardGF16 => LEOPARD_GF16_MAX_SHARDS
  end.
End field_rules.

(** ** Lemmas *)
Lemma validate_leopard_shard_len_ok n :
  validate_leopard_shard_len n = Ok tt ↔ n ≠ 0%N ∧ (n mod 64 = 0)%N.
Proof.
  unfold validate_leopard_shard_len, LEOPARD_SHARD_MULTIPLE.
  destruct (N.eqb_spec n 0), (N.eqb_spec (n mod 64) 0); simpl;
    intuition congruence.
Qed.

Lemma floor_64 n : ((n - n mod 64) mod 64 = 0)%N.
Proof.
  pose proof (N.div_mod n 64 ltac:(done)) as H.
  replace (n - n mod 64)%N with ((n / 64) * 64)%N; [by apply N.Div0.mod_mul|].
  revert H. generalize (n / 64)%N (n mod 64)%N. intros. lia.
Qed.

Lemma ceil_64 p : ((p + (64 - p mod 64)) mod 64 = 0)%N.
Proof.
  pose proof (N.div_mod p 64 ltac:(done)) as H. pose proof (N.mod_lt p 64 ltac:(done)) as H1.
  replace (p + (64 - p mod 64))%N with ((p / 64 + 1) * 64)%N; [by apply N.Div0.mod_mul|].
  revert H H1. generalize (p / 64)%N (p mod 64)%N. intros. lia.
Qed.

(** Flooring a number of at least 64 to a multiple of 64. *)
Lemma floor_64_bounds n :
  (64 <= n)%N → (n - n mod 64 ≠ 0 ∧ n - n mod 64 <= n)%N.
Proof.
  pose proof (N.mod_lt n 64 ltac:(done)) as H. revert H.
  generalize (n mod 64)%N. intros. lia.
Qed.

(** The rounding step: the next multiple of 64, when it is representable. *)
Lemma round_up_64 p :
  (p <= USIZE_MAX)%N →
  let rounded := if (p mod 64 =? 0)%N then p else saturating_add p (64 - p mod 64) in
  let r := (N.max rounded 64 - N.max rounded 64 mod 64)%N in
  r ≠ 0%N ∧ (r mod 64 = 0)%N ∧ (r <= USIZE_MAX)%N ∧
  ((p <= USIZE_MAX - 63)%N → (p <= r)%N ∧ (r < N.max (p + 64) 65)%N).
Proof.
  intros Hp rounded r.
  pose proof (N.mod_lt p 64 ltac:(done)) as Hm. pose proof (ceil_64 p) as Hc.
  destruct (floor_64_bounds (N.max rounded 64)) as [Hr0 Hr1]; [apply N.le_max_r|].
  assert (N.max rounded 64 <= USIZE_MAX)%N as Hmax.
  { apply N.max_lub; [|by vm_compute]. unfold rounded, saturating_add.
    destruct (N.eqb_spec (p mod 64) 0); [done|apply N.le_min_r]. }
  split_and!; [done|apply floor_64|by etransitivity|].
  intros Hlt.
  assert (rounded = (if (p mod 64 =? 0)%N then p else p + (64 - p mod 64))%N) as Hrd.
  { unfold rounded, saturating_add. destruct (N.eqb_spec (p mod 64) 0) as [|Hn]; [done|].
    apply N.min_l. revert Hm Hn Hlt. generalize (p mod 64)%N. unfold USIZE_MAX. lia. }
  assert (N.max rounded 64 mod 64 = 0)%N as E.
  { destruct (N.max_spec rounded 64) as [[_ ->]|[_ ->]]; [done|]. rewrite Hrd.
    destruct (N.eqb_spec (p mod 64) 0); done. }
  assert (p <= rounded < p + 64)%N as Hb.
  { rewrite Hrd. destruct (N.eqb_spec (p mod 64) 0) as [|Hn]; [lia|].
    revert Hm Hn. generalize (p mod 64)%N. lia. }
  unfold r. rewrite E, N.sub_0_r. lia.
Qed.

Lemma leopard_aligned_shard_len_lemma data_len data_shards :
  (data_len <= USIZE_MAX)%N →
  let shards := N.max data_shards 1 in
  let r := leopard_aligned_shard_len data_len data_shards in
  validate_leopard_shard_len r = Ok tt ∧ (r <= USIZE_MAX)%N ∧
  ((data_len <= USIZE_MAX - 63)%N → (data_len <= r * shards)%N).
Proof.
  intros Hl shards r.
  assert ((if (data_shards =? 0)%N then 1%N else data_shards) = shards) as Hs.
  { unfold shards. destruct (N.eqb_spec data_shards 0); lia. }
  assert (shards ≠ 0)%N as Hs0 by (unfold shards; lia).
  destruct (div_ceil_spec data_len shards Hs0) as [H1 H2].
  assert (div_ceil data_len shards <= data_len)%N as H3.
  { apply div_ceil_least; [done|]. nia. }
  destruct (round_up_64 (div_ceil data_len shards)) as (R1 & R2 & R3 & R4); [lia|].
  unfold r, leopard_aligned_shard_len, LEOPARD_SHARD_MULTIPLE. rewrite Hs.
  split_and!; [by apply validate_leopard_shard_len_ok|done|].
  intros Hlt. destruct R4 as [R4 _]; [lia|].
  etransitivity; [apply H1|]. by apply N.mul_le_mono_r.
Qed.

(** Shard counts that fit have room for the parity block and the rounded data
    blocks in the field. *)
Lemma leopard_shard_combo_fits_spec d p order :
  leopard_shard_combo_fits d p order = true →
  ∃ k m, m = (2 ^ k)%N ∧ (0 < d)%N ∧ (0 < p <= m)%N ∧ (m + div_ceil d m * m <= order)%N.
Proof.
  unfold leopard_shard_combo_fits, checked_next_power_of_two.
  destruct (next_power_of_two_spec p) as [Hp [k Hk]].
  set (m := next_power_of_two p) in *.
  destruct (N.leb_spec m USIZE_MAX); [|done].
  destruct (N.eqb_spec d 0), (N.eqb_spec p 0), (N.eqb_spec m 0), (N.ltb_spec order m);
    try done. simpl. unfold checked_mul, saturating_sub.
  destruct (N.leb_spec (div_ceil d m * m) USIZE_MAX); [|done].
  intros ?%N.leb_le. exists k, m. split_and!; [done|lia..].
Qed.

Section byte_field.
Context {F : Field}.

Lemma validate_leopard_family_total fam d p : validate_leopard_family fam d p ≠ Panic.
Proof.
  unfold validate_leopard_family, validate_leopard_gf8, validate_leopard_gf16.
  destruct fam; [done|..]; destruct (negb is_byte_field); try done; simpl;
    by destruct (negb (leopard_shard_combo_fits _ _ _)).
Qed.

(** The family that [resolve_codec_family] chooses on its own never exceeds
    its shard cap while the total is at most 65536. *)
Lemma resolve_within_cap mode total parity :
  is_byte_field = true → mode ≠ Disabled → (total <= 65536)%N →
  (total <= max_total_shards_for_family
     (resolve_codec_family Classic mode is_byte_field total parity))%N.
Proof.
  intros Hb Hm Ht. rewrite Hb.
  assert (ORDER = 256%N) as HO.
  { unfold is_byte_field in Hb. destruct (N.eqb_spec ORDER 256); [done|].
    destruct (as_gf8_slice []), (as_gf8_slice_mut []); done. }
  unfold resolve_codec_family. simpl.
  destruct mode; simpl; [done| |done|].
  - destruct (N.leb_spec total LEOPARD_GF8_MAX_SHARDS); simpl; [by rewrite HO|done].
  - destruct (N.leb_spec total LEOPARD_GF8_MAX_SHARDS); simpl; [|done].
    destruct (parity <=? LEOPARD_GF8_MAX_PARITY)%N; done.
Qed.
End byte_field.

(** ** Properties *)

(** for every payload length and shard
    count, [leopard_aligned_shard_len] returns a length the Leopard validator
    accepts (a nonzero multiple of 64 that fits a [usize]); unless the payload
    is within 63 elements of [usize::MAX] the shards hold the whole payload,
    and no shorter valid length does. *)
Theorem leopard_aligned_shard_len_correct data_len data_shards
    (Hlen : (data_len <= USIZE_MAX)%N) :
  let r := leopard_aligned_shard_len data_len data_shards in
  validate_leopard_shard_len r = Ok tt ∧ (r <= USIZE_MAX)%N ∧
  ((data_len <= USIZE_MAX - 63)%N →
     (data_len <= r * N.max data_shards 1)%N ∧
     ∀ s, validate_leopard_shard_len s = Ok tt →
       (data_len <= s * N.max data_shards 1)%N → (r <= s)%N).
Proof.
  intros r. destruct (leopard_aligned_shard_len_lemma data_len data_shards Hlen)
    as (H1 & H2 & H3).
  split_and!; [done|done|]. intros Hlt. split; [by apply H3|].
  intros s Hs Hcap. apply validate_leopard_shard_len_ok in Hs as [Hs0 Hs64].
  pose proof H1 as [Hr0 Hr64]%validate_leopard_shard_len_ok.
  set (shards := N.max data_shards 1) in *.
  assert (shards ≠ 0)%N as Hsh by (unfold shards; lia).
  assert (div_ceil data_len shards <= s)%N as Hd by (apply div_ceil_least; [done|lia]).
  assert (div_ceil data_len shards <= data_len)%N by (apply div_ceil_least; [done|nia]).
  destruct (round_up_64 (div_ceil data_len shards)) as (_ & _ & _ & R4); [lia|].
  destruct R4 as [_ R4]; [lia|].
  assert ((if (data_shards =? 0)%N then 1%N else data_shards) = shards) as Hss.
  { unfold shards. destruct (N.eqb_spec data_shards 0); lia. }
  assert (r < N.max (div_ceil data_len shards + 64) 65)%N as Hr.
  { unfold r, leopard_aligned_shard_len, LEOPARD_SHARD_MULTIPLE. by rewrite Hss. }
  fold r in Hr0, Hr64.
  pose proof (N.div_mod s 64 ltac:(done)). pose proof (N.div_mod r 64 ltac:(done)).
  destruct (N.le_gt_cases r s) as [|Hgt]; [done|]. lia.
Qed.

Lemma leopard_aligned_shard_len_correct_witness :
  leopard_aligned_shard_len 260 4 = 128%N ∧ (260 <= 128 * N.max 4 1)%N.
Proof.
  split; [by vm_compute|].
  apply (leopard_aligned_shard_len_correct 260 4); vm_compute; discriminate.
Defined.

(** [PreferLeopard] bounds the total and the parity count, and so it can choose GF(2^8)
    for counts that its validation refuses, although GF(2^16) would take them. *)
Lemma prefer_leopard_gf8_refused :
  resolve_codec_family Classic PreferLeopard true 256 56 = LeopardGF8 ∧
  leopard_shard_combo_fits 200 56 LEOPARD_GF8_MAX_SHARDS = false ∧
  leopard_shard_combo_fits 200 56 LEOPARD_GF16_MAX_SHARDS = true.
Proof. by vm_compute. Qed.
