(* ===== verification/InversionCache.v ===== *)
(** * The decode-matrix cache ([src/core/inversion_cache.rs])

    The cache wraps the LRU map of the [hashlink] crate with a byte budget.
    The LRU map is not part of the sources: [LruCache] states its operations
    and [LruLaws] its documented behaviour, over a view of the entries in
    recency order, least recently used first.  [list_lru] is one implementation
    of the interface.  Storage sizes (vector capacities, inline storage) belong
    to the allocator and [smallvec] and are parameters ([Storage]). *)

From Stdlib Require Import NArith Lia List Bool.
From stdpp Require Import base numbers list.
From S2P Require Import Prelude Fields Matrix Options.

Definition DEFAULT_INVERSION_CACHE_MAX_BYTES : N := 8 * 1024 * 1024.

(** ** The interface of [hashlink::LruCache] *)
Class LruCache (K V : Type) := {
  Lru : Type;
  lru_new : N → Lru;
  lru_capacity : Lru → N;
  lru_len : Lru → N;
  lru_get : Lru → K → option V * Lru;
  lru_remove : Lru → K → option V * Lru;
  lru_remove_lru : Lru → option (K * V) * Lru;
  lru_insert : Lru → K → V → Lru;
}.

(** Association lists with distinct keys. *)
Section assoc.
Context {K V : Type} `{EqDecision K}.

Definition assoc_get (l : list (K * V)) (k : K) : option V :=
  snd <$> find (λ e, bool_decide (e.1 = k)) l.
Definition assoc_remove (l : list (K * V)) (k : K) : list (K * V) :=
  List.filter (λ e, bool_decide (e.1 ≠ k)) l.
End assoc.

Class LruLaws {K V : Type} `{EqDecision K} (L : LruCache K V) := {
  (** The entries, least recently used first. *)
  lru_entries : Lru → list (K * V);
  lru_new_entries c : lru_entries (lru_new c) = [];
  lru_new_capacity c : lru_capacity (lru_new c) = c;
  lru_len_spec s : lru_len s = N.of_nat (length (lru_entries s));
  lru_get_fst s k : (lru_get s k).1 = assoc_get (lru_entries s) k;
  lru_get_entries s k :
    lru_entries (lru_get s k).2 =
    match assoc_get (lru_entries s) k with
    | Some v => assoc_remove (lru_entries s) k ++ [(k, v)]
    | None => lru_entries s
    end;
  lru_get_capacity s k : lru_capacity (lru_get s k).2 = lru_capacity s;
  lru_remove_fst s k : (lru_remove s k).1 = assoc_get (lru_entries s) k;
  lru_remove_entries s k :
    lru_entries (lru_remove s k).2 = assoc_remove (lru_entries s) k;
  lru_remove_capacity s k : lru_capacity (lru_remove s k).2 = lru_capacity s;
  lru_remove_lru_fst s : (lru_remove_lru s).1 = head (lru_entries s);
  lru_remove_lru_entries s : lru_entries (lru_remove_lru s).2 = tail (lru_entries s);
  lru_remove_lru_capacity s : lru_capacity (lru_remove_lru s).2 = lru_capacity s;
  (** Inserting a new key into a map with room for it. *)
  lru_insert_entries s k v :
    assoc_get (lru_entries s) k = None → (lru_len s < lru_capacity s)%N →
    lru_entries (lru_insert s k v) = lru_entries s ++ [(k, v)];
  lru_insert_capacity s k v : lru_capacity (lru_insert s k v) = lru_capacity s;
  lru_nodup s : NoDup (map fst (lru_entries s));
}.

(** ** What the allocator and [smallvec] decide *)
Class Storage (A : Type) := {
  (** [Vec<usize>::capacity] of a key. *)
  key_capacity : list nat → N;
  (** [SmallVec::spilled] and [SmallVec::capacity] of matrix storage. *)
  spilled : list A → bool;
  data_capacity : list A → N;
  size_of_elem : N;
  size_of_matrix : N;
}.

Definition SIZE_OF_USIZE : N := 8.

(** ** The cache *)
Record CachedMatrix (A : Type) := mk_cached {
  cached_matrix : Matrix A;
  cached_bytes : N;
}.
Arguments mk_cached {A} _ _.
Arguments cached_matrix {A} _.
Arguments cached_bytes {A} _.

Record ReconstructionCacheMemory := mk_cache_memory {
  memory_entries : N;
  memory_retained_bytes : N;
  memory_max_bytes : N;
}.

Record CacheInsertion := mk_insertion { inserted : bool; evictions : N }.

Section cache.
Context {A : Type} {St : Storage A} {L : LruCache (list nat) (CachedMatrix A)}.

(** [Matrix::retained_bytes] *)
Definition matrix_retained_bytes (m : Matrix A) : N :=
  let heap_bytes :=
    if spilled (data m) then saturating_mul (data_capacity (data m)) size_of_elem else 0%N in
  saturating_add size_of_matrix heap_bytes.

Record InversionCache := mk_cache {
  entries : Lru;
  retained_bytes : N;
  max_bytes : N;
}.

Definition cache_new (capacity max_bytes : N) : InversionCache :=
  mk_cache (lru_new capacity) 0 max_bytes.

Definition cache_get (self : InversionCache) (key : list nat)
  : option (Matrix A) * InversionCache :=
  let '(entry, entries') := lru_get (entries self) key in
  (cached_matrix <$> entry, mk_cache entries' (retained_bytes self) (max_bytes self)).

Definition cache_capacity (self : InversionCache) : N := lru_capacity (entries self).

(** The charge of an entry, if it is representable and within the budget. *)
Definition charge (self : InversionCache) (key : list nat) (m : Matrix A) : option N :=
  let bytes :=
    match checked_mul (key_capacity key) SIZE_OF_USIZE with
    | Some key_bytes => checked_add (matrix_retained_bytes m) key_bytes
    | None => None
    end in
  match bytes with
  | Some b => if (b <=? max_bytes self)%N then Some b else None
  | None => None
  end.

(** [self.retained_bytes -= n]; the subtraction must not wrap. *)
Definition discharge {E} (self : InversionCache) (entries' : Lru) (n : N)
  : outcome E InversionCache :=
  if (n <=? retained_bytes self)%N
  then Ok (mk_cache entries' (retained_bytes self - n) (max_bytes self))
  else Panic.

(** The eviction loop; [evictions] counts the removed entries. *)
Fixpoint evict_loop {E} (fuel : nat) (bytes : N) (self : InversionCache) (evictions : N)
  : outcome E (N * InversionCache) :=
  match fuel with
  | O => Panic
  | S fuel =>
      if (cache_capacity self <=? lru_len (entries self))%N
         || (max_bytes self - bytes <? retained_bytes self)%N
      then
        match lru_remove_lru (entries self) with
        | (Some (_, removed), entries') =>
            let! self := discharge self entries' (cached_bytes removed) in
            evict_loop fuel bytes self (evictions + 1)%N
        | (None, _) => Panic
        end
      else Ok (evictions, self)
  end.

Definition cache_insert {E} (self : InversionCache) (key : list nat) (m : Matrix A)
  : outcome E (CacheInsertion * InversionCache) :=
  match charge self key m with
  | None => Ok (mk_insertion false 0, self)
  | Some bytes =>
      if (cache_capacity self =? 0)%N then Ok (mk_insertion false 0, self) else
      let! self :=
        match lru_remove (entries self) key with
        | (Some previous, entries') => discharge self entries' (cached_bytes previous)
        | (None, entries') => Ok (mk_cache entries' (retained_bytes self) (max_bytes self))
        end in
      let! ' (evictions, self) :=
        evict_loop (S (N.to_nat (lru_len (entries self)))) bytes self 0 in
      let retained := (retained_bytes self + bytes)%N in
      Ok (mk_insertion true evictions,
          mk_cache (lru_insert (entries self) key (mk_cached m bytes)) retained
            (max_bytes self))
  end.

Definition cache_memory (self : InversionCache) : ReconstructionCacheMemory :=
  mk_cache_memory (lru_len (entries self)) (retained_bytes self) (max_bytes self).
End cache.
Arguments InversionCache {_ _}, _ {_}.

(** ** Lemmas on association lists *)
Section assoc_lemmas.
Context {K V : Type} `{EqDecision K}.
Implicit Types (l : list (K * V)) (k : K).

Lemma assoc_get_None l k : k ∉ map fst l → assoc_get l k = None.
Proof.
  unfold assoc_get. induction l as [|[k' v] l IH]; intros H; [done|]. simpl.
  rewrite bool_decide_false by (intros ->; apply H; left). apply IH.
  intros Hk. apply H. by right.
Qed.

Lemma assoc_get_elem l k v : assoc_get l k = Some v → (k, v) ∈ l.
Proof.
  unfold assoc_get. induction l as [|[k' v'] l IH]; [done|]. simpl.
  case_bool_decide; simpl.
  - intros [= ->]. subst. left.
  - intros ?. right. by apply IH.
Qed.

Lemma elem_assoc_remove l k e : e ∈ assoc_remove l k ↔ e ∈ l ∧ e.1 ≠ k.
Proof.
  unfold assoc_remove. rewrite !list_elem_of_In, filter_In.
  by rewrite bool_decide_eq_true.
Qed.

Lemma assoc_get_remove l k : assoc_get (assoc_remove l k) k = None.
Proof.
  apply assoc_get_None. rewrite list_elem_of_In, in_map_iff.
  intros (e & He & Hin). apply list_elem_of_In, elem_assoc_remove in Hin.
  by destruct Hin.
Qed.

Lemma assoc_remove_id l k : k ∉ map fst l → assoc_remove l k = l.
Proof.
  unfold assoc_remove. induction l as [|[k' v'] l IH]; intros Hk; [done|]. simpl.
  rewrite bool_decide_true by (intros ->; apply Hk; left). f_equal. apply IH.
  intros H. apply Hk. by right.
Qed.

Lemma assoc_remove_absent l k : assoc_get l k = None → assoc_remove l k = l.
Proof.
  unfold assoc_get, assoc_remove. induction l as [|[k' v'] l IH]; [done|]. simpl.
  case_bool_decide; [done|]. intros Hf. rewrite bool_decide_true by done. f_equal.
  by apply IH.
Qed.

Lemma assoc_get_snoc l k v : assoc_get l k = None → assoc_get (l ++ [(k, v)]) k = Some v.
Proof.
  unfold assoc_get. induction l as [|[k' v'] l IH]; simpl.
  - by rewrite bool_decide_true.
  - case_bool_decide; [done|]. apply IH.
Qed.
End assoc_lemmas.

Lemma elem_of_drop_in {A} (l : list A) k x : x ∈ drop k l → x ∈ l.
Proof. intros H. rewrite <-(take_drop k l). apply elem_of_app. by right. Qed.

(** ** The accounting invariant *)
Section invariant.
Context {A : Type} {St : Storage A} {L : LruCache (list nat) (CachedMatrix A)}
  {LL : LruLaws L}.
Implicit Types (self : InversionCache) (es : list (list nat * CachedMatrix A)).

Definition total_bytes es : N := foldr (λ e n, (cached_bytes e.2 + n)%N) 0%N es.

(** The charge is the sum over the retained entries and within the budget;
    the entry count is within the capacity. *)
Definition cache_inv self : Prop :=
  retained_bytes self = total_bytes (lru_entries (entries self)) ∧
  (retained_bytes self <= max_bytes self)%N ∧
  (lru_len (entries self) <= cache_capacity self)%N.

(** Every cached matrix satisfies [P] with its key. *)
Definition cache_all (P : list nat → Matrix A → Prop) self : Prop :=
  ∀ k e, (k, e) ∈ lru_entries (entries self) → P k (cached_matrix e).

Lemma total_bytes_app es1 es2 :
  total_bytes (es1 ++ es2) = (total_bytes es1 + total_bytes es2)%N.
Proof. induction es1 as [|e es IH]; simpl; [done|]. rewrite IH. lia. Qed.

Lemma total_bytes_remove es k e :
  NoDup (map fst es) → assoc_get es k = Some e →
  total_bytes es = (cached_bytes e + total_bytes (assoc_remove es k))%N.
Proof.
  induction es as [|[k' e'] es IH]; intros Hnd Hg; [done|].
  simpl in Hnd. apply NoDup_cons in Hnd as [Hk' Hnd].
  unfold assoc_get in Hg. simpl in Hg. unfold assoc_remove. simpl.
  case_bool_decide as D.
  - subst k'. simpl in Hg. injection Hg as ->.
    rewrite bool_decide_false by (intros H; by apply H).
    pose proof (assoc_remove_id es k Hk') as Hid. unfold assoc_remove in Hid. by rewrite Hid.
  - rewrite bool_decide_true by done. simpl.
    rewrite (IH Hnd Hg). unfold assoc_remove. lia.
Qed.

Lemma length_assoc_remove es k : length (assoc_remove es k) ≤ length es.
Proof. apply filter_length_le. Qed.

Lemma cache_new_inv capacity max : cache_inv (cache_new capacity max).
Proof.
  unfold cache_inv, cache_new, cache_capacity. simpl.
  rewrite lru_len_spec, lru_new_entries, lru_new_capacity. simpl. split_and!; lia.
Qed.

Lemma cache_get_inv self key : cache_inv self → cache_inv (cache_get self key).2.
Proof.
  intros (H1 & H2 & H3). unfold cache_get, cache_inv, cache_capacity in *.
  pose proof (lru_get_entries (entries self) key) as He.
  pose proof (lru_get_capacity (entries self) key) as Hc.
  pose proof (lru_get_fst (entries self) key) as Hf.
  destruct (lru_get (entries self) key) as [o es']. simpl in *.
  rewrite lru_len_spec in *. rewrite Hc, He.
  destruct (assoc_get (lru_entries (entries self)) key) as [v|] eqn:Hg; [|done].
  pose proof (lru_nodup (entries self)) as Hnd.
  pose proof (total_bytes_remove _ _ _ Hnd Hg) as Ht.
  rewrite total_bytes_app, length_app. simpl. split_and!; [lia|done|].
  assert (length (assoc_remove (lru_entries (entries self)) key)
    < length (lru_entries (entries self))) as Hlt; [|lia].
  unfold assoc_remove. apply assoc_get_elem in Hg.
  apply list_elem_of_In, in_split in Hg as (l1 & l2 & ->).
  rewrite List.filter_app, length_app. simpl.
  rewrite bool_decide_false by (intros H; by apply H). rewrite length_app. simpl.
  pose proof (filter_length_le (λ e, bool_decide (e.1 ≠ key)) l1).
  pose proof (filter_length_le (λ e, bool_decide (e.1 ≠ key)) l2). lia.
Qed.

Lemma cache_get_all P self key :
  cache_all P self →
  cache_all P (cache_get self key).2 ∧
  ∀ m, (cache_get self key).1 = Some m → P key m.
Proof.
  intros HP. unfold cache_get, cache_all in *.
  pose proof (lru_get_entries (entries self) key) as He.
  pose proof (lru_get_fst (entries self) key) as Hf.
  destruct (lru_get (entries self) key) as [o es']. simpl in *. subst o.
  destruct (assoc_get (lru_entries (entries self)) key) as [v|] eqn:Hg; simpl.
  - apply assoc_get_elem in Hg. split.
    + intros k e. rewrite He, elem_of_app, elem_assoc_remove, list_elem_of_singleton.
      intros [[? _]|[= -> ->]]; by apply HP.
    + intros m [= <-]. by apply HP.
  - split; [|done]. by rewrite He.
Qed.

(** The eviction loop terminates, never underflows, and drops a prefix of the
    recency order, stopping as soon as there is room. *)
Lemma evict_loop_spec {E} fuel bytes self n :
  N.to_nat (lru_len (entries self)) < fuel →
  retained_bytes self = total_bytes (lru_entries (entries self)) →
  (bytes <= max_bytes self)%N → (0 < cache_capacity self)%N →
  ensures (evict_loop (E:=E) fuel bytes self n)
    (λ '(n', self'), ∃ k,
      n' = (n + N.of_nat k)%N ∧ k ≤ length (lru_entries (entries self)) ∧
      lru_entries (entries self') = drop k (lru_entries (entries self)) ∧
      retained_bytes self' = total_bytes (lru_entries (entries self')) ∧
      max_bytes self' = max_bytes self ∧ cache_capacity self' = cache_capacity self ∧
      (lru_len (entries self') < cache_capacity self')%N ∧
      (retained_bytes self' + bytes <= max_bytes self')%N ∧
      ∀ j, j < k →
        (cache_capacity self <= N.of_nat (length (drop j (lru_entries (entries self)))))%N ∨
        (max_bytes self < total_bytes (drop j (lru_entries (entries self))) + bytes)%N)
    (λ _, False).
Proof.
  revert self n. induction fuel as [|fuel IH]; intros self n Hf Ht Hb Hc; [lia|].
  simpl. pose proof (lru_len_spec (entries self)) as Hlen.
  set (es := lru_entries (entries self)) in *.
  assert ((cache_capacity self <=? lru_len (entries self))%N
      || (max_bytes self - bytes <? retained_bytes self)%N = true ∧
      (cache_capacity self <= N.of_nat (length es) ∨ max_bytes self < total_bytes es + bytes)%N
    ∨ (cache_capacity self <=? lru_len (entries self))%N
      || (max_bytes self - bytes <? retained_bytes self)%N = false ∧
      (lru_len (entries self) < cache_capacity self)%N ∧
      (retained_bytes self + bytes <= max_bytes self)%N) as [[-> D]|(-> & D1 & D2)].
  { destruct (N.leb_spec (cache_capacity self) (lru_len (entries self)));
      destruct (N.ltb_spec (max_bytes self - bytes) (retained_bytes self));
      simpl; (left + right); split; try done; lia. }
  2:{ simpl. exists 0. rewrite drop_0. split_and!; try done; try lia. }
  pose proof (lru_remove_lru_fst (entries self)) as E1.
  pose proof (lru_remove_lru_entries (entries self)) as E2.
  pose proof (lru_remove_lru_capacity (entries self)) as E3.
  destruct (lru_remove_lru (entries self)) as [o es']. fold es in E1, E2. simpl in E1, E2, E3.
  destruct es as [|[k e] es0] eqn:Hes; [exfalso; simpl in *; lia|].
  simpl in E1, E2. subst o. unfold discharge. simpl in Ht.
  rewrite (proj2 (N.leb_le _ _)) by lia. cbn [obind].
  pose proof (lru_len_spec es') as Hlen'. rewrite E2 in Hlen'. simpl in Hlen.
  eapply ensures_weaken; [apply IH|]; unfold cache_capacity in *; simpl.
  - lia.
  - rewrite E2. lia.
  - done.
  - by rewrite E3.
  - intros [n' self'] (j & H1 & H2 & H3 & H4 & H5 & H6 & H7 & H8 & H9). exists (S j).
    rewrite E2 in *. simpl. split_and!; try done; try lia.
    intros [|i] Hi; [exact D|]. simpl. rewrite <-E3. apply H9. lia.
Qed.

Lemma charge_bound self key m b : charge self key m = Some b → (b <= max_bytes self)%N.
Proof.
  unfold charge. destruct (checked_mul _ _) as [kb|]; [|done].
  destruct (checked_add _ _) as [n|]; [|done].
  destruct (N.leb_spec n (max_bytes self)); [|done]. by intros [= <-].
Qed.

(** The state after the previous entry of the key has been removed. *)
Lemma cache_remove_spec {E} self key :
  cache_inv self →
  ensures (match lru_remove (entries self) key with
           | (Some previous, entries') =>
               discharge (E:=E) self entries' (cached_bytes previous)
           | (None, entries') => Ok (mk_cache entries' (retained_bytes self) (max_bytes self))
           end)
    (λ self', lru_entries (entries self') = assoc_remove (lru_entries (entries self)) key ∧
       retained_bytes self' = total_bytes (lru_entries (entries self')) ∧
       max_bytes self' = max_bytes self ∧ cache_capacity self' = cache_capacity self)
    (λ _, False).
Proof.
  intros (H1 & H2 & H3). unfold cache_capacity in *.
  pose proof (lru_remove_fst (entries self) key) as E1.
  pose proof (lru_remove_entries (entries self) key) as E2.
  pose proof (lru_remove_capacity (entries self) key) as E3.
  pose proof (lru_nodup (entries self)) as Hnd.
  destruct (lru_remove (entries self) key) as [o es']. simpl in E1, E2, E3. subst o.
  destruct (assoc_get _ key) as [v|] eqn:Hg.
  - pose proof (total_bytes_remove _ _ _ Hnd Hg) as Ht. unfold discharge.
    rewrite (proj2 (N.leb_le _ _)) by lia. simpl. split_and!; [done| |done|done].
    rewrite E2. lia.
  - simpl. split_and!; [done| |done|done]. rewrite E2, H1.
    by rewrite (assoc_remove_absent _ _ Hg).
Qed.

(** What an insertion does: nothing, or it drops the [k] least recently used
    of the other entries, [k] minimal, and appends the new entry. *)
Definition insertion_result self (key : list nat) (m : Matrix A)
    (r : CacheInsertion) self' : Prop :=
  if inserted r then
    ∃ bytes k, charge self key m = Some bytes ∧ evictions r = N.of_nat k ∧
      let others := assoc_remove (lru_entries (entries self)) key in
      k ≤ length others ∧
      lru_entries (entries self') = drop k others ++ [(key, mk_cached m bytes)] ∧
      ∀ j, j < k → (cache_capacity self <= N.of_nat (length (drop j others)))%N ∨
                   (max_bytes self < total_bytes (drop j others) + bytes)%N
  else self' = self ∧ evictions r = 0%N ∧
       (charge self key m = None ∨ cache_capacity self = 0%N).

Lemma cache_insert_spec {E} self key m :
  cache_inv self →
  ensures (cache_insert (E:=E) self key m)
    (λ '(r, self'), cache_inv self' ∧ max_bytes self' = max_bytes self ∧
       cache_capacity self' = cache_capacity self ∧ insertion_result self key m r self')
    (λ _, False).
Proof.
  intros Hinv. unfold cache_insert.
  destruct (charge self key m) as [bytes|] eqn:Hch.
  2:{ simpl. unfold insertion_result. simpl. split_and!; try done. by left. }
  destruct (N.eqb_spec (cache_capacity self) 0).
  { simpl. unfold insertion_result. simpl. split_and!; try done. by right. }
  pose proof (charge_bound _ _ _ _ Hch) as Hb.
  eapply ensures_bind; [by apply cache_remove_spec|]. cbn beta.
  intros s1 (R1 & R2 & R3 & R4).
  eapply ensures_bind; [apply evict_loop_spec; [lia|done|by rewrite R3|by rewrite R4; lia]|].
  intros [n' s2] (k & K1 & K2 & K3 & K4 & K5 & K6 & K7 & K8 & K9).
  rewrite R1 in K2, K3, K9. simpl.
  assert (assoc_get (lru_entries (entries s2)) key = None) as Hno.
  { rewrite K3. apply assoc_get_None. rewrite list_elem_of_In, in_map_iff.
    intros (e & He & Hin). apply list_elem_of_In, elem_of_drop_in in Hin.
    apply elem_assoc_remove in Hin. by destruct Hin. }
  pose proof (lru_insert_entries (entries s2) key (mk_cached m bytes) Hno K7) as HI.
  unfold cache_inv, cache_capacity in *. simpl.
  rewrite lru_insert_capacity, lru_len_spec, HI, total_bytes_app, length_app. simpl.
  rewrite lru_len_spec in K7.
  split_and!; [lia|lia|lia|congruence|congruence|].
  unfold insertion_result. simpl. exists bytes, k. unfold cache_capacity. rewrite HI, K3.
  split_and!; [done|lia|done|done|]. intros j Hj. rewrite <-R4, <-R3. by apply K9.
Qed.

Lemma cache_insert_all {E} P self key m r self' :
  cache_inv self → cache_all P self → P key m →
  cache_insert (E:=E) self key m = Ok (r, self') → cache_all P self'.
Proof.
  intros Hinv HP Hm Hi. pose proof (cache_insert_spec (E:=E) self key m Hinv) as H.
  rewrite Hi in H. simpl in H. destruct H as (_ & _ & _ & H).
  unfold insertion_result in H. destruct (inserted r); [|by destruct H as [-> _]].
  destruct H as (bytes & k & _ & _ & _ & He & _). intros k' e. rewrite He.
  rewrite elem_of_app, list_elem_of_singleton. intros [Hin|[= -> ->]]; [|done].
  apply elem_of_drop_in, elem_assoc_remove in Hin as [Hin _]. by apply HP.
Qed.
End invariant.

(** ** An implementation of the LRU interface *)
Section list_lru.
Context {K V : Type} `{EqDecision K}.

Record list_lru_state := mk_list_lru {
  ll_capacity : N;
  ll_entries : list (K * V);
  ll_nodup : bool_decide (NoDup (map fst ll_entries)) = true;
}.

Lemma nodup_remove (l : list (K * V)) k :
  NoDup (map fst l) → NoDup (map fst (assoc_remove l k)).
Proof.
  unfold assoc_remove. induction l as [|[k' v] l IH]; intros H; [done|].
  simpl in *. apply NoDup_cons in H as [H1 H2]. case_bool_decide; simpl; [|by apply IH].
  apply NoDup_cons. split; [|by apply IH]. intros Hin. apply H1.
  apply list_elem_of_In, in_map_iff in Hin as (e & He & Hin).
  apply filter_In in Hin as [Hin _]. apply list_elem_of_In, in_map_iff. by exists e.
Qed.

Lemma nodup_remove_snoc (l : list (K * V)) k v :
  NoDup (map fst l) → NoDup (map fst (assoc_remove l k ++ [(k, v)])).
Proof.
  intros H. rewrite map_app. apply NoDup_app. split_and!.
  - by apply nodup_remove.
  - simpl. intros k' Hk' ->%list_elem_of_singleton.
    apply list_elem_of_In, in_map_iff in Hk' as (e & He & Hin).
    apply list_elem_of_In, elem_assoc_remove in Hin. by destruct Hin.
  - apply NoDup_singleton.
Qed.

Lemma nodup_tail (l : list (K * V)) : NoDup (map fst l) → NoDup (map fst (tail l)).
Proof. destruct l; simpl; [done|]. by intros [_ ?]%NoDup_cons. Qed.

Definition trim (c : N) (l : list (K * V)) : list (K * V) :=
  if (c <? N.of_nat (length l))%N then tail l else l.

Lemma nodup_trim c (l : list (K * V)) : NoDup (map fst l) → NoDup (map fst (trim c l)).
Proof. unfold trim. destruct (_ <? _)%N; [apply nodup_tail|done]. Qed.

Definition mk_ll (c : N) (l : list (K * V)) (H : NoDup (map fst l)) : list_lru_state :=
  mk_list_lru c l (bool_decide_eq_true_2 _ H).

Definition ll_wf (s : list_lru_state) : NoDup (map fst (ll_entries s)) :=
  bool_decide_eq_true_1 _ (ll_nodup s).

Definition touch (l : list (K * V)) (k : K) : list (K * V) :=
  match assoc_get l k with Some v => assoc_remove l k ++ [(k, v)] | None => l end.

Lemma nodup_touch (l : list (K * V)) k : NoDup (map fst l) → NoDup (map fst (touch l k)).
Proof. unfold touch. destruct (assoc_get l k); [apply nodup_remove_snoc|done]. Qed.

#[export] Instance list_lru : LruCache K V := {|
  Lru := list_lru_state;
  lru_new := λ c, mk_ll c [] (NoDup_nil_2);
  lru_capacity := ll_capacity;
  lru_len := λ s, N.of_nat (length (ll_entries s));
  lru_get := λ s k, (assoc_get (ll_entries s) k,
    mk_ll (ll_capacity s) (touch (ll_entries s) k) (nodup_touch _ k (ll_wf s)));
  lru_remove := λ s k, (assoc_get (ll_entries s) k,
    mk_ll (ll_capacity s) (assoc_remove (ll_entries s) k) (nodup_remove _ k (ll_wf s)));
  lru_remove_lru := λ s, (head (ll_entries s),
    mk_ll (ll_capacity s) (tail (ll_entries s)) (nodup_tail _ (ll_wf s)));
  lru_insert := λ s k v, mk_ll (ll_capacity s)
    (trim (ll_capacity s) (assoc_remove (ll_entries s) k ++ [(k, v)]))
    (nodup_trim _ _ (nodup_remove_snoc _ k v (ll_wf s)));
|}.

#[export, refine] Instance list_lru_laws : LruLaws list_lru := {|
  lru_entries := λ s : Lru, ll_entries s;
|}.
Proof.
  all: try done.
  - intros s k v Hno Hlt. simpl in *.
    assert (assoc_remove (ll_entries s) k = ll_entries s) as ->.
    { by apply assoc_remove_absent. }
    unfold trim. rewrite length_app. simpl.
    rewrite (proj2 (N.ltb_ge _ _)) by lia. done.
  - intros s. apply ll_wf.
Defined.
End list_lru.

(** ** Sequences of operations *)
Section runs.
Context {A : Type} {St : Storage A} {L : LruCache (list nat) (CachedMatrix A)}
  {LL : LruLaws L}.

Inductive cache_op :=
| OpGet (key : list nat)
| OpInsert (key : list nat) (m : Matrix A).

Definition cache_step {E} (op : cache_op) (self : InversionCache A)
  : outcome E (InversionCache A) :=
  match op with
  | OpGet key => Ok (cache_get self key).2
  | OpInsert key m => let! ' (_, self) := cache_insert self key m in Ok self
  end.

Lemma cache_run_inv {E} ops self :
  cache_inv self →
  ensures (for_each (E:=E) ops cache_step self)
    (λ self', cache_inv self' ∧ max_bytes self' = max_bytes self ∧
       cache_capacity self' = cache_capacity self) (λ _, False).
Proof.
  intros H. apply (for_each_post _ _ (λ _ s, cache_inv s ∧ max_bytes s = max_bytes self ∧
    cache_capacity s = cache_capacity self)); [done| |done].
  intros i op s _ (Hs & Hm & Hc). destruct op as [key|key m].
  - simpl. split; [by apply cache_get_inv|]. rewrite <-Hm, <-Hc.
    unfold cache_get, cache_capacity.
    pose proof (lru_get_capacity (entries s) key) as E1.
    by destruct (lru_get (entries s) key).
  - eapply ensures_bind; [by apply cache_insert_spec|].
    intros [r s'] (H1 & H2 & H3 & _). simpl. by rewrite H2, H3.
Qed.

(** C35: whatever sequence of lookups and insertions is
    run on a fresh cache, no operation panics or underflows, and afterwards
    [memory()] reports at most [capacity] entries, a charge equal to the sum
    of the charges of the retained entries, and a charge within the budget. *)
Theorem inversion_cache_budget (capacity max : N) (ops : list cache_op) :
  ∃ self, for_each (E:=Empty_set) ops cache_step (cache_new capacity max) = Ok self ∧
    memory_max_bytes (cache_memory self) = max ∧
    (memory_entries (cache_memory self) <= capacity)%N ∧
    (memory_retained_bytes (cache_memory self) <= max)%N ∧
    memory_retained_bytes (cache_memory self) = total_bytes (lru_entries (entries self)).
Proof.
  pose proof (cache_run_inv (E:=Empty_set) ops _ (cache_new_inv capacity max)) as H.
  apply ensures_noerr in H as (self & Hr & (H1 & H2 & H3) & Hm & Hc).
  exists self. unfold cache_memory. simpl in *. split_and!; [done|done| |congruence|done].
  rewrite Hc in H3. unfold cache_capacity in H3. simpl in H3.
  by rewrite lru_new_capacity in H3.
Qed.

(** an insertion into a cache within its budget never
    panics.  An entry that cannot be charged within the budget, or a zero
    capacity, leaves the cache as it is; otherwise the entry becomes the most
    recently used one, a lookup of its key returns its matrix, and exactly
    the least recently used other entries are evicted, no more than needed. *)
Theorem cache_insert_correct (self : InversionCache A) key m
    (Hinv : cache_inv self) :
  ∃ r self', cache_insert (E:=Empty_set) self key m = Ok (r, self') ∧ cache_inv self' ∧
    insertion_result self key m r self' ∧
    (inserted r = true → (cache_get self' key).1 = Some m).
Proof.
  pose proof (cache_insert_spec (E:=Empty_set) self key m Hinv) as H.
  apply ensures_noerr in H as ([r self'] & -> & H1 & _ & _ & H4).
  exists r, self'. split_and!; [done..|]. intros Hi.
  unfold insertion_result in H4. rewrite Hi in H4.
  destruct H4 as (bytes & k & _ & _ & _ & He & _). unfold cache_get.
  pose proof (lru_get_fst (entries self') key) as Hg.
  destruct (lru_get (entries self') key) as [o es']. simpl in *. subst o.
  rewrite He, assoc_get_snoc; [done|]. apply assoc_get_None.
  rewrite list_elem_of_In, in_map_iff. intros (e & Hk & Hin).
  apply list_elem_of_In, elem_of_drop_in, elem_assoc_remove in Hin. by destruct Hin.
Qed.
End runs.

(** A storage model for the witnesses: exact capacities, 1024 inline elements. *)
#[export] Instance exact_storage {A} : Storage A := {|
  key_capacity := λ k, N.of_nat (length k);
  spilled := λ d, (1024 <? N.of_nat (length d))%N;
  data_capacity := λ d, N.of_nat (length d);
  size_of_elem := 1;
  size_of_matrix := 1048;
|}.

Lemma cache_insert_correct_witness :
  let c := cache_new (A:=nat) 4 4096 in
  cache_inv c ∧
  ∃ r c', cache_insert (E:=Empty_set) c [0; 2] (mk_matrix 1 1 [7]) = Ok (r, c') ∧
    inserted r = true ∧ (cache_get c' [0; 2]).1 = Some (mk_matrix 1 1 [7]).
Proof.
  split; [apply cache_new_inv|].
  destruct (cache_insert_correct (cache_new (A:=nat) 4 4096) [0; 2] (mk_matrix 1 1 [7])
    (cache_new_inv 4 4096)) as (r & c' & H1 & _ & _ & H4).
  exists r, c'. split; [exact H1|].
  assert (inserted r = true) as Hr.
  { apply (f_equal (λ o, match o with Ok (r, _) => inserted r | _ => false end)) in H1.
    rewrite <-H1. vm_compute. reflexivity. }
  split; [exact Hr|exact (H4 Hr)].
Defined.
