(* ===== verification/Parallel.v ===== *)
(** * Parallel policy and chunk scheduling ([src/core/parallel.rs])

    [decide] and [decide_for_elements] choose between serial and parallel
    execution from sizes alone.  [for_each_output_chunk] cuts the outputs into
    chunks and hands them to Rayon: the model lists the chunk tasks the code
    creates, and lets the scheduler run them in any order; the theorems hold
    for every order.  Cache detection, the environment and the machine's
    parallelism are inputs. *)

From Stdlib Require Import NArith Lia List Bool Permutation.
From stdpp Require Import base numbers list.
From S2P Require Import Prelude Fields Options.

Definition CODE_SLICE_MIN_CHUNK_BYTES : N := 16 * 1024.
Definition CODE_SLICE_DEFAULT_CHUNK_BYTES : N := 64 * 1024.
Definition CODE_SLICE_LARGE_CHUNK_BYTES : N := 256 * 1024.
Definition PARALLEL_MIN_SHARD_BYTES : N := 256 * 1024.
Definition PARALLEL_POLICY_VERSION : N := 3.

Record ParallelPolicy := mk_policy {
  min_parallel_shard_bytes : N;
  min_bytes_per_job : N;
  max_jobs : N;
  l2_cache_bytes : N;
}.

Record ParallelDecision := mk_decision {
  use_parallel : bool;
  jobs : N;
  chunk_len : N;
}.

Record RuntimeParallelPolicyCache := mk_policy_cache {
  available_parallelism : N;
  policy_data : ParallelPolicy;
  policy_reconstruct_data : ParallelPolicy;
  policy_reconstruct_full_data : ParallelPolicy;
  policy_reconstruct_full_parity : ParallelPolicy;
}.

(** [ParallelPolicy::default]; the argument is the detected or default L2 size. *)
Definition policy_default (l2 : N) : ParallelPolicy :=
  mk_policy PARALLEL_MIN_SHARD_BYTES CODE_SLICE_LARGE_CHUNK_BYTES 0 l2.

Definition serial_chunk_len (shard_size : N) : N :=
  if (shard_size <=? CODE_SLICE_MIN_CHUNK_BYTES)%N then shard_size
  else if (shard_size <=? CODE_SLICE_DEFAULT_CHUNK_BYTES)%N then CODE_SLICE_MIN_CHUNK_BYTES
  else if (shard_size <=? 4 * 1024 * 1024)%N then CODE_SLICE_DEFAULT_CHUNK_BYTES
  else CODE_SLICE_LARGE_CHUNK_BYTES.

Definition align_chunk_len (chunk_len : N) : N :=
  if (64 <=? chunk_len)%N then (chunk_len / 64 * 64)%N else chunk_len.

Definition decide_policy (self : ParallelPolicy)
    (shard_size data_shards output_shards available_parallelism : N) : ParallelDecision :=
  if (shard_size =? 0)%N || (data_shards =? 0)%N || (output_shards =? 0)%N
  then mk_decision false 1 shard_size else
  let available_parallelism := N.max available_parallelism 1 in
  let max_jobs :=
    N.max (if (max_jobs self =? 0)%N then available_parallelism
           else N.min (max_jobs self) available_parallelism) 1 in
  let min_parallel_shard_bytes := N.max (min_parallel_shard_bytes self) 1 in
  let min_bytes_per_job := N.max (min_bytes_per_job self) CODE_SLICE_MIN_CHUNK_BYTES in
  let cache_chunk_len :=
    if (l2_cache_bytes self =? 0)%N then USIZE_MAX
    else
      let active_shards := N.max (saturating_add data_shards output_shards) 1 in
      N.max (l2_cache_bytes self / active_shards) 1 in
  let chunk_cap := N.min (N.min min_bytes_per_job cache_chunk_len) shard_size in
  let chunk_count := N.max (div_ceil shard_size chunk_cap) 1 in
  let max_useful_jobs :=
    N.max (if (output_shards <=? 2)%N then chunk_count
           else saturating_mul output_shards chunk_count) 1 in
  let jobs := N.max (N.min max_jobs max_useful_jobs) 1 in
  if (shard_size <? min_parallel_shard_bytes)%N || (jobs <? 2)%N
  then mk_decision false 1
         (align_chunk_len (N.min (serial_chunk_len shard_size) cache_chunk_len))
  else
    let chunks_per_output := N.max 1 (div_ceil jobs output_shards) in
    let chunk_len := align_chunk_len (N.min (div_ceil shard_size chunks_per_output) chunk_cap) in
    mk_decision true jobs (N.min chunk_len shard_size).

Definition decide_for_elements (self : ParallelPolicy)
    (shard_len element_size data_shards output_shards available_parallelism : N)
    : ParallelDecision :=
  let element_size := N.max element_size 1 in
  let decision :=
    decide_policy self (saturating_mul shard_len element_size) data_shards output_shards
      available_parallelism in
  mk_decision (use_parallel decision) (jobs decision)
    (if (shard_len =? 0)%N then 0%N
     else N.min (N.max (chunk_len decision / element_size) 1) shard_len).

Definition with_l2_cache_bytes (self : ParallelPolicy) (bytes : N) : ParallelPolicy :=
  mk_policy (min_parallel_shard_bytes self) (min_bytes_per_job self) (max_jobs self) bytes.

(** [with_env_overrides]; the arguments are the parsed environment variables. *)
Definition with_env_overrides (self : ParallelPolicy)
    (env_min_shard env_min_job env_max_jobs env_l2 : option N) : ParallelPolicy :=
  let keep_positive (v : option N) (old : N) :=
    match v with Some value => if (0 <? value)%N then value else old | None => old end in
  mk_policy
    (keep_positive env_min_shard (min_parallel_shard_bytes self))
    (keep_positive env_min_job (min_bytes_per_job self))
    (default (max_jobs self) env_max_jobs)
    (default (l2_cache_bytes self) env_l2).

Definition policy_cache_new (available : N) (data : ParallelPolicy)
  : RuntimeParallelPolicyCache := mk_policy_cache available data data data data.

Definition reconstruct_policy (self : RuntimeParallelPolicyCache) (data_only : bool)
  : ParallelPolicy :=
  if data_only then policy_reconstruct_data self else policy_reconstruct_full_data self.

Definition reconstruct_stage_policies (self : RuntimeParallelPolicyCache) (data_only : bool)
  : ParallelPolicy * ParallelPolicy :=
  if data_only then (policy_reconstruct_data self, policy_reconstruct_data self)
  else (policy_reconstruct_full_data self, policy_reconstruct_full_parity self).

(** ** Chunks *)

(** Rounded-up division of lengths. *)
Definition nat_div_ceil (a b : nat) : nat := (a / b) + (if decide (a mod b = 0) then 0 else 1).

(** [slice.chunks(n)] of a slice of length [len]: start and end of each chunk. *)
Definition chunks (len n : nat) : list (nat * nat) :=
  map (λ i, (i * n, Nat.min ((i + 1) * n) len)) (seq 0 (nat_div_ceil len n)).

(** A call of the callback: output row, start, end of the chunk. *)
Definition task : Type := nat * nat * nat.

(** The chunks of one group [gs..ge] of an output, starting at [gs]. *)
Definition group_tasks (row : nat) (chunk_len : nat) (g : nat * nat) : list task :=
  map (λ c, (row, g.1 + c.1, g.1 + c.2)) (chunks (g.2 - g.1) chunk_len).

(** The tasks of [for_each_output_chunk] in the order of the code's loops;
    [lens] are the lengths of the outputs.  The inner list of each group is
    sequential in the code, the groups are distributed by Rayon. *)
Definition output_chunk_tasks (lens : list nat) (shard_len chunk_len jobs : nat)
  : list (list task) :=
  if decide (lens = []) then [] else
  if decide (shard_len = 0) then [] else
  let chunk_len := Nat.min (Nat.max chunk_len 1) shard_len in
  let jobs := Nat.max jobs 1 in
  let output_count := length lens in
  if decide (jobs ≤ output_count) then
    let outputs_per_job := nat_div_ceil output_count jobs in
    map (λ '(gs, ge),
      List.concat (map (λ row, group_tasks row chunk_len (0, default 0 (lens !! row)))
        (seq gs (ge - gs))))
      (chunks output_count outputs_per_job)
  else
    let chunk_count := nat_div_ceil shard_len chunk_len in
    List.concat (map (λ '(row, len),
      let row_jobs := jobs / output_count + (if decide (row < jobs mod output_count) then 1 else 0) in
      let chunks_per_job := nat_div_ceil chunk_count row_jobs in
      let group_len := Nat.min (chunks_per_job * chunk_len) shard_len in
      map (λ g, group_tasks row chunk_len g) (chunks len group_len)) (imap pair lens)).

Section scheduler.
Context {E A : Type}.

(** One callback on the chunk it owns. *)
Definition run_task (process : nat → nat → list A → outcome E (list A))
    (t : task) (outputs : list (list A)) : outcome E (list (list A)) :=
  let '(row, start, end_) := t in
  let! output := index outputs row in
  let! output := update_slice output start end_ (process row start) in
  update outputs row output.

(** A run of the scheduler: the tasks in some order. *)
Definition for_each_output_chunk (order : list task)
    (process : nat → nat → list A → outcome E (list A)) (outputs : list (list A))
    : outcome E (list (list A)) :=
  for_each order (run_task process) outputs.

Definition is_schedule (order : list task) (groups : list (list task)) : Prop :=
  order ≡ₚ List.concat groups.
End scheduler.

(** ** Lemmas on the policy *)
Lemma align_chunk_len_spec n :
  (align_chunk_len n <= n)%N ∧ (0 < n → 0 < align_chunk_len n)%N.
Proof.
  unfold align_chunk_len. destruct (N.leb_spec 64 n); [|lia].
  pose proof (N.div_mod n 64 ltac:(done)) as H1. pose proof (N.mod_lt n 64 ltac:(done)) as H2.
  revert H1 H2. generalize (n / 64)%N (n mod 64)%N. intros. lia.
Qed.

Lemma serial_chunk_len_pos n : (0 < n)%N → (0 < serial_chunk_len n <= n)%N.
Proof.
  intros Hn. unfold serial_chunk_len, CODE_SLICE_MIN_CHUNK_BYTES,
    CODE_SLICE_DEFAULT_CHUNK_BYTES, CODE_SLICE_LARGE_CHUNK_BYTES.
  destruct (N.leb_spec n (16 * 1024)); [lia|].
  destruct (N.leb_spec n (64 * 1024)); [lia|].
  destruct (N.leb_spec n (4 * 1024 * 1024)); lia.
Qed.

Lemma div_ceil_pos a b : (0 < a → b ≠ 0 → 0 < div_ceil a b)%N.
Proof. intros Ha Hb. pose proof (div_ceil_spec a b Hb). nia. Qed.

(** ** Lemmas on chunks *)
Lemma nat_div_ceil_spec a b : 0 < b → a ≤ nat_div_ceil a b * b ∧ nat_div_ceil a b * b < a + b.
Proof.
  intros Hb. unfold nat_div_ceil. pose proof (Nat.div_mod_eq a b).
  pose proof (Nat.mod_upper_bound a b). case_decide; nia.
Qed.

Lemma nat_div_ceil_pos a b : 0 < a → 0 < b → 0 < nat_div_ceil a b.
Proof. intros Ha Hb. pose proof (nat_div_ceil_spec a b Hb). nia. Qed.

(** Every position is in exactly one chunk, and chunks are within the slice. *)
Lemma chunks_bounds len n s e : 0 < n → (s, e) ∈ chunks len n → s < e ∧ e ≤ len ∧ e - s ≤ n.
Proof.
  intros Hn Hin. unfold chunks in Hin. apply list_elem_of_In, in_map_iff in Hin as (i & Hi & Hin).
  injection Hi as <- <-. apply in_seq in Hin. pose proof (nat_div_ceil_spec len n Hn). nia.
Qed.

Lemma chunks_cover len n j : 0 < n → j < len → ∃ s e, (s, e) ∈ chunks len n ∧ s ≤ j < e.
Proof.
  intros Hn Hj. exists (j / n * n), (Nat.min ((j / n + 1) * n) len). split.
  - unfold chunks. apply list_elem_of_In, in_map_iff. exists (j / n). split; [done|].
    apply in_seq. pose proof (nat_div_ceil_spec len n Hn).
    pose proof (Nat.div_mod_eq j n). pose proof (Nat.mod_upper_bound j n). nia.
  - pose proof (Nat.div_mod_eq j n). pose proof (Nat.mod_upper_bound j n). nia.
Qed.

(** Walking the chunks of a slice from left to right. *)
Lemma chunks_for_each_ensures {E S} (len n : nat) (body : nat * nat → S → outcome E S)
    (I : nat → S → Prop) (R : E → Prop) (s : S) :
  0 < n → I 0 s →
  (∀ a b s, a < b → b ≤ len → I a s → ensures (body (a, b) s) (I b) R) →
  ensures (for_each (chunks len n) body s) (I len) R.
Proof.
  intros Hn H0 Hbody. destruct (nat_div_ceil_spec len n Hn) as [Hc1 Hc2].
  apply (for_each_post _ _ (λ k, I (Nat.min (k * n) len))).
  - by rewrite Nat.mul_0_l, Nat.min_0_l.
  - intros k [a b] s' Hk HI. unfold chunks in Hk. rewrite lookup_map in Hk.
    destruct (seq 0 (nat_div_ceil len n) !! k) as [k'|] eqn:Hs; [|done].
    apply lookup_seq in Hs as [-> Hlt]. simpl in Hk. injection Hk as <- <-.
    simpl in Hlt. rewrite Nat.min_l in HI by nia. rewrite (Nat.add_comm 1 k).
    apply Hbody; [nia|lia|done].
  - intros s' HI. unfold chunks in HI. rewrite length_map, length_seq, Nat.min_r in HI by lia. done.
Qed.

Lemma chunks_disjoint len n j s e s' e' :
  0 < n → (s, e) ∈ chunks len n → (s', e') ∈ chunks len n →
  s ≤ j < e → s' ≤ j < e' → (s, e) = (s', e').
Proof.
  intros Hn H H' Hj Hj'. unfold chunks in *.
  apply list_elem_of_In, in_map_iff in H as (i & Hi & _).
  apply list_elem_of_In, in_map_iff in H' as (i' & Hi' & _).
  injection Hi as <- <-. injection Hi' as <- <-. assert (i = i') by nia. by subst.
Qed.

Lemma chunks_nodup len n : 0 < n → NoDup (map fst (chunks len n)).
Proof.
  intros Hn. unfold chunks. rewrite map_map. simpl. rewrite NoDup_ListNoDup.
  apply NoDup_map_NoDup_ForallPairs; [|apply seq_NoDup].
  intros i j _ _ H. nia.
Qed.

(** ** Tasks that partition the outputs *)
Definition covers (row j : nat) (t : task) : Prop :=
  let '(r, s, e) := t in r = row ∧ s ≤ j < e.

#[export] Instance covers_dec row j t : Decision (covers row j t).
Proof. destruct t as [[r s] e]. unfold covers. apply _. Defined.

Record partition (lens : list nat) (l : list task) : Prop := {
  part_bounds : ∀ r s e, (r, s, e) ∈ l → ∃ len, lens !! r = Some len ∧ s ≤ e ∧ e ≤ len;
  part_cover : ∀ r len j, lens !! r = Some len → j < len → ∃ t, t ∈ l ∧ covers r j t;
  part_unique : ∀ r j t t', t ∈ l → t' ∈ l → covers r j t → covers r j t' → t = t';
  part_nodup : NoDup l;
}.

Lemma partition_perm lens l l' : l ≡ₚ l' → partition lens l → partition lens l'.
Proof.
  intros Hp [H1 H2 H3 H4]. split.
  - intros r s e Hin. apply H1. by rewrite Hp.
  - intros r len j Hl Hj. destruct (H2 r len j Hl Hj) as (t & Ht & Hc).
    exists t. by rewrite <-Hp.
  - intros r j t t' Ht Ht'. apply H3; by rewrite Hp.
  - by rewrite <-Hp.
Qed.

(** Concatenations without repetition. *)
Lemma nodup_concat_map {A B} (f : A → list B) (l : list A) :
  NoDup l → (∀ x, x ∈ l → NoDup (f x)) →
  (∀ x y b, x ∈ l → y ∈ l → b ∈ f x → b ∈ f y → x = y) →
  NoDup (List.concat (map f l)).
Proof.
  intros Hnd. induction Hnd as [|x l Hx Hnd IH]; intros H1 H2; [constructor|].
  simpl. apply NoDup_app. split_and!.
  - apply H1. left.
  - intros b Hb Hc. apply list_elem_of_In, in_concat in Hc as (k & Hk & Hbk).
    apply in_map_iff in Hk as (y & <- & Hy).
    assert (x = y) as ->; [|by apply Hx, list_elem_of_In].
    apply (H2 _ _ b); [left|right; by apply list_elem_of_In|done|by apply list_elem_of_In].
  - apply IH.
    + intros y Hy. apply H1. by right.
    + intros y z b Hy Hz. apply H2; by right.
Qed.

Lemma elem_concat_map {A B} (f : A → list B) (l : list A) b :
  b ∈ List.concat (map f l) ↔ ∃ x, x ∈ l ∧ b ∈ f x.
Proof.
  rewrite list_elem_of_In, in_concat. split.
  - intros (k & Hk & Hb). apply in_map_iff in Hk as (x & <- & Hx).
    exists x. by rewrite !list_elem_of_In.
  - intros (x & Hx & Hb). exists (f x). apply list_elem_of_In in Hx. apply list_elem_of_In in Hb.
    split; [by apply in_map|done].
Qed.

Lemma nodup_chunks len n : 0 < n → NoDup (chunks len n).
Proof. intros Hn. eapply NoDup_fmap_1. by apply (chunks_nodup len n). Qed.

Lemma elem_group_tasks row n g r s e :
  (r, s, e) ∈ group_tasks row n g ↔
  r = row ∧ ∃ a b, (a, b) ∈ chunks (g.2 - g.1) n ∧ s = g.1 + a ∧ e = g.1 + b.
Proof.
  unfold group_tasks. rewrite list_elem_of_In, in_map_iff. split.
  - intros ([a b] & Hab & Hin). simpl in Hab. injection Hab as <- <- <-.
    split; [done|]. exists a, b. by rewrite list_elem_of_In.
  - intros (-> & a & b & Hin & -> & ->). exists (a, b). by rewrite <-list_elem_of_In.
Qed.

Lemma nodup_group_tasks row n g : 0 < n → NoDup (group_tasks row n g).
Proof.
  intros Hn. unfold group_tasks. rewrite NoDup_ListNoDup.
  apply NoDup_map_NoDup_ForallPairs; [|by apply NoDup_ListNoDup, nodup_chunks].
  intros [a b] [a' b'] Hx Hy. simpl. intros [= H1 H2]. f_equal; lia.
Qed.

(** Cutting each row into groups and each group into chunks. *)
Lemma group_tasks_partition lens (groups : list (nat * (nat * nat))) n :
  0 < n → NoDup groups →
  (∀ row gs ge, (row, (gs, ge)) ∈ groups → ∃ len, lens !! row = Some len ∧ gs ≤ ge ∧ ge ≤ len) →
  (∀ row len j, lens !! row = Some len → j < len →
     ∃ gs ge, (row, (gs, ge)) ∈ groups ∧ gs ≤ j < ge) →
  (∀ row j g g', (row, g) ∈ groups → (row, g') ∈ groups →
     g.1 ≤ j < g.2 → g'.1 ≤ j < g'.2 → g = g') →
  partition lens (List.concat (map (λ '(row, g), group_tasks row n g) groups)).
Proof.
  intros Hn Hnd Hb Hc Hu.
  assert (∀ row g r s e, (row, g) ∈ groups → (r, s, e) ∈ group_tasks row n g →
    r = row ∧ g.1 ≤ s ∧ s < e ∧ e ≤ g.2) as Hin.
  { intros row g r s e Hg Ht. apply elem_group_tasks in Ht as (-> & a & b & Hab & -> & ->).
    apply chunks_bounds in Hab; [|done]. lia. }
  split.
  - intros r s e Ht. apply elem_concat_map in Ht as ([row [gs ge]] & Hg & Ht).
    destruct (Hin _ _ _ _ _ Hg Ht) as (-> & ? & ? & ?). simpl in *.
    destruct (Hb _ _ _ Hg) as (len & ? & ? & ?). exists len. split_and!; [done|lia|lia].
  - intros r len j Hl Hj. destruct (Hc r len j Hl Hj) as (gs & ge & Hg & Hj').
    destruct (chunks_cover (ge - gs) n (j - gs) Hn) as (a & b & Hab & Hj''); [lia|].
    exists (r, gs + a, gs + b). split; [|simpl; lia].
    apply elem_concat_map. exists (r, (gs, ge)). split; [done|].
    apply elem_group_tasks. split; [done|]. by exists a, b.
  - intros r j [[r1 s1] e1] [[r2 s2] e2] H1 H2 [-> Hj1] [-> Hj2].
    apply elem_concat_map in H1 as ([row1 g1] & G1 & T1).
    apply elem_concat_map in H2 as ([row2 g2] & G2 & T2).
    destruct (Hin _ _ _ _ _ G1 T1) as (<- & ? & ? & ?).
    destruct (Hin _ _ _ _ _ G2 T2) as (<- & ? & ? & ?).
    assert (g1 = g2) as -> by (apply (Hu r j); [done|done|lia|lia]).
    apply elem_group_tasks in T1 as (_ & a & b & A1 & -> & ->).
    apply elem_group_tasks in T2 as (_ & a' & b' & A2 & -> & ->).
    pose proof (chunks_disjoint _ _ (j - g2.1) _ _ _ _ Hn A1 A2 ltac:(lia) ltac:(lia)). congruence.
  - apply nodup_concat_map; [done| |].
    + intros [row g] _. by apply nodup_group_tasks.
    + intros [row1 g1] [row2 g2] [[r s] e] G1 G2 T1 T2.
      destruct (Hin _ _ _ _ _ G1 T1) as (-> & ? & ? & ?).
      destruct (Hin _ _ _ _ _ G2 T2) as (-> & ? & ? & ?).
      f_equal. apply (Hu row2 s); [done|done|lia|lia].
Qed.

Lemma concat_map_concat {A B} (f : A → list B) (l : list (list A)) :
  List.concat (map f (List.concat l)) = List.concat (map (λ x, List.concat (map f x)) l).
Proof.
  induction l as [|x l IH]; [done|]. simpl. by rewrite map_app, concat_app, IH.
Qed.

Lemma concat_chunk_rows len n :
  0 < n → List.concat (map (λ '(gs, ge), seq gs (ge - gs)) (chunks len n)) = seq 0 len.
Proof.
  intros Hn. unfold chunks. rewrite map_map.
  assert (∀ k, List.concat (map (λ i, seq (i * n) (Nat.min ((i + 1) * n) len - i * n)) (seq 0 k))
    = seq 0 (Nat.min (k * n) len)) as H.
  { induction k as [|k IH]; [done|]. rewrite seq_S, map_app, concat_app, IH. simpl.
    rewrite app_nil_r. destruct (decide (k * n < len)).
    - rewrite (Nat.min_l (k * n)) by lia.
      replace (Nat.min (n + k * n) len) with (k * n + (Nat.min ((k + 1) * n) len - k * n)) by lia.
      by rewrite seq_app.
    - rewrite !Nat.min_r by lia. replace (len - k * n) with 0 by lia. simpl.
      by rewrite app_nil_r. }
  rewrite H. pose proof (nat_div_ceil_spec len n Hn). by rewrite Nat.min_r by lia.
Qed.

Lemma elem_imap_pair {A} (l : list A) i x : (i, x) ∈ imap pair l ↔ l !! i = Some x.
Proof.
  rewrite list_elem_of_lookup. split.
  - intros (k & Hk). rewrite list_lookup_imap in Hk.
    destruct (l !! k) eqn:E; simpl in Hk; [|done]. by injection Hk as <- <-.
  - intros Hl. exists i. by rewrite list_lookup_imap, Hl.
Qed.

Lemma nodup_imap_pair {A} (l : list A) : NoDup (imap pair l).
Proof.
  apply NoDup_alt. intros i j [k x]. rewrite !list_lookup_imap.
  destruct (l !! i), (l !! j); simpl; congruence.
Qed.

(** Fewer jobs than outputs: whole rows are grouped. *)
Lemma grouped_rows_partition lens cl opj :
  0 < cl → 0 < opj →
  partition lens (List.concat (map (λ '(gs, ge),
    List.concat (map (λ row, group_tasks row cl (0, default 0 (lens !! row)))
      (seq gs (ge - gs)))) (chunks (length lens) opj))).
Proof.
  intros Hcl Hopj.
  assert (List.concat (map (λ '(gs, ge),
      List.concat (map (λ row, group_tasks row cl (0, default 0 (lens !! row)))
        (seq gs (ge - gs)))) (chunks (length lens) opj))
    = List.concat (map (λ '(row, g), group_tasks row cl g)
        (map (λ row, (row, (0, default 0 (lens !! row)))) (seq 0 (length lens))))) as ->.
  { rewrite map_map. rewrite <-(concat_chunk_rows (length lens) opj Hopj).
    rewrite concat_map_concat, map_map. f_equal. apply map_ext. by intros [gs ge]. }
  apply group_tasks_partition; [done|..].
  - rewrite NoDup_ListNoDup. apply NoDup_map_NoDup_ForallPairs; [|apply seq_NoDup].
    intros i j _ _ [= H _]. done.
  - intros row gs ge Hin. apply list_elem_of_In, in_map_iff in Hin as (r & [= -> <- <-] & Hr).
    apply in_seq in Hr. destruct (lookup_lt_is_Some_2 lens row) as [len Hl]; [lia|].
    exists len. rewrite Hl. simpl. split_and!; [done|lia|lia].
  - intros row len j Hl Hj. exists 0, len. split; [|lia].
    apply list_elem_of_In, in_map_iff. exists row. rewrite Hl. split; [done|].
    apply in_seq. apply lookup_lt_Some in Hl. lia.
  - intros row j g g' H1 H2 _ _.
    apply list_elem_of_In, in_map_iff in H1 as (r1 & [= -> <-] & _).
    by apply list_elem_of_In, in_map_iff in H2 as (r2 & [= -> <-] & _).
Qed.

(** More jobs than outputs: every row is cut into groups of its own. *)
Lemma split_rows_partition lens cl (gl : nat → nat) :
  0 < cl → (∀ row, 0 < gl row) →
  partition lens (List.concat (List.concat (map (λ '(row, len),
    map (λ g, group_tasks row cl g) (chunks len (gl row))) (imap pair lens)))).
Proof.
  intros Hcl Hgl.
  set (groups := List.concat (map (λ '(row, len), map (pair row) (chunks len (gl row)))
    (imap pair lens))).
  assert (List.concat (List.concat (map (λ '(row, len),
      map (λ g, group_tasks row cl g) (chunks len (gl row))) (imap pair lens)))
    = List.concat (map (λ '(row, g), group_tasks row cl g) groups)) as ->.
  { unfold groups. rewrite concat_map, map_map. do 2 f_equal. apply map_ext.
    intros [row len]. by rewrite map_map. }
  assert (∀ row g, (row, g) ∈ groups ↔
    ∃ len, lens !! row = Some len ∧ g ∈ chunks len (gl row)) as Hel.
  { intros row g. unfold groups. rewrite elem_concat_map. split.
    - intros ([r len] & Hr%elem_imap_pair & Hg).
      apply list_elem_of_In, in_map_iff in Hg as (g' & [= -> ->] & Hg).
      exists len. by rewrite list_elem_of_In.
    - intros (len & Hl & Hg). exists (row, len). split; [by apply elem_imap_pair|].
      apply list_elem_of_In, in_map. by apply list_elem_of_In. }
  apply group_tasks_partition; [done|..].
  - apply nodup_concat_map; [apply nodup_imap_pair| |].
    + intros [row len] _. rewrite NoDup_ListNoDup.
      apply NoDup_map_NoDup_ForallPairs; [|by apply NoDup_ListNoDup, nodup_chunks].
      intros x y _ _ [= H]. done.
    + intros [r1 l1] [r2 l2] [r g] H1%elem_imap_pair H2%elem_imap_pair G1 G2.
      apply list_elem_of_In, in_map_iff in G1 as (? & [= -> _] & _).
      apply list_elem_of_In, in_map_iff in G2 as (? & [= -> _] & _). congruence.
  - intros row gs ge (len & Hl & Hg)%Hel. exists len.
    apply chunks_bounds in Hg; [|done]. split_and!; [done|lia|lia].
  - intros row len j Hl Hj. destruct (chunks_cover len (gl row) j (Hgl row) Hj)
      as (s & e & Hin & Hj'). exists s, e. split; [|done]. apply Hel. by exists len.
  - intros row j [a b] [a' b'] (len & Hl & Hg)%Hel (len' & Hl' & Hg')%Hel. simpl.
    intros. rewrite Hl in Hl'. injection Hl' as <-.
    by apply (chunks_disjoint len (gl row) j).
Qed.

(** The tasks of [for_each_output_chunk] visit every element of every output
    exactly once. *)
Lemma output_chunk_tasks_partition lens shard_len chunk_len jobs :
  Forall (λ len, len = shard_len) lens →
  partition lens (List.concat (output_chunk_tasks lens shard_len chunk_len jobs)).
Proof.
  intros Hlens. unfold output_chunk_tasks.
  assert (lens = [] ∨ shard_len = 0 → partition lens []) as Hempty.
  { intros Hd. split.
    - intros r s e ?%not_elem_of_nil. done.
    - intros r len j Hl Hj. destruct Hd as [->| ->]; [done|].
      eapply Forall_lookup_1 in Hlens; [|done]. lia.
    - intros r j t t' ?%not_elem_of_nil. done.
    - constructor. }
  case_decide as D1; [by apply Hempty; left|].
  case_decide as D2; [by apply Hempty; right|].
  assert (0 < length lens) as Hoc by (destruct lens; simpl; [done|lia]).
  case_decide as D3.
  - apply grouped_rows_partition; [lia|]. apply nat_div_ceil_pos; lia.
  - set (cl := Nat.min (Nat.max chunk_len 1) shard_len) in *.
    apply (split_rows_partition lens cl (λ row, Nat.min (nat_div_ceil
      (nat_div_ceil shard_len cl) (Nat.max jobs 1 / length lens
        + (if decide (row < Nat.max jobs 1 mod length lens) then 1 else 0)) * cl) shard_len));
      [lia|].
    intros row. assert (1 ≤ Nat.max jobs 1 / length lens) as Hj.
    { apply Nat.div_le_lower_bound; lia. }
    assert (0 < nat_div_ceil shard_len cl) by (apply nat_div_ceil_pos; lia).
    match goal with |- 0 < Nat.min (nat_div_ceil ?a ?b * _) _ =>
      assert (0 < nat_div_ceil a b) by (apply nat_div_ceil_pos; lia) end.
    nia.
Qed.

(** ** Every schedule computes the same outputs *)
Section schedules.
Context {E A : Type}.
Implicit Types g h : nat → nat → A.

(** The outputs whose element [j] of row [r] is [g r j]. *)
Definition rows_of (lens : list nat) g : list (list A) :=
  imap (λ r len, tabulate len (g r)) lens.

Lemma lookup_rows_of lens g r :
  rows_of lens g !! r = (λ len, tabulate len (g r)) <$> (lens !! r).
Proof. unfold rows_of. apply list_lookup_imap. Qed.

Lemma length_rows_of lens g : length (rows_of lens g) = length lens.
Proof. apply length_imap. Qed.

Lemma rows_of_ext lens g h :
  (∀ r len j, lens !! r = Some len → j < len → g r j = h r j) →
  rows_of lens g = rows_of lens h.
Proof.
  intros H. apply list_eq. intros r. rewrite !lookup_rows_of.
  destruct (lens !! r) as [len|] eqn:Hl; [|done]. simpl. f_equal.
  apply tabulate_ext. intros j Hj. by eapply H.
Qed.

Lemma run_task_ok lens g h (process : nat → nat → list A → outcome E (list A)) r s e len :
  lens !! r = Some len → s ≤ e → e ≤ len →
  process r s (tabulate (e - s) (λ j, g r (s + j))) = Ok (tabulate (e - s) (λ j, h r (s + j))) →
  run_task process (r, s, e) (rows_of lens g)
  = Ok (rows_of lens (λ r' j, if decide (covers r' j (r, s, e)) then h r' j else g r' j)).
Proof.
  intros Hl Hs He Hp. unfold run_task.
  rewrite (index_ok _ _ (tabulate len (g r))) by (by rewrite lookup_rows_of, Hl).
  cbn [obind]. unfold update_slice. rewrite slice_tabulate by done. cbn [obind].
  rewrite Hp. cbn [obind]. rewrite splice_tabulate by lia.
  rewrite update_ok by (rewrite length_rows_of; by eapply lookup_lt_Some). f_equal.
  apply list_eq. intros k. rewrite lookup_rows_of.
  destruct (decide (k = r)) as [->|Hne].
  - rewrite list_lookup_insert_eq by (rewrite length_rows_of; by eapply lookup_lt_Some).
    rewrite Hl. simpl. f_equal. apply tabulate_ext. intros j Hj.
    destruct (decide (s ≤ j < s + (e - s))).
    + rewrite decide_True by lia. f_equal. lia.
    + by rewrite decide_False by lia.
  - rewrite list_lookup_insert_ne by done. rewrite lookup_rows_of.
    destruct (lens !! k) as [len'|]; [|done]. simpl. f_equal. apply tabulate_ext.
    intros j Hj. by rewrite decide_False by (intros [? _]; congruence).
Qed.

Lemma for_each_output_chunk_spec lens order g h
    (process : nat → nat → list A → outcome E (list A)) :
  partition lens order →
  (∀ r s e, (r, s, e) ∈ order →
     process r s (tabulate (e - s) (λ j, g r (s + j))) = Ok (tabulate (e - s) (λ j, h r (s + j)))) →
  for_each_output_chunk order process (rows_of lens g) = Ok (rows_of lens h).
Proof.
  intros Hpart Hp. unfold for_each_output_chunk.
  set (after := λ i r j, if decide (Exists (covers r j) (take i order)) then h r j else g r j).
  assert (ensures (for_each order (run_task process) (rows_of lens g))
    (λ out, out = rows_of lens h) (λ _, False)) as H.
  { apply (for_each_post _ _ (λ i out, out = rows_of lens (after i))).
    - apply rows_of_ext. intros. unfold after. rewrite decide_False; [done|].
      rewrite take_0. by intros ?%Exists_nil.
    - intros i [[r s] e] out Ht ->.
      assert ((r, s, e) ∈ order) as Hin by (by eapply list_elem_of_lookup_2).
      destruct (part_bounds _ _ Hpart _ _ _ Hin) as (len & Hl & Hs & He).
      rewrite (run_task_ok lens (after i) h process r s e len Hl Hs He).
      + cbn [ensures]. apply rows_of_ext. intros r' len' j Hl' Hj. unfold after. cbn beta.
        rewrite Nat.add_1_l, (take_S_r order i (r, s, e)) by done.
        destruct (decide (covers r' j (r, s, e))) as [Hc|Hc].
        * rewrite decide_True; [done|]. apply Exists_app. right. by constructor.
        * destruct (decide (Exists (covers r' j) (take i order))) as [Hx|Hx].
          { rewrite decide_True; [done|]. apply Exists_app. by left. }
          rewrite decide_False; [done|]. rewrite Exists_app, Exists_cons, Exists_nil. tauto.
      + rewrite <-(Hp r s e Hin). f_equal. apply tabulate_ext. intros j Hj. unfold after.
        rewrite decide_False; [done|]. intros (t & Ht' & Hc)%Exists_exists.
        assert (t = (r, s, e)) as ->.
        { apply (part_unique _ _ Hpart r (s + j)); [|done|done|simpl; lia].
          apply list_elem_of_In in Ht'. apply list_elem_of_In.
          rewrite <-(take_drop i order). apply in_app_iff. by left. }
        apply list_elem_of_lookup in Ht' as (k & Hk).
        assert (k < i) as Hki.
        { apply lookup_lt_Some in Hk. rewrite length_take in Hk. lia. }
        rewrite lookup_take_lt in Hk by done.
        pose proof (NoDup_lookup _ _ _ _ (part_nodup _ _ Hpart) Hk Ht). lia.
    - intros out ->. apply rows_of_ext. intros r len j Hl Hj. unfold after.
      rewrite take_ge by done. rewrite decide_True; [done|].
      destruct (part_cover _ _ Hpart r len j Hl Hj) as (t & Ht & Hc).
      apply Exists_exists. by exists t. }
  destruct (for_each _ _ _); simpl in H; [by subst|done|done].
Qed.
End schedules.

(** The form the coding loops use. *)
Lemma run_schedule {E A} (n shard_len chunk_len jobs : nat) (g h : nat → nat → A)
    (process : nat → nat → list A → outcome E (list A)) (order : list task)
    (Horder : is_schedule order
       (output_chunk_tasks (replicate n shard_len) shard_len chunk_len jobs))
    (Hprocess : ∀ r s e, r < n → s ≤ e → e ≤ shard_len →
       process r s (tabulate (e - s) (λ j, g r (s + j)))
       = Ok (tabulate (e - s) (λ j, h r (s + j)))) :
  for_each_output_chunk order process (tabulate n (λ r, tabulate shard_len (g r)))
  = Ok (tabulate n (λ r, tabulate shard_len (h r))).
Proof.
  assert (∀ f : nat → nat → A, tabulate n (λ r, tabulate shard_len (f r))
    = rows_of (replicate n shard_len) f) as Hrows.
  { intros f. symmetry. apply eq_tabulate; [by rewrite length_rows_of, length_replicate|].
    intros r Hr. rewrite lookup_rows_of, lookup_replicate_2 by done. done. }
  rewrite !Hrows.
  assert (partition (replicate n shard_len) order) as Hpart.
  { eapply partition_perm; [symmetry; exact Horder|].
    apply output_chunk_tasks_partition. by apply Forall_replicate. }
  apply for_each_output_chunk_spec; [done|].
  intros r s e Hin. destruct (part_bounds _ _ Hpart _ _ _ Hin) as (len & Hl & ? & ?).
  apply lookup_replicate in Hl as [-> Hr]. by apply Hprocess.
Qed.

(** ** Properties *)

(** C34: for a nonempty shard, a positive shard count
    and any policy, environment and machine, the decision has between one and
    [shard_len] elements per chunk and at least one job; it is parallel only
    with at least two jobs, never more than the available parallelism or the
    configured maximum, and only for shards above the policy's threshold. *)
Theorem decide_for_elements_sound self shard_len elem data out avail
    (Hs : (0 < shard_len)%N) (Hmax : (shard_len <= USIZE_MAX)%N)
    (Hd : (0 < data)%N) (Ho : (0 < out)%N) :
  let d := decide_for_elements self shard_len elem data out avail in
  (1 <= chunk_len d <= shard_len)%N ∧ (1 <= jobs d)%N ∧
  (use_parallel d = true →
     (2 <= jobs d <= N.max avail 1)%N ∧
     (max_jobs self ≠ 0 → jobs d <= max_jobs self)%N ∧
     (min_parallel_shard_bytes self <= shard_len * N.max elem 1)%N).
Proof.
  unfold decide_for_elements. cbn [chunk_len jobs use_parallel].
  destruct (N.eqb_spec shard_len 0); [lia|].
  split; [lia|]. unfold decide_policy.
  set (size := saturating_mul shard_len (N.max elem 1)).
  assert (0 < size <= shard_len * N.max elem 1)%N as Hsize.
  { unfold size, saturating_mul, USIZE_MAX in *. nia. }
  destruct (N.eqb_spec size 0), (N.eqb_spec data 0), (N.eqb_spec out 0); try lia.
  cbn [orb]. match goal with |- context [if ?c then mk_decision false _ _ else _] =>
    destruct c eqn:Hc end; cbn [use_parallel jobs]; [split; [lia|done]|].
  apply orb_false_iff in Hc as [Hc1%N.ltb_ge Hc2%N.ltb_ge].
  split; [lia|]. intros _.
  split; [|split; [|lia]].
  - split; [done|]. destruct (N.eqb_spec (max_jobs self) 0); lia.
  - intros Hm. destruct (N.eqb_spec (max_jobs self) 0); lia.
Qed.

Lemma decide_for_elements_sound_witness :
  let d := decide_for_elements (policy_default 1048576) 1000000 1 10 4 8 in
  use_parallel d = true ∧ (2 <= jobs d)%N ∧ (1 <= chunk_len d <= 1000000)%N.
Proof.
  destruct (decide_for_elements_sound (policy_default 1048576) 1000000 1 10 4 8)
    as (H1 & H2 & H3); [vm_compute; reflexivity|vm_compute; discriminate|
      vm_compute; reflexivity|vm_compute; reflexivity|].
  split; [vm_compute; reflexivity|]. split; [|exact H1].
  apply H3. vm_compute. reflexivity.
Defined.

(** [for_each_output_chunk] visits disjoint chunks that
    cover every output.  If the callback turns each chunk of the contents [g]
    into the chunk of the contents [h], then every order in which Rayon may run
    the chunks, for any chunk length and number of jobs, leaves [h] in the
    outputs, without a panic. *)
Theorem schedule_independent {E A} (n shard_len chunk_len jobs : nat) (g h : nat → nat → A)
    (process : nat → nat → list A → outcome E (list A)) (order : list task)
    (Horder : is_schedule order
       (output_chunk_tasks (replicate n shard_len) shard_len chunk_len jobs))
    (Hprocess : ∀ r s e, r < n → s ≤ e → e ≤ shard_len →
       process r s (tabulate (e - s) (λ j, g r (s + j)))
       = Ok (tabulate (e - s) (λ j, h r (s + j)))) :
  for_each_output_chunk order process (tabulate n (λ r, tabulate shard_len (g r)))
  = Ok (tabulate n (λ r, tabulate shard_len (h r))).
Proof. by apply (run_schedule n shard_len chunk_len jobs). Qed.

Lemma schedule_independent_witness :
  let order := [(1, 0, 2); (0, 2, 3); (1, 2, 3); (0, 0, 2)] in
  for_each_output_chunk (E:=Empty_set) order
    (λ row _ chunk, Ok (map (λ x, x + 10 * (row + 1)) chunk))
    (tabulate 2 (λ r, tabulate 3 (λ j, r + j)))
  = Ok (tabulate 2 (λ r, tabulate 3 (λ j, r + j + 10 * (r + 1)))).
Proof.
  apply (schedule_independent 2 3 2 2).
  - unfold is_schedule. apply (bool_decide_eq_true_1 _). vm_compute. reflexivity.
  - intros r s e _ _ _. rewrite map_tabulate. done.
Defined.
