(* ===== verification/Checks.v ===== *)
(** * Argument checks ([src/macros.rs])

    The macros [check_slices!], [check_slice_index!] and [check_piece_count!],
    which open every public operation of the codec. *)

From Stdlib Require Import Lia List Bool.
From stdpp Require Import base numbers list.
From S2P Require Import Prelude Errors.

Section checks.
Context {A : Type}.
Implicit Types (slices : list (list A)) (single : list A).

(** [check_slices!(multi => slices)] *)
Definition check_slices_multi slices : outcome Error unit :=
  let! first := index slices 0 in
  let size := length first in
  if decide (size = 0) then Err EmptyShard else
  for_each slices (λ s _,
    if decide (length s ≠ size) then Err IncorrectShardSize else Ok tt) tt.

(** [check_slices!(single => l, single => r)] *)
Definition check_slices_single_single (l r : list A) : outcome Error unit :=
  if decide (length l ≠ length r) then Err IncorrectShardSize else Ok tt.

(** [check_slices!(multi => slices, single => single)] *)
Definition check_slices_multi_single slices single : outcome Error unit :=
  let! _ := check_slices_multi slices in
  let! first := index slices 0 in
  check_slices_single_single first single.

(** [check_slices!(multi => left, multi => right)] *)
Definition check_slices_multi_multi (left right : list (list A)) : outcome Error unit :=
  let! _ := check_slices_multi left in
  let! _ := check_slices_multi right in
  let! l0 := index left 0 in
  let! r0 := index right 0 in
  check_slices_single_single l0 r0.
End checks.

(** [check_slice_index!] *)
Definition check_slice_index (count i : nat) : outcome Error unit :=
  if decide (count ≤ i) then Err InvalidIndex else Ok tt.

(** [check_piece_count!]: the four variants differ in their errors. *)
Definition check_piece_count (few many : Error) (count pieces : nat) : outcome Error unit :=
  if decide (pieces < count) then Err few else
  if decide (count < pieces) then Err many else Ok tt.
Definition check_piece_count_all := check_piece_count TooFewShards TooManyShards.
Definition check_piece_count_data := check_piece_count TooFewDataShards TooManyDataShards.
Definition check_piece_count_parity := check_piece_count TooFewParityShards TooManyParityShards.
Definition check_piece_count_parity_buf :=
  check_piece_count TooFewBufferShards TooManyBufferShards.

(** ** Lemmas *)
Section check_lemmas.
Context {A : Type}.
Implicit Types (slices : list (list A)).

Definition all_len (len : nat) slices : Prop := Forall (λ s, length s = len) slices.

Lemma check_piece_count_ok few many count : check_piece_count few many count count = Ok tt.
Proof. unfold check_piece_count. by rewrite !decide_False by lia. Qed.

Lemma check_piece_count_inv few many count pieces :
  check_piece_count few many count pieces = Ok tt → pieces = count.
Proof. unfold check_piece_count. repeat case_decide; [done|done|lia]. Qed.

Lemma for_each_check (P : list A → Prop) `{∀ s, Decision (P s)} e slices :
  for_each (E:=Error) slices (λ s _, if decide (¬ P s) then Err e else Ok tt) tt
  = if decide (Forall P slices) then Ok tt else Err e.
Proof.
  induction slices as [|s l IH]; simpl; [done|].
  destruct (decide (¬ P s)) as [Hn|Hn]; simpl.
  - rewrite decide_False; [done|]. by intros [? _]%Forall_cons.
  - apply dec_stable in Hn. rewrite IH.
    destruct (decide (Forall P l)); [rewrite decide_True|rewrite decide_False]; try done.
    + by constructor.
    + by intros [_ ?]%Forall_cons.
Qed.

(** The check of one list of slices, on every input. *)
Lemma check_slices_multi_spec slices :
  check_slices_multi slices =
  match slices with
  | [] => Panic
  | s :: _ =>
      if decide (length s = 0) then Err EmptyShard
      else if decide (all_len (length s) slices) then Ok tt else Err IncorrectShardSize
  end.
Proof.
  unfold check_slices_multi, index. destruct slices as [|s l]; [done|].
  cbn [lookup list_lookup obind]. case_decide; [done|].
  apply (for_each_check (λ x, length x = length s)).
Qed.

Lemma check_slices_multi_ok slices len :
  slices ≠ [] → 0 < len → all_len len slices → check_slices_multi slices = Ok tt.
Proof.
  intros Hne Hl Ha. rewrite check_slices_multi_spec. destruct slices as [|s l]; [done|].
  assert (length s = len) as -> by (by inversion Ha).
  rewrite decide_False by lia. by rewrite decide_True.
Qed.

Lemma check_slices_multi_multi_ok left right len :
  left ≠ [] → right ≠ [] → 0 < len → all_len len left → all_len len right →
  check_slices_multi_multi left right = Ok tt.
Proof.
  intros Hl Hr Hlen Hal Har. unfold check_slices_multi_multi.
  rewrite !(check_slices_multi_ok _ len) by done. cbn [obind].
  destruct left as [|s l]; [done|]. destruct right as [|s' r]; [done|].
  unfold index. cbn [lookup list_lookup obind]. unfold check_slices_single_single.
  inversion Hal. inversion Har. rewrite decide_False by congruence. done.
Qed.

Lemma check_slices_multi_single_ok slices single len :
  slices ≠ [] → 0 < len → all_len len slices → length single = len →
  check_slices_multi_single slices single = Ok tt.
Proof.
  intros Hl Hlen Hal Hs. unfold check_slices_multi_single.
  rewrite (check_slices_multi_ok _ len) by done. cbn [obind].
  destruct slices as [|s l]; [done|]. unfold index. cbn [lookup list_lookup obind].
  unfold check_slices_single_single. inversion Hal. rewrite decide_False by congruence. done.
Qed.

(** Passing the checks means nonempty slices of one length. *)
Lemma check_slices_multi_multi_inv left right :
  check_slices_multi_multi left right = Ok tt →
  ∃ len, 0 < len ∧ all_len len left ∧ all_len len right ∧ left ≠ [] ∧ right ≠ [].
Proof.
  unfold check_slices_multi_multi. rewrite !check_slices_multi_spec.
  destruct left as [|s l]; [done|]. destruct right as [|s' r]; simpl obind at 1.
  { repeat case_decide; done. }
  destruct (decide (length s = 0)); [done|].
  destruct (decide (all_len (length s) (s :: l))); [|done]. cbn [obind].
  destruct (decide (length s' = 0)); [done|].
  destruct (decide (all_len (length s') (s' :: r))); [|done]. cbn [obind].
  unfold index, check_slices_single_single. cbn [lookup list_lookup obind].
  case_decide as Hne; [done|]. intros _. exists (length s).
  split_and!; [lia|done| |done|done]. by rewrite Hne.
Qed.
End check_lemmas.
