(* ===== verification/Codec.v ===== *)
(** * Building a codec ([src/core/codec.rs], [EncodingFormat] of
    [src/core/format.rs], [ReedSolomon] of [src/core/mod.rs])

    The constructors check the shard counts, resolve the codec family, build
    the encoding matrix of the chosen mode and set up the caches.  The theorems
    show that every built-in matrix is systematic and MDS: any [data_shards]
    of its rows are independent, which is what makes every erasure pattern
    within the parity count recoverable.  [split] and [join] convert between a
    payload and data shards. *)

From Stdlib Require Import NArith ZArith Lia List Bool Ring.
From stdpp Require Import base numbers list.
From S2P Require Import Prelude Errors Fields LinAlg Matrix Options Leopard InversionCache.
From S2P Require Import Parallel Checks.

Local Open Scope field_scope.

Definition DATA_DECODE_MATRIX_CACHE_MIN_CAPACITY : N := 128.
Definition DATA_DECODE_MATRIX_CACHE_MAX_CAPACITY : N := 4096.

(** ** The format and the codec *)
Record EncodingFormat (A : Type) := mk_format {
  data_shards : nat;
  parity_shards : nat;
  family : CodecFamily;
  format_matrix : Matrix A;
}.
Arguments mk_format {A} _ _ _ _.
Arguments data_shards {A} _.
Arguments parity_shards {A} _.
Arguments family {A} _.
Arguments format_matrix {A} _.

(** What the process environment and the machine decide: the parallel policies
    resolved at construction, and whether the matrix builder may reuse its
    workspace (feature [experimental-matrix-builder] together with
    [Field::supports_matrix_workspace_reuse]). *)
Class Runtime := {
  resolve_policy_cache_with_options : CodecOptions → RuntimeParallelPolicyCache;
  matrix_workspace_reuse : bool;
}.

(** ** Cache sizing *)
Definition normalize_inversion_cache_max_bytes (requested_bytes : N) : N :=
  if (requested_bytes =? 0)%N then DEFAULT_INVERSION_CACHE_MAX_BYTES else requested_bytes.

Definition derive_inversion_cache_capacity (data_shards parity_shards : N) : N :=
  let total_shards := saturating_add data_shards parity_shards in
  let heuristic := saturating_mul (saturating_mul total_shards (N.max parity_shards 1)) 2 in
  let rounded :=
    default DATA_DECODE_MATRIX_CACHE_MAX_CAPACITY (checked_next_power_of_two heuristic) in
  clamp rounded DATA_DECODE_MATRIX_CACHE_MIN_CAPACITY DATA_DECODE_MATRIX_CACHE_MAX_CAPACITY.

Definition recommended_inversion_cache_capacity (data_shards parity_shards : N) : N :=
  derive_inversion_cache_capacity data_shards parity_shards.

Definition normalize_inversion_cache_capacity (data_shards parity_shards requested : N) : N :=
  if (0 <? requested)%N then requested
  else recommended_inversion_cache_capacity data_shards parity_shards.

Section codec.
Context {F : Field} {RT : Runtime} {St : Storage Elem}
  {L : LruCache (list nat) (CachedMatrix Elem)}.

Record ReedSolomon := mk_rs {
  rs_format : EncodingFormat Elem;
  rs_options : ExecutionOptions;
  rs_policy_cache : RuntimeParallelPolicyCache;
  rs_cache : InversionCache Elem;
}.

(** ** Encoding matrices *)
Definition build_matrix (data_shards total_shards : nat) : outcome Error (Matrix Elem) :=
  let! vandermonde := vandermonde total_shards data_shards in
  if matrix_workspace_reuse
     && (512 <? saturating_mul (N.of_nat data_shards) (N.of_nat data_shards))%N
  then map_err (λ _, InvalidCustomMatrix) (systematic_from_vandermonde vandermonde)
  else
    let! top := sub_matrix vandermonde 0 0 data_shards data_shards in
    let! top_inverted := map_err (λ _, InvalidCustomMatrix) (invert top) in
    map_err (λ _, InvalidCustomMatrix) (multiply vandermonde top_inverted).

Definition build_cauchy_matrix (data_shards total_shards : nat)
  : outcome Error (Matrix Elem) :=
  for_range 0 total_shards (λ r result,
    if decide (r < data_shards) then set result r r 1
    else
      for_range 0 data_shards (λ c result,
        let denominator := nth (N.of_nat r) + nth (N.of_nat c) in
        if decide (denominator = 0) then Err InvalidCustomMatrix
        else set result r c (1 / denominator)) result)
    (matrix_new total_shards data_shards).

(** [while r < total_shards && vm.get(r, i) == 0 { r += 1 }] *)
Fixpoint skip_zero_rows (fuel : nat) (vm : Matrix Elem) (total_shards i r : nat)
  : outcome Error nat :=
  match fuel with
  | O => Panic
  | S fuel =>
      if decide (r < total_shards) then
        let! v := get vm r i in
        if decide (v = 0) then skip_zero_rows fuel vm total_shards i (r + 1)%nat else Ok r
      else Ok r
  end.

(** One column of the Jerasure reduction: the body of its first loop. *)
Definition jerasure_column (data_shards total_shards i : nat) (vm : Matrix Elem)
  : outcome Error (Matrix Elem) :=
  let! r := skip_zero_rows (S total_shards) vm total_shards i i in
  let! vm :=
    if decide (r ≠ i) then swap_rows vm r i
    else
      let! v := get vm i i in
      if decide (v = 0) then Err InvalidCustomMatrix else Ok vm in
  let! diagonal := get vm i i in
  if decide (diagonal = 0) then Err InvalidCustomMatrix else
  let scale := if decide (diagonal ≠ 1) then 1 / diagonal else 1 in
  let! vm :=
    if decide (scale ≠ 1) then
      for_range 0 total_shards (λ row vm,
        let! v := get vm row i in set vm row i (v * scale)) vm
    else Ok vm in
  for_range 0 data_shards (λ j vm,
    let! value := get vm i j in
    if decide (j ≠ i ∧ value ≠ 0) then
      for_range 0 total_shards (λ row vm,
        let! v := get vm row j in
        let! w := get vm row i in
        set vm row j (v + value * w)) vm
    else Ok vm) vm.

(** The Vandermonde matrix with the rows of 0 and infinity put in. *)
Definition jerasure_start (data_shards total_shards : nat) : outcome Error (Matrix Elem) :=
  let! vm := vandermonde total_shards data_shards in
  let! vm := set vm 0 0 1 in
  let! vm := for_range 1 data_shards (λ i vm, set vm 0 i 0) vm in
  let! vm := for_range 0 (data_shards - 1) (λ i vm, set vm (total_shards - 1) i 0) vm in
  set vm (total_shards - 1) (data_shards - 1) 1.

Definition build_jerasure_like_matrix (data_shards total_shards : nat)
  : outcome Error (Matrix Elem) :=
  let! vm := jerasure_start data_shards total_shards in
  let! vm := for_range 0 data_shards (jerasure_column data_shards total_shards) vm in
  let! vm := for_range 0 data_shards (λ j vm,
    let! value := get vm data_shards j in
    if decide (value = 0) then Err InvalidCustomMatrix else
    if decide (value ≠ 1) then
      let scale := 1 / value in
      for_range data_shards total_shards (λ row vm,
        let! v := get vm row j in set vm row j (v * scale)) vm
    else Ok vm) vm in
  for_range (data_shards + 1) total_shards (λ row vm,
    let! value := get vm row 0 in
    if decide (value = 0) then Err InvalidCustomMatrix else
    if decide (value ≠ 1) then
      let scale := 1 / value in
      for_range 0 data_shards (λ col vm,
        let! v := get vm row col in set vm row col (v * scale)) vm
    else Ok vm) vm.

Definition build_custom_matrix (data_shards total_shards : nat)
    (custom_matrix : list (list Elem)) : outcome Error (Matrix Elem) :=
  let parity_shards := (total_shards - data_shards)%nat in
  if decide (length custom_matrix < parity_shards) then Err InvalidCustomMatrix else
  if existsb (λ row, length row <? data_shards)%nat (take parity_shards custom_matrix)
  then Err InvalidCustomMatrix else
  let! result := for_range 0 data_shards (λ row result, set result row row 1)
    (matrix_new total_shards data_shards) in
  for_each (imap pair (take parity_shards custom_matrix)) (λ '(offset, row) result,
    for_each (imap pair (take data_shards row)) (λ '(col, value) result,
      set result (data_shards + offset)%nat col value) result) result.

Definition build_matrix_with_options (data_shards total_shards : nat)
    (options : CodecOptions) : outcome Error (Matrix Elem) :=
  if decide (codec_family options ≠ Classic) then Err UnsupportedCodecFamily else
  if fast_one_parity options && bool_decide (total_shards = data_shards + 1)%nat
     && bool_decide (matrix_mode options ≠ Custom)
  then
    for_range 0 data_shards (λ col matrix,
      let! matrix := set matrix col col 1 in
      set matrix data_shards col 1) (matrix_new total_shards data_shards)
  else
    match matrix_mode options with
    | Vandermonde => build_matrix data_shards total_shards
    | Cauchy => build_cauchy_matrix data_shards total_shards
    | JerasureLike => build_jerasure_like_matrix data_shards total_shards
    | Custom => Err InvalidCustomMatrix
    end.

(** ** Constructors *)
Definition set_codec_sizes (o : CodecOptions) (fam : CodecFamily) (mode : MatrixMode)
    (capacity max : N) : CodecOptions :=
  mk_options (fast_one_parity o) (inversion_cache o) capacity max fam (leopard_mode o)
    mode (max_parallel_jobs o).

(** The common tail of the constructors. *)
Definition make_codec (data_shards parity_shards : nat) (options : CodecOptions)
    (matrix : Matrix Elem) : ReedSolomon :=
  mk_rs (mk_format data_shards parity_shards (codec_family options) matrix)
    (execution_options options)
    (resolve_policy_cache_with_options options)
    (cache_new (inversion_cache_capacity options) (inversion_cache_max_bytes options)).

Definition with_options (data_shards parity_shards : nat) (options : CodecOptions)
  : outcome Error ReedSolomon :=
  if decide (data_shards = 0%nat) then Err TooFewDataShards else
  if decide (parity_shards = 0%nat) then Err TooFewParityShards else
  let d := N.of_nat data_shards in
  let p := N.of_nat parity_shards in
  let! total := ok_or (checked_add d p) TooManyShards in
  let fam := resolve_codec_family (codec_family options) (leopard_mode options)
    is_byte_field total p in
  if (max_total_shards_for_family fam <? total)%N then Err TooManyShards else
  let! _ := validate_leopard_family fam d p in
  let options := set_codec_sizes options fam (matrix_mode options)
    (normalize_inversion_cache_capacity d p (inversion_cache_capacity options))
    (normalize_inversion_cache_max_bytes (inversion_cache_max_bytes options)) in
  let! matrix :=
    match codec_family options with
    | Classic =>
        build_matrix_with_options data_shards (data_shards + parity_shards) options
    | LeopardGF8 | LeopardGF16 => Ok (matrix_new 0 0)
    end in
  Ok (make_codec data_shards parity_shards options matrix).

Definition new (data_shards parity_shards : nat) : outcome Error ReedSolomon :=
  with_options data_shards parity_shards options_default.

Definition with_custom_matrix (data_shards parity_shards : nat)
    (custom_matrix : list (list Elem)) (options : CodecOptions)
    : outcome Error ReedSolomon :=
  if decide (data_shards = 0%nat) then Err TooFewDataShards else
  if decide (parity_shards = 0%nat) then Err TooFewParityShards else
  let d := N.of_nat data_shards in
  let p := N.of_nat parity_shards in
  let! total := ok_or (checked_add d p) TooManyShards in
  if (ORDER <? total)%N then Err TooManyShards else
  if decide (codec_family options ≠ Classic) then Err UnsupportedCodecFamily else
  let options := set_codec_sizes options (codec_family options) Custom
    (normalize_inversion_cache_capacity d p (inversion_cache_capacity options))
    (normalize_inversion_cache_max_bytes (inversion_cache_max_bytes options)) in
  let! matrix := build_custom_matrix data_shards (data_shards + parity_shards)
    custom_matrix in
  if fast_one_parity options && bool_decide (parity_shards = 1%nat) then
    let! row := get_row matrix data_shards in
    if existsb (λ value, bool_decide (value ≠ 1)) row then Err InvalidCustomMatrix
    else Ok (make_codec data_shards parity_shards options matrix)
  else Ok (make_codec data_shards parity_shards options matrix).

(** ** Accessors *)
Definition data_shard_count (self : ReedSolomon) : nat := data_shards (rs_format self).
Definition parity_shard_count (self : ReedSolomon) : nat := parity_shards (rs_format self).
Definition total_shard_count (self : ReedSolomon) : nat :=
  (data_shards (rs_format self) + parity_shards (rs_format self))%nat.
Definition rs_codec_family (self : ReedSolomon) : CodecFamily := family (rs_format self).
Definition is_leopard_gf8_family (self : ReedSolomon) : bool :=
  bool_decide (rs_codec_family self = LeopardGF8).
Definition is_leopard_gf16_family (self : ReedSolomon) : bool :=
  bool_decide (rs_codec_family self = LeopardGF16).
Definition is_leopard_family (self : ReedSolomon) : bool :=
  is_leopard_gf8_family self || is_leopard_gf16_family self.
Definition leopard_setup_matrix_shape (self : ReedSolomon) : option (nat * nat) :=
  if is_leopard_gf8_family self
  then Some (total_shard_count self, data_shard_count self) else None.
Definition reconstruction_cache_memory (self : ReedSolomon) : ReconstructionCacheMemory :=
  cache_memory (rs_cache self).
Definition get_parity_rows {E} (self : ReedSolomon) : outcome E MatrixRowRange :=
  row_range (format_matrix (rs_format self)) (data_shard_count self)
    (total_shard_count self).

(** [impl Clone]: the clone starts with an empty cache. *)
Definition rs_clone (self : ReedSolomon) : ReedSolomon :=
  mk_rs (rs_format self) (rs_options self) (rs_policy_cache self)
    (cache_new (exec_inversion_cache_capacity (rs_options self))
       (exec_inversion_cache_max_bytes (rs_options self))).

(** ** Payloads *)
Definition split {E} (self : ReedSolomon) (data : list Elem)
  : outcome E (list (list Elem)) :=
  let data_shards := data_shard_count self in
  let shard_len :=
    if is_leopard_family self
    then N.to_nat (leopard_aligned_shard_len (N.of_nat (length data)) (N.of_nat data_shards))
    else nat_div_ceil (length data) data_shards in
  for_range 0 data_shards (λ i shards,
    let start := (i * shard_len)%nat in
    let end_ := Nat.min (start + shard_len) (length data) in
    let shard := replicate shard_len 0 in
    let! shard :=
      if decide (start < length data) then
        update_slice shard 0 (end_ - start) (λ _, slice data start end_)
      else Ok shard in
    Ok (shards ++ [shard])) [].

Definition join (self : ReedSolomon) (shards : list (list Elem)) (out_len : nat)
  : outcome Error (list Elem) :=
  let! _ := check_piece_count_data (data_shard_count self) (length shards) in
  let! _ := check_slices_multi shards in
  let! first := index shards 0 in
  let available := N.to_nat (saturating_mul (N.of_nat (length first))
    (N.of_nat (length shards))) in
  let target_len := Nat.min out_len available in
  let! result := for_each_break shards (λ shard result,
    let remaining := (target_len - length result)%nat in
    if decide (remaining = 0%nat) then Ok (result, true)
    else
      let to_take := Nat.min remaining (length shard) in
      Ok (result ++ take to_take shard, false)) [] in
  Ok (take target_len result).
End codec.

(** ** Encoding matrices are systematic and MDS *)
Section matrices.
Context {F : Field} {FL : FieldLaws F} {RT : Runtime}.
Add Ring elem_ring : field_ring_theory (morphism field_ring_morph, constants [field_const]).

(** The matrix of a codec that recovers every pattern of at most
    [t - d] erasures. *)
Definition mds_matrix (d t : nat) (m : Matrix Elem) : Prop :=
  ∃ M, rep m t d M ∧ systematic d M ∧ mds d t M.

Lemma nth_nat_inj t i j :
  (N.of_nat t <= ORDER)%N → i < t → j < t → nth (N.of_nat i) = nth (N.of_nat j) → i = j.
Proof. intros Ht Hi Hj E. apply nth_inj in E; lia. Qed.

Lemma vandermonde_matrix_mds d t :
  (N.of_nat t <= ORDER)%N → d ≤ t →
  mds d t (λ r c, exp (nth (N.of_nat r)) (N.of_nat c)).
Proof.
  intros Ht Hd.
  apply (mds_ext _ _ (λ r c, fpow (nth (N.of_nat r)) (N.of_nat c))).
  - intros. by rewrite exp_fpow.
  - apply (vandermonde_mds d t (λ r, nth (N.of_nat r))); [|done].
    intros i j. by apply nth_nat_inj.
Qed.

(** Both construction paths of [build_matrix] multiply the Vandermonde matrix
    by the inverse of its top square. *)
Lemma build_matrix_ensures d t :
  (N.of_nat t <= ORDER)%N → d ≤ t →
  ensures (build_matrix d t)
    (λ m, ∃ X, inverse_of d (λ r c, exp (nth (N.of_nat r)) (N.of_nat c)) X ∧
       rep m t d (mmul d (λ r c, exp (nth (N.of_nat r)) (N.of_nat c)) X)) (λ _, False).
Proof.
  intros Ht Hd. set (V := λ r c : nat, exp (nth (N.of_nat r)) (N.of_nat c)).
  assert (nonsingular d d V) as HV.
  { apply (vandermonde_matrix_mds d t Ht Hd (λ i, i)). split; [intros; lia|done]. }
  unfold build_matrix. eapply ensures_bind_safe; [apply vandermonde_spec|].
  intros v Hv. fold V in Hv. destruct (_ && _).
  - pose proof (systematic_ensures v t d V Hv Hd) as H.
    destruct (systematic_from_vandermonde v); simpl in *; [done|by destruct H as [_ []]|done].
  - eapply ensures_bind_safe; [apply (sub_matrix_spec v t d V 0 0 d d Hv); lia|].
    intros top Htop. rewrite !Nat.sub_0_r in Htop.
    destruct (invert_nonsingular top d V) as (inv & X & Hi & Hrep & HX); [done..|].
    rewrite Hi. simpl. pose proof (multiply_spec v inv t d d V X Hv Hrep) as H.
    destruct (multiply v inv); simpl in *; [|done|done]. by exists X.
Qed.

Lemma build_matrix_mds d t :
  (N.of_nat t <= ORDER)%N → d ≤ t →
  ensures (build_matrix d t) (mds_matrix d t) (λ _, False).
Proof.
  intros Ht Hd. eapply ensures_weaken; [by apply build_matrix_ensures|].
  intros m (X & HX & Hrep). eexists. split_and!; [exact Hrep| |].
  - intros i j Hi Hj. by apply HX.
  - apply mds_mmul; [by apply vandermonde_matrix_mds|].
    by eapply inverse_nonsingular, inverse_of_sym.
Qed.

Lemma build_cauchy_matrix_ensures d t :
  (N.of_nat t <= ORDER)%N → d ≤ t →
  ensures (build_cauchy_matrix d t)
    (λ m, rep m t d (cauchy_matrix d (λ r, nth (N.of_nat r)))) (λ _, False).
Proof.
  intros Ht Hd. set (C := cauchy_matrix d (λ r, nth (N.of_nat r))).
  apply (for_range_post _ _ _ (λ k m, rep m t d (λ r c, if decide (r < k) then C r c else 0))).
  - lia.
  - eapply rep_ext; [apply rep_new|]. intros. by rewrite decide_False by lia.
  - intros r m Hr Hm. case_decide as Hrd.
    + destruct (set_acc_ok (E:=Error) m t d _ Hm r r 1) as (m' & HE & Hm'); [lia..|].
      unfold set. rewrite HE. simpl. eapply rep_ext; [apply Hm'|].
      intros r' c Hr' Hc. cbn. unfold C, cauchy_matrix, delta.
      repeat case_decide; subst; try done; lia.
    + apply (for_range_post _ _ _ (λ k m, rep m t d (λ r' c,
        if decide (r' < r ∨ r' = r ∧ c < k) then C r' c else 0))).
      * lia.
      * eapply rep_ext; [apply Hm|]. intros. cbn. repeat case_decide; try done; lia.
      * intros c m1 Hc Hm1. cbv zeta. case_decide as Hden.
        { apply add_cancel, (nth_nat_inj t) in Hden; lia. }
        destruct (set_acc_ok (E:=Error) m1 t d _ Hm1 r c
          (1 / (nth (N.of_nat r) + nth (N.of_nat c)))) as (m' & HE & Hm'); [lia..|].
        unfold set. rewrite HE. simpl. eapply rep_ext; [apply Hm'|].
        intros r' c' Hr' Hc'. cbn.
        repeat case_decide; subst; try done; try lia.
        destruct H as [-> ->]. unfold C, cauchy_matrix. by rewrite decide_False.
      * intros m1 Hm1. eapply rep_ext; [apply Hm1|]. intros. cbn.
        repeat case_decide; try done; lia.
  - intros m Hm. eapply rep_ext; [apply Hm|]. intros. cbn. by rewrite decide_True.
Qed.

Lemma build_cauchy_matrix_mds d t :
  (N.of_nat t <= ORDER)%N → d ≤ t →
  ensures (build_cauchy_matrix d t) (mds_matrix d t) (λ _, False).
Proof.
  intros Ht Hd. eapply ensures_weaken; [by apply build_cauchy_matrix_ensures|].
  intros m Hm. eexists. split_and!; [exact Hm| |].
  - intros i j Hi Hj. unfold cauchy_matrix. by rewrite decide_True.
  - apply cauchy_mds; [|done]. intros i j. by apply nth_nat_inj.
Qed.

(** Loops that rewrite one column, row by row. *)
Lemma column_loop {E} t d lo hi j (w : nat → Elem) (body : nat → Matrix Elem → outcome E (Matrix Elem)) m f :
  rep m t d f → lo ≤ hi → hi ≤ t → j < d →
  (∀ row m g, lo ≤ row → row < hi → rep m t d g → (∀ c, c < d → g row c = f row c) →
     body row m = set m row j (w row)) →
  ensures (for_range lo hi body m)
    (λ m', rep m' t d (λ r c, if decide (lo ≤ r < hi ∧ c = j) then w r else f r c))
    (λ _, False).
Proof.
  intros Hm Hlo Hhi Hj Hbody.
  apply (for_range_post _ _ _ (λ k m', rep m' t d (λ r c,
    if decide (lo ≤ r < k ∧ c = j) then w r else f r c))); [done| | |done].
  - eapply rep_ext; [apply Hm|]. intros. by rewrite decide_False by lia.
  - intros i m' Hi Hm'. rewrite (Hbody i m' _ ltac:(lia) ltac:(lia) Hm').
    2:{ intros c Hc. cbn. by rewrite decide_False by lia. }
    destruct (set_acc_ok (E:=E) m' t d _ Hm' i j (w i)) as (m2 & HE & Hm2); [lia..|].
    unfold set. rewrite HE. simpl. eapply rep_ext; [apply Hm2|].
    intros r c Hr Hc. cbn. repeat case_decide; try done; try lia.
    by destruct H as [-> _].
Qed.

Lemma row_loop {E} t d lo hi r (w : nat → Elem)
    (body : nat → Matrix Elem → outcome E (Matrix Elem)) m f :
  rep m t d f → lo ≤ hi → hi ≤ d → r < t →
  (∀ c m g, lo ≤ c → c < hi → rep m t d g → g r c = f r c →
     body c m = set m r c (w c)) →
  ensures (for_range lo hi body m)
    (λ m', rep m' t d (λ r' c, if decide (r' = r ∧ lo ≤ c < hi) then w c else f r' c))
    (λ _, False).
Proof.
  intros Hm Hlo Hhi Hr Hbody.
  apply (for_range_post _ _ _ (λ k m', rep m' t d (λ r' c,
    if decide (r' = r ∧ lo ≤ c < k) then w c else f r' c))); [done| | |done].
  - eapply rep_ext; [apply Hm|]. intros. by rewrite decide_False by lia.
  - intros i m' Hi Hm'. rewrite (Hbody i m' _ ltac:(lia) ltac:(lia) Hm').
    2:{ cbn. by rewrite decide_False by lia. }
    destruct (set_acc_ok (E:=E) m' t d _ Hm' r i (w i)) as (m2 & HE & Hm2); [lia..|].
    unfold set. rewrite HE. simpl. eapply rep_ext; [apply Hm2|].
    intros r' c Hr' Hc. cbn. repeat case_decide; try done; try lia.
    by destruct H as [_ ->].
Qed.

Lemma jerasure_start_ensures d t :
  0 < d → d < t →
  ensures (jerasure_start d t)
    (λ m, rep m t d (extended_vandermonde d t (λ r, nth (N.of_nat r)))) (λ _, False).
Proof.
  intros Hd Ht. unfold jerasure_start.
  eapply ensures_bind_safe; [apply vandermonde_spec|]. intros m0 H0.
  destruct (set_acc_ok (E:=Error) m0 t d _ H0 0 0 1) as (m1 & E1 & H1); [lia..|].
  unfold set at 1. rewrite E1. cbn [obind].
  eapply ensures_bind_safe; [apply (row_loop t d 1 d 0 (λ _, 0) _ m1 _ H1); [lia..|done]|].
  intros m2 H2.
  eapply ensures_bind_safe; [apply (row_loop t d 0 (d - 1) (t - 1) (λ _, 0) _ m2 _ H2); [lia..|done]|].
  intros m3 H3.
  destruct (set_acc_ok (E:=Error) m3 t d _ H3 (t - 1) (d - 1) 1) as (m4 & E4 & H4); [lia..|].
  unfold set. rewrite E4. simpl. eapply rep_ext; [apply H4|].
  intros r c Hr Hc. cbn. unfold extended_vandermonde, delta. rewrite exp_fpow.
  repeat case_decide; subst; try done; lia.
Qed.

Lemma skip_zero_rows_ensures fuel m t d f i r r0 :
  rep m t d f → i < d → r ≤ r0 → r0 < t → f r0 i ≠ 0 → t - r < fuel →
  ensures (skip_zero_rows fuel m t i r) (λ r', r ≤ r' ∧ r' < t ∧ f r' i ≠ 0) (λ _, False).
Proof.
  intros Hm Hi. revert r. induction fuel as [|fuel IH]; intros r Hr Hr0 Hne Hf; [lia|].
  simpl. rewrite decide_True by lia. unfold get.
  rewrite (acc_ok _ _ _ _ Hm) by lia. cbn [obind]. case_decide as Hz.
  - destruct (decide (r = r0)) as [->|]; [done|].
    eapply ensures_weaken; [apply IH; [lia..|done|lia]|]. cbn. intros r' (?&?&?). split_and!; [lia|done|done].
  - simpl. split_and!; [lia|lia|done].
Qed.

(** The invariant of the Jerasure reduction after [i] columns. *)
Definition reduced_cols (d t i : nat) (m : Matrix Elem) : Prop :=
  ∃ f, rep m t d f ∧ mds d t f ∧ ∀ r c, r < i → c < d → f r c = delta r c.

Lemma jerasure_clear_row d t i m f :
  i < d → d < t → rep m t d f → mds d t f → f i i = 1 →
  (∀ r c, r < i → c < d → f r c = delta r c) →
  ensures (for_range (E:=Error) 0 d (λ j vm,
    let! value := get vm i j in
    if decide (j ≠ i ∧ value ≠ 0) then
      for_range 0 t (λ row vm,
        let! v := get vm row j in
        let! w := get vm row i in
        set vm row j (v + value * w)) vm
    else Ok vm) m) (reduced_cols d t (S i)) (λ _, False).
Proof.
  intros Hi Ht Hm Hmds H1 Hunit.
  apply (for_range_post _ _ _ (λ k m', ∃ g, rep m' t d g ∧ mds d t g ∧ g i i = 1 ∧
    (∀ r c, r < i → c < d → g r c = delta r c) ∧ ∀ c, c < k → c ≠ i → g i c = 0)).
  - lia.
  - exists f. split_and!; [done..|]. intros; lia.
  - intros j m' Hj (g & Hg & Hgm & Hg1 & Hgu & Hgz). unfold get at 1.
    rewrite (acc_ok _ _ _ _ Hg) by lia. cbn [obind].
    destruct (decide (j ≠ i ∧ g i j ≠ 0)) as [[Hji Hv]|Hno].
    + eapply ensures_weaken; [apply (column_loop t d 0 t j (λ row, g row j + g i j * g row i)
        _ m' g Hg); [lia..|]|].
      * intros row m1 h Hrow1 Hrow2 Hh Hsame. unfold get.
        rewrite !(acc_ok _ _ _ _ Hh) by lia. cbn [obind]. by rewrite !Hsame by lia.
      * intros m2 Hm2. exists (λ r c, if decide (c = j) then g r c + g i j * g r i else g r c).
        split_and!.
        -- eapply rep_ext; [apply Hm2|]. intros r c Hr Hc. cbn.
           repeat case_decide; subst; try done; lia.
        -- apply mds_add_col; [done|done|lia|done].
        -- by rewrite decide_False.
        -- intros r c Hr Hc. case_decide; [|by apply Hgu]. subst c.
           rewrite (Hgu r j), (Hgu r i) by lia. unfold delta.
           rewrite (decide_False (P:=r = i)) by lia. ring.
        -- intros c Hc Hci. case_decide; [subst; rewrite Hg1; ring|]. apply Hgz; [lia|done].
    + simpl. exists g. split_and!; [done..|]. intros c Hc Hci.
      destruct (decide (c = j)) as [->|]; [|apply Hgz; [lia|done]].
      destruct (decide (g i j = 0)); [done|]. by destruct Hno.
  - intros m' (g & Hg & Hgm & Hg1 & Hgu & Hgz). exists g. split_and!; [done..|].
    intros r c Hr Hc. destruct (decide (r = i)) as [->|]; [|apply Hgu; lia].
    unfold delta. case_decide; [by subst|]. apply Hgz; [done|congruence].
Qed.

Lemma jerasure_column_ensures d t i m :
  i < d → d < t → reduced_cols d t i m →
  ensures (jerasure_column d t i m) (reduced_cols d t (S i)) (λ _, False).
Proof.
  intros Hi Ht (f & Hm & Hmds & Hunit). unfold jerasure_column.
  destruct (mds_pivot d t f i Hmds ltac:(lia) Hi Hunit) as (r0 & H0 & H0' & Hne).
  eapply ensures_bind_safe;
    [apply (skip_zero_rows_ensures (S t) m t d f i i r0 Hm); [lia..|done|lia]|].
  intros r (Hr1 & Hr2 & Hr3). cbn beta.
  eapply (ensures_bind_safe _ _ (λ m', ∃ g, rep m' t d g ∧ mds d t g ∧ g i i ≠ 0 ∧
    ∀ r c, r < i → c < d → g r c = delta r c)).
  { case_decide as Hri.
    - eapply ensures_weaken; [apply (swap_rows_ok m t d f r i Hm); lia|].
      intros m' Hm'. eexists. split_and!; [exact Hm'|apply mds_swap_rows; [lia|lia|done]|..].
      + unfold swap_row. rewrite (decide_False (P:=i = r)) by congruence.
        by rewrite decide_True.
      + intros r' c Hr' Hc. unfold swap_row. rewrite !decide_False by lia. by apply Hunit.
    - unfold get. rewrite (acc_ok _ _ _ _ Hm) by lia. cbn [obind]. subst r.
      rewrite decide_False by done. exists f. split_and!; done. }
  intros m1 (g & Hg & Hgm & Hgi & Hgu). unfold get at 1.
  rewrite (acc_ok _ _ _ _ Hg) by lia. cbn [obind]. rewrite decide_False by done.
  set (scale := if decide (g i i ≠ 1) then 1 / g i i else 1).
  assert (g i i * scale = 1) as Hsc.
  { unfold scale. case_decide as Hd; [by apply mul_div_cancel|]. rewrite Hd. ring. }
  eapply (ensures_bind_safe _ _ (λ m', rep m' t d
    (λ r c, if decide (c = i) then g r c * scale else g r c))).
  { case_decide as Hs.
    - eapply ensures_weaken; [apply (column_loop t d 0 t i (λ row, g row i * scale)
        _ m1 g Hg); [lia..|]|].
      + intros row m2 h ?? Hh Hsame. unfold get. rewrite (acc_ok _ _ _ _ Hh) by lia.
        cbn [obind]. by rewrite Hsame by lia.
      + intros m2 Hm2. eapply rep_ext; [apply Hm2|]. intros r' c Hr' Hc. cbn.
        repeat case_decide; subst; try done; lia.
    - simpl. eapply rep_ext; [exact Hg|]. intros r' c _ _. rewrite Hs.
      case_decide; [ring|done]. }
  intros m2 Hm2. apply (jerasure_clear_row d t i m2 _ Hi Ht Hm2).
  - apply mds_scale_col; [|done|done]. intros Hz. rewrite Hz in Hsc.
    apply one_neq_zero. rewrite <-Hsc. ring.
  - by rewrite decide_True.
  - intros r' c Hr' Hc. case_decide; [|by apply Hgu]. subst c.
    rewrite Hgu by lia. unfold delta. rewrite decide_False by lia. ring.
Qed.

Lemma mds_scale_parity_col d t M j s :
  s ≠ 0 → j < d → systematic d M → mds d t M →
  mds d t (λ r c, if decide (d ≤ r ∧ c = j) then M r c * s else M r c).
Proof.
  intros Hs Hj Hsys HM.
  apply (mds_ext _ _ (λ r c, (if decide (r = j) then 1 / s else 1) *
    (if decide (c = j) then M r c * s else M r c))).
  - intros r c Hr Hc. destruct (decide (d ≤ r)) as [Hd|Hd].
    + rewrite (decide_False (P:=r = j)) by lia. repeat case_decide; try lia; ring.
    + rewrite (decide_False (P:=d ≤ r ∧ c = j)) by lia. rewrite !Hsys by lia.
      unfold delta. repeat case_decide; subst; try done; try lia; try ring.
      transitivity (1 / s * s); [ring|by apply div_mul].
  - apply mds_scale_rows; [|by apply mds_scale_col].
    intros r _. case_decide; [by apply recip_neq_0|apply one_neq_zero].
Qed.

Lemma parity_cols_ensures d t m :
  d < t → reduced_cols d t d m →
  ensures (for_range 0 d (λ j vm,
    let! value := get vm d j in
    if decide (value = 0) then Err InvalidCustomMatrix else
    if decide (value ≠ 1) then
      let scale := 1 / value in
      for_range d t (λ row vm,
        let! v := get vm row j in set vm row j (v * scale)) vm
    else Ok vm) m) (reduced_cols d t d) (λ _, False).
Proof.
  intros Ht Hm. apply (for_range_post _ _ _ (λ _ m', reduced_cols d t d m'));
    [lia|done| |done].
  clear m Hm. intros j m Hj (f & Hm & Hmds & Hunit). unfold get at 1.
  rewrite (acc_ok _ _ _ _ Hm) by lia. cbn [obind].
  assert (f d j ≠ 0) as Hne by (apply (mds_entry d t); [done|done|lia..]).
  rewrite decide_False by done. case_decide as H1; [|by exists f].
  eapply ensures_weaken; [apply (column_loop t d d t j (λ row, f row j * (1 / f d j))
    _ m f Hm); [lia..|]|].
  - intros row m2 h ?? Hh Hsame. unfold get. rewrite (acc_ok _ _ _ _ Hh) by lia.
    cbn [obind]. by rewrite Hsame by lia.
  - intros m2 Hm2. exists (λ r c, if decide (d ≤ r ∧ c = j) then f r c * (1 / f d j) else f r c).
    split_and!.
    + eapply rep_ext; [apply Hm2|]. intros r c Hr Hc. cbn.
      repeat case_decide; try done; try lia. by destruct H as [_ ->].
    + apply mds_scale_parity_col; [by apply recip_neq_0|lia|done|done].
    + intros r c Hr Hc. rewrite decide_False by lia. by apply Hunit.
Qed.

Lemma parity_rows_ensures d t m :
  0 < d → d < t → reduced_cols d t d m →
  ensures (for_range (d + 1) t (λ row vm,
    let! value := get vm row 0 in
    if decide (value = 0) then Err InvalidCustomMatrix else
    if decide (value ≠ 1) then
      let scale := 1 / value in
      for_range 0 d (λ col vm,
        let! v := get vm row col in set vm row col (v * scale)) vm
    else Ok vm) m) (reduced_cols d t d) (λ _, False).
Proof.
  intros Hd Ht Hm. apply (for_range_post _ _ _ (λ _ m', reduced_cols d t d m'));
    [lia|done| |done].
  clear m Hm. intros row m Hrow (f & Hm & Hmds & Hunit). unfold get at 1.
  rewrite (acc_ok _ _ _ _ Hm) by lia. cbn [obind].
  assert (f row 0%nat ≠ 0) as Hne by (apply (mds_entry d t); [done|done|lia..]).
  rewrite decide_False by done. case_decide as H1; [|by exists f].
  eapply ensures_weaken; [apply (row_loop t d 0 d row (λ c, f row c * (1 / f row 0%nat))
    _ m f Hm); [lia..|]|].
  - intros c m2 h ?? Hh Hsame. unfold get. rewrite (acc_ok _ _ _ _ Hh) by lia.
    cbn [obind]. by rewrite Hsame.
  - intros m2 Hm2.
    exists (λ r c, (if decide (r = row) then 1 / f row 0%nat else 1) * f r c).
    split_and!.
    + eapply rep_ext; [apply Hm2|]. intros r c Hr Hc. cbn.
      destruct (decide (r = row)) as [->|].
      * rewrite decide_True by lia. ring.
      * rewrite decide_False by lia. ring.
    + apply mds_scale_rows; [|done]. intros r _.
      case_decide; [by apply recip_neq_0|apply one_neq_zero].
    + intros r c Hr Hc. rewrite decide_False by lia. rewrite Hunit by done. ring.
Qed.

Lemma build_jerasure_like_matrix_mds d t :
  nth_internal 0 = 0 → (N.of_nat t <= ORDER)%N → 0 < d → d < t →
  ensures (build_jerasure_like_matrix d t) (mds_matrix d t) (λ _, False).
Proof.
  intros H0 Ht Hd Hdt. unfold build_jerasure_like_matrix.
  eapply ensures_bind_safe; [by apply jerasure_start_ensures|]. intros m0 Hm0.
  eapply ensures_bind_safe.
  { apply (for_range_ensures 0 d (jerasure_column d t) (reduced_cols d t) (λ _, False) m0).
    - lia.
    - eexists. split_and!; [exact Hm0| |intros; lia].
      apply extended_vandermonde_mds; [done|done| |intros i j; by apply nth_nat_inj].
      rewrite nth_in_range by lia. done.
    - intros i m1 Hi Hm1. apply jerasure_column_ensures; [lia|done|done]. }
  intros m1 Hm1. eapply ensures_bind_safe; [by apply parity_cols_ensures|].
  intros m2 Hm2. eapply ensures_weaken; [by apply parity_rows_ensures|].
  intros m3 (f & Hf & Hfm & Hu). exists f. split_and!; [done| |done].
  intros i j. apply Hu.
Qed.

(** The all-ones row of the single-parity fast mode. *)
Lemma ones_loop_ensures d :
  ensures (for_range (E:=Error) 0 d (λ col matrix,
    let! matrix := set matrix col col 1 in
    set matrix d col 1) (matrix_new (d + 1) d))
    (λ m, rep m (d + 1) d (ones_matrix d)) (λ _, False).
Proof.
  apply (for_range_post _ _ _ (λ k m, rep m (d + 1) d (λ r c,
    if decide (c < k) then ones_matrix d r c else 0))).
  - lia.
  - eapply rep_ext; [apply rep_new|]. intros. by rewrite decide_False by lia.
  - intros i m Hi Hm.
    destruct (set_acc_ok (E:=Error) m _ _ _ Hm i i 1) as (m1 & E1 & H1); [lia..|].
    unfold set. rewrite E1. cbn [obind].
    destruct (set_acc_ok (E:=Error) m1 _ _ _ H1 d i 1) as (m2 & E2 & H2); [lia..|].
    rewrite E2. simpl. eapply rep_ext; [apply H2|].
    intros r c Hr Hc. cbn. unfold ones_matrix, delta.
    repeat case_decide; subst; try done; try lia.
  - intros m Hm. eapply rep_ext; [apply Hm|]. intros. cbn. by rewrite decide_True.
Qed.

(** What the constructor relies on: the mode is a built-in one, and the
    Jerasure-like mode needs the zero element as element number 0. *)
Definition builtin_mode (mode : MatrixMode) : Prop :=
  mode ≠ Custom ∧ (mode = JerasureLike → nth_internal 0 = 0).

Lemma build_matrix_with_options_mds d t options :
  codec_family options = Classic → builtin_mode (matrix_mode options) →
  (N.of_nat t <= ORDER)%N → 0 < d → d < t →
  ensures (build_matrix_with_options d t options)
    (λ m, ∃ M, rep m t d M ∧ systematic d M ∧ mds d t M ∧
       (fast_one_parity options = true → t = (d + 1)%nat → ∀ c, c < d → M d c = 1))
    (λ _, False).
Proof.
  intros Hfam [Hmode Hj] Ht Hd Hdt. unfold build_matrix_with_options.
  rewrite decide_False by (intros H; by apply H).
  destruct (fast_one_parity options && bool_decide (t = d + 1)%nat &&
    bool_decide (matrix_mode options ≠ Custom)) eqn:Hfast.
  - apply andb_true_iff in Hfast as [Hfast _]. apply andb_true_iff in Hfast as [_ Hfast].
    apply bool_decide_eq_true in Hfast. subst t.
    eapply ensures_weaken; [apply ones_loop_ensures|].
    intros m Hm. eexists. split_and!; [exact Hm| |apply ones_mds|].
    + intros i j Hi Hj'. unfold ones_matrix. by rewrite decide_True.
    + intros _ _ c Hc. unfold ones_matrix. by rewrite decide_False by lia.
  - assert (∀ m, mds_matrix d t m → ∃ M, rep m t d M ∧ systematic d M ∧ mds d t M ∧
      (fast_one_parity options = true → t = (d + 1)%nat → ∀ c, c < d → M d c = 1)) as Hw.
    { intros m (M & ? & ? & ?). exists M. split_and!; [done..|]. intros Hf Htd.
      rewrite Hf, !bool_decide_true in Hfast by done. done. }
    destruct (matrix_mode options); [..|done]; (eapply ensures_weaken; [|exact Hw]).
    + apply build_matrix_mds; lia.
    + apply build_cauchy_matrix_mds; lia.
    + apply build_jerasure_like_matrix_mds; auto.
Qed.
End matrices.

(** ** Well-formed Classic codecs *)
Section classic.
Context {F : Field} {RT : Runtime} {St : Storage Elem}
  {L : LruCache (list nat) (CachedMatrix Elem)}.

(** A Classic codec with the encoding matrix [M]: positive counts, identity
    data rows, and the all-ones parity row that the single-parity fast mode
    relies on. *)
Record classic_codec (rs : ReedSolomon) (M : nat → nat → Elem) : Prop := {
  cc_family : rs_codec_family rs = Classic;
  cc_data : 0 < data_shard_count rs;
  cc_parity : 0 < parity_shard_count rs;
  cc_rep : rep (format_matrix (rs_format rs)) (data_shard_count rs + parity_shard_count rs)
             (data_shard_count rs) M;
  cc_systematic : systematic (data_shard_count rs) M;
  cc_fast : exec_fast_one_parity (rs_options rs) = true → parity_shard_count rs = 1%nat →
    ∀ c, c < data_shard_count rs → M (data_shard_count rs) c = 1;
}.

(** The same codec with a matrix that recovers every erasure pattern. *)
Definition mds_codec (rs : ReedSolomon) (M : nat → nat → Elem) : Prop :=
  classic_codec rs M ∧
  mds (data_shard_count rs) (data_shard_count rs + parity_shard_count rs) M.
End classic.

(** ** Custom matrices *)
Section custom.
Context {F : Field} {FL : FieldLaws F}.

(** The identity above the supplied parity rows. *)
Definition custom_fn (d : nat) (custom : list (list Elem)) : nat → nat → Elem :=
  λ r c, if decide (r < d) then delta r c
         else default 0 (custom !! (r - d)%nat ≫= (.!! c)).

Lemma identity_rows_loop d t m :
  rep m t d (λ _ _, 0) → d ≤ t →
  ensures (for_range (E:=Error) 0 d (λ row result, set result row row 1) m)
    (λ m', rep m' t d (λ r c, if decide (r < d) then delta r c else 0)) (λ _, False).
Proof.
  intros Hm Hd. apply (for_range_ensures 0 d _ (λ k m', rep m' t d
    (λ r c, if decide (r < k) then delta r c else 0))).
  - lia.
  - eapply rep_ext; [apply Hm|]. intros. by rewrite decide_False by lia.
  - intros i m' Hi Hm'.
    destruct (set_acc_ok (E:=Error) m' _ _ _ Hm' i i 1) as (m1 & E1 & H1); [lia..|].
    unfold set. rewrite E1. simpl. eapply rep_ext; [apply H1|].
    intros r c Hr Hc. cbn. unfold delta. repeat case_decide; subst; try done; lia.
Qed.

Lemma custom_rows_loop d t m (custom : list (list Elem)) :
  rep m t d (λ r c, if decide (r < d) then delta r c else 0) → d ≤ t →
  length custom = (t - d)%nat → Forall (λ row, d ≤ length row) custom →
  ensures (for_each (E:=Error) (imap pair custom) (λ '(offset, row) result,
    for_each (imap pair (take d row)) (λ '(col, value) result,
      set result (d + offset)%nat col value) result) m)
    (λ m', rep m' t d (custom_fn d custom)) (λ _, False).
Proof.
  intros Hm Hd Hlen Hrows. unfold custom_fn.
  apply (for_each_post _ _ (λ k m', rep m' t d (λ r c,
    if decide (r < d) then delta r c
    else if decide (r < d + k) then default 0 (custom !! (r - d)%nat ≫= (.!! c)) else 0))).
  - eapply rep_ext; [apply Hm|]. intros. repeat case_decide; try done; lia.
  - intros k [off row] m' Hx Hm'.
    rewrite list_lookup_imap in Hx. destruct (custom !! k) as [row'|] eqn:Hk; [|done].
    simpl in Hx. injection Hx as <- <-.
    assert (d ≤ length row') as Hrow by (by eapply Forall_lookup_1 in Hrows).
    pose proof (lookup_lt_Some _ _ _ Hk) as Hkl.
    apply (for_each_post _ _ (λ j m', rep m' t d (λ r c,
      if decide (r < d) then delta r c
      else if decide (r < d + k ∨ r = (d + k)%nat ∧ c < j)
           then default 0 (custom !! (r - d)%nat ≫= (.!! c)) else 0))).
    + eapply rep_ext; [apply Hm'|]. intros. cbn. repeat case_decide; try done; lia.
    + intros j [col v] m2 Hx Hm2.
      rewrite list_lookup_imap in Hx. destruct (take d row' !! j) as [v'|] eqn:Hj; [|done].
      simpl in Hx. injection Hx as <- <-.
      apply lookup_take_Some in Hj as [Hj Hjd].
      destruct (set_acc_ok (E:=Error) m2 _ _ _ Hm2 (d + k) j v') as (m3 & E3 & H3); [lia..|].
      unfold set. rewrite E3. simpl. eapply rep_ext; [apply H3|].
      intros r c Hr Hc. cbn. repeat case_decide; try done; try lia.
      destruct H as [-> ->]. replace (d + k - d)%nat with k by lia. by rewrite Hk; simpl; rewrite Hj.
    + intros m2 Hm2. rewrite length_imap, length_take, Nat.min_l in Hm2 by lia.
      eapply rep_ext; [apply Hm2|]. intros. cbn. repeat case_decide; try done; lia.
  - intros m' Hm'. rewrite length_imap in Hm'. eapply rep_ext; [apply Hm'|].
    intros. cbn. repeat case_decide; try done; lia.
Qed.

Lemma build_custom_matrix_ensures d t custom :
  d ≤ t →
  ensures (build_custom_matrix d t custom)
    (λ m, rep m t d (custom_fn d custom) ∧
       t - d ≤ length custom ∧ Forall (λ row, d ≤ length row) (take (t - d) custom))
    (λ e, e = InvalidCustomMatrix ∧
       (length custom < t - d ∨ ¬ Forall (λ row, d ≤ length row) (take (t - d) custom))).
Proof.
  intros Hd. unfold build_custom_matrix.
  case_decide as D1; [split; [done|by left]|].
  destruct (existsb _ _) eqn:D2.
  { split; [done|right]. apply existsb_exists in D2 as (row & Hin & Hlt%Nat.ltb_lt).
    rewrite Forall_forall. intros H. apply list_elem_of_In, H in Hin. lia. }
  assert (Forall (λ row, d ≤ length row) (take (t - d) custom)) as Hrows.
  { apply Forall_forall. intros row Hin. destruct (decide (d ≤ length row)) as [|Hn]; [done|].
    assert (existsb (λ row, length row <? d)%nat (take (t - d) custom) = true) as Hbad.
    { apply existsb_exists. exists row. split; [by apply list_elem_of_In|].
      apply Nat.ltb_lt. lia. }
    congruence. }
  eapply ensures_bind_safe; [apply identity_rows_loop; [apply rep_new|done]|].
  intros m Hm. eapply ensures_weaken;
    [apply (custom_rows_loop d t m (take (t - d) custom) Hm Hd); [|done]|].
  - rewrite length_take. lia.
  - intros m' Hm'. split_and!; [|lia|done]. eapply rep_ext; [apply Hm'|].
    intros r c Hr Hc. unfold custom_fn. case_decide; [done|].
    by rewrite lookup_take_lt by lia.
Qed.
End custom.

(** ** Payload round trip *)
Section payload.
Context {F : Field} {RT : Runtime} {St : Storage Elem}
  {L : LruCache (list nat) (CachedMatrix Elem)}.
Implicit Types (self : ReedSolomon) (data : list Elem).

Definition split_len self (len : nat) : nat :=
  if is_leopard_family self
  then N.to_nat (leopard_aligned_shard_len (N.of_nat len) (N.of_nat (data_shard_count self)))
  else nat_div_ceil len (data_shard_count self).

(** Element [j] of shard [i], zero beyond the payload. *)
Definition split_elem (sl : nat) data (i j : nat) : Elem :=
  default 0 (data !! (i * sl + j)%nat).

Lemma split_ok {E} self data :
  split (E:=E) self data =
  Ok (tabulate (data_shard_count self) (λ i, tabulate (split_len self (length data))
    (split_elem (split_len self (length data)) data i))).
Proof.
  unfold split. fold (split_len self (length data)).
  set (sl := split_len self (length data)).
  assert (ensures (for_range (E:=E) 0 (data_shard_count self) (λ i shards,
      let start := (i * sl)%nat in
      let end_ := Nat.min (start + sl) (length data) in
      let shard := replicate sl 0 in
      let! shard :=
        if decide (start < length data) then
          update_slice shard 0 (end_ - start) (λ _, slice data start end_)
        else Ok shard in
      Ok (shards ++ [shard])) [])
    (λ r, r = tabulate (data_shard_count self) (λ i, tabulate sl (split_elem sl data i)))
    (λ _, False)) as H.
  { apply (for_range_post _ _ _ (λ k r, r = tabulate k (λ i, tabulate sl (split_elem sl data i))));
      [lia|done| |done].
    intros i shards Hi ->. cbv zeta.
    assert (replicate sl 0 = tabulate sl (λ _, 0)) as ->.
    { apply eq_tabulate; [apply length_replicate|]. intros. by apply lookup_replicate_2. }
    set (start := (i * sl)%nat). set (end_ := Nat.min (start + sl) (length data)).
    assert (tabulate (S i) (λ i, tabulate sl (split_elem sl data i)) =
      tabulate i (λ i, tabulate sl (split_elem sl data i)) ++ [tabulate sl (split_elem sl data i)])
      as Hsnoc by (unfold tabulate; by rewrite seq_S, map_app).
    case_decide as Hs.
    - unfold update_slice. rewrite slice_tabulate by (unfold end_; lia). cbn [obind].
      assert (take (end_ - start) (drop start data)
        = tabulate (end_ - start) (λ j, split_elem sl data i j)) as Hv.
      { apply eq_tabulate; [rewrite length_take, length_drop; unfold end_; lia|].
        intros j Hj. rewrite lookup_slice, decide_True by done. unfold split_elem.
        fold start. destruct (lookup_lt_is_Some_2 data (start + j)) as [x Hx];
          [unfold end_ in *; lia|]. by rewrite Hx. }
      rewrite slice_ok by (unfold end_; lia). cbn [obind]. rewrite Hv.
      rewrite splice_tabulate by (unfold end_; lia). cbn [obind ensures].
      rewrite Nat.add_1_l, Hsnoc. do 2 f_equal. apply tabulate_ext. intros j Hj.
      case_decide as D; [by rewrite Nat.sub_0_r|]. unfold split_elem. fold start.
      rewrite lookup_ge_None_2; [done|]. unfold end_ in D. lia.
    - cbn [obind ensures]. rewrite Nat.add_1_l, Hsnoc. do 2 f_equal. apply tabulate_ext.
      intros j Hj. unfold split_elem. fold start.
      rewrite lookup_ge_None_2; [done|lia]. }
  destruct (for_range _ _ _ _); simpl in H; [by subst|done|done].
Qed.

(** The loop of [join] takes a prefix of the concatenation. *)
Lemma join_loop {E} target (shards : list (list Elem)) result :
  length result ≤ target →
  for_each_break (E:=E) shards (λ shard result,
    let remaining := (target - length result)%nat in
    if decide (remaining = 0%nat) then Ok (result, true)
    else
      let to_take := Nat.min remaining (length shard) in
      Ok (result ++ take to_take shard, false)) result
  = Ok (take target (result ++ List.concat shards)).
Proof.
  revert result. induction shards as [|s l IH]; intros result Hr; cbn [for_each_break].
  - cbn [List.concat]. by rewrite app_nil_r, take_ge.
  - case_decide as D; cbn [obind].
    + rewrite take_app_le by lia. by rewrite take_ge by lia.
    + rewrite IH.
      * cbn [List.concat]. f_equal. rewrite <-app_assoc.
        destruct (decide (length s ≤ target - length result)).
        { rewrite Nat.min_r, (take_ge s) by lia. done. }
        rewrite Nat.min_l by lia.
        rewrite (take_app_ge result) by lia. rewrite (take_app_ge result) by lia. f_equal.
        rewrite (take_app_le (take _ s)) by (rewrite length_take; lia).
        rewrite (take_app_le s) by lia. by rewrite take_take, Nat.min_id.
      * rewrite length_app, length_take. lia.
Qed.

Lemma join_ok self (shards : list (list Elem)) len out_len :
  length shards = data_shard_count self → 0 < data_shard_count self → 0 < len →
  all_len len shards →
  join self shards out_len = Ok (take (Nat.min out_len
    (N.to_nat (saturating_mul (N.of_nat len) (N.of_nat (data_shard_count self)))))
    (List.concat shards)).
Proof.
  intros Hn Hd Hlen Hall. unfold join. rewrite Hn.
  unfold check_piece_count_data. rewrite check_piece_count_ok. cbn [obind].
  assert (shards ≠ []) as Hne by (intros ->; simpl in Hn; lia).
  rewrite (check_slices_multi_ok _ len) by done. cbn [obind].
  destruct shards as [|s l] eqn:Hs; [done|].
  assert (length s = len) as Hsl by (by inversion Hall).
  unfold index. cbn [lookup list_lookup obind]. rewrite Hsl.
  rewrite join_loop by (simpl; lia). cbn [obind app]. f_equal. rewrite take_take. f_equal. lia.
Qed.
End payload.

(** ** Properties *)
Section properties.
Context {F : Field} {FL : FieldLaws F} {RT : Runtime} {St : Storage Elem}
  {L : LruCache (list nat) (CachedMatrix Elem)} {LL : LruLaws L}.

Lemma concat_split sl d data :
  0 < sl → length data ≤ d * sl →
  take (length data) (List.concat (tabulate d (λ i, tabulate sl (split_elem sl data i)))) = data.
Proof.
  intros Hsl Hd.
  assert (Forall (λ r, length r = sl) (tabulate d (λ i, tabulate sl (split_elem sl data i))))
    as Hall.
  { apply Forall_forall. intros x Hx. unfold tabulate in Hx at 1.
    apply list_elem_of_In, in_map_iff in Hx as (i & <- & _). apply length_tabulate. }
  apply list_ext_lt.
  - rewrite length_take, (length_concat_rows _ sl Hall), length_tabulate. lia.
  - intros i Hi. rewrite length_take, (length_concat_rows _ sl Hall), length_tabulate in Hi.
    rewrite lookup_take_lt by lia.
    pose proof (Nat.div_mod_eq i sl) as Hdm. pose proof (Nat.mod_upper_bound i sl) as Hm.
    replace i with (i / sl * sl + i mod sl)%nat at 1 by lia.
    rewrite (lookup_concat_rows _ sl) by (done || lia).
    rewrite lookup_tabulate by nia. simpl. rewrite lookup_tabulate by lia.
    unfold split_elem. replace (i / sl * sl + i mod sl)%nat with i by lia.
    destruct (lookup_lt_is_Some_2 data i) as [x Hx]; [lia|]. by rewrite Hx.
Qed.

Lemma split_len_capacity (self : ReedSolomon) len :
  0 < data_shard_count self → (N.of_nat len <= USIZE_MAX - 63)%N →
  len ≤ data_shard_count self * split_len self len ∧
  (0 < len ∨ is_leopard_family self = true → 0 < split_len self len).
Proof.
  intros Hd Hl. unfold split_len. destruct (is_leopard_family self).
  - destruct (leopard_aligned_shard_len_lemma (N.of_nat len) (N.of_nat (data_shard_count self)))
      as (H1 & H2 & H3); [lia|].
    apply validate_leopard_shard_len_ok in H1 as [H1 _].
    specialize (H3 Hl). rewrite N.max_l in H3 by lia. split; nia.
  - pose proof (nat_div_ceil_spec len (data_shard_count self) Hd). split; [lia|].
    intros [Hlen|]; [|done]. by apply nat_div_ceil_pos.
Qed.

Lemma with_options_ensures d p options (Hmode : builtin_mode (matrix_mode options)) :
  let total := N.of_nat (d + p) in
  let fam := resolve_codec_family (codec_family options) (leopard_mode options)
    is_byte_field total (N.of_nat p) in
  ensures (with_options d p options)
    (λ rs, (0 < d ∧ 0 < p) ∧ (total <= max_total_shards_for_family fam)%N ∧
       validate_leopard_family fam (N.of_nat d) (N.of_nat p) = Ok tt ∧
       data_shard_count rs = d ∧ parity_shard_count rs = p ∧ rs_codec_family rs = fam ∧
       (fam = Classic → ∃ M, mds_codec rs M) ∧
       cache_inv (rs_cache rs) ∧ lru_entries (entries (rs_cache rs)) = [])
    (λ e, (e = TooFewDataShards ∧ d = 0%nat) ∨ (e = TooFewParityShards ∧ 0 < d ∧ p = 0%nat) ∨
       (0 < d ∧ 0 < p ∧
        ((e = TooManyShards ∧
            (USIZE_MAX < total ∨ max_total_shards_for_family fam < total)%N) ∨
         ((total <= max_total_shards_for_family fam)%N ∧
            validate_leopard_family fam (N.of_nat d) (N.of_nat p) = Err e)))).
Proof.
  intros total fam. unfold with_options.
  case_decide as Hd; [by left|]. case_decide as Hp; [right; left; split_and!; [done|lia|done]|].
  unfold checked_add. replace (N.of_nat d + N.of_nat p)%N with total by (unfold total; lia).
  destruct (N.leb_spec total USIZE_MAX); cbn [ok_or obind];
    [|right; right; split_and!; [lia|lia|]; left; split; [done|by left]].
  fold fam. destruct (N.ltb_spec (max_total_shards_for_family fam) total) as [Hcap|Hcap].
  { right; right. split_and!; [lia|lia|]. left. split; [done|by right]. }
  destruct (validate_leopard_family fam (N.of_nat d) (N.of_nat p)) as [[]|e|] eqn:Hv;
    cbn [obind]; [|right; right; split_and!; [lia|lia|]; by right|].
  2:{ by apply validate_leopard_family_total in Hv. }
  set (o := set_codec_sizes _ _ _ _ _).
  eapply (ensures_bind_safe _ _ (λ m, fam = Classic → ∃ M, rep m (d + p) d M ∧
    systematic d M ∧ mds d (d + p) M ∧
    (fast_one_parity o = true → (d + p = d + 1)%nat → ∀ c, c < d → M d c = 1))).
  - replace (codec_family o) with fam by done. destruct fam eqn:Hfam; [|done|done].
    eapply ensures_weaken; [apply build_matrix_with_options_mds; [done|done|done|lia|lia]|].
    done.
  - intros m Hm. simpl. split_and!; try done; try lia.
    + intros Hc. destruct (Hm Hc) as (M & H1 & H2 & H3 & H4). exists M.
      split; [|done]. split; try done; unfold data_shard_count, parity_shard_count; simpl;
        [lia|lia|]. intros Hf Hp1. by apply H4; [|lia].
    + apply cache_new_inv.
    + apply lru_new_entries.
Qed.

(** C7: for a built-in matrix mode the constructor never
    panics.  It succeeds exactly when both counts are positive, the total fits
    the cap of the resolved family and that family accepts the shape; the codec
    has the requested counts and the resolved family, its cache is empty and
    within its budget, and a Classic codec has a systematic MDS matrix, with
    an all-ones parity row in the single-parity fast mode.  Each
    error is reported exactly for the check that fails first. *)
Theorem with_options_correct d p options (Hmode : builtin_mode (matrix_mode options)) :
  let total := N.of_nat (d + p) in
  let fam := resolve_codec_family (codec_family options) (leopard_mode options)
    is_byte_field total (N.of_nat p) in
  ensures (with_options d p options)
    (λ rs, (0 < d ∧ 0 < p) ∧ (total <= max_total_shards_for_family fam)%N ∧
       validate_leopard_family fam (N.of_nat d) (N.of_nat p) = Ok tt ∧
       data_shard_count rs = d ∧ parity_shard_count rs = p ∧ rs_codec_family rs = fam ∧
       (fam = Classic → ∃ M, mds_codec rs M) ∧
       cache_inv (rs_cache rs) ∧ memory_entries (reconstruction_cache_memory rs) = 0%N)
    (λ e, (e = TooFewDataShards ∧ d = 0%nat) ∨ (e = TooFewParityShards ∧ 0 < d ∧ p = 0%nat) ∨
       (0 < d ∧ 0 < p ∧
        ((e = TooManyShards ∧
            (USIZE_MAX < total ∨ max_total_shards_for_family fam < total)%N) ∨
         ((total <= max_total_shards_for_family fam)%N ∧
            validate_leopard_family fam (N.of_nat d) (N.of_nat p) = Err e)))).
Proof.
  intros total fam. eapply ensures_mono; [by apply with_options_ensures| |done].
  intros rs (H1 & H2 & H3 & H4 & H5 & H6 & H7 & H8 & H9). split_and!; try done; try lia.
  unfold reconstruction_cache_memory, cache_memory. cbn [memory_entries].
  by rewrite lru_len_spec, H9.
Qed.

(** construction with a user matrix never panics.
    It succeeds exactly for positive counts within the field order, the Classic
    family, enough parity rows and columns, and, in the single-parity fast mode,
    an all-ones row; the encoding matrix is then the identity above the supplied
    rows. *)
Theorem with_custom_matrix_correct d p (custom : list (list Elem)) options :
  let enough := p ≤ length custom ∧ Forall (λ row, d ≤ length row) (take p custom) in
  let ones := fast_one_parity options = true → p = 1%nat →
    ∀ c, c < d → custom_fn d custom d c = 1 in
  ensures (with_custom_matrix d p custom options)
    (λ rs, 0 < d ∧ 0 < p ∧ (N.of_nat (d + p) <= ORDER)%N ∧
       codec_family options = Classic ∧ enough ∧ ones ∧
       data_shard_count rs = d ∧ parity_shard_count rs = p ∧
       classic_codec rs (custom_fn d custom))
    (λ e, (e = TooFewDataShards ∧ d = 0%nat) ∨ (e = TooFewParityShards ∧ 0 < d ∧ p = 0%nat) ∨
       (0 < d ∧ 0 < p ∧
        ((e = TooManyShards ∧ (USIZE_MAX < N.of_nat (d + p) ∨ ORDER < N.of_nat (d + p))%N) ∨
         (e = UnsupportedCodecFamily ∧ codec_family options ≠ Classic) ∨
         (e = InvalidCustomMatrix ∧ (¬ enough ∨ ¬ ones))))).
Proof.
  intros enough ones. unfold with_custom_matrix.
  case_decide as Hd; [by left|]. case_decide as Hp; [right; left; split_and!; [done|lia|done]|].
  unfold checked_add. replace (N.of_nat d + N.of_nat p)%N with (N.of_nat (d + p)) by lia.
  destruct (N.leb_spec (N.of_nat (d + p)) USIZE_MAX); cbn [ok_or obind];
    [|right; right; split_and!; [lia|lia|]; left; split; [done|by left]].
  destruct (N.ltb_spec ORDER (N.of_nat (d + p))).
  { right; right. split_and!; [lia|lia|]. left. split; [done|by right]. }
  case_decide as Hfam; [right; right; split_and!; [lia|lia|]; right; by left|].
  set (o := set_codec_sizes _ _ _ _ _).
  pose proof (build_custom_matrix_ensures d (d + p) custom ltac:(lia)) as Hb.
  replace (d + p - d)%nat with p in Hb by lia.
  destruct (build_custom_matrix d (d + p) custom) as [m|e|]; cbn [obind ensures] in *; [|..|done].
  2:{ destruct Hb as [-> Hb]. right; right. split_and!; [lia|lia|]. do 2 right.
      split; [done|left]. unfold enough. intros [? ?]. destruct Hb; [lia|done]. }
  destruct Hb as (Hm & He1 & He2).
  assert (ones → classic_codec (make_codec d p o m) (custom_fn d custom)) as Hcc.
  { intros Hones. split; unfold data_shard_count, parity_shard_count; simpl;
      [done|lia|lia|done| |done].
    intros i j Hi Hj. unfold custom_fn. by rewrite decide_True. }
  destruct (fast_one_parity o && bool_decide (p = 1)%nat) eqn:Hfast.
  - apply andb_true_iff in Hfast as [Hf Hp1]. apply bool_decide_eq_true in Hp1.
    rewrite (get_row_ok _ _ _ _ Hm) by lia. cbn [obind].
    destruct (existsb _ _) eqn:Hex.
    + right; right. split_and!; [lia|lia|]. do 2 right. split; [done|right]. intros Hones.
      apply existsb_exists in Hex as (v & Hin & Hv%bool_decide_eq_true). apply Hv.
      unfold tabulate in Hin. apply in_map_iff in Hin as (c & <- & Hc).
      apply in_seq in Hc. apply Hones; [done|done|lia].
    + assert (ones) as Hones.
      { intros _ _ c Hc. apply dec_stable. intros Hne.
        assert (existsb (λ value, bool_decide (value ≠ 1)) (tabulate d (custom_fn d custom d))
          = true) as Hbad; [|congruence].
        apply existsb_exists. exists (custom_fn d custom d c). split.
        - apply in_map, in_seq. lia.
        - by apply bool_decide_eq_true. }
      simpl. split_and!; [lia|lia|lia|done|done|done|done|done|by apply Hcc].
  - assert (ones) as Hones.
    { intros Hf Hp1. exfalso. apply andb_false_iff in Hfast as [Hfast|Hfast].
      - unfold o in Hfast. simpl in Hfast. congruence.
      - by apply bool_decide_eq_false in Hfast. }
    simpl. split_and!; [lia|lia|lia|done|done|done|done|done|by apply Hcc].
Qed.

(** C39: for a codec with at least one data shard and a
    nonempty payload (for Leopard: any payload; the empty shards of an empty payload
    on a Classic codec are rejected by [join]) of at most [usize::MAX - 63] elements, [split] returns [data_shard_count] shards of one positive
    length, which a Leopard codec accepts, and [join] with the payload's length
    returns the payload. *)
Theorem split_join_roundtrip (self : ReedSolomon) (payload : list Elem)
    (Hd : 0 < data_shard_count self)
    (Hlen : (N.of_nat (length payload) <= USIZE_MAX - 63)%N)
    (Hne : payload ≠ [] ∨ is_leopard_family self = true) :
  ∃ shards len, split (E:=Error) self payload = Ok shards ∧
    length shards = data_shard_count self ∧ 0 < len ∧ all_len len shards ∧
    (is_leopard_family self = true → validate_leopard_shard_len (N.of_nat len) = Ok tt) ∧
    join self shards (length payload) = Ok payload.
Proof.
  destruct (split_len_capacity self (length payload) Hd Hlen) as [Hcap Hpos].
  assert (0 < split_len self (length payload)) as Hsl.
  { apply Hpos. destruct Hne as [Hne|]; [left|by right]. destruct payload; simpl; [done|lia]. }
  rewrite split_ok. set (sl := split_len self (length payload)) in *.
  exists (tabulate (data_shard_count self) (λ i, tabulate sl (split_elem sl payload i))), sl.
  assert (all_len sl (tabulate (data_shard_count self)
    (λ i, tabulate sl (split_elem sl payload i)))) as Hall.
  { apply Forall_forall. intros x Hx. unfold tabulate in Hx at 1.
    apply list_elem_of_In, in_map_iff in Hx as (i & <- & _). apply length_tabulate. }
  split_and!; [done|apply length_tabulate|done|done| |].
  - intros Hleo. unfold sl, split_len. rewrite Hleo, N2Nat.id.
    apply leopard_aligned_shard_len_lemma. lia.
  - rewrite (join_ok self _ sl) by (done || apply length_tabulate).
    f_equal. rewrite Nat.min_l; [by apply concat_split; [|lia]|].
    unfold saturating_mul. lia.
Qed.
End properties.
