(* ===== verification/Coding.v ===== *)
(** * The coding loops ([src/core/encode.rs], lines 1-130 and 410-766)

    Matrix rows times input shards into output shards, in cache-sized chunks,
    serially or on a Rayon schedule.  Rows, inputs and outputs are the views of
    the source: matrix ranges or decode rows, contiguous or selected inputs,
    all outputs or selected ones.  The theorems show that every path computes
    the same dot products: the element [j] of output [k] becomes the sum over
    the inputs [i] of [row k][i] * [input i][j].

    This is the default build, without SIMD features: [try_gfni_outputs] and
    the generated kernels are compiled out. *)

From Stdlib Require Import NArith Lia List Bool Ring Sorted.
From stdpp Require Import base numbers list.
From S2P Require Import Prelude Errors Fields LinAlg Matrix Options Parallel.

Local Open Scope field_scope.

Definition or_panic {E A} (o : option A) : outcome E A :=
  match o with Some a => Ok a | None => Panic end.

(** ** Views *)
Section views.
Context {F : Field}.

(** The trait [MatrixRows] of [src/matrix.rs]. *)
Record MatrixRows := mk_rows {
  rows_len : nat;
  rows_row : nat → outcome Error (list Elem);
}.

Definition rows_of_slices (rows : list (list Elem)) : MatrixRows :=
  mk_rows (length rows) (index rows).
Definition rows_of_range (r : MatrixRowRange) : MatrixRows :=
  mk_rows (range_len r) (range_get_row r).

(** The trait [CodingInputs]: [impl for \[T\]] and [SelectedInputs]. *)
Inductive CodingInputs :=
| SliceInputs (shards : list (list Elem))
| SelectedInputs (shards : list (list Elem)) (indices : list nat).

Definition inputs_len (inputs : CodingInputs) : nat :=
  match inputs with
  | SliceInputs shards => length shards
  | SelectedInputs _ indices => length indices
  end.

(** The [i]th item of [iter()]. *)
Definition inputs_get {E} (inputs : CodingInputs) (i : nat) : outcome E (list Elem) :=
  match inputs with
  | SliceInputs shards => index shards i
  | SelectedInputs shards indices =>
      let! k := index indices i in index shards k
  end.

(** The trait [CodingOutputs]: [SliceOutputs] and [SelectedOutputs].  An
    adapter is the list of positions that [iter_mut] yields. *)
Inductive CodingOutputs :=
| SliceOutputs
| SelectedOutputs (indices : list nat) (offset : nat).

(** [SelectedOutputs::iter_mut]: the positions must increase and exist. *)
Fixpoint selected_targets {E} (n offset next : nat) (indices : list nat)
  : outcome E (list nat) :=
  match indices with
  | [] => Ok []
  | i :: indices =>
      if decide (i < offset) then Panic else
      let k := (i - offset)%nat in
      if decide (k < next) then Panic else
      if decide (n ≤ k) then Panic else
      let! rest := selected_targets n offset (k + 1) indices in
      Ok (k :: rest)
  end.

Definition output_targets {E} (outputs : CodingOutputs) (n : nat) : outcome E (list nat) :=
  match outputs with
  | SliceOutputs => Ok (seq 0 n)
  | SelectedOutputs indices offset => selected_targets n offset 0 indices
  end.

(** ** Serial loops *)

(** [code_single_slice_range_with_outputs] *)
Definition code_single_slice_range_with_outputs (rows : MatrixRows) (i_input : nat)
    (input : list Elem) (targets : list nat) (start end_ : nat)
    (shards : list (list Elem)) : outcome Error (list (list Elem)) :=
  let! input := slice input start end_ in
  for_each (imap pair targets) (λ '(i_row, target) shards,
    let! row := rows_row rows i_row in
    let! matrix_row_to_use := index row i_input in
    let! output := index shards target in
    let! output := update_slice output start end_ (λ view,
      or_panic (if decide (i_input = 0%nat)
                then mul_slice matrix_row_to_use input view
                else mul_slice_add matrix_row_to_use input view)) in
    update shards target output) shards.

Definition serial_code_chunk_len (shard_len : N) : N :=
  if (shard_len <=? CODE_SLICE_MIN_CHUNK_BYTES)%N then shard_len
  else if (shard_len <=? CODE_SLICE_DEFAULT_CHUNK_BYTES)%N then CODE_SLICE_MIN_CHUNK_BYTES
  else if (shard_len <=? 4 * 1024 * 1024)%N then CODE_SLICE_DEFAULT_CHUNK_BYTES
  else CODE_SLICE_LARGE_CHUNK_BYTES.

Definition code_chunk_len (shard_len : nat) : nat :=
  Nat.min (N.to_nat (serial_code_chunk_len (N.of_nat shard_len))) shard_len.

(** [code_some_slices_with_outputs]; the fuel of the chunk loop is one more
    than the number of elements. *)
Definition code_some_slices_with_outputs (data_shard_count : nat) (rows : MatrixRows)
    (inputs : CodingInputs) (outputs : CodingOutputs) (shards : list (list Elem))
    : outcome Error (list (list Elem)) :=
  let! shard_len :=
    if decide (inputs_len inputs = 0%nat) then Ok 0%nat
    else let! first := inputs_get inputs 0 in Ok (length first) in
  if decide (shard_len = 0%nat) then Ok shards else
  let chunk_len := code_chunk_len shard_len in
  chunk_loop (S shard_len) chunk_len shard_len 0 (λ start end_ shards,
    for_range 0 (Nat.min (inputs_len inputs) data_shard_count) (λ i_input shards,
      let! input := inputs_get inputs i_input in
      let! targets := output_targets outputs (length shards) in
      code_single_slice_range_with_outputs rows i_input input targets start end_ shards)
      shards) shards.

Definition code_some_slices_chunked (data_shard_count : nat) (rows : MatrixRows)
    (inputs outputs : list (list Elem)) : outcome Error (list (list Elem)) :=
  code_some_slices_with_outputs data_shard_count rows (SliceInputs inputs) SliceOutputs outputs.

Definition code_some_slices := code_some_slices_chunked.

Definition code_selected_slices (data_shard_count : nat) (rows : MatrixRows)
    (inputs outputs : list (list Elem)) (indices : list nat) (offset : nat)
    : outcome Error (list (list Elem)) :=
  code_some_slices_with_outputs data_shard_count rows (SliceInputs inputs)
    (SelectedOutputs indices offset) outputs.

Definition code_selected_inputs (data_shard_count : nat) (rows : MatrixRows)
    (inputs : list (list Elem)) (indices : list nat) (outputs : list (list Elem))
    : outcome Error (list (list Elem)) :=
  code_some_slices_with_outputs data_shard_count rows (SelectedInputs inputs indices)
    SliceOutputs outputs.

Definition code_single_slice_range (rows : MatrixRows) (i_input : nat) (input : list Elem)
    (start end_ : nat) (outputs : list (list Elem)) : outcome Error (list (list Elem)) :=
  let! targets := output_targets SliceOutputs (length outputs) in
  code_single_slice_range_with_outputs rows i_input input targets start end_ outputs.

Definition code_single_slice (rows : MatrixRows) (i_input : nat) (input : list Elem)
    (outputs : list (list Elem)) : outcome Error (list (list Elem)) :=
  code_single_slice_range rows i_input input 0 (length input) outputs.

(** ** Parallel loops: the callbacks handed to [for_each_output_chunk] *)
Definition par_dot_chunk (data_shard_count : nat) (rows : MatrixRows)
    (inputs : list (list Elem)) (row start : nat) (output_chunk : list Elem)
    : outcome Error (list Elem) :=
  let! matrix_row := rows_row rows row in
  let end_ := (start + length output_chunk)%nat in
  let! c := index matrix_row 0 in
  let! input := index inputs 0 in
  let! input := slice input start end_ in
  let! output_chunk := or_panic (mul_slice c input output_chunk) in
  for_range 1 data_shard_count (λ i_input output_chunk,
    let! c := index matrix_row i_input in
    let! input := index inputs i_input in
    let! input := slice input start end_ in
    or_panic (mul_slice_add c input output_chunk)) output_chunk.

Definition code_some_slices_par_chunked_with_jobs (order : list task)
    (data_shard_count : nat) (rows : MatrixRows) (inputs outputs : list (list Elem))
    : outcome Error (list (list Elem)) :=
  let shard_len := match inputs with [] => 0%nat | input :: _ => length input end in
  if decide (shard_len = 0%nat) then Ok outputs else
  for_each_output_chunk order (par_dot_chunk data_shard_count rows inputs) outputs.

Definition par_single_chunk (rows : MatrixRows) (i_input : nat) (input : list Elem)
    (row start : nat) (output_chunk : list Elem) : outcome Error (list Elem) :=
  let! matrix_row := rows_row rows row in
  let! coefficient := index matrix_row i_input in
  let! input_chunk := slice input start (start + length output_chunk) in
  or_panic (if decide (i_input = 0%nat)
            then mul_slice coefficient input_chunk output_chunk
            else mul_slice_add coefficient input_chunk output_chunk).

Definition code_single_slice_par_chunked (order : list task) (rows : MatrixRows)
    (i_input : nat) (input : list Elem) (outputs : list (list Elem))
    : outcome Error (list (list Elem)) :=
  if decide (length input = 0%nat) then Ok outputs else
  for_each_output_chunk order (par_single_chunk rows i_input input) outputs.
End views.

(** ** What the loops compute *)
Section dot_products.
Context {F : Field} {FL : FieldLaws F}.
Add Ring elem_ring : field_ring_theory (morphism field_ring_morph, constants [field_const]).
Implicit Types (M h : nat → nat → Elem) (base shards : list (list Elem)).

Lemma mul_slice_tabulate c n (x y : nat → Elem) :
  mul_slice c (tabulate n x) (tabulate n y) = Some (tabulate n (λ j, c * x j)).
Proof.
  rewrite mul_slice_spec. unfold mul_slice_default.
  rewrite decide_True by (by rewrite !length_tabulate). by rewrite zip_with_tabulate.
Qed.

Lemma mul_slice_add_tabulate c n (x y : nat → Elem) :
  mul_slice_add c (tabulate n x) (tabulate n y) = Some (tabulate n (λ j, y j + c * x j)).
Proof.
  rewrite mul_slice_add_spec. unfold mul_slice_add_default.
  rewrite decide_True by (by rewrite !length_tabulate). by rewrite zip_with_tabulate.
Qed.

(** Target [k] holds [h k], the other shards are those of [base]. *)
Definition outputs_are (ts : list nat) (len : nat) h base shards : Prop :=
  length shards = length base ∧
  (∀ k t, ts !! k = Some t → shards !! t = Some (tabulate len (h k))) ∧
  (∀ t, t ∉ ts → shards !! t = base !! t).

Lemma outputs_are_ext ts len h h' base shards :
  (∀ k j, k < length ts → j < len → h k j = h' k j) →
  outputs_are ts len h base shards → outputs_are ts len h' base shards.
Proof.
  intros H (H1 & H2 & H3). split_and!; [done| |done].
  intros k t Hk. rewrite (H2 k t Hk). f_equal. apply tabulate_ext. intros j Hj.
  apply H; [by eapply lookup_lt_Some|done].
Qed.

Lemma outputs_are_unique ts len h base s1 s2 :
  outputs_are ts len h base s1 → outputs_are ts len h base s2 → s1 = s2.
Proof.
  intros (A1 & A2 & A3) (B1 & B2 & B3). apply list_eq. intros t.
  destruct (decide (t ∈ ts)) as [Ht|Ht]; [|by rewrite A3, B3].
  apply list_elem_of_lookup in Ht as (k & Hk). by rewrite (A2 k), (B2 k).
Qed.

(** All outputs: the list is known completely. *)
Lemma outputs_are_seq n len h base shards :
  length base = n → outputs_are (seq 0 n) len h base shards →
  shards = tabulate n (λ k, tabulate len (h k)).
Proof.
  intros Hn (H1 & H2 & _). apply eq_tabulate; [congruence|].
  intros k Hk. apply (H2 k). by rewrite lookup_seq_lt.
Qed.

Lemma outputs_are_all n len h base :
  length base = n → base = tabulate n (λ k, tabulate len (h k)) →
  outputs_are (seq 0 n) len h base base.
Proof.
  intros Hn Hb. split_and!; [done| |done]. intros k t Hk.
  apply lookup_seq in Hk as [-> Hk]. rewrite Hb. by rewrite lookup_tabulate.
Qed.

(** Shards of one length are some function. *)
Lemma rectangle_tabulate (l : list (list Elem)) len :
  Forall (λ s, length s = len) l →
  l = tabulate (length l) (λ k, tabulate len (λ j, default 0 (l !! k ≫= (.!! j)))).
Proof.
  intros Hl. apply eq_tabulate; [done|]. intros k Hk.
  destruct (lookup_lt_is_Some_2 l k Hk) as [s Hs]. rewrite Hs. f_equal. simpl.
  apply eq_tabulate; [by eapply Forall_lookup_1 in Hl|].
  intros j Hj. eapply Forall_lookup_1 in Hl; [|done].
  destruct (lookup_lt_is_Some_2 s j) as [x Hx]; [lia|]. by rewrite Hx.
Qed.

Section one_input.
Context (ts : list nat) (len d : nat) (M : nat → nat → Elem) (rows : MatrixRows).
Context (Hrows : ∀ k, k < length ts → rows_row rows k = Ok (tabulate d (M k))).
Context (Hnd : NoDup ts).

(** The new contents of a chunk after input [i]. *)
Definition coded (i : nat) (x : nat → Elem) h : nat → nat → Elem :=
  λ k j, if decide (i = 0)%nat then M k i * x j else h k j + M k i * x j.

Lemma code_range_ensures i x h base start end_ shards :
  i < d → start ≤ end_ → end_ ≤ len →
  (∀ t, t ∈ ts → t < length base) →
  outputs_are ts len h base shards →
  ensures (code_single_slice_range_with_outputs rows i (tabulate len x) ts start end_ shards)
    (outputs_are ts len
      (λ k j, if decide (start ≤ j < end_) then coded i x h k j else h k j) base)
    (λ _, False).
Proof.
  intros Hi Hs He Hts Hout. unfold code_single_slice_range_with_outputs.
  rewrite slice_tabulate by done. cbn [obind].
  apply (for_each_post _ _ (λ n, outputs_are ts len (λ k j,
    if decide (k < n ∧ start ≤ j < end_) then coded i x h k j else h k j) base)).
  - eapply outputs_are_ext; [|exact Hout]. intros k j _ _. by rewrite decide_False by lia.
  - intros k [k' t] s Hk (H1 & H2 & H3).
    rewrite list_lookup_imap in Hk. destruct (ts !! k) as [t'|] eqn:Ht; [|done].
    simpl in Hk. injection Hk as <- <-.
    pose proof (lookup_lt_Some _ _ _ Ht) as Hkl.
    rewrite Hrows by done. cbn [obind]. rewrite index_tabulate by done. cbn [obind].
    rewrite (index_ok _ _ _ (H2 k t' Ht)). cbn [obind]. unfold update_slice.
    rewrite slice_tabulate by done. cbn [obind].
    assert (or_panic (E:=Error) (if decide (i = 0)%nat
        then mul_slice (M k i) (tabulate (end_ - start) (λ j, x (start + j)%nat))
          (tabulate (end_ - start) (λ j, if decide (k < k ∧ start ≤ start + j < end_)
             then coded i x h k (start + j) else h k (start + j)%nat))
        else mul_slice_add (M k i) (tabulate (end_ - start) (λ j, x (start + j)%nat))
          (tabulate (end_ - start) (λ j, if decide (k < k ∧ start ≤ start + j < end_)
             then coded i x h k (start + j) else h k (start + j)%nat)))
      = Ok (tabulate (end_ - start) (λ j, coded i x h k (start + j)))) as ->.
    { unfold coded. destruct (decide (i = 0)%nat).
      - by rewrite mul_slice_tabulate.
      - rewrite mul_slice_add_tabulate. simpl. f_equal. apply tabulate_ext.
        intros j Hj. by rewrite decide_False by lia. }
    cbn [obind]. rewrite splice_tabulate by lia.
    assert (t' < length s) as Htl.
    { rewrite H1. apply Hts. by eapply list_elem_of_lookup_2. }
    rewrite update_ok by done. cbn [ensures]. split_and!.
    + by rewrite length_insert.
    + intros k2 t2 Hk2. destruct (decide (k2 = k)) as [->|Hne].
      * rewrite Ht in Hk2. injection Hk2 as <-. rewrite list_lookup_insert_eq by done.
        f_equal. apply tabulate_ext. intros j Hj. cbn beta.
        repeat case_decide; try lia; [|done]. f_equal. lia.
      * assert (t2 ≠ t').
        { intros ->. apply Hne. by eapply NoDup_lookup. }
        rewrite list_lookup_insert_ne by done. rewrite (H2 k2 t2 Hk2). f_equal.
        apply tabulate_ext. intros j Hj. cbn beta. repeat case_decide; try lia; done.
    + intros t2 Ht2. rewrite list_lookup_insert_ne; [by apply H3|].
      intros ->. apply Ht2. by eapply list_elem_of_lookup_2.
  - intros s Hs'. rewrite length_imap in Hs'. eapply outputs_are_ext; [|exact Hs'].
    intros k j Hk Hj. cbn beta. repeat case_decide; try lia; done.
Qed.
End one_input.

(** The specification of the coding loops. *)
Definition dot (d : nat) M (x : nat → nat → Elem) : nat → nat → Elem :=
  λ k j, bsum d (λ i, M k i * x i j).

Lemma code_chunk_len_pos len : 0 < len → 0 < code_chunk_len len ≤ len.
Proof.
  intros Hl. unfold code_chunk_len.
  pose proof (serial_chunk_len_pos (N.of_nat len) ltac:(lia)) as H.
  change (serial_code_chunk_len (N.of_nat len)) with (serial_chunk_len (N.of_nat len)). lia.
Qed.

Section loop.
Context (ts : list nat) (len d : nat) (M x h : nat → nat → Elem).
Context (rows : MatrixRows) (inputs : CodingInputs) (outputs : CodingOutputs).
Context (base : list (list Elem)).
Context (Hd : 0 < d) (Hlen : 0 < len).
Context (Hrows : ∀ k, k < length ts → rows_row rows k = Ok (tabulate d (M k))).
Context (Hin_len : inputs_len inputs = d).
Context (Hin : ∀ i, i < d → inputs_get (E:=Error) inputs i = Ok (tabulate len (x i))).
Context (Hts : output_targets (E:=Error) outputs (length base) = Ok ts).
Context (Hnd : NoDup ts) (Hbound : ∀ t, t ∈ ts → t < length base).
Context (Hbase : outputs_are ts len h base base).

(** The outputs when the elements below [a] are done and those below [b]
    have the first [i] inputs. *)
Definition progress (a b i : nat) : nat → nat → Elem :=
  λ k j, if decide (j < a) then dot d M x k j
         else if decide (j < b ∧ 0 < i) then bsum i (λ l, M k l * x l j)
         else h k j.

Lemma code_chunk_ensures a b shards :
  a < b → b ≤ len →
  outputs_are ts len (progress a a 0) base shards →
  ensures (for_range 0 (Nat.min (inputs_len inputs) d) (λ i_input shards,
      let! input := inputs_get inputs i_input in
      let! targets := output_targets outputs (length shards) in
      code_single_slice_range_with_outputs rows i_input input targets a b shards) shards)
    (outputs_are ts len (progress b b 0) base) (λ _, False).
Proof.
  intros Hab Hb Hs. rewrite Hin_len, Nat.min_id.
  apply (for_range_post _ _ _ (λ i, outputs_are ts len (progress a b i) base)).
  - lia.
  - eapply outputs_are_ext; [|exact Hs]. intros k j _ _. unfold progress.
    repeat case_decide; try done; lia.
  - intros i s Hi Hs'. rewrite Hin by lia. cbn [obind].
    pose proof Hs' as (Hl & _). rewrite Hl, Hts. cbn [obind].
    eapply ensures_weaken; [apply (code_range_ensures ts len d M rows Hrows Hnd i (x i)
      (progress a b i) base a b s); [lia..|done|done]|].
    intros s' Hs2. eapply outputs_are_ext; [|exact Hs2].
    intros k j Hk Hj. cbn beta. unfold coded, progress.
    destruct (decide (a ≤ j < b)) as [Hab'|Hab'].
    + rewrite !(decide_False (P:=j < a)) by lia.
      rewrite (decide_True (P:=j < b ∧ 0 < 1 + i)) by lia. cbn [Nat.add bsum].
      destruct (decide (i = 0)%nat) as [->|Hne]; [cbn; ring|].
      by rewrite (decide_True (P:=j < b ∧ 0 < i)) by lia.
    + repeat case_decide; try done; lia.
  - intros s Hs'. eapply outputs_are_ext; [|exact Hs'].
    intros k j _ _. unfold progress, dot. repeat case_decide; try done; lia.
Qed.

Lemma code_ensures :
  ensures (code_some_slices_with_outputs d rows inputs outputs base)
    (outputs_are ts len (dot d M x) base) (λ _, False).
Proof.
  unfold code_some_slices_with_outputs. rewrite Hin_len, decide_False by lia.
  rewrite Hin by done. cbn [obind]. rewrite length_tabulate, decide_False by lia.
  eapply ensures_mono; [apply (chunk_loop_ensures _ _ _ _ _
    (λ a, outputs_are ts len (progress a a 0) base) (λ _, False))| |done].
  - by apply code_chunk_len_pos.
  - lia.
  - lia.
  - eapply outputs_are_ext; [|exact Hbase]. intros k j _ _. unfold progress.
    rewrite !decide_False by lia. done.
  - intros a b s _ Hab Hb _ Hs. rewrite <-Hin_len at 1.
    pose proof (code_chunk_ensures a b s Hab Hb Hs) as H. by rewrite Hin_len in *.
  - intros s Hs. eapply outputs_are_ext; [|exact Hs]. intros k j _ Hj. unfold progress.
    by rewrite decide_True.
Qed.
End loop.

(** ** Contiguous inputs and outputs *)
Lemma code_some_slices_ok d t len M x h rows :
  0 < d → 0 < len →
  (∀ k, k < t → rows_row rows k = Ok (tabulate d (M k))) →
  code_some_slices d rows (tabulate d (λ i, tabulate len (x i)))
    (tabulate t (λ k, tabulate len (h k)))
  = Ok (tabulate t (λ k, tabulate len (dot d M x k))).
Proof.
  intros Hd Hl Hrows.
  apply ensures_exact.
  assert (length (tabulate t (λ k, tabulate len (h k))) = t) as Hlt by apply length_tabulate.
  eapply ensures_weaken.
  - apply (code_ensures (seq 0 t) len d M x h rows (SliceInputs _) SliceOutputs); try done.
    + intros k. rewrite length_seq. apply Hrows.
    + apply length_tabulate.
    + intros i Hi. exact (index_tabulate d (λ i, tabulate len (x i)) i Hi).
    + by rewrite Hlt.
    + apply NoDup_seq.
    + intros y Hy. rewrite Hlt. apply list_elem_of_In, in_seq in Hy. lia.
    + by apply outputs_are_all.
  - intros s Hs. by apply (outputs_are_seq t len) in Hs.
Qed.

Lemma code_single_slice_ok d t len M i (x : nat → Elem) h rows :
  i < d →
  (∀ k, k < t → rows_row rows k = Ok (tabulate d (M k))) →
  code_single_slice rows i (tabulate len x) (tabulate t (λ k, tabulate len (h k)))
  = Ok (tabulate t (λ k, tabulate len (coded M i x h k))).
Proof.
  intros Hi Hrows. apply ensures_exact.
  unfold code_single_slice, code_single_slice_range. cbn [output_targets obind].
  rewrite !length_tabulate. eapply ensures_weaken.
  - apply (code_range_ensures (seq 0 t) len d M rows) with (h := h)
      (base := tabulate t (λ k, tabulate len (h k))); try done; try lia.
    + intros k. rewrite length_seq. apply Hrows.
    + apply NoDup_seq.
    + intros y Hy. rewrite length_tabulate. apply list_elem_of_In, in_seq in Hy. lia.
    + apply outputs_are_all; [apply length_tabulate|done].
  - intros s Hs. apply outputs_are_seq in Hs; [|apply length_tabulate]. rewrite Hs.
    apply tabulate_ext. intros k _. apply tabulate_ext. intros j Hj.
    cbn beta. by rewrite decide_True by lia.
Qed.

(** ** The parallel loops compute the same outputs *)
Lemma par_dot_chunk_ok d t len M x (h : nat → Elem) rows row s e :
  0 < d → row < t → s ≤ e → e ≤ len →
  (∀ k, k < t → rows_row rows k = Ok (tabulate d (M k))) →
  par_dot_chunk d rows (tabulate d (λ i, tabulate len (x i))) row s
    (tabulate (e - s) (λ j, h (s + j)%nat))
  = Ok (tabulate (e - s) (λ j, dot d M x row (s + j)%nat)).
Proof.
  intros Hd Hrow Hs He Hrows. unfold par_dot_chunk. rewrite Hrows by done. cbn [obind].
  rewrite length_tabulate. replace (s + (e - s))%nat with e by lia.
  rewrite (index_tabulate d (M row)) by done. cbn [obind].
  rewrite (index_tabulate d (λ i, tabulate len (x i))) by done. cbn [obind].
  rewrite slice_tabulate by done. cbn [obind]. rewrite mul_slice_tabulate. cbn [or_panic obind].
  apply ensures_exact. apply (for_range_post _ _ _ (λ i c,
    c = tabulate (e - s) (λ j, bsum i (λ l, M row l * x l (s + j)%nat)))).
  - lia.
  - apply tabulate_ext. intros j Hj. cbn. ring.
  - intros i c Hi ->. rewrite (index_tabulate d (M row)) by lia. cbn [obind].
    rewrite (index_tabulate d (λ i, tabulate len (x i))) by lia. cbn [obind].
    rewrite slice_tabulate by done. cbn [obind]. by rewrite mul_slice_add_tabulate.
  - done.
Qed.

Lemma code_some_slices_par_ok order d t len M x h rows chunk_len jobs :
  0 < d → 0 < len →
  is_schedule order (output_chunk_tasks (replicate t len) len chunk_len jobs) →
  (∀ k, k < t → rows_row rows k = Ok (tabulate d (M k))) →
  code_some_slices_par_chunked_with_jobs order d rows (tabulate d (λ i, tabulate len (x i)))
    (tabulate t (λ k, tabulate len (h k)))
  = Ok (tabulate t (λ k, tabulate len (dot d M x k))).
Proof.
  intros Hd Hl Hsch Hrows. unfold code_some_slices_par_chunked_with_jobs.
  destruct (tabulate d (λ i, tabulate len (x i))) as [|in0 ins] eqn:Hins.
  { apply (f_equal length) in Hins. rewrite length_tabulate in Hins. simpl in Hins. lia. }
  assert (length in0 = len) as ->.
  { apply (f_equal (.!! 0%nat)) in Hins. rewrite lookup_tabulate in Hins by done.
    injection Hins as <-. apply length_tabulate. }
  rewrite decide_False by lia. rewrite <-Hins.
  apply (run_schedule t len chunk_len jobs); [done|].
  intros r s e Hr Hs He. by apply (par_dot_chunk_ok d t len M x (h r)).
Qed.

Lemma code_single_slice_par_ok order d t len M i (x : nat → Elem) h rows chunk_len jobs :
  i < d → 0 < len →
  is_schedule order (output_chunk_tasks (replicate t len) len chunk_len jobs) →
  (∀ k, k < t → rows_row rows k = Ok (tabulate d (M k))) →
  code_single_slice_par_chunked order rows i (tabulate len x)
    (tabulate t (λ k, tabulate len (h k)))
  = Ok (tabulate t (λ k, tabulate len (coded M i x h k))).
Proof.
  intros Hi Hl Hsch Hrows. unfold code_single_slice_par_chunked.
  rewrite length_tabulate, decide_False by lia.
  apply (run_schedule t len chunk_len jobs); [done|].
  intros r s e Hr Hs He. unfold par_single_chunk. rewrite Hrows by done. cbn [obind].
  rewrite index_tabulate by done. cbn [obind]. rewrite length_tabulate.
  replace (s + (e - s))%nat with e by lia.
  rewrite slice_tabulate by done. cbn [obind]. unfold coded.
  destruct (decide (i = 0)%nat).
  - by rewrite mul_slice_tabulate.
  - by rewrite mul_slice_add_tabulate.
Qed.

(** ** Selected outputs *)
Lemma selected_targets_ok {E} n offset next indices :
  StronglySorted lt indices →
  (∀ i, i ∈ indices → offset + next ≤ i ∧ i < offset + n) →
  selected_targets (E:=E) n offset next indices = Ok (map (λ i, i - offset)%nat indices).
Proof.
  revert next. induction indices as [|i l IH]; intros next Hs Hb; [done|].
  apply StronglySorted_inv in Hs as [Hs Hall]. simpl.
  destruct (Hb i) as [H1 H2]; [left|].
  rewrite !decide_False by lia. rewrite IH; [done|done|].
  intros i' Hi'. rewrite List.Forall_forall in Hall.
  assert (i < i') by (apply Hall; by apply list_elem_of_In).
  destruct (Hb i') as [? ?]; [by right|]. lia.
Qed.

Lemma sorted_nodup (l : list nat) (f : nat → nat) :
  StronglySorted lt l → (∀ a b, a ∈ l → b ∈ l → a < b → f a < f b) → NoDup (map f l).
Proof.
  induction 1 as [|a l Hs IH Hall]; intros Hf; [constructor|]. simpl.
  rewrite List.Forall_forall in Hall. apply NoDup_cons. split.
  - intros Hin. apply list_elem_of_In, in_map_iff in Hin as (b & Hb & Hin).
    assert (f a < f b); [|lia]. apply Hf; [left|right; by apply list_elem_of_In|by apply Hall].
  - apply IH. intros b c Hb Hc. apply Hf; by right.
Qed.
End dot_products.

(** ** Properties *)
Section properties.
Context {F : Field} {FL : FieldLaws F}.

(** with [d] inputs and a row of [d] coefficients for each
    output, all of one positive length, the serial loop, whatever its chunk
    length, and the parallel loop, whatever the schedule, chunk length and
    job count, never panic and leave in element [j] of output [k] the sum of
    row [k] times element [j] of the inputs. *)
Theorem coding_loops_dot order d t len chunk_len jobs
    (M x h : nat → nat → Elem) (rows : MatrixRows)
    (Hd : 0 < d) (Hlen : 0 < len)
    (Hrows : ∀ k, k < t → rows_row rows k = Ok (tabulate d (M k)))
    (Horder : is_schedule order
       (output_chunk_tasks (replicate t len) len chunk_len jobs)) :
  let inputs := tabulate d (λ i, tabulate len (x i)) in
  let outputs := tabulate t (λ k, tabulate len (h k)) in
  let result := tabulate t (λ k, tabulate len (λ j, bsum d (λ i, M k i * x i j))) in
  code_some_slices d rows inputs outputs = Ok result ∧
  code_some_slices_par_chunked_with_jobs order d rows inputs outputs = Ok result.
Proof.
  split; [by apply code_some_slices_ok|].
  by apply (code_some_slices_par_ok order d t len M x h rows chunk_len jobs).
Qed.
End properties.
