(* ===== verification/Encode.v ===== *)
(** * Encoding ([src/core/encode.rs], lines 131-187 and 766-1355)

    The public encoders of the codec: [encode], [encode_sep], [encode_single],
    the incremental [update], and the parallel versions.  A mutable slice of
    shards is passed in and its new contents are returned; on [Err] the
    contents are not tracked.

    In the default build [SelectedEncodeKernel::select] returns [None], so
    [try_native_encode] always falls through to the generic Classic path.  The
    Leopard FFT encoders are the class [LeopardEncoders]; the theorems here are
    about the Classic family and about what is handed to an engine. *)

From Stdlib Require Import NArith Lia List Bool Ring.
From Stdlib Require Import Init.Byte.
From stdpp Require Import base numbers list.
From S2P Require Import Prelude Errors Fields LinAlg Matrix Options Leopard InversionCache.
From S2P Require Import Parallel Checks Codec Coding.

Local Open Scope field_scope.

(** The entry points [leopard_gf8_encode] and [leopard_gf16_encode]: data and
    parity counts, data views, parity views; the new parity bytes. *)
Class LeopardEncoders := {
  leopard_gf8_encode :
    nat → nat → list (list byte) → list (list byte) → outcome Error (list (list byte));
  leopard_gf16_encode :
    nat → nat → list (list byte) → list (list byte) → outcome Error (list (list byte));
}.

(** [iter_mut().zip(other)]: the elements past the shorter slice stay. *)
Definition zip_assign {A B} (f : A → B → A) (dst : list A) (src : list B) : list A :=
  zip_with f dst src ++ drop (length src) dst.

Section encode.
Context {F : Field} {RT : Runtime} {St : Storage Elem}
  {L : LruCache (list nat) (CachedMatrix Elem)} {LE : LeopardEncoders}.

(** ** Byte views *)
Record ByteShardViews := mk_views {
  view_data : list (list byte);
  view_parity : list (list byte);
  view_write : list (list byte → list Elem);
}.

(** [ByteShardViews::prepare] *)
Definition prepare (data parity : list (list Elem)) (shard_len : nat)
  : outcome Error ByteShardViews :=
  let! data_bytes := map_outcome (λ slice,
    if decide (length slice ≠ shard_len) then Err IncorrectShardSize else
    let! bytes := ok_or (as_gf8_slice slice) UnsupportedCodecFamily in
    if decide (length bytes ≠ shard_len) then Err IncorrectShardSize else Ok bytes) data in
  let! parity_bytes := map_outcome (λ slice,
    if decide (length slice ≠ shard_len) then Err IncorrectShardSize else
    let! view := ok_or (as_gf8_slice_mut slice) UnsupportedCodecFamily in
    if decide (length view.1 ≠ shard_len) then Err IncorrectShardSize else Ok view) parity in
  Ok (mk_views data_bytes (map fst parity_bytes) (map snd parity_bytes)).

Definition encode_leopard_sep_inner (self : ReedSolomon) (data parity : list (list Elem))
    (encode_fn : nat → nat → list (list byte) → list (list byte) →
      outcome Error (list (list byte)))
    : outcome Error (list (list Elem)) :=
  let! first := ok_or (head data) TooFewDataShards in
  let! shards := prepare data parity (length first) in
  let! bytes := encode_fn (data_shard_count self) (parity_shard_count self)
    (view_data shards) (view_parity shards) in
  Ok (zip_with (λ write b, write b) (view_write shards) bytes).

Definition encode_leopard_gf8_sep (self : ReedSolomon) (data parity : list (list Elem)) :=
  encode_leopard_sep_inner self data parity leopard_gf8_encode.
Definition encode_leopard_gf16_sep (self : ReedSolomon) (data parity : list (list Elem)) :=
  encode_leopard_sep_inner self data parity leopard_gf16_encode.

(** ** Serial encoders *)
Definition fast_one_parity_enabled (self : ReedSolomon) : bool :=
  exec_fast_one_parity (rs_options self) && bool_decide (parity_shard_count self = 1%nat).

Definition encode_fast_one_parity (data parity : list (list Elem))
  : outcome Error (list (list Elem)) :=
  let! output := index parity 0 in
  let! first := index data 0 in
  let! output := copy_from_slice output first in
  let output := fold_left (zip_assign add) (drop 1 data) output in
  update parity 0 output.

Definition encode_single_sep (self : ReedSolomon) (i_data : nat)
    (single_data : list Elem) (parity : list (list Elem))
    : outcome Error (list (list Elem)) :=
  if is_leopard_gf8_family self || is_leopard_gf16_family self
  then Err UnsupportedCodecFamily else
  let! _ := check_slice_index (data_shard_count self) i_data in
  let! _ := check_piece_count_parity (parity_shard_count self) (length parity) in
  let! _ := check_slices_multi_single parity single_data in
  let! parity_rows := get_parity_rows self in
  code_single_slice (rows_of_range parity_rows) i_data single_data parity.

Definition encode_single (self : ReedSolomon) (i_data : nat) (slices : list (list Elem))
  : outcome Error (list (list Elem)) :=
  if is_leopard_gf8_family self || is_leopard_gf16_family self
  then Err UnsupportedCodecFamily else
  let! _ := check_slice_index (data_shard_count self) i_data in
  let! _ := check_piece_count_all (total_shard_count self) (length slices) in
  let! _ := check_slices_multi slices in
  let! ' (mut_input, output) := split_at slices (data_shard_count self) in
  let! input := index mut_input i_data in
  let! output := encode_single_sep self i_data input output in
  Ok (mut_input ++ output).

Definition encode_classic_matrix (self : ReedSolomon) (data parity : list (list Elem))
  : outcome Error (list (list Elem)) :=
  let! _ := index data 0 in
  let! parity_rows := get_parity_rows self in
  code_some_slices (data_shard_count self) (rows_of_range parity_rows) data parity.

Definition encode_sep (self : ReedSolomon) (data parity : list (list Elem))
  : outcome Error (list (list Elem)) :=
  let! _ := check_piece_count_data (data_shard_count self) (length data) in
  let! _ := check_piece_count_parity (parity_shard_count self) (length parity) in
  let! _ := check_slices_multi_multi data parity in
  if is_leopard_gf8_family self then encode_leopard_gf8_sep self data parity else
  if is_leopard_gf16_family self then encode_leopard_gf16_sep self data parity else
  if fast_one_parity_enabled self then encode_fast_one_parity data parity else
  encode_classic_matrix self data parity.

Definition encode (self : ReedSolomon) (slices : list (list Elem))
  : outcome Error (list (list Elem)) :=
  let! _ := check_piece_count_all (total_shard_count self) (length slices) in
  let! _ := check_slices_multi slices in
  let! ' (input, output) := split_at slices (data_shard_count self) in
  let! output := encode_sep self input output in
  Ok (input ++ output).

(** ** Incremental update *)

(** The validation loop: whether any shard changed. *)
Definition update_changes (shard_len : nat) (new_data : list (option (list Elem)))
  : outcome Error bool :=
  for_each new_data (λ new_shard has_changes,
    match new_shard with
    | None => Ok has_changes
    | Some new => if decide (length new ≠ shard_len) then Err IncorrectShardSize else Ok true
    end) false.

(** One changed shard of the single-parity path. *)
Definition update_fast_step (output : list Elem)
    (shard : list Elem * option (list Elem)) : list Elem :=
  match shard with
  | (old, None) => output
  | (old, Some new) =>
      zip_assign (λ dst '(old_byte, new_byte), dst + (old_byte + new_byte))
        output (zip old new)
  end.

Definition update_fast (old_data : list (list Elem)) (new_data : list (option (list Elem)))
    (output : list Elem) : list Elem :=
  fold_left update_fast_step (zip old_data new_data) output.

(** One changed shard of the matrix path: its chunks in order. *)
Definition update_shard (self : ReedSolomon) (chunk_len i_data : nat) (old new : list Elem)
    (parity : list (list Elem)) : outcome Error (list (list Elem)) :=
  let matrix := format_matrix (rs_format self) in
  for_each (imap pair (zip (chunks (length old) chunk_len) (chunks (length new) chunk_len)))
    (λ '(chunk_index, ((os, oe), (ns, ne))) parity,
      let! old := slice old os oe in
      let! new := slice new ns ne in
      if decide (old = new) then Ok parity else
      let delta := zip_with add old new in
      let start := (chunk_index * chunk_len)%nat in
      let end_ := (start + length delta)%nat in
      for_range 0 (length parity) (λ row parity,
        let! output := index parity row in
        let! coefficient := get matrix (data_shard_count self + row)%nat i_data in
        let! output := update_slice output start end_
          (λ view, or_panic (mul_slice_add coefficient delta view)) in
        update parity row output) parity) parity.

Definition rs_update (self : ReedSolomon) (old_data : list (list Elem))
    (new_data : list (option (list Elem))) (parity : list (list Elem))
    : outcome Error (list (list Elem)) :=
  if is_leopard_gf8_family self || is_leopard_gf16_family self
  then Err UnsupportedCodecFamily else
  let! _ := check_piece_count_data (data_shard_count self) (length old_data) in
  let! _ := check_piece_count_parity (parity_shard_count self) (length parity) in
  let! _ := check_piece_count_data (data_shard_count self) (length new_data) in
  let! _ := check_slices_multi_multi old_data parity in
  let! first := index old_data 0 in
  let shard_len := length first in
  if decide (shard_len = 0%nat) then Err EmptyShard else
  let! has_changes := update_changes shard_len new_data in
  if negb has_changes then Ok parity else
  if fast_one_parity_enabled self then
    let! output := index parity 0 in
    update parity 0 (update_fast old_data new_data output)
  else
    let chunk_len := code_chunk_len shard_len in
    for_each (imap pair (zip old_data new_data)) (λ '(i_data, (old, new)) parity,
      match new with
      | None => Ok parity
      | Some new => update_shard self chunk_len i_data old new parity
      end) parity.

(** ** Parallel encoders.  [order] is the order in which the scheduler runs
    the chunk tasks. *)
Definition parallel_policy_with (self : ReedSolomon)
    (shard_len output_shards : nat) (available_parallelism : N) : ParallelDecision :=
  decide_for_elements (policy_data (rs_policy_cache self)) (N.of_nat shard_len) size_of_elem
    (N.of_nat (data_shard_count self)) (N.of_nat output_shards) available_parallelism.

Definition parallel_policy (self : ReedSolomon) (shard_len output_shards : nat)
  : ParallelDecision :=
  parallel_policy_with self shard_len output_shards
    (available_parallelism (rs_policy_cache self)).

Definition encode_sep_par (order : list task) (self : ReedSolomon)
    (data parity : list (list Elem)) : outcome Error (list (list Elem)) :=
  let! _ := check_piece_count_data (data_shard_count self) (length data) in
  let! _ := check_piece_count_parity (parity_shard_count self) (length parity) in
  let! _ := check_slices_multi_multi data parity in
  if is_leopard_gf8_family self then encode_leopard_gf8_sep self data parity else
  if is_leopard_gf16_family self then encode_leopard_gf16_sep self data parity else
  if fast_one_parity_enabled self then encode_fast_one_parity data parity else
  let! first := index data 0 in
  let decision := parallel_policy self (length first) (length parity) in
  let! parity_rows := get_parity_rows self in
  if use_parallel decision
  then code_some_slices_par_chunked_with_jobs order (data_shard_count self)
         (rows_of_range parity_rows) data parity
  else code_some_slices (data_shard_count self) (rows_of_range parity_rows) data parity.

Definition encode_single_sep_par (order : list task) (self : ReedSolomon) (i_data : nat)
    (single_data : list Elem) (parity : list (list Elem))
    : outcome Error (list (list Elem)) :=
  if is_leopard_gf8_family self || is_leopard_gf16_family self
  then Err UnsupportedCodecFamily else
  let! _ := check_slice_index (data_shard_count self) i_data in
  let! _ := check_piece_count_parity (parity_shard_count self) (length parity) in
  let! _ := check_slices_multi_single parity single_data in
  let! parity_rows := get_parity_rows self in
  let decision := parallel_policy self (length single_data) (length parity) in
  if negb (use_parallel decision)
  then code_single_slice (rows_of_range parity_rows) i_data single_data parity
  else code_single_slice_par_chunked order (rows_of_range parity_rows) i_data single_data
         parity.

Definition encode_single_sep_opt := encode_single_sep_par.

Definition encode_single_opt (order : list task) (self : ReedSolomon) (i_data : nat)
    (slices : list (list Elem)) : outcome Error (list (list Elem)) :=
  if is_leopard_gf8_family self || is_leopard_gf16_family self
  then Err UnsupportedCodecFamily else
  let! _ := check_slice_index (data_shard_count self) i_data in
  let! _ := check_piece_count_all (total_shard_count self) (length slices) in
  let! _ := check_slices_multi slices in
  let! ' (mut_input, output) := split_at slices (data_shard_count self) in
  let! input := index mut_input i_data in
  let! output := encode_single_sep_par order self i_data input output in
  Ok (mut_input ++ output).

Definition encode_par (order : list task) (self : ReedSolomon) (slices : list (list Elem))
  : outcome Error (list (list Elem)) :=
  let! _ := check_piece_count_all (total_shard_count self) (length slices) in
  let! _ := check_slices_multi slices in
  let! ' (input, output) := split_at slices (data_shard_count self) in
  let! output := encode_sep_par order self input output in
  Ok (input ++ output).
End encode.

(** ** The specification *)
Section specification.
Context {F : Field}.

(** Element [j] of shard [i]. *)
Definition shard_elem (shards : list (list Elem)) (i j : nat) : Elem :=
  default 0 (shards !! i ≫= (.!! j)).

(** The parity shards of [data] under the encoding matrix [M]. *)
Definition parity_of (M : nat → nat → Elem) (d p len : nat) (data : list (list Elem))
  : list (list Elem) :=
  tabulate p (λ k, tabulate len (dot d (λ k, M (d + k)%nat) (shard_elem data) k)).

(** [data] and [parity] as [encode_sep] wants them. *)
Definition sep_layout (d p len : nat) (data parity : list (list Elem)) : Prop :=
  length data = d ∧ length parity = p ∧ 0 < len ∧ all_len len data ∧ all_len len parity.

(** The data shards after an update. *)
Definition patched (old : list (list Elem)) (new : list (option (list Elem)))
  : list (list Elem) := zip_with default old new.

Definition valid_update (len : nat) (new : list (option (list Elem))) : Prop :=
  Forall (λ o, ∀ s, o = Some s → length s = len) new.

Definition whole_layout (n len : nat) (shards : list (list Elem)) : Prop :=
  length shards = n ∧ 0 < len ∧ all_len len shards.

(** The abstract code: [n] shards of [len] elements in which every column is
    the product of the encoding matrix with its first [d] elements. *)
Definition codeword (M : nat → nat → Elem) (d n len : nat) (shards : list (list Elem))
  : Prop :=
  whole_layout n len shards ∧
  ∀ r j, r < n → j < len →
    shard_elem shards r j = row_dot d M (λ c, shard_elem shards c j) r.
End specification.

Section lemmas.
Context {F : Field} {FL : FieldLaws F} {RT : Runtime} {St : Storage Elem}
  {L : LruCache (list nat) (CachedMatrix Elem)} {LE : LeopardEncoders}.
Add Ring elem_ring : field_ring_theory (morphism field_ring_morph, constants [field_const]).
Implicit Types (data parity shards : list (list Elem)) (self : ReedSolomon).

Lemma shards_tabulate n len shards :
  length shards = n → all_len len shards →
  shards = tabulate n (λ i, tabulate len (shard_elem shards i)).
Proof. intros <- Hl. by apply rectangle_tabulate. Qed.

Lemma shard_elem_tabulate n len f i j :
  i < n → j < len → shard_elem (tabulate n (λ i, tabulate len (f i))) i j = f i j.
Proof.
  intros Hi Hj. unfold shard_elem. rewrite lookup_tabulate by done. simpl.
  by rewrite lookup_tabulate.
Qed.

Lemma all_len_tabulate n len (f : nat → nat → Elem) :
  all_len len (tabulate n (λ i, tabulate len (f i))).
Proof.
  apply Forall_forall. intros x Hx. unfold tabulate in Hx at 1.
  apply list_elem_of_In, in_map_iff in Hx as (i & <- & _). apply length_tabulate.
Qed.

Lemma parity_of_ext M d p len data data' :
  (∀ i j, i < d → j < len → shard_elem data i j = shard_elem data' i j) →
  parity_of M d p len data = parity_of M d p len data'.
Proof.
  intros H. apply tabulate_ext. intros k _. apply tabulate_ext. intros j Hj.
  apply bsum_ext. intros i Hi. by rewrite H.
Qed.

Lemma classic_not_leopard self M :
  classic_codec self M →
  is_leopard_gf8_family self = false ∧ is_leopard_gf16_family self = false.
Proof.
  intros Hc. unfold is_leopard_gf8_family, is_leopard_gf16_family.
  by rewrite (cc_family _ _ Hc).
Qed.

(** The parity rows of a Classic codec. *)
Lemma parity_rows_ok {E} self M :
  classic_codec self M →
  ∃ v, get_parity_rows (E:=E) self = Ok v ∧
    ∀ k, k < parity_shard_count self →
      rows_row (rows_of_range v) k
      = Ok (tabulate (data_shard_count self) (M (data_shard_count self + k)%nat)).
Proof.
  intros Hc. unfold get_parity_rows.
  destruct (row_range_spec (E:=E) _ _ _ M (data_shard_count self) (total_shard_count self)
    (cc_rep _ _ Hc)) as (v & Hv & _ & _).
  { unfold total_shard_count, data_shard_count. lia. }
  { done. }
  exists v. split; [done|]. intros k Hk.
  destruct (row_range_spec (E:=Error) _ _ _ M (data_shard_count self) (total_shard_count self)
    (cc_rep _ _ Hc)) as (v' & Hv' & _ & Hrow).
  { unfold total_shard_count, data_shard_count. lia. }
  { done. }
  assert (v = v') as ->.
  { unfold row_range in Hv, Hv'. case_decide; [|done]. congruence. }
  apply Hrow. unfold total_shard_count, parity_shard_count, data_shard_count in *. lia.
Qed.

(** ** Codewords *)
Lemma shards_ext len n shards shards' :
  length shards = n → length shards' = n → all_len len shards → all_len len shards' →
  (∀ i j, i < n → j < len → shard_elem shards i j = shard_elem shards' i j) →
  shards = shards'.
Proof.
  intros H1 H2 H3 H4 H. rewrite (shards_tabulate n len shards) by done.
  rewrite (shards_tabulate n len shards') by done.
  apply tabulate_ext. intros i Hi. apply tabulate_ext. intros j Hj. by apply H.
Qed.

Lemma shard_elem_take n shards i j :
  i < n → shard_elem (take n shards) i j = shard_elem shards i j.
Proof. intros Hi. unfold shard_elem. by rewrite lookup_take_lt. Qed.

Lemma shard_elem_drop n shards i j :
  shard_elem (drop n shards) i j = shard_elem shards (n + i)%nat j.
Proof. unfold shard_elem. by rewrite lookup_drop. Qed.

Lemma shard_elem_parity M d p len data k j :
  k < p → j < len →
  shard_elem (parity_of M d p len data) k j
  = row_dot d M (λ c, shard_elem data c j) (d + k)%nat.
Proof. intros Hk Hj. unfold parity_of. by rewrite shard_elem_tabulate. Qed.

Lemma row_dot_ext d M (x y : nat → Elem) r :
  (∀ c, c < d → x c = y c) → row_dot d M x r = row_dot d M y r.
Proof. intros H. apply bsum_ext. intros c Hc. by rewrite H. Qed.

Lemma codeword_parity M d p len shards :
  systematic d M → whole_layout (d + p) len shards →
  codeword M d (d + p) len shards ↔ drop d shards = parity_of M d p len (take d shards).
Proof.
  intros HM Hl. pose proof Hl as (H1 & H2 & H3). split.
  - intros [_ Hcw]. apply (shards_ext len p).
    + rewrite length_drop. lia.
    + apply length_tabulate.
    + by apply Forall_drop.
    + apply all_len_tabulate.
    + intros k j Hk Hj. rewrite shard_elem_drop, Hcw, shard_elem_parity by lia.
      apply row_dot_ext. intros c Hc. by rewrite shard_elem_take.
  - intros Hp. split; [done|]. intros r j Hr Hj.
    destruct (decide (r < d)) as [Hrd|Hrd].
    + unfold row_dot. rewrite (bsum_ext d _ (λ c, shard_elem shards c j * delta r c)).
      * by rewrite bsum_delta_sym.
      * intros c Hc. rewrite HM by done. ring.
    + replace r with (d + (r - d))%nat by lia.
      rewrite <-shard_elem_drop, Hp, shard_elem_parity by lia.
      apply row_dot_ext. intros c Hc. by rewrite shard_elem_take.
Qed.

Lemma codeword_encoded M d p len data parity :
  systematic d M → sep_layout d p len data parity →
  codeword M d (d + p) len (data ++ parity_of M d p len data).
Proof.
  intros HM (H1 & H2 & H3 & H4 & H5). apply codeword_parity; [done| |].
  - split_and!; [rewrite length_app; unfold parity_of; rewrite length_tabulate; lia|done|].
    apply Forall_app. split; [done|apply all_len_tabulate].
  - by rewrite drop_app_length', take_app_length' by done.
Qed.

(** Codewords of an MDS code are determined by any [d] shards. *)
Lemma codeword_unique M d n len shards shards' (l : list nat) :
  mds d n M → codeword M d n len shards → codeword M d n len shards' →
  NoDup l → d ≤ length l → (∀ r, r ∈ l → r < n ∧ shards !! r = shards' !! r) →
  shards = shards'.
Proof.
  intros HM [(H1 & H2 & H3) Hcw] [(H1' & H2' & H3') Hcw'] Hnd Hd Hl.
  apply (shards_ext len n); try done. intros r j Hr Hj. rewrite Hcw, Hcw' by done.
  apply row_dot_ext. apply (mds_agree d n M l); [done|done|done| |].
  - intros i Hi. by apply Hl.
  - intros i Hi. destruct (Hl i Hi) as [Hin E]. rewrite <-Hcw, <-Hcw' by done.
    unfold shard_elem. by rewrite E.
Qed.

(** ** The single-parity fast path *)
Lemma zip_assign_tabulate {A B} (f : A → B → A) n (x : nat → A) (y : nat → B) :
  zip_assign f (tabulate n x) (tabulate n y) = tabulate n (λ j, f (x j) (y j)).
Proof.
  unfold zip_assign. rewrite zip_with_tabulate, drop_ge, app_nil_r; [done|].
  by rewrite !length_tabulate.
Qed.

Lemma fold_xor_tabulate len n (x : nat → nat → Elem) (z : nat → Elem) :
  fold_left (zip_assign add) (tabulate n (λ i, tabulate len (x i))) (tabulate len z)
  = tabulate len (λ j, z j + bsum n (λ i, x i j)).
Proof.
  induction n as [|n IH].
  - simpl. apply tabulate_ext. intros. cbn. ring.
  - unfold tabulate at 1. rewrite seq_S, map_app, fold_left_app. simpl.
    fold (tabulate n (λ i, tabulate len (x i))). rewrite IH, zip_assign_tabulate.
    apply tabulate_ext. intros j _. cbn. ring.
Qed.

Lemma encode_fast_ok d len M (x h : nat → nat → Elem) :
  0 < d → (∀ c, c < d → M d c = 1) →
  encode_fast_one_parity (tabulate d (λ i, tabulate len (x i)))
    (tabulate 1 (λ k, tabulate len (h k)))
  = Ok (tabulate 1 (λ k, tabulate len (dot d (λ k, M (d + k)%nat) x k))).
Proof.
  intros Hd HM. unfold encode_fast_one_parity. rewrite !index_tabulate by lia. cbn [obind].
  unfold copy_from_slice. rewrite decide_True by (by rewrite !length_tabulate). cbn [obind].
  rewrite drop_tabulate, fold_xor_tabulate, update_tabulate by lia. f_equal.
  apply tabulate_ext. intros k Hk. rewrite decide_True by lia. apply tabulate_ext.
  intros j Hj. unfold dot. destruct d as [|d]; [lia|].
  replace (S d - 1)%nat with d by lia. replace k with 0%nat by lia.
  rewrite Nat.add_0_r, (bsum_split 1 d).
  rewrite (bsum_ext d (λ i, M (S d) (1 + i)%nat * x (1 + i)%nat j) (λ i, x (1 + i)%nat j)).
  - cbn [bsum]. rewrite HM by lia. ring.
  - intros i Hi. rewrite HM by lia. ring.
Qed.
End lemmas.

(** ** Layout checks *)

(** The errors of the checks of [encode_sep], each exactly when it is the
    first check that fails. *)
Inductive sep_error {A} (d p : nat) (data parity : list (list A)) : Error → Prop :=
| sep_few_data : length data < d → sep_error d p data parity TooFewDataShards
| sep_many_data : d < length data → sep_error d p data parity TooManyDataShards
| sep_few_parity : length data = d → length parity < p →
    sep_error d p data parity TooFewParityShards
| sep_many_parity : length data = d → p < length parity →
    sep_error d p data parity TooManyParityShards
| sep_empty : length data = d → length parity = p →
    (head data = Some [] ∨ (∃ len, all_len len data) ∧ head parity = Some []) →
    sep_error d p data parity EmptyShard
| sep_size : length data = d → length parity = p →
    (∀ len, ¬ (all_len len data ∧ all_len len parity)) →
    sep_error d p data parity IncorrectShardSize.

Inductive whole_error {A} (n : nat) (shards : list (list A)) : Error → Prop :=
| whole_few : length shards < n → whole_error n shards TooFewShards
| whole_many : n < length shards → whole_error n shards TooManyShards
| whole_empty : length shards = n → head shards = Some [] → whole_error n shards EmptyShard
| whole_size : length shards = n → (∀ len, ¬ all_len len shards) →
    whole_error n shards IncorrectShardSize.

Section layout.
Context {F : Field}.
Implicit Types (data parity shards : list (list Elem)).

Lemma all_len_head len s (l : list (list Elem)) : all_len len (s :: l) → length s = len.
Proof. by inversion 1. Qed.

Lemma whole_cases n shards :
  0 < n →
  (∃ len, whole_layout n len shards) ∨
  ∃ e, whole_error n shards e ∧ ∀ B (k : outcome Error B),
    (let! _ := check_piece_count_all n (length shards) in
     let! _ := check_slices_multi shards in k) = Err e.
Proof.
  intros Hn. unfold check_piece_count_all, check_piece_count.
  case_decide as Hf; [right; exists TooFewShards; by split; [apply whole_few|]|].
  case_decide as Hm; [right; exists TooManyShards; by split; [apply whole_many|]|].
  assert (length shards = n) as Hl by lia. rewrite check_slices_multi_spec.
  destruct shards as [|s l]; [simpl in *; lia|].
  case_decide as Hs.
  { right; exists EmptyShard; split; [|done]. apply whole_empty; [done|]. by destruct s. }
  case_decide as Ha.
  - left. exists (length s). split_and!; [done|lia|done].
  - right; exists IncorrectShardSize; split; [|done].
    apply whole_size; [done|]. intros len Hlen. apply Ha.
    by rewrite (all_len_head _ _ _ Hlen).
Qed.

Lemma whole_checks_ok {B} n len shards (k : outcome Error B) :
  0 < n → whole_layout n len shards →
  (let! _ := check_piece_count_all n (length shards) in
   let! _ := check_slices_multi shards in k) = k.
Proof.
  intros Hn (<- & Hlen & Ha). unfold check_piece_count_all. rewrite check_piece_count_ok.
  cbn [obind]. rewrite (check_slices_multi_ok _ len); try done.
  by destruct shards; [simpl in *; lia|].
Qed.

Lemma whole_checks {B} n shards (k : outcome Error B) Q (R : Error → Prop) :
  0 < n →
  (∀ len, whole_layout n len shards → ensures k Q R) →
  (∀ e, whole_error n shards e → R e) →
  ensures (let! _ := check_piece_count_all n (length shards) in
           let! _ := check_slices_multi shards in k) Q R.
Proof.
  intros Hn Hk HR. destruct (whole_cases n shards Hn) as [[len Hl]|(e & He & ->)].
  - rewrite (whole_checks_ok n len) by done. by apply (Hk len).
  - by apply HR.
Qed.

Lemma sep_cases d p data parity :
  0 < d → 0 < p →
  (∃ len, sep_layout d p len data parity) ∨
  ∃ e, sep_error d p data parity e ∧ ∀ B (k : outcome Error B),
    (let! _ := check_piece_count_data d (length data) in
     let! _ := check_piece_count_parity p (length parity) in
     let! _ := check_slices_multi_multi data parity in k) = Err e.
Proof.
  intros Hd Hp. unfold check_piece_count_data, check_piece_count_parity, check_piece_count.
  case_decide; [right; exists TooFewDataShards; by split; [apply sep_few_data|]|].
  case_decide; [right; exists TooManyDataShards; by split; [apply sep_many_data|]|].
  assert (length data = d) as Hld by lia. cbn [obind].
  case_decide; [right; exists TooFewParityShards; by split; [apply sep_few_parity|]|].
  case_decide; [right; exists TooManyParityShards; by split; [apply sep_many_parity|]|].
  assert (length parity = p) as Hlp by lia. cbn [obind].
  unfold check_slices_multi_multi. rewrite !check_slices_multi_spec.
  destruct data as [|s l]; [simpl in *; lia|]. destruct parity as [|s' r]; [simpl in *; lia|].
  destruct (decide (length s = 0)%nat) as [Hs|Hs].
  { right; exists EmptyShard; split; [|done]. apply sep_empty; [done|done|]. left.
    by destruct s. }
  destruct (decide (all_len (length s) (s :: l))) as [Ha|Ha]; cbn [obind].
  2:{ right; exists IncorrectShardSize; split; [|done]. apply sep_size; [done|done|].
      intros len [Hx _]. apply Ha. by rewrite (all_len_head _ _ _ Hx). }
  destruct (decide (length s' = 0)%nat) as [Hs'|Hs'].
  { right; exists EmptyShard; split; [|done]. apply sep_empty; [done|done|]. right.
    split; [by exists (length s)|]. by destruct s'. }
  destruct (decide (all_len (length s') (s' :: r))) as [Ha'|Ha']; cbn [obind].
  2:{ right; exists IncorrectShardSize; split; [|done]. apply sep_size; [done|done|].
      intros len [_ Hx]. apply Ha'. by rewrite (all_len_head _ _ _ Hx). }
  unfold index, check_slices_single_single. cbn [lookup list_lookup obind].
  case_decide as Hne; cbn [obind].
  - right; exists IncorrectShardSize; split; [|done]. apply sep_size; [done|done|].
    intros len [Hx Hy]. by rewrite (all_len_head _ _ _ Hx), (all_len_head _ _ _ Hy) in Hne.
  - left. exists (length s). split_and!; try done; [lia|]. by rewrite Hne.
Qed.

Lemma sep_checks_ok {B} d p len data parity (k : outcome Error B) :
  0 < d → 0 < p → sep_layout d p len data parity →
  (let! _ := check_piece_count_data d (length data) in
   let! _ := check_piece_count_parity p (length parity) in
   let! _ := check_slices_multi_multi data parity in k) = k.
Proof.
  intros Hd Hp (<- & <- & Hlen & Ha & Ha').
  unfold check_piece_count_data, check_piece_count_parity.
  rewrite !check_piece_count_ok. cbn [obind].
  rewrite (check_slices_multi_multi_ok _ _ len); try done.
  - by destruct data; [simpl in *; lia|].
  - by destruct parity; [simpl in *; lia|].
Qed.

Lemma sep_checks {B} d p data parity (k : outcome Error B) Q (R : Error → Prop) :
  0 < d → 0 < p →
  (∀ len, sep_layout d p len data parity → ensures k Q R) →
  (∀ e, sep_error d p data parity e → R e) →
  ensures (let! _ := check_piece_count_data d (length data) in
           let! _ := check_piece_count_parity p (length parity) in
           let! _ := check_slices_multi_multi data parity in k) Q R.
Proof.
  intros Hd Hp Hk HR. destruct (sep_cases d p data parity Hd Hp) as [[len Hl]|(e & He & ->)].
  - rewrite (sep_checks_ok d p len) by done. by apply (Hk len).
  - by apply HR.
Qed.

(** The two halves of a full shard set. *)
Lemma whole_split d p len shards :
  whole_layout (d + p) len shards → sep_layout d p len (take d shards) (drop d shards).
Proof.
  intros (Hl & Hlen & Ha). split_and!; try done.
  - rewrite length_take. lia.
  - rewrite length_drop. lia.
  - by apply Forall_take.
  - by apply Forall_drop.
Qed.
End layout.

(** ** The Classic encoders on well-formed shards *)
Section classic.
Context {F : Field} {FL : FieldLaws F} {RT : Runtime} {St : Storage Elem}
  {L : LruCache (list nat) (CachedMatrix Elem)} {LE : LeopardEncoders}.
Add Ring elem_ring : field_ring_theory (morphism field_ring_morph, constants [field_const]).
Context (self : ReedSolomon) (M : nat → nat → Elem) (Hc : classic_codec self M).
Implicit Types (data parity shards : list (list Elem)).
#[local] Abbreviation d := (data_shard_count self).
#[local] Abbreviation p := (parity_shard_count self).

Let Hd : 0 < d := cc_data _ _ Hc.
Let Hp : 0 < p := cc_parity _ _ Hc.

Lemma fast_mode :
  fast_one_parity_enabled self = true → p = 1%nat ∧ ∀ c, c < d → M d c = 1.
Proof.
  intros [Hf Hp1%bool_decide_eq_true]%andb_true_iff. split; [done|].
  by apply (cc_fast _ _ Hc).
Qed.

Lemma encode_classic_ok len data parity :
  sep_layout d p len data parity →
  (if fast_one_parity_enabled self then encode_fast_one_parity data parity
   else encode_classic_matrix self data parity) = Ok (parity_of M d p len data).
Proof.
  intros (Hld & Hlp & Hlen & Had & Hap).
  unfold parity_of. pose proof (shards_tabulate d len data Hld Had) as Hx.
  set (x := shard_elem data) in *. clearbody x. rewrite Hx.
  rewrite (shards_tabulate p len parity) by done.
  destruct (fast_one_parity_enabled self) eqn:Hf.
  - destruct (fast_mode Hf) as [Hp1 Hones]. rewrite Hp1.
    by apply (encode_fast_ok d len M).
  - unfold encode_classic_matrix. rewrite index_tabulate by done. cbn [obind].
    destruct (parity_rows_ok (E:=Error) self M Hc) as (v & -> & Hrows). cbn [obind].
    by apply code_some_slices_ok.
Qed.

Lemma encode_sep_unfold data parity :
  encode_sep self data parity =
  let! _ := check_piece_count_data d (length data) in
  let! _ := check_piece_count_parity p (length parity) in
  let! _ := check_slices_multi_multi data parity in
  if fast_one_parity_enabled self then encode_fast_one_parity data parity
  else encode_classic_matrix self data parity.
Proof. unfold encode_sep. by destruct (classic_not_leopard _ _ Hc) as [-> ->]. Qed.

Lemma encode_sep_ok len data parity :
  sep_layout d p len data parity →
  encode_sep self data parity = Ok (parity_of M d p len data).
Proof.
  intros Hl. rewrite encode_sep_unfold, (sep_checks_ok _ _ len) by done.
  by apply encode_classic_ok.
Qed.

Lemma encode_sep_ensures data parity :
  ensures (encode_sep self data parity)
    (λ out, ∃ len, sep_layout d p len data parity ∧ out = parity_of M d p len data)
    (sep_error d p data parity).
Proof.
  rewrite encode_sep_unfold. apply sep_checks; [done|done| |done].
  intros len Hl. rewrite (encode_classic_ok len) by done. by exists len.
Qed.

Lemma total_count : total_shard_count self = (d + p)%nat.
Proof. done. Qed.

Lemma encode_ok len shards :
  whole_layout (d + p) len shards →
  encode self shards = Ok (take d shards ++ parity_of M d p len (take d shards)).
Proof.
  intros Hl. unfold encode. rewrite total_count, (whole_checks_ok _ len) by (done || lia).
  pose proof (whole_split _ _ _ _ Hl) as Hs. destruct Hl as [Hl _].
  unfold split_at. rewrite decide_True by lia. cbn [obind].
  by rewrite (encode_sep_ok len).
Qed.

Lemma encode_ensures shards :
  ensures (encode self shards)
    (λ out, ∃ len, whole_layout (d + p) len shards ∧
       out = take d shards ++ parity_of M d p len (take d shards))
    (whole_error (d + p) shards).
Proof.
  unfold encode. rewrite total_count. apply whole_checks; [lia| |done].
  intros len Hl. pose proof (encode_ok len shards Hl) as H. unfold encode in H.
  rewrite total_count, (whole_checks_ok _ len) in H by (done || lia). rewrite H.
  by exists len.
Qed.

(** ** One shard at a time *)
Lemma encode_single_sep_ok i len (x : nat → Elem) h :
  i < d → 0 < len →
  encode_single_sep self i (tabulate len x) (tabulate p (λ k, tabulate len (h k)))
  = Ok (tabulate p (λ k, tabulate len (coded (λ k, M (d + k)%nat) i x h k))).
Proof.
  intros Hi Hlen. unfold encode_single_sep. destruct (classic_not_leopard _ _ Hc) as [-> ->].
  cbn [orb]. unfold check_slice_index. rewrite decide_False by lia. cbn [obind].
  unfold check_piece_count_parity. rewrite length_tabulate, check_piece_count_ok.
  cbn [obind]. rewrite (check_slices_multi_single_ok _ _ len); cycle 1.
  { intros H. apply (f_equal length) in H. rewrite length_tabulate in H. simpl in H. lia. }
  { done. }
  { apply all_len_tabulate. }
  { apply length_tabulate. }
  cbn [obind]. destruct (parity_rows_ok (E:=Error) self M Hc) as (v & -> & Hrows).
  cbn [obind]. by apply (code_single_slice_ok d p len).
Qed.

(** The parity after the first [i] data shards. *)
Definition partial_parity (i len : nat) data parity : list (list Elem) :=
  if decide (i = 0%nat) then parity else
  tabulate p (λ k, tabulate len (λ j, bsum i (λ l, M (d + k)%nat l * shard_elem data l j))).

Lemma partial_parity_full len data parity :
  partial_parity d len data parity = parity_of M d p len data.
Proof. unfold partial_parity. by rewrite decide_False by lia. Qed.

Lemma partial_parity_len i len data parity :
  length parity = p → all_len len parity →
  length (partial_parity i len data parity) = p ∧
  all_len len (partial_parity i len data parity).
Proof.
  intros H1 H2. unfold partial_parity. case_decide; [done|].
  split; [apply length_tabulate|apply all_len_tabulate].
Qed.

Lemma encode_single_sep_step i len data parity :
  i < d → sep_layout d p len data parity →
  encode_single_sep self i (tabulate len (shard_elem data i)) (partial_parity i len data parity)
  = Ok (partial_parity (S i) len data parity).
Proof.
  intros Hi (Hld & Hlp & Hlen & Had & Hap).
  destruct (partial_parity_len i len data parity Hlp Hap) as [H1 H2].
  rewrite (shards_tabulate p len (partial_parity i len data parity)) by done.
  rewrite encode_single_sep_ok by done. f_equal. unfold partial_parity at 2.
  rewrite decide_False by lia. apply tabulate_ext. intros k Hk. apply tabulate_ext.
  intros j Hj. cbn [bsum]. unfold coded. case_decide as Hi0.
  - subst. cbn [bsum]. ring.
  - unfold partial_parity. rewrite decide_False by done.
    by rewrite shard_elem_tabulate.
Qed.

Lemma data_shard len data i :
  i < d → length data = d → all_len len data →
  index (E:=Error) data i = Ok (tabulate len (shard_elem data i)).
Proof.
  intros Hi Hl Ha. rewrite (shards_tabulate d len data) at 1 by done.
  apply (index_tabulate d (λ i, tabulate len (shard_elem data i))). done.
Qed.

Lemma join_layout len data parity :
  sep_layout d p len data parity → whole_layout (d + p) len (data ++ parity).
Proof.
  intros (H1 & H2 & H3 & H4 & H5). split_and!; [rewrite length_app; lia|done|].
  by apply Forall_app.
Qed.

Lemma encode_single_step i len data parity :
  i < d → sep_layout d p len data parity →
  encode_single self i (data ++ partial_parity i len data parity)
  = Ok (data ++ partial_parity (S i) len data parity).
Proof.
  intros Hi Hl. pose proof Hl as (H1 & H2 & H3 & H4 & H5).
  destruct (partial_parity_len i len data parity H2 H5) as [H6 H7].
  unfold encode_single. destruct (classic_not_leopard _ _ Hc) as [-> ->]. cbn [orb].
  unfold check_slice_index. rewrite decide_False by lia. cbn [obind].
  rewrite total_count, (whole_checks_ok _ len); [|lia|].
  2:{ by apply join_layout. }
  unfold split_at. rewrite decide_True by (rewrite length_app; lia). cbn [obind].
  rewrite take_app_length', drop_app_length' by done.
  rewrite (data_shard len) by done. cbn [obind].
  by rewrite encode_single_sep_step.
Qed.

(** Encoding all data shards one at a time is [encode], errors included. *)
Lemma encode_single_loop shards :
  for_range 0 d (encode_single self) shards = encode self shards.
Proof.
  destruct (whole_cases (d + p) shards) as [[len Hl]|(e & He & Herr)]; [lia| |].
  - rewrite (encode_ok len shards Hl). pose proof (whole_split _ _ _ _ Hl) as Hs.
    apply ensures_exact. apply (for_range_post _ _ _ (λ i s,
      s = take d shards ++ partial_parity i len (take d shards) (drop d shards))).
    + lia.
    + unfold partial_parity. rewrite decide_True by done. by rewrite take_drop.
    + intros i s Hi ->. by rewrite encode_single_step by (done || lia).
    + intros s ->. by rewrite partial_parity_full.
  - unfold encode. rewrite total_count, Herr. unfold for_range.
    replace (d - 0)%nat with (S (d - 1)) by lia. simpl. unfold encode_single.
    destruct (classic_not_leopard _ _ Hc) as [-> ->]. cbn [orb].
    unfold check_slice_index. rewrite decide_False by lia. cbn [obind].
    by rewrite total_count, Herr.
Qed.

(** ** Parallel runs *)

(** [order] is a run of the chunk tasks that the policy's decision creates
    for [n_out] outputs of [len] elements. *)
Definition policy_schedule (order : list task) (len n_out : nat) : Prop :=
  let decision := parallel_policy self len n_out in
  use_parallel decision = true →
  is_schedule order (output_chunk_tasks (replicate n_out len) len
    (N.to_nat (chunk_len decision)) (N.to_nat (jobs decision))).

Lemma encode_sep_par_eq order data parity :
  (∀ first, head data = Some first → policy_schedule order (length first) p) →
  encode_sep_par order self data parity = encode_sep self data parity.
Proof.
  intros Horder. unfold encode_sep_par. destruct (classic_not_leopard _ _ Hc) as [-> ->].
  destruct (sep_cases d p data parity Hd Hp) as [[len Hl]|(e & He & Herr)].
  2:{ by rewrite encode_sep_unfold, !Herr. }
  rewrite (encode_sep_ok len) by done. rewrite (sep_checks_ok _ _ len) by done.
  pose proof (encode_classic_ok len data parity Hl) as Hser.
  destruct (fast_one_parity_enabled self) eqn:Hf; [done|].
  unfold encode_classic_matrix in Hser. destruct Hl as (Hld & Hlp & Hlen & Had & Hap).
  destruct (parity_rows_ok (E:=Error) self M Hc) as (v & Hv & Hrows).
  rewrite Hv in *. rewrite (data_shard len) in * by done. cbn [obind] in *.
  rewrite length_tabulate.
  destruct (use_parallel (parallel_policy self len (length parity))) eqn:Hup; [|done].
  rewrite Hlp in Hup.
  assert (policy_schedule order len p) as Hsch.
  { destruct data as [|s l]; [simpl in *; lia|].
    rewrite <-(all_len_head _ _ _ Had). by apply Horder. }
  specialize (Hsch Hup). unfold parity_of.
  pose proof (shards_tabulate d len data Hld Had) as Hx.
  set (x := shard_elem data) in *. clearbody x. rewrite Hx.
  rewrite (shards_tabulate p len parity) by done.
  by eapply code_some_slices_par_ok.
Qed.

Lemma encode_single_sep_par_eq order i single parity :
  policy_schedule order (length single) p →
  encode_single_sep_par order self i single parity = encode_single_sep self i single parity.
Proof.
  intros Horder. unfold encode_single_sep_par, encode_single_sep.
  destruct (_ || _); [done|]. unfold check_slice_index. case_decide as Hi; [done|].
  cbn [obind]. destruct (check_piece_count_parity p (length parity)) as [[]| |] eqn:Hcp; try done.
  apply check_piece_count_inv in Hcp. cbn [obind].
  destruct (check_slices_multi_single parity single) as [[]| |] eqn:Hcs; try done.
  cbn [obind]. destruct (parity_rows_ok (E:=Error) self M Hc) as (v & -> & Hrows).
  cbn [obind]. rewrite Hcp.
  destruct (use_parallel (parallel_policy self (length single) p)) eqn:Hup; [|done].
  cbn [negb]. specialize (Horder Hup).
  assert (0 < length single ∧ all_len (length single) parity) as [Hlen Hap].
  { unfold check_slices_multi_single in Hcs. rewrite check_slices_multi_spec in Hcs.
    destruct parity as [|s l]; [done|]. repeat case_decide; try done. cbn [obind] in Hcs.
    unfold index, check_slices_single_single in Hcs. cbn [lookup list_lookup obind] in Hcs.
    case_decide as Hne; [done|]. rewrite <-Hne. split; [lia|done]. }
  assert (single = tabulate (length single) (λ j, default 0 (single !! j))) as Hx.
  { apply eq_tabulate; [done|]. intros j Hj.
    destruct (lookup_lt_is_Some_2 single j Hj) as [y Hy]. by rewrite Hy. }
  revert Hlen Hap Horder Hup Hx. generalize (length single) as len.
  generalize (λ j, default 0 (single !! j)) as x. intros x len Hlen Hap Horder Hup ->.
  rewrite (shards_tabulate p len parity) by done.
  rewrite (code_single_slice_ok d p len (λ k, M (d + k)%nat)) by (done || lia).
  eapply code_single_slice_par_ok; [|done|exact Horder|done]. lia.
Qed.

(** ** Incremental update *)
Lemma lookup_chunk_pairs len n k x :
  imap pair (zip (chunks len n) (chunks len n)) !! k = Some x →
  k < nat_div_ceil len n ∧
  x = (k, ((k * n, Nat.min ((k + 1) * n) len), (k * n, Nat.min ((k + 1) * n) len)))%nat.
Proof.
  rewrite list_lookup_imap, lookup_zip_with. unfold chunks. rewrite lookup_map.
  destruct (seq 0 (nat_div_ceil len n) !! k) as [i|] eqn:Hi; [|done].
  apply lookup_seq in Hi as [-> Hi]. simpl. intros [= <-]. done.
Qed.

Lemma length_chunk_pairs len n :
  length (imap pair (zip (chunks len n) (chunks len n))) = nat_div_ceil len n.
Proof.
  rewrite length_imap, length_zip_with. unfold chunks. rewrite length_map, length_seq. lia.
Qed.

(** Adding [c k * delta] to the elements [s..e] of every parity row. *)
Lemma update_rows_ok i len s e (dl : nat → Elem) h :
  i < d → s ≤ e → e ≤ len →
  for_range (E:=Error) 0 p (λ row parity,
    let! output := index parity row in
    let! coefficient := get (format_matrix (rs_format self)) (d + row)%nat i in
    let! output := update_slice output s e
      (λ view, or_panic (mul_slice_add coefficient (tabulate (e - s) dl) view)) in
    update parity row output) (tabulate p (λ k, tabulate len (h k)))
  = Ok (tabulate p (λ k, tabulate len (λ j,
      if decide (s ≤ j < e) then h k j + M (d + k)%nat i * dl (j - s)%nat else h k j))).
Proof.
  intros Hi Hs He. apply ensures_exact.
  apply (for_range_post _ _ _ (λ r q, q = tabulate p (λ k, tabulate len (λ j,
    if decide (k < r ∧ s ≤ j < e) then h k j + M (d + k)%nat i * dl (j - s)%nat else h k j)))).
  - lia.
  - apply tabulate_ext. intros k _. apply tabulate_ext. intros j _.
    by rewrite decide_False by lia.
  - intros r q Hr ->. rewrite index_tabulate by lia. cbn [obind].
    unfold get. rewrite (acc_ok _ _ _ _ (cc_rep _ _ Hc)) by lia. cbn [obind]. unfold update_slice.
    rewrite slice_tabulate by done. cbn [obind]. rewrite mul_slice_add_tabulate.
    cbn [or_panic obind]. rewrite splice_tabulate, update_tabulate by lia.
    simpl. apply tabulate_ext. intros k Hk. destruct (decide (k = r)) as [->|Hne].
    + apply tabulate_ext. intros j Hj. repeat case_decide; try lia; [|done].
      by replace (s + (j - s))%nat with j by lia.
    + apply tabulate_ext. intros j Hj. repeat case_decide; try lia; done.
  - intros q ->. apply tabulate_ext. intros k Hk. apply tabulate_ext. intros j Hj.
    repeat case_decide; try lia; done.
Qed.

Lemma update_shard_ok i len (a b : nat → Elem) h :
  i < d → 0 < len →
  update_shard self (code_chunk_len len) i (tabulate len a) (tabulate len b)
    (tabulate p (λ k, tabulate len (h k)))
  = Ok (tabulate p (λ k, tabulate len (λ j, h k j + M (d + k)%nat i * (a j + b j)))).
Proof.
  intros Hi Hlen. pose proof (code_chunk_len_pos len Hlen) as Hcl.
  set (n := code_chunk_len len) in *. unfold update_shard. rewrite !length_tabulate.
  apply ensures_exact.
  apply (for_each_post _ _ (λ m q, q = tabulate p (λ k, tabulate len (λ j,
    if decide (j < m * n) then h k j + M (d + k)%nat i * (a j + b j) else h k j)))).
  - apply tabulate_ext. intros k _. apply tabulate_ext. intros j _.
    by rewrite decide_False by lia.
  - intros m x q Hx ->. apply lookup_chunk_pairs in Hx as [Hm ->].
    set (e := Nat.min ((m + 1) * n) len).
    pose proof (nat_div_ceil_spec len n ltac:(lia)) as Hceil.
    assert (m * n < len) as Hmn by nia.
    rewrite !slice_tabulate by lia. cbn [obind].
    case_decide as Heq.
    + simpl. apply tabulate_ext. intros k _. apply tabulate_ext. intros j Hj.
      destruct (decide (j < m * n)) as [Hj1|Hj1]; [by rewrite decide_True by lia|].
      case_decide as Hj2; [|done].
      pose proof (tabulate_inj _ _ _ Heq (j - m * n)%nat ltac:(lia)) as Hab.
      cbn beta in Hab. replace (m * n + (j - m * n))%nat with j in Hab by lia.
      rewrite Hab. ring.
    + rewrite zip_with_tabulate, !length_tabulate.
      replace (m * n + (e - m * n))%nat with e by lia.
      rewrite update_rows_ok by lia. simpl. apply tabulate_ext. intros k _.
      apply tabulate_ext. intros j Hj. cbn beta.
      replace ((m + 1) * n)%nat with (m * n + n)%nat in * by lia.
      destruct (decide (j < m * n)) as [Hj1|Hj1].
      * rewrite decide_False by lia. by rewrite decide_True by lia.
      * destruct (decide (j < m * n + n)).
        -- rewrite decide_True by lia. rewrite decide_True by lia.
           by replace (m * n + (j - m * n))%nat with j by lia.
        -- rewrite decide_False by lia. by rewrite decide_False by lia.
  - intros q ->. rewrite length_chunk_pairs. apply tabulate_ext. intros k _.
    apply tabulate_ext. intros j Hj.
    pose proof (nat_div_ceil_spec len n ltac:(lia)). by rewrite decide_True by lia.
Qed.

Lemma update_changes_ok len new :
  valid_update len new →
  update_changes len new = Ok (existsb (λ o, bool_decide (is_Some o)) new).
Proof.
  unfold update_changes. intros Hv.
  assert (∀ acc, for_each (E:=Error) new (λ new_shard has_changes,
    match new_shard with
    | None => Ok has_changes
    | Some new => if decide (length new ≠ len) then Err IncorrectShardSize else Ok true
    end) acc = Ok (acc || existsb (λ o, bool_decide (is_Some o)) new)) as H; [|apply (H false)].
  induction Hv as [|o l Ho Hv IH]; intros acc; simpl; [by rewrite orb_false_r|].
  destruct o as [s|]; simpl.
  - rewrite decide_False by (rewrite (Ho s); auto). cbn [obind]. rewrite IH.
    by rewrite orb_true_r.
  - by rewrite IH.
Qed.

(** What the update adds to element [j] of the parity row with
    coefficients [c], from the first [n] data shards. *)
Definition delta_sum (n : nat) (c : nat → Elem) old new (j : nat) : Elem :=
  bsum n (λ i, c i * (shard_elem old i j + shard_elem (patched old new) i j)).

Section update.
Context (len : nat) (old : list (list Elem)) (new : list (option (list Elem))).
Context (Hlen : 0 < len) (Hold : length old = d) (Hnew : length new = d).
Context (Halo : all_len len old) (Hval : valid_update len new).

Lemma length_patched : length (patched old new) = d.
Proof. unfold patched. rewrite length_zip_with. lia. Qed.

Lemma update_input i :
  i < d → ∃ o, zip old new !! i = Some (tabulate len (shard_elem old i), o) ∧
    match o with
    | None => ∀ j, shard_elem (patched old new) i j = shard_elem old i j
    | Some s => s = tabulate len (shard_elem (patched old new) i)
    end.
Proof.
  intros Hi. destruct (lookup_lt_is_Some_2 old i) as [a Ha]; [lia|].
  destruct (lookup_lt_is_Some_2 new i) as [o Ho]; [lia|]. exists o.
  assert (length a = len) as Hal by (by eapply Forall_lookup_1 in Halo).
  assert (patched old new !! i = Some (default a o)) as Hp'.
  { unfold patched. by rewrite lookup_zip_with, Ha, Ho. }
  split.
  - rewrite lookup_zip_with, Ha, Ho. simpl. do 2 f_equal.
    apply eq_tabulate; [done|]. intros j Hj. unfold shard_elem. rewrite Ha. simpl.
    destruct (lookup_lt_is_Some_2 a j) as [y Hy]; [lia|]. by rewrite Hy.
  - destruct o as [s|]; [|intros j; unfold shard_elem; by rewrite Hp', Ha].
    assert (length s = len) as Hsl.
    { unfold valid_update in Hval. eapply Forall_lookup_1 in Hval; [|done]. by apply Hval. }
    apply eq_tabulate; [done|]. intros j Hj. unfold shard_elem. rewrite Hp'. simpl.
    destruct (lookup_lt_is_Some_2 s j) as [y Hy]; [lia|]. by rewrite Hy.
Qed.

Lemma all_len_patched : all_len len (patched old new).
Proof.
  apply Forall_lookup. intros i s Hs. pose proof (lookup_lt_Some _ _ _ Hs) as Hi.
  rewrite length_patched in Hi. unfold patched in Hs. rewrite lookup_zip_with in Hs.
  destruct (old !! i) as [a|] eqn:Ha; [|done]. destruct (new !! i) as [o|] eqn:Ho; [|done].
  simpl in Hs. injection Hs as <-.
  destruct o as [s|]; simpl; [|by eapply Forall_lookup_1 in Halo].
  unfold valid_update in Hval. eapply Forall_lookup_1 in Hval; [|done]. by apply Hval.
Qed.

Lemma update_fast_ok (z : nat → Elem) :
  update_fast old new (tabulate len z)
  = tabulate len (λ j, z j + delta_sum d (λ _, 1) old new j).
Proof.
  unfold update_fast.
  assert (length (zip old new) = d) as Hzl by (rewrite length_zip_with; lia).
  rewrite <-(take_ge (zip old new) d) by lia.
  assert (∀ n, n ≤ d →
    fold_left update_fast_step (take n (zip old new)) (tabulate len z)
    = tabulate len (λ j, z j + delta_sum n (λ _, 1) old new j)) as H; [|by apply H].
  induction n as [|n IH]; intros Hn.
  - simpl. apply tabulate_ext. intros. unfold delta_sum. cbn [bsum]. ring.
  - destruct (update_input n) as (o & Ho & Hs); [lia|].
    erewrite take_S_r by done. rewrite fold_left_app, IH by lia.
    cbn [fold_left update_fast_step]. destruct o as [s|].
    + rewrite Hs, zip_with_tabulate, zip_assign_tabulate.
      apply tabulate_ext. intros j _. unfold delta_sum. cbn [bsum]. ring.
    + apply tabulate_ext. intros j _. unfold delta_sum. cbn [bsum]. rewrite Hs. ring.
Qed.

Lemma update_matrix_ok h :
  for_each (imap pair (zip old new)) (λ '(i_data, (old, new)) parity,
    match new with
    | None => Ok parity
    | Some new => update_shard self (code_chunk_len len) i_data old new parity
    end) (tabulate p (λ k, tabulate len (h k)))
  = Ok (tabulate p (λ k, tabulate len (λ j,
      h k j + delta_sum d (M (d + k)%nat) old new j))).
Proof.
  apply ensures_exact. apply (for_each_post _ _ (λ n q,
    q = tabulate p (λ k, tabulate len (λ j,
      h k j + delta_sum n (M (d + k)%nat) old new j)))).
  - apply tabulate_ext. intros k _. apply tabulate_ext. intros j _.
    unfold delta_sum. cbn [bsum]. ring.
  - intros i x q Hx ->. rewrite list_lookup_imap in Hx.
    assert (i < d) as Hi.
    { destruct (zip old new !! i) eqn:E; [|done]. apply lookup_lt_Some in E.
      rewrite length_zip_with in E. lia. }
    destruct (update_input i Hi) as (o & Ho & Hs). rewrite Ho in Hx.
    injection Hx as <-. destruct o as [s|].
    + rewrite Hs, update_shard_ok by done. simpl. apply tabulate_ext. intros k _.
      apply tabulate_ext. intros j _. unfold delta_sum. cbn [bsum]. ring.
    + simpl. apply tabulate_ext. intros k _. apply tabulate_ext. intros j _.
      unfold delta_sum. cbn [bsum]. rewrite Hs. ring.
  - intros q ->. rewrite length_imap, length_zip_with, Hold, Hnew.
    by rewrite Nat.min_id.
Qed.

Lemma no_changes_patched :
  existsb (λ o, bool_decide (is_Some o)) new = false →
  ∀ i j, shard_elem (patched old new) i j = shard_elem old i j.
Proof.
  intros Hno i j. assert (∀ o, o ∈ new → o = None) as Hall.
  { intros o Ho. destruct o as [s|]; [|done]. exfalso.
    assert (existsb (λ o, bool_decide (is_Some o)) new = true) as Hy; [|congruence].
    apply existsb_exists. exists (Some s). split; [by apply list_elem_of_In|done]. }
  unfold shard_elem, patched. rewrite lookup_zip_with.
  destruct (old !! i) as [a|] eqn:Ha; [|done]. simpl.
  destruct (new !! i) as [o|] eqn:Ho; simpl.
  - rewrite (Hall o) by (by eapply list_elem_of_lookup_2). done.
  - apply lookup_ge_None in Ho. apply lookup_lt_Some in Ha. lia.
Qed.

Lemma rs_update_ok parity :
  length parity = p → all_len len parity →
  rs_update self old new parity
  = Ok (tabulate p (λ k, tabulate len (λ j,
      shard_elem parity k j + delta_sum d (M (d + k)%nat) old new j))).
Proof.
  intros Hlp Hap. unfold rs_update. destruct (classic_not_leopard _ _ Hc) as [-> ->].
  cbn [orb]. unfold check_piece_count_data, check_piece_count_parity.
  rewrite Hold, Hnew, Hlp, !check_piece_count_ok. cbn [obind].
  rewrite (check_slices_multi_multi_ok _ _ len); try done; cycle 1.
  { by destruct old; [simpl in *; lia|]. }
  { by destruct parity; [simpl in *; lia|]. }
  cbn [obind]. rewrite (data_shard len) by done. cbn [obind].
  rewrite length_tabulate, decide_False by lia.
  rewrite update_changes_ok by done. cbn [obind].
  pose proof (shards_tabulate p len parity Hlp Hap) as Hx.
  set (h := shard_elem parity) in *. clearbody h. rewrite Hx.
  destruct (existsb _ _) eqn:Hch; cbn [negb].
  - destruct (fast_one_parity_enabled self) eqn:Hf; [|by apply update_matrix_ok].
    destruct (fast_mode Hf) as [Hp1 Hones]. rewrite Hp1.
    rewrite index_tabulate by lia. cbn [obind]. rewrite update_fast_ok, update_tabulate by lia.
    f_equal. apply tabulate_ext. intros k Hk. rewrite decide_True by lia.
    replace k with 0%nat by lia. rewrite Nat.add_0_r. apply tabulate_ext. intros j _.
    f_equal. apply bsum_ext. intros i Hi. by rewrite Hones.
  - f_equal. apply tabulate_ext. intros k _. apply tabulate_ext. intros j _.
    unfold delta_sum. rewrite bsum_0; [ring|]. intros i Hi.
    rewrite no_changes_patched by done. ring.
Qed.

(** Updating the parity of the old data gives the parity of the new data. *)
Lemma rs_update_parity :
  rs_update self old new (parity_of M d p len old)
  = Ok (parity_of M d p len (patched old new)).
Proof.
  unfold parity_of at 1. rewrite rs_update_ok; [|apply length_tabulate|apply all_len_tabulate].
  f_equal. apply tabulate_ext. intros k Hk. apply tabulate_ext. intros j Hj.
  rewrite shard_elem_tabulate by done. unfold dot, delta_sum. rewrite <-bsum_add.
  apply bsum_ext. intros i Hi. ring.
Qed.
End update.
End classic.

(** ** Properties *)
Section properties.
Context {F : Field} {FL : FieldLaws F} {RT : Runtime} {St : Storage Elem}
  {L : LruCache (list nat) (CachedMatrix Elem)} {LE : LeopardEncoders}.

(** C5: [encode] on a Classic codec never panics.  It succeeds
    exactly on [data + parity] nonempty shards of one length; it keeps the data
    shards and writes parity that makes the whole set a codeword: each column
    is the encoding matrix times its data elements, also in the single-parity
    mode.  Otherwise it reports the first check that fails. *)
Theorem encode_correct (self : ReedSolomon) (M : nat → nat → Elem)
    (shards : list (list Elem)) (Hc : classic_codec self M) :
  let d := data_shard_count self in
  let p := parity_shard_count self in
  ensures (encode self shards)
    (λ out, ∃ len, whole_layout (d + p) len shards ∧ codeword M d (d + p) len out ∧
       take d out = take d shards)
    (whole_error (d + p) shards).
Proof.
  intros d p. eapply ensures_mono; [by apply encode_ensures| |done].
  intros out (len & Hl & ->). exists len. pose proof (whole_split _ _ _ _ Hl) as Hs.
  split_and!; [done|by eapply codeword_encoded; [apply (cc_systematic _ _ Hc)|]|].
  apply take_app_length'. by destruct Hs.
Qed.

(** C26: on a Classic codec and for every input, errors
    included, encoding the data shards one at a time with [encode_single], and the
    parallel encoder under every schedule of the tasks its policy decision
    creates, return what [encode] returns. *)
Theorem encode_paths_agree order (self : ReedSolomon) (M : nat → nat → Elem)
    (shards : list (list Elem)) (Hc : classic_codec self M)
    (Horder : ∀ first, head shards = Some first →
       policy_schedule self order (length first) (parity_shard_count self)) :
  for_range 0 (data_shard_count self) (encode_single self) shards = encode self shards ∧
  encode_par order self shards = encode self shards.
Proof.
  split; [by eapply encode_single_loop|]. unfold encode_par, encode.
  pose proof (cc_data _ _ Hc) as Hd.
  assert (∀ A (k k' : outcome Error A), k = k' →
    (let! _ := check_piece_count_all (total_shard_count self) (length shards) in
     let! _ := check_slices_multi shards in k) =
    (let! _ := check_piece_count_all (total_shard_count self) (length shards) in
     let! _ := check_slices_multi shards in k')) as Hcong by (by intros ??? ->).
  apply Hcong. unfold split_at. case_decide; [|done]. cbn [obind].
  rewrite (encode_sep_par_eq self M Hc); [done|]. intros first Hf. apply Horder.
  destruct shards as [|s l]; [by rewrite take_nil in Hf|].
  destruct (data_shard_count self); [lia|]. by simpl in Hf.
Qed.

(** C27: after [update] of correct parity with replacements of
    some data shards, the parity is that of the new data, so a following [encode]
    changes nothing. *)
Theorem update_correct (self : ReedSolomon) (M : nat → nat → Elem) (len : nat)
    (old parity : list (list Elem)) (new : list (option (list Elem)))
    (Hc : classic_codec self M)
    (Hl : sep_layout (data_shard_count self) (parity_shard_count self) len old parity)
    (Hnew : length new = data_shard_count self) (Hval : valid_update len new)
    (Hparity : encode_sep self old parity = Ok parity) :
  ∃ parity', rs_update self old new parity = Ok parity' ∧
    encode_sep self (patched old new) parity' = Ok parity'.
Proof.
  pose proof Hl as (Hold & Hlp & Hlen & Halo & Hap).
  rewrite (encode_sep_ok self M Hc len) in Hparity by done.
  injection Hparity as <-. eexists.
  split; [by apply (rs_update_parity self M Hc)|].
  apply (encode_sep_ok self M Hc len). split_and!; [|apply length_tabulate|done| |].
  - by eapply (length_patched self M Hc len).
  - by eapply (all_len_patched self M Hc len).
  - apply all_len_tabulate.
Qed.
End properties.
