(* ===== verification/Verify.v ===== *)
(** * Verification of parity ([src/core/verify.rs], [VerifyWorkspace] of
    [src/core/workspace.rs])

    [verify] and its variants recompute the parity into a scratch buffer and
    compare.  A variant with a caller's buffer or workspace also returns the
    buffer's new contents.  The theorems: every variant accepts exactly the
    shard sets whose parity is the parity of their data, for any previous
    contents of the buffer or workspace. *)

From Stdlib Require Import NArith Lia List Bool.
From stdpp Require Import base numbers list.
From S2P Require Import Prelude Errors Fields LinAlg Options Leopard InversionCache Parallel.
From S2P Require Import Checks Codec Coding Encode.

Local Open Scope field_scope.

Section verify.
Context {F : Field} {RT : Runtime} {St : Storage Elem}
  {L : LruCache (list nat) (CachedMatrix Elem)} {LE : LeopardEncoders}.

(** [expected == actual] on every pair of a [zip]. *)
Definition shards_agree (expected actual : list (list Elem)) : bool :=
  forallb (λ '(e, a), bool_decide (e = a)) (zip expected actual).

(** The result of a check and the new contents of the buffer. *)
Definition checked : Type := bool * list (list Elem).

Definition check_classic_parity (self : ReedSolomon)
    (inputs to_check buffer : list (list Elem)) : outcome Error checked :=
  let! buffer :=
    if fast_one_parity_enabled self then encode_fast_one_parity inputs buffer
    else encode_classic_matrix self inputs buffer in
  Ok (shards_agree buffer to_check, buffer).

Definition verify_leopard_with_buffer (self : ReedSolomon)
    (slices parity : list (list Elem)) : outcome Error checked :=
  let! data := slice slices 0 (data_shard_count self) in
  let! to_check := slice slices (data_shard_count self) (length slices) in
  let! parity :=
    if is_leopard_gf8_family self then encode_leopard_gf8_sep self data parity
    else encode_leopard_gf16_sep self data parity in
  Ok (shards_agree parity to_check, parity).

Definition verify_leopard (self : ReedSolomon) (slices : list (list Elem))
  : outcome Error bool :=
  let! first := index slices 0 in
  let parity_bufs := replicate (parity_shard_count self) (replicate (length first) 0) in
  let! r := verify_leopard_with_buffer self slices parity_bufs in
  Ok r.1.

(** [scratch.chunks_mut(slice_len)] of zeroed scratch. *)
Definition scratch_views (parity_shards slice_len : nat) : list (list Elem) :=
  let scratch := replicate (parity_shards * slice_len)%nat 0 in
  map (λ '(s, e), take (e - s) (drop s scratch)) (chunks (length scratch) slice_len).

Definition verify (self : ReedSolomon) (slices : list (list Elem)) : outcome Error bool :=
  let! _ := check_piece_count_all (total_shard_count self) (length slices) in
  let! _ := check_slices_multi slices in
  if is_leopard_gf8_family self || is_leopard_gf16_family self
  then verify_leopard self slices else
  let! first := index slices 0 in
  let! data := slice slices 0 (data_shard_count self) in
  let! to_check := slice slices (data_shard_count self) (length slices) in
  let! r := check_classic_parity self data to_check
    (scratch_views (parity_shard_count self) (length first)) in
  Ok r.1.

Definition verify_with_buffer (self : ReedSolomon) (slices buffer : list (list Elem))
  : outcome Error checked :=
  let! _ := check_piece_count_all (total_shard_count self) (length slices) in
  let! _ := check_piece_count_parity_buf (parity_shard_count self) (length buffer) in
  let! _ := check_slices_multi_multi slices buffer in
  if is_leopard_gf8_family self || is_leopard_gf16_family self
  then verify_leopard_with_buffer self slices buffer else
  let! data := slice slices 0 (data_shard_count self) in
  let! to_check := slice slices (data_shard_count self) (length slices) in
  check_classic_parity self data to_check buffer.

Definition verify_with_buffer_par (order : list task) (self : ReedSolomon)
    (slices buffer : list (list Elem)) : outcome Error checked :=
  let! _ := check_piece_count_all (total_shard_count self) (length slices) in
  let! _ := check_piece_count_parity_buf (parity_shard_count self) (length buffer) in
  let! _ := check_slices_multi_multi slices buffer in
  if is_leopard_gf8_family self || is_leopard_gf16_family self
  then verify_leopard_with_buffer self slices buffer else
  let! data := slice slices 0 (data_shard_count self) in
  let! to_check := slice slices (data_shard_count self) (length slices) in
  if fast_one_parity_enabled self then
    let! buffer := encode_fast_one_parity data buffer in
    let! b := index buffer 0 in
    let! t := index to_check 0 in
    Ok (bool_decide (b = t), buffer)
  else
    let! buffer := encode_sep_par order self data buffer in
    Ok (shards_agree buffer to_check, buffer).

Definition verify_par (order : list task) (self : ReedSolomon) (slices : list (list Elem))
  : outcome Error bool :=
  let! _ := check_piece_count_all (total_shard_count self) (length slices) in
  let! _ := check_slices_multi slices in
  if is_leopard_gf8_family self || is_leopard_gf16_family self
  then verify_leopard self slices else
  let! first := index slices 0 in
  let! r := verify_with_buffer_par order self slices
    (scratch_views (parity_shard_count self) (length first)) in
  Ok r.1.

(** ** [VerifyWorkspace]: its parity buffers *)
Record VerifyWorkspace := mk_workspace { ws_parity : list (list Elem) }.

Definition workspace_new (codec : ReedSolomon) (shard_len : nat) : VerifyWorkspace :=
  mk_workspace (replicate (parity_shard_count codec) (replicate shard_len 0)).
Definition workspace_parity_shards (w : VerifyWorkspace) : nat := length (ws_parity w).
Definition workspace_shard_len (w : VerifyWorkspace) : option nat :=
  option_map length (head (ws_parity w)).

(** [Vec::resize] *)
Definition vec_resize {A} (n : nat) (x : A) (l : list A) : list A :=
  take n l ++ replicate (n - length l) x.

Definition workspace_resize (w : VerifyWorkspace) (codec : ReedSolomon) (shard_len : nat)
  : VerifyWorkspace :=
  let p := parity_shard_count codec in
  let parity := ws_parity w in
  let parity :=
    if decide (length parity < p) then parity ++ replicate (p - length parity) []
    else if decide (p < length parity) then take p parity else parity in
  mk_workspace (map (vec_resize shard_len 0) parity).

Definition workspace_prepare (w : VerifyWorkspace) (codec : ReedSolomon) (shard_len : nat)
  : VerifyWorkspace :=
  if bool_decide (length (ws_parity w) ≠ parity_shard_count codec)
     || bool_decide (workspace_shard_len w ≠ Some shard_len)
     || existsb (λ shard, bool_decide (length shard ≠ shard_len)) (ws_parity w)
  then workspace_resize w codec shard_len else w.

Definition in_workspace (r : outcome Error checked) : outcome Error (bool * VerifyWorkspace) :=
  let! ' (b, parity) := r in Ok (b, mk_workspace parity).

Definition verify_with_workspace (self : ReedSolomon) (slices : list (list Elem))
    (w : VerifyWorkspace) : outcome Error (bool * VerifyWorkspace) :=
  let! _ := check_piece_count_all (total_shard_count self) (length slices) in
  let! _ := check_slices_multi slices in
  let! first := index slices 0 in
  let w := workspace_prepare w self (length first) in
  in_workspace
    (if is_leopard_gf8_family self || is_leopard_gf16_family self
     then verify_leopard_with_buffer self slices (ws_parity w)
     else verify_with_buffer self slices (ws_parity w)).

Definition verify_with_workspace_par (order : list task) (self : ReedSolomon)
    (slices : list (list Elem)) (w : VerifyWorkspace)
    : outcome Error (bool * VerifyWorkspace) :=
  let! _ := check_piece_count_all (total_shard_count self) (length slices) in
  let! _ := check_slices_multi slices in
  let! first := index slices 0 in
  let w := workspace_prepare w self (length first) in
  in_workspace (verify_with_buffer_par order self slices (ws_parity w)).
End verify.

(** ** Lemmas *)
Section buffers.
Context {F : Field} {FL : FieldLaws F} {RT : Runtime} {St : Storage Elem}
  {L : LruCache (list nat) (CachedMatrix Elem)}.

Lemma shards_agree_spec (l k : list (list Elem)) :
  length l = length k → shards_agree l k = bool_decide (l = k).
Proof.
  revert k. induction l as [|a l IH]; intros [|b k] Hl; try done.
  unfold shards_agree. simpl. fold (shards_agree l k). rewrite IH by (simpl in Hl; lia).
  destruct (decide (a = b)) as [->|Hab].
  - rewrite (bool_decide_eq_true_2 (b = b)) by done. simpl.
    apply bool_decide_ext. split; congruence.
  - rewrite (bool_decide_eq_false_2 (a = b)) by done. simpl. symmetry.
    apply bool_decide_eq_false_2. congruence.
Qed.

Lemma all_len_replicate n len : all_len len (replicate n (replicate len (0 : Elem))).
Proof.
  apply Forall_forall. intros s Hs. apply elem_of_replicate in Hs as [-> _].
  apply length_replicate.
Qed.

Lemma scratch_views_layout p len :
  0 < len → length (scratch_views p len) = p ∧ all_len len (scratch_views p len).
Proof.
  intros Hlen. unfold scratch_views. rewrite length_replicate. split.
  - rewrite length_map. unfold chunks. rewrite length_map, length_seq.
    pose proof (nat_div_ceil_spec (p * len) len Hlen). nia.
  - apply Forall_forall. intros s Hs.
    apply list_elem_of_In, in_map_iff in Hs as ([a b] & <- & Hin).
    apply list_elem_of_In in Hin.
    rewrite length_take, length_drop, length_replicate.
    unfold chunks in Hin. apply list_elem_of_In, in_map_iff in Hin as (i & [= <- <-] & Hi).
    apply in_seq in Hi. pose proof (nat_div_ceil_spec (p * len) len Hlen).
    assert (i + 1 ≤ p)%nat by nia.
    assert ((i + 1) * len ≤ p * len)%nat by nia.
    replace ((i + 1) * len)%nat with (i * len + len)%nat in * by lia. lia.
Qed.

(** ** Workspaces *)
Lemma length_vec_resize {A} n (x : A) l : length (vec_resize n x l) = n.
Proof. unfold vec_resize. rewrite length_app, length_take, length_replicate. lia. Qed.

Lemma workspace_resize_layout w (codec : ReedSolomon) len :
  length (ws_parity (workspace_resize w codec len)) = parity_shard_count codec ∧
  all_len len (ws_parity (workspace_resize w codec len)).
Proof.
  unfold workspace_resize. cbn [ws_parity]. split.
  - rewrite length_map. repeat case_decide; try lia.
    + rewrite length_app, length_replicate. lia.
    + rewrite length_take. lia.
  - apply Forall_forall. intros s Hs. apply list_elem_of_In, in_map_iff in Hs as (x & <- & _).
    apply length_vec_resize.
Qed.

Lemma workspace_prepare_layout w (codec : ReedSolomon) len :
  length (ws_parity (workspace_prepare w codec len)) = parity_shard_count codec ∧
  all_len len (ws_parity (workspace_prepare w codec len)).
Proof.
  unfold workspace_prepare. destruct (_ || _) eqn:Hb; [apply workspace_resize_layout|].
  apply orb_false_iff in Hb as [Hb Hex]. apply orb_false_iff in Hb as [Hl _].
  apply bool_decide_eq_false, dec_stable in Hl. split; [done|].
  apply Forall_forall. intros s Hs. apply dec_stable. intros Hne.
  assert (existsb (λ shard, bool_decide (length shard ≠ len)) (ws_parity w) = true);
    [|congruence].
  apply existsb_exists. exists s. split; [by apply list_elem_of_In|].
  by apply bool_decide_eq_true.
Qed.

(** A workspace that already fits is reused as it is. *)
Lemma workspace_prepare_fits w (codec : ReedSolomon) len :
  0 < parity_shard_count codec →
  length (ws_parity w) = parity_shard_count codec → all_len len (ws_parity w) →
  workspace_prepare w codec len = w.
Proof.
  intros Hp Hl Ha. unfold workspace_prepare. destruct (_ || _) eqn:Hb; [|done].
  exfalso. apply orb_true_iff in Hb as [Hb|Hex]; [apply orb_true_iff in Hb as [Hb|Hb]|].
  - by apply bool_decide_eq_true in Hb.
  - apply bool_decide_eq_true in Hb. apply Hb. unfold workspace_shard_len.
    destruct (ws_parity w) as [|s l]; [simpl in *; lia|]. simpl. f_equal. by inversion Ha.
  - apply existsb_exists in Hex as (s & Hs & Hne). apply bool_decide_eq_true in Hne.
    apply Hne. apply list_elem_of_In in Hs.
    unfold all_len in Ha. rewrite Forall_forall in Ha. by apply Ha.
Qed.
End buffers.

Section classic.
Context {F : Field} {FL : FieldLaws F} {RT : Runtime} {St : Storage Elem}
  {L : LruCache (list nat) (CachedMatrix Elem)} {LE : LeopardEncoders}.
Context (self : ReedSolomon) (M : nat → nat → Elem) (Hc : classic_codec self M).
#[local] Abbreviation d := (data_shard_count self).
#[local] Abbreviation p := (parity_shard_count self).
Implicit Types (slices buffer : list (list Elem)).

Let Hd : 0 < d := cc_data _ _ Hc.
Let Hp : 0 < p := cc_parity _ _ Hc.

(** The verdict on a full shard set. *)
Definition verdict (len : nat) slices : bool :=
  bool_decide (drop d slices = parity_of M d p len (take d slices)).

Lemma verdict_codeword len slices :
  whole_layout (d + p) len slices →
  verdict len slices = true ↔ codeword M d (d + p) len slices.
Proof.
  intros Hl. unfold verdict. rewrite bool_decide_eq_true.
  rewrite codeword_parity; [done|apply (cc_systematic _ _ Hc)|done].
Qed.

Lemma split_slices {E} len slices :
  whole_layout (d + p) len slices →
  slice (E:=E) slices 0 d = Ok (take d slices) ∧
  slice (E:=E) slices d (length slices) = Ok (drop d slices).
Proof.
  intros (Hl & _). rewrite !slice_ok by lia. rewrite drop_0, Nat.sub_0_r. split; [done|].
  f_equal. rewrite take_ge; [done|]. rewrite length_drop. lia.
Qed.

Lemma check_classic_parity_ok len slices buffer :
  whole_layout (d + p) len slices → length buffer = p → all_len len buffer →
  check_classic_parity self (take d slices) (drop d slices) buffer
  = Ok (verdict len slices, parity_of M d p len (take d slices)).
Proof.
  intros Hl Hb Ha. unfold check_classic_parity.
  pose proof (whole_split _ _ _ _ Hl) as (H1 & H2 & H3 & H4 & H5).
  rewrite (encode_classic_ok self M Hc len) by (split_and!; done). cbn [obind].
  rewrite shards_agree_spec.
  - do 2 f_equal. unfold verdict. apply bool_decide_ext. done.
  - rewrite H2. apply length_tabulate.
Qed.

Lemma whole_index0 {E} len slices :
  whole_layout (d + p) len slices → ∃ s, index (E:=E) slices 0 = Ok s ∧ length s = len.
Proof.
  intros (Hl & _ & Ha). destruct slices as [|s l]; [simpl in *; lia|].
  exists s. split; [done|by inversion Ha].
Qed.

Lemma verify_ok len slices :
  whole_layout (d + p) len slices → verify self slices = Ok (verdict len slices).
Proof.
  intros Hl. unfold verify. rewrite total_count, (whole_checks_ok _ len) by (done || lia).
  destruct (classic_not_leopard _ _ Hc) as [-> ->]. cbn [orb].
  destruct (whole_index0 (E:=Error) len slices Hl) as (s & Hs & Hsl).
  rewrite Hs. cbn [obind]. rewrite Hsl.
  destruct (split_slices (E:=Error) len slices Hl) as [-> ->]. cbn [obind].
  destruct (scratch_views_layout p len) as [H1 H2]; [by destruct Hl as (_ & ? & _)|].
  by rewrite (check_classic_parity_ok len).
Qed.

Lemma verify_ensures slices :
  ensures (verify self slices)
    (λ b, ∃ len, whole_layout (d + p) len slices ∧ b = verdict len slices)
    (whole_error (d + p) slices).
Proof.
  destruct (whole_cases (d + p) slices) as [[len Hl]|(e & He & Herr)]; [lia| |].
  - rewrite (verify_ok len) by done. by exists len.
  - unfold verify. by rewrite total_count, Herr.
Qed.

Lemma buffer_checks_ok {B} len slices buffer (k : outcome Error B) :
  whole_layout (d + p) len slices → length buffer = p → all_len len buffer →
  (let! _ := check_piece_count_all (d + p) (length slices) in
   let! _ := check_piece_count_parity_buf p (length buffer) in
   let! _ := check_slices_multi_multi slices buffer in k) = k.
Proof.
  intros (Hl & Hlen & Ha) Hb Hab. rewrite Hl, Hb.
  unfold check_piece_count_all, check_piece_count_parity_buf.
  rewrite !check_piece_count_ok. cbn [obind].
  rewrite (check_slices_multi_multi_ok _ _ len); try done.
  - by destruct slices; [simpl in *; lia|].
  - by destruct buffer; [simpl in *; lia|].
Qed.

Lemma verify_with_buffer_ok len slices buffer :
  whole_layout (d + p) len slices → length buffer = p → all_len len buffer →
  verify_with_buffer self slices buffer
  = Ok (verdict len slices, parity_of M d p len (take d slices)).
Proof.
  intros Hl Hb Ha. unfold verify_with_buffer.
  rewrite total_count, (buffer_checks_ok len) by done.
  destruct (classic_not_leopard _ _ Hc) as [-> ->]. cbn [orb].
  destruct (split_slices (E:=Error) len slices Hl) as [-> ->]. cbn [obind].
  by apply check_classic_parity_ok.
Qed.

Lemma verify_with_buffer_par_ok order len slices buffer :
  whole_layout (d + p) len slices → length buffer = p → all_len len buffer →
  policy_schedule self order len p →
  verify_with_buffer_par order self slices buffer
  = Ok (verdict len slices, parity_of M d p len (take d slices)).
Proof.
  intros Hl Hb Ha Horder. unfold verify_with_buffer_par.
  rewrite total_count, (buffer_checks_ok len) by done.
  destruct (classic_not_leopard _ _ Hc) as [Hl8 Hl16]. rewrite Hl8, Hl16. cbn [orb].
  destruct (split_slices (E:=Error) len slices Hl) as [-> ->]. cbn [obind].
  pose proof (check_classic_parity_ok len slices buffer Hl Hb Ha) as Hser.
  pose proof (whole_split _ _ _ _ Hl) as (H1 & H2 & H3 & H4 & H5).
  unfold check_classic_parity in Hser.
  destruct (fast_one_parity_enabled self) eqn:Hf.
  - destruct (encode_fast_one_parity _ _) as [b| |] eqn:Hb'; cbn [obind] in *; [|done..].
    injection Hser as Hv ->. unfold verdict.
    destruct (fast_mode self M Hc Hf) as [Hp1 _].
    assert (length (drop d slices) = 1%nat) as Hld by (rewrite H2; done).
    destruct (drop d slices) as [|t [|]]; [done| |done].
    assert (∃ b, parity_of M d p len (take d slices) = [b]) as [b ->].
    { unfold parity_of. rewrite Hp1. by eexists. }
    unfold index. cbn [lookup list_lookup obind]. do 2 f_equal.
    apply bool_decide_ext. split; congruence.
  - rewrite (encode_sep_par_eq self M Hc).
    + rewrite (encode_sep_ok self M Hc len) by done. cbn [obind].
      do 2 f_equal. rewrite shards_agree_spec.
      * unfold verdict. by apply bool_decide_ext.
      * rewrite H2. apply length_tabulate.
    + intros first Hfirst. destruct (take d slices) as [|s l]; [done|].
      injection Hfirst as <-. by rewrite (all_len_head _ _ _ H4).
Qed.
End classic.

(** ** Properties *)
Section properties.
Context {F : Field} {FL : FieldLaws F} {RT : Runtime} {St : Storage Elem}
  {L : LruCache (list nat) (CachedMatrix Elem)} {LE : LeopardEncoders}.

(** C6: [verify] on a Classic codec never panics; it answers
    exactly on nonempty shards of one length, with [true] exactly for the
    codewords, and otherwise reports the first check that fails. *)
Theorem verify_correct (self : ReedSolomon) (M : nat → nat → Elem)
    (slices : list (list Elem)) (Hc : classic_codec self M) :
  let n := (data_shard_count self + parity_shard_count self)%nat in
  ensures (verify self slices)
    (λ b, ∃ len, whole_layout n len slices ∧
       (b = true ↔ codeword M (data_shard_count self) n len slices))
    (whole_error n slices).
Proof.
  intros n. eapply ensures_mono; [by apply (verify_ensures self M Hc)| |done].
  intros b (len & Hl & ->). exists len. split; [done|]. by apply verdict_codeword.
Qed.

(** C28: with any scratch buffer of the right layout, with any
    workspace, however it was left by earlier calls, and in the parallel forms
    under every schedule of their tasks, the verdict is that of [verify]. *)
Theorem verify_variants_agree order (self : ReedSolomon) (M : nat → nat → Elem)
    (len : nat) (slices buffer : list (list Elem)) (w : VerifyWorkspace)
    (Hc : classic_codec self M)
    (Hl : whole_layout (data_shard_count self + parity_shard_count self) len slices)
    (Hb : length buffer = parity_shard_count self) (Ha : all_len len buffer)
    (Horder : policy_schedule self order len (parity_shard_count self)) :
  ∃ b buf, verify self slices = Ok b ∧
    verify_par order self slices = Ok b ∧
    verify_with_buffer self slices buffer = Ok (b, buf) ∧
    verify_with_buffer_par order self slices buffer = Ok (b, buf) ∧
    verify_with_workspace self slices w = Ok (b, mk_workspace buf) ∧
    verify_with_workspace_par order self slices w = Ok (b, mk_workspace buf).
Proof.
  pose proof (cc_parity _ _ Hc) as Hp. pose proof Hl as (_ & Hlen & _).
  destruct (workspace_prepare_layout w self len) as [Hw1 Hw2].
  destruct (scratch_views_layout (F:=F) (parity_shard_count self) len Hlen) as [Hs1 Hs2].
  destruct (whole_index0 (E:=Error) self M Hc len slices Hl) as (s & Hs & Hsl).
  destruct (classic_not_leopard _ _ Hc) as [H8 H16].
  eexists _, _. split_and!.
  - by apply (verify_ok self M Hc).
  - unfold verify_par. rewrite total_count, (whole_checks_ok _ len) by (done || lia).
    rewrite H8, H16. cbn [orb]. rewrite Hs. cbn [obind]. rewrite Hsl.
    by rewrite (verify_with_buffer_par_ok self M Hc order len).
  - by apply verify_with_buffer_ok.
  - by apply verify_with_buffer_par_ok.
  - unfold verify_with_workspace. rewrite total_count, (whole_checks_ok _ len) by (done || lia).
    rewrite H8, H16. cbn [orb]. rewrite Hs. cbn [obind]. rewrite Hsl.
    by rewrite (verify_with_buffer_ok self M Hc len).
  - unfold verify_with_workspace_par.
    rewrite total_count, (whole_checks_ok _ len) by (done || lia).
    rewrite Hs. cbn [obind]. rewrite Hsl.
    by rewrite (verify_with_buffer_par_ok self M Hc order len).
Qed.

(** C14: with an MDS matrix (any built-in matrix mode), [verify] accepts what
    [encode] returned and rejects every other shard set of the same lengths that differs
    from it in at most [parity] shards. *)
Theorem verify_detects (self : ReedSolomon) (M : nat → nat → Elem)
    (shards out : list (list Elem)) (Hc : mds_codec self M)
    (Henc : encode self shards = Ok out) :
  let d := data_shard_count self in
  let p := parity_shard_count self in
  verify self out = Ok true ∧
  ∀ out' len, whole_layout (d + p) len out → whole_layout (d + p) len out' → out' ≠ out →
    length (filter (λ i, out !! i ≠ out' !! i) (seq 0 (d + p))) ≤ p →
    verify self out' = Ok false.
Proof.
  destruct Hc as [Hc Hmds]. intros d p.
  pose proof (encode_ensures self M Hc shards) as H. rewrite Henc in H.
  destruct H as (len & Hl & Hout).
  pose proof (codeword_encoded M _ _ len _ _ (cc_systematic _ _ Hc) (whole_split _ _ _ _ Hl))
    as Hcw.
  rewrite <-Hout in Hcw. fold d p in Hcw. pose proof Hcw as [Hlo _]. split.
  - rewrite (verify_ok self M Hc len) by done. f_equal. by apply verdict_codeword.
  - intros out' len' Hl1 Hl2 Hne Hdiff.
    assert (len' = len) as ->.
    { destruct Hl1 as (A1 & _ & A3), Hlo as (B1 & _ & B3).
      pose proof (cc_data _ _ Hc). destruct out; [simpl in A1; fold d in H; lia|].
      inversion A3. inversion B3. congruence. }
    rewrite (verify_ok self M Hc len) by done. f_equal.
    destruct (verdict self M len out') eqn:Hv; [|done]. exfalso. apply Hne.
    apply verdict_codeword in Hv; [|done|done]. symmetry.
    apply (codeword_unique M d (d + p) len out out'
      (filter (λ i, ¬ out !! i ≠ out' !! i) (seq 0 (d + p)))); try done.
    + apply NoDup_filter, NoDup_seq.
    + pose proof (length_filter_split (λ i, out !! i ≠ out' !! i) (seq 0 (d + p))) as Hpart.
      rewrite length_seq in Hpart. lia.
    + intros r Hr. apply list_elem_of_filter in Hr as [Hr1 Hr2].
      apply dec_stable in Hr1. apply list_elem_of_In, in_seq in Hr2. split; [lia|done].
Qed.
End properties.
