(* ===== verification/ShardByShard.v ===== *)
(** * Shard-by-shard encoding ([src/core/shard_by_shard.rs])

    The bookkeeper that encodes one data shard per call.  Its state is the codec
    and the index of the next shard.  The caller may fill in later data
    shards between the calls; the step relation [session] interleaves the
    calls of [encode] and [encode_sep], the resets and such edits, and the
    invariant is proved by rule induction.  The answers of the fallible calls
    are characterised for Classic and Leopard codecs. *)

From Stdlib Require Import NArith Lia List Bool Ring.
From stdpp Require Import base numbers list relations.
From S2P Require Import Prelude Errors Fields LinAlg Options Leopard InversionCache Parallel.
From S2P Require Import Checks Codec Coding Encode.

Local Open Scope field_scope.

Section shard_by_shard.
Context {F : Field} {RT : Runtime} {St : Storage Elem}
  {L : LruCache (list nat) (CachedMatrix Elem)} {LE : LeopardEncoders}.

Record ShardByShard := mk_sbs {
  sbs_codec : ReedSolomon;
  cur_input : nat;
}.

Definition sbs_new (codec : ReedSolomon) : ShardByShard := mk_sbs codec 0%nat.

Definition parity_ready (self : ShardByShard) : bool :=
  bool_decide (cur_input self = data_shard_count (sbs_codec self)).

Definition reset (self : ShardByShard) : outcome SBSError ShardByShard :=
  if bool_decide (0 < cur_input self) && negb (parity_ready self) then Err LeftoverShards
  else Ok (mk_sbs (sbs_codec self) 0%nat).

Definition reset_force (self : ShardByShard) : ShardByShard := mk_sbs (sbs_codec self) 0%nat.

Definition cur_input_index (self : ShardByShard) : nat := cur_input self.

Definition return_ok_and_incre_cur_input (self : ShardByShard) : ShardByShard :=
  mk_sbs (sbs_codec self) (cur_input self + 1)%nat.

Definition sbs_encode_checks (self : ShardByShard) (slices : list (list Elem))
  : outcome SBSError unit :=
  if parity_ready self then Err TooManyCalls else
  map_err RSError
    (let! _ := check_piece_count_all (total_shard_count (sbs_codec self)) (length slices) in
     let! _ := check_slices_multi slices in Ok tt).

Definition sbs_encode_sep_checks (self : ShardByShard) (data parity : list (list Elem))
  : outcome SBSError unit :=
  if parity_ready self then Err TooManyCalls else
  map_err RSError
    (let! _ := check_piece_count_data (data_shard_count (sbs_codec self)) (length data) in
     let! _ := check_piece_count_parity (parity_shard_count (sbs_codec self)) (length parity) in
     let! _ := check_slices_multi_multi data parity in Ok tt).

(** [ShardByShard::encode]: the new bookkeeper and the new shards. *)
Definition sbs_encode (self : ShardByShard) (shards : list (list Elem))
  : outcome SBSError (ShardByShard * list (list Elem)) :=
  let! _ := sbs_encode_checks self shards in
  let! shards := map_err RSError (encode_single (sbs_codec self) (cur_input self) shards) in
  Ok (return_ok_and_incre_cur_input self, shards).

Definition sbs_encode_sep (self : ShardByShard) (data parity : list (list Elem))
  : outcome SBSError (ShardByShard * list (list Elem)) :=
  let! _ := sbs_encode_sep_checks self data parity in
  let! input := index data (cur_input self) in
  let! parity :=
    map_err RSError (encode_single_sep (sbs_codec self) (cur_input self) input parity) in
  Ok (return_ok_and_incre_cur_input self, parity).

(** ** Sessions *)

(** The caller rewrites data shards that are not encoded yet; before
    the first call it may rewrite everything. *)
Definition caller_edit (self : ShardByShard) (shards shards' : list (list Elem)) : Prop :=
  length shards' = length shards ∧
  (∀ i s s', shards !! i = Some s → shards' !! i = Some s' → length s' = length s) ∧
  (cur_input self ≠ 0%nat →
     ∀ i, i < cur_input self ∨ data_shard_count (sbs_codec self) ≤ i →
     shards' !! i = shards !! i).

Inductive session_step : ShardByShard * list (list Elem) →
    ShardByShard * list (list Elem) → Prop :=
| step_encode s shards s' shards' :
    sbs_encode s shards = Ok (s', shards') → session_step (s, shards) (s', shards')
| step_encode_sep s data parity s' parity' :
    sbs_encode_sep s data parity = Ok (s', parity') →
    session_step (s, data ++ parity) (s', data ++ parity')
| step_edit s shards shards' :
    caller_edit s shards shards' → session_step (s, shards) (s, shards')
| step_reset s shards s' :
    reset s = Ok s' → session_step (s, shards) (s', shards)
| step_reset_force s shards :
    session_step (s, shards) (reset_force s, shards).

Definition session := rtc session_step.

(** ** Answers *)

(** The codecs a bookkeeper is made for. *)
Definition session_codec (codec : ReedSolomon) : Prop :=
  (∃ M, classic_codec codec M) ∨
  (is_leopard_family codec = true ∧ 0 < data_shard_count codec ∧ 0 < parity_shard_count codec).

(** The errors of a call at index [cur]: all data shards are done, the checks
    fail, or the shards are right but the codec is a Leopard codec. *)
Inductive call_error (codec : ReedSolomon) (cur : nat) (layout : Prop)
    (layout_error : Error → Prop) : SBSError → Prop :=
| call_finished :
    cur = data_shard_count codec → call_error codec cur layout layout_error TooManyCalls
| call_layout e :
    cur < data_shard_count codec → layout_error e →
    call_error codec cur layout layout_error (RSError e)
| call_leopard :
    cur < data_shard_count codec → layout → is_leopard_family codec = true →
    call_error codec cur layout layout_error (RSError UnsupportedCodecFamily).
End shard_by_shard.

Section calls.
Context {F : Field} {FL : FieldLaws F} {RT : Runtime} {St : Storage Elem}
  {L : LruCache (list nat) (CachedMatrix Elem)} {LE : LeopardEncoders}.
Context (codec : ReedSolomon) (Hcodec : session_codec codec).
#[local] Abbreviation d := (data_shard_count codec).
#[local] Abbreviation p := (parity_shard_count codec).
Implicit Types (shards data parity : list (list Elem)) (s : ShardByShard).

Lemma session_counts : 0 < d ∧ 0 < p.
Proof. destruct Hcodec as [[M Hc]|(_ & Hd & Hp)]; [by destruct Hc|done]. Qed.

(** Once the checks have passed, [encode_single_sep] fails only on a Leopard codec. *)
Lemma single_sep_accepts i len data parity :
  i < d → sep_layout d p len data parity →
  ∃ input, data !! i = Some input ∧
    ((is_leopard_family codec = true ∧
      encode_single_sep codec i input parity = Err UnsupportedCodecFamily) ∨
     (is_leopard_family codec = false ∧
      ∃ out, encode_single_sep codec i input parity = Ok out)).
Proof.
  intros Hi (H1 & H2 & H3 & H4 & H5). destruct (lookup_lt_is_Some_2 data i) as [input Hin]; [lia|].
  exists input. split; [done|]. destruct Hcodec as [[M Hc]|(Hleo & _)].
  - right. unfold is_leopard_family. destruct (classic_not_leopard _ _ Hc) as [-> ->].
    split; [done|]. pose proof (data_shard codec len data i Hi H1 H4) as Hx.
    unfold index in Hx. rewrite Hin in Hx. injection Hx as ->.
    rewrite (shards_tabulate p len parity) by done.
    rewrite (encode_single_sep_ok codec M Hc) by done. by eexists.
  - left. split; [done|]. unfold encode_single_sep. fold (is_leopard_family codec).
    by rewrite Hleo.
Qed.

Lemma single_accepts i len shards :
  i < d → whole_layout (d + p) len shards →
  (is_leopard_family codec = true ∧ encode_single codec i shards = Err UnsupportedCodecFamily) ∨
  (is_leopard_family codec = false ∧ ∃ out, encode_single codec i shards = Ok out).
Proof.
  intros Hi Hl. pose proof (whole_split _ _ _ _ Hl) as Hs. pose proof session_counts.
  unfold encode_single. fold (is_leopard_family codec).
  destruct (is_leopard_family codec) eqn:Hleo; [by left|right; split; [done|]].
  unfold check_slice_index. rewrite decide_False by lia. cbn [obind].
  rewrite total_count, (whole_checks_ok _ len) by (done || lia).
  unfold split_at. destruct Hl as (Hl & _). rewrite decide_True by lia. cbn [obind].
  destruct (single_sep_accepts i len _ _ Hi Hs) as (input & Hin & [[H' _]|(_ & out & Hout)]);
    [congruence|].
  unfold index. rewrite Hin. cbn [obind]. rewrite Hout. by eexists.
Qed.

Lemma sbs_encode_ensures cur shards :
  cur ≤ d →
  ensures (sbs_encode (mk_sbs codec cur) shards)
    (λ r, cur < d ∧ is_leopard_family codec = false ∧
       (∃ len, whole_layout (d + p) len shards) ∧ r.1 = mk_sbs codec (S cur) ∧
       encode_single codec cur shards = Ok r.2)
    (call_error codec cur (∃ len, whole_layout (d + p) len shards) (whole_error (d + p) shards)).
Proof.
  intros Hcur. pose proof session_counts as [Hd Hp].
  unfold sbs_encode, sbs_encode_checks, parity_ready. cbn [sbs_codec cur_input].
  case_bool_decide as Hr; [by apply call_finished|]. rewrite total_count.
  destruct (whole_cases (d + p) shards) as [[len Hl]|(e & He & Herr)]; [lia| |].
  - rewrite (whole_checks_ok _ len) by (done || lia). cbn [map_err obind].
    destruct (single_accepts cur len shards) as [[Hleo ->]|(Hleo & out & Hout)]; [lia|done| |].
    + apply call_leopard; [lia|by exists len|done].
    + rewrite Hout. simpl. unfold return_ok_and_incre_cur_input. simpl.
      split_and!; [lia|done|by exists len|f_equal; lia|done].
  - rewrite Herr. apply call_layout; [lia|done].
Qed.

Lemma sbs_encode_sep_ensures cur data parity :
  cur ≤ d →
  ensures (sbs_encode_sep (mk_sbs codec cur) data parity)
    (λ r, cur < d ∧ is_leopard_family codec = false ∧
       (∃ len, sep_layout d p len data parity) ∧ r.1 = mk_sbs codec (S cur) ∧
       ∃ input, data !! cur = Some input ∧ encode_single_sep codec cur input parity = Ok r.2)
    (call_error codec cur (∃ len, sep_layout d p len data parity) (sep_error d p data parity)).
Proof.
  intros Hcur. pose proof session_counts as [Hd Hp].
  unfold sbs_encode_sep, sbs_encode_sep_checks, parity_ready. cbn [sbs_codec cur_input].
  case_bool_decide as Hr; [by apply call_finished|].
  destruct (sep_cases d p data parity) as [[len Hl]|(e & He & Herr)]; [lia|lia| |].
  - rewrite (sep_checks_ok _ _ len) by (done || lia). cbn [map_err obind].
    destruct (single_sep_accepts cur len data parity)
      as (input & Hin & [[Hleo Hout]|(Hleo & out & Hout)]); [lia|done| |];
      unfold index; rewrite Hin; cbn [obind]; rewrite Hout.
    + apply call_leopard; [lia|by exists len|done].
    + simpl. unfold return_ok_and_incre_cur_input. simpl.
      split_and!; [lia|done|by exists len|f_equal; lia|by exists input].
  - rewrite Herr. apply call_layout; [lia|done].
Qed.
End calls.

Section classic.
Context {F : Field} {FL : FieldLaws F} {RT : Runtime} {St : Storage Elem}
  {L : LruCache (list nat) (CachedMatrix Elem)} {LE : LeopardEncoders}.
Context (codec : ReedSolomon) (M : nat → nat → Elem) (Hc : classic_codec codec M).
#[local] Abbreviation d := (data_shard_count codec).
#[local] Abbreviation p := (parity_shard_count codec).
Implicit Types (shards data parity : list (list Elem)) (s : ShardByShard).

Let Hd : 0 < d := cc_data _ _ Hc.
Let Hp : 0 < p := cc_parity _ _ Hc.

(** After [cur_input] calls the parity shards hold the contribution of the
    data shards encoded so far. *)
Record sbs_inv (len : nat) s shards : Prop := {
  inv_codec : sbs_codec s = codec;
  inv_bound : cur_input s ≤ d;
  inv_layout : whole_layout (d + p) len shards;
  inv_parity : drop d shards = partial_parity codec M (cur_input s) len (take d shards)
                 (drop d shards);
}.

Lemma sbs_codec_session : session_codec codec.
Proof. left. by exists M. Qed.

Lemma sbs_state len s shards : sbs_inv len s shards → s = mk_sbs codec (cur_input s).
Proof. intros []. by destruct s as [c i]; simpl in *; subst. Qed.

(** The parity of one more data shard. *)
Lemma inv_extend len cur data parity :
  sep_layout d p len data parity → cur < d →
  sbs_inv len (mk_sbs codec (S cur)) (data ++ partial_parity codec M (S cur) len data parity).
Proof.
  intros (H1 & H2 & H3 & H4 & H5) Hcur.
  destruct (partial_parity_len codec M (S cur) len data parity) as [H6 H7]; [done|done|].
  split; [done|simpl; lia| |]; cbn [cur_input].
  - split_and!; [rewrite length_app; lia|done|]. by apply Forall_app.
  - rewrite take_app_length', drop_app_length' by done. unfold partial_parity.
    by rewrite decide_False by lia.
Qed.

Lemma sbs_encode_step len s shards s' shards' :
  sbs_inv len s shards → sbs_encode s shards = Ok (s', shards') → sbs_inv len s' shards'.
Proof.
  intros Hinv Henc. pose proof (sbs_state _ _ _ Hinv) as Hs. destruct Hinv as [_ Hb Hl Hpar].
  pose proof (whole_split _ _ _ _ Hl) as Hsep. revert Henc Hb Hpar. rewrite Hs.
  generalize (cur_input s). cbn [cur_input]. intros cur Henc Hb Hpar.
  pose proof (sbs_encode_ensures codec sbs_codec_session cur shards Hb) as He.
  rewrite Henc in He. destruct He as (Hcur & _ & _ & Hs' & Hout). cbn [fst snd] in *. subst s'.
  pose proof (encode_single_step codec M Hc cur len _ _ Hcur Hsep) as Hstep.
  rewrite <-Hpar, take_drop, Hout in Hstep. injection Hstep as ->. by apply inv_extend.
Qed.

Lemma sbs_encode_sep_step len s data parity s' parity' :
  sbs_inv len s (data ++ parity) → sbs_encode_sep s data parity = Ok (s', parity') →
  sbs_inv len s' (data ++ parity').
Proof.
  intros Hinv Henc. pose proof (sbs_state _ _ _ Hinv) as Hs. destruct Hinv as [_ Hb Hl Hpar].
  revert Henc Hb Hpar. rewrite Hs.
  generalize (cur_input s). cbn [cur_input]. intros cur Henc Hb Hpar.
  pose proof (sbs_encode_sep_ensures codec sbs_codec_session cur data parity Hb) as He.
  rewrite Henc in He. destruct He as (Hcur & _ & (len' & Hsep) & Hs' & input & Hin & Hout).
  cbn [fst snd] in *. subst s'. pose proof (whole_split _ _ _ _ Hl) as Hsep'.
  assert (length data = d) as Hd' by apply Hsep.
  rewrite take_app_length', drop_app_length' in Hsep', Hpar by done.
  pose proof Hsep' as (H1 & _ & _ & H4 & _).
  pose proof (data_shard codec len data cur Hcur H1 H4) as Hx.
  unfold index in Hx. rewrite Hin in Hx. injection Hx as ->.
  pose proof (encode_single_sep_step codec M Hc cur len _ _ Hcur Hsep') as Hstep.
  rewrite <-Hpar, Hout in Hstep. injection Hstep as ->. by apply inv_extend.
Qed.

Lemma edit_inv len s shards shards' :
  caller_edit s shards shards' → sbs_inv len s shards → sbs_inv len s shards'.
Proof.
  intros (Hl & Hlen & Hsame) [H1 H2 H3 H4]. pose proof H3 as (L1 & L2 & L3). rewrite H1 in *.
  assert (whole_layout (d + p) len shards') as Hlay.
  { split_and!; [lia|done|]. apply Forall_lookup. intros i s' Hs'.
    destruct (lookup_lt_is_Some_2 shards i) as [s0 Hs0].
    { apply lookup_lt_Some in Hs'. lia. }
    rewrite (Hlen i s0 s') by done. by eapply Forall_lookup_1 in L3. }
  split; [done|done|done|]. revert H4. unfold partial_parity. case_decide as Hcur; [done|].
  specialize (Hsame Hcur). intros H4.
  assert (drop d shards' = drop d shards) as ->.
  { apply list_eq. intros i. rewrite !lookup_drop. apply Hsame. right. lia. }
  rewrite H4. apply tabulate_ext. intros k Hk. apply tabulate_ext. intros j Hj.
  apply bsum_ext. intros i Hi. f_equal. rewrite !shard_elem_take by lia.
  unfold shard_elem. by rewrite Hsame by (left; lia).
Qed.

Lemma fresh_inv len s shards :
  sbs_codec s = codec → whole_layout (d + p) len shards → sbs_inv len (reset_force s) shards.
Proof.
  intros H1 H2. split; simpl; [done|lia|done|]. unfold partial_parity. by rewrite decide_True.
Qed.

Lemma session_step_inv len s shards s' shards' :
  session_step (s, shards) (s', shards') → sbs_inv len s shards → sbs_inv len s' shards'.
Proof.
  intros Hstep Hinv. inversion Hstep as [|? ? ? ? ? Hsep|? ? ? Hed|? ? ? Hr|]; subst.
  - by eapply sbs_encode_step.
  - by eapply sbs_encode_sep_step.
  - by eapply edit_inv.
  - destruct Hinv. unfold reset in Hr. destruct (_ && _); [done|]. injection Hr as <-.
    by apply (fresh_inv len s).
  - destruct Hinv. by apply fresh_inv.
Qed.

Lemma session_inv len s shards s' shards' :
  session (s, shards) (s', shards') → sbs_inv len s shards → sbs_inv len s' shards'.
Proof.
  intros Hs. remember (s, shards) as a eqn:Ha. remember (s', shards') as b eqn:Hb.
  revert s shards s' shards' Ha Hb.
  induction Hs as [|a [s1 shards1] b Hstep _ IH]; intros s shards s' shards' Ha Hb Hinv;
    simplify_eq; [done|].
  eapply IH; [done|done|]. by eapply session_step_inv.
Qed.
End classic.

(** ** Properties *)
Section properties.
Context {F : Field} {FL : FieldLaws F} {RT : Runtime} {St : Storage Elem}
  {L : LruCache (list nat) (CachedMatrix Elem)} {LE : LeopardEncoders}.

(** C32: however calls of [encode] and [encode_sep], resets and edits
    of the data shards not encoded yet are interleaved, whenever the bookkeeper of a Classic codec says
    [parity_ready] the shards form a codeword; at most [data] shards are ever counted. *)
Theorem shard_by_shard_invariant (codec : ReedSolomon) (M : nat → nat → Elem) (len : nat)
    (shards shards' : list (list Elem)) (s' : ShardByShard)
    (Hc : classic_codec codec M)
    (Hl : whole_layout (data_shard_count codec + parity_shard_count codec) len shards)
    (Hsession : session (sbs_new codec, shards) (s', shards')) :
  cur_input_index s' ≤ data_shard_count codec ∧
  (parity_ready s' = true →
     codeword M (data_shard_count codec)
       (data_shard_count codec + parity_shard_count codec) len shards').
Proof.
  destruct (session_inv codec M Hc len _ _ _ _ Hsession) as [H1 H2 H3 H4].
  { by apply (fresh_inv codec M Hc len (sbs_new codec)). }
  split; [done|]. unfold parity_ready. rewrite H1, bool_decide_eq_true. intros Hready.
  apply codeword_parity; [apply (cc_systematic _ _ Hc)|done|].
  by rewrite H4, Hready, partial_parity_full.
Qed.

(** C33: in every state with [cur_input <= data], hence in every reachable one, the
    fallible calls on a Classic or a Leopard codec never panic.  [encode] and
    [encode_sep] fail with [TooManyCalls] exactly when the parity is ready, else with
    the error of the first failing layout check, else, on a Leopard codec, with
    [UnsupportedCodecFamily]; after a success the next index is one higher and the
    shards are those of [encode_single] and [encode_single_sep].  [reset] refuses
    exactly an unfinished batch. *)
Theorem shard_by_shard_total (codec : ReedSolomon) (cur : nat)
    (shards data parity : list (list Elem)) (Hcodec : session_codec codec)
    (Hcur : cur ≤ data_shard_count codec) :
  let d := data_shard_count codec in
  let p := parity_shard_count codec in
  let s := mk_sbs codec cur in
  ensures (sbs_encode s shards)
    (λ r, cur < d ∧ is_leopard_family codec = false ∧
       (∃ len, whole_layout (d + p) len shards) ∧ r.1 = mk_sbs codec (S cur) ∧
       encode_single codec cur shards = Ok r.2)
    (call_error codec cur (∃ len, whole_layout (d + p) len shards) (whole_error (d + p) shards)) ∧
  ensures (sbs_encode_sep s data parity)
    (λ r, cur < d ∧ is_leopard_family codec = false ∧
       (∃ len, sep_layout d p len data parity) ∧ r.1 = mk_sbs codec (S cur) ∧
       ∃ input, data !! cur = Some input ∧ encode_single_sep codec cur input parity = Ok r.2)
    (call_error codec cur (∃ len, sep_layout d p len data parity) (sep_error d p data parity)) ∧
  ensures (reset s) (λ s', s' = sbs_new codec ∧ (cur = 0%nat ∨ cur = d))
    (λ e, e = LeftoverShards ∧ 0 < cur < d).
Proof.
  intros d p s. split; [by apply sbs_encode_ensures|].
  split; [by apply sbs_encode_sep_ensures|].
  unfold reset, parity_ready, s. simpl. fold d.
  case_bool_decide; simpl.
  - case_bool_decide; simpl; [by split; [|right]|]. split; [done|lia].
  - split; [done|]. left. lia.
Qed.
End properties.
