(* ===== verification/Shards.v ===== *)
(** * Shard containers for reconstruction ([src/lib.rs], lines 241-400)

    The trait [ReconstructShard] and its implementations for [Option], for
    pairs of a buffer and a flag, and for [ShardSlot].  A container's
    [get_or_initialize] returns a mutable view; the model returns the new
    container, the view's contents and whether the shard was already there, and
    [shard_write] stores new contents through the view.  [ShardLaws] is
    what reconstruction relies on; every implementation of the crate satisfies it. *)

From Stdlib Require Import Lia List Bool.
From stdpp Require Import base numbers list.
From S2P Require Import Prelude Errors Fields.

Local Open Scope field_scope.

(** [ReconstructInitResult]: [Ok(view)], [Err(Ok(view))], [Err(Err(e))]. *)
Inductive InitResult {F : Field} : Type :=
| Existing (view : list Elem)
| Initialized (view : list Elem)
| Rejected (e : Error).

Class ReconstructShard {F : Field} (T : Type) := {
  shard_len : T → option nat;
  shard_get : T → option (list Elem);
  get_or_initialize : T → nat → T * InitResult;
  shard_write : T → list Elem → T;
}.

(** [view = match result { Ok(v) | Err(Ok(v)) => v, .. }] *)
Definition init_view {F : Field} (r : InitResult) : outcome Error (list Elem) :=
  match r with
  | Existing v | Initialized v => Ok v
  | Rejected e => Err e
  end.

Class ShardLaws {F : Field} (T : Type) (S : ReconstructShard T) : Prop := {
  shard_len_get (s : T) : shard_len s = length <$> shard_get s;
  init_existing (s s' : T) n v :
    get_or_initialize s n = (s', Existing v) → shard_get s = Some v;
  init_length (s s' : T) n v :
    get_or_initialize s n = (s', Initialized v) → length v = n;
  init_rejected (s s' : T) n e :
    get_or_initialize s n = (s', Rejected e) → shard_get s' = shard_get s;
  init_write (s s' : T) n r v w :
    get_or_initialize s n = (s', r) → init_view r = Ok v → length w = length v →
    shard_get (shard_write s' w) = Some w;
}.

(** The missing container takes a buffer of [n] elements. *)
Definition accepts {F : Field} {T} {S : ReconstructShard T} (s : T) (n : nat) : Prop :=
  ∃ s' v, get_or_initialize s n = (s', Initialized v) ∧ length v = n.

(** [ReconstructShard::is_empty] *)
Definition shard_is_empty {F : Field} {T} {S : ReconstructShard T} (s : T) : bool :=
  match shard_len s with None => true | Some _ => false end.

(** ** [impl ReconstructShard for Option<T>] *)
#[export] Instance option_shard {F : Field} : ReconstructShard (option (list Elem)) := {|
  shard_len s := length <$> s;
  shard_get s := s;
  get_or_initialize s len :=
    match s with
    | Some x => (Some x, Existing x)
    | None => (Some (replicate len 0), Initialized (replicate len 0))
    end;
  shard_write s w := match s with Some _ => Some w | None => None end;
|}.

#[export] Instance option_shard_laws {F : Field} : ShardLaws (option (list Elem)) option_shard.
Proof.
  split.
  - done.
  - intros [x|] s' n v; simpl; congruence.
  - intros [x|] s' n v; simpl; intros [=]. subst. apply length_replicate.
  - by intros [x|] s' n e; simpl.
  - intros [x|] s' n r v w; simpl; intros [= <- <-]; done.
Qed.

(** ** [impl ReconstructShard for (T, bool)] *)
#[export] Instance flag_shard {F : Field} : ReconstructShard (list Elem * bool) := {|
  shard_len s := if negb s.2 then None else Some (length s.1);
  shard_get s := if negb s.2 then None else Some s.1;
  get_or_initialize s len :=
    if decide (length s.1 = len) then
      if s.2 then (s, Existing s.1) else ((s.1, true), Initialized s.1)
    else (s, Rejected IncorrectShardSize);
  shard_write s w := (w, s.2);
|}.

#[export] Instance flag_shard_laws {F : Field} : ShardLaws (list Elem * bool) flag_shard.
Proof.
  split.
  - by intros [x []].
  - intros [x []] s' n v; simpl; case_decide; simpl; congruence.
  - intros [x []] s' n v; simpl; case_decide; simpl; intros [=]; by subst.
  - intros [x []] s' n e; simpl; case_decide; simpl; intros [=]; by subst.
  - intros [x []] s' n r v w; simpl; case_decide; simpl; intros [= <- <-]; done.
Qed.

(** ** [ShardSlot] *)
Record ShardSlot (A : Type) := mk_slot { slot_data : A; present : bool }.
Arguments mk_slot {A} _ _.
Arguments slot_data {A} _.
Arguments present {A} _.

Section slot.
Context {A : Type}.

Definition new_present (data : A) : ShardSlot A := mk_slot data true.
Definition new_missing (data : A) : ShardSlot A := mk_slot data false.
Definition with_present (data : A) (present : bool) : ShardSlot A := mk_slot data present.
Definition is_present (s : ShardSlot A) : bool := present s.
Definition mark_present (s : ShardSlot A) : ShardSlot A := mk_slot (slot_data s) true.
Definition mark_missing (s : ShardSlot A) : ShardSlot A := mk_slot (slot_data s) false.
Definition as_inner (s : ShardSlot A) : A := slot_data s.
Definition into_inner (s : ShardSlot A) : A := slot_data s.
End slot.

#[export] Instance slot_shard {F : Field} : ReconstructShard (ShardSlot (list Elem)) := {|
  shard_len s := if present s then Some (length (slot_data s)) else None;
  shard_get s := if present s then Some (slot_data s) else None;
  get_or_initialize s len :=
    if decide (length (slot_data s) = len) then
      if present s then (s, Existing (slot_data s))
      else (mk_slot (slot_data s) true, Initialized (slot_data s))
    else (s, Rejected IncorrectShardSize);
  shard_write s w := mk_slot w (present s);
|}.

#[export] Instance slot_shard_laws {F : Field} : ShardLaws (ShardSlot (list Elem)) slot_shard.
Proof.
  split.
  - by intros [x []].
  - intros [x []] s' n v; simpl; case_decide; simpl; congruence.
  - intros [x []] s' n v; simpl; case_decide; simpl; intros [=]; by subst.
  - intros [x []] s' n e; simpl; case_decide; simpl; intros [=]; by subst.
  - intros [x []] s' n r v w; simpl; case_decide; simpl; intros [= <- <-]; done.
Qed.

(** ** When the implementations accept a buffer *)
Section accepting.
Context {F : Field}.

Lemma option_accepts n : accepts (None : option (list Elem)) n.
Proof. eexists _, _. split; [done|]. apply length_replicate. Qed.

Lemma slot_accepts (x : list Elem) n : accepts (mk_slot x false) n ↔ length x = n.
Proof.
  unfold accepts. simpl. case_decide as Hx; split; try done.
  - intros _. by eexists _, _.
  - by intros (s' & v & [=] & _).
Qed.

Lemma flag_accepts (x : list Elem) n : accepts (x, false) n ↔ length x = n.
Proof.
  unfold accepts. simpl. case_decide as Hx; split; try done.
  - intros _. by eexists _, _.
  - by intros (s' & v & [=] & _).
Qed.
End accepting.
