(* ===== verification/Format.v ===== *)
(** * The encoding format ([src/core/format.rs])

    Equality of formats, which decides whether a codec may use a prepared
    workspace, and the persistent identifier [stable_id_bytes].  Two formats share
    their matrix through an [Arc]; [same_arc] is the answer of [Arc::ptr_eq].

    The theorems: equality decides equality, shared or not; the identifier has the
    documented layout and length, and determines the format. *)

From Stdlib Require Import NArith Lia List Bool.
From Stdlib Require Import Init.Byte.
From Stdlib Require Strings.String.
From stdpp Require Import base numbers list.
From S2P Require Import Prelude Errors Bytes Fields LinAlg Matrix Options Leopard.
From S2P Require Import InversionCache Codec.

Section format.
Context {F : Field} {RT : Runtime} {St : Storage Elem}.
#[local] Abbreviation EncodingFormat := (EncodingFormat Elem).
Implicit Types (self other : EncodingFormat).

(** ** Equality ([impl PartialEq for EncodingFormat]) *)

(** [(0..row_count).all(|row| a.get_row(row) == b.get_row(row))] *)
Fixpoint rows_equal {E} (a b : Matrix Elem) (rows : list nat) : outcome E bool :=
  match rows with
  | [] => Ok true
  | row :: rows =>
      let! x := get_row a row in
      let! y := get_row b row in
      if decide (x = y) then rows_equal a b rows else Ok false
  end.

Definition format_eq {E} (same_arc : bool) self other : outcome E bool :=
  if bool_decide (data_shards self = data_shards other)
     && bool_decide (parity_shards self = parity_shards other)
     && bool_decide (family self = family other)
  then
    if same_arc then Ok true else
    let a := format_matrix self in let b := format_matrix other in
    if bool_decide (row_count a = row_count b) && bool_decide (col_count a = col_count b)
    then rows_equal a b (seq 0 (row_count a))
    else Ok false
  else Ok false.

(** ** Accessors *)
Definition format_total_shard_count self : nat := data_shards self + parity_shards self.
Definition matrix_shape self : nat * nat :=
  (row_count (format_matrix self), col_count (format_matrix self)).
Definition matrix_row {E} self (row : nat) : outcome E (option (list Elem)) :=
  if decide (row < row_count (format_matrix self))
  then let! r := get_row (format_matrix self) row in Ok (Some r) else Ok None.

(** ** The identifier *)
Definition ENCODING_FORMAT_VERSION : N := 1.
Definition ID_MAGIC : list byte := [x52; x53; x45; x46; x4d; x54; x00; x00].
Definition FIXED_ID_BYTES : N := 59.
Definition MAX_ID_BYTES : N := 67108864.
Definition descriptor_version self : N := ENCODING_FORMAT_VERSION.

(** [to_be_bytes] of a [w]-byte integer *)
Fixpoint to_be_bytes (w : nat) (n : N) : list byte :=
  match w with
  | O => []
  | Datatypes.S w => to_be_bytes w (n / 256) ++ [as_u8 n]
  end.

(** [u32::try_from(n).ok()] and [u64::try_from(n).ok()] *)
Definition u32_try_from (n : N) : option N := if (n <? 2 ^ 32)%N then Some n else None.
Definition u64_try_from (n : N) : option N := if (n <? 2 ^ 64)%N then Some n else None.

Definition family_tag (f : CodecFamily) : byte :=
  match f with Classic => x00 | LeopardGF8 => x01 | LeopardGF16 => x02 end.

(** The elements of one row, in order; a short write stops everything. *)
Fixpoint write_elements (width : nat) (row : list Elem) : option (list byte) :=
  match row with
  | [] => Some []
  | element :: row =>
      written ← write_format_element element width;
      if decide (length written ≠ width) then None else
      rest ← write_elements width row;
      Some (written ++ rest)
  end.

(** The row loop; [None] of the outcome's option is the early return. *)
Fixpoint write_rows {E} (width : nat) (matrix : Matrix Elem) (rows : list nat)
  : outcome E (option (list byte)) :=
  match rows with
  | [] => Ok (Some [])
  | row :: rows =>
      let! elements := get_row matrix row in
      match write_elements width elements with
      | None => Ok None
      | Some bytes =>
          let! rest := write_rows width matrix rows in Ok (app bytes <$> rest)
      end
  end.

Definition stable_id_bytes {E} self : outcome E (option (list byte)) :=
  let matrix := format_matrix self in
  match
    '(field_id, element_width) ← stable_format;
    let field_bytes := Strings.String.list_byte_of_string field_id in
    let id_len := N.of_nat (length field_bytes) in
    if bool_decide (field_bytes = []) || (element_width =? 0)%N then None else
    field_id_len ← u32_try_from id_len;
    element_width_u32 ← u32_try_from element_width;
    field_order ← u64_try_from ORDER;
    data ← u64_try_from (N.of_nat (data_shards self));
    parity ← u64_try_from (N.of_nat (parity_shards self));
    rows ← u64_try_from (N.of_nat (row_count matrix));
    cols ← u64_try_from (N.of_nat (col_count matrix));
    coefficients ← checked_mul (N.of_nat (row_count matrix)) (N.of_nat (col_count matrix));
    coefficient_bytes ← checked_mul coefficients element_width;
    with_id ← checked_add FIXED_ID_BYTES id_len;
    total_bytes ← checked_add with_id coefficient_bytes;
    if (MAX_ID_BYTES <? total_bytes)%N || (MAX_ID_BYTES <? element_width)%N then None else
    Some (N.to_nat element_width,
      ID_MAGIC ++ to_be_bytes 2 ENCODING_FORMAT_VERSION ++ [family_tag (family self)]
      ++ to_be_bytes 4 field_id_len ++ field_bytes ++ to_be_bytes 4 element_width_u32
      ++ List.concat (map (to_be_bytes 8) [field_order; data; parity; rows; cols]))
  with
  | None => Ok None
  | Some (width, header) =>
      let! coefficients := write_rows width matrix (seq 0 (row_count matrix)) in
      Ok (app header <$> coefficients)
  end.
End format.

(** A field with a stable format writes each element in its own way. *)
Class FormatLaws (F : Field) : Prop := {
  write_inj (a b : Elem) w bytes :
    write_format_element a w = Some bytes → write_format_element b w = Some bytes → a = b;
}.

(** ** Big-endian integers *)
Lemma length_to_be_bytes w n : length (to_be_bytes w n) = w.
Proof. revert n. induction w as [|w IH]; intros n; [done|]. simpl. rewrite length_app, IH. simpl. lia. Qed.

Lemma to_be_bytes_inj w n m :
  (n < 256 ^ N.of_nat w)%N → (m < 256 ^ N.of_nat w)%N → to_be_bytes w n = to_be_bytes w m → n = m.
Proof.
  revert n m. induction w as [|w IH]; intros n m Hn Hm H; [simpl in *; lia|].
  simpl in H. apply app_inj_2 in H as [H1 H2]; [|done]. injection H2 as H2.
  apply (f_equal u8_to_N) in H2. rewrite !u8_to_N_as_u8 in H2.
  rewrite Nat2N.inj_succ, N.pow_succ_r' in Hn, Hm.
  apply IH in H1; [|apply N.Div0.div_lt_upper_bound; lia..].
  rewrite (N.div_mod n 256), (N.div_mod m 256) by done. by rewrite H1, H2.
Qed.

Lemma app_inj_len {A} (a b c d : list A) : length a = length c → a ++ b = c ++ d → a = c ∧ b = d.
Proof. intros Hl H. by apply app_inj_1. Qed.

Lemma be_app_inj w n m (x y : list byte) :
  (n < 256 ^ N.of_nat w)%N → (m < 256 ^ N.of_nat w)%N →
  to_be_bytes w n ++ x = to_be_bytes w m ++ y → n = m ∧ x = y.
Proof.
  intros Hn Hm H. apply app_inj_len in H as [H ->]; [|by rewrite !length_to_be_bytes].
  split; [by eapply to_be_bytes_inj|done].
Qed.

(** ** Properties *)
Section properties.
Context {F : Field} {RT : Runtime} {St : Storage Elem}.
#[local] Abbreviation EncodingFormat := (EncodingFormat Elem).
Implicit Types (self other : EncodingFormat).

(** The matrix of a format is a matrix. *)
Definition format_wf self : Prop :=
  ∃ M, rep (format_matrix self) (row_count (format_matrix self)) (col_count (format_matrix self)) M.

Lemma wf_row {E} self r :
  format_wf self → r < row_count (format_matrix self) →
  get_row (E:=E) (format_matrix self) r
  = Ok (take (col_count (format_matrix self))
          (drop (r * col_count (format_matrix self)) (data (format_matrix self)))).
Proof.
  intros [M (_ & _ & Hl & _)] Hr.
  unfold get_row, calc_row_start_end, calc_matrix_row_start_end.
  rewrite slice_ok by (rewrite ?Hl; nia). do 2 f_equal. lia.
Qed.

Lemma rows_determine {A} cols rows (x y : list A) :
  length x = rows * cols → length y = rows * cols →
  (∀ r, r < rows → take cols (drop (r * cols) x) = take cols (drop (r * cols) y)) → x = y.
Proof.
  revert x y. induction rows as [|rows IH]; intros x y Hx Hy H.
  { by destruct x, y. }
  rewrite <-(take_drop cols x), <-(take_drop cols y). f_equal.
  - specialize (H 0 ltac:(lia)). by rewrite !drop_0 in H.
  - apply IH; [rewrite length_drop; lia..|]. intros r Hr. rewrite !drop_drop.
    replace (cols + r * cols) with (Datatypes.S r * cols) by lia. apply H. lia.
Qed.

Lemma rows_equal_spec {E} self other rows :
  format_wf self → format_wf other →
  (∀ r, r ∈ rows → r < row_count (format_matrix self) ∧ r < row_count (format_matrix other)) →
  rows_equal (E:=E) (format_matrix self) (format_matrix other) rows
  = Ok (bool_decide (Forall (λ r,
      take (col_count (format_matrix self)) (drop (r * col_count (format_matrix self))
        (data (format_matrix self)))
      = take (col_count (format_matrix other)) (drop (r * col_count (format_matrix other))
        (data (format_matrix other)))) rows)).
Proof.
  intros Hs Ho. induction rows as [|r rows IH]; intros Hr; [done|]. cbn [rows_equal].
  destruct (Hr r ltac:(left)). rewrite !wf_row by done. cbn [obind]. case_decide as Heq.
  - rewrite IH by (intros; apply Hr; by right). f_equal. apply bool_decide_ext.
    rewrite Forall_cons. tauto.
  - rewrite bool_decide_eq_false_2; [done|]. rewrite Forall_cons. tauto.
Qed.

Lemma format_eq_decides self other (same_arc : bool)
    (Hself : format_wf self) (Hother : format_wf other)
    (Harc : same_arc = true → format_matrix self = format_matrix other) :
  ∃ b, format_eq (E:=Error) same_arc self other = Ok b ∧ (b = true ↔ self = other).
Proof.
  unfold format_eq. destruct (_ && _ && _) eqn:Hh.
  2:{ exists false. split; [done|]. split; [done|]. intros ->.
      by rewrite !bool_decide_eq_true_2 in Hh by done. }
  apply andb_true_iff in Hh as [[H1%bool_decide_eq_true H2%bool_decide_eq_true]%andb_true_iff
    H3%bool_decide_eq_true].
  assert (self = other ↔ format_matrix self = format_matrix other) as Hiff.
  { split; [by intros ->|]. intros Hm. destruct self, other; simpl in *. congruence. }
  destruct same_arc.
  { exists true. split; [done|]. rewrite Hiff. split; [intros _; by apply Harc|done]. }
  destruct (_ && _) eqn:Hs.
  2:{ exists false. split; [done|]. split; [done|]. intros ->.
      by rewrite !bool_decide_eq_true_2 in Hs by done. }
  apply andb_true_iff in Hs as [Hr%bool_decide_eq_true Hc%bool_decide_eq_true].
  rewrite rows_equal_spec; [|done|done|intros r Hin%elem_of_seq; lia].
  eexists. split; [done|]. rewrite bool_decide_eq_true, Hiff. split; [|by intros ->; rewrite Forall_forall].
  intros Hall. destruct Hself as [M (_ & _ & Hl & _)], Hother as [M' (_ & _ & Hl' & _)].
  destruct (format_matrix self) as [r c x], (format_matrix other) as [r' c' y]. simpl in *.
  subst r' c'. f_equal. apply (rows_determine c r); [done..|].
  intros i Hi. rewrite Forall_forall in Hall. apply Hall, elem_of_seq. lia.
Qed.

(** comparing formats never panics and answers whether they are equal,
    taking the shared-matrix shortcut or not. *)
Theorem format_eq_correct self other (same_arc : bool)
    (Hself : format_wf self) (Hother : format_wf other)
    (Harc : same_arc = true → format_matrix self = format_matrix other) :
  ∃ b, format_eq (E:=Error) same_arc self other = Ok b ∧ (b = true ↔ self = other).
Proof. by apply format_eq_decides. Qed.

(** ** The identifier *)
Context {FM : FormatLaws F}.

Lemma write_elements_length width row bytes :
  write_elements width row = Some bytes → length bytes = length row * width.
Proof.
  revert bytes. induction row as [|e row IH]; intros bytes; [by intros [= <-]|]. simpl.
  destruct (write_format_element e width) as [w|]; [|done]. simpl. case_decide as Hw; [done|].
  destruct (write_elements width row) as [rest|]; [|done]. intros [= <-].
  rewrite length_app, (IH rest) by done. lia.
Qed.

Lemma write_elements_inj width row row' bytes :
  length row = length row' →
  write_elements width row = Some bytes → write_elements width row' = Some bytes → row = row'.
Proof.
  revert row' bytes. induction row as [|e row IH]; intros [|e' row'] bytes Hl H1 H2; try done.
  simpl in *. destruct (write_format_element e width) as [w|] eqn:Hw; [|done].
  destruct (write_format_element e' width) as [w'|] eqn:Hw'; [|done]. simpl in *.
  repeat case_decide; try done.
  destruct (write_elements width row) as [r|] eqn:Hr; [|done].
  destruct (write_elements width row') as [r'|] eqn:Hr'; [|done].
  injection H1 as <-. injection H2 as H2. apply app_inj_len in H2 as [<- <-]; [|lia].
  f_equal; [by eapply write_inj|]. by apply (IH row' r'); [lia|..].
Qed.

Lemma write_rows_spec {E} self width rows bytes :
  format_wf self → (∀ r, r ∈ rows → r < row_count (format_matrix self)) →
  write_rows (E:=E) width (format_matrix self) rows = Ok (Some bytes) →
  write_elements width (List.concat (map (λ r, take (col_count (format_matrix self))
    (drop (r * col_count (format_matrix self)) (data (format_matrix self)))) rows)) = Some bytes.
Proof.
  intros Hwf. revert bytes. induction rows as [|r rows IH]; intros bytes Hr H; [by injection H as <-|].
  simpl in H. rewrite wf_row in H by (done || apply Hr; left). cbn [obind] in H.
  destruct (write_elements width (take _ _)) as [b|] eqn:Hb; [|done].
  destruct (write_rows width (format_matrix self) rows) as [[rest|]| |]; [|done..].
  injection H as <-. specialize (IH rest (λ r H, Hr r (list_elem_of_further _ _ _ H)) eq_refl).
  simpl. revert b Hb. induction (take _ _) as [|e l IHl]; intros b Hb; [by injection Hb as <-|].
  simpl in Hb |- *. destruct (write_format_element e width) as [w|]; [|done]. simpl in Hb |- *.
  case_decide; [done|]. destruct (write_elements width l) as [b'|]; [|done]. injection Hb as <-.
  rewrite (IHl b') by done. simpl. by rewrite app_assoc.
Qed.

Lemma concat_rows {A} cols rows (x : list A) :
  length x = rows * cols →
  List.concat (map (λ r, take cols (drop (r * cols) x)) (seq 0 rows)) = x.
Proof.
  revert x. induction rows as [|rows IH]; intros x Hx; [by destruct x|].
  cbn [seq map List.concat]. rewrite <-seq_shift, map_map.
  rewrite (map_ext _ (λ r, take cols (drop (r * cols) (drop cols x)))).
  - rewrite IH by (rewrite length_drop; lia). by rewrite take_drop.
  - intros r. rewrite drop_drop. do 2 f_equal.
Qed.

(** The counts of a format fit [usize]. *)
Definition format_fits self : Prop :=
  (N.of_nat (data_shards self) < 2 ^ 64)%N ∧ (N.of_nat (parity_shards self) < 2 ^ 64)%N ∧
  (N.of_nat (row_count (format_matrix self)) < 2 ^ 64)%N ∧
  (N.of_nat (col_count (format_matrix self)) < 2 ^ 64)%N.

(** The identifier is a header of the documented layout and the coefficients. *)
Definition id_layout self (id : list byte) : Prop :=
  ∃ name width coefficients,
    stable_format = Some (name, width) ∧
    (N.of_nat (length (String.list_byte_of_string name)) < 2 ^ 32)%N ∧ (width < 2 ^ 32)%N ∧
    (ORDER < 2 ^ 64)%N ∧ format_fits self ∧
    id = ID_MAGIC ++ to_be_bytes 2 ENCODING_FORMAT_VERSION ++ [family_tag (family self)]
      ++ to_be_bytes 4 (N.of_nat (length (String.list_byte_of_string name)))
      ++ String.list_byte_of_string name ++ to_be_bytes 4 width
      ++ to_be_bytes 8 ORDER ++ to_be_bytes 8 (N.of_nat (data_shards self))
      ++ to_be_bytes 8 (N.of_nat (parity_shards self))
      ++ to_be_bytes 8 (N.of_nat (row_count (format_matrix self)))
      ++ to_be_bytes 8 (N.of_nat (col_count (format_matrix self))) ++ coefficients ∧
    write_elements (N.to_nat width) (data (format_matrix self)) = Some coefficients.

Lemma u32_some n m : u32_try_from n = Some m → m = n ∧ (n < 2 ^ 32)%N.
Proof. unfold u32_try_from. destruct (N.ltb_spec n (2 ^ 32)); [by intros [= <-]|done]. Qed.
Lemma u64_some n m : u64_try_from n = Some m → m = n ∧ (n < 2 ^ 64)%N.
Proof. unfold u64_try_from. destruct (N.ltb_spec n (2 ^ 64)); [by intros [= <-]|done]. Qed.

Lemma ok_some_inj {E A} (a b : A) : Ok (E:=E) (Some a) = Ok (Some b) → b = a.
Proof. by intros [= ->]. Qed.

(** Open the first fallible step of the identifier. *)
Ltac open_id H :=
  match type of H with
  | context [u32_try_from ?n ≫= _] => destruct (u32_try_from n) eqn:?
  | context [u64_try_from ?n ≫= _] => destruct (u64_try_from n) eqn:?
  | context [checked_mul ?a ?b ≫= _] => destruct (checked_mul a b)
  | context [checked_add ?a ?b ≫= _] => destruct (checked_add a b)
  end; cbn [mbind option_bind] in H; [|discriminate H].

Lemma stable_id_layout {E} self id :
  format_wf self → stable_id_bytes (E:=E) self = Ok (Some id) → id_layout self id.
Proof.
  intros Hwf H. unfold stable_id_bytes in H. destruct stable_format as [[name width]|] eqn:Hsf; [|done].
  cbn [mbind option_bind] in H.
  set (fb := String.list_byte_of_string name) in *.
  destruct (bool_decide (fb = []) || (width =? 0)%N); [done|].
  repeat open_id H. destruct (_ || _); [done|].
  repeat match goal with
  | E : u32_try_from _ = Some _ |- _ => apply u32_some in E as [-> ?]
  | E : u64_try_from _ = Some _ |- _ => apply u64_some in E as [-> ?]
  end.
  destruct (write_rows _ _ _) as [[bytes|]| |] eqn:Hrows; [|done..]. apply ok_some_inj in H as ->.
  apply write_rows_spec in Hrows; [|done|intros r Hr%elem_of_seq; lia].
  destruct Hwf as [M (_ & _ & Hl & _)]. rewrite concat_rows in Hrows by done.
  exists name, width, bytes. split_and!; [done..| |done].
  cbn [map List.concat]. rewrite app_nil_r, <-!app_assoc. done.
Qed.

(** C40: the identifier has the documented layout, [59] bytes and the
    field name and coefficients, and determines the format: two formats over one field
    with the same identifier are equal. *)
Theorem stable_id_injective self other (id : list byte)
    (Hself : format_wf self) (Hother : format_wf other)
    (H1 : stable_id_bytes (E:=Error) self = Ok (Some id))
    (H2 : stable_id_bytes (E:=Error) other = Ok (Some id)) :
  id_layout self id ∧ self = other.
Proof.
  apply stable_id_layout in H1, H2; [|done..]. split; [done|].
  destruct H1 as (name & width & c & Hsf & Hn & Hw & Ho & (F1 & F2 & F3 & F4) & -> & Hc).
  destruct H2 as (name' & width' & c' & Hsf' & _ & _ & _ & (G1 & G2 & G3 & G4) & Hid & Hc').
  rewrite Hsf in Hsf'. injection Hsf' as <- <-.
  apply app_inj_len in Hid as [_ Hid]; [|done]. apply app_inj_len in Hid as [_ Hid]; [|done].
  apply app_inj_len in Hid as [Hfam Hid]; [|done].
  apply app_inj_len in Hid as [_ Hid]; [|done]. apply app_inj_len in Hid as [_ Hid]; [|done].
  apply app_inj_len in Hid as [_ Hid]; [|done]. apply app_inj_len in Hid as [_ Hid]; [|done].
  apply be_app_inj in Hid as [Hd Hid]; [|done..]. apply be_app_inj in Hid as [Hp Hid]; [|done..].
  apply be_app_inj in Hid as [Hr Hid]; [|done..]. apply be_app_inj in Hid as [Hcol ->]; [|done..].
  apply Nat2N.inj in Hd, Hp, Hr, Hcol.
  destruct Hself as [M (_ & _ & Hl & _)], Hother as [M' (_ & _ & Hl' & _)].
  assert (data (format_matrix self) = data (format_matrix other)) as Hdata.
  { eapply write_elements_inj; [|done..]. rewrite Hl, Hl'. congruence. }
  destruct self as [d p f [r k x]], other as [d' p' f' [r' k' x']]. simpl in *.
  subst. f_equal. by destruct f, f'.
Qed.
End properties.
