(* ===== verification/DecodeMatrix.v ===== *)
(** * Decode matrices ([src/core/reconstruct.rs], lines 1062-1222)

    [build_data_decode_matrix] inverts the square of encoding rows of the first
    [data_shards] survivors.  It never runs a dense inversion when some data
    shards survived: one missing data shard is solved directly, several by
    eliminating only the missing coefficients.  [get_data_decode_matrix] puts
    the inversion cache in front of it.

    The theorems: all three paths return the same matrix as the dense inversion,
    or [InvalidCustomMatrix] exactly for a singular square; and the cache
    never changes a result. *)

From Stdlib Require Import NArith Lia List Bool Ring Sorted.
From stdpp Require Import base numbers list.
From S2P Require Import Prelude Errors Fields LinAlg Matrix Options Leopard InversionCache.
From S2P Require Import Codec.

Local Open Scope field_scope.

(** [slice.partition_point(p)] of a partitioned slice: the length of the
    prefix that satisfies [p]. *)
Fixpoint partition_point (p : nat → bool) (l : list nat) : nat :=
  match l with
  | [] => 0%nat
  | x :: l => if p x then S (partition_point p l) else 0%nat
  end.

(** The peekable walk over [0..n] that separates the sorted indices [known]
    from the others; it returns the others. *)
Fixpoint skip_known (range known : list nat) : list nat :=
  match range with
  | [] => []
  | i :: range =>
      match known with
      | k :: ks => if decide (k = i) then skip_known range ks else i :: skip_known range known
      | [] => i :: skip_known range known
      end
  end.

Section decode_matrix.
Context {F : Field} {RT : Runtime} {St : Storage Elem}
  {L : LruCache (list nat) (CachedMatrix Elem)}.

Definition invalid_matrix {A} (m : outcome MatrixError A) : outcome Error A :=
  map_err (λ _, InvalidCustomMatrix) m.

(** The first position where the present data shards leave a gap. *)
Definition first_gap (known : list nat) : nat :=
  match find (λ '(index, valid), bool_decide (index ≠ valid)) (imap pair known) with
  | Some (index, _) => index
  | None => length known
  end.

(** One missing data shard. *)
Definition build_single (matrix : Matrix Elem) (data_count present_count : nat)
    (valid_indices : list nat) : outcome Error (Matrix Elem) :=
  let! known := slice valid_indices 0 present_count in
  let missing := first_gap known in
  let! q := index valid_indices present_count in
  let! parity_row := get_row matrix q in
  let! pivot := index parity_row missing in
  if decide (pivot = 0) then Err InvalidCustomMatrix else
  let reciprocal := 1 / pivot in
  let! decode := for_each (imap pair known) (λ '(column, idx) decode,
    let! decode := set decode idx column 1 in
    let! v := index parity_row idx in
    set decode missing column (reciprocal * v)) (matrix_new data_count data_count) in
  set decode missing present_count reciprocal.

(** The equations [C | B | I] of the selected parity shards. *)
Definition build_equations (matrix : Matrix Elem)
    (data_count present_count missing_count : nat) (missing known parity : list nat)
    : outcome Error (Matrix Elem) :=
  for_each (imap pair parity) (λ '(row, idx) equations,
    let! coefficients := get_row matrix idx in
    let! equations := for_each (imap pair missing) (λ '(column, idx) equations,
      let! v := index coefficients idx in set equations row column v) equations in
    let! equations := for_each (imap pair known) (λ '(column, idx) equations,
      let! v := index coefficients idx in
      set equations row (missing_count + column)%nat v) equations in
    set equations row (missing_count + present_count + row)%nat 1)
    (matrix_new missing_count (missing_count + data_count)).

(** Several missing data shards next to surviving ones. *)
Definition build_eliminated (matrix : Matrix Elem) (data_count present_count : nat)
    (valid_indices : list nat) : outcome Error (Matrix Elem) :=
  let missing_count := (data_count - present_count)%nat in
  let! known := slice valid_indices 0 present_count in
  let! parity := slice valid_indices present_count (length valid_indices) in
  let missing := skip_known (seq 0 data_count) known in
  let! equations :=
    build_equations matrix data_count present_count missing_count missing known parity in
  let! equations := invalid_matrix (gaussian_elim equations) in
  let! decode := for_each (imap pair known) (λ '(column, idx) decode,
    set decode idx column 1) (matrix_new data_count data_count) in
  for_each (imap pair missing) (λ '(row, idx) decode,
    let! values := get_row equations row in
    let! values := slice values missing_count (length values) in
    for_each (imap pair values) (λ '(column, value) decode,
      set decode idx column value) decode) decode.

(** The dense inversion of the selected rows. *)
Definition build_dense (matrix : Matrix Elem) (data_count : nat)
    (valid_indices : list nat) : outcome Error (Matrix Elem) :=
  let! selected := for_each (imap pair valid_indices) (λ '(row, idx) selected,
    for_range 0 data_count (λ column selected,
      let! v := get matrix idx column in set selected row column v) selected)
    (matrix_new data_count data_count) in
  invalid_matrix (invert selected).

Definition build_data_decode_matrix (self : ReedSolomon) (valid_indices : list nat)
  : outcome Error (Matrix Elem) :=
  let data_count := data_shard_count self in
  let matrix := format_matrix (rs_format self) in
  let present_count := partition_point (λ index, bool_decide (index < data_count)) valid_indices in
  if decide (present_count + 1 = data_count)%nat
  then build_single matrix data_count present_count valid_indices
  else
    let missing_count := (data_count - present_count)%nat in
    if bool_decide (present_count ≠ 0%nat) && bool_decide (1 < missing_count)
    then build_eliminated matrix data_count present_count valid_indices
    else build_dense matrix data_count valid_indices.

Definition set_cache (self : ReedSolomon) (c : InversionCache Elem) : ReedSolomon :=
  mk_rs (rs_format self) (rs_options self) (rs_policy_cache self) c.

(** The key of the cache: the erasures before the last selected survivor. *)
Definition cache_erasures (self : ReedSolomon) (valid_indices invalid_indices : list nat)
  : list nat :=
  match last valid_indices, last invalid_indices with
  | Some last_selected, Some last_missing =>
      if exec_inversion_cache (rs_options self) && bool_decide (last_selected < last_missing)
      then take (partition_point (λ index, bool_decide (index < last_selected)) invalid_indices)
             invalid_indices
      else invalid_indices
  | _, _ => invalid_indices
  end.

(** The codec with its cache after the call, and the outcome. *)
Definition get_data_decode_matrix (self : ReedSolomon)
    (valid_indices invalid_indices : list nat)
    : ReedSolomon * outcome Error (Matrix Elem) :=
  if decide (length valid_indices ≠ data_shard_count self)
  then (self, Err TooFewShardsPresent) else
  let key := cache_erasures self valid_indices invalid_indices in
  if exec_inversion_cache (rs_options self) then
    let '(entry, cache) := cache_get (rs_cache self) key in
    let self := set_cache self cache in
    match entry with
    | Some m => (self, Ok m)
    | None =>
        match build_data_decode_matrix self valid_indices with
        | Ok m =>
            match cache_insert (E:=Error) (rs_cache self) key m with
            | Ok (_, cache) => (set_cache self cache, Ok m)
            | Err e => (self, Err e)
            | Panic => (self, Panic)
            end
        | r => (self, r)
        end
    end
  else (self, build_data_decode_matrix self valid_indices).
End decode_matrix.

(** ** Sorted index lists *)
Section indices.
Implicit Types (l K : list nat).

Lemma partition_point_split p l :
  (∀ x, x ∈ take (partition_point p l) l → p x = true) ∧
  (∀ x, head (drop (partition_point p l) l) = Some x → p x = false) ∧
  partition_point p l ≤ length l.
Proof.
  induction l as [|x l (IH1 & IH2 & IH3)]; simpl.
  - split_and!; [by intros x ?%not_elem_of_nil|done|lia].
  - destruct (p x) eqn:Hp; simpl.
    + split_and!; [|done|lia]. intros y [->|Hy]%elem_of_cons; [done|by apply IH1].
    + split_and!; [by intros y ?%not_elem_of_nil| |lia]. intros y [= <-]. done.
Qed.

Lemma sorted_app_inv l k :
  StronglySorted lt (l ++ k) →
  StronglySorted lt l ∧ StronglySorted lt k ∧ ∀ x y, x ∈ l → y ∈ k → x < y.
Proof.
  induction l as [|x l IH]; simpl; intros Hs.
  - split_and!; [constructor|done|by intros x y ?%not_elem_of_nil].
  - apply StronglySorted_inv in Hs as [Hs Hall]. rewrite List.Forall_forall in Hall.
    destruct (IH Hs) as (H1 & H2 & H3). split_and!; [|done|].
    + constructor; [done|]. rewrite List.Forall_forall. intros y Hy. apply Hall, in_app_iff.
      by left.
    + intros a b [->|Ha]%elem_of_cons Hb; [|by apply H3].
      apply Hall, in_app_iff. right. by apply list_elem_of_In.
Qed.

Lemma sorted_cons_lt x l y : StronglySorted lt (x :: l) → y ∈ l → x < y.
Proof.
  intros [_ Hall]%StronglySorted_inv Hy. rewrite List.Forall_forall in Hall.
  by apply Hall, list_elem_of_In.
Qed.

Lemma sorted_nodup_lt l : StronglySorted lt l → NoDup l.
Proof.
  induction l as [|x l IH]; intros Hs; [constructor|]. apply NoDup_cons. split.
  - intros Hx. apply (sorted_cons_lt x l x Hs) in Hx. lia.
  - apply IH. by apply StronglySorted_inv in Hs as [? _].
Qed.

(** [partition_point] cuts a sorted list at a bound. *)
Lemma partition_point_bound l b :
  StronglySorted lt l →
  let n := partition_point (λ i, bool_decide (i < b)) l in
  (∀ x, x ∈ take n l → x < b) ∧ (∀ x, x ∈ drop n l → b ≤ x) ∧ n ≤ length l.
Proof.
  intros Hs n. destruct (partition_point_split (λ i, bool_decide (i < b)) l) as (H1 & H2 & H3).
  fold n in H1, H2, H3. split_and!; [|..|done].
  - intros x Hx. by apply H1, bool_decide_eq_true in Hx.
  - intros x Hx. assert (StronglySorted lt (drop n l)) as Hd.
    { rewrite <-(take_drop n l) in Hs. by apply sorted_app_inv in Hs as (_ & ? & _). }
    destruct (drop n l) as [|y k]; [by apply not_elem_of_nil in Hx|].
    specialize (H2 y eq_refl). apply bool_decide_eq_false in H2.
    apply elem_of_cons in Hx as [->|Hx]; [lia|].
    apply (sorted_cons_lt y k x Hd) in Hx. lia.
Qed.

(** The walk returns the indices that are not known. *)
Lemma skip_known_filter s n K :
  StronglySorted lt K → (∀ k, k ∈ K → s ≤ k) →
  skip_known (seq s n) K = filter (λ i, i ∉ K) (seq s n).
Proof.
  revert s K. induction n as [|n IH]; intros s K Hs Hb; [done|]. cbn [seq skip_known].
  destruct K as [|k ks].
  - rewrite filter_cons_True by apply not_elem_of_nil. f_equal.
    rewrite IH; [done|done|]. by intros k ?%not_elem_of_nil.
  - destruct (decide (k = s)) as [->|Hne].
    + rewrite filter_cons_False by (intros H; apply H; left).
      rewrite IH.
      * apply filter_ext_elem. intros i Hi. apply elem_of_seq in Hi.
        rewrite elem_of_cons. split; [intros ? [->|]; [lia|done]|intros H ?; apply H; by right].
      * by apply StronglySorted_inv in Hs as [? _].
      * intros k Hk. apply (sorted_cons_lt _ _ _ Hs) in Hk. lia.
    + assert (s < k) by (specialize (Hb k ltac:(left)); lia).
      rewrite filter_cons_True.
      2:{ intros [->|Hk]%elem_of_cons; [lia|].
          apply (sorted_cons_lt _ _ _ Hs) in Hk. lia. }
      f_equal. apply IH; [done|]. intros k' [->|Hk]%elem_of_cons; [lia|].
      apply (sorted_cons_lt _ _ _ Hs) in Hk. lia.
Qed.

Lemma known_unknown_perm K n :
  NoDup K → (∀ k, k ∈ K → k < n) → K ++ filter (λ i, i ∉ K) (seq 0 n) ≡ₚ seq 0 n.
Proof.
  intros Hnd Hb. apply NoDup_Permutation.
  - apply NoDup_app. split_and!; [done| |apply NoDup_filter, NoDup_seq].
    intros x Hx Hf. by apply list_elem_of_filter in Hf as [? _].
  - apply NoDup_seq.
  - intros x. rewrite elem_of_app, list_elem_of_filter, elem_of_seq. split.
    + intros [Hx|[_ Hx]]; [specialize (Hb x Hx); lia|lia].
    + intros Hx. destruct (decide (x ∈ K)); [by left|by right].
Qed.

(** The first gap in the known data shards is not known. *)
Lemma sorted_lookup_ge K i k : StronglySorted lt K → K !! i = Some k → i ≤ k.
Proof.
  intros Hs. revert k. induction i as [|i IH]; intros k Hk; [lia|].
  destruct (lookup_lt_is_Some_2 K i) as [k' Hk'].
  { apply lookup_lt_Some in Hk. lia. }
  specialize (IH k' Hk').
  rewrite <-(take_drop_middle K i k' Hk') in Hs.
  apply sorted_app_inv in Hs as (_ & Hs & _).
  assert (k' < k); [|lia]. apply (sorted_cons_lt k' (drop (S i) K)); [done|].
  apply (list_elem_of_lookup_2 _ 0). by rewrite lookup_drop, Nat.add_0_r.
Qed.

Lemma first_gap_spec K :
  StronglySorted lt K → first_gap K ≤ length K ∧ first_gap K ∉ K.
Proof.
  intros Hs. unfold first_gap.
  assert (∀ s l, (∀ i k, l !! i = Some k → (s + i)%nat ≤ k) → StronglySorted lt l →
    match find (λ '(index, valid), bool_decide (index ≠ valid)) (imap (λ i k, ((s + i)%nat, k)) l) with
    | Some (i, _) => s ≤ i ∧ i ≤ (s + length l)%nat ∧ i ∉ l
    | None => (s + length l)%nat ∉ l
    end) as H.
  { intros s l. revert s. induction l as [|x l IH]; intros s Hge Hl.
    - simpl. apply not_elem_of_nil.
    - cbn [imap find]. pose proof (Hge 0%nat x eq_refl) as Hx.
      rewrite Nat.add_0_r in *. case_bool_decide as Hne.
      + split_and!; [lia|simpl; lia|]. intros [->|Hin]%elem_of_cons; [done|].
        apply (sorted_cons_lt _ _ _ Hl) in Hin. lia.
      + subst x.
        assert (imap ((λ i k, ((s + i)%nat, k)) ∘ S) l
          = imap (λ i k, ((S s + i)%nat, k)) l) as ->.
        { apply imap_ext. intros i y _. simpl. f_equal. lia. }
        specialize (IH (S s)). cbn [length].
        destruct (find _ _) as [[i y]|].
        * destruct IH as (H1 & H2 & H3).
          -- intros i' k Hk. specialize (Hge (S i') k Hk). lia.
          -- by apply StronglySorted_inv in Hl as [? _].
          -- split_and!; [lia|lia|]. intros [->|?]%elem_of_cons; [lia|done].
        * replace (s + S (length l))%nat with (S s + length l)%nat by lia.
          intros [?|Hin]%elem_of_cons; [lia|]. revert Hin. apply IH.
          -- intros i' k Hk. specialize (Hge (S i') k Hk). lia.
          -- by apply StronglySorted_inv in Hl as [? _]. }
  specialize (H 0%nat K). cbn [Nat.add] in H.
  assert (imap (λ i k : nat, (i, k)) K = imap pair K) as E by done. rewrite E in H.
  destruct (find _ _) as [[i y]|].
  - destruct H as (_ & H2 & H3); [|done|done]. intros j k Hk. by apply (sorted_lookup_ge K).
  - split; [done|]. apply H; [|done]. intros j k Hk. by apply (sorted_lookup_ge K).
Qed.

Lemma sorted_filter (P : nat → Prop) `{∀ x, Decision (P x)} l :
  StronglySorted lt l → StronglySorted lt (filter P l).
Proof.
  induction l as [|x l IH]; intros Hs; [done|]. rewrite filter_cons.
  pose proof (sorted_cons_lt x l) as Hlt.
  apply StronglySorted_inv in Hs as Hs'. destruct Hs' as [Hs' _].
  case_decide; [|by apply IH]. constructor; [by apply IH|].
  rewrite List.Forall_forall. intros y Hy%list_elem_of_In.
  apply list_elem_of_filter in Hy as [_ Hy]. by apply Hlt.
Qed.

Lemma sorted_seq s n : StronglySorted lt (seq s n).
Proof.
  revert s. induction n as [|n IH]; intros s; [constructor|]. simpl. constructor; [apply IH|].
  rewrite List.Forall_forall. intros y Hy. apply in_seq in Hy. lia.
Qed.
End indices.

(** Writing consecutive entries of one row. *)
Section row_writes.
Context {F : Field} {FL : FieldLaws F}.

Lemma row_list_loop {E A} m rows cols f (l : list A) r lo (w : nat → Elem)
    (body : nat * A → Matrix Elem → outcome E (Matrix Elem)) :
  rep m rows cols f → r < rows → (lo + length l)%nat ≤ cols →
  (∀ k x m, l !! k = Some x → body (k, x) m = set m r (lo + k)%nat (w k)) →
  ensures (for_each (imap pair l) body m)
    (λ m', rep m' rows cols (λ r' c,
       if decide (r' = r ∧ lo ≤ c < lo + length l) then w (c - lo)%nat else f r' c))
    (λ _, False).
Proof.
  intros Hm Hr Hl Hbody. apply (for_each_post _ _ (λ n m', rep m' rows cols (λ r' c,
    if decide (r' = r ∧ lo ≤ c < lo + n) then w (c - lo)%nat else f r' c))).
  - eapply rep_ext; [exact Hm|]. intros r' c _ _. by rewrite decide_False by lia.
  - intros n x m' Hx Hm'. rewrite list_lookup_imap in Hx.
    destruct (l !! n) as [y|] eqn:Hy; [|done]. injection Hx as <-.
    pose proof (lookup_lt_Some _ _ _ Hy) as Hn. rewrite (Hbody n y m' Hy). unfold set.
    destruct (set_acc_ok (E:=E) m' rows cols _ Hm' r (lo + n) (w n)) as (m2 & -> & Hm2);
      [lia..|]. simpl. eapply rep_ext; [exact Hm2|]. intros r' c _ _. cbn beta.
    destruct (decide (r' = r)) as [->|Hne].
    + destruct (decide (c = lo + n)%nat) as [->|Hc].
      * rewrite decide_True by done. rewrite decide_True by lia. f_equal. lia.
      * rewrite decide_False by (by intros [_ ?]).
        destruct (decide (r = r ∧ lo ≤ c < lo + n)) as [H|H].
        -- by rewrite decide_True by lia.
        -- by rewrite decide_False by lia.
    + rewrite !decide_False by (by intros [? _]). done.
  - intros m' Hm'. by rewrite length_imap in Hm'.
Qed.
End row_writes.

(** ** The three constructions *)
Section paths.
Context {F : Field} {FL : FieldLaws F}.
Add Ring elem_ring : field_ring_theory (morphism field_ring_morph, constants [field_const]).
Context (matrix : Matrix Elem) (t d : nat) (M : nat → nat → Elem).
Context (Hrep : rep matrix t d M) (Hsys : systematic d M) (Hdt : d ≤ t) (Hd : 0 < d).

(** The survivors: known data shards [K], then parity shards [Q]. *)
Context (K Q : list nat).
Context (HK : StronglySorted lt K) (HKd : ∀ k, k ∈ K → k < d).
Context (HQ : ∀ q, q ∈ Q → d ≤ q ∧ q < t) (Hlen : (length K + length Q)%nat = d).

#[local] Abbreviation valid := (K ++ Q).
#[local] Abbreviation U := (filter (λ i, i ∉ K) (seq 0 d)).

(** The square of selected rows. *)
Definition selected_rows (l : list nat) : nat → nat → Elem := λ i c, M (rows_at l i) c.

#[local] Abbreviation S := (selected_rows valid).

Lemma rows_at_known i : i < length K → rows_at valid i = rows_at K i.
Proof. intros Hi. unfold rows_at. by rewrite lookup_app_l. Qed.

Lemma rows_at_parity i : rows_at valid (length K + i)%nat = rows_at Q i.
Proof.
  unfold rows_at. rewrite lookup_app_r by lia. by replace (length K + i - length K)%nat with i by lia.
Qed.

Lemma rows_at_lookup l i x : l !! i = Some x → rows_at l i = x.
Proof. unfold rows_at. by intros ->. Qed.

Lemma lookup_rows_at l i : i < length l → l !! i = Some (rows_at l i).
Proof.
  intros Hi. destruct (lookup_lt_is_Some_2 l i Hi) as [x Hx]. by rewrite (rows_at_lookup _ _ _ Hx).
Qed.

Lemma known_lt i : i < length K → rows_at K i < d.
Proof. intros Hi. apply HKd, rows_at_elem. done. Qed.

Lemma parity_bound i : i < length Q → d ≤ rows_at Q i ∧ rows_at Q i < t.
Proof. intros Hi. apply HQ, rows_at_elem. done. Qed.

Lemma known_inj i j : i < length K → j < length K → rows_at K i = rows_at K j → i = j.
Proof.
  intros Hi Hj E. apply (NoDup_lookup K i j (rows_at K i)); [by apply sorted_nodup_lt|..].
  - by apply lookup_rows_at.
  - rewrite E. by apply lookup_rows_at.
Qed.

Lemma perm_data : K ++ U ≡ₚ seq 0 d.
Proof. apply known_unknown_perm; [by apply sorted_nodup_lt|done]. Qed.

Lemma length_unknown : length U = length Q.
Proof.
  pose proof (Permutation_length perm_data) as H. rewrite length_app, length_seq in H. lia.
Qed.

Lemma unknown_lt i : i < length Q → rows_at U i < d.
Proof.
  intros Hi. rewrite <-length_unknown in Hi. apply rows_at_elem in Hi.
  apply list_elem_of_filter in Hi as [_ Hi]. apply elem_of_seq in Hi. lia.
Qed.

Lemma unknown_not_known i : i < length Q → rows_at U i ∉ K.
Proof.
  intros Hi. rewrite <-length_unknown in Hi. apply rows_at_elem in Hi.
  by apply list_elem_of_filter in Hi as [? _].
Qed.

Lemma unknown_inj i j : i < length Q → j < length Q → rows_at U i = rows_at U j → i = j.
Proof.
  rewrite <-length_unknown. intros Hi Hj E.
  apply (NoDup_lookup U i j (rows_at U i)); [apply NoDup_filter, NoDup_seq|..].
  - by apply lookup_rows_at.
  - rewrite E. by apply lookup_rows_at.
Qed.

(** Every data index is known or unknown. *)
Lemma data_cases a :
  a < d → (∃ i, i < length K ∧ a = rows_at K i) ∨ (∃ i, i < length Q ∧ a = rows_at U i).
Proof.
  intros Ha. assert (a ∈ K ++ U) as Hin.
  { rewrite perm_data. apply elem_of_seq. lia. }
  apply elem_of_app in Hin as [Hin|Hin]; apply list_elem_of_lookup in Hin as (i & Hi).
  - left. exists i. split; [by eapply lookup_lt_Some|]. symmetry. by apply rows_at_lookup.
  - right. exists i. split; [rewrite <-length_unknown; by eapply lookup_lt_Some|].
    symmetry. by apply rows_at_lookup.
Qed.

(** A row of the encoding matrix splits over known and unknown columns. *)
Lemma row_split z r :
  row_dot d M z r =
  bsum (length Q) (λ a, M r (rows_at U a) * z (rows_at U a))
  + bsum (length K) (λ i, M r (rows_at K i) * z (rows_at K i)).
Proof.
  unfold row_dot. rewrite <-lsum_seq, <-(lsum_perm _ _ _ perm_data), lsum_app.
  rewrite !lsum_rows_at, length_unknown. ring.
Qed.

Lemma row_known z i : i < length K → row_dot d S z i = z (rows_at K i).
Proof.
  intros Hi. unfold row_dot, selected_rows. rewrite rows_at_known by done.
  pose proof (known_lt i Hi) as Hlt.
  rewrite <-(bsum_delta_sym d (rows_at K i) z) by done. apply bsum_ext. intros c Hc.
  rewrite Hsys by done. ring.
Qed.

Lemma row_parity z i :
  row_dot d S z (length K + i)%nat = row_dot d M z (rows_at Q i).
Proof. unfold row_dot, selected_rows. by rewrite rows_at_parity. Qed.

(** A decoder needs the values of the unknown shards only. *)
Lemma decodes_intro X :
  (∀ i j, i < length K → j < d → X (rows_at K i) j = delta i j) →
  (∀ z a, a < length Q →
     bsum (length K) (λ j, X (rows_at U a) j * z (rows_at K j))
     + bsum (length Q) (λ j, X (rows_at U a) (length K + j)%nat * row_dot d M z (rows_at Q j))
     = z (rows_at U a)) →
  decodes d S X.
Proof.
  intros H1 H2 z a Ha. destruct (data_cases a Ha) as [(i & Hi & ->)|(i & Hi & ->)].
  - rewrite <-(row_known z i Hi).
    transitivity (row_dot d delta (row_dot d S z) i); [|apply row_dot_delta; lia].
    apply bsum_ext. intros j Hj. by rewrite H1.
  - rewrite <-(H2 z i Hi). unfold row_dot at 1. rewrite <-Hlen at 1. rewrite bsum_split.
    f_equal.
    + apply bsum_ext. intros j Hj. by rewrite row_known.
    + apply bsum_ext. intros j Hj. by rewrite row_parity.
Qed.

(** ** One missing data shard *)
Section single.
Context (Hone : length Q = 1%nat).

Lemma gap_unknown : rows_at U 0 = first_gap K.
Proof.
  destruct (first_gap_spec K HK) as [Hg1 Hg2].
  destruct (data_cases (first_gap K)) as [(i & Hi & E)|(i & Hi & E)]; [lia| |].
  - exfalso. apply Hg2. rewrite E. by apply rows_at_elem.
  - rewrite E. by replace i with 0%nat by lia.
Qed.

#[local] Abbreviation g := (first_gap K).
#[local] Abbreviation q := (rows_at Q 0).

Lemma gap_lt : g < d.
Proof. rewrite <-gap_unknown. apply unknown_lt. lia. Qed.

Lemma known_not_gap i : i < length K → rows_at K i ≠ g.
Proof.
  intros Hi E. apply (unknown_not_known 0); [lia|]. rewrite gap_unknown, <-E.
  by apply rows_at_elem.
Qed.

(** The decode matrix after the first [n] known shards. *)
Definition single_rows (rc : Elem) (n : nat) : nat → nat → Elem := λ r c,
  if decide (c < n)
  then if decide (r = rows_at K c) then 1
       else if decide (r = g) then rc * M q (rows_at K c) else 0
  else 0.

Lemma single_loop rc :
  ensures (for_each (imap pair K) (λ '(column, idx) decode,
    let! decode := set decode idx column 1 in
    let! v := index (tabulate d (M q)) idx in
    set decode g column (rc * v)) (matrix_new d d))
    (λ m, rep m d d (single_rows rc (length K))) (λ _ : Error, False).
Proof.
  pose proof gap_lt as Hg.
  apply (for_each_post _ _ (λ n m, rep m d d (single_rows rc n))).
  - eapply rep_ext; [apply rep_new|]. intros. unfold single_rows.
    by rewrite decide_False by lia.
  - intros n x m Hx Hm. rewrite list_lookup_imap in Hx.
    destruct (K !! n) as [k|] eqn:Hk; [|done]. injection Hx as <-.
    pose proof (lookup_lt_Some _ _ _ Hk) as Hn.
    apply rows_at_lookup in Hk. subst k. pose proof (known_lt n Hn) as Hkn.
    unfold set. destruct (set_acc_ok (E:=Error) m d d _ Hm (rows_at K n) n 1)
      as (m1 & -> & Hm1); [lia..|]. cbn [obind].
    rewrite index_tabulate by done. cbn [obind].
    destruct (set_acc_ok (E:=Error) m1 d d _ Hm1 g n (rc * M q (rows_at K n)))
      as (m2 & -> & Hm2); [lia..|]. simpl. eapply rep_ext; [exact Hm2|].
    intros r c Hr Hc. unfold single_rows. pose proof (known_not_gap n Hn).
    destruct (decide (c = n)) as [->|Hcn].
    + rewrite (decide_True (P := n < 1 + n)), (decide_False (P := n < n)) by lia.
      destruct (decide (r = g)) as [->|Hrg].
      * rewrite decide_True by done. rewrite decide_False by congruence. done.
      * rewrite decide_False by (by intros [? _]).
        destruct (decide (r = rows_at K n)); [by rewrite decide_True|].
        by rewrite decide_False by (by intros [? _]).
    + rewrite decide_False by (by intros [_ ?]).
      rewrite decide_False by (by intros [_ ?]).
      destruct (decide (c < n)).
      * by rewrite (decide_True (P := c < 1 + n)) by lia.
      * by rewrite (decide_False (P := c < 1 + n)) by lia.
  - intros m Hm. by rewrite length_imap in Hm.
Qed.

Lemma single_decodes rc :
  rc * M q g = 1 →
  decodes d S (λ r c, if decide (r = g ∧ c = length K) then rc
                      else single_rows rc (length K) r c).
Proof.
  intros Hrc. apply decodes_intro.
  - intros i j Hi Hj. cbn beta. pose proof (known_not_gap i Hi). unfold single_rows, delta.
    rewrite decide_False by (intros [? ?]; congruence).
    destruct (decide (j < length K)) as [Hjk|Hjk].
    + destruct (decide (i = j)) as [->|Hij]; [by rewrite decide_True|].
      rewrite decide_False by (intros E; by apply Hij, known_inj).
      by rewrite decide_False.
    + by rewrite decide_False by lia.
  - intros z a Ha. replace a with 0%nat by lia. rewrite gap_unknown, Hone.
    cbn [bsum]. rewrite Nat.add_0_r. rewrite row_split, Hone. cbn [bsum].
    rewrite gap_unknown.
    rewrite (decide_True (P := g = g ∧ length K = length K)) by done.
    rewrite (bsum_ext (length K) _
      (λ i, rc * (M q (rows_at K i) * z (rows_at K i)))).
    + rewrite bsum_mul_l. set (s := bsum _ _).
      replace (rc * s + (0 + rc * (0 + M q g * z g + s))) with ((rc * M q g) * z g) by ring.
      rewrite Hrc. ring.
    + intros j Hj. unfold single_rows. pose proof (known_not_gap j Hj).
      rewrite decide_False by (intros [_ ?]; lia). rewrite decide_True by done.
      rewrite decide_False by congruence. rewrite decide_True by done. ring.
Qed.

Lemma zero_pivot_singular : M q g = 0 → ¬ nonsingular d d S.
Proof.
  intros Hpiv Hns. pose proof gap_lt as Hg.
  assert ((1 : Elem) = 0) as Hbad; [|by apply one_neq_zero in Hbad].
  transitivity (delta g g); [unfold delta; by rewrite decide_True|].
  apply (Hns (delta g)); [|done]. intros r Hr.
  destruct (decide (r < length K)) as [Hrk|Hrk].
  - rewrite row_known by done. unfold delta. rewrite decide_False; [done|].
    intros E. by apply (known_not_gap r Hrk).
  - replace r with (length K + 0)%nat by lia. rewrite row_parity.
    unfold row_dot. by rewrite bsum_delta_sym.
Qed.

Lemma build_single_ensures :
  ensures (build_single matrix d (length K) valid)
    (λ m, ∃ X, rep m d d X ∧ decodes d S X)
    (λ e, e = InvalidCustomMatrix ∧ ¬ nonsingular d d S).
Proof.
  pose proof gap_lt as Hg.
  unfold build_single. rewrite slice_ok by (rewrite ?length_app; lia).
  rewrite drop_0, Nat.sub_0_r, take_app_length. cbn [obind].
  assert (valid !! length K = Some q) as Hq.
  { rewrite lookup_app_r, Nat.sub_diag by lia. apply lookup_rows_at. lia. }
  rewrite (index_ok _ _ _ Hq). cbn [obind].
  destruct (parity_bound 0) as [Hq1 Hq2]; [lia|].
  rewrite (get_row_ok _ _ _ _ Hrep) by done. cbn [obind].
  rewrite index_tabulate by done. cbn [obind]. case_decide as Hpiv.
  { split; [done|]. by apply zero_pivot_singular. }
  eapply ensures_bind_safe; [apply single_loop|]. intros m Hm. unfold set.
  destruct (set_acc_ok (E:=Error) m d d _ Hm g (length K) (1 / M q g)) as (m1 & -> & Hm1);
    [lia..|].
  cbn [ensures]. eexists. split; [exact Hm1|]. apply single_decodes. by apply div_mul.
Qed.
End single.

(** ** The dense inversion *)
Lemma survivor_lt i : i < d → rows_at valid i < t.
Proof.
  intros Hi. destruct (decide (i < length K)) as [Hk|Hk].
  - rewrite rows_at_known by done. pose proof (known_lt i Hk). lia.
  - replace i with (length K + (i - length K))%nat by lia. rewrite rows_at_parity.
    apply parity_bound. lia.
Qed.

Lemma build_dense_selected :
  ∃ m, rep m d d S ∧ build_dense matrix d valid = invalid_matrix (invert m).
Proof.
  unfold build_dense.
  assert (ensures (for_each (E:=Error) (imap pair valid) (λ '(row, idx) selected,
    for_range 0 d (λ column selected,
      let! v := get matrix idx column in set selected row column v) selected)
    (matrix_new d d)) (λ m, rep m d d S) (λ _, False)) as H.
  { apply (for_each_post _ _ (λ n m, rep m d d (λ r c, if decide (r < n) then S r c else 0))).
    - eapply rep_ext; [apply rep_new|]. intros. by rewrite decide_False by lia.
    - intros n x m Hx Hm. rewrite list_lookup_imap in Hx.
      destruct (valid !! n) as [k|] eqn:Hk; [|done]. injection Hx as <-.
      assert (n < d) as Hn by (apply lookup_lt_Some in Hk; rewrite length_app in Hk; lia).
      apply rows_at_lookup in Hk. subst k. pose proof (survivor_lt n Hn) as Hlt.
      eapply ensures_weaken; [eapply (row_loop d d 0 d n (S n)); [exact Hm|lia|lia|lia|]|].
      + intros column m1 g _ Hc Hm1 _. unfold get.
        by rewrite (acc_ok _ _ _ _ Hrep).
      + intros m1 Hm1. eapply rep_ext; [exact Hm1|]. intros r c Hr Hc. cbn beta.
        destruct (decide (r = n)) as [->|Hrn].
        * rewrite decide_True by lia. by rewrite decide_True by lia.
        * rewrite decide_False by lia. destruct (decide (r < n)).
          -- by rewrite decide_True by lia.
          -- by rewrite decide_False by lia.
    - intros m Hm. rewrite length_imap, length_app, Hlen in Hm.
      eapply rep_ext; [exact Hm|]. intros r c Hr Hc. cbn beta. by rewrite decide_True. }
  destruct (for_each _ _ _) as [m|e|]; simpl in H; [|done..]. by exists m.
Qed.

Lemma build_dense_ensures :
  ensures (build_dense matrix d valid)
    (λ m, ∃ Y, rep m d d Y ∧ inverse_of d S Y)
    (λ e, e = InvalidCustomMatrix ∧ ¬ nonsingular d d S).
Proof.
  destruct build_dense_selected as (m & Hm & ->).
  pose proof (invert_ensures m d S Hm) as H. unfold invalid_matrix.
  destruct (invert m); simpl in *; [done|by destruct H|done].
Qed.

(** A fast path that decodes, or fails on a singular square, returns what
    the dense inversion returns. *)
Lemma fast_path_dense (fast : outcome Error (Matrix Elem)) :
  ensures fast (λ m, ∃ X, rep m d d X ∧ decodes d S X)
    (λ e, e = InvalidCustomMatrix ∧ ¬ nonsingular d d S) →
  fast = build_dense matrix d valid.
Proof.
  intros Hf. pose proof build_dense_ensures as Hdn.
  destruct fast as [m|e|], (build_dense matrix d valid) as [m'|e'|]; simpl in *; try done.
  - destruct Hf as (X & HX & Hdec), Hdn as (Y & HY & Hinv). f_equal.
    apply (rep_unique m m' d d X HX). eapply rep_ext; [exact HY|].
    intros r c Hr Hc. symmetry. by apply (decodes_unique d S X Y).
  - destruct Hf as (X & _ & Hdec), Hdn as [_ []]. by eapply decodes_nonsingular.
  - destruct Hdn as (Y & _ & Hinv), Hf as [_ []]. by eapply inverse_nonsingular.
  - destruct Hf as [-> _], Hdn as [-> _]. done.
Qed.

(** ** Eliminating the missing coefficients *)
#[local] Abbreviation mu := (length Q).
#[local] Abbreviation pc := (length K).

(** [C | B | I] *)
Definition equations : nat → nat → Elem := λ r c,
  if decide (c < mu) then M (rows_at Q r) (rows_at U c)
  else if decide (c < mu + pc) then M (rows_at Q r) (rows_at K (c - mu))
  else delta r (c - (mu + pc)).

Lemma build_equations_ensures :
  ensures (build_equations matrix d pc mu U K Q)
    (λ m, rep m mu (mu + d) equations) (λ _, False).
Proof.
  apply (for_each_post _ _ (λ n m, rep m mu (mu + d) (λ r c,
    if decide (r < n) then equations r c else 0))).
  - eapply rep_ext; [apply rep_new|]. intros. by rewrite decide_False by lia.
  - intros n x m Hx Hm. rewrite list_lookup_imap in Hx.
    destruct (Q !! n) as [q|] eqn:Hq; [|done]. injection Hx as <-.
    pose proof (lookup_lt_Some _ _ _ Hq) as Hn. apply rows_at_lookup in Hq. subst q.
    destruct (parity_bound n Hn) as [Hq1 Hq2].
    rewrite (get_row_ok _ _ _ _ Hrep) by done. cbn [obind].
    eapply ensures_bind_safe.
    { eapply (row_list_loop m mu (mu + d) _ U n 0 (λ k, M (rows_at Q n) (rows_at U k)));
        [exact Hm|done|rewrite length_unknown; lia|].
      intros k u m' Hu. pose proof (lookup_lt_Some _ _ _ Hu) as Hk.
      rewrite length_unknown in Hk. apply rows_at_lookup in Hu. subst u.
      by rewrite index_tabulate by (by apply unknown_lt). }
    intros m1 Hm1. eapply ensures_bind_safe.
    { eapply (row_list_loop m1 mu (mu + d) _ K n mu (λ k, M (rows_at Q n) (rows_at K k)));
        [exact Hm1|done|lia|].
      intros k u m' Hu. pose proof (lookup_lt_Some _ _ _ Hu) as Hk.
      apply rows_at_lookup in Hu. subst u.
      by rewrite index_tabulate by (by apply known_lt). }
    intros m2 Hm2. unfold set.
    destruct (set_acc_ok (E:=Error) m2 mu (mu + d) _ Hm2 n (mu + pc + n) 1)
      as (m3 & -> & Hm3); [lia..|]. simpl. eapply rep_ext; [exact Hm3|].
    intros r c Hr Hc. cbn beta. rewrite length_unknown. unfold equations, delta.
    destruct (decide (r = n)) as [->|Hrn].
    + rewrite (decide_True (P := n < 1 + n)) by lia.
      destruct (decide (c < mu)) as [H1|H1].
      * rewrite decide_False by lia. rewrite decide_False by lia.
        rewrite decide_True by lia. by rewrite Nat.sub_0_r.
      * destruct (decide (c < mu + pc)) as [H2|H2].
        -- rewrite decide_False by lia. by rewrite decide_True by lia.
        -- destruct (decide (n = c - (mu + pc))%nat) as [H3|H3].
           ++ by rewrite decide_True by lia.
           ++ rewrite decide_False by lia. rewrite decide_False by lia.
              rewrite decide_False by lia. by rewrite decide_False by lia.
    + rewrite !(decide_False (P := r = n ∧ _)) by (by intros [? _]).
      destruct (decide (r < n)).
      * by rewrite (decide_True (P := r < 1 + n)) by lia.
      * by rewrite (decide_False (P := r < 1 + n)) by lia.
  - intros m Hm. rewrite length_imap in Hm. eapply rep_ext; [exact Hm|].
    intros r c Hr Hc. cbn beta. by rewrite decide_True.
Qed.

(** A message as a solution of the equations. *)
Definition solution (z : nat → Elem) : nat → Elem := λ c,
  if decide (c < mu) then z (rows_at U c)
  else if decide (c < mu + pc) then z (rows_at K (c - mu))
  else row_dot d M z (rows_at Q (c - (mu + pc))).

Lemma row_dot_parts (h : nat → nat → Elem) v r :
  row_dot (mu + d) h v r =
  bsum mu (λ c, h r c * v c)
  + (bsum pc (λ i, h r (mu + i)%nat * v (mu + i)%nat)
     + bsum mu (λ i, h r (mu + (pc + i))%nat * v (mu + (pc + i))%nat)).
Proof.
  unfold row_dot. rewrite bsum_split. f_equal. rewrite <-Hlen at 1. by rewrite bsum_split.
Qed.

Lemma solution_kernel z : kernel mu (mu + d) equations (solution z).
Proof.
  intros r Hr. rewrite row_dot_parts.
  rewrite (bsum_ext mu _ (λ a, M (rows_at Q r) (rows_at U a) * z (rows_at U a))).
  2:{ intros a Ha. unfold equations, solution. by rewrite !decide_True. }
  rewrite (bsum_ext pc _ (λ i, M (rows_at Q r) (rows_at K i) * z (rows_at K i))).
  2:{ intros i Hi. unfold equations, solution.
      rewrite !(decide_False (P := mu + i < mu)) by lia.
      rewrite !(decide_True (P := mu + i < mu + pc)) by lia.
      by replace (mu + i - mu)%nat with i by lia. }
  rewrite (bsum_ext mu (λ i, equations r (mu + (pc + i))%nat * _)
    (λ i, delta r i * row_dot d M z (rows_at Q i))).
  2:{ intros i Hi. unfold equations, solution.
      rewrite !(decide_False (P := mu + (pc + i) < mu)) by lia.
      rewrite !(decide_False (P := mu + (pc + i) < mu + pc)) by lia.
      by replace (mu + (pc + i) - (mu + pc))%nat with i by lia. }
  change (bsum mu (λ i, delta r i * row_dot d M z (rows_at Q i)))
    with (row_dot mu delta (λ i, row_dot d M z (rows_at Q i)) r).
  rewrite row_dot_delta by done. rewrite (row_split z (rows_at Q r)). ring.
Qed.

Lemma equations_singular : singular mu (mu + d) equations → ¬ nonsingular d d S.
Proof.
  intros (x & Hker & (c & Hc & Hxc) & Hz) Hns. apply Hxc.
  set (z := λ b, bsum mu (λ a, x a * delta (rows_at U a) b)).
  assert (∀ a, a < mu → z (rows_at U a) = x a) as HzU.
  { intros a Ha. unfold z. rewrite (bsum_single mu a); [|done|].
    - unfold delta. rewrite decide_True by done. ring.
    - intros i Hi Hne. unfold delta. rewrite decide_False; [ring|].
      intros E. apply Hne. by apply unknown_inj. }
  assert (∀ i, i < pc → z (rows_at K i) = 0) as HzK.
  { intros i Hi. apply bsum_0. intros a Ha. unfold delta. rewrite decide_False; [ring|].
    intros E. apply (unknown_not_known a Ha). rewrite E. by apply rows_at_elem. }
  rewrite <-(HzU c Hc). apply Hns; [|by apply unknown_lt].
  intros r Hr. destruct (decide (r < pc)) as [Hrk|Hrk]; [by rewrite row_known, HzK|].
  replace r with (pc + (r - pc))%nat by lia.
  change (row_dot d S z (pc + (r - pc))%nat = 0). rewrite row_parity, row_split.
  rewrite (bsum_0 pc); [|intros i Hi; rewrite HzK by done; ring].
  transitivity (row_dot (mu + d) equations x (r - pc)); [|apply Hker; lia].
  rewrite row_dot_parts.
  rewrite (bsum_0 pc), (bsum_0 mu (λ i, equations _ (mu + (pc + i))%nat * _)).
  - rewrite (bsum_ext mu (λ a, M (rows_at Q (r - pc)) (rows_at U a) * z (rows_at U a))
      (λ a, equations (r - pc) a * x a)); [ring|].
    intros a Ha. rewrite HzU by done. unfold equations. by rewrite decide_True.
  - intros i Hi. rewrite Hz by lia. ring.
  - intros i Hi. rewrite Hz by lia. ring.
Qed.

(** The unit rows of the known data shards. *)
Definition known_units : nat → nat → Elem := λ r c,
  if decide (c < pc) then if decide (r = rows_at K c) then 1 else 0 else 0.

Lemma known_units_loop :
  ensures (for_each (E:=Error) (imap pair K) (λ '(column, idx) decode,
    set decode idx column 1) (matrix_new d d)) (λ m, rep m d d known_units) (λ _, False).
Proof.
  apply (for_each_post _ _ (λ n m, rep m d d (λ r c,
    if decide (c < n) then if decide (r = rows_at K c) then 1 else 0 else 0))).
  - eapply rep_ext; [apply rep_new|]. intros. by rewrite decide_False by lia.
  - intros n x m Hx Hm. rewrite list_lookup_imap in Hx.
    destruct (K !! n) as [k|] eqn:Hk; [|done]. injection Hx as <-.
    pose proof (lookup_lt_Some _ _ _ Hk) as Hn. apply rows_at_lookup in Hk. subst k.
    pose proof (known_lt n Hn) as Hkn. unfold set.
    destruct (set_acc_ok (E:=Error) m d d _ Hm (rows_at K n) n 1) as (m1 & -> & Hm1);
      [lia..|]. simpl. eapply rep_ext; [exact Hm1|]. intros r c Hr Hc. cbn beta.
    destruct (decide (c = n)) as [->|Hcn].
    + rewrite (decide_True (P := n < 1 + n)), (decide_False (P := n < n)) by lia.
      destruct (decide (r = rows_at K n)); [by rewrite decide_True|].
      by rewrite decide_False by (by intros [? _]).
    + rewrite decide_False by (by intros [_ ?]). destruct (decide (c < n)).
      * by rewrite (decide_True (P := c < 1 + n)) by lia.
      * by rewrite (decide_False (P := c < 1 + n)) by lia.
  - intros m Hm. by rewrite length_imap in Hm.
Qed.

Lemma known_units_delta i c : i < pc → c < d → known_units (rows_at K i) c = delta i c.
Proof.
  intros Hi Hc. unfold known_units, delta. destruct (decide (c < pc)) as [H|H].
  - destruct (decide (i = c)) as [->|Hic]; [by rewrite decide_True|].
    rewrite decide_False; [done|]. intros E. by apply Hic, known_inj.
  - by rewrite decide_False by lia.
Qed.

(** The solved rows [h] copied to the missing data shards. *)
Lemma unknown_rows_loop eqs h m0 :
  rep eqs mu (mu + d) h → rep m0 d d known_units →
  ensures (for_each (E:=Error) (imap pair U) (λ '(row, idx) decode,
    let! values := get_row eqs row in
    let! values := slice values mu (length values) in
    for_each (imap pair values) (λ '(column, value) decode,
      set decode idx column value) decode) m0)
    (λ m, ∃ X, rep m d d X ∧
      (∀ a c, a < mu → c < d → X (rows_at U a) c = h a (mu + c)%nat) ∧
      (∀ i c, i < pc → c < d → X (rows_at K i) c = delta i c)) (λ _, False).
Proof.
  intros Hh Hm0.
  apply (for_each_post _ _ (λ n m, ∃ X, rep m d d X ∧
    (∀ a c, a < n → c < d → X (rows_at U a) c = h a (mu + c)%nat) ∧
    (∀ i c, i < pc → c < d → X (rows_at K i) c = delta i c))).
  - eexists. split_and!; [exact Hm0|intros; lia|apply known_units_delta].
  - intros n x m Hx (X & HX & HU & HKX). rewrite list_lookup_imap in Hx.
    destruct (U !! n) as [u|] eqn:Hu; [|done]. injection Hx as <-.
    pose proof (lookup_lt_Some _ _ _ Hu) as Hn. rewrite length_unknown in Hn.
    apply rows_at_lookup in Hu. subst u. pose proof (unknown_lt n Hn) as Hul.
    rewrite (get_row_ok _ _ _ _ Hh) by done. cbn [obind]. rewrite length_tabulate.
    rewrite slice_tabulate by lia. cbn [obind]. replace (mu + d - mu)%nat with d by lia.
    eapply ensures_weaken.
    + apply (row_list_loop m d d X _ (rows_at U n) 0 (λ c, h n (mu + c)%nat));
        [exact HX|done|rewrite length_tabulate; lia|].
      intros k v m' Hv. assert (k < d) as Hk.
      { apply lookup_lt_Some in Hv. by rewrite length_tabulate in Hv. }
      rewrite lookup_tabulate in Hv by done. injection Hv as <-. done.
    + intros m' Hm'. eexists. split_and!; [exact Hm'| |]; rewrite length_tabulate.
      * intros a c Ha Hc. cbn beta. destruct (decide (a = n)) as [->|Hne].
        -- rewrite decide_True by lia. by rewrite Nat.sub_0_r.
        -- rewrite decide_False; [apply HU; lia|]. intros [E _].
           apply Hne. apply unknown_inj; [lia|done|done].
      * intros i c Hi Hc. cbn beta. rewrite decide_False; [by apply HKX|].
        intros [E _]. apply (unknown_not_known n Hn). rewrite <-E. by apply rows_at_elem.
  - intros m Hm. by rewrite length_imap, length_unknown in Hm.
Qed.

Lemma eliminated_decodes h X :
  same_kernel mu (mu + d) equations h → left_identity mu h →
  (∀ a c, a < mu → c < d → X (rows_at U a) c = h a (mu + c)%nat) →
  (∀ i c, i < pc → c < d → X (rows_at K i) c = delta i c) → decodes d S X.
Proof.
  intros Hker Hid HU HKX. apply decodes_intro; [done|].
  intros z a Ha. apply add_cancel.
  pose proof (proj1 (Hker (solution z)) (solution_kernel z) a Ha) as H0.
  rewrite row_dot_parts in H0.
  rewrite (bsum_ext mu _ (λ c, delta a c * z (rows_at U c))) in H0.
  2:{ intros c Hc. rewrite Hid by done. unfold solution. by rewrite decide_True. }
  change (bsum mu (λ c, delta a c * z (rows_at U c)))
    with (row_dot mu delta (λ c, z (rows_at U c)) a) in H0.
  rewrite row_dot_delta in H0 by done. rewrite <-H0.
  rewrite (bsum_ext pc _ (λ i, h a (mu + i)%nat * solution z (mu + i)%nat)).
  2:{ intros j Hj. rewrite HU by lia. unfold solution. rewrite decide_False by lia.
      rewrite decide_True by lia. by replace (mu + j - mu)%nat with j by lia. }
  rewrite (bsum_ext mu (λ j, X _ (pc + j)%nat * _)
    (λ i, h a (mu + (pc + i))%nat * solution z (mu + (pc + i))%nat)).
  2:{ intros j Hj. rewrite HU by lia. unfold solution. rewrite decide_False by lia.
      rewrite decide_False by lia.
      by replace (mu + (pc + j) - (mu + pc))%nat with j by lia. }
  ring.
Qed.

Lemma build_eliminated_ensures :
  ensures (build_eliminated matrix d pc valid)
    (λ m, ∃ X, rep m d d X ∧ decodes d S X)
    (λ e, e = InvalidCustomMatrix ∧ ¬ nonsingular d d S).
Proof.
  unfold build_eliminated. replace (d - pc)%nat with mu by lia.
  rewrite slice_ok by (rewrite ?length_app; lia).
  rewrite drop_0, Nat.sub_0_r, take_app_length. cbn [obind].
  rewrite slice_ok by (rewrite ?length_app; lia).
  rewrite drop_app_length, take_ge by (rewrite length_app; lia). cbn [obind].
  rewrite skip_known_filter by (done || intros; lia).
  eapply ensures_bind_safe; [apply build_equations_ensures|]. intros eqs Heqs.
  pose proof (gaussian_elim_reduces eqs mu (mu + d) _ Heqs ltac:(lia)) as Hge.
  destruct (gaussian_elim eqs) as [g|e|]; simpl in Hge;
    [|by destruct Hge as [_ ?%equations_singular]|done].
  destruct Hge as (h & Hh & Hker & Hid). cbn [invalid_matrix map_err obind].
  eapply ensures_bind_safe; [apply known_units_loop|]. intros m0 Hm0.
  eapply ensures_weaken; [by apply unknown_rows_loop|].
  intros m (X & HX & HU & HKX). exists X. split; [done|]. by eapply eliminated_decodes.
Qed.
End paths.

(** ** The decode matrix of a survivor list *)
Definition survivor_list (d t : nat) (valid : list nat) : Prop :=
  StronglySorted lt valid ∧ length valid = d ∧ ∀ x, x ∈ valid → x < t.

(** The first [d] indices below [t] outside [key]. *)
Definition survivors (t d : nat) (key : list nat) : list nat :=
  take d (filter (λ i, i ∉ key) (seq 0 t)).

(** The survivors and erasures of a presence pattern. *)
Definition valid_of (t d : nat) (present : nat → bool) : list nat :=
  take d (filter (λ i, present i = true) (seq 0 t)).
Definition invalid_of (t : nat) (present : nat → bool) : list nat :=
  filter (λ i, present i = false) (seq 0 t).

Section keys.
Lemma elem_take {A} (l : list A) n x : x ∈ take n l → x ∈ l.
Proof. intros H. rewrite <-(take_drop n l). apply elem_of_app. by left. Qed.

Lemma sorted_take l n : StronglySorted lt l → StronglySorted lt (take n l).
Proof. intros Hs. rewrite <-(take_drop n l) in Hs. by apply sorted_app_inv in Hs as (? & _). Qed.

Lemma valid_of_survivors t d present :
  length (valid_of t d present) = d → survivor_list d t (valid_of t d present).
Proof.
  intros Hl. split_and!; [|done|].
  - apply sorted_take, sorted_filter, sorted_seq.
  - intros x Hx%elem_take. apply list_elem_of_filter in Hx as [_ Hx].
    apply elem_of_seq in Hx. lia.
Qed.

(** A list cut at [d] is determined by a prefix that holds [d] elements. *)
Lemma take_filter_prefix (P Q : nat → Prop) `{∀ x, Decision (P x), ∀ x, Decision (Q x)} t d b :
  b ≤ t → (∀ i, i < b → P i ↔ Q i) → d ≤ length (filter P (seq 0 b)) →
  take d (filter P (seq 0 t)) = take d (filter Q (seq 0 t)).
Proof.
  intros Hb HPQ Hd. replace t with (b + (t - b))%nat by lia.
  rewrite seq_app, !filter_app.
  rewrite (filter_ext_elem Q P (seq 0 b)).
  - rewrite !take_app_le; done.
  - intros x Hx. apply elem_of_seq in Hx. symmetry. apply HPQ. lia.
Qed.

Lemma last_sorted_max l m x : StronglySorted lt l → last l = Some m → x ∈ l → x ≤ m.
Proof.
  intros Hs Hm Hx. apply last_Some in Hm as [l' ->].
  apply sorted_app_inv in Hs as (_ & _ & Hlt).
  apply elem_of_app in Hx as [Hx|Hx%list_elem_of_singleton]; [|by subst].
  assert (x < m); [|lia]. apply Hlt; [done|left].
Qed.

Context {F : Field} {RT : Runtime} {St : Storage Elem}
  {L : LruCache (list nat) (CachedMatrix Elem)}.

(** The key of the cache determines the survivors. *)
Lemma cache_key_survivors (self : ReedSolomon) t d present :
  exec_inversion_cache (rs_options self) = true →
  length (valid_of t d present) = d → 0 < d →
  survivors t d (cache_erasures self (valid_of t d present) (invalid_of t present))
  = valid_of t d present.
Proof.
  intros Hon Hl Hd. pose proof (valid_of_survivors t d present Hl) as (Hs & _ & Hb).
  assert (StronglySorted lt (invalid_of t present)) as Hsi
    by apply sorted_filter, sorted_seq.
  assert (survivors t d (invalid_of t present) = valid_of t d present) as Hfull.
  { unfold survivors, valid_of. f_equal. apply filter_ext_elem. intros x Hx.
    unfold invalid_of. rewrite list_elem_of_filter. destruct (present x); intuition congruence. }
  unfold cache_erasures. rewrite Hon.
  destruct (last (valid_of t d present)) as [ls|] eqn:Hls; [|done].
  destruct (last (invalid_of t present)) as [lm|] eqn:Hlm; [|done]. cbn [andb].
  case_bool_decide as Hlt; [|done]. rewrite <-Hfull.
  destruct (partition_point_bound (invalid_of t present) ls Hsi) as (Hp1 & Hp2 & _).
  set (n := partition_point _ _) in *. unfold survivors.
  assert (ls ∈ valid_of t d present) as Hlsin.
  { apply last_Some in Hls as [l' ->]. apply elem_of_app. right. left. }
  symmetry. apply (take_filter_prefix _ _ t d (S ls)).
  - by apply Hb in Hlsin.
  - intros i Hi. assert (i ∈ take n (invalid_of t present) ↔ i ∈ invalid_of t present) as ->;
      [|done].
    split; [apply elem_take|]. intros Hin.
    rewrite <-(take_drop n (invalid_of t present)) in Hin.
    apply elem_of_app in Hin as [|Hin]; [done|]. pose proof (Hp2 _ Hin) as Hge.
    assert (i = ls) as -> by lia. exfalso.
    apply elem_of_drop_in in Hin. apply list_elem_of_filter in Hin as [Hin _].
    apply elem_take in Hlsin. apply list_elem_of_filter in Hlsin as [? _]. congruence.
  - rewrite <-Hl at 1. apply NoDup_incl_length.
    + apply NoDup_ListNoDup. by apply sorted_nodup_lt.
    + intros x Hx%list_elem_of_In. apply list_elem_of_In.
      pose proof (last_sorted_max _ _ _ Hs Hls Hx).
      apply elem_take in Hx. apply list_elem_of_filter in Hx as [Hx1 Hx2].
      apply list_elem_of_filter. split; [|apply elem_of_seq; lia].
      unfold invalid_of. rewrite list_elem_of_filter. intros [? _]. congruence.
Qed.
End keys.

(** ** The codec's decode matrices *)
Section codec_decode.
Context {F : Field} {FL : FieldLaws F} {RT : Runtime} {St : Storage Elem}
  {L : LruCache (list nat) (CachedMatrix Elem)} {LL : LruLaws L}.
Implicit Types (self : ReedSolomon).

Lemma split_survivors d t valid :
  survivor_list d t valid →
  let pc := partition_point (λ index, bool_decide (index < d)) valid in
  StronglySorted lt (take pc valid) ∧ (∀ k, k ∈ take pc valid → k < d) ∧
  (∀ q, q ∈ drop pc valid → d ≤ q ∧ q < t) ∧
  (length (take pc valid) + length (drop pc valid))%nat = d ∧ length (take pc valid) = pc.
Proof.
  intros (Hs & Hl & Hb) pc. destruct (partition_point_bound valid d Hs) as (H1 & H2 & H3).
  fold pc in H1, H2, H3. split_and!.
  - by apply sorted_take.
  - done.
  - intros q Hq. split; [by apply H2|]. apply Hb. by eapply elem_of_drop_in.
  - rewrite length_take, length_drop. lia.
  - rewrite length_take. lia.
Qed.

Lemma build_decode_dense self M valid :
  classic_codec self M →
  survivor_list (data_shard_count self) (data_shard_count self + parity_shard_count self) valid →
  build_data_decode_matrix self valid
  = build_dense (format_matrix (rs_format self)) (data_shard_count self) valid.
Proof.
  intros Hc Hv. unfold build_data_decode_matrix.
  set (d := data_shard_count self) in *. set (p := parity_shard_count self) in *.
  destruct (split_survivors _ _ _ Hv) as (H1 & H2 & H3 & H4 & H5).
  set (pc := partition_point _ _) in *.
  pose proof (cc_data _ _ Hc) as Hd. pose proof (cc_rep _ _ Hc) as Hrep.
  pose proof (cc_systematic _ _ Hc) as Hsys. fold d p in Hd, Hrep, Hsys.
  rewrite <-(take_drop pc valid). case_decide as Hone.
  - rewrite <-H5 at 1.
    apply (fast_path_dense _ (d + p) d M Hrep); try done; [lia|].
    apply (build_single_ensures _ (d + p) d M Hrep Hsys); try done; lia.
  - destruct (_ && _) eqn:Hel; [|done].
    rewrite <-H5 at 1.
    apply (fast_path_dense _ (d + p) d M Hrep); try done; [lia|].
    apply (build_eliminated_ensures _ (d + p) d M Hrep Hsys); try done; lia.
Qed.

(** The cache holds decode matrices of the codec. *)
Definition cache_valid self : Prop :=
  cache_inv (rs_cache self) ∧
  cache_all (λ key m, build_data_decode_matrix self
    (survivors (total_shard_count self) (data_shard_count self) key) = Ok m) (rs_cache self).

Lemma get_decode_spec self t d present :
  t = total_shard_count self → d = data_shard_count self → 0 < d →
  cache_valid self → length (valid_of t d present) = d →
  ∃ c, get_data_decode_matrix self (valid_of t d present) (invalid_of t present)
       = (set_cache self c, build_data_decode_matrix self (valid_of t d present)) ∧
    cache_valid (set_cache self c).
Proof.
  intros -> -> Hd [Hinv Hall] Hl. unfold get_data_decode_matrix.
  rewrite decide_False by lia.
  set (v := valid_of _ _ _) in *. set (key := cache_erasures self v _).
  assert (set_cache self (rs_cache self) = self) as Hself by (by destruct self).
  destruct (exec_inversion_cache (rs_options self)) eqn:Hon.
  2:{ exists (rs_cache self). rewrite Hself. by split; [|split]. }
  assert (survivors (total_shard_count self) (data_shard_count self) key = v) as Hkey.
  { by apply cache_key_survivors. }
  destruct (cache_get_all _ _ key Hall) as [Hall' Hhit].
  pose proof (cache_get_inv _ key Hinv) as Hinv'.
  destruct (cache_get (rs_cache self) key) as [o c]. simpl in Hall', Hhit, Hinv'.
  destruct o as [m|].
  - exists c. rewrite <-(Hhit m eq_refl), Hkey. by split; [|split].
  - assert (build_data_decode_matrix (set_cache self c) v = build_data_decode_matrix self v)
      as Hb by done. rewrite Hb.
    destruct (build_data_decode_matrix self v) as [m|e|] eqn:Hm;
      [|by exists c; split; [|split]..].
    cbn [rs_cache set_cache].
    pose proof (cache_insert_spec (E:=Error) c key m Hinv') as Hins.
    destruct (cache_insert c key m) as [[r c']|e|] eqn:Hci; simpl in Hins; [|done..].
    exists c'. split; [done|]. split; [by destruct Hins|].
    eapply (cache_insert_all _ c key m r); [done|exact Hall'| |exact Hci].
    change (build_data_decode_matrix self
      (survivors (total_shard_count self) (data_shard_count self) key) = Ok m).
    by rewrite Hkey.
Qed.
End codec_decode.

(** ** Properties *)
Section properties.
Context {F : Field} {FL : FieldLaws F} {RT : Runtime} {St : Storage Elem}
  {L : LruCache (list nat) (CachedMatrix Elem)} {LL : LruLaws L}.

Lemma build_decode_ensures (self : ReedSolomon) M valid :
  classic_codec self M →
  survivor_list (data_shard_count self) (data_shard_count self + parity_shard_count self) valid →
  ensures (build_data_decode_matrix self valid)
    (λ m, ∃ X, rep m (data_shard_count self) (data_shard_count self) X ∧
       inverse_of (data_shard_count self) (selected_rows M valid) X)
    (λ e, e = InvalidCustomMatrix ∧
       ¬ nonsingular (data_shard_count self) (data_shard_count self) (selected_rows M valid)).
Proof.
  intros Hc Hv. rewrite (build_decode_dense self M valid Hc Hv).
  destruct (split_survivors _ _ _ Hv) as (H1 & H2 & H3 & H4 & H5).
  rewrite <-(take_drop (partition_point
    (λ index, bool_decide (index < data_shard_count self)) valid) valid).
  pose proof (cc_data _ _ Hc). eapply build_dense_ensures; [apply (cc_rep _ _ Hc)|..];
    try done; lia.
Qed.

(** C17: for any [data] survivors in increasing order, whichever of
    its three paths [build_data_decode_matrix] takes, it returns what inverting
    the whole square of their encoding rows returns: the inverse, or
    [InvalidCustomMatrix] exactly when the square is singular; it never panics. *)
Theorem decode_matrix_correct (self : ReedSolomon) (M : nat → nat → Elem) (valid : list nat)
    (Hc : classic_codec self M)
    (Hv : survivor_list (data_shard_count self)
            (data_shard_count self + parity_shard_count self) valid) :
  let d := data_shard_count self in
  build_data_decode_matrix self valid = build_dense (format_matrix (rs_format self)) d valid ∧
  ensures (build_data_decode_matrix self valid)
    (λ m, ∃ X, rep m d d X ∧ inverse_of d (λ i c, M (rows_at valid i) c) X)
    (λ e, e = InvalidCustomMatrix ∧ ¬ nonsingular d d (λ i c, M (rows_at valid i) c)).
Proof. split; [by eapply build_decode_dense|by apply build_decode_ensures]. Qed.

(** C18: with any cache state left by earlier calls
    and for any pattern of present shards with [data] survivors, the cached
    lookup returns what building the matrix returns, hit or miss, changes only the
    cache, and leaves it holding correct matrices within its budget. *)
Theorem decode_cache_transparent (self : ReedSolomon) (present : nat → bool)
    (Hd : 0 < data_shard_count self) (Hvalid : cache_valid self)
    (Henough : length (valid_of (total_shard_count self) (data_shard_count self) present)
               = data_shard_count self) :
  let valid := valid_of (total_shard_count self) (data_shard_count self) present in
  let invalid := invalid_of (total_shard_count self) present in
  ∃ c, get_data_decode_matrix self valid invalid
       = (set_cache self c, build_data_decode_matrix self valid) ∧
    cache_valid (set_cache self c).
Proof. by apply get_decode_spec. Qed.
End properties.
