(* ===== verification/RecoveryPlan.v ===== *)
(** * Reconstruction plans ([src/core/recovery_plan.rs])

    From the lengths of the shards to the erasure shape, and from the shape and
    the goal to the plan: which missing shards are recovered, the decode
    matrix, and composed rows for parity that is requested without all of the data.
    The theorems give the shape and its errors on every input, and show that a
    plan's rows compute the requested shards of any codeword. *)

From Stdlib Require Import NArith Lia List Bool Ring Sorted.
From stdpp Require Import base numbers list.
From S2P Require Import Prelude Errors Fields LinAlg Matrix Options Leopard InversionCache.
From S2P Require Import Codec Coding Shards DecodeMatrix.

Local Open Scope field_scope.

(** [SmallVec<[usize; 32]>::inline_size()] *)
Definition INLINE_INDICES : nat := 32.

Inductive ReconstructionGoal : Type :=
| GoalAll
| GoalData
| GoalRequired (required : list bool).

(** ** Validation of the lengths *)
Record ClassicShardLengths := mk_lengths {
  lengths_shard_len : nat;
  lengths_number_present : nat;
}.

Definition lengths_default : ClassicShardLengths := mk_lengths 0 0.

Definition observe (self : ClassicShardLengths) (length : option nat)
  : outcome Error (bool * ClassicShardLengths) :=
  match length with
  | None => Ok (false, self)
  | Some length =>
      if decide (length = 0%nat) then Err EmptyShard else
      if bool_decide (lengths_shard_len self ≠ 0%nat)
         && bool_decide (length ≠ lengths_shard_len self)
      then Err IncorrectShardSize
      else Ok (true, mk_lengths length (lengths_number_present self + 1)%nat)
  end.

(** [scan_present_prefix]: the first missing index, the state, and what is
    left of the iterator. *)
Fixpoint scan_present_prefix (self : ClassicShardLengths) (lengths : list (nat * option nat))
  : outcome Error (option nat * ClassicShardLengths * list (nat * option nat)) :=
  match lengths with
  | [] => Ok (None, self, [])
  | (index, length) :: lengths =>
      let! ' (present, self) := observe self length in
      if present then scan_present_prefix self lengths
      else Ok (Some index, self, lengths)
  end.

(** ** The erasure shape *)
Record ClassicReconstructShape := mk_shape {
  shape_shard_len : nat;
  number_present : nat;
  valid_indices : list nat;
  invalid_indices : list nat;
}.

Definition shape_default : ClassicReconstructShape := mk_shape 0 0 [] [].

Definition missing_data_count (self : ClassicReconstructShape) (data_shards : nat) : nat :=
  partition_point (λ index, bool_decide (index < data_shards)) (invalid_indices self).

Section plans.
Context {F : Field} {RT : Runtime} {St : Storage Elem}
  {L : LruCache (list nat) (CachedMatrix Elem)}.

(** ** Plans *)
Record ClassicReconstructPlan := mk_plan {
  plan_shape : ClassicReconstructShape;
  selected_targets : option (list nat);
  data_target_count : nat;
  data_only : bool;
  direct_parity : bool;
  decode_matrix : option (Matrix Elem);
  parity_decode_rows : list (list Elem);
}.

Definition plan_new (shape : ClassicReconstructShape) (goal : ReconstructionGoal)
  : ClassicReconstructPlan :=
  mk_plan shape None 0 (match goal with GoalData => true | _ => false end) false None [].

Definition target_indices (self : ClassicReconstructPlan) : list nat :=
  default (invalid_indices (plan_shape self)) (selected_targets self).

Definition data_targets {E} (self : ClassicReconstructPlan) : outcome E (list nat) :=
  slice (target_indices self) 0 (data_target_count self).

Definition parity_targets {E} (self : ClassicReconstructPlan) : outcome E (list nat) :=
  if data_only self then Ok []
  else slice (target_indices self) (data_target_count self) (length (target_indices self)).

Definition has_outputs {E} (self : ClassicReconstructPlan) : outcome E bool :=
  let! data := data_targets self in
  if bool_decide (data ≠ []) then Ok true else
  let! parity := parity_targets self in Ok (bool_decide (parity ≠ [])).

(** [.expect(..)] of the decode matrix. *)
Definition plan_inverse {E} (self : ClassicReconstructPlan) : outcome E (Matrix Elem) :=
  or_panic (decode_matrix self).

(** The items of [data_rows()] and [parity_rows(codec)]. *)
Definition data_row (self : ClassicReconstructPlan) (idx : nat) : outcome Error (list Elem) :=
  let! m := plan_inverse self in get_row m idx.

Definition parity_row (codec : ReedSolomon) (self : ClassicReconstructPlan) (i idx : nat)
  : outcome Error (list Elem) :=
  if direct_parity self then index (parity_decode_rows self) i
  else get_row (format_matrix (rs_format codec)) idx.

(** ** Building shapes *)
Definition validate_classic_shard_count (self : ReedSolomon) (count : nat)
  : outcome Error unit :=
  if decide (count < total_shard_count self) then Err TooFewShards else
  if decide (total_shard_count self < count) then Err TooManyShards else Ok tt.

(** The suffix loop: state, valid and invalid indices. *)
Definition suffix_loop (inline_inputs : nat) (lengths : list (nat * option nat))
    (state : ClassicShardLengths) (valid invalid : list nat)
    : outcome Error (ClassicShardLengths * list nat * list nat) :=
  for_each lengths (λ '(idx, len) '(state, valid, invalid),
    let! ' (present, state) := observe state len in
    if present then
      Ok (state, (if decide (length valid < inline_inputs) then valid ++ [idx] else valid),
          invalid)
    else Ok (state, valid, invalid ++ [idx])) (state, valid, invalid).

Definition fill_classic_reconstruct_shape_from_suffix (self : ReedSolomon)
    (shape : ClassicReconstructShape) (lengths : list (nat * option nat))
    (state : ClassicShardLengths) (first_missing : nat)
    : outcome Error ClassicReconstructShape :=
  let data_shards := data_shard_count self in
  let inline_inputs := Nat.min data_shards INLINE_INDICES in
  let valid := valid_indices shape ++ seq 0 (Nat.min first_missing inline_inputs) in
  let invalid := invalid_indices shape ++ [first_missing] in
  let! ' (state, valid, invalid) := suffix_loop inline_inputs lengths state valid invalid in
  if decide (lengths_number_present state < data_shards) then Err TooFewShardsPresent else
  if decide (data_shards < length valid) then Panic else
  let remaining := (data_shards - length valid)%nat in
  let valid :=
    if decide (remaining ≠ 0%nat) then
      let start := match last valid with Some idx => (idx + 1)%nat | None => 0%nat end in
      let first_erasure := partition_point (λ idx, bool_decide (idx < start)) invalid in
      valid ++ take remaining
        (skip_known (seq start (total_shard_count self - start)) (drop first_erasure invalid))
    else valid in
  Ok (mk_shape (lengths_shard_len state) (lengths_number_present state) valid invalid).

Definition classic_reconstruct_shape (self : ReedSolomon) (lengths : list (option nat))
  : outcome Error ClassicReconstructShape :=
  let! _ := validate_classic_shard_count self (length lengths) in
  let! ' (first, state, rest) := scan_present_prefix lengths_default (imap pair lengths) in
  match first with
  | Some first_missing =>
      fill_classic_reconstruct_shape_from_suffix self shape_default rest state first_missing
  | None => Ok (mk_shape (lengths_shard_len state) (lengths_number_present state) [] [])
  end.

(** [scan_classic_reconstruct_shape] with the observer of
    [validate_classic_plan_layout]: missing indices left, same pattern so far. *)
Definition validate_classic_plan_layout (self : ReedSolomon) (lengths : list (option nat))
    (expected : ClassicReconstructShape) : outcome Error unit :=
  let! _ := validate_classic_shard_count self (length lengths) in
  let! ' (state, missing, same_pattern) :=
    for_each (imap pair lengths) (λ '(idx, len) '(state, missing, same_pattern),
      let! ' (present, state) := observe state len in
      let was_missing := bool_decide (head missing = Some idx) in
      let missing := if was_missing then tail missing else missing in
      Ok (state, missing, same_pattern && negb (Bool.eqb present was_missing)))
      (lengths_default, invalid_indices expected, true) in
  if negb same_pattern then Err InvalidShardFlags else
  if decide (lengths_shard_len state ≠ shape_shard_len expected) then Err IncorrectShardSize
  else Ok tt.

(** ** Filling plans *)

(** [required.get(index).copied().unwrap_or(false)] *)
Definition is_required (required : list bool) (idx : nat) : bool :=
  default false (required !! idx).

(** [iter().position(p)] *)
Fixpoint position (p : nat → bool) (l : list nat) : option nat :=
  match l with
  | [] => None
  | x :: l => if p x then Some 0%nat else S <$> position p l
  end.

Definition goal_flags_ok (self : ReedSolomon) (goal : ReconstructionGoal) : bool :=
  match goal with
  | GoalRequired required =>
      bool_decide (length required = data_shard_count self)
      || bool_decide (length required = total_shard_count self)
  | _ => true
  end.

(** The selected targets and the number of data targets. *)
Definition select_targets (self : ReedSolomon) (shape : ClassicReconstructShape)
    (goal : ReconstructionGoal) : option (list nat) * nat :=
  let missing_data := missing_data_count shape (data_shard_count self) in
  match goal with
  | GoalAll | GoalData => (None, missing_data)
  | GoalRequired required =>
      match position (λ idx, negb (is_required required idx)) (invalid_indices shape) with
      | Some first_excluded =>
          let targets := take first_excluded (invalid_indices shape) ++
            List.filter (is_required required) (drop (first_excluded + 1) (invalid_indices shape)) in
          (Some targets,
           partition_point (λ idx, bool_decide (idx < data_shard_count self)) targets)
      | None => (None, missing_data)
      end
  end.

(** One composed parity row. *)
Definition compose_row (self : ReedSolomon) (valid missing_data : list nat)
    (inverse : Matrix Elem) (idx : nat) : outcome Error (list Elem) :=
  let! parity := get_row (format_matrix (rs_format self)) idx in
  map_outcome (λ column,
    let! survivor := index valid column in
    let! known :=
      if decide (survivor < data_shard_count self) then index parity survivor else Ok 0 in
    for_each missing_data (λ data sum,
      let! c := index parity data in
      let! v := get inverse data column in
      Ok (sum + c * v)) known) (seq 0 (data_shard_count self)).

Definition fill_classic_reconstruct_plan (self : ReedSolomon) (plan : ClassicReconstructPlan)
    (goal : ReconstructionGoal) : ReedSolomon * outcome Error ClassicReconstructPlan :=
  let shape := plan_shape plan in
  if decide (number_present shape < data_shard_count self)
  then (self, Err TooFewShardsPresent) else
  if negb (goal_flags_ok self goal) then (self, Err InvalidShardFlags) else
  let missing_count := missing_data_count shape (data_shard_count self) in
  let missing_data := take missing_count (invalid_indices shape) in
  let '(selected, count) := select_targets self shape goal in
  let plan := mk_plan shape selected count (data_only plan) (direct_parity plan)
    (decode_matrix plan) (parity_decode_rows plan) in
  match
    (let! data := data_targets plan in
     let! parity := parity_targets plan in
     Ok (bool_decide (data ≠ []), bool_decide (parity ≠ [])))
  with
  | Err e => (self, Err e)
  | Panic => (self, Panic)
  | Ok (has_data, has_parity) =>
      let needs_inverse := bool_decide (missing_data ≠ []) && (has_data || has_parity) in
      let '(self, inverse) :=
        if needs_inverse then
          let '(self, r) :=
            get_data_decode_matrix self (valid_indices shape) (invalid_indices shape) in
          (self, let! m := r in Ok (Some m))
        else (self, Ok None) in
      (self,
       let! inverse := inverse in
       let direct :=
         match goal with GoalRequired _ => true | _ => false end
         && bool_decide (missing_data ≠ []) && has_parity in
       if direct then
         let! m := or_panic inverse in
         let! rows := map_outcome (compose_row self (valid_indices shape) missing_data m)
           (drop count (target_indices plan)) in
         Ok (mk_plan shape selected count (data_only plan) true inverse rows)
       else Ok (mk_plan shape selected count (data_only plan) false inverse
         (parity_decode_rows plan)))
  end.

Definition prepare_classic_reconstruct_plan (self : ReedSolomon)
    (shape : ClassicReconstructShape) (goal : ReconstructionGoal)
    : ReedSolomon * outcome Error ClassicReconstructPlan :=
  fill_classic_reconstruct_plan self (plan_new shape goal) goal.

(** ** [with_classic_reconstruct_plan]: the codec with its cache, the shards, and the
    result, whatever [execute] does. *)
Context {T : Type} {S : ReconstructShard T}.

Definition run : Type := ReedSolomon * list T * outcome Error unit.

Definition with_classic_reconstruct_plan (self : ReedSolomon) (shards : list T)
    (goal : ReconstructionGoal)
    (execute : ReedSolomon → list T → ClassicReconstructPlan → list T * outcome Error unit)
    : run :=
  if negb (goal_flags_ok self goal) then (self, shards, Err InvalidShardFlags) else
  match
    (let! _ := validate_classic_shard_count self (length shards) in
     scan_present_prefix lengths_default (imap (λ i s, (i, shard_len s)) shards))
  with
  | Err e => (self, shards, Err e)
  | Panic => (self, shards, Panic)
  | Ok (None, _, _) => (self, shards, Ok tt)
  | Ok (Some first_missing, state, rest) =>
      match fill_classic_reconstruct_shape_from_suffix self shape_default rest state
              first_missing with
      | Err e => (self, shards, Err e)
      | Panic => (self, shards, Panic)
      | Ok shape =>
          match fill_classic_reconstruct_plan self (plan_new shape goal) goal with
          | (self, Err e) => (self, shards, Err e)
          | (self, Panic) => (self, shards, Panic)
          | (self, Ok plan) =>
              let '(shards, r) := execute self shards plan in (self, shards, r)
          end
      end
  end.
End plans.

(** ** Sorted index lists cut at a bound *)
Section cuts.
Implicit Types (l : list nat) (b : nat).

Definition cut l b : nat := length (filter (λ i, i < b) l).

Lemma filter_none {A} (P : A → Prop) `{∀ x, Decision (P x)} (l : list A) :
  (∀ x, x ∈ l → ¬ P x) → filter P l = [].
Proof.
  induction l as [|x l IH]; intros Hl; [done|]. rewrite filter_cons_False by (apply Hl; left).
  apply IH. intros y Hy. apply Hl. by right.
Qed.

Lemma take_cut l b : StronglySorted lt l → filter (λ i, i < b) l = take (cut l b) l.
Proof.
  unfold cut. induction l as [|x l IH]; intros Hs; [done|]. rewrite filter_cons.
  pose proof (sorted_cons_lt x l) as Hlt. case_decide.
  - simpl. f_equal. apply IH. by apply StronglySorted_inv in Hs as [? _].
  - rewrite filter_none; [done|]. intros y Hy. specialize (Hlt y Hs Hy). lia.
Qed.

Lemma elem_take_cut l b x : StronglySorted lt l → x ∈ take (cut l b) l ↔ x ∈ l ∧ x < b.
Proof. intros Hs. rewrite <-take_cut by done. rewrite list_elem_of_filter. tauto. Qed.

Lemma cut_all l b : (∀ x, x ∈ l → x < b) → cut l b = length l.
Proof.
  unfold cut. induction l as [|x l IH]; intros Hl; [done|].
  rewrite filter_cons_True by (apply Hl; left). simpl. f_equal. apply IH.
  intros y Hy. apply Hl. by right.
Qed.

Lemma cut_0 l : cut l 0 = 0%nat.
Proof. unfold cut. rewrite filter_none; [done|]. intros x _. lia. Qed.

Lemma cut_le l b : cut l b ≤ length l.
Proof. apply length_filter. Qed.

Lemma cut_in l b :
  StronglySorted lt l → b ∈ l → l !! cut l b = Some b ∧ cut l (Datatypes.S b) = S (cut l b).
Proof.
  unfold cut. induction l as [|x l IH]; intros Hs Hb; [by apply not_elem_of_nil in Hb|].
  pose proof (sorted_cons_lt x l) as Hlt.
  assert (StronglySorted lt l) as Hs' by (by apply StronglySorted_inv in Hs as [? _]).
  rewrite !filter_cons. apply elem_of_cons in Hb as [->|Hb].
  - rewrite decide_False by lia. rewrite decide_True by lia.
    rewrite !filter_none; [done|..]; intros y Hy; specialize (Hlt y Hs Hy); lia.
  - specialize (Hlt b Hs Hb). rewrite !decide_True by lia.
    destruct (IH Hs' Hb) as [H1 H2]. split; [done|]. simpl. by rewrite H2.
Qed.

Lemma cut_out l b : StronglySorted lt l → b ∉ l → cut l (Datatypes.S b) = cut l b.
Proof.
  intros Hs Hb. unfold cut. f_equal. apply filter_ext_elem. intros x Hx.
  assert (x ≠ b) by (by intros ->). lia.
Qed.

(** Walking past index [b]. *)
Lemma drop_cut_in l b :
  StronglySorted lt l → b ∈ l →
  drop (cut l b) l = b :: drop (cut l (Datatypes.S b)) l ∧
  take (cut l (Datatypes.S b)) l = take (cut l b) l ++ [b].
Proof.
  intros Hs Hb. destruct (cut_in l b Hs Hb) as [H1 H2]. rewrite H2. split.
  - by apply drop_S.
  - by apply take_S_r.
Qed.

Lemma lookup_rev_seq d m x :
  rev (seq 0 d) !! m = Some x → m < d ∧ x = (d - Datatypes.S m)%nat.
Proof.
  revert m. induction d as [|d IH]; intros m Hm; [done|].
  rewrite seq_S, rev_app_distr in Hm. simpl in Hm. destruct m as [|m].
  - injection Hm as <-. lia.
  - apply IH in Hm as [H1 ->]. lia.
Qed.

Lemma head_cut_out l b : b ∉ l → head (drop (cut l b) l) ≠ Some b.
Proof.
  intros Hb Hh. apply Hb. destruct (drop (cut l b) l) as [|x k] eqn:Hd; [done|].
  injection Hh as ->. apply (elem_of_drop_in l (cut l b)). rewrite Hd. left.
Qed.
End cuts.

(** ** The specification of a plan

    [plan_for] is what execution relies on: the targets in order, and rows that
    turn the values of the survivors into the values of the targets for every message
    [z], where [S] is the square of the survivors' encoding rows. *)
Section plan_spec.
Context {F : Field} {RT : Runtime} {St : Storage Elem}
  {L : LruCache (list nat) (CachedMatrix Elem)}.

Record plan_for (self : ReedSolomon) (M : nat → nat → Elem) (present : nat → bool)
    (len : nat) (DT PT : list nat) (plan : ClassicReconstructPlan) : Prop := {
  pf_valid : valid_indices (plan_shape plan)
             = valid_of (total_shard_count self) (data_shard_count self) present;
  pf_len : shape_shard_len (plan_shape plan) = len;
  pf_data : data_targets (E:=Error) plan = Ok DT;
  pf_parity : parity_targets (E:=Error) plan = Ok PT;
  pf_sorted : StronglySorted lt DT ∧ StronglySorted lt PT;
  pf_data_bound : ∀ i, i ∈ DT → i < data_shard_count self ∧ present i = false;
  pf_parity_bound : ∀ i, i ∈ PT →
    data_shard_count self ≤ i ∧ i < total_shard_count self ∧ present i = false;
  pf_data_rows : ∀ i, i ∈ DT → ∃ c,
    data_row plan i = Ok (tabulate (data_shard_count self) c) ∧
    ∀ z, bsum (data_shard_count self) (λ j, c j * row_dot (data_shard_count self)
           (selected_rows M (valid_indices (plan_shape plan))) z j) = z i;
  pf_parity_rows : ∀ k i, PT !! k = Some i → ∃ c,
    parity_row self plan k i = Ok (tabulate (data_shard_count self) c) ∧
    ∀ z, bsum (data_shard_count self) (λ j, c j *
           (if direct_parity plan then row_dot (data_shard_count self)
              (selected_rows M (valid_indices (plan_shape plan))) z j else z j))
         = row_dot (data_shard_count self) M z i;
  pf_ordinary : direct_parity plan = false → PT ≠ [] →
    DT = filter (λ i, present i = false) (seq 0 (data_shard_count self));
}.
End plan_spec.

(** ** The shape of a list of lengths *)
Definition present_at (lens : list (option nat)) (i : nat) : bool :=
  match lens !! i with Some (Some _) => true | _ => false end.

Definition count_present (lens : list (option nat)) : nat :=
  length (filter (λ i, present_at lens i = true) (seq 0 (length lens))).

(** The lengths agree and none is zero. *)
Definition lengths_ok (lens : list (option nat)) (len : nat) : Prop :=
  ∀ i l, lens !! i = Some (Some l) → l = len ∧ l ≠ 0%nat.

Definition lengths_bad (lens : list (option nat)) (e : Error) : Prop :=
  (e = EmptyShard ∧ ∃ i, lens !! i = Some (Some 0%nat)) ∨
  (e = IncorrectShardSize ∧
   ∃ i j l k, lens !! i = Some (Some l) ∧ lens !! j = Some (Some k) ∧ l ≠ k).

Section shape.
Context (lens : list (option nat)).
#[local] Abbreviation n := (length lens).
#[local] Abbreviation p := (present_at lens).

(** The state after [k] lengths. *)
Definition state_at (k : nat) (state : ClassicShardLengths) : Prop :=
  (∀ i l, i < k → lens !! i = Some (Some l) → l = lengths_shard_len state ∧ l ≠ 0%nat) ∧
  lengths_number_present state = length (filter (λ i, p i = true) (seq 0 k)) ∧
  (lengths_shard_len state ≠ 0%nat → ∃ i, i < k ∧ lens !! i = Some (Some (lengths_shard_len state))).

Lemma filter_seq_snoc (b : bool) k :
  filter (λ i, p i = b) (seq 0 (Datatypes.S k))
  = filter (λ i, p i = b) (seq 0 k) ++ (if decide (p k = b) then [k] else []).
Proof. rewrite seq_S, filter_app, filter_cons. simpl. by case_decide. Qed.

Lemma observe_ensures k l state :
  lens !! k = Some l → state_at k state →
  ensures (observe state l) (λ '(present, state'),
    present = p k ∧ state_at (Datatypes.S k) state') (lengths_bad lens).
Proof.
  intros Hl (H1 & H2 & H3). unfold observe. destruct l as [l|].
  - case_decide as Hz; [left; split; [done|by exists k; subst]|].
    destruct (_ && _) eqn:Hb.
    + apply andb_true_iff in Hb as [Hb1%bool_decide_eq_true Hb2%bool_decide_eq_true].
      right. split; [done|]. destruct (H3 Hb1) as (i & Hi & Hli).
      exists k, i, l, (lengths_shard_len state). done.
    + assert (p k = true) as Hp by (unfold present_at; by rewrite Hl).
      split; [done|]. unfold state_at. cbn [lengths_shard_len lengths_number_present].
      rewrite filter_seq_snoc, decide_True, length_app by done. simpl.
      split_and!; [|lia|intros _; exists k; split; [lia|done]].
      intros i y Hi Hy. destruct (decide (i = k)) as [->|Hne].
      * rewrite Hl in Hy. injection Hy as <-. done.
      * destruct (H1 i y ltac:(lia) Hy) as [-> Hy0]. split; [|done].
        apply andb_false_iff in Hb as [Hb|Hb]; apply bool_decide_eq_false in Hb; lia.
  - assert (p k = false) as Hp by (unfold present_at; by rewrite Hl).
    split; [done|]. unfold state_at. rewrite filter_seq_snoc, decide_False, app_nil_r by congruence.
    split_and!; [|done|].
    + intros i y Hi Hy. destruct (decide (i = k)) as [->|Hne]; [congruence|].
      apply (H1 i y); [lia|done].
    + intros Hne. destruct (H3 Hne) as (i & Hi & ?). exists i. split; [lia|done].
Qed.

Lemma drop_imap_cons k x rest :
  drop k (imap pair lens) = x :: rest →
  ∃ l, x = (k, l) ∧ lens !! k = Some l ∧ rest = drop (Datatypes.S k) (imap pair lens).
Proof.
  intros H. assert (imap pair lens !! k = Some x) as Hx.
  { replace k with (k + 0)%nat by lia. by rewrite <-lookup_drop, H. }
  rewrite list_lookup_imap in Hx. destruct (lens !! k) as [l|]; [|done].
  injection Hx as <-. exists l. split_and!; [done|done|].
  replace (Datatypes.S k) with (k + 1)%nat by lia. rewrite <-drop_drop, H. done.
Qed.

Lemma scan_prefix_ensures k rest state :
  drop k (imap pair lens) = rest → state_at k state → (∀ i, i < k → p i = true) → k ≤ n →
  ensures (scan_present_prefix state rest) (λ '(first, state', rest'),
    match first with
    | Some f => f < n ∧ (∀ i, i < f → p i = true) ∧ p f = false ∧
        rest' = drop (Datatypes.S f) (imap pair lens) ∧ state_at (Datatypes.S f) state'
    | None => state_at n state' ∧ ∀ i, i < n → p i = true
    end) (lengths_bad lens).
Proof.
  revert k state. induction rest as [|x rest IH]; intros k state Hd Hs Hp Hk.
  - assert (k = n) as ->.
    { apply (f_equal length) in Hd. rewrite length_drop, length_imap in Hd. simpl in Hd. lia. }
    done.
  - apply drop_imap_cons in Hd as (l & -> & Hl & ->). simpl.
    pose proof (lookup_lt_Some _ _ _ Hl) as Hkn.
    eapply ensures_bind; [by apply (observe_ensures k)|]. intros [present state'] [-> Hs'].
    destruct (p k) eqn:Hpk; [|done]. apply (IH (Datatypes.S k)); [done|done| |lia].
    intros i Hi. destruct (decide (i = k)) as [->|]; [done|]. apply Hp. lia.
Qed.

Lemma scan_prefix_start :
  ensures (scan_present_prefix lengths_default (imap pair lens)) (λ '(first, state', rest'),
    match first with
    | Some f => f < n ∧ (∀ i, i < f → p i = true) ∧ p f = false ∧
        rest' = drop (Datatypes.S f) (imap pair lens) ∧ state_at (Datatypes.S f) state'
    | None => state_at n state' ∧ ∀ i, i < n → p i = true
    end) (lengths_bad lens).
Proof.
  apply (scan_prefix_ensures 0); [done| |lia|lia].
  split_and!; [lia|done|]. intros H. exfalso. by apply H.
Qed.

Lemma filter_all_present k : (∀ i, i < k → p i = true) →
  filter (λ i, p i = true) (seq 0 k) = seq 0 k ∧ filter (λ i, p i = false) (seq 0 k) = [].
Proof.
  intros H. split.
  - induction k as [|k IH]; [done|]. rewrite filter_seq_snoc, IH by auto.
    rewrite decide_True by auto. by rewrite seq_S.
  - apply filter_none. intros i Hi. apply elem_of_seq in Hi. rewrite H by lia. done.
Qed.

Lemma suffix_ensures inl f state :
  f < n → (∀ i, i < f → p i = true) → p f = false → state_at (Datatypes.S f) state →
  ensures (suffix_loop inl (drop (Datatypes.S f) (imap pair lens)) state
             (seq 0 (Nat.min f inl)) [f])
    (λ '(state', valid, invalid), state_at n state' ∧
       valid = take inl (filter (λ i, p i = true) (seq 0 n)) ∧
       invalid = filter (λ i, p i = false) (seq 0 n)) (lengths_bad lens).
Proof.
  intros Hf Hp Hpf Hs. unfold suffix_loop.
  apply (for_each_post _ _ (λ m '(state', valid, invalid),
    state_at (Datatypes.S f + m) state' ∧
    valid = take inl (filter (λ i, p i = true) (seq 0 (Datatypes.S f + m))) ∧
    invalid = filter (λ i, p i = false) (seq 0 (Datatypes.S f + m)))).
  - rewrite Nat.add_0_r, !filter_seq_snoc. destruct (filter_all_present f Hp) as [-> ->].
    rewrite decide_False, decide_True, app_nil_r by congruence.
    split_and!; [done|by rewrite take_seq, Nat.min_comm|done].
  - intros m [idx l] [[st valid] invalid] Hm (H1 & -> & ->). cbn beta iota.
    rewrite lookup_drop, list_lookup_imap in Hm.
    destruct (lens !! (Datatypes.S f + m)%nat) as [y|] eqn:Hy; [|done].
    injection Hm as <- ->. eapply ensures_bind; [by apply (observe_ensures (Datatypes.S f + m))|].
    intros [present st'] [-> Hst]. replace (Datatypes.S f + (1 + m))%nat
      with (Datatypes.S (Datatypes.S f + m)) by lia. rewrite !filter_seq_snoc.
    destruct (p (Datatypes.S f + m)%nat) eqn:Hpm.
    + rewrite (decide_True (P := true = true)), (decide_False (P := true = false)), app_nil_r by done.
      split_and!; [done| |done].
      rewrite length_take. case_decide as Hc.
      * rewrite take_ge by lia. rewrite take_ge by (rewrite length_app; cbn [length]; lia). done.
      * rewrite take_app_le by lia. done.
    + rewrite decide_False, decide_True, app_nil_r by congruence. done.
  - intros [[st valid] invalid]. rewrite length_drop, length_imap.
    by replace (Datatypes.S f + (n - Datatypes.S f))%nat with n by lia.
Qed.
End shape.

(** ** Survivors past the inline prefix *)
Section fill.
Implicit Types (p : nat → bool).

(** The elements of [filter p (seq 0 n)] up to its [k]-th are those below [x + 1]. *)
Lemma take_filter_last p n k x :
  last (take k (filter (λ i, p i = true) (seq 0 n))) = Some x →
  filter (λ i, p i = true) (seq 0 n)
  = take k (filter (λ i, p i = true) (seq 0 n))
    ++ filter (λ i, p i = true) (seq (x + 1) (n - (x + 1))).
Proof.
  set (l := filter (λ i, p i = true) (seq 0 n)). intros Hx.
  assert (StronglySorted lt l) as Hs by apply sorted_filter, sorted_seq.
  pose proof (last_Some (take k l) x) as [Hl _]. destruct (Hl Hx) as [l' Hl'].
  assert (l = l' ++ x :: drop k l) as Hlx.
  { rewrite <-(take_drop k l) at 1. rewrite Hl', <-app_assoc. done. }
  assert (∀ y, y ∈ l' → y < x) as H1.
  { intros y Hy. rewrite Hlx in Hs. apply sorted_app_inv in Hs as (_ & _ & Hs).
    apply Hs; [done|left]. }
  assert (∀ y, y ∈ drop k l → x < y) as H2.
  { intros y Hy. rewrite Hlx in Hs. apply sorted_app_inv in Hs as (_ & Hs & _).
    by apply (sorted_cons_lt x (drop k l)). }
  assert (x < n) as Hxn.
  { assert (x ∈ l) as Hin by (rewrite Hlx; apply elem_of_app; right; left).
    apply list_elem_of_filter in Hin as [_ Hin]. apply elem_of_seq in Hin. lia. }
  rewrite <-(take_drop k l) at 1. f_equal.
  assert (filter (λ y, x < y) l = drop k l) as <-.
  { rewrite <-(take_drop k l) at 1. rewrite filter_app, (filter_none _ (take k l)).
    - simpl. rewrite (filter_ext_elem _ (λ _, True)).
      + clear. induction (drop k l) as [|y m IH]; [done|].
        rewrite filter_cons_True by done. by f_equal.
      + intros y Hy. specialize (H2 y Hy). tauto.
    - intros y. rewrite Hl', elem_of_app, list_elem_of_singleton.
      intros [Hy| ->]; [specialize (H1 y Hy)|]; lia. }
  unfold l. replace n with ((x + 1) + (n - (x + 1)))%nat at 1 by lia.
  rewrite seq_app, !filter_app, filter_none.
  - simpl. rewrite list_filter_filter.
    apply filter_ext_elem. intros y Hy%elem_of_seq. intuition lia.
  - intros y Hy%list_elem_of_filter. destruct Hy as [_ Hy%elem_of_seq]. lia.
Qed.

Lemma skip_known_present p n start :
  start ≤ n →
  let invalid := filter (λ i, p i = false) (seq 0 n) in
  skip_known (seq start (n - start))
    (drop (partition_point (λ idx, bool_decide (idx < start)) invalid) invalid)
  = filter (λ i, p i = true) (seq start (n - start)).
Proof.
  intros Hst invalid.
  assert (StronglySorted lt invalid) as Hs by apply sorted_filter, sorted_seq.
  destruct (partition_point_bound invalid start Hs) as (H1 & H2 & H3).
  set (k := partition_point _ _) in *. rewrite skip_known_filter; [|  |done].
  - apply filter_ext_elem. intros x Hx%elem_of_seq.
    assert (x ∈ invalid ↔ p x = false) as Hinv.
    { unfold invalid. rewrite list_elem_of_filter, elem_of_seq. intuition lia. }
    rewrite <-(take_drop k invalid), elem_of_app in Hinv.
    assert (x ∉ take k invalid) as Hn by (intros Hin; specialize (H1 x Hin); lia).
    destruct (p x); intuition congruence.
  - rewrite <-(take_drop k invalid) in Hs. by apply sorted_app_inv in Hs as (_ & ? & _).
Qed.
End fill.

(** ** Shapes *)
Section shapes.
Context {F : Field} {RT : Runtime} {St : Storage Elem}
  {L : LruCache (list nat) (CachedMatrix Elem)}.
Context (self : ReedSolomon) (lens : list (option nat)).
#[local] Abbreviation d := (data_shard_count self).
#[local] Abbreviation n := (total_shard_count self).
#[local] Abbreviation p := (present_at lens).

(** The shape of [lens]. *)
Definition shape_for (shape : ClassicReconstructShape) : Prop :=
  lengths_ok lens (shape_shard_len shape) ∧
  number_present shape = count_present lens ∧
  (shape_shard_len shape = 0%nat → count_present lens = 0%nat) ∧
  invalid_indices shape = invalid_of n p ∧
  (invalid_indices shape ≠ [] →
   valid_indices shape = valid_of n d p ∧ d ≤ count_present lens) .

Definition shape_error (e : Error) : Prop :=
  lengths_bad lens e ∨
  (e = TooFewShardsPresent ∧ count_present lens < d ∧ ∃ i, i < n ∧ p i = false).

Lemma state_lengths_ok state :
  state_at lens (length lens) state → lengths_ok lens (lengths_shard_len state) ∧
  (lengths_shard_len state = 0%nat → count_present lens = 0%nat).
Proof.
  intros (H1 & H2 & _).
  assert (lengths_ok lens (lengths_shard_len state)) as Hok.
  { intros i l Hi. apply (H1 i); [by eapply lookup_lt_Some|done]. }
  split; [done|]. intros Hz. unfold count_present. rewrite filter_none; [done|].
  intros i _ Hp. unfold present_at in Hp. destruct (lens !! i) as [[l|]|] eqn:Hl; [|done..].
  destruct (Hok i l Hl). congruence.
Qed.

Lemma fill_shape_ensures state f :
  length lens = n → d ≤ n →
  f < n → (∀ i, i < f → p i = true) → p f = false → state_at lens (Datatypes.S f) state →
  ensures (fill_classic_reconstruct_shape_from_suffix self shape_default
             (drop (Datatypes.S f) (imap pair lens)) state f) shape_for shape_error.
Proof.
  intros Hl Hdn Hf Hp Hpf Hst. unfold fill_classic_reconstruct_shape_from_suffix.
  cbn [shape_default valid_indices invalid_indices app].
  eapply ensures_bind.
  { eapply ensures_mono; [apply suffix_ensures; by rewrite ?Hl|done|intros e He; by left]. }
  intros [[st valid] invalid]. cbn beta iota. rewrite Hl. intros (Hs & -> & ->).
  pose proof Hs as (_ & Hcount & _). rewrite <-Hl in Hs.
  destruct (state_lengths_ok st Hs) as [Hok Hz].
  assert (lengths_number_present st = count_present lens) as Hc
    by (unfold count_present; by rewrite Hl).
  case_decide as Hfew.
  { right. split_and!; [done|by rewrite <-Hc|by exists f]. }
  set (A := filter (λ i, p i = true) (seq 0 n)) in *.
  assert (length (take (Nat.min d INLINE_INDICES) A) = Nat.min d INLINE_INDICES) as Hlv
    by (rewrite length_take; lia).
  rewrite Hlv, decide_False by lia. split_and!; try done; cbn [valid_indices].
  intros _. split; [|lia]. unfold valid_of. fold A. case_decide as Hrem.
  - set (inl := Nat.min d INLINE_INDICES) in *. assert (0 < inl) as Hinl by (unfold inl, INLINE_INDICES in *; lia).
    destruct (last (take inl A)) as [x|] eqn:Hx.
    2:{ apply last_None in Hx. rewrite Hx in Hlv. simpl in Hlv. lia. }
    assert (x + 1 ≤ n)%nat as Hxn.
    { apply last_Some in Hx as [l' Hl']. assert (x ∈ A) as Hin.
      { apply (elem_take _ inl). rewrite Hl'. apply elem_of_app. right. left. }
      apply list_elem_of_filter in Hin as [_ Hin%elem_of_seq]. lia. }
    rewrite skip_known_present by done.
    pose proof (take_filter_last p n inl x Hx) as Hsplit. fold A in Hsplit.
    rewrite Hsplit at 2. rewrite take_app, Hlv, (take_ge (take inl A)); [done|]. rewrite Hlv. lia.
  - f_equal. lia.
Qed.

Lemma shape_count_error :
  validate_classic_shard_count self (length lens) = match Nat.compare (length lens) n with
    | Lt => Err TooFewShards | Gt => Err TooManyShards | Eq => Ok tt end.
Proof.
  unfold validate_classic_shard_count. destruct (Nat.compare_spec (length lens) n);
    repeat case_decide; done || lia.
Qed.

Lemma shape_ensures :
  d ≤ n → length lens = n → ensures (classic_reconstruct_shape self lens) shape_for shape_error.
Proof.
  intros Hdn Hl. unfold classic_reconstruct_shape. rewrite shape_count_error, Hl, Nat.compare_refl.
  cbn [obind].
  eapply ensures_bind.
  { eapply ensures_mono; [apply scan_prefix_start|done|intros e He; by left]. }
  intros [[first state] rest]. destruct first as [f|].
  - rewrite Hl. intros (H1 & H2 & H3 & -> & H5). by apply fill_shape_ensures.
  - intros [Hs Hp]. destruct (state_lengths_ok state Hs) as [Hok Hz].
    assert (invalid_of n p = []) as Hinv.
    { apply filter_none. intros i Hi%elem_of_seq. rewrite Hp by lia. done. }
    split_and!; try done. by destruct Hs as (_ & -> & _).
Qed.

(** for shard lengths as many as the codec has shards, the
    scan returns the erasure pattern: the common length, the number
    present, the missing indices in order and, if any are missing, the first
    [data] present indices, beyond the 32 kept inline too; it fails with
    [EmptyShard] or [IncorrectShardSize] exactly when a length is zero or two differ,
    and with [TooFewShardsPresent] when shards are missing and fewer than
    [data] are left; other counts fail with [TooFewShards] or [TooManyShards]. *)
Theorem classic_shape_correct (Hdn : d ≤ n) :
  match Nat.compare (length lens) n with
  | Lt => classic_reconstruct_shape self lens = Err TooFewShards
  | Gt => classic_reconstruct_shape self lens = Err TooManyShards
  | Eq => ensures (classic_reconstruct_shape self lens) shape_for shape_error
  end.
Proof.
  destruct (Nat.compare_spec (length lens) n) as [Hl|Hl|Hl]; [by apply shape_ensures|..];
    unfold classic_reconstruct_shape; rewrite shape_count_error.
  - by rewrite (proj2 (Nat.compare_lt_iff _ _)) by done.
  - by rewrite (proj2 (Nat.compare_gt_iff _ _)) by done.
Qed.
End shapes.

(** ** Targets *)
Section targets.
Implicit Types (l : list nat).

Lemma partition_point_cut l b :
  StronglySorted lt l → partition_point (λ i, bool_decide (i < b)) l = cut l b.
Proof.
  unfold cut. induction l as [|x l IH]; intros Hs; [done|]. simpl. rewrite filter_cons.
  pose proof (sorted_cons_lt x l) as Hlt. case_bool_decide; case_decide; try done.
  - simpl. f_equal. apply IH. by apply StronglySorted_inv in Hs as [? _].
  - rewrite filter_none; [done|]. intros y Hy. specialize (Hlt y Hs Hy). lia.
Qed.

Lemma drop_cut l b : StronglySorted lt l → filter (λ i, b ≤ i) l = drop (cut l b) l.
Proof.
  unfold cut. induction l as [|x l IH]; intros Hs; [done|]. rewrite !filter_cons.
  assert (StronglySorted lt l) as Hs' by (by apply StronglySorted_inv in Hs as [? _]).
  pose proof (sorted_cons_lt x l) as Hlt. do 2 case_decide; try lia.
  - rewrite (filter_none (λ i, i < b)) in *.
    + rewrite IH by done. by rewrite drop_0.
    + intros y Hy. specialize (Hlt y Hs Hy). lia.
    + intros y Hy. specialize (Hlt y Hs Hy). lia.
  - simpl. by apply IH.
Qed.

(** Taking up to the first excluded index and filtering the rest. *)
Lemma position_filter (q : nat → bool) l :
  match position (λ i, negb (q i)) l with
  | Some k => take k l ++ List.filter q (drop (k + 1) l)
  | None => l
  end = filter (λ i, q i = true) l.
Proof.
  induction l as [|x l IH]; [done|]. cbn [position]. rewrite filter_cons.
  destruct (q x) eqn:Hq; cbn [negb].
  - rewrite decide_True by done. rewrite <-IH.
    destruct (position _ l) as [k|]; simpl; done.
  - rewrite decide_False by done. simpl. rewrite drop_0. clear IH.
    induction l as [|y l IH]; [done|]. simpl. rewrite filter_cons.
    destruct (q y); simpl; [by f_equal|done].
Qed.

(** [seq 0 n] filtered, below and from [d]. *)
Lemma filter_seq_below (P : nat → Prop) `{∀ x, Decision (P x)} d n :
  d ≤ n → filter (λ i, i < d) (filter P (seq 0 n)) = filter P (seq 0 d).
Proof.
  intros Hd. replace n with (d + (n - d))%nat by lia. rewrite seq_app, !filter_app.
  rewrite (filter_none _ (filter P (seq (0 + d) _))), app_nil_r.
  - rewrite list_filter_filter. apply filter_ext_elem. intros x Hx%elem_of_seq. intuition lia.
  - intros y [_ Hy%elem_of_seq]%list_elem_of_filter. lia.
Qed.

Lemma filter_seq_above (P : nat → Prop) `{∀ x, Decision (P x)} d n :
  d ≤ n → filter (λ i, d ≤ i) (filter P (seq 0 n)) = filter P (seq d (n - d)).
Proof.
  intros Hd. replace n with (d + (n - d))%nat at 1 by lia. rewrite seq_app, !filter_app.
  rewrite (filter_none _ (filter P (seq 0 d))).
  - simpl. rewrite list_filter_filter. apply filter_ext_elem. intros x Hx%elem_of_seq.
    intuition lia.
  - intros y [_ Hy%elem_of_seq]%list_elem_of_filter. lia.
Qed.
End targets.

(** What the goal asks for. *)
Definition wanted (d : nat) (goal : ReconstructionGoal) (i : nat) : bool :=
  match goal with
  | GoalAll => true
  | GoalData => bool_decide (i < d)
  | GoalRequired required => is_required required i
  end.

(** The data and parity targets of a goal. *)
Definition targets_in (present : nat → bool) (d : nat) (goal : ReconstructionGoal)
    (lo hi : nat) : list nat :=
  filter (λ i, present i = false ∧ wanted d goal i = true) (seq lo (hi - lo)).

(** ** Composed parity rows *)
Section compose.
Context {F : Field} {FL : FieldLaws F}.
Add Ring elem_ring : field_ring_theory (morphism field_ring_morph, constants [field_const]).

Lemma lsum_filter_split (q : nat → bool) (l : list nat) f :
  lsum l f = lsum (filter (λ i, q i = true) l) f + lsum (filter (λ i, q i = false) l) f.
Proof.
  induction l as [|x l IH]; simpl; [ring|]. rewrite !filter_cons, IH.
  destruct (q x); [rewrite decide_True, decide_False by done
                  |rewrite decide_False, decide_True by done]; simpl; ring.
Qed.

Lemma lsum_bsum_swap (l : list nat) m (f : nat → nat → Elem) :
  bsum m (λ j, lsum l (λ i, f i j)) = lsum l (λ i, bsum m (f i)).
Proof.
  induction l as [|x l IH]; simpl; [by apply bsum_0|]. by rewrite bsum_add, IH.
Qed.

Lemma lsum_ext (l : list nat) f g : (∀ i, i ∈ l → f i = g i) → lsum l f = lsum l g.
Proof.
  induction l as [|x l IH]; intros H; [done|]. simpl. rewrite H by left. f_equal.
  apply IH. intros i Hi. apply H. by right.
Qed.

Lemma lsum_mul_r (l : list nat) f a : lsum l f * a = lsum l (λ i, f i * a).
Proof. induction l as [|x l IH]; simpl; [ring|]. rewrite <-IH. ring. Qed.

Context (M X : nat → nat → Elem) (d : nat) (present : nat → bool) (Q : list nat).
#[local] Abbreviation K := (filter (λ i, present i = true) (seq 0 d)).
#[local] Abbreviation U := (filter (λ i, present i = false) (seq 0 d)).
Context (Hsys : systematic d M) (Hlen : (length K + length Q)%nat = d).
Context (HQ : ∀ q, q ∈ Q → d ≤ q) (HX : decodes d (selected_rows M (K ++ Q)) X).

(** The coefficient of a composed row at a column. *)
Definition composed (idx column : nat) : Elem :=
  (if decide (rows_at (K ++ Q) column < d) then M idx (rows_at (K ++ Q) column) else 0)
  + lsum U (λ data, M idx data * X data column).

Lemma composed_known z idx :
  bsum d (λ j, (if decide (rows_at (K ++ Q) j < d) then M idx (rows_at (K ++ Q) j) else 0)
               * row_dot d (selected_rows M (K ++ Q)) z j)
  = lsum K (λ i, M idx i * z i).
Proof.
  rewrite lsum_rows_at. rewrite <-Hlen at 1. rewrite bsum_split.
  assert (∀ k, k ∈ K → k < d) as HKd.
  { intros k [_ Hk%elem_of_seq]%list_elem_of_filter. lia. }
  rewrite (bsum_0 (length Q)).
  - rewrite (bsum_ext (length K) _ (λ i, M idx (rows_at K i) * z (rows_at K i))); [ring|].
    intros i Hi. rewrite rows_at_known by done.
    rewrite decide_True by (by apply HKd, rows_at_elem). by rewrite row_known.
  - intros i Hi. rewrite (rows_at_parity d d) by lia. rewrite decide_False; [ring|].
    pose proof (HQ _ (rows_at_elem Q i Hi)). lia.
Qed.

Lemma composed_correct z idx :
  bsum d (λ j, composed idx j * row_dot d (selected_rows M (K ++ Q)) z j) = row_dot d M z idx.
Proof.
  transitivity (lsum (seq 0 d) (λ c, M idx c * z c)); [|by rewrite lsum_seq].
  rewrite (lsum_filter_split present), <-(composed_known z idx).
  rewrite (lsum_ext U _ (λ i, bsum d (λ j, M idx i * X i j
    * row_dot d (selected_rows M (K ++ Q)) z j))).
  2:{ intros i [_ Hi%elem_of_seq]%list_elem_of_filter. rewrite <-(HX z i) by lia.
      unfold row_dot at 1. rewrite <-bsum_mul_l. apply bsum_ext. intros j _. ring. }
  rewrite <-lsum_bsum_swap, <-bsum_add. apply bsum_ext. intros j _. unfold composed.
  rewrite <-lsum_mul_r. ring.
Qed.
End compose.

(** ** Plans *)
Section rows.
Context {F : Field} {FL : FieldLaws F} {RT : Runtime} {St : Storage Elem}
  {L : LruCache (list nat) (CachedMatrix Elem)}.
Add Ring elem_ring2 : field_ring_theory (morphism field_ring_morph, constants [field_const]).

Lemma sum_loop {E} (body : nat → Elem → outcome E Elem) (w : nat → Elem) l s :
  (∀ i s, i ∈ l → body i s = Ok (s + w i)) → for_each l body s = Ok (s + lsum l w).
Proof.
  revert s. induction l as [|x l IH]; intros s H; simpl; [f_equal; ring|].
  rewrite H by left. simpl. rewrite IH; [f_equal; ring|]. intros i s' Hi. apply H. by right.
Qed.

Context (self : ReedSolomon) (M X : nat → nat → Elem) (present : nat → bool) (Q : list nat).
#[local] Abbreviation d := (data_shard_count self).
#[local] Abbreviation n := (total_shard_count self).
#[local] Abbreviation K := (filter (λ i, present i = true) (seq 0 d)).
#[local] Abbreviation U := (filter (λ i, present i = false) (seq 0 d)).

Lemma compose_row_ok inverse idx :
  rep (format_matrix (rs_format self)) n d M → idx < n →
  (length K + length Q)%nat = d → rep inverse d d X →
  compose_row self (K ++ Q) U inverse idx = Ok (tabulate d (composed M X d present Q idx)).
Proof.
  intros Hrep Hidx Hlen Hinv. unfold compose_row. rewrite (get_row_ok _ _ _ _ Hrep) by done.
  cbn [obind]. unfold tabulate at 3. apply map_outcome_all. intros j Hj%elem_of_seq.
  rewrite (index_ok (K ++ Q) j (rows_at (K ++ Q) j))
    by (apply lookup_rows_at; rewrite length_app; lia).
  cbn [obind]. unfold composed. set (s := rows_at (K ++ Q) j).
  assert ((if decide (s < d) then index (E:=Error) (tabulate d (M idx)) s else Ok 0)
    = Ok (if decide (s < d) then M idx s else 0)) as ->.
  { case_decide; [|done]. by rewrite index_tabulate. }
  cbn [obind]. apply sum_loop. intros i v [_ Hi%elem_of_seq]%list_elem_of_filter.
  rewrite index_tabulate by lia. cbn [obind].
  unfold get. rewrite (acc_ok _ _ _ _ Hinv) by lia. done.
Qed.
End rows.

Section fill_plan.
Context {F : Field} {FL : FieldLaws F} {RT : Runtime} {St : Storage Elem}
  {L : LruCache (list nat) (CachedMatrix Elem)} {LL : LruLaws L}.

(** The survivors are the present data shards, then parity shards. *)
Lemma valid_split d n present :
  d ≤ n → length (valid_of n d present) = d →
  let K := filter (λ i, present i = true) (seq 0 d) in
  let U := filter (λ i, present i = false) (seq 0 d) in
  ∃ Q, valid_of n d present = K ++ Q ∧ (length K + length Q)%nat = d ∧ length U = length Q ∧
    ∀ q, q ∈ Q → d ≤ q.
Proof.
  intros Hdn He K U. pose proof (length_filter_split (λ i, present i = true) (seq 0 d)) as Hsum.
  rewrite (filter_ext_elem (λ i, ¬ present i = true) (λ i, present i = false)) in Hsum.
  2:{ intros x _. destruct (present x); intuition congruence. }
  rewrite length_seq in Hsum. fold K U in Hsum.
  assert (valid_of n d present
    = K ++ take (d - length K) (filter (λ i, present i = true) (seq d (n - d)))) as HV.
  { unfold valid_of. replace n with (d + (n - d))%nat at 1 by lia.
    rewrite seq_app, filter_app. fold K. rewrite take_app, take_ge by lia. done. }
  eexists. split; [exact HV|]. rewrite HV, length_app in He. split_and!; [lia|lia|].
  intros q [_ Hq%elem_of_seq]%elem_take%list_elem_of_filter. lia.
Qed.

Lemma cut_filter {E} (P : nat → Prop) `{∀ x, Decision (P x)} d n :
  d ≤ n →
  let T := filter P (seq 0 n) in
  slice (E:=E) T 0 (cut T d) = Ok (filter P (seq 0 d)) ∧
  slice (E:=E) T (cut T d) (length T) = Ok (filter P (seq d (n - d))) ∧
  drop (cut T d) T = filter P (seq d (n - d)).
Proof.
  intros Hdn T. assert (StronglySorted lt T) as Hs by apply sorted_filter, sorted_seq.
  pose proof (cut_le T d) as Hle.
  rewrite !slice_ok by lia. rewrite drop_0, Nat.sub_0_r, <-take_cut, <-drop_cut by done.
  unfold T. rewrite filter_seq_below, filter_seq_above by done.
  split_and!; [done| |done]. f_equal. apply take_ge.
  rewrite <-filter_seq_above, drop_cut by done. rewrite length_drop. done.
Qed.

Context (self : ReedSolomon) (present : nat → bool).
Context (shape : ClassicReconstructShape) (goal : ReconstructionGoal).
#[local] Abbreviation d := (data_shard_count self).
#[local] Abbreviation n := (total_shard_count self).
#[local] Abbreviation DT := (targets_in present d goal 0 d).
#[local] Abbreviation PT := (targets_in present d goal d n).
Context (Hinvalid : invalid_indices shape = invalid_of n present) (Hdn : d ≤ n).

Lemma sorted_invalid : StronglySorted lt (invalid_of n present).
Proof. apply sorted_filter, sorted_seq. Qed.

(** Plans with the targets that [select_targets] picks. *)
Definition targeted (plan : ClassicReconstructPlan) : Prop :=
  plan_shape plan = shape ∧
  (selected_targets plan, data_target_count plan) = select_targets self shape goal ∧
  data_only plan = match goal with GoalData => true | _ => false end.

Lemma targeted_targets plan :
  targeted plan →
  data_targets (E:=Error) plan = Ok DT ∧ parity_targets (E:=Error) plan = Ok PT ∧
  (data_only plan = false → drop (data_target_count plan) (target_indices plan) = PT).
Proof.
  intros (Hsh & Hsel & Hdo). unfold data_targets, parity_targets. rewrite Hdo.
  assert (∃ P (HP : ∀ x, Decision (P x)), target_indices plan = filter P (seq 0 n) ∧
    data_target_count plan = cut (filter P (seq 0 n)) d ∧
    (∀ i, i < d → P i ↔ present i = false ∧ wanted d goal i = true) ∧
    (goal ≠ GoalData → ∀ i, P i ↔ present i = false ∧ wanted d goal i = true))
    as (P & HP & HT & HC & HPd & HPn).
  { unfold target_indices, select_targets, missing_data_count in *. rewrite Hsh.
    rewrite Hinvalid in *. rewrite partition_point_cut in Hsel by apply sorted_invalid.
    destruct goal as [| |required].
    - injection Hsel as -> ->. exists (λ i, present i = false), _. unfold invalid_of.
      split_and!; [done|done|..]; intros; simpl; tauto.
    - injection Hsel as -> ->. exists (λ i, present i = false), _. unfold invalid_of.
      split_and!; [done|done| |done]. intros i Hi. simpl. rewrite bool_decide_eq_true_2 by done.
      tauto.
    - pose proof (position_filter (is_required required) (invalid_of n present)) as Hpos.
      exists (λ i, present i = false ∧ is_required required i = true), _.
      assert (filter (λ i, present i = false ∧ is_required required i = true) (seq 0 n)
        = filter (λ i, is_required required i = true) (invalid_of n present)) as Heq.
      { unfold invalid_of. rewrite list_filter_filter. apply filter_ext_elem. tauto. }
      rewrite Heq, <-Hpos. destruct (position _ _) as [k|]; injection Hsel as -> ->.
      + rewrite partition_point_cut; [split_and!; done|]. rewrite Hpos, <-Heq.
        apply sorted_filter, sorted_seq.
      + split_and!; done. }
  destruct (cut_filter (E:=Error) P d n Hdn) as (H1 & H2 & H3).
  rewrite HT, HC, H1, H2, H3. split_and!.
  - f_equal. unfold targets_in. rewrite Nat.sub_0_r. apply filter_ext_elem.
    intros i Hi%elem_of_seq. apply HPd. lia.
  - destruct goal.
    1,3: f_equal; apply filter_ext_elem; intros i _; by apply HPn.
    f_equal. symmetry. apply filter_none. intros i Hi%elem_of_seq. simpl.
    rewrite bool_decide_eq_false_2 by lia. by intros [_ ?].
  - intros Hd. apply filter_ext_elem. intros i _. apply HPn. by destruct goal.
Qed.
End fill_plan.

Section filled.
Context {F : Field} {FL : FieldLaws F} {RT : Runtime} {St : Storage Elem}
  {L : LruCache (list nat) (CachedMatrix Elem)} {LL : LruLaws L}.

Lemma plan_for_cache self c M present len DT PT plan :
  plan_for self M present len DT PT plan → plan_for (set_cache self c) M present len DT PT plan.
Proof. intros []. by constructor. Qed.

Context (self : ReedSolomon) (M : nat → nat → Elem) (present : nat → bool) (len : nat).
Context (shape : ClassicReconstructShape) (goal : ReconstructionGoal).
#[local] Abbreviation d := (data_shard_count self).
#[local] Abbreviation n := (total_shard_count self).
#[local] Abbreviation V := (valid_of n d present).
#[local] Abbreviation DT := (targets_in present d goal 0 d).
#[local] Abbreviation PT := (targets_in present d goal d n).
#[local] Abbreviation missing := (filter (λ i, present i = false) (seq 0 d)).
Context (Hc : classic_codec self M) (Hdn : d ≤ n) (Hn : n = (d + parity_shard_count self)%nat).
Context (Hinvalid : invalid_indices shape = invalid_of n present).
Context (Hlen : shape_shard_len shape = len).

Lemma targets_bounds :
  (StronglySorted lt DT ∧ StronglySorted lt PT) ∧
  (∀ i, i ∈ DT → i < d ∧ present i = false) ∧
  (∀ i, i ∈ PT → d ≤ i ∧ i < n ∧ present i = false).
Proof.
  split_and!; try apply sorted_filter, sorted_seq.
  - intros i [[Hp _] Hi%elem_of_seq]%list_elem_of_filter. split; [lia|done].
  - intros i [[Hp _] Hi%elem_of_seq]%list_elem_of_filter. split_and!; [lia|lia|done].
Qed.

Lemma missing_data_eq :
  take (missing_data_count shape d) (invalid_indices shape) = missing.
Proof.
  unfold missing_data_count. rewrite Hinvalid, partition_point_cut by apply sorted_filter, sorted_seq.
  rewrite <-take_cut by apply sorted_filter, sorted_seq. by apply filter_seq_below.
Qed.

(** A missing target of the data makes the data incomplete. *)
Lemma data_targets_missing : DT ≠ [] → missing ≠ [].
Proof.
  intros HD Hm. apply HD. apply filter_none. rewrite Nat.sub_0_r. intros i Hi [Hp _].
  assert (i ∈ missing) as Him by (by apply list_elem_of_filter). rewrite Hm in Him.
  by apply not_elem_of_nil in Him.
Qed.

Lemma plan_data_rows m X plan i :
  decode_matrix plan = Some m → rep m d d X → inverse_of d (selected_rows M V) X →
  valid_indices (plan_shape plan) = V → i < d →
  ∃ c, data_row plan i = Ok (tabulate d c) ∧
    ∀ z, bsum d (λ j, c j * row_dot d (selected_rows M (valid_indices (plan_shape plan))) z j)
         = z i.
Proof.
  intros Hm Hrep HX HV Hi. unfold data_row, plan_inverse. rewrite Hm. cbn [or_panic obind].
  rewrite (get_row_ok _ _ _ _ Hrep) by done. eexists. split; [done|]. intros z. rewrite HV.
  by apply (inverse_decodes _ _ _ HX).
Qed.

(** Ordinary parity rows come from the encoding matrix. *)
Lemma plan_ordinary_rows plan k i :
  direct_parity plan = false → i < n →
  ∃ c, parity_row self plan k i = Ok (tabulate d c) ∧
    ∀ z, bsum d (λ j, c j * (if direct_parity plan
           then row_dot d (selected_rows M (valid_indices (plan_shape plan))) z j
           else z j)) = row_dot d M z i.
Proof.
  intros Hdir Hi. unfold parity_row. rewrite Hdir.
  pose proof (cc_rep _ _ Hc) as Hrep. rewrite <-Hn in Hrep.
  rewrite (get_row_ok _ _ _ _ Hrep) by done. by eexists.
Qed.

(** Composed rows read the survivors. *)
Lemma plan_composed_rows Q X plan k i :
  V = filter (λ i, present i = true) (seq 0 d) ++ Q → (length (filter (λ i, present i = true) (seq 0 d)) + length Q)%nat = d →
  (∀ q, q ∈ Q → d ≤ q) → inverse_of d (selected_rows M V) X →
  valid_indices (plan_shape plan) = V → direct_parity plan = true →
  parity_decode_rows plan !! k = Some (tabulate d (composed M X d present Q i)) →
  ∃ c, parity_row self plan k i = Ok (tabulate d c) ∧
    ∀ z, bsum d (λ j, c j * (if direct_parity plan
           then row_dot d (selected_rows M (valid_indices (plan_shape plan))) z j
           else z j)) = row_dot d M z i.
Proof.
  intros HV Hlq HQ HX HVp Hdir Hrow. unfold parity_row. rewrite Hdir, (index_ok _ _ _ Hrow).
  eexists. split; [done|]. intros z. rewrite HVp, HV.
  apply composed_correct; try done; [apply (cc_systematic _ _ Hc)|].
  rewrite <-HV. by apply inverse_decodes.
Qed.

Context (Hvalid : valid_indices shape = V) (Henough : length V = d).

Lemma direct_parity_cases plan : direct_parity plan = true ∨ direct_parity plan = false.
Proof. destruct (direct_parity plan); auto. Qed.

Lemma plan_for_intro plan :
  targeted self shape goal plan →
  (∀ i, i ∈ DT → ∃ m X, decode_matrix plan = Some m ∧ rep m d d X ∧
     inverse_of d (selected_rows M V) X) →
  (direct_parity plan = true → ∃ Q X,
     V = filter (λ i, present i = true) (seq 0 d) ++ Q ∧
     (length (filter (λ i, present i = true) (seq 0 d)) + length Q)%nat = d ∧
     (∀ q, q ∈ Q → d ≤ q) ∧ inverse_of d (selected_rows M V) X ∧
     parity_decode_rows plan = map (λ i, tabulate d (composed M X d present Q i)) PT) →
  (direct_parity plan = false → PT ≠ [] → DT = missing) →
  plan_for self M present len DT PT plan.
Proof.
  intros Ht Hdata Hpar Hord. pose proof Ht as (Hsh & _).
  destruct (targeted_targets _ _ _ _ Hinvalid Hdn plan Ht) as (H1 & H2 & _).
  destruct targets_bounds as (Hs & HbD & HbP).
  split; try done; try (by rewrite Hsh).
  - intros i Hi. destruct (Hdata i Hi) as (m & X & Hm & Hrep & HX).
    eapply plan_data_rows; [exact Hm|exact Hrep|exact HX|by rewrite Hsh|by apply HbD].
  - intros k i Hi. pose proof (list_elem_of_lookup_2 _ _ _ Hi) as Hin.
    destruct (direct_parity_cases plan) as [Hdir|Hdir].
    + destruct (Hpar Hdir) as (Q & X & HV & Hl & HQ & HX & Hrows).
      eapply plan_composed_rows; [exact HV|exact Hl|exact HQ|exact HX|by rewrite Hsh|done|].
      rewrite Hrows, lookup_map, Hi. done.
    + apply plan_ordinary_rows; [done|]. by apply HbP.
Qed.

(** All of the missing data is a target when ordinary parity is wanted. *)
Lemma ordinary_targets :
  missing = [] ∨ match goal with GoalRequired _ => False | _ => True end → PT ≠ [] → DT = missing.
Proof.
  intros Hcase HPT. unfold targets_in. rewrite Nat.sub_0_r. apply filter_ext_elem.
  intros i Hi. destruct goal as [| |required]; simpl; [tauto| |].
  - apply elem_of_seq in Hi. rewrite bool_decide_eq_true_2 by lia. tauto.
  - destruct Hcase as [Hm|[]]. assert (present i ≠ false); [|tauto]. intros Hp.
    assert (i ∈ missing) as Him by (by apply list_elem_of_filter). rewrite Hm in Him.
    by apply not_elem_of_nil in Him.
Qed.

(** What can fail. *)
Definition plan_error (e : Error) : Prop :=
  e = InvalidCustomMatrix ∧ missing ≠ [] ∧ (DT ≠ [] ∨ PT ≠ []) ∧
  ¬ nonsingular d d (selected_rows M V).

(** The step after the inverse is known. *)
Definition finish_plan (inverse : option (Matrix Elem)) : outcome Error ClassicReconstructPlan :=
  let '(selected, count) := select_targets self shape goal in
  if match goal with GoalRequired _ => true | _ => false end
     && bool_decide (missing ≠ []) && bool_decide (PT ≠ []) then
    let! m := or_panic inverse in
    let! rows := map_outcome (compose_row self (valid_indices shape) missing m) PT in
    Ok (mk_plan shape selected count (match goal with GoalData => true | _ => false end)
          true inverse rows)
  else Ok (mk_plan shape selected count (match goal with GoalData => true | _ => false end)
             false inverse []).

Lemma finish_plan_ok inverse :
  (missing ≠ [] → DT ≠ [] ∨ PT ≠ [] → ∃ m X, inverse = Some m ∧ rep m d d X ∧
     inverse_of d (selected_rows M V) X) →
  ensures (finish_plan inverse) (plan_for self M present len DT PT) (λ _, False).
Proof.
  intros Hinv. unfold finish_plan.
  destruct (select_targets self shape goal) as [selected count] eqn:Hsel.
  destruct (_ && _ && _) eqn:Hdir.
  - apply andb_true_iff in Hdir as [[Hg Hm%bool_decide_eq_true]%andb_true_iff
      HP%bool_decide_eq_true].
    destruct (Hinv Hm (or_intror HP)) as (m & X & -> & Hrep & HX). cbn [or_panic obind].
    destruct (valid_split d n present Hdn Henough) as (Q & HV & Hl & _ & HQ).
    rewrite Hvalid. rewrite HV at 1.
    rewrite (map_outcome_all _ (λ i, tabulate d (composed M X d present Q i))).
    2:{ intros i Hi. pose proof (cc_rep _ _ Hc) as HrepM. rewrite <-Hn in HrepM.
        apply compose_row_ok; try done. by apply targets_bounds. }
    cbn [obind ensures]. apply plan_for_intro; [|..]; cbn [direct_parity decode_matrix]; [|eauto| |done].
    + unfold targeted. cbn. by rewrite Hsel.
    + intros _. exists Q, X. done.
  - cbn [ensures]. apply plan_for_intro; cbn [direct_parity decode_matrix]; [| |done|].
    + unfold targeted. cbn. by rewrite Hsel.
    + intros i Hi. assert (DT ≠ []) as HD by (by intros HD; rewrite HD in Hi; apply not_elem_of_nil in Hi).
      by apply Hinv; [apply data_targets_missing|left].
    + intros _ HP. apply ordinary_targets; [|done].
      rewrite (bool_decide_eq_true_2 (PT ≠ [])), andb_true_r in Hdir by done.
      destruct (decide (missing = [])) as [Hm|Hm]; [by left|right].
      rewrite bool_decide_eq_true_2, andb_true_r in Hdir by done. by destruct goal.
Qed.

Context (Hpresent : d ≤ number_present shape) (Hflags : goal_flags_ok self goal = true).

Definition needs_inverse : bool :=
  bool_decide (missing ≠ []) && (bool_decide (DT ≠ []) || bool_decide (PT ≠ [])).

Lemma fill_plan_finish c r :
  (if needs_inverse then
     let '(self', r) :=
       get_data_decode_matrix self (valid_indices shape) (invalid_indices shape) in
     (self', let! m := r in Ok (Some m))
   else (self, Ok None)) = (set_cache self c, r) →
  fill_classic_reconstruct_plan self (plan_new shape goal) goal
  = (set_cache self c, let! inverse := r in finish_plan inverse).
Proof.
  intros Hget. unfold fill_classic_reconstruct_plan. cbn [plan_new plan_shape data_only direct_parity
    decode_matrix parity_decode_rows]. rewrite decide_False by lia. rewrite Hflags. cbn [negb].
  rewrite missing_data_eq.
  destruct (select_targets self shape goal) as [selected count] eqn:Hsel.
  set (plan := mk_plan _ _ _ _ _ _ _).
  assert (targeted self shape goal plan) as Ht by (unfold targeted; cbn; by rewrite Hsel).
  destruct (targeted_targets _ _ _ _ Hinvalid Hdn plan Ht) as (H1 & H2 & H3).
  rewrite H1, H2. cbn [obind]. fold needs_inverse. rewrite Hget.
  f_equal. destruct r as [inverse| |]; [|done..]. cbn [obind]. unfold finish_plan.
  rewrite Hsel. destruct (_ && _ && _) eqn:Hdir; [|done].
  destruct inverse as [m|]; [|done]. cbn [or_panic obind]. rewrite <-H3; [done|].
  by destruct goal.
Qed.

(** The plan, whatever the cache holds. *)
Definition plan_result : outcome Error ClassicReconstructPlan :=
  let! inverse :=
    if needs_inverse then let! m := build_data_decode_matrix self V in Ok (Some m) else Ok None in
  finish_plan inverse.

Lemma fill_plan_result :
  0 < d → cache_valid self →
  ∃ c, fill_classic_reconstruct_plan self (plan_new shape goal) goal
       = (set_cache self c, plan_result) ∧ cache_valid (set_cache self c).
Proof.
  intros Hd Hcache. pose proof fill_plan_finish as Hfinish. unfold plan_result.
  destruct needs_inverse.
  - rewrite Hvalid, Hinvalid in Hfinish.
    destruct (get_decode_spec self n d present eq_refl eq_refl Hd Hcache Henough)
      as (c & Hget & Hcache').
    rewrite Hget in Hfinish. exists c. split; [by apply Hfinish|done].
  - exists (rs_cache self). split; [|by destruct self].
    apply (Hfinish (rs_cache self) (Ok None)). by destruct self.
Qed.

Lemma plan_result_ensures :
  ensures plan_result (plan_for self M present len DT PT) plan_error.
Proof.
  unfold plan_result, needs_inverse. destruct (bool_decide (missing ≠ []) && _) eqn:Hneed.
  - apply andb_true_iff in Hneed as [Hm%bool_decide_eq_true Hout%orb_true_iff].
    assert (DT ≠ [] ∨ PT ≠ []) as Hout'.
    { by destruct Hout as [Ho%bool_decide_eq_true|Ho%bool_decide_eq_true]; [left|right]. }
    pose proof (build_decode_ensures self M V Hc) as Hb. rewrite <-Hn in Hb.
    specialize (Hb (valid_of_survivors n d present Henough)).
    destruct (build_data_decode_matrix self V) as [m|e|]; cbn [obind]; [| |done].
    + destruct Hb as (X & Hrep & HX). eapply ensures_weaken; [apply finish_plan_ok|done].
      intros _ _. by exists m, X.
    + destruct Hb as [-> Hs]. done.
  - cbn [obind]. eapply ensures_weaken; [apply finish_plan_ok|done]. intros Hm Hout.
    rewrite bool_decide_eq_true_2 in Hneed by done. apply orb_false_iff in Hneed as [H1 H2].
    apply bool_decide_eq_false in H1, H2. tauto.
Qed.

Lemma fill_plan_spec :
  0 < d → cache_valid self →
  ∃ c r, fill_classic_reconstruct_plan self (plan_new shape goal) goal = (set_cache self c, r) ∧
    cache_valid (set_cache self c) ∧
    ensures r (plan_for self M present len DT PT) plan_error.
Proof.
  intros Hd Hcache. destruct (fill_plan_result Hd Hcache) as (c & H1 & H2).
  exists c, plan_result. split_and!; [done|done|apply plan_result_ensures].
Qed.
End filled.

(** ** Checking the layout of a reused plan *)
Section layout.
Context {F : Field} {RT : Runtime} {St : Storage Elem}
  {L : LruCache (list nat) (CachedMatrix Elem)}.
Context (self : ReedSolomon) (lens : list (option nat)) (expected : ClassicReconstructShape).
Context (Hsorted : StronglySorted lt (invalid_indices expected)).
#[local] Abbreviation inv := (invalid_indices expected).
#[local] Abbreviation p := (present_at lens).

(** The first [k] shards are present where the plan expects them. *)
Definition matches (k : nat) : Prop := ∀ i, i < k → p i = true ↔ i ∉ inv.

Definition layout_at (k : nat) (s : ClassicShardLengths * list nat * bool) : Prop :=
  let '(state, missing, same) := s in
  state_at lens k state ∧ missing = drop (cut inv k) inv ∧ (same = true ↔ matches k).

Lemma head_missing k : bool_decide (head (drop (cut inv k) inv) = Some k) = bool_decide (k ∈ inv).
Proof.
  destruct (decide (k ∈ inv)) as [Hk|Hk].
  - destruct (drop_cut_in inv k Hsorted Hk) as [-> _]. by rewrite !bool_decide_eq_true_2.
  - rewrite !bool_decide_eq_false_2; [done|done|by apply head_cut_out].
Qed.

Lemma matches_succ k : matches (Datatypes.S k) ↔ matches k ∧ (p k = true ↔ k ∉ inv).
Proof.
  unfold matches. split.
  - intros H. split; [intros i Hi; apply H; lia|apply H; lia].
  - intros [H1 H2] i Hi. destruct (decide (i = k)) as [->|]; [done|]. apply H1. lia.
Qed.

Lemma layout_ensures :
  length lens = total_shard_count self →
  ensures (validate_classic_plan_layout self lens expected)
    (λ _, lengths_ok lens (shape_shard_len expected) ∧ matches (length lens))
    (λ e, lengths_bad lens e ∨ (e = InvalidShardFlags ∧ ¬ matches (length lens)) ∨
       (e = IncorrectShardSize ∧ matches (length lens) ∧ ∃ len, lengths_ok lens len ∧
          (len = 0%nat → count_present lens = 0%nat) ∧ len ≠ shape_shard_len expected)).
Proof.
  intros Hl. unfold validate_classic_plan_layout. rewrite shape_count_error, Hl, Nat.compare_refl.
  cbn [obind]. rewrite <-Hl. eapply ensures_bind.
  { apply (for_each_post _ _ layout_at (layout_at (length lens))
      (λ e, lengths_bad lens e ∨ (e = InvalidShardFlags ∧ ¬ matches (length lens)) ∨
       (e = IncorrectShardSize ∧ matches (length lens) ∧ ∃ len, lengths_ok lens len ∧
          (len = 0%nat → count_present lens = 0%nat) ∧ len ≠ shape_shard_len expected))).
    - split; [|split; [by rewrite cut_0|split; [intros _ i Hi; lia|done]]].
      split; [intros; lia|split; [done|]]. intros H. exfalso. by apply H.
    - intros k [idx l] [[state missing] same] Hk (H1 & -> & H3).
      rewrite list_lookup_imap in Hk. destruct (lens !! k) as [l'|] eqn:Hlk; [|done].
      injection Hk as <- ->. eapply ensures_bind.
      { eapply ensures_mono; [by apply (observe_ensures lens k)|done|intros e He; by left]. }
      intros [present state'] [-> Hst]. rewrite head_missing. split_and!; [done| |].
      + case_bool_decide as Hin.
        * destruct (drop_cut_in inv k Hsorted Hin) as [-> _]. done.
        * by rewrite (cut_out inv) by done.
      + rewrite andb_true_iff, negb_true_iff, eqb_false_iff, matches_succ, H3.
        case_bool_decide; destruct (p k); intuition congruence.
    - intros s. by rewrite length_imap. }
  intros [[state missing] same] (H1 & _ & H3).
  destruct (state_lengths_ok lens state H1) as [Hok Hz]. destruct same; cbn [negb].
  - case_decide as Hne.
    + right. right. split_and!; [done|by apply H3|]. by exists (lengths_shard_len state).
    + cbn. rewrite <-Hne. split; [done|by apply H3].
  - right. left. split; [done|]. intros Hm. by apply H3 in Hm.
Qed.
End layout.
