(* ===== verification/Execute.v ===== *)
(** * Executing a reconstruction plan ([src/core/reconstruct.rs], lines 205-500)

    The serial executor for any shard container: it collects the survivors and
    destinations of the plan in one walk, computes and publishes each data output
    before touching the next destination, replaces the survivors by the
    recovered data where ordinary parity is to be encoded, and publishes the
    parity.  A destination that rejects its buffer stops the execution; the model
    returns the shards as they are at that point. *)

From Stdlib Require Import NArith Lia List Bool Ring Sorted.
From stdpp Require Import base numbers list.
From S2P Require Import Prelude Errors Fields LinAlg Matrix Options Leopard InversionCache.
From S2P Require Import Parallel Checks Codec Coding Encode Shards DecodeMatrix RecoveryPlan.

Local Open Scope field_scope.

Section execute.
Context {F : Field} {RT : Runtime} {St : Storage Elem}
  {L : LruCache (list nat) (CachedMatrix Elem)}.

(** One turn of the merge loop, which walks backwards: inputs, unread survivors,
    unused recovered shards. *)
Definition merge_step {E} (data_targets : list nat) (recovered_data : list (list Elem))
    (idx : nat) (state : list (list Elem) * nat * nat)
    : outcome E (list (list Elem) * nat * nat) :=
  let '(inputs, existing, recovered) := state in
  let! target :=
    if decide (recovered ≠ 0%nat) then
      let! t := index data_targets (recovered - 1)%nat in Ok (Some t)
    else Ok None in
  if decide (target = Some idx) then
    let recovered := (recovered - 1)%nat in
    let! view := index recovered_data recovered in
    let! inputs := update inputs idx view in
    Ok (inputs, existing, recovered)
  else
    if decide (existing = 0%nat) then Panic else
    let existing := (existing - 1)%nat in
    let! view := index inputs existing in
    let! inputs := update inputs idx view in
    Ok (inputs, existing, recovered).

Definition use_recovered_data {E} (inputs : list (list Elem)) (data_targets : list nat)
    (recovered_data : list (list Elem)) : outcome E (list (list Elem)) :=
  if decide (length inputs < length data_targets) then Panic else
  let! ' (inputs, _, _) :=
    for_each (rev (seq 0 (length inputs))) (merge_step data_targets recovered_data)
      (inputs, (length inputs - length data_targets)%nat, length data_targets) in
  Ok inputs.

(** What a coding callback computes for one output: stage, destination, row,
    inputs and the previous contents. *)
Definition compute_fn : Type :=
  bool → nat → list Elem → list (list Elem) → list Elem → outcome Error (list Elem).

Definition code_one
    (code : MatrixRows → list (list Elem) → list (list Elem) →
      outcome Error (list (list Elem)))
    (row : list Elem) (inputs : list (list Elem)) (output : list Elem)
    : outcome Error (list Elem) :=
  let! outputs := code (rows_of_slices [row]) inputs [output] in index outputs 0.

Definition compute_serial (self : ReedSolomon) : compute_fn := λ _ _ row inputs output,
  code_one (code_some_slices (data_shard_count self)) row inputs output.

(** [code_some_slices_with_policy_raw] *)
Definition code_some_slices_with_policy_raw (order : list task) (self : ReedSolomon)
    (rows : MatrixRows) (inputs outputs : list (list Elem)) (policy : ParallelPolicy)
    : outcome Error (list (list Elem)) :=
  let shard_len := match inputs with input :: _ => length input | [] => 0%nat end in
  if decide (shard_len = 0%nat) then Ok outputs else
  let decision := decide_for_elements policy (N.of_nat shard_len) size_of_elem
    (N.of_nat (data_shard_count self)) (N.of_nat (length outputs))
    (available_parallelism (rs_policy_cache self)) in
  if negb (use_parallel decision)
  then code_some_slices_chunked (data_shard_count self) rows inputs outputs
  else code_some_slices_par_chunked_with_jobs order (data_shard_count self) rows inputs outputs.

(** The callback of [reconstruct_with_workspace_par]; [orders] is the order of
    the chunk tasks at each destination. *)
Definition compute_par (orders : nat → list task) (self : ReedSolomon)
    (data_policy parity_policy : ParallelPolicy) : compute_fn :=
  λ data_stage dest row inputs output,
    code_one (λ rows inputs outputs,
      code_some_slices_with_policy_raw (orders dest) self rows inputs outputs
        (if data_stage then data_policy else parity_policy)) row inputs output.

Section containers.
Context {T : Type} {S : ReconstructShard T}.

Definition reconstruct_classic_output (destination : T) (shard_len : nat)
    (compute : list Elem → outcome Error (list Elem)) : T * outcome Error (list Elem) :=
  let '(destination, r) := get_or_initialize destination shard_len in
  match init_view r with
  | Ok output =>
      if decide (length output ≠ shard_len) then (destination, Err IncorrectShardSize) else
      match compute output with
      | Ok output => (shard_write destination output, Ok output)
      | Err e => (destination, Err e)
      | Panic => (destination, Panic)
      end
  | Err e => (destination, Err e)
  | Panic => (destination, Panic)
  end.

(** Survivors, data and parity targets left; inputs, destinations so far. *)
Record Bindings := mk_bindings {
  survivors_left : list nat;
  data_left : list nat;
  parity_left : list nat;
  bound_inputs : list (list Elem);
  data_destinations : list nat;
  parity_destinations : list nat;
}.

Definition bind_shard (len : nat) (b : Bindings) (idx : nat) (shard : T)
  : outcome Error Bindings :=
  if decide (head (survivors_left b) = Some idx) then
    let! input := ok_or (shard_get shard) TooFewShardsPresent in
    if decide (length input ≠ len) then Err IncorrectShardSize else
    Ok (mk_bindings (tail (survivors_left b)) (data_left b) (parity_left b)
      (bound_inputs b ++ [input]) (data_destinations b) (parity_destinations b))
  else if decide (head (data_left b) = Some idx) then
    Ok (mk_bindings (survivors_left b) (tail (data_left b)) (parity_left b)
      (bound_inputs b) (data_destinations b ++ [idx]) (parity_destinations b))
  else if decide (head (parity_left b) = Some idx) then
    Ok (mk_bindings (survivors_left b) (data_left b) (tail (parity_left b))
      (bound_inputs b) (data_destinations b) (parity_destinations b ++ [idx]))
  else Ok b.

Definition bind_shards (plan : ClassicReconstructPlan) (shards : list T)
  : outcome Error Bindings :=
  let! data := data_targets plan in
  let! parity := parity_targets plan in
  for_each (imap pair shards)
    (λ '(idx, shard) b, bind_shard (shape_shard_len (plan_shape plan)) b idx shard)
    (mk_bindings (valid_indices (plan_shape plan)) data parity [] [] []).

(** The lazy iterator over destinations and rows: the shards after it, and
    the outputs or the first error. *)
Fixpoint publish (len : nat) (compute : nat → list Elem → list Elem → outcome Error (list Elem))
    (jobs : list (nat * outcome Error (list Elem))) (shards : list T)
    : list T * outcome Error (list (list Elem)) :=
  match jobs with
  | [] => (shards, Ok [])
  | (dest, row) :: jobs =>
      match (let! row := row in let! s := index shards dest in Ok (row, s)) with
      | Err e => (shards, Err e)
      | Panic => (shards, Panic)
      | Ok (row, s) =>
          let '(s, r) := reconstruct_classic_output s len (compute dest row) in
          let shards := <[dest := s]> shards in
          match r with
          | Err e => (shards, Err e)
          | Panic => (shards, Panic)
          | Ok output =>
              let '(shards, rest) := publish len compute jobs shards in
              (shards, let! outputs := rest in Ok (output :: outputs))
          end
      end
  end.

(** [execute_classic_plan_with] *)
Definition execute_classic_plan_with (compute : compute_fn) (self : ReedSolomon)
    (shards : list T) (plan : ClassicReconstructPlan) : list T * outcome Error unit :=
  let len := shape_shard_len (plan_shape plan) in
  match
    (let! outputs := has_outputs plan in
     let! data := data_targets plan in
     let! parity := parity_targets plan in
     if negb outputs then Ok None else
     let! b := bind_shards plan shards in Ok (Some (b, data, parity)))
  with
  | Err e => (shards, Err e)
  | Panic => (shards, Panic)
  | Ok None => (shards, Ok tt)
  | Ok (Some (b, data, parity)) =>
      let inputs := bound_inputs b in
      match
        publish len (λ dest row output, compute true dest row inputs output)
          (zip (data_destinations b) (map (data_row plan) data)) shards
      with
      | (shards, Err e) => (shards, Err e)
      | (shards, Panic) => (shards, Panic)
      | (shards, Ok recovered) =>
          if decide (parity_destinations b = []) then (shards, Ok tt) else
          match
            (if negb (direct_parity plan) && bool_decide (recovered ≠ [])
             then use_recovered_data inputs data recovered else Ok inputs)
          with
          | Err e => (shards, Err e)
          | Panic => (shards, Panic)
          | Ok inputs =>
              let '(shards, r) :=
                publish len (λ dest row output, compute false dest row inputs output)
                  (zip (parity_destinations b)
                     (imap (λ i idx, parity_row self plan i idx) parity)) shards in
              (shards, let! _ := r in Ok tt)
          end
      end
  end.

Definition execute_classic_plan_serial (self : ReedSolomon) (shards : list T)
    (plan : ClassicReconstructPlan) : list T * outcome Error unit :=
  execute_classic_plan_with (compute_serial self) self shards plan.
End containers.
End execute.

(** ** Soundness of the steps *)
Section steps.
Context {F : Field} {FL : FieldLaws F} {RT : Runtime} {St : Storage Elem}
  {L : LruCache (list nat) (CachedMatrix Elem)}.
Context {T : Type} {S : ReconstructShard T} {SL : ShardLaws T S}.
Context (cw : list (list Elem)) (n len : nat) (Hcw : length cw = n) (Hall : all_len len cw).
Implicit Types (shards : list T).

(** Every present shard holds its shard of [cw]. *)
Definition holds shards : Prop :=
  length shards = n ∧
  ∀ i s x, shards !! i = Some s → shard_get s = Some x → cw !! i = Some x.

(** The shard [i] of [cw]. *)
Definition shard_at (i : nat) : list Elem := default [] (cw !! i).

Lemma lookup_shard_at i : i < n → cw !! i = Some (shard_at i) ∧ length (shard_at i) = len.
Proof.
  intros Hi. destruct (lookup_lt_is_Some_2 cw i) as [x Hx]; [lia|].
  unfold shard_at. rewrite Hx. split; [done|]. by eapply Forall_lookup_1 in Hall.
Qed.

(** ** Binding *)
Lemma bind_shards_ok plan shards V DT PT :
  holds shards → StronglySorted lt V → StronglySorted lt DT → StronglySorted lt PT →
  (∀ i, i ∈ V → (i ∉ DT) ∧ (i ∉ PT)) → (∀ i, i ∈ DT → i ∉ PT) →
  (∀ i, i ∈ V → ∃ s x, shards !! i = Some s ∧ shard_get s = Some x) →
  (∀ i, i ∈ DT → i < n) → (∀ i, i ∈ PT → i < n) →
  valid_indices (plan_shape plan) = V → shape_shard_len (plan_shape plan) = len →
  data_targets (E:=Error) plan = Ok DT → parity_targets (E:=Error) plan = Ok PT →
  bind_shards plan shards = Ok (mk_bindings [] [] [] (map shard_at V) DT PT).
Proof.
  intros [Hl Hh] HV HDT HPT Hdis1 Hdis2 Hpres HDn HPn Hplan Hlen Hdt Hpt.
  assert (∀ i, i ∈ V → i < n) as HVn.
  { intros i Hi. destruct (Hpres i Hi) as (s & x & Hs & _). apply lookup_lt_Some in Hs. lia. }
  unfold bind_shards. rewrite Hdt, Hpt, Hplan, Hlen. cbn [obind].
  apply ensures_exact. apply (for_each_post _ _ (λ i b, b = mk_bindings
    (drop (cut V i) V) (drop (cut DT i) DT) (drop (cut PT i) PT)
    (map shard_at (take (cut V i) V)) (take (cut DT i) DT) (take (cut PT i) PT))).
  - by rewrite !cut_0.
  - intros i x b Hx ->. rewrite list_lookup_imap in Hx.
    destruct (shards !! i) as [s|] eqn:Hs; [|done]. injection Hx as <-.
    unfold bind_shard. cbn [survivors_left data_left parity_left bound_inputs
      data_destinations parity_destinations].
    change (1 + i)%nat with (Datatypes.S i).
    destruct (decide (i ∈ V)) as [HiV|HiV].
    + destruct (Hdis1 i HiV) as [HiD HiP].
      rewrite (cut_out DT), (cut_out PT) by done.
      destruct (drop_cut_in V i HV HiV) as [-> ->].
      rewrite decide_True by done. destruct (Hpres i HiV) as (s' & y & Hs' & Hy).
      rewrite Hs in Hs'. injection Hs' as <-. rewrite Hy. cbn [ok_or obind].
      pose proof (Hh i s y Hs Hy) as Hcwi.
      rewrite decide_False by (intros Hne; apply Hne; by eapply Forall_lookup_1 in Hall).
      simpl. f_equal. rewrite map_app. simpl. unfold shard_at at 3. by rewrite Hcwi.
    + rewrite (decide_False (P := head _ = Some i)) by (by apply head_cut_out).
      rewrite (cut_out V) by done.
      destruct (decide (i ∈ DT)) as [HiD|HiD].
      * rewrite (cut_out PT) by (done || by apply Hdis2).
        destruct (drop_cut_in DT i HDT HiD) as [-> ->]. by rewrite decide_True.
      * rewrite (decide_False (P := head _ = Some i)) by (by apply head_cut_out).
        rewrite (cut_out DT) by done.
        destruct (decide (i ∈ PT)) as [HiP|HiP].
        -- destruct (drop_cut_in PT i HPT HiP) as [-> ->]. by rewrite decide_True.
        -- rewrite (decide_False (P := head _ = Some i)) by (by apply head_cut_out).
           by rewrite (cut_out PT).
  - intros b ->. rewrite length_imap, Hl.
    rewrite (cut_all V n), (cut_all DT n), (cut_all PT n) by done.
    by rewrite !drop_ge, !take_ge by done.
Qed.

(** ** Publishing *)
Definition rejects shards (dests : list nat) (e : Error) : Prop :=
  ∃ i s s', i ∈ dests ∧ shards !! i = Some s ∧ get_or_initialize s len = (s', Rejected e).

Lemma output_sound s i compute :
  shard_get s = None → i < n →
  (∀ out, length out = len → compute out = Ok (shard_at i)) →
  let '(s', r) := reconstruct_classic_output s len compute in
  match r with
  | Ok out => out = shard_at i ∧ shard_get s' = Some out
  | Err e => shard_get s' = None ∧ ∃ s'', get_or_initialize s len = (s'', Rejected e)
  | Panic => False
  end.
Proof.
  intros Hs Hi Hc. destruct (lookup_shard_at i Hi) as [_ Hil].
  unfold reconstruct_classic_output. destruct (get_or_initialize s len) as [s' r] eqn:Hg.
  destruct r as [v|v|e]; cbn [init_view].
  - pose proof (init_existing _ _ _ _ Hg) as H. congruence.
  - pose proof (init_length _ _ _ _ Hg) as Hv. rewrite decide_False by auto.
    rewrite Hc by done. split; [done|].
    apply (init_write s s' len (Initialized v) v); [done|done|congruence].
  - split; [|by exists s']. rewrite (init_rejected _ _ _ _ Hg). done.
Qed.

Lemma publish_sound compute jobs shards :
  holds shards → NoDup (map fst jobs) →
  (∀ k i row, jobs !! k = Some (i, row) →
     (∃ s, shards !! i = Some s ∧ shard_get s = None) ∧
     ∃ c, row = Ok c ∧ ∀ out, length out = len → compute i c out = Ok (shard_at i)) →
  let '(shards', r) := publish len compute jobs shards in
  holds shards' ∧ (∀ i, i ∉ map fst jobs → shards' !! i = shards !! i) ∧
  match r with
  | Ok outs => outs = map shard_at (map fst jobs) ∧
      ∀ i, i ∈ map fst jobs → ∃ s, shards' !! i = Some s ∧ shard_get s = Some (shard_at i)
  | Err e => rejects shards (map fst jobs) e
  | Panic => False
  end.
Proof.
  revert shards. induction jobs as [|[i row] jobs IH]; intros shards Hh Hnd Hjobs.
  { simpl. split_and!; [done|done|done|]. by intros i ?%not_elem_of_nil. }
  cbn [map fst] in *. apply NoDup_cons in Hnd as [Hni Hnd].
  destruct (Hjobs 0%nat i row eq_refl) as [(s & Hs & Hsn) (c & -> & Hc)].
  pose proof Hh as [Hl Hh']. pose proof (lookup_lt_Some _ _ _ Hs) as Hi. rewrite Hl in Hi.
  cbn [publish obind]. rewrite (index_ok _ _ _ Hs). cbn [obind].
  pose proof (output_sound s i (compute i c) Hsn Hi Hc) as Ho.
  destruct (reconstruct_classic_output s len (compute i c)) as [s' r].
  assert (∀ y, shard_get s' = Some y → cw !! i = Some y) as Hs'.
  { intros y Hy. destruct r as [out|e|]; [|by destruct Ho as [Ho _]; congruence|done].
    destruct Ho as [-> Ho]. rewrite Ho in Hy. injection Hy as <-. by apply lookup_shard_at. }
  assert (holds (<[i:=s']> shards)) as Hh1.
  { split; [by rewrite length_insert|]. intros j t y Hj Hy.
    destruct (decide (j = i)) as [->|Hne].
    - rewrite list_lookup_insert_eq in Hj by lia. injection Hj as <-. by apply Hs'.
    - rewrite list_lookup_insert_ne in Hj by done. by eapply Hh'. }
  destruct r as [out|e|]; [|split_and!; [done| |]|done].
  - destruct Ho as [-> Ho]. specialize (IH (<[i:=s']> shards) Hh1 Hnd).
    destruct (publish len compute jobs (<[i:=s']> shards)) as [shards' r].
    destruct IH as (I1 & I2 & I3).
    { intros k j row Hk. destruct (Hjobs (Datatypes.S k) j row Hk) as [(t & Ht & Htn) H2].
      assert (j ≠ i) as Hne.
      { intros ->. apply Hni. apply list_elem_of_lookup. exists k. rewrite lookup_map.
        by rewrite Hk. }
      split; [|done]. exists t. by rewrite list_lookup_insert_ne. }
    split_and!; [done| |].
    + intros j Hj. rewrite not_elem_of_cons in Hj. destruct Hj as [Hj1 Hj2].
      rewrite I2 by done. by rewrite list_lookup_insert_ne.
    + destruct r as [outs|e|]; cbn [obind]; [|..|done].
      * destruct I3 as [-> I3]. split; [done|]. intros j [->|Hj]%elem_of_cons; [|by apply I3].
        exists s'. rewrite I2 by done. by rewrite list_lookup_insert_eq by lia.
      * destruct I3 as (j & t & t' & Hj & Ht & Hrej). exists j, t, t'.
        assert (j ≠ i) by (by intros ->). rewrite list_lookup_insert_ne in Ht by done.
        split_and!; [by right|done|done].
  - intros j Hj. rewrite not_elem_of_cons in Hj. destruct Hj as [Hj _].
    by rewrite list_lookup_insert_ne.
  - destruct Ho as [_ [s'' Hr]]. exists i, s, s''. split_and!; [left|done|done].
Qed.

(** ** Replacing survivors by recovered data *)
Section merge.
Context (d : nat) (K Q U : list nat).
Context (HK : StronglySorted lt K) (HU : StronglySorted lt U).
Context (Hperm : ∀ i, i < d ↔ i ∈ K ∨ i ∈ U) (Hdis : ∀ i, i ∈ K → i ∉ U).
Context (HKQ : (length K + length Q)%nat = d) (HUQ : length U = length Q) (Hdn : d ≤ n).

(** Entries at and above [b] are merged, the known prefix is unread. *)
Definition merge_inv (b : nat) (state : list (list Elem) * nat * nat) : Prop :=
  let '(inputs, existing, recovered) := state in
  length inputs = d ∧ existing = cut K b ∧ recovered = cut U b ∧
  (∀ j, b ≤ j → j < d → inputs !! j = Some (shard_at j)) ∧
  (∀ j k, j < existing → K !! j = Some k → inputs !! j = Some (shard_at k)).

Lemma cut_sum b : b ≤ d → (cut K b + cut U b)%nat = b.
Proof.
  induction b as [|b IH]; intros Hb; [by rewrite !cut_0|].
  specialize (IH ltac:(lia)). destruct (proj1 (Hperm b)) as [Hin|Hin]; [lia| |].
  - rewrite (cut_out U) by (done || by apply Hdis).
    rewrite (proj2 (cut_in K b HK Hin)). lia.
  - assert (b ∉ K) by (intros HbK; by apply (Hdis b HbK)).
    rewrite (cut_out K) by done. rewrite (proj2 (cut_in U b HU Hin)). lia.
Qed.

(** The last unused target is the current index exactly if it is missing. *)
Lemma merge_target b :
  b < d →
  (let! t := if decide (cut U (Datatypes.S b) ≠ 0%nat)
             then let! t := index U (cut U (Datatypes.S b) - 1)%nat in Ok (Some t)
             else Ok None in Ok (bool_decide (t = Some b)))
  = Ok (E:=Error) (bool_decide (b ∈ U)).
Proof.
  intros Hb. destruct (decide (b ∈ U)) as [Hin|Hout].
  - destruct (cut_in U b HU Hin) as [H1 H2]. rewrite H2, decide_True by lia.
    replace (Datatypes.S (cut U b) - 1)%nat with (cut U b) by lia.
    rewrite (index_ok _ _ _ H1). cbn [obind]. by rewrite !bool_decide_eq_true_2.
  - rewrite (bool_decide_eq_false_2 (b ∈ U)) by done. case_decide as Hr.
    + destruct (lookup_lt_is_Some_2 U (cut U (Datatypes.S b) - 1)) as [t Ht].
      { pose proof (cut_le U (Datatypes.S b)). lia. }
      rewrite (index_ok _ _ _ Ht). cbn [obind]. rewrite bool_decide_eq_false_2; [done|].
      intros [= ->]. apply Hout. by eapply list_elem_of_lookup_2.
    + cbn [obind]. by rewrite bool_decide_eq_false_2.
Qed.

Lemma merge_step_inv b state :
  b < d → merge_inv (Datatypes.S b) state →
  ensures (merge_step (E:=Error) U (map shard_at U) b state) (merge_inv b) (λ _, False).
Proof.
  destruct state as [[inputs existing] recovered]. intros Hb (I1 & -> & -> & I4 & I5).
  pose proof (cut_sum b ltac:(lia)) as Hsum. unfold merge_step.
  pose proof (merge_target b Hb) as Ht.
  destruct (if decide (cut U (Datatypes.S b) ≠ 0%nat) then _ else _) as [t| |];
    cbn [obind] in *; [|done..]. injection Ht as Ht.
  assert (∀ f : list Elem → list (list Elem), ∀ x, f = (λ x, <[b:=x]> inputs) → x = shard_at b →
    ∀ j, b ≤ j → j < d → f x !! j = Some (shard_at j)) as Hupd.
  { intros f x -> -> j Hj1 Hj2. destruct (decide (j = b)) as [->|Hne].
    - by rewrite list_lookup_insert_eq by lia.
    - rewrite list_lookup_insert_ne by done. apply I4; lia. }
  destruct (decide (b ∈ U)) as [Hin|Hout].
  - rewrite (bool_decide_eq_true_2 (b ∈ U)) in Ht by done.
    apply bool_decide_eq_true in Ht. rewrite decide_True by done.
    destruct (cut_in U b HU Hin) as [H1 H2]. rewrite H2.
    replace (Datatypes.S (cut U b) - 1)%nat with (cut U b) by lia.
    rewrite (index_ok _ _ (shard_at b)) by (rewrite lookup_map; by rewrite H1).
    cbn [obind]. rewrite update_ok by lia.
    assert (b ∉ K) as HbK by (intros HbK; by apply (Hdis b HbK)).
    rewrite (cut_out K) in * by done.
    simpl. split_and!; [by rewrite length_insert|done|done|by apply (Hupd _ _ eq_refl)|].
    intros j k Hj Hk. rewrite list_lookup_insert_ne by lia. by apply I5.
  - rewrite (bool_decide_eq_false_2 (b ∈ U)) in Ht by done.
    apply bool_decide_eq_false in Ht. rewrite decide_False by done.
    assert (b ∈ K) as HbK by (by destruct (proj1 (Hperm b) Hb)).
    destruct (cut_in K b HK HbK) as [H1 H2]. rewrite H2 in *. rewrite decide_False by lia.
    replace (Datatypes.S (cut K b) - 1)%nat with (cut K b) by lia.
    rewrite (index_ok inputs _ (shard_at b)) by (apply I5; [lia|done]).
    cbn [obind]. rewrite update_ok by lia. rewrite (cut_out U) in * by done.
    simpl. split_and!; [by rewrite length_insert|done|done|by apply (Hupd _ _ eq_refl)|].
    intros j k Hj Hk. rewrite list_lookup_insert_ne by lia. apply I5; [lia|done].
Qed.

Lemma use_recovered_ok :
  use_recovered_data (E:=Error) (map shard_at (K ++ Q)) U (map shard_at U)
  = Ok (map shard_at (seq 0 d)).
Proof.
  unfold use_recovered_data.
  assert (length (map shard_at (K ++ Q)) = d) as Hld by (rewrite length_map, length_app; lia).
  rewrite Hld, decide_False by lia. apply ensures_exact.
  eapply ensures_bind_safe.
  { apply (for_each_post _ _ (λ m, merge_inv (d - m)) (merge_inv 0)).
    - rewrite Nat.sub_0_r. unfold merge_inv.
      rewrite (cut_all K d) by (intros x Hx; apply Hperm; by left).
      rewrite (cut_all U d) by (intros x Hx; apply Hperm; by right).
      split_and!; [done|lia|done|intros; lia|]. intros j k Hj Hk.
      rewrite lookup_map, lookup_app_l by lia. by rewrite Hk.
    - intros m idx state Hm Hinv. apply lookup_rev_seq in Hm as [Hmd ->].
      apply merge_step_inv; [lia|].
      by replace (Datatypes.S (d - (1 + m))) with (d - m)%nat by lia.
    - intros s Hs. by rewrite length_rev, length_seq, Nat.sub_diag in Hs. }
  intros [[inputs e] r] (I1 & _ & _ & I4 & _). simpl.
  apply (eq_tabulate d shard_at); [done|]. intros i Hi. apply I4; lia.
Qed.
End merge.
End steps.

(** ** Executing a plan *)
Section execution.
Context {F : Field} {FL : FieldLaws F} {RT : Runtime} {St : Storage Elem}
  {L : LruCache (list nat) (CachedMatrix Elem)}.
Context {T : Type} {S : ReconstructShard T} {SL : ShardLaws T S}.
Add Ring elem_ring : field_ring_theory (morphism field_ring_morph, constants [field_const]).
Context (self : ReedSolomon) (M : nat → nat → Elem) (len : nat) (cw : list (list Elem)).
#[local] Abbreviation d := (data_shard_count self).
#[local] Abbreviation n := (total_shard_count self).
Context (Hsys : systematic d M) (Hd : 0 < d) (Hcw : codeword M d n len cw).
Context (present : nat → bool).
Implicit Types (shards : list T) (plan : ClassicReconstructPlan).

#[local] Abbreviation V := (valid_of n d present).
Context (Henough : length V = d).

(** The callback computes dot products. *)
Definition computes (compute : compute_fn) : Prop :=
  ∀ stage dest (c : nat → Elem) (y : nat → nat → Elem) out, length out = len →
    compute stage dest (tabulate d c) (tabulate d (λ i, tabulate len (y i))) out
    = Ok (tabulate len (λ j, bsum d (λ i, c i * y i j))).

(** Column [j] of the data. *)
Definition column (j : nat) : nat → Elem := λ c, shard_elem cw c j.

Lemma shard_at_row i :
  i < n → shard_at cw i = tabulate len (λ j, row_dot d M (column j) i).
Proof.
  destruct Hcw as [(H1 & H2 & H3) H4]. intros Hi.
  destruct (lookup_shard_at cw n len H1 H3 i Hi) as [Hl Hlen].
  apply eq_tabulate; [done|]. intros j Hj.
  destruct (lookup_lt_is_Some_2 (shard_at cw i) j) as [x Hx]; [lia|]. rewrite Hx. f_equal.
  unfold column. rewrite <-(H4 i j Hi Hj). unfold shard_elem. rewrite Hl. simpl. by rewrite Hx.
Qed.

Lemma shard_at_data i : i < d → d ≤ n → shard_at cw i = tabulate len (λ j, column j i).
Proof.
  intros Hi Hdn. rewrite shard_at_row by lia. apply tabulate_ext. intros j _.
  unfold row_dot. rewrite <-(bsum_delta_sym d i (column j)) by done.
  apply bsum_ext. intros c Hc. rewrite Hsys by done. ring.
Qed.

Lemma valid_in i : i ∈ V → i < n ∧ present i = true.
Proof.
  intros Hi%elem_take. apply list_elem_of_filter in Hi as [H1 H2].
  apply elem_of_seq in H2. split; [lia|done].
Qed.

Lemma survivor_inputs :
  map (shard_at cw) V
  = tabulate d (λ i, tabulate len (λ j, row_dot d (selected_rows M V) (column j) i)).
Proof.
  apply eq_tabulate; [by rewrite length_map|]. intros i Hi.
  rewrite lookup_map. rewrite (lookup_rows_at V i) by lia. simpl. f_equal.
  apply shard_at_row, valid_in, rows_at_elem. lia.
Qed.

Lemma data_inputs :
  d ≤ n →
  map (shard_at cw) (seq 0 d) = tabulate d (λ i, tabulate len (λ j, column j i)).
Proof.
  intros Hdn. apply eq_tabulate; [by rewrite length_map, length_seq|]. intros i Hi.
  rewrite lookup_map, lookup_seq_lt by done. simpl. f_equal. by apply shard_at_data.
Qed.

(** ** Jobs *)
Lemma fst_zip_map {A} (l : list nat) (k : list A) :
  length l = length k → map fst (zip l k) = l.
Proof.
  revert k. induction l as [|x l IH]; intros [|y k] Hl; try done. simpl. f_equal.
  apply IH. simpl in Hl. lia.
Qed.

Lemma lookup_jobs {A} (l : list nat) (k : list A) j i x :
  zip l k !! j = Some (i, x) → l !! j = Some i ∧ k !! j = Some x.
Proof.
  rewrite lookup_zip_with. destruct (l !! j), (k !! j); simpl; try done.
  by intros [= -> ->].
Qed.

(** The state of the containers before execution. *)
Definition pattern shards : Prop :=
  ∀ i s, shards !! i = Some s → shard_get s = None ↔ present i = false.

Section stages.
Context (compute : compute_fn) (plan : ClassicReconstructPlan) (DT PT : list nat).
Context (Hcompute : computes compute).
Context (Hplan : plan_for self M present len DT PT plan) (Hdn : d ≤ n).

(** The parity stage reads the survivors or all data. *)
Definition parity_inputs : list (list Elem) :=
  if direct_parity plan then map (shard_at cw) V else map (shard_at cw) (seq 0 d).

Lemma data_job i : i ∈ DT →
  ∃ c, data_row plan i = Ok c ∧ ∀ out, length out = len →
    compute true i c (map (shard_at cw) V) out = Ok (shard_at cw i).
Proof.
  intros Hi. destruct (pf_data_rows _ _ _ _ _ _ _ Hplan i Hi) as (c & Hrow & Hc).
  destruct (pf_data_bound _ _ _ _ _ _ _ Hplan i Hi) as [Hid _].
  rewrite (pf_valid _ _ _ _ _ _ _ Hplan) in Hc.
  eexists. split; [exact Hrow|]. intros out Hout.
  rewrite survivor_inputs, Hcompute, (shard_at_data i) by done. f_equal.
  apply tabulate_ext. intros j _. apply Hc.
Qed.

Lemma parity_job k i : PT !! k = Some i →
  ∃ c, parity_row self plan k i = Ok c ∧ ∀ out, length out = len →
    compute false i c parity_inputs out = Ok (shard_at cw i).
Proof.
  intros Hi. destruct (pf_parity_rows _ _ _ _ _ _ _ Hplan k i Hi) as (c & Hrow & Hc).
  destruct (pf_parity_bound _ _ _ _ _ _ _ Hplan i) as (_ & Hin & _);
    [by eapply list_elem_of_lookup_2|].
  rewrite (pf_valid _ _ _ _ _ _ _ Hplan) in Hc.
  eexists. split; [exact Hrow|]. intros out Hout. unfold parity_inputs.
  destruct (direct_parity plan).
  - rewrite survivor_inputs, Hcompute, (shard_at_row i) by done. f_equal.
    apply tabulate_ext. intros j _. apply Hc.
  - rewrite data_inputs, Hcompute, (shard_at_row i) by done. f_equal.
    apply tabulate_ext. intros j _. apply Hc.
Qed.

Lemma target_missing shards i :
  holds cw n shards → pattern shards → i ∈ DT ∨ i ∈ PT →
  ∃ s, shards !! i = Some s ∧ shard_get s = None.
Proof.
  intros [Hl _] Hpat Hi.
  assert (i < n ∧ present i = false) as [Hin Hpi].
  { destruct Hi as [Hi|Hi].
    - destruct (pf_data_bound _ _ _ _ _ _ _ Hplan i Hi). split; [lia|done].
    - destruct (pf_parity_bound _ _ _ _ _ _ _ Hplan i Hi) as (_ & ? & ?). done. }
  destruct (lookup_lt_is_Some_2 shards i) as [s Hs]; [lia|].
  exists s. split; [done|]. by apply (Hpat i s Hs).
Qed.

Lemma targets_disjoint i : i ∈ DT → i ∉ PT.
Proof.
  intros Hi Hp. destruct (pf_data_bound _ _ _ _ _ _ _ Hplan i Hi).
  destruct (pf_parity_bound _ _ _ _ _ _ _ Hplan i Hp). lia.
Qed.

Lemma bind_ok shards :
  holds cw n shards → pattern shards →
  bind_shards plan shards = Ok (mk_bindings [] [] [] (map (shard_at cw) V) DT PT).
Proof.
  intros Hh Hpat. pose proof Hcw as [(H1 & H2 & H3) _].
  destruct (pf_sorted _ _ _ _ _ _ _ Hplan) as [HsD HsP].
  apply (bind_shards_ok cw n len H1 H3); try done.
  - by apply valid_of_survivors.
  - intros i Hi. destruct (valid_in i Hi) as [_ Hpi]. split; intros Ht.
    + destruct (pf_data_bound _ _ _ _ _ _ _ Hplan i Ht). congruence.
    + destruct (pf_parity_bound _ _ _ _ _ _ _ Hplan i Ht) as (_ & _ & ?). congruence.
  - apply targets_disjoint.
  - intros i Hi. destruct (valid_in i Hi) as [Hin Hpi]. destruct Hh as [Hl _].
    destruct (lookup_lt_is_Some_2 shards i) as [s Hs]; [lia|].
    destruct (shard_get s) as [x|] eqn:Hx; [by exists s, x|].
    apply (Hpat i s Hs) in Hx. congruence.
  - intros i Hi. destruct (pf_data_bound _ _ _ _ _ _ _ Hplan i Hi). lia.
  - intros i Hi. by destruct (pf_parity_bound _ _ _ _ _ _ _ Hplan i Hi) as (_ & ? & _).
  - apply (pf_valid _ _ _ _ _ _ _ Hplan).
  - apply (pf_len _ _ _ _ _ _ _ Hplan).
  - apply (pf_data _ _ _ _ _ _ _ Hplan).
  - apply (pf_parity _ _ _ _ _ _ _ Hplan).
Qed.

(** After the data stage the inputs are those of the parity stage. *)
Lemma merged_inputs :
  PT ≠ [] →
  (if negb (direct_parity plan) && bool_decide (map (shard_at cw) DT ≠ [])
   then use_recovered_data (map (shard_at cw) V) DT (map (shard_at cw) DT)
   else Ok (map (shard_at cw) V)) = Ok (E:=Error) parity_inputs.
Proof.
  intros HPT. unfold parity_inputs. destruct (direct_parity plan) eqn:Hdir; [done|].
  cbn [negb andb]. rewrite (pf_ordinary _ _ _ _ _ _ _ Hplan Hdir HPT).
  destruct (valid_split d n present Hdn Henough) as (Q & HV & HKQ & HUQ & _). rewrite HV.
  set (K := filter (λ i, present i = true) (seq 0 d)) in *.
  set (U := filter (λ i, present i = false) (seq 0 d)) in *.
  assert (∀ i, i ∈ K ↔ present i = true ∧ i < d) as HK.
  { intros i. unfold K. rewrite list_elem_of_filter, elem_of_seq. intuition lia. }
  assert (∀ i, i ∈ U ↔ present i = false ∧ i < d) as HU.
  { intros i. unfold U. rewrite list_elem_of_filter, elem_of_seq. intuition lia. }
  pose proof Hcw as [(H1 & H2 & H3) _]. case_bool_decide as Hne.
  - apply (use_recovered_ok cw n H1 d K Q U); try done.
    + apply sorted_filter, sorted_seq.
    + apply sorted_filter, sorted_seq.
    + intros i. rewrite HK, HU. destruct (present i); intuition congruence.
    + intros i. rewrite HK, HU. intuition congruence.
  - assert (U = []) as HU0 by (by destruct U). rewrite HU0 in HUQ.
    destruct Q; [|done]. rewrite app_nil_r. do 2 f_equal. unfold K.
    rewrite (filter_ext_elem _ (λ _, True)).
    + clear. induction (seq 0 d) as [|x l IH]; [done|].
      rewrite filter_cons_True by done. by f_equal.
    + intros i Hi. apply elem_of_seq in Hi. split; [done|]. intros _.
      destruct (present i) eqn:Hp; [done|].
      assert (i ∈ U) as HiU by (apply HU; split; [done|lia]).
      rewrite HU0 in HiU. by apply not_elem_of_nil in HiU.
Qed.

(** What an execution leaves: every present shard is right, only targets
    changed, and an error names a destination that rejected its buffer. *)
Definition executed shards (result : list T * outcome Error unit) : Prop :=
  let '(shards', r) := result in
  holds cw n shards' ∧
  (∀ i, i ∉ DT → i ∉ PT → shards' !! i = shards !! i) ∧
  match r with
  | Ok _ => ∀ i, i ∈ DT ∨ i ∈ PT →
      ∃ s, shards' !! i = Some s ∧ shard_get s = Some (shard_at cw i)
  | Err e => rejects len shards (DT ++ PT) e
  | Panic => False
  end.

Lemma length_targets : length DT = length (map (data_row plan) DT) ∧
  length PT = length (imap (λ i idx, parity_row self plan i idx) PT).
Proof. by rewrite length_map, length_imap. Qed.

Lemma data_stage_sound shards :
  holds cw n shards → pattern shards →
  let '(shards', r) := publish len (λ dest row output,
      compute true dest row (map (shard_at cw) V) output)
    (zip DT (map (data_row plan) DT)) shards in
  holds cw n shards' ∧ (∀ i, i ∉ DT → shards' !! i = shards !! i) ∧
  match r with
  | Ok outs => outs = map (shard_at cw) DT ∧
      ∀ i, i ∈ DT → ∃ s, shards' !! i = Some s ∧ shard_get s = Some (shard_at cw i)
  | Err e => rejects len shards DT e
  | Panic => False
  end.
Proof.
  intros Hh Hpat. pose proof Hcw as [(H1 & H2 & H3) _].
  pose proof (publish_sound cw n len H1 H3 (λ dest row output,
    compute true dest row (map (shard_at cw) V) output)
    (zip DT (map (data_row plan) DT)) shards Hh) as H.
  rewrite fst_zip_map in H by apply length_targets. apply H.
  - apply sorted_nodup_lt. by apply (pf_sorted _ _ _ _ _ _ _ Hplan).
  - intros k i row Hk. apply lookup_jobs in Hk as [Hi Hrow].
    rewrite lookup_map, Hi in Hrow. injection Hrow as <-.
    apply list_elem_of_lookup_2 in Hi. split; [apply target_missing; auto|].
    destruct (data_job i Hi) as (c & -> & Hc). by exists c.
Qed.

Lemma parity_stage_sound shards :
  holds cw n shards → (∀ i, i ∈ PT → ∃ s, shards !! i = Some s ∧ shard_get s = None) →
  let '(shards', r) := publish len (λ dest row output,
      compute false dest row parity_inputs output)
    (zip PT (imap (λ i idx, parity_row self plan i idx) PT)) shards in
  holds cw n shards' ∧ (∀ i, i ∉ PT → shards' !! i = shards !! i) ∧
  match r with
  | Ok outs =>
      ∀ i, i ∈ PT → ∃ s, shards' !! i = Some s ∧ shard_get s = Some (shard_at cw i)
  | Err e => rejects len shards PT e
  | Panic => False
  end.
Proof.
  intros Hh Hmiss. pose proof Hcw as [(H1 & H2 & H3) _].
  pose proof (publish_sound cw n len H1 H3 (λ dest row output,
    compute false dest row parity_inputs output)
    (zip PT (imap (λ i idx, parity_row self plan i idx) PT)) shards Hh) as H.
  rewrite fst_zip_map in H by apply length_targets.
  destruct (publish _ _ _ _) as [shards' r]. destruct H as (I1 & I2 & I3).
  - apply sorted_nodup_lt. by apply (pf_sorted _ _ _ _ _ _ _ Hplan).
  - intros k i row Hk. apply lookup_jobs in Hk as [Hi Hrow].
    rewrite list_lookup_imap, Hi in Hrow. injection Hrow as <-.
    split; [apply Hmiss; by eapply list_elem_of_lookup_2|].
    destruct (parity_job k i Hi) as (c & -> & Hc). by exists c.
  - split_and!; [done|done|]. destruct r; [by destruct I3|done|done].
Qed.

Lemma has_outputs_ok :
  has_outputs (E:=Error) plan = Ok (bool_decide (DT ≠ [] ∨ PT ≠ [])).
Proof.
  unfold has_outputs. rewrite (pf_data _ _ _ _ _ _ _ Hplan). cbn [obind].
  rewrite (pf_parity _ _ _ _ _ _ _ Hplan).
  destruct DT; [|done]. destruct PT; done.
Qed.

Lemma execute_sound shards :
  holds cw n shards → pattern shards →
  executed shards (execute_classic_plan_with compute self shards plan).
Proof.
  intros Hh Hpat. unfold execute_classic_plan_with. rewrite has_outputs_ok.
  rewrite (pf_data _ _ _ _ _ _ _ Hplan), (pf_parity _ _ _ _ _ _ _ Hplan). cbn [obind].
  case_bool_decide as Hout; cbn [negb].
  2:{ split_and!; [done|done|]. intros i Hi. exfalso. apply Hout.
      destruct Hi as [Hi|Hi]; [left|right]; intros Hn; rewrite Hn in Hi;
      by apply not_elem_of_nil in Hi. }
  rewrite bind_ok by done. cbn [obind bound_inputs data_destinations parity_destinations].
  rewrite (pf_len _ _ _ _ _ _ _ Hplan).
  pose proof (data_stage_sound shards Hh Hpat) as Hdata.
  destruct (publish len _ (zip DT _) shards) as [s1 r1].
  destruct Hdata as (A1 & A2 & A3). destruct r1 as [outs|e|]; [|split_and!; [done| |]|done].
  2:{ intros i Hi _. by apply A2. }
  2:{ destruct A3 as (i & s & s' & Hi & ?). exists i, s, s'. rewrite elem_of_app. tauto. }
  destruct A3 as [-> A3]. case_decide as HPT.
  { split_and!; [done|intros; by apply A2|].
    intros i [Hi|Hi]; [by apply A3|]. rewrite HPT in Hi. by apply not_elem_of_nil in Hi. }
  rewrite merged_inputs by done.
  assert (∀ i, i ∈ PT → s1 !! i = shards !! i) as Hs1.
  { intros i Hi. apply A2. intros Hi2. by apply (targets_disjoint i Hi2). }
  pose proof (parity_stage_sound s1 A1) as Hpar.
  destruct (publish len _ (zip PT _) s1) as [s2 r2]. destruct Hpar as (B1 & B2 & B3).
  { intros i Hi. rewrite Hs1 by done. apply target_missing; auto. }
  destruct r2 as [outs|e|]; cbn [obind]; (split_and!; [done| |]); try done.
  - intros i Hi1 Hi2. rewrite B2 by done. by apply A2.
  - intros i [Hi|Hi]; [|by apply B3]. rewrite B2 by (by apply targets_disjoint). by apply A3.
  - intros i Hi1 Hi2. rewrite B2 by done. by apply A2.
  - destruct B3 as (i & s & s' & Hi & Hs & Hr). exists i, s, s'.
    rewrite elem_of_app, <-Hs1 by done. auto.
Qed.
End stages.
End execution.

(** ** The callbacks *)
Section callbacks.
Context {F : Field} {FL : FieldLaws F} {RT : Runtime} {St : Storage Elem}
  {L : LruCache (list nat) (CachedMatrix Elem)}.
Context (self : ReedSolomon) (len : nat) (Hd : 0 < data_shard_count self) (Hlen : 0 < len).

Lemma compute_serial_ok : computes self len (compute_serial self).
Proof.
  intros stage dest c y out Hout. unfold compute_serial, code_one.
  assert ([out] = tabulate 1 (λ _, tabulate len (λ j, default 0 (out !! j)))) as ->.
  { unfold tabulate at 1. simpl. f_equal. apply eq_tabulate; [done|]. intros j Hj.
    destruct (lookup_lt_is_Some_2 out j) as [x Hx]; [lia|]. by rewrite Hx. }
  rewrite (code_some_slices_ok _ 1 len (λ _, c)); [|done|done|].
  - done.
  - intros k Hk. replace k with 0%nat by lia. done.
Qed.

(** The parallel callback under any schedule of its chunk tasks. *)
Definition reconstruct_schedules (orders : nat → list task)
    (data_policy parity_policy : ParallelPolicy) : Prop :=
  ∀ (stage : bool) dest,
    let decision := decide_for_elements (if stage then data_policy else parity_policy)
      (N.of_nat len) size_of_elem (N.of_nat (data_shard_count self)) 1
      (available_parallelism (rs_policy_cache self)) in
    use_parallel decision = true →
    is_schedule (orders dest) (output_chunk_tasks [len] len
      (N.to_nat (chunk_len decision)) (N.to_nat (jobs decision))).

Lemma compute_par_ok orders dp pp :
  reconstruct_schedules orders dp pp → computes self len (compute_par orders self dp pp).
Proof.
  intros Hsch stage dest c y out Hout. unfold compute_par, code_one.
  assert ([out] = tabulate 1 (λ _, tabulate len (λ j, default 0 (out !! j)))) as ->.
  { unfold tabulate at 1. simpl. f_equal. apply eq_tabulate; [done|]. intros j Hj.
    destruct (lookup_lt_is_Some_2 out j) as [x Hx]; [lia|]. by rewrite Hx. }
  unfold code_some_slices_with_policy_raw.
  assert (match tabulate (data_shard_count self) (λ i, tabulate len (y i)) with
          | [] => 0%nat | input :: _ => length input end = len) as ->.
  { destruct (data_shard_count self) as [|d]; [lia|]. unfold tabulate at 1. simpl.
    apply length_tabulate. }
  rewrite decide_False by lia. rewrite length_tabulate.
  assert (∀ k, k < 1 → rows_row (rows_of_slices [tabulate (data_shard_count self) c]) k
    = Ok (tabulate (data_shard_count self) c)) as Hrows.
  { intros k Hk. by replace k with 0%nat by lia. }
  destruct (use_parallel _) eqn:Hup; cbn [negb].
  - rewrite (code_some_slices_par_ok (orders dest) _ 1 len (λ _, c)
      _ _ _ _ _ Hd Hlen (Hsch stage dest Hup) Hrows). done.
  - change code_some_slices_chunked with code_some_slices.
    by rewrite (code_some_slices_ok _ 1 len (λ _, c)).
Qed.
End callbacks.
