(* ===== verification/LeopardReconstruct.v ===== *)
(** * Reconstruction through the Leopard engines
    ([src/core/reconstruct.rs], lines 17-35 and 793-1060, and [reconstruct/packed.rs])

    The adapter between shard containers and the FFT decoders: it validates
    every shard, stages the requested outputs privately, decodes, and
    publishes.  A build for x86-64 picks one of three staging layouts by
    size: one fixed scratch cut into a chunk per shard, the same scratch cut into
    a chunk per requested shard with overflow buffers, and a heap buffer per
    requested shard.  The decoders are the class [LeopardDecoders].

    The theorems: the three layouts are observably the same, the validation
    returns the code's errors in its order, and nothing is written unless decoding
    succeeded. *)

From Stdlib Require Import NArith Lia List Bool.
From Stdlib Require Import Init.Byte.
From stdpp Require Import base numbers list.
From S2P Require Import Prelude Errors Fields LinAlg Matrix Options Leopard InversionCache.
From S2P Require Import Checks Codec Shards DecodeMatrix RecoveryPlan.

(** The decoder entry points: present flags, output views, inputs, data and
    parity counts; the new contents of the outputs.  The GF(2^16) decoder also takes
    the job limit. *)
Definition decode_fn : Type :=
  list bool → list (list byte) → list (option (list byte)) → nat → nat →
  outcome Error (list (list byte)).

Class LeopardDecoders := {
  reconstruct_with_tables : decode_fn;
  leopard_gf16_reconstruct : N → decode_fn;
}.

(** [chunks_exact(len)] *)
Definition chunks_exact {A} (len : nat) (l : list A) : list (list A) :=
  tabulate (length l / len) (λ k, take len (drop (k * len) l)).

(** A decoder writes through [&mut [&mut [u8]]]: the views keep their lengths. *)
Definition keeps_views (decode : decode_fn) : Prop :=
  ∀ present outputs inputs d p outs,
    decode present outputs inputs d p = Ok outs → map length outs = map length outputs.

Definition LEOPARD_INLINE_RECOVERY_BYTES : nat := 2048.

Section leopard_reconstruct.
Context {F : Field} {RT : Runtime} {St : Storage Elem}
  {L : LruCache (list nat) (CachedMatrix Elem)}.
Context {T : Type} {S : ReconstructShard T}.
Implicit Types (slices : list T) (required : nat → bool).

(** ** Validation *)
Definition validate_leopard_shard (required : nat → bool) (index : nat) (shard : T)
    (state : option nat * nat * bool) : outcome Error (option nat * nat * bool) :=
  let '(known_len, number_present, has_required_missing) := state in
  let declared_len := Shards.shard_len shard in
  match shard_get shard with
  | Some data =>
      let len := length data in
      if decide (len = 0) then Err EmptyShard else
      if bool_decide (declared_len ≠ Some len)
         || match known_len with Some previous => bool_decide (previous ≠ len) | None => false end
         || bool_decide (len mod 64 ≠ 0)
      then Err IncorrectShardSize else
      let! bytes := ok_or (as_gf8_slice data) UnsupportedCodecFamily in
      if decide (length bytes ≠ len) then Err IncorrectShardSize else
      Ok (Some len, number_present + 1, has_required_missing)
  | None =>
      if decide (declared_len ≠ None) then Err IncorrectShardSize else
      Ok (known_len, number_present, has_required_missing || required index)
  end.

Definition validate_leopard_reconstruction (self : ReedSolomon) slices required
  : outcome Error (option nat) :=
  let! _ := check_piece_count_all (total_shard_count self) (length slices) in
  let! ' (known_len, number_present, has_required_missing) :=
    for_each (imap pair slices) (λ '(index, shard), validate_leopard_shard required index shard)
      (None, 0, false) in
  if decide (number_present < data_shard_count self) then Err TooFewShardsPresent else
  if negb has_required_missing then Ok None else
  let! len := ok_or known_len TooFewShardsPresent in Ok (Some len).

(** ** Binding: present flag, input and whether an output is requested. *)
Definition bind_leopard_shard required (len index : nat) (shard : T)
  : outcome Error (bool * option (list byte) * bool) :=
  match shard_get shard with
  | Some data =>
      let! bytes := ok_or (as_gf8_slice data) UnsupportedCodecFamily in
      if bool_decide (length data ≠ len) || bool_decide (length bytes ≠ len)
      then Err IncorrectShardSize else Ok (true, Some bytes, false)
  | None => Ok (false, None, required index)
  end.

Definition bind_leopard_shards required (len : nat) slices
  : outcome Error (list (bool * option (list byte) * bool)) :=
  map_outcome (λ '(index, shard), bind_leopard_shard required len index shard)
    (imap pair slices).

(** ** Publication ([publish_leopard_staged_shard!]) *)
Definition publish_leopard_staged_shard (shard : T) (bytes : list byte) (len : nat)
  : T * outcome Error unit :=
  let '(shard, r) := get_or_initialize shard len in
  match init_view r with
  | Err e => (shard, Err e)
  | Panic => (shard, Panic)
  | Ok data =>
      if decide (length data ≠ len) then (shard, Err IncorrectShardSize) else
      match as_gf8_slice_mut data with
      | None => (shard, Err UnsupportedCodecFamily)
      | Some (destination, write) =>
          if decide (length destination ≠ len) then (shard, Err IncorrectShardSize) else
          match copy_from_slice destination bytes with
          | Ok new => (shard_write shard (write new), Ok tt)
          | Err e => (shard, Err e)
          | Panic => (shard, Panic)
          end
      end
  end.

(** The publication loops: one staged buffer per shard, [None] where nothing is
    requested. *)
Fixpoint publish_leopard (len : nat) slices (staged : list (option (list byte)))
  : list T * outcome Error unit :=
  match slices, staged with
  | shard :: slices, Some bytes :: staged =>
      match publish_leopard_staged_shard shard bytes len with
      | (shard, Ok _) =>
          let '(slices, r) := publish_leopard len slices staged in (shard :: slices, r)
      | (shard, r) => (shard :: slices, r)
      end
  | shard :: slices, None :: staged =>
      let '(slices, r) := publish_leopard len slices staged in (shard :: slices, r)
  | slices, _ => (slices, Ok tt)
  end.

(** Decoding into staged storage and publishing from it. *)
Definition staged_run slices (len : nat) (r : outcome Error (list (option (list byte))))
  : list T * outcome Error unit :=
  match r with
  | Ok staged => publish_leopard len slices staged
  | Err e => (slices, Err e)
  | Panic => (slices, Panic)
  end.

Definition bound_present (bound : list (bool * option (list byte) * bool)) : list bool :=
  map (λ b, b.1.1) bound.
Definition bound_input (bound : list (bool * option (list byte) * bool))
  : list (option (list byte)) := map (λ b, b.1.2) bound.
Definition bound_requested (bound : list (bool * option (list byte) * bool)) : list bool :=
  map snd bound.

(** ** Heap staging: a buffer per requested shard, empty elsewhere. *)
Definition reconstruct_leopard_heap (self : ReedSolomon) slices required
    (decode : decode_fn) (len : nat) : list T * outcome Error unit :=
  staged_run slices len (
    let! bound := bind_leopard_shards required len slices in
    let recovered :=
      map (λ requested : bool, if requested then replicate len x00 else [])
        (bound_requested bound) in
    let! outputs := decode (bound_present bound) recovered (bound_input bound)
      (data_shard_count self) (parity_shard_count self) in
    Ok (map (λ bytes, if decide (bytes = []) then None else Some bytes) outputs)).

(** ** Small staging: the scratch is cut into a chunk per shard. *)
Definition reconstruct_leopard_small (self : ReedSolomon) slices required
    (decode : decode_fn) (len active_bytes : nat) : list T * outcome Error unit :=
  staged_run slices len (
    let scratch := replicate LEOPARD_INLINE_RECOVERY_BYTES x00 in
    let! active := slice scratch 0 active_bytes in
    let! chunks := if decide (len = 0) then Panic else Ok (chunks_exact len active) in
    let! bound := bind_leopard_shards required len (take (length chunks) slices) in
    let requested := bound_requested bound in
    let outputs :=
      zip_with (λ (requested : bool) chunk, if requested then chunk else []) requested chunks in
    let! outputs := decode (bound_present bound) outputs (bound_input bound)
      (data_shard_count self) (parity_shard_count self) in
    let chunks := zip_with (λ '(requested, chunk) (output : list byte),
      if (requested : bool) then output else chunk) (zip requested chunks) outputs in
    Ok (zip_with (λ chunk (requested : bool), if requested then Some chunk else None)
      chunks requested)).

(** ** Packed staging: the scratch is cut into a chunk per requested shard. *)

(** The buffer of each requested shard, in order. *)
Fixpoint assign_buffers (next : nat) (requested : list bool) : list (option nat) :=
  match requested with
  | [] => []
  | true :: requested => Some next :: assign_buffers (Datatypes.S next) requested
  | false :: requested => None :: assign_buffers next requested
  end.

(** The decoder's writes to the buffers behind its views. *)
Fixpoint write_back (buffers : list (list byte)) (refs : list (option nat))
    (outputs : list (list byte)) : list (list byte) :=
  match refs, outputs with
  | Some k :: refs, output :: outputs => write_back (<[k := output]> buffers) refs outputs
  | None :: refs, _ :: outputs => write_back buffers refs outputs
  | _, _ => buffers
  end.

Definition reconstruct_leopard_packed (self : ReedSolomon) slices required
    (decode : decode_fn) (len : nat) : list T * outcome Error unit :=
  staged_run slices len (
    let scratch := replicate LEOPARD_INLINE_RECOVERY_BYTES x00 in
    let! bound := bind_leopard_shards required len slices in
    let requested := bound_requested bound in
    let requested_count := count_occ Bool.bool_dec requested true in
    let! inline_count :=
      if decide (len = 0) then Panic else Ok (LEOPARD_INLINE_RECOVERY_BYTES / len) in
    let overflow := replicate (requested_count - inline_count) (replicate len x00) in
    let buffers := chunks_exact len scratch ++ overflow in
    let refs := assign_buffers 0 requested in
    let! outputs := map_outcome (λ ref,
      match ref with Some k => index buffers k | None => Ok [] end) refs in
    let! outputs := decode (bound_present bound) outputs (bound_input bound)
      (data_shard_count self) (parity_shard_count self) in
    let buffers := write_back buffers refs outputs in
    map_outcome (λ ref,
      match ref with
      | Some k => let! bytes := index buffers k in Ok (Some bytes)
      | None => Ok None
      end) refs).

(** ** The choice of the layout ([reconstruct_leopard_staged]) *)
Definition fits_inline (count len : nat) : bool :=
  match checked_mul (N.of_nat count) (N.of_nat len) with
  | Some bytes => (bytes <=? N.of_nat LEOPARD_INLINE_RECOVERY_BYTES)%N
  | None => false
  end.

Definition reconstruct_leopard_staged (self : ReedSolomon) slices required
    (decode : decode_fn) (len : nat) : list T * outcome Error unit :=
  if bool_decide (length slices ≤ 32) && fits_inline (length slices) len
  then reconstruct_leopard_small self slices required decode len (length slices * len)
  else if bool_decide (length slices ≤ 32) && fits_inline (parity_shard_count self) len
  then reconstruct_leopard_packed self slices required decode len
  else reconstruct_leopard_heap self slices required decode len.

Definition reconstruct_leopard_impl (self : ReedSolomon) slices required
    (decode : decode_fn) : list T * outcome Error unit :=
  match validate_leopard_reconstruction self slices required with
  | Err e => (slices, Err e)
  | Panic => (slices, Panic)
  | Ok None => (slices, Ok tt)
  | Ok (Some len) => reconstruct_leopard_staged self slices required decode len
  end.

Context {LD : LeopardDecoders}.

Definition all_or_data (self : ReedSolomon) (data_only : bool) (index : nat) : bool :=
  negb data_only || bool_decide (index < data_shard_count self).

Definition reconstruct_leopard_gf8 (self : ReedSolomon) slices (data_only : bool)
  : list T * outcome Error unit :=
  reconstruct_leopard_impl self slices (all_or_data self data_only) reconstruct_with_tables.

Definition reconstruct_leopard_gf16 (self : ReedSolomon) slices (data_only : bool)
  : list T * outcome Error unit :=
  reconstruct_leopard_impl self slices (all_or_data self data_only)
    (leopard_gf16_reconstruct (exec_max_parallel_jobs (rs_options self))).
End leopard_reconstruct.

(** ** The three layouts agree *)
Section staging_lemmas.
(** What is published: the output of every requested shard. *)
Definition staged_of (requested : list bool) (outputs : list (list byte))
  : list (option (list byte)) :=
  zip_with (λ (r : bool) output, if r then Some output else None) requested outputs.

(** The empty output views. *)
Definition fresh_views (len : nat) (requested : list bool) : list (list byte) :=
  map (λ r : bool, if r then replicate len x00 else []) requested.

Lemma chunks_exact_replicate {A} (x : A) len m :
  0 < len → chunks_exact len (replicate m x) = replicate (m / len) (replicate len x).
Proof.
  intros Hlen. unfold chunks_exact. rewrite length_replicate. symmetry.
  apply eq_tabulate; [by rewrite length_replicate|]. intros i Hi.
  rewrite lookup_replicate_2 by done. f_equal. rewrite drop_replicate, take_replicate.
  f_equal. pose proof (Nat.Div0.mul_div_le m len). nia.
Qed.

Lemma zip_fresh len (requested : list bool) m :
  length requested ≤ m →
  zip_with (λ (r : bool) chunk, if r then chunk else []) requested
    (replicate m (replicate len x00)) = fresh_views len requested.
Proof.
  revert m. induction requested as [|r req IH]; intros [|m] Hm; simpl in *; try done; [lia|].
  f_equal. apply IH. lia.
Qed.

(** Outputs of the right lengths are empty where nothing is requested. *)
Lemma heap_staged len requested outputs :
  0 < len → map length outputs = map length (fresh_views len requested) →
  map (λ bytes, if decide (bytes = []) then None else Some bytes) outputs
  = staged_of requested outputs.
Proof.
  intros Hlen. revert outputs. induction requested as [|r req IH]; intros [|o outputs] Hl;
    simpl in *; try done. injection Hl as Ho Hl. rewrite IH by done. f_equal.
  destruct r; case_decide as Hd; try done.
  - subst o. rewrite length_replicate in Ho. simpl in Ho. lia.
  - by destruct o.
Qed.

Lemma small_staged len requested chunks outputs :
  length chunks = length requested →
  map length outputs = map length (fresh_views len requested) →
  zip_with (λ chunk (r : bool), if r then Some chunk else None)
    (zip_with (λ '(r, chunk) (output : list byte), if (r : bool) then output else chunk)
       (zip requested chunks) outputs) requested
  = staged_of requested outputs.
Proof.
  revert chunks outputs. induction requested as [|r req IH]; intros [|c chunks] [|o outputs] Hc Hl;
    simpl in *; try done. injection Hl as _ Hl. rewrite IH by (done || lia). by destruct r.
Qed.

#[local] Abbreviation count req := (count_occ Bool.bool_dec req true).

Lemma packed_views {E} buffers req k len :
  (∀ i, i < k + count req → buffers !! i = Some (replicate len x00)) →
  map_outcome (λ ref, match ref with Some k => index (E:=E) buffers k | None => Ok [] end)
    (assign_buffers k req) = Ok (fresh_views len req).
Proof.
  revert k. induction req as [|r req IH]; intros k Hb; [done|]. simpl in *. destruct r; simpl in *.
  - rewrite (index_ok _ _ _ (Hb k ltac:(lia))). simpl. rewrite IH; [done|].
    intros i Hi. apply Hb. lia.
  - rewrite IH; [done|]. intros i Hi. apply Hb. lia.
Qed.

Lemma write_back_below req : ∀ k buffers outputs i,
  i < k → write_back buffers (assign_buffers k req) outputs !! i = buffers !! i.
Proof.
  induction req as [|r req IH]; intros k buffers outputs i Hi; [done|].
  destruct r, outputs as [|o outputs]; simpl; try done.
  - rewrite IH by lia. by rewrite list_lookup_insert_ne by lia.
  - by apply IH.
Qed.

Lemma packed_staged {E} req : ∀ k buffers outputs,
  k + count req ≤ length buffers → length outputs = length req →
  map_outcome (λ ref,
    match ref with
    | Some j => let! bytes := index (E:=E)
        (write_back buffers (assign_buffers k req) outputs) j in Ok (Some bytes)
    | None => Ok None
    end) (assign_buffers k req) = Ok (staged_of req outputs).
Proof.
  induction req as [|r req IH]; intros k buffers [|o outputs] Hk Hl; try done.
  cbn [length] in Hl. injection Hl as Hl. destruct r; simpl in *.
  - rewrite (index_ok _ k o).
    + simpl. rewrite IH; [done|rewrite length_insert; lia|done].
    + rewrite write_back_below by lia. apply list_lookup_insert_eq. lia.
  - rewrite IH; [done|lia|done].
Qed.
End staging_lemmas.

(** Byte views of element slices: as long as the slice, and writes through the
    mutable view are read back. *)
Class ByteViewLaws (F : Field) : Prop := {
  view_length s b : as_gf8_slice s = Some b → length b = length s;
  view_mut s : is_Some (as_gf8_slice s) → ∃ b w, as_gf8_slice_mut s = Some (b, w) ∧
    length b = length s ∧
    ∀ new, length new = length b → as_gf8_slice (w new) = Some new ∧ length (w new) = length s;
  view_all s s' : is_Some (as_gf8_slice s) → is_Some (as_gf8_slice s');
}.

Section properties.
Context {F : Field} {RT : Runtime} {St : Storage Elem}
  {L : LruCache (list nat) (CachedMatrix Elem)}.
Context {T : Type} {S : ReconstructShard T}.
Implicit Types (slices : list T) (required : nat → bool).

Lemma length_map_outcome {E A B} (f : A → outcome E B) l ys :
  map_outcome f l = Ok ys → length ys = length l.
Proof.
  revert ys. induction l as [|x l IH]; intros ys; simpl; [by intros [= <-]|].
  destruct (f x); simpl; [|done..]. destruct (map_outcome f l) eqn:Hl; simpl; [|done..].
  intros [= <-]. simpl. f_equal. by apply IH.
Qed.

Lemma length_bound required len slices bound :
  bind_leopard_shards required len slices = Ok bound → length bound = length slices.
Proof. intros H. apply length_map_outcome in H. by rewrite length_imap in H. Qed.

Lemma small_agrees self slices required decode len :
  keeps_views decode → 0 < len → length slices * len ≤ LEOPARD_INLINE_RECOVERY_BYTES →
  reconstruct_leopard_small self slices required decode len (length slices * len)
  = reconstruct_leopard_heap self slices required decode len.
Proof.
  intros Hk Hlen Hfit. unfold reconstruct_leopard_small, reconstruct_leopard_heap. f_equal.
  rewrite slice_ok by (rewrite ?length_replicate; lia). cbn [obind].
  rewrite drop_0, Nat.sub_0_r, take_replicate, Nat.min_l by done.
  rewrite decide_False by lia. cbn [obind].
  rewrite chunks_exact_replicate, Nat.div_mul by lia.
  rewrite length_replicate, firstn_all.
  destruct (bind_leopard_shards required len slices) as [bound| |] eqn:Hb; [|done..].
  apply length_bound in Hb. cbn [obind].
  assert (length (bound_requested bound) = length slices) as Hl
    by (unfold bound_requested; by rewrite length_map).
  rewrite zip_fresh by lia. fold (fresh_views len (bound_requested bound)).
  destruct (decode _ _ _ _ _) as [outputs| |] eqn:Hd; [|done..]. cbn [obind].
  apply Hk in Hd. rewrite (heap_staged len (bound_requested bound)) by done.
  rewrite (small_staged len) by (done || rewrite length_replicate; done). done.
Qed.

Lemma packed_agrees self slices required decode len :
  keeps_views decode → 0 < len →
  reconstruct_leopard_packed self slices required decode len
  = reconstruct_leopard_heap self slices required decode len.
Proof.
  intros Hk Hlen. unfold reconstruct_leopard_packed, reconstruct_leopard_heap. f_equal.
  destruct (bind_leopard_shards required len slices) as [bound| |] eqn:Hb; [|done..].
  cbn [obind]. rewrite decide_False by lia. cbn [obind].
  rewrite chunks_exact_replicate by done. rewrite <-replicate_add.
  set (req := bound_requested bound). set (c := count_occ _ req true).
  set (m := LEOPARD_INLINE_RECOVERY_BYTES / len).
  rewrite (packed_views _ req 0 len).
  2:{ intros i Hi. apply lookup_replicate_2. fold c in Hi. lia. }
  cbn [obind]. fold (fresh_views len req).
  destruct (decode _ _ _ _ _) as [outputs| |] eqn:Hd; [|done..]. cbn [obind].
  apply Hk in Hd. rewrite (heap_staged len req) by done. apply packed_staged.
  - rewrite length_replicate. fold c. lia.
  - apply (f_equal length) in Hd. rewrite !length_map in Hd. unfold fresh_views in Hd.
    by rewrite length_map in Hd.
Qed.

Context {SL : ShardLaws T S} {BV : ByteViewLaws F}.

(** ** Patterns *)
Definition is_here (s : T) : bool := bool_decide (is_Some (shard_get s)).
Definition view_of (s : T) : option (list byte) := shard_get s ≫= as_gf8_slice.
Definition requests required slices : list bool :=
  imap (λ i s, negb (is_here s) && required i) slices.

(** All present shards have [len] elements with a byte view. *)
Definition regular (len : nat) slices : Prop :=
  ∀ i s x, slices !! i = Some s → shard_get s = Some x →
    length x = len ∧ is_Some (as_gf8_slice x).

Lemma bind_regular required len slices :
  regular len slices →
  bind_leopard_shards required len slices
  = Ok (imap (λ i s, (is_here s, view_of s, negb (is_here s) && required i)) slices).
Proof.
  intros Hreg. unfold bind_leopard_shards.
  rewrite (map_outcome_all _ (λ '(i, s), (is_here s, view_of s, negb (is_here s) && required i))).
  - f_equal. apply list_eq. intros i. rewrite lookup_map, !list_lookup_imap.
    by destruct (slices !! i).
  - intros [i s] Hin. apply list_elem_of_lookup in Hin as [k Hk].
    rewrite list_lookup_imap in Hk. destruct (slices !! k) as [s'|] eqn:Hs; [|done].
    injection Hk as -> ->. unfold bind_leopard_shard, is_here, view_of.
    destruct (shard_get s) as [x|] eqn:Hx; simpl.
    + destruct (Hreg _ _ _ Hs Hx) as [Hl [b Hb]]. rewrite Hb. simpl.
      rewrite (view_length _ _ Hb), !bool_decide_eq_false_2 by auto. done.
    + done.
Qed.

Lemma bound_lists required slices :
  let bound := imap (λ i s, (is_here s, view_of s, negb (is_here s) && required i)) slices in
  bound_present bound = map is_here slices ∧ bound_input bound = map view_of slices ∧
  bound_requested bound = requests required slices.
Proof.
  simpl. unfold bound_present, bound_input, bound_requested, requests.
  split_and!; apply list_eq; intros i; rewrite !lookup_map, ?list_lookup_imap;
    by destruct (slices !! i).
Qed.

(** The decoder's answer on these shards. *)
Definition decoded (self : ReedSolomon) slices required (decode : decode_fn) (len : nat)
  : outcome Error (list (list byte)) :=
  decode (map is_here slices) (fresh_views len (requests required slices)) (map view_of slices)
    (data_shard_count self) (parity_shard_count self).

Lemma heap_regular self slices required decode len :
  keeps_views decode → 0 < len → regular len slices →
  reconstruct_leopard_heap self slices required decode len
  = staged_run slices len
      (let! outputs := decoded self slices required decode len in
       Ok (staged_of (requests required slices) outputs)).
Proof.
  intros Hk Hlen Hreg. unfold reconstruct_leopard_heap. f_equal.
  rewrite bind_regular by done. cbn [obind].
  destruct (bound_lists required slices) as (-> & -> & ->). unfold decoded.
  fold (fresh_views len (requests required slices)).
  destruct (decode _ _ _ _ _) as [outputs| |] eqn:Hd; [|done..]. cbn [obind].
  apply Hk in Hd. by rewrite (heap_staged len (requests required slices)).
Qed.

(** ** Publication *)
Lemma publish_one_sound s b len :
  (∀ x, is_Some (as_gf8_slice x)) → shard_get s = None → length b = len →
  let '(s', r) := publish_leopard_staged_shard s b len in
  match r with
  | Ok _ => view_of s' = Some b
  | Err e => shard_get s' = None ∧ ∃ s'', get_or_initialize s len = (s'', Rejected e)
  | Panic => False
  end.
Proof.
  intros Hview Hs Hb. unfold publish_leopard_staged_shard.
  destruct (get_or_initialize s len) as [s' r] eqn:Hg. destruct r as [v|v|e]; cbn [init_view].
  - pose proof (init_existing _ _ _ _ Hg). congruence.
  - pose proof (init_length _ _ _ _ Hg) as Hv. rewrite decide_False by auto.
    destruct (view_mut v (Hview v)) as (dst & w & -> & Hl & Hw). rewrite decide_False by lia.
    unfold copy_from_slice. rewrite decide_True by lia.
    destruct (Hw b ltac:(lia)) as [Hwb Hwl]. unfold view_of.
    rewrite (init_write _ _ _ _ v _ Hg eq_refl Hwl). done.
  - split; [|by exists s']. by rewrite (init_rejected _ _ _ _ Hg).
Qed.

(** What publishing leaves at each shard. *)
Definition published (staged : list (option (list byte))) slices slices' : Prop :=
  length slices' = length slices ∧
  (∀ i s, slices !! i = Some s → mjoin (staged !! i) = None → slices' !! i = Some s) ∧
  ∀ i s s', slices !! i = Some s → slices' !! i = Some s' →
    s' = s ∨ shard_get s' = None ∨ ∃ b, staged !! i = Some (Some b) ∧ view_of s' = Some b.

Lemma published_refl staged slices : published staged slices slices.
Proof. split_and!; [done|done|]. intros i s s' H1 H2. left. congruence. Qed.

Lemma publish_leopard_sound len : ∀ staged slices,
  (∀ x, is_Some (as_gf8_slice x)) → length staged = length slices →
  (∀ i b, staged !! i = Some (Some b) → length b = len ∧ ∃ s, slices !! i = Some s ∧ shard_get s = None) →
  let '(slices', r) := publish_leopard len slices staged in
  published staged slices slices' ∧
  match r with
  | Ok _ => ∀ i b, staged !! i = Some (Some b) → ∃ s', slices' !! i = Some s' ∧ view_of s' = Some b
  | Err e => ∃ i b s s', staged !! i = Some (Some b) ∧ slices !! i = Some s ∧
      get_or_initialize s len = (s', Rejected e)
  | Panic => False
  end.
Proof.
  induction staged as [|o staged IH]; intros [|s slices] Hview Hl Hst; try done; cbn beta iota.
  assert (∀ (slices' : list T) s', published staged slices slices' →
    (s' = s ∨ (o ≠ None ∧ (shard_get s' = None ∨ ∃ b, o = Some b ∧ view_of s' = Some b))) →
    published (o :: staged) (s :: slices) (s' :: slices')) as Hcons.
  { intros slices' s' (H1 & H2 & H3) Hs. split_and!; [by f_equal/=|..].
    - intros [|i] t Hi Hn; simpl in *; [|by apply H2]. injection Hi as <-.
      destruct Hs as [->|[? _]]; [done|]. by destruct o.
    - intros [|i] t t' Hi Hi'; simpl in *; [|by apply (H3 i)]. injection Hi as <-.
      injection Hi' as <-. destruct Hs as [?|[_ [?|(b & -> & ?)]]]; [by left|by right; left|].
      right. right. by exists b. }
  specialize (IH slices Hview ltac:(simpl in Hl; lia) (λ i b H, Hst (Datatypes.S i) b H)).
  destruct o as [b|]; simpl.
  - destruct (Hst 0 b eq_refl) as (Hb & s0 & [= <-] & Hs).
    pose proof (publish_one_sound s b len Hview Hs Hb) as Hone.
    destruct (publish_leopard_staged_shard s b len) as [s' r]. destruct r as [u|e|]; [| |done].
    + destruct (publish_leopard len slices staged) as [slices' r]. destruct IH as [I1 I2].
      split; [apply Hcons; [done|]; right; split; [done|]; right; by exists b|].
      destruct r as [u'|e|]; [| |done].
      * intros [|i] c Hc; [|by apply I2]. simpl in *. injection Hc as <-. by exists s'.
      * destruct I2 as (i & c & t & t' & ?). by exists (Datatypes.S i), c, t, t'.
    + destruct Hone as [H1 [s'' H2]]. split.
      * apply Hcons; [apply published_refl|]. right. split; [done|]. by left.
      * exists 0, b, s, s''. done.
  - destruct (publish_leopard len slices staged) as [slices' r]. destruct IH as [I1 I2].
    split; [apply Hcons; [done|by left]|]. destruct r as [u'|e|]; [| |done].
    + intros [|i] c Hc; [done|by apply I2].
    + destruct I2 as (i & c & t & t' & ?). by exists (Datatypes.S i), c, t, t'.
Qed.

(** ** Validation *)
Definition present_count slices : nat := length (filter (λ s, is_here s = true) slices).
Definition any_requested required slices : bool := existsb id (requests required slices).

Definition lengths_wrong slices : Prop :=
  (∃ i s x, slices !! i = Some s ∧ shard_get s = Some x ∧ length x mod 64 ≠ 0) ∨
  (∃ i j s t x y, slices !! i = Some s ∧ slices !! j = Some t ∧ shard_get s = Some x ∧
     shard_get t = Some y ∧ length x ≠ length y).

(** Errors of the shards themselves. *)
Definition shard_fault slices (e : Error) : Prop :=
  (e = EmptyShard ∧ ∃ i s, slices !! i = Some s ∧ shard_get s = Some []) ∨
  (e = IncorrectShardSize ∧ lengths_wrong slices) ∨
  (e = UnsupportedCodecFamily ∧
   ∃ i s x, slices !! i = Some s ∧ shard_get s = Some x ∧ as_gf8_slice x = None).

Definition validated required slices (m : nat) (state : option nat * nat * bool) : Prop :=
  let '(known, number, missing) := state in
  number = present_count (take m slices) ∧
  missing = any_requested required (take m slices) ∧
  (∀ i s x, i < m → slices !! i = Some s → shard_get s = Some x →
     known = Some (length x) ∧ is_Some (as_gf8_slice x)) ∧
  (∀ len, known = Some len → 0 < len ∧ len mod 64 = 0 ∧
     ∃ i s x, i < m ∧ slices !! i = Some s ∧ shard_get s = Some x ∧ length x = len) ∧
  (known = None → number = 0).

Lemma present_count_snoc slices s :
  present_count (slices ++ [s]) = present_count slices + (if is_here s then 1 else 0).
Proof.
  unfold present_count. rewrite filter_app, length_app, filter_cons.
  destruct (is_here s); [rewrite decide_True by done|rewrite decide_False by done]; simpl; lia.
Qed.

Lemma any_requested_snoc required slices s :
  any_requested required (slices ++ [s])
  = any_requested required slices || (negb (is_here s) && required (length slices)).
Proof.
  unfold any_requested, requests. rewrite imap_app, existsb_app. simpl.
  by rewrite orb_false_r, Nat.add_0_r.
Qed.

Lemma validate_shard_ensures required slices m s state :
  slices !! m = Some s → validated required slices m state →
  ensures (validate_leopard_shard required m s state)
    (validated required slices (1 + m)) (shard_fault slices).
Proof.
  destruct state as [[known number] missing]. intros Hs (H1 & H2 & H3 & H4 & H5).
  pose proof (lookup_lt_Some _ _ _ Hs) as Hm. unfold validate_leopard_shard.
  rewrite shard_len_get. unfold validated.
  rewrite (take_S_r _ _ s), present_count_snoc, any_requested_snoc, length_take, Nat.min_l
    by (done || lia).
  rewrite <-H1, <-H2. unfold is_here.
  destruct (shard_get s) as [x|] eqn:Hx; simpl.
  - case_decide as Hz.
    { left. split; [done|]. exists m, s. by destruct x. }
    rewrite (bool_decide_eq_false_2 (Some (length x) ≠ Some (length x))) by auto. simpl.
    destruct (_ || _) eqn:Hbad.
    { right. left. split; [done|]. apply orb_true_iff in Hbad as [Hb|Hb%bool_decide_eq_true].
      - destruct known as [l|]; [|done]. apply bool_decide_eq_true in Hb.
        destruct (H4 l eq_refl) as (_ & _ & i & t & y & _ & Ht & Hy & Hl).
        right. exists i, m, t, s, y, x. split_and!; [done..|lia].
      - left. by exists m, s, x. }
    apply orb_false_iff in Hbad as [Hk H64%bool_decide_eq_false].
    destruct (as_gf8_slice x) as [b|] eqn:Hb; simpl; [|right; right; split; [done|by exists m, s, x]].
    rewrite (view_length _ _ Hb), decide_False by auto. simpl.
    split_and!; [done|by rewrite orb_false_r| | |done].
    + intros i t y Hi Ht Hy. destruct (decide (i = m)) as [->|Hne].
      * rewrite Hs in Ht. injection Ht as <-. rewrite Hx in Hy. injection Hy as <-. done.
      * destruct (H3 i t y ltac:(lia) Ht Hy) as [-> Hyv]. split; [|done].
        apply bool_decide_eq_false in Hk. f_equal. lia.
    + intros len [= <-]. split_and!; [lia|lia|]. exists m, s, x. split; [lia|done].
  - split_and!; [lia|done| | |].
    + intros i t y Hi Ht Hy. destruct (decide (i = m)) as [->|Hne]; [congruence|].
      apply (H3 i t y); [lia|done..].
    + intros len Hl. destruct (H4 len Hl) as (? & ? & i & t & y & ? & ?).
      split_and!; [done..|]. exists i, t, y. split; [lia|done].
    + intros Hkn. rewrite H5; done.
Qed.

Lemma validation_ensures (self : ReedSolomon) slices required :
  0 < data_shard_count self →
  ensures (validate_leopard_reconstruction self slices required)
    (λ o, length slices = total_shard_count self ∧ data_shard_count self ≤ present_count slices ∧
       ∃ len, 0 < len ∧ len mod 64 = 0 ∧ regular len slices ∧
         (∃ x : list Elem, is_Some (as_gf8_slice x)) ∧
         o = if any_requested required slices then Some len else None)
    (λ e, (e = TooFewShards ∧ length slices < total_shard_count self) ∨
       (e = TooManyShards ∧ total_shard_count self < length slices) ∨ shard_fault slices e ∨
       (e = TooFewShardsPresent ∧ present_count slices < data_shard_count self)).
Proof.
  intros Hd. unfold validate_leopard_reconstruction, check_piece_count_all, check_piece_count.
  case_decide as Hfew; [by left|]. case_decide as Hmany; [right; by left|]. cbn [obind].
  eapply (ensures_bind _ _ (validated required slices (length slices))).
  { eapply ensures_mono.
    - apply (for_each_post _ _ (validated required slices)
        (validated required slices (length slices)) (shard_fault slices)).
      + split_and!; try done; [intros; lia].
      + intros m [i s] state Hm Hst. rewrite list_lookup_imap in Hm.
        destruct (slices !! m) eqn:Hs; [|done]. injection Hm as <- ->.
        by apply validate_shard_ensures.
      + intros st. by rewrite length_imap.
    - done.
    - intros e He. right. right. by left. }
  intros [[known number] missing] (H1 & H2 & H3 & H4 & H5). rewrite firstn_all in H1, H2.
  case_decide as Hnum; [right; right; right; split; [done|lia]|].
  destruct known as [len|]; [|rewrite H5 in Hnum by done; lia].
  destruct (H4 len eq_refl) as (Hlen & H64 & i & s & x & Hi & Hs & Hx & _).
  assert (∀ o, o = (if any_requested required slices then Some len else None) →
    length slices = total_shard_count self ∧ data_shard_count self ≤ present_count slices ∧
    ∃ len, 0 < len ∧ len mod 64 = 0 ∧ regular len slices ∧
      (∃ x : list Elem, is_Some (as_gf8_slice x)) ∧
      o = if any_requested required slices then Some len else None) as Hok.
  { intros o Ho. split_and!; [lia|lia|]. exists len. split_and!; [done|done| | |done].
    - intros j t y Ht Hy. destruct (H3 j t y) as [[= ->] ?]; [by eapply lookup_lt_Some|done..].
    - exists x. by apply (H3 i s x). }
  rewrite H2. destruct (any_requested required slices) eqn:Hreq; simpl; by apply Hok.
Qed.

Lemma staged_agrees (self : ReedSolomon) slices required decode len :
  keeps_views decode → 0 < len →
  reconstruct_leopard_staged self slices required decode len
  = reconstruct_leopard_heap self slices required decode len.
Proof.
  intros Hkeeps Hlen.
  unfold reconstruct_leopard_staged. destruct (bool_decide _ && _) eqn:H1.
  - apply andb_true_iff in H1 as [_ H1]. apply small_agrees; [done..|].
    unfold fits_inline, checked_mul in H1. destruct (_ <=? USIZE_MAX)%N; [|done].
    apply N.leb_le in H1. lia.
  - destruct (_ && fits_inline (parity_shard_count self) len); [by apply packed_agrees|done].
Qed.

(** ** The adapter *)
Lemma requests_lookup required slices i :
  requests required slices !! i = (λ s, negb (is_here s) && required i) <$> slices !! i.
Proof. unfold requests. by rewrite list_lookup_imap. Qed.

Lemma staged_lookup req outputs i b :
  staged_of req outputs !! i = Some (Some b) ↔
  req !! i = Some true ∧ outputs !! i = Some b.
Proof.
  unfold staged_of. rewrite lookup_zip_with.
  destruct (req !! i) as [[]|], (outputs !! i); simpl; split; try (by intros [=]);
    try (by intros [[=] ?]); try (by intros [? [=]]).
  - intros [= ->]. done.
  - intros [_ [= ->]]. done.
Qed.

Lemma view_lengths len req (outputs : list (list byte)) i b :
  map (@length byte) outputs = map length (fresh_views len req) →
  req !! i = Some true → outputs !! i = Some b → length b = len.
Proof.
  intros Hl Hr Ho. apply (f_equal (.!! i)) in Hl. unfold fresh_views in Hl.
  rewrite !lookup_map, Ho, Hr in Hl. simpl in Hl. injection Hl as ->. apply length_replicate.
Qed.

(** What the adapter leaves: untouched shards unless the decoder answered, and
    then only requested missing shards changed, each holding the decoder's bytes or
    still missing. *)
Definition adapted (self : ReedSolomon) slices required decode
    (result : list T * outcome Error unit) : Prop :=
  let '(slices', r) := result in
  (slices' = slices ∧ ∀ i s, r = Ok tt → slices !! i = Some s → is_here s = false → required i = false) ∨
  ∃ len outputs, decoded self slices required decode len = Ok outputs ∧ regular len slices ∧
    published (staged_of (requests required slices) outputs) slices slices' ∧
    match r with
    | Ok _ => ∀ i s b, slices !! i = Some s → is_here s = false → required i = true →
        outputs !! i = Some b → ∃ s', slices' !! i = Some s' ∧ view_of s' = Some b
    | Err e => ∃ i s s', slices !! i = Some s ∧ is_here s = false ∧ required i = true ∧
        get_or_initialize s len = (s', Rejected e)
    | Panic => False
    end.

Lemma any_requested_false required slices i s :
  any_requested required slices = false → slices !! i = Some s → is_here s = false →
  required i = false.
Proof.
  intros Hany Hs Hh. destruct (required i) eqn:Hr; [|done].
  unfold any_requested in Hany.
  assert (existsb id (requests required slices) = true); [|congruence].
  apply existsb_exists. exists true. split; [|done]. apply list_elem_of_In.
  apply (list_elem_of_lookup_2 _ i). rewrite requests_lookup, Hs. simpl. by rewrite Hh, Hr.
Qed.

Lemma adapted_same self slices required decode r :
  r ≠ Ok tt → adapted self slices required decode (slices, r).
Proof. intros Hr. left. split; [done|]. intros i s ->. done. Qed.

Lemma impl_adapted (self : ReedSolomon) slices required decode :
  0 < data_shard_count self → keeps_views decode →
  adapted self slices required decode (reconstruct_leopard_impl self slices required decode).
Proof.
  intros Hd Hk. unfold reconstruct_leopard_impl.
  pose proof (validation_ensures self slices required Hd) as Hv.
  destruct (validate_leopard_reconstruction self slices required) as [o|e|]; simpl in Hv;
    [|by apply adapted_same|done].
  destruct Hv as (Hl & Hcount & len & Hlen & H64 & Hreg & [x Hx] & ->).
  destruct (any_requested required slices) eqn:Hany.
  2:{ left. split; [done|]. intros i s _. by apply any_requested_false. }
  rewrite staged_agrees, heap_regular by done.
  destruct (decoded self slices required decode len) as [outputs|e|] eqn:Hdec; cbn [obind staged_run];
    [|by apply adapted_same..].
  assert (map length outputs = map length (fresh_views len (requests required slices))) as Hviews
    by (by eapply Hk).
  assert (∀ i b, staged_of (requests required slices) outputs !! i = Some (Some b) →
    length b = len ∧ ∃ s, slices !! i = Some s ∧ shard_get s = None ∧ required i = true) as Hst.
  { intros i b Hi. apply staged_lookup in Hi as [Hr Ho].
    split; [by eapply view_lengths|]. rewrite requests_lookup in Hr.
    destruct (slices !! i) as [s|]; [|done]. exists s. injection Hr as Hr.
    apply andb_true_iff in Hr as [Hh Hr]. split_and!; [done| |done].
    unfold is_here in Hh. destruct (shard_get s); [done|done]. }
  pose proof (publish_leopard_sound len (staged_of (requests required slices) outputs) slices) as Hp.
  destruct (publish_leopard len slices _) as [slices' r]. destruct Hp as [H1 H2].
  - intros y. by apply (view_all x).
  - apply (f_equal length) in Hviews. unfold fresh_views in Hviews.
    rewrite !length_map in Hviews. unfold staged_of. rewrite length_zip_with, Hviews.
    unfold requests. rewrite length_imap. lia.
  - intros i b Hi. destruct (Hst i b Hi) as (? & s & ? & ? & _). eauto.
  - right. exists len, outputs. split_and!; [done|done|done|].
    destruct r as [u|e|]; [| |done].
    + intros i s b Hs Hh Hr Ho. apply H2. apply staged_lookup. split; [|done].
      rewrite requests_lookup, Hs. simpl. by rewrite Hh, Hr.
    + destruct H2 as (i & b & s & s' & Hi & Hs & Hg).
      destruct (Hst i b Hi) as (_ & t & Ht & Hm & Hr). rewrite Hs in Ht. injection Ht as <-.
      exists i, s, s'. split_and!; [done| |done..]. unfold is_here. by rewrite Hm.
Qed.

(** C36: whatever the decoder does, an invalid pattern, a decoding
    error or a panic leaves every shard as it was; after a decode only the requested
    missing shards change, each ends up holding exactly the decoder's bytes or still
    missing, all of them hold them when the call succeeds, and it fails only with
    the error of a container that rejects its buffer. *)
Theorem leopard_reconstruct_safe (self : ReedSolomon) slices required decode
    (Hd : 0 < data_shard_count self) (Hkeeps : keeps_views decode) :
  adapted self slices required decode (reconstruct_leopard_impl self slices required decode).
Proof. by apply impl_adapted. Qed.

(** the validation accepts exactly the shard lists of the
    right length whose present shards agree on a non-zero length that is a multiple
    of 64, have a byte view and are at least [data] many; it answers that
    length if a requested shard is missing and nothing otherwise, and
    every error it returns names a fault that is there. *)
Theorem leopard_validation_correct (self : ReedSolomon) slices required
    (Hd : 0 < data_shard_count self) :
  ensures (validate_leopard_reconstruction self slices required)
    (λ o, length slices = total_shard_count self ∧ data_shard_count self ≤ present_count slices ∧
       ∃ len, 0 < len ∧ len mod 64 = 0 ∧ regular len slices ∧
         (∃ x : list Elem, is_Some (as_gf8_slice x)) ∧
         o = if any_requested required slices then Some len else None)
    (λ e, (e = TooFewShards ∧ length slices < total_shard_count self) ∨
       (e = TooManyShards ∧ total_shard_count self < length slices) ∨ shard_fault slices e ∨
       (e = TooFewShardsPresent ∧ present_count slices < data_shard_count self)).
Proof. by apply validation_ensures. Qed.

(** whichever staging layout the sizes select, the shards and
    the result are those of staging each requested shard in a buffer of its
    own, errors, panics and containers that reject included; the scratch and the
    overflow buffers never run out. *)
Theorem leopard_staging_agrees (self : ReedSolomon) slices required decode len
    (Hkeeps : keeps_views decode) (Hlen : 0 < len) :
  reconstruct_leopard_staged self slices required decode len
  = reconstruct_leopard_heap self slices required decode len.
Proof. by apply staged_agrees. Qed.
End properties.
