(* ===== verification/Reconstruct.v ===== *)
(** * Reconstruction ([src/core/reconstruct.rs], lines 531-790 and 1221-1235,
    and [ReconstructWorkspace] of [src/core/workspace.rs])

    The public entry points: [reconstruct], [reconstruct_data],
    [reconstruct_some] and prepared workspaces, serial and parallel.  They
    return the codec with its cache, the shards, and the result.

    The theorems: shards of a codeword with any missing pattern are
    restored; what is restored is what the goal asks; errors leave the shards alone; a
    prepared workspace does what a direct call does; and the code as a whole
    corrects up to [parity] erasures. *)

From Stdlib Require Import NArith Lia List Bool Ring Sorted.
From stdpp Require Import base numbers list.
From S2P Require Import Prelude Errors Fields LinAlg Matrix Options Leopard InversionCache.
From S2P Require Import Parallel Checks Codec Coding Encode Shards Format DecodeMatrix.
From S2P Require Import RecoveryPlan Execute LeopardReconstruct.

Local Open Scope field_scope.

Section reconstruct.
Context {F : Field} {RT : Runtime} {St : Storage Elem}
  {L : LruCache (list nat) (CachedMatrix Elem)} {LD : LeopardDecoders}.

(** ** Workspaces *)
Record ReconstructWorkspace := mk_workspace {
  workspace_plan : ClassicReconstructPlan;
  workspace_format : EncodingFormat Elem;
}.

Definition workspace_data_targets {E} (self : ReconstructWorkspace) : outcome E (list nat) :=
  data_targets (workspace_plan self).
Definition workspace_parity_targets {E} (self : ReconstructWorkspace) : outcome E (list nat) :=
  parity_targets (workspace_plan self).

Section containers.
Context {T : Type} {S : ReconstructShard T}.

Definition prepare_reconstruct_workspace_with_goal (self : ReedSolomon) (shards : list T)
    (goal : ReconstructionGoal) : ReedSolomon * outcome Error ReconstructWorkspace :=
  match
    (let! _ := check_piece_count_all (total_shard_count self) (length shards) in
     if is_leopard_family self then Err UnsupportedCodecFamily else
     classic_reconstruct_shape self (map shard_len shards))
  with
  | Err e => (self, Err e)
  | Panic => (self, Panic)
  | Ok shape =>
      let '(self, r) := prepare_classic_reconstruct_plan self shape goal in
      (self, let! plan := r in Ok (mk_workspace plan (rs_format self)))
  end.

Definition prepare_reconstruct_workspace (self : ReedSolomon) (shards : list T) :=
  prepare_reconstruct_workspace_with_goal self shards GoalAll.
Definition prepare_reconstruct_data_workspace (self : ReedSolomon) (shards : list T) :=
  prepare_reconstruct_workspace_with_goal self shards GoalData.
Definition prepare_reconstruct_some_workspace (self : ReedSolomon) (shards : list T)
    (required : list bool) : ReedSolomon * outcome Error ReconstructWorkspace :=
  if bool_decide (length required ≠ data_shard_count self)
     && bool_decide (length required ≠ total_shard_count self)
  then (self, Err InvalidShardFlags)
  else prepare_reconstruct_workspace_with_goal self shards (GoalRequired required).

(** [validate_reconstruct_workspace]; [same_arc] is the answer of the matrix
    pointer comparison. *)
Definition validate_reconstruct_workspace (same_arc : bool) (self : ReedSolomon)
    (shards : list T) (workspace : ReconstructWorkspace) : outcome Error unit :=
  let format := workspace_format workspace in
  let! _ := check_piece_count_all (total_shard_count self) (length shards) in
  if is_leopard_family self then Err UnsupportedCodecFamily else
  if decide (data_shards format < data_shard_count self) then Err TooFewDataShards else
  if decide (data_shard_count self < data_shards format) then Err TooManyDataShards else
  if decide (parity_shards format < parity_shard_count self) then Err TooFewParityShards else
  if decide (parity_shard_count self < parity_shards format) then Err TooManyParityShards else
  let! equal := format_eq same_arc (rs_format self) format in
  if negb equal then Err InvalidCustomMatrix else
  validate_classic_plan_layout self (map shard_len shards)
    (plan_shape (workspace_plan workspace)).

Definition reconstruct_with_workspace (same_arc : bool) (self : ReedSolomon) (shards : list T)
    (workspace : ReconstructWorkspace) : list T * outcome Error unit :=
  match validate_reconstruct_workspace same_arc self shards workspace with
  | Ok _ => execute_classic_plan_serial self shards (workspace_plan workspace)
  | Err e => (shards, Err e)
  | Panic => (shards, Panic)
  end.

Definition reconstruct_with_workspace_par (orders : nat → list task) (same_arc : bool)
    (self : ReedSolomon) (shards : list T) (workspace : ReconstructWorkspace)
    : list T * outcome Error unit :=
  match validate_reconstruct_workspace same_arc self shards workspace with
  | Ok _ =>
      let '(data_policy, parity_policy) := reconstruct_stage_policies (rs_policy_cache self)
        (data_only (workspace_plan workspace)) in
      execute_classic_plan_with (compute_par orders self data_policy parity_policy) self shards
        (workspace_plan workspace)
  | Err e => (shards, Err e)
  | Panic => (shards, Panic)
  end.

(** ** Direct reconstruction *)
Definition reconstruct_internal (self : ReedSolomon) (shards : list T) (data_only : bool) : run :=
  with_classic_reconstruct_plan self shards (if data_only then GoalData else GoalAll)
    execute_classic_plan_serial.

(** The Leopard adapters leave the codec alone. *)
Definition leopard_run (self : ReedSolomon) (r : list T * outcome Error unit) : run (T:=T) :=
  (self, r.1, r.2).

Definition reconstruct (self : ReedSolomon) (slices : list T) : run :=
  if is_leopard_gf8_family self
  then leopard_run self (reconstruct_leopard_gf8 self slices false) else
  if is_leopard_gf16_family self
  then leopard_run self (reconstruct_leopard_gf16 self slices false) else
  reconstruct_internal self slices false.

Definition reconstruct_data (self : ReedSolomon) (slices : list T) : run :=
  if is_leopard_gf8_family self
  then leopard_run self (reconstruct_leopard_gf8 self slices true) else
  if is_leopard_gf16_family self
  then leopard_run self (reconstruct_leopard_gf16 self slices true) else
  reconstruct_internal self slices true.

Definition reconstruct_some (self : ReedSolomon) (shards : list T) (required : list bool) : run :=
  if bool_decide (length required ≠ data_shard_count self)
     && bool_decide (length required ≠ total_shard_count self)
  then (self, shards, Err InvalidShardFlags) else
  if is_leopard_gf8_family self
  then leopard_run self
    (reconstruct_leopard_impl self shards (is_required required) reconstruct_with_tables) else
  if is_leopard_gf16_family self
  then leopard_run self
    (reconstruct_leopard_impl self shards (is_required required)
      (leopard_gf16_reconstruct (exec_max_parallel_jobs (rs_options self)))) else
  with_classic_reconstruct_plan self shards (GoalRequired required) execute_classic_plan_serial.
End containers.
End reconstruct.

(** ** Shards of a codeword *)
Section correctness.
Context {F : Field} {FL : FieldLaws F} {RT : Runtime} {St : Storage Elem}
  {L : LruCache (list nat) (CachedMatrix Elem)} {LL : LruLaws L} {LD : LeopardDecoders}.
Context {T : Type} {S : ReconstructShard T} {SL : ShardLaws T S}.
Implicit Types (shards : list T).

(** The presence pattern of the shards, and how many are present. *)
Definition here shards : nat → bool := present_at (map shard_len shards).
Definition number_here shards : nat := count_present (map shard_len shards).

Lemma here_spec shards i s :
  shards !! i = Some s → here shards i = false ↔ shard_get s = None.
Proof.
  intros Hs. unfold here, present_at. rewrite lookup_map, Hs. simpl.
  rewrite shard_len_get. by destruct (shard_get s).
Qed.

Lemma here_pattern shards : pattern (here shards) shards.
Proof. intros i s Hs. symmetry. by apply here_spec. Qed.

Context (self : ReedSolomon) (M : nat → nat → Elem) (len : nat) (cw : list (list Elem)).
#[local] Abbreviation d := (data_shard_count self).
#[local] Abbreviation n := (total_shard_count self).
Context (Hc : classic_codec self M) (Hcache : cache_valid self).
Context (Hcw : codeword M d n len cw) (goal : ReconstructionGoal).

Lemma counts : 0 < d ∧ d ≤ n ∧ n = (d + parity_shard_count self)%nat.
Proof.
  pose proof (cc_data _ _ Hc). unfold total_shard_count, data_shard_count,
    parity_shard_count in *. lia.
Qed.

Lemma holds_lengths shards : holds cw n shards → lengths_ok (map shard_len shards) len.
Proof.
  destruct Hcw as [(H1 & H2 & H3) _]. intros [Hl Hh] i l Hi. rewrite lookup_map in Hi.
  destruct (shards !! i) as [s|] eqn:Hs; [|done]. simpl in Hi. rewrite shard_len_get in Hi.
  destruct (shard_get s) as [x|] eqn:Hx; [|done]. injection Hi as <-.
  pose proof (Hh i s x Hs Hx) as Hcx. eapply Forall_lookup_1 in H3; [|exact Hcx].
  simpl in H3. split; [done|lia].
Qed.

Lemma lengths_ok_bad lens l e : lengths_ok lens l → ¬ lengths_bad lens e.
Proof.
  intros Hok [[_ [i Hi]]|[_ (i & j & x & y & Hi & Hj & Hne)]].
  - destruct (Hok i _ Hi). done.
  - destruct (Hok i _ Hi), (Hok j _ Hj). congruence.
Qed.

(** The result of a reconstruction with a goal. *)
Definition restored shards (result : run (T:=T)) : Prop :=
  let '(self', shards', r) := result in
  (∃ c, self' = set_cache self c) ∧ cache_valid self' ∧ holds cw n shards' ∧
  (∀ i s, shards !! i = Some s → shard_get s ≠ None ∨ wanted d goal i = false →
     shards' !! i = Some s) ∧
  match r with
  | Ok _ => ∀ i, i < n → wanted d goal i = true →
      ∃ s, shards' !! i = Some s ∧ shard_get s = Some (shard_at cw i)
  | Err e =>
      (e = TooFewShardsPresent ∧ shards' = shards ∧ number_here shards < d) ∨
      (e = InvalidCustomMatrix ∧ shards' = shards ∧
       ¬ nonsingular d d (selected_rows M (valid_of n d (here shards)))) ∨
      (∃ i s s', shards !! i = Some s ∧ shard_get s = None ∧ wanted d goal i = true ∧
         get_or_initialize s len = (s', Rejected e))
  | Panic => False
  end.

Lemma same_codec : ∃ c, self = set_cache self c.
Proof. exists (rs_cache self). by destruct self. Qed.

Lemma restored_same shards r :
  holds cw n shards →
  match r with
  | Ok _ => ∀ i, i < n → wanted d goal i = true →
      ∃ s, shards !! i = Some s ∧ shard_get s = Some (shard_at cw i)
  | Err e => e = TooFewShardsPresent ∧ number_here shards < d
  | Panic => False
  end → restored shards (self, shards, r).
Proof.
  intros Hh Hr. split_and!; [apply same_codec|done|done|done|].
  destruct r as [u|e|]; [done| |done]. left. tauto.
Qed.

(** Present shards of a codeword are right. *)
Lemma present_right shards i :
  holds cw n shards → i < n → here shards i = true →
  ∃ s, shards !! i = Some s ∧ shard_get s = Some (shard_at cw i).
Proof.
  intros [Hl Hh] Hi Hp. destruct (lookup_lt_is_Some_2 shards i) as [s Hs]; [lia|].
  exists s. split; [done|]. destruct (shard_get s) as [x|] eqn:Hx.
  - f_equal. unfold shard_at. by rewrite (Hh i s x Hs Hx).
  - apply (here_spec shards i s Hs) in Hx. congruence.
Qed.

Lemma elem_targets present lo hi i :
  i ∈ targets_in present d goal lo hi ↔
  lo ≤ i ∧ i < hi ∧ present i = false ∧ wanted d goal i = true.
Proof.
  unfold targets_in. rewrite list_elem_of_filter, elem_of_seq. intuition lia.
Qed.

#[local] Abbreviation DT shards := (targets_in (here shards) d goal 0 d).
#[local] Abbreviation PT shards := (targets_in (here shards) d goal d n).

Lemma elem_all_targets shards i :
  i ∈ DT shards ∨ i ∈ PT shards ↔ i < n ∧ here shards i = false ∧ wanted d goal i = true.
Proof.
  destruct counts as (H1 & H2 & H3). rewrite !elem_targets. split; [intros [?|?]; intuition lia|].
  intros (? & ? & ?). destruct (decide (i < d)); [left|right]; intuition lia.
Qed.

(** An execution of a plan for the pattern restores what the goal asks. *)
Lemma executed_restored shards c shards' r :
  holds cw n shards → cache_valid (set_cache self c) →
  executed self len cw (DT shards) (PT shards) shards (shards', r) →
  restored shards (set_cache self c, shards', r).
Proof.
  intros Hh Hv (H1 & H2 & H3). split_and!; [by exists c|done|done| |].
  - intros i s Hs Hi. rewrite H2; [done|..]; intros Ht;
      destruct (proj1 (elem_all_targets shards i)) as (_ & Hp & Hw); auto;
      apply (here_spec shards i s Hs) in Hp; destruct Hi; congruence.
  - destruct r as [u|e|]; [| |done].
    + intros i Hi Hw. destruct (here shards i) eqn:Hp.
      * rewrite H2; [by apply present_right|..]; intros Ht;
          destruct (proj1 (elem_all_targets shards i)) as (_ & ? & _); auto; congruence.
      * apply H3. by apply elem_all_targets.
    + right. right. destruct H3 as (i & s & s' & Hi & Hs & Hg). exists i, s, s'.
      apply elem_of_app, elem_all_targets in Hi as (Hin & Hp & Hw).
      split_and!; [done| |done|done]. by apply (here_spec shards i s Hs).
Qed.

Lemma length_survivors shards :
  length shards = n → d ≤ number_here shards → length (valid_of n d (here shards)) = d.
Proof.
  unfold number_here, count_present, valid_of, here. rewrite length_map. intros -> H.
  rewrite length_take. lia.
Qed.

(** ** Direct reconstruction *)
Lemma shape_facts shards shape :
  holds cw n shards → 0 < number_here shards → shape_for self (map shard_len shards) shape →
  shape_shard_len shape = len.
Proof.
  intros Hh Hpos (Hok & _). pose proof (holds_lengths shards Hh) as Hok'.
  unfold number_here, count_present in Hpos. rewrite length_map in Hpos.
  destruct (filter _ _) as [|i l] eqn:Hf; [simpl in Hpos; lia|].
  assert (i ∈ filter (λ i, present_at (map shard_len shards) i = true) (seq 0 (length shards)))
    as Hi by (rewrite Hf; left).
  apply list_elem_of_filter in Hi as [Hp _]. unfold present_at in Hp.
  destruct (map shard_len shards !! i) as [[l'|]|] eqn:Hl; [|done..].
  destruct (Hok i l' Hl), (Hok' i l' Hl). congruence.
Qed.

Lemma executed_plan compute shards plan c :
  holds cw n shards → d ≤ number_here shards → computes self len compute →
  plan_for self M (here shards) len (DT shards) (PT shards) plan →
  executed self len cw (DT shards) (PT shards) shards
    (execute_classic_plan_with compute (set_cache self c) shards plan).
Proof.
  intros Hh Hmany Hcomp Hplan. destruct counts as (H1 & H2 & H3). pose proof Hh as [Hl _].
  change (executed self) with (executed (T:=T) (set_cache self c)).
  apply (execute_sound (set_cache self c) M len cw (cc_systematic _ _ Hc) H1 Hcw (here shards)
    (length_survivors shards Hl Hmany) compute plan (DT shards) (PT shards));
    [done|by apply plan_for_cache|done|done|apply here_pattern].
Qed.

(** Planning and any sound executor restore the shards. *)
Lemma with_plan_executed shards
    (execute : ReedSolomon → list T → ClassicReconstructPlan → list T * outcome Error unit) :
  holds cw n shards → goal_flags_ok self goal = true →
  (∀ plan c, d ≤ number_here shards →
     plan_for self M (here shards) len (DT shards) (PT shards) plan →
     executed self len cw (DT shards) (PT shards) shards
       (execute (set_cache self c) shards plan)) →
  restored shards (with_classic_reconstruct_plan self shards goal execute).
Proof.
  intros Hh Hflags Hexecute. destruct counts as (H1 & H2 & H3). pose proof Hh as [Hl _].
  pose proof (holds_lengths shards Hh) as Hok.
  unfold with_classic_reconstruct_plan. rewrite Hflags. cbn [negb].
  assert (imap (λ i s, (i, shard_len s)) shards = imap pair (map shard_len shards)) as ->.
  { apply list_eq. intros i. rewrite !list_lookup_imap, lookup_map. by destruct (shards !! i). }
  pose proof (shape_count_error self (map shard_len shards)) as Hcnt.
  rewrite length_map, Hl, Nat.compare_refl in Hcnt. rewrite Hl, Hcnt. cbn [obind].
  pose proof (scan_prefix_start (map shard_len shards)) as Hscan. rewrite length_map, Hl in Hscan.
  destruct (scan_present_prefix _ _) as [[[first state] rest]|e|]; simpl in Hscan;
    [|by apply (lengths_ok_bad _ len e Hok) in Hscan|done].
  destruct first as [f|].
  2:{ apply restored_same; [done|]. intros i Hi _. destruct Hscan as [_ Hall].
      apply present_right; [done|done|]. by apply Hall. }
  destruct Hscan as (Hf & Hpre & Hpf & -> & Hst).
  pose proof (fill_shape_ensures self (map shard_len shards) state f
    ltac:(by rewrite length_map) H2 Hf Hpre Hpf Hst) as Hshape.
  destruct (fill_classic_reconstruct_shape_from_suffix _ _ _ _ _) as [shape|e|]; simpl in Hshape;
    [| |done].
  2:{ destruct Hshape as [Hbad|(-> & Hfew & _)].
      - by apply (lengths_ok_bad _ len e Hok) in Hbad.
      - by apply restored_same. }
  pose proof Hshape as (_ & Hnum & _ & Hinv & Hval).
  destruct Hval as [Hval Hmany].
  { rewrite Hinv. intros Hnil. assert (f ∈ invalid_of n (here shards)) as Hin.
    { apply list_elem_of_filter. split; [done|]. apply elem_of_seq. lia. }
    unfold here in Hin. rewrite Hnil in Hin. by apply not_elem_of_nil in Hin. }
  fold (number_here shards) in Hnum, Hmany. fold (here shards) in Hval, Hinv.
  destruct (fill_plan_spec self M (here shards) len shape goal Hc H2 H3 Hinv
    (shape_facts shards shape Hh ltac:(lia) Hshape) Hval (length_survivors shards Hl Hmany)
    ltac:(lia) Hflags H1 Hcache) as (c & r & Hfill & Hvalid & Hplan).
  rewrite Hfill. destruct r as [plan|e|]; simpl in Hplan; [| |done].
  - pose proof (Hexecute plan c Hmany Hplan) as Hexec.
    destruct (execute _ _ _) as [shards' r]. by apply executed_restored.
  - destruct Hplan as (-> & _ & _ & Hsing). split_and!; [by exists c|done|done|done|].
    right. by left.
Qed.

Lemma with_plan_restored shards :
  holds cw n shards → goal_flags_ok self goal = true →
  restored shards (with_classic_reconstruct_plan self shards goal execute_classic_plan_serial).
Proof.
  intros Hh Hflags. destruct counts as (H1 & _). pose proof Hcw as [(_ & Hlen & _) _].
  apply with_plan_executed; [done|done|]. intros plan c Hmany Hplan.
  by apply (executed_plan (compute_serial self) shards plan c Hh Hmany
    (compute_serial_ok self len H1 Hlen)).
Qed.
End correctness.

(** ** Properties of direct reconstruction *)
Section direct.
Context {F : Field} {FL : FieldLaws F} {RT : Runtime} {St : Storage Elem}
  {L : LruCache (list nat) (CachedMatrix Elem)} {LL : LruLaws L} {LD : LeopardDecoders}.
Context {T : Type} {S : ReconstructShard T} {SL : ShardLaws T S}.
Implicit Types (shards : list T).

(** The entry point of a goal. *)
Definition reconstruct_goal (self : ReedSolomon) shards (goal : ReconstructionGoal) : run :=
  match goal with
  | GoalAll => reconstruct self shards
  | GoalData => reconstruct_data self shards
  | GoalRequired required => reconstruct_some self shards required
  end.

Lemma classic_families self M :
  classic_codec self M → is_leopard_gf8_family self = false ∧ is_leopard_gf16_family self = false.
Proof.
  intros Hc. unfold is_leopard_gf8_family, is_leopard_gf16_family.
  rewrite (cc_family _ _ Hc). done.
Qed.

Lemma reconstruct_goal_plan self M shards goal :
  classic_codec self M → goal_flags_ok self goal = true →
  reconstruct_goal self shards goal
  = with_classic_reconstruct_plan self shards goal execute_classic_plan_serial.
Proof.
  intros Hc Hflags. destruct (classic_families self M Hc) as [H8 H16].
  destruct goal as [| |required]; simpl.
  - unfold reconstruct. by rewrite H8, H16.
  - unfold reconstruct_data. by rewrite H8, H16.
  - unfold reconstruct_some. rewrite H8, H16. simpl in Hflags.
    destruct (bool_decide (length required ≠ _) && _) eqn:Hf; [|done].
    apply andb_true_iff in Hf as [H1%bool_decide_eq_true H2%bool_decide_eq_true].
    by rewrite !bool_decide_eq_false_2 in Hflags by done.
Qed.

Lemma goal_restored self M len cw shards goal :
  classic_codec self M → cache_valid self →
  codeword M (data_shard_count self) (total_shard_count self) len cw →
  holds cw (total_shard_count self) shards → goal_flags_ok self goal = true →
  restored self M len cw goal shards (reconstruct_goal self shards goal).
Proof.
  intros Hc Hv Hcw Hh Hf. rewrite (reconstruct_goal_plan self M) by done.
  by apply with_plan_restored.
Qed.

(** The number of present shards. *)
Lemma filter_indices (l : list T) (q : nat → bool) (P : T → Prop) `{∀ s, Decision (P s)} :
  (∀ i s, l !! i = Some s → q i = true ↔ P s) →
  length (filter (λ i, q i = true) (seq 0 (length l))) = length (filter P l).
Proof.
  induction l as [|s l IH] using rev_ind; intros Hq; [done|].
  rewrite length_app. simpl. rewrite seq_app, !filter_app, !length_app, IH.
  - f_equal. simpl. rewrite !filter_cons.
    pose proof (Hq (length l) s ltac:(by apply list_lookup_middle)) as Hs.
    do 2 case_decide; done || tauto.
  - intros i t Hi. apply Hq. by apply lookup_app_l_Some.
Qed.

Definition number_missing shards : nat := length (filter (λ s, shard_is_empty s = true) shards).

Lemma number_here_missing shards : (number_here shards + number_missing shards)%nat = length shards.
Proof.
  unfold number_here, count_present, number_missing. rewrite length_map.
  rewrite (filter_indices shards _ (λ s, shard_is_empty s ≠ true)).
  - rewrite Nat.add_comm. apply length_filter_split.
  - intros i s Hs. unfold present_at, shard_is_empty. rewrite lookup_map, Hs. simpl.
    destruct (shard_len s); intuition congruence.
Qed.

(** An MDS code leaves every square of survivors nonsingular. *)
Lemma mds_survivors self M present :
  mds_codec self M →
  length (valid_of (total_shard_count self) (data_shard_count self) present) = data_shard_count self →
  nonsingular (data_shard_count self) (data_shard_count self)
    (selected_rows M (valid_of (total_shard_count self) (data_shard_count self) present)).
Proof.
  intros [_ Hm] Hl. pose proof (valid_of_survivors _ _ _ Hl) as (Hs & _ & Hb).
  apply (Hm (rows_at (valid_of (total_shard_count self) (data_shard_count self) present))).
  apply rows_at_selection; [by apply sorted_nodup_lt|lia|].
  intros i Hi. by apply Hb.
Qed.

(** C4: on a Classic codec, for any containers whose present shards belong
    to one codeword, each entry point ([reconstruct], [reconstruct_data],
    [reconstruct_some]) restores exactly what it is asked: on success every requested
    shard holds its codeword bytes and no other shard changed; it fails only
    with [TooFewShardsPresent] when fewer than [data] are left, with
    [InvalidCustomMatrix] when the survivors do not determine the data, both leaving the shards
    as they were, or with the error of a container that rejects its buffer, and then
    every present shard is still right.  The cache stays correct. *)
Theorem reconstruct_restores (self : ReedSolomon) (M : nat → nat → Elem) (len : nat)
    (cw : list (list Elem)) shards (goal : ReconstructionGoal)
    (Hc : classic_codec self M) (Hcache : cache_valid self)
    (Hcw : codeword M (data_shard_count self) (total_shard_count self) len cw)
    (Hholds : holds cw (total_shard_count self) shards)
    (Hflags : goal_flags_ok self goal = true) :
  restored self M len cw goal shards (reconstruct_goal self shards goal).
Proof. by apply goal_restored. Qed.

(** C1: the code corrects erasures, end to end: build a Classic codec with any
    built-in matrix, encode any shards, lose any at most [parity] of them, and
    reconstruct into containers that accept the shard length: the call succeeds and
    every shard holds exactly the bytes that were encoded. *)
Theorem erasures_corrected (d p : nat) (options : CodecOptions) (rs : ReedSolomon)
    {LE : LeopardEncoders} (input cw : list (list Elem)) shards
    (Hmode : builtin_mode (matrix_mode options)) (Hnew : with_options d p options = Ok rs)
    (Hclassic : rs_codec_family rs = Classic) (Hencode : encode rs input = Ok cw)
    (Hholds : holds cw (d + p) shards) (Hlost : number_missing shards ≤ p)
    (Haccept : ∀ s x, s ∈ shards → shard_get s = None → x ∈ cw → accepts s (length x)) :
  let '(_, shards', r) := reconstruct rs shards in
  r = Ok tt ∧ length shards' = (d + p)%nat ∧
  ∀ i x, cw !! i = Some x → ∃ s, shards' !! i = Some s ∧ shard_get s = Some x.
Proof.
  pose proof (with_options_ensures d p options Hmode) as Hok. rewrite Hnew in Hok. simpl in Hok.
  destruct Hok as (_ & _ & _ & Hd & Hp & Hfam & Hm & Hinv & Hempty).
  destruct Hm as [M Hm]; [congruence|]. pose proof Hm as [Hc Hmds].
  pose proof (encode_ensures rs M Hc input) as He. rewrite Hencode in He.
  destruct He as (len & Hl & Hcw_eq).
  assert (codeword M (data_shard_count rs) (total_shard_count rs) len cw) as Hcw.
  { rewrite Hcw_eq. eapply codeword_encoded; [apply (cc_systematic _ _ Hc)|].
    by eapply whole_split. }
  assert (cache_valid rs) as Hcache.
  { split; [done|]. intros k e. rewrite Hempty. by intros ?%not_elem_of_nil. }
  assert (total_shard_count rs = (d + p)%nat) as Htot
    by (unfold total_shard_count, data_shard_count, parity_shard_count in *; lia).
  rewrite <-Htot in Hholds.
  pose proof (goal_restored rs M len cw shards GoalAll Hc Hcache Hcw Hholds eq_refl) as Hr.
  simpl in Hr. destruct (reconstruct rs shards) as [[rs' shards'] r].
  destruct Hr as (_ & _ & [Hl' _] & _ & Hr). pose proof Hholds as [Hls _].
  pose proof (number_here_missing shards) as Hn. rewrite Htot in Hls.
  pose proof Hcw as [(Hcl & _ & Hall) _].
  destruct r as [[]|e|]; [| |done].
  - split_and!; [done|lia|]. intros i x Hx. pose proof (lookup_lt_Some _ _ _ Hx) as Hi.
    destruct (Hr i ltac:(lia) eq_refl) as (s & Hs & Hg). exists s. split; [done|].
    rewrite Hg. unfold shard_at. by rewrite Hx.
  - exfalso. destruct Hr as [(_ & _ & Hfew)|[(_ & _ & Hsing)|(i & s & s' & Hs & Hg & _ & Hrej)]].
    + lia.
    + apply Hsing, (mds_survivors rs M); [done|].
      eapply length_survivors; [|lia]. lia.
    + pose proof (lookup_lt_Some _ _ _ Hs) as Hi.
      destruct (lookup_lt_is_Some_2 cw i) as [x Hx]; [lia|].
      destruct (Haccept s x) as (s1 & v & Ha & _); [by eapply list_elem_of_lookup_2|done|
        by eapply list_elem_of_lookup_2|].
      eapply Forall_lookup_1 in Hall; [|exact Hx]. simpl in Hall. congruence.
Qed.
End direct.

(** ** Prepared workspaces *)
Section workspaces.
Context {F : Field} {FL : FieldLaws F} {RT : Runtime} {St : Storage Elem}
  {L : LruCache (list nat) (CachedMatrix Elem)} {LL : LruLaws L} {LD : LeopardDecoders}.
Context {T : Type} {S : ReconstructShard T} {SL : ShardLaws T S}.
Implicit Types (shards : list T).

Lemma filter_all_true (present : nat → bool) n :
  (∀ i, i < n → present i = true) → filter (λ i, present i = true) (seq 0 n) = seq 0 n.
Proof.
  intros H. rewrite (filter_ext_elem _ (λ _, True)).
  - clear. induction (seq 0 n) as [|x l IH]; [done|]. rewrite filter_cons_True by done. by f_equal.
  - intros i Hi%elem_of_seq. split; [done|]. intros _. apply H. lia.
Qed.

(** A plan without missing shards has no outputs. *)
Lemma fill_plan_complete (self : ReedSolomon) M present shape goal :
  classic_codec self M → invalid_indices shape = [] →
  invalid_of (total_shard_count self) present = [] →
  data_shard_count self ≤ number_present shape → goal_flags_ok self goal = true →
  ∃ plan, fill_classic_reconstruct_plan self (plan_new shape goal) goal
          = (set_cache self (rs_cache self), Ok plan) ∧
    plan_shape plan = shape ∧ data_targets (E:=Error) plan = Ok [] ∧
    parity_targets (E:=Error) plan = Ok [].
Proof.
  intros Hc Hnil Hinv Hnum Hflags. pose proof (cc_data _ _ Hc).
  assert (data_shard_count self ≤ total_shard_count self) as Hdn
    by (unfold total_shard_count, data_shard_count; lia).
  assert (∀ i, i < total_shard_count self → present i = true) as Hall.
  { intros i Hi. destruct (present i) eqn:Hp; [done|].
    assert (i ∈ invalid_of (total_shard_count self) present) as Hin.
    { apply list_elem_of_filter. split; [done|]. apply elem_of_seq. lia. }
    rewrite Hinv in Hin. by apply not_elem_of_nil in Hin. }
  assert (∀ lo hi, hi ≤ total_shard_count self →
    targets_in present (data_shard_count self) goal lo hi = []) as Hempty.
  { intros lo hi Hhi. apply filter_none. intros i Hi%elem_of_seq [Hp _].
    rewrite Hall in Hp by lia. done. }
  assert (filter (λ i, present i = false) (seq 0 (data_shard_count self)) = []) as Hmiss.
  { apply filter_none. intros i Hi%elem_of_seq. rewrite Hall by lia. done. }
  assert (invalid_indices shape = invalid_of (total_shard_count self) present) as Hi
    by congruence.
  assert (length (valid_of (total_shard_count self) (data_shard_count self) present)
    = data_shard_count self) as Hsurv.
  { unfold valid_of. rewrite (filter_all_true present (total_shard_count self) Hall).
    rewrite length_take, length_seq. lia. }
  destruct (counts self M Hc) as (_ & _ & Hn).
  pose proof (fill_plan_finish self present (shape_shard_len shape) shape goal Hdn Hn Hi eq_refl
    Hsurv Hnum Hflags (rs_cache self) (Ok None)) as Hf.
  unfold needs_inverse in Hf. rewrite Hmiss in Hf. cbn [negb andb] in Hf.
  rewrite bool_decide_eq_false_2 in Hf by auto. cbn [andb] in Hf.
  rewrite Hf by (by destruct self). cbn [obind]. unfold finish_plan.
  destruct (select_targets self shape goal) as [selected count] eqn:Hsel.
  rewrite Hmiss, (bool_decide_eq_false_2 ([] ≠ [])), andb_false_r by auto. cbn [andb].
  eexists. split; [done|].
  edestruct (targeted_targets self present shape goal Hi Hdn) as (H1 & H2 & _);
    [|rewrite H1, H2, !Hempty by lia; done].
  unfold targeted. cbn. by rewrite Hsel.
Qed.

(** Filling a plan keeps its shape. *)
Lemma fill_plan_shape (self self' : ReedSolomon) shape goal plan :
  fill_classic_reconstruct_plan self (plan_new shape goal) goal = (self', Ok plan) →
  plan_shape plan = shape.
Proof.
  unfold fill_classic_reconstruct_plan. cbn [plan_new plan_shape]. case_decide; [done|].
  destruct (negb _); [done|]. destruct (select_targets self shape goal) as [selected count].
  destruct (obind (data_targets _) _) as [[a b]| |]; [|done..].
  destruct (if bool_decide _ && _ then _ else _) as [self1 inverse]. intros Hf.
  destruct inverse as [m| |]; [|done..]. cbn [obind] in Hf. destruct (_ && _ && b).
  - destruct m as [m|]; [|done]. cbn [or_panic obind] in Hf.
    destruct (map_outcome _ _); [|done..]. by injection Hf as _ <-.
  - by injection Hf as _ <-.
Qed.

Lemma number_here_all (self : ReedSolomon) shards :
  length shards = total_shard_count self →
  invalid_of (total_shard_count self) (here shards) = [] →
  number_here shards = total_shard_count self.
Proof.
  intros Hl Hnil. unfold number_here, count_present. rewrite length_map, Hl.
  rewrite filter_all_true; [apply length_seq|]. intros i Hi.
  destruct (present_at (map shard_len shards) i) eqn:Hp; [done|].
  assert (i ∈ invalid_of (total_shard_count self) (here shards)) as Hin.
  { apply list_elem_of_filter. split; [done|]. apply elem_of_seq. lia. }
  rewrite Hnil in Hin. by apply not_elem_of_nil in Hin.
Qed.

(** What a workspace prepared for a pattern promises. *)
Definition workspace_for (self : ReedSolomon) (M : nat → nat → Elem) (present : nat → bool)
    (len : nat) (goal : ReconstructionGoal) (ws : ReconstructWorkspace) : Prop :=
  let d := data_shard_count self in let n := total_shard_count self in
  workspace_format ws = rs_format self ∧
  invalid_indices (plan_shape (workspace_plan ws)) = invalid_of n present ∧
  shape_shard_len (plan_shape (workspace_plan ws)) = len ∧
  0 < len ∧ length (valid_of n d present) = d ∧
  (plan_for self M present len (targets_in present d goal 0 d) (targets_in present d goal d n)
     (workspace_plan ws) ∨
   (invalid_of n present = [] ∧ data_targets (E:=Error) (workspace_plan ws) = Ok [] ∧
    parity_targets (E:=Error) (workspace_plan ws) = Ok [])).

(** What preparing can answer. *)
Lemma prepare_ensures (self : ReedSolomon) M shards goal :
  classic_codec self M → cache_valid self → goal_flags_ok self goal = true →
  ∃ c r, prepare_reconstruct_workspace_with_goal self shards goal = (set_cache self c, r) ∧
    cache_valid (set_cache self c) ∧
    ensures r (λ ws, length shards = total_shard_count self ∧
        ∃ len, lengths_ok (map shard_len shards) len ∧
          workspace_for self M (here shards) len goal ws)
      (λ e, (e = TooFewShards ∧ length shards < total_shard_count self) ∨
         (e = TooManyShards ∧ total_shard_count self < length shards) ∨
         lengths_bad (map shard_len shards) e ∨
         (e = TooFewShardsPresent ∧ number_here shards < data_shard_count self) ∨
         (e = InvalidCustomMatrix ∧ ¬ nonsingular (data_shard_count self) (data_shard_count self)
            (selected_rows M (valid_of (total_shard_count self) (data_shard_count self)
               (here shards))))).
Proof.
  intros Hc Hv Hflags. destruct (counts self M Hc) as (H1 & H2 & H3).
  unfold prepare_reconstruct_workspace_with_goal.
  assert (∀ e : Error, ∃ c, (self, Err e) = (set_cache self c, Err (A:=ReconstructWorkspace) e) ∧
    cache_valid (set_cache self c)) as Hkeep.
  { intros e. exists (rs_cache self). by destruct self. }
  unfold check_piece_count_all, check_piece_count. case_decide as Hfew.
  { cbn [obind]. destruct (Hkeep TooFewShards) as (c & -> & ?). eexists c, _. split_and!; [done|done|]. by left. }
  case_decide as Hmany.
  { cbn [obind]. destruct (Hkeep TooManyShards) as (c & -> & ?). eexists c, _. split_and!; [done|done|].
    right. by left. }
  assert (length shards = total_shard_count self) as Hl by lia.
  unfold is_leopard_family. destruct (classic_families self M Hc) as [-> ->]. cbn [obind orb].
  pose proof (shape_ensures self (map shard_len shards) H2 ltac:(by rewrite length_map)) as Hs.
  destruct (classic_reconstruct_shape self _) as [shape|e|]; simpl in Hs; [| |done].
  2:{ destruct (Hkeep e) as (c & -> & ?). eexists c, _. split_and!; [done|done|]. simpl.
      destruct Hs as [Hb|(-> & Hcnt & _)]; [tauto|]. right. right. right. by left. }
  pose proof Hs as (Hok & Hnum & Hzero & Hinv & Hval).
  fold (number_here shards) in Hnum, Hzero, Hval. fold (here shards) in Hinv, Hval.
  assert (d_le : data_shard_count self ≤ number_here shards).
  { destruct (decide (invalid_indices shape = [])) as [Hnil|Hne]; [|by apply Hval].
    pose proof (number_here_all self shards Hl) as Hall. rewrite <-Hinv in Hall.
    rewrite Hall by done. lia. }
  assert (0 < shape_shard_len shape) as Hlen.
  { destruct (shape_shard_len shape); [|lia]. specialize (Hzero eq_refl). lia. }
  pose proof (length_survivors self shards Hl d_le) as Hsurv.
  unfold prepare_classic_reconstruct_plan.
  destruct (decide (invalid_indices shape = [])) as [Hnil|Hne].
  - destruct (fill_plan_complete self M (here shards) shape goal Hc Hnil) as (plan & Hf & Hsh & Ht1 & Ht2);
      [congruence|lia|done|].
    rewrite Hf. eexists _, _. split; [done|]. split; [by destruct self|]. simpl. split; [done|].
    exists (shape_shard_len shape). split; [done|]. unfold workspace_for. simpl. rewrite Hsh.
    split_and!; [done|done|done|done|done|]. right. split_and!; [congruence|done|done].
  - destruct (Hval Hne) as [Hval' _].
    destruct (fill_plan_spec self M (here shards) (shape_shard_len shape) shape goal Hc H2 H3 Hinv
      eq_refl Hval' Hsurv ltac:(lia) Hflags H1 Hv) as (c & r & Hfill & Hvalid & Hplan).
    rewrite Hfill. eexists c, _. split; [done|]. split; [done|].
    destruct r as [plan|e|]; simpl in *; [| |done].
    + split; [done|]. exists (shape_shard_len shape). split; [done|].
      assert (plan_shape plan = shape) as Hsh by (by eapply fill_plan_shape).
      unfold workspace_for. simpl. rewrite Hsh. split_and!; [done|done|done|done|done|by left].
    + destruct Hplan as (-> & _ & _ & Hsing). tauto.
Qed.

(** ** Reuse *)

(** Validation accepts the layout it was prepared for. *)
Lemma validate_same (arc : bool) (self : ReedSolomon) M shards ws :
  classic_codec self M → workspace_format ws = rs_format self →
  length shards = total_shard_count self →
  shape_for self (map shard_len shards) (plan_shape (workspace_plan ws)) →
  0 < number_here shards →
  validate_reconstruct_workspace arc self shards ws = Ok tt.
Proof.
  intros Hc Hfmt Hl Hshape Hpos. unfold validate_reconstruct_workspace.
  unfold check_piece_count_all, check_piece_count. rewrite !decide_False by lia. cbn [obind].
  unfold is_leopard_family. destruct (classic_families self M Hc) as [-> ->]. cbn [orb].
  rewrite Hfmt. unfold data_shard_count, parity_shard_count.
  rewrite !decide_False by lia.
  assert (format_wf (rs_format self)) as Hwf.
  { exists M. pose proof (cc_rep _ _ Hc) as Hrep. pose proof Hrep as (-> & -> & _). exact Hrep. }
  destruct (format_eq_decides (rs_format self) (rs_format self) arc Hwf Hwf ltac:(done))
    as (b & -> & Hb). cbn [obind]. rewrite (proj2 Hb eq_refl). cbn [negb].
  pose proof Hshape as (Hok & Hnum & Hz & Hinv & _).
  assert (StronglySorted lt (invalid_indices (plan_shape (workspace_plan ws)))) as Hsorted.
  { rewrite Hinv. apply sorted_filter, sorted_seq. }
  pose proof (layout_ensures self (map shard_len shards) (plan_shape (workspace_plan ws)) Hsorted
    ltac:(by rewrite length_map)) as Hlay.
  assert (matches (map shard_len shards) (plan_shape (workspace_plan ws)) (length shards)) as Hm.
  { intros i Hi. rewrite Hinv. unfold invalid_of. rewrite list_elem_of_filter, elem_of_seq.
    destruct (present_at (map shard_len shards) i); intuition (congruence || lia). }
  rewrite length_map in Hlay.
  destruct (validate_classic_plan_layout _ _ _) as [[]|e|]; [done| |done].
  destruct Hlay as [Hbad|[[_ Hno]|(_ & _ & len & Hlen & Hz' & Hne)]]; [|done|].
  - by apply (lengths_ok_bad _ _ e Hok) in Hbad.
  - exfalso. fold (number_here shards) in Hz, Hz'.
    unfold number_here, count_present in Hpos. destruct (filter _ _) as [|i l] eqn:Hf;
      [simpl in Hpos; lia|].
    assert (i ∈ i :: l) as Hi by left. rewrite <-Hf in Hi.
    apply list_elem_of_filter in Hi as [Hp _]. unfold present_at in Hp.
    destruct (map shard_len shards !! i) as [[l'|]|] eqn:Hli; [|done..].
    destruct (Hok i l' Hli), (Hlen i l' Hli). congruence.
Qed.

(** The direct call once the shape is known. *)
Lemma with_plan_shape (self : ReedSolomon) shards goal shape execute :
  data_shard_count self ≤ total_shard_count self → length shards = total_shard_count self →
  goal_flags_ok self goal = true →
  classic_reconstruct_shape self (map shard_len shards) = Ok shape →
  with_classic_reconstruct_plan self shards goal execute =
  if decide (invalid_indices shape = []) then (self, shards, Ok tt) else
  match fill_classic_reconstruct_plan self (plan_new shape goal) goal with
  | (self, Err e) => (self, shards, Err e)
  | (self, Panic) => (self, shards, Panic)
  | (self, Ok plan) => let '(shards, r) := execute self shards plan in (self, shards, r)
  end.
Proof.
  intros Hdn Hl Hflags Hshape. unfold with_classic_reconstruct_plan. rewrite Hflags. cbn [negb].
  assert (imap (λ i s, (i, shard_len s)) shards = imap pair (map shard_len shards)) as ->.
  { apply list_eq. intros i. rewrite !list_lookup_imap, lookup_map. by destruct (shards !! i). }
  unfold classic_reconstruct_shape in Hshape. rewrite length_map in Hshape.
  destruct (validate_classic_shard_count self (length shards)) as [u| |]; [|done..].
  cbn [obind] in *.
  pose proof (scan_prefix_start (map shard_len shards)) as Hscan.
  destruct (scan_present_prefix _ _) as [[[first state] rest]| |]; [|done..].
  cbn [obind ensures] in *. destruct first as [f|].
  - destruct Hscan as (Hf & Hpre & Hpf & -> & Hst). rewrite length_map in Hf.
    pose proof (fill_shape_ensures self (map shard_len shards) state f
      ltac:(by rewrite length_map) Hdn ltac:(lia) Hpre Hpf Hst) as Hs.
    rewrite Hshape in *. destruct Hs as (_ & _ & _ & Hinv & _).
    rewrite decide_False; [done|]. rewrite Hinv. intros Hnil.
    assert (f ∈ invalid_of (total_shard_count self) (present_at (map shard_len shards))) as Hin.
    { apply list_elem_of_filter. split; [done|]. apply elem_of_seq. lia. }
    rewrite Hnil in Hin. by apply not_elem_of_nil in Hin.
  - injection Hshape as <-. by rewrite decide_True.
Qed.

(** Executing depends on the codec through its format only. *)
Lemma execute_format (self self' : ReedSolomon) shards plan :
  rs_format self' = rs_format self →
  execute_classic_plan_serial self' shards plan = execute_classic_plan_serial self shards plan.
Proof. destruct self, self'. simpl. by intros ->. Qed.

Lemma plan_result_format (self self' : ReedSolomon) present shape goal :
  rs_format self' = rs_format self →
  plan_result self' present shape goal = plan_result self present shape goal.
Proof. destruct self, self'. simpl. by intros ->. Qed.

Lemma classic_format (self self' : ReedSolomon) M :
  rs_format self' = rs_format self → rs_options self' = rs_options self →
  classic_codec self M → classic_codec self' M.
Proof. destruct self, self'. simpl. by intros -> -> []. Qed.

(** An owned plan and a plan built now are the same. *)
Lemma plans_agree (self self' : ReedSolomon) M shards goal shape :
  classic_codec self M → classic_codec self' M → rs_format self' = rs_format self →
  cache_valid self → cache_valid self' → goal_flags_ok self goal = true →
  length shards = total_shard_count self →
  shape_for self (map shard_len shards) shape → invalid_indices shape ≠ [] →
  ∃ c c' r, fill_classic_reconstruct_plan self (plan_new shape goal) goal = (set_cache self c, r) ∧
    fill_classic_reconstruct_plan self' (plan_new shape goal) goal = (set_cache self' c', r) ∧
    cache_valid (set_cache self c) ∧ cache_valid (set_cache self' c').
Proof.
  intros Hc Hc' Hfmt Hv Hv' Hflags Hl (_ & Hnum & _ & Hinv & Hval) Hne.
  destruct (Hval Hne) as [Hval' Hmany]. destruct (counts self M Hc) as (H1 & H2 & H3).
  pose proof (length_survivors self shards Hl Hmany) as Hsurv.
  assert (total_shard_count self' = total_shard_count self ∧
    data_shard_count self' = data_shard_count self) as [Hn Hd].
  { unfold total_shard_count, data_shard_count. by rewrite Hfmt. }
  destruct (fill_plan_result self M (here shards) (shape_shard_len shape) shape goal Hc H2 H3 Hinv eq_refl
    Hval' Hsurv ltac:(lia) Hflags H1 Hv) as (c & Hf & Hvc).
  destruct (counts self' M Hc') as (G1 & G2 & G3).
  destruct (fill_plan_result self' M (here shards) (shape_shard_len shape) shape goal Hc' G2 G3
    ltac:(by rewrite Hn) eq_refl ltac:(by rewrite Hn, Hd) ltac:(by rewrite Hn, Hd) ltac:(lia)
    ltac:(destruct goal; simpl in *; rewrite ?Hn, ?Hd; done) G1 Hv') as (c' & Hf' & Hvc').
  exists c, c', (plan_result self (here shards) shape goal). split_and!; [done| |done|done].
  by rewrite Hf', (plan_result_format self self').
Qed.

(** Executing a plan without outputs. *)
Lemma execute_nothing compute (self : ReedSolomon) shards plan :
  data_targets (E:=Error) plan = Ok [] → parity_targets (E:=Error) plan = Ok [] →
  execute_classic_plan_with compute self shards plan = (shards, Ok tt).
Proof. intros H1 H2. unfold execute_classic_plan_with, has_outputs. by rewrite H1, H2. Qed.

Section reuse.
Context (self self' : ReedSolomon) (M : nat → nat → Elem) (goal : ReconstructionGoal).
Context {T0 : Type} {S0 : ReconstructShard T0} (before : list T0) (shards : list T).
Context (prepared : ReedSolomon) (ws : ReconstructWorkspace).
Context (Hc : classic_codec self M) (Hv : cache_valid self).
Context (Hc' : classic_codec self' M) (Hfmt : rs_format self' = rs_format self).
Context (Hv' : cache_valid self') (Hflags : goal_flags_ok self goal = true).
Context (Hprepare : prepare_reconstruct_workspace_with_goal self before goal = (prepared, Ok ws)).
Context (Hsame : map shard_len shards = map shard_len before).
#[local] Abbreviation plan := (workspace_plan ws).
#[local] Abbreviation shape := (plan_shape (workspace_plan ws)).

Lemma same_counts : data_shard_count self' = data_shard_count self ∧
  total_shard_count self' = total_shard_count self.
Proof. unfold total_shard_count, data_shard_count. by rewrite Hfmt. Qed.

(** The workspace fits the new shards: nothing is missing and the plan is empty, or
    the plan is the one a direct call builds. *)
Lemma prepared_facts :
  length shards = total_shard_count self ∧ workspace_format ws = rs_format self ∧
  classic_reconstruct_shape self' (map shard_len shards) = Ok shape ∧
  shape_for self' (map shard_len shards) shape ∧ 0 < number_here shards ∧
  goal_flags_ok self' goal = true ∧
  ((invalid_indices shape = [] ∧ data_targets (E:=Error) plan = Ok [] ∧
    parity_targets (E:=Error) plan = Ok []) ∨
   (invalid_indices shape ≠ [] ∧
    ∃ c, fill_classic_reconstruct_plan self' (plan_new shape goal) goal
         = (set_cache self' c, Ok plan))).
Proof.
  destruct (counts self M Hc) as (H1 & H2 & H3). destruct same_counts as [Hd Hn].
  pose proof Hprepare as Hp. unfold prepare_reconstruct_workspace_with_goal in Hp.
  rewrite <-Hsame in Hp.
  assert (length before = length shards) as Hlen
    by (by rewrite <-(length_map shard_len shards), Hsame, length_map).
  rewrite Hlen in Hp. destruct (check_piece_count_all _ _) as [[]| |] eqn:Hpc; [|done..].
  cbn [obind] in Hp. apply check_piece_count_inv in Hpc as Hl.
  unfold is_leopard_family in Hp. destruct (classic_families self M Hc) as [E1 E2].
  rewrite E1, E2 in Hp. cbn [orb] in Hp.
  pose proof (shape_ensures self (map shard_len shards) H2 ltac:(by rewrite length_map)) as Hs.
  destruct (classic_reconstruct_shape self (map shard_len shards)) as [sh| |] eqn:Hshape; [|done..].
  simpl in Hs. unfold prepare_classic_reconstruct_plan in Hp.
  assert (classic_reconstruct_shape self' (map shard_len shards) = Ok sh) as Hshape'.
  { rewrite <-Hshape. clear -Hfmt. destruct self, self'. simpl in *. by subst. }
  assert (shape_for self' (map shard_len shards) sh) as Hs'
    by (unfold shape_for; by rewrite Hn, Hd).
  pose proof Hs as (_ & Hnum & _ & Hinv & Hval). fold (number_here shards) in Hnum, Hval.
  assert (invalid_indices sh = [] → number_here shards = total_shard_count self) as Hfull.
  { intros Hnil. apply number_here_all; [done|]. unfold here. by rewrite <-Hinv. }
  assert (0 < number_here shards) as Hpos.
  { destruct (decide (invalid_indices sh = [])) as [Hnil|Hne];
      [rewrite Hfull by done; lia|destruct (Hval Hne); lia]. }
  assert (goal_flags_ok self' goal = true) as Hflags'
    by (by destruct goal; simpl in *; rewrite ?Hn, ?Hd).
  destruct (decide (invalid_indices sh = [])) as [Hnil|Hne].
  - destruct (fill_plan_complete self M (here shards) sh goal Hc Hnil) as (pl & Hf & Hsh & T1 & T2);
      [unfold here; congruence|rewrite Hnum, Hfull by done; lia|done|].
    rewrite Hf in Hp. injection Hp as <- <-. cbn [workspace_plan workspace_format]. rewrite Hsh.
    split_and!; try done. by left.
  - destruct (plans_agree self self' M shards goal sh Hc Hc' Hfmt Hv Hv' Hflags Hl Hs Hne)
      as (c & c' & r & Hf & Hf' & _ & _).
    rewrite Hf in Hp. destruct r as [pl| |]; [|done..]. cbn [obind] in Hp. injection Hp as <- <-.
    cbn [workspace_plan workspace_format]. rewrite (fill_plan_shape _ _ _ _ _ Hf).
    split_and!; try done. right. split; [done|]. by exists c'.
Qed.

Lemma prepared_validates arc : validate_reconstruct_workspace arc self' shards ws = Ok tt.
Proof.
  destruct prepared_facts as (Hl & Hf & _ & Hs & Hpos & _). destruct same_counts as [Hd Hn].
  apply (validate_same arc self' M); [done|congruence|lia|done|done].
Qed.
End reuse.

(** C29: a workspace prepared once does, on any later shards of the
    same lengths and missing pattern and whatever their contents and containers, what the
    direct call does, on the same codec or on another one with an equal format: the
    validation accepts them, and shards and result agree, errors of containers included.
    Neither depends on what either cache holds. *)
Theorem workspace_equals_direct (arc : bool) (self self' : ReedSolomon) (M : nat → nat → Elem)
    {T0 : Type} {S0 : ReconstructShard T0} (before : list T0) shards goal
    (prepared : ReedSolomon) (ws : ReconstructWorkspace)
    (Hc : classic_codec self M) (Hv : cache_valid self)
    (Hc' : classic_codec self' M) (Hfmt : rs_format self' = rs_format self) (Hv' : cache_valid self')
    (Hflags : goal_flags_ok self goal = true)
    (Hprepare : prepare_reconstruct_workspace_with_goal self before goal = (prepared, Ok ws))
    (Hsame : map shard_len shards = map shard_len before) :
  reconstruct_with_workspace arc self' shards ws
  = let '(_, shards', r) := reconstruct_goal self' shards goal in (shards', r).
Proof.
  unfold reconstruct_with_workspace.
  rewrite (prepared_validates self self' M goal before shards prepared ws) by done.
  destruct (prepared_facts self self' M goal before shards prepared ws) as
    (Hl & _ & Hshape & _ & _ & Hflags' & Hcase); try done.
  destruct (counts self' M Hc') as (_ & G2 & _). destruct (same_counts self self' Hfmt) as [_ Hn].
  rewrite (reconstruct_goal_plan self' M) by done.
  rewrite (with_plan_shape self' shards goal _ _ G2 ltac:(lia) Hflags' Hshape).
  destruct Hcase as [(Hnil & T1 & T2)|(Hne & c & Hf)].
  - rewrite decide_True by done. by apply execute_nothing.
  - rewrite decide_False, Hf by done. rewrite (execute_format self' (set_cache self' c)) by done.
    by destruct (execute_classic_plan_serial self' shards _).
Qed.

(** executing a prepared workspace with parallel chunk tasks, in any
    order the scheduler picks at each destination, restores what the goal asks exactly as the serial
    executor does, for shards of any codeword with the prepared lengths and pattern. *)
Theorem workspace_par_restores (arc : bool) (orders : nat → list task) (self self' : ReedSolomon)
    (M : nat → nat → Elem) (len : nat) (cw : list (list Elem))
    {T0 : Type} {S0 : ReconstructShard T0} (before : list T0) shards goal
    (prepared : ReedSolomon) (ws : ReconstructWorkspace)
    (Hc : classic_codec self M) (Hv : cache_valid self)
    (Hc' : classic_codec self' M) (Hfmt : rs_format self' = rs_format self) (Hv' : cache_valid self')
    (Hflags : goal_flags_ok self goal = true)
    (Hprepare : prepare_reconstruct_workspace_with_goal self before goal = (prepared, Ok ws))
    (Hsame : map shard_len shards = map shard_len before)
    (Hcw : codeword M (data_shard_count self') (total_shard_count self') len cw)
    (Hholds : holds cw (total_shard_count self') shards)
    (Horders : let '(data_policy, parity_policy) := reconstruct_stage_policies
        (rs_policy_cache self') (data_only (workspace_plan ws)) in
      reconstruct_schedules self' len orders data_policy parity_policy) :
  restored self' M len cw goal shards
    (self', (reconstruct_with_workspace_par orders arc self' shards ws).1,
            (reconstruct_with_workspace_par orders arc self' shards ws).2).
Proof.
  unfold reconstruct_with_workspace_par.
  rewrite (prepared_validates self self' M goal before shards prepared ws) by done.
  destruct (prepared_facts self self' M goal before shards prepared ws) as
    (Hl & _ & _ & Hs & Hpos & Hflags' & Hcase); try done.
  destruct (counts self' M Hc') as (G1 & G2 & G3). destruct (same_counts self self' Hfmt) as [_ Hn].
  pose proof Hcw as [(_ & Hlen & _) _]. pose proof Hs as (_ & Hnum & _ & Hinv & Hval).
  fold (number_here shards) in Hnum, Hval. fold (here shards) in Hval, Hinv.
  destruct (reconstruct_stage_policies _ _) as [dp pp].
  destruct Hcase as [(Hnil & T1 & T2)|(Hne & c & Hf)].
  - rewrite execute_nothing by done. apply (restored_same self' M len cw); [done..|].
    intros i Hi _. apply (present_right self' cw); [done..|].
    destruct (here shards i) eqn:Hp; [done|].
    assert (i ∈ invalid_of (total_shard_count self') (here shards)) as Hin.
    { apply list_elem_of_filter. split; [done|]. apply elem_of_seq. lia. }
    rewrite <-Hinv, Hnil in Hin. by apply not_elem_of_nil in Hin.
  - destruct (Hval Hne) as [Hval' Hmany].
    pose proof (length_survivors self' shards ltac:(lia) Hmany) as Hsurv.
    destruct (fill_plan_spec self' M (here shards) len _ goal Hc' G2 G3 Hinv
      (shape_facts self' M len cw Hcw shards _ Hholds Hpos Hs) Hval' Hsurv ltac:(lia) Hflags' G1 Hv')
      as (c' & r & Hf' & _ & Hplan).
    rewrite Hf in Hf'. injection Hf' as _ <-. simpl in Hplan.
    pose proof (executed_plan self' M len cw Hc' Hcw goal (compute_par orders self' dp pp) shards _
      (rs_cache self') Hholds Hmany (compute_par_ok self' len G1 Hlen orders dp pp Horders) Hplan)
      as Hexec.
    assert (set_cache self' (rs_cache self') = self') as Hself by (by destruct self').
    rewrite Hself in Hexec.
    destruct (execute_classic_plan_with _ _ _ _) as [shards' r] eqn:Hr.
    cbn [fst snd].
    pose proof (executed_restored self' M len cw Hc' goal shards (rs_cache self') shards' r) as He.
    rewrite Hself in He. by apply He.
Qed.
End workspaces.
