(* ===== verification/OptionVec.v ===== *)
(** * Bulk reconstruction of option vectors ([src/core/reconstruct.rs], lines
    172-261 and 419-530, [src/core/recovery_plan.rs], lines 88-145 and 183-200,
    [src/galois_8/policy.rs], lines 195-560)

    [Option<Vec<_>>] destinations cannot reject a buffer.  Their executor binds all
    survivors and destinations in one walk, fills the destinations with zeros,
    and computes all outputs of a stage in one coding call, serial or on a parallel
    schedule.  The rows of both stages are one table, cut at the number of data
    targets; composed plans run as a single stage.

    The executor serves every field.  The policies and Classic entry points are
    those of [galois_8::ReedSolomon]; [F] stands for its field, and [Gf8Opt] adds what
    is specific to it.  The theorem: whatever the goal, the policy, the use of
    a prepared workspace and the schedule, the bulk executor restores what the
    sequential executor for generic containers restores. *)

From Stdlib Require Import NArith Lia List Bool Sorted.
From stdpp Require Import base numbers list.
From S2P Require Import Prelude Errors Fields LinAlg Matrix Options Leopard InversionCache.
From S2P Require Import Parallel Checks Codec Coding Encode Shards Format DecodeMatrix.
From S2P Require Import RecoveryPlan Execute LeopardReconstruct Reconstruct.

Local Open Scope field_scope.

Section option_vec.
Context {F : Field} {RT : Runtime} {St : Storage Elem}
  {L : LruCache (list nat) (CachedMatrix Elem)}.

#[local] Abbreviation shard := (option (list Elem)).

(** ** The row table *)
Record ClassicReconstructRows := mk_view {
  view_plan : ClassicReconstructPlan;
  view_matrix : Matrix Elem;
  view_start : nat;
  view_len : nat;
}.

Definition row_views (self : ClassicReconstructPlan) (codec : ReedSolomon)
  : outcome Error ClassicReconstructRows :=
  let! data := data_targets self in
  let! _ := if bool_decide (data ≠ []) then let! _ := plan_inverse self in Ok tt else Ok tt in
  let! parity := parity_targets self in
  Ok (mk_view self (format_matrix (rs_format codec)) 0 (length data + length parity)).

Definition rows_split_at (self : ClassicReconstructRows) (idx : nat)
  : outcome Error (ClassicReconstructRows * ClassicReconstructRows) :=
  if decide (view_len self < idx) then Panic else
  Ok (mk_view (view_plan self) (view_matrix self) (view_start self) idx,
      mk_view (view_plan self) (view_matrix self) (view_start self + idx)
        (view_len self - idx)).

Definition view_row (self : ClassicReconstructRows) (i : nat) : outcome Error (list Elem) :=
  if decide (view_len self ≤ i) then Panic else
  let i := (view_start self + i)%nat in
  let! data := data_targets (view_plan self) in
  if decide (i < length data) then
    let! m := plan_inverse (view_plan self) in
    let! target := index data i in get_row m target
  else
    let i := (i - length data)%nat in
    if direct_parity (view_plan self) then index (parity_decode_rows (view_plan self)) i
    else
      let! parity := parity_targets (view_plan self) in
      let! target := index parity i in get_row (view_matrix self) target.

(** [impl MatrixRows for ClassicReconstructRows] *)
Definition rows_of_view (self : ClassicReconstructRows) : MatrixRows :=
  mk_rows (view_len self) (view_row self).

(** ** Binding *)

(** [shard.get_or_insert_with(|| vec![F::zero(); len])] *)
Definition get_or_insert_zeros (len : nat) (s : shard) : shard :=
  Some (default (replicate len 0) s).

(** One shard of the walk.  Composed plans collect parity destinations behind the
    data destinations. *)
Definition bind_option (plan : ClassicReconstructPlan) (idx : nat) (s : shard) (b : Bindings)
  : shard * outcome Error Bindings :=
  let len := shape_shard_len (plan_shape plan) in
  if decide (head (survivors_left b) = Some idx) then
    (s, let! input := ok_or s TooFewShardsPresent in
        Ok (mk_bindings (tail (survivors_left b)) (data_left b) (parity_left b)
          (bound_inputs b ++ [input]) (data_destinations b) (parity_destinations b)))
  else if decide (head (data_left b) = Some idx) then
    (get_or_insert_zeros len s,
     Ok (mk_bindings (survivors_left b) (tail (data_left b)) (parity_left b)
       (bound_inputs b) (data_destinations b ++ [idx]) (parity_destinations b)))
  else if decide (head (parity_left b) = Some idx) then
    (get_or_insert_zeros len s,
     Ok (if direct_parity plan
         then mk_bindings (survivors_left b) (data_left b) (tail (parity_left b))
           (bound_inputs b) (data_destinations b ++ [idx]) (parity_destinations b)
         else mk_bindings (survivors_left b) (data_left b) (tail (parity_left b))
           (bound_inputs b) (data_destinations b) (parity_destinations b ++ [idx])))
  else (s, Ok b).

Fixpoint bind_options (plan : ClassicReconstructPlan) (idx : nat) (shards : list shard)
    (b : Bindings) : list shard * outcome Error Bindings :=
  match shards with
  | [] => ([], Ok b)
  | s :: shards =>
      match bind_option plan idx s b with
      | (s, Ok b) =>
          let '(shards, r) := bind_options plan (Datatypes.S idx) shards b in (s :: shards, r)
      | (s, r) => (s :: shards, r)
      end
  end.

(** ** Stages *)

(** What a coding callback computes for a stage: rows, inputs, and the previous
    contents of the output views. *)
Definition bulk_fn : Type :=
  bool → MatrixRows → list (list Elem) → list (list Elem) → outcome Error (list (list Elem)).

Definition output_views {E} (shards : list shard) (dests : list nat)
  : outcome E (list (list Elem)) :=
  map_outcome (λ i, let! s := index shards i in or_panic s) dests.

Fixpoint write_views (shards : list shard) (dests : list nat) (outputs : list (list Elem))
  : list shard :=
  match dests, outputs with
  | i :: dests, output :: outputs => write_views (<[i := Some output]> shards) dests outputs
  | _, _ => shards
  end.

Definition run_stage (compute : list (list Elem) → outcome Error (list (list Elem)))
    (dests : list nat) (shards : list shard) : list shard * outcome Error (list (list Elem)) :=
  match (let! views := output_views shards dests in compute views) with
  | Ok outputs => (write_views shards dests outputs, Ok outputs)
  | Err e => (shards, Err e)
  | Panic => (shards, Panic)
  end.

(** The stages of an ordinary plan: the parity stage reads the finished data
    outputs. *)
Definition ordinary_stages (compute : bulk_fn) (data_rows parity_rows : MatrixRows)
    (data : list nat) (b : Bindings) (shards : list shard)
    : list shard * outcome Error unit :=
  let '(shards, r) :=
    if bool_decide (data_destinations b = []) then (shards, Ok [])
    else run_stage (compute true data_rows (bound_inputs b)) (data_destinations b) shards in
  match r with
  | Err e => (shards, Err e)
  | Panic => (shards, Panic)
  | Ok outputs =>
      if decide (parity_destinations b = []) then (shards, Ok tt) else
      match
        (if bool_decide (outputs ≠ []) then use_recovered_data (bound_inputs b) data outputs
         else Ok (bound_inputs b))
      with
      | Err e => (shards, Err e)
      | Panic => (shards, Panic)
      | Ok inputs =>
          let '(shards, r) :=
            run_stage (compute false parity_rows inputs) (parity_destinations b) shards in
          (shards, let! _ := r in Ok tt)
      end
  end.

Definition execute_classic_option_plan_bulk (compute : bulk_fn) (self : ReedSolomon)
    (shards : list shard) (plan : ClassicReconstructPlan) : list shard * outcome Error unit :=
  match
    (let! outputs := has_outputs plan in
     if negb outputs then Ok None else
     let! rows := row_views plan self in
     let! data := data_targets plan in
     let! parity := parity_targets plan in
     let! ' (data_rows, parity_rows) := rows_split_at rows (length data) in
     Ok (Some (rows, data_rows, parity_rows, data, parity)))
  with
  | Err e => (shards, Err e)
  | Panic => (shards, Panic)
  | Ok None => (shards, Ok tt)
  | Ok (Some (rows, data_rows, parity_rows, data, parity)) =>
      match
        bind_options plan 0 shards
          (mk_bindings (valid_indices (plan_shape plan)) data parity [] [] [])
      with
      | (shards, Err e) => (shards, Err e)
      | (shards, Panic) => (shards, Panic)
      | (shards, Ok b) =>
          if direct_parity plan then
            let '(shards, r) :=
              run_stage (compute true (rows_of_view rows) (bound_inputs b))
                (data_destinations b) shards in
            (shards, let! _ := r in Ok tt)
          else
            ordinary_stages compute (rows_of_view data_rows) (rows_of_view parity_rows)
              data b shards
      end
  end.

Definition bulk_serial (self : ReedSolomon) : bulk_fn := λ _,
  code_some_slices (data_shard_count self).

(** [orders] gives the order of the chunk tasks of a stage with that many outputs. *)
Definition bulk_parallel (orders : bool → nat → list task) (self : ReedSolomon)
    (data_policy parity_policy : ParallelPolicy) : bulk_fn := λ data_stage rows inputs outputs,
  code_some_slices_with_policy_raw (orders data_stage (length outputs)) self rows inputs outputs
    (if data_stage then data_policy else parity_policy).

Definition execute_classic_option_plan_serial (self : ReedSolomon) (shards : list shard)
    (plan : ClassicReconstructPlan) : list shard * outcome Error unit :=
  execute_classic_option_plan_bulk (bulk_serial self) self shards plan.

Definition execute_classic_plan_parallel (orders : bool → nat → list task)
    (self : ReedSolomon) (shards : list shard) (plan : ClassicReconstructPlan)
    (data_policy parity_policy : ParallelPolicy) : list shard * outcome Error unit :=
  execute_classic_option_plan_bulk (bulk_parallel orders self data_policy parity_policy)
    self shards plan.

(** ** Reconstruction policies *)
Definition RECONSTRUCT_DATA_MIN_PARALLEL_SHARD_BYTES : N := 512 * 1024.
Definition RECONSTRUCT_FULL_MIN_PARALLEL_SHARD_BYTES : N := 256 * 1024.

(** [reconstruct_parallel_policy_default]; the arguments are the values of the
    environment variables that [parse_positive_env_usize] accepts. *)
Definition reconstruct_parallel_policy_default (env_data_min env_full_min env_bytes_per_job : option N)
    (base : ParallelPolicy) (data_only : bool) : ParallelPolicy :=
  let data_only_min := default RECONSTRUCT_DATA_MIN_PARALLEL_SHARD_BYTES env_data_min in
  let full_min := default RECONSTRUCT_FULL_MIN_PARALLEL_SHARD_BYTES env_full_min in
  let min_bytes_per_job := default (min_bytes_per_job base) env_bytes_per_job in
  mk_policy
    (if data_only then N.max (min_parallel_shard_bytes base) data_only_min
     else N.max (min_parallel_shard_bytes base / 2) full_min)
    min_bytes_per_job (max_jobs base) (l2_cache_bytes base).

(** [resolve_runtime_parallel_policy_cache], x86-64 *)
Definition resolve_runtime_parallel_policy_cache (available : N)
    (env_data_min env_full_min env_bytes_per_job : option N) (base : ParallelPolicy)
    : RuntimeParallelPolicyCache :=
  let default_of :=
    reconstruct_parallel_policy_default env_data_min env_full_min env_bytes_per_job base in
  mk_policy_cache available base (default_of true) (default_of false) (default_of false).

Definition reconstruct_parallel_decision_with (self : ReedSolomon)
    (shard_len missing_data missing_total : nat) (data_only : bool)
    (available_parallelism : N) : ParallelDecision :=
  let output_shards := if data_only then missing_data else missing_total in
  let tuned := reconstruct_policy (rs_policy_cache self) data_only in
  decide_policy tuned (N.of_nat shard_len) (N.of_nat (data_shard_count self))
    (N.of_nat output_shards) available_parallelism.

Definition reconstruct_parallel_decision (self : ReedSolomon)
    (shard_len missing_data missing_total : nat) (data_only : bool) : ParallelDecision :=
  reconstruct_parallel_decision_with self shard_len missing_data missing_total data_only
    (available_parallelism (rs_policy_cache self)).

Definition effective_parallel_policy (self : ReedSolomon) : ParallelPolicy :=
  policy_data (rs_policy_cache self).

(** ** Entry points *)
Definition reconstruct_classic_opt (orders : bool → nat → list task) (self : ReedSolomon)
    (shards : list shard) (data_only : bool) : run :=
  with_classic_reconstruct_plan self shards (if data_only then GoalData else GoalAll)
    (λ self shards plan,
      let shape := plan_shape plan in
      let decision := reconstruct_parallel_decision self (shape_shard_len shape)
        (missing_data_count shape (data_shard_count self)) (length (invalid_indices shape))
        data_only in
      if use_parallel decision then
        let '(data_policy, parity_policy) :=
          reconstruct_stage_policies (rs_policy_cache self) data_only in
        execute_classic_plan_parallel orders self shards plan data_policy parity_policy
      else execute_classic_option_plan_serial self shards plan).

Definition reconstruct_classic_some_opt (orders : bool → nat → list task) (self : ReedSolomon)
    (shards : list shard) (required : list bool) : run :=
  with_classic_reconstruct_plan self shards (GoalRequired required)
    (λ self shards plan,
      let policy := effective_parallel_policy self in
      execute_classic_plan_parallel orders self shards plan policy policy).

Definition prepare_reconstruct_opt_workspace (self : ReedSolomon) (shards : list shard)
  : ReedSolomon * outcome Error ReconstructWorkspace :=
  prepare_reconstruct_workspace self shards.

Definition reconstruct_opt_with_workspace (same_arc : bool) (self : ReedSolomon)
    (shards : list shard) (workspace : ReconstructWorkspace) : list shard * outcome Error unit :=
  match validate_reconstruct_workspace same_arc self shards workspace with
  | Ok _ => execute_classic_option_plan_serial self shards (workspace_plan workspace)
  | Err e => (shards, Err e)
  | Panic => (shards, Panic)
  end.

Definition reconstruct_opt_with_workspace_par (orders : bool → nat → list task)
    (same_arc : bool) (self : ReedSolomon) (shards : list shard)
    (workspace : ReconstructWorkspace) : list shard * outcome Error unit :=
  match validate_reconstruct_workspace same_arc self shards workspace with
  | Ok _ =>
      let '(data_policy, parity_policy) := reconstruct_stage_policies (rs_policy_cache self)
        (data_only (workspace_plan workspace)) in
      execute_classic_plan_parallel orders self shards (workspace_plan workspace)
        data_policy parity_policy
  | Err e => (shards, Err e)
  | Panic => (shards, Panic)
  end.

End option_vec.

(** ** Soundness *)
Section bulk.
Context {F : Field} {FL : FieldLaws F} {RT : Runtime} {St : Storage Elem}
  {L : LruCache (list nat) (CachedMatrix Elem)}.
Context (self : ReedSolomon) (M : nat → nat → Elem) (len : nat) (cw : list (list Elem)).
#[local] Abbreviation d := (data_shard_count self).
#[local] Abbreviation n := (total_shard_count self).
Context (Hsys : systematic d M) (Hd : 0 < d) (Hcw : codeword M d n len cw).
Context (present : nat → bool).
Implicit Types (shards : list (option (list Elem))) (plan : ClassicReconstructPlan).

#[local] Abbreviation V := (valid_of n d present).
Context (Henough : length V = d).
Context (plan : ClassicReconstructPlan) (DT PT : list nat).
Context (Hplan : plan_for self M present len DT PT plan) (Hdn : d ≤ n).

(** The bulk callback computes dot products. *)
Definition bulk_computes (compute : bulk_fn) : Prop :=
  ∀ stage rows t (c y h : nat → nat → Elem),
    (∀ k, k < t → rows_row rows k = Ok (tabulate d (c k))) →
    compute stage rows (tabulate d (λ i, tabulate len (y i)))
      (tabulate t (λ k, tabulate len (h k)))
    = Ok (tabulate t (λ k, tabulate len (λ j, bsum d (λ i, c k i * y i j)))).

(** ** The row table *)
Lemma row_views_ok :
  row_views plan self
  = Ok (mk_view plan (format_matrix (rs_format self)) 0 (length DT + length PT)).
Proof.
  unfold row_views. rewrite (pf_data _ _ _ _ _ _ _ Hplan), (pf_parity _ _ _ _ _ _ _ Hplan).
  cbn [obind]. case_bool_decide as Hne; [|done].
  destruct DT as [|i l] eqn:Hdt; [done|].
  destruct (pf_data_rows _ _ _ _ _ _ _ Hplan i) as (c & Hc & _); [left|].
  unfold data_row in Hc. by destruct (plan_inverse plan).
Qed.

(** Rows of the table: data rows, then parity rows. *)
Lemma view_row_data s l k i :
  DT !! (s + k)%nat = Some i → k < l →
  view_row (mk_view plan (format_matrix (rs_format self)) s l) k = data_row plan i.
Proof.
  intros Hi Hk. unfold view_row. cbn [view_len view_plan view_start view_matrix].
  rewrite decide_False by lia. rewrite (pf_data _ _ _ _ _ _ _ Hplan). cbn [obind].
  rewrite decide_True by (by eapply lookup_lt_Some). unfold data_row.
  destruct (plan_inverse plan); try done. cbn [obind]. by rewrite (index_ok _ _ _ Hi).
Qed.

Lemma view_row_parity s l k i q :
  PT !! q = Some i → (s + k = length DT + q)%nat → k < l →
  view_row (mk_view plan (format_matrix (rs_format self)) s l) k = parity_row self plan q i.
Proof.
  intros Hi Hs Hk. unfold view_row. cbn [view_len view_plan view_start view_matrix].
  rewrite decide_False by lia. rewrite (pf_data _ _ _ _ _ _ _ Hplan). cbn [obind].
  rewrite Hs, decide_False by lia. replace (length DT + q - length DT)%nat with q by lia.
  unfold parity_row. destruct (direct_parity plan); [done|].
  rewrite (pf_parity _ _ _ _ _ _ _ Hplan). cbn [obind]. by rewrite (index_ok _ _ _ Hi).
Qed.

(** ** Binding *)

(** The shards with the contents [f i] at the targets. *)
Definition with_targets (ts : list nat) (f : nat → list Elem) shards
  : list (option (list Elem)) :=
  imap (λ i s, if decide (i ∈ ts) then Some (f i) else s) shards.

Lemma lookup_with_targets ts f shards i :
  with_targets ts f shards !! i
  = (λ s, if decide (i ∈ ts) then Some (f i) else s) <$> shards !! i.
Proof. unfold with_targets. by rewrite list_lookup_imap. Qed.

(** The bindings after the first [i] shards. *)
Definition bound_at (i : nat) : Bindings := mk_bindings
  (drop (cut V i) V) (drop (cut DT i) DT) (drop (cut PT i) PT)
  (map (shard_at cw) (take (cut V i) V))
  (take (cut DT i) DT ++ if direct_parity plan then take (cut PT i) PT else [])
  (if direct_parity plan then [] else take (cut PT i) PT).

Lemma target_facts i :
  (i ∈ V → (i ∉ DT) ∧ (i ∉ PT)) ∧ (i ∈ DT → (i ∉ PT) ∧ cut PT i = 0%nat).
Proof.
  split.
  - intros Hi. destruct (valid_in self Hd present Henough i Hi) as [_ Hp]. split; intros Ht.
    + destruct (pf_data_bound _ _ _ _ _ _ _ Hplan i Ht). congruence.
    + destruct (pf_parity_bound _ _ _ _ _ _ _ Hplan i Ht) as (_ & _ & ?). congruence.
  - intros Hi. destruct (pf_data_bound _ _ _ _ _ _ _ Hplan i Hi) as [Hid _].
    split; [by apply (targets_disjoint self M len Hd present Henough plan DT PT)|].
    unfold cut. rewrite filter_none; [done|]. intros x Hx.
    destruct (pf_parity_bound _ _ _ _ _ _ _ Hplan x Hx). lia.
Qed.

Lemma bind_option_ok i s :
  (i ∈ V → s = Some (shard_at cw i)) → ((i ∈ DT ++ PT) → s = None) →
  bind_option plan i s (bound_at i)
  = (if decide (i ∈ DT ++ PT) then Some (replicate len 0) else s, Ok (bound_at (Datatypes.S i))).
Proof.
  intros HsV HsT. destruct (pf_sorted _ _ _ _ _ _ _ Hplan) as [HDT HPT].
  destruct (valid_of_survivors n d present Henough) as (HV & _).
  destruct (target_facts i) as [HfV HfD]. unfold bind_option, bound_at.
  cbn [survivors_left data_left parity_left bound_inputs data_destinations parity_destinations].
  rewrite (pf_len _ _ _ _ _ _ _ Hplan).
  destruct (decide (i ∈ V)) as [HiV|HiV].
  { destruct (HfV HiV) as [HiD HiP]. rewrite (cut_out DT), (cut_out PT) by done.
    destruct (drop_cut_in V i HV HiV) as [-> ->]. rewrite decide_True by done.
    rewrite (HsV HiV), decide_False by (rewrite elem_of_app; tauto).
    cbn [ok_or obind tail]. by rewrite map_app. }
  rewrite (decide_False (P := head (drop (cut V i) V) = Some i)) by (by apply head_cut_out).
  rewrite (cut_out V) by done. destruct (decide (i ∈ DT)) as [HiD|HiD].
  { destruct (HfD HiD) as [HiP Hcut]. rewrite (cut_out PT), Hcut by done.
    destruct (drop_cut_in DT i HDT HiD) as [-> ->]. rewrite decide_True by done.
    rewrite (decide_True (P := i ∈ DT ++ PT)) by (apply elem_of_app; tauto).
    rewrite HsT by (apply elem_of_app; tauto). cbn [tail take].
    by destruct (direct_parity plan); rewrite !app_nil_r. }
  rewrite (decide_False (P := head (drop (cut DT i) DT) = Some i)) by (by apply head_cut_out).
  rewrite (cut_out DT) by done. destruct (decide (i ∈ PT)) as [HiP|HiP].
  - destruct (drop_cut_in PT i HPT HiP) as [-> ->]. rewrite decide_True by done.
    rewrite (decide_True (P := i ∈ DT ++ PT)) by (apply elem_of_app; tauto).
    rewrite HsT by (apply elem_of_app; tauto). cbn [tail].
    destruct (direct_parity plan); [by rewrite app_assoc|done].
  - rewrite (decide_False (P := head (drop (cut PT i) PT) = Some i)) by (by apply head_cut_out).
    rewrite (cut_out PT), decide_False by (done || rewrite elem_of_app; tauto). done.
Qed.

Lemma bind_options_walk shards k rest :
  rest = drop k shards → k ≤ length shards →
  (∀ i s, shards !! i = Some s →
     (i ∈ V → s = Some (shard_at cw i)) ∧ ((i ∈ DT ++ PT) → s = None)) →
  bind_options plan k rest (bound_at k)
  = (drop k (with_targets (DT ++ PT) (λ _, replicate len 0) shards), Ok (bound_at (length shards))).
Proof.
  intros Hr Hk Hs. revert k Hr Hk. induction rest as [|s rest IH]; intros k Hr Hk.
  - assert (k = length shards) as ->.
    { apply (f_equal length) in Hr. rewrite length_drop in Hr. simpl in Hr. lia. }
    rewrite drop_ge; [done|]. unfold with_targets. by rewrite length_imap.
  - assert (shards !! k = Some s) as Hks.
    { rewrite <-(Nat.add_0_r k), <-lookup_drop, <-Hr. done. }
    destruct (Hs k s Hks) as [H1 H2]. cbn [bind_options].
    rewrite (bind_option_ok k s H1 H2).
    rewrite (IH (Datatypes.S k)).
    + rewrite (drop_S (with_targets _ _ shards) (if decide (k ∈ DT ++ PT)
        then Some (replicate len 0) else s) k); [done|]. by rewrite lookup_with_targets, Hks.
    + symmetry in Hr. by apply drop_S_cons in Hr || (rewrite (drop_S _ _ _ Hks) in Hr; congruence).
    + apply lookup_lt_Some in Hks. lia.
Qed.

(** The shards before execution: those of [cw] at the present indices. *)
Lemma shards_known shards :
  holds cw n shards → pattern present shards →
  ∀ i s, shards !! i = Some s →
    (i ∈ V → s = Some (shard_at cw i)) ∧ ((i ∈ DT ++ PT) → s = None).
Proof.
  intros Hh Hpat i s Hs. split.
  - intros Hi. destruct (valid_in self Hd present Henough i Hi) as [_ Hp].
    destruct s as [x|].
    + f_equal. unfold shard_at. by rewrite (proj2 Hh i _ x Hs eq_refl).
    + apply (Hpat i None) in Hs. destruct Hs as [Hs _]. rewrite Hs in Hp; done.
  - intros Hi%elem_of_app.
    destruct (target_missing self M len cw Hd present Henough plan DT PT Hplan Hdn shards i Hh Hpat Hi)
      as (s' & Hs' & Hm). rewrite Hs in Hs'. injection Hs' as <-. done.
Qed.

Lemma bind_all shards :
  holds cw n shards → pattern present shards →
  bind_options plan 0 shards (mk_bindings V DT PT [] [] [])
  = (with_targets (DT ++ PT) (λ _, replicate len 0) shards,
     Ok (mk_bindings [] [] [] (map (shard_at cw) V)
       (DT ++ if direct_parity plan then PT else []) (if direct_parity plan then [] else PT))).
Proof.
  intros Hh Hpat. pose proof (bind_options_walk shards 0 shards) as H.
  assert (bound_at 0 = mk_bindings V DT PT [] [] []) as H0.
  { unfold bound_at. rewrite !cut_0. simpl. by destruct (direct_parity plan). }
  rewrite H0 in H. rewrite H; [|done|lia|by apply shards_known]. rewrite drop_0. do 2 f_equal.
  destruct Hh as [Hl _]. rewrite Hl. unfold bound_at.
  rewrite (cut_all V n), (cut_all DT n), (cut_all PT n).
  - by rewrite !drop_ge, !take_ge by done.
  - intros i Hi. by destruct (pf_parity_bound _ _ _ _ _ _ _ Hplan i Hi) as (_ & ? & _).
  - intros i Hi. destruct (pf_data_bound _ _ _ _ _ _ _ Hplan i Hi). lia.
  - intros i Hi. by destruct (valid_in self Hd present Henough i Hi).
Qed.

(** ** Stages *)
Lemma with_targets_app ts us f g shards :
  (∀ i, i ∈ us → f i = g i) →
  with_targets us f (with_targets ts g shards) = with_targets (ts ++ us) g shards.
Proof.
  intros Hfg. apply list_eq. intros i. rewrite !lookup_with_targets.
  destruct (shards !! i) as [s|]; [|done]. simpl. f_equal.
  destruct (decide (i ∈ us)) as [Hu|Hu].
  - rewrite (decide_True (P := i ∈ ts ++ us)) by (apply elem_of_app; by right). by rewrite Hfg.
  - destruct (decide (i ∈ ts)).
    + by rewrite (decide_True (P := i ∈ ts ++ us)) by (apply elem_of_app; by left).
    + by rewrite (decide_False (P := i ∈ ts ++ us)) by (rewrite elem_of_app; tauto).
Qed.

Lemma write_views_ok ts f shards :
  (∀ i, i ∈ ts → i < length shards) →
  write_views shards ts (map f ts) = with_targets ts f shards.
Proof.
  revert shards. induction ts as [|t ts IH]; intros shards Hts; simpl.
  - apply list_eq. intros i. rewrite lookup_with_targets. by destruct (shards !! i).
  - rewrite IH by (intros i Hi; rewrite length_insert; apply Hts; by right).
    apply list_eq. intros i. rewrite !lookup_with_targets. destruct (decide (i = t)) as [->|Hne].
    + assert (t < length shards) as Ht by (apply Hts; left).
      rewrite list_lookup_insert_eq by done. destruct (lookup_lt_is_Some_2 _ _ Ht) as [s ->]. simpl.
      rewrite (decide_True (P := t ∈ t :: ts)) by left. by destruct (decide (t ∈ ts)).
    + rewrite list_lookup_insert_ne by done. destruct (shards !! i); [|done]. simpl. f_equal.
      destruct (decide (i ∈ ts)).
      * by rewrite (decide_True (P := i ∈ t :: ts)) by (by right).
      * by rewrite (decide_False (P := i ∈ t :: ts)) by (rewrite elem_of_cons; tauto).
Qed.

Lemma output_views_ok {E} ts f shards :
  (∀ i, i ∈ ts → shards !! i = Some (Some (f i))) →
  output_views (E:=E) shards ts = Ok (map f ts).
Proof.
  intros Hts. apply map_outcome_all. intros i Hi. by rewrite (index_ok _ _ _ (Hts i Hi)).
Qed.

(** One coding call computes the shards of its targets. *)
Lemma stage_computes compute stage rows (y : nat → nat → Elem) ts outputs :
  bulk_computes compute → length outputs = length ts → all_len len outputs →
  (∀ k i, ts !! k = Some i → ∃ c, rows_row rows k = Ok (tabulate d c) ∧
     shard_at cw i = tabulate len (λ j, bsum d (λ a, c a * y a j))) →
  compute stage rows (tabulate d (λ i, tabulate len (y i))) outputs = Ok (map (shard_at cw) ts).
Proof.
  intros Hcompute Hl Hall Hrows.
  set (c := λ k a, match rows_row rows k with Ok row => default 0 (row !! a) | _ => 0 end).
  rewrite (shards_tabulate (length ts) len outputs Hl Hall).
  rewrite (Hcompute stage rows (length ts) c).
  - f_equal. symmetry. apply eq_tabulate; [by rewrite length_map|]. intros k Hk.
    destruct (lookup_lt_is_Some_2 ts k Hk) as [i Hi].
    destruct (Hrows k i Hi) as (c' & Hc & Hat). rewrite lookup_map, Hi. simpl. f_equal.
    rewrite Hat. apply tabulate_ext. intros j _. apply bsum_ext. intros a Ha.
    unfold c. by rewrite Hc, lookup_tabulate by done.
  - intros k Hk. destruct (lookup_lt_is_Some_2 ts k Hk) as [i Hi].
    destruct (Hrows k i Hi) as (c' & Hc & _). rewrite Hc. f_equal. apply tabulate_ext.
    intros a Ha. unfold c. by rewrite Hc, lookup_tabulate by done.
Qed.

Lemma run_stage_ok compute stage rows (y : nat → nat → Elem) ts shards :
  bulk_computes compute → (∀ i, i ∈ ts → shards !! i = Some (Some (replicate len 0))) →
  (∀ k i, ts !! k = Some i → ∃ c, rows_row rows k = Ok (tabulate d c) ∧
     shard_at cw i = tabulate len (λ j, bsum d (λ a, c a * y a j))) →
  run_stage (compute stage rows (tabulate d (λ i, tabulate len (y i)))) ts shards
  = (with_targets ts (shard_at cw) shards, Ok (map (shard_at cw) ts)).
Proof.
  intros Hcompute Hzero Hrows. unfold run_stage.
  rewrite (output_views_ok ts (λ _, replicate len 0)) by done. cbn [obind].
  rewrite (stage_computes compute stage rows y ts).
  - rewrite write_views_ok; [done|]. intros i Hi. by eapply lookup_lt_Some, Hzero.
  - done.
  - by rewrite length_map.
  - apply Forall_forall. intros x Hx. apply list_elem_of_In, in_map_iff in Hx as (i & <- & _).
    apply length_replicate.
  - done.
Qed.

(** The values the survivors and the data shards hold. *)
Definition survivor_value (a j : nat) : Elem := row_dot d (selected_rows M V) (column cw j) a.
Definition parity_value (a j : nat) : Elem :=
  if direct_parity plan then survivor_value a j else column cw j a.

Lemma data_coeff i : i ∈ DT →
  ∃ c, data_row plan i = Ok (tabulate d c) ∧
    shard_at cw i = tabulate len (λ j, bsum d (λ a, c a * survivor_value a j)).
Proof.
  intros Hi. destruct (pf_data_rows _ _ _ _ _ _ _ Hplan i Hi) as (c & Hrow & Hc).
  destruct (pf_data_bound _ _ _ _ _ _ _ Hplan i Hi) as [Hid _].
  rewrite (pf_valid _ _ _ _ _ _ _ Hplan) in Hc. exists c. split; [done|].
  rewrite (shard_at_data self M len cw Hsys Hd Hcw present Henough i Hid Hdn).
  apply tabulate_ext. intros j _. symmetry. apply Hc.
Qed.

Lemma parity_coeff k i : PT !! k = Some i →
  ∃ c, parity_row self plan k i = Ok (tabulate d c) ∧
    shard_at cw i = tabulate len (λ j, bsum d (λ a, c a * parity_value a j)).
Proof.
  intros Hi. destruct (pf_parity_rows _ _ _ _ _ _ _ Hplan k i Hi) as (c & Hrow & Hc).
  destruct (pf_parity_bound _ _ _ _ _ _ _ Hplan i) as (_ & Hin & _);
    [by eapply list_elem_of_lookup_2|].
  rewrite (pf_valid _ _ _ _ _ _ _ Hplan) in Hc. exists c. split; [done|].
  rewrite (shard_at_row self M len cw Hd Hcw present Henough i Hin).
  apply tabulate_ext. intros j _. rewrite <-Hc. unfold parity_value, survivor_value.
  by destruct (direct_parity plan).
Qed.

Lemma data_view_rows l k i : DT !! k = Some i → length DT ≤ l →
  ∃ c, view_row (mk_view plan (format_matrix (rs_format self)) 0 l) k = Ok (tabulate d c) ∧
    shard_at cw i = tabulate len (λ j, bsum d (λ a, c a * survivor_value a j)).
Proof.
  intros Hi Hl. pose proof (lookup_lt_Some _ _ _ Hi) as Hk.
  rewrite (view_row_data 0 l k i) by (done || lia).
  apply data_coeff. by eapply list_elem_of_lookup_2.
Qed.

Lemma composed_view_rows k i : direct_parity plan = true → (DT ++ PT) !! k = Some i →
  ∃ c, view_row (mk_view plan (format_matrix (rs_format self)) 0 (length DT + length PT)) k
    = Ok (tabulate d c) ∧
    shard_at cw i = tabulate len (λ j, bsum d (λ a, c a * survivor_value a j)).
Proof.
  intros Hdir [Hi|[Hge Hi]]%lookup_app_Some; [by apply data_view_rows; [|lia]|].
  pose proof (lookup_lt_Some _ _ _ Hi) as Hk.
  rewrite (view_row_parity 0 _ k i (k - length DT)) by (done || lia).
  destruct (parity_coeff _ i Hi) as (c & Hc & Hat). exists c. split; [done|]. rewrite Hat.
  unfold parity_value. by rewrite Hdir.
Qed.

Lemma parity_inputs_value : PT ≠ [] →
  (if bool_decide (direct_parity plan = false ∧ map (shard_at cw) DT ≠ [])
   then use_recovered_data (map (shard_at cw) V) DT (map (shard_at cw) DT)
   else Ok (map (shard_at cw) V))
  = Ok (E:=Error) (tabulate d (λ a, tabulate len (parity_value a))).
Proof.
  intros HPT. pose proof (merged_inputs self M len cw Hd Hcw present Henough plan DT PT Hplan Hdn HPT)
    as Hm.
  assert (bool_decide (direct_parity plan = false ∧ map (shard_at cw) DT ≠ [])
    = negb (direct_parity plan) && bool_decide (map (shard_at cw) DT ≠ [])) as ->.
  { destruct (direct_parity plan); [by rewrite bool_decide_eq_false_2 by (by intros [? _])|].
    simpl. apply bool_decide_ext. tauto. }
  rewrite Hm. f_equal. unfold parity_inputs, parity_value. destruct (direct_parity plan).
  - apply (survivor_inputs self M len cw Hd Hcw present Henough).
  - apply (data_inputs self M len cw Hsys Hd Hcw present Henough Hdn).
Qed.

(** The ordinary stages after binding. *)
Lemma ordinary_ok compute shards :
  bulk_computes compute → direct_parity plan = false →
  (∀ i, i ∈ DT ++ PT → i < length shards) →
  ordinary_stages compute
    (rows_of_view (mk_view plan (format_matrix (rs_format self)) 0 (length DT)))
    (rows_of_view (mk_view plan (format_matrix (rs_format self)) (length DT) (length PT)))
    DT (mk_bindings [] [] [] (map (shard_at cw) V) DT PT)
    (with_targets (DT ++ PT) (λ _, replicate len 0) shards)
  = (with_targets (DT ++ PT) (shard_at cw) shards, Ok tt).
Proof.
  intros Hcompute Hdir Hin. unfold ordinary_stages.
  cbn [bound_inputs data_destinations parity_destinations].
  set (zeros := with_targets (DT ++ PT) (λ _, replicate len 0) shards).
  assert (∀ i, i ∈ DT ++ PT → zeros !! i = Some (Some (replicate len 0))) as Hz.
  { intros i Hi. unfold zeros. rewrite lookup_with_targets.
    destruct (lookup_lt_is_Some_2 shards i (Hin i Hi)) as [s ->]. simpl.
    by rewrite decide_True. }
  assert ((if bool_decide (DT = []) then (zeros, Ok [])
           else run_stage (compute true
             (rows_of_view (mk_view plan (format_matrix (rs_format self)) 0 (length DT)))
             (map (shard_at cw) V)) DT zeros)
    = (with_targets DT (shard_at cw) zeros, Ok (map (shard_at cw) DT))) as ->.
  { case_bool_decide as Hnil.
    - rewrite Hnil. f_equal. apply list_eq. intros i. rewrite lookup_with_targets.
      by destruct (zeros !! i).
    - rewrite (survivor_inputs self M len cw Hd Hcw present Henough).
      apply (run_stage_ok compute true _ survivor_value); [done| |].
      + intros i Hi. apply Hz, elem_of_app. by left.
      + intros k i Hi. by apply data_view_rows. }
  assert (with_targets PT (shard_at cw) (with_targets DT (shard_at cw) zeros)
    = with_targets (DT ++ PT) (shard_at cw) shards) as Hfinal.
  { rewrite with_targets_app by done. apply list_eq. intros i. unfold zeros.
    rewrite !lookup_with_targets. destruct (shards !! i); [|done]. simpl.
    by destruct (decide (i ∈ DT ++ PT)). }
  case_decide as HPT.
  { rewrite <-Hfinal, HPT. f_equal. apply list_eq. intros i. rewrite !lookup_with_targets.
    by destruct (zeros !! i). }
  pose proof (parity_inputs_value HPT) as Hinputs.
  assert (bool_decide (direct_parity plan = false ∧ map (shard_at cw) DT ≠ [])
    = bool_decide (map (shard_at cw) DT ≠ [])) as Hb by (apply bool_decide_ext; tauto).
  rewrite Hb in Hinputs. rewrite Hinputs.
  rewrite (run_stage_ok compute false _ parity_value PT).
  - by rewrite Hfinal.
  - done.
  - intros i Hi. rewrite lookup_with_targets, Hz by (apply elem_of_app; by right). simpl.
    rewrite decide_False; [done|]. intros HiD. by destruct (proj2 (target_facts i) HiD).
  - intros k i Hi. cbn [rows_of_view rows_row]. pose proof (lookup_lt_Some _ _ _ Hi).
    rewrite (view_row_parity (length DT) _ k i k) by (done || lia). by apply parity_coeff.
Qed.

Lemma bulk_ok compute shards :
  bulk_computes compute → holds cw n shards → pattern present shards →
  execute_classic_option_plan_bulk compute self shards plan
  = (with_targets (DT ++ PT) (shard_at cw) shards, Ok tt).
Proof.
  intros Hcompute Hh Hpat. unfold execute_classic_option_plan_bulk.
  rewrite (has_outputs_ok self M len present plan DT PT Hplan). cbn [obind].
  case_bool_decide as Hout; cbn [negb].
  2:{ assert (DT ++ PT = []) as ->.
      { destruct DT as [|x DT']; [|by exfalso; apply Hout; left].
        destruct PT as [|x PT']; [done|by exfalso; apply Hout; right]. }
      f_equal. apply list_eq. intros i. rewrite lookup_with_targets. by destruct (shards !! i). }
  rewrite row_views_ok. cbn [obind].
  rewrite (pf_data _ _ _ _ _ _ _ Hplan), (pf_parity _ _ _ _ _ _ _ Hplan). cbn [obind].
  unfold rows_split_at. cbn [view_len view_plan view_matrix view_start].
  rewrite decide_False by lia. cbn [obind]. rewrite (pf_valid _ _ _ _ _ _ _ Hplan).
  rewrite bind_all by done.
  assert (∀ i, i ∈ DT ++ PT → i < length shards) as Hin.
  { destruct Hh as [Hl _]. rewrite Hl. intros i [Hi|Hi]%elem_of_app.
    - destruct (pf_data_bound _ _ _ _ _ _ _ Hplan i Hi). lia.
    - by destruct (pf_parity_bound _ _ _ _ _ _ _ Hplan i Hi) as (_ & ? & _). }
  destruct (direct_parity plan) eqn:Hdir.
  - cbn [bound_inputs data_destinations].
    rewrite (survivor_inputs self M len cw Hd Hcw present Henough).
    rewrite (run_stage_ok compute true _ survivor_value).
    + cbn [obind]. f_equal. apply list_eq. intros i. rewrite !lookup_with_targets.
      destruct (shards !! i); [|done]. simpl. by destruct (decide (i ∈ DT ++ PT)).
    + done.
    + intros i Hi. rewrite lookup_with_targets.
      destruct (lookup_lt_is_Some_2 shards i (Hin i Hi)) as [s ->]. simpl. by rewrite decide_True.
    + intros k i Hi. by apply composed_view_rows.
  - rewrite app_nil_r.
    replace (length DT + length PT - length DT)%nat with (length PT) by lia.
    change (0 + length DT)%nat with (length DT).
    by apply ordinary_ok.
Qed.

(** The sequential executor leaves the same vectors. *)
Lemma executed_exact shards result :
  holds cw n shards → executed self len cw DT PT shards result →
  result = (with_targets (DT ++ PT) (shard_at cw) shards, Ok tt).
Proof.
  destruct result as [shards' r]. intros [Hl _] ([Hl' _] & Hkeep & Hr).
  destruct r as [[]|e|]; [|by destruct Hr as (i & s & s' & _ & _ & Hg); destruct s|done].
  f_equal. apply list_eq. intros i. rewrite lookup_with_targets.
  destruct (decide (i ∈ DT ++ PT)) as [Hi|Hi].
  - destruct (Hr i) as (s & Hs & Hg); [by apply elem_of_app|]. rewrite Hs.
    apply lookup_lt_Some in Hs. destruct (lookup_lt_is_Some_2 shards i) as [s0 ->]; [lia|].
    simpl. f_equal. done.
  - rewrite elem_of_app in Hi. rewrite Hkeep by tauto. by destruct (shards !! i).
Qed.

Lemma executors_agree compute shards :
  0 < len → bulk_computes compute → holds cw n shards → pattern present shards →
  execute_classic_option_plan_bulk compute self shards plan
  = execute_classic_plan_serial self shards plan.
Proof.
  intros Hlen Hcompute Hh Hpat. rewrite bulk_ok by done. symmetry.
  apply executed_exact; [done|].
  by apply (execute_sound self M len cw Hsys Hd Hcw present Henough (compute_serial self) plan DT PT
    (compute_serial_ok self len Hd Hlen) Hplan Hdn).
Qed.
End bulk.

(** ** The callbacks *)
Section bulk_callbacks.
Context {F : Field} {FL : FieldLaws F} {RT : Runtime} {St : Storage Elem}
  {L : LruCache (list nat) (CachedMatrix Elem)}.
Context (self : ReedSolomon) (len : nat) (Hd : 0 < data_shard_count self) (Hlen : 0 < len).

Lemma bulk_serial_ok : bulk_computes self len (bulk_serial self).
Proof. intros stage rows t c y h Hrows. by apply code_some_slices_ok. Qed.

(** Any schedule of the chunk tasks of each stage. *)
Definition bulk_schedules (orders : bool → nat → list task)
    (data_policy parity_policy : ParallelPolicy) : Prop :=
  ∀ (stage : bool) t,
    let decision := decide_for_elements (if stage then data_policy else parity_policy)
      (N.of_nat len) size_of_elem (N.of_nat (data_shard_count self)) (N.of_nat t)
      (available_parallelism (rs_policy_cache self)) in
    use_parallel decision = true →
    is_schedule (orders stage t) (output_chunk_tasks (replicate t len) len
      (N.to_nat (chunk_len decision)) (N.to_nat (jobs decision))).

Lemma bulk_parallel_ok orders dp pp :
  bulk_schedules orders dp pp → bulk_computes self len (bulk_parallel orders self dp pp).
Proof.
  intros Hsch stage rows t c y h Hrows. unfold bulk_parallel, code_some_slices_with_policy_raw.
  assert (match tabulate (data_shard_count self) (λ i, tabulate len (y i)) with
          | [] => 0%nat | input :: _ => length input end = len) as ->.
  { destruct (data_shard_count self) as [|d]; [lia|]. unfold tabulate at 1. simpl.
    apply length_tabulate. }
  rewrite decide_False by lia. rewrite length_tabulate.
  destruct (use_parallel _) eqn:Hup; cbn [negb].
  - by rewrite (code_some_slices_par_ok (orders stage t) _ t len c
      _ _ _ _ _ Hd Hlen (Hsch stage t Hup) Hrows).
  - change code_some_slices_chunked with code_some_slices. by apply code_some_slices_ok.
Qed.
End bulk_callbacks.

(** ** Properties *)
Section properties.
Context {F : Field} {FL : FieldLaws F} {RT : Runtime} {St : Storage Elem}
  {L : LruCache (list nat) (CachedMatrix Elem)} {LL : LruLaws L} {LD : LeopardDecoders}.
Implicit Types (shards : list (option (list Elem))).

(** The Classic entry point of a goal. *)
Definition reconstruct_classic_goal_opt (orders : bool → nat → list task) (self : ReedSolomon)
    shards (goal : ReconstructionGoal) : run :=
  match goal with
  | GoalAll => reconstruct_classic_opt orders self shards false
  | GoalData => reconstruct_classic_opt orders self shards true
  | GoalRequired required => reconstruct_classic_some_opt orders self shards required
  end.

(** The policies of the stages of a goal. *)
Definition goal_policies (self : ReedSolomon) (goal : ReconstructionGoal)
  : ParallelPolicy * ParallelPolicy :=
  match goal with
  | GoalAll => reconstruct_stage_policies (rs_policy_cache self) false
  | GoalData => reconstruct_stage_policies (rs_policy_cache self) true
  | GoalRequired _ => (effective_parallel_policy self, effective_parallel_policy self)
  end.

Lemma with_plan_ext (self : ReedSolomon) M len cw shards goal e1 e2 :
  classic_codec self M → cache_valid self →
  codeword M (data_shard_count self) (total_shard_count self) len cw →
  holds cw (total_shard_count self) shards → goal_flags_ok self goal = true →
  (∀ plan c DT PT, length (valid_of (total_shard_count self) (data_shard_count self) (here shards))
       = data_shard_count self →
     plan_for self M (here shards) len DT PT plan →
     e1 (set_cache self c) shards plan = e2 (set_cache self c) shards plan) →
  with_classic_reconstruct_plan self shards goal e1
  = with_classic_reconstruct_plan self shards goal e2.
Proof.
  intros Hc Hv Hcw Hh Hflags He. destruct (counts self M Hc) as (H1 & H2 & H3).
  pose proof Hh as [Hl _].
  pose proof (shape_ensures self (map shard_len shards) H2 ltac:(by rewrite length_map)) as Hs.
  destruct (classic_reconstruct_shape self (map shard_len shards)) as [shape|e|] eqn:Hshape.
  - rewrite !(with_plan_shape self shards goal shape) by done. case_decide as Hne; [done|].
    cbn [ensures] in Hs. pose proof Hs as (_ & Hnum & _ & Hinv & Hval).
    destruct (Hval Hne) as [Hval' Hmany]. fold (number_here shards) in Hnum, Hmany.
    fold (here shards) in Hval', Hinv.
    pose proof (length_survivors self shards Hl Hmany) as Hsurv.
    destruct (fill_plan_spec self M (here shards) len shape goal Hc H2 H3 Hinv
      (shape_facts self M len cw Hcw shards shape Hh ltac:(lia) Hs) Hval' Hsurv
      ltac:(lia) Hflags H1 Hv) as (c & r & Hfill & _ & Hplan).
    rewrite Hfill. destruct r as [plan| |]; [|done..]. simpl in Hplan.
    by rewrite (He plan c _ _ Hsurv Hplan).
  - unfold with_classic_reconstruct_plan. rewrite Hflags. cbn [negb].
    assert (imap (λ i s, (i, shard_len s)) shards = imap pair (map shard_len shards)) as ->.
    { apply list_eq. intros i. rewrite !list_lookup_imap, lookup_map. by destruct (shards !! i). }
    unfold classic_reconstruct_shape in Hshape. rewrite length_map in Hshape.
    destruct (validate_classic_shard_count self (length shards)) as [u| |]; [|done..].
    cbn [obind] in *. destruct (scan_present_prefix _ _) as [[[[f|] state] rest]| |]; [|done..].
    cbn [obind] in Hshape. by rewrite Hshape.
  - done.
Qed.

(** Any bulk callback under a sound plan does what the sequential executor does. *)
Lemma bulk_agrees_at (self : ReedSolomon) M len cw shards compute plan c DT PT :
  classic_codec self M →
  codeword M (data_shard_count self) (total_shard_count self) len cw →
  holds cw (total_shard_count self) shards →
  length (valid_of (total_shard_count self) (data_shard_count self) (here shards))
    = data_shard_count self →
  plan_for self M (here shards) len DT PT plan →
  bulk_computes (set_cache self c) len compute →
  execute_classic_option_plan_bulk compute (set_cache self c) shards plan
  = execute_classic_plan_serial (set_cache self c) shards plan.
Proof.
  intros Hc Hcw Hh Hsurv Hplan Hcompute. destruct (counts self M Hc) as (H1 & H2 & _).
  pose proof Hcw as [(_ & Hlen & _) _].
  apply (executors_agree (set_cache self c) M len cw (cc_systematic _ _ Hc) H1 Hcw (here shards)
    Hsurv plan DT PT); [by apply plan_for_cache|done|done|done|done|apply here_pattern].
Qed.

(** C30: for option vectors whose present shards belong to one codeword, and
    under any policies and any order of the parallel chunk tasks, the bulk entry points
    [reconstruct_opt], [reconstruct_data_opt] and [reconstruct_some_opt] return the same
    codec, the same vectors and the same result as the generic sequential
    reconstruction; so they restore what is asked, and fail only because of
    the erasures. *)
Theorem option_bulk_agrees (self : ReedSolomon) (M : nat → nat → Elem) (len : nat)
    (cw : list (list Elem)) shards (goal : ReconstructionGoal) (orders : bool → nat → list task)
    (Hc : classic_codec self M) (Hcache : cache_valid self)
    (Hcw : codeword M (data_shard_count self) (total_shard_count self) len cw)
    (Hholds : holds cw (total_shard_count self) shards)
    (Hflags : goal_flags_ok self goal = true)
    (Horders : bulk_schedules self len orders (goal_policies self goal).1
       (goal_policies self goal).2) :
  reconstruct_classic_goal_opt orders self shards goal = reconstruct_goal self shards goal ∧
  restored self M len cw goal shards (reconstruct_classic_goal_opt orders self shards goal).
Proof.
  assert (reconstruct_classic_goal_opt orders self shards goal = reconstruct_goal self shards goal)
    as Heq; [|rewrite Heq; split; [done|by apply goal_restored]].
  destruct (counts self M Hc) as (H1 & _). pose proof Hcw as [(_ & Hlen & _) _].
  rewrite (reconstruct_goal_plan self M) by done.
  assert (∀ dp pp plan c DT PT, bulk_schedules self len orders dp pp →
    length (valid_of (total_shard_count self) (data_shard_count self) (here shards))
      = data_shard_count self →
    plan_for self M (here shards) len DT PT plan →
    execute_classic_plan_parallel orders (set_cache self c) shards plan dp pp
    = execute_classic_plan_serial (set_cache self c) shards plan) as Hpar.
  { intros dp pp plan c DT PT Hs Hsurv Hplan.
    apply (bulk_agrees_at self M len cw shards _ plan c DT PT); try done.
    by apply (bulk_parallel_ok (set_cache self c)). }
  assert (∀ plan c DT PT,
    length (valid_of (total_shard_count self) (data_shard_count self) (here shards))
      = data_shard_count self →
    plan_for self M (here shards) len DT PT plan →
    execute_classic_option_plan_serial (set_cache self c) shards plan
    = execute_classic_plan_serial (set_cache self c) shards plan) as Hser.
  { intros plan c DT PT Hsurv Hplan.
    apply (bulk_agrees_at self M len cw shards _ plan c DT PT); try done.
    by apply (bulk_serial_ok (set_cache self c)). }
  destruct goal as [| |required]; unfold reconstruct_classic_goal_opt;
    unfold reconstruct_classic_opt, reconstruct_classic_some_opt;
    apply (with_plan_ext self M len cw); try done; intros plan c DT PT Hsurv Hplan;
    try (by eapply Hpar); cbv zeta; (destruct (use_parallel _); [|by eapply Hser]);
    unfold goal_policies in Horders; cbn [set_cache rs_policy_cache];
    destruct (reconstruct_stage_policies _ _) as [dp pp]; by eapply Hpar.
Qed.

Lemma bulk_nothing compute (self : ReedSolomon) shards plan :
  data_targets (E:=Error) plan = Ok [] → parity_targets (E:=Error) plan = Ok [] →
  execute_classic_option_plan_bulk compute self shards plan = (shards, Ok tt).
Proof. intros H1 H2. unfold execute_classic_option_plan_bulk, has_outputs. by rewrite H1, H2. Qed.

(** executing a prepared workspace through the bulk executor, serially
    or on any parallel schedule, leaves the vectors and the result that the
    generic workspace execution leaves, for shards of any codeword with the
    prepared lengths and pattern. *)
Theorem option_workspace_agrees (arc : bool) (orders : bool → nat → list task)
    (self self' : ReedSolomon) (M : nat → nat → Elem) (len : nat) (cw : list (list Elem))
    {T0 : Type} {S0 : ReconstructShard T0} (before : list T0) shards goal
    (prepared : ReedSolomon) (ws : ReconstructWorkspace)
    (Hc : classic_codec self M) (Hv : cache_valid self)
    (Hc' : classic_codec self' M) (Hfmt : rs_format self' = rs_format self) (Hv' : cache_valid self')
    (Hflags : goal_flags_ok self goal = true)
    (Hprepare : prepare_reconstruct_workspace_with_goal self before goal = (prepared, Ok ws))
    (Hsame : map shard_len shards = map shard_len before)
    (Hcw : codeword M (data_shard_count self') (total_shard_count self') len cw)
    (Hholds : holds cw (total_shard_count self') shards)
    (Horders : let '(data_policy, parity_policy) := reconstruct_stage_policies
        (rs_policy_cache self') (data_only (workspace_plan ws)) in
      bulk_schedules self' len orders data_policy parity_policy) :
  reconstruct_opt_with_workspace arc self' shards ws
    = reconstruct_with_workspace arc self' shards ws ∧
  reconstruct_opt_with_workspace_par orders arc self' shards ws
    = reconstruct_with_workspace arc self' shards ws.
Proof.
  unfold reconstruct_opt_with_workspace, reconstruct_opt_with_workspace_par,
    reconstruct_with_workspace.
  rewrite (prepared_validates self self' M goal before shards prepared ws) by done.
  destruct (prepared_facts self self' M goal before shards prepared ws) as
    (Hl & _ & _ & Hs & Hpos & Hflags' & Hcase); try done.
  destruct (counts self' M Hc') as (G1 & G2 & G3). destruct (same_counts self self' Hfmt) as [_ Hn].
  pose proof Hcw as [(_ & Hlen & _) _]. pose proof Hs as (_ & Hnum & _ & Hinv & Hval).
  fold (number_here shards) in Hnum, Hval. fold (here shards) in Hval, Hinv.
  destruct (reconstruct_stage_policies _ _) as [dp pp].
  unfold execute_classic_option_plan_serial, execute_classic_plan_parallel,
    execute_classic_plan_serial.
  destruct Hcase as [(Hnil & T1 & T2)|(Hne & c & Hf)].
  - by rewrite !bulk_nothing, execute_nothing by done.
  - destruct (Hval Hne) as [Hval' Hmany].
    pose proof (length_survivors self' shards ltac:(lia) Hmany) as Hsurv.
    destruct (fill_plan_spec self' M (here shards) len _ goal Hc' G2 G3 Hinv
      (shape_facts self' M len cw Hcw shards _ Hholds Hpos Hs) Hval' Hsurv ltac:(lia) Hflags' G1 Hv')
      as (c' & r & Hf' & _ & Hplan).
    rewrite Hf in Hf'. injection Hf' as _ <-. simpl in Hplan.
    pose proof (λ compute, bulk_agrees_at self' M len cw shards compute _ (rs_cache self') _ _
      Hc' Hcw Hholds Hsurv Hplan) as Hagree.
    assert (set_cache self' (rs_cache self') = self') as Hself by (by destruct self').
    rewrite Hself in Hagree.
    split; apply Hagree; [by apply bulk_serial_ok|by apply bulk_parallel_ok].
Qed.
End properties.
