(* ===== verification/DecodeIdx.v ===== *)
(** * Progressive recovery ([src/galois_8/policy.rs], lines 83-157 and 532-707)

    [decode_idx] adds the contribution of the survivors of one batch to
    prepared destinations.  With an expectation mask the call decodes: the mask
    selects the survivors, and successive batches bring them in any grouping and order.
    Without one it merges partial results by addition.

    The code is that of [galois_8::ReedSolomon]; [F] stands for its field, where
    [galois_8::mul_slice_xor] is [Field::mul_slice_add] and the byte XOR is
    the addition.  The theorems: batches that bring every expected survivor once
    complete the destinations; a call changes nothing but destinations, and a
    rejected call changes nothing at all. *)

From Stdlib Require Import NArith Lia List Bool Ring Sorted.
From stdpp Require Import base numbers list.
From S2P Require Import Prelude Errors Fields LinAlg Matrix Options Leopard InversionCache.
From S2P Require Import Parallel Checks Codec Coding Encode Shards Format DecodeMatrix.
From S2P Require Import RecoveryPlan Execute LeopardReconstruct Reconstruct OptionVec.

Local Open Scope field_scope.

Section decode_idx.
Context {F : Field} {RT : Runtime} {St : Storage Elem}
  {L : LruCache (list nat) (CachedMatrix Elem)}.

#[local] Abbreviation shard := (option (list Elem)).

Definition validate_opt_shard_count (self : ReedSolomon) (count : nat) : outcome Error unit :=
  if decide (count < total_shard_count self) then Err TooFewShards else
  if decide (total_shard_count self < count) then Err TooManyShards else Ok tt.

(** ** Accumulation *)

(** The inner loop over the inputs from [lo], on the chunk [start..end] of one output. *)
Definition accumulate_chunk (row : list Elem) (inputs : list (list Elem)) (lo start end_ : nat)
    (output_chunk : list Elem) : outcome Error (list Elem) :=
  for_range lo (length inputs) (λ i_input output_chunk,
    let! c := index row i_input in
    let! input := index inputs i_input in
    let! input := slice input start end_ in
    or_panic (mul_slice_add c input output_chunk)) output_chunk.

(** [output.chunks_mut(chunk_len).enumerate().for_each(..)] for one output. *)
Definition accumulate_one (chunk_len : nat) (row : list Elem) (inputs : list (list Elem))
    (output : list Elem) : outcome Error (list Elem) :=
  for_each (chunks (length output) chunk_len) (λ '(start, end_) output,
    update_slice output start end_ (accumulate_chunk row inputs 0 start end_)) output.

(** The loop over the coefficients of a row zipped with the inputs. *)
Definition accumulate_zipped (chunk_len : nat) (row : list Elem) (inputs : list (list Elem))
    (output : list Elem) : outcome Error (list Elem) :=
  for_each (chunks (length output) chunk_len) (λ '(start, end_) output,
    update_slice output start end_ (λ output_chunk,
      for_each (zip row inputs) (λ '(coefficient, input) output_chunk,
        let! input := slice input start end_ in
        or_panic (mul_slice_add coefficient input output_chunk)) output_chunk)) output.

(** Two outputs share the reads of each input chunk. *)
Definition accumulate_pair_step (row0 row1 : list Elem) (inputs : list (list Elem))
    (start end_ i_input : nat) (chunks01 : list Elem * list Elem)
    : outcome Error (list Elem * list Elem) :=
  let! input := index inputs i_input in
  let! input := slice input start end_ in
  let! c0 := index row0 i_input in
  let! chunk0 := or_panic (mul_slice_add c0 input chunks01.1) in
  let! c1 := index row1 i_input in
  let! chunk1 := or_panic (mul_slice_add c1 input chunks01.2) in
  Ok (chunk0, chunk1).

Definition accumulate_pair_chunk (row0 row1 : list Elem) (inputs : list (list Elem))
    (start end_ : nat) (chunks01 : list Elem * list Elem)
    : outcome Error (list Elem * list Elem) :=
  let! chunks01 := accumulate_pair_step row0 row1 inputs start end_ 0 chunks01 in
  for_range 1 (length inputs) (accumulate_pair_step row0 row1 inputs start end_) chunks01.

Definition accumulate_pair (chunk_len : nat) (row0 row1 : list Elem)
    (inputs : list (list Elem)) (outputs : list Elem * list Elem)
    : outcome Error (list Elem * list Elem) :=
  for_each (zip (chunks (length outputs.1) chunk_len) (chunks (length outputs.2) chunk_len))
    (λ '(c0, c1) '(output0, output1),
      let! chunk0 := slice output0 c0.1 c0.2 in
      let! chunk1 := slice output1 c1.1 c1.2 in
      let! ' (chunk0, chunk1) :=
        accumulate_pair_chunk row0 row1 inputs c0.1 c0.2 (chunk0, chunk1) in
      Ok (splice output0 c0.1 chunk0, splice output1 c1.1 chunk1)) outputs.

Definition decode_idx_accumulate_reduced_outputs (matrix_rows : list (list Elem))
    (inputs outputs : list (list Elem)) : outcome Error (list (list Elem)) :=
  let shard_len := match inputs with [] => 0%nat | input :: _ => length input end in
  if decide (shard_len = 0%nat) then Ok outputs else
  let chunk_len := code_chunk_len shard_len in
  match outputs with
  | [output] =>
      let! row := index matrix_rows 0 in
      let! output := accumulate_one chunk_len row inputs output in Ok [output]
  | [output0; output1] =>
      let! row0 := index matrix_rows 0 in
      let! row1 := index matrix_rows 1 in
      let! ' (output0, output1) := accumulate_pair chunk_len row0 row1 inputs (output0, output1) in
      Ok [output0; output1]
  | _ =>
      let! done_ := map_outcome (λ '(row, output), accumulate_zipped chunk_len row inputs output)
        (zip matrix_rows outputs) in
      Ok (done_ ++ drop (length done_) outputs)
  end.

(** ** Decoding a batch *)

(** The indices with the flag [b]. *)
Definition expected_indices (expect : list bool) (b : bool) : list nat :=
  filter (λ i, expect !! i = Some b) (seq 0 (length expect)).

(** Columns and contents of the batch's survivors among [valid]. *)
Definition batch_inputs (valid : list nat) (input : list shard)
  : outcome Error (list (nat * list Elem)) :=
  for_each (imap pair valid) (λ '(col, idx) batch,
    let! s := index input idx in
    Ok (match s with Some x => batch ++ [(col, x)] | None => batch end)) [].

(** The coefficients of an output at the columns of the batch. *)
Definition reduced_row (self : ReedSolomon) (data_decode_matrix : Matrix Elem)
    (parity_rows : MatrixRowRange) (positions : list nat) (idx : nat)
    : outcome Error (list Elem) :=
  if decide (idx < data_shard_count self)
  then map_outcome (λ col, get data_decode_matrix idx col) positions
  else
    let! parity_row := range_get_row parity_rows (idx - data_shard_count self) in
    map_outcome (λ col,
      for_range 0 (data_shard_count self) (λ i acc,
        let! c := index parity_row i in
        let! v := get data_decode_matrix i col in
        Ok (acc + c * v)) 0) positions.

(** What the layout checks find: nothing to do, or the survivors, the
    erasures, the outputs and the inputs of the batch. *)
Definition decode_idx_layout (self : ReedSolomon) (dst : list shard) (expect : list bool)
    (input : list shard)
    : outcome Error (option (list nat * list nat * list nat * list (nat * list Elem))) :=
  if decide (length expect ≠ total_shard_count self) then Err InvalidShardFlags else
  let valid := expected_indices expect true in
  let invalid := expected_indices expect false in
  if decide (length valid < data_shard_count self) then Err TooFewShardsPresent else
  let! shard_len := ok_or (length <$> head (omap id (input ++ dst))) TooFewShardsPresent in
  if decide (Exists (λ x, length x ≠ shard_len) (omap id input)) then Err IncorrectShardSize else
  if decide (Exists (λ x, length x ≠ shard_len) (omap id dst)) then Err IncorrectShardSize else
  let outputs := filter (λ i, is_Some (dst !! i ≫= id)) (seq 0 (length dst)) in
  if decide (outputs = []) then Ok None else
  let! batch := batch_inputs (take (data_shard_count self) valid) input in
  if decide (batch = []) then Ok None else
  Ok (Some (valid, invalid, outputs, batch)).

Definition decode_idx_expected (self : ReedSolomon) (dst : list shard) (expect : list bool)
    (input : list shard) : run :=
  match decode_idx_layout self dst expect input with
  | Err e => (self, dst, Err e)
  | Panic => (self, dst, Panic)
  | Ok None => (self, dst, Ok tt)
  | Ok (Some (valid, invalid, outputs, batch)) =>
      let '(self, matrix) := get_data_decode_matrix self valid invalid in
      match
        (let! data_decode_matrix := matrix in
         let! parity_rows := get_parity_rows self in
         let! rows := map_outcome
           (reduced_row self data_decode_matrix parity_rows (map fst batch)) outputs in
         let! views := output_views dst outputs in
         decode_idx_accumulate_reduced_outputs rows (map snd batch) views)
      with
      | Ok contents => (self, write_views dst outputs contents, Ok tt)
      | Err e => (self, dst, Err e)
      | Panic => (self, dst, Panic)
      end
  end.

(** ** Merging partial results *)
Definition merge_checks (dst input : list shard) : outcome Error unit :=
  for_each (zip dst input) (λ '(dst_shard, input_shard) _,
    match input_shard with
    | Some input =>
        let! dst := ok_or dst_shard TooFewShards in
        if decide (length dst ≠ length input) then Err IncorrectShardSize else Ok tt
    | None => Ok tt
    end) tt.

(** [for (dst, input) in dst.iter_mut().zip(input)] *)
Definition merge_shard (dst_shard input_shard : shard) : shard :=
  match dst_shard, input_shard with
  | Some dst, Some input => Some (zip_assign (λ d i, d + i) dst input)
  | _, _ => dst_shard
  end.

Definition decode_idx_merge (dst input : list shard) : list shard * outcome Error unit :=
  match merge_checks dst input with
  | Ok _ => (zip_assign merge_shard dst input, Ok tt)
  | Err e => (dst, Err e)
  | Panic => (dst, Panic)
  end.

Definition decode_idx (self : ReedSolomon) (dst : list shard) (expect_input : option (list bool))
    (input : list shard) : run :=
  if is_leopard_family self then (self, dst, Err UnsupportedCodecFamily) else
  match
    (let! _ := validate_opt_shard_count self (length dst) in
     validate_opt_shard_count self (length input))
  with
  | Err e => (self, dst, Err e)
  | Panic => (self, dst, Panic)
  | Ok _ =>
      match expect_input with
      | Some expect => decode_idx_expected self dst expect input
      | None => let '(dst, r) := decode_idx_merge dst input in (self, dst, r)
      end
  end.

(** A session: the batches in the order they arrive; it stops at an error. *)
Fixpoint decode_batches (self : ReedSolomon) (dst : list shard) (expect : list bool)
    (batches : list (list shard)) : run :=
  match batches with
  | [] => (self, dst, Ok tt)
  | input :: batches =>
      match decode_idx self dst (Some expect) input with
      | (self, dst, Ok _) => decode_batches self dst expect batches
      | r => r
      end
  end.
End decode_idx.

(** ** Accumulation adds dot products *)
Lemma map_outcome_tabulate {E A B} (f : A → outcome E B) n (a : nat → A) (b : nat → B) :
  (∀ k, k < n → f (a k) = Ok (b k)) → map_outcome f (tabulate n a) = Ok (tabulate n b).
Proof.
  intros Hf. unfold tabulate.
  assert (∀ l, (∀ k, k ∈ l → k < n) → map_outcome f (map a l) = Ok (map b l)) as H.
  { induction l as [|k l IH]; intros Hl; [done|]. simpl. rewrite Hf by (apply Hl; left).
    cbn [obind]. rewrite IH; [done|]. intros i Hi. apply Hl. by right. }
  apply H. intros k Hk. apply elem_of_seq in Hk. lia.
Qed.

Section accumulate.
Context {F : Field} {FL : FieldLaws F}.
Add Ring elem_ring : field_ring_theory (morphism field_ring_morph, constants [field_const]).
Context (m len : nat) (x : nat → nat → Elem) (Hm : 0 < m) (Hlen : 0 < len).

#[local] Abbreviation inputs := (tabulate m (λ i, tabulate len (x i))).

(** The contents [g] with the first [n] inputs added under the row [c]. *)
Definition added (c g : nat → Elem) (n : nat) (j : nat) : Elem := g j + bsum n (λ i, c i * x i j).

Lemma added_step c g s e i :
  i < m → s ≤ e → e ≤ len →
  (let! input := index (E:=Error) inputs i in
   let! input := slice input s e in
   or_panic (mul_slice_add (c i) input (tabulate (e - s) (λ j, added c g i (s + j)%nat))))
  = Ok (tabulate (e - s) (λ j, added c g (Datatypes.S i) (s + j)%nat)).
Proof.
  intros Hi Hs He. rewrite index_tabulate by done. cbn [obind].
  rewrite slice_tabulate by done. cbn [obind]. rewrite mul_slice_add_tabulate. cbn [or_panic].
  f_equal. apply tabulate_ext. intros j _. unfold added. simpl. ring.
Qed.

Lemma accumulate_chunk_ok c g lo s e :
  lo ≤ m → s ≤ e → e ≤ len →
  accumulate_chunk (tabulate m c) inputs lo s e (tabulate (e - s) (λ j, added c g lo (s + j)%nat))
  = Ok (tabulate (e - s) (λ j, added c g m (s + j)%nat)).
Proof.
  intros Hlo Hs He. apply ensures_exact. unfold accumulate_chunk. rewrite length_tabulate.
  apply (for_range_post _ _ _
    (λ i out, out = tabulate (e - s) (λ j, added c g i (s + j)%nat))); [done|done| |by intros ? ->].
  intros i out Hi ->. rewrite index_tabulate by lia. cbn [obind].
  rewrite added_step by lia. by apply ensures_ok.
Qed.

Lemma zipped_chunk_ok c g s e :
  s ≤ e → e ≤ len →
  for_each (zip (tabulate m c) inputs) (λ '(coefficient, input) output_chunk,
    let! input := slice input s e in
    or_panic (mul_slice_add coefficient input output_chunk))
    (tabulate (e - s) (λ j, added c g 0 (s + j)%nat))
  = Ok (E:=Error) (tabulate (e - s) (λ j, added c g m (s + j)%nat)).
Proof.
  intros Hs He. apply ensures_exact. rewrite zip_with_tabulate.
  apply (for_each_post _ _ (λ i out, out = tabulate (e - s) (λ j, added c g i (s + j)%nat)));
    [done| |].
  - intros i y out Hi ->. pose proof (lookup_lt_Some _ _ _ Hi) as Him.
    rewrite length_tabulate in Him. rewrite lookup_tabulate in Hi by done. injection Hi as <-.
    pose proof (added_step c g s e i Him Hs He) as Hstep. rewrite index_tabulate in Hstep by done.
    cbn [obind] in Hstep. rewrite Hstep. by apply ensures_ok.
  - intros out ->. by rewrite length_tabulate.
Qed.

(** Contents with the elements below [p] finished. *)
Definition below (p : nat) (c g : nat → Elem) : list Elem :=
  tabulate len (λ j, added c g (if decide (j < p) then m else 0) j).

Lemma slice_below a b c g :
  a ≤ b → b ≤ len → slice (E:=Error) (below a c g) a b
  = Ok (tabulate (b - a) (λ j, added c g 0 (a + j)%nat)).
Proof.
  intros Hab Hb. unfold below. rewrite slice_tabulate by lia. f_equal. apply tabulate_ext.
  intros j _. by rewrite decide_False by lia.
Qed.

Lemma splice_below a b c g :
  a ≤ b → b ≤ len →
  splice (below a c g) a (tabulate (b - a) (λ j, added c g m (a + j)%nat)) = below b c g.
Proof.
  intros Hab Hb. unfold below. rewrite splice_tabulate by lia. apply tabulate_ext. intros j Hj.
  destruct (decide (j < b)) as [H1|H1], (decide (a ≤ j < a + (b - a))) as [H2|H2]; try lia.
  - by replace (a + (j - a))%nat with j by lia.
  - by rewrite decide_True by lia.
  - by rewrite decide_False by lia.
Qed.

(** Chunk by chunk over a whole output. *)
Lemma output_loop_ok c g n (body : nat → nat → list Elem → outcome Error (list Elem)) :
  0 < n →
  (∀ s e, s ≤ e → e ≤ len → body s e (tabulate (e - s) (λ j, added c g 0 (s + j)%nat))
     = Ok (tabulate (e - s) (λ j, added c g m (s + j)%nat))) →
  for_each (chunks len n) (λ '(s, e) output, update_slice output s e (body s e))
    (tabulate len (added c g 0)) = Ok (tabulate len (added c g m)).
Proof.
  intros Hn Hbody. apply ensures_exact.
  eapply ensures_weaken; [apply (chunks_for_each_ensures len n _ (λ p out, out = below p c g))|].
  - done.
  - apply tabulate_ext. intros j _. by rewrite decide_False by lia.
  - intros a b out Hab Hb ->. unfold update_slice. rewrite slice_below by lia. cbn [obind].
    rewrite Hbody by lia. cbn [obind]. apply ensures_ok. apply splice_below; lia.
  - intros out ->. apply tabulate_ext. intros j Hj. by rewrite decide_True.
Qed.

Lemma added_0 c g : tabulate len g = tabulate len (added c g 0).
Proof. apply tabulate_ext. intros j _. unfold added. simpl. ring. Qed.

Lemma accumulate_one_ok c g n :
  0 < n → accumulate_one n (tabulate m c) inputs (tabulate len g)
  = Ok (tabulate len (added c g m)).
Proof.
  intros Hn. unfold accumulate_one. rewrite length_tabulate, (added_0 c g).
  apply (output_loop_ok c g n); [done|]. intros s e Hs He. apply accumulate_chunk_ok; lia.
Qed.

Lemma accumulate_zipped_ok c g n :
  0 < n → accumulate_zipped n (tabulate m c) inputs (tabulate len g)
  = Ok (tabulate len (added c g m)).
Proof.
  intros Hn. unfold accumulate_zipped. rewrite length_tabulate, (added_0 c g).
  apply (output_loop_ok c g n (λ s e output_chunk,
    for_each (zip (tabulate m c) inputs) (λ '(coefficient, input) output_chunk,
        let! input := slice input s e in
        or_panic (mul_slice_add coefficient input output_chunk)) output_chunk)); [done|].
  intros s e Hs He. by apply zipped_chunk_ok.
Qed.

Lemma pair_chunk_ok c0 g0 c1 g1 s e :
  s ≤ e → e ≤ len →
  accumulate_pair_chunk (tabulate m c0) (tabulate m c1) inputs s e
    (tabulate (e - s) (λ j, added c0 g0 0 (s + j)%nat),
     tabulate (e - s) (λ j, added c1 g1 0 (s + j)%nat))
  = Ok (tabulate (e - s) (λ j, added c0 g0 m (s + j)%nat),
        tabulate (e - s) (λ j, added c1 g1 m (s + j)%nat)).
Proof.
  intros Hs He. unfold accumulate_pair_chunk.
  assert (∀ i, i < m → accumulate_pair_step (tabulate m c0) (tabulate m c1) inputs s e i
      (tabulate (e - s) (λ j, added c0 g0 i (s + j)%nat),
       tabulate (e - s) (λ j, added c1 g1 i (s + j)%nat))
    = Ok (tabulate (e - s) (λ j, added c0 g0 (Datatypes.S i) (s + j)%nat),
          tabulate (e - s) (λ j, added c1 g1 (Datatypes.S i) (s + j)%nat))) as Hstep.
  { intros i Hi. unfold accumulate_pair_step. cbn [fst snd].
    pose proof (added_step c0 g0 s e i Hi Hs He) as E0.
    pose proof (added_step c1 g1 s e i Hi Hs He) as E1.
    rewrite index_tabulate in E0, E1 |- * by done. cbn [obind] in *.
    rewrite slice_tabulate in E0, E1 |- * by done. cbn [obind] in *.
    rewrite !index_tabulate by done. cbn [obind]. rewrite E0. cbn [obind]. by rewrite E1. }
  rewrite Hstep by done. cbn [obind]. rewrite length_tabulate. apply ensures_exact.
  apply (for_range_post _ _ _ (λ i out, out =
    (tabulate (e - s) (λ j, added c0 g0 i (s + j)%nat),
     tabulate (e - s) (λ j, added c1 g1 i (s + j)%nat)))); [lia|done| |by intros ? ->].
  intros i out Hi ->. rewrite Hstep by lia. by apply ensures_ok.
Qed.

Lemma accumulate_pair_ok c0 g0 c1 g1 n :
  0 < n →
  accumulate_pair n (tabulate m c0) (tabulate m c1) inputs (tabulate len g0, tabulate len g1)
  = Ok (tabulate len (added c0 g0 m), tabulate len (added c1 g1 m)).
Proof.
  intros Hn. unfold accumulate_pair. cbn [fst snd]. rewrite !length_tabulate.
  rewrite (added_0 c0 g0), (added_0 c1 g1). apply ensures_exact.
  assert (∀ l : list (nat * nat), zip l l = map (λ c, (c, c)) l) as ->.
  { intros l. induction l as [|y l IH]; [done|]. simpl. by f_equal. }
  assert (∀ (l : list (nat * nat)) body (s : list Elem * list Elem),
    for_each (E:=Error) (map (λ c, (c, c)) l) body s = for_each l (λ c, body (c, c)) s) as ->.
  { intros l body. induction l as [|y l IH]; intros s; [done|]. simpl.
    destruct (body (y, y) s); simpl; [apply IH|done..]. }
  eapply ensures_weaken; [apply (chunks_for_each_ensures len n _ (λ p out,
    out = (below p c0 g0, below p c1 g1)))|].
  - done.
  - unfold below. f_equal; apply tabulate_ext; intros j _; by rewrite decide_False by lia.
  - intros a b out Hab Hb ->. cbn [fst snd]. rewrite !slice_below by lia. cbn [obind].
    rewrite pair_chunk_ok by lia. cbn [obind]. apply ensures_ok. by rewrite !splice_below by lia.
  - intros out ->. unfold below. f_equal; apply tabulate_ext; intros j Hj;
      by rewrite decide_True.
Qed.

(** Every width of the output list accumulates the same dot products. *)
Lemma accumulate_ok t (c g : nat → nat → Elem) :
  decode_idx_accumulate_reduced_outputs (tabulate t (λ k, tabulate m (c k))) inputs
    (tabulate t (λ k, tabulate len (g k)))
  = Ok (tabulate t (λ k, tabulate len (added (c k) (g k) m))).
Proof.
  unfold decode_idx_accumulate_reduced_outputs.
  assert (match inputs with [] => 0%nat | input :: _ => length input end = len) as ->.
  { destruct m as [|m']; [lia|]. unfold tabulate at 1. simpl. apply length_tabulate. }
  rewrite decide_False by lia. pose proof (code_chunk_len_pos len Hlen) as [Hn _].
  destruct t as [|[|[|t]]].
  - done.
  - change (tabulate 1 (λ k, tabulate len (g k))) with [tabulate len (g 0%nat)].
    rewrite index_tabulate by lia. cbn [obind]. by rewrite accumulate_one_ok.
  - change (tabulate 2 (λ k, tabulate len (g k))) with [tabulate len (g 0%nat); tabulate len (g 1%nat)].
    rewrite !index_tabulate by lia. cbn [obind]. by rewrite accumulate_pair_ok.
  - set (t' := Datatypes.S (Datatypes.S (Datatypes.S t))).
    assert (∃ a b c' r, tabulate t' (λ k, tabulate len (g k)) = a :: b :: c' :: r)
      as (a & b & c' & r & Ht) by (repeat eexists).
    rewrite Ht. cbv match. rewrite <-Ht.
    rewrite zip_with_tabulate.
    rewrite (map_outcome_tabulate _ t' _ (λ k, tabulate len (added (c k) (g k) m))).
    + cbn [obind]. rewrite drop_ge by (by rewrite !length_tabulate). by rewrite app_nil_r.
    + intros k _. by apply accumulate_zipped_ok.
Qed.
End accumulate.

(** ** Present shards *)
Section present_shards.
Context {F : Field}.
Implicit Types (dst : list (option (list Elem))).

(** The destinations of a call: the indices of the present shards. *)
Definition destinations dst : list nat := filter (λ i, is_Some (dst !! i ≫= id)) (seq 0 (length dst)).

Lemma elem_destinations dst o :
  o ∈ destinations dst ↔ ∃ x, dst !! o = Some (Some x).
Proof.
  unfold destinations. rewrite list_elem_of_filter, elem_of_seq. split.
  - intros [[x Hx] _]. destruct (dst !! o) as [[y|]|]; simpl in Hx; try done. by exists y.
  - intros [x Hx]. rewrite Hx. split; [by eexists|]. apply lookup_lt_Some in Hx. lia.
Qed.

Lemma elem_omap_id (l : list (option (list Elem))) x : x ∈ omap id l ↔ Some x ∈ l.
Proof.
  rewrite list_elem_of_omap. split; [|by exists (Some x)].
  intros (y & Hy & Hid). unfold id in Hid. by subst y.
Qed.

End present_shards.

(** ** One batch *)
Section batch.
Context {F : Field} {FL : FieldLaws F} {RT : Runtime} {St : Storage Elem}
  {L : LruCache (list nat) (CachedMatrix Elem)} {LL : LruLaws L}.
Add Ring elem_ring2 : field_ring_theory (morphism field_ring_morph, constants [field_const]).
Context (self : ReedSolomon) (M : nat → nat → Elem) (len : nat) (cw : list (list Elem)).
#[local] Abbreviation d := (data_shard_count self).
#[local] Abbreviation n := (total_shard_count self).
Context (Hc : classic_codec self M) (Hcw : codeword M d n len cw).
Context (expect : list bool) (Hexpect : length expect = n).
#[local] Abbreviation V := (expected_indices expect true).
Context (HV : length V = d) (Hsolvable : nonsingular d d (selected_rows M V)).
Implicit Types (input dst : list (option (list Elem))).

(** The batch brings shard [i]. *)
Definition brings input (i : nat) : Prop := is_Some (input !! i ≫= id).

#[export] Instance brings_dec input i : Decision (brings input i).
Proof. unfold brings. apply _. Defined.

Definition expected (i : nat) : bool := default false (expect !! i).

Lemma expected_valid :
  valid_of n d expected = V ∧ invalid_of n expected = expected_indices expect false.
Proof.
  assert (∀ b, filter (λ i, expected i = b) (seq 0 n) = expected_indices expect b) as Hf.
  { intros b. unfold expected_indices. rewrite Hexpect. apply filter_ext_elem.
    intros i Hi%elem_of_seq. unfold expected.
    destruct (lookup_lt_is_Some_2 expect i) as [y Hy]; [lia|]. rewrite Hy. simpl.
    split; [by intros ->|by intros [= ->]]. }
  unfold valid_of, invalid_of. rewrite !Hf. split; [|done]. apply take_ge. lia.
Qed.

Lemma valid_facts : StronglySorted lt V ∧ (∀ v, v ∈ V → v < n).
Proof.
  split; [apply sorted_filter, sorted_seq|].
  intros v Hv. apply list_elem_of_filter in Hv as [_ Hv%elem_of_seq]. lia.
Qed.

(** The columns the batch brings. *)
Definition columns input : list nat := filter (λ col, brings input (rows_at V col)) (seq 0 d).

Lemma batch_inputs_ok input :
  holds cw n input →
  batch_inputs V input
  = Ok (map (λ col, (col, shard_at cw (rows_at V col))) (columns input)).
Proof.
  intros [Hl Hh]. unfold batch_inputs. apply ensures_exact.
  apply (for_each_post _ _ (λ k batch, batch =
    map (λ col, (col, shard_at cw (rows_at V col)))
      (filter (λ col, brings input (rows_at V col)) (seq 0 k)))); [done| |].
  - intros k [col v] batch Hk ->. rewrite list_lookup_imap in Hk.
    destruct (V !! k) as [v'|] eqn:Hv; [|done]. injection Hk as <- <-.
    pose proof (list_elem_of_lookup_2 _ _ _ Hv) as Hin.
    destruct (lookup_lt_is_Some_2 input v') as [s Hs];
      [rewrite Hl; by apply (proj2 valid_facts)|].
    rewrite (index_ok _ _ _ Hs). cbn [obind]. apply ensures_ok.
    change (1 + k)%nat with (Datatypes.S k). rewrite seq_S, filter_app, map_app. cbn [Nat.add].
    assert (brings input v' ↔ is_Some s) as Hb by (unfold brings; by rewrite Hs).
    rewrite filter_cons, (rows_at_lookup _ _ _ Hv). destruct s as [x|].
    + rewrite decide_True by (apply Hb; eauto). cbn [map filter list_filter].
      rewrite (rows_at_lookup _ _ _ Hv). unfold shard_at at 3. by rewrite (Hh v' _ x Hs eq_refl).
    + rewrite decide_False by (rewrite Hb; by intros [? ?]). cbn [map filter list_filter].
      by rewrite app_nil_r.
  - intros batch ->. by rewrite length_imap, HV.
Qed.

(** ** The rows of the outputs *)
Context (inverse : Matrix Elem) (X : nat → nat → Elem).
Context (Hbuild : build_data_decode_matrix self V = Ok inverse).
Context (Hrep : rep inverse d d X) (HX : decodes d (selected_rows M V) X).

(** The coefficient of output [o] at a column, and the shard it multiplies. *)
Definition coeff (o col : nat) : Elem :=
  if decide (o < d) then X o col else bsum d (λ i, M o i * X i col).
Definition survivor (col j : nat) : Elem := shard_elem cw (rows_at V col) j.

Lemma reduced_row_ok rows o (cols : list nat) :
  o < n → (∀ col, col ∈ cols → col < d) →
  (∀ k, k < parity_shard_count self →
     rows_row (rows_of_range rows) k = Ok (tabulate d (M (d + k)%nat))) →
  reduced_row self inverse rows cols o = Ok (map (coeff o) cols).
Proof.
  intros Ho Hcols Hrows. unfold reduced_row, coeff. case_decide as Hod.
  - apply map_outcome_all. intros col Hcol. apply (acc_ok _ _ _ _ Hrep); auto.
  - assert (n = (d + parity_shard_count self)%nat) as Hn by (by apply (counts self M Hc)).
    specialize (Hrows (o - d)%nat ltac:(lia)). cbn [rows_of_range rows_row] in Hrows.
    rewrite Hrows. cbn [obind]. apply map_outcome_all. intros col Hcol.
    replace (d + (o - d))%nat with o by lia.
    rewrite <-lsum_seq. unfold for_range. rewrite Nat.sub_0_r.
    rewrite (sum_loop _ (λ i, M o i * X i col)); [f_equal; ring|].
    intros i acc Hi%elem_of_seq. rewrite index_tabulate by lia. cbn [obind]. unfold get.
    rewrite (acc_ok _ _ _ _ Hrep); [done|lia|auto].
Qed.

(** All columns together give the shard. *)
Lemma coeff_complete o j :
  o < n → j < len → bsum d (λ col, coeff o col * survivor col j) = shard_elem cw o j.
Proof.
  intros Ho Hj. destruct Hcw as [_ Hcol]. set (z := λ c, shard_elem cw c j).
  assert (∀ a, a < d → bsum d (λ col, X a col * survivor col j) = z a) as Hdec.
  { intros a Ha. rewrite <-(HX z a Ha). unfold row_dot at 1. apply bsum_ext. intros col Hcol'.
    f_equal. unfold survivor. apply Hcol; [|done]. apply (proj2 valid_facts), rows_at_elem. lia. }
  unfold coeff. case_decide as Hod; [by apply Hdec|].
  rewrite (Hcol o j Ho Hj). unfold row_dot.
  transitivity (bsum d (λ i, M o i * bsum d (λ col, X i col * survivor col j))).
  - rewrite (bsum_ext d _ (λ col, bsum d (λ i, M o i * (X i col * survivor col j)))).
    + rewrite bsum_swap. apply bsum_ext. intros i _. apply bsum_mul_l.
    + intros col _. rewrite <-bsum_mul_r. apply bsum_ext. intros i _. ring.
  - apply bsum_ext. intros i Hi. by rewrite Hdec.
Qed.

(** ** The destinations after the columns [seen] *)
Definition partial (seen : list nat) (o : nat) : list Elem :=
  tabulate len (λ j, lsum seen (λ col, coeff o col * survivor col j)).

Definition progress dst (seen : list nat) : list (option (list Elem)) :=
  imap (λ o s, (λ _, partial seen o) <$> s) dst.

Lemma lookup_progress dst seen o :
  progress dst seen !! o = (λ s, (λ _, partial seen o) <$> s) <$> dst !! o.
Proof. unfold progress. by rewrite list_lookup_imap. Qed.

Lemma destinations_progress dst seen :
  filter (λ i, is_Some (progress dst seen !! i ≫= id)) (seq 0 (length (progress dst seen)))
  = destinations dst.
Proof.
  unfold destinations. assert (length (progress dst seen) = length dst) as ->
    by (unfold progress; by rewrite length_imap).
  apply filter_ext_elem. intros i _. rewrite lookup_progress.
  destruct (dst !! i) as [[x|]|]; simpl; [|done..]. by split; intros _; eexists.
Qed.

Lemma progress_step dst seen cols :
  write_views (progress dst seen) (destinations dst) (map (partial (seen ++ cols)) (destinations dst))
  = progress dst (seen ++ cols).
Proof.
  rewrite write_views_ok.
  2:{ intros o [x Hx]%elem_destinations. unfold progress. rewrite length_imap.
      by eapply lookup_lt_Some. }
  apply list_eq. intros o. rewrite lookup_with_targets, !lookup_progress.
  destruct (dst !! o) as [s|] eqn:Hs; [|done]. simpl. f_equal. destruct s as [x|]; simpl.
  - rewrite decide_True; [done|]. apply elem_destinations. by exists x.
  - rewrite decide_False; [done|]. rewrite elem_destinations, Hs. by intros [x ?].
Qed.

(** ** One call *)
Lemma progress_lengths dst seen x : x ∈ omap id (progress dst seen) → length x = len.
Proof.
  rewrite elem_omap_id. intros [o Ho]%list_elem_of_lookup_1. rewrite lookup_progress in Ho.
  destruct (dst !! o) as [[y|]|]; simpl in Ho; [|done..]. injection Ho as <-.
  apply length_tabulate.
Qed.

Lemma input_lengths input x : holds cw n input → x ∈ omap id input → length x = len.
Proof.
  intros [_ Hh]. rewrite elem_omap_id. intros [i Hi]%list_elem_of_lookup_1.
  destruct Hcw as [(_ & _ & Hall) _]. pose proof (Hh i _ x Hi eq_refl) as Hx.
  by eapply Forall_lookup_1 in Hall.
Qed.

Lemma layout_ok c input dst seen :
  holds cw n input → destinations dst ≠ [] →
  decode_idx_layout (set_cache self c) (progress dst seen) expect input
  = Ok (if decide (columns input = []) then None else
      Some (V, expected_indices expect false, destinations dst,
        map (λ col, (col, shard_at cw (rows_at V col))) (columns input))).
Proof.
  intros Hh Hdst. unfold decode_idx_layout.
  change (total_shard_count (set_cache self c)) with n.
  change (data_shard_count (set_cache self c)) with d.
  rewrite decide_False by auto. rewrite decide_False by lia.
  assert (head (omap id (input ++ progress dst seen)) ≠ None) as Hhead.
  { rewrite omap_app. destruct (destinations dst) as [|o l] eqn:Ho; [done|].
    assert (o ∈ destinations dst) as [x Hx]%elem_destinations by (rewrite Ho; left).
    assert (partial seen o ∈ omap id (progress dst seen)) as Hin.
    { apply elem_omap_id, (list_elem_of_lookup_2 _ o). by rewrite lookup_progress, Hx. }
    destruct (omap id input); [|done]. destruct (omap id (progress dst seen)); [|done].
    by apply not_elem_of_nil in Hin. }
  destruct (head (omap id (input ++ progress dst seen))) as [x|] eqn:Hx; [|done].
  assert (length x = len) as Hxl.
  { apply head_Some_elem_of in Hx. rewrite omap_app in Hx. apply elem_of_app in Hx as [Hx|Hx].
    - by eapply input_lengths.
    - by eapply progress_lengths. }
  cbn [fmap option_fmap option_map ok_or obind]. rewrite Hxl.
  rewrite decide_False.
  2:{ intros (y & Hy & Hne)%Exists_exists. apply Hne. by eapply input_lengths. }
  rewrite decide_False.
  2:{ intros (y & Hy & Hne)%Exists_exists. apply Hne. by eapply progress_lengths. }
  rewrite destinations_progress, decide_False by done.
  rewrite take_ge by lia. rewrite batch_inputs_ok by done. cbn [obind].
  destruct (columns input) as [|col l]; [by rewrite !decide_True by done|].
  by rewrite !decide_False by done.
Qed.

Lemma survivor_tabulate col :
  col < d → shard_at cw (rows_at V col) = tabulate len (survivor col).
Proof.
  intros Hcol. destruct Hcw as [(Hl & _ & Hall) _].
  pose proof (lookup_shard_at cw n len Hl Hall (rows_at V col)) as H.
  destruct H as [Hat Hlen]; [apply (proj2 valid_facts), rows_at_elem; lia|].
  apply eq_tabulate; [done|]. intros j Hj. unfold survivor, shard_elem. rewrite Hat. simpl.
  destruct (lookup_lt_is_Some_2 (shard_at cw (rows_at V col)) j) as [y Hy]; [lia|]. by rewrite Hy.
Qed.

(** The accumulated contents of the destinations. *)
Lemma accumulate_columns dst seen cols :
  cols ≠ [] → (∀ col, col ∈ cols → col < d) →
  decode_idx_accumulate_reduced_outputs (map (λ o, map (coeff o) cols) (destinations dst))
    (map (λ col, shard_at cw (rows_at V col)) cols) (map (partial seen) (destinations dst))
  = Ok (map (partial (seen ++ cols)) (destinations dst)).
Proof.
  intros Hne Hcols. set (Os := destinations dst). destruct Hcw as [(_ & Hlen & _) _].
  assert (∀ A (f : nat → A) l, map f l = tabulate (length l) (λ k, f (rows_at l k))) as Htab.
  { intros A f l. apply eq_tabulate; [by rewrite length_map|]. intros k Hk.
    by rewrite lookup_map, lookup_rows_at. }
  assert (0 < length cols) as Hpos by (destruct cols; [done|simpl; lia]).
  rewrite (Htab _ (λ o, map (coeff o) cols) Os), (Htab _ (partial seen) Os).
  rewrite (Htab _ (partial (seen ++ cols)) Os).
  rewrite (tabulate_ext (length Os) _
    (λ k, tabulate (length cols) (λ i, coeff (rows_at Os k) (rows_at cols i))))
    by (intros; apply Htab).
  rewrite (Htab _ (λ col, shard_at cw (rows_at V col)) cols).
  rewrite (tabulate_ext (length cols) (λ k, shard_at cw (rows_at V (rows_at cols k)))
    (λ k, tabulate len (survivor (rows_at cols k)))).
  2:{ intros k Hk. apply survivor_tabulate, Hcols, rows_at_elem. lia. }
  unfold partial. rewrite accumulate_ok by done. f_equal. apply tabulate_ext. intros k _.
  apply tabulate_ext. intros j _. unfold added. rewrite lsum_app. f_equal.
  by rewrite lsum_rows_at.
Qed.

Lemma classic_set_cache c : classic_codec (set_cache self c) M.
Proof. by apply (classic_format self). Qed.

Lemma step_ok c input dst seen :
  cache_valid (set_cache self c) → holds cw n input → length dst = n → destinations dst ≠ [] →
  ∃ c', decode_idx (set_cache self c) (progress dst seen) (Some expect) input
    = (set_cache self c', progress dst (seen ++ columns input), Ok tt) ∧
    cache_valid (set_cache self c').
Proof.
  intros Hcv Hh Hl Hdst. destruct (counts self M Hc) as (H1 & H2 & H3).
  unfold decode_idx, is_leopard_family.
  destruct (classic_families _ M (classic_set_cache c)) as [-> ->]. cbn [orb].
  assert (∀ l : list (option (list Elem)), length l = n →
    validate_opt_shard_count (set_cache self c) (length l) = Ok tt) as Hvalid.
  { intros l Hll. unfold validate_opt_shard_count.
    change (total_shard_count (set_cache self c)) with n.
    by rewrite !decide_False by lia. }
  rewrite Hvalid by (unfold progress; by rewrite length_imap). cbn [obind].
  rewrite Hvalid by apply Hh. unfold decode_idx_expected. rewrite layout_ok by done.
  destruct expected_valid as [Hv Hinv]. case_decide as Hcols.
  { exists c. split; [|done]. by rewrite Hcols, app_nil_r. }
  destruct (get_decode_spec (set_cache self c) n d expected) as (c' & Hget & Hcv');
    [done|done|done|done|by rewrite Hv|].
  rewrite Hv, Hinv in Hget. rewrite Hget.
  change (build_data_decode_matrix (set_cache self c) V) with (build_data_decode_matrix self V).
  rewrite Hbuild. cbn [obind]. exists c'. split; [|done].
  change (set_cache (set_cache self c) c') with (set_cache self c').
  destruct (parity_rows_ok (E:=Error) (set_cache self c') M (classic_set_cache c'))
    as (rows & -> & Hrows). cbn [obind].
  rewrite !map_map. cbn [fst snd]. rewrite map_id.
  assert (∀ col, col ∈ columns input → col < d) as Hcd.
  { intros col Hcol%list_elem_of_filter. destruct Hcol as [_ Hcol%elem_of_seq]. lia. }
  rewrite (map_outcome_all _ (λ o, map (coeff o) (columns input))).
  2:{ intros o [x Hx]%elem_destinations. apply reduced_row_ok; [|done|done].
      apply lookup_lt_Some in Hx. lia. }
  cbn [obind]. rewrite (output_views_ok _ (partial seen)).
  2:{ intros o [x Hx]%elem_destinations. by rewrite lookup_progress, Hx. }
  cbn [obind]. rewrite accumulate_columns by done. by rewrite progress_step.
Qed.
End batch.

(** ** Properties *)
Section properties.
Context {F : Field} {FL : FieldLaws F} {RT : Runtime} {St : Storage Elem}
  {L : LruCache (list nat) (CachedMatrix Elem)} {LL : LruLaws L}.
Implicit Types (input dst : list (option (list Elem))).

Lemma session_ok (self : ReedSolomon) M len cw expect inverse X batches c dst seen :
  classic_codec self M → codeword M (data_shard_count self) (total_shard_count self) len cw →
  length expect = total_shard_count self →
  length (expected_indices expect true) = data_shard_count self →
  build_data_decode_matrix self (expected_indices expect true) = Ok inverse →
  rep inverse (data_shard_count self) (data_shard_count self) X →
  cache_valid (set_cache self c) → Forall (holds cw (total_shard_count self)) batches →
  length dst = total_shard_count self → destinations dst ≠ [] →
  ∃ c', decode_batches (set_cache self c) (progress self M len cw expect X dst seen) expect batches
    = (set_cache self c', progress self M len cw expect X dst
         (seen ++ List.concat (map (columns self expect) batches)), Ok tt) ∧
    cache_valid (set_cache self c').
Proof.
  intros Hc Hcw He HV Hb Hr Hcv Hall Hl Hne. revert c seen Hcv.
  induction Hall as [|input batches Hh _ IH]; intros c seen Hcv; simpl.
  - exists c. by rewrite app_nil_r.
  - destruct (step_ok self M len cw Hc Hcw expect He HV inverse X Hb Hr c input dst seen)
      as (c1 & -> & Hc1); [done..|].
    destruct (IH c1 (seen ++ columns self expect input) Hc1) as (c2 & -> & Hc2).
    exists c2. by rewrite app_assoc.
Qed.

(** The survivors of a batch and their columns. *)
Lemma columns_survivors (self : ReedSolomon) expect input :
  length (expected_indices expect true) = data_shard_count self →
  filter (brings input) (expected_indices expect true)
  = map (rows_at (expected_indices expect true)) (columns self expect input).
Proof.
  set (V := expected_indices expect true). intros HV. unfold columns. fold V. rewrite <-HV.
  assert (∀ l, filter (brings input) l
    = map (rows_at l) (filter (λ col, brings input (rows_at l col)) (seq 0 (length l)))) as H; [|apply H].
  induction l as [|x l IH] using rev_ind; [done|].
  rewrite filter_app, length_app, seq_app, filter_app, map_app. f_equal.
  - rewrite IH. rewrite (filter_ext_elem (λ col, brings input (rows_at (l ++ [x]) col))
      (λ col, brings input (rows_at l col))).
    + apply map_ext_in. intros col Hcol%list_elem_of_In%list_elem_of_filter.
      destruct Hcol as [_ Hcol%elem_of_seq]. unfold rows_at. by rewrite lookup_app_l by lia.
    + intros col Hcol%elem_of_seq. unfold rows_at. by rewrite lookup_app_l by lia.
  - cbn [length seq Nat.add]. rewrite !filter_cons.
    assert (rows_at (l ++ [x]) (length l) = x) as Hx.
    { unfold rows_at. by rewrite lookup_app_r, Nat.sub_diag by lia. }
    rewrite Hx. case_decide; [|done]. cbn [filter list_filter map]. by rewrite Hx.
Qed.

(** C31: progressive recovery is complete, for a Classic codec, exactly
    [data] expected survivors whose rows of the matrix are nonsingular (they determine
    the data), and at least one destination, each present one zeroed and of the shard
    length: let any sequence of batches bring the expected survivors of a codeword,
    each once, in any grouping and order, possibly with other shards that are ignored.
    Every call succeeds, and at the end every destination, data or parity,
    holds exactly its shard, absent destinations stay absent, and the cache stays
    correct.  (Other numbers of expected survivors and singular survivor sets are
    outside this statement.) *)
Theorem decode_idx_progressive (self : ReedSolomon) (M : nat → nat → Elem) (len : nat)
    (cw : list (list Elem)) (expect : list bool) dst (batches : list (list (option (list Elem))))
    (Hc : classic_codec self M) (Hcache : cache_valid self)
    (Hcw : codeword M (data_shard_count self) (total_shard_count self) len cw)
    (Hexpect : length expect = total_shard_count self)
    (HV : length (expected_indices expect true) = data_shard_count self)
    (Hsolvable : nonsingular (data_shard_count self) (data_shard_count self)
       (selected_rows M (expected_indices expect true)))
    (Hl : length dst = total_shard_count self) (Hsome : ∃ o x, dst !! o = Some (Some x))
    (Hzero : ∀ o x, dst !! o = Some (Some x) → x = replicate len 0)
    (Hbatches : Forall (holds cw (total_shard_count self)) batches)
    (Honce : List.concat (map (λ input, filter (brings input) (expected_indices expect true)) batches)
             ≡ₚ expected_indices expect true) :
  ∃ c, decode_batches self dst expect batches
    = (set_cache self c, imap (λ o s, (λ _, shard_at cw o) <$> s) dst, Ok tt) ∧
    cache_valid (set_cache self c).
Proof.
  destruct (counts self M Hc) as (H1 & H2 & H3).
  set (V := expected_indices expect true) in *. set (d := data_shard_count self) in *.
  destruct (valid_facts self expect Hexpect HV) as [Hsort Hbound]. fold V in Hsort, Hbound.
  pose proof (build_decode_ensures self M V Hc) as Hb. unfold survivor_list in Hb.
  specialize (Hb ltac:(split_and!; [done|done|intros x Hx; specialize (Hbound x Hx); unfold d; lia])).
  destruct (build_data_decode_matrix self V) as [inverse| |] eqn:Hbuild;
    [|by destruct Hb as [_ Hb]; exfalso; apply Hb|done].
  destruct Hb as (X & Hrep & HX%inverse_decodes).
  destruct (session_ok self M len cw expect inverse X batches (rs_cache self) dst [] Hc Hcw Hexpect HV
    Hbuild Hrep) as (c & Hrun & Hcv).
  { by destruct self. }
  { done. }
  { done. }
  { destruct Hsome as (o & x & Hx). intros Hnil.
    assert (o ∈ destinations dst) as Ho by (apply elem_destinations; by exists x).
    rewrite Hnil in Ho. by apply not_elem_of_nil in Ho. }
  assert (set_cache self (rs_cache self) = self) as Hself by (by destruct self).
  rewrite Hself in Hrun. exists c. split; [|done].
  assert (progress self M len cw expect X dst [] = dst) as Hinit.
  { apply list_eq. intros o. rewrite lookup_progress.
    destruct (dst !! o) as [[x|]|] eqn:Ho; [|done..]. simpl. do 2 f_equal.
    rewrite (Hzero o x Ho). symmetry. apply eq_tabulate; [apply length_replicate|].
    intros j Hj. by rewrite lookup_replicate_2. }
  rewrite Hinit in Hrun. rewrite Hrun. do 2 f_equal. apply list_eq. intros o.
  rewrite lookup_progress, list_lookup_imap. destruct (dst !! o) as [[x|]|] eqn:Ho; [|done..].
  simpl. do 2 f_equal. apply lookup_lt_Some in Ho.
  assert (List.concat (map (columns self expect) batches) ≡ₚ seq 0 d) as Hperm.
  { rewrite (map_ext _ _ (λ input, columns_survivors self expect input HV)) in Honce.
    fold V in Honce. rewrite <-(map_map (columns self expect) (map (rows_at V))) in Honce.
    rewrite <-concat_map in Honce. apply (Permutation_map (cut V)) in Honce.
    rewrite map_map in Honce.
    assert (∀ col, col < d → cut V (rows_at V col) = col) as Hcut.
    { intros col Hcol. assert (rows_at V col ∈ V) as Hin by (apply rows_at_elem; lia).
      destruct (cut_in V (rows_at V col) Hsort Hin) as [Hlk _].
      eapply (NoDup_lookup V); [by apply sorted_nodup_lt|exact Hlk|]. apply lookup_rows_at. lia. }
    assert (map (cut V) V = seq 0 d) as HVd.
    { apply list_eq. intros k. rewrite lookup_map. destruct (decide (k < d)) as [Hk|Hk].
      - rewrite lookup_seq_lt by done. rewrite lookup_rows_at by lia. simpl. by rewrite Hcut.
      - rewrite !lookup_ge_None_2; [done|rewrite length_seq; lia|lia]. }
    rewrite HVd in Honce. rewrite <-Honce.
    assert (∀ l, (∀ col, col ∈ l → col < d) → map (λ x, cut V (rows_at V x)) l = l) as Hid.
    { intros l Hll. rewrite <-(map_id l) at 2. apply map_ext_in. intros col Hcol%list_elem_of_In.
      by apply Hcut, Hll. }
    rewrite Hid; [done|]. intros col Hcol%elem_concat_map. destruct Hcol as (input & _ & Hcol).
    unfold columns in Hcol. apply list_elem_of_filter in Hcol as [_ Hcol%elem_of_seq]. lia. }
  destruct Hcw as [(Hcl & Hlen & Hall) Hcol].
  pose proof (lookup_shard_at cw (total_shard_count self) len Hcl Hall o ltac:(lia)) as [Hat Hatl].
  pose proof (coeff_complete self M len cw (conj (conj Hcl (conj Hlen Hall)) Hcol) expect Hexpect HV
    X HX o) as Hcomplete.
  symmetry. apply eq_tabulate; [done|]. intros j Hj. cbn [app].
  rewrite (lsum_perm _ _ _ Hperm), lsum_seq. unfold d. rewrite Hcomplete by lia.
  unfold shard_elem. rewrite Hat. simpl.
  destruct (lookup_lt_is_Some_2 (shard_at cw o) j) as [y ->]; [lia|]. done.
Qed.

(** C38: merging partial results is all or nothing: the call succeeds
    exactly when every present input has a destination of its own length; it then adds each
    input to its destination and changes nothing else; otherwise it reports
    [TooFewShards] or [IncorrectShardSize] and leaves every destination as it was. *)
Theorem decode_idx_merge_atomic (self : ReedSolomon) (M : nat → nat → Elem) dst input
    (Hc : classic_codec self M) (Hl : length dst = total_shard_count self)
    (Hi : length input = total_shard_count self) :
  let '(self', dst', r) := decode_idx self dst None input in
  self' = self ∧
  match r with
  | Ok _ => ∀ i s x, dst !! i = Some s → input !! i = Some x →
      match x with
      | None => dst' !! i = Some s
      | Some x => ∃ y, s = Some y ∧ length y = length x ∧
          dst' !! i = Some (Some (zip_with (λ a b, a + b) y x))
      end
  | Err e => dst' = dst ∧ ∃ i s x, dst !! i = Some s ∧ input !! i = Some (Some x) ∧
      ((e = TooFewShards ∧ s = None) ∨
       (e = IncorrectShardSize ∧ ∃ y, s = Some y ∧ length y ≠ length x))
  | Panic => False
  end.
Proof.
  unfold decode_idx, is_leopard_family. destruct (classic_families self M Hc) as [-> ->].
  cbn [orb]. unfold validate_opt_shard_count. rewrite Hl, Hi, !decide_False by lia. cbn [obind].
  unfold decode_idx_merge.
  assert (ensures (merge_checks dst input)
    (λ _, ∀ i s x, dst !! i = Some s → input !! i = Some (Some x) →
       ∃ y, s = Some y ∧ length y = length x)
    (λ e, ∃ i s x, dst !! i = Some s ∧ input !! i = Some (Some x) ∧
      ((e = TooFewShards ∧ s = None) ∨
       (e = IncorrectShardSize ∧ ∃ y, s = Some y ∧ length y ≠ length x)))) as Hchk.
  { unfold merge_checks. apply (for_each_post _ _ (λ k _, ∀ i s x, i < k → dst !! i = Some s →
      input !! i = Some (Some x) → ∃ y, s = Some y ∧ length y = length x)).
    - intros i s x Hlt. lia.
    - intros k [s o] u Hk Hpre. rewrite lookup_zip_with in Hk.
      destruct (dst !! k) as [s'|] eqn:Hs; [|done]. destruct (input !! k) as [o'|] eqn:Ho; [|done].
      simpl in Hk. injection Hk as -> ->.
      assert (∀ P : Prop, (∀ x, o = Some x → ∃ y, s = Some y ∧ length y = length x) →
        ∀ i s0 x, i < 1 + k → dst !! i = Some s0 → input !! i = Some (Some x) →
        ∃ y, s0 = Some y ∧ length y = length x) as Hnext.
      { intros _ Hx i s0 x Hlt Hs0 Hx0. destruct (decide (i = k)) as [->|Hne];
          [|by apply (Hpre i); [lia|..]].
        rewrite Hs in Hs0. rewrite Ho in Hx0. injection Hs0 as <-. injection Hx0 as ->. by apply Hx. }
      destruct o as [x|]; [|by apply ensures_ok, (Hnext True)].
      destruct s as [y|]; cbn [ok_or obind ensures].
      + case_decide as Hd; cbn [ensures].
        * exists k, (Some y), x. split_and!; [done|done|]. right. split; [done|]. by exists y.
        * apply (Hnext True). intros x' [= <-]. exists y. split; [done|]. by destruct (decide (length y = length x)).
      + exists k, None, x. split_and!; [done|done|]. by left.
    - intros _ HI i s x Hs Hx. apply (HI i); [|done|done]. rewrite length_zip_with.
      apply lookup_lt_Some in Hs, Hx. lia. }
  destruct (merge_checks dst input) as [u|e|]; cbn [ensures] in Hchk; split; [done| |done| |done|done].
  - intros i s x Hs Hx. unfold zip_assign. rewrite lookup_app_l
      by (rewrite length_zip_with; apply lookup_lt_Some in Hs, Hx; lia).
    rewrite lookup_zip_with, Hs, Hx. simpl. destruct x as [x|]; [|by destruct s].
    destruct (Hchk i s x Hs Hx) as (y & -> & Hyx). exists y. split_and!; [done|done|]. simpl.
    unfold zip_assign. rewrite drop_ge by lia. by rewrite app_nil_r.
  - done.
Qed.
End properties.
