(* ===== verification/Gf8Opt.v ===== *)
(** * The byte codec's own entry points ([src/galois_8/policy.rs], lines 37-81
    and 364-530, and [src/core/reconstruct.rs], lines 37-127)

    [galois_8::ReedSolomon] adds entry points over byte vectors.  For the Leopard families
    [reconstruct_opt] lets the decoder write into the caller's vectors, behind a guard
    that takes new vectors out again when the decoder fails or panics;
    [encode_opt] skips the byte views of the generic adapter.  Classic codecs go to the bulk
    executor of [OptionVec] and the parallel encoders.

    The theorems: the direct forms return what the generic adapters return, on every
    input and whatever the engines answer. *)

From Stdlib Require Import NArith Lia List Bool.
From Stdlib Require Import Init.Byte.
From stdpp Require Import base numbers list.
From S2P Require Import Prelude Errors Fields Gf8 LinAlg Matrix Options Leopard InversionCache.
From S2P Require Import Parallel Checks Codec Coding Encode Verify Shards Format DecodeMatrix.
From S2P Require Import RecoveryPlan Execute LeopardReconstruct Reconstruct OptionVec.
From S2P Require Import DecodeIdx.

(** Byte slices are their own views. *)
#[export] Instance gf8_views : ByteViewLaws gf8.
Proof.
  constructor; simpl.
  - by intros s b [= <-].
  - intros s _. exists s, (λ new, new). split_and!; [done|done|]. intros new Hl. done.
  - intros s s' _. by eexists.
Qed.

Section gf8_opt.
Context {RT : Runtime} {St : Storage byte} {L : LruCache (list nat) (CachedMatrix byte)}.

#[local] Abbreviation codec := (@ReedSolomon gf8 L).
#[local] Abbreviation shard := (option (list byte)).
Implicit Types (self : codec) (shards : list shard) (required : nat → bool).

(** ** Reconstruction into the caller's vectors *)

(** [Rollback::drop] without a commit. *)
Definition rollback required (present : list bool) shards : list shard :=
  imap (λ i s, if negb (default false (present !! i)) && required i then None else s) shards.

(** Missing requested shards become zeroed vectors. *)
Definition install_outputs required (present : list bool) (len : nat) shards : list shard :=
  imap (λ i s, if negb (default false (present !! i)) && required i
               then Some (replicate len x00) else s) shards.

(** The input and output views of each shard. *)
Definition direct_views (present : list bool) shards : list (option (list byte) * list byte) :=
  imap (λ i s, if default false (present !! i) then (s, []) else (None, default [] s)) shards.

(** The decoder's writes through the output views. *)
Definition direct_writes (present : list bool) shards (outputs : list (list byte)) : list shard :=
  imap (λ i s, if default false (present !! i) then s
               else match s with
                    | Some _ => Some (default [] (outputs !! i))
                    | None => None
                    end) shards.

Definition reconstruct_leopard_option_direct_with self shards required (decode : decode_fn)
  : list shard * outcome Error unit :=
  match validate_leopard_reconstruction (F:=gf8) self shards required with
  | Err e => (shards, Err e)
  | Panic => (shards, Panic)
  | Ok None => (shards, Ok tt)
  | Ok (Some len) =>
      let present := map (λ s, bool_decide (is_Some s)) shards in
      let shards := install_outputs required present len shards in
      let views := direct_views present shards in
      match decode present (map snd views) (map fst views) (data_shard_count self)
              (parity_shard_count self) with
      | Ok outputs => (direct_writes present shards outputs, Ok tt)
      | Err e => (rollback required present shards, Err e)
      | Panic => (rollback required present shards, Panic)
      end
  end.

Context {LD : LeopardDecoders}.

Definition reconstruct_leopard_option_direct self shards required
  : list shard * outcome Error unit :=
  reconstruct_leopard_option_direct_with self shards required
    (if is_leopard_gf8_family self then reconstruct_with_tables
     else leopard_gf16_reconstruct (exec_max_parallel_jobs (rs_options self))).

Definition reconstruct_opt (orders : bool → nat → list task) self shards
  : run (F:=gf8) (T:=shard) :=
  if is_leopard_family self
  then leopard_run (F:=gf8) self (reconstruct_leopard_option_direct self shards (λ _, true))
  else reconstruct_classic_opt (F:=gf8) orders self shards false.

Definition reconstruct_data_opt (orders : bool → nat → list task) self shards
  : run (F:=gf8) (T:=shard) :=
  if is_leopard_family self
  then leopard_run (F:=gf8) self (reconstruct_leopard_option_direct self shards
         (λ i, bool_decide (i < data_shard_count self)))
  else reconstruct_classic_opt (F:=gf8) orders self shards true.

Definition reconstruct_some_opt (orders : bool → nat → list task) self shards
    (required : list bool) : run (F:=gf8) (T:=shard) :=
  if bool_decide (length required ≠ total_shard_count self)
     && bool_decide (length required ≠ data_shard_count self)
  then (self, shards, Err InvalidShardFlags) else
  if is_leopard_family self
  then leopard_run (F:=gf8) self
         (reconstruct_leopard_option_direct self shards (is_required required))
  else reconstruct_classic_some_opt (F:=gf8) orders self shards required.

(** ** Encoding *)
Context {LE : LeopardEncoders}.
Implicit Types (data parity slices : list (list byte)).

Definition validate_opt_shards self slices : outcome Error nat :=
  let! _ := validate_opt_shard_count (F:=gf8) self (length slices) in
  let! first := index slices 0 in
  let shard_len := length first in
  if decide (shard_len = 0) then Err EmptyShard else
  if existsb (λ s, bool_decide (length s ≠ shard_len)) slices then Err IncorrectShardSize else
  Ok shard_len.

(** [encode_leopard_gf8_opt] *)
Definition encode_leopard_gf8_opt self data parity : outcome Error (list (list byte)) :=
  leopard_gf8_encode (data_shard_count self) (parity_shard_count self) data parity.

Definition encode_opt (order : list task) self slices : outcome Error (list (list byte)) :=
  if is_leopard_gf8_family self then
    let! _ := validate_opt_shards self slices in
    let! ' (data, parity) := split_at slices (data_shard_count self) in
    let! parity := encode_leopard_gf8_opt self data parity in
    Ok (data ++ parity)
  else encode_par (F:=gf8) order self slices.

(** [first_shard_len] *)
Definition first_shard_len slices : nat :=
  match slices with s :: _ => length s | [] => 0 end.

Definition encode_sep_opt (order : list task) self data parity
  : outcome Error (list (list byte)) :=
  if is_leopard_gf8_family self then
    let! _ := check_piece_count_data (data_shard_count self) (length data) in
    let! _ := check_piece_count_parity (parity_shard_count self) (length parity) in
    let shard_len := first_shard_len data in
    if decide (shard_len = 0) then Err EmptyShard else
    if existsb (λ s, bool_decide (length s ≠ shard_len)) data
       || existsb (λ s, bool_decide (length s ≠ shard_len)) parity
    then Err IncorrectShardSize
    else encode_leopard_gf8_opt self data parity
  else encode_sep_par (F:=gf8) order self data parity.

Definition verify_opt (order : list task) self slices : outcome Error bool :=
  if is_leopard_gf8_family self then verify (F:=gf8) self slices
  else verify_par (F:=gf8) order self slices.

Definition verify_with_buffer_opt (order : list task) self slices (buffer : list (list byte))
  : outcome Error (checked (F:=gf8)) :=
  if is_leopard_gf8_family self then verify_with_buffer (F:=gf8) self slices buffer
  else verify_with_buffer_par (F:=gf8) order self slices buffer.

Definition verify_with_workspace_opt (order : list task) self slices
    (workspace : VerifyWorkspace (F:=gf8)) : outcome Error (bool * VerifyWorkspace (F:=gf8)) :=
  verify_with_workspace_par (F:=gf8) order self slices workspace.
End gf8_opt.

(** ** The direct form and the adapter *)
Section agreement.
Context {RT : Runtime} {St : Storage byte} {L : LruCache (list nat) (CachedMatrix byte)}.
#[local] Abbreviation shard := (option (list byte)).
Implicit Types (self : @ReedSolomon gf8 L) (shards : list shard) (required : nat → bool).

#[local] Abbreviation present shards := (map (λ s : shard, bool_decide (is_Some s)) shards).
#[local] Abbreviation asked required shards := (requests (F:=gf8) (T:=shard) required shards).

Lemma lookup_present shards i s :
  shards !! i = Some s → default false (present shards !! i) = bool_decide (is_Some s).
Proof. intros Hs. by rewrite lookup_map, Hs. Qed.

Lemma rollback_install required len shards :
  rollback required (present shards) (install_outputs required (present shards) len shards)
  = shards.
Proof.
  apply list_eq. intros i. unfold rollback, install_outputs. rewrite !list_lookup_imap.
  destruct (shards !! i) as [s|] eqn:Hs; [|done]. simpl. f_equal.
  rewrite (lookup_present shards i s Hs). destruct s as [x|]; simpl; [done|].
  by destruct (required i).
Qed.

Lemma views_install required len shards :
  let views := direct_views (present shards)
    (install_outputs required (present shards) len shards) in
  map snd views = fresh_views len (asked required shards) ∧
  map fst views = map (view_of (F:=gf8) (T:=shard)) shards ∧
  present shards = map (is_here (F:=gf8) (T:=shard)) shards.
Proof.
  split_and!; [..|done]; apply list_eq; intros i; unfold direct_views, install_outputs, fresh_views, requests;
    rewrite !lookup_map, !list_lookup_imap; (destruct (shards !! i) as [s|] eqn:Hs; [|done]); simpl;
    f_equal; rewrite (lookup_present shards i s Hs); destruct s as [x|]; simpl; try done.
  by destruct (required i).
Qed.

(** Publishing into option vectors cannot fail. *)
Lemma publish_options len : ∀ (staged : list (option (list byte))) shards,
  length staged = length shards →
  (∀ i b, staged !! i = Some (Some b) → length b = len ∧ shards !! i = Some None) →
  publish_leopard (F:=gf8) len shards staged
  = (zip_with (λ s o, match o with Some b => Some b | None => s end) shards staged, Ok tt).
Proof.
  induction staged as [|o staged IH]; intros [|s shards] Hl Hst; try done.
  specialize (IH shards ltac:(simpl in Hl; lia) (λ i b, Hst (Datatypes.S i) b)).
  destruct o as [b|].
  - destruct (Hst 0 b eq_refl) as [Hb [= ->]]. cbn [publish_leopard].
    assert (publish_leopard_staged_shard (F:=gf8) (None : shard) b len = (Some b, Ok tt)) as ->.
    { unfold publish_leopard_staged_shard. cbn [get_or_initialize option_shard init_view].
      rewrite length_replicate, decide_False by auto. cbn [as_gf8_slice_mut gf8].
      rewrite length_replicate, decide_False by auto. unfold copy_from_slice.
      by rewrite length_replicate, decide_True. }
    by rewrite IH.
  - cbn [publish_leopard]. by rewrite IH.
Qed.

Lemma direct_agrees self shards required decode :
  0 < data_shard_count self → keeps_views decode →
  reconstruct_leopard_option_direct_with self shards required decode
  = reconstruct_leopard_impl (F:=gf8) self shards required decode.
Proof.
  intros Hd Hk. unfold reconstruct_leopard_option_direct_with, reconstruct_leopard_impl.
  pose proof (validation_ensures (F:=gf8) self shards required Hd) as Hv.
  destruct (validate_leopard_reconstruction (F:=gf8) self shards required) as [[len|]|e|];
    [|done..]. cbn [ensures] in Hv. destruct Hv as (Hl & _ & len' & Hlen & _ & Hreg & _ & Ho).
  destruct (any_requested required shards); [|done]. injection Ho as ->.
  rewrite staged_agrees, heap_regular by done.
  destruct (views_install required len' shards) as (-> & -> & Hp). rewrite Hp.
  fold (decoded (F:=gf8) self shards required decode len').
  destruct (decoded (F:=gf8) self shards required decode len') as [outputs|e|] eqn:Hdec;
    cbn [obind staged_run]; [|by rewrite <-Hp, rollback_install..].
  assert (map length outputs = map length (fresh_views len' (asked required shards))) as Hviews
    by (by eapply Hk).
  assert (length outputs = length shards) as Hlo.
  { apply (f_equal length) in Hviews. unfold fresh_views, requests in Hviews.
    by rewrite !length_map, length_imap in Hviews. }
  rewrite publish_options.
  - f_equal. apply list_eq. intros i. unfold direct_writes, install_outputs, staged_of, requests.
    rewrite <-Hp, lookup_zip_with, !list_lookup_imap, lookup_zip_with, list_lookup_imap.
    destruct (shards !! i) as [s|] eqn:Hs; [|done].
    destruct (lookup_lt_is_Some_2 outputs i) as [b Hb];
      [rewrite Hlo; by eapply lookup_lt_Some|]. rewrite Hb. simpl. f_equal.
    rewrite (lookup_present shards i s Hs). destruct s as [x|]; simpl; [done|].
    by destruct (required i).
  - unfold staged_of, requests. rewrite length_zip_with, length_imap. lia.
  - intros i b Hi%staged_lookup. destruct Hi as [Hr Hb].
    split; [by apply (view_lengths len' (asked required shards) outputs i b)|].
    rewrite (requests_lookup (F:=gf8)) in Hr. destruct (shards !! i) as [[x|]|]; done.
Qed.
End agreement.

(** ** Properties *)
Section properties.
Context {RT : Runtime} {St : Storage byte} {L : LruCache (list nat) (CachedMatrix byte)}.
Context {LD : LeopardDecoders} {LE : LeopardEncoders}.
#[local] Abbreviation shard := (option (list byte)).
Implicit Types (self : @ReedSolomon gf8 L) (shards : list shard).
Implicit Types (data parity slices : list (list byte)).

(** C37: on a Leopard codec the option-vector entry points, which decode
    into the caller's vectors and roll back, return the same vectors and the same
    result as the generic adapters, which stage the outputs and publish them,
    for all, data-only and selective requests, on every input, and also when the
    engine fails or panics. *)
Theorem leopard_opt_agrees (orders : bool → nat → list task) self shards (required : list bool)
    (Hd : 0 < data_shard_count self) (Hfamily : is_leopard_family self = true)
    (Hkeeps8 : keeps_views reconstruct_with_tables)
    (Hkeeps16 : ∀ jobs, keeps_views (leopard_gf16_reconstruct jobs)) :
  reconstruct_opt orders self shards = reconstruct (F:=gf8) self shards ∧
  reconstruct_data_opt orders self shards = reconstruct_data (F:=gf8) self shards ∧
  reconstruct_some_opt orders self shards required
  = reconstruct_some (F:=gf8) self shards required.
Proof.
  unfold reconstruct_opt, reconstruct_data_opt, reconstruct_some_opt, reconstruct,
    reconstruct_data, reconstruct_some, reconstruct_leopard_option_direct, is_leopard_family in *.
  rewrite Hfamily.
  assert (∀ r, reconstruct_leopard_option_direct_with self shards r reconstruct_with_tables
    = reconstruct_leopard_impl (F:=gf8) self shards r reconstruct_with_tables) as H8
    by (intros; by apply direct_agrees).
  assert (∀ r j, reconstruct_leopard_option_direct_with self shards r (leopard_gf16_reconstruct j)
    = reconstruct_leopard_impl (F:=gf8) self shards r (leopard_gf16_reconstruct j)) as H16
    by (intros; by apply direct_agrees).
  rewrite (andb_comm (bool_decide (length required ≠ data_shard_count self))).
  destruct (is_leopard_gf8_family self); cbn [orb] in Hfamily.
  - by rewrite !H8.
  - by rewrite Hfamily, !H16.
Qed.

(** A Leopard engine writes every parity view it is given. *)
Definition fills_parity (encode : nat → nat → list (list byte) → list (list byte) →
    outcome Error (list (list byte))) : Prop :=
  ∀ d p data parity out, encode d p data parity = Ok out → length out = length parity.

Lemma existsb_lengths len slices :
  existsb (λ s, bool_decide (length s ≠ len)) slices
  = negb (bool_decide (all_len len slices)).
Proof.
  induction slices as [|s l IH]; [done|]. cbn [existsb]. rewrite IH.
  unfold all_len. destruct (decide (length s = len)) as [Hs|Hs].
  - rewrite (bool_decide_eq_false_2 (length s ≠ len)) by auto. simpl. f_equal.
    apply bool_decide_ext. rewrite Forall_cons. tauto.
  - rewrite (bool_decide_eq_true_2 (length s ≠ len)) by done.
    rewrite (bool_decide_eq_false_2 (Forall _ (s :: l))); [done|]. rewrite Forall_cons. tauto.
Qed.

(** The views of byte shards are the shards. *)
Lemma prepare_bytes len data parity :
  all_len len data → all_len len parity →
  prepare (F:=gf8) data parity len
  = Ok (Encode.mk_views data parity (map (λ _ new, new) parity)).
Proof.
  intros Hdata Hparity. unfold prepare.
  rewrite (map_outcome_all _ (λ s, s)).
  2:{ intros s Hs. pose proof (proj1 (Forall_forall _ _) Hdata s Hs) as H. cbn beta in H.
      rewrite decide_False by auto. cbn [as_gf8_slice gf8 ok_or obind].
      by rewrite decide_False by auto. }
  cbn [obind]. rewrite (map_outcome_all _ (λ s : list byte, (s, λ new : list byte, new))).
  2:{ intros s Hs. pose proof (proj1 (Forall_forall _ _) Hparity s Hs) as H. cbn beta in H.
      rewrite decide_False by auto. cbn [as_gf8_slice_mut gf8 ok_or obind fst].
      by rewrite decide_False by auto. }
  cbn [obind]. by rewrite map_id, !map_map, map_id.
Qed.

(** An engine that fills these views. *)
Lemma encode_inner_bytes self len data parity enc :
  (∀ out, enc (data_shard_count self) (parity_shard_count self) data parity = Ok out → length out = length parity) →
  data ≠ [] → all_len len data → all_len len parity →
  encode_leopard_sep_inner (F:=gf8) self data parity enc
  = enc (data_shard_count self) (parity_shard_count self) data parity.
Proof.
  intros Hfill Hne Hdata Hparity. unfold encode_leopard_sep_inner.
  destruct data as [|s data]; [done|]. cbn [head ok_or obind].
  replace (@length (@Elem gf8) s) with len by (by apply Forall_cons in Hdata as [<- _]).
  rewrite (prepare_bytes len) by done. cbn [obind view_data view_parity view_write].
  destruct (enc _ _ _ _) as [out| |] eqn:He; [|done..]. cbn [obind]. f_equal.
  specialize (Hfill out eq_refl). clear -Hfill. revert out Hfill.
  induction parity as [|q parity IH]; intros [|o out] Hl; try done. simpl in *. f_equal.
  apply IH. lia.
Qed.

Lemma encode_views_at self len data parity :
  (∀ out, leopard_gf8_encode (data_shard_count self) (parity_shard_count self) data parity = Ok out →
     length out = length parity) →
  data ≠ [] → all_len len data → all_len len parity →
  encode_leopard_gf8_sep (F:=gf8) self data parity = encode_leopard_gf8_opt self data parity.
Proof. apply encode_inner_bytes. Qed.

Lemma encode_views_bytes self len data parity :
  fills_parity leopard_gf8_encode → data ≠ [] → all_len len data → all_len len parity →
  encode_leopard_gf8_sep (F:=gf8) self data parity = encode_leopard_gf8_opt self data parity.
Proof. intros Hfill. apply encode_views_at. intros out. apply Hfill. Qed.

(** the byte-vector encoders and verifiers return what the generic ones
    return, on every input, errors included, for every family: [encode_opt] as
    [encode_par], [verify_opt] as [verify_par] with and without a buffer, and
    [encode_sep_opt] as [encode_sep_par] but for the error of an empty first parity shard. *)
Theorem opt_encoders_agree (order : list task) self slices data parity (buffer : list (list byte))
    (Hd : 0 < data_shard_count self) (Hp : 0 < parity_shard_count self)
    (Hfill : fills_parity leopard_gf8_encode) :
  encode_opt order self slices = encode_par (F:=gf8) order self slices ∧
  (head parity ≠ Some [] →
   encode_sep_opt order self data parity = encode_sep_par (F:=gf8) order self data parity) ∧
  verify_opt order self slices = verify_par (F:=gf8) order self slices ∧
  verify_with_buffer_opt order self slices buffer
  = verify_with_buffer_par (F:=gf8) order self slices buffer.
Proof.
  assert (∀ data parity, data ≠ [] → parity ≠ [] → head parity ≠ Some [] →
    check_slices_multi_multi data parity
    = if decide (first_shard_len data = 0) then Err EmptyShard
      else if existsb (λ s, bool_decide (length s ≠ first_shard_len data)) data
              || existsb (λ s, bool_decide (length s ≠ first_shard_len data)) parity
      then Err IncorrectShardSize else Ok tt) as Hchecks.
  { clear. intros [|s data] [|q parity] Hn1 Hn2 Hq; try done.
    unfold check_slices_multi_multi. rewrite !check_slices_multi_spec. cbn [first_shard_len].
    rewrite !existsb_lengths. case_decide as Hs; [done|].
    destruct (decide (all_len (length s) (s :: data))) as [Ha|Ha]; cbn [obind];
      [rewrite (bool_decide_eq_true_2 _ Ha)|by rewrite (bool_decide_eq_false_2 _ Ha)].
    cbn [negb orb]. rewrite decide_False by (by destruct q).
    destruct (decide (all_len (length q) (q :: parity))) as [Hb|Hb]; cbn [obind index lookup list_lookup].
    - unfold check_slices_single_single. case_decide as Hsq.
      + rewrite bool_decide_eq_false_2; [done|]. intros Hc. apply Forall_cons in Hc as [? _]. auto.
      + rewrite bool_decide_eq_true_2; [done|]. by rewrite Hsq.
    - rewrite bool_decide_eq_false_2; [done|]. intros Hc. apply Hb.
      pose proof Hc as Hc'. apply Forall_cons in Hc' as [-> _]. done. }
  assert (∀ data parity, length data = data_shard_count self →
    length parity = parity_shard_count self → head parity ≠ Some [] →
    is_leopard_gf8_family self = true →
    encode_sep_par (F:=gf8) order self data parity
    = if decide (first_shard_len data = 0) then Err EmptyShard
      else if existsb (λ s, bool_decide (length s ≠ first_shard_len data)) data
              || existsb (λ s, bool_decide (length s ≠ first_shard_len data)) parity
      then Err IncorrectShardSize else encode_leopard_gf8_opt self data parity) as Hsep.
  { intros dt pt Hld Hlp Hq H8. unfold encode_sep_par, check_piece_count_data,
      check_piece_count_parity. change (@Elem gf8) with byte.
    rewrite Hld, Hlp, !check_piece_count_ok. cbn [obind].
    rewrite Hchecks by (done || by intros ->; simpl in *; lia).
    case_decide; [done|]. rewrite !existsb_lengths.
    destruct (negb _ || negb _) eqn:Hn; [done|]. cbn [obind]. rewrite H8.
    apply orb_false_iff in Hn as [H1%negb_false_iff%bool_decide_eq_true
      H2%negb_false_iff%bool_decide_eq_true].
    apply (encode_views_bytes self (first_shard_len dt)); try done.
    intros ->. simpl in *. lia. }
  split_and!.
  - unfold encode_opt. destruct (is_leopard_gf8_family self) eqn:H8; [|done].
    unfold encode_par, validate_opt_shards, validate_opt_shard_count, check_piece_count_all,
      check_piece_count. change (@Elem gf8) with byte.
    case_decide as Hfew; [done|]. case_decide as Hmany; [done|]. cbn [obind].
    rewrite check_slices_multi_spec. destruct slices as [|s l]; [done|].
    cbn [index lookup list_lookup obind]. case_decide as Hs; [done|].
    rewrite existsb_lengths. destruct (decide (all_len (length s) (s :: l))) as [Ha|Ha];
      [rewrite (bool_decide_eq_true_2 _ Ha)|by rewrite (bool_decide_eq_false_2 _ Ha)].
    cbn [negb obind]. unfold split_at. unfold total_shard_count in *.
    assert (data_shard_count self + parity_shard_count self = length (s :: l)) as Hlen.
    { unfold data_shard_count, parity_shard_count in *. lia. }
    rewrite decide_True by lia. cbn [obind].
    set (dt := take (data_shard_count self) (s :: l)).
    set (pt := drop (data_shard_count self) (s :: l)).
    assert (all_len (length s) dt) as Hdt by (by apply Forall_take).
    assert (all_len (length s) pt) as Hpt by (by apply Forall_drop).
    assert (length dt = data_shard_count self) as Hld by (unfold dt; rewrite length_take; lia).
    assert (length pt = parity_shard_count self) as Hlp by (unfold pt; rewrite length_drop; lia).
    assert (first_shard_len dt = length s) as Hfirst.
    { unfold dt. destruct (data_shard_count self); [lia|done]. }
    rewrite (Hsep dt pt), Hfirst, !existsb_lengths; [|done|done| |done].
    + rewrite decide_False by done.
      by rewrite (bool_decide_eq_true_2 _ Hdt), (bool_decide_eq_true_2 _ Hpt).
    + destruct pt as [|q pt']; [done|]. intros [= ->]. apply Forall_cons in Hpt as [? _].
      simpl in *. lia.
  - intros Hq. unfold encode_sep_opt. destruct (is_leopard_gf8_family self) eqn:H8; [|done].
    destruct (decide (length data = data_shard_count self ∧ length parity = parity_shard_count self))
      as [[Hld Hlp]|Hne].
    + rewrite Hsep by done. unfold check_piece_count_data, check_piece_count_parity.
      by rewrite Hld, Hlp, !check_piece_count_ok.
    + unfold encode_sep_par, check_piece_count_data, check_piece_count_parity, check_piece_count.
      change (@Elem gf8) with byte. repeat (case_decide; [done|]). exfalso. apply Hne. lia.
  - unfold verify_opt. destruct (is_leopard_gf8_family self) eqn:H8; [|done].
    unfold verify, verify_par. by rewrite H8.
  - unfold verify_with_buffer_opt. destruct (is_leopard_gf8_family self) eqn:H8; [|done].
    unfold verify_with_buffer, verify_with_buffer_par. by rewrite H8.
Qed.
End properties.
