(* ===== verification/StreamIo.v ===== *)
(** * Block input and output ([src/core/stream.rs], lines 38-550)

    The streaming entry points read every shard in blocks and write computed
    blocks.  Readers and writers are the callers' implementations of [std::io::Read]
    and [std::io::Write]: the classes [Read] and [Write] hold the one method the code
    calls, and [ReadLaws] and [WriteLaws] the documented contract of that method.  A
    call returns the new state of the object and its result.

    Parallel input and output is Rayon's [try_for_each]: a [Schedule] lists the order
    in which the tasks finish, and which tasks still run after one has failed.

    Not modelled: messages of [io::Error], the capacity of vectors, and mutex poisoning. *)

From Stdlib Require Import NArith Lia List Bool Init.Byte.
From stdpp Require Import base numbers list.
From S2P Require Import Prelude Errors Verify.

(** ** The traits *)
Inductive io_error : Type :=
| Interrupted
| WriteZero
| OtherIo (code : N).

#[export] Instance io_error_eq_dec : EqDecision io_error.
Proof. solve_decision. Defined.

(** [read r cap] is [r.read(&mut buf)] for a buffer of [cap] bytes: the bytes
    that it put in front.  [read_budget] bounds the calls that bring bytes or are
    interrupted; the model's loops use it as fuel. *)
Class Read (R : Type) := {
  read : R → nat → R * outcome io_error (list byte);
  read_budget : R → nat;
}.

(** [write w buf]: how many bytes of [buf] were taken.  [write_budget] bounds the
    interruptions. *)
Class Write (W : Type) := {
  write : W → list byte → W * outcome io_error nat;
  write_budget : W → nat;
}.

(** The contract: what a stream still delivers, and the errors it may report. *)
Class ReadLaws (R : Type) `{Read R} := {
  contents : R → list byte;
  read_faults : R → io_error → Prop;
  read_law r cap : 0 < cap →
    match read r cap with
    | (r', Ok bytes) => length bytes ≤ cap ∧ contents r = bytes ++ contents r' ∧
        (bytes = [] → contents r = []) ∧
        read_budget r' + (if decide (bytes = []) then 0 else 1) ≤ read_budget r ∧
        (∀ e, read_faults r' e → read_faults r e)
    | (r', Err Interrupted) => contents r' = contents r ∧ read_budget r' < read_budget r ∧
        (∀ e, read_faults r' e → read_faults r e)
    | (_, Err e) => read_faults r e
    | (_, Panic) => False
    end;
}.

Class WriteLaws (W : Type) `{Write W} := {
  output : W → list byte;
  write_faults : W → io_error → Prop;
  write_law w buf : buf ≠ [] →
    match write w buf with
    | (w', Ok n) => n ≤ length buf ∧ output w' = output w ++ take n buf ∧
        (n = 0 → write_faults w WriteZero) ∧ write_budget w' ≤ write_budget w ∧
        (∀ e, write_faults w' e → write_faults w e)
    | (w', Err Interrupted) => output w' = output w ∧ write_budget w' < write_budget w ∧
        (∀ e, write_faults w' e → write_faults w e)
    | (_, Err e) => write_faults w e
    | (_, Panic) => False
    end;
}.

(** A stream that reports no error. *)
Definition sound_reader {R} `{ReadLaws R} (r : R) : Prop := ∀ e, ¬ read_faults r e.
Definition sound_writer {W} `{WriteLaws W} (w : W) : Prop := ∀ e, ¬ write_faults w e.

(** ** Options *)
Definition MIN_BLOCK_SIZE_BYTES : N := 1024.
Definition MAX_BLOCK_SIZE_BYTES : N := 16 * 1024 * 1024.

Inductive StreamIoMode : Type := IoAuto | IoSerial | IoParallel.

Record StreamOptions := mk_options {
  block_size : N;
  io_mode : StreamIoMode;
}.

(** [StreamOptions::default] *)
Definition stream_options_default : StreamOptions := mk_options (4 * 1024 * 1024) IoAuto.

(** [size.clamp(MIN_BLOCK_SIZE_BYTES, MAX_BLOCK_SIZE_BYTES)] *)
Definition clamp_block_size (size : N) : N :=
  N.min (N.max size MIN_BLOCK_SIZE_BYTES) MAX_BLOCK_SIZE_BYTES.

Definition with_block_size (self : StreamOptions) (size : N) : StreamOptions :=
  mk_options (clamp_block_size size) (io_mode self).

Definition with_io_mode (self : StreamOptions) (mode : StreamIoMode) : StreamOptions :=
  mk_options (block_size self) mode.

Definition use_parallel_stream_io_auto (block_size : N) (stream_count : nat) : bool :=
  (4 * 1024 * 1024 <=? block_size)%N && bool_decide (10 ≤ stream_count).

Definition use_parallel_stream_io (options : StreamOptions) (stream_count : nat) : bool :=
  match io_mode options with
  | IoSerial => false
  | IoParallel => true
  | IoAuto => use_parallel_stream_io_auto (block_size options) stream_count
  end.

(** The block size in bytes after clamping. *)
Definition block_len_of (options : StreamOptions) : nat :=
  N.to_nat (clamp_block_size (block_size options)).

(** ** Errors *)
Inductive StreamErrorKind : Type :=
| ErrRead (e : io_error)
| ErrWrite (e : io_error)
| ErrCodec (e : Error).

Record StreamError := mk_error {
  error_shard : nat;
  error_kind : StreamErrorKind;
}.

Definition stream_read (i : nat) (e : io_error) : StreamError := mk_error i (ErrRead e).
Definition stream_write (i : nat) (e : io_error) : StreamError := mk_error i (ErrWrite e).
Definition stream_codec (i : nat) (e : Error) : StreamError := mk_error i (ErrCodec e).

Definition validate_stream_count (actual expected : nat) : outcome StreamError unit :=
  match Nat.compare actual expected with
  | Lt => Err (stream_codec 0 TooFewShards)
  | Gt => Err (stream_codec 0 TooManyShards)
  | Eq => Ok tt
  end.

(** [record_min_error] *)
Definition record_min_error (first_error : option StreamError) (cand : StreamError)
  : option StreamError :=
  match first_error with
  | Some existing =>
      if decide (error_shard cand < error_shard existing) then Some cand else first_error
  | None => Some cand
  end.

Definition take_stream_error (first_error : option StreamError) (fallback : StreamError)
  : StreamError := default fallback first_error.

(** ** Iteration over streams

    A task is given its index and its stream with the stream's buffer. *)
Section tasks.
Context {A E : Type}.
Implicit Types (f : nat → A → A * outcome E unit) (xs : list A).

(** [for (i, x) in xs.iter_mut().enumerate() { f(i, x)? }] *)
Fixpoint try_serial f (i : nat) xs : list A * outcome E unit :=
  match xs with
  | [] => ([], Ok tt)
  | x :: xs =>
      match f i x with
      | (x, Ok _) => let '(xs, r) := try_serial f (S i) xs in (x :: xs, r)
      | (x, r) => (x :: xs, r)
      end
  end.

Record Schedule := mk_schedule {
  task_order : list nat;
  in_flight : nat → bool;
}.

(** Every task has one place in the order. *)
Definition is_io_schedule (s : Schedule) (n : nat) : Prop := task_order s ≡ₚ seq 0 n.

(** The tasks in the order [order]; [failed] holds the errors so far, in the order in
    which they occurred.  After a failure only the tasks in flight still run. *)
Fixpoint run_tasks f (flying : nat → bool) (order : list nat) (failed : list E) xs
  : list A * outcome E (list E) :=
  match order with
  | [] => (xs, Ok failed)
  | i :: order =>
      if bool_decide (failed ≠ []) && negb (flying i)
      then run_tasks f flying order failed xs else
      match xs !! i with
      | None => (xs, Panic)
      | Some x =>
          match f i x with
          | (x, Ok _) => run_tasks f flying order failed (<[i := x]> xs)
          | (x, Err e) => run_tasks f flying order (failed ++ [e]) (<[i := x]> xs)
          | (x, Panic) => (<[i := x]> xs, Panic)
          end
      end
  end.

(** [xs.par_iter_mut().enumerate().try_for_each(f)]; [report] picks the error. *)
Definition try_parallel f (report : list E → E) (s : Schedule) xs : list A * outcome E unit :=
  match run_tasks f (in_flight s) (task_order s) [] xs with
  | (xs, Ok []) => (xs, Ok tt)
  | (xs, Ok failed) => (xs, Err (report failed))
  | (xs, Err e) => (xs, Err e)
  | (xs, Panic) => (xs, Panic)
  end.
End tasks.

(** [try_for_each] reports the error of the task that failed first. *)
Definition first_failure (failed : list StreamError) : StreamError :=
  default (stream_read 0 (OtherIo 0)) (head failed).

(** [xs.iter_mut().zip(ys.iter_mut())]: the items past the shorter list stay. *)
Definition zipped {A B R} (run : list (A * B) → list (A * B) * R) (xs : list A) (ys : list B)
  : list A * list B * R :=
  let '(pairs, r) := run (zip xs ys) in
  (map fst pairs ++ drop (length pairs) xs, map snd pairs ++ drop (length pairs) ys, r).

(** ** Reading *)
Section reading.
Context {R : Type} `{Read R}.

Definition prepare_read_buffer (buf : list byte) (max_len : nat) : list byte :=
  match Nat.compare (length buf) max_len with
  | Lt => vec_resize max_len x00 buf
  | Gt => take max_len buf
  | Eq => buf
  end.

(** The loop of [read_one_stream]; each round brings bytes, is interrupted, or leaves. *)
Fixpoint read_loop (fuel : nat) (reader : R) (buf : list byte) (total max_len : nat)
  : R * list byte * outcome io_error nat :=
  match fuel with
  | O => (reader, buf, Panic)
  | S fuel =>
      if total <? max_len then
        match read reader (length buf - total) with
        | (reader, Ok bytes) =>
            if decide (bytes = []) then (reader, buf, Ok total)
            else read_loop fuel reader (splice buf total bytes) (total + length bytes) max_len
        | (reader, Err Interrupted) => read_loop fuel reader buf total max_len
        | (reader, Err e) => (reader, buf, Err e)
        | (reader, Panic) => (reader, buf, Panic)
        end
      else (reader, buf, Ok total)
  end.

Definition read_one_stream (reader : R) (buf : list byte) (max_len : nat)
  : R * list byte * outcome io_error nat :=
  read_loop (S (read_budget reader)) reader (prepare_read_buffer buf max_len) 0 max_len.

Record StreamReadBuffer := mk_buffer {
  bytes : list byte;
  read_len : nat;
  block_len : nat;
}.

(** [StreamReadBuffer::new] *)
Definition buffer_new : StreamReadBuffer := mk_buffer [] 0 0.

Definition read_from (self : StreamReadBuffer) (reader : R) (max_len : nat)
  : R * StreamReadBuffer * outcome io_error unit :=
  match read_one_stream reader (bytes self) max_len with
  | (reader, buf, Ok n) => (reader, mk_buffer buf n (block_len self), Ok tt)
  | (reader, buf, Err e) => (reader, mk_buffer buf (read_len self) (block_len self), Err e)
  | (reader, buf, Panic) => (reader, mk_buffer buf (read_len self) (block_len self), Panic)
  end.

Definition finish_block {E} (self : StreamReadBuffer) (len : nat) : outcome E StreamReadBuffer :=
  let! buf :=
    if decide (read_len self < len)
    then update_slice (bytes self) (read_len self) len (λ view, Ok (map (λ _, x00) view))
    else Ok (bytes self) in
  Ok (mk_buffer buf (read_len self) len).

(** [AsRef::as_ref] *)
Definition as_ref {E} (self : StreamReadBuffer) : outcome E (list byte) :=
  slice (bytes self) 0 (block_len self).

Definition read_block_task (max_len : nat) (i : nat) (x : R * StreamReadBuffer)
  : (R * StreamReadBuffer) * outcome StreamError unit :=
  let '(reader, buffer, r) := read_from x.2 x.1 max_len in
  ((reader, buffer), map_err (stream_read i) r).

Definition read_block_with_mode (s : Schedule) (readers : list R)
    (buffers : list StreamReadBuffer) (max_len : nat) (use_parallel_io : bool)
    : list R * list StreamReadBuffer * outcome StreamError (bool * nat) :=
  let '(readers, buffers, r) :=
    zipped (if use_parallel_io then try_parallel (read_block_task max_len) first_failure s
            else try_serial (read_block_task max_len) 0) readers buffers in
  match r with
  | Err e => (readers, buffers, Err e)
  | Panic => (readers, buffers, Panic)
  | Ok _ =>
      let actual_len := max_list (map read_len buffers) in
      match map_outcome (λ b, finish_block b actual_len) buffers with
      | Ok buffers => (readers, buffers, Ok (bool_decide (actual_len = 0), actual_len))
      | Err e => (readers, buffers, Err e)
      | Panic => (readers, buffers, Panic)
      end
  end.

(** ** Reading the present streams *)
Definition read_present_task (max_len : nat) (i : nat) (x : option R * list byte)
  : (option R * list byte) * outcome StreamError unit :=
  match x with
  | (Some reader, buf) =>
      match read_one_stream reader buf max_len with
      | (reader, buf, Ok total) => ((Some reader, take total buf), Ok tt)
      | (reader, buf, Err e) => ((Some reader, buf), Err (stream_read i e))
      | (reader, buf, Panic) => ((Some reader, buf), Panic)
      end
  | (None, buf) => ((None, buf), Ok tt)
  end.

(** [.position(p)] on an iterator *)
Definition find_position {A} (p : A → bool) (l : list A) : option nat :=
  fst <$> list_find (λ x, p x = true) l.

Definition present_len (x : option R * list byte) : option nat :=
  match x with (Some _, buf) => Some (length buf) | (None, _) => None end.

Definition read_present_streams_with_mode (s : Schedule) (readers : list (option R))
    (buffers : list (list byte)) (max_len : nat) (use_parallel_io : bool)
    : list (option R) * list (list byte) * outcome StreamError (bool * nat) :=
  let '(readers, buffers, r) :=
    zipped (if use_parallel_io then try_parallel (read_present_task max_len) first_failure s
            else try_serial (read_present_task max_len) 0) readers buffers in
  match r with
  | Err e => (readers, buffers, Err e)
  | Panic => (readers, buffers, Panic)
  | Ok _ =>
      let pairs := zip readers buffers in
      let actual_len := max_list (omap present_len pairs) in
      match
        (if decide (actual_len ≠ 0)
         then find_position (λ x, bool_decide (is_Some (present_len x) ∧
                                    present_len x ≠ Some actual_len)) pairs
         else None)
      with
      | Some bad => (readers, buffers, Err (stream_codec bad IncorrectShardSize))
      | None => (readers, buffers, Ok (bool_decide (actual_len = 0), actual_len))
      end
  end.
End reading.

(** ** Writing *)
Section writing.
Context {W : Type} `{Write W}.

(** [while written < len { match writer.write(&buf[written..len]) .. }] *)
Fixpoint write_loop (fuel : nat) (writer : W) (buf : list byte) (written len : nat)
  : W * outcome io_error unit :=
  match fuel with
  | O => (writer, Panic)
  | S fuel =>
      if written <? len then
        match slice buf written len with
        | Ok view =>
            match write writer view with
            | (writer, Ok n) =>
                if decide (n = 0) then (writer, Err WriteZero)
                else write_loop fuel writer buf (written + n) len
            | (writer, Err Interrupted) => write_loop fuel writer buf written len
            | (writer, Err e) => (writer, Err e)
            | (writer, Panic) => (writer, Panic)
            end
        | Err e => (writer, Err e)
        | Panic => (writer, Panic)
        end
      else (writer, Ok tt)
  end.

Definition write_prefix (writer : W) (buf : list byte) (len : nat) : W * outcome io_error unit :=
  write_loop (S (len + write_budget writer)) writer buf 0 len.

Definition write_block_task (len shard_offset : nat) (i : nat) (x : W * list byte)
  : (W * list byte) * outcome StreamError unit :=
  let '(writer, r) := write_prefix x.1 x.2 len in
  ((writer, x.2), map_err (stream_write (shard_offset + i)) r).

Definition write_block (writers : list W) (buffers : list (list byte)) (len shard_offset : nat)
  : list W * outcome StreamError unit :=
  let '(writers, _, r) :=
    zipped (try_serial (write_block_task len shard_offset) 0) writers buffers in
  (writers, r).

(** The tasks that fail record their errors in the shared cell. *)
Definition write_block_par (s : Schedule) (writers : list W) (buffers : list (list byte))
    (len shard_offset : nat) : list W * outcome StreamError unit :=
  let '(writers, _, r) :=
    zipped (try_parallel (write_block_task len shard_offset)
      (λ failed, take_stream_error (fold_left record_min_error failed None)
                   (stream_write shard_offset (OtherIo 0))) s) writers buffers in
  (writers, r).

Definition write_block_with_mode (s : Schedule) (writers : list W) (buffers : list (list byte))
    (len shard_offset : nat) (use_parallel_io : bool) : list W * outcome StreamError unit :=
  if use_parallel_io then write_block_par s writers buffers len shard_offset
  else write_block writers buffers len shard_offset.

(** [Write::write_all] of the standard library: the same loop over the slice. *)
Definition write_all (writer : W) (buf : list byte) : W * outcome io_error unit :=
  write_prefix writer buf (length buf).

Definition write_missing_task (len : nat) (i : nat) (x : option W * list byte)
  : (option W * list byte) * outcome StreamError unit :=
  match x with
  | (Some writer, buf) =>
      match slice buf 0 len with
      | Ok view =>
          let '(writer, r) := write_all writer view in
          ((Some writer, buf), map_err (stream_write i) r)
      | Err e => (x, Err e)
      | Panic => (x, Panic)
      end
  | (None, _) => (x, Ok tt)
  end.

Definition write_missing_streams_with_mode (s : Schedule) (writers : list (option W))
    (buffers : list (list byte)) (len : nat) (use_parallel_io : bool)
    : list (option W) * outcome StreamError unit :=
  let '(writers, _, r) :=
    zipped (if use_parallel_io then try_parallel (write_missing_task len) first_failure s
            else try_serial (write_missing_task len) 0) writers buffers in
  (writers, r).
End writing.

(** ** Readers of the standard library and of this file *)

(** [std::io::Cursor<Vec<u8>>] *)
Record Cursor := mk_cursor {
  get_ref : list byte;
  cursor_position : nat;
}.

#[export] Instance cursor_read : Read Cursor := {
  read r cap :=
    let taken := take cap (drop (cursor_position r) (get_ref r)) in
    (mk_cursor (get_ref r) (cursor_position r + length taken), Ok taken);
  read_budget r := length (drop (cursor_position r) (get_ref r));
}.

#[export, refine] Instance cursor_read_laws : ReadLaws Cursor := {
  contents r := drop (cursor_position r) (get_ref r);
  read_faults _ _ := False;
}.
Proof.
  intros [l p] cap Hcap. simpl. set (rest := drop p l).
  assert (drop (p + length (take cap rest)) l = drop cap rest) as Hrest.
  { rewrite <- drop_drop. fold rest. rewrite length_take.
    destruct (decide (cap ≤ length rest)); [by rewrite Nat.min_l|].
    rewrite Nat.min_r by lia. by rewrite !drop_ge by lia. }
  rewrite Hrest. split_and!.
  - rewrite length_take. lia.
  - by rewrite take_drop.
  - intros Ht. destruct rest; [done|]. destruct cap; [lia|done].
  - rewrite length_drop. case_decide as Hnil; [lia|].
    assert (length rest ≠ 0); [|lia].
    intros Hz%nil_length_inv. rewrite Hz in Hnil. by destruct Hnil, cap.
  - done.
Defined.

(** [RecoveryVecWriter]: [write] reserves once and appends to the vector. *)
Record RecoveryVecWriter := mk_recovery_writer {
  rec_bytes : list byte;
  reserve_len : nat;
}.

#[export] Instance recovery_write : Write RecoveryVecWriter := {
  write w buf := (mk_recovery_writer (rec_bytes w ++ buf) 0, Ok (length buf));
  write_budget _ := 0;
}.

#[export, refine] Instance recovery_write_laws : WriteLaws RecoveryVecWriter := {
  output := rec_bytes;
  write_faults _ _ := False;
}.
Proof.
  intros w buf Hbuf. simpl. rewrite firstn_all. split_and!; try done.
  intros Hn. by apply nil_length_inv in Hn.
Defined.

(** ** One stream *)
Section one_stream.
Context {R : Type} `{ReadLaws R}.

Lemma length_prepare_read_buffer buf n : length (prepare_read_buffer buf n) = n.
Proof.
  unfold prepare_read_buffer. destruct (Nat.compare_spec (length buf) n); [done| |].
  - apply length_vec_resize.
  - rewrite length_take. lia.
Qed.

(** Reading what remains up to [max_len] bytes. *)
Definition read_result (r0 : R) (max_len : nat) (res : R * list byte * outcome io_error nat)
  : Prop :=
  match res with
  | (r, buf, Ok n) =>
      length buf = max_len ∧ n = Nat.min max_len (length (contents r0)) ∧
      take n buf = take max_len (contents r0) ∧ contents r = drop max_len (contents r0) ∧
      read_budget r + (if decide (n = 0) then 0 else 1) ≤ read_budget r0 ∧
      ∀ e, read_faults r e → read_faults r0 e
  | (_, _, Err e) => read_faults r0 e
  | (_, _, Panic) => False
  end.

Lemma read_loop_result r0 max_len : ∀ fuel r buf total,
  read_budget r < fuel → length buf = max_len → total ≤ max_len →
  contents r0 = take total buf ++ contents r →
  read_budget r + (if decide (total = 0) then 0 else 1) ≤ read_budget r0 →
  (∀ e, read_faults r e → read_faults r0 e) →
  read_result r0 max_len (read_loop fuel r buf total max_len).
Proof.
  induction fuel as [|fuel IH]; intros r buf total Hfuel Hlen Htot Hc Hb Hf; [lia|].
  assert (length (take total buf) = total) as Htake by (rewrite length_take; lia).
  simpl. destruct (Nat.ltb_spec total max_len) as [Hlt|Hge].
  2:{ assert (total = max_len) as -> by lia. unfold read_result. rewrite Hc.
      split_and!; try done.
      - rewrite length_app. lia.
      - by rewrite take_app_length'.
      - by rewrite drop_app_length'. }
  rewrite Hlen. pose proof (read_law r (max_len - total)) as Hlaw.
  destruct (read r (max_len - total)) as [r' [bs|e|]].
  - destruct Hlaw as (Hle & Hcr & Heof & Hbud & Hf'); [lia|].
    case_decide as Hnil.
    + subst bs. rewrite (Heof eq_refl) in Hc, Hcr. rewrite app_nil_r in Hc. simpl in Hcr.
      unfold read_result. rewrite Hc, <- Hcr.
      split_and!; [done|rewrite Htake; lia| | |lia|by eauto].
      * symmetry. apply take_ge. lia.
      * symmetry. apply drop_ge. lia.
    + apply IH.
      * lia.
      * by rewrite length_splice by lia.
      * lia.
      * rewrite Hc, Hcr. unfold splice.
        rewrite (assoc_L (++) _ bs (drop _ _)), take_app_length' by (rewrite length_app; lia).
        by rewrite (assoc_L (++)).
      * rewrite decide_False; [revert Hb; case_decide; lia|].
        destruct bs; [done|simpl; lia].
      * eauto.
  - destruct e; try (apply Hf, Hlaw; lia).
    destruct Hlaw as (Hcr & Hbud & Hf'); [lia|].
    apply IH; eauto; [lia|by rewrite Hcr|lia].
  - apply Hlaw. lia.
Qed.

Lemma read_one_stream_result r buf max_len :
  read_result r max_len (read_one_stream r buf max_len).
Proof.
  unfold read_one_stream.
  apply read_loop_result; auto using length_prepare_read_buffer; simpl; lia.
Qed.
End one_stream.

Section one_writer.
Context {W : Type} `{WriteLaws W}.

Definition write_result (w0 : W) (data : list byte) (res : W * outcome io_error unit) : Prop :=
  match res with
  | (w, Ok _) => output w = output w0 ++ data ∧ ∀ e, write_faults w e → write_faults w0 e
  | (_, Err e) => write_faults w0 e
  | (_, Panic) => False
  end.

Lemma write_loop_result w0 buf len : len ≤ length buf → ∀ fuel w written,
  len - written + write_budget w < fuel → written ≤ len →
  output w = output w0 ++ take written buf →
  (∀ e, write_faults w e → write_faults w0 e) →
  write_result w0 (take len buf) (write_loop fuel w buf written len).
Proof.
  intros Hlen. induction fuel as [|fuel IH]; intros w written Hfuel Hle Ho Hf; [lia|].
  simpl. destruct (Nat.ltb_spec written len) as [Hlt|Hge].
  2:{ assert (written = len) as -> by lia. done. }
  rewrite slice_ok by lia.
  set (view := take (len - written) (drop written buf)).
  assert (length view = len - written) as Hv
    by (unfold view; rewrite length_take, length_drop; lia).
  assert (view ≠ []) as Hne by (intros E; rewrite E in Hv; simpl in Hv; lia).
  pose proof (write_law w view Hne) as Hlaw.
  destruct (write w view) as [w' [n|e|]]; [|destruct e; try by apply Hf|done].
  - destruct Hlaw as (Hn & Ho' & Hz & Hb & Hf'). case_decide as Hn0; [by apply Hf, Hz|].
    apply IH; [lia|lia| |by auto].
    rewrite Ho', Ho, <- (assoc_L (++)). f_equal. unfold view.
    rewrite take_take, Nat.min_l by lia. by rewrite take_take_drop.
  - destruct Hlaw as (Ho' & Hb & Hf'). apply IH; [lia|done|congruence|by auto].
Qed.

Lemma write_prefix_result w buf len :
  len ≤ length buf → write_result w (take len buf) (write_prefix w buf len).
Proof.
  intros Hlen. unfold write_prefix.
  apply write_loop_result; auto; [lia..|by rewrite app_nil_r].
Qed.

Lemma write_all_result w buf : write_result w buf (write_all w buf).
Proof.
  unfold write_all. rewrite <- (firstn_all buf) at 1. by apply write_prefix_result.
Qed.
End one_writer.

(** ** All streams *)
Section task_rules.
Context {A E : Type}.
Implicit Types (f : nat → A → A * outcome E unit) (xs : list A).
Implicit Types (P : nat → A → A → Prop) (Q : E → Prop).

(** What a task, and a run over all streams, leave. *)
Definition task_ok P Q (i : nat) (x : A) (res : A * outcome E unit) : Prop :=
  match res with
  | (x', Ok _) => P i x x'
  | (_, Err e) => Q e
  | (_, Panic) => False
  end.

Definition tasks_ok P Q xs (res : list A * outcome E unit) : Prop :=
  match res with
  | (xs', Ok _) => length xs' = length xs ∧
      ∀ i x, xs !! i = Some x → ∃ x', xs' !! i = Some x' ∧ P i x x'
  | (_, Err e) => Q e
  | (_, Panic) => False
  end.

Lemma try_serial_from f P Q : ∀ xs k,
  (∀ i x, xs !! i = Some x → task_ok P Q (k + i) x (f (k + i) x)) →
  tasks_ok (λ i, P (k + i)) Q xs (try_serial f k xs).
Proof.
  induction xs as [|x xs IH]; intros k Hf; simpl; [by split; [|intros []]|].
  pose proof (Hf 0 x eq_refl) as Hx. rewrite Nat.add_0_r in Hx.
  destruct (f k x) as [x' [[]|e|]]; try done.
  assert (tasks_ok (λ i, P (S k + i)) Q xs (try_serial f (S k) xs)) as Hxs.
  { apply IH. intros i y Hi. rewrite Nat.add_succ_comm. by apply Hf. }
  destruct (try_serial f (S k) xs) as [xs' [[]|e|]]; try done.
  destruct Hxs as [Hlen Hxs]. split; [simpl; congruence|].
  intros [|i] y Hy; simpl in *.
  - exists x'. rewrite Nat.add_0_r. by simplify_eq.
  - rewrite <- Nat.add_succ_comm. auto.
Qed.

Lemma try_serial_ok f P Q xs :
  (∀ i x, xs !! i = Some x → task_ok P Q i x (f i x)) → tasks_ok P Q xs (try_serial f 0 xs).
Proof. apply (try_serial_from f P Q xs 0). Qed.

Lemma run_tasks_ok f P Q flying xs : ∀ order failed xs',
  NoDup order → Forall Q failed → length xs' = length xs →
  (∀ i, i ∈ order → ∃ x, xs !! i = Some x ∧ xs' !! i = Some x ∧ task_ok P Q i x (f i x)) →
  (failed = [] → ∀ i x, i ∉ order → xs !! i = Some x → ∃ x', xs' !! i = Some x' ∧ P i x x') →
  match run_tasks f flying order failed xs' with
  | (xs'', Ok failed) => Forall Q failed ∧ (failed = [] → length xs'' = length xs ∧
      ∀ i x, xs !! i = Some x → ∃ x', xs'' !! i = Some x' ∧ P i x x')
  | _ => False
  end.
Proof.
  induction order as [|i order IH]; intros failed xs' Hnd HQ Hlen Htodo Hdone; simpl.
  { split; [done|]. intros Hnil. split; [done|]. intros i x Hi.
    apply Hdone; [done|by intros ?%elem_of_nil|done]. }
  apply NoDup_cons in Hnd as [Hni Hnd].
  destruct (Htodo i) as (x & Hx & Hx' & Hf); [left|].
  assert (∀ y j, j ∈ order →
    ∃ z, xs !! j = Some z ∧ <[i:=y]> xs' !! j = Some z ∧ task_ok P Q j z (f j z)) as Hrest.
  { intros y j Hj. destruct (Htodo j) as (z & Hz & Hz' & Hfz); [by right|].
    exists z. rewrite list_lookup_insert_ne by (intros ->; done). done. }
  assert (i < length xs') as Hi by (by eapply lookup_lt_Some).
  destruct (bool_decide (failed ≠ []) && negb (flying i)) eqn:Hskip.
  { apply andb_prop in Hskip as [Hfail%bool_decide_eq_true _].
    apply IH; [done..| |done]. intros j Hj. apply Htodo. by right. }
  rewrite Hx'. unfold task_ok in Hf. destruct (f i x) as [x' [[]|e|]]; [| |done].
  - apply IH; try done; [by rewrite length_insert|apply Hrest|].
    intros Hnil j y Hj Hy. destruct (decide (j = i)) as [->|Hne].
    + rewrite list_lookup_insert_eq by done. exists x'. by simplify_eq.
    + rewrite list_lookup_insert_ne by done. apply Hdone; [done| |done].
      by intros [->|?]%elem_of_cons.
  - apply IH; try done; [by apply Forall_app; split; [|constructor]
      |by rewrite length_insert|apply Hrest|]. by destruct failed.
Qed.

Lemma try_parallel_ok f report P Q s xs :
  is_io_schedule s (length xs) → (∀ failed, failed ≠ [] → report failed ∈ failed) →
  (∀ i x, xs !! i = Some x → task_ok P Q i x (f i x)) →
  tasks_ok P Q xs (try_parallel f report s xs).
Proof.
  intros Hs Hreport Hf. unfold try_parallel.
  assert (∀ i, i ∈ task_order s ↔ i < length xs) as Hin.
  { intros i. rewrite Hs, elem_of_seq. lia. }
  pose proof (run_tasks_ok f P Q (in_flight s) xs (task_order s) [] xs) as H.
  destruct (run_tasks _ _ _ _ _) as [xs' [failed|e|]]; destruct H as [HQ H] || destruct H.
  all: try by rewrite Hs; apply NoDup_seq.
  all: try (intros i Hi%Hin; destruct (lookup_lt_is_Some_2 xs i) as [x Hx]; by eauto).
  all: try (intros _ i x Hi Hx; destruct Hi; by eapply Hin, lookup_lt_Some).
  all: try done.
  destruct failed as [|e failed]; [by apply H|].
  rewrite Forall_forall in HQ. by apply HQ, Hreport.
Qed.
End task_rules.

Lemma first_failure_in failed : failed ≠ [] → first_failure failed ∈ failed.
Proof. destruct failed; [done|]. intros _. left. Qed.

Lemma record_min_in failed : ∀ first, failed ≠ [] ∨ is_Some first →
  ∃ e, fold_left record_min_error failed first = Some e ∧ (e ∈ failed ∨ first = Some e) ∧
    ∀ e', e' ∈ failed ∨ first = Some e' → error_shard e ≤ error_shard e'.
Proof.
  induction failed as [|x failed IH]; intros first Hne; simpl.
  { destruct Hne as [|[e ->]]; [done|]. exists e. split_and!; [done|by right|].
    by intros e' [?%elem_of_nil|[= ->]]. }
  destruct (IH (record_min_error first x)) as (e & -> & Hin & Hmin).
  { right. destruct first; simpl; [case_decide|]; eauto. }
  exists e. split; [done|]. unfold record_min_error in Hin, Hmin.
  destruct first as [e0|]; [case_decide as Hlt|].
  - split; [destruct Hin as [?|[= ->]]; [left; by right|left; left]|].
    pose proof (Hmin x (or_intror eq_refl)).
    intros e' [[->|He']%elem_of_cons|[= <-]]; [done|by apply Hmin; left|lia].
  - split; [destruct Hin as [?|[= ->]]; [left; by right|by right]|].
    pose proof (Hmin e0 (or_intror eq_refl)).
    intros e' [[->|He']%elem_of_cons|[= <-]]; [lia|by apply Hmin; left|done].
  - split; [destruct Hin as [?|[= ->]]; [left; by right|left; left]|].
    intros e' [[->|He']%elem_of_cons|[=]]; [apply Hmin; by right|by apply Hmin; left].
Qed.

Lemma min_failure_in failed fallback : failed ≠ [] →
  take_stream_error (fold_left record_min_error failed None) fallback ∈ failed.
Proof.
  intros Hne. destruct (record_min_in failed None) as (e & -> & [Hin|[=]] & _); [by left|done].
Qed.

Lemma zipped_ok {A B E} (run : list (A * B) → list (A * B) * outcome E unit) P Q xs ys :
  length xs = length ys → tasks_ok P Q (zip xs ys) (run (zip xs ys)) →
  match zipped run xs ys with
  | (xs', ys', Ok _) => length xs' = length xs ∧ length ys' = length xs ∧
      ∀ i x y, xs !! i = Some x → ys !! i = Some y →
        ∃ x' y', xs' !! i = Some x' ∧ ys' !! i = Some y' ∧ P i (x, y) (x', y')
  | (_, _, Err e) => Q e
  | (_, _, Panic) => False
  end.
Proof.
  intros Hlen. unfold zipped, tasks_ok.
  destruct (run (zip xs ys)) as [pairs [[]|e|]]; try done.
  rewrite length_zip_with, Hlen, Nat.min_id. intros [Hp HP].
  rewrite Hp, !drop_ge, !app_nil_r, !length_map by lia.
  split_and!; [lia|lia|]. intros i x y Hx Hy.
  destruct (HP i (x, y)) as ([x' y'] & Hi & HPi).
  { by apply lookup_zip_Some. }
  exists x', y'. by rewrite !lookup_map, Hi.
Qed.

(** ** Reading a block *)
Section read_blocks.
Context {R : Type} `{ReadLaws R}.
Implicit Types (readers : list R) (buffers : list StreamReadBuffer).

(** The reader after [b] bytes, or after all of its bytes. *)
Definition advanced (b : nat) (r r' : R) : Prop :=
  contents r' = drop b (contents r) ∧
  read_budget r' + (if decide (Nat.min b (length (contents r)) = 0) then 0 else 1)
    ≤ read_budget r ∧
  ∀ e, read_faults r' e → read_faults r e.

(** What reading up to [b] bytes brings. *)
Definition available (b : nat) (r : R) : nat := Nat.min b (length (contents r)).

(** A failed read of one of the streams. *)
Definition read_failure readers (e : StreamError) : Prop :=
  ∃ i r x, readers !! i = Some r ∧ read_faults r x ∧ e = stream_read i x.

Definition block_read (b : nat) readers
    (res : list R * list StreamReadBuffer * outcome StreamError (bool * nat)) : Prop :=
  match res with
  | (readers', buffers', Ok (eof, len)) =>
      len = max_list (map (available b) readers) ∧ eof = bool_decide (len = 0) ∧
      Forall2 (advanced b) readers readers' ∧
      map read_len buffers' = map (available b) readers ∧
      map_outcome (E:=StreamError) as_ref buffers'
      = Ok (map (λ r, vec_resize len x00 (take b (contents r))) readers)
  | (_, _, Err e) => read_failure readers e
  | (_, _, Panic) => False
  end.

Lemma elem_max_list (l : list nat) x : x ∈ l → x ≤ max_list l.
Proof. induction 1; simpl; lia. Qed.

Lemma read_task_ok b buffers readers i x :
  zip readers buffers !! i = Some x →
  task_ok (λ _ x x', advanced b x.1 x'.1 ∧ length (bytes x'.2) = b ∧
      read_len x'.2 = available b x.1 ∧
      take (read_len x'.2) (bytes x'.2) = take b (contents x.1))
    (read_failure readers) i x (read_block_task b i x).
Proof.
  destruct x as [r buf]. intros [Hr _]%lookup_zip_Some.
  unfold read_block_task, read_from. cbn [fst snd].
  pose proof (read_one_stream_result r (bytes buf) b) as Hread.
  destruct (read_one_stream r (bytes buf) b) as [[r' bs] [n|e|]]; simpl in *; [|by exists i, r, e|done].
  destruct Hread as (Hlen & Hn & Htake & Hc & Hb & Hf).
  split_and!; try done. by split_and!; [|rewrite <- Hn|].
Qed.

Lemma map_const_replicate {A B} (x : B) (l : list A) : map (λ _, x) l = replicate (length l) x.
Proof. induction l; simpl; congruence. Qed.

(** [finish_block] pads with zeros. *)
Lemma finish_block_ok {E} (buf : StreamReadBuffer) len l :
  take (read_len buf) (bytes buf) = l → length l = read_len buf → read_len buf ≤ len →
  len ≤ length (bytes buf) →
  ∃ buf', finish_block (E:=E) buf len = Ok buf' ∧ read_len buf' = read_len buf ∧
    as_ref (E:=StreamError) buf' = Ok (vec_resize len x00 l).
Proof.
  intros Hl Hlen Hle Hbuf. unfold finish_block, as_ref.
  assert (∀ l', length l' = length (bytes buf) →
    take len l' = vec_resize len x00 l →
    ∃ buf' : StreamReadBuffer, Ok (E:=E) (mk_buffer l' (read_len buf) len) = Ok buf' ∧
      read_len buf' = read_len buf ∧
      slice (E:=StreamError) (bytes buf') 0 (block_len buf') = Ok (vec_resize len x00 l)) as Hok.
  { intros l' Hl' Ht. eexists. split; [done|]. split; [done|]. cbn [bytes block_len].
    rewrite slice_ok by lia. by rewrite Nat.sub_0_r, drop_0, Ht. }
  unfold vec_resize in Hok |- *. rewrite (take_ge l) in Hok |- * by lia.
  case_decide as Hlt; cbn [obind].
  - unfold update_slice. rewrite slice_ok by lia. cbn [obind]. apply Hok.
    + apply length_splice. rewrite length_map, length_take, length_drop. lia.
    + unfold splice. rewrite Hl, (assoc_L (++)), take_app_length'.
      * rewrite map_const_replicate, length_take, length_drop. do 2 f_equal. lia.
      * rewrite length_app, length_map, length_take, length_drop. lia.
  - apply Hok; [done|]. replace (len - length l) with 0 by lia.
    rewrite app_nil_r, <- Hl. f_equal. lia.
Qed.

Lemma read_block_ok s readers buffers b par :
  length buffers = length readers → is_io_schedule s (length readers) →
  block_read b readers (read_block_with_mode s readers buffers b par).
Proof.
  intros Hlen Hs. unfold read_block_with_mode.
  set (run := if par then _ else _).
  assert (tasks_ok (λ _ x x', advanced b x.1 x'.1 ∧ length (bytes x'.2) = b ∧
      read_len x'.2 = available b x.1 ∧
      take (read_len x'.2) (bytes x'.2) = take b (contents x.1)) (read_failure readers)
    (zip readers buffers) (run (zip readers buffers))) as Hrun.
  { pose proof (read_task_ok b buffers readers) as Htask. unfold run. destruct par.
    - apply try_parallel_ok; [|apply first_failure_in|done].
      by rewrite length_zip_with, Hlen, Nat.min_id.
    - by apply try_serial_ok. }
  apply zipped_ok in Hrun; [|done].
  destruct (zipped run readers buffers) as [[readers' buffers'] [[]|e|]]; try done.
  destruct Hrun as (Hr' & Hb' & HP).
  assert (∀ i r', readers' !! i = Some r' → ∃ r buf', readers !! i = Some r ∧
    buffers' !! i = Some buf' ∧ advanced b r r' ∧ length (bytes buf') = b ∧
    read_len buf' = available b r ∧
    take (read_len buf') (bytes buf') = take b (contents r)) as Hall.
  { intros i r' Hi. pose proof (lookup_lt_Some _ _ _ Hi).
    destruct (lookup_lt_is_Some_2 readers i) as [r Hr]; [lia|].
    destruct (lookup_lt_is_Some_2 buffers i) as [buf Hbuf]; [lia|].
    destruct (HP i r buf Hr Hbuf) as (x & y & ? & ? & ? & ? & ? & ?). simplify_eq/=.
    by exists r, y. }
  assert (map read_len buffers' = map (available b) readers) as Hlens.
  { apply list_eq_same_length with (length readers); rewrite ?length_map; [done..|].
    intros i x y Hi. rewrite !lookup_map. intros Hx Hy.
    destruct (lookup_lt_is_Some_2 readers' i) as [r' Hi']; [lia|].
    destruct (Hall i r' Hi') as (r & buf & Hr & Hbuf & _ & _ & Hlen' & _).
    rewrite Hr in Hy. rewrite Hbuf in Hx. by simplify_eq/=. }
  rewrite Hlens. set (len := max_list _).
  assert (∃ bufs, map_outcome (λ buf, finish_block (E:=StreamError) buf len) buffers' = Ok bufs ∧
    map read_len bufs = map read_len buffers' ∧
    map_outcome (E:=StreamError) as_ref bufs
    = Ok (map (λ r, vec_resize len x00 (take b (contents r))) readers)) as (bufs & -> & Hl & Href).
  { clear run HP. unfold len. clear len. set (len := max_list _).
    assert (∀ r, r ∈ readers → available b r ≤ len) as Hmax.
    { intros r Hr. apply elem_max_list. by apply list_elem_of_fmap_2. }
    assert (len ≤ b) as Hlenb.
    { unfold len. clear. induction readers as [|r l IH]; simpl; [lia|]. unfold available in *. lia. }
    clearbody len. clear Hs Hlen Hlens s. revert readers' buffers' Hr' Hb' Hall.
    induction readers as [|r readers IH]; intros [|r' readers'] [|buf buffers'] Hr' Hb' Hall;
      try done.
    { by exists []. }
    destruct (Hall 0 r' eq_refl) as (? & ? & [= <-] & [= <-] & _ & Hbl & Hrl & Ht).
    destruct (IH ltac:(intros; apply Hmax; by right) readers' buffers') as (bufs & H1 & H2 & H3);
      [by injection Hr'|by injection Hb'|intros i; apply (Hall (S i))|].
    destruct (finish_block_ok (E:=StreamError) buf len (take b (contents r))) as (buf' & Hf & Hf1 & Hf2).
    - done.
    - by rewrite Hrl, length_take.
    - rewrite Hrl. apply Hmax. left.
    - lia.
    - exists (buf' :: bufs). simpl. rewrite Hf, H1, Hf2, H3. cbn [obind map]. by rewrite H2, Hf1. }
  cbn. split_and!; [done|done| |congruence|done].
  apply Forall2_same_length_lookup_2; [done|]. intros i r r' Hr Hr1.
  destruct (Hall i r' Hr1) as (? & ? & Hr2 & _ & Hadv & _). by simplify_eq.
Qed.

Lemma budget_sum b readers readers' :
  Forall2 (advanced b) readers readers' →
  sum_list (map read_budget readers')
    + (if decide (max_list (map (available b) readers) = 0) then 0 else 1)
  ≤ sum_list (map read_budget readers).
Proof.
  induction 1 as [|r r' l l' (_ & Hb & _) _ IH]; simpl; [lia|].
  unfold available at 1. revert Hb IH. repeat case_decide; lia.
Qed.
End read_blocks.

(** ** Writing a block *)
Section write_blocks.
Context {W : Type} `{WriteLaws W}.

(** The writer has taken [data]. *)
Definition extended (data : list byte) (w w' : W) : Prop :=
  output w' = output w ++ data ∧ ∀ e, write_faults w' e → write_faults w e.

Definition write_failure (writers : list W) (offset : nat) (e : StreamError) : Prop :=
  ∃ i w x, writers !! i = Some w ∧ write_faults w x ∧ e = stream_write (offset + i) x.

Lemma write_block_ok s writers buffers len offset par :
  length buffers = length writers → (∀ buf, buf ∈ buffers → len ≤ length buf) →
  is_io_schedule s (length writers) →
  match write_block_with_mode s writers buffers len offset par with
  | (writers', Ok _) => length writers' = length writers ∧
      ∀ i w buf, writers !! i = Some w → buffers !! i = Some buf →
        ∃ w', writers' !! i = Some w' ∧ extended (take len buf) w w'
  | (_, Err e) => write_failure writers offset e
  | (_, Panic) => False
  end.
Proof.
  intros Hlen Hbufs Hs.
  assert (∀ i x, zip writers buffers !! i = Some x →
    task_ok (λ _ x x', extended (take len x.2) x.1 x'.1) (write_failure writers offset) i x
      (write_block_task len offset i x)) as Htask.
  { intros i [w buf] [Hw Hbuf]%lookup_zip_Some. unfold write_block_task. cbn [fst snd].
    pose proof (write_prefix_result w buf len) as Hwr.
    destruct (write_prefix w buf len) as [w' [[]|e|]]; simpl.
    - apply Hwr, Hbufs. by eapply list_elem_of_lookup_2.
    - exists i, w, e. split_and!; try done. apply Hwr, Hbufs. by eapply list_elem_of_lookup_2.
    - apply Hwr, Hbufs. by eapply list_elem_of_lookup_2. }
  assert (∀ run, tasks_ok (λ _ x x', extended (take len x.2) x.1 x'.1)
      (write_failure writers offset) (zip writers buffers) (run (zip writers buffers)) →
    match (let '(ws, _, r) := zipped run writers buffers in (ws, r)) with
    | (writers', Ok _) => length writers' = length writers ∧
        ∀ i w buf, writers !! i = Some w → buffers !! i = Some buf →
          ∃ w', writers' !! i = Some w' ∧ extended (take len buf) w w'
    | (_, Err e) => write_failure writers offset e
    | (_, Panic) => False
    end) as Hrun.
  { intros run Hrun%zipped_ok; [|done].
    destruct (zipped run writers buffers) as [[ws bs] [[]|e|]]; try done.
    destruct Hrun as (Hl & _ & HP). split; [done|]. intros i w buf Hw Hbuf.
    destruct (HP i w buf Hw Hbuf) as (w' & ? & ? & _ & ?). eauto. }
  unfold write_block_with_mode. destruct par; apply Hrun.
  - apply try_parallel_ok; [|intros ?; apply min_failure_in|done].
    by rewrite length_zip_with, Hlen, Nat.min_id.
  - by apply try_serial_ok.
Qed.

Definition missing_write_failure (writers : list (option W)) (e : StreamError) : Prop :=
  ∃ i w x, writers !! i = Some (Some w) ∧ write_faults w x ∧ e = stream_write i x.

Lemma write_missing_ok s (writers : list (option W)) buffers len par :
  length buffers = length writers →
  (∀ i w buf, writers !! i = Some (Some w) → buffers !! i = Some buf → len ≤ length buf) →
  is_io_schedule s (length writers) →
  match write_missing_streams_with_mode s writers buffers len par with
  | (writers', Ok _) => length writers' = length writers ∧
      ∀ i w buf, writers !! i = Some w → buffers !! i = Some buf →
        ∃ w', writers' !! i = Some w' ∧
          match w, w' with
          | Some w, Some w' => extended (take len buf) w w'
          | None, None => True
          | _, _ => False
          end
  | (_, Err e) => missing_write_failure writers e
  | (_, Panic) => False
  end.
Proof.
  intros Hlen Hbufs Hs. unfold write_missing_streams_with_mode.
  set (P := λ (_ : nat) (x x' : option W * list byte), match x.1, x'.1 with
          | Some w, Some w' => extended (take len x.2) w w'
          | None, None => True
          | _, _ => False
          end).
  set (run := if par then _ else _).
  assert (tasks_ok P (missing_write_failure writers) (zip writers buffers)
    (run (zip writers buffers))) as Hrun.
  { assert (∀ i x, zip writers buffers !! i = Some x →
      task_ok P (missing_write_failure writers) i x (write_missing_task len i x)) as Htask.
    { intros i [[w|] buf] [Hw Hbuf]%lookup_zip_Some; [|done]. unfold write_missing_task.
      rewrite slice_ok by eauto with lia. rewrite Nat.sub_0_r, drop_0.
      pose proof (write_all_result w (take len buf)) as Hwr.
      destruct (write_all w (take len buf)) as [w' [[]|e|]]; simpl; [done| |done].
      by exists i, w, e. }
    unfold run. destruct par; [|by apply try_serial_ok].
    apply try_parallel_ok; [|apply first_failure_in|done].
    by rewrite length_zip_with, Hlen, Nat.min_id. }
  apply zipped_ok in Hrun; [|done].
  destruct (zipped run writers buffers) as [[ws bs] [[]|e|]]; try done.
  destruct Hrun as (Hl & _ & HP). split; [done|]. intros i w buf Hw Hbuf.
  destruct (HP i w buf Hw Hbuf) as (w' & ? & ? & _ & HPi). eauto.
Qed.
End write_blocks.

(** ** Reading the present streams *)
Section read_present.
Context {R : Type} `{ReadLaws R}.
Implicit Types (readers : list (option R)) (buffers : list (list byte)).

Definition present_read_failure readers (e : StreamError) : Prop :=
  ∃ i r x, readers !! i = Some (Some r) ∧ read_faults r x ∧ e = stream_read i x.

(** A stream that brings fewer bytes than another. *)
Definition unequal_streams (b : nat) readers (e : StreamError) : Prop :=
  ∃ bad r i r', readers !! bad = Some (Some r) ∧ readers !! i = Some (Some r') ∧
    available b r < available b r' ∧ e = stream_codec bad IncorrectShardSize.

(** Each present reader has brought [len] bytes; the other buffers are left. *)
Definition present_read (b len : nat) readers buffers readers' buffers' : Prop :=
  length readers' = length readers ∧ length buffers' = length readers ∧
  ∀ i x, readers !! i = Some x →
    match x with
    | Some r => available b r = len ∧ (∃ r', readers' !! i = Some (Some r') ∧ advanced b r r') ∧
        buffers' !! i = Some (take b (contents r))
    | None => readers' !! i = Some None ∧ buffers' !! i = buffers !! i
    end.

Lemma find_position_some {A} (p : A → bool) l i :
  find_position p l = Some i → ∃ x, l !! i = Some x ∧ p x = true.
Proof.
  unfold find_position. destruct (list_find _ l) as [[j x]|] eqn:Hf; [|done].
  intros [= <-]. apply list_find_Some in Hf as (? & ? & _). eauto.
Qed.

Lemma find_position_none {A} (p : A → bool) l i x :
  find_position p l = None → l !! i = Some x → p x = false.
Proof.
  unfold find_position. destruct (list_find _ l) as [[j y]|] eqn:Hf; [done|].
  intros _ Hx. apply list_find_None in Hf. rewrite Forall_lookup in Hf.
  specialize (Hf i x Hx). by destruct (p x).
Qed.

Lemma max_list_elem (l : list nat) : max_list l ≠ 0 → max_list l ∈ l.
Proof.
  induction l as [|x l IH]; simpl; [done|]. intros Hne.
  destruct (Nat.max_spec x (max_list l)) as [[? ->]|[? ->]]; [right; apply IH; lia|left].
Qed.

Lemma read_present_ok s readers buffers b par :
  length buffers = length readers → is_io_schedule s (length readers) →
  match read_present_streams_with_mode s readers buffers b par with
  | (readers', buffers', Ok (eof, len)) => eof = bool_decide (len = 0) ∧
      present_read b len readers buffers readers' buffers'
  | (_, _, Err e) => present_read_failure readers e ∨ unequal_streams b readers e
  | (_, _, Panic) => False
  end.
Proof.
  intros Hlen Hs. unfold read_present_streams_with_mode.
  set (P := λ (_ : nat) (x x' : option R * list byte), match x.1, x'.1 with
          | Some r, Some r' => advanced b r r' ∧ x'.2 = take b (contents r)
          | None, None => x'.2 = x.2
          | _, _ => False
          end).
  set (run := if par then _ else _).
  assert (tasks_ok P (present_read_failure readers) (zip readers buffers)
    (run (zip readers buffers))) as Hrun.
  { assert (∀ i x, zip readers buffers !! i = Some x →
      task_ok P (present_read_failure readers) i x (read_present_task b i x)) as Htask.
    { intros i [[r|] buf] [Hr Hbuf]%lookup_zip_Some; [|done]. unfold read_present_task.
      pose proof (read_one_stream_result r buf b) as Hrd.
      destruct (read_one_stream r buf b) as [[r' bs] [n|e|]]; simpl; [|by exists i, r, e|done].
      destruct Hrd as (_ & Hn & Ht & Hc & Hb & Hf). unfold P, advanced. cbn [fst snd].
      by rewrite <- Hn. }
    unfold run. destruct par; [|by apply try_serial_ok].
    apply try_parallel_ok; [|apply first_failure_in|done].
    by rewrite length_zip_with, Hlen, Nat.min_id. }
  apply zipped_ok in Hrun; [|done].
  destruct (zipped run readers buffers) as [[rs bs] [[]|e|]]; [|by left|done].
  destruct Hrun as (Hl & Hl' & HP).
  set (pairs := zip rs bs). set (len := max_list (omap present_len pairs)).
  assert (∀ i r, readers !! i = Some (Some r) → ∃ r' buf, pairs !! i = Some (Some r', buf) ∧
    rs !! i = Some (Some r') ∧ bs !! i = Some buf ∧ advanced b r r' ∧
    buf = take b (contents r) ∧ length buf = available b r) as Hpres.
  { intros i r Hr. destruct (lookup_lt_is_Some_2 buffers i) as [buf Hbuf].
    { rewrite Hlen. by eapply lookup_lt_Some. }
    destruct (HP i _ buf Hr Hbuf) as ([r'|] & buf' & Hr' & Hbuf' & Hp); [|done].
    destruct Hp as [Hadv Hb]. simpl in Hb. exists r', buf'. subst buf'. split_and!; try done.
    - by apply lookup_zip_Some.
    - by rewrite length_take. }
  assert (∀ i x l, pairs !! i = Some x → present_len x = Some l →
    ∃ r, readers !! i = Some (Some r) ∧ l = available b r) as Hback.
  { intros i [[r'|] buf] l [Hr' Hbuf]%lookup_zip_Some Hpl; [|done]. simplify_eq/=.
    destruct (lookup_lt_is_Some_2 readers i) as [x Hx].
    { rewrite <- Hl. by eapply lookup_lt_Some. }
    destruct (lookup_lt_is_Some_2 buffers i) as [old Hold].
    { rewrite Hlen, <- Hl. by eapply lookup_lt_Some. }
    destruct (HP i x old Hx Hold) as (y & z & Hy & Hz & Hp).
    rewrite Hr' in Hy. rewrite Hbuf in Hz. simplify_eq. destruct x as [r|]; [|done].
    exists r. split; [done|]. destruct (Hpres i r Hx) as (? & ? & ? & ? & ? & _ & _ & ?). congruence. }
  assert (∀ i r, readers !! i = Some (Some r) → available b r ≤ len) as Hmax.
  { intros i r Hr. destruct (Hpres i r Hr) as (r' & buf & Hp & _ & _ & _ & _ & Hbl).
    apply elem_max_list. apply list_elem_of_omap. exists (Some r', buf). rewrite <- Hbl.
    split; [by eapply list_elem_of_lookup_2|done]. }
  destruct (if decide (len ≠ 0) then _ else None) as [bad|] eqn:Hbad.
  - right. case_decide as Hne; [|done].
    apply find_position_some in Hbad as (x & Hx & [[l Hxl] Hne']%bool_decide_eq_true).
    destruct (Hback bad x l Hx Hxl) as (r & Hr & ->).
    pose proof (max_list_elem _ Hne) as (y & Hy & Hyl)%list_elem_of_omap.
    apply list_elem_of_lookup_1 in Hy as [i Hi].
    destruct (Hback i y _ Hi Hyl) as (r' & Hr' & Hlen'). fold len in Hlen'.
    exists bad, r, i, r'. split_and!; try done.
    pose proof (Hmax bad r Hr). rewrite <- Hlen'. unfold pairs in *.
    assert (available b r ≠ len) by (intros E; apply Hne'; by rewrite Hxl, E). lia.
  - split; [done|]. split_and!; [lia|lia|]. intros i [r|] Hr.
    + destruct (Hpres i r Hr) as (r' & buf & Hp & Hr' & Hbuf & Hadv & -> & Hbl).
      split_and!; eauto. case_decide as Hne.
      * pose proof (find_position_none _ _ i _ Hbad Hp) as Hd%bool_decide_eq_false.
        destruct (decide (available b r = len)) as [->|Hneq]; [done|]. destruct Hd.
        split; [by eexists|]. simpl. rewrite Hbl. congruence.
      * pose proof (Hmax i r Hr). lia.
    + destruct (lookup_lt_is_Some_2 buffers i) as [buf Hbuf].
      { rewrite Hlen. by eapply lookup_lt_Some. }
      destruct (HP i _ buf Hr Hbuf) as ([r'|] & buf' & Hr' & Hbuf' & Hp); [done|].
      unfold P in Hp. simpl in Hp. subst buf'. by rewrite Hbuf.
Qed.
End read_present.

(** ** What tasks leave alone *)
Section task_invariants.
Context {A E : Type} (f : nat → A → A * outcome E unit) (I : nat → A → Prop).
Context (Hf : ∀ i x, I i x → I i (f i x).1).
Implicit Types (xs : list A).

Definition all_at (k : nat) xs : Prop := ∀ i x, xs !! i = Some x → I (k + i) x.

Lemma all_at_cons k x xs : all_at k (x :: xs) ↔ I k x ∧ all_at (S k) xs.
Proof.
  split.
  - intros Hall. split; [pose proof (Hall 0 x eq_refl) as Hx; by rewrite Nat.add_0_r in Hx|].
    intros i y Hy. rewrite Nat.add_succ_comm. by apply (Hall (S i)).
  - intros [Hx Hall] [|i] y Hy; simpl in Hy; simplify_eq; [by rewrite Nat.add_0_r|].
    rewrite <- Nat.add_succ_comm. by apply Hall.
Qed.

Lemma try_serial_inv : ∀ xs k, all_at k xs →
  length (try_serial f k xs).1 = length xs ∧ all_at k (try_serial f k xs).1.
Proof.
  induction xs as [|x xs IH]; intros k Hall; simpl; [done|].
  apply all_at_cons in Hall as [Hx Hall]. apply Hf in Hx.
  destruct (f k x) as [x' [u|e|]]; simpl in *; [|by split; [|apply all_at_cons]..].
  destruct (IH (S k) Hall) as [Hl Hr]. destruct (try_serial f (S k) xs) as [xs' r]; simpl in *.
  split; [congruence|by apply all_at_cons].
Qed.

Lemma run_tasks_inv flying : ∀ order failed xs, all_at 0 xs →
  length (run_tasks f flying order failed xs).1 = length xs ∧
  all_at 0 (run_tasks f flying order failed xs).1.
Proof.
  induction order as [|i order IH]; intros failed xs Hall; simpl; [done|].
  destruct (_ && _); [by apply IH|]. destruct (xs !! i) as [x|] eqn:Hx; [|done].
  pose proof (Hf i x (Hall i x Hx)) as Hx'.
  assert (∀ y, I i y → all_at 0 (<[i:=y]> xs)) as Hins.
  { intros y Hy j z. destruct (decide (j = i)) as [->|Hne].
    - rewrite list_lookup_insert_eq by (by eapply lookup_lt_Some). by intros [= <-].
    - rewrite list_lookup_insert_ne by done. apply Hall. }
  destruct (f i x) as [x' [u|e|]]; simpl in *.
  - rewrite <- (length_insert xs i x'). by apply IH, Hins.
  - rewrite <- (length_insert xs i x'). by apply IH, Hins.
  - split; [by rewrite length_insert|by apply Hins].
Qed.

Lemma try_parallel_inv report s xs : all_at 0 xs →
  length (try_parallel f report s xs).1 = length xs ∧ all_at 0 (try_parallel f report s xs).1.
Proof.
  intros Hall. unfold try_parallel.
  pose proof (run_tasks_inv (in_flight s) (task_order s) [] xs Hall) as H.
  by destruct (run_tasks _ _ _ _ _) as [xs' [[|e l]|e|]].
Qed.
End task_invariants.

Section stream_invariants.
Context {R : Type} `{Read R}.

(** A property of the readers that reading preserves. *)
Context (J : nat → option R → Prop).
Context (HJ : ∀ i r cap, J i (Some r) → J i (Some (read r cap).1)).

Lemma read_loop_inv i : ∀ fuel r buf total max_len,
  J i (Some r) → J i (Some (read_loop fuel r buf total max_len).1.1).
Proof.
  induction fuel as [|fuel IH]; intros r buf total max_len Hr; simpl; [done|].
  destruct (total <? max_len); [|done].
  apply (HJ i r (length buf - total)) in Hr. destruct (read r _) as [r' [bs|e|]]; simpl in Hr.
  - case_decide; [done|by apply IH].
  - by destruct e; [apply IH|..].
  - done.
Qed.

Lemma read_present_task_inv max_len i x : J i x.1 → J i (read_present_task max_len i x).1.1.
Proof.
  destruct x as [[r|] buf]; simpl; [|done]. intros Hr. unfold read_one_stream.
  pose proof (read_loop_inv i (S (read_budget r)) r (prepare_read_buffer buf max_len) 0 max_len Hr)
    as Hr'.
  by destruct (read_loop _ _ _ _ _) as [[r' buf'] [n|e|]].
Qed.

Lemma read_present_inv s (readers : list (option R)) buffers max_len par :
  all_at J 0 readers →
  let '(readers', _, _) := read_present_streams_with_mode s readers buffers max_len par in
  length readers' = length readers ∧ all_at J 0 readers'.
Proof.
  intros Hall. unfold read_present_streams_with_mode. set (run := if par then _ else _).
  assert (length (run (zip readers buffers)).1 = length (zip readers buffers) ∧
    all_at (λ i x, J i x.1) 0 (run (zip readers buffers)).1) as [Hl Hrun].
  { assert (all_at (λ i x, J i x.1) 0 (zip readers buffers)) as Hz.
    { intros i [r buf] [Hr _]%lookup_zip_Some. by apply (Hall i). }
    unfold run. destruct par; [apply try_parallel_inv|apply try_serial_inv];
      try done; intros i x; apply read_present_task_inv. }
  unfold zipped. destruct (run (zip readers buffers)) as [pairs r]. simpl in Hl, Hrun.
  rewrite length_zip_with in Hl.
  assert (length (map fst pairs ++ drop (length pairs) readers) = length readers ∧
    all_at J 0 (map fst pairs ++ drop (length pairs) readers)) as Hgoal.
  { split; [rewrite length_app, length_map, length_drop; lia|].
    intros i x [Hx|[Hi Hx]]%lookup_app_Some.
    - rewrite lookup_map in Hx. destruct (pairs !! i) as [y|] eqn:Hy; [|done].
      injection Hx as <-. by apply (Hrun i).
    - rewrite length_map in Hi, Hx. rewrite lookup_drop in Hx.
      replace (length pairs + (i - length pairs)) with i in Hx by lia. by apply (Hall i). }
  destruct r as [u|e|]; [|done..]. by destruct (if decide _ then _ else _).
Qed.
End stream_invariants.
