(* ===== verification/Stream.v ===== *)
(** * Streaming encode and verify ([src/core/stream.rs], lines 616-801)

    [encode_stream] and [verify_stream] of [galois_8::ReedSolomon]: blocks of all
    shards are read, coded, and written or compared, until every stream is at its end.
    The theorems: whatever the block size, the sizes of the reads and writes, the
    interruptions, the input and output mode and every schedule, the parity streams
    receive the parity of the whole streams padded with zeros, and verification
    answers whether the whole streams are a codeword. *)

From Stdlib Require Import NArith Lia List Bool Init.Byte.
From stdpp Require Import base numbers list.
From S2P Require Import Prelude Errors Fields Gf8 LinAlg Matrix Options Leopard InversionCache.
From S2P Require Import Parallel Checks Codec Coding Encode Verify Gf8Opt StreamIo.

(** The schedules of the blocks: reads, writes, and the coding tasks of a block with
    that many bytes. *)
Record StreamSchedules := mk_schedules {
  sched_reads : nat → Schedule;
  sched_writes : nat → Schedule;
  sched_codes : nat → nat → list task;
}.

Section stream.
Context {RT : Runtime} {St : Storage byte} {L : LruCache (list nat) (CachedMatrix byte)}.
Context {LE : LeopardEncoders}.
Context {R W : Type} `{Read R} `{Write W}.

#[local] Abbreviation codec := (@ReedSolomon gf8 L).
Implicit Types (self : codec) (sched : StreamSchedules) (options : StreamOptions).

Definition is_leopard_codec self : bool :=
  is_leopard_gf8_family self || is_leopard_gf16_family self.

(** ** Encoding *)
Section encode_loop.
Context (sched : StreamSchedules) (self : codec) (block_len : nat).
Context (use_parallel_read use_parallel_write : bool).

(** The [loop] of [encode_stream]; [k] counts the blocks.  Every block but the last
    brings bytes from some reader. *)
Fixpoint encode_stream_loop (fuel k : nat) (data : list R) (data_bufs : list StreamReadBuffer)
    (parity : list W) (parity_bufs : list (list byte))
    : list R * list W * outcome StreamError unit :=
  match fuel with
  | O => (data, parity, Panic)
  | S fuel =>
      match read_block_with_mode (sched_reads sched k) data data_bufs block_len
              use_parallel_read with
      | (data, _, Err e) => (data, parity, Err e)
      | (data, _, Panic) => (data, parity, Panic)
      | (data, data_bufs, Ok (all_eof, actual_len)) =>
          if all_eof : bool then (data, parity, Ok tt) else
          match
            (let parity_bufs := map (vec_resize actual_len x00) parity_bufs in
             let! views := map_outcome as_ref data_bufs in
             map_err (stream_codec 0)
               (encode_sep_opt (sched_codes sched k actual_len) self views parity_bufs))
          with
          | Err e => (data, parity, Err e)
          | Panic => (data, parity, Panic)
          | Ok parity_bufs =>
              match write_block_with_mode (sched_writes sched k) parity parity_bufs actual_len
                      (data_shard_count self) use_parallel_write with
              | (parity, Ok _) => encode_stream_loop fuel (S k) data data_bufs parity parity_bufs
              | (parity, r) => (data, parity, r)
              end
          end
      end
  end.
End encode_loop.

Definition encode_stream sched self (data : list R) (parity : list W) options
  : list R * list W * outcome StreamError unit :=
  let block_len := block_len_of options in
  if is_leopard_codec self
  then (data, parity, Err (stream_codec 0 UnsupportedCodecFamily)) else
  let data_count := data_shard_count self in
  let parity_count := parity_shard_count self in
  match
    (let! _ := validate_stream_count (length data) data_count in
     validate_stream_count (length parity) parity_count)
  with
  | Err e => (data, parity, Err e)
  | Panic => (data, parity, Panic)
  | Ok _ =>
      encode_stream_loop sched self block_len (use_parallel_stream_io options data_count)
        (use_parallel_stream_io options parity_count) (S (sum_list (map read_budget data))) 0
        data (replicate data_count buffer_new) parity (replicate parity_count [])
  end.

(** ** Verification *)
Section verify_loop.
Context (sched : StreamSchedules) (self : codec) (block_len : nat) (use_parallel_read : bool).

Fixpoint verify_stream_loop (fuel k : nat) (shards : list R) (bufs : list StreamReadBuffer)
    (verify_bufs : list (list byte)) : list R * outcome StreamError bool :=
  match fuel with
  | O => (shards, Panic)
  | S fuel =>
      match read_block_with_mode (sched_reads sched k) shards bufs block_len
              use_parallel_read with
      | (shards, _, Err e) => (shards, Err e)
      | (shards, _, Panic) => (shards, Panic)
      | (shards, bufs, Ok (all_eof, actual_len)) =>
          if all_eof : bool then (shards, Ok true) else
          match find_position (λ b, bool_decide (read_len b ≠ actual_len)) bufs with
          | Some bad => (shards, Err (stream_codec bad IncorrectShardSize))
          | None =>
              match
                (let verify_bufs := map (vec_resize actual_len x00) verify_bufs in
                 let! views := map_outcome as_ref bufs in
                 map_err (stream_codec 0) (verify_with_buffer_opt
                   (sched_codes sched k actual_len) self views verify_bufs))
              with
              | Err e => (shards, Err e)
              | Panic => (shards, Panic)
              | Ok (valid, verify_bufs) =>
                  if negb valid then (shards, Ok false)
                  else verify_stream_loop fuel (S k) shards bufs verify_bufs
              end
          end
      end
  end.
End verify_loop.

Definition verify_stream sched self (shards : list R) options
  : list R * outcome StreamError bool :=
  let block_len := block_len_of options in
  if is_leopard_codec self then (shards, Err (stream_codec 0 UnsupportedCodecFamily)) else
  let total := total_shard_count self in
  match validate_stream_count (length shards) total with
  | Err e => (shards, Err e)
  | Panic => (shards, Panic)
  | Ok _ =>
      verify_stream_loop sched self block_len (use_parallel_stream_io options total)
        (S (sum_list (map read_budget shards))) 0 shards (replicate total buffer_new)
        (replicate (parity_shard_count self) [])
  end.
End stream.

(** ** Columns of whole streams *)
Section columns.
Implicit Types (C : list (list byte)) (M : nat → nat → byte).
#[local] Abbreviation elem := (shard_elem (F:=gf8)).
#[local] Abbreviation parity := (parity_of (F:=gf8)).

Lemma column_take a C i j : j < a → elem (map (take a) C) i j = elem C i j.
Proof.
  intros Hj. unfold shard_elem. change (@Elem gf8) with byte. rewrite lookup_map. destruct (C !! i) as [c|]; simpl; [|done].
  by rewrite lookup_take_lt.
Qed.

Lemma column_drop a C i j : elem (map (drop a) C) i j = elem C i (a + j).
Proof.
  unfold shard_elem. change (@Elem gf8) with byte. rewrite lookup_map. destruct (C !! i) as [c|]; simpl; [|done].
  by rewrite lookup_drop.
Qed.

(** The parity of the first [a] columns, then of the others. *)
Lemma parity_split M d p a m C :
  parity M d p (a + m) C
  = zip_with (++) (parity M d p a (map (take a) C)) (parity M d p m (map (drop a) C)).
Proof.
  unfold parity_of. rewrite zip_with_tabulate. apply tabulate_ext. intros k Hk.
  rewrite tabulate_app. f_equal; apply tabulate_ext; intros j Hj; unfold dot;
    apply (bsum_ext (F:=gf8)); intros i Hi.
  - by rewrite column_take.
  - by rewrite column_drop.
Qed.
End columns.

(** ** Streams padded with zeros *)
Section padding.
Implicit Types (C : list (list byte)).

Definition longest C : nat := max_list (map length C).
Definition padded (N : nat) C : list (list byte) := map (vec_resize N x00) C.

Lemma longest_drop b C : longest (map (drop b) C) = longest C - b.
Proof.
  unfold longest. induction C as [|c C IH]; simpl; [done|]. rewrite IH, length_drop. lia.
Qed.

Lemma longest_take b C : longest (map (take b) C) = Nat.min b (longest C).
Proof.
  unfold longest. induction C as [|c C IH]; simpl; [lia|]. rewrite IH, length_take. lia.
Qed.

(** A block of padded streams is a padded block of streams. *)
Lemma padded_take a N C :
  a ≤ N → (∀ c, c ∈ C → length c ≤ N) →
  map (take a) (padded N C) = padded a (map (take a) C).
Proof.
  intros Ha HC. unfold padded. rewrite !map_map. apply map_ext_in. intros c Hc%list_elem_of_In.
  unfold vec_resize. rewrite take_app, take_take, length_take, take_take, take_replicate.
  specialize (HC c Hc). f_equal; [f_equal; lia|]. rewrite length_take. f_equal. lia.
Qed.

Lemma padded_drop a N C :
  a ≤ N → (∀ c, c ∈ C → length c ≤ N) →
  map (drop a) (padded N C) = padded (N - a) (map (drop a) C).
Proof.
  intros Ha HC. unfold padded. rewrite !map_map. apply map_ext_in. intros c Hc%list_elem_of_In.
  specialize (HC c Hc). unfold vec_resize.
  rewrite drop_app, length_take, drop_replicate, length_drop.
  rewrite (take_ge c) by lia. rewrite (take_ge (drop a c)) by (rewrite length_drop; lia).
  f_equal. f_equal. lia.
Qed.

Lemma length_longest c C : c ∈ C → length c ≤ longest C.
Proof. intros Hc. apply elem_max_list. by apply list_elem_of_fmap_2. Qed.

Lemma padded_layout N C : all_len N (padded N C).
Proof.
  apply Forall_forall. intros c Hc. unfold padded in Hc.
  apply list_elem_of_fmap in Hc as (x & -> & _). apply length_vec_resize.
Qed.

End padding.

(** ** Outputs *)
Section outputs.
Context {W : Type} `{WriteLaws W}.
Implicit Types (ws : list W) (data : list (list byte)).

(** Writer [i] has taken the bytes [data !! i]. *)
Definition received ws ws' data : Prop :=
  length ws' = length ws ∧
  ∀ i w bytes, ws !! i = Some w → data !! i = Some bytes →
    ∃ w', ws' !! i = Some w' ∧ extended bytes w w'.

Lemma received_app ws ws1 ws2 l1 l2 :
  received ws ws1 l1 → received ws1 ws2 l2 → length l1 = length l2 →
  received ws ws2 (zip_with (++) l1 l2).
Proof.
  intros [Hlen1 H1] [Hlen2 H2] Hlen. split; [congruence|].
  intros i w bytes Hw (x & y & -> & Hx & Hy)%lookup_zip_with_Some.
  destruct (H1 i w x Hw Hx) as (w1 & Hw1 & Ho1 & Hf1).
  destruct (H2 i w1 y Hw1 Hy) as (w2 & Hw2 & Ho2 & Hf2).
  exists w2. split; [done|]. split; [by rewrite Ho2, Ho1, (assoc_L (++))|auto].
Qed.

Lemma received_nil ws data : (∀ i bytes, data !! i = Some bytes → bytes = []) → received ws ws data.
Proof.
  intros Hnil. split; [done|]. intros i w bytes Hw Hb. exists w. split; [done|].
  rewrite (Hnil i bytes Hb). split; [by rewrite app_nil_r|done].
Qed.

Lemma received_failure ws ws' data offset e :
  received ws ws' data → length ws ≤ length data →
  write_failure ws' offset e → write_failure ws offset e.
Proof.
  intros [Hlen Hr] Hd (i & w' & x & Hw' & Hx & ->).
  pose proof (lookup_lt_Some _ _ _ Hw') as Hi.
  destruct (lookup_lt_is_Some_2 ws i) as [w Hw]; [lia|].
  destruct (lookup_lt_is_Some_2 data i) as [bytes Hb]; [lia|].
  destruct (Hr i w bytes Hw Hb) as (w1 & Hw1 & _ & Hf). simplify_eq. exists i, w, x. auto.
Qed.
End outputs.

Section read_failures.
Context {R : Type} `{ReadLaws R}.

Lemma advanced_failure b (rs rs' : list R) e :
  Forall2 (advanced b) rs rs' → read_failure rs' e → read_failure rs e.
Proof.
  intros Hadv (i & r' & x & Hr' & Hx & ->).
  destruct (Forall2_lookup_r _ _ _ _ _ Hadv Hr') as (r & Hr & _ & _ & Hf).
  exists i, r, x. auto.
Qed.

Lemma advanced_contents b (rs rs' : list R) :
  Forall2 (advanced b) rs rs' → map contents rs' = map (drop b) (map contents rs).
Proof.
  induction 1 as [|r r' rs rs' (Hc & _) _ IH]; simpl; [done|]. by rewrite Hc, IH.
Qed.

Lemma available_longest b (rs : list R) :
  max_list (map (available b) rs) = Nat.min b (longest (map contents rs)).
Proof.
  unfold longest. induction rs as [|r rs IH]; simpl; [lia|]. rewrite IH. unfold available. lia.
Qed.
End read_failures.

(** ** Codewords cut at a column *)
Section codeword_blocks.
Context {L : LruCache (list nat) (CachedMatrix byte)}.
Context (self : @ReedSolomon gf8 L) (M : nat → nat → byte).
Implicit Types (C : list (list byte)).
#[local] Abbreviation d := (data_shard_count self).
#[local] Abbreviation n := (total_shard_count self).

Lemma all_len_lookup N C :
  all_len N C ↔ ∀ (i : nat) (c : list byte), C !! i = Some c → length c = N.
Proof. apply Forall_lookup. Qed.

Lemma all_len_elem N C : all_len N C ↔ ∀ c : list byte, c ∈ C → length c = N.
Proof. apply Forall_forall. Qed.

Lemma codeword_block a m C :
  0 < a → length C = n → all_len (a + m) C →
  (codeword (F:=gf8) M d n (a + m) C ↔
   codeword (F:=gf8) M d n a (map (take a) C) ∧
   (m = 0 ∨ codeword (F:=gf8) M d n m (map (drop a) C))).
Proof.
  intros Ha HC Hall. rewrite all_len_lookup in Hall.
  assert (∀ x (f : list byte → list byte), (∀ c, length c = a + m → length (f c) = x) →
    length (map f C) = n ∧ all_len x (map f C)) as Hlay.
  { intros x f Hf. split; [by rewrite length_map|]. apply all_len_lookup. intros i c'.
    rewrite lookup_map. destruct (C !! i) as [c|] eqn:Hi; simpl; [|done]. intros [= <-].
    by apply Hf, (Hall i). }
  split.
  - intros [_ Hcw]. split; [split|].
    + destruct (Hlay a (take a)) as [? ?]; [intros c Hl; rewrite length_take; lia|]. by split_and!.
    + intros r j Hr Hj. rewrite column_take by done. rewrite (Hcw r j Hr) by lia.
      apply (row_dot_ext (F:=gf8)). intros c _. by rewrite column_take.
    + destruct (decide (m = 0)) as [|Hm]; [by left|right]. split.
      * destruct (Hlay m (drop a)) as [? ?]; [intros c Hl; rewrite length_drop; lia|].
        split_and!; [done|lia|done].
      * intros r j Hr Hj. rewrite column_drop. rewrite (Hcw r (a + j) Hr) by lia.
        apply (row_dot_ext (F:=gf8)). intros c _. by rewrite column_drop.
  - intros [[_ Hcw] Hrest]. split.
    + split_and!; [done|lia|]. by apply all_len_lookup.
    + intros r j Hr Hj. destruct (decide (j < a)) as [Hlt|Hge].
      * pose proof (Hcw r j Hr Hlt) as Hrj. rewrite column_take in Hrj by done. rewrite Hrj.
        apply (row_dot_ext (F:=gf8)). intros c _. by rewrite column_take.
      * destruct Hrest as [->|[_ Hrest]]; [lia|].
        pose proof (Hrest r (j - a) Hr ltac:(lia)) as Hrj. rewrite column_drop in Hrj.
        replace (a + (j - a)) with j in Hrj by lia. rewrite Hrj.
        apply (row_dot_ext (F:=gf8)). intros c _. rewrite column_drop. f_equal. lia.
Qed.

End codeword_blocks.

(** ** The encoding loop *)
Section classic.
Context {RT : Runtime} {St : Storage byte} {L : LruCache (list nat) (CachedMatrix byte)}.
Context {LE : LeopardEncoders}.
Context {R W : Type} `{ReadLaws R} `{WriteLaws W}.
Context (self : @ReedSolomon gf8 L) (M : nat → nat → byte).
Context (Hc : classic_codec (F:=gf8) self M).
Context (sched : StreamSchedules) (b : nat) (Hb : 0 < b).
Implicit Types (data shards : list R) (parity : list W) (bufs : list StreamReadBuffer).
Implicit Types (C : list (list byte)).

#[local] Abbreviation d := (data_shard_count self).
#[local] Abbreviation p := (parity_shard_count self).
#[local] Abbreviation n := (total_shard_count self).
#[local] Abbreviation encoding := (parity_of (F:=gf8) M d p).

(** Every order in the schedules is one that the schedulers can produce. *)
Definition schedules_ok (readers writers : nat) : Prop := ∀ k,
  is_io_schedule (sched_reads sched k) readers ∧ is_io_schedule (sched_writes sched k) writers ∧
  ∀ len, policy_schedule (F:=gf8) self (sched_codes sched k len) len p.

(** The parity of whole streams. *)
Definition stream_parity (C : list (list byte)) : list (list byte) :=
  encoding (longest C) (padded (longest C) C).

Lemma length_stream_parity C : length (stream_parity C) = p.
Proof. apply length_tabulate. Qed.

Lemma stream_parity_nil C :
  longest C = 0 → ∀ i bytes, stream_parity C !! i = Some bytes → bytes = [].
Proof.
  intros HC i bytes Hi. unfold stream_parity in Hi. rewrite HC in Hi. unfold parity_of in Hi.
  assert (i < p) as Hlt.
  { pose proof (lookup_lt_Some _ _ _ Hi) as Hl. by rewrite length_tabulate in Hl. }
  rewrite lookup_tabulate in Hi by done. by simplify_eq.
Qed.

(** The parity of the first block, then of what follows. *)
Lemma stream_parity_block C :
  stream_parity C
  = zip_with (++) (encoding (Nat.min b (longest C)) (padded (Nat.min b (longest C)) (map (take b) C)))
      (stream_parity (map (drop b) C)).
Proof.
  unfold stream_parity. rewrite longest_drop.
  set (N := longest C). set (a := Nat.min b N).
  assert (N = (a + (N - b))%nat) as HN by lia.
  assert (∀ c, c ∈ C → length c ≤ N) as HC by (intros c Hin; by apply length_longest).
  rewrite HN at 1. rewrite parity_split. f_equal.
  - f_equal. rewrite padded_take by (done || lia). f_equal. apply map_ext_in.
    intros c Hin%list_elem_of_In. specialize (HC c Hin).
    destruct (decide (b ≤ N)); [f_equal; lia|]. rewrite !take_ge by lia. done.
  - f_equal. rewrite padded_drop by (done || lia).
    replace (N - a) with (N - b) by lia. f_equal. apply map_ext_in.
    intros c Hin%list_elem_of_In. specialize (HC c Hin).
    destruct (decide (b ≤ N)); [f_equal; lia|]. rewrite !drop_ge by lia. done.
Qed.

Lemma encode_block_ok k len C parity_bufs :
  length C = d → length parity_bufs = p → 0 < len →
  policy_schedule (F:=gf8) self (sched_codes sched k len) len p →
  encode_sep_opt (sched_codes sched k len) self (padded len C) (map (vec_resize len x00) parity_bufs)
  = Ok (encoding len (padded len C)).
Proof.
  intros HC Hpb Hlen Hs. unfold encode_sep_opt.
  destruct (classic_not_leopard (F:=gf8) self M Hc) as [-> _].
  assert (sep_layout (F:=gf8) d p len (padded len C) (map (vec_resize len x00) parity_bufs)) as Hl.
  { split_and!; [by unfold padded; rewrite length_map|by rewrite length_map|done|apply padded_layout..]. }
  rewrite (encode_sep_par_eq (F:=gf8) self M Hc).
  - exact (encode_sep_ok (F:=gf8) self M Hc len _ _ Hl).
  - intros first Hf. destruct Hl as (_ & _ & _ & Ha & _).
    destruct (padded len C) as [|x l] eqn:Hx; [done|]. injection Hf as ->.
    by rewrite (all_len_head (F:=gf8) len first l Ha).
Qed.

(** What the loop does with streams that are where they are. *)
Definition encoded_to data parity (res : list R * list W * outcome StreamError unit) : Prop :=
  match res with
  | (_, parity', Ok _) => received parity parity' (stream_parity (map contents data))
  | (_, _, Err e) => read_failure data e ∨ write_failure parity d e
  | (_, _, Panic) => False
  end.

Lemma encode_stream_loop_ok par_read par_write (Hs : schedules_ok d p) :
  ∀ fuel k data bufs parity parity_bufs,
  length data = d → length bufs = d → length parity = p → length parity_bufs = p →
  sum_list (map read_budget data) < fuel →
  encoded_to data parity
    (encode_stream_loop sched self b par_read par_write fuel k data bufs parity parity_bufs).
Proof.
  induction fuel as [|fuel IH]; intros k data bufs parity parity_bufs Hd Hbu Hp Hpb Hfuel; [lia|].
  destruct (Hs k) as (Hsr & Hsw & Hsc). simpl.
  pose proof (read_block_ok (sched_reads sched k) data bufs b par_read) as Hread.
  destruct (read_block_with_mode _ data bufs b par_read) as [[data' bufs'] [[eof len]|e|]].
  2:{ left. apply Hread; congruence. }
  2:{ apply Hread; congruence. }
  destruct Hread as (Hlen & -> & Hadv & Hrl & Href); [congruence..|].
  rewrite available_longest in Hlen.
  pose proof (advanced_contents b data data' Hadv) as Hcont.
  pose proof (budget_sum b data data' Hadv) as Hbud. rewrite available_longest, <- Hlen in Hbud.
  case_bool_decide as Heof.
  { apply received_nil, stream_parity_nil. lia. }
  rewrite decide_False in Hbud by done. rewrite Href. cbn [obind].
  replace (map (λ r, vec_resize len x00 (take b (contents r))) data)
    with (padded len (map (take b) (map contents data))) by (unfold padded; by rewrite !map_map).
  rewrite encode_block_ok by (rewrite ?length_map; auto || lia). cbn [map_err].
  set (block := encoding len _ : list (list byte)).
  assert (length block = p) as Hblock by apply length_tabulate.
  pose proof (write_block_ok (sched_writes sched k) parity block len d par_write) as Hwrite.
  assert (∀ s, s ∈ block → length s = len) as Hbl.
  { apply Forall_forall. apply (all_len_tabulate (F:=gf8)). }
  destruct (write_block_with_mode _ parity block len d par_write) as [parity' [[]|e|]].
  2:{ right. apply Hwrite; [congruence|intros s ?%Hbl; lia|congruence]. }
  2:{ apply Hwrite; [congruence|intros s ?%Hbl; lia|congruence]. }
  destruct Hwrite as [Hp' Hw]; [congruence|intros s ?%Hbl; lia|congruence|].
  assert (received parity parity' block) as Hrec.
  { split; [done|]. intros i w s Hi Hsi. destruct (Hw i w s Hi Hsi) as (w' & Hw' & Hext).
    exists w'. split; [done|]. rewrite take_ge in Hext; [done|].
    rewrite (Hbl s); [done|]. by eapply list_elem_of_lookup_2. }
  assert (length data' = d) as Hd' by (by rewrite <- (Forall2_length _ _ _ Hadv)).
  assert (length bufs' = d) as Hbu'.
  { rewrite <- (length_map read_len bufs'), Hrl, length_map. done. }
  specialize (IH (S k) data' bufs' parity' block Hd' Hbu' ltac:(congruence) Hblock ltac:(lia)).
  unfold encoded_to in IH |- *.
  destruct (encode_stream_loop _ _ _ _ _ fuel _ _ _ _ _) as [[data'' parity''] [[]|e|]]; [| |done].
  - rewrite Hcont in IH. rewrite stream_parity_block, <- Hlen.
    apply received_app with parity'; [done..|].
    rewrite length_stream_parity. exact Hblock.
  - destruct IH as [IH|IH]; [left; by eapply advanced_failure|right].
    eapply received_failure; [done| |done]. lia.
Qed.

(** The errors of [validate_stream_count]. *)
Definition count_error (actual expected : nat) (e : StreamError) : Prop :=
  (actual < expected ∧ e = stream_codec 0 TooFewShards) ∨
  (expected < actual ∧ e = stream_codec 0 TooManyShards).

Lemma stream_count_cases actual expected :
  match validate_stream_count actual expected with
  | Ok _ => actual = expected
  | Err e => count_error actual expected e
  | Panic => False
  end.
Proof.
  unfold validate_stream_count, count_error. destruct (Nat.compare_spec actual expected); auto.
Qed.

(** ** The verification loop *)

(** The streams have one length, and are a codeword unless they are empty. *)
Definition valid_streams (C : list (list byte)) : Prop :=
  ∃ N, all_len N C ∧ (N = 0 ∨ codeword (F:=gf8) M d n N C).

(** A block of streams that all bring [a] bytes. *)
Lemma valid_streams_block a C :
  a ≠ 0 → length C = n → 0 < n → (∀ c, c ∈ C → Nat.min b (length c) = a) →
  valid_streams C ↔
  codeword (F:=gf8) M d n a (map (take b) C) ∧ valid_streams (map (drop b) C).
Proof.
  intros Ha HC Hn Hblock.
  assert (∀ c, c ∈ C → take b c = take a c ∧ drop b c = drop a c) as Hcut.
  { intros c Hin. specialize (Hblock c Hin). destruct (decide (b ≤ length c)).
    - by replace b with a by lia.
    - split; [by rewrite !take_ge by lia|by rewrite !drop_ge by lia]. }
  assert (map (take b) C = map (take a) C ∧ map (drop b) C = map (drop a) C) as [-> ->].
  { split; apply map_ext_in; intros c Hin%list_elem_of_In; by apply Hcut. }
  assert (∃ c, c ∈ C) as [c0 Hc0].
  { destruct C as [|c C]; [simpl in HC; lia|]. exists c. left. }
  split.
  - intros (N & Hall & HN). rewrite all_len_elem in Hall.
    pose proof (Hall c0 Hc0) as HlN. pose proof (Hblock c0 Hc0) as Hl0.
    destruct HN as [->|Hcw]; [lia|].
    assert (N = (a + (N - a))%nat) as HN by lia.
    assert (all_len (a + (N - a)) C) as Hall' by (rewrite <- HN; by apply Forall_forall).
    rewrite HN in Hcw. apply (codeword_block self M) in Hcw as [Hblk Hrest]; [|lia|done..].
    split; [done|]. exists (N - a). split; [|done]. apply Forall_forall.
    intros c Hin. apply list_elem_of_fmap in Hin as (x & -> & Hx).
    rewrite length_drop, (Hall x Hx). lia.
  - intros [Hblk (m & Hall & Hm)]. rewrite all_len_elem in Hall.
    assert (all_len (a + m) C) as Hlen.
    { apply Forall_forall. intros c Hin.
      pose proof (Hall (drop a c) ltac:(by apply list_elem_of_fmap_2)) as Hl.
      rewrite length_drop in Hl. specialize (Hblock c Hin). lia. }
    exists (a + m)%nat. split; [done|]. right. by apply (codeword_block self M); [lia|..].
Qed.

Lemma verify_block_ok k len C (vbufs : list (list byte)) :
  whole_layout (F:=gf8) n len C → length vbufs = p →
  policy_schedule (F:=gf8) self (sched_codes sched k len) len p →
  ∃ valid vbufs', verify_with_buffer_opt (sched_codes sched k len) self C
      (map (vec_resize len x00) vbufs) = Ok (valid, vbufs') ∧
    length vbufs' = p ∧ (valid = true ↔ codeword (F:=gf8) M d n len C).
Proof.
  intros Hl Hbufs Hs. unfold verify_with_buffer_opt.
  destruct (classic_not_leopard (F:=gf8) self M Hc) as [-> _].
  rewrite (total_count (F:=gf8) self) in Hl |- *.
  rewrite (verify_with_buffer_par_ok (F:=gf8) self M Hc _ len C); [|done| | |done].
  - eexists _, _. split; [done|]. split; [apply length_tabulate|].
    by apply (verdict_codeword (F:=gf8)).
  - by rewrite length_map.
  - exact (padded_layout len vbufs).
Qed.

(** A stream that ends before another. *)
Definition short_stream shards (e : StreamError) : Prop :=
  ∃ bad r i r', shards !! bad = Some r ∧ shards !! i = Some r' ∧
    length (contents r) < length (contents r') ∧ e = stream_codec bad IncorrectShardSize.

Lemma short_stream_block shards shards' e :
  Forall2 (advanced b) shards shards' → short_stream shards' e → short_stream shards e.
Proof.
  intros Hadv (bad & r & i & r' & Hr & Hr' & Hlt & ->).
  destruct (Forall2_lookup_r _ _ _ _ _ Hadv Hr) as (x & Hx & Hcx & _).
  destruct (Forall2_lookup_r _ _ _ _ _ Hadv Hr') as (y & Hy & Hcy & _).
  exists bad, x, i, y. split_and!; try done.
  rewrite Hcx, Hcy, !length_drop in Hlt. lia.
Qed.

Definition verified_as shards (res : list R * outcome StreamError bool) : Prop :=
  match res with
  | (_, Ok valid) => valid = true ↔ valid_streams (map contents shards)
  | (_, Err e) => read_failure shards e ∨ short_stream shards e
  | (_, Panic) => False
  end.

Lemma verify_stream_loop_ok par_read (writers : nat) (Hs : schedules_ok n writers) :
  ∀ fuel k shards bufs verify_bufs,
  length shards = n → length bufs = n → length verify_bufs = p →
  sum_list (map read_budget shards) < fuel →
  verified_as shards (verify_stream_loop sched self b par_read fuel k shards bufs verify_bufs).
Proof.
  induction fuel as [|fuel IH]; intros k shards bufs vbufs Hd Hbu Hvb Hfuel; [lia|].
  assert (0 < n) as Hn.
  { rewrite (total_count (F:=gf8) self). pose proof (cc_data _ _ Hc). lia. }
  destruct (Hs k) as (Hsr & _ & Hsc). simpl.
  pose proof (read_block_ok (sched_reads sched k) shards bufs b par_read) as Hread.
  destruct (read_block_with_mode _ shards bufs b par_read) as [[shards' bufs'] [[eof len]|e|]].
  2:{ left. apply Hread; congruence. }
  2:{ apply Hread; congruence. }
  destruct Hread as (Hlen & -> & Hadv & Hrl & Href); [congruence..|].
  pose proof (advanced_contents b shards shards' Hadv) as Hcont.
  pose proof (budget_sum b shards shards' Hadv) as Hbud. rewrite <- Hlen in Hbud.
  assert (∀ r, r ∈ shards → available b r ≤ len) as Hmax.
  { intros r Hr. rewrite Hlen. apply elem_max_list. by apply list_elem_of_fmap_2. }
  case_bool_decide as Heof.
  { simpl. split; [|done]. intros _. exists 0. split; [|by left]. apply Forall_forall.
    intros c (r & -> & Hr)%list_elem_of_fmap. specialize (Hmax r Hr). unfold available in Hmax. lia. }
  rewrite decide_False in Hbud by done.
  assert (∀ i buf, bufs' !! i = Some buf → ∃ r, shards !! i = Some r ∧ read_len buf = available b r)
    as Hbuf.
  { intros i buf Hi. assert (map read_len bufs' !! i = Some (read_len buf)) as Hri
      by (by rewrite lookup_map, Hi). rewrite Hrl, lookup_map in Hri.
    destruct (shards !! i) as [r|]; [|done]. exists r. by simplify_eq/=. }
  assert (length bufs' = n) as Hbu' by (by rewrite <- (length_map read_len bufs'), Hrl, length_map).
  destruct (find_position _ bufs') as [bad|] eqn:Hbad.
  { right. apply find_position_some in Hbad as (buf & Hi & Hne%bool_decide_eq_true).
    destruct (Hbuf bad buf Hi) as (r & Hr & Hrlen).
    pose proof (Hmax r ltac:(by eapply list_elem_of_lookup_2)) as Hle.
    assert (len ∈ map (available b) shards) as (r' & Hr' & Hin)%list_elem_of_fmap.
    { rewrite Hlen. apply max_list_elem. by rewrite <- Hlen. }
    apply list_elem_of_lookup in Hin as [i Hi'].
    exists bad, r, i, r'. split_and!; try done. rewrite Hrlen in Hne. unfold available in *. lia. }
  assert (∀ c, c ∈ map contents shards → Nat.min b (length c) = len) as Hall.
  { intros c (r & -> & Hr)%list_elem_of_fmap. apply list_elem_of_lookup in Hr as [i Hi].
    destruct (lookup_lt_is_Some_2 bufs' i) as [buf Hb'].
    { rewrite Hbu', <- Hd. by eapply lookup_lt_Some. }
    destruct (Hbuf i buf Hb') as (r' & Hr' & Hl). simplify_eq.
    pose proof (find_position_none _ _ i buf Hbad Hb') as Hz%bool_decide_eq_false.
    apply dec_stable in Hz. unfold available in Hl. congruence. }
  rewrite Href. cbn [obind].
  assert (map (λ r, vec_resize len x00 (take b (contents r))) shards
          = map (take b) (map contents shards)) as ->.
  { rewrite map_map. apply map_ext_in. intros r Hr%list_elem_of_In.
    specialize (Hall (contents r) ltac:(by apply list_elem_of_fmap_2)).
    unfold vec_resize. rewrite take_ge by (rewrite length_take; lia).
    rewrite length_take. replace (len - _) with 0 by lia. apply app_nil_r. }
  destruct (verify_block_ok k len (map (take b) (map contents shards)) vbufs)
    as (valid & vbufs' & -> & Hvb' & Hvalid); [|done|done|].
  { split_and!; [by rewrite !length_map|lia|]. apply Forall_forall.
    intros c (x & -> & Hx)%list_elem_of_fmap. rewrite length_take. by apply Hall. }
  cbn [map_err].
  pose proof (valid_streams_block len (map contents shards) Heof
    ltac:(by rewrite length_map) Hn Hall) as Hsplit.
  destruct valid; cbn [negb].
  2:{ simpl. rewrite Hsplit. split; [done|]. intros [Hcw _]. by apply Hvalid. }
  assert (length shards' = n) as Hd' by (by rewrite <- (Forall2_length _ _ _ Hadv)).
  specialize (IH (S k) shards' bufs' vbufs' Hd' Hbu' Hvb' ltac:(lia)).
  unfold verified_as in IH |- *.
  destruct (verify_stream_loop _ _ _ _ fuel _ _ _ _) as [shards'' [valid|e|]]; [| |done].
  - rewrite IH, Hcont, Hsplit. split; [|tauto]. intros ?. split; [by apply Hvalid|done].
  - destruct IH as [IH|IH]; [left; by eapply advanced_failure|right; by eapply short_stream_block].
Qed.
End classic.

(** ** Properties *)
Section properties.
Context {RT : Runtime} {St : Storage byte} {L : LruCache (list nat) (CachedMatrix byte)}.
Context {LE : LeopardEncoders}.
Context {R W : Type} `{ReadLaws R} `{WriteLaws W}.
Implicit Types (self : @ReedSolomon gf8 L) (M : nat → nat → byte).
Implicit Types (data shards : list R) (parity : list W).

Lemma block_len_pos options : 0 < block_len_of options.
Proof.
  unfold block_len_of, clamp_block_size, MIN_BLOCK_SIZE_BYTES, MAX_BLOCK_SIZE_BYTES. lia.
Qed.

Lemma not_leopard_codec self M : classic_codec (F:=gf8) self M → is_leopard_codec self = false.
Proof.
  intros Hc. unfold is_leopard_codec.
  by destruct (classic_not_leopard (F:=gf8) self M Hc) as [-> ->].
Qed.

(** C16: streaming encoding on a Classic codec ends without a panic, for
    any readers and writers, block size, mode and schedules.  If it returns [Ok], every
    parity writer has been given exactly its parity shard of the whole data streams,
    shorter streams padded with zeros to the longest.  An error is a wrong
    number of streams, or a fault of the named reader or writer; so sound streams in the
    right numbers are encoded. *)
Theorem encode_stream_correct (sched : StreamSchedules) self M data parity options
    (Hc : classic_codec (F:=gf8) self M)
    (Hs : schedules_ok self sched (data_shard_count self) (parity_shard_count self)) :
  match encode_stream sched self data parity options with
  | (_, parity', Ok _) =>
      length data = data_shard_count self ∧ length parity = parity_shard_count self ∧
      let C := map contents data in
      received parity parity'
        (parity_of (F:=gf8) M (data_shard_count self) (parity_shard_count self) (longest C)
           (padded (longest C) C))
  | (_, _, Err e) =>
      count_error (length data) (data_shard_count self) e ∨
      count_error (length parity) (parity_shard_count self) e ∨
      read_failure data e ∨ write_failure parity (data_shard_count self) e
  | (_, _, Panic) => False
  end.
Proof.
  unfold encode_stream. rewrite (not_leopard_codec self M Hc).
  pose proof (stream_count_cases (length data) (data_shard_count self)) as Hd.
  destruct (validate_stream_count (length data) _) as [[]|e|]; cbn [obind]; [|by left|done].
  pose proof (stream_count_cases (length parity) (parity_shard_count self)) as Hp.
  destruct (validate_stream_count (length parity) _) as [[]|e|]; [|by right; left|done].
  pose proof (encode_stream_loop_ok self M Hc sched (block_len_of options) (block_len_pos options)
    (use_parallel_stream_io options (data_shard_count self))
    (use_parallel_stream_io options (parity_shard_count self)) Hs
    (S (sum_list (map read_budget data))) 0 data (replicate (data_shard_count self) buffer_new)
    parity (replicate (parity_shard_count self) []) Hd (length_replicate _ _) Hp
    (length_replicate _ _) ltac:(lia)) as Hloop.
  destruct (encode_stream_loop _ _ _ _ _ _ _ _ _ _ _) as [[data' parity'] [[]|e|]]; [|by auto|done].
  done.
Qed.

(** C23: streaming verification on a Classic codec ends without a panic,
    for any readers, block size, mode and schedules.  An answer is [true] exactly if
    the whole streams have one length and, unless they are empty, are a codeword; an
    error is a wrong number of streams, a fault of the named reader, or
    [IncorrectShardSize] with the index of a stream shorter than another. *)
Theorem verify_stream_correct (sched : StreamSchedules) self M shards options (writers : nat)
    (Hc : classic_codec (F:=gf8) self M)
    (Hs : schedules_ok self sched (total_shard_count self) writers) :
  match verify_stream sched self shards options with
  | (_, Ok valid) => length shards = total_shard_count self ∧
      (valid = true ↔ valid_streams self M (map contents shards))
  | (_, Err e) => count_error (length shards) (total_shard_count self) e ∨
      read_failure shards e ∨ short_stream shards e
  | (_, Panic) => False
  end.
Proof.
  unfold verify_stream. rewrite (not_leopard_codec self M Hc).
  pose proof (stream_count_cases (length shards) (total_shard_count self)) as Hd.
  destruct (validate_stream_count (length shards) _) as [[]|e|]; [|by left|done].
  pose proof (verify_stream_loop_ok self M Hc sched (block_len_of options)
    (block_len_pos options) (use_parallel_stream_io options (total_shard_count self)) writers Hs
    (S (sum_list (map read_budget shards))) 0 shards
    (replicate (total_shard_count self) buffer_new) (replicate (parity_shard_count self) [])
    Hd (length_replicate _ _) (length_replicate _ _) ltac:(lia)) as Hloop.
  destruct (verify_stream_loop _ _ _ _ _ _ _ _ _) as [shards' [valid|e|]]; [done|by auto|done].
Qed.
End properties.
