(* ===== verification/StreamPlan.v ===== *)
(** * The plan of a streamed reconstruction ([src/core/stream.rs], lines 554-641)

    [StreamReconstructPlan]: one decode plan, prepared for the first block and used for
    every block of the streams.  [reconstruct_block] moves the missing data buffers out,
    computes them from the surviving buffers, moves them back, and then computes
    the missing parity from the complete data.

    [F] stands for the field of [galois_8].  The theorems of this file: a plan makes each
    block a codeword, whatever the block's length, and a plan exists exactly
    if the first survivors determine the message. *)

From Stdlib Require Import NArith Lia List Bool Sorted.
From stdpp Require Import base numbers list.
From S2P Require Import Prelude Errors Fields LinAlg Matrix Options Leopard InversionCache.
From S2P Require Import Parallel Checks Codec Coding Encode Verify Shards Format DecodeMatrix.
From S2P Require Import RecoveryPlan Execute LeopardReconstruct Reconstruct OptionVec.

Local Open Scope field_scope.

Section stream_plan.
Context {F : Field} {RT : Runtime} {St : Storage Elem}
  {L : LruCache (list nat) (CachedMatrix Elem)}.
Implicit Types (self : ReedSolomon) (buffers : list (list Elem)) (missing : list nat).

(** The lengths of one block: missing shards have none. *)
Fixpoint plan_lengths (indices missing : list nat) (shard_len : nat) : list (option nat) :=
  match indices with
  | [] => []
  | index :: indices =>
      if decide (head missing = Some index)
      then None :: plan_lengths indices (tail missing) shard_len
      else Some shard_len :: plan_lengths indices missing shard_len
  end.

(** [StreamReconstructPlan::new]; the codec's cache may change. *)
Definition stream_plan_new self missing (shard_len : nat)
  : ReedSolomon * outcome Error ClassicReconstructPlan :=
  match
    classic_reconstruct_shape self
      (plan_lengths (seq 0 (total_shard_count self)) missing shard_len)
  with
  | Ok shape => prepare_classic_reconstruct_plan self shape GoalAll
  | Err e => (self, Err e)
  | Panic => (self, Panic)
  end.

(** [data_outputs.push(core::mem::take(&mut buffers[index]))] *)
Definition take_outputs (targets : list nat) buffers
  : outcome Error (list (list Elem) * list (list Elem)) :=
  for_each targets (λ i '(buffers, outputs),
    let! buf := index buffers i in
    let! buffers := update buffers i [] in
    Ok (buffers, outputs ++ [buf])) (buffers, []).

(** [buffers[index] = output] *)
Definition restore_outputs (targets : list nat) (outputs : list (list Elem)) buffers
  : outcome Error (list (list Elem)) :=
  for_each (zip targets outputs) (λ '(i, output) buffers, update buffers i output) buffers.

Definition reconstruct_block self (plan : ClassicReconstructPlan)
    (data_rows parity_rows : ClassicReconstructRows) buffers
    : outcome Error (list (list Elem)) :=
  let! data := data_targets plan in
  let! parity := parity_targets plan in
  let! buffers :=
    if bool_decide (data ≠ []) then
      let! ' (buffers, outputs) := take_outputs data buffers in
      let! outputs := code_selected_inputs (data_shard_count self) (rows_of_view data_rows)
        buffers (valid_indices (plan_shape plan)) outputs in
      restore_outputs data outputs buffers
    else Ok buffers in
  if bool_decide (parity ≠ []) then
    let! ' (data_bufs, parity_bufs) := split_at buffers (data_shard_count self) in
    let! parity_bufs := code_selected_slices (data_shard_count self) (rows_of_view parity_rows)
      data_bufs parity_bufs parity (data_shard_count self) in
    Ok (data_bufs ++ parity_bufs)
  else Ok buffers.

(** [buffers[idx].resize(len, 0)] for the missing shards. *)
Definition resize_missing missing (len : nat) buffers : outcome Error (list (list Elem)) :=
  for_each missing (λ i buffers,
    let! buf := index buffers i in update buffers i (vec_resize len 0 buf)) buffers.
End stream_plan.

(** ** Lists changed at some indices *)
Section targets.
Context {A : Type}.
Implicit Types (ts : list nat) (l : list A).

(** The list with [f i] at the indices of [ts]. *)
Definition changed ts (f : nat → A) l : list A :=
  imap (λ i s, if decide (i ∈ ts) then f i else s) l.

Lemma lookup_changed ts f l i :
  changed ts f l !! i = (λ s, if decide (i ∈ ts) then f i else s) <$> l !! i.
Proof. apply list_lookup_imap. Qed.

Lemma length_changed ts f l : length (changed ts f l) = length l.
Proof. apply length_imap. Qed.

Lemma changed_nil f l : changed [] f l = l.
Proof. apply list_eq. intros i. rewrite lookup_changed. by destruct (l !! i). Qed.

Lemma changed_snoc ts t f g l :
  t < length l → (∀ i, i ∈ ts → f i = g i) →
  <[t := g t]> (changed ts f l) = changed (ts ++ [t]) g l.
Proof.
  intros Ht Hfg. apply list_eq. intros i. rewrite lookup_changed.
  destruct (decide (i = t)) as [->|Hne].
  - rewrite list_lookup_insert_eq by (by rewrite length_changed).
    destruct (lookup_lt_is_Some_2 l t Ht) as [x ->]. simpl.
    rewrite decide_True; [done|]. apply elem_of_app. right. left.
  - rewrite list_lookup_insert_ne, lookup_changed by done.
    destruct (l !! i) as [x|]; [|done]. simpl. f_equal.
    destruct (decide (i ∈ ts)) as [Hi|Hi].
    + rewrite decide_True by (apply elem_of_app; by left). by apply Hfg.
    + rewrite decide_False; [done|]. rewrite elem_of_app, list_elem_of_singleton. tauto.
Qed.

(** A loop that sets each index of [ts] once. *)
Lemma change_loop {E} (body : nat → list A → outcome E (list A)) ts f l :
  NoDup ts → (∀ i, i ∈ ts → i < length l) →
  (∀ i l', i ∈ ts → length l' = length l → l' !! i = l !! i → body i l' = Ok (<[i := f i]> l')) →
  for_each ts body l = Ok (changed ts f l).
Proof.
  intros Hnd Hts Hbody. apply ensures_exact.
  eapply (for_each_post ts body (λ k l', l' = changed (take k ts) f l)).
  - by rewrite take_0, changed_nil.
  - intros k i l' Hi ->. pose proof (list_elem_of_lookup_2 _ _ _ Hi) as Hin.
    rewrite Hbody; [|done|apply length_changed|].
    + simpl. rewrite changed_snoc by (auto; by apply Hts). f_equal.
      by rewrite (take_S_r _ _ _ Hi).
    + rewrite lookup_changed. destruct (l !! i) as [x|]; [|done]. simpl.
      rewrite decide_False; [done|]. intros [j [Hj Hjk]]%elem_of_take.
      rewrite (NoDup_lookup ts j k i Hnd Hj Hi) in Hjk. lia.
  - intros l' ->. by rewrite firstn_all.
Qed.
End targets.

Section moves.
Context {F : Field} {RT : Runtime} {St : Storage Elem}
  {L : LruCache (list nat) (CachedMatrix Elem)}.
Implicit Types (buffers : list (list Elem)) (ts : list nat).

Definition buffer_at buffers (i : nat) : list Elem := default [] (buffers !! i).

Lemma take_outputs_ok ts buffers :
  NoDup ts → (∀ i, i ∈ ts → i < length buffers) →
  take_outputs ts buffers
  = Ok (changed ts (λ _, []) buffers, map (buffer_at buffers) ts).
Proof.
  intros Hnd Hts. apply ensures_exact. unfold take_outputs.
  eapply (for_each_post ts _ (λ k '(bufs, outs), bufs = changed (take k ts) (λ _, []) buffers ∧
    outs = map (buffer_at buffers) (take k ts))).
  - by rewrite take_0, changed_nil.
  - intros k i [bufs outs] Hi [-> ->]. pose proof (list_elem_of_lookup_2 _ _ _ Hi) as Hin.
    destruct (lookup_lt_is_Some_2 buffers i (Hts i Hin)) as [x Hx].
    assert (changed (take k ts) (λ _, []) buffers !! i = Some x) as Hlook.
    { rewrite lookup_changed, Hx. simpl.
      rewrite decide_False; [done|]. intros [j [Hj Hjk]]%elem_of_take.
      rewrite (NoDup_lookup ts j k i Hnd Hj Hi) in Hjk. lia. }
    rewrite (index_ok _ _ _ Hlook). cbn [obind].
    rewrite update_ok by (rewrite length_changed; by apply Hts). cbn [obind ensures].
    change (1 + k)%nat with (Datatypes.S k). rewrite (take_S_r _ _ _ Hi), map_app. split.
    + by apply (changed_snoc (take k ts) i (λ _, []) (λ _, [])); [apply Hts|].
    + f_equal. unfold buffer_at. simpl. by rewrite Hx.
  - intros [bufs outs] [-> ->]. by rewrite firstn_all.
Qed.

Lemma restore_outputs_ok ts f buffers :
  NoDup ts → (∀ i, i ∈ ts → i < length buffers) →
  restore_outputs ts (map f ts) buffers = Ok (changed ts f buffers).
Proof.
  intros Hnd Hts. unfold restore_outputs.
  assert (zip ts (map f ts) = map (λ i, (i, f i)) ts) as ->
    by (clear; induction ts; simpl; congruence).
  rewrite for_each_map. apply change_loop; [done..|].
  intros i l' Hi Hl _. by rewrite update_ok by (rewrite Hl; by apply Hts).
Qed.

Lemma resize_missing_ok ts len buffers :
  NoDup ts → (∀ i, i ∈ ts → i < length buffers) →
  resize_missing ts len buffers
  = Ok (changed ts (λ i, vec_resize len 0 (buffer_at buffers i)) buffers).
Proof.
  intros Hnd Hts. apply change_loop; [done..|]. intros i l' Hi Hl Hsame.
  destruct (lookup_lt_is_Some_2 buffers i (Hts i Hi)) as [x Hx].
  rewrite (index_ok l' i x) by congruence. cbn [obind].
  rewrite update_ok by (rewrite Hl; by apply Hts). unfold buffer_at. by rewrite Hx.
Qed.
End moves.

(** ** One block *)
Section block.
Context {F : Field} {FL : FieldLaws F} {RT : Runtime} {St : Storage Elem}
  {L : LruCache (list nat) (CachedMatrix Elem)}.
Context (self : ReedSolomon) (M : nat → nat → Elem) (len : nat) (cw : list (list Elem)).
#[local] Abbreviation d := (data_shard_count self).
#[local] Abbreviation n := (total_shard_count self).
Context (Hsys : systematic d M) (Hd : 0 < d) (Hcw : codeword M d n len cw).
Context (present : nat → bool).
Implicit Types (buffers : list (list Elem)).

#[local] Abbreviation V := (valid_of n d present).
Context (Henough : length V = d).
Context (plan : ClassicReconstructPlan) (DT PT : list nat).
Context (Hplan : plan_for self M present len DT PT plan) (Hdn : d ≤ n).
Context (Hdirect : direct_parity plan = false).

(** Coding any selection of outputs computes the shards of their targets. *)
Lemma coded_targets rows inputs outputs base ts targets (y : nat → nat → Elem) :
  inputs_len inputs = d →
  (∀ a, a < d → inputs_get (E:=Error) inputs a = Ok (tabulate len (y a))) →
  output_targets (E:=Error) outputs (length base) = Ok ts → NoDup ts →
  (∀ t, t ∈ ts → ∃ s, base !! t = Some s ∧ length s = len) → length targets = length ts →
  (∀ k i, targets !! k = Some i → ∃ c, rows_row rows k = Ok (tabulate d c) ∧
     shard_at cw i = tabulate len (λ j, bsum d (λ a, c a * y a j))) →
  ∃ out, code_some_slices_with_outputs d rows inputs outputs base = Ok out ∧
    length out = length base ∧
    (∀ k t i, ts !! k = Some t → targets !! k = Some i → out !! t = Some (shard_at cw i)) ∧
    ∀ t, t ∉ ts → out !! t = base !! t.
Proof.
  intros Hin Hget Hts Hnd Hbase Hlen Hrows.
  assert (0 < len) as Hpos by apply Hcw.
  set (c := λ k a, match rows_row rows k with Ok row => default 0 (row !! a) | _ => 0 end).
  set (h := λ k j, default 0 (ts !! k ≫= λ t, base !! t ≫= (.!! j))).
  assert (∀ k, k < length ts → ∃ i c', targets !! k = Some i ∧
    rows_row rows k = Ok (tabulate d c') ∧ (∀ a, a < d → c k a = c' a) ∧
    shard_at cw i = tabulate len (λ j, bsum d (λ a, c' a * y a j))) as Hrow.
  { intros k Hk. destruct (lookup_lt_is_Some_2 targets k) as [i Hi]; [lia|].
    destruct (Hrows k i Hi) as (c' & Hc & Hat). exists i, c'. split_and!; try done.
    intros a Ha. unfold c. by rewrite Hc, lookup_tabulate by done. }
  pose proof (code_ensures ts len d c y h rows inputs outputs base Hd Hpos) as Hcode.
  apply ensures_noerr in Hcode as (out & Hout & Hlo & Hot & Hrest).
  - exists out. split_and!; try done. intros k t i Hk Hi. rewrite (Hot k t Hk). f_equal.
    destruct (Hrow k) as (i' & c' & Hi' & _ & Hcc & Hat); [by eapply lookup_lt_Some|].
    simplify_eq. rewrite Hat. apply tabulate_ext. intros j _. apply bsum_ext. intros a Ha.
    by rewrite Hcc.
  - intros k Hk. destruct (Hrow k Hk) as (i & c' & _ & Hc & Hcc & _). rewrite Hc. f_equal.
    apply tabulate_ext. intros a Ha. by rewrite Hcc.
  - done.
  - done.
  - done.
  - done.
  - intros t Ht. destruct (Hbase t Ht) as (s & Hs & _). by eapply lookup_lt_Some.
  - split_and!; [done| |done]. intros k t Hk.
    destruct (Hbase t) as (s & Hs & Hsl); [by eapply list_elem_of_lookup_2|].
    rewrite Hs. f_equal. apply eq_tabulate; [done|]. intros j Hj. unfold h. rewrite Hk. simpl.
    rewrite Hs. simpl. destruct (lookup_lt_is_Some_2 s j) as [e ->]; [lia|done].
Qed.

#[local] Abbreviation view := (λ s l, mk_view plan (format_matrix (rs_format self)) s l).

(** A block whose survivors are those of [cw], with room at the targets, becomes [cw] there. *)
Lemma reconstruct_block_ok buffers :
  length buffers = n → (∀ i, i ∈ V → buffers !! i = Some (shard_at cw i)) →
  (∀ i, i ∈ DT ++ PT → ∃ s, buffers !! i = Some s ∧ length s = len) →
  (PT ≠ [] → ∀ i, i < d → (i ∉ DT) → i ∈ V) →
  reconstruct_block self plan (view 0%nat (length DT)) (view (length DT) (length PT)) buffers
  = Ok (changed (DT ++ PT) (shard_at cw) buffers).
Proof.
  intros Hl HV Hroom Hdata.
  destruct (pf_sorted _ _ _ _ _ _ _ Hplan) as [HDT HPT].
  assert (NoDup DT) as Hnd.
  { rewrite <- (map_id DT). by apply (sorted_nodup _ (λ x, x)). }
  assert (∀ i, i ∈ DT ++ PT → i < length buffers) as Hin.
  { intros i Hi. destruct (Hroom i Hi) as (s & Hs & _). by eapply lookup_lt_Some. }
  assert (∀ i, i ∈ DT → i < length buffers) as HinD
    by (intros i Hi; apply Hin, elem_of_app; by left).
  unfold reconstruct_block. rewrite (pf_data _ _ _ _ _ _ _ Hplan), (pf_parity _ _ _ _ _ _ _ Hplan).
  cbn [obind]. rewrite (pf_valid _ _ _ _ _ _ _ Hplan).
  set (stage := if bool_decide (DT ≠ []) then _ else _).
  assert (stage = Ok (changed DT (shard_at cw) buffers)) as ->.
  { unfold stage. clear stage. case_bool_decide as Hne.
    2:{ destruct DT; [by rewrite changed_nil|done]. }
    rewrite take_outputs_ok by done. cbn [obind].
    destruct (coded_targets (rows_of_view (view 0%nat (length DT)))
      (SelectedInputs (changed DT (λ _, []) buffers) V) SliceOutputs
      (map (buffer_at buffers) DT) (seq 0 (length DT)) DT
      (survivor_value self M cw present)) as (out & Hout & Hlo & Hot & _).
    - done.
    - intros a Ha. simpl. destruct (lookup_lt_is_Some_2 V a) as [i Hi]; [lia|].
      pose proof (list_elem_of_lookup_2 _ _ _ Hi) as HiV.
      rewrite (index_ok _ _ _ Hi). cbn [obind].
      rewrite (index_ok _ _ (shard_at cw i)).
      + f_equal. pose proof (survivor_inputs self M len cw Hd Hcw present Henough) as Hs.
        apply (f_equal (.!! a)) in Hs. rewrite lookup_map, Hi, lookup_tabulate in Hs by done.
        by injection Hs.
      + rewrite lookup_changed, (HV i HiV). simpl. rewrite decide_False; [done|].
        by apply (target_facts self M len Hd present Henough plan DT PT Hplan).
    - by rewrite length_map.
    - apply NoDup_seq.
    - intros t [_ Ht]%elem_of_seq. destruct (lookup_lt_is_Some_2 DT t) as [i Hi]; [lia|].
      exists (buffer_at buffers i). rewrite lookup_map, Hi. split; [done|].
      destruct (Hroom i) as (s & Hs & Hsl).
      { apply elem_of_app. left. by eapply list_elem_of_lookup_2. }
      unfold buffer_at. by rewrite Hs.
    - by rewrite length_seq.
    - intros k i Hi. by apply (data_view_rows self M len cw Hsys Hd Hcw present Henough plan DT PT).
    - unfold code_selected_inputs. rewrite Hout. cbn [obind].
      assert (out = map (shard_at cw) DT) as ->.
      { apply list_ext_lt; [by rewrite Hlo, !length_map|]. rewrite Hlo, length_map. intros k Hk.
        destruct (lookup_lt_is_Some_2 DT k Hk) as [i Hi]. rewrite lookup_map, Hi.
        apply (Hot k k i); [|done]. by apply lookup_seq. }
      rewrite restore_outputs_ok by (rewrite ?length_changed; done). f_equal.
      apply list_eq. intros i. rewrite !lookup_changed. destruct (buffers !! i); [|done].
      simpl. by case_decide. }
  cbn [obind]. case_bool_decide as Hne.
  2:{ destruct PT; [by rewrite app_nil_r|done]. }
  set (bufs := changed DT (shard_at cw) buffers).
  assert (length bufs = n) as Hlb by (unfold bufs; by rewrite length_changed).
  unfold split_at. rewrite decide_True by lia. cbn [obind].
  assert (∀ i, i < d → bufs !! i = Some (shard_at cw i)) as Hbd.
  { intros i Hi. unfold bufs. rewrite lookup_changed.
    destruct (lookup_lt_is_Some_2 buffers i) as [s Hs]; [lia|]. rewrite Hs. simpl.
    case_decide as HiD; [done|]. rewrite <- Hs. apply HV. by apply Hdata. }
  assert (∀ i, i ∈ PT → d ≤ i ∧ i < n) as HbP.
  { intros i Hi. destruct (pf_parity_bound _ _ _ _ _ _ _ Hplan i Hi) as (? & ? & _). done. }
  destruct (coded_targets (rows_of_view (view (length DT) (length PT)))
    (SliceInputs (take d bufs)) (SelectedOutputs PT d) (drop d bufs)
    (map (λ i, i - d)%nat PT) PT (parity_value self M cw present plan)) as (out & Hout & Hlo & Hot & Hrest).
  - simpl. rewrite length_take. lia.
  - intros a Ha. simpl. rewrite (index_ok _ _ (shard_at cw a)).
    + f_equal. unfold parity_value. rewrite Hdirect.
      apply (shard_at_data self M len cw Hsys Hd Hcw present Henough a Ha Hdn).
    + by rewrite lookup_take_lt, Hbd by done.
  - simpl. rewrite length_drop. apply selected_targets_ok; [done|].
    intros i Hi. destruct (HbP i Hi). lia.
  - apply sorted_nodup; [done|]. intros x z Hx Hz Hlt. destruct (HbP x Hx), (HbP z Hz). lia.
  - intros t (i & -> & Hi)%list_elem_of_fmap. destruct (HbP i Hi) as [Hdi Hni].
    destruct (Hroom i) as (s & Hs & Hsl); [apply elem_of_app; by right|].
    exists s. split; [|done]. rewrite lookup_drop. replace (d + (i - d))%nat with i by lia.
    unfold bufs. rewrite lookup_changed, Hs. simpl. rewrite decide_False; [done|].
    intros HiD. destruct (pf_data_bound _ _ _ _ _ _ _ Hplan i HiD). lia.
  - by rewrite length_map.
  - intros k i Hi. cbn [rows_of_view rows_row]. pose proof (lookup_lt_Some _ _ _ Hi).
    rewrite (view_row_parity self M len Hd present Henough plan DT PT Hplan Hdn (length DT) _ k i k) by (done || lia).
    by apply (parity_coeff self M len cw Hd Hcw present Henough plan DT PT Hplan).
  - unfold code_selected_slices. rewrite Hout. cbn [obind]. f_equal.
    rewrite length_drop in Hlo.
    apply list_ext_lt.
    { rewrite length_app, length_take, Hlo, length_changed. lia. }
    rewrite length_app, length_take, Hlo. intros i Hi. rewrite lookup_changed.
    destruct (lookup_lt_is_Some_2 buffers i) as [s Hs]; [lia|]. rewrite Hs. simpl.
    destruct (decide (i < d)) as [Hid|Hid].
    + rewrite lookup_app_l by (rewrite length_take; lia).
      rewrite lookup_take_lt, Hbd by done. case_decide as HiT; [done|].
      rewrite <- Hs. symmetry. apply HV, Hdata; [done..|]. rewrite elem_of_app in HiT. tauto.
    + rewrite lookup_app_r, length_take by (rewrite length_take; lia).
      replace (i - Nat.min d (length bufs)) with (i - d)%nat by lia.
      destruct (decide (i ∈ PT)) as [HiP|HiP].
      * rewrite decide_True by (apply elem_of_app; by right).
        apply list_elem_of_lookup_1 in HiP as [k Hk].
        apply (Hot k); [|done]. by rewrite lookup_map, Hk.
      * rewrite Hrest.
        -- rewrite lookup_drop. replace (d + (i - d))%nat with i by lia.
           unfold bufs. rewrite lookup_changed, Hs. simpl. f_equal.
           rewrite (decide_ext (i ∈ DT) (i ∈ DT ++ PT)); [done|]. rewrite elem_of_app. tauto.
        -- intros (x & Hx & Hx')%list_elem_of_fmap. destruct (HbP x Hx').
           assert (i = x) by lia. by subst.
Qed.
End block.

(** ** The plan of a stream *)
Section shape.
Implicit Types (lens : list (option nat)).

Lemma plan_lengths_from lens a : (∀ i l, lens !! i = Some (Some l) → l = a) →
  ∀ rest k, rest = drop k lens → k ≤ length lens →
  plan_lengths (seq k (length rest))
    (filter (λ i, present_at lens i = false) (seq k (length rest))) a = rest.
Proof.
  intros Hlens. induction rest as [|x rest IH]; intros k Hrest Hk; simpl; [done|].
  assert (lens !! k = Some x) as Hx.
  { rewrite <- (Nat.add_0_r k), <- lookup_drop, <- Hrest. done. }
  assert (rest = drop (S k) lens) as Hrest'.
  { replace (S k) with (k + 1)%nat by lia. rewrite <- drop_drop, <- Hrest. done. }
  apply lookup_lt_Some in Hx as Hlt. specialize (IH (S k) Hrest' ltac:(lia)).
  rewrite filter_cons.
  assert (present_at lens k = match x with Some _ => true | None => false end) as Hp
    by (unfold present_at; by rewrite Hx).
  destruct x as [l|].
  - rewrite (decide_False (P := present_at lens k = false)) by congruence. rewrite (Hlens k l Hx). rewrite decide_False.
    + by rewrite IH.
    + intros Hhead. assert (k ∈ filter (λ i, present_at lens i = false) (seq (S k) (length rest))) as Hin.
      { destruct (filter _ _) as [|y l'] eqn:Hf; [done|]. injection Hhead as ->. left. }
      apply list_elem_of_filter in Hin as [_ [Hin _]%elem_of_seq]. lia.
  - rewrite (decide_True (P := present_at lens k = false)) by done.
    rewrite decide_True by done. cbn [tail]. by rewrite IH.
Qed.

Lemma plan_lengths_ok lens a : (∀ i l, lens !! i = Some (Some l) → l = a) →
  plan_lengths (seq 0 (length lens)) (invalid_of (length lens) (present_at lens)) a = lens.
Proof. intros Hlens. by apply plan_lengths_from; [|rewrite drop_0|lia]. Qed.
End shape.

Section plan_spec.
Context {F : Field} {FL : FieldLaws F} {RT : Runtime} {St : Storage Elem}
  {L : LruCache (list nat) (CachedMatrix Elem)} {LL : LruLaws L}.
Context (self : ReedSolomon) (M : nat → nat → Elem) (present : nat → bool).
Implicit Types (plan : ClassicReconstructPlan).
#[local] Abbreviation d := (data_shard_count self).
#[local] Abbreviation n := (total_shard_count self).
#[local] Abbreviation V := (valid_of n d present).
#[local] Abbreviation DT := (filter (λ i, present i = false) (seq 0 d)).
#[local] Abbreviation PT := (filter (λ i, present i = false) (seq d (n - d))).

(** The plan for blocks of another length. *)
Definition relen (len : nat) plan : ClassicReconstructPlan :=
  let shape := plan_shape plan in
  mk_plan (mk_shape len (number_present shape) (valid_indices shape) (invalid_indices shape))
    (selected_targets plan) (data_target_count plan) (data_only plan) (direct_parity plan)
    (decode_matrix plan) (parity_decode_rows plan).

Lemma plan_for_relen len len' DT' PT' plan :
  plan_for self M present len DT' PT' plan → plan_for self M present len' DT' PT' (relen len' plan).
Proof. intros []. by split. Qed.

(** All that a streamed reconstruction relies on. *)
Definition stream_plan_ok plan : Prop :=
  data_targets (E:=Error) plan = Ok DT ∧ parity_targets (E:=Error) plan = Ok PT ∧
  direct_parity plan = false ∧
  row_views plan self
    = Ok (mk_view plan (format_matrix (rs_format self)) 0 (length DT + length PT)) ∧
  (DT ++ PT ≠ [] → ∀ len, plan_for self M present len DT PT (relen len plan)).

Lemma present_data_valid c :
  d ≤ n → length V = d → c < d → present c = true → c ∈ V.
Proof.
  intros Hdn Henough Hc Hp. destruct (valid_split d n present Hdn Henough) as (Q & -> & _).
  apply elem_of_app. left. apply list_elem_of_filter. split; [done|]. apply elem_of_seq. lia.
Qed.

(** The survivors determine the message whenever there are rows for the missing data. *)
Lemma rows_nonsingular :
  systematic d M → d ≤ n → length V = d →
  (∀ c, c < d → present c = false → ∃ row,
     ∀ z, bsum d (λ j, row j * row_dot d (selected_rows M V) z j) = z c) →
  nonsingular d d (selected_rows M V).
Proof.
  intros Hsys Hdn Henough Hrows x Hker c Hc. destruct (present c) eqn:Hp.
  - pose proof (present_data_valid c Hdn Henough Hc Hp) as HcV.
    apply list_elem_of_lookup_1 in HcV as [a Ha].
    assert (a < d) as Had by (rewrite <- Henough; by eapply lookup_lt_Some).
    specialize (Hker a Had). unfold row_dot, selected_rows, rows_at in Hker. rewrite Ha in Hker.
    simpl in Hker. rewrite <- Hker. rewrite <- (bsum_delta_sym d c x) by done.
    apply bsum_ext. intros k Hk. rewrite Hsys by done. apply mul_comm.
  - destruct (Hrows c Hc Hp) as (row & Hrow). rewrite <- (Hrow x).
    apply bsum_0. intros j Hj. rewrite Hker by done. apply mul_0_r.
Qed.

Lemma plan_nonsingular len plan :
  systematic d M → d ≤ n → length V = d → plan_for self M present len DT PT plan →
  nonsingular d d (selected_rows M V).
Proof.
  intros Hsys Hdn Henough Hplan. apply rows_nonsingular; [done..|]. intros c Hc Hp.
  destruct (pf_data_rows _ _ _ _ _ _ _ Hplan c) as (row & _ & Hrow).
  { apply list_elem_of_filter. split; [done|]. apply elem_of_seq. lia. }
  rewrite (pf_valid _ _ _ _ _ _ _ Hplan) in Hrow. by exists row.
Qed.

(** The message that the survivors determine. *)
Lemma survivors_codeword len (f : nat → list Elem) :
  classic_codec self M → length V = d → nonsingular d d (selected_rows M V) → 0 < len →
  (∀ i, i ∈ V → length (f i) = len) →
  ∃ cw, codeword M d n len cw ∧ ∀ i, i ∈ V → cw !! i = Some (f i).
Proof.
  intros Hc Henough Hns Hlen Hf.
  pose proof (build_decode_ensures self M V Hc (valid_of_survivors n d present Henough)) as Hb.
  destruct (build_data_decode_matrix self V) as [m|e|]; [|by destruct Hb|done].
  destruct Hb as (X & _ & HX).
  set (s := λ j a, default 0 (f (rows_at V a) !! j)).
  set (z := λ j, row_dot d X (s j)).
  set (cw := tabulate n (λ r, tabulate len (λ j, row_dot d M (z j) r))).
  assert (∀ r j, r < n → j < len → shard_elem cw r j = row_dot d M (z j) r) as Hel.
  { intros r j Hr Hj. by apply (shard_elem_tabulate n len (λ r j, row_dot d M (z j) r)). }
  assert (∀ x c, c < d → row_dot d M x c = x c) as Hunit.
  { intros x c Hcd. unfold row_dot. rewrite <- (bsum_delta_sym d c x) by done.
    apply bsum_ext. intros k Hk. rewrite (cc_systematic _ _ Hc) by done. apply mul_comm. }
  exists cw. split.
  - split; [split_and!; [apply length_tabulate|done|apply all_len_tabulate]|].
    intros r j Hr Hj. rewrite Hel by done. apply row_dot_ext. intros c Hcd.
    assert (d ≤ n) as Hdn by (unfold total_shard_count, data_shard_count; lia).
    rewrite Hel by (done || lia). by rewrite Hunit.
  - intros i Hi. pose proof Hi as [a Ha]%list_elem_of_lookup_1.
    assert (a < d) as Had by (rewrite <- Henough; by eapply lookup_lt_Some).
    assert (i < n) as Hin.
    { apply elem_take, list_elem_of_filter in Hi as [_ [_ Hi]%elem_of_seq]. lia. }
    unfold cw. rewrite lookup_tabulate by done. f_equal. symmetry.
    apply eq_tabulate; [by apply Hf|]. intros j Hj.
    destruct (lookup_lt_is_Some_2 (f i) j) as [e He]; [by rewrite Hf|]. rewrite He. f_equal.
    assert (e = s j a) as -> by (unfold s, rows_at; rewrite Ha; simpl; by rewrite He).
    assert (row_dot d M (z j) i = row_dot d (selected_rows M V) (z j) a) as ->
      by (unfold row_dot, selected_rows, rows_at; by rewrite Ha).
    unfold z, row_dot.
    assert (∀ k, k < d → selected_rows M V a k * bsum d (λ c, X k c * s j c)
      = bsum d (λ c, selected_rows M V a k * X k c * s j c)) as Hk.
    { intros k Hk. rewrite <- bsum_mul_l. apply bsum_ext. intros c _. by rewrite mul_assoc. }
    rewrite (bsum_ext _ _ _ Hk), bsum_swap.
    rewrite (bsum_ext d _ (λ c, s j c * delta a c)).
    + symmetry. by apply bsum_delta_sym.
    + intros c Hcd. rewrite bsum_mul_r. destruct (HX a c Had Hcd) as [HXac _].
      unfold mmul in HXac. rewrite HXac. apply mul_comm.
Qed.

(** One block under the plan, of any length. *)
Lemma stream_block_ok plan len cw buffers :
  classic_codec self M → length V = d → stream_plan_ok plan → codeword M d n len cw →
  length buffers = n → (∀ i, i ∈ V → buffers !! i = Some (shard_at cw i)) →
  (∀ i, i ∈ DT ++ PT → ∃ s, buffers !! i = Some s ∧ length s = len) →
  reconstruct_block self plan
    (mk_view plan (format_matrix (rs_format self)) 0 (length DT))
    (mk_view plan (format_matrix (rs_format self)) (length DT) (length PT)) buffers
  = Ok (changed (DT ++ PT) (shard_at cw) buffers).
Proof.
  intros Hc Henough (Hdt & Hpt & Hdir & _ & Hplan) Hcw Hl HV Hroom.
  assert (d ≤ n) as Hdn by (unfold total_shard_count, data_shard_count; lia).
  destruct (decide (DT ++ PT = [])) as [Hnil|Hne].
  - rewrite Hnil, changed_nil. apply app_nil in Hnil as [HD HP].
    unfold reconstruct_block. by rewrite Hdt, Hpt, HD, HP.
  - specialize (Hplan Hne len).
    pose proof (reconstruct_block_ok self M len cw (cc_systematic _ _ Hc) (cc_data _ _ Hc) Hcw
      present Henough (relen len plan) DT PT Hplan Hdn Hdir buffers Hl HV Hroom) as Hblock.
    apply Hblock. intros _ i Hi HiD. apply present_data_valid; [done..|].
    destruct (present i) eqn:Hp; [done|]. destruct HiD.
    apply list_elem_of_filter. split; [done|]. apply elem_of_seq. lia.
Qed.
End plan_spec.

Section plan_new.
Context {F : Field} {FL : FieldLaws F} {RT : Runtime} {St : Storage Elem}
  {L : LruCache (list nat) (CachedMatrix Elem)} {LL : LruLaws L}.
Context (self : ReedSolomon) (M : nat → nat → Elem) (lens : list (option nat)) (a : nat).
#[local] Abbreviation d := (data_shard_count self).
#[local] Abbreviation n := (total_shard_count self).
#[local] Abbreviation present := (present_at lens).
#[local] Abbreviation V := (valid_of n d present).
Context (Hc : classic_codec self M) (Hcache : cache_valid self) (Hn : length lens = n).
Context (Ha : 0 < a) (Hlens : ∀ i l, lens !! i = Some (Some l) → l = a).
Context (Henough : d ≤ count_present lens).

Let Hd : 0 < d := cc_data _ _ Hc.
Let Hdn : d ≤ n.
Proof. unfold total_shard_count, data_shard_count. lia. Qed.

Lemma enough_survivors : length V = d.
Proof. unfold valid_of. rewrite length_take, <- Hn. unfold count_present in Henough. lia. Qed.

Lemma stream_shape : ensures (classic_reconstruct_shape self lens)
  (λ shape, d ≤ number_present shape ∧ invalid_indices shape = invalid_of n present ∧
     (invalid_indices shape ≠ [] → valid_indices shape = V))
  (λ _, False).
Proof.
  eapply ensures_mono; [by apply shape_ensures|..].
  - intros shape (_ & Hnp & _ & Hinv & Hvalid). split_and!; [lia|done|intros Hi; by apply Hvalid].
  - intros e [Hbad|(_ & Hfew & _)]; [|lia].
    destruct Hbad as [(_ & i & Hi)|(_ & i & j & l & k & Hi & Hj & Hne)].
    + apply Hlens in Hi. lia.
    + apply Hlens in Hi, Hj. congruence.
Qed.

Lemma targets_all lo hi :
  targets_in present d GoalAll lo hi = filter (λ i, present i = false) (seq lo (hi - lo)).
Proof. unfold targets_in. apply list_filter_iff. intros i. simpl. tauto. Qed.

#[local] Abbreviation DT := (filter (λ i, present i = false) (seq 0 d)).
#[local] Abbreviation PT := (filter (λ i, present i = false) (seq d (n - d))).

Lemma missing_split : invalid_of n present = DT ++ PT.
Proof.
  unfold invalid_of. rewrite <- filter_app, <- seq_app. do 2 f_equal. lia.
Qed.

(** Complete goals never compose rows. *)
Lemma plan_result_direct shape plan :
  plan_result self present shape GoalAll = Ok plan → direct_parity plan = false.
Proof.
  unfold plan_result, finish_plan. destruct (select_targets self shape GoalAll) as [sel cnt].
  destruct (if needs_inverse self present GoalAll then _ else _); simpl; [|done..].
  by intros [= <-].
Qed.

Lemma nothing_missing shape :
  d ≤ number_present shape → invalid_indices shape = [] → invalid_of n present = [] →
  fill_classic_reconstruct_plan self (plan_new shape GoalAll) GoalAll
    = (self, Ok (plan_new shape GoalAll)) ∧
  stream_plan_ok self M present (plan_new shape GoalAll).
Proof.
  intros Hnp Hnone Hinv.
  assert (data_targets (E:=Error) (plan_new shape GoalAll) = Ok [] ∧
          parity_targets (E:=Error) (plan_new shape GoalAll) = Ok []) as [Hdt Hpt].
  { unfold data_targets, parity_targets, target_indices, plan_new.
    cbn [selected_targets data_target_count data_only plan_shape default]. by rewrite Hnone. }
  rewrite missing_split in Hinv. apply app_nil in Hinv as [HD HP]. split.
  - unfold fill_classic_reconstruct_plan, plan_new.
    rewrite decide_False by (cbn; lia). cbn [goal_flags_ok negb plan_shape].
    unfold select_targets, missing_data_count, data_targets, parity_targets, target_indices.
    cbn [selected_targets data_target_count data_only plan_shape default]. by rewrite Hnone.
  - unfold stream_plan_ok. rewrite HD, HP. split_and!; try done.
    unfold row_views. by rewrite Hdt, Hpt.
Qed.

(** One plan for all blocks, or the survivors do not determine the message. *)
Lemma stream_plan_new_ok :
  ∃ c r, stream_plan_new self (invalid_of n present) a = (set_cache self c, r) ∧
    cache_valid (set_cache self c) ∧
    ensures r (λ plan, stream_plan_ok self M present plan ∧
        nonsingular d d (selected_rows M V))
      (λ e, e = InvalidCustomMatrix ∧ ¬ nonsingular d d (selected_rows M V)).
Proof.
  unfold stream_plan_new.
  assert (plan_lengths (seq 0 n) (invalid_of n present) a = lens) as ->
    by (rewrite <- Hn; by apply plan_lengths_ok).
  pose proof stream_shape as Hshape.
  destruct (classic_reconstruct_shape self lens) as [shape|e|]; [|done..].
  destruct Hshape as (Hnp & Hinv & Hvalid).
  unfold prepare_classic_reconstruct_plan.
  destruct (decide (invalid_indices shape = [])) as [Hnone|Hsome].
  - destruct (nothing_missing shape Hnp Hnone) as [-> Hok]; [congruence|].
    exists (rs_cache self), (Ok (plan_new shape GoalAll)).
    assert (set_cache self (rs_cache self) = self) as -> by (by destruct self).
    split_and!; [done..|]. split; [done|].
    apply rows_nonsingular; [apply Hc|done|apply enough_survivors|]. intros c Hcd Hp.
    assert (c ∈ invalid_indices shape) as Hin; [|by rewrite Hnone in Hin; apply elem_of_nil in Hin].
    rewrite Hinv. apply list_elem_of_filter. split; [done|]. apply elem_of_seq. lia.
  - specialize (Hvalid Hsome). pose proof enough_survivors as HV.
    destruct (fill_plan_result self M present (shape_shard_len shape) shape GoalAll Hc Hdn eq_refl
      Hinv eq_refl Hvalid HV Hnp eq_refl Hd Hcache) as (c & Hfill & Hcache').
    exists c, (plan_result self present shape GoalAll). split_and!; [done..|].
    pose proof (plan_result_ensures self M present (shape_shard_len shape) shape GoalAll Hc Hdn
      eq_refl Hinv eq_refl Hvalid HV) as Hplan.
    rewrite !targets_all, Nat.sub_0_r in Hplan.
    destruct (plan_result self present shape GoalAll) as [plan|e|] eqn:Hres; [|by destruct Hplan as (? & _ & _ & ?)|done].
    simpl in Hplan |- *. split.
    + split_and!; [apply Hplan|apply Hplan|by eapply plan_result_direct| |].
      * by eapply (row_views_ok self M (shape_shard_len shape) present plan DT PT).
      * intros _ len. by eapply plan_for_relen.
    + eapply (plan_nonsingular self M present (shape_shard_len shape) plan);
        [apply Hc|done..].
Qed.
End plan_new.
