(* ===== verification/StreamReconstruct.v ===== *)
(** * Streaming reconstruction ([src/core/stream.rs], lines 802-1024)

    [reconstruct_stream_from] reads the present streams block by block, restores each
    block under one plan, and writes the missing streams; [reconstruct_stream] is
    the form on cursors, where an empty cursor is a missing shard.

    The theorems: the missing streams receive the shards of the codeword that the first
    present streams determine, whatever the block size, the sizes of the reads and writes, the
    mode and the schedules; errors have the cause they name; and shards that were
    encoded are restored. *)

From Stdlib Require Import NArith Lia List Bool Init.Byte.
From stdpp Require Import base numbers list.
From S2P Require Import Prelude Errors Fields Gf8 LinAlg Matrix Options Leopard InversionCache.
From S2P Require Import Parallel Checks Codec Coding Encode Verify Shards Format DecodeMatrix.
From S2P Require Import RecoveryPlan Execute LeopardReconstruct Reconstruct OptionVec Gf8Opt.
From S2P Require Import StreamIo Stream StreamPlan.

Section stream_reconstruct.
Context {RT : Runtime} {St : Storage byte} {L : LruCache (list nat) (CachedMatrix byte)}.
#[local] Abbreviation codec := (@ReedSolomon gf8 L).
Implicit Types (self : codec) (sched : StreamSchedules) (options : StreamOptions).

Section generic.
Context {R W : Type} `{Read R} `{Write W}.
Implicit Types (readers : list (option R)) (writers : list (option W)).

(** The missing indices, if each shard has either a reader or a writer. *)
Definition validate_stream_layout readers writers : outcome StreamError (list nat) :=
  for_each (imap pair (zip readers writers)) (λ '(index, (reader, writer)) missing,
    if Bool.eqb (bool_decide (is_Some reader)) (bool_decide (is_Some writer))
    then Err (stream_codec index InvalidShardFlags) else
    Ok (if bool_decide (is_Some reader) then missing else missing ++ [index])) [].

(** The checks before any input or output. *)
Definition reconstruct_stream_checks self readers writers : outcome StreamError (list nat) :=
  let total := total_shard_count self in
  let! _ := validate_stream_count (length readers) total in
  let! _ := validate_stream_count (length writers) total in
  if is_leopard_codec self then Err (stream_codec 0 UnsupportedCodecFamily) else
  let! missing := validate_stream_layout readers writers in
  if decide (total - length missing < data_shard_count self)
  then Err (stream_codec 0 TooFewShardsPresent) else Ok missing.

Section blocks.
Context (sched : StreamSchedules) (self : codec) (plan : ClassicReconstructPlan (F:=gf8)).
Context (data_rows parity_rows : ClassicReconstructRows (F:=gf8)).
Context (missing_indices : list nat) (block_len : nat).
Context (use_parallel_read use_parallel_write : bool).

(** The [loop] of [reconstruct_stream_from]. *)
Fixpoint reconstruct_stream_loop (fuel k : nat) readers writers (bufs : list (list byte))
    (actual_len : nat) : list (option R) * list (option W) * outcome StreamError unit :=
  match fuel with
  | O => (readers, writers, Panic)
  | S fuel =>
      match
        map_err (stream_codec 0)
          (let! bufs := resize_missing (F:=gf8) missing_indices actual_len bufs in
           reconstruct_block (F:=gf8) self plan data_rows parity_rows bufs)
      with
      | Err e => (readers, writers, Err e)
      | Panic => (readers, writers, Panic)
      | Ok bufs =>
          match write_missing_streams_with_mode (sched_writes sched k) writers bufs actual_len
                  use_parallel_write with
          | (writers, Err e) => (readers, writers, Err e)
          | (writers, Panic) => (readers, writers, Panic)
          | (writers, Ok _) =>
              match read_present_streams_with_mode (sched_reads sched (S k)) readers bufs
                      block_len use_parallel_read with
              | (readers, _, Err e) => (readers, writers, Err e)
              | (readers, _, Panic) => (readers, writers, Panic)
              | (readers, bufs, Ok (all_eof, next_len)) =>
                  if all_eof : bool then (readers, writers, Ok tt)
                  else reconstruct_stream_loop fuel (S k) readers writers bufs next_len
              end
          end
      end
  end.
End blocks.

Definition stream_budget (reader : option R) : nat :=
  match reader with Some reader => read_budget reader | None => 0 end.

(** The codec with its cache, the streams, and the result. *)
Definition stream_run : Type :=
  codec * list (option R) * list (option W) * outcome StreamError unit.

Definition reconstruct_stream_from sched self readers writers options : stream_run :=
  match reconstruct_stream_checks self readers writers with
  | Err e => (self, readers, writers, Err e)
  | Panic => (self, readers, writers, Panic)
  | Ok missing_indices =>
      let present_count := (total_shard_count self - length missing_indices)%nat in
      let block_len := block_len_of options in
      let use_parallel_read := use_parallel_stream_io options present_count in
      let use_parallel_write := use_parallel_stream_io options (length missing_indices) in
      let fuel := S (sum_list (map stream_budget readers)) in
      match read_present_streams_with_mode (sched_reads sched 0) readers (map (λ _, []) readers)
              block_len use_parallel_read with
      | (readers, _, Err e) => (self, readers, writers, Err e)
      | (readers, _, Panic) => (self, readers, writers, Panic)
      | (readers, bufs, Ok (all_eof, actual_len)) =>
          if all_eof : bool then (self, readers, writers, Ok tt) else
          match stream_plan_new (F:=gf8) self missing_indices actual_len with
          | (self, Err e) => (self, readers, writers, Err (stream_codec 0 e))
          | (self, Panic) => (self, readers, writers, Panic)
          | (self, Ok plan) =>
              match
                map_err (stream_codec 0)
                  (let! rows := row_views (F:=gf8) plan self in
                   let! data := data_targets plan in
                   rows_split_at rows (length data))
              with
              | Err e => (self, readers, writers, Err e)
              | Panic => (self, readers, writers, Panic)
              | Ok (data_rows, parity_rows) =>
                  let '(readers, writers, r) :=
                    reconstruct_stream_loop sched self plan data_rows parity_rows
                      missing_indices block_len use_parallel_read use_parallel_write fuel 0
                      readers writers bufs actual_len in
                  (self, readers, writers, r)
              end
          end
      end
  end.
End generic.

(** ** The form on cursors *)
Record cursor_scan := mk_scan {
  scan_present : nat;
  known_len : nat;
  equal_lengths : bool;
}.

Definition scan_cursors (shards : list Cursor) : cursor_scan :=
  fold_left (λ s shard,
    let len := length (get_ref shard) in
    if decide (len = 0) then s else
    let known := if decide (known_len s = 0) then len else known_len s in
    mk_scan (S (scan_present s)) known (equal_lengths s && bool_decide (known = len)))
    shards (mk_scan 0 0 true).

Definition cursor_reader (shard : Cursor) : option Cursor :=
  if decide (get_ref shard = []) then None else Some (mk_cursor (get_ref shard) 0).

Definition cursor_writer (output_len : nat) (shard : Cursor) : option RecoveryVecWriter :=
  if decide (get_ref shard = []) then Some (mk_recovery_writer (get_ref shard) output_len)
  else None.

(** The borrows end: a reader is its cursor, a writer the vector of its cursor. *)
Definition cursor_back (shard : Cursor) (streams : option Cursor * option RecoveryVecWriter)
  : Cursor :=
  match streams with
  | (Some reader, _) => reader
  | (None, Some writer) => mk_cursor (rec_bytes writer) (cursor_position shard)
  | (None, None) => shard
  end.

Definition reconstruct_stream sched self (shards : list Cursor) options
  : codec * list Cursor * outcome StreamError unit :=
  match validate_stream_count (length shards) (total_shard_count self) with
  | Err e => (self, shards, Err e)
  | Panic => (self, shards, Panic)
  | Ok _ =>
      if is_leopard_codec self
      then (self, shards, Err (stream_codec 0 UnsupportedCodecFamily)) else
      let scan := scan_cursors shards in
      if decide (scan_present scan = 0) then (self, shards, Ok tt) else
      if decide (scan_present scan < data_shard_count self)
      then (self, shards, Err (stream_codec 0 TooFewShardsPresent)) else
      let output_len := if equal_lengths scan then known_len scan else 0 in
      let '(self, readers, writers, r) :=
        reconstruct_stream_from sched self (map cursor_reader shards)
          (map (cursor_writer output_len) shards) options in
      (self, zip_with cursor_back shards (zip readers writers), r)
  end.
End stream_reconstruct.

(** ** The layout *)
Section layout.
Context {R W : Type}.
Implicit Types (readers : list (option R)) (writers : list (option W)).

Definition reader_at readers (i : nat) : bool :=
  match readers !! i with Some (Some _) => true | _ => false end.

(** Every shard has a reader or a writer, and not both. *)
Definition layout_ok readers writers : Prop :=
  ∀ i r w, readers !! i = Some r → writers !! i = Some w → is_Some r ↔ ¬ is_Some w.

Definition layout_error readers writers (e : StreamError) : Prop :=
  ∃ i r w, readers !! i = Some r ∧ writers !! i = Some w ∧ (is_Some r ↔ is_Some w) ∧
    e = stream_codec i InvalidShardFlags.

Lemma layout_scan readers writers :
  length readers = length writers →
  ensures (validate_stream_layout readers writers)
    (λ missing, missing = invalid_of (length readers) (reader_at readers) ∧
       layout_ok readers writers) (layout_error readers writers).
Proof.
  intros Hlen. unfold validate_stream_layout.
  set (l := imap pair (zip readers writers)).
  assert (length l = length readers) as Hl.
  { unfold l. rewrite length_imap, length_zip_with. lia. }
  eapply (for_each_post l _ (λ k missing, missing = invalid_of k (reader_at readers) ∧
    ∀ i r w, i < k → readers !! i = Some r → writers !! i = Some w → is_Some r ↔ ¬ is_Some w)).
  - split; [done|]. lia.
  - intros k [i [r w]] missing Hk [-> Hok]. unfold l in Hk. rewrite list_lookup_imap in Hk.
    destruct (zip readers writers !! k) as [[r' w']|] eqn:Hz; [|done]. injection Hk as <- -> ->.
    apply lookup_zip_Some in Hz as [Hr Hw].
    destruct (Bool.eqb _ _) eqn:Heq; simpl.
    + exists k, r, w. split_and!; try done. apply Bool.eqb_prop in Heq.
      destruct r, w; split; intros Hs; try done; by (destruct Hs).
    + split.
      * unfold invalid_of. rewrite seq_S, filter_app. simpl. rewrite filter_cons, filter_nil.
        assert (reader_at readers k = bool_decide (is_Some r)) as ->
          by (unfold reader_at; rewrite Hr; by destruct r).
        destruct r; simpl; [by rewrite app_nil_r|done].
      * intros j r' w' Hj Hr' Hw'. destruct (decide (j = k)) as [->|Hne]; [|apply (Hok j); (done || lia)].
        simplify_eq. destruct r, w; try done; split; intros Hs; try done; by destruct Hs.
  - intros missing [-> Hok]. rewrite Hl. split; [done|]. intros i r w Hr Hw.
    apply (Hok i); [|done..]. rewrite Hl. by eapply lookup_lt_Some.
Qed.
End layout.

(** Codewords side by side. *)
Lemma zip_halves (a : nat) : ∀ C C' : list (list byte),
  length C = length C' → all_len a C →
  map (take a) (zip_with (++) C C') = C ∧ map (drop a) (zip_with (++) C C') = C'.
Proof.
  induction C as [|c C IH]; intros [|c' C'] Hlen Hall; try done.
  apply Forall_cons in Hall as [Hc Hall]. injection Hlen as Hlen.
  destruct (IH C' Hlen Hall) as [Ht Hdr]. simpl. rewrite Ht, Hdr.
  split; f_equal; [by apply take_app_length'|by apply drop_app_length'].
Qed.

Section append.
Context {L : LruCache (list nat) (CachedMatrix byte)}.
Context (self : @ReedSolomon gf8 L) (M : nat → nat → byte).
#[local] Abbreviation d := (data_shard_count self).
#[local] Abbreviation n := (total_shard_count self).

Lemma codeword_append a m (C C' : list (list byte)) :
  codeword (F:=gf8) M d n a C → codeword (F:=gf8) M d n m C' →
  codeword (F:=gf8) M d n (a + m) (zip_with (++) C C').
Proof.
  intros HC HC'. pose proof HC as [(H1 & H2 & H3) _]. pose proof HC' as [(H1' & _ & H3') _].
  destruct (zip_halves a C C') as [Ht Hdr]; [exact (eq_trans H1 (eq_sym H1'))|done|].
  refine (proj2 (codeword_block self M a m _ H2 _ _) _).
  - rewrite length_zip_with. change (@Elem gf8) with byte in *. lia.
  - apply Forall_lookup. intros i c Hi. apply lookup_zip_with_Some in Hi as (x & y & -> & Hx & Hy).
    rewrite length_app. f_equal;
      [exact (Forall_lookup_1 _ _ _ _ H3 Hx)|exact (Forall_lookup_1 _ _ _ _ H3' Hy)].
  - rewrite Ht, Hdr. split; [done|by right].
Qed.
End append.

(** ** Streams after a block *)
Section streams.
Context {R W : Type} `{ReadLaws R} `{WriteLaws W}.
Implicit Types (readers : list (option R)) (writers : list (option W)).

(** A present stream that is shorter than another. *)
Definition unequal_lengths readers (e : StreamError) : Prop :=
  ∃ bad r i r', readers !! bad = Some (Some r) ∧ readers !! i = Some (Some r') ∧
    length (contents r) < length (contents r') ∧ e = stream_codec bad IncorrectShardSize.

(** Missing stream [i] has been given the bytes [f i]. *)
Definition writers_given writers writers' (f : nat → list byte) : Prop :=
  length writers' = length writers ∧
  ∀ i x, writers !! i = Some x →
    match x with
    | Some w => ∃ w', writers' !! i = Some (Some w') ∧ extended (f i) w w'
    | None => writers' !! i = Some None
    end.

Lemma unequal_block b readers e : unequal_streams b readers e → unequal_lengths readers e.
Proof.
  intros (bad & r & i & r' & Hr & Hr' & Hlt & ->). exists bad, r, i, r'.
  split_and!; try done. unfold available in Hlt. lia.
Qed.

Section after.
Context (b len : nat) (readers readers' : list (option R)) (bufs bufs' : list (list byte)).
Context (Hread : present_read b len readers bufs readers' bufs').

Lemma present_read_back i r' : readers' !! i = Some (Some r') →
  ∃ r, readers !! i = Some (Some r) ∧ advanced b r r' ∧ available b r = len ∧
    bufs' !! i = Some (take b (contents r)).
Proof.
  destruct Hread as (Hl & _ & Hall). intros Hr'.
  destruct (lookup_lt_is_Some_2 readers i) as [x Hx].
  { rewrite <- Hl. by eapply lookup_lt_Some. }
  specialize (Hall i x Hx). destruct x as [r|]; [|destruct Hall; congruence].
  destruct Hall as (Hav & (r1 & Hr1 & Hadv) & Hb). exists r. by simplify_eq.
Qed.

Lemma read_failure_back e : present_read_failure readers' e → present_read_failure readers e.
Proof.
  intros (i & r' & x & Hr' & Hx & ->).
  destruct (present_read_back i r' Hr') as (r & Hr & (_ & _ & Hf) & _). exists i, r, x. auto.
Qed.

Lemma unequal_back e : unequal_lengths readers' e → unequal_lengths readers e.
Proof.
  intros (bad & r & i & r' & Hr & Hr' & Hlt & ->).
  destruct (present_read_back bad r Hr) as (x & Hx & (Hcx & _) & _).
  destruct (present_read_back i r' Hr') as (y & Hy & (Hcy & _) & _).
  exists bad, x, i, y. split_and!; try done. rewrite Hcx, Hcy, !length_drop in Hlt. lia.
Qed.

Lemma reader_at_back i : reader_at readers' i = reader_at readers i.
Proof.
  destruct Hread as (Hl & _ & Hall). unfold reader_at.
  destruct (readers !! i) as [x|] eqn:Hx.
  - specialize (Hall i x Hx). destruct x as [r|].
    + by destruct Hall as (_ & (r' & -> & _) & _).
    + by destruct Hall as [-> _].
  - apply lookup_ge_None in Hx. rewrite <- Hl in Hx. apply lookup_ge_None in Hx. by rewrite Hx.
Qed.

Lemma stream_budgets :
  sum_list (map stream_budget readers') ≤ sum_list (map stream_budget readers) ∧
  (len ≠ 0 → (∃ i, reader_at readers i = true) →
   sum_list (map stream_budget readers') < sum_list (map stream_budget readers)).
Proof.
  destruct Hread as (Hl & _ & Hall). clear Hread.
  assert (∀ i x x', readers !! i = Some x → readers' !! i = Some x' →
    stream_budget x' ≤ stream_budget x ∧
    (len ≠ 0 → is_Some x → stream_budget x' < stream_budget x)) as Hone.
  { intros i x x' Hx Hx'. specialize (Hall i x Hx). destruct x as [r|].
    - destruct Hall as (Hav & (r' & Hr' & _ & Hbud & _) & _). simplify_eq. simpl.
      unfold available in *. revert Hbud. case_decide; lia.
    - destruct Hall as [Hn _]. simplify_eq. split; [done|]. by intros _ [? ?]. }
  clear Hall. revert readers' Hl Hone.
  induction readers as [|x l IH]; intros [|x' l'] Hl Hone; try done.
  { split; [done|]. intros _ [i Hi]. by destruct i. }
  simpl. destruct (Hone 0 x x' eq_refl eq_refl) as [Hle Hlt].
  destruct (IH l' ltac:(by injection Hl) (λ i, Hone (S i))) as [IHle IHlt].
  split; [lia|]. intros Hne [[|i] Hi].
  - destruct x as [r|]; [|done]. specialize (Hlt Hne ltac:(by eexists)). lia.
  - specialize (IHlt Hne ltac:(by exists i)). lia.
Qed.
End after.

Lemma writers_given_app writers writers1 writers2 f g h :
  writers_given writers writers1 f → writers_given writers1 writers2 g →
  (∀ i w, writers !! i = Some (Some w) → h i = f i ++ g i) → writers_given writers writers2 h.
Proof.
  intros [Hl1 H1'] [Hl2 H2'] Hh. split; [congruence|]. intros i x Hx. specialize (H1' i x Hx).
  destruct x as [w|].
  - destruct H1' as (w1 & Hw1 & Ho1 & Hf1). destruct (H2' i _ Hw1) as (w2 & Hw2 & Ho2 & Hf2).
    exists w2. split; [done|]. split; [|by auto].
    by rewrite Ho2, Ho1, (Hh i w Hx), (assoc_L (++)).
  - exact (H2' i _ H1').
Qed.

Lemma writers_given_failure writers writers' f e :
  writers_given writers writers' f → missing_write_failure writers' e →
  missing_write_failure writers e.
Proof.
  intros [Hl Hall] (i & w' & x & Hw' & Hx & ->).
  destruct (lookup_lt_is_Some_2 writers i) as [y Hy].
  { rewrite <- Hl. by eapply lookup_lt_Some. }
  specialize (Hall i y Hy). destruct y as [w|]; [|congruence].
  destruct Hall as (w1 & Hw1 & _ & Hf). simplify_eq. exists i, w, x. auto.
Qed.
End streams.

(** ** The block loop *)
Section block_loop.
Context {RT : Runtime} {St : Storage byte} {L : LruCache (list nat) (CachedMatrix byte)}.
Context {LL : LruLaws L} {LE : LeopardEncoders}.
Context {R W : Type} `{ReadLaws R} `{WriteLaws W}.
Context (self : @ReedSolomon gf8 L) (M : nat → nat → byte).
Context (Hc : classic_codec (F:=gf8) self M) (present : nat → bool).
Context (sched : StreamSchedules) (b : nat) (Hb : 0 < b).
Context (plan : ClassicReconstructPlan (F:=gf8)).
Implicit Types (readers : list (option R)) (writers : list (option W)) (bufs : list (list byte)).

#[local] Abbreviation d := (data_shard_count self).
#[local] Abbreviation n := (total_shard_count self).
#[local] Abbreviation V := (valid_of n d present).
#[local] Abbreviation DT := (filter (λ i, present i = false) (seq 0 d)).
#[local] Abbreviation PT := (filter (λ i, present i = false) (seq d (n - d))).
#[local] Abbreviation table := (format_matrix (rs_format self)).

Context (Henough : length V = d).
Context (Hns : nonsingular (F:=gf8) d d (selected_rows (F:=gf8) M V)).
Context (Hplan : stream_plan_ok (F:=gf8) self M present plan).
Context (Hs : ∀ k, is_io_schedule (sched_reads sched k) n ∧ is_io_schedule (sched_writes sched k) n).

(** The streams where the plan expects them. *)
Definition streams_fit readers writers : Prop :=
  length readers = n ∧ length writers = n ∧ (∀ i, reader_at readers i = present i ∨ n ≤ i) ∧
  ∀ i w, writers !! i = Some (Some w) → present i = false.

(** A current block of [a] bytes. *)
Definition block_at readers bufs (a : nat) : Prop :=
  length bufs = n ∧
  ∀ i r, readers !! i = Some (Some r) → ∃ s, bufs !! i = Some s ∧ length s = a.

Definition restored_to readers writers bufs (a : nat)
    (res : list (option R) * list (option W) * outcome StreamError unit) : Prop :=
  match res with
  | (_, writers', Ok _) => ∃ m cw,
      codeword (F:=gf8) M d n (a + m) cw ∧
      (∀ i r, readers !! i = Some (Some r) → length (contents r) = m) ∧
      (∀ i r s, i ∈ V → readers !! i = Some (Some r) → bufs !! i = Some s →
         cw !! i = Some (s ++ contents r)) ∧
      writers_given writers writers' (shard_at (F:=gf8) cw)
  | (_, _, Err e) => present_read_failure readers e ∨ unequal_lengths readers e ∨
      missing_write_failure writers e
  | (_, _, Panic) => False
  end.

Lemma valid_reader readers writers i : streams_fit readers writers → i ∈ V →
  i < n ∧ present i = true ∧ ∃ r, readers !! i = Some (Some r).
Proof.
  intros (Hl & _ & Hp & _) Hi%elem_take. apply list_elem_of_filter in Hi as [Hpi [_ Hin]%elem_of_seq].
  split_and!; [lia|done|]. destruct (Hp i) as [Hr|]; [|lia]. rewrite Hpi in Hr.
  unfold reader_at in Hr. destruct (readers !! i) as [[r|]|]; [by exists r|done..].
Qed.

Lemma missing_elem i : i ∈ DT ++ PT ↔ i < n ∧ present i = false.
Proof.
  assert (d ≤ n) as Hdn by (unfold total_shard_count, data_shard_count; lia).
  rewrite elem_of_app, !list_elem_of_filter, !elem_of_seq. split.
  - intros [[? ?]|[? ?]]; (split; [lia|done]).
  - intros [? ?]. destruct (decide (i < d)); [left|right]; (split; [done|lia]).
Qed.

(** Resizing and restoring one block. *)
Lemma block_restored readers writers bufs a :
  0 < a → streams_fit readers writers → block_at readers bufs a →
  ∃ cw bufs', codeword (F:=gf8) M d n a cw ∧
    (∀ i s, i ∈ V → bufs !! i = Some s → cw !! i = Some s) ∧
    (let! bufs := resize_missing (F:=gf8) (invalid_of n present) a bufs in
     reconstruct_block (F:=gf8) self plan (mk_view plan table 0 (length DT))
       (mk_view plan table (length DT) (length PT)) bufs) = Ok bufs' ∧
    length bufs' = n ∧
    (∀ i, i < n → present i = true → bufs' !! i = bufs !! i) ∧
    (∀ i, i < n → present i = false → bufs' !! i = Some (shard_at (F:=gf8) cw i)).
Proof.
  intros Ha Hfit [Hlb Hblock].
  assert (∀ i, i ∈ V → ∃ s, bufs !! i = Some s ∧ length s = a) as HV.
  { intros i Hi. destruct (valid_reader readers writers i Hfit Hi) as (_ & _ & r & Hr). eauto. }
  destruct (survivors_codeword (F:=gf8) self M present a (buffer_at (F:=gf8) bufs) Hc Henough Hns Ha)
    as (cw & Hcw & Hagree).
  { intros i Hi. destruct (HV i Hi) as (s & Hsi & Hl). unfold buffer_at.
    change (@Elem gf8) with byte. by rewrite Hsi. }
  assert (∀ i s, i ∈ V → bufs !! i = Some s → cw !! i = Some s) as Hcwi.
  { intros i s Hi Hsi. refine (eq_trans (Hagree i Hi) _). unfold buffer_at.
    change (@Elem gf8) with byte. by rewrite Hsi. }
  assert (invalid_of n present = DT ++ PT) as Hmiss.
  { assert (d ≤ n) by (unfold total_shard_count, data_shard_count; lia).
    unfold invalid_of. rewrite <- filter_app, <- seq_app. do 2 f_equal. lia. }
  assert (∀ i, i ∈ invalid_of n present ↔ i < n ∧ present i = false) as Hinv
    by (intros i; rewrite Hmiss; apply missing_elem).
  exists cw, (changed (DT ++ PT) (shard_at (F:=gf8) cw)
    (changed (invalid_of n present) (λ i, vec_resize a x00 (buffer_at (F:=gf8) bufs i)) bufs)).
  split_and!; [done|done| | | |].
  - rewrite (resize_missing_ok (F:=gf8)); [cbn [obind]| |].
    + apply (stream_block_ok (F:=gf8) self M present plan a cw); try done.
      * by rewrite length_changed.
      * intros i Hi. destruct (HV i Hi) as (s & Hsi & _).
        destruct (valid_reader readers writers i Hfit Hi) as (Hin & Hp & _).
        rewrite lookup_changed. change (@Elem gf8) with byte. rewrite Hsi. simpl.
        rewrite decide_False by (rewrite Hinv, Hp; by intros [_ ?]).
        unfold shard_at. pose proof (Hcwi i s Hi Hsi) as Hx. change (@Elem gf8) with byte in *.
        by rewrite Hx.
      * intros i Hi%missing_elem. destruct (lookup_lt_is_Some_2 bufs i) as [s Hsi]; [lia|].
        eexists. rewrite lookup_changed. change (@Elem gf8) with byte. rewrite Hsi. simpl.
        rewrite decide_True by (by apply Hinv). split; [done|]. apply length_vec_resize.
    + apply NoDup_filter, NoDup_seq.
    + intros i [Hi _]%Hinv. change (i < length bufs). lia.
  - by rewrite !length_changed.
  - intros i Hi Hp. rewrite !lookup_changed. destruct (lookup_lt_is_Some_2 bufs i) as [s Hsi]; [lia|].
    change (@Elem gf8) with byte. rewrite Hsi. simpl.
    rewrite decide_False by (rewrite missing_elem, Hp; by intros [_ ?]).
    by rewrite decide_False by (rewrite Hinv, Hp; by intros [_ ?]).
  - intros i Hi Hp. rewrite !lookup_changed. destruct (lookup_lt_is_Some_2 bufs i) as [s Hsi]; [lia|].
    change (@Elem gf8) with byte. rewrite Hsi. simpl.
    by rewrite decide_True by (by apply missing_elem).
Qed.

Lemma some_reader readers writers : streams_fit readers writers → ∃ i, reader_at readers i = true.
Proof.
  intros Hfit. pose proof (cc_data _ _ Hc) as Hd.
  destruct (lookup_lt_is_Some_2 V 0) as [i Hi]; [rewrite Henough; lia|].
  destruct (valid_reader readers writers i Hfit) as (_ & _ & r & Hr);
    [by eapply list_elem_of_lookup_2|].
  exists i. unfold reader_at. by rewrite Hr.
Qed.

(** The block has been written; what follows is restored, or ended. *)
Lemma restored_step readers readers' writers writers1 bufs bufs2 a a' cw res :
  streams_fit readers writers → block_at readers bufs a →
  codeword (F:=gf8) M d n a cw → (∀ i s, i ∈ V → bufs !! i = Some s → cw !! i = Some s) →
  writers_given writers writers1 (shard_at (F:=gf8) cw) →
  (∃ bufs1, present_read b a' readers bufs1 readers' bufs2) →
  restored_to readers' writers1 bufs2 a' res → restored_to readers writers bufs a res.
Proof.
  intros Hfit [Hlb Hblock] Hcw Hagree Hgiven [bufs1 Hread]. unfold restored_to.
  destruct res as [[readers2 writers2] [[]|e|]]; [| |done].
  - intros (m & cw' & Hcw' & Hlen & Hagree' & Hgiven').
    assert (∀ i r, readers !! i = Some (Some r) → ∃ r', readers' !! i = Some (Some r') ∧
      advanced b r r' ∧ available b r = a' ∧ bufs2 !! i = Some (take b (contents r))) as Hnext.
    { intros i r Hr. destruct Hread as (_ & _ & Hall).
      destruct (Hall i (Some r) Hr) as (? & (r' & ? & ?) & ?). eauto. }
    assert (∀ i, i < n → cw !! i = Some (shard_at (F:=gf8) cw i) ∧
      cw' !! i = Some (shard_at (F:=gf8) cw' i)) as Hat.
    { intros i Hi. destruct Hcw as [(H1' & H2' & H3') _]. destruct Hcw' as [(H1'' & H2'' & H3'') _].
      split; [by apply (lookup_shard_at (F:=gf8) cw n a)
             |by apply (lookup_shard_at (F:=gf8) cw' n (a' + m))]. }
    exists (a' + m)%nat, (zip_with (++) cw cw'). split_and!.
    + by apply codeword_append.
    + intros i r Hr. destruct (Hnext i r Hr) as (r' & Hr' & (Hcr & _) & Hav & _).
      specialize (Hlen i r' Hr'). rewrite Hcr, length_drop in Hlen. unfold available in Hav. lia.
    + intros i r s Hi Hr Hsi. destruct (Hnext i r Hr) as (r' & Hr' & (Hcr & _) & _ & Hb2).
      apply lookup_zip_with_Some. exists s, (contents r).
      split_and!; [done|by apply Hagree|].
      refine (eq_trans (Hagree' i r' _ Hi Hr' Hb2) _). by rewrite Hcr, take_drop.
    + eapply writers_given_app; [done..|]. intros i w Hw.
      assert (i < n) as Hi by (destruct Hfit as (_ & <- & _); by eapply lookup_lt_Some).
      destruct (Hat i Hi) as [Hci Hci']. unfold shard_at at 1.
      assert (zip_with (++) cw cw' !! i
        = Some (shard_at (F:=gf8) cw i ++ shard_at (F:=gf8) cw' i)) as Hz.
      { apply lookup_zip_with_Some. eexists _, _. split_and!; [done|exact Hci|exact Hci']. }
      change (@Elem gf8) with byte in *. by rewrite Hz.
  - intros [He|[He|He]].
    + left. by eapply read_failure_back.
    + right; left. by eapply unequal_back.
    + right; right. by eapply writers_given_failure.
Qed.

(** At the end of the streams nothing follows. *)
Lemma restored_end readers readers' writers writers1 bufs bufs1 bufs2 a cw :
  streams_fit readers writers → block_at readers bufs a →
  codeword (F:=gf8) M d n a cw → (∀ i s, i ∈ V → bufs !! i = Some s → cw !! i = Some s) →
  writers_given writers writers1 (shard_at (F:=gf8) cw) →
  present_read b 0 readers bufs1 readers' bufs2 →
  restored_to readers writers bufs a (readers', writers1, Ok tt).
Proof.
  intros Hfit [Hlb Hblock] Hcw Hagree Hgiven (_ & _ & Hall).
  assert (∀ i r, readers !! i = Some (Some r) → contents r = []) as Hnil.
  { intros i r Hr. destruct (Hall i (Some r) Hr) as (Hav & _). apply nil_length_inv.
    unfold available in Hav. lia. }
  exists 0, cw. rewrite Nat.add_0_r. split_and!; [done| | |done].
  - intros i r Hr. by rewrite (Hnil i r Hr).
  - intros i r s Hi Hr Hsi. rewrite (Hnil i r Hr), app_nil_r. by apply Hagree.
Qed.

Lemma fit_next len readers writers bufs readers' bufs' writers' f :
  streams_fit readers writers → present_read b len readers bufs readers' bufs' →
  writers_given writers writers' f → streams_fit readers' writers' ∧ block_at readers' bufs' len.
Proof.
  intros (Hr & Hw & Hp & Hm) Hread [Hl' Hg].
  pose proof Hread as (Hlr & Hlb & Hall). split; [split_and!; [congruence|congruence| |]|split].
  - intros i. rewrite (reader_at_back _ _ _ _ _ _ Hread). apply Hp.
  - intros i w' Hw'. destruct (lookup_lt_is_Some_2 writers i) as [y Hy].
    { rewrite <- Hl'. by eapply lookup_lt_Some. }
    specialize (Hg i y Hy). destruct y as [w|]; [by apply (Hm i w)|congruence].
  - congruence.
  - intros i r' Hr'. destruct (present_read_back _ _ _ _ _ _ Hread i r' Hr') as (r & _ & _ & Hav & Hbuf).
    eexists. split; [done|]. by rewrite length_take.
Qed.

Lemma reconstruct_loop_ok par_read par_write : ∀ fuel k readers writers bufs a,
  0 < a → streams_fit readers writers → block_at readers bufs a →
  sum_list (map stream_budget readers) < fuel →
  restored_to readers writers bufs a
    (reconstruct_stream_loop sched self plan (mk_view plan table 0 (length DT))
       (mk_view plan table (length DT) (length PT)) (invalid_of n present) b par_read par_write
       fuel k readers writers bufs a).
Proof.
  induction fuel as [|fuel IH]; intros k readers writers bufs a Ha Hfit Hblk Hfuel; [lia|].
  cbn [reconstruct_stream_loop].
  destruct (block_restored readers writers bufs a Ha Hfit Hblk)
    as (cw & bufs1 & Hcw & Hagree & -> & Hl1 & Hpres & Hmiss). cbn [map_err].
  pose proof Hfit as (Hr & Hw & Hp & Hm).
  assert (∀ i, i < n → length (shard_at (F:=gf8) cw i) = a) as Hlen.
  { intros i Hi. destruct Hcw as [(H1' & H2' & H3') _].
    by apply (lookup_shard_at (F:=gf8) cw n a). }
  pose proof (write_missing_ok (sched_writes sched k) writers bufs1 a par_write) as Hwrite.
  destruct (write_missing_streams_with_mode _ writers bufs1 a par_write) as [writers1 [[]|e|]].
  2,3: assert (∀ i w buf, writers !! i = Some (Some w) → bufs1 !! i = Some buf → a ≤ length buf)
    as Hroom by (intros i w buf Hwi Hbi; rewrite Hmiss in Hbi;
      [|rewrite <- Hw; by eapply lookup_lt_Some|by eapply Hm]; simplify_eq;
      rewrite Hlen; [done|rewrite <- Hw; by eapply lookup_lt_Some]).
  2:{ right; right. apply Hwrite; [congruence|done|rewrite Hw; apply Hs]. }
  2:{ apply Hwrite; [congruence|done|rewrite Hw; apply Hs]. }
  assert (∀ i w, writers !! i = Some (Some w) → bufs1 !! i = Some (shard_at (F:=gf8) cw i) ∧
    length (shard_at (F:=gf8) cw i) = a) as Hout.
  { intros i w Hwi. assert (i < n) by (rewrite <- Hw; by eapply lookup_lt_Some).
    split; [apply Hmiss; [done|by eapply Hm]|by apply Hlen]. }
  destruct Hwrite as [Hl1' Hgive]; [congruence| |rewrite Hw; apply Hs|].
  { intros i w buf Hwi Hbi. destruct (Hout i w Hwi) as [Hbi' Hli].
    pose proof (eq_trans (eq_sym Hbi) Hbi') as [= ->]. exact (Nat.eq_le_incl _ _ (eq_sym Hli)). }
  assert (writers_given writers writers1 (shard_at (F:=gf8) cw)) as Hgiven.
  { split; [done|]. intros i x Hx.
    destruct (lookup_lt_is_Some_2 bufs1 i) as [buf Hbuf].
    { rewrite Hl1, <- Hw. by eapply lookup_lt_Some. }
    destruct (Hgive i x buf Hx Hbuf) as (x' & Hx' & Hext). destruct x as [w|], x' as [w'|]; try done.
    exists w'. split; [done|]. destruct (Hout i w Hx) as [Hbi' Hli].
    pose proof (eq_trans (eq_sym Hbuf) Hbi') as [= ->].
    rewrite take_ge in Hext; [done|]. exact (Nat.eq_le_incl _ _ Hli). }
  pose proof (read_present_ok (sched_reads sched (S k)) readers bufs1 b par_read) as Hread.
  destruct (read_present_streams_with_mode _ readers bufs1 b par_read)
    as [[readers' bufs2] [[eof len]|e|]].
  2:{ destruct Hread as [He|He]; [congruence|rewrite Hr; apply Hs|by left|].
      right; left. by eapply unequal_block. }
  2:{ apply Hread; [congruence|rewrite Hr; apply Hs]. }
  destruct Hread as [-> Hread]; [congruence|rewrite Hr; apply Hs|].
  case_bool_decide as Heof.
  - subst len. by eapply restored_end.
  - destruct (fit_next _ _ _ _ _ _ _ _ Hfit Hread Hgiven) as [Hfit' Hblk'].
    destruct (stream_budgets _ _ _ _ _ _ Hread) as [_ Hbud].
    specialize (Hbud Heof (some_reader readers writers Hfit)).
    apply (restored_step readers readers' writers writers1 bufs bufs2 a len cw);
      [done..|by exists bufs1|]. apply IH; [lia|done|done|lia].
Qed.
End block_loop.

(** ** Properties *)
Lemma invalid_of_ext t (p q : nat → bool) : (∀ i, p i = q i) → invalid_of t p = invalid_of t q.
Proof. intros H. apply list_filter_iff. intros i. by rewrite H. Qed.

Lemma valid_of_ext t d (p q : nat → bool) : (∀ i, p i = q i) → valid_of t d p = valid_of t d q.
Proof. intros H. unfold valid_of. f_equal. apply list_filter_iff. intros i. by rewrite H. Qed.

Lemma count_split (p : nat → bool) (l : list nat) :
  length (filter (λ i, p i = true) l) + length (filter (λ i, p i = false) l) = length l.
Proof.
  induction l as [|x l IH]; [done|]. rewrite !filter_cons.
  destruct (p x); repeat case_decide; simpl; lia || done.
Qed.

Section properties.
Context {RT : Runtime} {St : Storage byte} {L : LruCache (list nat) (CachedMatrix byte)}.
Context {LL : LruLaws L} {LE : LeopardEncoders}.
Implicit Types (self : @ReedSolomon gf8 L) (M : nat → nat → byte).

Section streams.
Context {R W : Type} `{ReadLaws R} `{WriteLaws W}.
Implicit Types (readers : list (option R)) (writers : list (option W)).

(** The first present streams. *)
Definition first_present self readers : list nat :=
  valid_of (total_shard_count self) (data_shard_count self) (reader_at readers).

Inductive reconstruct_stream_error self M readers writers : StreamError → Prop :=
| rse_readers e : count_error (length readers) (total_shard_count self) e →
    reconstruct_stream_error self M readers writers e
| rse_writers e : count_error (length writers) (total_shard_count self) e →
    reconstruct_stream_error self M readers writers e
| rse_layout e : layout_error readers writers e → reconstruct_stream_error self M readers writers e
| rse_few : length (first_present self readers) < data_shard_count self →
    reconstruct_stream_error self M readers writers (stream_codec 0 TooFewShardsPresent)
| rse_read e : present_read_failure readers e → reconstruct_stream_error self M readers writers e
| rse_unequal e : unequal_lengths readers e → reconstruct_stream_error self M readers writers e
| rse_write e : missing_write_failure writers e → reconstruct_stream_error self M readers writers e
| rse_singular :
    ¬ nonsingular (F:=gf8) (data_shard_count self) (data_shard_count self)
        (selected_rows (F:=gf8) M (first_present self readers)) →
    reconstruct_stream_error self M readers writers (stream_codec 0 InvalidCustomMatrix).

(** What a successful run has given to the writers. *)
Definition streams_restored self M readers writers writers' : Prop :=
  ∃ N cw, (∀ i r, readers !! i = Some (Some r) → length (contents r) = N) ∧
    (N = 0 ∧ writers' = writers ∨
     codeword (F:=gf8) M (data_shard_count self) (total_shard_count self) N cw ∧
     (∀ i r, i ∈ first_present self readers → readers !! i = Some (Some r) →
        cw !! i = Some (contents r)) ∧
     writers_given writers writers' (shard_at (F:=gf8) cw)).

Lemma checks_ok self M readers writers :
  classic_codec (F:=gf8) self M →
  ensures (reconstruct_stream_checks self readers writers)
    (λ missing, length readers = total_shard_count self ∧ length writers = total_shard_count self ∧
       missing = invalid_of (total_shard_count self) (reader_at readers) ∧
       layout_ok readers writers ∧ length (first_present self readers) = data_shard_count self)
    (reconstruct_stream_error self M readers writers).
Proof.
  intros Hc. unfold reconstruct_stream_checks.
  pose proof (stream_count_cases (length readers) (total_shard_count self)) as Hr.
  destruct (validate_stream_count (length readers) _) as [[]|e|]; cbn [obind];
    [|by apply rse_readers|done].
  pose proof (stream_count_cases (length writers) (total_shard_count self)) as Hw.
  destruct (validate_stream_count (length writers) _) as [[]|e|]; cbn [obind];
    [|by apply rse_writers|done].
  rewrite (not_leopard_codec self M Hc).
  eapply ensures_bind; [eapply ensures_mono; [apply layout_scan; congruence| |apply rse_layout]|].
  { intros missing Hm. exact Hm. }
  intros missing [-> Hok]. rewrite Hr.
  pose proof (count_split (reader_at readers) (seq 0 (total_shard_count self))) as Hsplit.
  rewrite length_seq in Hsplit. fold (invalid_of (total_shard_count self) (reader_at readers)) in Hsplit.
  assert (length (first_present self readers) = Nat.min (data_shard_count self)
    (length (filter (λ i, reader_at readers i = true) (seq 0 (total_shard_count self))))) as Hfp
    by apply length_take.
  case_decide as Hfew; [apply rse_few; lia|]. simpl. split_and!; try done. lia.
Qed.

(** From the first block back to the whole streams. *)
Section first_block.
Context (self : @ReedSolomon gf8 L) (M : nat → nat → byte) (present : nat → bool).
Context (b a : nat) (readers readers1 : list (option R)) (writers : list (option W)).
Context (bufs bufs1 : list (list byte)).
Context (Hread : present_read b a readers bufs readers1 bufs1).

Lemma loop_error e :
  present_read_failure readers1 e ∨ unequal_lengths readers1 e ∨ missing_write_failure writers e →
  reconstruct_stream_error self M readers writers e.
Proof.
  intros [He|[He|He]].
  - apply rse_read. by eapply read_failure_back.
  - apply rse_unequal. by eapply unequal_back.
  - by apply rse_write.
Qed.

Lemma loop_restored readers2 writers2 :
  first_present self readers = valid_of (total_shard_count self) (data_shard_count self) present →
  restored_to self M present readers1 writers bufs1 a (readers2, writers2, Ok tt) →
  streams_restored self M readers writers writers2.
Proof.
  intros HV (m & cw & Hcw & Hlen & Hagree & Hgiven). exists (a + m)%nat, cw.
  assert (∀ i r, readers !! i = Some (Some r) → ∃ r', readers1 !! i = Some (Some r') ∧
    contents r' = drop b (contents r) ∧ available b r = a ∧ bufs1 !! i = Some (take b (contents r)))
    as Hnext.
  { intros i r Hr. destruct Hread as (_ & _ & Hall).
    destruct (Hall i (Some r) Hr) as (? & (r' & ? & ? & _) & ?). eauto. }
  split.
  - intros i r Hr. destruct (Hnext i r Hr) as (r' & Hr' & Hcr & Hav & _).
    specialize (Hlen i r' Hr'). rewrite Hcr, length_drop in Hlen. unfold available in Hav. lia.
  - right. split_and!; [done| |done]. rewrite HV. intros i r Hi Hr.
    destruct (Hnext i r Hr) as (r' & Hr' & Hcr & _ & Hb).
    refine (eq_trans (Hagree i r' _ Hi Hr' Hb) _). by rewrite Hcr, take_drop.
Qed.
End first_block.

Lemma stream_from_spec (sched : StreamSchedules) self M readers writers options
    (Hc : classic_codec (F:=gf8) self M) (Hv : cache_valid (F:=gf8) self)
    (Hs : ∀ k, is_io_schedule (sched_reads sched k) (total_shard_count self) ∧
               is_io_schedule (sched_writes sched k) (total_shard_count self)) :
  let '(self', _, writers', r) := reconstruct_stream_from sched self readers writers options in
  (∃ c, self' = set_cache (F:=gf8) self c) ∧ cache_valid (F:=gf8) self' ∧
  match r with
  | Ok _ => layout_ok readers writers ∧ streams_restored self M readers writers writers'
  | Err e => reconstruct_stream_error self M readers writers e
  | Panic => False
  end.
Proof.
  assert (∃ c, self = set_cache (F:=gf8) self c) as Hself.
  { exists (rs_cache self). by destruct self. }
  unfold reconstruct_stream_from. pose proof (checks_ok self M readers writers Hc) as Hchecks.
  destruct (reconstruct_stream_checks self readers writers) as [missing|e|]; [|done..].
  destruct Hchecks as (Hr & Hw & -> & Hok & Hfp).
  set (b := block_len_of options). set (pr := use_parallel_stream_io options _).
  pose proof (read_present_ok (sched_reads sched 0) readers (map (λ _, []) readers) b pr) as Hread.
  destruct (read_present_streams_with_mode _ readers _ b pr) as [[readers1 bufs1] [[eof a]|e|]].
  2:{ split_and!; [done..|]. destruct Hread as [He|He];
        [by rewrite length_map|rewrite Hr; apply Hs|by apply rse_read|].
      eapply rse_unequal, unequal_block, He. }
  2:{ exfalso. apply Hread; [by rewrite length_map|rewrite Hr; apply Hs]. }
  destruct Hread as [-> Hread]; [by rewrite length_map|rewrite Hr; apply Hs|].
  case_bool_decide as Heof.
  { split_and!; [done..|]. exists 0, []. split; [|by left]. intros i r Hi.
    destruct Hread as (_ & _ & Hall). destruct (Hall i (Some r) Hi) as [Hav _].
    pose proof (block_len_pos options). unfold available in Hav. lia. }
  set (lens := map (option_map (λ _ : R, a)) readers).
  assert (∀ i, present_at lens i = reader_at readers i) as Hpre.
  { intros i. unfold present_at, reader_at, lens. rewrite lookup_map.
    by destruct (readers !! i) as [[?|]|]. }
  rewrite (invalid_of_ext _ _ _ (λ i, eq_sym (Hpre i))).
  assert (first_present self readers
    = valid_of (total_shard_count self) (data_shard_count self) (present_at lens)) as HV.
  { apply valid_of_ext. intros i. by rewrite Hpre. }
  assert (length lens = total_shard_count self) as Hll by (unfold lens; by rewrite length_map).
  assert (∀ i l, lens !! i = Some (Some l) → l = a) as Hla.
  { intros i l. unfold lens. rewrite lookup_map.
    destruct (readers !! i) as [[?|]|]; [by intros [= <-]|done..]. }
  assert (data_shard_count self ≤ count_present lens) as Hcount.
  { rewrite HV in Hfp. unfold valid_of in Hfp. rewrite length_take in Hfp. unfold count_present.
    rewrite Hll. lia. }
  destruct (stream_plan_new_ok (F:=gf8) self M lens a Hc Hv Hll ltac:(lia) Hla Hcount)
    as (c & r & -> & Hcv & Hplan).
  destruct r as [plan|e|]; [| |done].
  2:{ destruct Hplan as [-> Hsing]. split_and!; [by eexists|done|]. apply rse_singular. by rewrite HV. }
  destruct Hplan as [Hplan Hns]. pose proof Hplan as (Hdt & _ & _ & Hrows & _).
  change (row_views (F:=gf8) plan (set_cache (F:=gf8) self c)) with (row_views (F:=gf8) plan self).
  rewrite Hrows. cbn [obind]. rewrite Hdt. cbn [obind]. unfold rows_split_at.
  cbn [view_len view_plan view_matrix view_start]. rewrite decide_False by lia.
  rewrite Nat.add_sub_swap, Nat.sub_diag by lia. cbn [map_err Nat.add].
  set (pw := use_parallel_stream_io options _).
  assert (streams_fit self (present_at lens) readers1 writers) as Hfit.
  { split_and!; [by destruct Hread as [-> _]|done| |].
    - intros i. left. rewrite Hpre. by eapply reader_at_back.
    - intros i w Hwi. rewrite Hpre. unfold reader_at.
      destruct (readers !! i) as [[r|]|] eqn:Hri; [|done..].
      destruct (proj1 (Hok i _ _ Hri Hwi)); by eexists. }
  assert (block_at self readers1 bufs1 a) as Hblk.
  { split; [by destruct Hread as (_ & -> & _)|]. intros i r' Hr'.
    destruct (present_read_back _ _ _ _ _ _ Hread i r' Hr') as (r & _ & _ & Hav & Hbuf).
    eexists. split; [done|]. by rewrite length_take. }
  destruct (stream_budgets _ _ _ _ _ _ Hread) as [Hbud _]. rewrite HV in Hfp.
  pose proof (reconstruct_loop_ok self M Hc (present_at lens) sched b (block_len_pos options) plan
    Hfp Hns Hplan Hs pr pw (S (sum_list (map stream_budget readers))) 0 readers1 writers bufs1 a
    ltac:(lia) Hfit Hblk ltac:(lia)) as Hloop.
  change (reconstruct_stream_loop sched (set_cache (F:=gf8) self c))
    with (reconstruct_stream_loop (R:=R) (W:=W) sched self).
  destruct (reconstruct_stream_loop _ _ _ _ _ _ _ _ _ _ _ _ _ _ _) as [[readers2 writers2] res].
  split_and!; [by eexists|done|]. destruct res as [[]|e|]; [|by eapply loop_error|done].
  split; [done|]. eapply loop_restored; [done|done|done].
Qed.

(** C24: streaming reconstruction on a Classic codec ends without
    a panic, for any streams, cache state, block size, mode and schedules, and keeps
    the cache correct.  If it returns [Ok], the present streams have one length and, unless
    it is zero, there is a codeword that agrees with the first [data] present streams and
    every missing stream has been given exactly its shard.  An error has the cause it
    names: a wrong number of streams, a shard with both or neither stream, too few present, a
    failed read or write, unequal lengths, or survivors that determine nothing. *)
Theorem reconstruct_stream_correct (sched : StreamSchedules) self M readers writers options
    (Hc : classic_codec (F:=gf8) self M) (Hv : cache_valid (F:=gf8) self)
    (Hs : ∀ k, is_io_schedule (sched_reads sched k) (total_shard_count self) ∧
               is_io_schedule (sched_writes sched k) (total_shard_count self)) :
  let '(self', _, writers', r) := reconstruct_stream_from sched self readers writers options in
  (∃ c, self' = set_cache (F:=gf8) self c) ∧ cache_valid (F:=gf8) self' ∧
  match r with
  | Ok _ => layout_ok readers writers ∧ streams_restored self M readers writers writers'
  | Err e => reconstruct_stream_error self M readers writers e
  | Panic => False
  end.
Proof. by apply stream_from_spec. Qed.
End streams.

(** ** Cursors *)
Section stream_inv.
Context {R W : Type} `{Read R} `{Write W}.
Context (J : nat → option R → Prop).
Context (HJ : ∀ i r cap, J i (Some r) → J i (Some (read r cap).1)).
Implicit Types (readers : list (option R)) (writers : list (option W)).

Lemma reconstruct_loop_inv sched self plan rows1 rows2 missing b pr pw :
  ∀ fuel k readers writers bufs a, all_at J 0 readers →
  let '(readers', _, _) := reconstruct_stream_loop sched self plan rows1 rows2 missing b pr pw
    fuel k readers writers bufs a in
  length readers' = length readers ∧ all_at J 0 readers'.
Proof.
  induction fuel as [|fuel IH]; intros k readers writers bufs a Hall; [done|].
  cbn [reconstruct_stream_loop]. destruct (map_err _ _) as [bufs'|e|]; [|done..].
  destruct (write_missing_streams_with_mode _ _ _ _ _) as [writers' [u|e|]]; [|done..].
  pose proof (read_present_inv J HJ (sched_reads sched (S k)) readers bufs' b pr Hall) as Hinv.
  destruct (read_present_streams_with_mode _ _ _ _ _) as [[readers' bufs''] [[eof len]|e|]]; [|done..].
  destruct Hinv as [Hl Hinv]. destruct eof; [done|].
  specialize (IH (S k) readers' writers' bufs'' len Hinv).
  destruct (reconstruct_stream_loop _ _ _ _ _ _ _ _ _ _ _ _ _ _ _) as [[readers'' ?] ?].
  by rewrite <- Hl.
Qed.

Lemma stream_from_inv sched self readers writers options : all_at J 0 readers →
  let '(_, readers', _, _) := reconstruct_stream_from sched self readers writers options in
  length readers' = length readers ∧ all_at J 0 readers'.
Proof.
  intros Hall. unfold reconstruct_stream_from.
  destruct (reconstruct_stream_checks _ _ _) as [missing|e|]; [|done..].
  set (b := block_len_of options). set (pr := use_parallel_stream_io options _).
  pose proof (read_present_inv J HJ (sched_reads sched 0) readers (map (λ _, []) readers) b pr Hall)
    as Hinv.
  destruct (read_present_streams_with_mode _ _ _ _ _) as [[readers' bufs''] [[eof len]|e|]]; [|done..].
  destruct Hinv as [Hl Hinv]. destruct eof; [done|].
  destruct (stream_plan_new _ _ _) as [self' [plan|e|]]; [|done..].
  destruct (map_err _ _) as [[rows1 rows2]|e|]; [|done..].
  set (pw := use_parallel_stream_io options _). set (fuel := S (sum_list _)).
  pose proof (reconstruct_loop_inv sched self' plan rows1 rows2 missing b pr pw fuel 0 readers'
    writers bufs'' len Hinv) as Hloop.
  destruct (reconstruct_stream_loop _ _ _ _ _ _ _ _ _ _ _ _ _ _ _) as [[readers'' ?] ?].
  by rewrite <- Hl.
Qed.
End stream_inv.

Lemma scan_present_from shards : ∀ s,
  scan_present (fold_left (λ s shard,
    let len := length (get_ref shard) in
    if decide (len = 0) then s else
    let known := if decide (known_len s = 0) then len else known_len s in
    mk_scan (S (scan_present s)) known (equal_lengths s && bool_decide (known = len)))
    shards s)
  = scan_present s + length (filter (λ c, get_ref c ≠ []) shards).
Proof.
  induction shards as [|c shards IH]; intros s; [simpl; lia|].
  rewrite filter_cons. cbn [fold_left]. rewrite IH.
  destruct (decide (length (get_ref c) = 0)) as [Hl|Hl].
  - rewrite decide_False; [done|]. apply nil_length_inv in Hl. by intros ?.
  - rewrite (decide_True (P := get_ref c ≠ [])) by (intros E; by rewrite E in Hl).
    cbn [scan_present length]. lia.
Qed.

Lemma scan_cursors_present shards :
  scan_present (scan_cursors shards) = length (filter (λ c, get_ref c ≠ []) shards).
Proof. apply scan_present_from. Qed.

(** The cursor's bytes, by its shard: reading does not change them. *)
Definition cursor_of (shards : list Cursor) (i : nat) (x : option Cursor) : Prop :=
  ∃ s, shards !! i = Some s ∧
    match x with Some c => get_ref c = get_ref s ∧ get_ref s ≠ [] | None => get_ref s = [] end.

Lemma cursor_of_read shards i r cap :
  cursor_of shards i (Some r) → cursor_of shards i (Some (read r cap).1).
Proof. done. Qed.

Lemma cursors_readers shards : all_at (cursor_of shards) 0 (map cursor_reader shards).
Proof.
  intros i x. rewrite lookup_map. simpl. destruct (shards !! i) as [s|] eqn:Hs; [|done].
  simpl. intros [= <-]. exists s. split; [done|]. unfold cursor_reader.
  by destruct (decide (get_ref s = [])).
Qed.

Lemma count_index {A} (P : A → Prop) `{∀ x, Decision (P x)} (l : list A) : ∀ (q : nat → bool) k,
  (∀ i x, l !! i = Some x → q (k + i) = bool_decide (P x)) →
  length (filter (λ i, q i = true) (seq k (length l))) = length (filter P l).
Proof.
  induction l as [|x l IH]; intros q k Hq; [done|]. simpl. rewrite !filter_cons.
  pose proof (Hq 0 x eq_refl) as Hx. rewrite Nat.add_0_r in Hx. rewrite Hx.
  assert (length (filter (λ i, q i = true) (seq (S k) (length l))) = length (filter P l)) as Hrest.
  { apply IH. intros i y Hy. rewrite Nat.add_succ_comm. by apply (Hq (S i)). }
  case_bool_decide; repeat case_decide; simpl; congruence || done.
Qed.

Section cursor_codeword.
Context (self : @ReedSolomon gf8 L) (M : nat → nat → byte) (N : nat) (cw : list (list byte)).
#[local] Abbreviation d := (data_shard_count self).
#[local] Abbreviation p := (parity_shard_count self).
#[local] Abbreviation n := (total_shard_count self).
Context (Hc : mds_codec (F:=gf8) self M) (Hcw : codeword (F:=gf8) M d n N cw).
Context (shards : list Cursor) (out_len : nat) (Hlen : length shards = n).
Context (Hshards : ∀ i s, shards !! i = Some s → get_ref s = [] ∨ cw !! i = Some (get_ref s)).
Context (Hmany : length (filter (λ s, get_ref s = []) shards) ≤ p).

#[local] Abbreviation readers := (map cursor_reader shards).
#[local] Abbreviation writers := (map (cursor_writer out_len) shards).

Lemma nonempty_count : d ≤ length (filter (λ s, get_ref s ≠ []) shards).
Proof.
  assert (length (filter (λ s, get_ref s = []) shards)
    + length (filter (λ s, get_ref s ≠ []) shards) = length shards) as Hsplit.
  { clear. induction shards as [|s l IH]; [done|]. rewrite !filter_cons.
    destruct (decide (get_ref s = [])) as [E|E].
    - rewrite (decide_False (P := get_ref s ≠ [])) by tauto. simpl. lia.
    - rewrite (decide_True (P := get_ref s ≠ [])) by tauto. simpl. lia. }
  rewrite Hlen in Hsplit. pose proof (total_count (F:=gf8) self). lia.
Qed.

Lemma cursor_reader_at i c : readers !! i = Some (Some c) →
  ∃ s, shards !! i = Some s ∧ c = mk_cursor (get_ref s) 0 ∧ cw !! i = Some (get_ref s) ∧
    length (get_ref s) = N.
Proof.
  rewrite lookup_map. destruct (shards !! i) as [s|] eqn:Hs; simpl; [|done].
  unfold cursor_reader. case_decide as E; [done|]. intros Hx. injection Hx as <-.
  exists s. destruct (Hshards i s Hs) as [|Hi]; [done|]. split_and!; try done.
  destruct Hcw as [(_ & _ & Hall) _]. exact (Forall_lookup_1 _ _ _ _ Hall Hi).
Qed.

Lemma reader_at_cursor i s : shards !! i = Some s →
  reader_at readers i = bool_decide (get_ref s ≠ []).
Proof.
  intros Hs. unfold reader_at. rewrite lookup_map, Hs. simpl. unfold cursor_reader.
  case_decide as E; [by rewrite bool_decide_eq_false_2 by tauto|by rewrite bool_decide_eq_true_2].
Qed.

Lemma first_present_enough : length (first_present self readers) = d.
Proof.
  unfold first_present, valid_of. rewrite length_take, <- Hlen.
  rewrite (count_index (λ s, get_ref s ≠ []) shards) by (apply reader_at_cursor).
  pose proof nonempty_count. lia.
Qed.

Lemma no_stream_error e : ¬ reconstruct_stream_error self M readers writers e.
Proof.
  pose proof first_present_enough as Hfp.
  intros Herr. destruct Herr as [e Hcnt|e Hcnt|e Hlay|Hfew|e Hread|e Hun|e Hwrite|Hsing].
  - destruct Hcnt as [[Hl _]|[Hl _]]; rewrite length_map in Hl; lia.
  - destruct Hcnt as [[Hl _]|[Hl _]]; rewrite length_map in Hl; lia.
  - destruct Hlay as (i & r & w & Hr & Hw & Heq & _). rewrite lookup_map in Hr. rewrite lookup_map in Hw.
    destruct (shards !! i) as [s|]; [|done]. simpl in Hr, Hw. injection Hr as <-. injection Hw as <-.
    unfold cursor_reader, cursor_writer in Heq. revert Heq.
    case_decide; intros [Hr Hw]; [destruct (Hw ltac:(by eexists))|destruct (Hr ltac:(by eexists))]; done.
  - lia.
  - by destruct Hread as (i & r & x & _ & Hx & _).
  - destruct Hun as (bad & r & i & r' & Hr & Hr' & Hlt & _).
    destruct (cursor_reader_at bad r Hr) as (s & _ & -> & _ & Hl).
    destruct (cursor_reader_at i r' Hr') as (s' & _ & -> & _ & Hl').
    simpl in Hlt. rewrite !drop_0 in Hlt. lia.
  - by destruct Hwrite as (i & r & x & _ & Hx & _).
  - apply Hsing. destruct Hc as [_ Hmds]. rewrite <- (total_count (F:=gf8) self) in Hmds.
    apply Hmds. pose proof (valid_of_survivors n d (reader_at readers) Hfp) as (Hsorted & Hl & Hb).
    unfold first_present.
    apply rows_at_selection; [|by rewrite Hl|done].
    rewrite <- (map_id (valid_of _ _ _)). by apply (sorted_nodup _ (λ x, x)).
Qed.

Lemma cursors_restored writers' readers' :
  length readers' = n → all_at (cursor_of shards) 0 readers' →
  streams_restored self M readers writers writers' →
  map get_ref (zip_with cursor_back shards (zip readers' writers')) = cw.
Proof.
  intros Hlr Hinv (N' & cw' & Hlens & Hres).
  pose proof first_present_enough as Hfp. pose proof Hcw as [(Hlc & HN & Hall) _].
  pose proof (valid_of_survivors n d (reader_at readers) Hfp) as (Hsorted & Hl & Hb).
  assert (∀ i, i ∈ first_present self readers → ∃ c, readers !! i = Some (Some c)) as Hin.
  { intros i Hi. unfold first_present in Hi. apply elem_take, list_elem_of_filter in Hi as [Hi _].
    unfold reader_at in Hi. destruct (readers !! i) as [[c|]|]; by eauto. }
  assert (N' ≠ 0) as HN'.
  { destruct (lookup_lt_is_Some_2 (first_present self readers) 0) as [i Hi].
    { rewrite Hfp. apply (cc_data _ _ (proj1 Hc)). }
    destruct (Hin i) as [c Hci]; [by eapply list_elem_of_lookup_2|].
    destruct (cursor_reader_at i c Hci) as (s & _ & -> & _ & Hls).
    rewrite <- (Hlens i _ Hci). simpl. rewrite drop_0. lia. }
  destruct Hres as [[? _]|(Hcw' & Hagree & Hlw & Hgiven)]; [done|].
  assert (∀ i, i ∈ first_present self readers → i < n ∧ cw' !! i = cw !! i ∧ N' = N) as Hsame.
  { intros i Hi. destruct (Hin i Hi) as [c Hci].
    destruct (cursor_reader_at i c Hci) as (s & _ & -> & Hcwi & Hls).
    pose proof (Hagree i _ Hi Hci) as Hcwi'. pose proof (Hlens i _ Hci) as HlN.
    simpl in Hcwi', HlN. rewrite drop_0 in Hcwi', HlN.
    split_and!; [by apply Hb|exact (eq_trans Hcwi' (eq_sym Hcwi))|congruence]. }
  assert (cw' = cw) as ->.
  { destruct (lookup_lt_is_Some_2 (first_present self readers) 0) as [i Hi].
    { rewrite Hfp. apply (cc_data _ _ (proj1 Hc)). }
    destruct (Hsame i) as (_ & _ & ->); [by eapply list_elem_of_lookup_2|].
    destruct Hc as [_ Hmds]. rewrite <- (total_count (F:=gf8) self) in Hmds.
    apply (codeword_unique (F:=gf8) M d n N cw' cw (first_present self readers));
      [done|done|done| |by rewrite Hfp|].
    - rewrite <- (map_id (first_present _ _)). by apply (sorted_nodup _ (λ x, x)).
    - intros r Hr. by destruct (Hsame r Hr) as (? & ? & _). }
  rewrite length_map in Hlw.
  apply list_ext_lt.
  { rewrite length_map, !length_zip_with, Hlr, Hlen, Hlw, Hlen, !Nat.min_id. exact (eq_sym Hlc). }
  intros i. rewrite length_map, !length_zip_with, Hlr, Hlen, Hlw, Hlen. intros Hi.
  destruct (lookup_lt_is_Some_2 shards i) as [s Hs]; [lia|].
  destruct (lookup_lt_is_Some_2 readers' i) as [x Hx]; [lia|].
  destruct (lookup_lt_is_Some_2 writers' i) as [y Hy]; [lia|].
  assert (zip_with cursor_back shards (zip readers' writers') !! i = Some (cursor_back s (x, y))) as Hz.
  { apply lookup_zip_with_Some. exists s, (x, y). split_and!; [done..|]. by apply lookup_zip_Some. }
  rewrite lookup_map, Hz. simpl.
  destruct (Hinv i x Hx) as (s' & Hs' & Hsx). simpl in Hs'. simplify_eq.
  destruct x as [c|].
  - destruct Hsx as [-> Hne]. destruct (Hshards i s Hs) as [|Hcwi]; [done|]. exact (eq_sym Hcwi).
  - assert (writers !! i = Some (Some (mk_recovery_writer [] out_len))) as Hw.
    { rewrite lookup_map, Hs. simpl. unfold cursor_writer. rewrite Hsx. by rewrite decide_True. }
    destruct (Hgiven i _ Hw) as (w' & Hw' & Hext & _). simplify_eq. simpl in Hext |- *.
    rewrite Hext. symmetry. apply (lookup_shard_at (F:=gf8) cw n N Hlc Hall). lia.
Qed.
End cursor_codeword.

(** C15: cursors that hold the shards of a codeword of an MDS
    codec, at most [parity] of them emptied, are all restored by [reconstruct_stream],
    for any cursor positions, cache state, block size, mode and schedules. *)
Theorem reconstruct_stream_restores (sched : StreamSchedules) self M (N : nat)
    (cw : list (list byte)) (shards : list Cursor) options
    (Hc : mds_codec (F:=gf8) self M) (Hv : cache_valid (F:=gf8) self)
    (Hs : ∀ k, is_io_schedule (sched_reads sched k) (total_shard_count self) ∧
               is_io_schedule (sched_writes sched k) (total_shard_count self))
    (Hcw : codeword (F:=gf8) M (data_shard_count self) (total_shard_count self) N cw)
    (Hlen : length shards = total_shard_count self)
    (Hshards : ∀ i s, shards !! i = Some s → get_ref s = [] ∨ cw !! i = Some (get_ref s))
    (Hmany : length (filter (λ s, get_ref s = []) shards) ≤ parity_shard_count self) :
  let '(self', shards', r) := reconstruct_stream sched self shards options in
  r = Ok tt ∧ map get_ref shards' = cw ∧ (∃ c, self' = set_cache (F:=gf8) self c) ∧
  cache_valid (F:=gf8) self'.
Proof.
  unfold reconstruct_stream.
  pose proof (stream_count_cases (length shards) (total_shard_count self)) as Hcnt.
  destruct (validate_stream_count _ _) as [[]|e|];
    [|by destruct Hcnt as [[Hl _]|[Hl _]]; rewrite Hlen in Hl; lia|done].
  rewrite (not_leopard_codec self M (proj1 Hc)).
  pose proof (nonempty_count self shards Hlen Hmany) as Henough.
  pose proof (cc_data _ _ (proj1 Hc)) as Hd.
  rewrite <- scan_cursors_present in Henough.
  rewrite decide_False by lia. rewrite decide_False by lia.
  set (out_len := if equal_lengths _ then _ else _).
  pose proof (stream_from_spec sched self M (map cursor_reader shards)
    (map (cursor_writer out_len) shards) options (proj1 Hc) Hv Hs) as Hspec.
  pose proof (stream_from_inv (W:=RecoveryVecWriter) (cursor_of shards) (cursor_of_read shards)
    sched self (map cursor_reader shards) (map (cursor_writer out_len) shards) options
    (cursors_readers shards)) as Hinv.
  destruct (reconstruct_stream_from _ _ _ _ _) as [[[self' readers'] writers'] r].
  destruct Hspec as (Hself & Hv' & Hr). destruct Hinv as [Hlr Hinv]. rewrite length_map, Hlen in Hlr.
  destruct r as [[]|e|].
  - destruct Hr as [_ Hr]. split_and!; [done| |done|done].
    by apply (cursors_restored self M N cw Hc Hcw shards out_len Hlen Hshards Hmany).
  - by destruct (no_stream_error self M N cw Hc Hcw shards out_len Hlen Hshards Hmany e).
  - done.
Qed.
End properties.
