(* ===== verification/LeoSlices.v ===== *)
(** * Exclusive or of byte slices in the Leopard engines
    ([slice_xor_u64] of [src/core/leopard_gf8/ops.rs]; [slice_xor_u16_u64] of
    [leopard_gf16/ops.rs] has the same loops with the arguments exchanged)

    Whole blocks of 64 bytes as eight [u64] words, then words, then bytes: the loops
    compute the bytewise exclusive or. *)

From Stdlib Require Import NArith Lia List Bool.
From stdpp Require Import base numbers list.
From S2P Require Import Prelude Bytes Encode.

(** ** Slices *)

(** [l.as_chunks::<n>()]: the whole chunks and the rest. *)
Fixpoint split_chunks {A} (fuel n : nat) (l : list A) : list (list A) * list A :=
  match fuel with
  | O => ([], l)
  | S fuel =>
      if n <=? length l then
        let '(chunks, tail) := split_chunks fuel n (drop n l) in (take n l :: chunks, tail)
      else ([], l)
  end.

Definition as_chunks {A} (n : nat) (l : list A) : list (list A) * list A :=
  split_chunks (length l) n l.

(** A little-endian [u64] in memory. *)
Definition u64_from_ne_bytes (b : list byte) : N :=
  fold_right (λ x n, u8_to_N x + 256 * n)%N 0%N b.
Definition u64_to_ne_bytes (n : N) : list byte :=
  tabulate 8 (λ k, as_u8 (N.shiftr n (8 * N.of_nat k))).

Definition xor_u64 (dst src : list byte) : list byte :=
  u64_to_ne_bytes (N.lxor (u64_from_ne_bytes dst) (u64_from_ne_bytes src)).

(** Eight words of a chunk of 64 bytes. *)
Definition xor_words (dst src : list byte) : list byte :=
  List.concat (tabulate 8 (λ i, xor_u64 (take 8 (drop (i * 8) dst)) (take 8 (drop (i * 8) src)))).

Definition slice_xor_u64 (input out : list byte) : list byte :=
  let '(input64, input_tail64) := as_chunks 64 input in
  let '(out64, out_tail64) := as_chunks 64 out in
  let '(input8, input_tail) := as_chunks 8 input_tail64 in
  let '(out8, out_tail) := as_chunks 8 out_tail64 in
  List.concat (zip_assign xor_words out64 input64) ++
  List.concat (zip_assign xor_u64 out8 input8) ++ zip_assign u8_xor out_tail input_tail.

(** ** The exclusive or is bytewise *)
Section slices.
Implicit Types (a b : list byte).

Lemma as_u8_lxor n m : as_u8 (N.lxor n m) = u8_xor (as_u8 n) (as_u8 m).
Proof.
  apply u8_to_N_inj. rewrite u8_to_N_xor, !u8_to_N_as_u8. change 256%N with (2 ^ 8)%N.
  rewrite <- !N.land_ones. apply N.bits_inj. intros k.
  rewrite ?N.land_spec, ?N.lxor_spec, ?N.land_spec.
  by destruct (N.testbit n k), (N.testbit m k), (N.testbit (N.ones 8) k).
Qed.

Lemma u64_from_cons x a :
  as_u8 (u64_from_ne_bytes (x :: a)) = x ∧
  N.shiftr (u64_from_ne_bytes (x :: a)) 8 = u64_from_ne_bytes a.
Proof.
  pose proof (u8_to_N_bound x) as Hx. cbn [u64_from_ne_bytes fold_right].
  fold (u64_from_ne_bytes a). split.
  - apply u8_to_N_inj. rewrite u8_to_N_as_u8. symmetry.
    apply (N.mod_unique _ _ (u64_from_ne_bytes a)); lia.
  - rewrite N.shiftr_div_pow2. change (2 ^ 8)%N with 256%N. symmetry.
    apply (N.div_unique _ _ _ (u8_to_N x)); lia.
Qed.

Lemma xor_bytes a : ∀ b, length a = length b →
  tabulate (length a)
    (λ k, as_u8 (N.shiftr (N.lxor (u64_from_ne_bytes a) (u64_from_ne_bytes b)) (8 * N.of_nat k)))
  = zip_with u8_xor a b.
Proof.
  induction a as [|x a IH]; intros [|y b] Hl; try done. simpl in Hl. cbn [length].
  rewrite tabulate_S. destruct (u64_from_cons x a) as [Hx Ha], (u64_from_cons y b) as [Hy Hb].
  cbn [zip_with]. f_equal.
  - by rewrite N.mul_0_r, N.shiftr_0_r, as_u8_lxor, Hx, Hy.
  - rewrite <- IH by lia. apply tabulate_ext. intros k _. f_equal.
    replace (8 * N.of_nat (S k))%N with (8 + 8 * N.of_nat k)%N by lia.
    by rewrite <- N.shiftr_shiftr, N.shiftr_lxor, Ha, Hb.
Qed.

Lemma xor_u64_bytes a b : length a = 8 → length b = 8 → xor_u64 a b = zip_with u8_xor a b.
Proof. intros Ha Hb. rewrite <- xor_bytes by lia. by rewrite Ha. Qed.

Lemma zip_take_drop a b n :
  zip_with u8_xor (take n a) (take n b) ++ zip_with u8_xor (drop n a) (drop n b)
  = zip_with u8_xor a b.
Proof. by rewrite <- zip_with_take, <- zip_with_drop, take_drop. Qed.

Lemma concat_words a : ∀ n b, length a = 8 * n → length b = 8 * n →
  List.concat (tabulate n (λ i, xor_u64 (take 8 (drop (i * 8) a)) (take 8 (drop (i * 8) b))))
  = zip_with u8_xor a b.
Proof.
  intros n. revert a. induction n as [|n IH]; intros a b Ha Hb.
  - destruct a; [|simpl in Ha; lia]. done.
  - rewrite tabulate_S. cbn [List.concat]. rewrite <- (zip_take_drop a b 8). f_equal.
    + rewrite Nat.mul_0_l, !drop_0. apply xor_u64_bytes; len.
    + rewrite <- IH by len. f_equal. apply tabulate_ext. intros i _.
      rewrite !drop_drop. do 3 f_equal; lia.
Qed.

Lemma xor_words_bytes a b : length a = 64 → length b = 64 → xor_words a b = zip_with u8_xor a b.
Proof. intros Ha Hb. by apply concat_words. Qed.

Lemma split_chunks_length {A} fuel n (l : list A) : 0 < n →
  length (split_chunks fuel n l).1 ≤ fuel ∧
  Forall (λ c, length c = n) (split_chunks fuel n l).1.
Proof.
  intros Hn. revert l. induction fuel as [|fuel IH]; intros l; [done|]. cbn [split_chunks].
  destruct (Nat.leb_spec n (length l)); [|split; [simpl; lia|done]].
  specialize (IH (drop n l)). destruct (split_chunks fuel n (drop n l)) as [cs tl].
  simpl in *. destruct IH as [IH1 IH2]. split; [lia|]. constructor; [len|done].
Qed.

(** Chunk by chunk is element by element. *)
Lemma chunked_zip {A B} (h : A → B → A) f fuel n :
  (∀ x y, length x = n → length y = n → f x y = zip_with h x y) →
  ∀ (a : list A) (b : list B), length a = length b →
  let '(ca, ta) := split_chunks fuel n a in let '(cb, tb) := split_chunks fuel n b in
  length ta = length tb ∧
  List.concat (zip_assign f ca cb) ++ zip_with h ta tb = zip_with h a b.
Proof.
  intros Hf. induction fuel as [|fuel IH]; intros a b Hl; [done|]. cbn [split_chunks].
  rewrite <- Hl. destruct (Nat.leb_spec n (length a)) as [Hn|Hn]; [|done].
  specialize (IH (drop n a) (drop n b) ltac:(len)).
  destruct (split_chunks fuel n (drop n a)) as [ca ta], (split_chunks fuel n (drop n b)) as [cb tb].
  destruct IH as [IH1 IH2]. split; [done|].
  cbn [zip_assign zip_with length drop app List.concat]. unfold zip_assign in IH2 |- *.
  cbn [zip_with length drop app List.concat]. rewrite <- app_assoc, IH2, Hf by len.
  by rewrite <- zip_with_take, <- zip_with_drop, take_drop.
Qed.

Lemma zip_assign_eq {A B} (f : A → B → A) l m : length l = length m → zip_assign f l m = zip_with f l m.
Proof. intros H. unfold zip_assign. by rewrite <- H, drop_all, app_nil_r. Qed.

Lemma slice_xor_u64_bytes a b : length a = length b → slice_xor_u64 a b = zip_with u8_xor b a.
Proof.
  intros Hl. unfold slice_xor_u64, as_chunks. rewrite Hl.
  pose proof (chunked_zip u8_xor xor_words (length b) 64 xor_words_bytes b a (eq_sym Hl)) as H64.
  destruct (split_chunks (length b) 64 b) as [cb tb], (split_chunks (length b) 64 a) as [ca ta].
  destruct H64 as [Ht H64]. rewrite <- Ht.
  pose proof (chunked_zip u8_xor xor_u64 (length tb) 8 xor_u64_bytes tb ta Ht) as H8.
  destruct (split_chunks (length tb) 8 tb) as [cb8 tb8], (split_chunks (length tb) 8 ta) as [ca8 ta8].
  destruct H8 as [Ht8 H8]. rewrite (zip_assign_eq _ tb8) by done. by rewrite H8.
Qed.
End slices.
