(* ===== verification/Lch.v ===== *)
(** * Polynomials over a Cantor basis

    The mathematics behind the Leopard engines ([src/core/leopard_gf8],
    [src/core/leopard_gf16]); nothing here models code.  The points [pt 0], [pt 1], ..
    are indexed so that exclusive or of indices is addition and halving an index is the
    map [x ↦ x² + x].  A polynomial of [2^k] coefficients in the basis of products of
    the subspace polynomials [sub] is evaluated on a block of [2^k] points by [k] layers
    of butterflies, and its formal derivative is a sum of shifted coefficients.
    [erasure_values] is the identity that erasure decoding rests on. *)

From Stdlib Require Import NArith Arith Lia List Bool Ring.
From stdpp Require Import base numbers list.
From S2P Require Import Prelude Fields LinAlg.

Local Open Scope field_scope.

(** ** Polynomial functions with their derivatives *)
Section poly.
Context {F : Field} {FL : FieldLaws F}.
Add Ring elem_ring : field_ring_theory (morphism field_ring_morph, constants [field_const]).
Implicit Types (p q : list Elem) (f g : Elem → Elem) (x a : Elem).

Fixpoint padd p q : list Elem :=
  match p, q with
  | [], _ => q
  | _, [] => p
  | a :: p, b :: q => (a + b) :: padd p q
  end.

(** The formal derivative, as a function: [(c + X p)' = p + X p']. *)
Fixpoint eval_deriv p x : Elem :=
  match p with [] => 0 | c :: p => eval p x + x * eval_deriv p x end.

(** [f] is given by a polynomial of at most [n] coefficients, with derivative [f']. *)
Definition poly (n : nat) f f' : Prop :=
  ∃ p, (length p ≤ n)%nat ∧ ∀ x, eval p x = f x ∧ eval_deriv p x = f' x.

Lemma length_padd p q : length (padd p q) = Nat.max (length p) (length q).
Proof. revert q. induction p as [|a p IH]; intros [|b q]; simpl; rewrite ?IH; lia. Qed.

Lemma eval_padd p q x : eval (padd p q) x = eval p x + eval q x.
Proof. revert q. induction p as [|a p IH]; intros [|b q]; simpl; rewrite ?IH; ring. Qed.

Lemma eval_deriv_padd p q x :
  eval_deriv (padd p q) x = eval_deriv p x + eval_deriv q x.
Proof.
  revert q. induction p as [|a p IH]; intros [|b q]; simpl; rewrite ?IH, ?eval_padd; ring.
Qed.

Lemma eval_scale a p x : eval (map (mul a) p) x = a * eval p x.
Proof. induction p as [|b p IH]; simpl; [ring|]. rewrite IH. ring. Qed.

Lemma eval_deriv_scale a p x : eval_deriv (map (mul a) p) x = a * eval_deriv p x.
Proof. induction p as [|b p IH]; simpl; [ring|]. rewrite IH, eval_scale. ring. Qed.

Lemma eval_deriv_zeros p x : Forall (λ c, c = 0) p → eval_deriv p x = 0.
Proof.
  induction 1 as [|c p Hc Hp IH]; simpl; [done|]. rewrite IH, eval_zeros by done. ring.
Qed.

Lemma poly_ext n f f' g g' :
  (∀ x, f x = g x) → (∀ x, f' x = g' x) → poly n f f' → poly n g g'.
Proof.
  intros Hf Hf' (p & Hl & Hp). exists p. split; [done|]. intros x.
  by rewrite <- Hf, <- Hf'.
Qed.

Lemma poly_mono n m f f' : (n ≤ m)%nat → poly n f f' → poly m f f'.
Proof. intros Hnm (p & Hl & Hp). exists p. split; [lia|done]. Qed.

Lemma poly_0 n : poly n (λ _, 0) (λ _, 0).
Proof. exists []. split; [simpl; lia|done]. Qed.

Lemma poly_add n f f' g g' :
  poly n f f' → poly n g g' → poly n (λ x, f x + g x) (λ x, f' x + g' x).
Proof.
  intros (p & Hp & Hf) (q & Hq & Hg). exists (padd p q). split.
  - rewrite length_padd. lia.
  - intros x. destruct (Hf x) as [<- <-]. destruct (Hg x) as [<- <-].
    by rewrite eval_padd, eval_deriv_padd.
Qed.

Lemma poly_scale n a f f' : poly n f f' → poly n (λ x, a * f x) (λ x, a * f' x).
Proof.
  intros (p & Hp & Hf). exists (map (mul a) p). rewrite length_map. split; [done|].
  intros x. destruct (Hf x) as [<- <-]. by rewrite eval_scale, eval_deriv_scale.
Qed.

Lemma poly_shift n f f' : poly n f f' → poly (S n) (λ x, x * f x) (λ x, f x + x * f' x).
Proof.
  intros (p & Hp & Hf). exists (0 :: p). split; [simpl; lia|].
  intros x. destruct (Hf x) as [<- <-]. simpl. split; ring.
Qed.

Lemma poly_const c : poly 1 (λ _, c) (λ _, 0).
Proof. exists [c]. split; [done|]. intros x. simpl. split; ring. Qed.

(** Leibniz' rule. *)
Lemma poly_mul n m f f' g g' :
  poly (S n) f f' → poly m g g' →
  poly (n + m) (λ x, f x * g x) (λ x, f' x * g x + f x * g' x).
Proof.
  intros Hf (q & Hq & Hg).
  assert (poly (n + length q) (λ x, f x * eval q x) (λ x, f' x * eval q x + f x * eval_deriv q x))
    as Hm.
  { clear Hq Hg. induction q as [|c q IH]; simpl.
    - refine (poly_ext _ _ _ _ _ _ _ (poly_0 _)); intros x; simpl; ring.
    - refine (poly_ext _ _ _ _ _ _ _ (poly_add _ _ _ _ _
        (poly_mono _ _ _ _ _ (poly_scale _ c _ _ Hf)) (poly_mono _ _ _ _ _ (poly_shift _ _ _ IH))));
        [intros x; simpl; ring|intros x; simpl; ring|lia|lia]. }
  apply (poly_mono (n + length q)%nat); [lia|].
  refine (poly_ext _ _ _ _ _ _ _ Hm); intros x; destruct (Hg x) as [Hg1 Hg2];
    by rewrite ?Hg1, ?Hg2.
Qed.

(** A polynomial function that vanishes at enough points is zero, and so is its
    derivative. *)
Lemma poly_zero_at n f f' (pt : nat → Elem) x :
  poly n f f' → (∀ i j, i < n → j < n → pt i = pt j → i = j) →
  (∀ i, i < n → f (pt i) = 0) → f x = 0 ∧ f' x = 0.
Proof.
  intros (p & Hl & Hp) Hinj Hz. destruct (Hp x) as [<- <-].
  assert (Forall (λ c, c = 0) p) as Hzero.
  { apply (root_bound p (map pt (seq 0 n))).
    - apply NoDup_fmap_2_strong; [|apply NoDup_seq].
      intros i j Hi Hj. apply elem_of_seq in Hi, Hj. apply Hinj; lia.
    - len.
    - intros y (i & -> & Hi)%list_elem_of_fmap. apply elem_of_seq in Hi.
      destruct (Hp (pt i)) as [-> _]. apply Hz. lia. }
  split; [by apply eval_zeros|by apply eval_deriv_zeros].
Qed.

Lemma poly_unique n f f' g g' (pt : nat → Elem) x :
  poly n f f' → poly n g g' → (∀ i j, i < n → j < n → pt i = pt j → i = j) →
  (∀ i, i < n → f (pt i) = g (pt i)) → f x = g x ∧ f' x = g' x.
Proof.
  intros Hf Hg Hinj Heq.
  destruct (poly_zero_at n _ _ pt x (poly_add _ _ _ _ _ Hf Hg) Hinj) as [H1 H2].
  - intros i Hi. simpl. rewrite Heq by done. ring.
  - by apply add_cancel in H1, H2.
Qed.
End poly.

(** ** The points and the subspace polynomials *)
Class CantorPoints (F : Field) (w : nat) (pt : nat → Elem) : Prop := {
  pt_xor i j : i < 2 ^ w → j < 2 ^ w → pt (Nat.lxor i j) = pt i + pt j;
  pt_half i : i < 2 ^ w → pt i * pt i + pt i = pt (i / 2)%nat;
  pt_inj i j : i < 2 ^ w → j < 2 ^ w → pt i = pt j → i = j;
  pt_order : 0 < w;
}.

(** Blocks of [2 ^ k] indices. *)
Lemma pow2_pos k : 0 < 2 ^ k.
Proof. induction k; simpl; lia. Qed.

Lemma pow2_S k : 2 ^ S k = (2 ^ k + 2 ^ k)%nat.
Proof. simpl. lia. Qed.

Lemma pow2_le j k : j ≤ k → 2 ^ j ≤ 2 ^ k.
Proof. apply Nat.pow_le_mono_r. done. Qed.

Lemma lxor_block k q r : r < 2 ^ k → Nat.lxor (q * 2 ^ k) r = (q * 2 ^ k + r)%nat.
Proof.
  intros Hr. rewrite <- Nat.shiftl_mul_pow2. symmetry. apply Nat.add_nocarry_lxor.
  apply Nat.bits_inj. intros i. rewrite Nat.land_spec, Nat.bits_0.
  destruct (decide (i < k)) as [Hi|Hi].
  - by rewrite Nat.shiftl_spec_low by done.
  - rewrite (Nat.testbit_eqb r), Nat.div_small; [by rewrite andb_false_r|].
    apply (Nat.lt_le_trans _ _ _ Hr), pow2_le. lia.
Qed.

Lemma block_div k q r : r < 2 ^ k → ((q * 2 ^ k + r) / 2 ^ k)%nat = q.
Proof.
  intros Hr. pose proof (pow2_pos k). rewrite Nat.div_add_l by lia.
  rewrite Nat.div_small by done. lia.
Qed.

Section cantor.
Context {F : Field} {FL : FieldLaws F}.
Add Ring elem_ring2 : field_ring_theory (morphism field_ring_morph, constants [field_const]).
Context (w : nat) (pt : nat → Elem) {CP : CantorPoints F w pt}.
Implicit Types (c d f : nat → Elem) (x y a : Elem).

Lemma pt_0 : pt 0 = 0.
Proof.
  pose proof (pow2_pos w). pose proof (pt_xor 0 0 ltac:(lia) ltac:(lia)) as H0.
  rewrite Nat.lxor_0_l in H0. rewrite H0. apply add_self.
Qed.

Lemma pt_1 : pt 1 = 1.
Proof.
  pose proof (pt_order (w:=w) (pt:=pt)). pose proof (pow2_le 1 w ltac:(lia)) as Hw. simpl in Hw.
  pose proof (pt_half 1 ltac:(lia)) as H1. change (1 / 2)%nat with 0%nat in H1.
  rewrite pt_0 in H1. assert (pt 1 * (pt 1 + 1) = 0) as [Hz|Hz]%mul_eq_0.
  - rewrite <- H1. ring.
  - rewrite <- pt_0 in Hz. apply pt_inj in Hz; lia.
  - by apply add_cancel in Hz.
Qed.

Lemma pt_block k q r : (q * 2 ^ k + r < 2 ^ w)%nat → r < 2 ^ k →
  pt (q * 2 ^ k + r)%nat = pt (q * 2 ^ k)%nat + pt r.
Proof. intros Hw Hr. rewrite <- lxor_block by done. apply pt_xor; lia. Qed.

(** The polynomial that vanishes on the first [2 ^ k] points, one step of the chain
    for each bit. *)
Fixpoint sub (k : nat) x : Elem :=
  match k with O => x | S k => let y := sub k x in y * y + y end.

Lemma sub_pt k i : i < 2 ^ w → sub k (pt i) = pt (i / 2 ^ k)%nat.
Proof.
  intros Hi. induction k as [|k IH]; cbn [sub].
  - by rewrite Nat.div_1_r.
  - rewrite IH, pt_half.
    + by rewrite Nat.Div0.div_div, Nat.pow_succ_r', (Nat.mul_comm 2).
    + apply Nat.Div0.div_lt_upper_bound. pose proof (pow2_pos k).
      pose proof (Nat.mul_le_mono_r 1 (2 ^ k) (2 ^ w)). lia.
Qed.

Lemma poly_sub k : poly (S (2 ^ k)) (sub k) (λ _, 1).
Proof.
  induction k as [|k IH].
  - refine (poly_ext _ _ _ _ _ _ _ (poly_shift _ _ _ (poly_const 1))); intros x; simpl; ring.
  - refine (poly_ext _ _ _ _ _ _ _ (poly_add _ _ _ _ _
      (poly_mono _ _ _ _ _ (poly_mul _ _ _ _ _ _ IH IH)) (poly_mono _ _ _ _ _ IH)));
      [intros x; simpl; ring|intros x; simpl; ring|rewrite pow2_S; lia|rewrite pow2_S; lia].
Qed.

(** ** The basis of products of subspace polynomials *)

(** The value at [x] of the polynomial with the coefficients [c 0 .. c (2^k - 1)]. *)
Fixpoint nval (k : nat) c x : Elem :=
  match k with
  | O => c 0%nat
  | S k => nval k c x + sub k x * nval k (λ j, c (2 ^ k + j)%nat) x
  end.

(** The coefficients of the derivative. *)
Fixpoint dcoef (k : nat) c (j : nat) : Elem :=
  match k with
  | O => 0
  | S k =>
      if decide (j < 2 ^ k) then dcoef k c j + c (2 ^ k + j)%nat
      else dcoef k (λ i, c (2 ^ k + i)%nat) (j - 2 ^ k)
  end.

Lemma nval_ext k c d x : (∀ j, j < 2 ^ k → c j = d j) → nval k c x = nval k d x.
Proof.
  revert c d. induction k as [|k IH]; intros c d H; cbn [nval].
  - apply H. simpl. lia.
  - pose proof (pow2_S k) as HS.
    rewrite (IH c d) by (intros j Hj; apply H; lia).
    rewrite (IH (λ j, c (2 ^ k + j)%nat) (λ j, d (2 ^ k + j)%nat)); [done|].
    intros j Hj. apply H. lia.
Qed.

Lemma nval_add k c d x : nval k (λ j, c j + d j) x = nval k c x + nval k d x.
Proof. revert c d. induction k as [|k IH]; intros c d; cbn [nval]; rewrite ?IH; ring. Qed.

Lemma nval_scale k a c x : nval k (λ j, a * c j) x = a * nval k c x.
Proof.
  revert c. induction k as [|k IH]; intros c; cbn [nval]; [done|].
  rewrite IH, (IH (λ j, c (2 ^ k + j)%nat)). ring.
Qed.

Lemma nval_zero k c x : (∀ j, j < 2 ^ k → c j = 0) → nval k c x = 0.
Proof.
  intros H. rewrite (nval_ext k c (λ j, 0 * c j)).
  - rewrite nval_scale. ring.
  - intros j Hj. rewrite H by done. ring.
Qed.

Lemma dcoef_S k c x :
  nval (S k) (dcoef (S k) c) x =
  nval k (dcoef k c) x + nval k (λ j, c (2 ^ k + j)%nat) x
  + sub k x * nval k (dcoef k (λ j, c (2 ^ k + j)%nat)) x.
Proof.
  cbn [nval]. rewrite <- nval_add. f_equal; [|f_equal].
  - apply nval_ext. intros j Hj. cbn [dcoef]. by rewrite decide_True.
  - apply nval_ext. intros j Hj. cbn [dcoef]. rewrite decide_False by lia.
    f_equal. lia.
Qed.

Lemma poly_nval_low k n c : (∀ j, n ≤ j → j < 2 ^ k → c j = 0) →
  poly n (nval k c) (nval k (dcoef k c)).
Proof.
  revert n c. induction k as [|k IH]; intros n c Hc.
  - destruct n as [|n].
    + refine (poly_ext _ _ _ _ _ _ _ (poly_0 _)); intros x; simpl; [|done].
      by rewrite Hc by (simpl; lia).
    + refine (poly_mono _ _ _ _ _ (poly_const (c 0%nat))). lia.
  - pose proof (pow2_S k) as HS. pose proof (pow2_pos k) as Hp.
    assert (∀ x, nval (S k) c x = nval k c x + sub k x * nval k (λ j, c (2 ^ k + j)%nat) x)
      as Hnv by done.
    destruct (decide (n ≤ 2 ^ k)) as [Hn|Hn].
    + assert (∀ j, j < 2 ^ k → c (2 ^ k + j)%nat = 0) as Hhi by (intros j Hj; apply Hc; lia).
      assert (poly n (nval k c) (nval k (dcoef k c))) as Hlo
        by (apply IH; intros j Hj1 Hj2; apply Hc; lia).
      assert (poly 0 (nval k (λ j, c (2 ^ k + j)%nat)) (nval k (dcoef k (λ j, c (2 ^ k + j)%nat))))
        as (q & Hq & Hz) by (apply IH; intros j _ Hj; by apply Hhi).
      refine (poly_ext _ _ _ _ _ _ _ Hlo); intros x; [rewrite Hnv|rewrite dcoef_S];
        rewrite !(nval_zero k (λ j, c (2 ^ k + j)%nat)) by done; [ring|].
      destruct (Hz x) as [_ <-]. destruct q; [|simpl in Hq; lia]. simpl. ring.
    + assert (poly (2 ^ k) (nval k c) (nval k (dcoef k c))) as Hlo
        by (apply IH; intros j Hj1 Hj2; lia).
      assert (poly (n - 2 ^ k) (nval k (λ j, c (2 ^ k + j)%nat))
        (nval k (dcoef k (λ j, c (2 ^ k + j)%nat)))) as Hhi
        by (apply IH; intros j Hj1 Hj2; apply Hc; lia).
      pose proof (poly_mul _ _ _ _ _ _ (poly_sub k) Hhi) as Hm.
      refine (poly_ext _ _ _ _ _ _ _ (poly_add _ _ _ _ _
        (poly_mono _ _ _ _ _ Hlo) (poly_mono _ _ _ _ _ Hm)));
        [intros x; by rewrite Hnv|intros x; rewrite dcoef_S; ring|lia|lia].
Qed.

Lemma poly_nval k c : poly (2 ^ k) (nval k c) (nval k (dcoef k c)).
Proof. apply poly_nval_low. lia. Qed.

(** ** Butterflies *)

(** A butterfly on the block of [2 ^ (l+1)] elements at [r]. *)
Definition butterfly (l : nat) (skew : Elem) (r : nat) (s s' : nat → Elem) : Prop :=
  ∀ j, j < 2 ^ l →
    s' (r + j)%nat = s (r + j)%nat + skew * s (r + 2 ^ l + j)%nat ∧
    s' (r + 2 ^ l + j)%nat = s' (r + j)%nat + s (r + 2 ^ l + j)%nat.

(** Element [i] of [s] belongs to a block of [2 ^ l] coefficients of a polynomial whose
    value at the point of [i] is [v i]. *)
Definition staged (l base : nat) (s v : nat → Elem) (i : nat) : Prop :=
  nval l (λ j, s (i / 2 ^ l * 2 ^ l + j)%nat) (pt (base + i)) = v i.

Lemma pt_odd q : (2 * q + 1 < 2 ^ w)%nat → pt (2 * q + 1) = pt (2 * q) + 1.
Proof.
  intros Hq. replace (2 * q)%nat with (q * 2 ^ 1)%nat by (simpl; lia).
  rewrite pt_block by (simpl in *; lia). by rewrite pt_1.
Qed.

Lemma block_even b k r : (b * 2 ^ S k + r)%nat = ((2 * b) * 2 ^ k + r)%nat.
Proof. rewrite pow2_S. lia. Qed.

Lemma block_odd b k r : (b * 2 ^ S k + (2 ^ k + r))%nat = ((2 * b + 1) * 2 ^ k + r)%nat.
Proof. rewrite pow2_S. lia. Qed.

(** The values on the two halves of a block. *)
Lemma nval_low k b c r : ((b + 1) * 2 ^ S k ≤ 2 ^ w)%nat → r < 2 ^ k →
  nval (S k) c (pt ((2 * b) * 2 ^ k + r)) =
  nval k (λ j, c j + pt (2 * b) * c (2 ^ k + j)%nat) (pt ((2 * b) * 2 ^ k + r)).
Proof.
  intros Hb Hr. rewrite pow2_S in Hb. cbn [nval].
  rewrite sub_pt, block_div by lia. by rewrite nval_add, nval_scale.
Qed.

Lemma nval_high k b c r : ((b + 1) * 2 ^ S k ≤ 2 ^ w)%nat → r < 2 ^ k →
  nval (S k) c (pt ((2 * b + 1) * 2 ^ k + r)) =
  nval k (λ j, c j + pt (2 * b) * c (2 ^ k + j)%nat + c (2 ^ k + j)%nat)
    (pt ((2 * b + 1) * 2 ^ k + r)).
Proof.
  intros Hb Hr. rewrite pow2_S in Hb. pose proof (pow2_pos k). cbn [nval].
  rewrite sub_pt, block_div by lia. rewrite pt_odd by nia.
  rewrite !nval_add, nval_scale. ring.
Qed.

Lemma nval_zero_inv k b c : ((b + 1) * 2 ^ k ≤ 2 ^ w)%nat →
  (∀ r, r < 2 ^ k → nval k c (pt (b * 2 ^ k + r)) = 0) → ∀ j, j < 2 ^ k → c j = 0.
Proof.
  revert b c. induction k as [|k IH]; intros b c Hb Hz j Hj.
  - simpl in Hj. replace j with 0%nat by lia. apply (Hz 0%nat). simpl. lia.
  - pose proof (pow2_S k) as HS.
    assert (∀ j, j < 2 ^ k → c j + pt (2 * b) * c (2 ^ k + j)%nat = 0) as Hlo.
    { intros i Hi. refine (IH (2 * b)%nat (λ j, c j + pt (2 * b) * c (2 ^ k + j)%nat) _ _ i Hi);
        [lia|].
      intros r Hr. rewrite <- nval_low by done. rewrite <- block_even. apply Hz. lia. }
    assert (∀ j, j < 2 ^ k → c (2 ^ k + j)%nat = 0) as Hhi.
    { intros i Hi.
      assert (c i + pt (2 * b) * c (2 ^ k + i)%nat + c (2 ^ k + i)%nat = 0) as Hi2.
      { refine (IH (2 * b + 1)%nat
          (λ j, c j + pt (2 * b) * c (2 ^ k + j)%nat + c (2 ^ k + j)%nat) _ _ i Hi); [lia|].
        intros r Hr. rewrite <- nval_high by done. rewrite <- block_odd. apply Hz. lia. }
      rewrite Hlo in Hi2 by done. rewrite <- Hi2. ring. }
    destruct (decide (j < 2 ^ k)) as [Hl|Hl].
    + specialize (Hlo j Hl). rewrite Hhi in Hlo by done. rewrite <- Hlo. ring.
    + replace j with (2 ^ k + (j - 2 ^ k))%nat by lia. apply Hhi. lia.
Qed.

(** A layer of butterflies moves between the stages. *)
Lemma butterfly_staged l b q s s' v i :
  ((b + q + 1) * 2 ^ S l ≤ 2 ^ w)%nat → (q * 2 ^ S l ≤ i < q * 2 ^ S l + 2 ^ S l)%nat →
  butterfly l (pt (2 * (b + q))) (q * 2 ^ S l) s s' →
  staged (S l) (b * 2 ^ S l) s v i ↔ staged l (b * 2 ^ S l) s' v i.
Proof.
  intros Hb Hi Hfly. unfold staged. pose proof (pow2_S l) as HS.
  destruct (decide (i < q * 2 ^ S l + 2 ^ l)) as [Hlow|Hhigh].
  - assert (∃ r, r < 2 ^ l ∧ i = (q * 2 ^ S l + r)%nat) as (r & Hr & ->)
      by (exists (i - q * 2 ^ S l)%nat; lia).
    rewrite (block_div (S l)) by lia.
    replace (b * 2 ^ S l + (q * 2 ^ S l + r))%nat with ((2 * (b + q)) * 2 ^ l + r)%nat by lia.
    rewrite nval_low by (rewrite ?HS in *; lia).
    rewrite block_even, block_div, <- block_even by lia.
    erewrite nval_ext; [reflexivity|]. intros j Hj. cbv beta.
    destruct (Hfly j Hj) as [Hf _]. replace (2 * q * 2 ^ l + j)%nat with (q * 2 ^ S l + j)%nat by lia.
    rewrite Hf. by rewrite Nat.add_assoc.
  - assert (∃ r, r < 2 ^ l ∧ i = (q * 2 ^ S l + (2 ^ l + r))%nat) as (r & Hr & ->)
      by (exists (i - q * 2 ^ S l - 2 ^ l)%nat; lia).
    rewrite (block_div (S l)) by lia.
    replace (b * 2 ^ S l + (q * 2 ^ S l + (2 ^ l + r)))%nat
      with ((2 * (b + q) + 1) * 2 ^ l + r)%nat by lia.
    rewrite nval_high by (rewrite ?HS in *; lia).
    rewrite block_odd, block_div, <- block_odd by lia.
    erewrite nval_ext; [reflexivity|]. intros j Hj. cbv beta.
    destruct (Hfly j Hj) as [Hf1 Hf2].
    replace ((2 * q + 1) * 2 ^ l + j)%nat with (q * 2 ^ S l + 2 ^ l + j)%nat by lia.
    rewrite Hf2, Hf1. by rewrite Nat.add_assoc.
Qed.

(** ** Merging blocks *)

(** Blocks of [2 ^ k] points, each with the coefficients [Q b] of its own polynomial,
    are the values of one polynomial, whose last [2 ^ k] coefficients are the sums. *)
Lemma blocks_merge k t : ∀ B (Q : nat → nat → Elem), ((B + 1) * 2 ^ (k + t) ≤ 2 ^ w)%nat →
  ∃ c, (∀ b r, b < 2 ^ t → r < 2 ^ k →
    nval (k + t) c (pt ((B * 2 ^ t + b) * 2 ^ k + r))
    = nval k (Q b) (pt ((B * 2 ^ t + b) * 2 ^ k + r))) ∧
  ∀ j, j < 2 ^ k → c (2 ^ (k + t) - 2 ^ k + j)%nat = bsum (2 ^ t) (λ b, Q b j).
Proof.
  induction t as [|t IH]; intros B Q HB.
  - exists (Q 0%nat). rewrite Nat.add_0_r. split.
    + intros b r Hb Hr. simpl in Hb. by replace b with 0%nat by lia.
    + intros j Hj. replace (2 ^ k - 2 ^ k + j)%nat with j by lia. simpl. ring.
  - replace (k + S t)%nat with (S (k + t)) in * by lia. rewrite pow2_S in HB.
    pose proof (pow2_S t) as HSt. pose proof (pow2_pos k) as Hk. pose proof (pow2_pos t) as Ht.
    assert (2 ^ (k + t) = 2 ^ t * 2 ^ k)%nat as Hkt by (rewrite Nat.pow_add_r; lia).
    destruct (IH (2 * B)%nat Q ltac:(lia)) as (cl & Hl1 & Hl2).
    destruct (IH (2 * B + 1)%nat (λ b, Q (2 ^ t + b)%nat) ltac:(lia)) as (ch & Hh1 & Hh2).
    set (H := λ j, cl j + ch j).
    exists (λ j, if decide (j < 2 ^ (k + t)) then cl j + pt (2 * B) * H j
                 else H (j - 2 ^ (k + t))%nat).
    assert (∀ j, j < 2 ^ t → ∀ r, r < 2 ^ k → j * 2 ^ k + r < 2 ^ (k + t)) as Hin
      by (intros j Hj r Hr; nia).
    split.
    + intros b r Hb Hr. destruct (decide (b < 2 ^ t)) as [Hbt|Hbt].
      * replace ((B * 2 ^ S t + b) * 2 ^ k + r)%nat
          with (2 * B * 2 ^ (k + t) + (b * 2 ^ k + r))%nat by nia.
        rewrite nval_low by (rewrite ?pow2_S; auto with lia).
        rewrite (nval_ext _ _ cl).
        -- rewrite Hkt. replace (2 * B * (2 ^ t * 2 ^ k) + (b * 2 ^ k + r))%nat
             with ((2 * B * 2 ^ t + b) * 2 ^ k + r)%nat by lia. by apply Hl1.
        -- intros j Hj. rewrite decide_True, decide_False by lia.
           replace (2 ^ (k + t) + j - 2 ^ (k + t))%nat with j by lia. ring.
      * replace ((B * 2 ^ S t + b) * 2 ^ k + r)%nat
          with ((2 * B + 1) * 2 ^ (k + t) + ((b - 2 ^ t) * 2 ^ k + r))%nat by nia.
        rewrite nval_high by (rewrite ?pow2_S; auto with lia).
        rewrite (nval_ext _ _ ch).
        -- rewrite Hkt. replace ((2 * B + 1) * (2 ^ t * 2 ^ k) + ((b - 2 ^ t) * 2 ^ k + r))%nat
             with (((2 * B + 1) * 2 ^ t + (b - 2 ^ t)) * 2 ^ k + r)%nat by lia.
           rewrite Hh1 by lia. by replace (2 ^ t + (b - 2 ^ t))%nat with b by lia.
        -- intros j Hj. rewrite decide_True, decide_False by lia.
           replace (2 ^ (k + t) + j - 2 ^ (k + t))%nat with j by lia. unfold H. ring.
    + intros j Hj. rewrite pow2_S. assert (2 ^ k ≤ 2 ^ (k + t)) by nia.
      rewrite decide_False by lia.
      replace (2 ^ (k + t) + 2 ^ (k + t) - 2 ^ k + j - 2 ^ (k + t))%nat
        with (2 ^ (k + t) - 2 ^ k + j)%nat by lia.
      unfold H. rewrite Hl2, Hh2, HSt, bsum_split by done. done.
Qed.

(** ** Erasures *)
Fixpoint locator (es : list nat) x : Elem :=
  match es with [] => 1 | e :: es => (x + pt e) * locator es x end.

Lemma poly_locator es : ∃ g', poly (S (length es)) (locator es) g'.
Proof.
  induction es as [|e es [g' IH]]; [exists (λ _, 0); apply poly_const|].
  eexists. refine (poly_ext _ _ _ _ _ _ _ (poly_add _ _ _ _ _
    (poly_shift _ _ _ IH) (poly_mono _ _ _ _ _ (poly_scale _ (pt e) _ _ IH))));
    [intros x; simpl; ring|done|simpl; lia].
Qed.

Lemma locator_split l1 e l2 x : locator (l1 ++ e :: l2) x = (x + pt e) * locator (l1 ++ l2) x.
Proof. induction l1 as [|e' l1 IH]; simpl; [done|]. rewrite IH. ring. Qed.

Lemma locator_elem es e : e ∈ es → locator es (pt e) = 0.
Proof.
  intros (l1 & l2 & ->)%list_elem_of_split. rewrite locator_split, add_self. ring.
Qed.

(** The derivative of a polynomial multiplied by the error locator, at an erased point. *)
Lemma erasure_values K m c d es l1 e l2 :
  K ≤ w → m ≤ 2 ^ K → (∀ j, 2 ^ K - m ≤ j → j < 2 ^ K → c j = 0) →
  es = l1 ++ e :: l2 → length es ≤ m →
  (∀ i, i < 2 ^ K → nval K d (pt i) = nval K c (pt i) * locator es (pt i)) →
  nval K (dcoef K d) (pt e) = nval K c (pt e) * locator (l1 ++ l2) (pt e).
Proof.
  intros HK Hm Hc -> Hes Hd. pose proof (pow2_le K w HK) as Hpow.
  destruct (poly_locator (l1 ++ l2)) as [g' Hloc].
  pose proof (poly_mul _ _ _ _ _ _ Hloc (poly_nval_low K _ c Hc)) as Hmul. cbv beta in Hmul.
  assert (length (l1 ++ l2) + (2 ^ K - m) < 2 ^ K)%nat as Hdeg.
  { rewrite length_app in Hes |- *. simpl in Hes. lia. }
  assert (poly (2 ^ K) (λ x, (x + pt e) * (locator (l1 ++ l2) x * nval K c x))
    (λ x, locator (l1 ++ l2) x * nval K c x + (x + pt e) *
      (g' x * nval K c x + locator (l1 ++ l2) x * nval K (dcoef K c) x))) as Hprod.
  { refine (poly_ext _ _ _ _ _ _ _ (poly_add _ _ _ _ _
      (poly_mono _ _ _ _ _ (poly_shift _ _ _ Hmul))
      (poly_mono _ _ _ _ _ (poly_scale _ (pt e) _ _ Hmul))));
      [intros x; simpl; ring|intros x; simpl; ring|lia|lia]. }
  destruct (poly_unique (2 ^ K) _ _ _ _ pt (pt e) (poly_nval K d) Hprod) as [_ ->].
  - intros i j Hi Hj. apply pt_inj; lia.
  - intros i Hi. cbv beta. rewrite Hd by done. rewrite locator_split. ring.
  - rewrite add_self. ring.
Qed.
End cantor.
