(* ===== verification/LeoStages.v ===== *)
(** * In-place radix-4 passes

    The transforms of the Leopard engines work in place: a pass visits blocks of
    [4 * dist] elements, and in a block the four elements [dist] apart at each offset.
    The rules of this file turn such loops into one equation per element.  Also the
    loops [while j < limit { ..; j += step }]. *)

From Stdlib Require Import NArith Lia List Bool.
From stdpp Require Import base numbers list.
From S2P Require Import Prelude.

(** [while j < limit { body; j += step }] *)
Fixpoint step_loop {E S : Type} (fuel j limit step : nat) (body : nat → S → outcome E S)
    (s : S) : outcome E S :=
  match fuel with
  | O => Panic
  | Datatypes.S fuel =>
      if j <? limit then
        let! s := body j s in step_loop fuel (j + step) limit step body s
      else Ok s
  end.

Definition while_below {E S : Type} (start limit step : nat) (body : nat → S → outcome E S)
  : S → outcome E S := step_loop (Datatypes.S (limit - start)) start limit step body.

(** The values that the counter takes. *)
Definition counters (start limit step : nat) : list nat :=
  map (λ k, start + k * step) (seq 0 ((limit - start + step - 1) / step)).

Definition nblocks (limit step : nat) : nat := length (counters 0 limit step).

Lemma counters_blocks limit step : 0 < step → limit ≤ nblocks limit step * step.
Proof.
  intros Hs. unfold nblocks, counters. len. rewrite Nat.sub_0_r.
  pose proof (Nat.div_mod_eq (limit + step - 1) step).
  pose proof (Nat.mod_upper_bound (limit + step - 1) step). nia.
Qed.

Lemma counters_bound limit step m : 0 < step → limit ≤ m * step →
  nblocks limit step ≤ m.
Proof.
  intros Hs Hl. unfold nblocks, counters. len. rewrite Nat.sub_0_r.
  apply Nat.lt_succ_r, Nat.Div0.div_lt_upper_bound. lia.
Qed.

Lemma lookup_counters limit step q r :
  counters 0 limit step !! q = Some r → r = q * step ∧ q < nblocks limit step.
Proof.
  intros H. split; [|by eapply lookup_lt_Some]. unfold counters in H.
  rewrite list_lookup_fmap in H. apply fmap_Some in H as (k & Hk & ->).
  apply lookup_seq in Hk as [-> _]. lia.
Qed.

(** Halving the step at most doubles the blocks. *)
Lemma nblocks_refine limit step k : 0 < step → nblocks limit step ≤ k * nblocks limit (k * step) ∨ k = 0.
Proof.
  intros Hs. destruct (decide (k = 0)); [by right|left]. apply counters_bound; [done|].
  pose proof (counters_blocks limit (k * step) ltac:(nia)). lia.
Qed.

Section loops.
Context {E S : Type}.
Implicit Types (body : nat → S → outcome E S) (s : S).

Lemma counters_done start limit step : limit ≤ start → 0 < step → counters start limit step = [].
Proof.
  intros Hl Hs. unfold counters. replace (limit - start + step - 1) with (step - 1) by lia.
  by rewrite Nat.div_small by lia.
Qed.

Lemma counters_cons start limit step : start < limit → 0 < step →
  counters start limit step = start :: counters (start + step) limit step.
Proof.
  intros Hl Hs. unfold counters.
  replace ((limit - start + step - 1) / step)
    with (Datatypes.S ((limit - (start + step) + step - 1) / step)).
  - simpl. f_equal; [lia|]. rewrite <- seq_shift, map_map. apply map_ext. intros k. lia.
  - destruct (decide (start + step ≤ limit)) as [Hd|Hd].
    + replace (limit - start + step - 1) with (limit - (start + step) + step - 1 + 1 * step) by lia.
      rewrite Nat.div_add by lia. lia.
    + replace (limit - (start + step) + step - 1) with (step - 1) by lia.
      rewrite Nat.div_small by lia. apply (Nat.div_unique _ _ _ (limit - start - 1)); lia.
Qed.

Lemma step_loop_for_each fuel start limit step body s :
  0 < step → limit - start < fuel →
  step_loop fuel start limit step body s = for_each (counters start limit step) body s.
Proof.
  intros Hs. revert start s. induction fuel as [|fuel IH]; intros start s Hf; [lia|].
  cbn [step_loop]. destruct (Nat.ltb_spec start limit) as [Hl|Hl].
  - rewrite counters_cons by done. cbn [for_each]. destruct (body start s); simpl; [|done..].
    apply IH. lia.
  - by rewrite counters_done.
Qed.

Lemma while_below_for_each start limit step body s : 0 < step →
  while_below start limit step body s = for_each (counters start limit step) body s.
Proof. intros Hs. apply step_loop_for_each; lia. Qed.

Lemma for_range_shift lo n body s :
  for_range lo (lo + n) body s = for_range 0 n (λ i, body (lo + i)) s.
Proof.
  unfold for_range. replace (lo + n - lo) with n by lia. rewrite Nat.sub_0_r.
  rewrite <- (Nat.add_0_r lo) at 1. rewrite <- fmap_add_seq.
  generalize (seq 0 n). intros l. revert s.
  induction l as [|i l IH]; intros s; simpl; [done|].
  destruct (body (lo + i) s); simpl; [apply IH|done..].
Qed.
End loops.

(** A loop that pushes one element each time. *)
Lemma while_push {E X} limit step (body : nat → list X → outcome E (list X)) (f : nat → X) acc :
  0 < step →
  (∀ q acc, q < nblocks limit step → body (q * step) acc = Ok (acc ++ [f q])) →
  while_below 0 limit step body acc = Ok (acc ++ tabulate (nblocks limit step) f).
Proof.
  intros Hs Hbody. rewrite while_below_for_each by done.
  assert (∀ l acc, (∀ q, q ∈ l → q < nblocks limit step) →
    for_each (map (λ q, 0 + q * step) l) body acc = Ok (acc ++ map f l)) as H.
  { intros l. induction l as [|q l IH]; intros acc' Hl; simpl; [by rewrite app_nil_r|].
    rewrite Hbody by (apply Hl; left). simpl.
    rewrite IH by (intros q' Hq'; apply Hl; by right). by rewrite <- app_assoc. }
  unfold nblocks in H |- *. unfold counters at 1. unfold tabulate. rewrite H.
  - do 2 f_equal. unfold counters. by rewrite length_map, length_seq.
  - intros q Hq%elem_of_seq. unfold counters. rewrite length_map, length_seq. lia.
Qed.


Section passes.
Context {A : Type} (k : nat).
Implicit Types (s t u : nat → A) (f : list A → nat → A).

(** The [k] elements [dist] apart from [o] on. *)
Definition gather (dist o : nat) s : list A := map (λ c, s (o + dist * c)) (seq 0 k).

Definition radix_step f (dist o : nat) s t : Prop :=
  (∀ c, c < k → t (o + dist * c) = f (gather dist o s) c) ∧
  ∀ j, (∀ c, c < k → j ≠ o + dist * c) → t j = s j.

Definition radix_block f (dist r : nat) s t : Prop :=
  (∀ i c, i < dist → c < k → t (r + i + dist * c) = f (gather dist (r + i) s) c) ∧
  ∀ j, j < r ∨ r + dist * k ≤ j → t j = s j.

(** A pass over the first [m] blocks; the step may depend on the block. *)
Definition radix_pass (f : nat → list A → nat → A) (dist m : nat) s t : Prop :=
  (∀ q i c, q < m → i < dist → c < k →
     t (q * (dist * k) + i + dist * c) = f q (gather dist (q * (dist * k) + i) s) c) ∧
  ∀ j, m * (dist * k) ≤ j → t j = s j.

Lemma gather_ext dist o s t :
  (∀ c, c < k → s (o + dist * c) = t (o + dist * c)) → gather dist o s = gather dist o t.
Proof. intros H. apply map_ext_in. intros c Hc%in_seq. apply H. lia. Qed.

(** One more block. *)
Lemma pass_snoc (f : nat → list A → nat → A) dist m s t u :
  radix_pass f dist m s t → radix_block (f m) dist (m * (dist * k)) t u → radix_pass f dist (S m) s u.
Proof.
  intros [Hin Hout] [Hu1 Hu2]. split.
  - intros q i c Hq Hi Hc. destruct (decide (q = m)) as [->|Hne].
    + rewrite Hu1 by done. f_equal. apply gather_ext. intros c' Hc'. apply Hout. nia.
    + rewrite Hu2, Hin; [done|lia|done|done|]. left.
      assert (dist * c + dist ≤ dist * k) by nia.
      assert (q * (dist * k) + dist * k ≤ m * (dist * k)) by nia. lia.
  - intros j Hj. rewrite Hu2, Hout; [done|lia|lia].
Qed.
End passes.

(** ** Loops on states given by functions

    [emb s] is the state in which element [i] is [s i]; [good] are the functions that
    are states. *)
Section acts.
Context {E A L : Type} (emb : (nat → A) → L) (good : (nat → A) → Prop).
Implicit Types (s t u : nat → A) (R : (nat → A) → (nat → A) → Prop).

(** [body] takes the state [s] to a state [t] with [R s t]. *)
Definition acts (body : L → outcome E L) R : Prop :=
  ∀ s, good s → ∃ t, body (emb s) = Ok (emb t) ∧ good t ∧ R s t.

Lemma acts_mono body R R' :
  acts body R → (∀ s t, good s → R s t → R' s t) → acts body R'.
Proof. intros H HR s Hs. destruct (H s Hs) as (t & Ht & Hg & Hst). exists t. auto. Qed.

Lemma acts_compose body body' R R' :
  acts body R → acts body' R' →
  acts (λ l, let! l := body l in body' l) (λ s u, ∃ t, good t ∧ R s t ∧ R' t u).
Proof.
  intros H H' s Hs. destruct (H s Hs) as (t & Ht & Hg & Hst).
  destruct (H' t Hg) as (u & Hu & Hg' & Htu). exists u. rewrite Ht. simpl. eauto 6.
Qed.

Lemma acts_for_each {B} (l : list B) (body : B → L → outcome E L)
    (I : nat → (nat → A) → (nat → A) → Prop) :
  (∀ s, I 0 s s) →
  (∀ k x s t, l !! k = Some x → good t → I k s t →
     ∃ u, body x (emb t) = Ok (emb u) ∧ good u ∧ I (1 + k) s u) →
  acts (for_each l body) (I (length l)).
Proof.
  intros H0 Hstep s Hs.
  assert (ensures (for_each l body (emb s))
    (λ out, ∃ t, out = emb t ∧ good t ∧ I (length l) s t) (λ _, False)) as Hloop.
  { apply (for_each_ensures l body (λ k out, ∃ t, out = emb t ∧ good t ∧ I k s t)).
    - eauto.
    - intros k x _ Hx (t & -> & Hg & HI).
      destruct (Hstep k x s t Hx Hg HI) as (u & -> & Hg' & HI'). simpl. eauto. }
  apply ensures_noerr in Hloop as (_ & -> & t & -> & HI). eauto.
Qed.

Lemma acts_for_range m (body : nat → L → outcome E L) (I : nat → (nat → A) → (nat → A) → Prop) :
  (∀ s, I 0 s s) →
  (∀ k s t, k < m → good t → I k s t →
     ∃ u, body k (emb t) = Ok (emb u) ∧ good u ∧ I (1 + k) s u) →
  acts (for_range 0 m body) (I m).
Proof.
  intros H0 Hstep. unfold for_range. rewrite Nat.sub_0_r.
  replace (I m) with (I (length (seq 0 m))) by (by rewrite length_seq).
  apply acts_for_each; [done|]. intros k x s t Hx Hg HI. apply lookup_seq in Hx as [-> Hk].
  by apply Hstep.
Qed.

(** A block, offset by offset. *)
Lemma acts_block k f dist r (body : nat → L → outcome E L) :
  (∀ i, i < dist → acts (body i) (radix_step k f dist (r + i))) →
  acts (for_range 0 dist body) (radix_block k f dist r).
Proof.
  intros Hbody.
  set (I m s t :=
    (∀ i c, i < dist → c < k → t (r + i + dist * c)
       = if decide (i < m) then f (gather k dist (r + i) s) c else s (r + i + dist * c)) ∧
    ∀ j, j < r ∨ r + dist * k ≤ j → t j = s j).
  apply (acts_mono _ (I dist)).
  - apply acts_for_range.
    + intros s. split; [|done]. intros i c Hi Hc. by rewrite decide_False by lia.
    + intros m s t Hm Hg [Hin Hout]. destruct (Hbody m Hm t Hg) as (u & Hu & Hg' & Hu1 & Hu2).
      exists u. split_and!; [done|done|]. split.
      * intros i c Hi Hc. destruct (decide (i = m)) as [->|Hne].
        -- rewrite Hu1 by done. rewrite decide_True by lia. f_equal. apply gather_ext.
           intros c' Hc'. rewrite Hin by done. by rewrite decide_False by lia.
        -- rewrite Hu2.
           ++ rewrite Hin by done. destruct (decide (i < m)), (decide (i < 1 + m)); lia || done.
           ++ intros c' Hc' Heq. apply Hne. assert (c = c') as <- by nia. lia.
      * intros j Hj. rewrite Hu2, Hout; [done|lia|]. intros c Hc ->. nia.
  - intros s t _ [Hin Hout]. split; [|done]. intros i c Hi Hc.
    by rewrite Hin, decide_True by done.
Qed.

Lemma acts_pass {B} k (f : nat → list A → nat → A) dist (l : list B)
    (body : B → L → outcome E L) :
  (∀ q x, l !! q = Some x → acts (body x) (radix_block k (f q) dist (q * (dist * k)))) →
  acts (for_each l body) (radix_pass k f dist (length l)).
Proof.
  intros Hbody. apply (acts_for_each l body (radix_pass k f dist)).
  - intros s. split; [lia|done].
  - intros m x s t Hx Hg Hpass. destruct (Hbody m x Hx t Hg) as (u & Hu & Hg' & Hblk).
    exists u. split_and!; [done|done|]. by eapply pass_snoc.
Qed.
End acts.

(** A loop that changes each element of a range; what holds of an element may depend on
    its place. *)
Lemma map_range_at {E A} (ok : nat → A → Prop) N lo hi (body : nat → list A → outcome E (list A)) (f : nat → A → A) s :
  (∀ i s, lo ≤ i → i < hi → (∀ j, ok j (s j)) →
     body i (tabulate N s) = Ok (tabulate N (λ j, if decide (j = i) then f j (s j) else s j))) →
  (∀ i x, ok i x → ok i (f i x)) → (∀ j, ok j (s j)) → lo ≤ hi →
  for_range lo hi body (tabulate N s)
  = Ok (tabulate N (λ j, if decide (lo ≤ j ∧ j < hi) then f j (s j) else s j)).
Proof.
  intros Hbody Hf Hs Hlh. replace hi with (lo + (hi - lo)) at 1 by lia. rewrite for_range_shift.
  assert (∀ n, lo + n ≤ hi → for_range 0 n (λ i, body (lo + i)) (tabulate N s)
    = Ok (tabulate N (λ j, if decide (lo ≤ j ∧ j < lo + n) then f j (s j) else s j))) as H.
  { induction n as [|n IH]; intros Hn.
    - unfold for_range. simpl. f_equal. apply tabulate_ext. intros j _. by rewrite decide_False by lia.
    - unfold for_range in IH |- *. rewrite Nat.sub_0_r in IH |- *.
      rewrite seq_S, for_each_app, IH by lia. cbn [obind for_each Nat.add].
      rewrite Hbody; [| lia | lia |].
      + cbn [obind]. f_equal. apply tabulate_ext. intros j _. repeat case_decide; done || lia.
      + intros j. case_decide; auto. }
  rewrite H by lia. f_equal. apply tabulate_ext. intros j _. repeat case_decide; done || lia.
Qed.

Lemma map_range {E A} (ok : A → Prop) N lo hi (body : nat → list A → outcome E (list A)) (f : nat → A → A) s :
  (∀ i s, lo ≤ i → i < hi → (∀ j, ok (s j)) →
     body i (tabulate N s) = Ok (tabulate N (λ j, if decide (j = i) then f j (s j) else s j))) →
  (∀ i x, ok x → ok (f i x)) → (∀ j, ok (s j)) → lo ≤ hi →
  for_range lo hi body (tabulate N s)
  = Ok (tabulate N (λ j, if decide (lo ≤ j ∧ j < hi) then f j (s j) else s j)).
Proof. apply (map_range_at (λ _, ok)). Qed.
