(* ===== verification/LeoWalsh.v ===== *)
(** * Walsh-Hadamard transforms

    The transforms that the Leopard engines run on logarithms, residues modulo [M] kept in
    machine words.  [fwht_pass] and the loops over it are the code of
    [src/core/leopard_gf8/ops.rs] and [leopard_gf16/ops.rs], which differ in the width of
    the words only.  [wht] is the transform over the integers; the in-place passes
    compute it, for truncated inputs too ([fwht_loop_spec]), and it turns products into
    sums over exclusive or ([wht_conv]). *)

From Stdlib Require Import NArith ZArith Lia List Bool Setoid Morphisms.
From stdpp Require Import base numbers list.
From S2P Require Import Prelude Lch LeoStages.

(** ** The code *)
Section code.
Context {E R : Type} (fwht2_alt : R → R → R * R).
Implicit Types (data : list R) (dist off limit n : nat).

(** The four elements at [off] of a radix-4 step. *)
Definition fwht4 dist off data : outcome E (list R) :=
  let! d0 := index data off in
  let! d1 := index data (off + dist) in
  let '(t0, t1) := fwht2_alt d0 d1 in
  let! data := update data off t0 in
  let! data := update data (off + dist) t1 in
  let! d2 := index data (off + dist * 2) in
  let! d3 := index data (off + dist * 3) in
  let '(t2, t3) := fwht2_alt d2 d3 in
  let! data := update data (off + dist * 2) t2 in
  let! data := update data (off + dist * 3) t3 in
  let! d0 := index data off in
  let! d2 := index data (off + dist * 2) in
  let '(t0, t2) := fwht2_alt d0 d2 in
  let! data := update data off t0 in
  let! data := update data (off + dist * 2) t2 in
  let! d1 := index data (off + dist) in
  let! d3 := index data (off + dist * 3) in
  let '(t1, t3) := fwht2_alt d1 d3 in
  let! data := update data (off + dist) t1 in
  update data (off + dist * 3) t3.

(** The offsets of one block. *)
Definition radix4_block r dist data : outcome E (list R) :=
  for_range r (r + dist) (fwht4 dist) data.

(** One pass over the blocks below [limit]. *)
Definition fwht_pass dist limit : list R → outcome E (list R) :=
  while_below 0 limit (dist * 4) (λ r, radix4_block r dist).

(** [while dist4 <= order]; every pass multiplies the distance by four. *)
Fixpoint fwht_loop (fuel order dist limit : nat) data : outcome E (list R) :=
  match fuel with
  | O => Panic
  | Datatypes.S fuel =>
      if dist * 4 <=? order then
        let! data := fwht_pass dist limit data in fwht_loop fuel order (dist * 4) limit data
      else Ok data
  end.

Definition radix2_block r dist data : outcome E (list R) :=
  for_range r (r + dist) (λ off data,
    let! d0 := index data off in
    let! d1 := index data (off + dist) in
    let '(t0, t1) := fwht2_alt d0 d1 in
    let! data := update data off t0 in
    update data (off + dist) t1) data.

(** The remaining pairwise pass of [fwht_variable]. *)
Definition fwht_pairs dist n : list R → outcome E (list R) :=
  while_below 0 n (dist * 2) (λ r, radix2_block r dist).

Fixpoint fwht_variable_loop (fuel dist n : nat) data : outcome E (list R) :=
  match fuel with
  | O => Panic
  | Datatypes.S fuel =>
      if dist <? n then
        if dist * 4 <=? n then
          let! data := fwht_pass dist n data in fwht_variable_loop fuel (dist * 4) n data
        else if dist * 2 <=? n then fwht_pairs dist n data
        else Ok data
      else Ok data
  end.

Definition fwht_variable_with data : outcome E (list R) :=
  fwht_variable_loop (Datatypes.S (length data)) 1 (length data) data.
End code.

(** ** Bits *)
Lemma testbit_of_nat n k : N.testbit (N.of_nat n) (N.of_nat k) = Nat.testbit n k.
Proof.
  rewrite N.testbit_eqb, Nat.testbit_eqb. change 2%N with (N.of_nat 2).
  rewrite <- Nat2N.inj_pow, <- Nat2N.inj_div, <- Nat2N.inj_mod.
  destruct (Nat.eqb_spec ((n / 2 ^ k) mod 2) 1) as [->|Hne]; [done|].
  apply N.eqb_neq. lia.
Qed.

Lemma of_nat_lxor i j : N.of_nat (Nat.lxor i j) = N.lxor (N.of_nat i) (N.of_nat j).
Proof.
  apply N.bits_inj. intros k. rewrite N.lxor_spec.
  rewrite <- (N2Nat.id k), !testbit_of_nat. apply Nat.lxor_spec.
Qed.

Local Open Scope Z_scope.

(** ** The transform over the integers *)
Section transform.
Implicit Types (f g : nat → Z).

Fixpoint wht (k : nat) f (i : nat) : Z :=
  match k with
  | O => f 0%nat
  | S k =>
      if decide (i < 2 ^ k)%nat then wht k f i + wht k (λ j, f (2 ^ k + j)%nat) i
      else wht k f (i - 2 ^ k) - wht k (λ j, f (2 ^ k + j)%nat) (i - 2 ^ k)
  end.

(** The sum of [f j * g (i xor j)]. *)
Fixpoint xconv (k : nat) f g (i : nat) : Z :=
  match k with
  | O => f 0%nat * g 0%nat
  | S k =>
      let f' j := f (2 ^ k + j)%nat in
      let g' j := g (2 ^ k + j)%nat in
      if decide (i < 2 ^ k)%nat then xconv k f g i + xconv k f' g' i
      else xconv k f g' (i - 2 ^ k) + xconv k f' g (i - 2 ^ k)
  end.

Fixpoint zsum (n : nat) f : Z := match n with O => 0 | S n => zsum n f + f n end.

Lemma wht_low k f r : (r < 2 ^ k)%nat →
  wht (S k) f r = wht k f r + wht k (λ j, f (2 ^ k + j)%nat) r.
Proof. intros Hr. simpl. by rewrite decide_True. Qed.

Lemma wht_high k f r :
  wht (S k) f (2 ^ k + r) = wht k f r - wht k (λ j, f (2 ^ k + j)%nat) r.
Proof. simpl. rewrite decide_False by lia. by replace (2 ^ k + r - 2 ^ k)%nat with r by lia. Qed.

Lemma wht_ext k f g i : (∀ j, (j < 2 ^ k)%nat → f j = g j) → wht k f i = wht k g i.
Proof.
  revert f g i. induction k as [|k IH]; intros f g i H; simpl.
  - apply H. simpl. lia.
  - pose proof (pow2_S k). rewrite !(IH f g) by (intros; apply H; lia).
    rewrite !(IH (λ j, f (2 ^ k + j)%nat) (λ j, g (2 ^ k + j)%nat)) by (intros; apply H; lia).
    done.
Qed.

Lemma wht_add k f g i : wht k (λ j, f j + g j) i = wht k f i + wht k g i.
Proof.
  revert f g i. induction k as [|k IH]; intros f g i; simpl; [done|].
  case_decide; rewrite !IH; lia.
Qed.

Lemma wht_scale k a f i : wht k (λ j, a * f j) i = a * wht k f i.
Proof.
  revert f i. induction k as [|k IH]; intros f i; simpl; [done|].
  case_decide; rewrite !IH; lia.
Qed.

(** The transform of the product of two transforms. *)
Lemma wht_conv k f g i : (i < 2 ^ k)%nat →
  wht k (λ u, wht k f u * wht k g u) i = 2 ^ Z.of_nat k * xconv k f g i.
Proof.
  revert f g i. induction k as [|k IH]; intros f g i Hi.
  - cbn [wht xconv]. change (2 ^ Z.of_nat 0) with 1. lia.
  - pose proof (pow2_S k) as HS.
    set (f' := λ j, f (2 ^ k + j)%nat). set (g' := λ j, g (2 ^ k + j)%nat).
    assert (∀ r, wht k (λ u, wht (S k) f u * wht (S k) g u) r
      = wht k (λ u, wht k f u * wht k g u) r + wht k (λ u, wht k f' u * wht k g' u) r
        + (wht k (λ u, wht k f u * wht k g' u) r + wht k (λ u, wht k f' u * wht k g u) r)) as Hlo.
    { intros r. rewrite <- !wht_add. apply wht_ext. intros j Hj.
      rewrite !wht_low by done. fold f' g'. lia. }
    assert (∀ r, wht k (λ j, wht (S k) f (2 ^ k + j) * wht (S k) g (2 ^ k + j)) r
      = wht k (λ u, wht k f u * wht k g u) r + wht k (λ u, wht k f' u * wht k g' u) r
        + -1 * (wht k (λ u, wht k f u * wht k g' u) r + wht k (λ u, wht k f' u * wht k g u) r)) as Hhi.
    { intros r. rewrite <- !wht_add, <- wht_scale, <- wht_add. apply wht_ext. intros j Hj.
      rewrite !wht_high. fold f' g'. lia. }
    rewrite Nat2Z.inj_succ, Z.pow_succ_r by lia. cbn [xconv]. fold f' g'.
    destruct (decide (i < 2 ^ k)%nat) as [Hl|Hl].
    + rewrite wht_low by done. rewrite Hlo, Hhi, !IH by done. lia.
    + replace i with (2 ^ k + (i - 2 ^ k))%nat at 1 by lia.
      rewrite wht_high, Hlo, Hhi, !IH by lia. lia.
Qed.

Lemma zsum_ext n f g : (∀ j, (j < n)%nat → f j = g j) → zsum n f = zsum n g.
Proof. induction n as [|n IH]; simpl; [done|]. intros H. rewrite IH, H; auto with lia. Qed.

Lemma zsum_split n m f : zsum (n + m) f = zsum n f + zsum m (λ j, f (n + j)%nat).
Proof.
  induction m as [|m IH]; simpl; [rewrite Nat.add_0_r; lia|].
  rewrite Nat.add_succ_r. simpl. rewrite IH. lia.
Qed.

Lemma lxor_lt k i j : (i < 2 ^ k)%nat → (j < 2 ^ k)%nat → (Nat.lxor i j < 2 ^ k)%nat.
Proof.
  intros Hi Hj. destruct (decide (Nat.lxor i j = 0)%nat) as [->|Hne]; [apply pow2_pos|].
  apply Nat.log2_lt_pow2; [lia|]. eapply Nat.le_lt_trans; [apply Nat.log2_lxor|].
  destruct (decide (i = 0)%nat) as [->|], (decide (j = 0)%nat) as [->|]; [done|..].
  - change (Nat.log2 0) with 0%nat. rewrite Nat.max_0_l. apply Nat.log2_lt_pow2; lia.
  - change (Nat.log2 0) with 0%nat. rewrite Nat.max_0_r. apply Nat.log2_lt_pow2; lia.
  - apply Nat.max_lub_lt; apply Nat.log2_lt_pow2; lia.
Qed.

Lemma lxor_blocks k a b i j : (i < 2 ^ k)%nat → (j < 2 ^ k)%nat →
  Nat.lxor (a * 2 ^ k + i) (b * 2 ^ k + j) = (Nat.lxor a b * 2 ^ k + Nat.lxor i j)%nat.
Proof.
  intros Hi Hj. rewrite <- (lxor_block k (Nat.lxor a b)) by by apply lxor_lt.
  rewrite <- !lxor_block by done. rewrite <- !Nat.shiftl_mul_pow2, Nat.shiftl_lxor.
  rewrite !Nat.lxor_assoc. f_equal. rewrite <- !Nat.lxor_assoc. f_equal. apply Nat.lxor_comm.
Qed.

Lemma xconv_sum k f g i : (i < 2 ^ k)%nat →
  xconv k f g i = zsum (2 ^ k) (λ j, f j * g (Nat.lxor i j)).
Proof.
  revert f g i. induction k as [|k IH]; intros f g i Hi.
  - simpl in Hi |- *. by replace i with 0%nat by lia.
  - rewrite pow2_S in Hi |- *. rewrite zsum_split. cbn [xconv].
    destruct (decide (i < 2 ^ k)%nat) as [Hl|Hl].
    + rewrite !IH by done. f_equal. apply zsum_ext. intros j Hj.
      pose proof (lxor_blocks k 0 1 i j Hl Hj) as He. simpl in He.
      rewrite !Nat.add_0_r in He. by rewrite He.
    + rewrite !IH by lia. f_equal; apply zsum_ext; intros j Hj.
      * pose proof (lxor_blocks k 1 0 (i - 2 ^ k) j ltac:(lia) Hj) as He. simpl in He.
        rewrite !Nat.add_0_r in He. replace (2 ^ k + (i - 2 ^ k))%nat with i in He by lia.
        by rewrite He.
      * pose proof (lxor_blocks k 1 1 (i - 2 ^ k) j ltac:(lia) Hj) as He. simpl in He.
        rewrite !Nat.add_0_r in He. replace (2 ^ k + (i - 2 ^ k))%nat with i in He by lia.
        by rewrite He.
Qed.
End transform.


(** ** Residues *)
Definition eqm (M a b : Z) : Prop := ∃ k, a = b + M * k.

Lemma eqm_mod M a b : 0 < M → eqm M a b ↔ a mod M = b mod M.
Proof.
  intros HM. split.
  - intros [k ->]. rewrite Z.mul_comm. apply Z_mod_plus_full.
  - intros H. exists (a / M - b / M).
    pose proof (Z.div_mod a M ltac:(lia)). pose proof (Z.div_mod b M ltac:(lia)). lia.
Qed.

#[export] Instance eqm_equiv M : Equivalence (eqm M).
Proof.
  split.
  - intros a. exists 0. lia.
  - intros a b [k ->]. exists (- k). lia.
  - intros a b c [k ->] [m ->]. exists (m + k). lia.
Qed.

#[export] Instance eqm_add M : Proper (eqm M ==> eqm M ==> eqm M) Z.add.
Proof. intros a b [k ->] c d [m ->]. exists (k + m). lia. Qed.

#[export] Instance eqm_sub M : Proper (eqm M ==> eqm M ==> eqm M) Z.sub.
Proof. intros a b [k ->] c d [m ->]. exists (k - m). lia. Qed.

#[export] Instance eqm_mul M : Proper (eqm M ==> eqm M ==> eqm M) Z.mul.
Proof. intros a b [k ->] c d [m ->]. exists (b * m + k * d + M * k * m). lia. Qed.

Lemma wht_eqm M k (f g : nat → Z) i : (∀ j, (j < 2 ^ k)%nat → eqm M (f j) (g j)) →
  eqm M (wht k f i) (wht k g i).
Proof.
  revert f g i. induction k as [|k IH]; intros f g i H; [apply H; cbn; lia|].
  cbn [wht]. pose proof (pow2_S k).
  destruct (decide (i < 2 ^ k)%nat); rewrite (IH f g) by (intros; apply H; lia);
    rewrite (IH (λ j, f (2 ^ k + j)%nat) (λ j, g (2 ^ k + j)%nat)) by (intros; apply H; lia);
    reflexivity.
Qed.

Local Close Scope Z_scope.

(** ** The passes of the code *)

(** Reads and writes of lists given by functions. *)
Ltac tabulate_steps :=
  repeat first
    [ rewrite index_tabulate by lia; cbn [obind]
    | rewrite update_tabulate by lia; cbn [obind]
    | rewrite decide_True by lia
    | rewrite decide_False by lia ].


Lemma wht_zero l (f : nat → Z) r : (∀ j, j < 2 ^ l → f j = 0%Z) → wht l f r = 0%Z.
Proof.
  intros H. rewrite (wht_ext l f (λ j, 0 * f j)%Z) by (intros j Hj; rewrite (H j Hj); lia).
  rewrite wht_scale. lia.
Qed.

(** The two levels of a radix-4 step. *)
Lemma wht_quad l f r c (v : nat → Z) : r < 2 ^ l → c < 4 →
  (∀ c, v c = wht l (λ j, f (c * 2 ^ l + j)) r) →
  wht (2 + l) f (c * 2 ^ l + r) = match c with
    | 0 => ((v 0%nat + v 1%nat) + (v 2%nat + v 3%nat))%Z | 1 => ((v 0%nat - v 1%nat) + (v 2%nat - v 3%nat))%Z
    | 2 => ((v 0%nat + v 1%nat) - (v 2%nat + v 3%nat))%Z | _ => ((v 0%nat - v 1%nat) - (v 2%nat - v 3%nat))%Z end.
Proof.
  intros Hr Hc Hv. change (2 + l) with (S (S l)). pose proof (pow2_S l) as HS.
  assert (∀ g, wht (S l) g r = (wht l g r + wht l (λ j, g (2 ^ l + j)%nat) r)%Z) as Hlo
    by (intros g; by apply wht_low).
  assert (∀ g, wht (S l) g (2 ^ l + r) = (wht l g r - wht l (λ j, g (2 ^ l + j)%nat) r)%Z) as Hhi
    by (intros g; apply wht_high).
  assert (∀ c g, (∀ j, g j = f (c * 2 ^ l + j)) → wht l g r = v c) as Hg.
  { intros c' g Hg. rewrite Hv. apply wht_ext. intros j _. apply Hg. }
  destruct c as [|[|[|[|c]]]]; [| | | |lia].
  - rewrite Nat.mul_0_l, Nat.add_0_l, wht_low, !Hlo by lia.
    rewrite (Hg 0), (Hg 1), (Hg 2), (Hg 3); [done|..]; intros j; f_equal; lia.
  - rewrite Nat.mul_1_l, wht_low, !Hhi by lia.
    rewrite (Hg 0), (Hg 1), (Hg 2), (Hg 3); [done|..]; intros j; f_equal; lia.
  - replace (2 * 2 ^ l + r) with (2 ^ S l + r) by lia. rewrite wht_high, !Hlo by lia.
    rewrite (Hg 0), (Hg 1), (Hg 2), (Hg 3); [done|..]; intros j; f_equal; lia.
  - replace (3 * 2 ^ l + r) with (2 ^ S l + (2 ^ l + r)) by lia. rewrite wht_high, !Hhi by lia.
    rewrite (Hg 0), (Hg 1), (Hg 2), (Hg 3); [done|..]; intros j; f_equal; lia.
Qed.


(** Words that stand for residues. *)
Class Residues (R : Type) (fwht2_alt : R → R → R * R) (rz : R → Z) (r0 : R) (M : Z) : Prop := {
  rz_add a b : eqm M (rz (fwht2_alt a b).1) (rz a + rz b)%Z;
  rz_sub a b : eqm M (rz (fwht2_alt a b).2) (rz a - rz b)%Z;
  rz_0 : rz r0 = 0%Z;
}.

Section passes.
Context {R : Type} (fwht2_alt : R → R → R * R) (rz : R → Z) (r0 : R) (M : Z).
Context {RS : Residues R fwht2_alt rz r0 M}.
Implicit Types (f s t : nat → R).

(** What a radix-4 step makes of four elements. *)
Definition fwht_quad (q : list R) (c : nat) : R :=
  let '(d0, d1, d2, d3) :=
    match q with [d0; d1; d2; d3] => (d0, d1, d2, d3) | _ => (r0, r0, r0, r0) end in
  let '(t0, t1) := fwht2_alt d0 d1 in
  let '(t2, t3) := fwht2_alt d2 d3 in
  match c with
  | 0 => (fwht2_alt t0 t2).1 | 1 => (fwht2_alt t1 t3).1
  | 2 => (fwht2_alt t0 t2).2 | _ => (fwht2_alt t1 t3).2
  end.

Lemma let_pair {A B C} (p : A * B) (k : A → B → C) : (let '(x, y) := p in k x y) = k p.1 p.2.
Proof. by destruct p. Qed.

Lemma fwht4_acts {E} n dist off : 0 < dist → off + dist * 3 < n →
  acts (E:=E) (tabulate n) (λ _, True) (fwht4 fwht2_alt dist off) (radix_step 4 fwht_quad dist off).
Proof.
  intros Hd Hn s _. unfold fwht4.
  repeat first [progress tabulate_steps | rewrite let_pair]. eexists.
  split_and!; [reflexivity|done|]. split.
  - intros c Hc. unfold gather, fwht_quad. cbn [map seq]. rewrite !let_pair.
    destruct c as [|[|[|[|c]]]]; [| | | |lia]; rewrite ?Nat.mul_0_r, ?Nat.add_0_r, ?Nat.mul_1_r;
      repeat first [rewrite decide_True by lia | rewrite decide_False by lia]; done.
  - intros j Hj. pose proof (Hj 0 ltac:(lia)). pose proof (Hj 1 ltac:(lia)).
    pose proof (Hj 2 ltac:(lia)). pose proof (Hj 3 ltac:(lia)).
    rewrite !decide_False by lia. done.
Qed.

Lemma fwht_pass_acts {E} n dist limit : 0 < dist →
  length (counters 0 limit (dist * 4)) * (dist * 4) ≤ n →
  acts (E:=E) (tabulate n) (λ _, True) (fwht_pass fwht2_alt dist limit)
    (radix_pass 4 (λ _, fwht_quad) dist (length (counters 0 limit (dist * 4)))).
Proof.
  intros Hd Hn s Hs. unfold fwht_pass. rewrite while_below_for_each by lia.
  revert s Hs. apply acts_pass. intros q x Hx s Hs.
  unfold counters in Hx, Hn. rewrite length_map, length_seq in Hn.
  rewrite lookup_map in Hx. destruct (seq _ _ !! q) as [q'|] eqn:Hq; [|done].
  apply lookup_seq in Hq as [-> Hq]. injection Hx as <-.
  unfold radix4_block. rewrite for_range_shift. revert s Hs. apply acts_block. intros i Hi.
  apply fwht4_acts; nia.
Qed.

Context (w : nat).

(** After the passes up to blocks of [2 ^ l] elements. *)
Definition walsh_stage (l : nat) f s : Prop :=
  ∀ q r, r < 2 ^ l → q * 2 ^ l + r < 2 ^ w →
    eqm M (rz (s (q * 2 ^ l + r))) (wht l (λ j, rz (f (q * 2 ^ l + j))) r).

Definition zero_from (limit : nat) s : Prop := ∀ j, limit ≤ j → s j = r0.

Lemma fwht_quad_residues d0 d1 d2 d3 c : c < 4 →
  eqm M (rz (fwht_quad [d0; d1; d2; d3] c)) (match c with
    | 0 => ((rz d0 + rz d1) + (rz d2 + rz d3))%Z | 1 => ((rz d0 - rz d1) + (rz d2 - rz d3))%Z
    | 2 => ((rz d0 + rz d1) - (rz d2 + rz d3))%Z | _ => ((rz d0 - rz d1) - (rz d2 - rz d3))%Z end).
Proof.
  intros Hc. unfold fwht_quad. rewrite !let_pair.
  destruct c as [|[|[|c]]]; rewrite ?rz_add, ?rz_sub, ?rz_add, ?rz_sub; reflexivity.
Qed.

Lemma walsh_pass l m limit f s t : 2 + l ≤ w → m * 2 ^ (2 + l) ≤ 2 ^ w → limit ≤ m * 2 ^ (2 + l) →
  zero_from limit f → zero_from (m * 2 ^ (2 + l)) s → walsh_stage l f s →
  radix_pass 4 (λ _, fwht_quad) (2 ^ l) m s t → walsh_stage (2 + l) f t.
Proof.
  intros Hl8 Hm Hlim Hf Hs Hst [Hin Hout] q r Hr Hq.
  assert (2 ^ (2 + l) = 2 ^ l * 4) as Hpow by (simpl; lia).
  destruct (decide (q < m)) as [Hqm|Hqm].
  - pose proof (pow2_pos l) as Hp.
    assert (∃ c i, c < 4 ∧ i < 2 ^ l ∧ r = c * 2 ^ l + i) as (c & i & Hc & Hi & ->).
    { exists (r / 2 ^ l), (r mod 2 ^ l). split_and!.
      - apply Nat.Div0.div_lt_upper_bound. lia.
      - apply Nat.mod_upper_bound. lia.
      - rewrite (Nat.div_mod_eq r (2 ^ l)) at 1. lia. }
    rewrite Hpow in Hq |- *.
    replace (q * (2 ^ l * 4) + (c * 2 ^ l + i)) with (q * (2 ^ l * 4) + i + 2 ^ l * c) by lia.
    rewrite Hin by done.
    assert (∀ c, c < 4 → eqm M (rz (s (q * (2 ^ l * 4) + i + 2 ^ l * c)))
      (wht l (λ j, rz (f (q * (2 ^ l * 4) + (c * 2 ^ l + j)))) i)) as Hv.
    { intros c' Hc'. pose proof (Hst (q * 4 + c') i Hi ltac:(nia)) as Hsc.
      replace ((q * 4 + c') * 2 ^ l + i) with (q * (2 ^ l * 4) + i + 2 ^ l * c') in Hsc by lia.
      rewrite Hsc. erewrite wht_ext; [reflexivity|]. intros j _. cbv beta. f_equal. f_equal. lia. }
    rewrite (wht_quad l (λ j, rz (f (q * (2 ^ l * 4) + j))) i c
      (λ c, wht l (λ j, rz (f (q * (2 ^ l * 4) + (c * 2 ^ l + j)))) i)) by done.
    unfold gather. cbn [map seq]. rewrite fwht_quad_residues by done.
    pose proof (Hv 0 ltac:(lia)) as V0. pose proof (Hv 1 ltac:(lia)) as V1.
    pose proof (Hv 2 ltac:(lia)) as V2. pose proof (Hv 3 ltac:(lia)) as V3.
    destruct c as [|[|[|c]]]; rewrite V0, V1, V2, V3; reflexivity.
  - rewrite Hout by nia. rewrite Hs by nia. rewrite (rz_0 (M:=M)).
    rewrite wht_zero; [reflexivity|]. intros j Hj. rewrite Hf by nia. apply (rz_0 (M:=M)).
Qed.

(** One pass of the truncated transform. *)
Lemma walsh_step {E} l limit f s : 2 + l ≤ w → limit ≤ 2 ^ w → zero_from limit f →
  zero_from (nblocks limit (2 ^ l) * 2 ^ l) s → walsh_stage l f s →
  ∃ t, fwht_pass (E:=E) fwht2_alt (2 ^ l) limit (tabulate (2 ^ w) s) = Ok (tabulate (2 ^ w) t) ∧
    zero_from (nblocks limit (2 ^ (2 + l)) * 2 ^ (2 + l)) t ∧ walsh_stage (2 + l) f t.
Proof.
  intros Hl Hlim Hf Hs Hst. pose proof (pow2_pos l) as Hp.
  assert (2 ^ l * 4 = 2 ^ (2 + l)) as Hpow by (simpl; lia).
  set (m := nblocks limit (2 ^ (2 + l))).
  assert (m * 2 ^ (2 + l) ≤ 2 ^ w) as Hm.
  { assert (2 ^ w = 2 ^ (w - (2 + l)) * 2 ^ (2 + l)) as H256
      by (rewrite <- Nat.pow_add_r; f_equal; lia).
    assert (m ≤ 2 ^ (w - (2 + l))) by (apply counters_bound; [apply pow2_pos|lia]). nia. }
  assert (limit ≤ m * 2 ^ (2 + l)) as Hcov by (apply counters_blocks, pow2_pos).
  assert (zero_from (m * 2 ^ (2 + l)) s) as Hs'.
  { intros j Hj. apply Hs.
    assert (nblocks limit (2 ^ l) ≤ 4 * m) by (apply counters_bound; lia). nia. }
  destruct (fwht_pass_acts (E:=E) (2 ^ w) (2 ^ l) limit Hp ltac:(by rewrite Hpow) s I)
    as (t & Ht & _ & Hst').
  rewrite Hpow in Hst'. fold m in Hst'. exists t. split_and!; [done| |].
  - intros j Hj. destruct Hst' as [_ Hout]. rewrite Hout by (by rewrite Hpow). by apply Hs'.
  - by eapply walsh_pass.
Qed.

Lemma walsh_start f : walsh_stage 0 f f.
Proof. intros q r Hr _. simpl in Hr |- *. replace (q * 1 + r) with (q * 1 + 0) by lia. reflexivity. Qed.

Definition transformed f t : Prop := ∀ i, i < 2 ^ w → eqm M (rz (t i)) (wht w (λ j, rz (f j)) i).

Lemma walsh_done f t : walsh_stage w f t → transformed f t.
Proof. intros H i Hi. exact (H 0 i Hi Hi). Qed.

Lemma pow4 l : 2 ^ l * 4 = 2 ^ (2 + l).
Proof. simpl. lia. Qed.

(** The passes from blocks of [2 ^ l] elements on. *)
Lemma fwht_loop_from {E} limit f h : ∀ l fuel s, l + 2 * h = w → h < fuel → limit ≤ 2 ^ w →
  zero_from limit f → zero_from (nblocks limit (2 ^ l) * 2 ^ l) s → walsh_stage l f s →
  ∃ t, fwht_loop (E:=E) fwht2_alt fuel (2 ^ w) (2 ^ l) limit (tabulate (2 ^ w) s)
         = Ok (tabulate (2 ^ w) t) ∧ transformed f t.
Proof.
  induction h as [|h IH]; intros l [|fuel] s Hl Hfuel Hlim Hf Hs Hst; [lia| |lia|];
    cbn [fwht_loop]; rewrite pow4.
  - replace l with w in * by lia. pose proof (pow2_pos w).
    destruct (Nat.leb_spec (2 ^ (2 + w)) (2 ^ w)) as [Hle|_]; [rewrite <- pow4 in Hle; lia|].
    exists s. split; [done|]. by apply walsh_done.
  - destruct (Nat.leb_spec (2 ^ (2 + l)) (2 ^ w)) as [_|Hgt].
    2:{ pose proof (pow2_le (2 + l) w ltac:(lia)). lia. }
    destruct (walsh_step (E:=E) l limit f s ltac:(lia) Hlim Hf Hs Hst) as (t & -> & Hz & Ht).
    cbn [obind]. apply IH; [lia|lia|done..].
Qed.

Lemma fwht_variable_from {E} f h : ∀ l fuel s, l + 2 * h = w → h < fuel →
  zero_from (2 ^ w) f → zero_from (nblocks (2 ^ w) (2 ^ l) * 2 ^ l) s → walsh_stage l f s →
  ∃ t, fwht_variable_loop (E:=E) fwht2_alt fuel (2 ^ l) (2 ^ w) (tabulate (2 ^ w) s)
         = Ok (tabulate (2 ^ w) t) ∧ transformed f t.
Proof.
  induction h as [|h IH]; intros l [|fuel] s Hl Hfuel Hf Hs Hst; [lia| |lia|];
    cbn [fwht_variable_loop].
  - replace l with w in * by lia. rewrite Nat.ltb_irrefl.
    exists s. split; [done|]. by apply walsh_done.
  - pose proof (pow2_pos l). pose proof (pow4 l). rewrite pow4.
    pose proof (pow2_le (2 + l) w ltac:(lia)) as Hle.
    destruct (Nat.ltb_spec (2 ^ l) (2 ^ w)) as [_|]; [|lia].
    destruct (Nat.leb_spec (2 ^ (2 + l)) (2 ^ w)) as [_|]; [|lia].
    destruct (walsh_step (E:=E) l (2 ^ w) f s ltac:(lia) ltac:(lia) Hf Hs Hst) as (t & -> & Hz & Ht).
    cbn [obind]. apply IH; [lia|lia|done..].
Qed.

Lemma zero_from_blocks limit f : zero_from limit f → zero_from (nblocks limit (2 ^ 0) * 2 ^ 0) f.
Proof.
  intros Hf j Hj. apply Hf. pose proof (counters_blocks limit 1 ltac:(lia)). simpl in Hj. lia.
Qed.

(** ** The transforms *)
Lemma fwht_loop_spec {E} h limit f fuel : w = 2 * h → h < fuel → limit ≤ 2 ^ w → zero_from limit f →
  ∃ t, fwht_loop (E:=E) fwht2_alt fuel (2 ^ w) 1 limit (tabulate (2 ^ w) f) = Ok (tabulate (2 ^ w) t) ∧
    transformed f t.
Proof.
  intros Hw Hfuel Hlim Hf.
  apply (fwht_loop_from limit f h 0); [lia|done..| |apply walsh_start]. by apply zero_from_blocks.
Qed.

Lemma fwht_variable_spec {E} h f : w = 2 * h → zero_from (2 ^ w) f →
  ∃ t, fwht_variable_with (E:=E) fwht2_alt (tabulate (2 ^ w) f) = Ok (tabulate (2 ^ w) t) ∧
    transformed f t.
Proof.
  intros Hw Hf. unfold fwht_variable_with. rewrite length_tabulate.
  apply (fwht_variable_from f h 0); [lia| |done| |apply walsh_start].
  - pose proof (Nat.pow_gt_lin_r 2 w ltac:(lia)). lia.
  - by apply zero_from_blocks.
Qed.
End passes.
