(* ===== verification/LeoField16.v ===== *)
(** * The field of the Leopard GF(2^16) engine

    The mathematics behind the tables of [src/core/leopard_gf16/tables.rs]; nothing here
    models code.  The code steps through GF(2)[x] modulo its polynomial; [theta] is a root
    of the polynomial in [gf16_alg], so such a residue is a linear combination of powers of
    [theta] ([pol16]).  [theta] generates the multiplicative group: every nonzero residue is
    one of the [2^16 - 1] states of the shift register ([state_surj]).  [phi16] reads
    coordinates in the Cantor basis of the code. *)

From Stdlib Require Import NArith ZArith Lia List Bool Ring.
From stdpp Require Import base numbers list.
From S2P Require Import Prelude Bytes Fields Gf8 Gf16 LinAlg.

Import galois_16.
#[local] Abbreviation El := (@Elem gf16_alg).
#[local] Abbreviation pow := (fpow (F:=gf16_alg)).
#[local] Notation "a ⊕ b" := (Fields.add (Field:=gf16_alg) a b) (at level 50).
#[local] Notation "a ⊗ b" := (Fields.mul (Field:=gf16_alg) a b) (at level 40).

(** ** Linear combinations with the bits of a number *)
Section combinations.
Context {F : Field} {FL : FieldLaws F}.
Add Ring elem_ring : (field_ring_theory (F:=F)) (morphism (field_ring_morph (F:=F)), constants [field_const]).
Implicit Types (basis : nat → @Elem F) (v : N).

Definition bit_term basis v (k : nat) : @Elem F := if N.testbit v (N.of_nat k) then basis k else zero.
Definition lin (n : nat) basis v : @Elem F := bsum n (bit_term basis v).

Lemma lin_lxor n basis v v' : lin n basis (N.lxor v v') = Fields.add (lin n basis v) (lin n basis v').
Proof.
  unfold lin. rewrite <- bsum_add. apply bsum_ext. intros k _. unfold bit_term.
  rewrite N.lxor_spec. destruct (N.testbit v _), (N.testbit v' _); cbn [xorb]; ring.
Qed.

Lemma lin_0 n basis : lin n basis 0 = zero.
Proof. apply bsum_0. intros k _. unfold bit_term. by rewrite N.bits_0. Qed.

Lemma lin_pow2 n basis k : k < n → lin n basis (2 ^ N.of_nat k) = basis k.
Proof.
  intros Hk. unfold lin. rewrite (bsum_single n k); [|done|].
  - unfold bit_term. by rewrite N.pow2_bits_true.
  - intros i _ Hi. unfold bit_term. rewrite N.pow2_bits_false; [done|lia].
Qed.

(** A missing top bit. *)
Lemma lin_high n basis v : (v < 2 ^ N.of_nat n)%N → lin (S n) basis v = lin n basis v.
Proof.
  intros Hv. unfold lin. cbn [bsum]. unfold bit_term at 2.
  assert (N.testbit v (N.of_nat n) = false) as ->; [|ring].
  destruct (N.eq_dec v 0%N) as [->|Hne]; [apply N.bits_0|].
  apply N.bits_above_log2, N.log2_lt_pow2; lia.
Qed.

(** Doubling shifts the basis. *)
Lemma lin_double n (basis basis' : nat → @Elem F) v :
  (∀ k, basis' (S k) = basis k) → lin (S n) basis' (2 * v) = lin n basis v.
Proof.
  intros Hb. unfold lin. change (S n) with (1 + n). rewrite bsum_split. cbn [bsum].
  unfold bit_term at 1. change (N.of_nat 0) with 0%N. rewrite N.testbit_even_0.
  transitivity (bsum n (λ i, bit_term basis' (2 * v) (1 + i)) : @Elem F); [ring|].
  apply bsum_ext. intros k _. unfold bit_term. change (1 + k) with (S k).
  rewrite Nat2N.inj_succ, N.testbit_even_succ by lia. by rewrite Hb.
Qed.

(** A linear map is given by its values on the basis. *)
Lemma lin_ext n (f : N → @Elem F) basis :
  f 0%N = zero → (∀ v v', f (N.lxor v v') = Fields.add (f v) (f v')) →
  (∀ k, k < n → f (2 ^ N.of_nat k)%N = basis k) →
  ∀ v, (v < 2 ^ N.of_nat n)%N → f v = lin n basis v.
Proof.
  intros H0 Hf. induction n as [|n IH]; intros Hk v Hv.
  - cbn in Hv. assert (v = 0%N) as -> by lia. by rewrite H0, lin_0.
  - destruct (N.lt_ge_cases v (2 ^ N.of_nat n)) as [Hlt|Hge].
    + rewrite lin_high by done. apply IH; [|done]. intros k Hkn. apply Hk. lia.
    + set (r := N.lxor v (2 ^ N.of_nat n)).
      assert (v = N.lxor r (2 ^ N.of_nat n)) as Hvr
        by (unfold r; by rewrite N.lxor_assoc, N.lxor_nilpotent, N.lxor_0_r).
      assert (r < 2 ^ N.of_nat n)%N as Hr.
      { rewrite Nat2N.inj_succ, N.pow_succ_r' in Hv.
        assert (N.log2 v = N.of_nat n) as Hlog.
        { apply N.log2_unique; [lia|]. rewrite N.pow_succ_r'. lia. }
        destruct (N.eq_dec r 0%N) as [->|Hr0]; [lia|]. apply N.log2_lt_pow2; [lia|].
        assert (N.log2 r <= N.of_nat n)%N as Hle.
        { unfold r. eapply N.le_trans; [apply N.log2_lxor|]. rewrite Hlog, N.log2_pow2; lia. }
        assert (N.testbit r (N.of_nat n) = false) as Hb.
        { unfold r. rewrite N.lxor_spec, N.pow2_bits_true, <- Hlog, N.bit_log2 by lia. done. }
        destruct (N.eq_dec (N.log2 r) (N.of_nat n)) as [He|]; [|lia].
        rewrite <- He, N.bit_log2 in Hb by lia. done. }
      rewrite Hvr, Hf, lin_lxor, Hk by lia. f_equal.
      * rewrite lin_high by done. apply IH; [|done]. intros k Hkn. apply Hk. lia.
      * rewrite lin_pow2; [done|lia].
Qed.
End combinations.

(** ** The shift register *)
Definition theta : El := (x0e, xe9).

(** The residue with the coefficients [s]. *)
Definition pol16 (s : N) : El := lin (F:=gf16_alg) 16 (λ k, pow theta (N.of_nat k)) s.

Definition lfsr (s : N) : N :=
  let s := N.shiftl s 1 in if (2 ^ 16 <=? s)%N then N.lxor s 0x1002D else s.

Section register.
Add Ring gf16_ring : (field_ring_theory (F:=gf16_alg))
  (morphism (field_ring_morph (F:=gf16_alg)), constants [field_const]).
#[local] Abbreviation powers := (λ k, pow theta (N.of_nat k)).

Lemma theta_root : lin (F:=gf16_alg) 17 powers 0x1002D = zero.
Proof. vm_compute. reflexivity. Qed.

Lemma lfsr_spec s : (s < 2 ^ 16)%N → (lfsr s < 2 ^ 16)%N ∧ pol16 (lfsr s) = theta ⊗ pol16 s.
Proof.
  intros Hs. unfold lfsr. rewrite N.shiftl_mul_pow2. change (2 ^ 1)%N with 2%N.
  assert (lin (F:=gf16_alg) 17 powers (s * 2) = theta ⊗ pol16 s) as Hd.
  { rewrite N.mul_comm. rewrite (lin_double 16 (λ k, pow theta (N.of_nat (S k)))) by done.
    unfold pol16, lin. rewrite <- bsum_mul_l. apply bsum_ext. intros k _. unfold bit_term.
    rewrite Nat2N.inj_succ, fpow_succ. destruct (N.testbit s _); ring. }
  destruct (N.leb_spec (2 ^ 16) (s * 2)) as [Hge|Hlt].
  - assert (N.lxor (s * 2) 65581 < 2 ^ 16)%N as Hb.
    { replace (s * 2)%N with (N.lxor (s * 2 - 2 ^ 16) (2 ^ 16)).
      - rewrite N.lxor_assoc. change (N.lxor (2 ^ 16) 65581) with 45%N.
        destruct (N.eq_dec (N.lxor (s * 2 - 2 ^ 16) 45) 0%N) as [->|Hne]; [done|].
        apply N.log2_lt_pow2; [lia|]. eapply N.le_lt_trans; [apply N.log2_lxor|].
        apply N.max_lub_lt; [|done].
        destruct (N.eq_dec (s * 2 - 2 ^ 16)%N 0%N) as [->|]; [done|]. apply N.log2_lt_pow2; lia.
      - rewrite <- N.add_nocarry_lxor; [lia|]. apply N.bits_inj. intros k.
        rewrite N.land_spec, N.bits_0. destruct (N.eq_dec k 16%N) as [->|Hk].
        + rewrite N.bits_above_log2; [done|].
          destruct (N.eq_dec (s * 2 - 2 ^ 16)%N 0%N) as [->|]; [done|]. apply N.log2_lt_pow2; lia.
        + rewrite (N.pow2_bits_false 16 k) by lia. by rewrite andb_false_r. }
    split; [done|]. unfold pol16 at 1.
    rewrite <- (lin_high (F:=gf16_alg) 16 powers) by done.
    rewrite lin_lxor, theta_root, Hd. ring.
  - split; [lia|]. unfold pol16 at 1. by rewrite <- (lin_high (F:=gf16_alg) 16 powers).
Qed.

Definition state (n : N) : N := N.iter n lfsr 1%N.

Lemma state_succ n : state (N.succ n) = lfsr (state n).
Proof. unfold state. by rewrite N.iter_succ. Qed.

Lemma state_spec n : (state n < 2 ^ 16)%N ∧ pol16 (state n) = pow theta n.
Proof.
  induction n as [|n [IH1 IH2]] using N.peano_ind.
  - split; [done|]. by vm_compute.
  - rewrite state_succ, fpow_succ. destruct (lfsr_spec (state n)) as [H1 H2]; [done|].
    by rewrite H2, IH2.
Qed.

(** ** The order of [theta] *)
Lemma theta_neq_0 : theta ≠ zero.
Proof. done. Qed.

Lemma pow_neq_0 n : pow theta n ≠ zero.
Proof.
  induction n as [|n IH] using N.peano_ind; [done|]. rewrite fpow_succ.
  by apply mul_neq_0.
Qed.

(** The coprime factors of [2^16 - 1]. *)
Definition factor_ok (q : N) : bool :=
  negb (bool_decide (exp theta (65535 / q) = constant x01)) &&
  forallb (λ r, N.gcd (N.of_nat r) q =? 1)%N (seq 1 (N.to_nat q - 1)).

Lemma factors_ok : forallb factor_ok [3; 5; 17; 257]%N = true.
Proof. vm_compute. reflexivity. Qed.

Lemma theta_period : pow theta 65535 = one.
Proof. by apply pow_65535. Qed.

Lemma order_factor q n : q ∈ [3; 5; 17; 257]%N → pow theta n = one → (n mod q = 0)%N.
Proof.
  intros Hq Hn. assert (factor_ok q = true) as Hok.
  { pose proof factors_ok as H. rewrite forallb_forall in H. apply H. by apply list_elem_of_In. }
  assert (q ≠ 0 ∧ 65535 / q * q = 65535)%N as [Hq0 Hdiv].
  { repeat (apply elem_of_cons in Hq as [->|Hq]; [split; [discriminate|reflexivity]|]). by apply elem_of_nil in Hq. }
  apply andb_prop in Hok as [Hne Hgcd]. apply negb_true_iff, bool_decide_eq_false in Hne.
  destruct (N.eq_dec (n mod q)%N 0%N) as [|Hr]; [done|]. exfalso. apply Hne.
  pose proof (N.mod_lt n q Hq0) as Hlt. set (r := (n mod q)%N) in *.
  rewrite forallb_forall in Hgcd. specialize (Hgcd (N.to_nat r)).
  rewrite N2Nat.id in Hgcd. rewrite in_seq in Hgcd. specialize (Hgcd ltac:(lia)).
  apply N.eqb_eq in Hgcd.
  destruct (N.gcd_bezout_pos r q) as (a & b & Hab); [lia|]. rewrite Hgcd in Hab.
  assert (exp theta (65535 / q) = pow theta (65535 / q)) as ->.
  { unfold exp. by rewrite exp_fuel_spec. }
  assert (pow theta r = pow theta (n - q * (n / q))) as Hpr
    by (f_equal; unfold r; pose proof (N.div_mod n q ltac:(done)); lia).
  assert (pow theta (65535 / q * (a * n)) = one) as H1.
  { rewrite (N.mul_comm _ (a * n)), (N.mul_comm a n), <- N.mul_assoc, fpow_mul, Hn. apply fpow_1_l. }
  assert (a * n = 1 + (b + a * (n / q)) * q)%N as Han.
  { pose proof (N.div_mod n q ltac:(done)) as Hdm. fold r in Hdm.
    rewrite Hdm at 1. lia. }
  rewrite Han, N.mul_add_distr_l, N.mul_1_r, fpow_add in H1.
  rewrite (N.mul_comm (b + _) q), N.mul_assoc, Hdiv, (fpow_mul theta 65535), theta_period, fpow_1_l in H1.
  rewrite mul_1_r in H1. exact H1.
Qed.

Lemma theta_order n : (0 < n)%N → (n < 65535)%N → pow theta n ≠ one.
Proof.
  intros H0 Hn H1.
  assert (n mod 3 = 0)%N as H3 by (apply order_factor; [by repeat (first [by left|right])|done]).
  assert (n mod 5 = 0)%N as H5 by (apply order_factor; [by repeat (first [by left|right])|done]).
  assert (n mod 17 = 0)%N as H17 by (apply order_factor; [by repeat (first [by left|right])|done]).
  assert (n mod 257 = 0)%N as H257 by (apply order_factor; [by repeat (first [by left|right])|done]).
  apply N.Div0.mod_divides in H3 as [a ->]. apply N.Div0.mod_divides in H5 as [b Hb].
  apply N.Div0.mod_divides in H17 as [c Hc]. apply N.Div0.mod_divides in H257 as [e He]. lia.
Qed.

Lemma pow_inj n m : (n < 65535)%N → (m < 65535)%N → pow theta n = pow theta m → n = m.
Proof.
  assert (∀ n m, (n < m)%N → (m < 65535)%N → pow theta n ≠ pow theta m) as Hlt.
  { intros i j Hij Hj Heq. apply (theta_order (j - i)); [lia|lia|].
    apply (mul_cancel_l (pow theta i)); [apply pow_neq_0|].
    rewrite <- fpow_add, mul_1_r, Heq. f_equal. lia. }
  intros Hn Hm Heq. destruct (N.lt_trichotomy n m) as [H|[H|H]]; [|done|].
  - by destruct (Hlt n m H Hm).
  - by destruct (Hlt m n H Hn).
Qed.
End register.

(** Every nonzero residue is a state. *)
Lemma state_inj n m : (n < 65535)%N → (m < 65535)%N → state n = state m → n = m.
Proof.
  intros Hn Hm H. apply pow_inj; [done..|].
  rewrite <- (proj2 (state_spec n)), <- (proj2 (state_spec m)). by rewrite H.
Qed.

Lemma pol16_0 : pol16 0 = zero.
Proof. apply lin_0. Qed.

Lemma state_neq_0 n : state n ≠ 0%N.
Proof. intros H. apply (pow_neq_0 n). by rewrite <- (proj2 (state_spec n)), H, pol16_0. Qed.

Lemma pigeonhole (M : nat) (f : N → N) :
  (∀ n, (n < N.of_nat M)%N → (0 < f n)%N ∧ (f n < N.of_nat (S M))%N) →
  (∀ n m, (n < N.of_nat M)%N → (m < N.of_nat M)%N → f n = f m → n = m) →
  ∀ s, (0 < s)%N → (s < N.of_nat (S M))%N → ∃ n, (n < N.of_nat M)%N ∧ f n = s.
Proof.
  intros Hf Hinj s H0 Hs.
  set (L := map (λ n, f (N.of_nat n)) (seq 0 M)). set (T := map N.of_nat (seq 1 M)).
  assert (L ≡ₚ T) as HP.
  { apply submseteq_length_Permutation; [|unfold L, T; by rewrite !length_map, !length_seq].
    apply NoDup_submseteq.
    - unfold L. apply NoDup_ListNoDup, Finite.Injective_map_NoDup_in; [|apply NoDup_ListNoDup, NoDup_seq].
      intros a b Ha Hb Hab. apply in_seq in Ha, Hb. apply Nat2N.inj, Hinj; [lia|lia|done].
    - intros x Hx. apply list_elem_of_In, in_map_iff in Hx as (a & <- & Ha). apply in_seq in Ha.
      destruct (Hf (N.of_nat a)) as [H1 H2]; [lia|].
      apply list_elem_of_In, in_map_iff. exists (N.to_nat (f (N.of_nat a))).
      split; [lia|apply in_seq; lia]. }
  assert (s ∈ L) as Hin.
  { rewrite HP. apply list_elem_of_In, in_map_iff. exists (N.to_nat s). split; [lia|apply in_seq; lia]. }
  apply list_elem_of_In, in_map_iff in Hin as (a & Ha & Hin). apply in_seq in Hin.
  exists (N.of_nat a). split; [lia|done].
Qed.

Lemma state_surj s : (0 < s)%N → (s < 2 ^ 16)%N → ∃ n, (n < 65535)%N ∧ state n = s.
Proof.
  intros H0 Hs. destruct (pigeonhole (N.to_nat 65535) state) with (s := s) as (n & Hn & Hstate).
  - intros n _. rewrite Nat2N.inj_succ, N2Nat.id. pose proof (state_neq_0 n).
    pose proof (proj1 (state_spec n)). change (N.succ 65535) with (2 ^ 16)%N. lia.
  - intros n m. rewrite N2Nat.id. apply state_inj.
  - done.
  - rewrite Nat2N.inj_succ, N2Nat.id. exact Hs.
  - exists n. rewrite N2Nat.id in Hn. done.
Qed.

(** ** Cantor coordinates *)

(** [CANTOR_BASIS16] *)
Definition cantor_basis16 : list u16 := map as_u16
  [0x0001; 0xACCA; 0x3C0E; 0x163E; 0xC582; 0xED2E; 0x914C; 0x4012;
   0x6C98; 0x10D8; 0x6A72; 0xB900; 0xFDB8; 0xFB34; 0xFF38; 0x991E]%N.

Definition basis16 (k : nat) : N := u16_to_N (List.nth k cantor_basis16 u16_0).

(** The residue with the coordinates [v]. *)
Fixpoint cant (n : nat) (v : N) : N :=
  match n with
  | O => 0
  | S n => N.lxor (cant n v) (if N.testbit v (N.of_nat n) then basis16 n else 0)
  end.

Lemma cant_lxor n v v' : cant n (N.lxor v v') = N.lxor (cant n v) (cant n v').
Proof.
  induction n as [|n IH]; [done|]. cbn [cant]. rewrite IH, N.lxor_spec.
  rewrite !N.lxor_assoc. f_equal. rewrite (N.lxor_comm _ (N.lxor (cant n v') _)), N.lxor_assoc.
  f_equal. destruct (N.testbit v _), (N.testbit v' _); cbn [xorb];
    by rewrite ?N.lxor_nilpotent, ?N.lxor_0_l, ?N.lxor_0_r.
Qed.

Lemma cant_0 n : cant n 0 = 0%N.
Proof. induction n as [|n IH]; [done|]. cbn [cant]. by rewrite IH, N.bits_0. Qed.

Lemma cant_bound n v : (cant n v < 2 ^ 16)%N.
Proof.
  induction n as [|n IH]; [done|]. cbn [cant]. rewrite <- (u16_to_N_small _ IH).
  assert ((if N.testbit v (N.of_nat n) then basis16 n else 0%N)
    = u16_to_N (if N.testbit v (N.of_nat n) then List.nth n cantor_basis16 u16_0 else u16_0)) as ->
    by by destruct (N.testbit v _).
  rewrite <- u16_to_N_xor. apply u16_to_N_bound.
Qed.

(** The element with the coordinates [v]. *)
Definition phiN (v : N) : El := pol16 (cant 16 v).

Lemma phiN_lxor v v' : phiN (N.lxor v v') = phiN v ⊕ phiN v'.
Proof. unfold phiN. rewrite cant_lxor. apply lin_lxor. Qed.

Lemma phiN_0 : phiN 0 = zero.
Proof. unfold phiN. rewrite cant_0. apply pol16_0. Qed.

Lemma phiN_1 : phiN 1 = one.
Proof. by vm_compute. Qed.

Section half.
Add Ring gf16_ring2 : (field_ring_theory (F:=gf16_alg))
  (morphism (field_ring_morph (F:=gf16_alg)), constants [field_const]).

Lemma check_half16_ok k : k < 16 →
  phiN (2 ^ N.of_nat k) ⊗ phiN (2 ^ N.of_nat k) ⊕ phiN (2 ^ N.of_nat k)
  = phiN (N.shiftr (2 ^ N.of_nat k) 1).
Proof.
  intros Hk. do 16 (destruct k as [|k]; [vm_compute; reflexivity|]). lia.
Qed.

#[local] Opaque phiN.

Lemma phiN_half v : (v < 2 ^ 16)%N → phiN v ⊗ phiN v ⊕ phiN v = phiN (N.shiftr v 1).
Proof.
  intros Hv.
  pose proof (lin_ext (F:=gf16_alg) 16 (λ v, phiN v ⊗ phiN v ⊕ phiN v)
    (λ k, phiN (N.shiftr (2 ^ N.of_nat k) 1))) as H1. cbn beta in H1.
  pose proof (lin_ext (F:=gf16_alg) 16 (λ v, phiN (N.shiftr v 1))
    (λ k, phiN (N.shiftr (2 ^ N.of_nat k) 1))) as H2. cbn beta in H2.
  rewrite H1, H2; [done|..].
  - rewrite N.shiftr_0_l. apply phiN_0.
  - intros a b. by rewrite N.shiftr_lxor, phiN_lxor.
  - done.
  - exact Hv.
  - rewrite phiN_0. ring.
  - intros a b. rewrite phiN_lxor. ring.
  - apply check_half16_ok.
  - exact Hv.
Qed.

Lemma phiN_neq_0 v : (0 < v)%N → (v < 2 ^ 16)%N → phiN v ≠ zero.
Proof.
  induction (N.lt_wf_0 v) as [v _ IH]. intros H0 Hv Hz.
  destruct (N.eq_dec v 1%N) as [->|H1]; [by rewrite phiN_1 in Hz|].
  assert (N.shiftr v 1 = v / 2)%N as Hs by (rewrite N.shiftr_div_pow2; done).
  assert (0 < v / 2 ∧ v / 2 < v)%N as [Hp Hl].
  { split; [apply N.div_str_pos; lia|apply N.div_lt; lia]. }
  apply (IH (v / 2)%N); [done|done|lia|]. rewrite <- Hs, <- phiN_half, Hz by done. ring.
Qed.

Lemma phiN_inj v v' : (v < 2 ^ 16)%N → (v' < 2 ^ 16)%N → phiN v = phiN v' → v = v'.
Proof.
  intros Hv Hv' H. destruct (N.eq_dec (N.lxor v v') 0%N) as [H0|H0]; [by apply N.lxor_eq|].
  exfalso. apply (phiN_neq_0 (N.lxor v v')); [lia| |].
  - rewrite <- (u16_to_N_small _ Hv), <- (u16_to_N_small _ Hv'), <- u16_to_N_xor. apply u16_to_N_bound.
  - rewrite phiN_lxor, H. ring.
Qed.
End half.

(** Coordinates other than zero are those of a power of [theta]. *)
Lemma cant_state v : (0 < v)%N → (v < 2 ^ 16)%N → ∃ n, (n < 65535)%N ∧ cant 16 v = state n.
Proof.
  intros H0 Hv. destruct (state_surj (cant 16 v)) as (n & Hn & Hs).
  - assert (cant 16 v ≠ 0%N); [|lia]. intros H. apply (phiN_neq_0 v); [done..|].
    unfold phiN. rewrite H. apply pol16_0.
  - apply cant_bound.
  - by exists n.
Qed.
