(* ===== verification/LeoPlan.v ===== *)
(** * Transform plans of the Leopard engines
    ([src/core/leopard_gf8/mod.rs], lines 58-95 and 298-500; [leopard_gf16/mod.rs] has the
    same builders for logarithms of 16 bits)

    The plan builders list the radix-4 blocks of a truncated transform with the skews
    that they use.  The theorems give the lists in closed form, for any table of skews
    ([SkewTable]): one list for each pass, whose block [q] has the skews of the points that
    belong to it. *)

From Stdlib Require Import NArith Lia List Bool.
From stdpp Require Import base numbers list.
From S2P Require Import Prelude Options Lch LeoStages.

Record Stage4Block (T : Type) := mk_stage4 {
  stage4_r : nat; stage4_dist : nat;
  stage4_m01 : T; stage4_m23 : T; stage4_m02 : T;
}.
Arguments mk_stage4 {T}.
Arguments stage4_r {T}.
Arguments stage4_dist {T}.
Arguments stage4_m01 {T}.
Arguments stage4_m23 {T}.
Arguments stage4_m02 {T}.

Record Stage2Block (T : Type) := mk_stage2 { stage2_r : nat; stage2_dist : nat; stage2_m : T }.
Arguments mk_stage2 {T}.
Arguments stage2_r {T}.
Arguments stage2_dist {T}.
Arguments stage2_m {T}.

Record FftPlan (T : Type) := mk_fft_plan {
  fft_mtrunc : nat;
  stage4_blocks : list (Stage4Block T);
  fft_final : list (Stage2Block T);
}.
Arguments mk_fft_plan {T}.
Arguments fft_mtrunc {T}.
Arguments stage4_blocks {T}.
Arguments fft_final {T}.

Record IfftPlan (T : Type) := mk_ifft_plan {
  ifft_mtrunc : nat;
  ifft_m : nat;
  initial_blocks : list (Stage4Block T);
  later_blocks : list (Stage4Block T);
  clear_start : nat;
  ifft_final : option (Stage2Block T);
}.
Arguments mk_ifft_plan {T}.
Arguments ifft_mtrunc {T}.
Arguments ifft_m {T}.
Arguments initial_blocks {T}.
Arguments later_blocks {T}.
Arguments clear_start {T}.
Arguments ifft_final {T}.

(** The numbers of an encoder run. *)
Record LeopardEncodeDriver := mk_encode_driver {
  driver_shard_size : nat;
  driver_m : nat;
  driver_mtrunc : nat;
  driver_last_count : nat;
  driver_chunk_size : nat;
  driver_work_slices : nat;
  driver_skew_offset : nat;
}.

Definition ceil_pow2 (n : nat) : nat := N.to_nat (next_power_of_two (N.of_nat n)).

Section builders.
Context {E T : Type}.
Implicit Types (skew_lut : list T) (blocks : list (Stage4Block T)).

(** A block pushed with its three skews, read in the order of the struct literal. *)
Definition push_stage4 skew_lut (r dist i01 i02 i23 : nat) blocks : outcome E (list (Stage4Block T)) :=
  let! log_m01 := index skew_lut i01 in
  let! log_m02 := index skew_lut i02 in
  let! log_m23 := index skew_lut i23 in
  Ok (blocks ++ [mk_stage4 r dist log_m01 log_m23 log_m02]).

(** The indices from [i_end - 1], for the whole table of skews. *)
Definition push_from_end skew_lut (dist r : nat) blocks : outcome E (list (Stage4Block T)) :=
  let i_end := r + dist in
  push_stage4 skew_lut r dist (i_end - 1) (i_end + dist - 1) (i_end + dist * 2 - 1) blocks.

(** The indices from [i_end], for a table that starts one entry before the block. *)
Definition push_at_end skew_lut (dist r : nat) blocks : outcome E (list (Stage4Block T)) :=
  let i_end := r + dist in
  push_stage4 skew_lut r dist i_end (i_end + dist) (i_end + dist * 2) blocks.

(** [while dist != 0]; the last [dist4] decides on the final stage. *)
Fixpoint fft_plan_loop (fuel mtrunc : nat) skew_lut (dist4 dist : nat) blocks
  : outcome E (list (Stage4Block T) * nat) :=
  match fuel with
  | O => Panic
  | S fuel =>
      if dist =? 0 then Ok (blocks, dist4) else
      let! blocks := while_below 0 mtrunc dist4 (push_from_end skew_lut dist) blocks in
      fft_plan_loop fuel mtrunc skew_lut dist (Nat.shiftr dist 2) blocks
  end.

Definition build_fft_plan (mtrunc m : nat) skew_lut : outcome E (FftPlan T) :=
  let dist := Nat.shiftr m 2 in
  let! ' (blocks, dist4) := fft_plan_loop (S dist) mtrunc skew_lut m dist [] in
  let! final_stage :=
    if dist4 =? 2 then
      while_below 0 mtrunc 2 (λ r final,
        let! log_m := index skew_lut r in Ok (final ++ [mk_stage2 r 1 log_m])) []
    else Ok [] in
  Ok (mk_fft_plan mtrunc blocks final_stage).

(** [while dist4 <= m] *)
Fixpoint ifft_later_loop (push : nat → nat → list (Stage4Block T) → outcome E (list (Stage4Block T)))
    (fuel mtrunc m dist : nat) blocks : outcome E (list (Stage4Block T) * nat) :=
  match fuel with
  | O => Panic
  | S fuel =>
      let dist4 := dist * 4 in
      if dist4 <=? m then
        let! blocks := while_below 0 mtrunc dist4 (push dist) blocks in
        ifft_later_loop push fuel mtrunc m dist4 blocks
      else Ok (blocks, dist)
  end.

(** The two builders of inverse transforms differ in how they index the skews. *)
Definition build_ifft_with (push : nat → nat → list (Stage4Block T) → outcome E (list (Stage4Block T)))
    (final_index : nat → nat) (mtrunc m : nat) skew_lut : outcome E (IfftPlan T) :=
  let! ' (initial_blocks, later_blocks, dist) :=
    if 4 <=? m then
      let full_groups := Nat.ldiff mtrunc 3 in
      let! initial := while_below 0 full_groups 4 (push 1) [] in
      let! initial := if full_groups <? mtrunc then push 1 full_groups initial else Ok initial in
      let! ' (later, dist) := ifft_later_loop push (S m) mtrunc m 4 [] in
      Ok (initial, later, dist)
    else Ok ([], [], 1) in
  let! final_stage :=
    if dist <? m then
      let! log_m := index skew_lut (final_index dist) in Ok (Some (mk_stage2 0 dist log_m))
    else Ok None in
  Ok (mk_ifft_plan mtrunc m initial_blocks later_blocks (Nat.ldiff (mtrunc + 3) 3) final_stage).

Definition build_ifft_plan (mtrunc m : nat) skew_lut : outcome E (IfftPlan T) :=
  build_ifft_with (push_at_end skew_lut) (λ dist, dist) mtrunc m skew_lut.

Definition build_ifft_decode_plan (mtrunc m : nat) skew_lut : outcome E (IfftPlan T) :=
  build_ifft_with (push_from_end skew_lut) (λ dist, dist - 1) mtrunc m skew_lut.
End builders.

(** ** Closed forms *)

(** Entry [(2 q + 1) 2 ^ l - 1] of the table is the logarithm of the point [2 q]: the
    value of [sub l] on the block [q] of [2 ^ (l + 1)] points. *)
Class SkewTable {T : Type} (w : nat) (skews : list T) (slog : nat → T) : Prop :=
  skew_lookup l q : (2 * q + 1) * 2 ^ l < 2 ^ w →
    skews !! ((2 * q + 1) * 2 ^ l - 1) = Some (slog (2 * q)).

Section closed.
Context {T : Type} (slog : nat → T).

(** Block [q] of a pass at distance [2 ^ l], in a transform whose first block has the
    number [B] among the blocks of that size. *)
Definition plan_block (B l q : nat) : Stage4Block T :=
  mk_stage4 (q * 2 ^ (2 + l)) (2 ^ l) (slog (4 * (B + q))) (slog (4 * (B + q) + 2)) (slog (2 * (B + q))).

Definition plan_pass (B l limit : nat) : list (Stage4Block T) :=
  tabulate (nblocks limit (2 ^ (2 + l))) (plan_block B l).

Definition fft_passes (K limit : nat) : list (Stage4Block T) :=
  List.concat (tabulate (K / 2) (λ k, plan_pass 0 (K - 2 - 2 * k) limit)).

Definition ifft_passes (b K limit : nat) : list (Stage4Block T) :=
  List.concat (tabulate (K / 2 - 1) (λ k, plan_pass (b * 2 ^ (K - (4 + 2 * k))) (2 + 2 * k) limit)).

Definition fft_plan (K limit : nat) : (FftPlan T) :=
  mk_fft_plan limit (fft_passes K limit)
    (if K mod 2 =? 1 then tabulate (nblocks limit 2) (λ q, mk_stage2 (q * 2) 1 (slog (2 * q)))
     else []).

Definition ifft_plan (b K limit : nat) : (IfftPlan T) :=
  mk_ifft_plan limit (2 ^ K)
    (if 2 <=? K then plan_pass (b * 2 ^ (K - 2)) 0 limit else [])
    (ifft_passes b K limit) (nblocks limit 4 * 4)
    (if K mod 2 =? 1 then Some (mk_stage2 0 (2 ^ (K - 1)) (slog (2 * b))) else None).

End closed.

(** ** The builders return the closed forms *)
Section builders_ok.
Context {E T : Type} (w : nat) (skews : list T) (slog : nat → T) {ST : SkewTable w skews slog}.
Implicit Types (push : nat → nat → list (Stage4Block T) → outcome E (list (Stage4Block T))).
#[local] Abbreviation plan_block := (plan_block slog).
#[local] Abbreviation plan_pass := (plan_pass slog).
#[local] Abbreviation ifft_plan := (ifft_plan slog).
#[local] Abbreviation fft_plan := (fft_plan slog).

Lemma skew_index l q : (2 * q + 1) * 2 ^ l < 2 ^ w →
  index (E:=E) skews ((2 * q + 1) * 2 ^ l - 1) = Ok (slog (2 * q)).
Proof. intros H. by apply index_ok, skew_lookup. Qed.

(** The three skews of a block that lies in the table. *)
Lemma skew_block l B : (B + 1) * 2 ^ (2 + l) ≤ 2 ^ w →
  index (E:=E) skews (B * 2 ^ (2 + l) + 2 ^ l - 1) = Ok (slog (4 * B)) ∧
  index (E:=E) skews (B * 2 ^ (2 + l) + 2 ^ l + 2 ^ l - 1) = Ok (slog (2 * B)) ∧
  index (E:=E) skews (B * 2 ^ (2 + l) + 2 ^ l + 2 ^ l * 2 - 1) = Ok (slog (4 * B + 2)).
Proof.
  intros HB. change (2 + l) with (S (S l)) in *. pose proof (pow2_S l). pose proof (pow2_S (S l)).
  pose proof (pow2_pos l). split_and!.
  - replace (4 * B) with (2 * (2 * B)) by lia.
    replace (B * 2 ^ S (S l) + 2 ^ l - 1) with ((2 * (2 * B) + 1) * 2 ^ l - 1) by lia.
    apply skew_index; lia.
  - replace (B * 2 ^ S (S l) + 2 ^ l + 2 ^ l - 1) with ((2 * B + 1) * 2 ^ S l - 1) by lia.
    apply skew_index; lia.
  - replace (4 * B + 2) with (2 * (2 * B + 1)) by lia.
    replace (B * 2 ^ S (S l) + 2 ^ l + 2 ^ l * 2 - 1) with ((2 * (2 * B + 1) + 1) * 2 ^ l - 1) by lia.
    apply skew_index; lia.
Qed.

(** [push] reads the skews of transform [b] of [2 ^ K] points. *)
Definition reads_skews push (b K : nat) : Prop :=
  ∀ l q blocks, 2 + l ≤ K → (q + 1) * 2 ^ (2 + l) ≤ 2 ^ K →
  push (2 ^ l) (q * 2 ^ (2 + l)) blocks = Ok (blocks ++ [plan_block (b * 2 ^ (K - (2 + l))) l q]).

Lemma block_base b K l q : 2 + l ≤ K →
  (b * 2 ^ (K - (2 + l)) + q) * 2 ^ (2 + l) = b * 2 ^ K + q * 2 ^ (2 + l).
Proof.
  intros Hl. rewrite Nat.mul_add_distr_r, <- Nat.mul_assoc, <- Nat.pow_add_r. do 3 f_equal. lia.
Qed.

Lemma push_from_end_reads K : K ≤ w → reads_skews (push_from_end skews) 0 K.
Proof.
  intros HK l q blocks Hl Hq. pose proof (pow2_le K w HK) as H8.
  destruct (skew_block l q ltac:(lia)) as (H1 & H2 & H3).
  unfold push_from_end, push_stage4. by rewrite H1, H2, H3.
Qed.

Lemma index_drop (l : list T) n i : index (E:=E) (drop n l) i = index l (n + i).
Proof. unfold index. by rewrite lookup_drop. Qed.

Lemma push_at_end_reads b K : 0 < b → (b + 1) * 2 ^ K ≤ 2 ^ w →
  reads_skews (push_at_end (drop (b * 2 ^ K - 1) skews)) b K.
Proof.
  intros Hb HK l q blocks Hl Hq. pose proof (pow2_pos K). pose proof (block_base b K l q Hl) as Hbase.
  destruct (skew_block l (b * 2 ^ (K - (2 + l)) + q)) as (H1 & H2 & H3).
  { rewrite Nat.mul_add_distr_r, Hbase. lia. }
  rewrite Hbase in H1, H2, H3. unfold push_at_end, push_stage4. rewrite !index_drop.
  assert (0 < b * 2 ^ K) by nia.
  assert (∀ x, b * 2 ^ K - 1 + (q * 2 ^ (2 + l) + x) = b * 2 ^ K + q * 2 ^ (2 + l) + x - 1) as Hx by lia.
  rewrite <- !(Nat.add_assoc (q * _)), !Hx, !Nat.add_assoc. by rewrite H1, H2, H3.
Qed.

(** One pass. *)
Lemma push_pass push b K l limit blocks : reads_skews push b K → 2 + l ≤ K → limit ≤ 2 ^ K →
  while_below 0 limit (2 ^ (2 + l)) (push (2 ^ l)) blocks
  = Ok (blocks ++ plan_pass (b * 2 ^ (K - (2 + l))) l limit).
Proof.
  intros Hp Hl Hlim. apply while_push; [apply pow2_pos|]. intros q acc Hq. apply Hp; [done|].
  assert (nblocks limit (2 ^ (2 + l)) ≤ 2 ^ (K - (2 + l))) as Hn.
  { apply counters_bound; [apply pow2_pos|]. rewrite <- Nat.pow_add_r. by replace (K - (2 + l) + (2 + l)) with K by lia. }
  replace K with (K - (2 + l) + (2 + l)) by lia. rewrite (Nat.pow_add_r 2 (K - (2 + l))).
  apply Nat.mul_le_mono_r. lia.
Qed.

Lemma shiftr_pow2 k : Nat.shiftr (2 ^ (2 + k)) 2 = 2 ^ k.
Proof.
  rewrite Nat.shiftr_div_pow2, Nat.pow_add_r, Nat.mul_comm. apply Nat.div_mul. done.
Qed.

Lemma fft_plan_loop_passes limit n r : r < 2 → ∀ fuel blocks K, K ≤ w → limit ≤ 2 ^ K →
  2 * n + r ≤ K → n < fuel →
  fft_plan_loop (E:=E) fuel limit skews (2 ^ (2 * n + r)) (Nat.shiftr (2 ^ (2 * n + r)) 2) blocks
  = Ok (blocks ++ List.concat (tabulate n (λ k, plan_pass 0 (2 * n + r - 2 - 2 * k) limit)), 2 ^ r).
Proof.
  intros Hr. induction n as [|n IH]; intros fuel blocks K HK Hlim Hn Hf;
    (destruct fuel as [|fuel]; [lia|]); cbn [fft_plan_loop].
  - destruct r as [|[|]]; [| |lia]; simpl; by rewrite app_nil_r.
  - replace (2 * S n + r) with (2 + (2 * n + r)) by lia. rewrite shiftr_pow2.
    pose proof (pow2_pos (2 * n + r)). rewrite (proj2 (Nat.eqb_neq _ _)) by lia.
    rewrite (push_pass _ 0 K) by (done || lia || by apply push_from_end_reads). cbn [obind].
    rewrite Nat.mul_0_l, (IH fuel _ K), tabulate_S by (done || lia). cbn [List.concat].
    rewrite <- app_assoc. do 5 f_equal; [f_equal; lia|].
    apply tabulate_ext. intros k _. f_equal. lia.
Qed.

Lemma ifft_later_passes push b K limit n : reads_skews push b K → limit ≤ 2 ^ K →
  ∀ l fuel blocks, l + 2 * n ≤ K → K < l + 2 * n + 2 → n < fuel →
  ifft_later_loop push fuel limit (2 ^ K) (2 ^ l) blocks
  = Ok (blocks ++ List.concat (tabulate n (λ k,
      plan_pass (b * 2 ^ (K - (2 + l + 2 * k))) (l + 2 * k) limit)), 2 ^ (l + 2 * n)).
Proof.
  intros Hp Hlim. induction n as [|n IH]; intros l fuel blocks Hl Hn Hf;
    (destruct fuel as [|fuel]; [lia|]); cbn [ifft_later_loop];
    replace (2 ^ l * 4) with (2 ^ (2 + l)) by (cbn [Nat.add Nat.pow]; lia).
  - rewrite (proj2 (Nat.leb_gt _ _)) by (apply Nat.pow_lt_mono_r; lia).
    simpl. by rewrite app_nil_r, Nat.add_0_r.
  - rewrite (proj2 (Nat.leb_le _ _)) by (apply pow2_le; lia).
    rewrite (push_pass push b K) by (done || lia). cbn [obind].
    rewrite IH, tabulate_S by lia. cbn [List.concat]. rewrite <- app_assoc.
    replace (2 + l + 2 * 0) with (2 + l) by lia. replace (l + 2 * 0) with l by lia.
    replace (2 + l + 2 * n) with (l + 2 * S n) by lia. do 4 f_equal. f_equal.
    apply tabulate_ext. intros k _.
    by replace (2 + (2 + l) + 2 * k) with (2 + l + 2 * S k) by lia;
      replace (2 + l + 2 * k) with (l + 2 * S k) by lia.
Qed.

Lemma ldiff_3 n : Nat.ldiff n 3 = n / 4 * 4.
Proof.
  change 3 with (Nat.ones 2). rewrite Nat.ldiff_ones_r, Nat.shiftr_div_pow2, Nat.shiftl_mul_pow2. done.
Qed.

Lemma nblocks_4 n : nblocks n 4 = (n + 3) / 4.
Proof. unfold nblocks, counters. rewrite length_map, length_seq, Nat.sub_0_r. f_equal. lia. Qed.

(** The first pass of an inverse transform. *)
Lemma ifft_initial push b K limit : reads_skews push b K → 2 ≤ K → limit ≤ 2 ^ K →
  (let! initial := while_below 0 (limit / 4 * 4) 4 (push 1) [] in
   if limit / 4 * 4 <? limit then push 1 (limit / 4 * 4) initial else Ok initial)
  = Ok (plan_pass (b * 2 ^ (K - 2)) 0 limit).
Proof.
  intros Hp HK Hlim. pose proof (Nat.div_mod_eq limit 4) as Hdm.
  pose proof (Nat.mod_upper_bound limit 4 ltac:(lia)) as Hmod.
  pose proof (push_pass push b K 0 (limit / 4 * 4) [] Hp ltac:(lia) ltac:(lia)) as Hpass.
  change (2 ^ (2 + 0)) with 4 in Hpass. change (2 ^ 0) with 1 in Hpass. rewrite Hpass. cbn [obind app].
  unfold plan_pass. change (2 ^ (2 + 0)) with 4. rewrite !nblocks_4.
  replace ((limit / 4 * 4 + 3) / 4) with (limit / 4) by (apply (Nat.div_unique _ _ _ 3); lia).
  destruct (Nat.ltb_spec (limit / 4 * 4) limit) as [Hlt|Hge].
  - pose proof (Hp 0 (limit / 4) (tabulate (limit / 4) (plan_block (b * 2 ^ (K - (2 + 0))) 0)) ltac:(lia)) as H.
    change (2 ^ (2 + 0)) with 4 in H. change (2 ^ 0) with 1 in H. rewrite H.
    + replace ((limit + 3) / 4) with (S (limit / 4))
        by (apply (Nat.div_unique _ _ _ (limit mod 4 - 1)); lia).
      unfold tabulate. rewrite seq_S, map_app. done.
    + replace K with (K - 2 + 2) in Hlim |- * by lia. rewrite Nat.pow_add_r in Hlim |- *.
      change (2 ^ 2) with 4 in *. nia.
  - replace ((limit + 3) / 4) with (limit / 4) by (apply (Nat.div_unique _ _ _ 3); lia). done.
Qed.

Lemma build_ifft_passes push final_index skew b K limit :
  reads_skews push b K → K ≤ w → limit ≤ 2 ^ K →
  (∀ k, K = S k → index (E:=E) skew (final_index (2 ^ k)) = Ok (slog (2 * b))) →
  build_ifft_with push final_index limit (2 ^ K) skew = Ok (ifft_plan b K limit).
Proof.
  intros Hp HK Hlim Hfin. unfold build_ifft_with, ifft_plan. rewrite !ldiff_3, nblocks_4.
  pose proof (Nat.div_mod_eq K 2) as HK2. pose proof (Nat.mod_upper_bound K 2 ltac:(lia)) as Hr.
  destruct (Nat.leb_spec 2 K) as [H2|H2].
  - rewrite (proj2 (Nat.leb_le 4 _)) by (by apply (pow2_le 2)).
    pose proof (ifft_initial push b K limit Hp H2 Hlim) as Hinit.
    destruct (while_below 0 (limit / 4 * 4) 4 (push 1) []) as [initial| |]; [|done..].
    cbn [obind] in Hinit |- *. rewrite Hinit. cbn [obind]. change 4 with (2 ^ 2) at 4.
    rewrite (ifft_later_passes push b K limit (K / 2 - 1) Hp Hlim 2)
      by (lia || pose proof (Nat.pow_gt_lin_r 2 K); lia).
    cbn [obind app]. unfold ifft_passes.
    destruct (Nat.eqb_spec (K mod 2) 1) as [Hodd|Heven].
    + rewrite (proj2 (Nat.ltb_lt _ _)) by (apply Nat.pow_lt_mono_r; lia).
      replace (2 + 2 * (K / 2 - 1)) with (K - 1) by lia.
      rewrite Hfin by lia. done.
    + rewrite (proj2 (Nat.ltb_ge _ _)) by (apply pow2_le; lia). done.
  - rewrite (proj2 (Nat.leb_gt 4 _)) by (apply (Nat.pow_lt_mono_r 2 K 2); lia). cbn [obind].
    unfold ifft_passes. destruct K as [|[|]]; [done| |lia]. simpl.
    pose proof (Hfin 0 eq_refl) as Hf. change (2 ^ 0) with 1 in Hf. by rewrite Hf.
Qed.

Theorem build_fft_plan_ok K limit : K ≤ w → limit ≤ 2 ^ K →
  build_fft_plan (E:=E) limit (2 ^ K) skews = Ok (fft_plan K limit).
Proof.
  intros HK Hlim. unfold build_fft_plan, fft_plan.
  pose proof (Nat.div_mod_eq K 2) as HK2. pose proof (Nat.mod_upper_bound K 2 ltac:(lia)) as Hr.
  pose proof (fft_plan_loop_passes limit (K / 2) (K mod 2) Hr
    (S (Nat.shiftr (2 ^ K) 2)) [] K HK Hlim ltac:(lia)) as Hloop.
  rewrite <- HK2 in Hloop. rewrite Hloop; clear Hloop.
  - cbn [obind app]. unfold fft_passes.
    destruct (Nat.eqb_spec (K mod 2) 1) as [Hodd|Heven].
    + rewrite Hodd. change (2 ^ 1 =? 2) with true. cbv iota.
      rewrite (while_push limit 2 _ (λ q, mk_stage2 (q * 2) 1 (slog (2 * q)))); [done|lia|].
      intros q acc Hq. assert (nblocks limit 2 ≤ 2 ^ (K - 1)) as Hn.
      { apply counters_bound; [lia|]. destruct K as [|k]; [done|].
        replace (S k - 1) with k by lia. rewrite pow2_S in Hlim. lia. }
      assert (2 ^ (K - 1) * 2 ≤ 2 ^ w) as Hw.
      { destruct K as [|k]; [done|]. pose proof (pow2_le (S k) w HK) as Hp. rewrite pow2_S in Hp.
        replace (S k - 1) with k by lia. lia. }
      pose proof (skew_index 0 q) as Hs. rewrite Nat.pow_0_r, Nat.mul_1_r in Hs.
      specialize (Hs ltac:(lia)). replace (q * 2) with (2 * q + 1 - 1) at 1 by lia.
      by rewrite Hs.
    + replace (K mod 2) with 0 by lia. done.
  - destruct (decide (2 ≤ K)) as [H2|H2].
    + replace K with (2 + (K - 2)) at 2 by lia. rewrite shiftr_pow2.
      pose proof (Nat.pow_gt_lin_r 2 (K - 2) ltac:(lia)). lia.
    + replace (K / 2) with 0 by (symmetry; apply Nat.div_small; lia). lia.
Qed.

(** The plan of the encoder for the group that follows [b] transforms. *)
Theorem build_ifft_plan_ok b K limit : 0 < b → (b + 1) * 2 ^ K ≤ 2 ^ w → limit ≤ 2 ^ K →
  build_ifft_plan (E:=E) limit (2 ^ K) (drop (b * 2 ^ K - 1) skews) = Ok (ifft_plan b K limit).
Proof.
  intros Hb HK Hlim. pose proof (pow2_pos K).
  assert (K ≤ w) as HKw by (apply (Nat.pow_le_mono_r_iff 2); [lia|nia]).
  unfold build_ifft_plan.
  apply build_ifft_passes; [by apply push_at_end_reads|lia|done|].
  intros k ->. pose proof (pow2_S k) as Hk. pose proof (pow2_pos k). rewrite index_drop.
  replace (b * 2 ^ S k - 1 + 2 ^ k) with ((2 * b + 1) * 2 ^ k - 1) by nia.
  apply skew_index. nia.
Qed.

Theorem build_ifft_decode_plan_ok K limit : K ≤ w → limit ≤ 2 ^ K →
  build_ifft_decode_plan (E:=E) limit (2 ^ K) skews = Ok (ifft_plan 0 K limit).
Proof.
  intros HK Hlim. unfold build_ifft_decode_plan.
  apply build_ifft_passes; [by apply push_from_end_reads|done|done|].
  intros k ->. replace (2 ^ k - 1) with ((2 * 0 + 1) * 2 ^ k - 1) by lia.
  apply skew_index. pose proof (pow2_le (S k) w HK) as Hp. rewrite pow2_S in Hp.
  pose proof (pow2_pos k). lia.
Qed.
End builders_ok.
