(* ===== verification/LeoButterfly.v ===== *)
(** * Radix-4 butterflies over a Cantor basis

    The transforms of the Leopard engines do two layers of butterflies at once, on four
    elements.  This file relates such passes to the stages of [Lch]: a pass of forward
    steps takes coefficients of blocks of [2^(l+2)] to blocks of [2^l], a pass of inverse
    steps takes them back, and the truncated transforms evaluate and interpolate. *)

From Stdlib Require Import NArith Arith Lia List Bool Ring.
From stdpp Require Import base numbers list.
From S2P Require Import Prelude Fields LinAlg Lch LeoStages.

Local Open Scope field_scope.

(** ** Two and four elements at once *)
Section steps.
Context {A : Type} `{!Inhabited A}.
Implicit Types (g : A → A → A * A) (l : list A) (k c : nat).

Definition pick4 (q : A * A * A * A) (c : nat) : A :=
  let '(x0, x1, x2, x3) := q in match c with O => x0 | 1 => x1 | 2 => x2 | _ => x3 end.

Definition fwd4 (g02 g01 g23 : A → A → A * A) l : nat → A :=
  match l with
  | [a; b; c; d] =>
      let '(a, c) := g02 a c in let '(b, d) := g02 b d in
      let '(a, b) := g01 a b in let '(c, d) := g23 c d in pick4 (a, b, c, d)
  | _ => λ _, inhabitant
  end.

Definition inv4 (g02 g01 g23 : A → A → A * A) l : nat → A :=
  match l with
  | [a; b; c; d] =>
      let '(a, b) := g01 a b in let '(c, d) := g23 c d in
      let '(b, d) := g02 b d in let '(a, c) := g02 a c in pick4 (a, b, c, d)
  | _ => λ _, inhabitant
  end.

Definition step2 g l : nat → A :=
  match l with
  | [a; b] => λ c, match c with O => (g a b).1 | _ => (g a b).2 end
  | _ => λ _, inhabitant
  end.

Definition undoes g (g' : A → A → A * A) : Prop := ∀ x y, g' (g x y).1 (g x y).2 = (x, y).

Lemma gather4 dist o (s : nat → A) :
  gather 4 dist o s = [s o; s (o + dist)%nat; s (o + dist * 2)%nat; s (o + dist * 3)%nat].
Proof. unfold gather. cbn [seq map]. by rewrite Nat.mul_0_r, Nat.add_0_r, Nat.mul_1_r. Qed.

Lemma gather2 dist o (s : nat → A) : gather 2 dist o s = [s o; s (o + dist)%nat].
Proof. unfold gather. cbn [seq map]. by rewrite Nat.mul_0_r, Nat.add_0_r, Nat.mul_1_r. Qed.

(** A block of steps is undone by the block of the inverse steps. *)
Lemma block_undo k (f f' : list A → nat → A) dist r (s t : nat → A) :
  (∀ l c, length l = k → c < k → f' (map (f l) (seq 0 k)) c = List.nth c l inhabitant) →
  radix_block k f dist r s t → radix_block k f' dist r t s.
Proof.
  intros Hf [Hin Hout]. split.
  - intros i c Hi Hc. replace (gather k dist (r + i) t) with (map (f (gather k dist (r + i) s)) (seq 0 k)).
    + rewrite Hf by (done || by unfold gather; rewrite length_map, length_seq).
      unfold gather. rewrite (nth_indep _ _ (s (r + i + dist * 0)%nat))
        by (by rewrite length_map, length_seq).
      rewrite (map_nth (λ c, s (r + i + dist * c)%nat)), seq_nth by done. done.
    + apply map_ext_in. intros c' Hc'%in_seq. symmetry. apply Hin; [done|lia].
  - intros j Hj. symmetry. by apply Hout.
Qed.

Lemma inv4_undo g02 g01 g23 h02 h01 h23 l c :
  undoes g02 h02 → undoes g01 h01 → undoes g23 h23 → length l = 4 → c < 4 →
  fwd4 h02 h01 h23 (map (inv4 g02 g01 g23 l) (seq 0 4)) c = List.nth c l inhabitant.
Proof.
  intros H02 H01 H23 Hl Hc. destruct l as [|a [|b [|d [|e [|]]]]]; try done. cbn [seq map inv4].
  pose proof (H01 a b) as E1. destruct (g01 a b) as [a1 b1].
  pose proof (H23 d e) as E2. destruct (g23 d e) as [d1 e1].
  pose proof (H02 b1 e1) as E3. destruct (g02 b1 e1) as [b2 e2].
  pose proof (H02 a1 d1) as E4. destruct (g02 a1 d1) as [a2 d2]. cbn [fst snd pick4] in *.
  cbn [fwd4]. rewrite E4, E3, E1, E2. destruct c as [|[|[|[|]]]]; done || lia.
Qed.

Lemma step2_undo g h l c : undoes g h → length l = 2 → c < 2 →
  step2 h (map (step2 g l) (seq 0 2)) c = List.nth c l inhabitant.
Proof.
  intros H Hl Hc. destruct l as [|a [|b [|]]]; try done. cbn [seq map step2].
  pose proof (H a b) as E. rewrite E. destruct c as [|[|]]; done || lia.
Qed.
End steps.

(** ** Columns of lanes *)
Section columns.
Context {A B : Type} `{!Inhabited A, !Inhabited B} (pr : A → B) (ok : A → Prop).
Implicit Types (g : A → A → A * A) (h : B → B → B * B) (k c : nat).

(** [g] keeps lanes well-formed and acts on their columns as [h]. *)
Definition on_column g h : Prop := ∀ x y, ok x → ok y →
  ok (g x y).1 ∧ ok (g x y).2 ∧ h (pr x) (pr y) = (pr (g x y).1, pr (g x y).2).

Ltac column H x y :=
  let H1 := fresh in let H2 := fresh in let H3 := fresh in
  destruct (H x y) as (H1 & H2 & H3); [done|done|]; rewrite H3; clear H3;
  destruct (_ x y) as [? ?]; cbn [fst snd] in *.

Lemma fwd4_column g02 g01 g23 h02 h01 h23 l c :
  on_column g02 h02 → on_column g01 h01 → on_column g23 h23 →
  Forall ok l → length l = 4 →
  ok (fwd4 g02 g01 g23 l c) ∧ pr (fwd4 g02 g01 g23 l c) = fwd4 h02 h01 h23 (map pr l) c.
Proof.
  intros H02 H01 H23 Hok Hl. destruct l as [|x0 [|x1 [|x2 [|x3 [|]]]]]; try done.
  rewrite !Forall_cons in Hok. destruct Hok as (O0 & O1 & O2 & O3 & _). cbn [map fwd4].
  column H02 x0 x2. column H02 x1 x3. 
  match goal with |- context [g01 ?x ?y] => column H01 x y end.
  match goal with |- context [g23 ?x ?y] => column H23 x y end.
  destruct c as [|[|[|]]]; done.
Qed.

Lemma inv4_column g02 g01 g23 h02 h01 h23 l c :
  on_column g02 h02 → on_column g01 h01 → on_column g23 h23 →
  Forall ok l → length l = 4 →
  ok (inv4 g02 g01 g23 l c) ∧ pr (inv4 g02 g01 g23 l c) = inv4 h02 h01 h23 (map pr l) c.
Proof.
  intros H02 H01 H23 Hok Hl. destruct l as [|x0 [|x1 [|x2 [|x3 [|]]]]]; try done.
  rewrite !Forall_cons in Hok. destruct Hok as (O0 & O1 & O2 & O3 & _). cbn [map inv4].
  column H01 x0 x1. column H23 x2 x3.
  match goal with |- context [g02 ?x ?y] => column H02 x y end.
  match goal with |- context [g02 ?x ?y] => column H02 x y end.
  destruct c as [|[|[|]]]; done.
Qed.

Lemma step2_column g h l c : on_column g h → Forall ok l → length l = 2 →
  ok (step2 g l c) ∧ pr (step2 g l c) = step2 h (map pr l) c.
Proof.
  intros H Hok Hl. destruct l as [|x0 [|x1 [|]]]; try done.
  rewrite !Forall_cons in Hok. destruct Hok as (O0 & O1 & _). cbn [map step2].
  destruct (H x0 x1 O0 O1) as (H1 & H2 & ->). by destruct c as [|].
Qed.

Lemma map_gather k dist o (s : nat → A) : map pr (gather k dist o s) = gather k dist o (λ j, pr (s j)).
Proof. unfold gather. by rewrite map_map. Qed.

Lemma gather_ok k dist o (s : nat → A) : (∀ j, ok (s j)) → Forall ok (gather k dist o s).
Proof. intros H. unfold gather. apply Forall_map. by apply Forall_forall. Qed.

(** A pass over lanes is a pass over each column. *)
Lemma pass_column k (f : nat → list A → nat → A) (f' : nat → list B → nat → B) dist m s t :
  (∀ q l c, q < m → Forall ok l → length l = k → pr (f q l c) = f' q (map pr l) c) →
  (∀ j, ok (s j)) →
  radix_pass k f dist m s t → radix_pass k f' dist m (λ j, pr (s j)) (λ j, pr (t j)).
Proof.
  intros Hf Hs [Hin Hout]. split.
  - intros q i c Hq Hi Hc. rewrite Hin, Hf, map_gather; try done.
    + by apply gather_ok.
    + unfold gather. by rewrite length_map, length_seq.
  - intros j Hj. by rewrite Hout.
Qed.
End columns.

(** ** Butterflies of field elements *)
Section staged.
Context {F : Field} {FL : FieldLaws F}.
Add Ring elem_ring : field_ring_theory (morphism field_ring_morph, constants [field_const]).
Context (w : nat) (pt : nat → Elem) {CP : CantorPoints F w pt}.
#[local] Instance elem_inhabited : Inhabited Elem := populate 0.
Implicit Types (s t u v : nat → Elem) (l b q i : nat).

Definition fwd2 (e x y : Elem) : Elem * Elem := let x := x + e * y in (x, y + x).
Definition inv2 (e x y : Elem) : Elem * Elem := let y := y + x in (x + e * y, y).

Lemma inv2_undo e : undoes (inv2 e) (fwd2 e).
Proof.
  intros x y. unfold inv2, fwd2. cbn [fst snd]. f_equal; ring.
Qed.

(** The steps of block [B] of [2 ^ (l + 2)] points. *)
Definition fwd_block (B : nat) : list Elem → nat → Elem :=
  fwd4 (fwd2 (pt (2 * B))) (fwd2 (pt (4 * B))) (fwd2 (pt (4 * B + 2))).
Definition inv_block (B : nat) : list Elem → nat → Elem :=
  inv4 (inv2 (pt (2 * B))) (inv2 (pt (4 * B))) (inv2 (pt (4 * B + 2))).

(** The elements of one block, without those around it. *)
Definition radix_at k (f : list Elem → nat → Elem) dist r s t : Prop :=
  ∀ i c, i < dist → c < k → t (r + i + dist * c)%nat = f (gather k dist (r + i) s) c.

Lemma fwd_at_staged l b q s t v i :
  ((b + q + 1) * 2 ^ (2 + l) ≤ 2 ^ w)%nat →
  (q * 2 ^ (2 + l) ≤ i < q * 2 ^ (2 + l) + 2 ^ (2 + l))%nat →
  radix_at 4 (fwd_block (b + q)) (2 ^ l) (q * 2 ^ (2 + l)) s t →
  staged pt (2 + l) (b * 2 ^ (2 + l)) s v i ↔ staged pt l (b * 2 ^ (2 + l)) t v i.
Proof.
  change (2 + l)%nat with (S (S l)). intros Hb Hi Hat.
  set (r := (q * 2 ^ S (S l))%nat) in *. set (e := pt (2 * (b + q))).
  set (u j := if decide (j < r + 2 ^ S l) then s j + e * s (j + 2 ^ S l)%nat
              else s (j - 2 ^ S l)%nat + e * s j + s j).
  pose proof (pow2_S l) as H1. pose proof (pow2_S (S l)) as H2. pose proof (pow2_pos l) as Hp.
  assert (∀ j c, j < 2 ^ l → c < 4 →
    t (r + j + 2 ^ l * c)%nat = fwd_block (b + q) [s (r + j)%nat; s (r + j + 2 ^ l)%nat;
      s (r + j + 2 ^ l * 2)%nat; s (r + j + 2 ^ l * 3)%nat] c) as Ht
    by (intros j c Hj Hc; by rewrite <- gather4, (Hat j c)).
  assert (∀ o, (o < 2 ^ S l)%nat → u (r + o)%nat = s (r + o)%nat + e * s (r + o + 2 ^ S l)%nat) as Hu1
    by (intros o Ho; unfold u; by rewrite decide_True by lia).
  assert (∀ o, u (r + 2 ^ S l + o)%nat
    = s (r + o)%nat + e * s (r + 2 ^ S l + o)%nat + s (r + 2 ^ S l + o)%nat) as Hu2.
  { intros o. unfold u. rewrite decide_False by lia. by replace (r + 2 ^ S l + o - 2 ^ S l)%nat with (r + o)%nat by lia. }
  assert (butterfly (S l) e r s u) as Hfly.
  { intros j Hj. rewrite Hu2, Hu1 by done.
    by replace (r + j + 2 ^ S l)%nat with (r + 2 ^ S l + j)%nat by lia. }
  rewrite (butterfly_staged w pt (S l) b q s u v i) by done.
  replace (b * 2 ^ S (S l))%nat with (2 * b * 2 ^ S l)%nat by lia.
  assert (∀ j, (j < 2 ^ l)%nat → ∀ x0 x1 x2 x3,
    x0 = s (r + j)%nat → x1 = s (r + j + 2 ^ l)%nat → x2 = s (r + j + 2 ^ l * 2)%nat →
    x3 = s (r + j + 2 ^ l * 3)%nat →
    u (r + j)%nat = x0 + e * x2 ∧ u (r + 2 ^ l + j)%nat = x1 + e * x3 ∧
    u (r + 2 ^ S l + j)%nat = x0 + e * x2 + x2 ∧
    u (r + 2 ^ S l + 2 ^ l + j)%nat = x1 + e * x3 + x3) as Hu.
  { intros j Hj x0 x1 x2 x3 -> -> -> ->. split_and!.
    - rewrite Hu1 by lia. do 3 f_equal. lia.
    - rewrite <- Nat.add_assoc, Hu1 by lia. f_equal; [f_equal; lia|do 2 f_equal; lia].
    - rewrite Hu2. f_equal; [f_equal; do 2 f_equal; lia|f_equal; lia].
    - rewrite <- Nat.add_assoc, Hu2. f_equal; [f_equal; [f_equal; lia|do 2 f_equal; lia]|f_equal; lia]. }
  destruct (decide (i < r + 2 ^ S l)) as [Hlow|Hhigh].
  - apply (butterfly_staged w pt l (2 * b) (2 * q)); [nia|nia|].
    replace (2 * q * 2 ^ S l)%nat with r by (unfold r; lia).
    intros j Hj. destruct (Hu j Hj _ _ _ _ eq_refl eq_refl eq_refl eq_refl) as (-> & -> & _).
    pose proof (Ht j 0%nat Hj ltac:(lia)) as T0. pose proof (Ht j 1%nat Hj ltac:(lia)) as T1.
    rewrite Nat.mul_0_r, Nat.add_0_r in T0. rewrite Nat.mul_1_r in T1.
    replace (r + 2 ^ l + j)%nat with (r + j + 2 ^ l)%nat by lia. rewrite T0, T1.
    unfold fwd_block. cbn [fwd4 fwd2 pick4]. fold e.
    replace (2 * (2 * b + 2 * q))%nat with (4 * (b + q))%nat by lia. split; ring.
  - apply (butterfly_staged w pt l (2 * b) (2 * q + 1)); [nia|nia|].
    replace ((2 * q + 1) * 2 ^ S l)%nat with (r + 2 ^ S l)%nat by (unfold r; lia).
    intros j Hj. destruct (Hu j Hj _ _ _ _ eq_refl eq_refl eq_refl eq_refl) as (_ & _ & -> & ->).
    pose proof (Ht j 2%nat Hj ltac:(lia)) as T0. pose proof (Ht j 3%nat Hj ltac:(lia)) as T1.
    replace (r + 2 ^ S l + 2 ^ l + j)%nat with (r + j + 2 ^ l * 3)%nat by lia.
    replace (r + 2 ^ S l + j)%nat with (r + j + 2 ^ l * 2)%nat by lia. rewrite T0, T1.
    unfold fwd_block. cbn [fwd4 fwd2 pick4]. fold e.
    replace (2 * (2 * b + (2 * q + 1)))%nat with (4 * (b + q) + 2)%nat by lia. split; ring.
Qed.

(** Undoing the steps of a block. *)
Lemma at_undo k (f f' : list Elem → nat → Elem) dist r s t :
  (∀ (xs : list Elem) c, length xs = k → c < k →
    f' (map (f xs) (seq 0 k)) c = List.nth c xs inhabitant) →
  radix_at k f dist r s t → radix_at k f' dist r t s.
Proof.
  intros Hf Hin.
  set (t' j := if decide (r ≤ j ∧ j < r + dist * k) then t j else s j).
  assert (∀ i c, i < dist → c < k → t' (r + i + dist * c)%nat = t (r + i + dist * c)%nat) as Ht'
    by (intros i c Hi Hc; unfold t'; rewrite decide_True; [done|nia]).
  assert (radix_block k f dist r s t') as Hblk.
  { split; [intros i c Hi Hc; by rewrite Ht', Hin|]. intros j Hj. unfold t'. by rewrite decide_False by lia. }
  destruct (block_undo k f f' dist r s t' Hf Hblk) as [Hback _].
  intros i c Hi Hc. rewrite Hback by done. f_equal. apply gather_ext. intros c' Hc'. by apply Ht'.
Qed.

Lemma inv_at_fwd B dist r s t :
  radix_at 4 (inv_block B) dist r s t → radix_at 4 (fwd_block B) dist r t s.
Proof.
  apply at_undo. intros xs c Hl Hc. unfold inv_block, fwd_block.
  apply inv4_undo; try apply inv2_undo; done.
Qed.

Definition fwd_pair (B : nat) : list Elem → nat → Elem := step2 (fwd2 (pt (2 * B))).
Definition inv_pair (B : nat) : list Elem → nat → Elem := step2 (inv2 (pt (2 * B))).

Lemma inv_pair_fwd B dist r s t :
  radix_at 2 (inv_pair B) dist r s t → radix_at 2 (fwd_pair B) dist r t s.
Proof. apply at_undo. intros xs c Hl Hc. apply step2_undo; [apply inv2_undo|done..]. Qed.

Lemma fwd_pair_staged l b q s t v i :
  ((b + q + 1) * 2 ^ (1 + l) ≤ 2 ^ w)%nat →
  (q * 2 ^ (1 + l) ≤ i < q * 2 ^ (1 + l) + 2 ^ (1 + l))%nat →
  radix_at 2 (fwd_pair (b + q)) (2 ^ l) (q * 2 ^ (1 + l)) s t →
  staged pt (1 + l) (b * 2 ^ (1 + l)) s v i ↔ staged pt l (b * 2 ^ (1 + l)) t v i.
Proof.
  intros Hb Hi Hat. apply (butterfly_staged w pt l b q); [done..|]. intros j Hj.
  pose proof (Hat j 0%nat Hj ltac:(lia)) as T0. pose proof (Hat j 1%nat Hj ltac:(lia)) as T1.
  rewrite gather2 in T0, T1. rewrite Nat.mul_0_r, Nat.add_0_r in T0. rewrite Nat.mul_1_r in T1.
  change (S l) with (1 + l)%nat. unfold fwd_pair in T0, T1. cbn [step2 fwd2 fst snd] in T0, T1.
  replace (q * 2 ^ (1 + l) + 2 ^ l + j)%nat with (q * 2 ^ (1 + l) + j + 2 ^ l)%nat by lia.
  rewrite T0, T1. split; ring.
Qed.

(** A pass of blocks of [2 ^ d] elements with the steps [f] is a move of [d] stages,
    and the steps [f'] undo it. *)
Definition moves d (f f' : nat → list Elem → nat → Elem) : Prop :=
  (∀ l b q s t v i, ((b + q + 1) * 2 ^ (d + l) ≤ 2 ^ w)%nat →
    (q * 2 ^ (d + l) ≤ i < q * 2 ^ (d + l) + 2 ^ (d + l))%nat →
    radix_at (2 ^ d) (f (b + q)%nat) (2 ^ l) (q * 2 ^ (d + l)) s t →
    staged pt (d + l) (b * 2 ^ (d + l)) s v i ↔ staged pt l (b * 2 ^ (d + l)) t v i) ∧
  ∀ B dist r s t, radix_at (2 ^ d) (f' B) dist r s t → radix_at (2 ^ d) (f B) dist r t s.

Lemma block_moves : moves 2 fwd_block inv_block.
Proof. split; [exact fwd_at_staged|exact inv_at_fwd]. Qed.

Lemma pair_moves : moves 1 fwd_pair inv_pair.
Proof. split; [exact fwd_pair_staged|exact inv_pair_fwd]. Qed.

Lemma pass_at d l f m s t q : radix_pass (2 ^ d) f (2 ^ l) m s t → q < m →
  radix_at (2 ^ d) (f q) (2 ^ l) (q * 2 ^ (d + l)) s t.
Proof.
  intros [Hin _] Hq i c Hi Hc. rewrite (Nat.add_comm d), Nat.pow_add_r. by apply Hin.
Qed.

(** ** Truncated transforms of [2 ^ K] points from [b * 2 ^ K] on

    [evald]: the blocks that meet the first [limit] positions carry coefficients of the
    values [v]; [interp]: all blocks do, and the blocks beyond [limit] are zero. *)
Definition evald l base limit s v : Prop :=
  ∀ i, (i < nblocks limit (2 ^ l) * 2 ^ l)%nat → staged pt l base s v i.

Definition interp l base N limit s v : Prop :=
  (∀ i, i < N → staged pt l base s v i) ∧
  ∀ j, (nblocks limit (2 ^ l) * 2 ^ l ≤ j)%nat → j < N → s j = 0.

Lemma blocks_refine limit l d :
  (limit ≤ nblocks limit (2 ^ l) * 2 ^ l
   ∧ nblocks limit (2 ^ l) * 2 ^ l ≤ nblocks limit (2 ^ (d + l)) * 2 ^ (d + l))%nat.
Proof.
  pose proof (pow2_pos l). pose proof (pow2_pos d). split; [by apply counters_blocks|].
  destruct (nblocks_refine limit (2 ^ l) (2 ^ d)) as [H1|H1]; [done| |lia].
  rewrite <- Nat.pow_add_r in H1. rewrite Nat.pow_add_r at 2. nia.
Qed.

Lemma blocks_within limit l K : l ≤ K → limit ≤ 2 ^ K → (nblocks limit (2 ^ l) * 2 ^ l ≤ 2 ^ K)%nat.
Proof.
  intros Hl Hlim. replace K with (K - l + l)%nat in Hlim |- * by lia. rewrite Nat.pow_add_r in *.
  apply Nat.mul_le_mono_r. apply counters_bound; [apply pow2_pos|done].
Qed.

Lemma block_of i l : ∃ q, (q * 2 ^ l ≤ i < q * 2 ^ l + 2 ^ l)%nat ∧
  ∀ nb, (i < nb * 2 ^ l)%nat → q < nb.
Proof.
  pose proof (pow2_pos l). exists (i / 2 ^ l)%nat. pose proof (Nat.div_mod_eq i (2 ^ l)).
  pose proof (Nat.mod_upper_bound i (2 ^ l)). split; [nia|]. intros nb Hi.
  apply Nat.Div0.div_lt_upper_bound. lia.
Qed.

(** A block within the transform, with its number among all blocks. *)
Lemma transform_block K b d l limit i : d + l ≤ K → limit ≤ 2 ^ K → ((b + 1) * 2 ^ K ≤ 2 ^ w)%nat →
  (i < nblocks limit (2 ^ (d + l)) * 2 ^ (d + l))%nat →
  ∃ q, q < nblocks limit (2 ^ (d + l)) ∧
    (q * 2 ^ (d + l) ≤ i < q * 2 ^ (d + l) + 2 ^ (d + l))%nat ∧
    ((b * 2 ^ (K - (d + l)) + q + 1) * 2 ^ (d + l) ≤ 2 ^ w)%nat ∧
    (b * 2 ^ K = b * 2 ^ (K - (d + l)) * 2 ^ (d + l))%nat.
Proof.
  intros Hl Hlim Hb Hi. destruct (block_of i (d + l)) as (q & Hq & Hnb). specialize (Hnb _ Hi).
  pose proof (blocks_within limit (d + l) K Hl Hlim) as Hw. exists q.
  assert (2 ^ K = 2 ^ (K - (d + l)) * 2 ^ (d + l))%nat as HK
    by (rewrite <- Nat.pow_add_r; f_equal; lia).
  split_and!; [done|lia|lia| |by rewrite HK, Nat.mul_assoc].
  rewrite HK in Hb, Hw. pose proof (pow2_pos (d + l)). nia.
Qed.

Lemma evald_step d f f' l K b limit s t v : moves d f f' →
  d + l ≤ K → limit ≤ 2 ^ K → ((b + 1) * 2 ^ K ≤ 2 ^ w)%nat →
  radix_pass (2 ^ d) (λ q, f (b * 2 ^ (K - (d + l)) + q)%nat) (2 ^ l)
    (nblocks limit (2 ^ (d + l))) s t →
  evald (d + l) (b * 2 ^ K) limit s v → evald l (b * 2 ^ K) limit t v.
Proof.
  intros [Hf _] Hl Hlim Hb Hpass Hs i Hi. destruct (blocks_refine limit l d) as [_ Hr].
  destruct (transform_block K b d l limit i) as (q & Hq & Hiq & Hbq & HK); [done..|lia|].
  specialize (Hs i ltac:(lia)). rewrite HK in Hs |- *.
  apply (Hf l _ q s t v i); [done..| |done]. by apply (pass_at d l _ _ _ _ q Hpass).
Qed.

Lemma interp_step d f f' l K b limit s t v : moves d f f' →
  d + l ≤ K → limit ≤ 2 ^ K → ((b + 1) * 2 ^ K ≤ 2 ^ w)%nat →
  (∀ i, limit ≤ i → i < 2 ^ K → v i = 0) →
  radix_pass (2 ^ d) (λ q, f' (b * 2 ^ (K - (d + l)) + q)%nat) (2 ^ l)
    (nblocks limit (2 ^ (d + l))) s t →
  interp l (b * 2 ^ K) (2 ^ K) limit s v → interp (d + l) (b * 2 ^ K) (2 ^ K) limit t v.
Proof.
  intros [Hf Hf'] Hl Hlim Hb Hv Hpass [Hs Hz]. destruct (blocks_refine limit l d) as [Hcov Hr].
  assert (∀ j, (nblocks limit (2 ^ (d + l)) * 2 ^ (d + l) ≤ j)%nat → j < 2 ^ K → t j = 0) as Ht.
  { intros j Hj HjK. destruct Hpass as [_ Hout]. rewrite Hout; [apply Hz; lia|].
    by rewrite <- Nat.pow_add_r, (Nat.add_comm l). }
  split; [|done]. intros i Hi.
  destruct (decide (i < nblocks limit (2 ^ (d + l)) * 2 ^ (d + l))) as [Hin|Hout].
  - destruct (transform_block K b d l limit i) as (q & Hq & Hiq & Hbq & HK); [done..|].
    specialize (Hs i Hi). rewrite HK in Hs |- *.
    apply (Hf l _ q t s v i); [done..| |done]. by apply Hf', (pass_at d l _ _ _ _ q Hpass).
  - unfold staged. rewrite Hv by lia. apply nval_zero. intros j Hj.
    destruct (block_of i (d + l)) as (q & Hq & _).
    assert (i / 2 ^ (d + l) = q)%nat as ->
      by (symmetry; apply (Nat.div_unique _ _ _ (i - q * 2 ^ (d + l))); lia).
    assert (nblocks limit (2 ^ (d + l)) ≤ q)%nat by (pose proof (pow2_pos (d + l)); nia).
    apply Ht; [pose proof (pow2_pos (d + l)); nia|].
    replace K with (K - (d + l) + (d + l))%nat in Hi |- * by lia.
    rewrite (Nat.pow_add_r 2 (K - (d + l))) in Hi |- *.
    assert (q < 2 ^ (K - (d + l))) by (pose proof (pow2_pos (d + l)); nia).
    assert ((q + 1) * 2 ^ (d + l) ≤ 2 ^ (K - (d + l)) * 2 ^ (d + l))%nat
      by (apply Nat.mul_le_mono_r; lia). lia.
Qed.

(** The two ends. *)
Lemma interp_start K b limit v : limit ≤ 2 ^ K → (∀ i, limit ≤ i → i < 2 ^ K → v i = 0) →
  interp 0 (b * 2 ^ K) (2 ^ K) limit v v.
Proof.
  intros Hlim Hv. split.
  - intros i Hi. unfold staged. cbn [nval]. f_equal. rewrite Nat.pow_0_r, Nat.div_1_r. lia.
  - intros j Hj Hjk. apply Hv; [|done]. destruct (blocks_refine limit 0 0). lia.
Qed.

Lemma interp_end K b limit s v :
  interp K (b * 2 ^ K) (2 ^ K) limit s v → ∀ i, i < 2 ^ K → nval K s (pt (b * 2 ^ K + i)) = v i.
Proof.
  intros [Hs _] i Hi. specialize (Hs i Hi). unfold staged in Hs.
  by rewrite Nat.div_small, Nat.mul_0_l in Hs.
Qed.

Lemma evald_start K b limit s v : limit ≤ 2 ^ K →
  (∀ i, i < 2 ^ K → nval K s (pt (b * 2 ^ K + i)) = v i) → evald K (b * 2 ^ K) limit s v.
Proof.
  intros Hlim Hs i Hi. pose proof (blocks_within limit K K ltac:(lia) Hlim).
  unfold staged. rewrite Nat.div_small, Nat.mul_0_l by lia. apply Hs. lia.
Qed.

Lemma evald_end base limit s v : evald 0 base limit s v → ∀ i, i < limit → s i = v i.
Proof.
  intros Hs i Hi. destruct (blocks_refine limit 0 0) as [Hcov _]. specialize (Hs i ltac:(lia)).
  unfold staged in Hs. cbn [nval] in Hs.
  replace (i / 2 ^ 0 * 2 ^ 0 + 0)%nat with i in Hs; [done|]. rewrite Nat.pow_0_r, Nat.div_1_r. lia.
Qed.
End staged.
