(* ===== verification/LeoDit.v ===== *)
(** * Transforms of lanes in the Leopard engines

    What the encoders and the decoders have in common: butterflies of two and of four
    lanes of the work space, and the sequence of blocks of a plan, over any field with a
    Cantor basis.  [dit2] and [idit2] are the butterflies of two lanes; the
    decoders apply them to prefixes of their lanes.  A plan carried out on the lanes
    transforms every column. *)

From Stdlib Require Import NArith Lia List Bool.
From stdpp Require Import base numbers list.
From S2P Require Import Prelude Fields LinAlg Lch LeoStages LeoButterfly LeoPlan.

#[local] Existing Instance elem_inhabited.

Definition get_pair_mut {A} (l : list A) (i j : nat) : option (A * A) :=
  if decide (i = j ∨ length l ≤ i ∨ length l ≤ j) then None
  else match l !! i, l !! j with Some x, Some y => Some (x, y) | _, _ => None end.

(** [if let Some((x, y)) = get_pair_mut(l, i, j) { f(x, y) }] *)
Definition with_pair {A} (l : list A) (i j : nat) (f : A → A → A * A) : list A :=
  match get_pair_mut l i j with
  | Some (x, y) => let '(x, y) := f x y in <[j := y]> (<[i := x]> l)
  | None => l
  end.

Inductive TransformDir : Type := Forward | Inverse.

(** Lanes [a], [b], [c], [d] taken together. *)
Definition four_lanes {E A} (f : A → A → A → A → A * A * A * A) (work : list A) (a b c d : nat)
  : outcome E (list A) :=
  let! xa := index work a in let! xb := index work b in
  let! xc := index work c in let! xd := index work d in
  let '(xa, xb, xc, xd) := f xa xb xc xd in
  let! work := update work a xa in let! work := update work b xb in
  let! work := update work c xc in update work d xd.

Section lanes.
Context {A T : Type} (dit2 idit2 : T → A → A → A * A).
Implicit Types (work : list A) (dir : TransformDir).

(** [dit4_pairwise_one] *)
Definition dit4_pairwise_one dir work (a dist : nat) (log_m01 log_m23 log_m02 : T) : list A :=
  let b := a + dist in let c := a + dist * 2 in let d := a + dist * 3 in
  let has_a := a <? length work in let has_b := b <? length work in
  let has_c := c <? length work in let has_d := d <? length work in
  let available := Nat.b2n has_a + Nat.b2n has_b + Nat.b2n has_c + Nat.b2n has_d in
  if available <? 2 then work else
  match dir with
  | Forward =>
      let work := if has_a && has_c then with_pair work a c (dit2 log_m02) else work in
      let work := if has_b && has_d then with_pair work b d (dit2 log_m02) else work in
      let work := if has_a && has_b then with_pair work a b (dit2 log_m01) else work in
      if has_c && has_d then with_pair work c d (dit2 log_m23) else work
  | Inverse =>
      let work := if has_a && has_b then with_pair work a b (idit2 log_m01) else work in
      let work := if has_c && has_d then with_pair work c d (idit2 log_m23) else work in
      let work := if has_a && has_c then with_pair work a c (idit2 log_m02) else work in
      if has_b && has_d then with_pair work b d (idit2 log_m02) else work
  end.

Context `{!Inhabited A} (N : nat).
Implicit Types (s t : nat → A).

(** The step of four lanes for the skews of a block. *)
Definition lanes4 dir (log_m01 log_m23 log_m02 : T) : list A → nat → A :=
  match dir with
  | Forward => fwd4 (dit2 log_m02) (dit2 log_m01) (dit2 log_m23)
  | Inverse => inv4 (idit2 log_m02) (idit2 log_m01) (idit2 log_m23)
  end.

(** A state with two elements replaced. *)
Definition set2 s (i j : nat) (xy : A * A) : nat → A :=
  λ k, if decide (k = j) then xy.2 else if decide (k = i) then xy.1 else s k.

Lemma set2_l s i j xy : i ≠ j → set2 s i j xy i = xy.1.
Proof. intros H. unfold set2. by rewrite decide_False, decide_True. Qed.

Lemma set2_r s i j xy : set2 s i j xy j = xy.2.
Proof. unfold set2. by rewrite decide_True. Qed.

Lemma set2_ne s i j xy k : k ≠ i → k ≠ j → set2 s i j xy k = s k.
Proof. intros Hi Hj. unfold set2. by rewrite !decide_False. Qed.

Lemma with_pair_tabulate s i j f : i < N → j < N → i ≠ j →
  with_pair (tabulate N s) i j f = tabulate N (set2 s i j (f (s i) (s j))).
Proof.
  intros Hi Hj Hij. unfold with_pair, get_pair_mut. rewrite length_tabulate, decide_False by lia.
  rewrite !lookup_tabulate by done. destruct (f (s i) (s j)) as [x y].
  apply eq_tabulate; [by rewrite !length_insert, length_tabulate|]. intros k Hk. unfold set2.
  destruct (decide (k = j)) as [->|Hkj].
  - by rewrite list_lookup_insert_eq by (by rewrite length_insert, length_tabulate).
  - rewrite list_lookup_insert_ne by done. destruct (decide (k = i)) as [->|Hki].
    + by rewrite list_lookup_insert_eq by (by rewrite length_tabulate).
    + by rewrite list_lookup_insert_ne, lookup_tabulate by done.
Qed.

Lemma set2_step s (f : A → A → A * A) dist r : 0 < dist →
  radix_step 2 (step2 f) dist r s (set2 s r (r + dist) (f (s r) (s (r + dist)))).
Proof.
  intros Hd. rewrite <- (Nat.mul_1_r dist) at 3. split.
  - intros c Hc. rewrite gather2. destruct c as [|[|]]; [..|lia]; cbn [step2].
    + rewrite Nat.mul_0_r, Nat.add_0_r, Nat.mul_1_r. apply set2_l. lia.
    + rewrite Nat.mul_1_r. apply set2_r.
  - intros j Hj. pose proof (Hj 0 ltac:(lia)). pose proof (Hj 1 ltac:(lia)). apply set2_ne; lia.
Qed.

(** A state with four elements replaced. *)
Definition set4 s (dist r : nat) (f : nat → A) : nat → A :=
  λ k, if decide (k = r) then f 0 else if decide (k = r + dist) then f 1
       else if decide (k = r + dist * 2) then f 2 else if decide (k = r + dist * 3) then f 3 else s k.

Lemma set4_step s (f : list A → nat → A) dist r : 0 < dist →
  radix_step 4 f dist r s (set4 s dist r (f (gather 4 dist r s))).
Proof.
  intros Hd. unfold set4. split.
  - intros c Hc. destruct c as [|[|[|[|]]]]; [..|lia]; repeat case_decide; try lia; done.
  - intros j Hj. pose proof (Hj 0 ltac:(lia)). pose proof (Hj 1 ltac:(lia)).
    pose proof (Hj 2 ltac:(lia)). pose proof (Hj 3 ltac:(lia)). repeat case_decide; try lia. done.
Qed.

Ltac at_set2 := repeat (rewrite set2_r || rewrite set2_l by lia || rewrite set2_ne by lia).

Lemma pairwise_one_step dir s r dist m01 m23 m02 : 0 < dist → r + dist * 3 < N →
  dit4_pairwise_one dir (tabulate N s) r dist m01 m23 m02
  = tabulate N (set4 s dist r (lanes4 dir m01 m23 m02 (gather 4 dist r s))).
Proof.
  intros Hd Hr. unfold dit4_pairwise_one. rewrite length_tabulate.
  rewrite !(proj2 (Nat.ltb_lt _ N)) by lia. cbn [Nat.b2n Nat.add Nat.ltb Nat.leb andb].
  rewrite gather4. destruct dir; cbn [lanes4 fwd4 inv4].
  all: rewrite !with_pair_tabulate by lia; at_set2.
  all: apply tabulate_ext; intros k Hk; unfold set4.
  - destruct (dit2 m02 (s r) (s (r + dist * 2))) as [a c] eqn:E1.
    destruct (dit2 m02 (s (r + dist)) (s (r + dist * 3))) as [b d] eqn:E2.
    unfold set2. repeat (case_decide; try lia); cbn [fst snd]; rewrite ?E1, ?E2; cbn [fst snd];
      by destruct (dit2 m01 a b), (dit2 m23 c d).
  - destruct (idit2 m01 (s r) (s (r + dist))) as [a b] eqn:E1.
    destruct (idit2 m23 (s (r + dist * 2)) (s (r + dist * 3))) as [c d] eqn:E2.
    unfold set2. repeat (case_decide; try lia); cbn [fst snd]; rewrite ?E1, ?E2; cbn [fst snd];
      by destruct (idit2 m02 a c), (idit2 m02 b d).
Qed.

Lemma four_lanes_step {E} s r dist f : 0 < dist → r + dist * 3 < N →
  four_lanes (E:=E) f (tabulate N s) r (r + dist) (r + dist * 2) (r + dist * 3)
  = Ok (tabulate N (set4 s dist r (λ c, pick4 (f (s r) (s (r + dist)) (s (r + dist * 2)) (s (r + dist * 3))) c))).
Proof.
  intros Hd Hr. unfold four_lanes. rewrite !index_tabulate by lia. cbn [obind].
  destruct (f (s r) _ _ _) as [[[xa xb] xc] xd].
  rewrite !update_tabulate by lia; cbn [obind]. rewrite !update_tabulate by lia; cbn [obind].
  rewrite !update_tabulate by lia; cbn [obind]. rewrite !update_tabulate by lia; cbn [obind].
  f_equal. apply tabulate_ext. intros k Hk. unfold set4. cbn [pick4]. repeat case_decide; done || lia.
Qed.
End lanes.

Lemma step_block {A} k f r (s t : nat → A) : radix_step k f 1 r s t → radix_block k f 1 r s t.
Proof.
  intros [Hin Hout]. split.
  - intros i c Hi Hc. replace i with 0 by lia. rewrite Nat.add_0_r. by apply Hin.
  - intros j Hj. apply Hout. lia.
Qed.

(** [acts] of a sequence. *)
Lemma acts_app {E X A L} (emb : (nat → A) → L) (good : (nat → A) → Prop) (l1 l2 : list X)
    (body : X → L → outcome E L) R1 R2 :
  acts emb good (for_each l1 body) R1 → acts emb good (for_each l2 body) R2 →
  acts emb good (for_each (l1 ++ l2) body) (λ s u, ∃ t, good t ∧ R1 s t ∧ R2 t u).
Proof.
  intros H1 H2 s Hs. destruct (acts_compose _ _ _ _ _ _ H1 H2 s Hs) as (u & Hu & Hrest).
  exists u. by rewrite for_each_app.
Qed.

(** ** Plans on lanes *)
Section shapes.
Context {E A T : Type} (dit2 idit2 : T → list A → list A → list A * list A) (len N : nat).
Implicit Types (s t : nat → list A) (dir : TransformDir).

Definition lanes_emb s : list (list A) := tabulate N s.
Definition lanes_good s : Prop := ∀ i, length (s i) = len.
(** What [dit4_at] and [dit2] have to do. *)
Definition quads_run dir (body : Stage4Block T → list (list A) → outcome E (list (list A))) : Prop :=
  ∀ blk, 0 < stage4_dist blk → stage4_r blk + stage4_dist blk * 4 ≤ N →
  acts lanes_emb lanes_good (body blk)
    (radix_block 4 (lanes4 dit2 idit2 dir (stage4_m01 blk) (stage4_m23 blk) (stage4_m02 blk))
       (stage4_dist blk) (stage4_r blk)).

(** What the butterflies of the final stages have to do; those of the forward transform
    are next to each other, that of the inverse transform is at the start. *)
Definition pairs_run dir (body : Stage2Block T → list (list A) → outcome E (list (list A))) : Prop :=
  ∀ blk, 0 < stage2_dist blk → stage2_r blk + stage2_dist blk * 2 ≤ N →
  (match dir with Forward => stage2_dist blk = 1 | Inverse => stage2_r blk = 0 end) →
  acts lanes_emb lanes_good (body blk)
    (radix_block 2 (step2 (match dir with Forward => dit2 | Inverse => idit2 end (stage2_m blk)))
       (stage2_dist blk) (stage2_r blk)).

(** [fft_dit8_with_plan] and [fft_dit16_with_plan] over the two kinds of blocks. *)
Definition run_fft (quad : Stage4Block T → list (list A) → outcome E (list (list A)))
    (pair : Stage2Block T → list (list A) → outcome E (list (list A)))
    (plan : FftPlan T) (work : list (list A)) : outcome E (list (list A)) :=
  let! work := for_each (stage4_blocks plan) quad work in for_each (fft_final plan) pair work.

(** The part of an inverse transform after its first pass. *)
Definition run_ifft_rest (quad : Stage4Block T → list (list A) → outcome E (list (list A)))
    (pair : Stage2Block T → list (list A) → outcome E (list (list A)))
    (plan : IfftPlan T) (work : list (list A)) : outcome E (list (list A)) :=
  let! work := for_each (later_blocks plan) quad work in
  match ifft_final plan with Some stage => pair stage work | None => Ok work end.

End shapes.

(** The values of the logarithms in a plan. *)
Class SkewValues {F : Field} (w : nat) (pt : nat → Elem) {T : Type} (slog : nat → T)
    (value : T → Elem) : Prop := value_slog i : i < 2 ^ w → value (slog i) = pt i.

(** A column of a lane. *)
Definition cell {F : Field} (x : list Elem) (b : nat) : Elem := default zero (x !! b).

(** Butterflies of lanes of [len] elements that act on the first [size] columns. *)
Class LaneButterflies {F : Field} {T : Type} (value : T → Elem)
    (dit2 idit2 : T → list Elem → list Elem → list Elem * list Elem) (len size : nat) : Prop := {
  lane_fwd log b x y : length x = len → length y = len →
    length (dit2 log x y).1 = len ∧ length (dit2 log x y).2 = len ∧
    (b < size → fwd2 (value log) (cell x b) (cell y b)
                = (cell (dit2 log x y).1 b, cell (dit2 log x y).2 b));
  lane_inv log b x y : length x = len → length y = len →
    length (idit2 log x y).1 = len ∧ length (idit2 log x y).2 = len ∧
    (b < size → inv2 (value log) (cell x b) (cell y b)
                = (cell (idit2 log x y).1 b, cell (idit2 log x y).2 b));
}.

Section transforms.
Context {F : Field} {FL : FieldLaws F} (w : nat) (pt : nat → Elem) {CP : CantorPoints F w pt}.
Context {E T : Type} (slog : nat → T) (value : T → Elem) {SV : SkewValues w pt slog value}.
Context (dit2 idit2 : T → list Elem → list Elem → list Elem * list Elem).
Context (len size : nat) {LB : LaneButterflies value dit2 idit2 len size} (N : nat).
Implicit Types (s t : nat → list Elem) (dir : TransformDir) (b : nat) (v : nat → Elem).
#[local] Abbreviation lanes_emb := (lanes_emb N).
#[local] Abbreviation lanes_good := (lanes_good len).
#[local] Abbreviation quads_run := (quads_run dit2 idit2 len N).
#[local] Abbreviation pairs_run := (pairs_run dit2 idit2 len N).
#[local] Abbreviation plan_block := (plan_block slog).
#[local] Abbreviation plan_pass := (plan_pass slog).
#[local] Abbreviation fft_passes := (fft_passes slog).
#[local] Abbreviation fft_plan := (fft_plan slog).
#[local] Abbreviation ifft_plan := (ifft_plan slog).

Definition column b s : nat → Elem := λ i, cell (s i) b.

Definition dir_block dir : nat → list Elem → nat → Elem :=
  match dir with Forward => fwd_block pt | Inverse => inv_block pt end.

Lemma lanes4_column dir b B q xs c : b < size → 4 * (B + q) + 2 < 2 ^ w →
  Forall (λ x, length x = len) xs → length xs = 4 →
  cell (lanes4 dit2 idit2 dir (slog (4 * (B + q))) (slog (4 * (B + q) + 2)) (slog (2 * (B + q))) xs c) b
  = dir_block dir (B + q) (map (λ x, cell x b) xs) c.
Proof.
  intros Hb HB Hok Hl.
  assert (∀ log, on_column (λ x, cell x b) (λ x, length x = len) (dit2 log) (fwd2 (value log)))
    as Hf by (intros log x y Hx Hy; destruct (lane_fwd log b x y Hx Hy) as (H1 & H2 & H3); auto).
  assert (∀ log, on_column (λ x, cell x b) (λ x, length x = len) (idit2 log) (inv2 (value log)))
    as Hi by (intros log x y Hx Hy; destruct (lane_inv log b x y Hx Hy) as (H1 & H2 & H3); auto).
  destruct dir; cbn [lanes4 dir_block]; unfold fwd_block, inv_block.
  - rewrite <- !(value_slog (pt:=pt) (value:=value)) by lia. by apply (fwd4_column (λ x, cell x b) (λ x, length x = len)).
  - rewrite <- !(value_slog (pt:=pt) (value:=value)) by lia. by apply (inv4_column (λ x, cell x b) (λ x, length x = len)).
Qed.

(** The steps keep the lengths of the lanes. *)
Lemma lanes4_length dir m01 m23 m02 xs c : Forall (λ x, length x = len) xs → length xs = 4 →
  length (lanes4 dit2 idit2 dir m01 m23 m02 xs c) = len.
Proof.
  intros Hok Hl.
  assert (∀ log, on_column (λ _, tt) (λ x, length x = len) (dit2 log) (λ _ _, (tt, tt))) as Hf
    by (intros log x y Hx Hy; destruct (lane_fwd log 0 x y Hx Hy) as (H1 & H2 & _); auto).
  assert (∀ log, on_column (λ _, tt) (λ x, length x = len) (idit2 log) (λ _ _, (tt, tt))) as Hi
    by (intros log x y Hx Hy; destruct (lane_inv log 0 x y Hx Hy) as (H1 & H2 & _); auto).
  assert (Inhabited unit) by (apply populate, tt).
  destruct dir; cbn [lanes4].
  - by eapply (fwd4_column (λ _, tt) (λ x, length x = len)).
  - by eapply (inv4_column (λ _, tt) (λ x, length x = len)).
Qed.

(** What a step of four lanes has to do. *)
Lemma quad_step_acts dir r dist m01 m23 m02 body : 0 < dist → r + dist * 3 < N →
  (∀ s, lanes_good s →
     body (lanes_emb s) = Ok (lanes_emb (set4 s dist r (lanes4 dit2 idit2 dir m01 m23 m02 (gather 4 dist r s))))) →
  acts (E:=E) lanes_emb lanes_good body (radix_step 4 (lanes4 dit2 idit2 dir m01 m23 m02) dist r).
Proof.
  intros Hd Hr Hbody s Hs. eexists. split_and!; [by apply Hbody| |by apply set4_step].
  intros j. unfold set4. repeat case_decide; try apply Hs;
    (apply lanes4_length; [by apply gather_ok|by rewrite gather4]).
Qed.

(** A pass of a plan is a pass over every column. *)
Lemma plan_pass_acts dir body B l limit : quads_run dir body →
  nblocks limit (2 ^ (2 + l)) * 2 ^ (2 + l) ≤ N → (B + nblocks limit (2 ^ (2 + l))) * 4 ≤ 2 ^ w →
  acts (E:=E) lanes_emb lanes_good (for_each (plan_pass B l limit) body) (λ s t, ∀ b, b < size →
    radix_pass (2 ^ 2) (λ q, dir_block dir (B + q)) (2 ^ l) (nblocks limit (2 ^ (2 + l)))
      (column b s) (column b t)).
Proof.
  intros Hbody HN HB. pose proof (pow2_pos l) as Hp.
  assert (2 ^ l * 4 = 2 ^ (2 + l)) as Hpow by (cbn [Nat.add Nat.pow]; lia).
  eapply acts_mono.
  - apply (acts_pass lanes_emb lanes_good 4
      (λ q, lanes4 dit2 idit2 dir (slog (4 * (B + q))) (slog (4 * (B + q) + 2)) (slog (2 * (B + q))))
      (2 ^ l)).
    intros q x Hx. unfold plan_pass in Hx. pose proof (lookup_lt_Some _ _ _ Hx) as Hq.
    rewrite length_tabulate in Hq. rewrite lookup_tabulate in Hx by done. injection Hx as <-.
    rewrite Hpow. apply (Hbody (plan_block B l q)); cbn [plan_block stage4_dist stage4_r]; [done|].
    rewrite Hpow. nia.
  - intros s t Hs Hst b Hb. unfold plan_pass in Hst. rewrite length_tabulate in Hst.
    eapply (pass_column (λ x, cell x b) (λ x, length x = len)); [|done|exact Hst].
    intros q xs c Hq Hok Hl. by apply lanes4_column; [|lia|..].
Qed.

Definition dir_pair dir : nat → list Elem → nat → Elem :=
  match dir with Forward => fwd_pair pt | Inverse => inv_pair pt end.

Lemma lanes2_column dir b B xs c : b < size → 2 * B < 2 ^ w →
  Forall (λ x, length x = len) xs → length xs = 2 →
  cell (step2 (match dir with Forward => dit2 | Inverse => idit2 end (slog (2 * B))) xs c) b
  = dir_pair dir B (map (λ x, cell x b) xs) c.
Proof.
  intros Hb HB Hok Hl. destruct dir; cbn [dir_pair]; unfold fwd_pair, inv_pair;
    rewrite <- !(value_slog (pt:=pt) (value:=value)) by lia; eapply (step2_column (λ x, cell x b) (λ x, length x = len));
    try done; intros x y Hx Hy.
  - destruct (lane_fwd (slog (2 * B)) b x y Hx Hy) as (H1 & H2 & H3); auto.
  - destruct (lane_inv (slog (2 * B)) b x y Hx Hy) as (H1 & H2 & H3); auto.
Qed.

(** ** The forward transform *)
Lemma fft_passes_acts body K limit : quads_run Forward body → K ≤ w → limit ≤ 2 ^ K → 2 ^ K ≤ N →
  acts (E:=E) lanes_emb lanes_good (for_each (fft_passes K limit) body) (λ s t, ∀ b v, b < size →
    evald pt K 0 limit (column b s) v → evald pt (K mod 2) 0 limit (column b t) v).
Proof.
  intros Hbody HK Hlim HN. unfold fft_passes.
  pose proof (Nat.div_mod_eq K 2) as HK2. pose proof (Nat.mod_upper_bound K 2 ltac:(lia)) as Hr.
  revert HK2 Hr. generalize (K / 2) (K mod 2). intros n r HK2 Hr.
  assert (∀ n' (f : nat → nat), 2 * n' + r ≤ K → (∀ k, f k = 2 * n' + r - 2 - 2 * k) →
    acts (E:=E) lanes_emb lanes_good
      (for_each (List.concat (tabulate n' (λ k, plan_pass 0 (f k) limit))) body)
      (λ s t, ∀ b v, b < size → evald pt (2 * n' + r) 0 limit (column b s) v →
         evald pt r 0 limit (column b t) v)) as H.
  { induction n' as [|n' IH]; intros f Hn Hf.
    - intros s Hs. exists s. split_and!; done.
    - rewrite tabulate_S. cbn [List.concat]. eapply acts_mono.
      + apply acts_app.
        * apply (plan_pass_acts Forward body 0 (f 0) limit Hbody).
          -- pose proof (blocks_within limit (2 + f 0) K ltac:(rewrite Hf; lia) Hlim). lia.
          -- assert (nblocks limit (2 ^ (2 + f 0)) ≤ 2 ^ (w - 2)) as H6.
             { apply counters_bound; [apply pow2_pos|]. rewrite <- Nat.pow_add_r.
               etrans; [exact Hlim|]. apply pow2_le. rewrite Hf. lia. }
             assert (2 ^ w = 2 ^ (w - 2) * 2 ^ 2) as Hw by (rewrite <- Nat.pow_add_r; f_equal; lia).
             change (2 ^ 2) with 4 in Hw. lia.
        * apply (IH (λ k, f (S k))); [lia|]. intros k. rewrite Hf. lia.
      + intros s u Hs (t & _ & H1 & H2) b v Hb Hev. apply H2; [done|].
        assert (f 0 = 2 * n' + r) as Hf0 by (rewrite Hf; lia). rewrite Hf0 in H1.
        specialize (H1 b Hb).
        apply (evald_step w pt 2 _ _ (2 * n' + r) K 0 limit _ _ v
          (block_moves w pt) ltac:(lia) Hlim) in H1; [done| |].
        * rewrite Nat.add_0_l, Nat.mul_1_l. by apply (pow2_le K w).
        * by replace (2 + (2 * n' + r)) with (2 * S n' + r) by lia. }
  rewrite HK2. apply H; [lia|]. intros k. lia.
Qed.

(** ** The inverse transform *)
Lemma ifft_passes_acts body b0 K l n limit : quads_run Inverse body →
  (b0 + 1) * 2 ^ K ≤ 2 ^ w → limit ≤ 2 ^ K → 2 ^ K ≤ N → l + 2 * n ≤ K →
  acts (E:=E) lanes_emb lanes_good
    (for_each (List.concat (tabulate n (λ k,
       plan_pass (b0 * 2 ^ (K - (2 + l + 2 * k))) (l + 2 * k) limit))) body)
    (λ s t, ∀ b v, b < size → (∀ i, limit ≤ i → i < 2 ^ K → v i = zero) →
      interp pt l (b0 * 2 ^ K) (2 ^ K) limit (column b s) v →
      interp pt (l + 2 * n) (b0 * 2 ^ K) (2 ^ K) limit (column b t) v).
Proof.
  intros Hbody HK Hlim HN. revert l. induction n as [|n IH]; intros l Hl.
  - intros s Hs. exists s. split_and!; [done..|]. intros b v _ _. by rewrite Nat.add_0_r.
  - rewrite tabulate_S. cbn [List.concat].
    replace (2 + l + 2 * 0) with (2 + l) by lia. replace (l + 2 * 0) with l by lia.
    eapply acts_mono.
    + apply acts_app.
      * apply (plan_pass_acts Inverse body _ l limit Hbody).
        -- pose proof (blocks_within limit (2 + l) K ltac:(lia) Hlim). lia.
        -- pose proof (blocks_within limit (2 + l) K ltac:(lia) Hlim) as Hw.
           pose proof (block_base b0 K l (nblocks limit (2 ^ (2 + l))) ltac:(lia)) as Hbase.
           pose proof (pow2_le 2 (2 + l) ltac:(lia)) as H4. change (2 ^ 2) with 4 in H4.
           revert Hbase H4 HK Hw. generalize (2 ^ (2 + l)) (2 ^ K) (2 ^ (K - (2 + l))) (nblocks limit).
           intros P M Q nb Hbase H4 HK Hw. nia.
      * rewrite (tabulate_ext n _ (λ k, plan_pass (b0 * 2 ^ (K - (2 + (2 + l) + 2 * k))) (2 + l + 2 * k) limit)).
        -- apply (IH (2 + l)). lia.
        -- intros k _. by replace (2 + (2 + l) + 2 * k) with (2 + l + 2 * S k) by lia;
             replace (2 + l + 2 * k) with (l + 2 * S k) by lia.
    + intros s u Hs (t & _ & H1 & H2) b v Hb Hv Hin.
      replace (l + 2 * S n) with (2 + l + 2 * n) by lia. apply H2; [done..|].
      apply (interp_step w pt 2 _ _ l K b0 limit (column b s) _ v
        (block_moves w pt)); [lia|done|done|done|by apply H1|done].
Qed.

(** ** The final stages *)
Lemma fft_final_acts body K limit : pairs_run Forward body → K mod 2 = 1 → K ≤ w → limit ≤ 2 ^ K →
  2 ^ K ≤ N →
  acts (E:=E) lanes_emb lanes_good
    (for_each (tabulate (nblocks limit 2) (λ q, mk_stage2 (q * 2) 1 (slog (2 * q)))) body)
    (λ s t, ∀ b v, b < size → evald pt 1 0 limit (column b s) v →
       evald pt 0 0 limit (column b t) v).
Proof.
  intros Hbody Hodd HK Hlim HN. assert (1 ≤ K) as H1 by (destruct K; [done|lia]).
  pose proof (blocks_within limit 1 K H1 Hlim) as Hw. change (2 ^ 1) with 2 in Hw.
  pose proof (pow2_le K w HK) as H8.
  eapply acts_mono.
  - apply (acts_pass lanes_emb lanes_good 2 (λ q, step2 (dit2 (slog (2 * q)))) 1).
    intros q x Hx. pose proof (lookup_lt_Some _ _ _ Hx) as Hq.
    rewrite length_tabulate in Hq. rewrite lookup_tabulate in Hx by done. injection Hx as <-.
    apply (Hbody (mk_stage2 (q * 2) 1 (slog (2 * q)))); cbn [stage2_dist stage2_r]; lia || done.
  - intros s t Hs Hst b v Hb. rewrite length_tabulate in Hst.
    apply (evald_step w pt 1 _ _ 0 K 0 limit (column b s) _ v (pair_moves w pt));
      [done|done|by rewrite Nat.mul_1_l|].
    change (nblocks limit (2 ^ (1 + 0))) with (nblocks limit 2).
    eapply (pass_column (λ x, cell x b) (λ x, length x = len)); [|done|exact Hst].
    intros q xs c Hq Hok Hl. apply (lanes2_column Forward); try done. lia.
Qed.

Lemma single_block {A} k (f : list A → nat → A) dist (s t : nat → A) :
  radix_block k f dist 0 s t → radix_pass k (λ _, f) dist 1 s t.
Proof.
  intros [Hin Hout]. split.
  - intros q i c Hq Hi Hc. replace q with 0 by lia. rewrite Nat.mul_0_l, Nat.add_0_l. by apply Hin.
  - intros j Hj. apply Hout. lia.
Qed.

Lemma ifft_final_acts body b0 k limit : pairs_run Inverse body → (b0 + 1) * 2 ^ S k ≤ 2 ^ w →
  0 < limit → limit ≤ 2 ^ S k → 2 ^ S k ≤ N →
  acts (E:=E) lanes_emb lanes_good (body (mk_stage2 0 (2 ^ k) (slog (2 * b0))))
    (λ s t, ∀ b v, b < size → (∀ i, limit ≤ i → i < 2 ^ S k → v i = zero) →
       interp pt k (b0 * 2 ^ S k) (2 ^ S k) limit (column b s) v →
       interp pt (S k) (b0 * 2 ^ S k) (2 ^ S k) limit (column b t) v).
Proof.
  intros Hbody HK Hpos Hlim HN. pose proof (pow2_S k) as HS. pose proof (pow2_pos k).
  eapply acts_mono.
  - apply (Hbody (mk_stage2 0 (2 ^ k) (slog (2 * b0)))); cbn [stage2_dist stage2_r]; [done|lia|done].
  - cbn [stage2_dist stage2_r stage2_m]. intros s t Hs Hst%single_block b v Hb Hv.
    apply (interp_step w pt 1 _ _ k (S k) b0 limit (column b s) _ v (pair_moves w pt));
      [lia|done|done|done|].
    assert (nblocks limit (2 ^ (1 + k)) = 1) as ->.
    { unfold nblocks, counters. rewrite length_map, length_seq, Nat.sub_0_r. symmetry.
      apply (Nat.div_unique _ _ _ (limit - 1)); change (1 + k) with (S k); lia. }
    replace (S k - (1 + k)) with 0 by lia. rewrite Nat.pow_0_r, Nat.mul_1_r.
    eapply (pass_column (λ x, cell x b) (λ x, length x = len)); [|done|exact Hst].
    intros q xs c Hq Hok Hl. replace q with 0 by lia. rewrite Nat.add_0_r.
    apply (lanes2_column Inverse); try done. nia.
Qed.

Lemma run_fft_acts quad pair K limit :
  quads_run Forward quad → pairs_run Forward pair → K ≤ w → limit ≤ 2 ^ K → 2 ^ K ≤ N →
  acts (E:=E) lanes_emb lanes_good (run_fft quad pair (fft_plan K limit)) (λ s t, ∀ b v, b < size →
    (∀ i, i < 2 ^ K → nval K (column b s) (pt i) = v i) →
    ∀ i, i < limit → column b t i = v i).
Proof.
  intros Hq Hp HK Hlim HN. unfold run_fft, fft_plan. cbn [stage4_blocks fft_final].
  pose proof (Nat.mod_upper_bound K 2 ltac:(lia)) as Hr. eapply acts_mono.
  - apply acts_compose; [by apply fft_passes_acts|].
    apply (acts_mono _ _ _ (λ s t, ∀ b v, b < size →
      evald pt (K mod 2) 0 limit (column b s) v → evald pt 0 0 limit (column b t) v));
      [|intros s t _ H; exact H].
    destruct (Nat.eqb_spec (K mod 2) 1) as [Hodd|Heven].
    + rewrite Hodd. by apply (fft_final_acts pair K).
    + replace (K mod 2) with 0 by lia. intros s Hs. by exists s.
  - intros s u Hs (t & _ & H1 & H2) b v Hb Hv.
    apply (evald_end pt 0), H2; [done|]. apply H1; [done|].
    by apply (evald_start pt K 0 limit).
Qed.

Lemma run_ifft_rest_acts quad pair b0 K limit :
  quads_run Inverse quad → pairs_run Inverse pair → (b0 + 1) * 2 ^ K ≤ 2 ^ w →
  0 < limit → limit ≤ 2 ^ K → 2 ^ K ≤ N →
  acts (E:=E) lanes_emb lanes_good (run_ifft_rest quad pair (ifft_plan b0 K limit)) (λ s t, ∀ b v,
    b < size → (∀ i, limit ≤ i → i < 2 ^ K → v i = zero) →
    interp pt (if 2 <=? K then 2 else 0) (b0 * 2 ^ K) (2 ^ K) limit (column b s) v →
    ∀ i, i < 2 ^ K → nval K (column b t) (pt (b0 * 2 ^ K + i)) = v i).
Proof.
  intros Hq Hp HK Hpos Hlim HN. unfold run_ifft_rest, ifft_plan, ifft_passes.
  cbn [later_blocks ifft_final]. set (l := if 2 <=? K then 2 else 0).
  pose proof (Nat.div_mod_eq K 2) as HK2. pose proof (Nat.mod_upper_bound K 2 ltac:(lia)) as Hr.
  assert (l + 2 * (K / 2 - 1) = K - K mod 2) as Hl by (unfold l; destruct (Nat.leb_spec 2 K); lia).
  eapply acts_mono.
  - apply acts_compose.
    + rewrite (tabulate_ext _ _ (λ k, plan_pass (b0 * 2 ^ (K - (2 + l + 2 * k))) (l + 2 * k) limit)).
      * apply (ifft_passes_acts quad b0 K l); try done. lia.
      * intros k Hk. unfold l. by rewrite (proj2 (Nat.leb_le 2 K)) by lia.
    + apply (acts_mono _ _ _ (λ s t, ∀ b v, b < size → (∀ i, limit ≤ i → i < 2 ^ K → v i = zero) →
        interp pt (K - K mod 2) (b0 * 2 ^ K) (2 ^ K) limit (column b s) v →
        interp pt K (b0 * 2 ^ K) (2 ^ K) limit (column b t) v));
        [|intros s t _ H; exact H].
      destruct (Nat.eqb_spec (K mod 2) 1) as [Hodd|Heven].
      * rewrite Hodd. destruct K as [|k]; [done|]. replace (S k - 1) with k by lia.
        by apply (ifft_final_acts pair).
      * replace (K - K mod 2) with K by lia. intros s Hs. by exists s.
  - intros s u Hs (t & _ & H1 & H2) b v Hb Hv Hin.
    apply (interp_end pt K b0 limit), H2; [done..|]. rewrite <- Hl. by apply H1.
Qed.
End transforms.
