(* ===== verification/LeoCode.v ===== *)
(** * The code of the Leopard engines

    What an encoder computes and a decoder inverts, for one column: the parity on the
    first points and the data behind it are the values of one polynomial of
    low degree ([leopard_word]); the data determines the parity. *)

From Stdlib Require Import NArith Arith Lia List Bool.
From stdpp Require Import base numbers list.
From S2P Require Import Prelude Fields Options LinAlg Lch LeoStages LeoPlan.

(** ** Powers of two *)

(** The exponent of [ceil_pow2]. *)
Definition order2 (n : nat) : nat := N.to_nat (N.log2_up (N.of_nat n)).

Lemma ceil_pow2_order n : ceil_pow2 n = 2 ^ order2 n.
Proof.
  unfold ceil_pow2, next_power_of_two, order2. destruct (N.eqb_spec (N.of_nat n) 0) as [H0|H0].
  - rewrite H0. reflexivity.
  - by rewrite N2Nat.inj_pow.
Qed.

Lemma order2_covers n : n ≤ 2 ^ order2 n.
Proof.
  rewrite <- ceil_pow2_order. unfold ceil_pow2.
  destruct (next_power_of_two_spec (N.of_nat n)) as [H _]. lia.
Qed.

Lemma order2_least n k : n ≤ 2 ^ k → order2 n ≤ k.
Proof.
  intros H. apply (Nat.pow_le_mono_r_iff 2); [lia|]. rewrite <- ceil_pow2_order. unfold ceil_pow2.
  pose proof (next_power_of_two_least (N.of_nat n) (N.of_nat k)) as Hl.
  assert (N.of_nat n <= 2 ^ N.of_nat k)%N as Hn.
  { rewrite <- (N2Nat.id (2 ^ N.of_nat k)), N2Nat.inj_pow, Nat2N.id. change (N.to_nat 2) with 2. lia. }
  specialize (Hl Hn).
  assert (N.to_nat (next_power_of_two (N.of_nat n)) ≤ N.to_nat (2 ^ N.of_nat k)) as Hle by lia.
  rewrite N2Nat.inj_pow, Nat2N.id in Hle. exact Hle.
Qed.

(** ** Words *)
Section words.
Context {F : Field} {FL : FieldLaws F} (w : nat) (pt : nat → Elem) {CP : CantorPoints F w pt}.

(** [K] is the order of the parity block, [k] that of the whole transform. *)
Definition leopard_word (k K d p : nat) (data parity : nat → Elem) : Prop :=
  ∃ c : nat → Elem,
    (∀ j, 2 ^ k - 2 ^ K ≤ j → j < 2 ^ k → c j = zero) ∧
    (∀ i, i < p → nval k c (pt i) = parity i) ∧
    (∀ i, i < d → nval k c (pt (2 ^ K + i)) = data i) ∧
    ∀ i, 2 ^ K + d ≤ i → i < 2 ^ k → nval k c (pt i) = zero.

(** The sum of the polynomials of the groups continues them below. *)
Lemma groups_word k K d p G (Q : nat → nat → Elem) (data parity : nat → Elem) :
  k ≤ w → (nblocks d (2 ^ K) + 1) * 2 ^ K ≤ 2 ^ k → G = nblocks d (2 ^ K) → p ≤ 2 ^ K →
  (∀ g r, g < G → r < 2 ^ K → nval K (Q g) (pt ((g + 1) * 2 ^ K + r))
     = if decide (g * 2 ^ K + r < d) then data (g * 2 ^ K + r) else zero) →
  (∀ i, i < p → parity i = nval K (λ j, bsum G (λ g, Q g j)) (pt i)) →
  leopard_word k K d p data parity.
Proof.
  intros Hk Hfit HG Hp HQ Hpar. pose proof (pow2_pos K) as HP.
  pose proof (counters_blocks d (2 ^ K) ltac:(lia)) as Hcov. rewrite <- HG in Hfit, Hcov.
  assert (K ≤ k) as HKk.
  { apply (Nat.pow_le_mono_r_iff 2); [lia|]. nia. }
  set (t := k - K). assert (k = K + t) as Hkt by lia.
  assert (2 ^ k = 2 ^ t * 2 ^ K) as Hpow by (rewrite Hkt, Nat.pow_add_r; lia).
  assert (G + 1 ≤ 2 ^ t) as HGt by nia.
  set (Qm b := if decide (b = 0) then λ j, bsum G (λ g, Q g j)
               else if decide (b ≤ G) then Q (b - 1) else λ _, zero).
  destruct (blocks_merge w pt K t 0 Qm) as (c & Hc & Hlast).
  { rewrite <- Hkt, Nat.add_0_l, Nat.mul_1_l. by apply pow2_le. }
  rewrite <- Hkt in Hc, Hlast. exists c. split_and!.
  - intros j Hj1 Hj2. replace j with (2 ^ k - 2 ^ K + (j - (2 ^ k - 2 ^ K))) by lia.
    rewrite Hlast by lia. set (j' := j - (2 ^ k - 2 ^ K)).
    replace (2 ^ t) with (1 + (G + (2 ^ t - 1 - G))) by lia. rewrite !(bsum_split).
    rewrite (bsum_0 (2 ^ t - 1 - G)).
    + rewrite (bsum_ext G _ (λ g, Q g j')).
      * cbn [bsum]. unfold Qm. rewrite decide_True by done.
        rewrite (add_0_l), (add_0_r). apply (add_self).
      * intros g Hg. unfold Qm. rewrite decide_False, decide_True by lia. f_equal; lia.
    + intros g Hg. unfold Qm. by rewrite !decide_False by lia.
  - intros i Hi. specialize (Hc 0 i ltac:(lia) ltac:(lia)).
    replace ((0 * 2 ^ t + 0) * 2 ^ K + i) with i in Hc by lia. rewrite Hc, Hpar by done. done.
  - intros i Hi. pose proof (Nat.div_mod_eq i (2 ^ K)) as Hdm.
    pose proof (Nat.mod_upper_bound i (2 ^ K) ltac:(lia)) as Hr.
    assert (i / 2 ^ K < G) as Hg by (apply Nat.Div0.div_lt_upper_bound; lia).
    specialize (Hc (i / 2 ^ K + 1) (i mod 2 ^ K) ltac:(lia) Hr). rewrite Nat.mul_0_l, Nat.add_0_l in Hc.
    replace ((i / 2 ^ K + 1) * 2 ^ K + i mod 2 ^ K) with (2 ^ K + i) in Hc by lia. rewrite Hc. unfold Qm.
    rewrite decide_False, decide_True by lia. rewrite Nat.add_sub.
    replace (2 ^ K + i) with ((i / 2 ^ K + 1) * 2 ^ K + i mod 2 ^ K) by lia. rewrite HQ by done.
    replace (i / 2 ^ K * 2 ^ K + i mod 2 ^ K) with i by lia. by rewrite decide_True by done.
  - intros i Hi1 Hi2. pose proof (Nat.div_mod_eq i (2 ^ K)) as Hdm.
    pose proof (Nat.mod_upper_bound i (2 ^ K) ltac:(lia)) as Hr.
    assert (i / 2 ^ K < 2 ^ t) as Hg by (apply Nat.Div0.div_lt_upper_bound; lia).
    specialize (Hc (i / 2 ^ K) (i mod 2 ^ K) Hg Hr). rewrite Nat.mul_0_l, Nat.add_0_l in Hc.
    replace (i / 2 ^ K * 2 ^ K + i mod 2 ^ K) with i in Hc by lia. rewrite Hc. unfold Qm.
    assert (1 ≤ i / 2 ^ K) as H1 by (apply Nat.div_le_lower_bound; lia).
    rewrite decide_False by lia. case_decide as HiG; [|by apply (nval_zero)].
    replace i with ((i / 2 ^ K - 1 + 1) * 2 ^ K + i mod 2 ^ K) at 2 by nia. rewrite HQ by lia.
    rewrite decide_False by nia. done.
Qed.

(** Two words with the same data have the same parity. *)
Lemma leopard_word_unique k K d p data parity parity' :
  k ≤ w → 2 ^ K + d ≤ 2 ^ k → p ≤ 2 ^ K →
  leopard_word k K d p data parity → leopard_word k K d p data parity' →
  ∀ i, i < p → parity i = parity' i.
Proof.
  intros Hk Hfit Hp (c & Hc0 & Hcp & Hcd & Hcz) (c' & Hc0' & Hcp' & Hcd' & Hcz') i Hi.
  rewrite <- Hcp, <- Hcp' by done. pose proof (pow2_le k w Hk) as H8.
  destruct (poly_unique (2 ^ k - 2 ^ K) _ _ _ _ (λ j, pt (2 ^ K + j)) (pt i)
    (poly_nval_low k (2 ^ k - 2 ^ K) c Hc0)
    (poly_nval_low k (2 ^ k - 2 ^ K) c' Hc0')) as [H _]; [| |done].
  - intros j j' Hj Hj' Heq. apply (pt_inj (w:=w)) in Heq; lia.
  - intros j Hj. destruct (decide (j < d)) as [Hd|Hd].
    + by rewrite Hcd, Hcd' by done.
    + by rewrite Hcz, Hcz' by lia.
Qed.
End words.
