(* ===== verification/LeoGroup.v ===== *)
(** * The transforms of one group of an encoder

    What the encoders of both Leopard engines do to one group of shards, over the steps
    that they do differently: [load] brings a shard into a lane, [zero_at] and
    [zero_trailing] clear lanes, [quad] and [final] are the butterflies.  A group is
    interpolated on its block of points, whatever the lanes held before. *)

From Stdlib Require Import NArith Lia List Bool.
From stdpp Require Import base numbers list.
From S2P Require Import Prelude Fields LinAlg Lch LeoStages LeoButterfly LeoPlan LeoDit.

Section code.
Context {E A T : Type}.
Context (load zero_at : nat → list A → outcome E (list A)).
Context (zero_trailing : nat → nat → list A → outcome E (list A)).
Context (quad : Stage4Block T → list A → outcome E (list A)).
Context (final : Stage2Block T → list A → outcome E (list A)).
Implicit Types work : list A.

(** The first pass: the data is loaded, and zeros are put behind it, block by block. *)
Definition ifft_initial_block (mtrunc : nat) (block : Stage4Block T) work : outcome E (list A) :=
  let r := stage4_r block in
  let available := Nat.min (mtrunc - r) 4 in
  let! work := for_range 0 available (λ i, load (r + i)) work in
  let! work := for_range (r + available) (Nat.min (r + available + (4 - available)) (length work))
    zero_at work in
  quad block work.

Definition ifft_encode (plan : IfftPlan T) work : outcome E (list A) :=
  let! work :=
    match initial_blocks plan with
    | [] =>
        let! work := for_range 0 (Nat.min (ifft_mtrunc plan) (length work)) load work in
        zero_trailing (ifft_mtrunc plan) (ifft_m plan - ifft_mtrunc plan) work
    | blocks =>
        let! work := for_each blocks (ifft_initial_block (ifft_mtrunc plan)) work in
        let! work := zero_trailing (clear_start plan) (ifft_m plan - clear_start plan) work in
        for_each (later_blocks plan) quad work
    end in
  match ifft_final plan with
  | Some stage => final stage work
  | None => Ok work
  end.
End code.

#[local] Existing Instance elem_inhabited.

(** ** Loops over lanes *)
Section loops.
Context {E A : Type} (len N : nat).
Implicit Types (s t : nat → list A).
#[local] Abbreviation emb := (lanes_emb N).
#[local] Abbreviation good := (lanes_good len).

(** A loop that changes the lanes from [lo] to [hi], each on its own. *)
Lemma map_loop lo hi (body : nat → list (list A) → outcome E (list (list A)))
    (f : nat → list A → list A) s :
  (∀ i s, lo ≤ i → i < hi → good s →
     body i (emb s) = Ok (emb (λ j, if decide (j = i) then f j (s j) else s j))) →
  (∀ i x, length x = len → length (f i x) = len) → good s → lo ≤ hi →
  for_range lo hi body (emb s) = Ok (emb (λ j, if decide (lo ≤ j ∧ j < hi) then f j (s j) else s j)).
Proof.
  intros Hbody Hf Hs Hlh. exact (map_range (λ x, length x = len) N lo hi body f s Hbody Hf Hs Hlh).
Qed.

(** A loop that sets them. *)
Lemma fill_loop lo hi (body : nat → list (list A) → outcome E (list (list A))) (f : nat → list A) s :
  (∀ i s, lo ≤ i → i < hi → good s →
     body i (emb s) = Ok (emb (λ j, if decide (j = i) then f j else s j))) →
  (∀ i, length (f i) = len) → good s → lo ≤ hi →
  for_range lo hi body (emb s) = Ok (emb (λ j, if decide (lo ≤ j ∧ j < hi) then f j else s j)).
Proof. intros Hbody Hf. apply (map_loop lo hi body (λ j _, f j)); auto. Qed.
End loops.

(** ** The butterflies of the final stages *)

(** The two lanes of a final stage, through [split_at_mut]. *)
Definition pair_at {E A} (f : A → A → A * A) (i dist : nat) (work : list A) : outcome E (list A) :=
  let! x := index work i in let! y := index work (i + dist) in
  let '(x, y) := f x y in
  let! work := update work i x in update work (i + dist) y.

(** [slot.fill(0)] *)
Definition zero_lane {A} (zero : A) (lane : list A) : list A := replicate (length lane) zero.

Definition zero_lane_at {E A} (zero : A) (i : nat) (work : list (list A)) : outcome E (list (list A)) :=
  let! lane := index work i in update work i (zero_lane zero lane).

Section pairs.
Context {F : Field} {E T : Type} (value : T → Elem).
Context (dit2 idit2 : T → list Elem → list Elem → list Elem * list Elem).
Context (len N : nat) {LB : LaneButterflies value dit2 idit2 len len}.
Implicit Types (s t : nat → list Elem) (dir : TransformDir).
#[local] Abbreviation emb := (lanes_emb N).
#[local] Abbreviation good := (lanes_good len).
#[local] Abbreviation dir2 dir m := (match dir with Forward => dit2 m | Inverse => idit2 m end).

Lemma pair_at_step (f : list Elem → list Elem → list Elem * list Elem) s r dist : 0 < dist → r + dist < N →
  pair_at (E:=E) f r dist (emb s) = Ok (emb (set2 s r (r + dist) (f (s r) (s (r + dist))))).
Proof.
  intros Hd Hr. unfold pair_at, lanes_emb. rewrite !index_tabulate by lia. cbn [obind].
  destruct (f (s r) (s (r + dist))) as [x y]. rewrite !update_tabulate by lia. cbn [obind].
  by rewrite !update_tabulate by lia.
Qed.

Lemma pair_at_acts dir m r dist : 0 < dist → r + dist < N →
  acts (E:=E) emb good (pair_at (dir2 dir m) r dist) (radix_step 2 (step2 (dir2 dir m)) dist r).
Proof.
  intros Hd Hr s Hs. set (f := dir2 dir m).
  assert (length (f (s r) (s (r + dist))).1 = len ∧ length (f (s r) (s (r + dist))).2 = len) as [H1 H2].
  { unfold f. destruct dir.
    - by destruct (lane_fwd (dit2:=dit2) m 0 (s r) (s (r + dist))) as (? & ? & _).
    - by destruct (lane_inv (idit2:=idit2) m 0 (s r) (s (r + dist))) as (? & ? & _). }
  eexists. split_and!; [by apply pair_at_step| |].
  - intros j. unfold set2. repeat case_decide; [done|done|apply Hs].
  - by apply set2_step.
Qed.

(** Bodies that do what [pair_at] does. *)
Lemma fft_pairs_run (pair : Stage2Block T → list (list Elem) → outcome E (list (list Elem))) :
  (∀ blk s, stage2_r blk + stage2_dist blk < N →
     pair blk (emb s) = pair_at (dit2 (stage2_m blk)) (stage2_r blk) (stage2_dist blk) (emb s)) →
  pairs_run dit2 idit2 len N Forward pair.
Proof.
  intros Hpair [r dist m] Hd HN Hdist. cbn [stage2_r stage2_dist stage2_m] in *. subst dist.
  intros s Hs. rewrite Hpair by (cbn; lia).
  destruct (pair_at_acts Forward m r 1 ltac:(lia) ltac:(lia) s Hs) as (t & Ht & Hg & HR).
  exists t. split_and!; [exact Ht|done|by apply step_block].
Qed.

Lemma ifft_pairs_run (pair : Stage2Block T → list (list Elem) → outcome E (list (list Elem))) :
  (∀ blk s, stage2_dist blk * 2 ≤ N → good s → pair blk (emb s)
     = for_range 0 (stage2_dist blk) (λ i, pair_at (idit2 (stage2_m blk)) i (stage2_dist blk)) (emb s)) →
  pairs_run dit2 idit2 len N Inverse pair.
Proof.
  intros Hpair [r dist m] Hd HN Hr. cbn [stage2_r stage2_dist stage2_m] in *. subst r.
  intros s Hs. rewrite Hpair by (done || cbn; lia). cbn [stage2_dist stage2_m]. revert s Hs.
  apply acts_block. intros i Hi. apply (pair_at_acts Inverse); lia.
Qed.

Lemma zero_lane_step {A} (zero : A) i (s : nat → list A) : i < N → length (s i) = len →
  zero_lane_at (E:=E) zero i (lanes_emb N s)
  = Ok (lanes_emb N (λ j, if decide (j = i) then replicate len zero else s j)).
Proof.
  intros Hi Hs. unfold zero_lane_at, lanes_emb. rewrite index_tabulate by done. cbn [obind].
  rewrite update_tabulate by done. unfold zero_lane. by rewrite Hs.
Qed.
End pairs.

(** ** The inverse transform of a group *)
Section group.
Context {F : Field} {FL : FieldLaws F} (w : nat) (pt : nat → Elem) {CP : CantorPoints F w pt}.
Context {E T : Type} (slog : nat → T) (value : T → Elem) {SV : SkewValues w pt slog value}.
Context (dit2 idit2 : T → list Elem → list Elem → list Elem * list Elem).
Context (len N : nat) {LB : LaneButterflies value dit2 idit2 len len}.
Implicit Types (s t : nat → list Elem).
#[local] Abbreviation emb := (lanes_emb N).
#[local] Abbreviation good := (lanes_good len).
#[local] Abbreviation lane_step m01 m23 m02 := (lanes4 dit2 idit2 Inverse m01 m23 m02).
#[local] Abbreviation zeros := (replicate len (zero : Elem)).

(** Lane [i] of a group of [limit] shards; zeros behind them. *)
Definition group_lane (src : nat → list Elem) (limit i : nat) : list Elem :=
  if decide (i < limit) then src i else zeros.

Context (load zero_at : nat → list (list Elem) → outcome E (list (list Elem))).
Context (zero_trailing : nat → nat → list (list Elem) → outcome E (list (list Elem))).
Context (quad : Stage4Block T → list (list Elem) → outcome E (list (list Elem))).
Context (final : Stage2Block T → list (list Elem) → outcome E (list (list Elem))).
Context (src : nat → list Elem) (limit : nat).
Context (Hsrc : ∀ i, i < limit → length (src i) = len).
Context (Hload : ∀ i s, i < N → i < limit → good s →
  load i (emb s) = Ok (emb (λ j, if decide (j = i) then src i else s j))).
Context (Hzero : ∀ i s, i < N → good s →
  zero_at i (emb s) = Ok (emb (λ j, if decide (j = i) then zeros else s j))).
Context (Htrailing : ∀ lo n s, lo + n ≤ N → good s →
  zero_trailing lo n (emb s) = Ok (emb (λ j, if decide (lo ≤ j ∧ j < lo + n) then zeros else s j))).
Context (Hquad : quads_run dit2 idit2 len N Inverse quad).
Context (Hfinal : pairs_run dit2 idit2 len N Inverse final).
#[local] Abbreviation vl := (group_lane src limit).

Lemma group_lane_length i : length (vl i) = len.
Proof. unfold group_lane. case_decide; [by apply Hsrc|apply length_replicate]. Qed.

Lemma initial_block_acts B q : q < nblocks limit 4 → q * 4 + 4 ≤ N →
  acts (E:=E) emb good
    (ifft_initial_block load zero_at quad limit (plan_block slog B 0 q))
    (λ s t, ∃ u, (∀ c, c < 4 → u (q * 4 + c) = vl (q * 4 + c)) ∧
      (∀ j, j < q * 4 ∨ q * 4 + 4 ≤ j → u j = s j) ∧
      radix_block 4 (lane_step (slog (4 * (B + q))) (slog (4 * (B + q) + 2)) (slog (2 * (B + q))))
        1 (q * 4) u t).
Proof.
  intros Hq HN s Hs. assert (q * 4 < limit) as Hql.
  { destruct (Nat.lt_ge_cases (q * 4) limit) as [|Hge]; [done|]. exfalso.
    pose proof (counters_bound limit 4 q ltac:(lia) Hge). lia. }
  set (av := Nat.min (limit - q * 4) 4).
  pose proof group_lane_length as Hgl.
  set (s1 := λ j, if decide (q * 4 ≤ j ∧ j < q * 4 + av) then vl j else s j).
  set (u := λ j, if decide (q * 4 ≤ j ∧ j < q * 4 + 4) then vl j else s j).
  assert (good s1) as Hs1 by (intros j; unfold s1; case_decide; auto).
  assert (good u) as Hu by (intros j; unfold u; case_decide; auto).
  assert (for_range 0 av (λ i, load (q * 4 + i)) (emb s) = Ok (E:=E) (emb s1)) as E1.
  { rewrite <- (for_range_shift (q * 4) av load).
    apply (fill_loop len N); [|done|done|lia]. intros i s' Hlo Hhi Hs'.
    rewrite Hload by (done || lia). f_equal. apply tabulate_ext. intros j _. case_decide; [|done]. subst j.
    unfold group_lane. by rewrite decide_True by lia. }
  assert (for_range (q * 4 + av) (Nat.min (q * 4 + av + (4 - av)) (length (emb s1))) zero_at (emb s1)
    = Ok (E:=E) (emb u)) as E2.
  { unfold lanes_emb at 1. rewrite length_tabulate.
    replace (Nat.min (q * 4 + av + (4 - av)) N) with (q * 4 + 4) by lia.
    rewrite (fill_loop len N _ _ _ (λ _, zeros)); [|intros i s' _ Hhi Hs'; apply Hzero; [lia|done]
      |intros; apply length_replicate|done|lia].
    f_equal. apply tabulate_ext. intros j _. unfold s1, u. repeat case_decide; try lia; try done.
    unfold group_lane. by rewrite decide_False by lia. }
  destruct (Hquad (plan_block slog B 0 q)) with (s := u) as (t & Ht & Hg & HR);
    [cbn; lia|cbn; lia|done|].
  exists t. unfold ifft_initial_block. cbn [plan_block stage4_r stage4_dist Nat.add Nat.pow] in *.
  change (2 * 2 * 1) with 4 in *. change (2 * (2 * 1)) with 4 in *. fold av. rewrite E1. cbn [obind]. rewrite E2. cbn [obind].
  split_and!; [done|done|]. exists u. split_and!; [| |exact HR].
  - intros c Hc. unfold u. by rewrite decide_True by lia.
  - intros j Hj. unfold u. by rewrite decide_False by lia.
Qed.

(** The first pass starts from the data, whatever the lanes held. *)
Lemma initial_pass_acts B K : N = 2 ^ K → 2 ≤ K → limit ≤ 2 ^ K → (B + 2 ^ (K - 2)) * 4 ≤ 2 ^ w →
  acts (E:=E) emb good (λ work,
      let! work := for_each (plan_pass slog B 0 limit) (ifft_initial_block load zero_at quad limit) work in
      zero_trailing (nblocks limit 4 * 4) (2 ^ K - nblocks limit 4 * 4) work)
    (λ s t, ∀ b, b < len →
      radix_pass (2 ^ 2) (λ q, inv_block pt (B + q)) (2 ^ 0) (nblocks limit (2 ^ (2 + 0)))
        (column b vl) (column b t)).
Proof.
  intros HNK HK Hlim HB s Hs.
  change (2 ^ (2 + 0)) with 4. change (2 ^ 2) with 4. change (2 ^ 0) with 1.
  pose proof (blocks_within limit 2 K HK Hlim) as Hw. change (2 ^ 2) with 4 in Hw.
  assert (nblocks limit 4 ≤ 2 ^ (K - 2)) as Hnb.
  { apply counters_bound; [lia|]. change 4 with (2 ^ 2). rewrite <- Nat.pow_add_r.
    by replace (K - 2 + 2) with K by lia. }
  set (f q := lane_step (slog (4 * (B + q))) (slog (4 * (B + q) + 2)) (slog (2 * (B + q)))).
  pose proof group_lane_length as Hvl.
  destruct (acts_for_each emb good (plan_pass slog B 0 limit)
    (ifft_initial_block load zero_at quad limit)
    (λ k s t, (∀ q c, q < k → c < 4 → t (q * 4 + c) = f q (gather 4 1 (q * 4) vl) c) ∧
              ∀ j, k * 4 ≤ j → t j = s j)) with (s := s) as (t & Ht & Hg & Hin & Hout).
  { intros s'. split; [lia|done]. }
  { intros k x s' t Hx Hg [Hin Hout]. unfold plan_pass in Hx. change (2 ^ (2 + 0)) with 4 in Hx.
    pose proof (lookup_lt_Some _ _ _ Hx) as Hk. rewrite length_tabulate in Hk.
    rewrite lookup_tabulate in Hx by done. injection Hx as <-.
    destruct (initial_block_acts B k Hk ltac:(lia) t Hg)
      as (t' & Ht' & Hg' & u & Hu1 & Hu2 & Hin' & Hout').
    exists t'. split_and!; [done|done| |].
    - intros q c Hq Hc. destruct (decide (q = k)) as [->|Hne].
      + specialize (Hin' 0 c ltac:(lia) Hc). rewrite Nat.add_0_r, Nat.mul_1_l in Hin'.
        rewrite Hin'. fold (f k). f_equal. apply gather_ext. intros c' Hc'. rewrite Nat.mul_1_l. by apply Hu1.
      + rewrite Hout', Hu2, Hin by lia. done.
    - intros j Hj. rewrite Hout', Hu2, Hout by lia. done. }
  { done. }
  unfold plan_pass in Hin, Hout. rewrite length_tabulate in Hin, Hout. change (2 ^ (2 + 0)) with 4 in Hin, Hout.
  set (nb := nblocks limit 4) in *.
  exists (λ j, if decide (j < nb * 4) then t j else vl j). split_and!.
  - rewrite Ht. cbn [obind]. rewrite Htrailing by (done || lia).
    f_equal. apply tabulate_ext. intros j Hj. destruct (decide (j < nb * 4)) as [Hlt|Hge].
    + by rewrite decide_False by lia.
    + rewrite decide_True by lia. unfold group_lane. rewrite decide_False; [done|].
      pose proof (counters_blocks limit 4 ltac:(lia)). lia.
  - intros j. case_decide; auto.
  - intros b Hb. eapply (pass_column (λ x, cell x b) (λ x, length x = len) 4 f); [|done|].
    + intros q xs c Hq Hxs Hl. apply (lanes4_column w pt slog value dit2 idit2 len len Inverse); try done.
      change (4 * (B + q) + 2 < 2 ^ w). lia.
    + split.
      * intros q i c Hq Hi Hc. rewrite !Nat.mul_1_l. replace i with 0 by lia. rewrite Nat.add_0_r.
        rewrite decide_True by lia. by apply Hin.
      * intros j Hj. by rewrite decide_False by lia.
Qed.

(** One or two lanes are filled without butterflies. *)
Lemma small_fill K s : N = 2 ^ K → limit ≤ 2 ^ K → good s →
  (let! work := for_range 0 (Nat.min limit (length (emb s))) load (emb s) in
   zero_trailing limit (2 ^ K - limit) work) = Ok (E:=E) (emb vl).
Proof.
  intros HNK Hlim Hs. pose proof group_lane_length as Hvl.
  unfold lanes_emb at 1. rewrite length_tabulate. replace (Nat.min limit N) with limit by lia.
  rewrite (fill_loop len N 0 limit _ vl s); [|intros i s' _ Hhi Hs'|done|done|lia].
  - cbn [obind]. rewrite Htrailing; [|lia|intros j; case_decide; auto].
    f_equal. apply tabulate_ext. intros j Hj.
    repeat case_decide; try lia; [|done]. unfold group_lane. by rewrite decide_False by lia.
  - rewrite Hload by (done || lia).
    f_equal. apply tabulate_ext. intros j _. case_decide; [|done]. subst j.
    unfold group_lane. by rewrite decide_True by lia.
Qed.

Lemma column_zero b i : b < len → limit ≤ i → column b vl i = zero.
Proof.
  intros Hb Hi. unfold column, group_lane, cell. rewrite decide_False by lia.
  by rewrite lookup_replicate_2.
Qed.

(** A group is interpolated on its block of points. *)
Lemma ifft_encode_acts b0 K :
  N = 2 ^ K → 0 < limit → limit ≤ 2 ^ K → (b0 + 1) * 2 ^ K ≤ 2 ^ w →
  acts (E:=E) emb good
    (ifft_encode load zero_at zero_trailing quad final (ifft_plan slog b0 K limit))
    (λ s t, ∀ b, b < len → ∀ i, i < 2 ^ K →
       nval K (column b t) (pt (b0 * 2 ^ K + i)) = column b vl i).
Proof.
  intros HNK Hpos Hlim HK. pose proof group_lane_length as Hvl.
  pose proof (run_ifft_rest_acts (E:=E) w pt slog value dit2 idit2 len len N
    quad final b0 K limit Hquad Hfinal HK Hpos Hlim ltac:(lia)) as Hrest.
  intros s Hs. destruct (Nat.leb_spec 2 K) as [H2|H2].
  - assert ((b0 * 2 ^ (K - 2) + 2 ^ (K - 2)) * 4 ≤ 2 ^ w) as HB.
    { replace K with (K - 2 + 2) in HK by lia. rewrite Nat.pow_add_r in HK. change (2 ^ 2) with 4 in HK. lia. }
    destruct (initial_pass_acts (b0 * 2 ^ (K - 2)) K HNK H2 Hlim HB s Hs) as (t & Ht & Hg & Hpass).
    destruct (Hrest t Hg) as (u & Hu & Hg' & HR). exists u. split_and!; [|done|].
    + rewrite <- Hu. unfold ifft_encode, run_ifft_rest, ifft_plan.
      cbn [initial_blocks later_blocks clear_start ifft_final ifft_mtrunc ifft_m].
      rewrite (proj2 (Nat.leb_le 2 K)) by done. fold (ifft_passes slog b0 K limit).
      destruct (plan_pass slog (b0 * 2 ^ (K - 2)) 0 limit) as [|blk blks] eqn:Hblks.
      { exfalso. apply (f_equal length) in Hblks. unfold plan_pass in Hblks.
        rewrite length_tabulate in Hblks. change (2 ^ (2 + 0)) with 4 in Hblks. simpl in Hblks.
        pose proof (counters_blocks limit 4 ltac:(lia)). lia. }
      destruct (for_each (blk :: blks) _ (emb s)) as [wk| |]; cbn [obind] in Ht |- *; [|done..].
      by rewrite Ht.
    + intros b Hb i Hi. apply HR; [done|intros; by apply column_zero| |done].
      apply (interp_step w pt 2 _ _ 0 K b0 limit (column b vl) _ (column b vl)
        (block_moves w pt)); [lia|done|done|intros; by apply column_zero| |].
      * by apply Hpass.
      * apply (interp_start pt K b0); [done|]. intros; by apply column_zero.
  - destruct (Hrest vl Hvl) as (u & Hu & Hg' & HR). exists u. split_and!; [|done|].
    + rewrite <- Hu. unfold ifft_encode, run_ifft_rest, ifft_plan.
      cbn [initial_blocks later_blocks ifft_final ifft_mtrunc ifft_m].
      rewrite (proj2 (Nat.leb_gt 2 K)) by done. unfold ifft_passes.
      replace (K / 2 - 1) with 0 by (rewrite Nat.div_small by lia; done). cbn [tabulate seq map List.concat for_each obind].
      pose proof (small_fill K s HNK Hlim Hs) as Hfill.
      destruct (for_range 0 (Nat.min limit (length (emb s))) _ (emb s)) as [wk| |];
        cbn [obind] in Hfill |- *; [|done..].
      by rewrite Hfill.
    + intros b Hb i Hi. apply HR; [done|intros; by apply column_zero| |done].
      apply (interp_start pt K b0); [done|]. intros; by apply column_zero.
Qed.
End group.
