(* ===== verification/LeoCache.v ===== *)
(** * Caches and selection of the Leopard engines ([src/core/leopard_cache.rs])

    A cache of two owned resources, most recently returned first, with one byte budget.
    Taking an entry removes it; returning a resource replaces one of the same key and
    keeps the newest other entry that still fits. *)

From Stdlib Require Import NArith Lia List Bool.
From stdpp Require Import base numbers list.
From S2P Require Import Prelude.

Section cache.
Context {K T : Type} `{EqDecision K}.

Record Entry := mk_entry { entry_key : K; entry_value : T; entry_bytes : N }.

Record TwoEntryCache := mk_two_entry {
  cache_entries : option Entry * option Entry;
  cache_max_bytes : N;
}.

Implicit Types (c : TwoEntryCache) (e : option Entry) (k : K).

Definition two_new (max_bytes : N) : TwoEntryCache := mk_two_entry (None, None) max_bytes.

Definition has_key k e : bool :=
  match e with Some e => bool_decide (entry_key e = k) | None => false end.

(** [position] finds the first entry with the key; it is taken out. *)
Definition two_take c k : option T * TwoEntryCache :=
  let '(e0, e1) := cache_entries c in
  if has_key k e0 then (entry_value <$> e0, mk_two_entry (None, e1) (cache_max_bytes c))
  else if has_key k e1 then (entry_value <$> e1, mk_two_entry (e0, None) (cache_max_bytes c))
  else (None, c).

Definition retains k (room : N) e : bool :=
  match e with
  | Some e => bool_decide (entry_key e ≠ k) && (entry_bytes e <=? room)%N
  | None => false
  end.

Definition two_insert c k (value : T) (bytes : N) : TwoEntryCache :=
  if (cache_max_bytes c <? bytes)%N then c else
  let '(e0, e1) := cache_entries c in
  let room := (cache_max_bytes c - bytes)%N in
  let retained := if retains k room e0 then e0 else if retains k room e1 then e1 else None in
  mk_two_entry (Some (mk_entry k value bytes), retained) (cache_max_bytes c).

(** ** The entries held *)
Definition bytes_of e : N := match e with Some e => entry_bytes e | None => 0%N end.
Definition retained_bytes c : N := (bytes_of (cache_entries c).1 + bytes_of (cache_entries c).2)%N.

Definition holds c k (v : T) : Prop :=
  ∃ x : Entry, (cache_entries c).1 = Some x ∧ entry_key x = k ∧ entry_value x = v
     ∨ (cache_entries c).2 = Some x ∧ entry_key x = k ∧ entry_value x = v.

(** Within the budget, and no key twice. *)
Definition two_inv c : Prop :=
  (retained_bytes c <= cache_max_bytes c)%N ∧
  ∀ x0 x1 : Entry, cache_entries c = (Some x0, Some x1) → entry_key x0 ≠ entry_key x1.

Lemma two_new_inv max_bytes : two_inv (two_new max_bytes).
Proof. split; [unfold retained_bytes; simpl; lia|done]. Qed.

Lemma has_key_spec k e : has_key k e = true ↔ ∃ x, e = Some x ∧ entry_key x = k.
Proof.
  destruct e as [x|]; simpl; [rewrite bool_decide_eq_true|]; split; [eauto| |done|]; intros (y & Hy & ?);
    by simplify_eq.
Qed.

(** Taking: the entry leaves the cache, the other stays. *)
Lemma two_take_spec c k : two_inv c →
  let '(v, c') := two_take c k in
  two_inv c' ∧ cache_max_bytes c' = cache_max_bytes c ∧
  (∀ x, v = Some x → holds c k x) ∧ (v = None → ∀ x, ¬ holds c k x) ∧
  (∀ k' x, holds c' k' x ↔ holds c k' x ∧ k' ≠ k).
Proof.
  destruct c as [[e0 e1] mb]. intros [Hb Hk]. unfold two_take, retained_bytes in *. cbn in *.
  destruct (has_key k e0) eqn:H0; [|destruct (has_key k e1) eqn:H1]; cbn.
  - apply has_key_spec in H0 as (x0 & -> & <-). cbn in *. split_and!; [split; cbn; [unfold retained_bytes; cbn; lia|done]|done| | |].
    + intros x [= <-]. exists x0. auto.
    + done.
    + intros k' x. split.
      * intros (e & [(H & _)|(H & Hke & Hv)]); [done|]. cbn in H. subst e1. split; [exists e; auto|].
        intros ->. by apply (Hk x0 e).
      * intros ((e & [(H & Hke & Hv)|(H & Hke & Hv)]) & Hne); cbn in H; [by simplify_eq|].
        exists e. auto.
  - apply has_key_spec in H1 as (x1 & -> & <-). cbn in *. split_and!; [split; cbn; [unfold retained_bytes; cbn; lia|intros ? ?; by destruct e0]|done| | |].
    + intros x [= <-]. exists x1. auto.
    + done.
    + intros k' x. split.
      * intros (e & [(H & Hke & Hv)|(H & _)]); [|done]. cbn in H. subst e0. split; [exists e; auto|].
        intros ->. by apply (Hk e x1).
      * intros ((e & [(H & Hke & Hv)|(H & Hke & Hv)]) & Hne); cbn in H; [|by simplify_eq].
        exists e. auto.
  - assert (∀ x, ¬ holds (mk_two_entry (e0, e1) mb) k x) as Hno.
    { intros x (e & [(H & Hke & Hv)|(H & Hke & Hv)]); cbn in H; subst; cbn in H0, H1;
        by rewrite bool_decide_eq_true_2 in * by done. }
    split_and!; [split; [done|exact Hk]|done|done|by intros _|]. intros k' x. split; [|by intros [? _]].
    intros H. split; [done|]. intros ->. by apply (Hno x).
Qed.

(** Returning: nothing changes when it is too large; else the resource is held, and the
    others held were held before. *)
Lemma two_insert_spec c k v bytes : two_inv c →
  two_inv (two_insert c k v bytes) ∧ cache_max_bytes (two_insert c k v bytes) = cache_max_bytes c ∧
  (∀ k' x, holds (two_insert c k v bytes) k' x → k' = k ∧ x = v ∨ holds c k' x) ∧
  ((bytes <= cache_max_bytes c)%N → ∀ x, holds (two_insert c k v bytes) k x ↔ x = v).
Proof.
  destruct c as [[e0 e1] mb]. intros Hinv. unfold two_insert. cbn [cache_max_bytes cache_entries].
  destruct (N.ltb_spec mb bytes) as [Hlt|Hge].
  { split_and!; [done|done|by intros; right|lia]. }
  set (room := (mb - bytes)%N). set (ret := if retains k room e0 then e0 else _).
  assert (ret = None ∨ ∃ x, ret = Some x ∧ entry_key x ≠ k ∧ (entry_bytes x <= room)%N
    ∧ (e0 = Some x ∨ e1 = Some x)) as Hret.
  { assert (∀ e, retains k room e = true → ∃ x, e = Some x ∧ entry_key x ≠ k ∧ (entry_bytes x <= room)%N) as Hr.
    { intros [x|]; [|done]. cbn. rewrite andb_true_iff, bool_decide_eq_true, N.leb_le. intros []. eauto. }
    unfold ret. destruct (retains k room e0) eqn:H0; [|destruct (retains k room e1) eqn:H1].
    - apply Hr in H0 as (x & -> & ? & ?). right. exists x. auto.
    - apply Hr in H1 as (x & -> & ? & ?). right. exists x. auto.
    - by left. }
  split_and!; [|done| |].
  - split; unfold retained_bytes; cbn.
    + destruct Hret as [->|(x & -> & _ & Hx & _)]; cbn; unfold room in *; lia.
    + intros a0 a1 [= <- H1] Heq. destruct Hret as [Hn|(x & Hx & Hne & _)]; [by rewrite Hn in H1|].
      rewrite Hx in H1. by simplify_eq.
  - intros k' x (e & [(H & Hke & Hv)|(H & Hke & Hv)]); cbn in H.
    + simplify_eq. left. done.
    + right. destruct Hret as [Hn|(y & Hy & _ & _ & Hin)]; [by rewrite Hn in H|].
      rewrite Hy in H. injection H as ->. exists e. destruct Hin as [->| ->]; auto.
  - intros _ x. split.
    + intros (e & [(H & Hke & Hv)|(H & Hke & Hv)]); cbn in H; [by injection H as <-|].
      destruct Hret as [Hn|(y & Hy & Hne & _)]; [by rewrite Hn in H|]. rewrite Hy in H. injection H as ->. by destruct Hne.
    + intros ->. eexists. left. done.
Qed.

(** What holds of everything in a cache goes on holding. *)
Lemma take_keeps c k (P : K → T → Prop) : two_inv c → (∀ k v, holds c k v → P k v) →
  two_inv (two_take c k).2 ∧ (∀ k' v, holds (two_take c k).2 k' v → P k' v) ∧
  ∀ v, (two_take c k).1 = Some v → P k v.
Proof.
  intros Hinv HP. pose proof (two_take_spec c k Hinv) as H. destruct (two_take c k) as [v c'].
  destruct H as (H1 & _ & H2 & _ & H3). cbn. split_and!; [done| |].
  - intros k' x Hx. apply HP, H3, Hx.
  - intros x Hx. by apply HP, H2.
Qed.

Lemma insert_keeps c k v bytes (P : K → T → Prop) : two_inv c → (∀ k x, holds c k x → P k x) → P k v →
  two_inv (two_insert c k v bytes) ∧ ∀ k' x, holds (two_insert c k v bytes) k' x → P k' x.
Proof.
  intros Hinv HP Hv. destruct (two_insert_spec c k v bytes Hinv) as (H1 & _ & H2 & _).
  split; [done|]. intros k' x [[-> ->]|Hx]%H2; auto.
Qed.

(** ** Any sequence of calls *)
Inductive cache_op : Type :=
| OpTake (k : K)
| OpInsert (k : K) (value : T) (bytes : N).

Definition two_step c (op : cache_op) : TwoEntryCache :=
  match op with
  | OpTake k => (two_take c k).2
  | OpInsert k value bytes => two_insert c k value bytes
  end.

Definition two_run (max_bytes : N) (ops : list cache_op) : TwoEntryCache :=
  fold_left two_step ops (two_new max_bytes).

(** after any sequence of takes and returns on a fresh cache the bytes
    retained are within the budget, no key is held twice, whatever is held was
    returned under its key, and a take yields exactly what is held, once. *)
Theorem two_entry_cache_sound (max_bytes : N) (ops : list cache_op) :
  let c := two_run max_bytes ops in
  (retained_bytes c <= max_bytes)%N ∧
  (∀ x0 x1 : Entry, cache_entries c = (Some x0, Some x1) → entry_key x0 ≠ entry_key x1) ∧
  (∀ k v, holds c k v → ∃ bytes, (bytes <= max_bytes)%N ∧ OpInsert k v bytes ∈ ops) ∧
  ∀ k, (∀ v, (two_take c k).1 = Some v → holds c k v) ∧
    ((two_take c k).1 = None → ∀ v, ¬ holds c k v) ∧ ∀ v, ¬ holds (two_take c k).2 k v.
Proof.
  cbn zeta.
  assert (two_inv (two_run max_bytes ops) ∧ cache_max_bytes (two_run max_bytes ops) = max_bytes ∧
    ∀ k v, holds (two_run max_bytes ops) k v → ∃ bytes, (bytes <= max_bytes)%N ∧ OpInsert k v bytes ∈ ops)
    as (Hinv & Hmax & Hheld).
  { unfold two_run. induction ops as [|op ops IH] using rev_ind.
    - split_and!; [apply two_new_inv|done|]. intros k v (x & [[H _]|[H _]]); discriminate.
    - rewrite fold_left_app. cbn [fold_left]. destruct IH as (Hi & Hm & Hh).
      set (c := fold_left two_step ops (two_new max_bytes)) in *. destruct op as [k|k v bytes]; cbn [two_step].
      + pose proof (two_take_spec c k Hi) as Ht. destruct (two_take c k) as [r c'].
        destruct Ht as (H1 & H2 & _ & _ & H3). cbn [snd]. split_and!; [done|congruence|].
        intros k' v [Hk _]%H3. destruct (Hh k' v Hk) as (b & ? & ?). exists b. split; [done|].
        apply elem_of_app. by left.
      + destruct (two_insert_spec c k v bytes Hi) as (H1 & H2 & H3 & _). split_and!; [done|congruence|].
        intros k' x Hk. unfold two_insert in Hk. destruct (N.ltb_spec (cache_max_bytes c) bytes) as [Hb|Hb].
        * destruct (Hh k' x Hk) as (b & ? & ?). exists b. split; [done|]. apply elem_of_app. by left.
        * destruct (H3 k' x) as [[-> ->]|Hold].
          { unfold two_insert. destruct (N.ltb_spec (cache_max_bytes c) bytes); [lia|done]. }
          { exists bytes. split; [lia|]. apply elem_of_app. right. by apply list_elem_of_singleton. }
          { destruct (Hh k' x Hold) as (b & ? & ?). exists b. split; [done|]. apply elem_of_app. by left. } }
  destruct Hinv as [Hbytes Hkeys]. rewrite Hmax in Hbytes. split_and!; [done|done|done|].
  intros k. pose proof (two_take_spec (two_run max_bytes ops) k) as Ht.
  destruct (two_take (two_run max_bytes ops) k) as [r c']. cbn [fst snd].
  destruct Ht as (_ & _ & H1 & H2 & H3); [split; [by rewrite Hmax|done]|].
  split_and!; [done|done|]. intros v Hv. apply H3 in Hv as [_ Hne]. done.
Qed.
End cache.
Arguments Entry : clear implicits.
Arguments TwoEntryCache : clear implicits.
