(* ===== verification/LeoChunk.v ===== *)
(** * The chunks of an encoder

    What the encoders of both Leopard engines have in common above the transforms of one
    group ([src/core/leopard_gf8/encode.rs], [leopard_gf16/encode.rs]): the plans of all
    groups, one chunk of the shards (interpolate each group, add up, evaluate), and the loop
    over the chunks.  The parity of a chunk consists of the values of one polynomial of low
    degree, column by column. *)

From Stdlib Require Import NArith Lia List Bool.
From stdpp Require Import base numbers list.
From S2P Require Import Prelude Fields Options Leopard LinAlg Lch LeoStages LeoButterfly LeoPlan LeoDit LeoCode LeoGroup LeoCache.

(** [EncodePlans] *)
Record EncodePlans (T : Type) := mk_encode_plans {
  first_ifft_plan : IfftPlan T;
  encode_fft_plan : FftPlan T;
  later_ifft_plans : list (IfftPlan T);
  remainder_ifft_plan : option (IfftPlan T);
}.
Arguments mk_encode_plans {T}.
Arguments first_ifft_plan {T}.
Arguments encode_fft_plan {T}.
Arguments later_ifft_plans {T}.
Arguments remainder_ifft_plan {T}.

(** [&l[from..]] *)
Definition slice_from {E A} (l : list A) (from : nat) : outcome E (list A) := slice l from (length l).

Section plans_code.
Context {E T : Type}.

(** [while group_offset + driver.m <= data_shards] *)
Fixpoint later_plans_loop (fuel : nat) (m data_shards : nat) (skew : list T)
    (group_offset skew_offset : nat) (plans : list (IfftPlan T))
  : outcome E (list (IfftPlan T) * nat) :=
  match fuel with
  | O => Panic
  | S fuel =>
      if group_offset + m <=? data_shards then
        let! skews := slice_from skew skew_offset in
        let! plan := build_ifft_plan m m skews in
        later_plans_loop fuel m data_shards skew (group_offset + m) (skew_offset + m) (plans ++ [plan])
      else Ok (plans, skew_offset)
  end.

(** [EncodePlans::new] *)
Definition encode_plans_new (data_shards parity_shards : nat) (driver : LeopardEncodeDriver)
    (skews : list T) : outcome E (EncodePlans T) :=
  let m := driver_m driver in
  let! skew := slice_from skews (driver_skew_offset driver) in
  let! first := build_ifft_plan (driver_mtrunc driver) m skew in
  let! fft := build_fft_plan parity_shards m skews in
  let! ' (later, remainder) :=
    if m <? data_shards then
      let! ' (later, skew_offset) := later_plans_loop (S data_shards) m data_shards skew m m [] in
      let! remainder :=
        if driver_last_count driver =? 0 then Ok None else
        let! skews := slice_from skew skew_offset in
        let! plan := build_ifft_plan (driver_last_count driver) m skews in Ok (Some plan) in
      Ok (later, remainder)
    else Ok ([], None) in
  Ok (mk_encode_plans first fft later remainder).
End plans_code.

Section chunk_code.
Context {E D A T : Type}.
(** The transforms of a group, over the bytes of the chunk, and the addition of lanes. *)
Context (ifft : list D → IfftPlan T → list A → outcome E (list A)).
Context (xor : nat → list A → list A → outcome E (list A)).
Context (fft : FftPlan T → list A → outcome E (list A)).
Implicit Types (data : list D) (work : list A).

(** A later group: interpolated in the second half of the work space, added to the first. *)
Definition encode_group (m : nat) data (plan : IfftPlan T) (group_offset : nat) work
  : outcome E (list A) :=
  let! rest := slice_from data group_offset in
  let xor_dst := take m work in
  let! temp := ifft rest plan (drop m work) in
  let! xor_dst := xor (ifft_m plan) temp xor_dst in
  Ok (xor_dst ++ temp).

(** One chunk; the parity is in the first lanes. *)
Definition encode_chunk (m : nat) (plans : EncodePlans T) data work : outcome E (list A) :=
  let! first := slice work 0 m in
  let! first := ifft data (first_ifft_plan plans) first in
  let work := splice work 0 first in
  let! ' (work, group_offset) :=
    for_each (later_ifft_plans plans) (λ plan '(work, group_offset),
      let! work := encode_group m data plan group_offset work in
      Ok (work, group_offset + m)) (work, m) in
  let! work :=
    match remainder_ifft_plan plans with
    | Some plan => encode_group m data plan group_offset work
    | None => Ok work
    end in
  let! first := slice work 0 m in
  let! first := fft (encode_fft_plan plans) first in
  Ok (splice work 0 first).
End chunk_code.

Section loop_code.
Context {E A S : Type}.
Implicit Types (lanes views : list (list A)).

(** The views of the first [count] lanes, [view_len] elements each; their new contents go
    back to the lanes. *)
Definition lane_views (count view_len : nat) lanes : list (list A) :=
  map (take view_len) (take count lanes).
Definition put_views views lanes : list (list A) :=
  zip_with (λ view lane, view ++ drop (length view) lane) views lanes ++ drop (length views) lanes.

(** [while offset < shard_size]; the views of the last chunk are shorter. *)
Fixpoint lane_chunks (body : nat → nat → list (list A) → S → outcome E (list (list A) * S))
    (fuel total chunk_size work_size chunk_cap offset : nat) lanes (st : S)
  : outcome E (list (list A) * S) :=
  match fuel with
  | O => Panic
  | Datatypes.S fuel =>
      if offset <? total then
        let stop := Nat.min (offset + chunk_size) total in
        let size := stop - offset in
        let view_len := if size <? chunk_cap then size else chunk_cap in
        let! ' (views, st) := body offset stop (lane_views work_size view_len lanes) st in
        lane_chunks body fuel total chunk_size work_size chunk_cap stop (put_views views lanes) st
      else Ok (lanes, st)
  end.
End loop_code.

(** The caches of the thread: plans, and the buffers of a run. *)
Record EncodeCaches (T B : Type) := mk_encode_caches {
  plan_cache : TwoEntryCache (nat * nat) (EncodePlans T);
  buffer_cache : TwoEntryCache (nat * nat) B;
}.
Arguments mk_encode_caches {T B}.
Arguments plan_cache {T B}.
Arguments buffer_cache {T B}.

Section cached_code.
Context {E T B S : Type}.

(** The run of an encoder on the plans and the buffers of the caches, or on new ones; both
    are returned to the caches afterwards. *)
Definition encode_cached (cacheable : bool) (plan_key buffer_key : nat * nat)
    (build : outcome E (EncodePlans T)) (fresh : B) (run : EncodePlans T → B → S → outcome E (B * S))
    (key_of : B → nat * nat) (buffer_bytes : B → N) (plan_bytes : EncodePlans T → N)
    (caches : EncodeCaches T B) (st : S) : outcome E (EncodeCaches T B * S) :=
  let! ' (plans, plans') :=
    if cacheable then
      let '(cached, plans') := two_take (plan_cache caches) plan_key in
      match cached with
      | Some plans => Ok (plans, plans')
      | None => let! plans := build in Ok (plans, plans')
      end
    else let! plans := build in Ok (plans, plan_cache caches) in
  let '(cached, buffers') :=
    if cacheable then two_take (buffer_cache caches) buffer_key else (None, buffer_cache caches) in
  let buffers := match cached with Some buffers => buffers | None => fresh end in
  let! ' (buffers, st) := run plans buffers st in
  let buffers' :=
    if cacheable then two_insert buffers' (key_of buffers) buffers (buffer_bytes buffers) else buffers' in
  let plans' := if cacheable then two_insert plans' plan_key plans (plan_bytes plans) else plans' in
  Ok (mk_encode_caches plans' buffers', st).
End cached_code.

(** ** The plans of an encoder *)

(** Shapes that an engine of [2 ^ w] points serves: the padded data and the parity block fit. *)
Definition leopard_shape (w d p K : nat) : Prop :=
  0 < d ∧ 0 < p ∧ p ≤ 2 ^ K ∧ (nblocks d (2 ^ K) + 1) * 2 ^ K ≤ 2 ^ w.

Lemma nblocks_pos d m : 0 < m → 0 < d → 0 < nblocks d m.
Proof. intros Hm Hd. pose proof (counters_blocks d m ltac:(lia)). destruct (nblocks d m); lia. Qed.

Lemma leopard_shape_order w d p K : leopard_shape w d p K → K < w ∧ d + 2 ^ K ≤ 2 ^ w ∧ 0 < nblocks d (2 ^ K).
Proof.
  intros (Hd & Hp & HpK & Hfit). pose proof (pow2_pos K).
  pose proof (counters_blocks d (2 ^ K) ltac:(lia)) as Hcov.
  pose proof (nblocks_pos d (2 ^ K) ltac:(lia) Hd). split_and!; [|nia|done].
  apply (Nat.pow_lt_mono_r_iff 2); [lia|]. nia.
Qed.

(** Full groups and the rest. *)
Lemma nblocks_div d m : 0 < m → nblocks d m = if d mod m =? 0 then d / m else d / m + 1.
Proof.
  intros Hm. unfold nblocks, counters. rewrite length_map, length_seq, Nat.sub_0_r.
  pose proof (Nat.div_mod_eq d m) as Hdm. pose proof (Nat.mod_upper_bound d m ltac:(lia)) as Hr.
  symmetry. destruct (Nat.eqb_spec (d mod m) 0) as [H0|H0].
  - apply (Nat.div_unique _ _ _ (m - 1)); nia.
  - apply (Nat.div_unique _ _ _ (d mod m - 1)); nia.
Qed.

Lemma nblocks_lt d m g : 0 < m → g < nblocks d m → g * m < d.
Proof.
  intros Hm Hg. destruct (Nat.lt_ge_cases (g * m) d) as [|Hge]; [done|]. exfalso.
  pose proof (counters_bound d m g Hm Hge). lia.
Qed.

(** The shapes that the constructor accepts. *)
Lemma fits_shape w M d p : N.to_nat M = 2 ^ w → leopard_shard_combo_fits (N.of_nat d) (N.of_nat p) M = true →
  leopard_shape w d p (order2 (Nat.max p 1)).
Proof.
  intros HM. unfold leopard_shard_combo_fits. destruct (checked_next_power_of_two (N.of_nat p)) as [m|] eqn:Hm; [|done].
  destruct ((N.of_nat d =? 0)%N || (N.of_nat p =? 0)%N || (m =? 0)%N || (M <? m)%N) eqn:Hz; [done|].
  apply orb_false_iff in Hz as [[[Hd%N.eqb_neq Hp%N.eqb_neq]%orb_false_iff Hm0%N.eqb_neq]%orb_false_iff HmM%N.ltb_ge].
  set (K := order2 (Nat.max p 1)).
  assert (m = N.of_nat (2 ^ K)) as ->.
  { unfold K. replace (Nat.max p 1) with p by lia. rewrite <- ceil_pow2_order. unfold ceil_pow2.
    unfold checked_next_power_of_two in Hm. destruct (_ <=? _)%N in Hm; [|done]. injection Hm as <-. lia. }
  pose proof (order2_covers (Nat.max p 1)) as Hcov. fold K in Hcov.
  set (m := 2 ^ K) in *. set (q := div_ceil (N.of_nat d) (N.of_nat m)) in *.
  unfold checked_mul. destruct (_ <=? _)%N; [|done]. intros Hle%N.leb_le. unfold saturating_sub in *.
  assert (d ≤ N.to_nat q * m) as Hq.
  { unfold q, div_ceil. pose proof (N.div_mod' (N.of_nat d) (N.of_nat m)) as Hdm.
    destruct (N.eqb_spec (N.of_nat d mod N.of_nat m) 0).
    - enough (N.of_nat d <= (N.of_nat d / N.of_nat m + 0) * N.of_nat m)%N by nia. nia.
    - pose proof (N.mod_lt (N.of_nat d) (N.of_nat m) ltac:(lia)).
      enough (N.of_nat d <= (N.of_nat d / N.of_nat m + 1) * N.of_nat m)%N by nia. nia. }
  pose proof (counters_bound d m (N.to_nat q) ltac:(lia) Hq) as Hnb.
  split_and!; [lia|lia|lia|]. fold m. rewrite <- HM. nia.
Qed.

Lemma slice_from_ok {E A} (l : list A) from : from ≤ length l → slice_from (E:=E) l from = Ok (drop from l).
Proof. intros H. unfold slice_from. rewrite slice_ok by lia. by rewrite take_ge by len. Qed.

Section plans.
Context {T : Type} (slog : nat → T).

Definition encode_plans (d p K : nat) : EncodePlans T :=
  let m := 2 ^ K in
  mk_encode_plans (ifft_plan slog 1 K (Nat.min d m)) (fft_plan slog K p)
    (tabulate (d / m - 1) (λ g, ifft_plan slog (g + 2) K m))
    (if (m <? d) && negb (d mod m =? 0) then Some (ifft_plan slog (d / m + 1) K (d mod m)) else None).

Context {E : Type} (w : nat) (skews : list T) {ST : SkewTable w skews slog}.

(** All skews but one have a place in the table. *)
Lemma skews_length : 0 < w → 2 ^ w - 1 ≤ length skews.
Proof.
  intros Hw. assert (2 ^ w = 2 * 2 ^ (w - 1)) as Hp by (rewrite <- Nat.pow_succ_r'; f_equal; lia).
  pose proof (pow2_pos (w - 1)) as H1.
  pose proof (skew_lookup (w:=w) (skews:=skews) (slog:=slog) 0 (2 ^ (w - 1) - 1)) as H. rewrite Nat.pow_0_r in H.
  specialize (H ltac:(lia)). apply lookup_lt_Some in H. lia.
Qed.

(** The skews of the group behind [k] blocks. *)
Lemma group_skews K k : (k + 2) * 2 ^ K ≤ 2 ^ w →
  slice_from (E:=E) (drop (2 ^ K - 1) skews) (k * 2 ^ K) = Ok (drop ((k + 1) * 2 ^ K - 1) skews).
Proof.
  intros H. pose proof (pow2_pos K). assert (0 < w) as Hw by (destruct w; [simpl in H; nia|lia]).
  pose proof (skews_length Hw). rewrite slice_from_ok by (rewrite length_drop; nia).
  rewrite drop_drop. do 2 f_equal. nia.
Qed.

Lemma later_plans_ok d K n : ∀ k fuel plans,
  (k + n) * 2 ^ K ≤ d → d < (k + n + 1) * 2 ^ K → (k + n + 1) * 2 ^ K ≤ 2 ^ w → n < fuel →
  later_plans_loop (E:=E) fuel (2 ^ K) d (drop (2 ^ K - 1) skews) (k * 2 ^ K) (k * 2 ^ K) plans
  = Ok (plans ++ tabulate n (λ g, ifft_plan slog (k + g + 1) K (2 ^ K)), (k + n) * 2 ^ K).
Proof.
  pose proof (pow2_pos K) as Hp. induction n as [|n IH]; intros k fuel plans H1 H2 H3 Hf;
    (destruct fuel as [|fuel]; [lia|]); cbn [later_plans_loop].
  - rewrite (proj2 (Nat.leb_gt _ _)) by lia. by rewrite Nat.add_0_r, app_nil_r.
  - rewrite (proj2 (Nat.leb_le _ _)) by nia. rewrite group_skews by nia. cbn [obind].
    rewrite (build_ifft_plan_ok w skews slog) by nia. cbn [obind].
    replace (k * 2 ^ K + 2 ^ K) with (S k * 2 ^ K) by lia.
    rewrite IH by lia. rewrite tabulate_S, <- app_assoc, Nat.add_0_r. cbn [app].
    replace (S k + n) with (k + S n) by lia. do 4 f_equal.
    apply tabulate_ext. intros g _. f_equal. lia.
Qed.

Lemma encode_plans_new_ok d p K driver : leopard_shape w d p K →
  driver_m driver = 2 ^ K → driver_mtrunc driver = Nat.min d (2 ^ K) →
  driver_last_count driver = d mod 2 ^ K → driver_skew_offset driver = 2 ^ K - 1 →
  encode_plans_new (E:=E) d p driver skews = Ok (encode_plans d p K).
Proof.
  intros Hsh Hm Hmt Hlast Hoff. destruct (leopard_shape_order w d p K Hsh) as (HK & Hfit & Hg).
  destruct Hsh as (Hd & Hp & HpK & Hpad). pose proof (pow2_pos K) as HP.
  unfold encode_plans_new. rewrite Hm, Hmt, Hlast, Hoff. pose proof (skews_length ltac:(lia)).
  rewrite slice_from_ok by lia. cbn [obind].
  pose proof (build_ifft_plan_ok (E:=E) w skews slog 1 K (Nat.min d (2 ^ K)) ltac:(lia) ltac:(nia) ltac:(lia)) as Hfirst.
  rewrite Nat.mul_1_l in Hfirst. rewrite Hfirst. cbn [obind].
  rewrite (build_fft_plan_ok w skews slog) by lia. cbn [obind]. unfold encode_plans.
  pose proof (Nat.div_mod_eq d (2 ^ K)) as Hdm. pose proof (Nat.mod_upper_bound d (2 ^ K) ltac:(lia)) as Hr.
  pose proof (nblocks_div d (2 ^ K) HP) as Hnb.
  destruct (Nat.ltb_spec (2 ^ K) d) as [Hlt|Hge]; cbn [andb].
  - assert (1 ≤ d / 2 ^ K) as Hq by (apply Nat.div_le_lower_bound; lia).
    assert ((d / 2 ^ K + 1) * 2 ^ K ≤ 2 ^ w) as Hfull by (destruct (Nat.eqb_spec (d mod 2 ^ K) 0); nia).
    pose proof (later_plans_ok d K (d / 2 ^ K - 1) 1 (S d) []) as Hlater. rewrite Nat.mul_1_l in Hlater.
    rewrite Hlater by lia || nia. cbn [obind app].
    replace (1 + (d / 2 ^ K - 1)) with (d / 2 ^ K) by lia.
    destruct (Nat.eqb_spec (d mod 2 ^ K) 0) as [H0|H0]; cbn [negb obind].
    + do 2 f_equal. apply tabulate_ext. intros g _. f_equal. lia.
    + rewrite group_skews by nia. cbn [obind].
      rewrite (build_ifft_plan_ok w skews slog) by nia. cbn [obind].
      do 2 f_equal. apply tabulate_ext. intros g _. f_equal. lia.
  - cbn [obind]. replace (d / 2 ^ K - 1) with 0; [done|].
    assert (d / 2 ^ K ≤ 1); [|lia]. apply Nat.lt_succ_r, Nat.Div0.div_lt_upper_bound. lia.
Qed.
End plans.

(** ** One chunk *)
Section chunk.
Context {F : Field} {FL : FieldLaws F} (w : nat) (pt : nat → Elem) {CP : CantorPoints F w pt}.
Context {E D T : Type} (slog : nat → T).
Context (ifft : list D → IfftPlan T → list (list Elem) → outcome E (list (list Elem))).
Context (xor : nat → list (list Elem) → list (list Elem) → outcome E (list (list Elem))).
Context (fft : FftPlan T → list (list Elem) → outcome E (list (list Elem))).
Context (d p K len : nat) (data : list D) (src : nat → list Elem).
Implicit Types (s t : nat → list Elem) (b g r : nat).
#[local] Abbreviation emb := (lanes_emb (2 ^ K)).
#[local] Abbreviation good := (lanes_good len).
#[local] Abbreviation limit_of g := (Nat.min (d - g * 2 ^ K) (2 ^ K)).

(** Element [b] of the chunk of shard [i], zero behind the last shard. *)
Definition data_elem b (i : nat) : Elem := if decide (i < d) then cell (src i) b else zero.

(** The steps: group [g] is interpolated on the block of points [g + 1], lanes are added,
    the parity block is evaluated. *)
Class ChunkSteps : Prop := {
  step_ifft g t : g < nblocks d (2 ^ K) → good t →
    ∃ u, ifft (drop (g * 2 ^ K) data) (ifft_plan slog (g + 1) K (limit_of g)) (emb t) = Ok (emb u) ∧
      good u ∧ ∀ b r, b < len → r < 2 ^ K →
        nval K (column b u) (pt ((g + 1) * 2 ^ K + r)) = data_elem b (g * 2 ^ K + r);
  step_xor t s : good t → good s →
    ∃ u, xor (2 ^ K) (emb t) (emb s) = Ok (emb u) ∧ good u ∧
      ∀ b j, b < len → j < 2 ^ K → column b u j = add (column b s j) (column b t j);
  step_fft s : good s →
    ∃ u, fft (fft_plan slog K p) (emb s) = Ok (emb u) ∧ good u ∧
      ∀ b i, b < len → i < p → column b u i = nval K (column b s) (pt i);
}.

(** The first [G] groups are interpolated, [Q g] on the block of points [g + 1]. *)
Definition groups_at (G b : nat) (Q : nat → nat → Elem) : Prop :=
  ∀ g r, g < G → r < 2 ^ K →
    nval K (Q g) (pt ((g + 1) * 2 ^ K + r)) = data_elem b (g * 2 ^ K + r).

(** The sum of the first [G] groups. *)
Definition sums_groups (G : nat) s : Prop :=
  ∀ b, b < len → ∃ Q, groups_at G b Q ∧ ∀ j, j < 2 ^ K → column b s j = bsum G (λ g, Q g j).

(** The work space: the lanes of the sum, then those of the current group. *)
Definition work_of {A} (s t : nat → list A) : list (list A) := lanes_emb (2 ^ K) s ++ lanes_emb (2 ^ K) t.

Lemma length_emb {A} (s : nat → list A) : length (lanes_emb (2 ^ K) s) = 2 ^ K.
Proof. apply length_tabulate. Qed.

Lemma work_parts s t : take (2 ^ K) (work_of s t) = emb s ∧ drop (2 ^ K) (work_of s t) = emb t ∧
  slice (E:=E) (work_of s t) 0 (2 ^ K) = Ok (emb s) ∧
  ∀ s', splice (work_of s t) 0 (emb s') = work_of s' t.
Proof.
  unfold work_of. rewrite take_app_length', drop_app_length', slice_0_app by (by rewrite length_emb).
  split_and!; [done..|]. intros s'. unfold splice. rewrite take_0, length_emb, Nat.add_0_l.
  by rewrite drop_app_length' by (by rewrite length_emb).
Qed.

Context {CS : ChunkSteps} (Hsh : leopard_shape w d p K) (Hdata : length data = d).

(** A later group is added to the sum. *)
Lemma group_added g s t : g < nblocks d (2 ^ K) → good s → good t → sums_groups g s →
  ∃ s' t', encode_group ifft xor (2 ^ K) data (ifft_plan slog (g + 1) K (limit_of g)) (g * 2 ^ K) (work_of s t)
      = Ok (work_of s' t') ∧ good s' ∧ good t' ∧ sums_groups (S g) s'.
Proof.
  intros Hg Hs Ht Hsum. destruct (step_ifft g t Hg Ht) as (u & Hu & Hgood & HR).
  destruct (step_xor u s Hgood Hs) as (s' & Hxor & Hs' & Hcolx). exists s', u. split_and!; [|done..|].
  - unfold encode_group. rewrite slice_from_ok.
    + destruct (work_parts s t) as (-> & -> & _). cbn [obind]. rewrite Hu. cbn [obind ifft_m ifft_plan].
      by rewrite Hxor.
    + rewrite Hdata. pose proof (nblocks_lt d (2 ^ K) g (pow2_pos K) Hg). lia.
  - intros b Hb. destruct (Hsum b Hb) as (Q & HQ & Hcol).
    exists (λ g', if decide (g' = g) then column b u else Q g'). split.
    + intros g' r Hg' Hr. case_decide as Hgg; [subst g'; by apply HR|apply HQ; [lia|done]].
    + intros j Hj. cbn [bsum]. rewrite decide_True by done.
      rewrite Hcolx, Hcol by done. f_equal. apply bsum_ext. intros g' Hg'. by rewrite decide_False by lia.
Qed.

(** All the groups. *)
Lemma later_groups s t : d / 2 ^ K - 1 < nblocks d (2 ^ K) → good s → good t → sums_groups 1 s →
  ∃ s' t', for_each (later_ifft_plans (encode_plans slog d p K)) (λ plan '(work, group_offset),
      let! work := encode_group ifft xor (2 ^ K) data plan group_offset work in
      Ok (work, group_offset + 2 ^ K)) (work_of s t, 2 ^ K)
    = Ok (work_of s' t', (d / 2 ^ K - 1 + 1) * 2 ^ K) ∧
    good s' ∧ good t' ∧ sums_groups (d / 2 ^ K - 1 + 1) s'.
Proof.
  intros Hn Hs Ht Hsum. pose proof (pow2_pos K) as HP.
  pose proof (Nat.div_mod_eq d (2 ^ K)) as Hdm.
  set (l := later_ifft_plans (encode_plans slog d p K)). set (body := λ plan (st : _ * nat), _).
  assert (length l = d / 2 ^ K - 1) as Hl by apply length_tabulate.
  assert (ensures (for_each l body (work_of s t, 2 ^ K))
    (λ out, ∃ s' t', out = (work_of s' t', (length l + 1) * 2 ^ K) ∧ good s' ∧ good t' ∧
       sums_groups (length l + 1) s') (λ _, False)) as Hloop.
  { apply (for_each_ensures l body (λ k out, ∃ s' t', out = (work_of s' t', (k + 1) * 2 ^ K) ∧
      good s' ∧ good t' ∧ sums_groups (k + 1) s')).
    - exists s, t. by rewrite Nat.add_0_l, Nat.mul_1_l.
    - intros k plan out Hk (s' & t' & -> & Hs' & Ht' & Hsum').
      pose proof (lookup_lt_Some _ _ _ Hk) as Hkl. rewrite Hl in Hkl.
      unfold l in Hk. cbn [later_ifft_plans encode_plans] in Hk. rewrite lookup_tabulate in Hk by done.
      injection Hk as <-.
      destruct (group_added (k + 1) s' t' ltac:(lia) Hs' Ht' Hsum') as (s2 & t2 & Hrun & Hs2 & Ht2 & Hsum2).
      replace (limit_of (k + 1)) with (2 ^ K) in Hrun by nia.
      replace (k + 2) with (k + 1 + 1) by lia. unfold body. rewrite Hrun. cbn.
      exists s2, t2. split_and!; [|done|done|]; [f_equal; lia|]. by replace (S k + 1) with (S (k + 1)) by lia. }
  apply ensures_noerr in Hloop as (out & Hrun & s' & t' & -> & Hs' & Ht' & Hsum'). rewrite Hl in *.
  by exists s', t'.
Qed.

(** The rest, if there is one. *)
Lemma last_group s t : good s → good t → sums_groups (d / 2 ^ K - 1 + 1) s →
  ∃ s' t', match remainder_ifft_plan (encode_plans slog d p K) with
      | Some plan => encode_group ifft xor (2 ^ K) data plan ((d / 2 ^ K - 1 + 1) * 2 ^ K) (work_of s t)
      | None => Ok (work_of s t) end = Ok (work_of s' t') ∧
    good s' ∧ good t' ∧ sums_groups (nblocks d (2 ^ K)) s'.
Proof.
  intros Hs Ht Hsum. pose proof (pow2_pos K) as HP. destruct Hsh as (Hd & _).
  pose proof (nblocks_div d (2 ^ K) HP) as Hnb. pose proof (Nat.div_mod_eq d (2 ^ K)) as Hdm.
  pose proof (Nat.mod_upper_bound d (2 ^ K) ltac:(lia)) as Hr.
  cbn [remainder_ifft_plan encode_plans].
  destruct (Nat.ltb_spec (2 ^ K) d) as [Hlt|Hge]; cbn [andb].
  - assert (1 ≤ d / 2 ^ K) as Hq by (apply Nat.div_le_lower_bound; lia).
    destruct (Nat.eqb_spec (d mod 2 ^ K) 0) as [H0|H0]; cbn [negb].
    + exists s, t. split_and!; [done..|]. rewrite Hnb. by replace (d / 2 ^ K) with (d / 2 ^ K - 1 + 1) by lia.
    + destruct (group_added (d / 2 ^ K) s t) as (s2 & t2 & Hrun & Hs2 & Ht2 & Hsum2);
        [lia|done|done|by replace (d / 2 ^ K) with (d / 2 ^ K - 1 + 1) by lia|].
      replace (limit_of (d / 2 ^ K)) with (d mod 2 ^ K) in Hrun by lia.
      replace (d / 2 ^ K - 1 + 1) with (d / 2 ^ K) by lia. exists s2, t2.
      rewrite Hnb. by replace (d / 2 ^ K + 1) with (S (d / 2 ^ K)) in * by lia.
  - exists s, t. split_and!; [done..|].
    assert (d / 2 ^ K - 1 = 0) as H1.
    { assert (d / 2 ^ K ≤ 1); [|lia]. apply Nat.lt_succ_r, Nat.Div0.div_lt_upper_bound. lia. }
    rewrite H1 in Hsum. replace (nblocks d (2 ^ K)) with 1; [done|].
    destruct (Nat.eqb_spec (d mod 2 ^ K) 0); nia.
Qed.

(** The polynomial of all groups is evaluated on the parity block. *)
Lemma encode_chunk_ok s t : good s → good t →
  ∃ s' t', encode_chunk ifft xor fft (2 ^ K) (encode_plans slog d p K) data (work_of s t)
      = Ok (work_of s' t') ∧ good s' ∧ good t' ∧
    ∀ b, b < len → leopard_word pt (order2 (2 ^ K + d)) K d p (λ i, cell (src i) b) (column b s').
Proof.
  intros Hs Ht. destruct (leopard_shape_order w d p K Hsh) as (HK & Hfit & Hg).
  pose proof Hsh as (Hd & Hp & HpK & Hpad). pose proof (pow2_pos K) as HP.
  pose proof (nblocks_div d (2 ^ K) HP) as Hnb.
  destruct (step_ifft 0 s Hg Hs) as (s0 & Hrun0 & Hs0 & HR0).
  rewrite Nat.mul_0_l, drop_0, Nat.sub_0_r in Hrun0. change (0 + 1) with 1 in Hrun0.
  assert (sums_groups 1 s0) as Hsum0.
  { intros b Hb. exists (λ _, column b s0). split; [|intros j _; cbn [bsum]; by rewrite add_0_l].
    intros g r Hg1 Hr1. replace g with 0 by lia. by apply HR0. }
  destruct (later_groups s0 t) as (s1 & t1 & Hrun1 & Hs1 & Ht1 & Hsum1);
    [destruct (Nat.eqb_spec (d mod 2 ^ K) 0); lia|done|done|done|].
  destruct (last_group s1 t1 Hs1 Ht1 Hsum1) as (s2 & t2 & Hrun2 & Hs2 & Ht2 & Hsum2).
  destruct (step_fft s2 Hs2) as (s3 & Hrun3 & Hs3 & HR3).
  exists s3, t2. split_and!; [|done|done|].
  - unfold encode_chunk. destruct (work_parts s t) as (_ & _ & -> & Hsp). cbn [obind].
    cbn [first_ifft_plan encode_plans]. rewrite Hrun0. cbn [obind]. rewrite Hsp, Hrun1. cbn [obind].
    rewrite Hrun2. cbn [obind]. destruct (work_parts s2 t2) as (_ & _ & -> & Hsp2).
    cbn [obind encode_fft_plan encode_plans]. rewrite Hrun3. cbn [obind]. by rewrite Hsp2.
  - intros b Hb. destruct (Hsum2 b Hb) as (Q & HQ & Hcol).
    apply (groups_word w pt _ K d p (nblocks d (2 ^ K)) Q); [apply order2_least; lia| |done|done| |].
    + pose proof (order2_covers (2 ^ K + d)) as Hcov. set (k := order2 (2 ^ K + d)) in *.
      assert (K ≤ k) as HKk by (apply (Nat.pow_le_mono_r_iff 2); lia).
      assert (2 ^ k = 2 ^ (k - K) * 2 ^ K) as Hpow by (rewrite <- Nat.pow_add_r; f_equal; lia).
      pose proof (pow2_pos (k - K)).
      pose proof (counters_bound d (2 ^ K) (2 ^ (k - K) - 1) HP ltac:(nia)) as Hb2. nia.
    + intros g r Hg2 Hr. exact (HQ g r Hg2 Hr).
    + intros i Hi. rewrite HR3 by done. by apply nval_ext.
Qed.
End chunk.

(** A word depends on the shards that there are. *)
Lemma leopard_word_ext {F : Field} (pt : nat → Elem) k K d p (data data' parity parity' : nat → Elem) :
  (∀ i, i < d → data i = data' i) → (∀ i, i < p → parity i = parity' i) →
  leopard_word pt k K d p data parity → leopard_word pt k K d p data' parity'.
Proof.
  intros Hd Hp (c & H1 & H2 & H3 & H4). exists c. split_and!; [done| | |done]; intros i Hi.
  - by rewrite H2, Hp by done.
  - by rewrite H3, Hd by done.
Qed.

(** ** The loop over the chunks *)
Lemma lanes_of {A} (x0 : A) N len (l : list (list A)) : length l = N → Forall (λ x, length x = len) l →
  ∃ s, l = lanes_emb N s ∧ lanes_good len s.
Proof.
  intros Hl Hlen. exists (λ i, match l !! i with Some x => x | None => replicate len x0 end). split.
  - apply eq_tabulate; [done|]. intros i Hi.
    destruct (lookup_lt_is_Some_2 l i ltac:(lia)) as [x Hx]. by rewrite Hx.
  - intros i. destruct (l !! i) as [x|] eqn:Hx; [|len]. by apply (Forall_lookup_1 _ _ _ _ Hlen Hx).
Qed.

Lemma lanes_forall {A} N len (s : nat → list A) : lanes_good len s → Forall (λ x, length x = len) (lanes_emb N s).
Proof. intros Hs. unfold lanes_emb, tabulate. apply Forall_map, Forall_forall. intros i _. apply Hs. Qed.

Section loop.
Context {E A S : Type} (K cap : nat).
Implicit Types (s t L : nat → list A).

(** The views of the work space. *)
Lemma lane_views_work L size : lanes_good cap L → size ≤ cap →
  ∃ s t, lane_views (2 ^ K * 2) size (lanes_emb (2 ^ K * 2) L) = work_of K s t ∧
    lanes_good size s ∧ lanes_good size t.
Proof.
  intros HL Hsize. exists (λ i, take size (L i)), (λ i, take size (L (2 ^ K + i))). split_and!.
  - unfold lane_views, work_of, lanes_emb. rewrite take_ge by (rewrite length_tabulate; lia).
    rewrite map_tabulate. replace (2 ^ K * 2) with (2 ^ K + 2 ^ K) by lia. by rewrite tabulate_app.
  - intros i. rewrite length_take, HL. lia.
  - intros i. rewrite length_take, HL. lia.
Qed.

Lemma put_views_work s t size L : size ≤ cap →
  lanes_good size s → lanes_good size t → lanes_good cap L →
  ∃ L', put_views (work_of K s t) (lanes_emb (2 ^ K * 2) L) = lanes_emb (2 ^ K * 2) L' ∧ lanes_good cap L'.
Proof.
  intros Hsize Hs Ht HL. set (v i := if decide (i < 2 ^ K) then s i else t (i - 2 ^ K)).
  assert (work_of K s t = tabulate (2 ^ K * 2) v) as ->.
  { replace (2 ^ K * 2) with (2 ^ K + 2 ^ K) by lia. rewrite tabulate_app. unfold work_of, lanes_emb. f_equal.
    - apply tabulate_ext. intros i Hi. unfold v. by rewrite decide_True by done.
    - apply tabulate_ext. intros i Hi. unfold v. rewrite decide_False by lia. f_equal. lia. }
  assert (∀ i, length (v i) = size) as Hv by (intros i; unfold v; case_decide; auto).
  exists (λ i, v i ++ drop size (L i)). split.
  - unfold put_views, lanes_emb. rewrite zip_with_tabulate, length_tabulate, drop_ge, app_nil_r
      by (rewrite length_tabulate; lia).
    apply tabulate_ext. intros i _. by rewrite Hv.
  - intros i. rewrite length_app, length_drop, Hv, HL. lia.
Qed.

(** The chunks keep an invariant of the state, at offsets that are multiples of [unit]. *)
Context (body : nat → nat → list (list A) → S → outcome E (list (list A) * S)).
Context (unit total chunk_size : nat) (Inv : nat → S → Prop).
Context (Hunit : Nat.divide unit total) (Hunit' : Nat.divide unit chunk_size).
Context (Hpos : 0 < chunk_size) (Hcap : cap = Nat.min total chunk_size).
Context (Hbody : ∀ offset size s t st, offset + size ≤ total → 0 < size → size ≤ cap →
  Nat.divide unit offset → Nat.divide unit size → lanes_good size s → lanes_good size t → Inv offset st →
  ∃ s' t' st', body offset (offset + size) (work_of K s t) st = Ok (work_of K s' t', st') ∧
    lanes_good size s' ∧ lanes_good size t' ∧ Inv (offset + size) st').

Lemma lane_chunks_ok fuel : ∀ offset L st, total - offset < fuel → offset ≤ total → Nat.divide unit offset →
  lanes_good cap L → Inv offset st →
  ∃ L' st', lane_chunks body fuel total chunk_size (2 ^ K * 2) cap offset (lanes_emb (2 ^ K * 2) L) st
      = Ok (lanes_emb (2 ^ K * 2) L', st') ∧ lanes_good cap L' ∧ Inv total st'.
Proof.
  induction fuel as [|fuel IH]; intros offset L st Hf Hoff Hdiv HL Hst; [lia|]. cbn [lane_chunks].
  destruct (Nat.ltb_spec offset total) as [Hlt|Hge].
  2:{ exists L, st. assert (offset = total) as -> by lia. done. }
  cbv zeta. set (stop := Nat.min (offset + chunk_size) total). set (size := stop - offset).
  assert (size ≤ cap ∧ 0 < size ∧ stop = offset + size) as (Hsc & Hs0 & Hstop) by (unfold size, stop; lia).
  replace (if size <? cap then size else cap) with size by (destruct (Nat.ltb_spec size cap); lia).
  assert (Nat.divide unit stop) as Hds.
  { unfold stop. destruct (Nat.min_dec (offset + chunk_size) total) as [-> | ->]; [|done].
    by apply Nat.divide_add_r. }
  assert (Nat.divide unit size) as Hdsz by (by apply Nat.divide_sub_r).
  destruct (lane_views_work L size HL Hsc) as (s & t & -> & Hs & Ht).
  destruct (Hbody offset size s t st) as (s' & t' & st' & Hrun & Hs' & Ht' & Hinv); [lia|done..|].
  rewrite Hstop, Hrun. cbn [obind].
  destruct (put_views_work s' t' size L Hsc Hs' Ht' HL) as (L' & -> & HL').
  apply IH; [lia|lia| |done|done]. by rewrite <- Hstop.
Qed.
End loop.

(** ** The caches *)
Section caches.
Context {T B : Type} (slog : nat → T) (fit : nat * nat → B → Prop).

(** Plans of their key, buffers of their size, nothing about contents. *)
Definition encode_caches_ok (caches : EncodeCaches T B) : Prop :=
  two_inv (plan_cache caches) ∧ two_inv (buffer_cache caches) ∧
  (∀ key plans, holds (plan_cache caches) key plans →
     plans = encode_plans slog key.1 key.2 (order2 (Nat.max key.2 1))) ∧
  (∀ key buffers, holds (buffer_cache caches) key buffers → fit key buffers).

Lemma new_caches_ok plan_budget buffer_budget :
  encode_caches_ok (mk_encode_caches (two_new plan_budget) (two_new buffer_budget)).
Proof.
  split_and!; [apply two_new_inv|apply two_new_inv| |];
    intros key v (x & [(H & _)|(H & _)]); done.
Qed.

Context {E S : Type} (d p : nat) (build : outcome E (EncodePlans T)) (fresh : B) (buffer_key : nat * nat).
Context (run : EncodePlans T → B → S → outcome E (B * S)) (Q : S → Prop).
#[local] Abbreviation plans := (encode_plans slog d p (order2 (Nat.max p 1))).
Context (Hbuild : build = Ok plans) (Hfresh : fit buffer_key fresh).

Lemma encode_cached_ok cacheable key_of buffer_bytes plan_bytes caches st : encode_caches_ok caches →
  (∀ buffers, fit buffer_key buffers → ∃ buffers' st', run plans buffers st = Ok (buffers', st') ∧
     fit (key_of buffers') buffers' ∧ Q st') →
  ∃ caches' st', encode_cached cacheable (d, p) buffer_key build fresh run key_of buffer_bytes plan_bytes caches st
      = Ok (caches', st') ∧ encode_caches_ok caches' ∧ Q st'.
Proof.
  intros (Hpi & Hbi & Hpc & Hbc) Hrun. unfold encode_cached.
  destruct (take_keeps (plan_cache caches) (d, p)
    (λ key ps, ps = encode_plans slog key.1 key.2 (order2 (Nat.max key.2 1))) Hpi Hpc) as (Hpi' & Hpc' & Hpv).
  destruct (take_keeps (buffer_cache caches) buffer_key fit Hbi Hbc) as (Hbi' & Hbc' & Hbv).
  destruct (two_take (plan_cache caches) (d, p)) as [cplans pc'].
  destruct (two_take (buffer_cache caches) buffer_key) as [cbuf bc']. cbn [fst snd] in *.
  match goal with |- context [let! ' (_, _) := ?q in _] =>
    replace q with (Ok (E:=E) (plans, if cacheable then pc' else plan_cache caches)) end.
  2:{ rewrite Hbuild. destruct cacheable; [|done]. destruct cplans as [ps|]; [|done]. by rewrite (Hpv ps eq_refl). }
  cbn [obind]. destruct cacheable.
  - destruct (Hrun (match cbuf with Some b => b | None => fresh end)) as (b' & st' & -> & Hfit & HQ);
      [destruct cbuf; auto|]. cbn [obind]. eexists _, st'. split_and!; [reflexivity| |done].
    destruct (insert_keeps pc' (d, p) plans (plan_bytes plans) _ Hpi' Hpc' eq_refl).
    destruct (insert_keeps bc' (key_of b') b' (buffer_bytes b') fit Hbi' Hbc' Hfit). by split_and!.
  - destruct (Hrun fresh Hfresh) as (b' & st' & -> & Hfit & HQ). cbn [obind].
    eexists _, st'. by split_and!.
Qed.
End caches.
