(* ===== verification/LeoFlat.v ===== *)
(** * Transforms of the flat work space of a decoder

    What the decoders of both Leopard engines do to the flat work space
    ([src/core/leopard_gf8/decode.rs], [leopard_gf16/decode.rs]): radix-4 blocks on the first
    [size] elements of the lanes, the two transforms over the plans, and the formal derivative.
    The proofs say what this does to the columns: the inverse transform interpolates,
    the forward transform evaluates, the derivative of a polynomial is added to it. *)

From Stdlib Require Import NArith Lia List Bool.
From stdpp Require Import base numbers list.
From S2P Require Import Prelude Fields LinAlg Lch LeoStages LeoWalsh LeoButterfly LeoPlan LeoDit LeoGroup.

(** ** Views of lanes *)
Section prefix_code.
Context {A : Type} (size : nat).
Implicit Types (a b c d x y lane : list A).

(** [get_pair_mut_flat]: a step on the first [size] elements of two lanes. *)
Definition on_prefix (f : list A → list A → list A * list A) x y : list A * list A :=
  let '(x', y') := f (take size x) (take size y) in (x' ++ drop size x, y' ++ drop size y).

(** The same on four lanes. *)
Definition on_prefix4 (f : list A → list A → list A → list A → list A * list A * list A * list A) a b c d
  : list A * list A * list A * list A :=
  let '(a', b', c', d') := f (take size a) (take size b) (take size c) (take size d) in
  (a' ++ drop size a, b' ++ drop size b, c' ++ drop size c, d' ++ drop size d).

(** [work.lane_mut(i)[..size].fill(0)] *)
Definition zero_prefix (zero : A) lane : list A := replicate size zero ++ drop size lane.
End prefix_code.

Section code.
Context {E A T : Type} (zero : A) (dit2 idit2 : T → list A → list A → list A * list A).
Context (dit4 : TransformDir → T → T → T →
  list A → list A → list A → list A → list A * list A * list A * list A).
(** [lo ^= hi] on the views of two lanes. *)
Context (add_pair : nat → nat → list (list A) → list (list A)).
Context (size n : nat).
Implicit Types (work : list (list A)) (dir : TransformDir).

Definition flat_dit2 (log_m : T) : list A → list A → list A * list A := on_prefix size (dit2 log_m).
Definition flat_idit2 (log_m : T) : list A → list A → list A * list A := on_prefix size (idit2 log_m).

Definition dit4_decode_direct dir work (a dist : nat) (log_m01 log_m23 log_m02 : T) : outcome E (list (list A)) :=
  four_lanes (on_prefix4 size (dit4 dir log_m01 log_m23 log_m02)) work a (a + dist) (a + dist * 2) (a + dist * 3).

Definition dit4_decode_at dir work (base dist : nat) (log_m01 log_m23 log_m02 : T) : outcome E (list (list A)) :=
  for_range 0 dist (λ i work,
    let a := base + i in
    if length work <=? a + dist * 3
    then Ok (dit4_pairwise_one flat_dit2 flat_idit2 dir work a dist log_m01 log_m23 log_m02)
    else dit4_decode_direct dir work a dist log_m01 log_m23 log_m02) work.

Definition decode_quad_stage dir (block : Stage4Block T) work : outcome E (list (list A)) :=
  dit4_decode_at dir work (stage4_r block) (stage4_dist block)
    (stage4_m01 block) (stage4_m23 block) (stage4_m02 block).

(** [if b < n && let Some(..) = get_pair_mut_flat(work, a, b, size)] *)
Definition flat_pair (f : list A → list A → list A * list A) (a b : nat) work : list (list A) :=
  if b <? n then with_pair work a b f else work.

Definition fft_decode_with_plan (plan : FftPlan T) work : outcome E (list (list A)) :=
  run_fft (decode_quad_stage Forward)
    (λ stage work, Ok (flat_pair (flat_dit2 (stage2_m stage)) (stage2_r stage)
       (stage2_r stage + stage2_dist stage) work)) plan work.

Definition zero_flat_lane (i : nat) work : outcome E (list (list A)) :=
  let! lane := index work i in
  let! _ := slice (E:=E) lane 0 size in update work i (zero_prefix size zero lane).

Definition zero_flat_below (i : nat) work : outcome E (list (list A)) :=
  if i <? n then zero_flat_lane i work else Ok work.

Definition ifft_decode_block (mtrunc : nat) (block : Stage4Block T) work : outcome E (list (list A)) :=
  let r := stage4_r block in
  let available := Nat.min (mtrunc - r) 4 in
  let! work := for_range (r + available) (r + 4) zero_flat_below work in
  decode_quad_stage Inverse block work.

Definition ifft_decode_final (stage : Stage2Block T) work : outcome E (list (list A)) :=
  for_range 0 (stage2_dist stage) (λ i work,
    Ok (flat_pair (flat_idit2 (stage2_m stage)) i (i + stage2_dist stage) work)) work.

Definition ifft_decode_with_plan (plan : IfftPlan T) work : outcome E (list (list A)) :=
  let! work :=
    match initial_blocks plan with
    | [] => for_range (ifft_mtrunc plan) (ifft_m plan) zero_flat_lane work
    | blocks =>
        let! work := for_each blocks (ifft_decode_block (ifft_mtrunc plan)) work in
        let! work := for_range (clear_start plan) (ifft_m plan) zero_flat_below work in
        for_each (later_blocks plan) (decode_quad_stage Inverse) work
    end in
  match ifft_final plan with
  | Some stage => ifft_decode_final stage work
  | None => Ok work
  end.

Definition derivative_width (i : nat) : nat := Nat.shiftr (Nat.lxor i (i - 1) + 1) 1.

Definition derivative_step (i : nat) work : outcome E (list (list A)) :=
  let width := derivative_width i in
  for_range 0 width (λ j work,
    let lo := i - width + j in
    let hi := i + j in
    Ok (if (hi <? n) && (lo <? n) then add_pair lo hi work else work)) work.

Definition formal_derivative work : outcome E (list (list A)) := for_range 1 n derivative_step work.
End code.

#[local] Existing Instance elem_inhabited.

(** ** Butterflies on views *)
Section views.
Context {A : Type}.
Implicit Types (x y s t : list A).

Lemma on_prefix_app size f x y s t : length x = size → length y = size →
  on_prefix size f (x ++ s) (y ++ t) = ((f x y).1 ++ s, (f x y).2 ++ t).
Proof.
  intros Hx Hy. unfold on_prefix. rewrite !take_app_length', !drop_app_length' by done. by destruct (f x y).
Qed.

Lemma on_prefix4_app size f (x0 x1 x2 x3 t0 t1 t2 t3 : list A) k :
  length x0 = size → length x1 = size → length x2 = size → length x3 = size →
  pick4 (on_prefix4 size f (x0 ++ t0) (x1 ++ t1) (x2 ++ t2) (x3 ++ t3)) k
  = pick4 (f x0 x1 x2 x3) k ++ pick4 (t0, t1, t2, t3) k.
Proof.
  intros H0 H1 H2 H3. unfold on_prefix4. rewrite !take_app_length', !drop_app_length' by done.
  destruct (f x0 x1 x2 x3) as [[[y0 y1] y2] y3]. by destruct k as [|[|[|]]].
Qed.
End views.

Section cells.
Context {F : Field}.
Implicit Types (x y : list Elem) (b len size : nat).

Lemma cell_take n x b : b < n → cell (take n x) b = cell x b.
Proof. intros Hb. unfold cell. by rewrite lookup_take_lt. Qed.

Lemma cell_app_l x y b : b < length x → cell (x ++ y) b = cell x b.
Proof. intros Hb. unfold cell. by rewrite lookup_app_l. Qed.

Lemma zero_prefix_length size len x : size ≤ len → length x = len → length (zero_prefix size zero x) = len.
Proof. intros Hle Hx. unfold zero_prefix. rewrite length_app, length_replicate, length_drop. lia. Qed.

Lemma zero_prefix_cell size x b : b < size → cell (zero_prefix size zero x) b = zero.
Proof.
  intros Hb. unfold zero_prefix. rewrite cell_app_l by (by rewrite length_replicate).
  unfold cell. by rewrite lookup_replicate_2.
Qed.

Lemma zero_prefix_id size x : size ≤ length x → (∀ b, b < size → cell x b = zero) → zero_prefix size zero x = x.
Proof.
  intros Hx Hz. unfold zero_prefix. rewrite <- (take_drop size x) at 2. f_equal.
  apply list_ext_lt; [len|]. intros b Hb. rewrite length_replicate in Hb.
  rewrite lookup_replicate_2, lookup_take_lt by done.
  destruct (lookup_lt_is_Some_2 x b ltac:(lia)) as [y Hy]. specialize (Hz b Hb). unfold cell in Hz.
  rewrite Hy in Hz |- *. cbn in Hz. by subst.
Qed.

(** Butterflies on the first [size] elements of longer lanes. *)
Lemma prefix_lanes {T} (value : T → Elem) (dit2 idit2 : T → list Elem → list Elem → list Elem * list Elem) len size :
  LaneButterflies value dit2 idit2 size size → size ≤ len →
  LaneButterflies value (λ log, on_prefix size (dit2 log)) (λ log, on_prefix size (idit2 log)) len size.
Proof.
  intros LB Hle.
  split; intros log b x y Hx Hy; [pose proof (lane_fwd log b (take size x) (take size y)) as H
                                 |pose proof (lane_inv log b (take size x) (take size y)) as H];
    destruct H as (H1 & H2 & H3); [len..| |len|len|]; unfold on_prefix.
  - destruct (dit2 log _ _) as [x' y']. cbn [fst snd] in *. split_and!; [len..|]. intros Hb.
    rewrite !cell_app_l by lia. rewrite <- H3 by done. by rewrite !cell_take by done.
  - destruct (idit2 log _ _) as [x' y']. cbn [fst snd] in *. split_and!; [len..|]. intros Hb.
    rewrite !cell_app_l by lia. rewrite <- H3 by done. by rewrite !cell_take by done.
Qed.
End cells.

(** ** The transforms on columns *)
Section flat.
Context {F : Field} {FL : FieldLaws F} (w : nat) (pt : nat → Elem) {CP : CantorPoints F w pt}.
Context {E T : Type} (slog : nat → T) (value : T → Elem) {SV : SkewValues w pt slog value}.
Context (dit2 idit2 : T → list Elem → list Elem → list Elem * list Elem).
Context (dit4 : TransformDir → T → T → T → list Elem → list Elem → list Elem → list Elem →
  list Elem * list Elem * list Elem * list Elem).
Context (add_pair : nat → nat → list (list Elem) → list (list Elem)).
Context (size len N : nat) {LB : LaneButterflies value dit2 idit2 size size} (Hsize : size ≤ len).
(** The butterflies of four lanes are made of those of two. *)
Context (Hdit4 : ∀ dir m01 m23 m02 (a b c d : list Elem) k,
  pick4 (dit4 dir m01 m23 m02 a b c d) k = lanes4 dit2 idit2 dir m01 m23 m02 [a; b; c; d] k).
Implicit Types (s t : nat → list Elem) (dir : TransformDir).
#[local] Abbreviation emb := (lanes_emb N).
#[local] Abbreviation good := (lanes_good len).
#[local] Abbreviation fdit2 := (flat_dit2 dit2 size).
#[local] Abbreviation fidit2 := (flat_idit2 idit2 size).
#[local] Abbreviation quad := (decode_quad_stage dit2 idit2 dit4 size).

Lemma flat_butterflies : LaneButterflies value fdit2 fidit2 len size.
Proof. by apply prefix_lanes. Qed.
#[local] Existing Instance flat_butterflies.

Lemma flat_lanes4 dir m01 m23 m02 (x0 x1 x2 x3 t0 t1 t2 t3 : list Elem) k :
  length x0 = size → length x1 = size → length x2 = size → length x3 = size →
  lanes4 fdit2 fidit2 dir m01 m23 m02 [x0 ++ t0; x1 ++ t1; x2 ++ t2; x3 ++ t3] k
  = lanes4 dit2 idit2 dir m01 m23 m02 [x0; x1; x2; x3] k ++ pick4 (t0, t1, t2, t3) k.
Proof.
  intros H0 H1 H2 H3.
  destruct dir; cbn [lanes4 fwd4 inv4]; unfold flat_dit2, flat_idit2.
  - rewrite !on_prefix_app by done.
    destruct (lane_fwd m02 0 x0 x2 H0 H2) as (L0 & L2 & _), (lane_fwd m02 0 x1 x3 H1 H3) as (L1 & L3 & _).
    destruct (dit2 m02 x0 x2) as [y0 y2], (dit2 m02 x1 x3) as [y1 y3].
    cbn [fst snd] in *. rewrite !on_prefix_app by done.
    destruct (dit2 m01 y0 y1), (dit2 m23 y2 y3). by destruct k as [|[|[|]]].
  - rewrite !on_prefix_app by done.
    destruct (lane_inv m01 0 x0 x1 H0 H1) as (L0 & L1 & _), (lane_inv m23 0 x2 x3 H2 H3) as (L2 & L3 & _).
    destruct (idit2 m01 x0 x1) as [y0 y1], (idit2 m23 x2 x3) as [y2 y3].
    cbn [fst snd] in *. rewrite !on_prefix_app by done.
    destruct (idit2 m02 y1 y3), (idit2 m02 y0 y2). by destruct k as [|[|[|]]].
Qed.

(** The direct form of four lanes is the composition of the pairs. *)
Lemma decode_direct_lanes dir m01 m23 m02 (a b c d : list Elem) k :
  length a = len → length b = len → length c = len → length d = len →
  pick4 (on_prefix4 size (dit4 dir m01 m23 m02) a b c d) k = lanes4 fdit2 fidit2 dir m01 m23 m02 [a; b; c; d] k.
Proof.
  intros Ha Hb Hc Hd.
  rewrite <- (take_drop size a), <- (take_drop size b), <- (take_drop size c), <- (take_drop size d).
  rewrite on_prefix4_app, flat_lanes4 by len. by rewrite Hdit4.
Qed.

Lemma decode_quads_run dir : quads_run (E:=E) fdit2 fidit2 len N dir (quad dir).
Proof.
  intros [r dist m01 m23 m02] Hd HN. cbn [stage4_r stage4_dist stage4_m01 stage4_m23 stage4_m02] in *.
  unfold decode_quad_stage, dit4_decode_at.
  cbn [stage4_r stage4_dist stage4_m01 stage4_m23 stage4_m02].
  apply acts_block. intros i Hi. apply (quad_step_acts value fdit2 fidit2 len size N); [done|lia|]. intros s Hs.
  unfold lanes_emb at 1. rewrite length_tabulate, (proj2 (Nat.leb_gt _ _)) by lia.
  unfold dit4_decode_direct, lanes_emb. rewrite four_lanes_step by lia. f_equal.
  apply tabulate_ext. intros k _. rewrite gather4. unfold set4.
  by rewrite !decode_direct_lanes by done.
Qed.

Lemma flat_pair_step f s a b : a < N → b < N → a ≠ b →
  flat_pair N f a b (emb s) = emb (set2 s a b (f (s a) (s b))).
Proof.
  intros Ha Hb Hab. unfold flat_pair. rewrite (proj2 (Nat.ltb_lt _ _)) by done.
  by apply with_pair_tabulate.
Qed.

Lemma flat_pair_acts dir m a dist : 0 < dist → a + dist < N →
  acts (E:=E) emb good
    (λ work, Ok (flat_pair N (match dir with Forward => fdit2 m | Inverse => fidit2 m end) a (a + dist) work))
    (radix_step 2 (step2 (match dir with Forward => fdit2 m | Inverse => fidit2 m end)) dist a).
Proof.
  intros Hd Hr s Hs. set (f := match dir with Forward => _ | Inverse => _ end).
  assert (length (f (s a) (s (a + dist))).1 = len ∧ length (f (s a) (s (a + dist))).2 = len) as [H1 H2].
  { unfold f. destruct dir.
    - by destruct (lane_fwd (dit2:=fdit2) m 0 (s a) (s (a + dist))) as (? & ? & _).
    - by destruct (lane_inv (idit2:=fidit2) m 0 (s a) (s (a + dist))) as (? & ? & _). }
  rewrite flat_pair_step by lia. eexists. split_and!; [done| |].
  - intros j. unfold set2. repeat case_decide; [done|done|apply Hs].
  - apply set2_step. lia.
Qed.

Lemma decode_fft_pairs_run : pairs_run (E:=E) fdit2 fidit2 len N Forward
  (λ stage work, Ok (flat_pair N (fdit2 (stage2_m stage)) (stage2_r stage)
     (stage2_r stage + stage2_dist stage) work)).
Proof.
  intros [r dist m] Hd HN Hdist. cbn [stage2_r stage2_dist stage2_m] in *. subst dist.
  eapply acts_mono; [apply (flat_pair_acts Forward); lia|]. intros s t _. apply step_block.
Qed.

Lemma decode_ifft_pairs_run : pairs_run (E:=E) fdit2 fidit2 len N Inverse (ifft_decode_final idit2 size N).
Proof.
  intros [r dist m] Hd HN Hr. cbn [stage2_r stage2_dist stage2_m] in *. subst r.
  unfold ifft_decode_final. cbn [stage2_r stage2_dist stage2_m].
  apply acts_block. intros i Hi. apply (flat_pair_acts Inverse); lia.
Qed.

(** *** The forward transform *)
Lemma fft_decoder_acts K limit : K ≤ w → limit ≤ 2 ^ K → N = 2 ^ K →
  acts (E:=E) emb good (fft_decode_with_plan dit2 idit2 dit4 size N (fft_plan slog K limit)) (λ s t, ∀ b v,
    b < size → (∀ i, i < 2 ^ K → nval K (column b s) (pt i) = v i) →
    ∀ i, i < limit → column b t i = v i).
Proof.
  intros HK Hlim HN. apply (run_fft_acts w pt slog value fdit2 fidit2 len size N);
    [apply decode_quads_run|exact decode_fft_pairs_run|done|done|lia].
Qed.

(** *** Filling a lane with zeros, as an effect and on a lane that is zero already *)
Lemma zero_flat_lane_ok i s : i < N → good s →
  zero_flat_lane (E:=E) zero size i (emb s)
  = Ok (emb (λ j, if decide (j = i) then zero_prefix size zero (s j) else s j)).
Proof.
  intros Hi Hs. unfold zero_flat_lane, lanes_emb. rewrite index_tabulate by done. cbn [obind].
  rewrite slice_ok by (rewrite ?Hs; lia). cbn [obind]. rewrite update_tabulate by done.
  f_equal. apply tabulate_ext. intros j _. case_decide; [by subst|done].
Qed.

(** Zeros put where there are zeros change nothing. *)
Lemma zeros_keep lo hi (body : nat → list (list Elem) → outcome E (list (list Elem))) s :
  good s → (∀ i, lo ≤ i → i < hi → body i (emb s) = Ok (emb s)) → for_range lo hi body (emb s) = Ok (emb s).
Proof.
  intros Hs Hbody. unfold for_range. remember (hi - lo) as k eqn:Hk. revert lo Hbody Hk.
  induction k as [|k IH]; intros lo Hbody Hk; [done|]. cbn [seq for_each].
  rewrite Hbody by lia. cbn [obind]. apply IH; [|lia]. intros i Hi Hi'. apply Hbody; lia.
Qed.

Lemma zero_lane_keeps i s : i < N → good s → (∀ b, b < size → column b s i = zero) →
  zero_flat_lane (E:=E) zero size i (emb s) = Ok (emb s).
Proof.
  intros Hi Hs Hz. rewrite zero_flat_lane_ok by done. f_equal. apply tabulate_ext. intros j _.
  case_decide; [|done]. subst j. apply zero_prefix_id; [by rewrite Hs|done].
Qed.

Lemma zero_below_keeps i s : good s → (∀ b, b < size → column b s i = zero) →
  zero_flat_below (E:=E) zero size N i (emb s) = Ok (emb s).
Proof.
  intros Hs Hz. unfold zero_flat_below. destruct (Nat.ltb_spec i N); [by apply zero_lane_keeps|done].
Qed.

(** *** The inverse transform *)

(** The first pass. *)
Lemma decode_initial_ok K limit s : N = 2 ^ K → 2 ≤ K → K ≤ w → limit ≤ 2 ^ K → good s →
  (∀ b i, b < size → limit ≤ i → column b s i = zero) →
  ∃ t, (let! work := for_each (plan_pass slog 0 0 limit) (ifft_decode_block zero dit2 idit2 dit4 size N limit) (emb s) in
        for_range (nblocks limit 4 * 4) (2 ^ K) (zero_flat_below (E:=E) zero size N) work) = Ok (emb t) ∧ good t ∧
    ∀ b, b < size → radix_pass (2 ^ 2) (λ q, inv_block pt q) (2 ^ 0)
      (nblocks limit (2 ^ (2 + 0))) (column b s) (column b t).
Proof.
  intros HNK HK HKw Hlim Hs Hz. change (2 ^ (2 + 0)) with 4. change (2 ^ 2) with 4. change (2 ^ 0) with 1.
  pose proof (blocks_within limit 2 K HK Hlim) as Hw. change (2 ^ 2) with 4 in Hw.
  pose proof (pow2_le K w HKw) as H256.
  set (f q := lanes4 fdit2 fidit2 Inverse (slog (4 * (0 + q))) (slog (4 * (0 + q) + 2)) (slog (2 * (0 + q)))).
  set (l := plan_pass slog 0 0 limit). assert (length l = nblocks limit 4) as Hl by apply length_tabulate.
  assert (ensures (for_each l (ifft_decode_block (E:=E) zero dit2 idit2 dit4 size N limit) (emb s))
    (λ out, ∃ t, out = emb t ∧ good t ∧ radix_pass 4 f 1 (length l) s t) (λ _, False)) as Hloop.
  { apply (for_each_ensures l _ (λ k out, ∃ t, out = emb t ∧ good t ∧ radix_pass 4 f 1 k s t)).
    - exists s. split_and!; [done|done|]. split; [lia|done].
    - intros k x out Hx (t & -> & Hg & Hpass). pose proof (lookup_lt_Some _ _ _ Hx) as Hk. rewrite Hl in Hk.
      unfold l, plan_pass in Hx. rewrite lookup_tabulate in Hx by done. injection Hx as <-.
      destruct (decode_quads_run Inverse (plan_block slog 0 0 k)) with (s := t) as (u & Hu & Hg' & Hblk);
        [cbn; lia|cbn; lia|done|].
      cbn [plan_block stage4_r stage4_dist stage4_m01 stage4_m23 stage4_m02 Nat.add Nat.pow] in *.
      change (2 * (2 * 1)) with 4 in *. unfold ifft_decode_block. cbn [stage4_r].
      rewrite zeros_keep; [|done|].
      + cbn [obind]. rewrite Hu. cbn. exists u. split_and!; [done|done|]. by apply (pass_snoc 4 f 1 k s t).
      + assert (k * 4 < limit) as Hk4 by (apply Nat.nle_gt; intros Hle;
          pose proof (counters_bound limit 4 k ltac:(lia) Hle); lia).
        intros i Hi Hi'. apply zero_below_keeps; [done|]. intros b Hb. unfold column.
        change (stage4_r (plan_block slog 0 0 k)) with (k * 4) in *.
        destruct Hpass as [_ Hout]. rewrite Hout by lia. apply Hz; [done|lia]. }
  apply ensures_noerr in Hloop as (out & Hrun & t & -> & Hg & Hpass). rewrite Hl in Hpass.
  exists t. split_and!; [|done|].
  - rewrite Hrun. cbn [obind]. apply zeros_keep; [done|]. intros i Hi _. apply zero_below_keeps; [done|].
    intros b Hb. unfold column. destruct Hpass as [_ Hout]. rewrite Hout by lia. apply Hz; [done|].
    pose proof (counters_blocks limit 4 ltac:(lia)). lia.
  - intros b Hb. eapply (pass_column (λ x, cell x b) (λ x, length x = len) 4 f); [|done|exact Hpass].
    intros q xs c Hq Hxs Hxl.
    apply (lanes4_column w pt slog value fdit2 fidit2 len size Inverse); try done. lia.
Qed.

(** The received values are interpolated. *)
Lemma ifft_decoder_ok K limit s : N = 2 ^ K → K ≤ w → 0 < limit → limit ≤ 2 ^ K → good s →
  (∀ b i, b < size → limit ≤ i → column b s i = zero) →
  ∃ t, ifft_decode_with_plan (E:=E) zero dit2 idit2 dit4 size N (ifft_plan slog 0 K limit) (emb s) = Ok (emb t) ∧ good t ∧
    ∀ b, b < size → ∀ i, i < 2 ^ K → nval K (column b t) (pt i) = column b s i.
Proof.
  intros HNK HK Hpos Hlim Hs Hz.
  pose proof (pow2_le K w HK) as H256.
  pose proof (run_ifft_rest_acts (E:=E) w pt slog value fdit2 fidit2 len size N (quad Inverse)
    (ifft_decode_final idit2 size N) 0 K limit (decode_quads_run Inverse) decode_ifft_pairs_run
    ltac:(lia) Hpos Hlim ltac:(lia)) as Hrest.
  assert (∀ b, b < size → interp pt 0 (0 * 2 ^ K) (2 ^ K) limit (column b s) (column b s)) as Hstart.
  { intros b Hb. apply (interp_start pt K 0); [done|]. intros; by apply Hz. }
  destruct (Nat.leb_spec 2 K) as [H2|H2].
  - destruct (decode_initial_ok K limit s HNK H2 HK Hlim Hs Hz) as (t & Ht & Hg & Hpass).
    destruct (Hrest t Hg) as (u & Hu & Hg' & HR). exists u. split_and!; [|done|].
    + rewrite <- Hu. unfold ifft_decode_with_plan, run_ifft_rest, ifft_plan.
      cbn [initial_blocks later_blocks clear_start ifft_final ifft_mtrunc ifft_m].
      rewrite (proj2 (Nat.leb_le 2 K)) by done. rewrite Nat.mul_0_l.
      destruct (plan_pass slog 0 0 limit) as [|blk blks] eqn:Hblks.
      { exfalso. apply (f_equal length) in Hblks. unfold plan_pass in Hblks.
        rewrite length_tabulate in Hblks. change (2 ^ (2 + 0)) with 4 in Hblks. simpl in Hblks.
        pose proof (counters_blocks limit 4 ltac:(lia)). lia. }
      destruct (for_each (blk :: blks) _ (emb s)) as [work| |]; cbn [obind] in Ht |- *; [|done..].
      by rewrite Ht.
    + intros b Hb i Hi. specialize (HR b (column b s) Hb ltac:(intros; by apply Hz)).
      rewrite Nat.mul_0_l in HR. apply HR; [|done].
      apply (interp_step w pt 2 _ _ 0 K 0 limit (column b s) _ (column b s)
        (block_moves w pt)); [lia|done|rewrite Nat.add_0_l, Nat.mul_1_l; by apply pow2_le
        |intros; by apply Hz|by apply Hpass|by apply Hstart].
  - destruct (Hrest s Hs) as (u & Hu & Hg' & HR). exists u. split_and!; [|done|].
    + rewrite <- Hu. unfold ifft_decode_with_plan, run_ifft_rest, ifft_plan.
      cbn [initial_blocks later_blocks ifft_final ifft_mtrunc ifft_m].
      rewrite (proj2 (Nat.leb_gt 2 K)) by done. unfold ifft_passes.
      replace (K / 2 - 1) with 0 by (rewrite Nat.div_small by lia; done).
      cbn [tabulate seq map List.concat for_each obind].
      rewrite zeros_keep; [done|done|]. intros i Hi Hi'. apply zero_lane_keeps; [lia|done|].
      intros b Hb. by apply Hz.
    + intros b Hb i Hi. specialize (HR b (column b s) Hb ltac:(intros; by apply Hz)).
      rewrite Nat.mul_0_l in HR. apply HR; [|done]. by apply Hstart.
Qed.

(** *** The formal derivative *)

(** What an addition of one lane to another has to do. *)
Context (Hadd : ∀ lo hi s, lo < N → hi < N → lo ≠ hi → good s →
  ∃ x, add_pair lo hi (emb s) = emb (λ j, if decide (j = lo) then x else s j) ∧ length x = len ∧
    ∀ b, b < size → cell x b = add (cell (s lo) b) (cell (s hi) b)).

(** A step adds one run of [W] elements to the one before. *)
Definition adds_run (i W : nat) s t : Prop := ∀ b, b < size → ∀ j,
  column b t j = if decide (i - W ≤ j < i) then add (column b s j) (column b s (W + j)) else column b s j.

Lemma add_run_acts i W : 0 < W → W ≤ i → i + W ≤ N →
  acts (E:=E) emb good (for_range 0 W (λ j work,
    let lo := i - W + j in
    let hi := i + j in
    Ok (if (hi <? N) && (lo <? N) then add_pair lo hi work else work)))
    (adds_run i W).
Proof.
  intros HW Hi HN. eapply acts_mono; [apply (acts_for_range _ _ _ _ (λ m s t, ∀ b, b < size → ∀ j,
    column b t j = if decide (i - W ≤ j < i - W + m) then add (column b s j) (column b s (W + j)) else column b s j))|].
  - intros s b _ j. by rewrite decide_False by lia.
  - intros m s t Hm Ht Hst. cbn zeta.
    rewrite (proj2 (Nat.ltb_lt (i + m) N)), (proj2 (Nat.ltb_lt (i - W + m) N)) by lia. cbn [andb].
    destruct (Hadd (i - W + m) (i + m) t ltac:(lia) ltac:(lia) ltac:(lia) Ht) as (x & -> & Hxl & Hx).
    eexists. split_and!; [done| |].
    + intros j. by case_decide.
    + intros b Hb j. pose proof (Hst b Hb) as Hsb. unfold column in *.
      destruct (decide (j = i - W + m)) as [->|Hj].
      * rewrite Hx, !Hsb by done. rewrite decide_False by lia. rewrite decide_False by lia.
        rewrite decide_True by lia. by replace (W + (i - W + m)) with (i + m) by lia.
      * rewrite Hsb. destruct (decide (i - W ≤ j < i - W + m)); [by rewrite decide_True by lia|].
        by rewrite decide_False by lia.
  - intros s t _ Hst b Hb j. rewrite Hst by done. by replace (i - W + W) with i by lia.
Qed.

(** The lowest set bit. *)
Lemma derivative_width_odd k q : derivative_width ((2 * q + 1) * 2 ^ k) = 2 ^ k.
Proof.
  unfold derivative_width. pose proof (pow2_pos k) as Hp. pose proof (pow2_S k) as HS.
  replace ((2 * q + 1) * 2 ^ k) with (q * 2 ^ S k + 2 ^ k) by (rewrite HS; lia).
  replace (q * 2 ^ S k + 2 ^ k - 1) with (q * 2 ^ S k + (2 ^ k - 1)) by lia.
  rewrite lxor_blocks by lia. rewrite Nat.lxor_nilpotent, Nat.mul_0_l, Nat.add_0_l.
  rewrite <- (Nat.mul_1_l (2 ^ k)) at 1. rewrite lxor_block by lia.
  rewrite Nat.shiftr_div_pow2. change (2 ^ 1) with 2.
  replace (1 * 2 ^ k + (2 ^ k - 1) + 1) with (2 ^ k * 2) by lia. by apply Nat.div_mul.
Qed.

Lemma for_range_split {S} lo mid hi (body : nat → S → outcome E S) (s : S) : lo ≤ mid → mid ≤ hi →
  for_range lo hi body s = (let! s := for_range lo mid body s in for_range mid hi body s).
Proof.
  intros H1 H2. unfold for_range. replace (hi - lo) with ((mid - lo) + (hi - mid)) by lia.
  rewrite seq_app. replace (lo + (mid - lo)) with mid by lia.
  apply for_each_app.
Qed.

(** The derivative of the coefficients in one block is added to them. *)
Definition adds_derivative (k q : nat) s t : Prop := ∀ b, b < size →
  (∀ j, j < 2 ^ k → column b t (q * 2 ^ k + j)
     = add (column b s (q * 2 ^ k + j)) (dcoef k (λ i, column b s (q * 2 ^ k + i)) j)) ∧
  ∀ j, j < q * 2 ^ k ∨ (q + 1) * 2 ^ k ≤ j → column b t j = column b s j.

Lemma dcoef_ext k (c d : nat → Elem) : (∀ j, j < 2 ^ k → c j = d j) →
  ∀ j, dcoef k c j = dcoef k d j.
Proof.
  revert c d. induction k as [|k IH]; intros c d Hcd j; [done|]. pose proof (pow2_S k). cbn [dcoef].
  case_decide.
  - rewrite (IH c d) by (intros; apply Hcd; lia). by rewrite Hcd by lia.
  - apply IH. intros i Hi. apply Hcd. lia.
Qed.

Lemma adds_derivative_S k q s t u v :
  adds_derivative k (2 * q) s t → adds_run ((2 * q + 1) * 2 ^ k) (2 ^ k) t u →
  adds_derivative k (2 * q + 1) u v → adds_derivative (S k) q s v.
Proof.
  intros H1 H2 H3 b Hb. destruct (H1 b Hb) as [L1 O1], (H3 b Hb) as [L3 O3]. specialize (H2 b Hb).
  pose proof (pow2_S k) as HS. pose proof (pow2_pos k) as Hp. split.
  - intros j Hj. cbn [dcoef]. destruct (decide (j < 2 ^ k)) as [Hlt|Hge].
    + replace (q * 2 ^ S k + j) with (2 * q * 2 ^ k + j) by (rewrite HS; lia).
      rewrite O3 by lia. rewrite H2, decide_True by lia. rewrite L1 by done.
      rewrite O1 by lia.
      rewrite (dcoef_ext k (λ i, column b s (2 * q * 2 ^ k + i)) (λ i, column b s (q * 2 ^ S k + i)))
        by (intros; f_equal; rewrite HS; lia).
      replace (2 ^ k + (2 * q * 2 ^ k + j)) with (q * 2 ^ S k + (2 ^ k + j)) by (rewrite HS; lia).
      symmetry. apply Fields.add_assoc.
    + replace (q * 2 ^ S k + j) with ((2 * q + 1) * 2 ^ k + (j - 2 ^ k)) by (rewrite HS; lia).
      rewrite L3 by lia. rewrite H2, decide_False by lia. rewrite O1 by lia. f_equal.
      apply dcoef_ext. intros i Hi. rewrite H2, decide_False, O1 by lia. f_equal. rewrite HS. lia.
  - intros j Hj. rewrite O3 by lia. rewrite H2, decide_False by lia. apply O1. lia.
Qed.

Lemma derivative_block_acts k : ∀ q, (q + 1) * 2 ^ k ≤ N →
  acts (E:=E) emb good (for_range (q * 2 ^ k + 1) ((q + 1) * 2 ^ k) (derivative_step add_pair N))
    (adds_derivative k q).
Proof.
  induction k as [|k IH]; intros q Hq.
  - intros s Hs. exists s. split_and!; [|done|].
    + unfold for_range. by replace ((q + 1) * 2 ^ 0 - (q * 2 ^ 0 + 1)) with 0 by (change (2 ^ 0) with 1; lia).
    + intros b Hb. split; [|done]. intros j Hj. cbn [dcoef]. symmetry. apply Fields.add_0_r.
  - pose proof (pow2_S k) as HS. pose proof (pow2_pos k) as Hp.
    assert (acts (E:=E) emb good (λ l,
      let! l := for_range (2 * q * 2 ^ k + 1) ((2 * q + 1) * 2 ^ k) (derivative_step add_pair N) l in
      let! l := derivative_step add_pair N ((2 * q + 1) * 2 ^ k) l in
      for_range ((2 * q + 1) * 2 ^ k + 1) ((2 * q + 1 + 1) * 2 ^ k) (derivative_step add_pair N) l)
      (adds_derivative (S k) q)) as Hacts.
    { eapply acts_mono.
      - apply acts_compose; [apply IH; rewrite HS in Hq; lia|]. apply acts_compose; [|apply IH; rewrite HS in Hq; lia].
        unfold derivative_step. rewrite derivative_width_odd. apply add_run_acts; rewrite ?HS in Hq; lia.
      - intros s v _ (t & _ & H1 & u & _ & H2 & H3). by eapply adds_derivative_S. }
    intros s Hs. destruct (Hacts s Hs) as (t & Ht & HR). exists t. split; [|exact HR]. rewrite <- Ht.
    rewrite (for_range_split _ ((2 * q + 1) * 2 ^ k)) by (rewrite HS; lia).
    replace (q * 2 ^ S k + 1) with (2 * q * 2 ^ k + 1) by (rewrite HS; lia).
    replace ((q + 1) * 2 ^ S k) with ((2 * q + 1 + 1) * 2 ^ k) by (rewrite HS; lia).
    destruct (for_range _ _ _ (emb s)) as [l| |]; cbn [obind]; [|done..].
    rewrite (for_range_split _ (S ((2 * q + 1) * 2 ^ k))) by lia.
    replace (S ((2 * q + 1) * 2 ^ k)) with ((2 * q + 1) * 2 ^ k + 1) by lia.
    unfold for_range at 1. replace ((2 * q + 1) * 2 ^ k + 1 - (2 * q + 1) * 2 ^ k) with 1 by lia.
    cbn [seq for_each]. by destruct (derivative_step add_pair N ((2 * q + 1) * 2 ^ k) l).
Qed.

Lemma derivative_acts K : N = 2 ^ K →
  acts (E:=E) emb good (formal_derivative add_pair N) (λ s t, ∀ b, b < size → ∀ j, j < 2 ^ K →
    column b t j = add (column b s j) (dcoef K (column b s) j)).
Proof.
  intros HN. unfold formal_derivative.
  pose proof (derivative_block_acts K 0 ltac:(lia)) as H. rewrite Nat.mul_0_l, Nat.add_0_l, Nat.mul_1_l, <- HN in H.
  eapply acts_mono; [exact H|]. intros s t _ Hst b Hb j Hj. destruct (Hst b Hb) as [Hin _]. by apply Hin.
Qed.
End flat.
