(* ===== verification/LeoLocator.v ===== *)
(** * Error locators of the Leopard decoders

    A decoder needs, for each position, the product of its distances to the erased
    positions.  The logarithm of a product is a sum, the distance of two points is the point
    of the exclusive or of their indices, and so the sums are a convolution, which two
    Walsh transforms compute ([walsh_locator_ok]); for few erasures they are added up
    one by one ([sum_locator]).  [lost] are the erased positions. *)

From Stdlib Require Import NArith ZArith Lia List Bool Setoid Morphisms.
From stdpp Require Import base numbers list.
From S2P Require Import Prelude Fields LinAlg Lch LeoStages LeoWalsh.

(** ** The code *)
Section code.
Context {E R : Type} `{EqDecision R} (zero : R) (mulmod : R → R → R).

(** The product of the two transforms, element by element; zeros are skipped. *)
Definition walsh_products (order : nat) (log_walsh err_locs : list R) : outcome E (list R) :=
  for_range 0 order (λ i err_locs,
    let! e := index err_locs i in
    if bool_decide (e = zero) then Ok err_locs else
    let! w := index log_walsh i in
    update err_locs i (mulmod e w)) err_locs.
End code.

(** ** The erased positions *)
Section lost.
Context (present : list bool) (d p K : nat).

Definition here (i : nat) : bool := default false (present !! i).

(** Lost parity, the padding of the parity block, lost data. *)
Definition lost (i : nat) : bool :=
  if i <? p then negb (here (d + i)) else
  if i <? 2 ^ K then true else
  if i <? 2 ^ K + d then negb (here (i - 2 ^ K)) else false.

Lemma lost_end i : p ≤ 2 ^ K → 2 ^ K + d ≤ i → lost i = false.
Proof. intros Hp Hi. unfold lost. by rewrite !(proj2 (Nat.ltb_ge _ _)) by lia. Qed.

Lemma index_present {E} i : i < length present → index (E:=E) present i = Ok (here i).
Proof.
  intros Hi. unfold here. destruct (lookup_lt_is_Some_2 present i Hi) as [b Hb].
  by rewrite (index_ok _ _ _ Hb), Hb.
Qed.
End lost.

(** ** Loops that mark positions *)
Section marks.
Context {E R : Type} (N : nat).
Implicit Types s : nat → R.

Lemma mark_loop lo hi (body : nat → list R → outcome E (list R)) (g : nat → R) s :
  (∀ i s, lo ≤ i → i < hi → body i (tabulate N s)
     = Ok (tabulate N (λ j, if decide (j = i) then g i else s j))) → lo ≤ hi →
  for_range lo hi body (tabulate N s)
  = Ok (tabulate N (λ j, if decide (lo ≤ j ∧ j < hi) then g j else s j)).
Proof.
  intros Hbody Hle. apply (map_range (λ _, True) N lo hi body (λ i _, g i)); [|done..].
  intros i t H1 H2 _. rewrite Hbody by done. f_equal. apply tabulate_ext. intros j _. by case_decide; subst.
Qed.

(** Marks at the positions of a list. *)
Lemma mark_list (l : list nat) (pos : nat → nat) (one : R) s : Forall (λ i, pos i < N) l →
  for_each l (λ i err_locs, update err_locs (pos i) one) (tabulate N s)
  = Ok (E:=E) (tabulate N (λ j, if decide (j ∈ map pos l) then one else s j)).
Proof.
  revert s. induction l as [|i l IH]; intros s Hl.
  - cbn [for_each map]. done.
  - apply Forall_cons in Hl as [Hi Hl]. cbn [for_each]. rewrite update_tabulate by done. cbn [obind].
    rewrite IH by done. f_equal. apply tabulate_ext. intros j _. cbn [map].
    destruct (decide (j ∈ map pos l)) as [Hj|Hj]; [by rewrite decide_True by (by right)|].
    destruct (decide (j = pos i)) as [->|Hne]; [by rewrite decide_True by (by left)|].
    rewrite decide_False; [done|]. by intros [|]%elem_of_cons.
Qed.
End marks.

(** ** Products of distances *)
Section products.
Context {F : Field} {FL : FieldLaws F} (w : nat) (pt : nat → Elem) {CP : CantorPoints F w pt}.

(** [factor i] is the product of the distances of position [i] to the other erased ones. *)
Definition locates (er : nat → bool) (N n : nat) (factor : nat → Elem) : Prop :=
  ∀ i, i < n → factor i = locator pt (filter (λ j, er j ∧ j ≠ i) (seq 0 N)) (pt i).

Lemma filter_nothing (P : nat → Prop) `{∀ x, Decision (P x)} a n :
  (∀ i, a ≤ i → i < a + n → ¬ P i) → filter P (seq a n) = [].
Proof.
  intros H'. apply elem_of_nil_inv. intros x [Hx [? ?]%elem_of_seq]%list_elem_of_filter.
  by eapply H'.
Qed.

(** Positions that are not erased do not matter. *)
Lemma locates_below er N M n factor : M ≤ N → (∀ i, M ≤ i → er i = false) → n ≤ N →
  locates er N N factor → locates er M n factor.
Proof.
  intros HMN Her Hn H i Hi. rewrite H by lia. f_equal.
  replace N with (M + (N - M)) by lia. rewrite seq_app, filter_app, Nat.add_0_l.
  rewrite (filter_nothing _ M); [apply app_nil_r|]. intros j Hj _ [Hej _]. by rewrite Her in Hej.
Qed.

(** Words that are logarithms: residues modulo [M] with an exponential, and the table of the
    logarithms of the points, 0 for the logarithm of zero. *)
Class Exponents {R : Type} (rz : R → Z) (M : Z) (expz : Z → Elem) (wlog : nat → R) : Prop := {
  expz_eqm a b : eqm M a b → expz a = expz b;
  expz_add a b : expz (a + b)%Z = mul (expz a) (expz b);
  expz_0 : expz 0%Z = one;
  expz_distance i j : i < 2 ^ w → j < 2 ^ w → i ≠ j →
    expz (rz (wlog (Nat.lxor i j))) = add (pt i) (pt j);
  wlog_0 : rz (wlog 0) = 0%Z;
}.

Context {E R : Type} `{EqDecision R} (fwht2_alt : R → R → R * R) (rz : R → Z) (r0 : R) (M : Z).
Context {RS : Residues R fwht2_alt rz r0 M} (expz : Z → Elem) (wlog : nat → R) {EX : Exponents rz M expz wlog}.
Implicit Types (er : nat → bool) (v : nat → R).

(** A sum of logarithms is the logarithm of a product of distances. *)
Lemma sum_locator er n i : n ≤ 2 ^ w → i < 2 ^ w →
  expz (zsum n (λ j, Z.b2z (er j) * rz (wlog (Nat.lxor i j)))%Z)
  = locator pt (filter (λ j, er j ∧ j ≠ i) (seq 0 n)) (pt i).
Proof.
  intros Hn Hi. induction n as [|n IH]; [exact expz_0|].
  cbn [zsum]. cbv beta. rewrite (expz_add (M:=M)), IH by lia. rewrite seq_S, filter_app, Nat.add_0_l.
  rewrite (filter_cons _ n []), filter_nil. case_decide as Hd.
  - destruct Hd as [Her%Is_true_true Hne]. rewrite Her. cbn [Z.b2z].
    rewrite Z.mul_1_l, (expz_distance (M:=M)) by (done || lia).
    rewrite locator_split, app_nil_r. apply Fields.mul_comm.
  - rewrite app_nil_r. etrans; [|apply Fields.mul_1_r]. f_equal.
    assert (Z.b2z (er n) * rz (wlog (Nat.lxor i n)) = 0)%Z as ->; [|exact expz_0].
    destruct (er n) eqn:Her; [|done]. destruct (decide (n = i)) as [->|Hne].
    + rewrite Nat.lxor_nilpotent, wlog_0. done.
    + exfalso. apply Hd. by split.
Qed.

(** *** Two Walsh transforms *)
Context (mulmod : R → R → R) (Hmulmod : ∀ a b, eqm M (rz (mulmod a b)) (rz a * rz b)%Z).
Context (Hperiod : ∀ x, eqm M (2 ^ Z.of_nat w * x)%Z x).

(** The transform of the table of logarithms. *)
Definition walsh_of_logs (log_walsh : list R) : Prop := ∀ i, i < 2 ^ w → ∃ x,
  log_walsh !! i = Some x ∧ eqm M (rz x) (wht w (λ j, rz (wlog j)) i).

Lemma walsh_products_ok log_walsh t : walsh_of_logs log_walsh →
  ∃ u, walsh_products (E:=E) r0 mulmod (2 ^ w) log_walsh (tabulate (2 ^ w) t) = Ok (tabulate (2 ^ w) u) ∧
    (∀ i, 2 ^ w ≤ i → u i = r0) ∧
    ∀ i, i < 2 ^ w → eqm M (rz (u i)) (rz (t i) * wht w (λ j, rz (wlog j)) i)%Z.
Proof.
  intros HW. set (wx i := default r0 (log_walsh !! i)).
  set (f i x := if bool_decide (x = r0) then x else mulmod x (wx i)).
  exists (λ i, if i <? 2 ^ w then f i (t i) else r0). split_and!.
  - unfold walsh_products.
    rewrite (map_range (λ _, True) (2 ^ w) 0 (2 ^ w) _ f); [|intros i s _ Hi _|done|done|lia].
    + f_equal. apply tabulate_ext. intros j Hj. by rewrite decide_True, (proj2 (Nat.ltb_lt _ _)) by lia.
    + rewrite index_tabulate by done. cbn [obind]. destruct (HW i Hi) as (x & Hx & _). case_bool_decide as Hb.
      * f_equal. apply tabulate_ext. intros j _. case_decide; [|done]. subst j.
        unfold f. by rewrite bool_decide_true.
      * rewrite (index_ok _ _ _ Hx). cbn [obind]. rewrite update_tabulate by done.
        f_equal. apply tabulate_ext. intros j _. case_decide; [|done]. subst j.
        unfold f, wx. by rewrite bool_decide_false, Hx by done.
  - intros i Hi. by rewrite (proj2 (Nat.ltb_ge _ _)).
  - intros i Hi. rewrite (proj2 (Nat.ltb_lt _ _)) by done. destruct (HW i Hi) as (x & Hx & Hxw).
    unfold f, wx. rewrite Hx. cbn [default from_option id]. case_bool_decide as Hb.
    + rewrite Hb, rz_0. exists 0%Z. lia.
    + rewrite Hmulmod, Hxw. reflexivity.
Qed.

(** The transforms of the marks and of the products; the elements of the result are the
    logarithms of the products of distances. *)
Lemma walsh_locator_ok er t u v :
  (∀ i, i < 2 ^ w → eqm M (rz (t i)) (wht w (λ j, Z.b2z (er j)) i)) →
  (∀ i, i < 2 ^ w → eqm M (rz (u i)) (rz (t i) * wht w (λ j, rz (wlog j)) i)%Z) →
  (∀ i, i < 2 ^ w → eqm M (rz (v i)) (wht w (λ j, rz (u j)) i)) →
  locates er (2 ^ w) (2 ^ w) (λ i, expz (rz (v i))).
Proof.
  intros Ht Hu Hv i Hi. rewrite <- sum_locator by done. apply expz_eqm. rewrite Hv by done.
  rewrite (wht_eqm M w _ (λ j, wht w (λ i, Z.b2z (er i)) j * wht w (λ i, rz (wlog i)) j)%Z).
  - rewrite wht_conv by done. rewrite Hperiod, xconv_sum by done. reflexivity.
  - intros j Hj. rewrite Hu, Ht by done. reflexivity.
Qed.
End products.
