(* ===== verification/LeoDecode.v ===== *)
(** * The code that both Leopard decoders share

    Validation of the buffers ([validate_leopard_decode_buffers] of
    [src/core/reconstruct.rs]), the driver, the loading of the received shards into the
    work space and the loop over the chunks.  [src/core/leopard_gf8/decode.rs] and
    [leopard_gf16/decode.rs] have these parts in the same form for lanes of bytes and of
    [u16]; what differs is a parameter: how the bytes of a chunk are addressed and
    how they are read into a lane. *)

From Stdlib Require Import NArith Lia List Bool.
From stdpp Require Import base numbers list.
From S2P Require Import Prelude Errors Bytes Options LeoStages LeoPlan LeoFlat.

Record LeopardDecodeDriver := mk_decode_driver {
  dec_data_shards : nat;
  dec_parity_shards : nat;
  dec_shard_size : nat;
  dec_m : nat;
  dec_n : nat;
  dec_work_size : nat;
  dec_chunk_size : nat;
}.

(** The driver of an engine with [order] positions and chunks of [chunk_size] elements. *)
Definition build_decode_driver (modulus order chunk_size : nat) (data_shards parity_shards shard_size : nat)
  : outcome Error LeopardDecodeDriver :=
  if (shard_size =? 0) || negb (shard_size mod 64 =? 0) then Err IncorrectShardSize else
  let m := ceil_pow2 (Nat.max parity_shards 1) in
  if modulus <? m then Err TooManyShards else
  if (USIZE_MAX <? N.of_nat m + N.of_nat data_shards)%N then Err TooManyShards else
  let work_size := m + data_shards in
  if order <? work_size then Err TooManyShards else
  Ok (mk_decode_driver data_shards parity_shards shard_size m (ceil_pow2 work_size) work_size chunk_size).

(** [validate_leopard_decode_buffers] *)
Definition validate_leopard_decode_buffers (present : list bool) (outputs : list (list byte))
    (input_data : list (option (list byte))) (data_shards parity_shards : nat) : outcome Error nat :=
  if data_shards =? 0 then Err TooFewDataShards else
  if parity_shards =? 0 then Err TooFewParityShards else
  if (USIZE_MAX <? N.of_nat data_shards + N.of_nat parity_shards)%N then Err TooManyShards else
  let total := data_shards + parity_shards in
  if negb (length present =? total) || negb (length outputs =? total)
     || negb (length input_data =? total) then Err IncorrectShardSize else
  let! ' (shard_size, number_present) :=
    for_each (zip present input_data) (λ '(is_present, input) '(shard_size, number_present),
      if is_present : bool then
        let! data := ok_or input TooFewShardsPresent in
        if length data =? 0 then Err EmptyShard else
        if negb (length data mod 64 =? 0)
           || match shard_size with Some len => negb (len =? length data) | None => false end
        then Err IncorrectShardSize else Ok (Some (length data), S number_present)
      else Ok (shard_size, number_present)) (None, 0) in
  if number_present <? data_shards then Err TooFewShardsPresent else
  let! shard_size := ok_or shard_size TooFewShardsPresent in
  if existsb (λ output, negb (length output =? 0) && negb (length output =? shard_size)) outputs
  then Err IncorrectShardSize else Ok shard_size.

Section load.
Context {A T : Type} (zero : A) (chunk_of : list byte → nat → nat → outcome Error (list byte)).
(** [read src view log]: the received elements times the factor, and the new contents of the view. *)
Context (read : list byte → list A → T → outcome Error (list A)).
Context (present : list bool) (input_data : list (option (list byte))) (driver : LeopardDecodeDriver)
  (err_locs : list T).
Implicit Types work : list (list A).

(** A received shard, multiplied by the error locator, or zeros. *)
Definition load_lane (shard_idx work_idx offset stop : nat) work : outcome Error (list (list A)) :=
  let size := stop - offset in
  let! here := index present shard_idx in
  if here : bool then
    let! input := index input_data shard_idx in
    let! data := ok_or input TooFewShardsPresent in
    let! src := chunk_of data offset stop in
    let! lane := index work work_idx in
    let! view := slice lane 0 size in
    let! log := index err_locs work_idx in
    let! view := read src view log in
    update work work_idx (view ++ drop size lane)
  else zero_flat_lane zero size work_idx work.

(** Lanes [0..m] are parity, lanes [m..m + data_shards] are data. *)
Definition load_work (offset stop : nat) work : outcome Error (list (list A)) :=
  let d := dec_data_shards driver in
  let size := stop - offset in
  let! work := for_range 0 d (λ i, load_lane i (dec_m driver + i) offset stop) work in
  let! work := for_range 0 (dec_parity_shards driver) (λ i, load_lane (d + i) i offset stop) work in
  let! work := for_range (dec_parity_shards driver) (dec_m driver) (zero_flat_lane zero size) work in
  for_range (dec_work_size driver) (dec_n driver) (zero_flat_lane zero size) work.

(** Steps 1 to 4 of a chunk. *)
Context (ifft derivative fft : nat → list (list A) → outcome Error (list (list A))).

Definition decode_chunk (offset stop : nat) work : outcome Error (list (list A)) :=
  let size := stop - offset in
  let! work := load_work offset stop work in
  let! work := ifft size work in
  let! work := derivative size work in
  fft size work.
End load.

(** [while offset < total]: a chunk is decoded in the work space and leaves it in the outputs. *)
Section chunks.
Context {W Out : Type} (decode : nat → nat → W → outcome Error W).
Context (recover : nat → nat → W → Out → outcome Error Out).

Fixpoint decode_chunks (fuel chunk_size offset total : nat) (work : W) (outputs : Out)
  : outcome Error (W * Out) :=
  match fuel with
  | O => Panic
  | S fuel =>
      if offset <? total then
        let stop := Nat.min (offset + chunk_size) total in
        let! work := decode offset stop work in
        let! outputs := recover offset stop work outputs in
        decode_chunks fuel chunk_size stop total work outputs
      else Ok (work, outputs)
  end.
End chunks.

(** The work lane of a missing shard, which is also its place in the error locator. *)
Definition work_index (driver : LeopardDecodeDriver) (i : nat) : nat :=
  if dec_data_shards driver <=? i then i - dec_data_shards driver else dec_m driver + i.
