(* ===== verification/LeoRestore.v ===== *)
(** * Restoring lost shards

    The elements of one column of the work space, through the steps of [decode_chunk]:
    loaded and multiplied by the error locator, interpolated, differentiated and evaluated, a
    lost position holds the element of the code word times its factor ([decode_chunk_ok]),
    for any engine whose lanes behave ([LaneButterflies]) and that reads the elements of a
    shard into them ([ReadsShards]). *)

From Stdlib Require Import NArith Lia List Bool.
From stdpp Require Import base numbers list.
From S2P Require Import Prelude Errors Bytes Fields Options LinAlg Lch LeoStages LeoButterfly LeoPlan LeoDit.
From S2P Require Import LeoCode LeoGroup LeoFlat LeoLocator LeoDecode.

(** ** Counting *)
Lemma filter_map_length {A B} (P : B → Prop) `{∀ x, Decision (P x)} (f : A → B) (l : list A) :
  length (filter P (map f l)) = length (filter (λ x, P (f x)) l).
Proof.
  induction l as [|x l IH]; [done|]. cbn [map]. rewrite !filter_cons. case_decide; cbn [length]; by rewrite IH.
Qed.

Lemma filter_seq_shift (P : nat → Prop) `{∀ x, Decision (P x)} a n :
  length (filter P (seq a n)) = length (filter (λ i, P (a + i)) (seq 0 n)).
Proof.
  replace (seq a n) with (map (Nat.add a) (seq 0 n)) by (etrans; [apply (fmap_add_seq a 0 n)|f_equal; lia]).
  apply filter_map_length.
Qed.

(** The number of shards that are there. *)
Definition count_present (present : list bool) : nat := length (filter Is_true present).

Section erasures.
Context (present : list bool) (d p K : nat) (HpK : p ≤ 2 ^ K).
Context (Hpresent : length present = d + p) (Hcount : d ≤ count_present present).
#[local] Abbreviation here := (here present).
#[local] Abbreviation lost := (lost present d p K).

Lemma present_tabulate : present = tabulate (d + p) here.
Proof.
  apply eq_tabulate; [done|]. intros i Hi. unfold LeoLocator.here.
  by destruct (lookup_lt_is_Some_2 present i ltac:(lia)) as [b ->].
Qed.

Lemma count_absent : length (filter (λ i, ¬ here i) (seq 0 (d + p))) ≤ p.
Proof.
  pose proof (length_filter_split Is_true present) as H.
  unfold count_present in Hcount. rewrite Hpresent in H.
  enough (length (filter (λ i, ¬ here i) (seq 0 (d + p))) = length (filter (λ b : bool, ¬ b) present)) by lia.
  pose proof present_tabulate as Hpt. set (h := here) in *. clearbody h. rewrite Hpt.
  unfold tabulate. by rewrite filter_map_length.
Qed.

(** There are at most as many erased positions as zero coefficients. *)
Lemma count_lost : length (filter lost (seq 0 (2 ^ K + d))) ≤ 2 ^ K.
Proof.
  pose proof count_absent as Habs.
  replace (2 ^ K + d) with (p + (2 ^ K - p) + d) by lia.
  rewrite !seq_app, !filter_app, !length_app. rewrite !Nat.add_0_l.
  rewrite seq_app, filter_app, length_app, Nat.add_0_l in Habs.
  assert (length (filter lost (seq 0 p)) = length (filter (λ i, ¬ here i) (seq d p))) as ->.
  { rewrite (filter_seq_shift (λ i, ¬ here i) d). f_equal. apply filter_ext_elem.
    intros i [_ Hi]%elem_of_seq. unfold LeoLocator.lost. rewrite (proj2 (Nat.ltb_lt i p)) by lia.
    destruct (here (d + i)); cbn; tauto. }
  assert (length (filter lost (seq (p + (2 ^ K - p)) d)) = length (filter (λ i, ¬ here i) (seq 0 d))) as ->.
  { rewrite (filter_seq_shift lost). f_equal. apply filter_ext_elem.
    intros i [_ Hi]%elem_of_seq. unfold LeoLocator.lost.
    rewrite !(proj2 (Nat.ltb_ge (p + (2 ^ K - p) + i) _)) by lia.
    rewrite (proj2 (Nat.ltb_lt _ _)) by lia. replace (p + (2 ^ K - p) + i - 2 ^ K) with i by lia.
    destruct (here i); cbn; tauto. }
  pose proof (length_filter lost (seq p (2 ^ K - p))) as Hpad. rewrite length_seq in Hpad. lia.
Qed.

(** ** Positions *)

(** The shard of a position of the work space, and the position of a shard. *)
Definition shard_at (j : nat) : nat := if j <? 2 ^ K then d + j else j - 2 ^ K.
Definition position (i : nat) : nat := if d <=? i then i - d else 2 ^ K + i.

Lemma position_lost i : i < d + p → lost (position i) = negb (here i) ∧ position i < 2 ^ K + d ∧
  shard_at (position i) = i.
Proof.
  clear Hpresent Hcount. intros Hi. unfold position, LeoLocator.lost, shard_at. destruct (Nat.leb_spec d i).
  - rewrite (proj2 (Nat.ltb_lt (i - d) p)), (proj2 (Nat.ltb_lt (i - d) (2 ^ K))) by lia.
    replace (d + (i - d)) with i by lia. split_and!; [done|lia|done].
  - rewrite (proj2 (Nat.ltb_ge (2 ^ K + i) p)), (proj2 (Nat.ltb_ge (2 ^ K + i) (2 ^ K))) by lia.
    rewrite (proj2 (Nat.ltb_lt _ _)) by lia. replace (2 ^ K + i - 2 ^ K) with i by lia. split_and!; [done|lia|done].
Qed.

Lemma found_position j : j < 2 ^ K + d → lost j = false → shard_at j < d + p ∧ here (shard_at j) ∧
  position (shard_at j) = j ∧ present !! shard_at j = Some true.
Proof.
  clear Hcount. intros Hj. unfold LeoLocator.lost, shard_at, position.
  assert (∀ i, i < d + p → negb (here i) = false → here i ∧ present !! i = Some true) as Hp.
  { intros i Hi. unfold LeoLocator.here. destruct (lookup_lt_is_Some_2 present i ltac:(lia)) as [[] ->]; by repeat split. }
  destruct (Nat.ltb_spec j p).
  - rewrite (proj2 (Nat.ltb_lt j (2 ^ K))) by lia. intros [? ?]%Hp; [|lia].
    rewrite (proj2 (Nat.leb_le d (d + j))) by lia. split_and!; [lia|done|lia|done].
  - destruct (Nat.ltb_spec j (2 ^ K)); [done|]. rewrite (proj2 (Nat.ltb_lt j _)) by lia.
    intros [? ?]%Hp; [|lia]. rewrite (proj2 (Nat.leb_gt d _)) by lia. split_and!; [lia|done|lia|done].
Qed.

(** ** One column *)
Section column.
Context {F : Field} {FL : FieldLaws F} (w : nat) (pt : nat → Elem) {CP : CantorPoints F w pt}.
Context (k : nat) (Hk : k ≤ w) (Hfit : 2 ^ K + d ≤ 2 ^ k).

Lemma column_restored (factor c s t u : nat → Elem) :
  locates pt lost (2 ^ K + d) (2 ^ K + d) factor →
  (∀ j, 2 ^ k - 2 ^ K ≤ j → j < 2 ^ k → c j = zero) →
  (∀ i, 2 ^ K + d ≤ i → i < 2 ^ k → nval k c (pt i) = zero) →
  (∀ i, i < 2 ^ k → s i = if lost i || (2 ^ K + d <=? i) then zero else mul (nval k c (pt i)) (factor i)) →
  (∀ i, i < 2 ^ k → nval k t (pt i) = s i) →
  (∀ j, j < 2 ^ k → u j = add (t j) (dcoef k t j)) →
  ∀ e, e < 2 ^ K + d → lost e → nval k u (pt e) = mul (nval k c (pt e)) (factor e).
Proof.
  intros Hv Hc Hz Hs Ht Hu e He Hlost.
  set (es := filter lost (seq 0 (2 ^ K + d))).
  assert (seq 0 (2 ^ K + d) = seq 0 e ++ e :: seq (S e) (2 ^ K + d - S e)) as Hseq.
  { replace (2 ^ K + d) with (e + (1 + (2 ^ K + d - S e))) at 1 by lia. rewrite !seq_app. cbn [seq app].
    by replace (0 + e + 1) with (S e) by lia. }
  set (l1 := filter lost (seq 0 e)). set (l2 := filter lost (seq (S e) (2 ^ K + d - S e))).
  assert (es = l1 ++ e :: l2) as Hes.
  { unfold es. by rewrite Hseq, filter_app, filter_cons_True by done. }
  assert (filter (λ j, lost j ∧ j ≠ e) (seq 0 (2 ^ K + d)) = l1 ++ l2) as Hothers.
  { rewrite Hseq, filter_app, filter_cons_False by (intros [_ ?]; done).
    f_equal; apply filter_ext_elem; intros j [? ?]%elem_of_seq; split; [by intros []|split; [done|lia]
      |by intros []|split; [done|lia]]. }
  assert (∀ i, i < 2 ^ k → nval k t (pt i) = mul (nval k c (pt i)) (locator pt es (pt i))) as Hloc.
  { intros i Hi. rewrite Ht, Hs by done. destruct (lost i) eqn:Hli; cbn [orb].
    - rewrite locator_elem; [symmetry; apply Fields.mul_0_r|].
      apply list_elem_of_filter. split; [by rewrite Hli|apply elem_of_seq].
      split; [lia|]. apply Nat.nle_gt. intros Hge. by rewrite lost_end in Hli by done.
    - destruct (Nat.leb_spec (2 ^ K + d) i).
      + rewrite Hz by done. symmetry. apply Fields.mul_0_l.
      + rewrite Hv by lia. f_equal. f_equal. apply filter_ext_elem. intros j _.
        split; [by intros []|]. intros Hj. split; [done|]. intros ->. by rewrite Hli in Hj. }
  rewrite (nval_ext k u (λ j, add (t j) (dcoef k t j))) by (intros; by apply Hu).
  rewrite nval_add. rewrite Ht, Hs by lia.
  apply Is_true_true in Hlost as Hle. rewrite Hle. cbn [orb].
  rewrite (erasure_values w pt k (2 ^ K) c t es l1 e l2); [|done|lia|done|done|apply count_lost|done].
  rewrite Hv by lia. rewrite Hothers. apply Fields.add_0_l.
Qed.
End column.
End erasures.

(** ** Engines *)

(** What the two engines do with lanes and with the bytes of a shard: an element takes [bytes]
    bytes, chunks have a multiple of [unit] elements. *)
Class DecodeEngine {F : Field} {T : Type} (value factor : T → Elem)
    (dit2 idit2 : T → list Elem → list Elem → list Elem * list Elem)
    (dit4 : TransformDir → T → T → T → list Elem → list Elem → list Elem → list Elem →
       list Elem * list Elem * list Elem * list Elem)
    (add_pair : nat → nat → nat → list (list Elem) → list (list Elem))
    (bytes unit : nat) (elem_of : list byte → nat → Elem)
    (chunk_of : list byte → nat → nat → outcome Error (list byte))
    (read : list byte → list Elem → T → outcome Error (list Elem))
    (store : list Elem → list byte → T → outcome Error (list byte))
    (inverse : T → T) : Prop := {
  engine_lanes size :: LaneButterflies value dit2 idit2 size size;
  engine_dit4 dir m01 m23 m02 (a b c d : list Elem) j :
    pick4 (dit4 dir m01 m23 m02 a b c d) j = lanes4 dit2 idit2 dir m01 m23 m02 [a; b; c; d] j;
  engine_add N len size lo hi s : size ≤ len → lo < N → hi < N → lo ≠ hi → lanes_good len s →
    ∃ x, add_pair size lo hi (lanes_emb N s) = lanes_emb N (λ j, if decide (j = lo) then x else s j) ∧
      length x = len ∧ ∀ b, b < size → cell x b = add (cell (s lo) b) (cell (s hi) b);
  engine_read data offset size view log : (unit | offset) → (unit | size) →
    (offset + size) * bytes ≤ length data → length view = size →
    ∃ src x, chunk_of data offset (offset + size) = Ok src ∧ read src view log = Ok x ∧ length x = size ∧
      ∀ b, b < size → cell x b = mul (elem_of data (offset + b)) (factor log);
  engine_store out offset size lane log : (unit | offset) → (unit | size) →
    (offset + size) * bytes ≤ length out → length lane = size →
    ∃ x, store lane (take (size * bytes) (drop (offset * bytes) out)) log = Ok x ∧
      length x = size * bytes ∧ ∀ e, elem_of (splice out (offset * bytes) x) e
        = if decide (offset ≤ e < offset + size) then mul (cell lane (e - offset)) (factor log) else elem_of out e;
  engine_inverse x log : mul (mul x (factor log)) (factor (inverse log)) = x;
}.

(** ** One chunk *)
Section chunk.
Context {F : Field} {FL : FieldLaws F} (w : nat) (pt : nat → Elem) {CP : CantorPoints F w pt}.
Context {T : Type} (slog : nat → T) (value factor : T → Elem) {SV : SkewValues w pt slog value}.
Context (dit2 idit2 : T → list Elem → list Elem → list Elem * list Elem).
Context (dit4 : TransformDir → T → T → T → list Elem → list Elem → list Elem → list Elem →
  list Elem * list Elem * list Elem * list Elem).
Context (add_pair : nat → nat → nat → list (list Elem) → list (list Elem)).
Context (bytes unit : nat) (elem_of : list byte → nat → Elem).
Context (chunk_of : list byte → nat → nat → outcome Error (list byte)).
Context (read : list byte → list Elem → T → outcome Error (list Elem)).
Context (store : list Elem → list byte → T → outcome Error (list byte)) (inverse : T → T).
Context {DE : DecodeEngine value factor dit2 idit2 dit4 add_pair bytes unit elem_of chunk_of read store inverse}.

(** Shards of [n] elements. *)
Context (present : list bool) (d p K k n : nat) (shards : list (list byte))
  (input_data : list (option (list byte))) (driver : LeopardDecodeDriver).
Context (HpK : p ≤ 2 ^ K) (Hk : k ≤ w) (Hfit : 2 ^ K + d ≤ 2 ^ k).
Context (Hpresent : length present = d + p) (Hcount : d ≤ count_present present).
Context (Hdd : dec_data_shards driver = d) (Hdp : dec_parity_shards driver = p)
  (Hdm : dec_m driver = 2 ^ K) (Hdn : dec_n driver = 2 ^ k) (Hdw : dec_work_size driver = 2 ^ K + d).
Context (Hlen : length shards = d + p) (Hshards : Forall (λ shard, length shard = n * bytes) shards).
Context (Hinput : ∀ i shard, present !! i = Some true → shards !! i = Some shard →
  input_data !! i = Some (Some shard)).
Implicit Types (s t : nat → list Elem) (b e i j : nat).
#[local] Abbreviation here := (here present).
#[local] Abbreviation lost := (lost present d p K).
#[local] Abbreviation position := (position d K).
#[local] Abbreviation shard_at := (shard_at d K).
#[local] Abbreviation N := (2 ^ k).
#[local] Abbreviation emb := (lanes_emb N).

Definition shard (i : nat) : list byte := default [] (shards !! i).

(** The element columns are words of the code. *)
Definition words_ok : Prop := ∀ e, e < n →
  leopard_word pt k K d p (λ i, elem_of (shard i) e) (λ i, elem_of (shard (d + i)) e).
Context (Hwords : words_ok).

Lemma shard_lookup i : i < d + p → shards !! i = Some (shard i) ∧ length (shard i) = n * bytes.
Proof.
  clear - Hlen Hshards. intros Hi. unfold shard.
  destruct (lookup_lt_is_Some_2 shards i ltac:(lia)) as [x Hx]. rewrite Hx. cbn [default from_option id].
  split; [done|]. by apply (Forall_lookup_1 _ _ _ _ Hshards Hx).
Qed.

(** The polynomial of a column. *)
Lemma word_polynomial e : e < n → ∃ c : nat → Elem,
  (∀ j, 2 ^ k - 2 ^ K ≤ j → j < 2 ^ k → c j = zero) ∧
  (∀ i, 2 ^ K + d ≤ i → i < 2 ^ k → nval k c (pt i) = zero) ∧
  ∀ i, i < d + p → nval k c (pt (position i)) = elem_of (shard i) e.
Proof.
  intros He. destruct (Hwords e He) as (c & Hc & Hpar & Hdat & Hz). exists c. split_and!; [done|done|].
  intros i Hi. unfold LeoRestore.position. destruct (Nat.leb_spec d i).
  - rewrite Hpar by lia. by replace (d + (i - d)) with i by lia.
  - by rewrite Hdat by lia.
Qed.

Context (v : nat → T) (err_locs : list T).
Context (Herr : ∀ j, j < 2 ^ K + d → err_locs !! j = Some (v j)).
Context (Hv : locates pt lost (2 ^ K + d) (2 ^ K + d) (λ i, factor (v i))).

Section loaded.
Context (len offset stop : nat) (Hle : offset ≤ stop) (Hstop : stop ≤ n) (Hsize : stop - offset ≤ len).
Context (Huo : (unit | offset)) (Hus : (unit | stop - offset)).
#[local] Abbreviation size := (stop - offset).
#[local] Abbreviation good := (lanes_good len).
#[local] Abbreviation load_lane := (load_lane zero chunk_of read present input_data err_locs).

Lemma read_shard i view log : i < d + p → length view = size →
  ∃ src x, chunk_of (shard i) offset stop = Ok src ∧ read src view log = Ok x ∧ length x = size ∧
    ∀ b, b < size → cell x b = mul (elem_of (shard i) (offset + b)) (factor log).
Proof.
  intros Hi Hview. destruct (shard_lookup i Hi) as [_ Hsl].
  destruct (engine_read (shard i) offset size view log Huo Hus) as (src & x & Hsrc & Hx); [|done|].
  - rewrite Hsl. apply Nat.mul_le_mono_r. lia.
  - replace (offset + size) with stop in Hsrc by lia. by exists src, x.
Qed.

(** What the loading loops make of lane [j]. *)
Definition loaded (j : nat) (lane : list Elem) : list Elem :=
  if lost j || (2 ^ K + d <=? j) then zero_prefix size zero lane else
  match (let! src := chunk_of (shard (shard_at j)) offset stop in read src (take size lane) (v j)) with
  | Ok view => view ++ drop size lane
  | _ => lane
  end.

Lemma loaded_ok j lane : length lane = len → length (loaded j lane) = len ∧ ∀ b, b < size →
  cell (loaded j lane) b = if lost j || (2 ^ K + d <=? j) then zero
    else mul (elem_of (shard (shard_at j)) (offset + b)) (factor (v j)).
Proof.
  intros Hl. unfold loaded. destruct (lost j || (2 ^ K + d <=? j)) eqn:Hz.
  { split; [by apply zero_prefix_length|]. intros b. apply zero_prefix_cell. }
  apply orb_false_iff in Hz as [Hlj Hj%Nat.leb_gt].
  destruct (found_position present d p K HpK Hpresent j Hj Hlj) as (Hi & _).
  destruct (read_shard (shard_at j) (take size lane) (v j) Hi) as (src & x & -> & Hx & Hxl & Hxb);
    [rewrite length_take; lia|].
  cbn [obind]. rewrite Hx. split; [rewrite length_app, length_drop; lia|].
  intros b Hb. rewrite cell_app_l by (by rewrite Hxl). by apply Hxb.
Qed.

(** One lane. *)
Lemma zero_lane_loaded j s : j < N → good s → lost j || (2 ^ K + d <=? j) = true →
  zero_flat_lane (E:=Error) zero size j (emb s) = Ok (emb (λ i, if decide (i = j) then loaded i (s i) else s i)).
Proof.
  intros Hj Hs Hz. rewrite (zero_flat_lane_ok size len N Hsize) by done. f_equal. apply tabulate_ext.
  intros i _. case_decide; [|done]. subst. unfold loaded. by rewrite Hz.
Qed.

Lemma load_lane_ok i j s : i < d + p → position i = j → good s →
  load_lane i j offset stop (emb s) = Ok (emb (λ l, if decide (l = j) then loaded l (s l) else s l)).
Proof.
  intros Hi <- Hs. destruct (position_lost present d p K HpK i Hi) as (Hl & Hpos & Hat).
  unfold LeoDecode.load_lane. rewrite index_present by lia. cbn [obind].
  destruct (here i) eqn:Hh; [|apply zero_lane_loaded; [lia|done|by rewrite Hl]].
  assert (present !! i = Some true) as Hp.
  { unfold LeoLocator.here in Hh. by destruct (present !! i) as [[]|]. }
  destruct (shard_lookup i Hi) as [Hx Hxl].
  rewrite (index_ok _ _ _ (Hinput i _ Hp Hx)). cbn [obind ok_or].
  pose proof (Hs (position i)) as Hsl.
  destruct (read_shard i (take size (s (position i))) (v (position i)) Hi) as (src & x & Hsrc & Hr & _);
    [rewrite length_take; lia|].
  rewrite Hsrc. cbn [obind]. unfold lanes_emb at 1. rewrite index_tabulate by lia. cbn [obind].
  rewrite (slice_ok (s (position i))) by lia. cbn [obind]. rewrite drop_0, Nat.sub_0_r.
  rewrite (index_ok _ _ _ (Herr _ Hpos)). cbn [obind]. rewrite Hr. cbn [obind].
  unfold lanes_emb. rewrite update_tabulate by lia. f_equal. apply tabulate_ext. intros l _.
  case_decide; [|done]. subst l. unfold loaded. rewrite Hl, Hat. cbn [negb orb].
  rewrite (proj2 (Nat.leb_gt _ _)) by lia. rewrite Hsrc. cbn [obind]. by rewrite Hr.
Qed.

Lemma load_work_ok s : good s →
  load_work zero chunk_of read present input_data driver err_locs offset stop (emb s)
  = Ok (emb (λ j, loaded j (s j))).
Proof.
  intros Hs. unfold load_work. rewrite Hdd, Hdp, Hdm, Hdw, Hdn.
  assert (∀ lo hi (body : nat → list (list Elem) → outcome Error (list (list Elem))) s, lo ≤ hi → good s →
    (∀ i s, lo ≤ i → i < hi → good s →
      body i (emb s) = Ok (emb (λ j, if decide (j = i) then loaded j (s j) else s j))) →
    for_range lo hi body (emb s) = Ok (emb (λ j, if decide (lo ≤ j ∧ j < hi) then loaded j (s j) else s j)))
    as Hloop.
  { intros lo hi body t Hlh Ht Hb.
    apply (map_loop len N lo hi body loaded); [done|intros; by apply loaded_ok|done|done]. }
  assert (∀ t (P : nat → Prop) `{∀ j, Decision (P j)}, good t → good (λ j, if decide (P j) then loaded j (t j) else t j)) as Hgood.
  { intros t P ? Ht j. case_decide; [by apply loaded_ok|apply Ht]. }
  match goal with |- context [for_range 0 d ?b ?w] =>
    replace (for_range 0 d b w) with (for_range (2 ^ K) (2 ^ K + d) (λ i, load_lane (i - 2 ^ K) i offset stop) w) end.
  2:{ rewrite for_range_shift. unfold for_range. generalize (seq 0 (d - 0)) (emb s). intros l.
      induction l as [|x l IH]; intros u; [done|]. cbn [for_each].
      replace (2 ^ K + x - 2 ^ K) with x by lia.
      destruct (load_lane x _ _ _ u); cbn [obind]; [apply IH|done..]. }
  rewrite Hloop; [|lia|done|].
  2:{ intros i t Hi Hi' Ht. apply load_lane_ok; [lia| |done]. unfold LeoRestore.position.
      rewrite (proj2 (Nat.leb_gt d _)) by lia. lia. }
  cbn [obind]. rewrite Hloop; [|lia|by apply Hgood|].
  2:{ intros i t Hi Hi' Ht. apply load_lane_ok; [lia| |done]. unfold LeoRestore.position.
      rewrite (proj2 (Nat.leb_le d _)) by lia. lia. }
  cbn [obind]. rewrite Hloop; [|lia|by repeat apply Hgood|].
  2:{ intros i t Hi Hi' Ht. apply zero_lane_loaded; [lia|done|]. unfold LeoLocator.lost.
      rewrite (proj2 (Nat.ltb_ge i p)), (proj2 (Nat.ltb_lt i (2 ^ K))) by lia. done. }
  cbn [obind]. rewrite Hloop; [|lia|by repeat apply Hgood|].
  2:{ intros i t Hi Hi' Ht. apply zero_lane_loaded; [lia|done|]. rewrite (proj2 (Nat.leb_le _ i)) by lia.
      apply orb_true_r. }
  f_equal. apply tabulate_ext. intros j Hj. repeat case_decide; done || lia.
Qed.
End loaded.

(** The transforms of the decoder, with the plans in closed form. *)
Context (ic : nat) (Hic : 0 < ic) (HicN : ic ≤ N).
Context (Hrest : ∀ j, ic ≤ j → lost j || (2 ^ K + d <=? j) = true).

Definition chunk_decoder (offset stop : nat) : list (list Elem) → outcome Error (list (list Elem)) :=
  decode_chunk zero chunk_of read present input_data driver err_locs
    (λ size, ifft_decode_with_plan zero dit2 idit2 dit4 size N (ifft_plan slog 0 k ic))
    (λ size, formal_derivative (add_pair size) N)
    (λ size, fft_decode_with_plan dit2 idit2 dit4 size N (fft_plan slog k (2 ^ K + d))) offset stop.

Lemma decode_chunk_ok len offset stop s : offset ≤ stop → stop ≤ n → stop - offset ≤ len →
  (unit | offset) → (unit | stop - offset) → lanes_good len s →
  ∃ t, chunk_decoder offset stop (emb s) = Ok (emb t) ∧ lanes_good len t ∧
    ∀ b i, b < stop - offset → i < d + p → here i = false →
      cell (t (position i)) b = mul (elem_of (shard i) (offset + b)) (factor (v (position i))).
Proof.
  intros Hle Hstop Hsize Huo Hus Hs. unfold chunk_decoder, decode_chunk.
  rewrite (load_work_ok len) by done. cbn [obind].
  set (s1 := λ j, loaded offset stop j (s j)).
  assert (∀ j, length (s1 j) = len ∧ ∀ b, b < stop - offset → cell (s1 j) b = if lost j || (2 ^ K + d <=? j) then zero
    else mul (elem_of (shard (shard_at j)) (offset + b)) (factor (v j))) as Hc1
    by (intros j; by apply (loaded_ok len)).
  assert (lanes_good len s1) as Hs1 by (intros j; apply Hc1).
  destruct (ifft_decoder_ok (E:=Error) w pt slog value dit2 idit2 dit4 (stop - offset) len N Hsize engine_dit4 k ic s1)
    as (s2 & -> & Hs2 & Hc2); try done.
  { intros b i Hb Hi. unfold column. rewrite (proj2 (Hc1 i)) by done. by rewrite Hrest. }
  cbn [obind].
  destruct (derivative_acts (E:=Error) (add_pair (stop - offset)) (stop - offset) len N Hsize
    (λ lo hi u, engine_add N len (stop - offset) lo hi u Hsize) k eq_refl s2 Hs2)
    as (s3 & -> & Hs3 & Hc3). cbn [obind].
  destruct (fft_decoder_acts (E:=Error) w pt slog value dit2 idit2 dit4 (stop - offset) len N Hsize engine_dit4
    k (2 ^ K + d) Hk Hfit eq_refl s3 Hs3) as (s4 & -> & Hs4 & Hc4).
  exists s4. split_and!; [done|done|]. intros b i Hb Hi Hh.
  destruct (position_lost present d p K HpK i Hi) as (Hl & Hpos & _).
  destruct (word_polynomial (offset + b) ltac:(lia)) as (c & Hcz & Hcb & Hcv).
  change (cell (s4 (position i)) b) with (column b s4 (position i)).
  rewrite (Hc4 b (λ j, nval k (column b s3) (pt j)) Hb) by done.
  rewrite <- Hcv by done.
  apply (column_restored present d p K HpK Hpresent Hcount w pt k Hk Hfit (λ j, factor (v j)) c (column b s1) (column b s2));
    try done.
  - intros j Hj. unfold column at 1. rewrite (proj2 (Hc1 j)) by done.
    destruct (lost j) eqn:Hlj; cbn [orb]; [done|].
    destruct (Nat.leb_spec (2 ^ K + d) j); [done|].
    destruct (found_position present d p K HpK Hpresent j ltac:(done) Hlj) as (Hi' & _ & Hpj & _).
    by rewrite <- Hpj, Hcv, Hpj.
  - intros j Hj. by apply Hc2.
  - intros j Hj. by apply Hc3.
  - rewrite Hl, Hh. done.
Qed.

(** *** The outputs

    [keep i] says that output [i] is left alone; an output holds the elements of its
    shard from [start] to [total]. *)
Context (keep : nat → bool) (Hkeep : ∀ i, here i → keep i) (start total : nat) (Hst : start ≤ total) (Htn : total ≤ n).
Context (Hus : (unit | start)) (Hut : (unit | total)).
Implicit Types (O : nat → list byte) (W : nat → list Elem).

Definition recovered (W : nat → list Elem) (offset stop i : nat) (output : list byte) : list byte :=
  if keep i then output else
  match store (take (stop - offset) (W (position i)))
          (take ((stop - offset) * bytes) (drop ((offset - start) * bytes) output)) (inverse (v (position i))) with
  | Ok x => splice output ((offset - start) * bytes) x
  | _ => output
  end.

Definition restored_upto (offset : nat) (O0 O : nat → list byte) : Prop := ∀ i, i < d + p →
  if keep i then O i = O0 i
  else length (O i) = (total - start) * bytes ∧
    ∀ e, start + e < offset → elem_of (O i) e = elem_of (shard i) (start + e).

Lemma restored_start O : (∀ i, i < d + p → keep i = false → length (O i) = (total - start) * bytes) →
  restored_upto start O O.
Proof.
  intros HO i Hi. destruct (keep i) eqn:Hki; [done|]. split; [by apply HO|]. intros e He. clear - He. lia.
Qed.

(** What is written into one output. *)
Lemma store_part len offset stop (W : nat → list Elem) i output : lanes_good len W →
  start ≤ offset → offset ≤ stop → stop ≤ total → stop - offset ≤ len → (unit | offset) → (unit | stop - offset) →
  length output = (total - start) * bytes →
  ∃ x, store (take (stop - offset) (W (position i)))
      (take ((stop - offset) * bytes) (drop ((offset - start) * bytes) output)) (inverse (v (position i))) = Ok x ∧
    length x = (stop - offset) * bytes ∧ (offset - start) * bytes + length x ≤ length output ∧
    ∀ e, elem_of (splice output ((offset - start) * bytes) x) e
      = if decide (offset - start ≤ e < offset - start + (stop - offset))
        then mul (cell (W (position i)) (e - (offset - start))) (factor (inverse (v (position i)))) else elem_of output e.
Proof.
  clear - DE Hus. intros HW H1 H2 H3 H4 H5 H6 Ho. pose proof (HW (position i)) as HWi.
  assert ((offset - start + (stop - offset)) * bytes ≤ length output) as Hroom
    by (rewrite Ho; apply Nat.mul_le_mono_r; lia).
  destruct (engine_store output (offset - start) (stop - offset) (take (stop - offset) (W (position i)))
    (inverse (v (position i)))) as (x & Hx & Hxl & He);
    [by apply Nat.divide_sub_r|done|done|rewrite length_take; lia|].
  exists x. split_and!; [done|done|rewrite Hxl; lia|]. intros e. rewrite He. case_decide; [|done].
  by rewrite cell_take by lia.
Qed.

Lemma chunk_restores len offset stop W O0 O : lanes_good len W →
  start ≤ offset → offset ≤ stop → stop ≤ total → stop - offset ≤ len → (unit | offset) → (unit | stop - offset) →
  (∀ b i, b < stop - offset → i < d + p → here i = false →
     cell (W (position i)) b = mul (elem_of (shard i) (offset + b)) (factor (v (position i)))) →
  restored_upto offset O0 O → restored_upto stop O0 (λ i, recovered W offset stop i (O i)).
Proof.
  intros HW H1 H2 H3 H4 H5 H6 HWb HI i Hi. specialize (HI i Hi). unfold recovered.
  destruct (keep i) eqn:Hki; [done|]. destruct HI as [Hl He].
  assert (here i = false) as Hh.
  { destruct (here i) eqn:Hh; [|done]. specialize (Hkeep i). rewrite Hh, Hki in Hkeep. by destruct Hkeep. }
  destruct (store_part len offset stop W i (O i)) as (x & -> & Hxl & Hroom & Hxe); try done.
  split; [by rewrite length_splice|]. intros e Hes. rewrite Hxe. case_decide as Hin; [|apply He; lia].
  rewrite HWb by (done || lia). rewrite engine_inverse.
  by replace (offset + (e - (offset - start))) with (start + e) by lia.
Qed.

(** *** All chunks *)
Context {Out : Type} (embO : (nat → list byte) → Out).
Context (recover : nat → nat → list (list Elem) → Out → outcome Error Out) (len : nat) (O0 : nat → list byte).
Context (Hrecover : ∀ offset stop W O, lanes_good len W → restored_upto offset O0 O →
  start ≤ offset → offset < stop → stop ≤ total → stop - offset ≤ len → (unit | offset) → (unit | stop - offset) →
  recover offset stop (emb W) (embO O) = Ok (embO (λ i, recovered W offset stop i (O i)))).

Lemma chunks_restored chunk_size fuel : 0 < chunk_size → (unit | chunk_size) → ∀ offset L O,
  total - offset < fuel → start ≤ offset → offset ≤ total → (unit | offset) →
  Nat.min (total - offset) chunk_size ≤ len →
  lanes_good len L → restored_upto offset O0 O →
  ∃ L' O', decode_chunks chunk_decoder recover fuel chunk_size offset total (emb L) (embO O)
      = Ok (emb L', embO O') ∧ lanes_good len L' ∧ restored_upto total O0 O'.
Proof.
  intros Hc Huc. induction fuel as [|fuel IH]; intros offset L O Hfuel H1 H2 Huo Hcap HL HO; [lia|].
  cbn [decode_chunks]. destruct (Nat.ltb_spec offset total) as [Hlt|Hge].
  - set (stop := Nat.min (offset + chunk_size) total).
    assert (offset < stop ∧ stop ≤ total ∧ stop - offset ≤ len) as (H3 & H4 & H5) by (unfold stop; lia).
    assert ((unit | stop)) as Hustop.
    { unfold stop. destruct (Nat.min_spec (offset + chunk_size) total) as [[_ ->]|[_ ->]]; [|done].
      by apply Nat.divide_add_r. }
    assert ((unit | stop - offset)) as Husz by (by apply Nat.divide_sub_r).
    destruct (decode_chunk_ok len offset stop L ltac:(lia) ltac:(lia) H5 Huo Husz HL) as (W & -> & HW & HWb).
    cbn [obind]. rewrite (Hrecover offset stop W O) by (done || lia). cbn [obind].
    apply IH; [lia|lia|done|done|lia|done|].
    by apply (chunk_restores len offset stop W O0 O); try (done || lia).
  - assert (offset = total) as -> by lia. by exists L, O.
Qed.
End chunk.
