(* ===== verification/LeoPlanCache.v ===== *)
(** * The cache of decode plans ([DecodePlanCache] of [src/core/leopard_gf16/decode.rs])

    A process-wide LRU map with a budget in bytes, over the interface [LruCache] of
    [InversionCache].  A lookup refreshes its entry; an insertion keeps an entry that is
    there already, refuses a plan over the budget and evicts the least recently used
    entries until the new one fits.  Whatever callers do, the charge is the sum over the entries
    and within the budget ([plan_cache_sound]). *)

From Stdlib Require Import NArith Lia List Bool.
From stdpp Require Import base numbers list.
From S2P Require Import Prelude Options InversionCache.

Section cache.
Context {K P : Type} {L : LruCache K (P * N)}.

Record DecodePlanCache := mk_plan_cache {
  plan_entries : Lru;
  plan_retained : N;
  plan_max : N;
}.

Definition plan_cache_new (max_bytes : N) : DecodePlanCache := mk_plan_cache (lru_new 16) 0 max_bytes.

Definition plan_cache_get (self : DecodePlanCache) (key : K) : option P * DecodePlanCache :=
  let '(entry, entries) := lru_get (plan_entries self) key in
  (fst <$> entry, mk_plan_cache entries (plan_retained self) (plan_max self)).

(** [while self.entries.len() >= self.entries.capacity() || ..]; the subtraction must not wrap. *)
Fixpoint plan_evict {E} (fuel : nat) (bytes : N) (self : DecodePlanCache) : outcome E DecodePlanCache :=
  match fuel with
  | O => Panic
  | S fuel =>
      if (lru_capacity (plan_entries self) <=? lru_len (plan_entries self))%N
         || (plan_max self - bytes <? plan_retained self)%N
      then
        match lru_remove_lru (plan_entries self) with
        | (Some (_, (_, removed_bytes)), entries) =>
            if (removed_bytes <=? plan_retained self)%N
            then plan_evict fuel bytes (mk_plan_cache entries (plan_retained self - removed_bytes) (plan_max self))
            else Panic
        | (None, _) => Panic
        end
      else Ok self
  end.

(** The sizes of plans and keys. *)
Context (plan_bytes : P → N) (key_bytes : K → N).

Definition plan_cache_insert {E} (self : DecodePlanCache) (key : K) (plan : P)
  : outcome E (P * DecodePlanCache) :=
  let '(existing, self) := plan_cache_get self key in
  match existing with
  | Some existing => Ok (existing, self)
  | None =>
      match checked_add (plan_bytes plan) (key_bytes key) with
      | None => Ok (plan, self)
      | Some bytes =>
          if (plan_max self <? bytes)%N then Ok (plan, self) else
          let! self := plan_evict (S (N.to_nat (lru_len (plan_entries self)))) bytes self in
          Ok (plan, mk_plan_cache (lru_insert (plan_entries self) key (plan, bytes))
                      (plan_retained self + bytes) (plan_max self))
      end
  end.

(** [decode_plan_for]: the lock is taken twice; between the two, while the plan is built,
    other callers use the cache. *)
Definition plan_cache_for {E} (cache : DecodePlanCache) (others : DecodePlanCache → DecodePlanCache)
    (key : K) (build : outcome E P) : outcome E (P * DecodePlanCache) :=
  let '(entry, cache) := plan_cache_get cache key in
  match entry with
  | Some plan => Ok (plan, cache)
  | None => let! plan := build in plan_cache_insert (others cache) key plan
  end.
End cache.
Arguments DecodePlanCache _ _ {_}.

(** ** The invariant *)
Section sound.
Context {K P : Type} `{EqDecision K} {L : LruCache K (P * N)} {LL : LruLaws L}.
Context (good : K → P → Prop).
Implicit Types (self : DecodePlanCache K P) (es : list (K * (P * N))).

Definition plans_total es : N := foldr (λ e n, (e.2.2 + n)%N) 0%N es.

(** The charge is that of the entries and within the budget, there is at most the capacity
    of entries, and every plan is good for its key. *)
Definition plan_cache_ok self : Prop :=
  plan_retained self = plans_total (lru_entries (plan_entries self)) ∧
  (plan_retained self <= plan_max self)%N ∧
  (lru_len (plan_entries self) <= lru_capacity (plan_entries self))%N ∧
  lru_capacity (plan_entries self) = 16%N ∧
  ∀ key plan bytes, (key, (plan, bytes)) ∈ lru_entries (plan_entries self) → good key plan.

Lemma plans_total_app es1 es2 : plans_total (es1 ++ es2) = (plans_total es1 + plans_total es2)%N.
Proof.
  induction es1 as [|e es1 IH]; [done|]. cbn [app].
  change (e.2.2 + plans_total (es1 ++ es2) = e.2.2 + plans_total es1 + plans_total es2)%N. rewrite IH. apply N.add_assoc.
Qed.

Lemma plans_total_remove es key e : NoDup (map fst es) → assoc_get es key = Some e →
  plans_total es = (e.2 + plans_total (assoc_remove es key))%N ∧ length es = S (length (assoc_remove es key)).
Proof.
  induction es as [|[k x] es IH]; [done|]. cbn [map fst]. rewrite NoDup_cons. intros [Hk Hnd] Hg.
  unfold assoc_get in Hg. cbn [find fst] in Hg. unfold assoc_remove. cbn [List.filter fst].
  destruct (decide (k = key)) as [->|Hne].
  - rewrite bool_decide_true in Hg by done. rewrite bool_decide_false by (intros []; done).
    cbn in Hg. injection Hg as <-. fold (assoc_remove es key). by rewrite assoc_remove_id.
  - rewrite bool_decide_false in Hg by done. rewrite bool_decide_true by done.
    destruct (IH Hnd Hg) as [Ht Hl]. fold (assoc_remove es key). cbn [plans_total foldr snd length].
    fold (plans_total es) (plans_total (assoc_remove es key)). rewrite Ht, Hl. split; [lia|done].
Qed.

Lemma plan_cache_new_ok max : plan_cache_ok (plan_cache_new max).
Proof.
  unfold plan_cache_ok, plan_cache_new. cbn [plan_entries plan_retained plan_max].
  rewrite lru_new_entries, lru_len_spec, lru_new_entries, lru_new_capacity. cbn.
  split_and!; [done|lia|lia|done|]. intros key plan bytes H. by apply elem_of_nil in H.
Qed.

Lemma plan_cache_get_ok self key : plan_cache_ok self →
  plan_cache_ok (plan_cache_get self key).2 ∧ plan_max (plan_cache_get self key).2 = plan_max self ∧
  (∀ plan, (plan_cache_get self key).1 = Some plan → good key plan) ∧
  ((plan_cache_get self key).1 = None → assoc_get (lru_entries (plan_entries (plan_cache_get self key).2)) key = None).
Proof.
  intros (Ht & Hmax & Hlen & Hcap & Hgood). unfold plan_cache_ok, plan_cache_get.
  pose proof (lru_get_fst (plan_entries self) key) as Hf. pose proof (lru_get_entries (plan_entries self) key) as He.
  pose proof (lru_get_capacity (plan_entries self) key) as Hc.
  destruct (lru_get (plan_entries self) key) as [entry entries']. cbn [fst snd] in Hf, He, Hc.
  cbn [fst snd plan_entries plan_retained plan_max]. rewrite lru_len_spec, Hc. rewrite lru_len_spec in Hlen. subst entry.
  set (es := lru_entries (plan_entries self)) in *.
  destruct (assoc_get es key) as [[plan bytes]|] eqn:Hg; cbn [fmap option_fmap option_map fst].
  - destruct (plans_total_remove es key _ (lru_nodup _) Hg) as [Hsum Hl]. cbn [snd] in Hsum.
    pose proof (assoc_get_elem es key _ Hg) as Hin. rewrite He, length_app, plans_total_app. cbn [length].
    split_and!; [|done|lia|done| |done| |done].
    + cbn. rewrite N.add_0_r. rewrite Ht, Hsum. apply N.add_comm.
    + intros k p b [H|H]%elem_of_app.
      * apply elem_assoc_remove in H as [H _]. by apply (Hgood k p b).
      * apply list_elem_of_singleton in H. injection H as -> -> ->. by apply (Hgood key plan bytes).
    + intros p [= <-]. by apply (Hgood key plan bytes).
  - rewrite He. split_and!; try done.
Qed.

Lemma plan_evict_ok {E} fuel bytes self : N.to_nat (lru_len (plan_entries self)) < fuel →
  plan_cache_ok self → (bytes <= plan_max self)%N →
  ensures (plan_evict (E:=E) fuel bytes self) (λ self', plan_cache_ok self' ∧ plan_max self' = plan_max self ∧
    (∃ k, lru_entries (plan_entries self') = drop k (lru_entries (plan_entries self))) ∧
    (lru_len (plan_entries self') < lru_capacity (plan_entries self'))%N ∧
    (plan_retained self' + bytes <= plan_max self')%N) (λ _, False).
Proof.
  revert self. induction fuel as [|fuel IH]; intros self Hf Hok Hb; [lia|]. cbn [plan_evict].
  pose proof Hok as (Ht & Hmax & Hlen & Hcap & Hgood).
  destruct ((_ <=? _)%N || (_ <? _)%N) eqn:Hcond.
  2:{ apply orb_false_iff in Hcond as [H1%N.leb_gt H2%N.ltb_ge]. cbn [ensures].
      split_and!; [done|done|by exists 0|lia|lia]. }
  pose proof (lru_remove_lru_fst (plan_entries self)) as Hh. pose proof (lru_remove_lru_entries (plan_entries self)) as Htl.
  pose proof (lru_remove_lru_capacity (plan_entries self)) as Hc.
  destruct (lru_remove_lru (plan_entries self)) as [removed entries']. cbn [fst snd] in *. rewrite lru_len_spec in *.
  destruct (lru_entries (plan_entries self)) as [|[k [p b]] es] eqn:Hes; subst removed; cbn [head].
  { exfalso. cbn in Ht, Hcond. apply orb_true_iff in Hcond as [H%N.leb_le|H%N.ltb_lt]; [cbn in H|]; lia. }
  cbn in Ht, Hf, Htl. fold (plans_total es) in Ht. rewrite (proj2 (N.leb_le _ _)) by lia.
  set (self1 := mk_plan_cache entries' _ _).
  assert (plan_cache_ok self1) as Hok1.
  { unfold plan_cache_ok, self1. cbn [plan_entries plan_retained plan_max]. rewrite lru_len_spec, Htl, Hc.
    cbn in Hlen. split_and!; [lia|lia|lia|done|]. intros k' p' b' Hin. apply (Hgood k' p' b'). by right. }
  eapply ensures_mono; [apply (IH self1)|..]; [|done|done| |done].
  - unfold self1. cbn [plan_entries]. rewrite lru_len_spec, Htl. lia.
  - intros self' (H1 & H2 & [j H3] & H4 & H5). split_and!; [done|done| |done|done].
    exists (S j). rewrite H3. unfold self1. cbn [plan_entries]. by rewrite Htl.
Qed.

Context (plan_bytes : P → N) (key_bytes : K → N).

Lemma plan_cache_insert_ok {E} self key plan : plan_cache_ok self → good key plan →
  ensures (plan_cache_insert (E:=E) plan_bytes key_bytes self key plan)
    (λ '(plan', self'), plan_cache_ok self' ∧ plan_max self' = plan_max self ∧ good key plan') (λ _, False).
Proof.
  intros Hok Hplan. unfold plan_cache_insert.
  destruct (plan_cache_get_ok self key Hok) as (Hok1 & Hm1 & Hg1 & Habs).
  destruct (plan_cache_get self key) as [existing self1]. cbn [fst snd] in *.
  destruct existing as [p|]; cbn [ensures]; [split_and!; [done|done|by apply Hg1]|].
  destruct (checked_add _ _) as [bytes|]; cbn [ensures]; [|done].
  destruct (N.ltb_spec (plan_max self1) bytes) as [|Hb]; cbn [ensures]; [done|].
  eapply ensures_bind; [apply plan_evict_ok; [lia|done|done]|].
  intros self2 ((Ht & Hmax & Hlen & Hcap & Hgood) & Hm2 & [k Hk] & Hroom & Hbytes). cbn [ensures].
  assert (assoc_get (lru_entries (plan_entries self2)) key = None) as Hnone.
  { rewrite Hk. specialize (Habs eq_refl). apply assoc_get_None. intros [e [He Hin]]%list_elem_of_fmap.
    apply elem_of_drop_in in Hin. clear -Habs He Hin. induction (lru_entries (plan_entries self1)) as [|x l IH]; [by apply elem_of_nil in Hin|].
    unfold assoc_get in *. cbn [find] in Habs. case_bool_decide as Hx; [done|].
    apply elem_of_cons in Hin as [->|Hin]; [by symmetry in He|by apply IH]. }
  unfold plan_cache_ok. cbn [plan_entries plan_retained plan_max].
  rewrite lru_len_spec, lru_insert_entries, lru_insert_capacity, length_app, plans_total_app by done.
  rewrite lru_len_spec in Hroom. cbn. split_and!; [lia|lia|lia|done| |congruence|done].
  intros k' p' b' [H|H]%elem_of_app; [by apply (Hgood k' p' b')|].
  apply list_elem_of_singleton in H. by injection H as -> -> ->.
Qed.

Lemma plan_cache_for_ok {E} self others key (build : outcome E P) plan : plan_cache_ok self →
  (∀ c, plan_cache_ok c → plan_max c = plan_max self → plan_cache_ok (others c) ∧ plan_max (others c) = plan_max self) →
  build = Ok plan → good key plan →
  ensures (plan_cache_for plan_bytes key_bytes self others key build)
    (λ '(plan', self'), plan_cache_ok self' ∧ plan_max self' = plan_max self ∧ good key plan') (λ _, False).
Proof.
  intros Hok Hothers -> Hplan. unfold plan_cache_for.
  destruct (plan_cache_get_ok self key Hok) as (Hok1 & Hm1 & Hg1 & _).
  destruct (plan_cache_get self key) as [entry self1]. cbn [fst snd] in *.
  destruct entry as [p|]; cbn [ensures]; [split_and!; [done|done|by apply Hg1]|]. cbn [obind].
  destruct (Hothers self1 Hok1 Hm1) as [Hok2 Hm2].
  eapply ensures_mono; [by apply plan_cache_insert_ok| |done].
  intros [p self'] (H1 & H2 & H3). split_and!; [done|congruence|done].
Qed.

(** *** Runs *)
Inductive plan_op :=
| PlanGet (key : K)
| PlanInsert (key : K) (plan : P).

Definition plan_step {E} (op : plan_op) self : outcome E (DecodePlanCache K P) :=
  match op with
  | PlanGet key => Ok (plan_cache_get self key).2
  | PlanInsert key plan => let! ' (_, self) := plan_cache_insert plan_bytes key_bytes self key plan in Ok self
  end.
End sound.

(** C22: whatever sequence of lookups and insertions is run on a fresh plan cache,
    nothing panics or underflows; then there are at most 16 plans, the retained bytes are the sum of
    the charges and within the budget, every plan is one that was inserted with its key, and an
    insertion answers the plan that it keeps or was given for this key. *)
Theorem plan_cache_sound {K P : Type} `{EqDecision K} {L : LruCache K (P * N)} {LL : LruLaws L}
    (plan_bytes : P → N) (key_bytes : K → N) (max : N) (ops : list plan_op) :
  ∃ self, for_each (E:=Empty_set) ops (plan_step plan_bytes key_bytes) (plan_cache_new max) = Ok self ∧
    plan_max self = max ∧ (lru_len (plan_entries self) <= 16)%N ∧ (plan_retained self <= max)%N ∧
    plan_retained self = plans_total (lru_entries (plan_entries self)) ∧
    (∀ key plan bytes, (key, (plan, bytes)) ∈ lru_entries (plan_entries self) → PlanInsert key plan ∈ ops) ∧
    ∀ key plan, ∃ plan' self', plan_cache_insert (E:=Empty_set) plan_bytes key_bytes self key plan = Ok (plan', self') ∧
      (plan' = plan ∨ PlanInsert key plan' ∈ ops).
Proof.
  set (good key plan := PlanInsert key plan ∈ ops).
  assert (ensures (for_each (E:=Empty_set) ops (plan_step plan_bytes key_bytes) (plan_cache_new max))
    (λ self, plan_cache_ok good self ∧ plan_max self = max) (λ _, False)) as Hrun.
  { apply (for_each_ensures _ _ (λ _ self, plan_cache_ok good self ∧ plan_max self = max)).
    - split; [apply plan_cache_new_ok|done].
    - intros i op self Hin%list_elem_of_lookup_2 [Hok Hm]. destruct op as [key|key plan]; cbn [plan_step ensures].
      + destruct (plan_cache_get_ok good self key Hok) as (H1 & H2 & _). split; [done|congruence].
      + eapply ensures_bind; [apply (plan_cache_insert_ok good); [done|exact Hin]|].
        intros [p self'] (H1 & H2 & _). cbn. split; [done|congruence]. }
  apply ensures_noerr in Hrun as (self & -> & Hok & Hm). exists self.
  pose proof Hok as (H1 & H2 & H3 & H4 & H5). split_and!; [done|done|lia|lia|done|exact H5|].
  intros key plan. assert (plan_cache_ok (λ k p, good k p ∨ p = plan ∧ k = key) self) as Hok'.
  { unfold plan_cache_ok. split_and!; [done..|]. intros k p b Hin. left. by apply (H5 k p b). }
  pose proof (plan_cache_insert_ok (E:=Empty_set) _ plan_bytes key_bytes self key plan Hok' (or_intror (conj eq_refl eq_refl))) as Hi.
  apply ensures_noerr in Hi as ([p self'] & -> & _ & _ & Hp). exists p, self'. split; [done|].
  destruct Hp as [Hp|[-> _]]; [by right|by left].
Qed.
