(* ===== verification/LeoDecoder.v ===== *)
(** * Shapes, validation and plans of the Leopard decoders

    The shapes that a decoder of [2 ^ w] positions serves, the driver that it builds for
    them, the outcome of the validation for well-formed calls, the number of positions that
    the inverse transform has to look at, and what a repair leaves in the outputs. *)

From Stdlib Require Import NArith Lia List Bool.
From stdpp Require Import base numbers list.
From S2P Require Import Prelude Errors Bytes Fields Options Lch LeoStages LeoPlan LeoDit LeoCode LeoGroup LeoChunk.
From S2P Require Import LeoFlat LeoLocator LeoDecode LeoRestore.

(** The orders of the parity block and of the transform. *)
Abbreviation KO p := (order2 (Nat.max p 1)).
Abbreviation NO d p := (order2 (2 ^ order2 (Nat.max p 1) + d)).

(** [iter().rposition(|p| p)] *)
Fixpoint rposition (present : list bool) : option nat :=
  match present with
  | [] => None
  | b :: present =>
      match rposition present with
      | Some i => Some (S i)
      | None => if b : bool then Some 0 else None
      end
  end.

(** ** Shapes *)
Definition decode_shape (w d p : nat) : Prop :=
  0 < d ∧ 0 < p ∧ 2 ^ KO p < 2 ^ w ∧ 2 ^ KO p + d ≤ 2 ^ w.

Definition decode_driver (chunk_size d p n : nat) : LeopardDecodeDriver :=
  mk_decode_driver d p n (2 ^ KO p) (2 ^ NO d p) (2 ^ KO p + d) chunk_size.

Lemma leopard_shape_decodes w d p : leopard_shape w d p (KO p) → decode_shape w d p.
Proof.
  intros Hs. destruct (leopard_shape_order w d p _ Hs) as (Hw & Hf & _). destruct Hs as (? & ? & _).
  pose proof (pow2_le (S (KO p)) w Hw) as Hle. rewrite pow2_S in Hle. pose proof (pow2_pos (KO p)).
  unfold decode_shape. lia.
Qed.

Section shapes.
Context (w d p : nat) (Hsh : decode_shape w d p).

Lemma decode_shape_orders : p ≤ 2 ^ KO p ∧ NO d p ≤ w ∧ 2 ^ KO p + d ≤ 2 ^ NO d p.
Proof.
  destruct Hsh as (Hd & Hp & Hm & Hf). pose proof (order2_covers (Nat.max p 1)).
  split_and!; [lia|by apply order2_least|apply order2_covers].
Qed.

Lemma build_decode_driver_ok modulus order chunk_size n : n ≠ 0 → n mod 64 = 0 →
  modulus + 1 = 2 ^ w → order = 2 ^ w → (N.of_nat (2 ^ w) <= USIZE_MAX)%N →
  build_decode_driver modulus order chunk_size d p n = Ok (decode_driver chunk_size d p n).
Proof.
  destruct Hsh as (Hd & Hp & Hm & Hf). intros Hn H64 Hmod -> Hmax. unfold build_decode_driver.
  rewrite (proj2 (Nat.eqb_neq _ _) Hn), H64. cbn [orb negb Nat.eqb]. rewrite !ceil_pow2_order.
  rewrite (proj2 (Nat.ltb_ge _ _)) by lia.
  rewrite (proj2 (N.ltb_ge _ _)) by lia. by rewrite (proj2 (Nat.ltb_ge _ _) Hf).
Qed.
End shapes.

(** ** Validation *)
Lemma count_present_take present i : count_present (take (S i) present)
  = count_present (take i present) + (if default false (present !! i) then 1 else 0).
Proof.
  unfold count_present. destruct (present !! i) as [b|] eqn:Hi; cbn [default].
  - rewrite (take_S_r _ _ _ Hi), filter_app, length_app, filter_cons, filter_nil. by destruct b.
  - apply lookup_ge_None_1 in Hi. rewrite !take_ge by lia. by rewrite Nat.add_0_r.
Qed.

(** An output is absent or as long as a shard. *)
Definition output_ok (n : nat) (output : list byte) : Prop := output = [] ∨ length output = n.

Section validate.
Context (present : list bool) (d p n : nat) (shards : list (list byte)) (input_data : list (option (list byte))).
Context (Hn : n ≠ 0) (H64 : n mod 64 = 0).
Context (Hpresent : length present = d + p) (Hcount : d ≤ count_present present).
Context (Hlen : length shards = d + p) (Hshards : Forall (λ shard, length shard = n) shards).
Context (Hinput : ∀ i shard, present !! i = Some true → shards !! i = Some shard →
  input_data !! i = Some (Some shard)) (Hil : length input_data = d + p).

Lemma validate_ok w outputs : decode_shape w d p → (N.of_nat (2 ^ w) <= USIZE_MAX)%N →
  length outputs = d + p → Forall (output_ok n) outputs →
  validate_leopard_decode_buffers present outputs input_data d p = Ok n.
Proof.
  intros Hsh Hmax Hol Hok. pose proof (decode_shape_orders w d p Hsh) as (HpK & _ & _).
  destruct Hsh as (Hd & Hp & _ & Hf). unfold validate_leopard_decode_buffers.
  rewrite (proj2 (Nat.eqb_neq d 0)), (proj2 (Nat.eqb_neq p 0)) by lia.
  rewrite (proj2 (N.ltb_ge _ _)) by lia.
  rewrite Hpresent, Hol, Hil, !Nat.eqb_refl. cbn [negb orb].
  match goal with |- context [for_each ?l ?b ?s] => assert (ensures (for_each l b s)
    (λ '(sz, cnt), cnt = count_present present ∧ (sz = Some n ∨ cnt = 0)) (λ _, False)) as Hloop end.
  { eapply (for_each_post _ _ (λ i '(sz, cnt), cnt = count_present (take i present) ∧ (sz = Some n ∨ (sz = None ∧ cnt = 0)))).
    - split; [done|by right].
    - intros i [here input] [sz cnt] Hx [-> Hsz]. apply lookup_zip_with_Some in Hx as (h & inp & [= <- <-] & Hh & Hinp).
      pose proof (count_present_take present i) as Hct. rewrite Hh in Hct. cbn [default from_option id] in Hct.
      destruct here; [|cbn [ensures]; change (1 + i) with (S i); rewrite Hct, Nat.add_0_r; by split].
      destruct (lookup_lt_is_Some_2 shards i) as [x Hx].
      { rewrite Hlen, <- Hpresent. by eapply lookup_lt_Some. }
      rewrite (Hinput i x Hh Hx) in Hinp. injection Hinp as <-. cbn [ok_or obind].
      rewrite (Forall_lookup_1 _ _ _ _ Hshards Hx). rewrite (proj2 (Nat.eqb_neq n 0) Hn), H64. cbn [negb Nat.eqb orb].
      destruct Hsz as [->|[-> _]]; rewrite ?Nat.eqb_refl; cbn [negb ensures];
        change (1 + i) with (S i); rewrite Hct; (split; [lia|by left]).
    - intros [sz cnt] [Hc Hsz]. rewrite length_zip_with, Hpresent, Hil, Nat.min_id, take_ge in Hc by lia.
      naive_solver. }
  apply ensures_noerr in Hloop as ([sz cnt] & -> & -> & Hsz). cbn [obind].
  rewrite (proj2 (Nat.ltb_ge _ _)) by done. destruct Hsz as [->|Hz]; [|lia]. cbn [ok_or obind].
  assert (existsb (λ output : list byte, negb (length output =? 0) && negb (length output =? n)) outputs = false) as ->; [|done].
  apply not_true_iff_false. intros (o & Hin & Ho)%existsb_exists.
  rewrite Forall_forall in Hok. apply list_elem_of_In in Hin. specialize (Hok o Hin).
  destruct Hok as [->|Hl]; [done|]. rewrite Hl, Nat.eqb_refl in Ho. by rewrite andb_false_r in Ho.
Qed.
End validate.

(** ** The input count *)
Lemma rposition_spec l : match rposition l with
  | Some i => i < length l ∧ ∀ j, i < j → default false (l !! j) = false
  | None => ∀ j, default false (l !! j) = false
  end.
Proof.
  induction l as [|b l IH]; cbn [rposition]; [intros []; done|].
  destruct (rposition l) as [i|].
  - destruct IH as [Hi Hj]. cbn [length]. split; [lia|]. intros [|j] Hlt; [lia|]. apply Hj. lia.
  - destruct b; cbn [length].
    + split; [lia|]. intros [|j] Hlt; [lia|]. apply IH.
    + intros [|j]; [done|apply IH].
Qed.

(** The positions from the input count on are zero when the work space is loaded. *)
Definition input_count (d p : nat) (present : list bool) : nat :=
  match rposition (take d present) with Some i => 2 ^ KO p + i + 1 | None => 2 ^ KO p end.

Definition covers_input (d p : nat) (present : list bool) (ic : nat) : Prop :=
  0 < ic ∧ ic ≤ 2 ^ KO p + d ∧ ∀ j, ic ≤ j → lost present d p (KO p) j || (2 ^ KO p + d <=? j) = true.

Lemma input_count_ok d p present : p ≤ 2 ^ KO p → covers_input d p present (input_count d p present).
Proof.
  intros HpK. pose proof (pow2_pos (KO p)) as Hpos. pose proof (rposition_spec (take d present)) as Hr.
  assert (∀ j, 2 ^ KO p ≤ j → default false (take d present !! (j - 2 ^ KO p)) = false →
    lost present d p (KO p) j || (2 ^ KO p + d <=? j) = true) as Hlost.
  { intros j Hj Hf. unfold lost. rewrite (proj2 (Nat.ltb_ge j p)), (proj2 (Nat.ltb_ge j (2 ^ KO p))) by lia.
    destruct (Nat.ltb_spec j (2 ^ KO p + d)); [|by rewrite (proj2 (Nat.leb_le _ _)) by lia].
    rewrite lookup_take_lt in Hf by lia. unfold here. by rewrite Hf. }
  unfold covers_input, input_count. destruct (rposition (take d present)) as [i|].
  - destruct Hr as [Hi Hr]. rewrite length_take in Hi. split_and!; [lia|lia|].
    intros j Hj. apply Hlost; [lia|]. apply Hr. lia.
  - split_and!; [lia|lia|]. intros j Hj. by apply Hlost.
Qed.

(** ** Repaired outputs *)

(** Outputs that a repair leaves alone. *)
Definition kept (present : list bool) (i : nat) (output : list byte) : bool := here present i || (length output =? 0).

Lemma kept_ok n present i output : output_ok n output → kept present i output = false → length output = n.
Proof.
  intros [->|Ho] Hk; [|done]. unfold kept in Hk. by rewrite orb_true_r in Hk.
Qed.

(** Lost shards with an output are filled in. *)
Definition filled (present : list bool) (shards outputs : list (list byte)) : list (list byte) :=
  tabulate (length outputs) (λ i, let output := default [] (outputs !! i) in
    if kept present i output then output else default [] (shards !! i)).

Lemma filled_nothing present shards outputs : length present = length outputs →
  forallb id present || forallb (λ output, length output =? 0) outputs = true →
  filled present shards outputs = outputs.
Proof.
  intros Hl H. symmetry. apply eq_tabulate; [done|]. intros i Hi.
  destruct (lookup_lt_is_Some_2 outputs i Hi) as [o Ho]. rewrite Ho. cbn [default from_option id].
  assert (kept present i o = true) as ->; [|done]. unfold kept, here.
  apply orb_true_iff in H as [H|H]; rewrite forallb_forall in H.
  - destruct (lookup_lt_is_Some_2 present i ltac:(lia)) as [b Hb]. rewrite Hb. cbn [default from_option id].
    assert (b = true) as ->; [|done]. apply (H b). by eapply list_elem_of_In, list_elem_of_lookup_2.
  - rewrite (H o); [apply orb_true_r|]. by eapply list_elem_of_In, list_elem_of_lookup_2.
Qed.
