(* ===== verification/LeoEngine.v ===== *)
(** * The codec on a Leopard engine

    What the public entry points rely on ([LeopardEngine]): the encoder makes words of the
    code of any well-formed data, the data shards of a word determine the others, and the
    decoder restores the lost shards of a word.  With an engine of that kind
    [encode_sep], [verify] and the three reconstructions of a codec of its family are right,
    whichever family it is. *)

From Stdlib Require Import NArith Lia List Bool.
From stdpp Require Import base numbers list.
From S2P Require Import Prelude Errors Bytes Fields Gf8 Options LinAlg Matrix Leopard InversionCache Parallel Checks Codec.
From S2P Require Import Coding Encode Verify Shards DecodeMatrix RecoveryPlan Execute LeopardReconstruct Reconstruct Gf8Opt.
From S2P Require Import LeoStages LeoLocator LeoDecode LeoRestore LeoDecoder.

(** ** Helpers for engines *)

(** The lengths of the views stay. *)
Definition same_views (outputs outputs' : list (list byte)) : Prop := map length outputs' = map length outputs.

Lemma for_each_keeps_in {E A S} (P : S → Prop) (l : list A) (body : A → S → outcome E S) s out :
  (∀ x s s', x ∈ l → P s → body x s = Ok s' → P s') → P s → for_each l body s = Ok out → P out.
Proof.
  revert s. induction l as [|x l IH]; intros s Hb Hs; cbn [for_each]; [by intros [= <-]|].
  destruct (body x s) as [s'| |] eqn:He; cbn [obind]; [|done..]. apply IH.
  - intros y s1 s2 Hy. apply Hb. by right.
  - eapply Hb; [left|exact Hs|exact He].
Qed.

Lemma for_each_keeps {E A S} (P : S → Prop) (l : list A) (body : A → S → outcome E S) s out :
  (∀ x s s', P s → body x s = Ok s' → P s') → P s → for_each l body s = Ok out → P out.
Proof. intros Hb. apply for_each_keeps_in. intros x s1 s2 _. apply Hb. Qed.

Lemma index_inv {E A} (l : list A) i x : index (E:=E) l i = Ok x → l !! i = Some x.
Proof. unfold index. destruct (l !! i); [by intros [= ->]|done]. Qed.

Lemma slice_inv {E A} (l : list A) s e x : slice (E:=E) l s e = Ok x →
  s ≤ e ∧ e ≤ length l ∧ length x = e - s.
Proof. unfold slice. case_decide; [|done]. intros [= <-]. len. Qed.

Lemma update_view_keeps outputs0 outputs i (x y : list byte) outputs' : same_views outputs0 outputs →
  outputs !! i = Some x → length y = length x → update (E:=Error) outputs i y = Ok outputs' →
  same_views outputs0 outputs'.
Proof.
  intros Hs Hx Hl. unfold update. case_decide; [|done]. intros [= <-]. unfold same_views in *. rewrite <- Hs.
  rewrite <- (list_insert_id outputs i x Hx) at 2. rewrite !list_fmap_insert. by f_equal.
Qed.

(** The loop over the chunks. *)
Lemma decode_chunks_keep {W} decode recover (outputs0 : list (list byte)) :
  (∀ offset stop work outputs outputs', same_views outputs0 outputs →
     recover offset stop work outputs = Ok outputs' → same_views outputs0 outputs') →
  ∀ fuel chunk_size offset total (work work' : W) outputs outputs', same_views outputs0 outputs →
    decode_chunks decode recover fuel chunk_size offset total work outputs = Ok (work', outputs') →
    same_views outputs0 outputs'.
Proof.
  intros Hr. induction fuel as [|fuel IH]; intros chunk_size offset total work work' outputs outputs' Hs; [done|].
  cbn [decode_chunks]. destruct (offset <? total); [|by intros [= _ <-]].
  destruct (decode _ _ work) as [w| |]; cbn [obind]; [|done..].
  destruct (recover _ _ w outputs) as [outs| |] eqn:Hrec; cbn [obind]; [|done..].
  apply IH. by eapply Hr.
Qed.

(** Shards are equal when their elements are. *)
Lemma byte_columns_ext {A} (l1 l2 : list A) (x : A) : length l1 = length l2 →
  (∀ b, b < length l1 → default x (l1 !! b) = default x (l2 !! b)) → l1 = l2.
Proof.
  intros Hl H. apply list_ext_lt; [done|]. intros i Hi. specialize (H i Hi).
  destruct (lookup_lt_is_Some_2 l1 i Hi) as [a Ha], (lookup_lt_is_Some_2 l2 i ltac:(lia)) as [b Hb].
  rewrite Ha, Hb in *. cbn in H. by subst.
Qed.

(** ** The interface *)
Section interface.
Context {LE : LeopardEncoders} {LD : LeopardDecoders}.

Definition encode_of (family : CodecFamily) :=
  match family with LeopardGF16 => leopard_gf16_encode | _ => leopard_gf8_encode end.
Definition decode_of (family : CodecFamily) (jobs : N) : decode_fn :=
  match family with LeopardGF16 => leopard_gf16_reconstruct jobs | _ => reconstruct_with_tables end.

(** Shapes that the constructor accepts. *)
Definition family_fits (family : CodecFamily) (d p : nat) : Prop :=
  leopard_shard_combo_fits (N.of_nat d) (N.of_nat p) (max_total_shards_for_family (F:=gf8) family) = true.

Lemma family_fits_pos family d p : family_fits family d p → 0 < d ∧ 0 < p.
Proof. intros (k & m & _ & H1 & H2 & _)%leopard_shard_combo_fits_spec. lia. Qed.

(** An engine whose words of code are the shards that satisfy [words]. *)
Class LeopardEngine (family : CodecFamily) (words : nat → nat → nat → list (list byte) → Prop) : Prop := {
  leopard_family : family ≠ Classic;
  leopard_encodes d p n data parity : family_fits family d p → n mod 64 = 0 → sep_layout (F:=gf8) d p n data parity →
    ∃ parity', encode_of family d p data parity = Ok parity' ∧ length parity' = p ∧ all_len n parity' ∧
      words d p n (data ++ parity');
  leopard_unique d p n data parity parity' : family_fits family d p → n mod 64 = 0 → length data = d →
    length parity = p → length parity' = p → all_len n parity → all_len n parity' →
    words d p n (data ++ parity) → words d p n (data ++ parity') → parity = parity';
  leopard_keeps jobs : keeps_views (decode_of family jobs);
  leopard_decodes jobs d p n present shards input_data outputs : family_fits family d p → n ≠ 0 → n mod 64 = 0 →
    length present = d + p → d ≤ count_present present → length shards = d + p → all_len n shards →
    (∀ i shard, present !! i = Some true → shards !! i = Some shard → input_data !! i = Some (Some shard)) →
    length input_data = d + p → words d p n shards → length outputs = d + p → Forall (output_ok n) outputs →
    decode_of family jobs present outputs input_data d p = Ok (filled present shards outputs);
}.
End interface.

(** ** The codec *)
Section codec.
Context {RT : Runtime} {St : Storage byte} {L : LruCache (list nat) (CachedMatrix byte)} {LL : LruLaws L}.
Context {LE : LeopardEncoders} {LD : LeopardDecoders}.
Context (family : CodecFamily) (words : nat → nat → nat → list (list byte) → Prop) {EN : LeopardEngine family words}.
#[local] Abbreviation codec := (@ReedSolomon gf8 L).

(** Shards whose element columns are words of the code. *)
Definition leopard_shards (d p n : nat) (shards : list (list byte)) : Prop :=
  length shards = d + p ∧ Forall (λ shard, length shard = n) shards ∧ words d p n shards.

(** A codec of the family, of a shape that the constructor accepts. *)
Definition leopard_codec (self : codec) (d p : nat) : Prop :=
  rs_codec_family self = family ∧ data_shard_count self = d ∧ parity_shard_count self = p ∧
  family_fits family d p.

Lemma constructed_codec d p options self : builtin_mode (matrix_mode options) →
  with_options (F:=gf8) d p options = Ok self → rs_codec_family self = family → leopard_codec self d p.
Proof.
  intros Hmode Hnew Hfam. pose proof leopard_family as Hne.
  pose proof (ensures_ok_inv _ _ _ _ (with_options_ensures (F:=gf8) d p options Hmode) Hnew)
    as (_ & _ & Hv & Hd & Hp & Hf & _).
  rewrite Hf in Hfam. rewrite Hfam in Hv, Hf. split_and!; [done|done|done|]. unfold family_fits.
  destruct family; [done| |]; cbn [validate_leopard_family] in Hv.
  - unfold validate_leopard_gf8 in Hv. destruct (negb is_byte_field); [done|].
    cbn [max_total_shards_for_family]. by destruct (leopard_shard_combo_fits _ _ _).
  - unfold validate_leopard_gf16 in Hv. destruct (negb is_byte_field); [done|]. cbn [target_endian_big] in Hv.
    cbn [max_total_shards_for_family]. by destruct (leopard_shard_combo_fits _ _ _).
Qed.

(** The engine of the codec. *)
Definition encode_family_sep (self : codec) (data parity : list (list byte)) :=
  if is_leopard_gf8_family self then encode_leopard_gf8_sep (F:=gf8) self data parity
  else encode_leopard_gf16_sep (F:=gf8) self data parity.

Lemma encode_family_inner self data parity : rs_codec_family self = family →
  encode_family_sep self data parity = encode_leopard_sep_inner (F:=gf8) self data parity (encode_of family).
Proof.
  intros Hf. pose proof leopard_family as Hne. unfold encode_family_sep, is_leopard_gf8_family. rewrite Hf.
  by destruct family.
Qed.

Lemma codec_family self : rs_codec_family self = family →
  is_leopard_gf8_family self || is_leopard_gf16_family self = true.
Proof.
  intros Hf. pose proof leopard_family as Hne. unfold is_leopard_gf8_family, is_leopard_gf16_family. rewrite Hf.
  by destruct family.
Qed.

Lemma family_sep_ok self d p n data parity : leopard_codec self d p → n mod 64 = 0 →
  sep_layout (F:=gf8) d p n data parity →
  ∃ parity', encode_family_sep self data parity = Ok parity' ∧
    length parity' = p ∧ all_len n parity' ∧ words d p n (data ++ parity').
Proof.
  intros (Hf & Hd & Hp & Hsh) H64 Hlay. pose proof Hlay as (Hld & Hlp & Hn & Ha & Ha').
  destruct (family_fits_pos _ _ _ Hsh) as [Hd0 _].
  destruct (leopard_encodes d p n data parity Hsh H64 Hlay) as (parity' & Hrun & Hl & Ha'' & Hw).
  exists parity'. split_and!; [|done|done|done]. rewrite encode_family_inner by done.
  rewrite (encode_inner_bytes self n data parity), Hd, Hp; [done| |intros ->; simpl in Hld; lia|done|done].
  intros out Ho. rewrite Hd, Hp, Hrun in Ho. injection Ho as <-. by rewrite Hl.
Qed.

(** Encoding. *)
Lemma leopard_encode_ok self d p n data parity : leopard_codec self d p → n mod 64 = 0 →
  sep_layout (F:=gf8) d p n data parity →
  ∃ parity', encode_sep (F:=gf8) self data parity = Ok parity' ∧ leopard_shards d p n (data ++ parity').
Proof.
  intros Hc H64 Hlay. pose proof Hc as (Hf & Hd & Hp & Hsh). pose proof Hlay as (Hld & Hlp & Hn & Ha & Ha').
  destruct (family_fits_pos _ _ _ Hsh) as [Hd0 Hp0].
  destruct (family_sep_ok self d p n data parity Hc H64 Hlay) as (parity' & Hrun & Hl & Ha'' & Hw).
  exists parity'. unfold encode_sep. rewrite Hd, Hp, (sep_checks_ok d p n) by done. cbn [obind]. split.
  - rewrite <- Hrun. unfold encode_family_sep. pose proof (codec_family self Hf) as Hor.
    destruct (is_leopard_gf8_family self); [done|]. cbn [orb] in Hor. by rewrite Hor.
  - split_and!; [rewrite length_app; lia|by apply Forall_app|done].
Qed.

(** Verification. *)
Lemma leopard_verify_ok self d p n shards : leopard_codec self d p → n mod 64 = 0 →
  whole_layout (F:=gf8) (d + p) n shards →
  ∃ b, verify (F:=gf8) self shards = Ok b ∧ (b = true ↔ leopard_shards d p n shards).
Proof.
  intros Hc H64 Hlay. pose proof Hc as (Hf & Hd & Hp & Hsh). pose proof Hlay as (Hl & Hn & Ha).
  destruct (family_fits_pos _ _ _ Hsh) as [Hd0 Hp0].
  pose proof (whole_split (F:=gf8) d p n shards Hlay) as (Hld & Hlp & _ & Had & Hap).
  destruct (family_sep_ok self d p n (take d shards) (replicate p (replicate n x00)) Hc H64) as (parity' & Hrun & Hl' & Ha' & Hw).
  { split_and!; [done|by rewrite length_replicate|done|done|]. apply Forall_replicate, length_replicate. }
  assert (total_shard_count self = d + p) as Ht by (rewrite <- Hd, <- Hp; done).
  exists (bool_decide (parity' = drop d shards)). split.
  - unfold verify. rewrite Ht, (whole_checks_ok (F:=gf8) (d + p) n) by (done || lia).
    rewrite (codec_family self Hf). unfold verify_leopard.
    destruct (lookup_lt_is_Some_2 shards 0 ltac:(lia)) as [first Hfirst].
    rewrite (index_ok _ _ _ Hfirst). cbn [obind]. rewrite Hp.
    pose proof (Forall_lookup_1 _ _ _ _ Ha Hfirst) as Hfl. cbn beta in Hfl. rewrite Hfl.
    unfold verify_leopard_with_buffer. rewrite Hd.
    rewrite (slice_ok shards 0 d) by lia. cbn [obind]. rewrite Nat.sub_0_r, drop_0.
    rewrite (slice_ok shards d) by lia. cbn [obind].
    match goal with |- context [obind ?m _] =>
      replace m with (Ok (E:=Error) parity') by exact (eq_sym Hrun) end. cbn [obind fst]. rewrite (take_ge (drop d shards)) by len.
    by rewrite shards_agree_spec by (rewrite Hl', Hlp; done).
  - rewrite bool_decide_eq_true. rewrite <- (take_drop d shards) at 2. split.
    + intros <-. split_and!; [rewrite length_app; lia|by apply Forall_app|done].
    + intros (_ & _ & Hw'). by apply (leopard_unique d p n (take d shards)).
Qed.

(** *** Reconstruction *)
Section containers.
Context {T : Type} {S : ReconstructShard (F:=gf8) T} {SL : ShardLaws T S}.
Implicit Types (slices : list T) (required : nat → bool) (jobs : N).

(** What is left of the shards. *)
Definition pieces_of slices (shards : list (list byte)) : Prop :=
  length slices = length shards ∧
  ∀ i s (x : list byte), slices !! i = Some s → shard_get s = Some x → shards !! i = Some x.

(** The requested shards are back, and those that were there are still there. *)
Definition repaired slices required (shards : list (list byte)) slices' : Prop :=
  ∀ i s (x : list byte), slices !! i = Some s → shards !! i = Some x → is_here s = true ∨ required i = true →
    ∃ s', slices' !! i = Some s' ∧ shard_get s' = Some x.

Lemma here_piece slices shards i s : pieces_of slices shards → slices !! i = Some s → is_here s = true →
  ∃ x : list byte, shard_get s = Some x ∧ shards !! i = Some x.
Proof.
  intros [_ Hp] Hs Hh. unfold is_here in Hh. apply bool_decide_eq_true in Hh as [x Hx]. eauto.
Qed.

Lemma count_pieces slices : LeoRestore.count_present (map is_here slices) = LeopardReconstruct.present_count slices.
Proof.
  unfold LeoRestore.count_present, LeopardReconstruct.present_count. rewrite filter_map_length. f_equal.
  apply filter_ext_elem. intros s _. apply Is_true_true.
Qed.

Lemma regular_length slices shards n d len : 0 < d → d ≤ LeopardReconstruct.present_count slices →
  pieces_of slices shards → Forall (λ shard, length shard = n) shards → regular (F:=gf8) len slices → len = n.
Proof.
  intros Hd Hcnt Hp Ha Hreg. unfold LeopardReconstruct.present_count in Hcnt.
  destruct (filter (λ s, is_here s = true) slices) as [|s l] eqn:Hf; [simpl in Hcnt; lia|].
  assert (s ∈ filter (λ s, is_here s = true) slices) as [Hh Hin]%list_elem_of_filter by (rewrite Hf; left).
  apply list_elem_of_lookup in Hin as [i Hi]. destruct (here_piece slices shards i s Hp Hi Hh) as (x & Hx & Hsx).
  destruct (Hreg i s x Hi Hx) as [<- _]. by apply (Forall_lookup_1 _ _ _ _ Ha Hsx).
Qed.

Lemma family_decodes self d p n shards slices required jobs : leopard_codec self d p → n mod 64 = 0 → 0 < n →
  leopard_shards d p n shards → pieces_of slices shards → d ≤ LeopardReconstruct.present_count slices →
  decoded self slices required (decode_of family jobs) n
  = Ok (filled (map is_here slices) shards (fresh_views n (requests required slices))).
Proof.
  intros (Hf & Hd & Hp & Hsh) H64 Hn (Hl & Ha & Hw) Hpc Hcnt. pose proof Hpc as [Hlen _].
  assert (length (requests required slices) = d + p) as Hlr by (unfold requests; rewrite length_imap; lia).
  unfold decoded. rewrite Hd, Hp.
  apply (leopard_decodes jobs d p n); try done; [lia|len|by rewrite count_pieces| |len|unfold fresh_views; len|].
  - intros i x Hi Hx. rewrite lookup_map. rewrite lookup_map in Hi. destruct (slices !! i) as [s|] eqn:Hs; [|done].
    cbn in Hi |- *. injection Hi as Hh. destruct (here_piece slices shards i s Hpc Hs Hh) as (y & Hy & Hsy).
    rewrite Hx in Hsy. injection Hsy as <-. unfold view_of. by rewrite Hy.
  - apply Forall_map, Forall_forall. intros [] _; [right; apply length_replicate|by left].
Qed.

Lemma filled_lookup slices shards required n i s x : pieces_of slices shards → 0 < n →
  slices !! i = Some s → shards !! i = Some x → is_here s = false → required i = true →
  filled (map is_here slices) shards (fresh_views n (requests required slices)) !! i = Some x.
Proof.
  intros [Hlen _] Hn Hs Hx Hh Hr. pose proof (lookup_lt_Some _ _ _ Hs) as Hi.
  assert (length (fresh_views n (requests required slices)) = length slices) as Hl
    by (unfold fresh_views, requests; rewrite length_map, length_imap; done).
  unfold filled. rewrite lookup_tabulate by lia. f_equal. unfold fresh_views.
  rewrite lookup_map, requests_lookup, Hs. cbn [fmap option_fmap option_map]. rewrite Hh, Hr. cbn [negb andb default from_option id].
  unfold kept, LeoLocator.here. rewrite lookup_map, Hs. cbn [option_map default from_option id]. rewrite Hh, length_replicate.
  rewrite (proj2 (Nat.eqb_neq n 0)) by lia. cbn [orb]. by rewrite Hx.
Qed.

Lemma leopard_impl_ok self d p n shards slices required jobs : leopard_codec self d p → n mod 64 = 0 → 0 < n →
  leopard_shards d p n shards → pieces_of slices shards → d ≤ LeopardReconstruct.present_count slices →
  let '(slices', r) := reconstruct_leopard_impl self slices required (decode_of family jobs) in
  match r with
  | Ok _ => repaired slices required shards slices'
  | Err e => ∃ i s s', slices !! i = Some s ∧ get_or_initialize s n = (s', Rejected e)
  | Panic => False
  end.
Proof.
  intros Hc H64 Hn Hsh Hpc Hcnt. pose proof Hc as (Hf & Hd & Hp & Hshape).
  destruct (family_fits_pos _ _ _ Hshape) as [Hd0 _].
  pose proof Hsh as (Hl & Ha & _). pose proof Hpc as [Hlen Hpieces].
  assert (total_shard_count self = d + p) as Ht by (rewrite <- Hd, <- Hp; done).
  pose proof (validation_ensures self slices required ltac:(by rewrite Hd)) as Hv.
  unfold reconstruct_leopard_impl.
  destruct (validate_leopard_reconstruction self slices required) as [o|e|]; cbn [ensures] in Hv; [| |done].
  2:{ exfalso. destruct Hv as [[_ H]|[[_ H]|[H|[_ H]]]]; [lia|lia| |lia].
      destruct H as [(_ & i & s & Hs & Hx)|[(_ & Hw)|(_ & i & s & x & _ & _ & Hx)]]; [| |done].
      - pose proof (Forall_lookup_1 _ _ _ _ Ha (Hpieces i s [] Hs Hx)) as H0. simpl in H0. lia.
      - destruct Hw as [(i & s & x & Hs & Hx & Hm)|(i & j & s & t & x & y & Hs & Ht' & Hx & Hy & Hne)].
        + apply Hm. pose proof (Forall_lookup_1 _ _ _ _ Ha (Hpieces i s x Hs Hx)) as H0.
          exact (eq_trans (f_equal (λ k, k mod 64) H0) H64).
        + pose proof (Forall_lookup_1 _ _ _ _ Ha (Hpieces i s x Hs Hx)) as H0.
          pose proof (Forall_lookup_1 _ _ _ _ Ha (Hpieces j t y Ht' Hy)) as H1. exact (Hne (eq_trans H0 (eq_sym H1))). }
  destruct Hv as (_ & _ & len & _ & _ & Hreg & _ & ->).
  assert (len = n) as -> by (by apply (regular_length slices shards n d)).
  destruct (any_requested required slices) eqn:Hany.
  2:{ intros i s x Hs Hx Hor. exists s. split; [done|]. destruct Hor as [Hh|Hr].
      - destruct (here_piece slices shards i s Hpc Hs Hh) as (y & Hy & Hsy). congruence.
      - destruct (is_here s) eqn:Hh.
        + destruct (here_piece slices shards i s Hpc Hs Hh) as (y & Hy & Hsy). congruence.
        + pose proof (any_requested_false required slices i s Hany Hs Hh). congruence. }
  rewrite staged_agrees, heap_regular by (done || apply leopard_keeps).
  rewrite (family_decodes self d p n shards) by done. cbn [obind staged_run].
  set (outputs := filled _ _ _). set (req := requests required slices).
  pose proof (publish_leopard_sound n (staged_of req outputs) slices) as Hpub.
  assert (length outputs = length slices ∧ length req = length slices) as [Hlo Hlr].
  { unfold outputs, filled, req, fresh_views, requests. rewrite length_tabulate, length_map, !length_imap. done. }
  specialize (Hpub ltac:(intros; by eexists)).
  assert (∀ i b, staged_of req outputs !! i = Some (Some b) → ∃ s,
    slices !! i = Some s ∧ is_here s = false ∧ required i = true ∧ shards !! i = Some b) as Hst.
  { intros i b [Hr Hb]%staged_lookup. unfold req in Hr. rewrite requests_lookup in Hr.
    destruct (slices !! i) as [s|] eqn:Hs; [|done]. injection Hr as [Hh%negb_true_iff Hri]%andb_true_iff.
    exists s. split_and!; [done|done|done|].
    destruct (lookup_lt_is_Some_2 shards i) as [x Hx]; [rewrite <- Hlen; by eapply lookup_lt_Some|].
    pose proof (filled_lookup slices shards required n i s x Hpc Hn Hs Hx Hh Hri) as Hfx.
    unfold outputs, req in Hb. rewrite Hfx in Hb. by rewrite Hx. }
  assert (∀ s, is_here s = false → shard_get (T:=T) s = None) as Hgone.
  { intros s Hh. unfold is_here in Hh. apply bool_decide_eq_false in Hh. by apply eq_None_not_Some. }
  destruct (publish_leopard n slices (staged_of req outputs)) as [slices' r].
  destruct Hpub as [(_ & Hkeep & _) Hr].
  { unfold staged_of. rewrite length_zip_with. lia. }
  { intros i b Hb. destruct (Hst i b Hb) as (s & Hs & Hh & _ & Hx). split; [|by exists s; auto].
    exact (Forall_lookup_1 _ _ _ _ Ha Hx). }
  destruct r as [[]|e|]; [| |done].
  - intros i s x Hs Hx Hor. destruct (is_here s) eqn:Hh.
    + destruct (here_piece slices shards i s Hpc Hs Hh) as (y & Hy & Hsy).
      exists s. rewrite Hx in Hsy. injection Hsy as <-. split; [|done]. apply Hkeep; [done|].
      destruct (staged_of req outputs !! i) as [[b|]|] eqn:Hb; [|done..].
      destruct (Hst i b Hb) as (s' & Hs' & Hh' & _). congruence.
    + destruct Hor as [|Hri]; [done|].
      assert (staged_of req outputs !! i = Some (Some x)) as Hb.
      { apply staged_lookup. split; [|by apply (filled_lookup slices shards required n i s x)].
        unfold req. rewrite requests_lookup, Hs. cbn [fmap option_fmap option_map]. by rewrite Hh, Hri. }
      destruct (Hr i x Hb) as (s' & Hs' & Hv). exists s'. split; [done|].
      unfold view_of in Hv. destruct (shard_get s') as [y|] eqn:Hy; [|done]. exact Hv.
  - destruct Hr as (i & b & s & s' & _ & Hs & Hg). by exists i, s, s'.
Qed.

(** The outcome of a reconstruction: success, or the error of a container that rejects its
    buffer. *)
Definition repair_outcome (self : codec) (n : nat) (shards : list (list byte)) slices required
    (result : run (F:=gf8) (T:=T)) : Prop :=
  let '(self', slices', r) := result in
  self' = self ∧
  match r with
  | Ok _ => repaired slices required shards slices'
  | Err e => ∃ i s s', slices !! i = Some s ∧ get_or_initialize s n = (s', Rejected e)
  | Panic => False
  end.

Lemma leopard_run_ok self d p n shards slices required jobs : leopard_codec self d p → n mod 64 = 0 → 0 < n →
  leopard_shards d p n shards → pieces_of slices shards → d ≤ LeopardReconstruct.present_count slices →
  repair_outcome self n shards slices required
    (leopard_run (F:=gf8) self (reconstruct_leopard_impl self slices required (decode_of family jobs))).
Proof.
  intros Hc H64 Hn Hsh Hpc Hcnt.
  pose proof (leopard_impl_ok self d p n shards slices required jobs Hc H64 Hn Hsh Hpc Hcnt) as H.
  unfold repair_outcome, leopard_run. by destruct (reconstruct_leopard_impl _ _ _ _).
Qed.

(** The three entry points. *)
Lemma leopard_entries_ok self d p n shards slices : leopard_codec self d p → n mod 64 = 0 → 0 < n →
  leopard_shards d p n shards → pieces_of slices shards → d ≤ LeopardReconstruct.present_count slices →
  repair_outcome self n shards slices (λ _, true) (reconstruct (F:=gf8) self slices) ∧
  repair_outcome self n shards slices (λ i, bool_decide (i < d)) (reconstruct_data (F:=gf8) self slices) ∧
  ∀ flags, length flags = d ∨ length flags = d + p →
    repair_outcome self n shards slices (is_required flags) (reconstruct_some (F:=gf8) self slices flags).
Proof.
  intros Hc H64 Hn Hsh Hpc Hcnt. pose proof Hc as (Hf & Hd & Hp & _).
  assert (∀ required, repair_outcome self n shards slices required (leopard_run (F:=gf8) self
    (reconstruct_leopard_impl self slices required
      (decode_of family (exec_max_parallel_jobs (rs_options self)))))) as Hrun.
  { intros required. by apply (leopard_run_ok self d p). }
  pose proof leopard_family as Hne.
  unfold reconstruct, reconstruct_data, reconstruct_some, reconstruct_leopard_gf8, reconstruct_leopard_gf16,
    is_leopard_gf8_family, is_leopard_gf16_family. rewrite Hf, Hd.
  assert (total_shard_count self = d + p) as -> by (rewrite <- Hd, <- Hp; done).
  assert (all_or_data self true = λ i, bool_decide (i < d)) as -> by (by rewrite <- Hd).
  split_and!; [destruct family; [done|apply Hrun..]..|]. intros flags Hflags.
  assert (bool_decide (length flags ≠ d) && bool_decide (length flags ≠ d + p) = false) as ->.
  { apply andb_false_iff. destruct Hflags as [<-|<-]; [left|right]; by apply bool_decide_eq_false_2; intros []. }
  destruct family; [done|apply Hrun..].
Qed.
End containers.
End codec.
