(* ===== verification/LeoTables16.v ===== *)
(** * Tables of the Leopard GF(2^16) engine
    ([src/core/leopard_gf16/tables.rs], the arithmetic of [ops.rs], constants of [mod.rs])

    The tables are generated as the code generates them.  They have up to [2^17] entries,
    too many to compare by evaluation, so each loop has an invariant: the logarithm of the
    coordinates [v] is the number of steps that take the shift register of [LeoField16] to
    the residue with these coordinates. *)

From Stdlib Require Import NArith ZArith Lia List Bool.
From stdpp Require Import base numbers list.
From S2P Require Import Prelude Bytes Fields Gf8 Gf16 LinAlg Lch LeoStages LeoWalsh LeoField16.

Definition BITWIDTH16 : nat := 16.
Definition ORDER16 : nat := 2 ^ BITWIDTH16.
Definition MODULUS16 : nat := ORDER16 - 1.
Definition POLYNOMIAL16 : N := 0x1002D.
Definition WORK_SIZE16 : nat := 32 * 2 ^ 10.

Record LeopardGf16Tables := mk_tables16 {
  log_lut16 : list u16;
  exp_lut16 : list u16;
  fft_skew16 : list u16;
  log_walsh16 : list u16;
}.

(** An entry of a table of a fixed size. *)
Definition tbl16 (l : list u16) (i : nat) : u16 := default u16_0 (l !! i).

(** ** Logarithms modulo 65535 *)
Definition add_mod16 (a b : u16) : u16 :=
  let sum := (u16_to_N a + u16_to_N b)%N in as_u16 (sum + N.shiftr sum 16).

(** The subtraction wraps around at the width of [u32]. *)
Definition sub_mod16 (a b : u16) : u16 :=
  let dif := ((u16_to_N a + 2 ^ 32 - u16_to_N b) mod 2 ^ 32)%N in
  as_u16 ((dif + N.shiftr dif 16) mod 2 ^ 32).

Definition mul_log16 (a log_b : u16) (log_lut exp_lut : list u16) : u16 :=
  if bool_decide (a = u16_0) then u16_0
  else tbl16 exp_lut (u16_to_nat (add_mod16 (tbl16 log_lut (u16_to_nat a)) log_b)).

Definition fwht2_alt16 (a b : u16) : u16 * u16 := (add_mod16 a b, sub_mod16 a b).

Definition fwht16 {E} (data : list u16) : outcome E (list u16) :=
  fwht_loop fwht2_alt16 BITWIDTH16 ORDER16 1 ORDER16 data.

Definition fwht16_mtrunc {E} (data : list u16) (m mtrunc : nat) : outcome E (list u16) :=
  fwht_loop fwht2_alt16 BITWIDTH16 m 1 mtrunc data.

Definition fwht16_variable {E} (data : list u16) : outcome E (list u16) :=
  fwht_variable_with fwht2_alt16 data.

(** ** [tables.rs] *)

(** The [exp_lut] of the first phase: the number of the step for each state. *)
Definition init_states16 : outcome Empty_set (list u16) :=
  let! ' (exp_lut, _) :=
    for_range 0 MODULUS16 (λ i '(exp_lut, state),
      let! exp_lut := update exp_lut (N.to_nat state) (as_u16 (N.of_nat i)) in
      let state := N.shiftl state 1 in
      Ok (exp_lut, if (N.of_nat ORDER16 <=? state)%N then N.lxor state POLYNOMIAL16 else state))
    (replicate (ORDER16 * 2) u16_0, 1%N) in
  update exp_lut 0 (as_u16 (N.of_nat MODULUS16)).

(** The residues with the coordinates [0 .. ORDER16 - 1]. *)
Definition init_cantor16 : outcome Empty_set (list u16) :=
  let! log_lut := update (replicate ORDER16 u16_0) 0 u16_0 in
  for_each (imap pair cantor_basis16) (λ '(i, basis) log_lut,
    let width := 2 ^ i in
    for_range 0 width (λ j log_lut,
      let! v := index log_lut j in update log_lut (j + width) (u16_xor v basis)) log_lut)
  log_lut.

Definition init_luts16 : outcome Empty_set (list u16 * list u16) :=
  let! exp_lut := init_states16 in
  let! log_lut := init_cantor16 in
  let! log_lut :=
    for_range 0 ORDER16 (λ i log_lut,
      let! v := index log_lut i in update log_lut i (tbl16 exp_lut (u16_to_nat v))) log_lut in
  let! exp_lut :=
    for_range 0 ORDER16 (λ i exp_lut,
      let! v := index log_lut i in update exp_lut (u16_to_nat v) (as_u16 (N.of_nat i))) exp_lut in
  let! first := index exp_lut 0 in
  let! exp_lut := update exp_lut MODULUS16 first in
  Ok (log_lut, exp_lut).

(** One round of [init_fft_skew16]: the skews of one level, and the next [temp]. *)
Definition skew_round16 (log_lut exp_lut : list u16) (m : nat) (state : list u16 * list u16)
  : outcome Empty_set (list u16 * list u16) :=
  let '(temp, fft_skew) := state in
  let step := 2 ^ (m + 1) in
  let! fft_skew := update fft_skew (2 ^ m - 1) u16_0 in
  let! fft_skew :=
    for_range m (BITWIDTH16 - 1) (λ i fft_skew,
      let s := 2 ^ (i + 1) in
      while_below (2 ^ m - 1) s step (λ j fft_skew,
        let! v := index fft_skew j in
        let! t := index temp i in
        update fft_skew (j + s) (u16_xor v t)) fft_skew) fft_skew in
  let! t := index temp m in
  let gf_prod := mul_log16 t (tbl16 log_lut (u16_to_nat (u16_xor t (as_u16 1)))) log_lut exp_lut in
  let! temp :=
    update temp m
      (as_u16 (N.of_nat MODULUS16 - u16_to_N (tbl16 log_lut (u16_to_nat gf_prod)))) in
  let! temp :=
    for_range (m + 1) (BITWIDTH16 - 1) (λ i temp,
      let! t := index temp i in
      let! tm := index temp m in
      let sum := add_mod16 (tbl16 log_lut (u16_to_nat (u16_xor t (as_u16 1)))) tm in
      update temp i (mul_log16 t sum log_lut exp_lut)) temp in
  Ok (temp, fft_skew).

Definition init_fft_skew16 (log_lut exp_lut : list u16)
  : outcome Empty_set (list u16 * list u16) :=
  let! temp :=
    for_range 1 BITWIDTH16 (λ i temp, update temp (i - 1) (as_u16 (2 ^ N.of_nat i)))
      (replicate (BITWIDTH16 - 1) u16_0) in
  let! ' (_, fft_skew) :=
    for_range 0 (BITWIDTH16 - 1) (skew_round16 log_lut exp_lut) (temp, replicate MODULUS16 u16_0) in
  let! fft_skew :=
    for_range 0 MODULUS16 (λ i fft_skew,
      let! v := index fft_skew i in update fft_skew i (tbl16 log_lut (u16_to_nat v))) fft_skew in
  let! log_walsh :=
    for_range 0 ORDER16 (λ i log_walsh, update log_walsh i (tbl16 log_lut i))
      (replicate ORDER16 u16_0) in
  let! log_walsh := update log_walsh 0 u16_0 in
  let! log_walsh := fwht16 log_walsh in
  Ok (fft_skew, log_walsh).

Definition build_tables16 : outcome Empty_set LeopardGf16Tables :=
  let! ' (log_lut, exp_lut) := init_luts16 in
  let! ' (fft_skew, log_walsh) := init_fft_skew16 log_lut exp_lut in
  Ok (mk_tables16 log_lut exp_lut fft_skew log_walsh).

(** ** Sizes *)
Lemma ORDER16_pow : ORDER16 = 2 ^ 16.
Proof. reflexivity. Qed.

Lemma ORDER16_N : N.of_nat ORDER16 = (2 ^ 16)%N.
Proof. unfold ORDER16, BITWIDTH16. by rewrite Nat2N.inj_pow. Qed.

#[global] Opaque ORDER16.

Lemma MODULUS16_N : N.of_nat MODULUS16 = 65535%N.
Proof. unfold MODULUS16. rewrite Nat2N.inj_sub, ORDER16_N. reflexivity. Qed.

Lemma order_succ : ORDER16 = S MODULUS16.
Proof. pose proof ORDER16_N. unfold MODULUS16. lia. Qed.

#[global] Opaque MODULUS16.

Lemma u16_to_nat_lt a : u16_to_nat a < ORDER16.
Proof. pose proof (u16_to_N_bound a). pose proof ORDER16_N. unfold u16_to_nat. lia. Qed.

Lemma u16_to_nat_as n : n < ORDER16 → u16_to_nat (as_u16 (N.of_nat n)) = n.
Proof. pose proof ORDER16_N. intros Hn. unfold u16_to_nat. rewrite u16_to_N_small by lia. lia. Qed.

(** ** The tables of logarithms and exponentials *)

(** [x] is the logarithm of the coordinates [v]. *)
Definition is_log (v : nat) (x : u16) : Prop :=
  if decide (v = 0) then x = as_u16 65535
  else (u16_to_N x < 65535)%N ∧ state (u16_to_N x) = cant 16 (N.of_nat v).

Lemma state_lt n : N.to_nat (state n) < ORDER16.
Proof. pose proof (proj1 (state_spec n)). pose proof ORDER16_N. lia. Qed.

Lemma init_states16_ok : ensures init_states16 (λ e, length e = ORDER16 * 2 ∧
  e !! 0 = Some (as_u16 65535) ∧ ∀ n, (n < 65535)%N → e !! N.to_nat (state n) = Some (as_u16 n))
  (λ _, False).
Proof.
  unfold init_states16.
  apply (ensures_bind _ _ (λ '(e, _), length e = ORDER16 * 2 ∧
    ∀ n, (n < 65535)%N → e !! N.to_nat (state n) = Some (as_u16 n))).
  - apply (for_range_post _ _ _ (λ i '(e, st), length e = ORDER16 * 2 ∧ st = state (N.of_nat i) ∧
      ∀ n, (n < N.of_nat i)%N → e !! N.to_nat (state n) = Some (as_u16 n))); [lia| | |].
    + split_and!; [len|done|]. intros n Hn. lia.
    + intros i [e st] Hi (Hl & -> & He).
      rewrite update_ok by (rewrite Hl; pose proof (state_lt (N.of_nat i)); lia). cbn [obind ensures].
      rewrite length_insert. split_and!; [done| |].
      * rewrite Nat2N.inj_succ, state_succ. unfold lfsr. by rewrite ORDER16_N.
      * intros n Hn. pose proof MODULUS16_N. destruct (decide (n = N.of_nat i)) as [->|Hne].
        -- apply list_lookup_insert_eq. rewrite Hl. pose proof (state_lt (N.of_nat i)). lia.
        -- rewrite list_lookup_insert_ne; [apply He; lia|].
           intros Heq%N2Nat.inj. apply state_inj in Heq; lia.
    + intros [e st] (Hl & _ & He). split; [done|]. intros n Hn. apply He. by rewrite MODULUS16_N.
  - intros [e st] (Hl & He). rewrite update_ok by (rewrite Hl; pose proof (state_lt 0); lia).
    cbn [ensures]. rewrite length_insert, MODULUS16_N. split_and!; [done| |].
    + apply list_lookup_insert_eq. rewrite Hl. pose proof (state_lt 0). lia.
    + intros n Hn. rewrite list_lookup_insert_ne by (pose proof (state_neq_0 n); lia). by apply He.
Qed.

Lemma cant_extend (n : nat) v : (v < 2 ^ N.of_nat n)%N → cant (S n) v = cant n v.
Proof.
  intros Hv. cbn [cant]. destruct (N.testbit v (N.of_nat n)) eqn:Hb; [|apply N.lxor_0_r].
  exfalso. rewrite N.testbit_eqb, N.div_small in Hb by done. done.
Qed.

Lemma cant_mono (n m : nat) v : n ≤ m → (v < 2 ^ N.of_nat n)%N → cant m v = cant n v.
Proof.
  induction 1 as [|m Hm IH]; intros Hv; [done|]. rewrite cant_extend; [by apply IH|].
  eapply N.lt_le_trans; [exact Hv|]. apply N.pow_le_mono_r; lia.
Qed.

(** The upper half of the coordinates below [2 ^ (n + 1)]. *)
Lemma cant_upper (n : nat) v : n < 16 → (v < 2 ^ N.of_nat n)%N →
  cant 16 (v + 2 ^ N.of_nat n) = N.lxor (cant 16 v) (basis16 n).
Proof.
  intros Hn Hv. assert (v + 2 ^ N.of_nat n = N.lxor v (2 ^ N.of_nat n))%N as ->.
  { apply N.add_nocarry_lxor. apply N.bits_inj_0. intros k. rewrite N.land_spec.
    destruct (N.eqb_spec k (N.of_nat n)) as [->|Hk].
    - rewrite (N.testbit_eqb v), N.div_small by done. done.
    - rewrite N.pow2_bits_false by done. apply andb_false_r. }
  rewrite cant_lxor. f_equal. rewrite (cant_mono (S n) 16) by (try lia; rewrite Nat2N.inj_succ;
    apply N.pow_lt_mono_r; lia).
  cbn [cant]. rewrite N.pow2_bits_true. enough (cant n (2 ^ N.of_nat n) = 0)%N as -> by apply N.lxor_0_l.
  clear Hn Hv. enough (∀ m, m ≤ n → cant m (2 ^ N.of_nat n) = 0%N) as H by by apply H.
  induction m as [|m IH]; intros Hm; [done|]. cbn [cant]. rewrite IH by lia.
  by rewrite N.pow2_bits_false by lia.
Qed.

Lemma u16_basis n : n < 16 → as_u16 (basis16 n) = List.nth n cantor_basis16 u16_0.
Proof. intros _. unfold basis16. apply as_u16_to_N. Qed.

Lemma init_cantor16_ok : ensures init_cantor16 (λ l, length l = ORDER16 ∧
  ∀ v, v < ORDER16 → l !! v = Some (as_u16 (cant 16 (N.of_nat v)))) (λ _, False).
Proof.
  unfold init_cantor16. pose proof order_succ.
  rewrite update_ok by (len; lia). cbn [obind].
  apply (for_each_post _ _ (λ i l, length l = ORDER16 ∧
    ∀ v, v < 2 ^ i → l !! v = Some (as_u16 (cant 16 (N.of_nat v))))).
  - split; [len|]. intros v Hv. cbn in Hv. assert (v = 0) as -> by lia.
    rewrite list_lookup_insert_eq by (len; lia). rewrite cant_0. by rewrite as_u16_0.
  - intros i [i' basis] l Hi (Hl & Hc). rewrite list_lookup_imap in Hi.
    destruct (cantor_basis16 !! i) as [b|] eqn:Hb; [|done]. cbn in Hi. injection Hi as <- <-.
    pose proof (lookup_lt_Some _ _ _ Hb) as Hi. change (length cantor_basis16) with 16 in Hi.
    assert (b = as_u16 (basis16 i)) as ->.
    { rewrite u16_basis by done. rewrite nth_lookup, Hb. done. }
    assert (2 ^ i + 2 ^ i ≤ ORDER16) as Hfit.
    { pose proof ORDER16_N. pose proof (N.pow_le_mono_r 2 (N.succ (N.of_nat i)) 16 ltac:(lia) ltac:(lia)) as Hp.
      rewrite N.pow_succ_r' in Hp. change 2%N with (N.of_nat 2) in Hp at 2. rewrite <- Nat2N.inj_pow in Hp. lia. }
    apply (for_range_post _ _ _ (λ j l, length l = ORDER16 ∧
      ∀ v, v < 2 ^ i ∨ 2 ^ i ≤ v ∧ v < 2 ^ i + j → l !! v = Some (as_u16 (cant 16 (N.of_nat v))))); [lia| | |].
    + split; [done|]. intros v [Hv|Hv]; [by apply Hc|lia].
    + intros j l' Hj (Hl' & Hc'). rewrite (index_ok _ _ _ (Hc' j ltac:(lia))). cbn [obind].
      rewrite update_ok by (rewrite Hl'; lia). cbn [ensures]. rewrite length_insert. split; [done|].
      intros v Hv. destruct (decide (v = j + 2 ^ i)) as [->|Hne].
      * rewrite list_lookup_insert_eq by (rewrite Hl'; lia). rewrite <- as_u16_lxor.
        rewrite Nat2N.inj_add, Nat2N.inj_pow. change (N.of_nat 2) with 2%N.
        rewrite cant_upper; [done|lia|]. change 2%N with (N.of_nat 2). rewrite <- Nat2N.inj_pow. lia.
      * rewrite list_lookup_insert_ne by lia. apply Hc'. lia.
    + intros l' (Hl' & Hc'). split; [done|]. intros v Hv. apply Hc'. rewrite pow2_S in Hv. lia.
  - intros l (Hl & Hc). split; [done|]. intros v Hv. apply Hc. rewrite ORDER16_pow in Hv. exact Hv.
Qed.

(** ** Both tables *)
Lemma cant_inj v v' : (v < 2 ^ 16)%N → (v' < 2 ^ 16)%N → cant 16 v = cant 16 v' → v = v'.
Proof. intros Hv Hv' H. apply phiN_inj; [done..|]. unfold phiN. by rewrite H. Qed.

Lemma is_log_bound v x : is_log v x → (u16_to_N x ≤ 65535)%N.
Proof. intros _. pose proof (u16_to_N_bound x). change (2 ^ 16)%N with 65536%N in *. lia. Qed.

Lemma is_log_exists v : v < ORDER16 → 0 < v → ∃ n, (n < 65535)%N ∧ state n = cant 16 (N.of_nat v).
Proof.
  intros Hv H0. pose proof ORDER16_N.
  destruct (cant_state (N.of_nat v) ltac:(lia) ltac:(lia)) as (n & Hn & Hs). by exists n.
Qed.

Lemma is_log_inj v v' x : v < ORDER16 → v' < ORDER16 → is_log v x → is_log v' x → v = v'.
Proof.
  intros Hv Hv'. pose proof ORDER16_N. unfold is_log. repeat case_decide; subst; [done|..].
  - intros -> [Hb _]. rewrite u16_to_N_small in Hb by done. lia.
  - intros [Hb _] ->. rewrite u16_to_N_small in Hb by done. lia.
  - intros [_ Hs] [_ Hs']. rewrite Hs in Hs'. apply cant_inj in Hs'; lia.
Qed.

(** [l] and [e] are the tables of logarithms and of exponentials. *)
Definition luts_ok (l e : list u16) : Prop :=
  length l = ORDER16 ∧ length e = ORDER16 * 2 ∧
  (∀ v, v < ORDER16 → ∃ x, l !! v = Some x ∧ is_log v x) ∧
  (∀ v x, v < ORDER16 → 0 < v → is_log v x → e !! u16_to_nat x = Some (as_u16 (N.of_nat v))) ∧
  e !! MODULUS16 = Some (as_u16 1).

(** The translation of the residues into logarithms. *)
Lemma log_loop_ok e l : length e = ORDER16 * 2 → e !! 0 = Some (as_u16 65535) →
  (∀ n, (n < 65535)%N → e !! N.to_nat (state n) = Some (as_u16 n)) → length l = ORDER16 →
  (∀ v, v < ORDER16 → l !! v = Some (as_u16 (cant 16 (N.of_nat v)))) →
  ensures (E:=Empty_set) (for_range 0 ORDER16 (λ i log_lut,
      let! v := index log_lut i in update log_lut i (tbl16 e (u16_to_nat v))) l)
    (λ l, length l = ORDER16 ∧ ∀ v, v < ORDER16 → ∃ x, l !! v = Some x ∧ is_log v x) (λ _, False).
Proof.
  intros Hle He0 He Hl Hc.
  apply (for_range_post _ _ _ (λ i l, length l = ORDER16 ∧
    (∀ v, v < i → ∃ x, l !! v = Some x ∧ is_log v x) ∧
    ∀ v, i ≤ v → v < ORDER16 → l !! v = Some (as_u16 (cant 16 (N.of_nat v))))); [lia| | |].
  - split_and!; [done|lia|]. intros v _. apply Hc.
  - intros i l' Hi (Hl' & Hlog & Hc').
    rewrite (index_ok _ _ _ (Hc' i ltac:(lia) ltac:(lia))). cbn [obind].
    rewrite update_ok by (rewrite Hl'; lia). cbn [ensures]. rewrite length_insert.
    split_and!; [done| |].
    + intros v Hv. destruct (decide (v = i)) as [->|Hne].
      * eexists. split; [apply list_lookup_insert_eq; rewrite Hl'; lia|].
        unfold tbl16, u16_to_nat, is_log. rewrite u16_to_N_small by apply cant_bound.
        case_decide as H0; [subst i; rewrite cant_0; change (N.to_nat 0) with 0; by rewrite He0|].
        destruct (is_log_exists i ltac:(lia) ltac:(lia)) as (n & Hn & Hs). rewrite <- Hs.
        rewrite He by done. cbn [default from_option id]. rewrite u16_to_N_small by lia. done.
      * rewrite list_lookup_insert_ne by lia. apply Hlog. lia.
    + intros v Hv Hv'. rewrite list_lookup_insert_ne by lia. apply Hc'; lia.
  - intros l' (Hl' & Hlog & _). split; [done|]. intros v Hv. apply Hlog. lia.
Qed.

(** The inversion. *)
Lemma exp_loop_ok l e : length e = ORDER16 * 2 → length l = ORDER16 →
  (∀ v, v < ORDER16 → ∃ x, l !! v = Some x ∧ is_log v x) →
  ensures (E:=Empty_set) (for_range 0 ORDER16 (λ i exp_lut,
      let! v := index l i in update exp_lut (u16_to_nat v) (as_u16 (N.of_nat i))) e)
    (λ e, length e = ORDER16 * 2 ∧
      ∀ v x, v < ORDER16 → is_log v x → l !! v = Some x → e !! u16_to_nat x = Some (as_u16 (N.of_nat v)))
    (λ _, False).
Proof.
  intros Hle Hl Hlog.
  apply (for_range_post _ _ _ (λ i e, length e = ORDER16 * 2 ∧
    ∀ v x, v < i → is_log v x → l !! v = Some x → e !! u16_to_nat x = Some (as_u16 (N.of_nat v))));
    [lia|split; [done|lia]| |].
  - intros i e' Hi (Hle' & He). destruct (Hlog i ltac:(lia)) as (x & Hx & Hix).
    rewrite (index_ok _ _ _ Hx). cbn [obind]. pose proof (u16_to_nat_lt x).
    rewrite update_ok by lia. cbn [ensures]. rewrite length_insert. split; [done|].
    intros v y Hv Hy Hly. destruct (decide (v = i)) as [->|Hne].
    + simplify_eq. apply list_lookup_insert_eq. lia.
    + rewrite list_lookup_insert_ne; [apply He; [lia|done..]|].
      intros Hxy%u16_to_nat_inj. subst y. apply Hne. by eapply is_log_inj; [lia|lia|..].
  - intros e' (Hle' & He). split; [done|]. intros v x Hv. by apply He.
Qed.

Lemma is_log_unique v x y : is_log v x → is_log v y → x = y.
Proof.
  unfold is_log. case_decide; [congruence|]. intros [Hx Hsx] [Hy Hsy].
  apply u16_to_N_inj, state_inj; [done..|congruence].
Qed.

Lemma is_log_1 : is_log 1 u16_0.
Proof. split; [reflexivity|vm_compute; reflexivity]. Qed.

Lemma init_luts16_ok : ensures init_luts16 (λ p, luts_ok p.1 p.2) (λ _, False).
Proof.
  unfold init_luts16.
  eapply ensures_bind; [exact init_states16_ok|]. intros e0 (Hle0 & Hz0 & Hs0).
  eapply ensures_bind; [exact init_cantor16_ok|]. intros c (Hlc & Hcant).
  eapply ensures_bind; [exact (log_loop_ok e0 c Hle0 Hz0 Hs0 Hlc Hcant)|]. intros l (Hll & Hlog).
  eapply ensures_bind; [exact (exp_loop_ok l e0 Hle0 Hll Hlog)|]. intros e (Hle & Hexp).
  pose proof order_succ. pose proof MODULUS16_N.
  assert (∀ v x, v < ORDER16 → is_log v x → e !! u16_to_nat x = Some (as_u16 (N.of_nat v))) as Hfull.
  { intros v x Hv Hx. destruct (Hlog v Hv) as (y & Hy & Hiy).
    rewrite (is_log_unique v x y Hx Hiy). by apply Hexp. }
  assert (e !! 0 = Some (as_u16 1)) as Hfirst by exact (Hfull 1 u16_0 ltac:(lia) is_log_1).
  rewrite (index_ok _ _ _ Hfirst). cbn [obind]. rewrite update_ok by lia. cbn [obind ensures fst snd].
  split_and!; [done|by rewrite length_insert|done| |].
  - intros v x Hv Hv0 Hx. rewrite list_lookup_insert_ne; [by apply Hfull|].
    unfold is_log in Hx. rewrite decide_False in Hx by lia. unfold u16_to_nat. lia.
  - apply list_lookup_insert_eq. lia.
Qed.
