(* ===== verification/LeoLch16.v ===== *)
(** * The field of the Leopard GF(2^16) tables and its Walsh transform
    ([fwht16], [fwht16_mtrunc], [fwht16_variable] of [src/core/leopard_gf16/ops.rs])

    [LOG16] and [EXP16] are the tables that [init_luts16] returns.  The product that they
    define makes [u16] a field [lch16], isomorphic by [phi16] to the tower field of
    [Gf16], and the indices are the points of [Lch] in it.  The transform works on
    logarithms, integers modulo 65535 kept in [u16] where both 0 and 65535 stand for
    zero; [LeoWalsh] has the passes. *)

From Stdlib Require Import NArith ZArith Lia List Bool Ring Setoid Morphisms.
From stdpp Require Import base numbers list.
From S2P Require Import Prelude Bytes Fields Gf8 Gf16 LinAlg Lch LeoStages LeoWalsh LeoField16 LeoTables16.

#[local] Abbreviation El := (@Elem gf16_alg).
#[local] Abbreviation pow := (fpow (F:=gf16_alg)).
#[local] Notation "a ⊕ b" := (Fields.add (Field:=gf16_alg) a b) (at level 50).
#[local] Notation "a ⊗ b" := (Fields.mul (Field:=gf16_alg) a b) (at level 40).
#[local] Opaque theta state.

(** The constant is opaque: the tables are never evaluated. *)
Lemma luts16_built : { p | init_luts16 = Ok p ∧ luts_ok p.1 p.2 }.
Proof.
  pose proof init_luts16_ok as H. destruct init_luts16 as [p| |]; [by exists p|done..].
Qed.

Definition LOG16 : list u16 := (proj1_sig luts16_built).1.
Definition EXP16 : list u16 := (proj1_sig luts16_built).2.

Lemma LUTS16_built : init_luts16 = Ok (LOG16, EXP16).
Proof.
  rewrite (proj1 (proj2_sig luts16_built)). unfold LOG16, EXP16.
  exact (f_equal Ok (surjective_pairing _)).
Qed.

Lemma LUTS16_ok : luts_ok LOG16 EXP16.
Proof. exact (proj2 (proj2_sig luts16_built)). Qed.

(** ** Logarithms and exponentials *)
Definition llog16 (a : u16) : N := u16_to_N (tbl16 LOG16 (u16_to_nat a)).
Definition lexp16 (n : N) : u16 := tbl16 EXP16 (N.to_nat (n mod 65535)).
Definition phi16 (a : u16) : El := phiN (u16_to_N a).

Lemma u16_to_nat_pos a : a ≠ u16_0 → 0 < u16_to_nat a.
Proof.
  intros Ha. destruct (decide (u16_to_nat a = 0)) as [H0|]; [|lia]. destruct Ha.
  apply u16_to_nat_inj. by rewrite H0.
Qed.

Lemma log16_lookup v : v < ORDER16 → LOG16 !! v = Some (tbl16 LOG16 v) ∧ is_log v (tbl16 LOG16 v).
Proof.
  intros Hv. destruct LUTS16_ok as (_ & _ & Hlog & _). destruct (Hlog v Hv) as (x & Hx & Hi).
  unfold tbl16. by rewrite Hx.
Qed.

Lemma log16_0 : tbl16 LOG16 0 = as_u16 65535.
Proof. pose proof order_succ. by destruct (log16_lookup 0 ltac:(lia)) as [_ Hl]. Qed.

Lemma llog16_spec a : a ≠ u16_0 → (llog16 a < 65535)%N ∧ pow theta (llog16 a) = phi16 a ∧
  EXP16 !! N.to_nat (llog16 a) = Some a.
Proof.
  intros Ha%u16_to_nat_pos. pose proof (u16_to_nat_lt a) as Hlt.
  destruct (log16_lookup _ Hlt) as [Hl Hi]. destruct LUTS16_ok as (_ & _ & _ & Hexp & _).
  pose proof (Hexp _ _ Hlt Ha Hi) as He. unfold is_log in Hi. rewrite decide_False in Hi by lia.
  destruct Hi as [Hn Hs]. fold (llog16 a) in Hn, Hs. split_and!; [done| |].
  - rewrite <- (proj2 (state_spec _)), Hs. unfold phi16, phiN, u16_to_nat. by rewrite N2Nat.id.
  - unfold u16_to_nat in He. rewrite N2Nat.id, as_u16_to_N in He. exact He.
Qed.

(** Every state has coordinates. *)
Lemma cant_surj s : (0 < s)%N → (s < 2 ^ 16)%N → ∃ v, (0 < v)%N ∧ (v < 2 ^ 16)%N ∧ cant 16 v = s.
Proof.
  intros H0 Hs.
  destruct (pigeonhole (N.to_nat 65535) (λ n, cant 16 (N.succ n))) with (s := s) as (n & Hn & Hv).
  - intros n Hn. rewrite N2Nat.id in Hn. rewrite Nat2N.inj_succ, N2Nat.id.
    pose proof (cant_bound 16 (N.succ n)) as Hb. split; [|exact Hb].
    assert (cant 16 (N.succ n) ≠ 0%N); [|lia]. intros Hz.
    apply (phiN_neq_0 (N.succ n)); [lia|lia|]. change (pol16 (cant 16 (N.succ n)) = zero). by rewrite Hz, pol16_0.
  - intros n m Hn Hm Heq. rewrite N2Nat.id in Hn, Hm. apply cant_inj in Heq; lia.
  - exact H0.
  - rewrite Nat2N.inj_succ, N2Nat.id. exact Hs.
  - rewrite N2Nat.id in Hn. exists (N.succ n). split_and!; [lia|lia|exact Hv].
Qed.

Lemma pow_mod n : pow theta (n mod 65535) = pow theta n.
Proof. apply fpow_period; [done|apply theta_period]. Qed.

Lemma lexp16_spec n : phi16 (lexp16 n) = pow theta n ∧ lexp16 n ≠ u16_0 ∧ llog16 (lexp16 n) = (n mod 65535)%N.
Proof.
  rewrite <- pow_mod. unfold lexp16. pose proof (N.mod_lt n 65535 ltac:(done)) as Hm.
  set (m := (n mod 65535)%N) in *. destruct (state_spec m) as [Hb Hs].
  destruct (cant_surj (state m)) as (v & Hv0 & Hv & Hc); [pose proof (state_neq_0 m); lia|done|].
  assert (is_log (N.to_nat v) (as_u16 m)) as Hi.
  { unfold is_log. rewrite decide_False by lia. rewrite u16_to_N_small, N2Nat.id by lia. by split. }
  pose proof ORDER16_N. destruct LUTS16_ok as (_ & _ & _ & Hexp & _).
  pose proof (Hexp (N.to_nat v) (as_u16 m) ltac:(lia) ltac:(lia) Hi) as He. unfold u16_to_nat in He.
  rewrite u16_to_N_small in He by lia. unfold tbl16. rewrite He. cbn [default from_option id].
  rewrite N2Nat.id. split_and!.
  - rewrite <- Hs, <- Hc. unfold phi16, phiN. by rewrite u16_to_N_small.
  - intros Hz%(f_equal u16_to_N). rewrite u16_to_N_small in Hz by done. change (u16_to_N u16_0) with 0%N in Hz. lia.
  - unfold llog16, u16_to_nat. rewrite u16_to_N_small by done.
    destruct (log16_lookup (N.to_nat v) ltac:(lia)) as [_ Hi'].
    rewrite (is_log_unique _ _ _ Hi' Hi). by rewrite u16_to_N_small by lia.
Qed.

Lemma tbl_exp16 n : (n ≤ 65535)%N → tbl16 EXP16 (N.to_nat n) = lexp16 n.
Proof.
  intros Hn. unfold lexp16. destruct (N.eq_dec n 65535%N) as [->|]; [|by rewrite N.mod_small by lia].
  pose proof (lexp16_spec 0) as (Hp & Hz & Hl). rewrite fpow_0 in Hp.
  destruct LUTS16_ok as (_ & _ & _ & Hexp & Hlast). pose proof order_succ. pose proof MODULUS16_N.
  unfold tbl16. replace (N.to_nat 65535) with MODULUS16 by lia. rewrite Hlast.
  pose proof (Hexp 1 u16_0 ltac:(lia) ltac:(lia) is_log_1) as H1.
  change (u16_to_nat u16_0) with 0 in H1. change (N.to_nat (65535 mod 65535)) with 0. by rewrite H1.
Qed.

(** ** The product *)
Definition lch_mul16 (a b : u16) : u16 :=
  if bool_decide (b = u16_0) then u16_0
  else mul_log16 a (tbl16 LOG16 (u16_to_nat b)) LOG16 EXP16.

Lemma add_mod16_spec a b :
  (u16_to_N (add_mod16 a b) ≤ 65535)%N ∧
  (u16_to_N (add_mod16 a b) mod 65535 = (u16_to_N a + u16_to_N b) mod 65535)%N.
Proof.
  pose proof (u16_to_N_bound a) as Ha. pose proof (u16_to_N_bound b) as Hb.
  unfold add_mod16. set (x := u16_to_N a) in *. set (y := u16_to_N b) in *.
  change (2 ^ 16)%N with 65536%N in *. rewrite u16_to_N_as_u16, N.shiftr_div_pow2.
  change (2 ^ 16)%N with 65536%N.
  destruct (N.lt_ge_cases (x + y) 65536) as [Hlt|Hge].
  - rewrite N.div_small, N.add_0_r, N.mod_small by done. split; [lia|done].
  - replace ((x + y) / 65536)%N with 1%N by (apply (N.div_unique _ _ _ (x + y - 65536)); lia).
    replace ((x + y + 1) mod 65536)%N with (x + y - 65535)%N by (apply (N.mod_unique _ _ 1); lia).
    split; [lia|]. replace (x + y)%N with (x + y - 65535 + 1 * 65535)%N at 2 by lia.
    by rewrite N.Div0.mod_add.
Qed.

Lemma lexp16_eq n m : (n mod 65535 = m mod 65535)%N → lexp16 n = lexp16 m.
Proof. intros H. unfold lexp16. by rewrite H. Qed.

Lemma mul_log16_spec a log_b : a ≠ u16_0 →
  mul_log16 a log_b LOG16 EXP16 = lexp16 (llog16 a + u16_to_N log_b).
Proof.
  intros Ha. unfold mul_log16. rewrite bool_decide_eq_false_2 by done.
  destruct (add_mod16_spec (tbl16 LOG16 (u16_to_nat a)) log_b) as [H1 H2].
  unfold u16_to_nat at 1. rewrite tbl_exp16 by done. by apply lexp16_eq.
Qed.

Lemma mul_log16_0 log_b l e : mul_log16 u16_0 log_b l e = u16_0.
Proof. unfold mul_log16. by rewrite bool_decide_eq_true_2. Qed.

Lemma lexp16_llog16 a : a ≠ u16_0 → lexp16 (llog16 a) = a.
Proof.
  intros Ha. destruct (llog16_spec a Ha) as (Hn & _ & He). unfold lexp16, tbl16.
  by rewrite N.mod_small, He.
Qed.

#[local] Opaque phiN fpow.

Lemma phi16_0 : phi16 u16_0 = zero.
Proof. exact phiN_0. Qed.

Lemma phi16_1 : phi16 (as_u16 1) = one.
Proof. exact phiN_1. Qed.

Lemma phi16_xor a b : phi16 (u16_xor a b) = phi16 a ⊕ phi16 b.
Proof. unfold phi16. by rewrite u16_to_N_xor, phiN_lxor. Qed.

Lemma phi16_inj a b : phi16 a = phi16 b → a = b.
Proof.
  intros H. apply u16_to_N_inj.
  exact (phiN_inj (u16_to_N a) (u16_to_N b) (u16_to_N_bound a) (u16_to_N_bound b) H).
Qed.

Lemma phi16_neq_0 a : a ≠ u16_0 → phi16 a ≠ zero.
Proof. intros Ha H. apply Ha, phi16_inj. by rewrite H, phi16_0. Qed.

Lemma phi16_lexp n : phi16 (lexp16 n) = pow theta n.
Proof. apply lexp16_spec. Qed.

Lemma lexp16_neq_0 n : lexp16 n ≠ u16_0.
Proof. apply lexp16_spec. Qed.

Lemma lch_mul16_spec a b : a ≠ u16_0 → b ≠ u16_0 → lch_mul16 a b = lexp16 (llog16 a + llog16 b).
Proof. intros Ha Hb. unfold lch_mul16. rewrite bool_decide_eq_false_2 by done. by apply mul_log16_spec. Qed.

Lemma lch_mul16_0_r a : lch_mul16 a u16_0 = u16_0.
Proof. unfold lch_mul16. by rewrite bool_decide_eq_true_2. Qed.

Lemma lch_mul16_0_l b : lch_mul16 u16_0 b = u16_0.
Proof. unfold lch_mul16. case_bool_decide; [done|]. apply mul_log16_0. Qed.

Lemma phi16_mul a b : phi16 (lch_mul16 a b) = phi16 a ⊗ phi16 b.
Proof.
  destruct (decide (b = u16_0)) as [->|Hb].
  { by rewrite lch_mul16_0_r, phi16_0, (mul_0_r (F:=gf16_alg)). }
  destruct (decide (a = u16_0)) as [->|Ha].
  { by rewrite lch_mul16_0_l, phi16_0, (mul_0_l (F:=gf16_alg)). }
  rewrite lch_mul16_spec, phi16_lexp, fpow_add by done.
  rewrite (proj1 (proj2 (llog16_spec a Ha))), (proj1 (proj2 (llog16_spec b Hb))). reflexivity.
Qed.

(** The quotient: only the sum and the product occur in the code. *)
Definition lch_div16 (a b : u16) : u16 :=
  if bool_decide (a = u16_0) then u16_0 else lexp16 (llog16 a + (65535 - llog16 b)).

Lemma lch_div16_mul a b : b ≠ u16_0 → lch_mul16 (lch_div16 a b) b = a.
Proof.
  intros Hb. unfold lch_div16. case_bool_decide as Ha; [subst; apply lch_mul16_0_l|].
  destruct (llog16_spec b Hb) as (Hlb & _). pose proof (lexp16_spec (llog16 a + (65535 - llog16 b))) as (_ & Hn & Hl).
  rewrite lch_mul16_spec by done. rewrite Hl. rewrite <- (lexp16_llog16 a Ha) at 2. apply lexp16_eq.
  rewrite N.Div0.add_mod_idemp_l. replace (llog16 a + (65535 - llog16 b) + llog16 b)%N with (llog16 a + 1 * 65535)%N by lia.
  apply N.Div0.mod_add.
Qed.

Definition lch16 : Field := {|
  Elem := u16;
  ORDER := 65536;
  add := u16_xor;
  mul := lch_mul16;
  div := lch_div16;
  exp a n := N.iter n (lch_mul16 a) (as_u16 1);
  zero := u16_0;
  one := as_u16 1;
  nth_internal := as_u16;
  mul_slice c input out :=
    if decide (length input = length out) then Some (zip_with (λ i _, lch_mul16 c i) input out)
    else None;
  mul_slice_add c input out :=
    if decide (length input = length out)
    then Some (zip_with (λ i o, u16_xor o (lch_mul16 c i)) input out) else None;
  as_gf8_slice _ := None;
  as_gf8_slice_mut _ := None;
  stable_format := None;
  write_format_element _ _ := None;
|}.

#[export] Instance lch16_laws : FieldLaws lch16.
Proof.
  constructor; cbn [lch16 Elem ORDER add mul div exp zero one nth_internal mul_slice mul_slice_add].
  - apply u16_xor_comm.
  - apply u16_xor_assoc.
  - apply u16_xor_0_l.
  - apply u16_xor_self.
  - intros a b. apply phi16_inj. rewrite !phi16_mul. apply (Fields.mul_comm (F:=gf16_alg)).
  - intros a b c. apply phi16_inj. rewrite !phi16_mul. apply (Fields.mul_assoc (F:=gf16_alg)).
  - intros a. apply phi16_inj. rewrite phi16_mul, phi16_1. apply (Fields.mul_1_l (F:=gf16_alg)).
  - intros a b c. apply phi16_inj. rewrite phi16_xor, !phi16_mul, phi16_xor.
    apply (Fields.mul_add_l (F:=gf16_alg)).
  - discriminate.
  - apply lch_div16_mul.
  - done.
  - intros a n. apply N.iter_succ.
  - intros n m Hn Hm H%(f_equal u16_to_N). by rewrite !u16_to_N_small in H.
  - done.
  - done.
Qed.

(** ** The points *)
Definition pt16 (i : nat) : u16 := as_u16 (N.of_nat i).

Lemma u16_to_N_pt16 i : i < ORDER16 → u16_to_N (pt16 i) = N.of_nat i.
Proof. pose proof ORDER16_N. intros Hi. unfold pt16. apply u16_to_N_small. lia. Qed.

Lemma u16_to_nat_pt16 i : i < ORDER16 → u16_to_nat (pt16 i) = i.
Proof. apply u16_to_nat_as. Qed.

Lemma pt16_u16 a : pt16 (u16_to_nat a) = a.
Proof. unfold pt16, u16_to_nat. rewrite N2Nat.id. apply as_u16_to_N. Qed.

#[export] Instance lch16_points : CantorPoints lch16 16 pt16.
Proof.
  split; rewrite <- ?ORDER16_pow; cbn [lch16 Elem add mul zero].
  - intros i j Hi Hj. unfold pt16. rewrite of_nat_lxor. apply as_u16_lxor.
  - intros i Hi. pose proof ORDER16_N. apply phi16_inj. rewrite phi16_xor, phi16_mul. unfold phi16.
    rewrite !u16_to_N_pt16 by (first [done|apply (Nat.le_lt_trans _ i); [apply Nat.Div0.div_le_upper_bound; lia|done]]).
    rewrite phiN_half by lia. f_equal. rewrite N.shiftr_div_pow2, Nat2N.inj_div. done.
  - intros i j Hi Hj H%(f_equal u16_to_nat). by rewrite !u16_to_nat_pt16 in H.
  - lia.
Qed.

Local Open Scope Z_scope.

(** ** Words as integers modulo 65535 *)
Definition wz (a : u16) : Z := Z.of_N (u16_to_N a).

Abbreviation eqm65535 := (eqm 65535).

Lemma wz_add_mod16 a b : eqm65535 (wz (add_mod16 a b)) (wz a + wz b).
Proof.
  destruct (add_mod16_spec a b) as [_ H]. apply eqm_mod; [lia|]. unfold wz.
  rewrite <- N2Z.inj_add. change 65535 with (Z.of_N 65535). rewrite <- !N2Z.inj_mod. by rewrite H.
Qed.

Lemma wz_sub_mod16 a b : eqm65535 (wz (sub_mod16 a b)) (wz a - wz b).
Proof.
  pose proof (u16_to_N_bound a) as Ha. pose proof (u16_to_N_bound b) as Hb.
  unfold wz, sub_mod16. set (x := u16_to_N a) in *. set (y := u16_to_N b) in *.
  rewrite u16_to_N_as_u16, N.shiftr_div_pow2.
  change (2 ^ 16)%N with 65536%N in *. change (2 ^ 32)%N with 4294967296%N.
  destruct (decide (y ≤ x)%N) as [Hle|Hlt].
  - replace ((x + 4294967296 - y) mod 4294967296)%N with (x - y)%N
      by (apply (N.mod_unique _ _ 1); lia).
    rewrite N.div_small by lia. rewrite N.add_0_r.
    rewrite (N.mod_small _ 4294967296), (N.mod_small _ 65536) by lia. exists 0. lia.
  - rewrite (N.mod_small (x + 4294967296 - y)) by lia.
    replace ((x + 4294967296 - y) / 65536)%N with 65535%N
      by (apply (N.div_unique _ _ _ (65536 + x - y)); lia).
    replace ((x + 4294967296 - y + 65535) mod 4294967296)%N with (x + 65535 - y)%N
      by (apply (N.mod_unique _ _ 1); lia).
    rewrite N.mod_small by lia. exists 1. lia.
Qed.

#[export] Instance word_residues : Residues u16 fwht2_alt16 wz u16_0 65535.
Proof. split; [apply wz_add_mod16|apply wz_sub_mod16|reflexivity]. Qed.

Local Close Scope Z_scope.

(** ** The transforms of the code *)
Lemma fwht16_mtrunc_spec {E} limit f : limit ≤ ORDER16 → zero_from u16_0 limit f →
  ∃ t, fwht16_mtrunc (E:=E) (tabulate ORDER16 f) ORDER16 limit = Ok (tabulate ORDER16 t) ∧
    ∀ i, i < ORDER16 → eqm65535 (wz (t i)) (wht 16 (λ j, wz (f j)) i).
Proof.
  intros Hlim Hf. unfold fwht16_mtrunc. rewrite ORDER16_pow in *.
  exact (fwht_loop_spec (E:=E) fwht2_alt16 wz u16_0 65535 16 8 limit f BITWIDTH16 eq_refl
    ltac:(unfold BITWIDTH16; lia) Hlim Hf).
Qed.

Lemma fwht16_full {E} data : fwht16 (E:=E) data = fwht16_mtrunc data ORDER16 ORDER16.
Proof. reflexivity. Qed.

Lemma fwht16_variable_spec {E} f : zero_from u16_0 ORDER16 f →
  ∃ t, fwht16_variable (E:=E) (tabulate ORDER16 f) = Ok (tabulate ORDER16 t) ∧
    ∀ i, i < ORDER16 → eqm65535 (wz (t i)) (wht 16 (λ j, wz (f j)) i).
Proof.
  intros Hf. unfold fwht16_variable. rewrite ORDER16_pow in *.
  exact (fwht_variable_spec (E:=E) fwht2_alt16 wz u16_0 65535 16 8 f eq_refl Hf).
Qed.
