(* ===== verification/LeoSkew16.v ===== *)
(** * The skews of the Leopard GF(2^16) engine and its static tables
    ([init_fft_skew16], [build_tables16] of [src/core/leopard_gf16/tables.rs])

    Round [m] of the code turns the points [2 ^ i] into the points [2 ^ (i - m)], whose sums
    are the skews of the butterflies over [2 ^ m] elements.  [TABLES16] is what
    [build_tables16] returns. *)

From Stdlib Require Import NArith ZArith Lia List Bool.
From stdpp Require Import base numbers list.
From S2P Require Import Prelude Bytes Fields Gf16 LinAlg Lch LeoStages LeoWalsh LeoPlan LeoField16 LeoTables16 LeoLch16.

(** ** Positions of the skews *)
Definition skew_at (l q : nat) : nat := (2 * q + 1) * 2 ^ l - 1.

Lemma odd_pow_inj l q m r : (2 * q + 1) * 2 ^ l = (2 * r + 1) * 2 ^ m → l = m ∧ q = r.
Proof.
  assert (∀ l q m r, l < m → (2 * q + 1) * 2 ^ l ≠ (2 * r + 1) * 2 ^ m) as Hlt.
  { intros l' q' m' r' Hlm H. replace m' with (S (m' - l' - 1) + l') in H by lia.
    rewrite Nat.pow_add_r, Nat.mul_assoc in H. apply Nat.mul_cancel_r in H; [|pose proof (pow2_pos l'); lia].
    rewrite Nat.pow_succ_r' in H. lia. }
  intros H. destruct (Nat.lt_trichotomy l m) as [Hl|[->|Hl]].
  - by destruct (Hlt l q m r Hl).
  - split; [done|]. apply Nat.mul_cancel_r in H; [lia|]. pose proof (pow2_pos m). lia.
  - by destruct (Hlt m r l q Hl).
Qed.

Lemma skew_at_inj l q m r : skew_at l q = skew_at m r → l = m ∧ q = r.
Proof.
  unfold skew_at. pose proof (pow2_pos l) as Hl. pose proof (pow2_pos m) as Hm. intros H.
  apply odd_pow_inj. nia.
Qed.

Lemma skew_at_lt l q : (2 * q + 1) * 2 ^ l < ORDER16 → skew_at l q < MODULUS16.
Proof. unfold skew_at. pose proof order_succ. pose proof (pow2_pos l). nia. Qed.

(** The positions of round [m]. *)
Lemma skew_counters m i : m ≤ i →
  counters (2 ^ m - 1) (2 ^ (i + 1)) (2 ^ (m + 1)) = tabulate (2 ^ (i - m)) (skew_at m).
Proof.
  intros Hi. unfold counters. pose proof (pow2_pos m) as Hp.
  assert (2 ^ (m + 1) = 2 * 2 ^ m) as Hs by (rewrite Nat.pow_add_r; simpl; lia).
  assert (2 ^ (i + 1) = 2 ^ (i - m) * 2 ^ (m + 1)) as -> by (rewrite <- Nat.pow_add_r; f_equal; lia).
  replace ((2 ^ (i - m) * 2 ^ (m + 1) - (2 ^ m - 1) + 2 ^ (m + 1) - 1) / 2 ^ (m + 1)) with (2 ^ (i - m)).
  - apply map_ext. intros q. unfold skew_at. rewrite Hs. nia.
  - pose proof (pow2_pos (i - m)). apply (Nat.div_unique _ _ _ (2 ^ m)); nia.
Qed.

(** ** Products of the rounds *)
Lemma pt16_neq_0 i : 0 < i → i < ORDER16 → pt16 i ≠ u16_0.
Proof. intros H0 Hi H%(f_equal u16_to_nat). rewrite u16_to_nat_pt16 in H by done. change (u16_to_nat u16_0) with 0 in H. lia. Qed.

Lemma pow2_order k : k < 16 → 2 ^ k + 2 ^ k ≤ ORDER16.
Proof. intros Hk. rewrite ORDER16_pow. rewrite <- pow2_S. apply pow2_le. lia. Qed.

(** An even point times the next one. *)
Lemma pt16_pred i : 2 * i + 1 < ORDER16 → lch_mul16 (pt16 (2 * i)) (u16_xor (pt16 (2 * i)) (as_u16 1)) = pt16 i.
Proof.
  intros Hi. change (as_u16 1) with (pt16 1).
  change (@mul lch16 (pt16 (2 * i)) (@add lch16 (pt16 (2 * i)) (pt16 1)) = pt16 i).
  rewrite (mul_add_r (F:=lch16)). change (pt16 1) with (@one lch16). rewrite (mul_1_r (F:=lch16)).
  rewrite ORDER16_pow in Hi. rewrite (pt_half (F:=lch16) (w:=16) (2 * i)) by lia. f_equal.
  rewrite Nat.mul_comm. by apply Nat.div_mul.
Qed.

Lemma pt16_next i : 0 < i → 2 * i + 1 < ORDER16 → u16_xor (pt16 (2 * i)) (as_u16 1) = pt16 (2 * i + 1).
Proof.
  intros H0 Hi. rewrite ORDER16_pow in Hi. symmetry. exact (pt_odd (F:=lch16) 16 pt16 i Hi).
Qed.

(** The product with a logarithm of the table. *)
Lemma mul_log16_table a b : b ≠ u16_0 → mul_log16 a (tbl16 LOG16 (u16_to_nat b)) LOG16 EXP16 = lch_mul16 a b.
Proof. intros Hb. unfold lch_mul16. by rewrite bool_decide_eq_false_2. Qed.

(** A logarithm plus 65535. *)
Lemma mul_log16_period a log_b :
  mul_log16 a (add_mod16 log_b (as_u16 65535)) LOG16 EXP16 = mul_log16 a log_b LOG16 EXP16.
Proof.
  destruct (decide (a = u16_0)) as [->|Ha]; [by rewrite !mul_log16_0|].
  rewrite !mul_log16_spec by done. apply lexp16_eq.
  destruct (add_mod16_spec log_b (as_u16 65535)) as [_ H].
  rewrite <- N.Div0.add_mod_idemp_r, H, N.Div0.add_mod_idemp_r.
  rewrite u16_to_N_small by done.
  replace (llog16 a + (u16_to_N log_b + 65535))%N with (llog16 a + u16_to_N log_b + 1 * 65535)%N by lia.
  apply N.Div0.mod_add.
Qed.

Lemma log16_1 : tbl16 LOG16 1 = u16_0.
Proof.
  pose proof order_succ. pose proof MODULUS16_N. destruct (log16_lookup 1 ltac:(lia)) as [_ H1].
  exact (is_log_unique 1 _ _ H1 is_log_1).
Qed.

(** ** One round *)

(** The first [n] skews of level [m] and those of the levels below are set; the one skew of
    level 15 keeps its initial value. *)
Definition skews_upto (m n : nat) (skew : list u16) : Prop :=
  length skew = MODULUS16 ∧ skew !! skew_at 15 0 = Some u16_0 ∧
  (∀ l q, l < m → (2 * q + 1) * 2 ^ l < ORDER16 → skew !! skew_at l q = Some (pt16 (2 * q))) ∧
  ∀ q, q < n → skew !! skew_at m q = Some (pt16 (2 * q)).

Definition temps_from (m : nat) (temp : list u16) : Prop :=
  length temp = 15 ∧ ∀ i, m ≤ i → i < 15 → temp !! i = Some (pt16 (2 ^ (i + 1 - m))).

Lemma skews_set m n skew : m < 15 → skews_upto m n skew → (2 * n + 1) * 2 ^ m < ORDER16 →
  skews_upto m (S n) (<[skew_at m n := pt16 (2 * n)]> skew).
Proof.
  intros H15 (Hl & Htop & Hlow & Hm) Hn. pose proof (skew_at_lt m n Hn). split_and!; [by rewrite length_insert| | |].
  - rewrite list_lookup_insert_ne; [done|]. intros Heq%skew_at_inj. lia.
  - intros l q Hlm Hq. rewrite list_lookup_insert_ne; [by apply Hlow|].
    intros Heq%skew_at_inj. lia.
  - intros q Hq. destruct (decide (q = n)) as [->|Hne].
    + apply list_lookup_insert_eq. lia.
    + rewrite list_lookup_insert_ne; [apply Hm; lia|]. intros Heq%skew_at_inj. lia.
Qed.

Lemma pt16_double_upper q k : q < 2 ^ k → k < 15 → 
  u16_xor (pt16 (2 * q)) (pt16 (2 ^ (k + 1))) = pt16 (2 * (q + 2 ^ k)).
Proof.
  intros Hq Hk. replace (2 * (q + 2 ^ k)) with (1 * 2 ^ (k + 1) + 2 * q) by (rewrite Nat.pow_add_r; simpl; lia).
  assert (2 * q < 2 ^ (k + 1)) as Hlt by (rewrite Nat.pow_add_r; simpl; lia).
  pose proof (pow2_order (k + 1) ltac:(lia)) as Hfit. rewrite ORDER16_pow in Hfit.
  rewrite (pt_block (F:=lch16) 16 pt16 (k + 1) 1 (2 * q)) by (rewrite ?Nat.mul_1_l; lia).
  rewrite Nat.mul_1_l. apply u16_xor_comm.
Qed.

(** The skews of level [m], between [2 ^ i] and [2 ^ (i + 1)]. *)
Lemma skew_fill m i temp skew : m ≤ i → i < 15 → temps_from m temp → skews_upto m (2 ^ (i - m)) skew →
  ensures (E:=Empty_set) (while_below (2 ^ m - 1) (2 ^ (i + 1)) (2 ^ (m + 1)) (λ j fft_skew,
        let! v := index fft_skew j in
        let! t := index temp i in
        update fft_skew (j + 2 ^ (i + 1)) (u16_xor v t)) skew)
    (skews_upto m (2 ^ (i + 1 - m))) (λ _, False).
Proof.
  intros Hm Hi [_ Ht] Hskew. rewrite while_below_for_each by apply pow2_pos. rewrite skew_counters by done.
  apply (for_each_post _ _ (λ k, skews_upto m (2 ^ (i - m) + k))).
  - by rewrite Nat.add_0_r.
  - intros k j s Hj Hs. apply lookup_lt_Some in Hj as Hk. rewrite length_tabulate in Hk.
    rewrite lookup_tabulate in Hj by done. injection Hj as <-.
    pose proof (pow2_order (i + 1) ltac:(lia)) as Hfit. pose proof (pow2_pos m) as Hp.
    assert (2 ^ (i + 1) = 2 * 2 ^ (i - m) * 2 ^ m) as Hpow
      by (rewrite <- Nat.pow_succ_r', <- Nat.pow_add_r; f_equal; lia).
    destruct Hs as (Hl & Htop & Hlow & Hms). rewrite (index_ok _ _ _ (Hms k ltac:(lia))). cbn [obind].
    rewrite (index_ok _ _ _ (Ht i Hm Hi)). cbn [obind].
    assert (skew_at m k + 2 ^ (i + 1) = skew_at m (2 ^ (i - m) + k)) as -> by (unfold skew_at; nia).
    assert ((2 * (2 ^ (i - m) + k) + 1) * 2 ^ m < ORDER16) as Hlt.
    { assert ((2 * (2 ^ (i - m) + k) + 1) ≤ 4 * 2 ^ (i - m) - 1) as Hle by lia.
      apply (Nat.mul_le_mono_r _ _ (2 ^ m)) in Hle. nia. }
    rewrite update_ok by (rewrite Hl; by apply skew_at_lt). cbn [ensures].
    replace (i + 1 - m) with (i - m + 1) by lia. rewrite pt16_double_upper by lia.
    rewrite (Nat.add_comm k), Nat.add_succ_r. apply skews_set; [lia|done|exact Hlt].
  - intros s Hs. rewrite length_tabulate in Hs. replace (i + 1 - m) with (S (i - m)) by lia.
    by rewrite pow2_S.
Qed.

(** The next points. *)
Lemma temp_step m temp : m < 15 → temps_from m temp →
  ensures (E:=Empty_set) (
    let! t := index temp m in
    let gf_prod := mul_log16 t (tbl16 LOG16 (u16_to_nat (u16_xor t (as_u16 1)))) LOG16 EXP16 in
    let! temp := update temp m
      (as_u16 (N.of_nat MODULUS16 - u16_to_N (tbl16 LOG16 (u16_to_nat gf_prod)))) in
    for_range (m + 1) (BITWIDTH16 - 1) (λ i temp,
      let! t := index temp i in
      let! tm := index temp m in
      let sum := add_mod16 (tbl16 LOG16 (u16_to_nat (u16_xor t (as_u16 1)))) tm in
      update temp i (mul_log16 t sum LOG16 EXP16)) temp)
    (temps_from (S m)) (λ _, False).
Proof.
  intros Hm [Hl Ht]. rewrite (index_ok _ _ _ (Ht m ltac:(lia) Hm)). cbn [obind].
  replace (m + 1 - m) with 1 by lia. change (2 ^ 1) with (2 * 1).
  pose proof (pow2_order 2 ltac:(lia)) as H4. change (2 ^ 2 + 2 ^ 2) with 8 in H4.
  rewrite mul_log16_table by (rewrite pt16_next by lia; apply pt16_neq_0; lia).
  rewrite pt16_pred by lia. rewrite u16_to_nat_pt16, log16_1, MODULUS16_N by lia.
  change (65535 - u16_to_N u16_0)%N with 65535%N.
  rewrite update_ok by lia. cbn [obind].
  apply (for_range_post _ _ _ (λ i temp, length temp = 15 ∧ temp !! m = Some (as_u16 65535) ∧
    ∀ j, m < j → j < 15 → temp !! j = Some (pt16 (2 ^ (if decide (j < i) then j - m else j + 1 - m))))).
  - unfold BITWIDTH16. lia.
  - split_and!; [by rewrite length_insert|apply list_lookup_insert_eq; lia|].
    intros j Hj Hj15. rewrite list_lookup_insert_ne by lia. rewrite decide_False by lia. apply Ht; lia.
  - intros i s Hi (Hls & Hsm & Hs). unfold BITWIDTH16 in Hi.
    rewrite (index_ok _ _ _ (Hs i ltac:(lia) ltac:(lia))). cbn [obind]. rewrite decide_False by lia.
    rewrite (index_ok _ _ _ Hsm). cbn [obind]. rewrite update_ok by lia. cbn [ensures].
    replace (2 ^ (i + 1 - m)) with (2 * 2 ^ (i - m))
      by (rewrite <- Nat.pow_succ_r'; f_equal; lia).
    pose proof (pow2_order (S (i - m)) ltac:(lia)) as Hfit. rewrite Nat.pow_succ_r' in Hfit.
    pose proof (pow2_pos (i - m)) as Hp. rewrite mul_log16_period, mul_log16_table
      by (rewrite pt16_next by lia; apply pt16_neq_0; lia).
    rewrite pt16_pred by lia.
    split_and!; [by rewrite length_insert|by rewrite list_lookup_insert_ne by lia|].
    intros j Hj Hj15. destruct (decide (j = i)) as [->|Hne].
    + rewrite list_lookup_insert_eq by lia. by rewrite decide_True by lia.
    + rewrite list_lookup_insert_ne by lia. rewrite Hs by done.
      do 2 f_equal. f_equal. destruct (decide (j < i)), (decide (j < 1 + i)); lia.
  - intros s (Hls & _ & Hs). split; [done|]. intros i Hi Hi15. rewrite Hs by lia.
    rewrite decide_True by (unfold BITWIDTH16; lia). do 3 f_equal. lia.
Qed.

Lemma skew_round16_ok m temp skew : m < 15 → temps_from m temp → skews_upto m 0 skew →
  ensures (skew_round16 LOG16 EXP16 m (temp, skew))
    (λ '(temp, skew), temps_from (S m) temp ∧ skews_upto (S m) 0 skew) (λ _, False).
Proof.
  intros Hm Ht Hs. unfold skew_round16.
  pose proof (pow2_order m ltac:(lia)) as Hfit. pose proof (pow2_pos m) as Hp.
  assert ((2 * 0 + 1) * 2 ^ m < ORDER16) as H0 by lia.
  pose proof (skew_at_lt m 0 H0) as Hlt. replace (2 ^ m - 1) with (skew_at m 0) by (unfold skew_at; lia).
  rewrite update_ok by (destruct Hs as [-> _]; exact Hlt). cbn [obind].
  pose proof (skews_set m 0 skew Hm Hs H0) as Hs1. change (pt16 (2 * 0)) with u16_0 in Hs1.
  eapply ensures_bind; [apply (for_range_post _ _ _ (λ i, skews_upto m (2 ^ (i - m))) (skews_upto m (2 ^ (15 - m))))|].
  - unfold BITWIDTH16. lia.
  - by rewrite Nat.sub_diag.
  - intros i s Hi Hsi. unfold BITWIDTH16 in Hi. replace (skew_at m 0) with (2 ^ m - 1) by (unfold skew_at; lia).
    replace (1 + i - m) with (i + 1 - m) by lia. apply skew_fill; [lia..|done|done].
  - done.
  - intros s (Hl & Htop & Hlow & Hfull).
    assert (skews_upto (S m) 0 s) as Hnext.
    { split_and!; [done|done| |lia]. intros l q Hl' Hq. destruct (decide (l = m)) as [->|Hne]; [|apply Hlow; [lia|done]].
      apply Hfull. destruct (decide (q < 2 ^ (15 - m))) as [|Hge]; [done|]. exfalso.
      assert (2 ^ (15 - m) * 2 ^ m = 2 ^ 15) as H15 by (rewrite <- Nat.pow_add_r; f_equal; lia).
      rewrite ORDER16_pow, pow2_S, <- H15 in Hq. set (a := 2 ^ (15 - m)) in *. set (b := 2 ^ m) in *.
      assert ((2 * a + 1) * b ≤ (2 * q + 1) * b) by (apply Nat.mul_le_mono_r; lia). lia. }
    pose proof (temp_step m temp Hm Ht) as Htemp. cbv zeta in Htemp |- *.
    revert Htemp. generalize (mul_log16) as ml. clear - Hnext.
    intros ml. destruct (index temp m) as [t| |]; cbn [obind]; [|done..].
    destruct (update temp m _) as [temp'| |]; cbn [obind]; [|done..].
    intros Htemp. eapply ensures_bind; [exact Htemp|]. intros temp'' Ht''. cbn [ensures]. by split.
Qed.

(** The translation of the points into logarithms. *)
Lemma skew_logs skew : length skew = MODULUS16 →
  ensures (E:=Empty_set) (for_range 0 MODULUS16 (λ i fft_skew,
      let! v := index fft_skew i in update fft_skew i (tbl16 LOG16 (u16_to_nat v))) skew)
    (λ logs, ∀ i v, skew !! i = Some v → logs !! i = Some (tbl16 LOG16 (u16_to_nat v))) (λ _, False).
Proof.
  intros Hl.
  apply (for_range_post _ _ _ (λ k logs, length logs = MODULUS16 ∧ ∀ i v, skew !! i = Some v →
    logs !! i = Some (if decide (i < k) then tbl16 LOG16 (u16_to_nat v) else v))).
  - lia.
  - split; [done|]. intros i v Hv. by rewrite decide_False by lia.
  - intros i s Hi (Hls & Hs). destruct (lookup_lt_is_Some_2 skew i ltac:(lia)) as [v Hv].
    rewrite (index_ok _ _ _ (Hs i v Hv)). cbn [obind]. rewrite decide_False by lia.
    rewrite update_ok by lia. cbn [ensures]. split; [by rewrite length_insert|].
    intros j w Hw. destruct (decide (j = i)) as [->|Hne].
    + simplify_eq. rewrite list_lookup_insert_eq by lia. by rewrite decide_True by lia.
    + rewrite list_lookup_insert_ne by lia. rewrite (Hs j w Hw).
      destruct (decide (j < i)), (decide (j < 1 + i)); try lia; done.
  - intros s (_ & Hs) i v Hv. rewrite (Hs i v Hv). apply lookup_lt_Some in Hv. by rewrite decide_True by lia.
Qed.

(** The table of logarithms, with 0 for the logarithm of zero. *)
Definition walsh_log16 (i : nat) : u16 := if decide (i = 0) then u16_0 else tbl16 LOG16 i.

(** [x] is the transform of the logarithms at [i]. *)
Definition is_walsh (i : nat) (x : u16) : Prop :=
  eqm65535 (wz x) (wht 16 (λ j, wz (walsh_log16 j)) i).

Definition slog16 (i : nat) : u16 := tbl16 LOG16 i.

Definition skews_ok (p : list u16 * list u16) : Prop :=
  SkewTable 16 p.1 slog16 ∧ ∃ w, p.2 = tabulate ORDER16 w ∧ ∀ i, i < ORDER16 → is_walsh i (w i).

Lemma temps_start :
  ensures (E:=Empty_set) (for_range 1 BITWIDTH16 (λ i temp, update temp (i - 1) (as_u16 (2 ^ N.of_nat i)))
      (replicate (BITWIDTH16 - 1) u16_0)) (temps_from 0) (λ _, False).
Proof.
  apply ensures_noerr. eexists. split; [reflexivity|]. split; [reflexivity|].
  intros i _ Hi. rewrite Nat.sub_0_r. unfold pt16. rewrite Nat2N.inj_pow, Nat2N.inj_add.
  do 15 (destruct i as [|i]; [reflexivity|]). lia.
Qed.

Lemma replicate_tabulate {A} n (x : A) : replicate n x = tabulate n (λ _, x).
Proof. apply eq_tabulate; [by rewrite length_replicate|]. intros i Hi. by rewrite lookup_replicate_2. Qed.

Lemma walsh_log16_end : zero_from u16_0 ORDER16 walsh_log16.
Proof.
  intros j Hj. unfold walsh_log16, tbl16. destruct (decide (j = 0)); [done|].
  destruct LUTS16_ok as [Hl _]. by rewrite lookup_ge_None_2 by lia.
Qed.

#[local] Opaque tabulate.

Lemma walsh_built :
  ensures (E:=Empty_set) (
    let! log_walsh := for_range 0 ORDER16 (λ i log_walsh, update log_walsh i (tbl16 LOG16 i))
      (replicate ORDER16 u16_0) in
    let! log_walsh := update log_walsh 0 u16_0 in fwht16 log_walsh)
    (λ l, ∃ w, l = tabulate ORDER16 w ∧ ∀ i, i < ORDER16 → is_walsh i (w i)) (λ _, False).
Proof.
  pose proof order_succ as Hord. rewrite replicate_tabulate.
  pose proof (map_range (E:=Empty_set) (λ _, True) ORDER16 0 ORDER16
    (λ i log_walsh, update log_walsh i (tbl16 LOG16 i)) (λ j _, tbl16 LOG16 j) (λ _, u16_0)) as Hm.
  cbv beta in Hm. rewrite Hm; clear Hm; [| |trivial|trivial|lia].
  2:{ intros i s _ Hi _. rewrite update_tabulate by exact Hi. apply (f_equal Ok). apply tabulate_ext. intros j _.
      destruct (decide (j = i)) as [->|]; reflexivity. }
  cbn [obind]. rewrite update_tabulate by lia. cbn [obind]. rewrite fwht16_full.
  match goal with |- context [fwht16_mtrunc (tabulate ORDER16 ?g) _ _] =>
    assert (tabulate ORDER16 g = tabulate ORDER16 walsh_log16) as Hg end.
  { apply tabulate_ext. intros i Hi. unfold walsh_log16.
    destruct (decide (i = 0)); [reflexivity|]. rewrite decide_True by lia. reflexivity. }
  rewrite Hg. clear Hg.
  destruct (fwht16_mtrunc_spec (E:=Empty_set) ORDER16 walsh_log16 (le_n _) walsh_log16_end) as (t & Ht & Hw).
  rewrite Ht. cbn [ensures]. exists t. split; [reflexivity|exact Hw].
Qed.

Lemma init_fft_skew16_ok : ensures (init_fft_skew16 LOG16 EXP16) skews_ok (λ _, False).
Proof.
  unfold init_fft_skew16. eapply ensures_bind; [exact temps_start|]. intros temp Htemp.
  eapply ensures_bind.
  { apply (for_range_post _ _ _ (λ m '(temp, skew), temps_from m temp ∧ skews_upto m 0 skew)
      (λ '(_, skew), skews_upto 15 0 skew)).
    - unfold BITWIDTH16. lia.
    - split; [done|]. split_and!; [by rewrite length_replicate| |lia|lia].
      apply lookup_replicate_2. pose proof (pow2_order 15 ltac:(lia)). pose proof (pow2_pos 15). apply skew_at_lt. lia.
    - intros m [t s] Hm [Ht Hs]. apply skew_round16_ok; [unfold BITWIDTH16 in Hm; lia|done|done].
    - intros [t s] [_ Hs]. exact Hs. }
  intros [t skew] (Hl & Htop & Hlow & _).
  eapply ensures_bind; [exact (skew_logs skew Hl)|]. intros logs Hlogs.
  pose proof walsh_built as Hw. revert Hw.
  destruct (for_range 0 ORDER16 _ _) as [lw| |]; cbn [obind]; [|done..].
  destruct (update lw 0 u16_0) as [lw'| |]; cbn [obind]; [|done..].
  intros Hw. eapply ensures_bind; [exact Hw|]. intros w Hwalsh. cbn [ensures]. split; [|exact Hwalsh].
  intros l q Hq. cbn [fst]. rewrite <- ORDER16_pow in Hq. pose proof (pow2_pos l) as Hp.
  assert (l < 16) as Hl16.
  { destruct (decide (l < 16)) as [|Hge]; [done|]. exfalso. pose proof (pow2_le 16 l ltac:(lia)) as Hle.
    rewrite <- ORDER16_pow in Hle. nia. }
  assert (2 * q < ORDER16) as Hq' by nia.
  unfold slog16. rewrite <- (u16_to_nat_pt16 (2 * q) Hq') at 2. apply Hlogs.
  destruct (decide (l = 15)) as [->|Hne]; [|apply Hlow; [lia|done]].
  rewrite ORDER16_pow, (pow2_S 15) in Hq. pose proof (pow2_pos 15) as H15.
  assert (q = 0) as ->; [|exact Htop].
  revert H15 Hq. generalize (2 ^ 15). clear. intros x H15 Hq. destruct q; [done|nia].
Qed.

(** ** The static [TABLES16] *)
Lemma build_tables16_ok : ensures build_tables16 (λ t,
  log_lut16 t = LOG16 ∧ exp_lut16 t = EXP16 ∧ skews_ok (fft_skew16 t, log_walsh16 t)) (λ _, False).
Proof.
  unfold build_tables16.
  assert (ensures init_luts16 (λ p, p = (LOG16, EXP16)) (λ _, False)) as Hluts
    by (rewrite LUTS16_built; reflexivity).
  eapply ensures_bind; [exact Hluts|]. intros p ->.
  eapply ensures_bind; [exact init_fft_skew16_ok|]. intros [s w] Hs. cbn [ensures log_lut16 exp_lut16 fft_skew16 log_walsh16].
  split; [reflexivity|]. split; [reflexivity|exact Hs].
Qed.

Lemma tables16_built : { t | build_tables16 = Ok t ∧
  log_lut16 t = LOG16 ∧ exp_lut16 t = EXP16 ∧ skews_ok (fft_skew16 t, log_walsh16 t) }.
Proof.
  pose proof build_tables16_ok as H. destruct build_tables16 as [t| |]; [|done..].
  exists t. split; [reflexivity|exact H].
Qed.

Definition TABLES16 : LeopardGf16Tables := proj1_sig tables16_built.

Lemma TABLES16_built : build_tables16 = Ok TABLES16.
Proof. exact (proj1 (proj2_sig tables16_built)). Qed.

Lemma TABLES16_log : log_lut16 TABLES16 = LOG16.
Proof. exact (proj1 (proj2 (proj2_sig tables16_built))). Qed.

Lemma TABLES16_exp : exp_lut16 TABLES16 = EXP16.
Proof. exact (proj1 (proj2 (proj2 (proj2_sig tables16_built)))). Qed.

#[export] Instance skew_table16 : SkewTable 16 (fft_skew16 TABLES16) slog16.
Proof. exact (proj1 (proj2 (proj2 (proj2 (proj2_sig tables16_built))))). Qed.

Lemma TABLES16_walsh i : i < ORDER16 → is_walsh i (tbl16 (log_walsh16 TABLES16) i).
Proof.
  intros Hi. destruct (proj2 (proj2 (proj2 (proj2 (proj2_sig tables16_built))))) as (w & Hw & Hwalsh).
  cbn [snd] in Hw. unfold tbl16. fold TABLES16 in Hw. rewrite Hw, lookup_tabulate by exact Hi.
  exact (Hwalsh i Hi).
Qed.

Lemma TABLES16_walsh_lookup i : i < ORDER16 →
  log_walsh16 TABLES16 !! i = Some (tbl16 (log_walsh16 TABLES16) i).
Proof.
  intros Hi. destruct (proj2 (proj2 (proj2 (proj2 (proj2_sig tables16_built))))) as (w & Hw & _).
  cbn [snd] in Hw. fold TABLES16 in Hw. unfold tbl16. by rewrite Hw, lookup_tabulate by exact Hi.
Qed.

(** The product of [a] with the exponential of [log_b]. *)
Lemma mul_log16_lexp a log_b :
  mul_log16 a log_b LOG16 EXP16 = lch_mul16 a (lexp16 (u16_to_N log_b)).
Proof.
  destruct (decide (a = u16_0)) as [->|Ha]; [by rewrite mul_log16_0, lch_mul16_0_l|].
  destruct (lexp16_spec (u16_to_N log_b)) as (_ & Hn & Hl).
  rewrite mul_log16_spec, lch_mul16_spec by done. rewrite Hl. apply lexp16_eq.
  by rewrite N.Div0.add_mod_idemp_r.
Qed.

(** building the GF(2^16) tables ends with the tables of the
    model, in which the product by logarithms is the product of a field that is isomorphic
    to the tower field of the Classic codec; each skew is the logarithm of the point that
    the butterflies of its block multiply with; halving an index is the map from [x] to
    [x * x + x]; and the fourth table is the Walsh transform of the logarithms. *)
Theorem leopard16_tables_correct :
  build_tables16 = Ok TABLES16 ∧
  (∀ a b, phi16 (u16_xor a b) = Fields.add (Field:=gf16_alg) (phi16 a) (phi16 b) ∧
          phi16 (lch_mul16 a b) = Fields.mul (Field:=gf16_alg) (phi16 a) (phi16 b)) ∧
  (∀ a b, phi16 a = phi16 b → a = b) ∧
  (∀ a log_b, mul_log16 a log_b (log_lut16 TABLES16) (exp_lut16 TABLES16) = lch_mul16 a (lexp16 (u16_to_N log_b))) ∧
  (∀ l q, (2 * q + 1) * 2 ^ l < 2 ^ 16 →
     fft_skew16 TABLES16 !! ((2 * q + 1) * 2 ^ l - 1) = Some (tbl16 (log_lut16 TABLES16) (2 * q))) ∧
  (∀ i, i < 2 ^ 16 → u16_xor (lch_mul16 (pt16 i) (pt16 i)) (pt16 i) = pt16 (i / 2)) ∧
  ∀ i, i < 2 ^ 16 → is_walsh i (tbl16 (log_walsh16 TABLES16) i).
Proof.
  rewrite TABLES16_log, TABLES16_exp.
  split_and!; [exact TABLES16_built| |exact phi16_inj| | |exact (pt_half (F:=lch16) (w:=16))|].
  - intros a b. split; [apply phi16_xor|apply phi16_mul].
  - intros a log_b. apply mul_log16_lexp.
  - intros l q Hq. exact (skew_lookup (SkewTable:=skew_table16) l q Hq).
  - intros i Hi. apply TABLES16_walsh. by rewrite ORDER16_pow.
Qed.
