(* ===== verification/LeoOps16.v ===== *)
(** * Lane operations of the Leopard GF(2^16) engine ([src/core/leopard_gf16/ops.rs])

    Products with a logarithm, the butterflies of two and of four lanes, and the change
    between the layout of the user's shards (in every 64 bytes the low bytes of 32 elements,
    then their high bytes) and the lanes of [u16], in the portable little-endian form
    (the SIMD forms of the same loops are not selected).  On each element a butterfly is the
    butterfly of [Lch] in the field [lch16]. *)

From Stdlib Require Import NArith Lia List Bool.
From stdpp Require Import base numbers list.
From S2P Require Import Prelude Bytes Fields Gf8 Encode LeoSlices Lch LeoStages LeoButterfly LeoPlan LeoDit.
From S2P Require Import LeoCode LeoGroup LeoChunk LeoTables16 LeoLch16 LeoSkew16.

(** ** Lanes in memory *)

(** [from_raw_parts(lane.as_ptr().cast::<u8>(), 2 * lane.len())] and its inverse. *)
Definition u16s_to_bytes (l : list u16) : list byte :=
  List.concat (map (λ a, [u16_lo a; u16_hi a]) l).

Fixpoint u16s_of_bytes (b : list byte) : list u16 :=
  match b with
  | lo :: hi :: b => mk_u16 lo hi :: u16s_of_bytes b
  | _ => []
  end.

(** The loops of [slice_xor_u64], with the arguments in the other order. *)
Definition slice_xor_u16_u64 (dst src : list byte) : list byte := slice_xor_u64 src dst.

Definition slice_xor_u16 (dst src : list u16) : list u16 :=
  u16s_of_bytes (slice_xor_u16_u64 (u16s_to_bytes dst) (u16s_to_bytes src)).

(** ** Products *)
Section products.
Context (tables : LeopardGf16Tables) (log_m : u16).
Implicit Types (out input : list u16).

Definition is_modulus16 : bool := bool_decide (log_m = as_u16 (N.of_nat MODULUS16)).

Definition mul_elem (a : u16) : u16 := mul_log16 a log_m (log_lut16 tables) (exp_lut16 tables).

(** The unrolled bodies: four elements at once. *)
Definition mul_four (dst src : list u16) : list u16 := tabulate 4 (λ k, mul_elem (tbl16 src k)).
Definition mul_xor_four (dst src : list u16) : list u16 :=
  tabulate 4 (λ k, u16_xor (tbl16 dst k) (mul_elem (tbl16 src k))).

Definition mulgf16 out input : list u16 :=
  if is_modulus16 then input else
  let '(chunks_in, tail_in) := as_chunks 4 input in
  let '(chunks_out, tail_out) := as_chunks 4 out in
  List.concat (zip_assign mul_four chunks_out chunks_in) ++
  zip_assign (λ _ s, mul_elem s) tail_out tail_in.

Definition mulgf16_xor out input : list u16 :=
  if is_modulus16 then slice_xor_u16 out input else
  let '(chunks_in, tail_in) := as_chunks 4 input in
  let '(chunks_out, tail_out) := as_chunks 4 out in
  List.concat (zip_assign mul_xor_four chunks_out chunks_in) ++
  zip_assign (λ d s, u16_xor d (mul_elem s)) tail_out tail_in.

(** ** Butterflies *)
Definition dit2_step16 (dst src : list u16) : list u16 * list u16 :=
  if is_modulus16 then (dst, slice_xor_u16 src dst)
  else let dst := mulgf16_xor dst src in (dst, slice_xor_u16 src dst).

Definition dit2_step_inv16 (dst src : list u16) : list u16 * list u16 :=
  if is_modulus16 then (dst, slice_xor_u16 src dst)
  else let src := slice_xor_u16 src dst in (mulgf16_xor dst src, src).
End products.

Section butterflies.
Context (tables : LeopardGf16Tables).
Implicit Types (a b c d x y : list u16).

Definition fft_dit2_16 x y (log_m : u16) : list u16 * list u16 := dit2_step16 tables log_m x y.
Definition ifft_dit2_16 x y (log_m : u16) : list u16 * list u16 := dit2_step_inv16 tables log_m x y.

Definition fft_dit4_16 a b c d (log_m01 log_m23 log_m02 : u16)
  : list u16 * list u16 * list u16 * list u16 :=
  let '(a, c) := dit2_step16 tables log_m02 a c in
  let '(b, d) := dit2_step16 tables log_m02 b d in
  let '(a, b) := dit2_step16 tables log_m01 a b in
  let '(c, d) := dit2_step16 tables log_m23 c d in
  (a, b, c, d).

Definition ifft_dit4_16 a b c d (log_m01 log_m23 log_m02 : u16)
  : list u16 * list u16 * list u16 * list u16 :=
  let '(a, b) := dit2_step_inv16 tables log_m01 a b in
  let '(c, d) := dit2_step_inv16 tables log_m23 c d in
  let '(b, d) := dit2_step_inv16 tables log_m02 b d in
  let '(a, c) := dit2_step_inv16 tables log_m02 a c in
  (a, b, c, d).
End butterflies.

(** ** The layout of the user *)
Section layout.
Context {E : Type}.
Implicit Types (src dst user : list byte) (out : list u16).

(** [for (idx, chunk) in src.chunks(64).enumerate()], with
    [&mut dst[idx * 64..idx * 64 + 64]]. *)
Definition each_block (body : list byte → list byte → outcome E (list byte)) src dst
  : outcome E (list byte) :=
  for_range 0 (nblocks (length src) 64) (λ chunk_idx dst,
    let base := chunk_idx * 64 in
    let chunk := take 64 (drop base src) in
    let! dst_chunk := slice dst base (base + 64) in
    let! dst_chunk := body chunk dst_chunk in
    Ok (splice dst base dst_chunk)) dst.

Definition user_bytes_to_work_bytes src dst : outcome E (list byte) :=
  each_block (λ chunk, for_range 0 32 (λ i dst_chunk,
    let! lo := index chunk i in
    let! dst_chunk := update dst_chunk (2 * i) lo in
    let! hi := index chunk (i + 32) in
    update dst_chunk (2 * i + 1) hi)) src dst.

Definition work_bytes_to_user_bytes src dst : outcome E (list byte) :=
  each_block (λ chunk, for_range 0 32 (λ i dst_chunk,
    let! lo := index chunk (2 * i) in
    let! dst_chunk := update dst_chunk i lo in
    let! hi := index chunk (2 * i + 1) in
    update dst_chunk (i + 32) hi)) src dst.

(** The two [assert!]s, then the bytes of [out] are written. *)
Definition user_bytes_to_work_u16_into user out : outcome E (list u16) :=
  if negb (length user =? length out * 2) then Panic else
  if negb (length user mod 64 =? 0) then Panic else
  let! bytes := user_bytes_to_work_bytes user (u16s_to_bytes out) in
  Ok (u16s_of_bytes bytes).

Definition user_bytes_to_work_u16 user : outcome E (list u16) :=
  user_bytes_to_work_u16_into user (replicate (length user / 2) u16_0).

Definition work_u16_to_user_bytes (src : list u16) dst : outcome E (list byte) :=
  work_bytes_to_user_bytes (take (length dst) (u16s_to_bytes src)) dst.
End layout.

(** ** Views in memory *)
Section views.
Implicit Types (a b l : list u16).

Lemma u16s_to_bytes_cons x l : u16s_to_bytes (x :: l) = u16_lo x :: u16_hi x :: u16s_to_bytes l.
Proof. reflexivity. Qed.

Lemma length_u16s_to_bytes l : length (u16s_to_bytes l) = 2 * length l.
Proof. induction l as [|x l IH]; [done|]. rewrite u16s_to_bytes_cons. cbn [length]. lia. Qed.

Lemma u16s_of_to_bytes l : u16s_of_bytes (u16s_to_bytes l) = l.
Proof. induction l as [|[lo hi] l IH]; [done|]. rewrite u16s_to_bytes_cons. cbn [u16s_of_bytes]. by rewrite IH. Qed.

Lemma u16s_of_bytes_zip a : ∀ b,
  u16s_of_bytes (zip_with u8_xor (u16s_to_bytes a) (u16s_to_bytes b)) = zip_with u16_xor a b.
Proof.
  induction a as [|x a IH]; intros [|y b]; [done..|]. rewrite !u16s_to_bytes_cons.
  cbn [zip_with u16s_of_bytes]. by rewrite IH.
Qed.

Lemma slice_xor_u16_words a b : length a = length b → slice_xor_u16 a b = zip_with u16_xor a b.
Proof.
  intros Hl. unfold slice_xor_u16, slice_xor_u16_u64.
  rewrite slice_xor_u64_bytes by (rewrite !length_u16s_to_bytes; lia). apply u16s_of_bytes_zip.
Qed.

Lemma tbl16_zip f a b j : length a = length b → j < length a →
  tbl16 (zip_with f a b) j = f (tbl16 a j) (tbl16 b j).
Proof.
  intros Hl Hj. unfold tbl16. destruct (lookup_lt_is_Some_2 a j Hj) as [x Hx].
  destruct (lookup_lt_is_Some_2 b j ltac:(lia)) as [y Hy].
  by rewrite (lookup_zip_with_lt f a b j x y), Hx, Hy by done.
Qed.
End views.

(** ** Lanes of elements as columns *)
Section columns.
Implicit Types (a b : list u16) (log : u16).
#[local] Opaque MODULUS16.

Definition skew_value16 log : u16 := if is_modulus16 log then u16_0 else lexp16 (u16_to_N log).

Lemma mul_elem_spec log (a : u16) : mul_elem TABLES16 log a = lch_mul16 a (lexp16 (u16_to_N log)).
Proof. unfold mul_elem. rewrite TABLES16_log, TABLES16_exp. apply mul_log16_lexp. Qed.

Lemma tabulate_zip {A} n (f : u16 → u16 → A) a b : length a = n → length b = n →
  tabulate n (λ k, f (tbl16 a k) (tbl16 b k)) = zip_with f a b.
Proof.
  intros Ha Hb. symmetry. apply eq_tabulate; [rewrite length_zip_with; lia|]. intros i Hi.
  destruct (lookup_lt_is_Some_2 a i ltac:(lia)) as [x Hx].
  destruct (lookup_lt_is_Some_2 b i ltac:(lia)) as [y Hy].
  unfold tbl16. by rewrite (lookup_zip_with_lt f a b i x y), Hx, Hy.
Qed.

(** The unrolled loops are element by element. *)
Lemma four_at_once f four a b :
  (∀ x y, length x = 4 → length y = 4 → four x y = zip_with f x y) → length a = length b →
  (let '(chunks_in, tail_in) := as_chunks 4 b in
   let '(chunks_out, tail_out) := as_chunks 4 a in
   List.concat (zip_assign four chunks_out chunks_in) ++ zip_assign f tail_out tail_in) = zip_with f a b.
Proof.
  intros Hf Hl. unfold as_chunks. rewrite Hl.
  pose proof (chunked_zip f four (length b) 4 Hf a b Hl) as H.
  destruct (split_chunks (length b) 4 a) as [ca ta], (split_chunks (length b) 4 b) as [cb tb].
  destruct H as [Ht H]. by rewrite (zip_assign_eq f) by done.
Qed.

Lemma mulgf16_words log a b : length a = length b → is_modulus16 log = false →
  mulgf16 TABLES16 log a b = map (λ s, lch_mul16 s (lexp16 (u16_to_N log))) b.
Proof.
  intros Hl Hm. unfold mulgf16. rewrite Hm.
  pose proof (four_at_once (λ _ s, mul_elem TABLES16 log s) (mul_four TABLES16 log) a b) as H.
  etrans; [apply H; [|done]|].
  - intros x y Hx Hy. apply (tabulate_zip 4 (λ _ s, mul_elem TABLES16 log s)); done.
  - clear H. revert b Hl. induction a as [|x a IH]; intros [|y b] Hl; [done..|]. cbn [zip_with map].
    rewrite IH by (simpl in Hl; lia). by rewrite mul_elem_spec.
Qed.

Lemma mulgf16_xor_words log a b : length a = length b → is_modulus16 log = false →
  mulgf16_xor TABLES16 log a b = zip_with (λ d s, u16_xor d (lch_mul16 s (lexp16 (u16_to_N log)))) a b.
Proof.
  intros Hl Hm. unfold mulgf16_xor. rewrite Hm.
  pose proof (four_at_once (λ d s, u16_xor d (mul_elem TABLES16 log s)) (mul_xor_four TABLES16 log) a b) as H.
  etrans; [apply H; [|done]|].
  - intros x y Hx Hy. apply (tabulate_zip 4 (λ d s, u16_xor d (mul_elem TABLES16 log s))); done.
  - clear. revert b. induction a as [|x a IH]; intros [|y b]; [done..|]. cbn [zip_with].
    by rewrite IH, mul_elem_spec.
Qed.

Lemma fwd2_words e x y :
  fwd2 (F:=lch16) e x y = (u16_xor x (lch_mul16 e y), u16_xor y (u16_xor x (lch_mul16 e y))).
Proof. done. Qed.

Lemma inv2_words e x y :
  inv2 (F:=lch16) e x y = (u16_xor x (lch_mul16 e (u16_xor y x)), u16_xor y x).
Proof. done. Qed.

Lemma lch_mul16_comm (a b : u16) : lch_mul16 a b = lch_mul16 b a.
Proof. exact (Fields.mul_comm (F:=lch16) a b). Qed.

#[export] Instance skew_values16 : SkewValues (F:=lch16) 16 pt16 slog16 skew_value16.
Proof.
  intros i Hi. unfold skew_value16, is_modulus16, slog16. rewrite <- ORDER16_pow in Hi.
  destruct (decide (i = 0)) as [->|Hne].
  - rewrite log16_0, MODULUS16_N, bool_decide_eq_true_2 by reflexivity. reflexivity.
  - assert (pt16 i ≠ u16_0) as Hpt by (apply pt16_neq_0; lia).
    destruct (llog16_spec (pt16 i) Hpt) as (H1 & _ & _).
    unfold llog16 in H1. rewrite u16_to_nat_pt16 in H1 by done.
    rewrite bool_decide_eq_false_2.
    + pose proof (lexp16_llog16 (pt16 i) Hpt) as H2. unfold llog16 in H2.
      by rewrite u16_to_nat_pt16 in H2 by done.
    + intros H. rewrite H, u16_to_N_small, MODULUS16_N in H1 by (rewrite MODULUS16_N; lia). lia.
Qed.
End columns.

(** ** The butterflies of the code *)
Abbreviation LaneButterflies16 := (LaneButterflies (F:=lch16) skew_value16).

Lemma tbl16_map f (l : list u16) b : b < length l → tbl16 (map f l) b = f (tbl16 l b).
Proof. intros Hb. destruct (lookup_lt_is_Some_2 l b Hb) as [x Hx]. unfold tbl16. by rewrite lookup_map, Hx. Qed.

Lemma xor_lane (a b : list u16) j : length a = length b → 
  length (slice_xor_u16 a b) = length a ∧
  (j < length a → tbl16 (slice_xor_u16 a b) j = u16_xor (tbl16 a j) (tbl16 b j)).
Proof.
  intros Hl. rewrite slice_xor_u16_words by done. rewrite length_zip_with. split; [lia|].
  intros Hj. by apply tbl16_zip.
Qed.

Lemma mul_xor_lane log (a b : list u16) j : length a = length b → is_modulus16 log = false →
  length (mulgf16_xor TABLES16 log a b) = length a ∧
  (j < length a → tbl16 (mulgf16_xor TABLES16 log a b) j
     = u16_xor (tbl16 a j) (lch_mul16 (tbl16 b j) (skew_value16 log))).
Proof.
  intros Hl Hm. rewrite mulgf16_xor_words by done. rewrite length_zip_with. split; [lia|].
  intros Hj. unfold skew_value16. rewrite Hm. by rewrite tbl16_zip by done.
Qed.

#[export] Instance word_lanes n :
  LaneButterflies16 (λ log x y, fft_dit2_16 TABLES16 x y log) (λ log x y, ifft_dit2_16 TABLES16 x y log) n n.
Proof.
  split; intros log b x y Hx Hy; change (@cell lch16) with tbl16; change (@Elem lch16) with u16 in *;
    unfold fft_dit2_16, ifft_dit2_16, dit2_step16, dit2_step_inv16; destruct (is_modulus16 log) eqn:Hm; cbn [fst snd].
  - destruct (xor_lane y x b ltac:(lia)) as [Hl H]. split_and!; [lia..|]. intros Hb.
    rewrite fwd2_words, H by lia. unfold skew_value16. rewrite Hm, lch_mul16_0_l, u16_xor_0_r. done.
  - destruct (mul_xor_lane log x y b ltac:(lia) Hm) as [Hl1 H1].
    destruct (xor_lane y (mulgf16_xor TABLES16 log x y) b ltac:(lia)) as [Hl2 H2]. split_and!; [lia..|]. intros Hb.
    by rewrite fwd2_words, H2, H1, (lch_mul16_comm (skew_value16 log)) by lia.
  - destruct (xor_lane y x b ltac:(lia)) as [Hl H]. split_and!; [lia..|]. intros Hb.
    rewrite inv2_words, H by lia. unfold skew_value16. rewrite Hm, lch_mul16_0_l, u16_xor_0_r. done.
  - destruct (xor_lane y x b ltac:(lia)) as [Hl2 H2].
    destruct (mul_xor_lane log x (slice_xor_u16 y x) b ltac:(lia) Hm) as [Hl1 H1]. split_and!; [lia..|]. intros Hb.
    by rewrite inv2_words, H1, H2, (lch_mul16_comm (skew_value16 log)) by lia.
Qed.

(** The butterflies of four lanes are made of those of two. *)
Lemma dit4_lanes tables dir a b c d m01 m23 m02 k :
  pick4 (match dir with Forward => fft_dit4_16 tables | Inverse => ifft_dit4_16 tables end
    a b c d m01 m23 m02) k
  = lanes4 (λ log x y, fft_dit2_16 tables x y log) (λ log x y, ifft_dit2_16 tables x y log)
      dir m01 m23 m02 [a; b; c; d] k.
Proof.
  destruct dir; cbn [lanes4 fwd4 inv4]; unfold fft_dit4_16, ifft_dit4_16, fft_dit2_16, ifft_dit2_16.
  - destruct (dit2_step16 tables m02 a c) as [x z], (dit2_step16 tables m02 b d) as [y u].
    by destruct (dit2_step16 tables m01 x y), (dit2_step16 tables m23 z u).
  - destruct (dit2_step_inv16 tables m01 a b) as [x y], (dit2_step_inv16 tables m23 c d) as [z u].
    by destruct (dit2_step_inv16 tables m02 y u), (dit2_step_inv16 tables m02 x z).
Qed.

(** ** The layout of the user *)

(** Element [e] of a shard. *)
Definition user_pos (e : nat) : nat := e / 32 * 64 + e mod 32.
Definition user_elem (user : list byte) (e : nat) : u16 :=
  mk_u16 (tbl user (user_pos e)) (tbl user (user_pos e + 32)).

Section layout_proofs.
Context {E : Type}.
Implicit Types (src dst user chunk c : list byte) (l : list u16) (e k r : nat).

Definition block (k : nat) (b : list byte) : list byte := take 64 (drop (k * 64) b).

Lemma lookup_block k b r : r < 64 → block k b !! r = b !! (k * 64 + r).
Proof. intros Hr. unfold block. by rewrite lookup_take_lt, lookup_drop by done. Qed.

Lemma block_splice n k k' dst c : length dst = n * 64 → k < n → length c = 64 → k' < n →
  block k' (splice dst (k * 64) c) = if decide (k' = k) then c else block k' dst.
Proof.
  intros Hd Hk Hc Hk'. apply list_ext_lt.
  - unfold block. case_decide; rewrite length_take, length_drop, ?length_splice by lia; [lia|].
    by rewrite length_take, length_drop.
  - unfold block at 1. rewrite length_take, length_drop, length_splice by lia. intros i Hi.
    rewrite lookup_block by lia. rewrite lookup_splice by lia. case_decide as H1; case_decide as H2; try lia.
    + f_equal. lia.
    + by rewrite lookup_block by lia.
Qed.

Lemma each_block_ensures (Q : list byte → list byte → Prop) body n src dst :
  length src = n * 64 → length dst = n * 64 →
  (∀ chunk c, length chunk = 64 → length c = 64 →
     ensures (E:=E) (body chunk c) (λ c', length c' = 64 ∧ Q chunk c') (λ _, False)) →
  ensures (E:=E) (each_block body src dst) (λ out, length out = n * 64 ∧
    ∀ k, k < n → Q (block k src) (block k out)) (λ _, False).
Proof.
  intros Hsrc Hdst Hbody. unfold each_block.
  assert (nblocks (length src) 64 = n) as ->.
  { rewrite Hsrc, nblocks_div by lia. by rewrite Nat.Div0.mod_mul, Nat.div_mul by lia. }
  apply (for_range_post 0 n _ (λ k out, length out = n * 64 ∧ ∀ k', k' < k → Q (block k' src) (block k' out)));
    [lia|by split; [|lia]| |done].
  intros k out Hk [Hl HQ]. cbv zeta. fold (block k src).
  rewrite slice_ok by lia. cbn [obind]. replace (k * 64 + 64 - k * 64) with 64 by lia. fold (block k out).
  eapply ensures_bind; [apply Hbody; unfold block; rewrite length_take, length_drop; lia|].
  intros c' [Hc' HQc]. cbn. split; [rewrite length_splice; lia|]. intros k' Hk'.
  rewrite (block_splice n k) by lia. case_decide; [by subst|]. apply HQ. lia.
Qed.

(** The two directions, block by block. *)
Definition interleaved (user work : list byte) : Prop := ∀ i, i < 32 →
  work !! (2 * i) = Some (tbl user i) ∧ work !! (2 * i + 1) = Some (tbl user (i + 32)).
Definition deinterleaved (work user : list byte) : Prop := ∀ i, i < 32 →
  user !! i = Some (tbl work (2 * i)) ∧ user !! (i + 32) = Some (tbl work (2 * i + 1)).

Lemma index_tbl b i : i < length b → index (E:=E) b i = Ok (tbl b i).
Proof. intros Hi. apply index_ok. destruct (lookup_lt_is_Some_2 b i Hi) as [x Hx]. unfold tbl. by rewrite Hx. Qed.

Lemma user_to_work_ensures n src dst : length src = n * 64 → length dst = n * 64 →
  ensures (E:=E) (user_bytes_to_work_bytes src dst) (λ out, length out = n * 64 ∧
    ∀ k, k < n → interleaved (block k src) (block k out)) (λ _, False).
Proof.
  intros Hsrc Hdst. apply each_block_ensures; [done..|]. intros chunk c Hchunk Hc.
  apply (for_range_post 0 32 _ (λ k c, length c = 64 ∧ ∀ i, i < k →
    c !! (2 * i) = Some (tbl chunk i) ∧ c !! (2 * i + 1) = Some (tbl chunk (i + 32)))); [lia|by split; [|lia]| |done].
  intros k c0 Hk [Hl HI]. rewrite index_tbl by lia. cbn [obind]. rewrite update_ok by lia. cbn [obind].
  rewrite index_tbl by lia. cbn [obind]. rewrite update_ok by (rewrite length_insert; lia). cbn.
  rewrite !length_insert. split; [done|]. intros i Hi. destruct (decide (i = k)) as [->|Hne].
  - rewrite (list_lookup_insert_ne _ (k + (k + 0) + 1)), !list_lookup_insert_eq by (rewrite ?length_insert; lia). done.
  - rewrite !list_lookup_insert_ne by lia. apply HI. lia.
Qed.

Lemma work_to_user_ensures n src dst : length src = n * 64 → length dst = n * 64 →
  ensures (E:=E) (work_bytes_to_user_bytes src dst) (λ out, length out = n * 64 ∧
    ∀ k, k < n → deinterleaved (block k src) (block k out)) (λ _, False).
Proof.
  intros Hsrc Hdst. apply each_block_ensures; [done..|]. intros chunk c Hchunk Hc.
  apply (for_range_post 0 32 _ (λ k c, length c = 64 ∧ ∀ i, i < k →
    c !! i = Some (tbl chunk (2 * i)) ∧ c !! (i + 32) = Some (tbl chunk (2 * i + 1)))); [lia|by split; [|lia]| |done].
  intros k c0 Hk [Hl HI]. rewrite index_tbl by lia. cbn [obind]. rewrite update_ok by lia. cbn [obind].
  rewrite index_tbl by lia. cbn [obind]. rewrite update_ok by (rewrite length_insert; lia). cbn.
  rewrite !length_insert. split; [done|]. intros i Hi. destruct (decide (i = k)) as [->|Hne].
  - rewrite (list_lookup_insert_ne _ (k + 32)), !list_lookup_insert_eq by (rewrite ?length_insert; lia). done.
  - rewrite !list_lookup_insert_ne by lia. apply HI. lia.
Qed.
End layout_proofs.

Section elements.
Context {E : Type}.
Implicit Types (src dst user b : list byte) (l : list u16) (e k r len start : nat).

(** The elements of the memory of a lane. *)
Lemma u16s_of_bytes_tabulate n : ∀ b, length b = 2 * n →
  u16s_of_bytes b = tabulate n (λ e, mk_u16 (tbl b (2 * e)) (tbl b (2 * e + 1))).
Proof.
  induction n as [|n IH]; intros b Hb; [by destruct b|].
  destruct b as [|lo [|hi b]]; simpl in Hb; [lia|lia|]. cbn [u16s_of_bytes].
  rewrite tabulate_S, IH by lia. f_equal. apply tabulate_ext. intros e _.
  unfold tbl. replace (2 * S e) with (S (S (2 * e))) by lia. reflexivity.
Qed.

Lemma tbl_u16s_to_bytes l : ∀ e, e < length l →
  tbl (u16s_to_bytes l) (2 * e) = u16_lo (tbl16 l e) ∧ tbl (u16s_to_bytes l) (2 * e + 1) = u16_hi (tbl16 l e).
Proof.
  induction l as [|x l IH]; intros e He; simpl in He; [lia|]. rewrite u16s_to_bytes_cons.
  destruct e as [|e]; [done|]. replace (2 * S e) with (S (S (2 * e))) by lia. apply (IH e). lia.
Qed.

(** Positions: the blocks and their halves. *)
Lemma user_pos_block k r : r < 32 → user_pos (k * 32 + r) = k * 64 + r.
Proof.
  intros Hr. unfold user_pos. rewrite Nat.div_add_l, Nat.div_small by lia.
  rewrite (Nat.add_comm (k * 32) r), Nat.Div0.mod_add, Nat.mod_small by lia. lia.
Qed.

Lemma split_32 e : ∃ k r, e = k * 32 + r ∧ r < 32.
Proof.
  exists (e / 32), (e mod 32). pose proof (Nat.div_mod_eq e 32). pose proof (Nat.mod_upper_bound e 32). lia.
Qed.

Lemma user_pos_lt n e : e < n * 32 → user_pos e + 32 < n * 64.
Proof. intros He. destruct (split_32 e) as (k & r & -> & Hr). rewrite user_pos_block by done. lia. Qed.

Lemma user_pos_add k e : user_pos (k * 32 + e) = k * 64 + user_pos e.
Proof.
  destruct (split_32 e) as (k' & r & -> & Hr). replace (k * 32 + (k' * 32 + r)) with ((k + k') * 32 + r) by lia.
  rewrite !user_pos_block by done. lia.
Qed.

Lemma tbl_block k b r : r < 64 → tbl (block k b) r = tbl b (k * 64 + r).
Proof. intros Hr. unfold tbl. by rewrite lookup_block. Qed.

Lemma user_bytes_to_work_u16_into_ok n user out : length user = n * 64 → length out = n * 32 →
  user_bytes_to_work_u16_into (E:=E) user out = Ok (tabulate (n * 32) (user_elem user)).
Proof.
  intros Hu Ho. unfold user_bytes_to_work_u16_into.
  rewrite Hu, Ho, (proj2 (Nat.eqb_eq (n * 64) (n * 32 * 2))), Nat.Div0.mod_mul by lia. cbn [negb Nat.eqb].
  pose proof (user_to_work_ensures (E:=E) n user (u16s_to_bytes out) Hu) as H.
  apply ensures_noerr in H as (b & -> & Hb & HI); [|rewrite length_u16s_to_bytes; lia]. cbn [obind].
  rewrite (u16s_of_bytes_tabulate (n * 32)) by lia. f_equal. apply tabulate_ext. intros e He.
  destruct (split_32 e) as (k & r & -> & Hr). destruct (HI k ltac:(lia) r Hr) as [H1 H2].
  rewrite lookup_block in H1, H2 by lia. unfold user_elem. rewrite user_pos_block by done.
  rewrite tbl_block in H1, H2 by lia. unfold tbl at 1 2.
  replace (2 * (k * 32 + r)) with (k * 64 + 2 * r) by lia. replace (k * 64 + 2 * r + 1) with (k * 64 + (2 * r + 1)) by lia.
  rewrite H1, H2. cbn [default from_option id]. by rewrite Nat.add_assoc.
Qed.

Lemma work_u16_to_user_bytes_ok n (src : list u16) dst : length src = n * 32 → length dst = n * 64 →
  ∃ out, work_u16_to_user_bytes (E:=E) src dst = Ok out ∧ length out = n * 64 ∧
    ∀ e, e < n * 32 → user_elem out e = tbl16 src e.
Proof.
  intros Hs Hd. unfold work_u16_to_user_bytes.
  rewrite take_ge by (rewrite length_u16s_to_bytes; lia).
  pose proof (work_to_user_ensures (E:=E) n (u16s_to_bytes src) dst) as H.
  apply ensures_noerr in H as (b & -> & Hb & HI); [|rewrite length_u16s_to_bytes; lia|done].
  exists b. split_and!; [done|done|]. intros e He.
  destruct (split_32 e) as (k & r & -> & Hr). destruct (HI k ltac:(lia) r Hr) as [H1 H2].
  rewrite lookup_block in H1, H2 by lia. rewrite tbl_block in H1, H2 by lia.
  destruct (tbl_u16s_to_bytes src (k * 32 + r) ltac:(lia)) as [Hlo Hhi].
  unfold user_elem. rewrite user_pos_block by done. unfold tbl at 1 2.
  replace (k * 64 + r + 32) with (k * 64 + (r + 32)) by lia. rewrite H1, H2. cbn [default from_option id].
  replace (k * 64 + 2 * r) with (2 * (k * 32 + r)) by lia.
  replace (k * 64 + (2 * r + 1)) with (2 * (k * 32 + r) + 1) by lia. rewrite Hlo, Hhi.
  by destruct (tbl16 src (k * 32 + r)).
Qed.

(** The elements of parts of a shard. *)
Lemma user_elem_slice k n b e : e < n * 32 → user_elem (take (n * 64) (drop (k * 64) b)) e = user_elem b (k * 32 + e).
Proof.
  intros He. pose proof (user_pos_lt n e He). unfold user_elem, tbl.
  rewrite !lookup_take_lt, !lookup_drop by lia. by rewrite user_pos_add, Nat.add_assoc.
Qed.

Lemma user_elem_splice k n b new e : length new = n * 64 → k * 64 + n * 64 ≤ length b →
  user_elem (splice b (k * 64) new) e
  = if decide (k * 32 ≤ e < k * 32 + n * 32) then user_elem new (e - k * 32) else user_elem b e.
Proof.
  intros Hn Hb. unfold user_elem, tbl. rewrite !lookup_splice by lia.
  destruct (decide (k * 32 ≤ e < _)) as [He|He].
  - assert (user_pos e = k * 64 + user_pos (e - k * 32)) as -> by (rewrite <- user_pos_add; f_equal; lia).
    pose proof (user_pos_lt n (e - k * 32) ltac:(lia)).
    rewrite !decide_True by lia. do 3 f_equal; lia.
  - destruct (split_32 e) as (k' & r & -> & Hr). rewrite user_pos_block by done.
    rewrite !decide_False by nia. done.
Qed.

Lemma user_elem_ext n b b' : length b = n * 64 → length b' = n * 64 →
  (∀ e, e < n * 32 → user_elem b e = user_elem b' e) → b = b'.
Proof.
  intros Hb Hb' H. apply list_ext_lt; [lia|]. rewrite Hb. intros i Hi.
  assert (tbl b i = tbl b' i) as Heq.
  { pose proof (Nat.div_mod_eq i 64). pose proof (Nat.mod_upper_bound i 64 ltac:(lia)).
    set (k := i / 64) in *. set (r := i mod 64) in *.
    destruct (decide (r < 32)) as [Hr|Hr].
    - specialize (H (k * 32 + r) ltac:(lia)). unfold user_elem in H. rewrite user_pos_block in H by done.
      injection H as H _. replace i with (k * 64 + r) by lia. done.
    - specialize (H (k * 32 + (r - 32)) ltac:(lia)). unfold user_elem in H. rewrite user_pos_block in H by lia.
      injection H as _ H. replace i with (k * 64 + (r - 32) + 32) by lia. done. }
  unfold tbl in Heq. destruct (lookup_lt_is_Some_2 b i ltac:(lia)) as [x Hx], (lookup_lt_is_Some_2 b' i ltac:(lia)) as [y Hy].
  rewrite Hx, Hy in *. by simpl in Heq; subst.
Qed.
End elements.
