(* ===== verification/LeoGroup16.v ===== *)
(** * Plans, drivers and transforms of the Leopard GF(2^16) engine
    ([src/core/leopard_gf16/mod.rs], [driver.rs] and [encode.rs], lines 253-490)

    The plans of [LeoPlan] with the skews of [LeoSkew16] and the driver of the encoder; the
    radix-4 blocks and the transforms that the encoder runs on one group of lanes of
    [u16], and what they compute: a group is interpolated on its block of points, the parity
    is evaluated on the first block, whatever the lanes held before. *)

From Stdlib Require Import NArith Lia List Bool.
From stdpp Require Import base numbers list.
From S2P Require Import Prelude Errors Bytes Fields Gf8 LinAlg Options Leopard Lch LeoStages LeoPlan LeoButterfly LeoDit LeoGroup.
From S2P Require Import LeoTables16 LeoLch16 LeoSkew16 LeoOps16.

Definition FftDit16Plan : Type := FftPlan u16.
Definition IfftDit16Plan : Type := IfftPlan u16.

Definition build_fft_dit16_plan {E} (mtrunc m : nat) (skew_lut : list u16) : outcome E FftDit16Plan :=
  build_fft_plan mtrunc m skew_lut.

Definition build_ifft_dit16_plan {E} (mtrunc m : nat) (skew_lut : list u16) : outcome E IfftDit16Plan :=
  build_ifft_plan mtrunc m skew_lut.

Definition build_ifft_decode_dit16_plan {E} (mtrunc m : nat) (skew_lut : list u16)
  : outcome E IfftDit16Plan := build_ifft_decode_plan mtrunc m skew_lut.

(** ** [driver.rs] *)
Definition LeopardGf16EncodeDriver : Type := LeopardEncodeDriver.

Definition build_leopard_gf16_encode_driver (data_shards parity_shards shard_size : nat)
  : outcome Error LeopardGf16EncodeDriver :=
  let! _ := validate_leopard_shard_len (N.of_nat shard_size) in
  let m := ceil_pow2 (Nat.max parity_shards 1) in
  if MODULUS16 <? m then Err TooManyShards else
  let mtrunc := Nat.min data_shards m in
  let last_count := data_shards mod m in
  Ok (mk_encode_driver shard_size m mtrunc last_count WORK_SIZE16 (m * 2) (m - 1)).

Section transforms.
Context {E : Type} (tables : LeopardGf16Tables).
Implicit Types (work : list (list u16)) (dir : TransformDir).

Definition dit2_16 (log_m : u16) (x y : list u16) : list u16 * list u16 := fft_dit2_16 tables x y log_m.
Definition idit2_16 (log_m : u16) (x y : list u16) : list u16 * list u16 := ifft_dit2_16 tables x y log_m.

Definition dit4_pairwise_16 dir work (a dist : nat) (log_m01 log_m23 log_m02 : u16) : list (list u16) :=
  let b := a + dist in let c := a + dist * 2 in let d := a + dist * 3 in
  let has_a := a <? length work in let has_b := b <? length work in
  let has_c := c <? length work in let has_d := d <? length work in
  match dir with
  | Forward =>
      let work := if has_a && has_c then with_pair work a c (dit2_16 log_m02) else work in
      let work := if has_b && has_d then with_pair work b d (dit2_16 log_m02) else work in
      let work := if has_a && has_b then with_pair work a b (dit2_16 log_m01) else work in
      if has_c && has_d then with_pair work c d (dit2_16 log_m23) else work
  | Inverse =>
      let work := if has_a && has_b then with_pair work a b (idit2_16 log_m01) else work in
      let work := if has_c && has_d then with_pair work c d (idit2_16 log_m23) else work in
      let work := if has_a && has_c then with_pair work a c (idit2_16 log_m02) else work in
      if has_b && has_d then with_pair work b d (idit2_16 log_m02) else work
  end.

Definition dit4_at_16 dir work (base dist : nat) (log_m01 log_m23 log_m02 : u16)
  : outcome E (list (list u16)) :=
  for_range 0 dist (λ i work,
    let a := base + i in let b := a + dist in let c := a + dist * 2 in let d := a + dist * 3 in
    if d <? length work then
      let f := match dir with Forward => fft_dit4_16 tables | Inverse => ifft_dit4_16 tables end in
      four_lanes (λ xa xb xc xd, f xa xb xc xd log_m01 log_m23 log_m02) work a b c d
    else Ok (dit4_pairwise_16 dir work a dist log_m01 log_m23 log_m02)) work.

Definition quad_stage16 dir (block : Stage4Block u16) work : outcome E (list (list u16)) :=
  dit4_at_16 dir work (stage4_r block) (stage4_dist block)
    (stage4_m01 block) (stage4_m23 block) (stage4_m02 block).

(** A pair of a final stage, when there is one. *)
Definition pair_stage16 (f : list u16 → list u16 → list u16 * list u16) (i dist : nat) work
  : outcome E (list (list u16)) :=
  if i + dist <? length work then pair_at f i dist work else Ok work.

Definition fft_dit16_with_plan (plan : FftDit16Plan) work : outcome E (list (list u16)) :=
  run_fft (quad_stage16 Forward)
    (λ stage, pair_stage16 (dit2_16 (stage2_m stage)) (stage2_r stage) (stage2_dist stage)) plan work.

(** [user_bytes_to_work_u16_into(&data[i][start * 2..end * 2], &mut work[i][..size])] *)
Definition load_lane16 (data : list (list byte)) (start stop i : nat) work : outcome E (list (list u16)) :=
  let! shard := index data i in
  let! user := slice shard (start * 2) (stop * 2) in
  let! lane := index work i in
  let! view := slice lane 0 (stop - start) in
  let! view := user_bytes_to_work_u16_into user view in
  update work i (splice lane 0 view).

(** [slot[..size].fill(0)] *)
Definition zero_view16 (size i : nat) work : outcome E (list (list u16)) :=
  let! lane := index work i in
  let! view := slice lane 0 size in
  update work i (splice lane 0 (zero_lane u16_0 view)).

Definition zero_trailing_lanes_16 (start_lane count : nat) work : outcome E (list (list u16)) :=
  for_range start_lane (start_lane + count) (λ i work,
    if i <? length work then zero_lane_at u16_0 i work else Ok work) work.

Definition ifft_final_stage16 (stage : Stage2Block u16) work : outcome E (list (list u16)) :=
  for_range 0 (stage2_dist stage) (λ i, pair_stage16 (idit2_16 (stage2_m stage)) i (stage2_dist stage)) work.

Definition ifft_dit_encoder16_with_plan (data : list (list byte)) (plan : IfftDit16Plan) (start stop : nat) work
  : outcome E (list (list u16)) :=
  ifft_encode (load_lane16 data start stop) (zero_view16 (stop - start)) zero_trailing_lanes_16
    (quad_stage16 Inverse) ifft_final_stage16 plan work.

(** The end of a later group: [slice_xor_u16(xor_dst[idx], work[idx])]. *)
Definition xor_lanes16 (m : nat) (work xor_dst : list (list u16)) : outcome E (list (list u16)) :=
  for_range 0 m (λ idx xor_dst,
    if (idx <? length work) && (idx <? length xor_dst) then
      let! x := index xor_dst idx in let! y := index work idx in
      update xor_dst idx (slice_xor_u16 x y)
    else Ok xor_dst) xor_dst.
End transforms.

(** ** Blocks and pairs *)
#[local] Existing Instance elem_inhabited.

Section runs.
Context {E : Type} (len N : nat).
Implicit Types (s t : nat → list u16) (dir : TransformDir).
#[local] Abbreviation emb := (lanes_emb N).
#[local] Abbreviation good := (lanes_good len).
#[local] Abbreviation dit2 := (dit2_16 TABLES16).
#[local] Abbreviation idit2 := (idit2_16 TABLES16).

#[local] Instance table_lanes16 : LaneButterflies16 dit2 idit2 len len := word_lanes len.

Lemma quad_stage16_runs dir : quads_run dit2 idit2 len N dir (quad_stage16 (E:=E) TABLES16 dir).
Proof.
  intros [r dist m01 m23 m02] Hd HN. cbn [stage4_r stage4_dist stage4_m01 stage4_m23 stage4_m02] in *.
  unfold quad_stage16, dit4_at_16. cbn [stage4_r stage4_dist stage4_m01 stage4_m23 stage4_m02].
  apply acts_block. intros i Hi.
  apply (quad_step_acts (F:=lch16) skew_value16 dit2 idit2 len len N); [lia|lia|].
  intros s Hs. unfold lanes_emb at 1. rewrite length_tabulate, (proj2 (Nat.ltb_lt _ _)) by lia.
  unfold lanes_emb. rewrite four_lanes_step by lia. f_equal.
  rewrite gather4. unfold set4. apply tabulate_ext. intros k _.
  pose proof (dit4_lanes TABLES16 dir (s (r + i)) (s (r + i + dist)) (s (r + i + dist * 2)) (s (r + i + dist * 3))
    m01 m23 m02) as Hc. by rewrite !Hc.
Qed.

Lemma pair_stage16_acts dir log r dist : 0 < dist → r + dist < N →
  acts (E:=E) emb good (pair_stage16 (match dir with Forward => dit2 log | Inverse => idit2 log end) r dist)
    (radix_step 2 (step2 (match dir with Forward => dit2 log | Inverse => idit2 log end)) dist r).
Proof.
  intros Hd Hr s Hs. unfold pair_stage16. unfold lanes_emb at 1.
  rewrite length_tabulate, (proj2 (Nat.ltb_lt _ _)) by done.
  exact (pair_at_acts (F:=lch16) skew_value16 dit2 idit2 len N dir log r dist Hd Hr s Hs).
Qed.

Lemma fft_pairs_run16 : pairs_run (E:=E) dit2 idit2 len N Forward
  (λ stage, pair_stage16 (dit2 (stage2_m stage)) (stage2_r stage) (stage2_dist stage)).
Proof.
  intros [r dist m] Hd HN Hdist. cbn [stage2_r stage2_dist stage2_m] in *. subst dist. intros s Hs.
  destruct (pair_stage16_acts Forward m r 1 ltac:(lia) ltac:(lia) s Hs) as (t & Ht & Hg & HR).
  exists t. split_and!; [exact Ht|done|by apply step_block].
Qed.

Lemma ifft_pairs_run16 : pairs_run (E:=E) dit2 idit2 len N Inverse (ifft_final_stage16 TABLES16).
Proof.
  intros [r dist m] Hd HN Hr. cbn [stage2_r stage2_dist stage2_m] in *. subst r.
  unfold ifft_final_stage16. cbn [stage2_dist stage2_m].
  apply acts_block. intros i Hi. apply (pair_stage16_acts Inverse); lia.
Qed.
End runs.

(** ** The transforms of a group *)
Section group.
Context {E : Type} (blocks ks N : nat).
Implicit Types (s t : nat → list u16) (data : list (list byte)).
(** Lengths and offsets are multiples of 32 elements. *)
#[local] Abbreviation len := (blocks * 32).
#[local] Abbreviation start := (ks * 32).
#[local] Abbreviation emb := (lanes_emb N).
#[local] Abbreviation good := (lanes_good len).
#[local] Abbreviation zeros := (replicate len u16_0).
#[local] Abbreviation stop := (start + len).

#[local] Existing Instance table_lanes16.

(** Shard [i] of a group, elements [start] on. *)
Definition shard_part16 data (i : nat) : list u16 :=
  tabulate len (λ e, user_elem (default [] (data !! i)) (start + e)).

Definition group_ok16 data (limit : nat) : Prop :=
  ∀ i, i < limit → ∃ shard, data !! i = Some shard ∧ stop * 2 ≤ length shard.

Lemma load_lane16_step data limit i s : i < N → i < limit → group_ok16 data limit → good s →
  load_lane16 (E:=E) data start stop i (emb s)
  = Ok (emb (λ j, if decide (j = i) then shard_part16 data i else s j)).
Proof.
  intros Hi Hil Hok Hs. destruct (Hok i Hil) as (shard & Hshard & Hl).
  unfold load_lane16. rewrite (index_ok _ _ _ Hshard). cbn [obind]. rewrite slice_ok by lia. cbn [obind].
  unfold lanes_emb. rewrite index_tabulate by done. cbn [obind].
  rewrite slice_ok by (rewrite ?Hs; lia). cbn [obind].
  replace (stop * 2 - start * 2) with (blocks * 64) by lia. replace (start * 2) with (ks * 64) by lia.
  rewrite drop_0, (take_ge (s i)) by (rewrite Hs; lia).
  rewrite (user_bytes_to_work_u16_into_ok blocks) by (rewrite ?length_take, ?length_drop, ?Hs; lia). cbn [obind].
  rewrite update_tabulate by done. f_equal. apply tabulate_ext. intros j _. case_decide; [|done]. subst j.
  rewrite splice_0 by (rewrite length_tabulate, Hs; lia).
  rewrite (drop_ge (s i)), app_nil_r by (rewrite length_tabulate, Hs; lia).
  unfold shard_part16. rewrite Hshard. cbn [default from_option id]. apply tabulate_ext. intros e He.
  by apply user_elem_slice.
Qed.

Lemma zero_view16_step i s : i < N → good s →
  zero_view16 (E:=E) (stop - start) i (emb s) = Ok (emb (λ j, if decide (j = i) then zeros else s j)).
Proof.
  intros Hi Hs. unfold zero_view16, lanes_emb. rewrite index_tabulate by done. cbn [obind].
  rewrite slice_ok by (rewrite ?Hs; lia). cbn [obind]. rewrite drop_0, (take_ge (s i)) by (rewrite Hs; lia).
  rewrite update_tabulate by done. f_equal. apply tabulate_ext. intros j _. case_decide; [|done]. subst j.
  unfold zero_lane. rewrite Hs. rewrite splice_0 by (rewrite length_replicate, Hs; lia).
  by rewrite (drop_ge (s i)), app_nil_r by (rewrite length_replicate, Hs; lia).
Qed.

Lemma zero_trailing_step16 lo n s : lo + n ≤ N → good s →
  zero_trailing_lanes_16 (E:=E) lo n (emb s)
  = Ok (emb (λ j, if decide (lo ≤ j ∧ j < lo + n) then zeros else s j)).
Proof.
  intros Hn Hs. unfold zero_trailing_lanes_16.
  apply (fill_loop len N _ _ _ (λ _, zeros)); [|intros; apply length_replicate|done|lia].
  intros i s' _ Hi Hs'. unfold lanes_emb at 1. rewrite length_tabulate, (proj2 (Nat.ltb_lt _ _)) by lia.
  apply (zero_lane_step len); [lia|apply Hs'].
Qed.

Lemma ifft_encoder16_acts data b0 K limit :
  N = 2 ^ K → 0 < limit → limit ≤ 2 ^ K → group_ok16 data limit → (b0 + 1) * 2 ^ K ≤ 2 ^ 16 →
  acts (E:=E) emb good
    (ifft_dit_encoder16_with_plan TABLES16 data (ifft_plan slog16 b0 K limit) start stop)
    (λ s t, ∀ b, b < len → ∀ i, i < 2 ^ K →
       nval (F:=lch16) K (column (F:=lch16) b t) (pt16 (b0 * 2 ^ K + i))
       = column (F:=lch16) b (group_lane (F:=lch16) len (shard_part16 data) limit) i).
Proof.
  intros HNK Hpos Hlim Hok HK.
  apply (ifft_encode_acts (F:=lch16) 16 pt16 slog16 skew_value16 (dit2_16 TABLES16) (idit2_16 TABLES16) len N);
    [intros i Hi; apply length_tabulate|intros i s Hi Hil; by apply (load_lane16_step data limit)
    |apply zero_view16_step|apply zero_trailing_step16|apply quad_stage16_runs|apply ifft_pairs_run16|done..].
Qed.

Lemma fft_encoder16_acts K limit : K ≤ 16 → limit ≤ 2 ^ K → 2 ^ K ≤ N →
  acts (E:=E) emb good (fft_dit16_with_plan TABLES16 (fft_plan slog16 K limit)) (λ s t, ∀ b v,
    b < len → (∀ i, i < 2 ^ K → nval (F:=lch16) K (column (F:=lch16) b s) (pt16 i) = v i) →
    ∀ i, i < limit → column (F:=lch16) b t i = v i).
Proof.
  intros HK Hlim HN. apply (run_fft_acts (F:=lch16) 16 pt16 slog16 skew_value16 (dit2_16 TABLES16) (idit2_16 TABLES16) len len N);
    [apply quad_stage16_runs|apply fft_pairs_run16|done..].
Qed.

(** Lanes added to lanes. *)
Lemma xor_lanes16_ok t s : good t → good s →
  xor_lanes16 (E:=E) N (emb t) (emb s) = Ok (emb (λ j, slice_xor_u16 (s j) (t j))).
Proof.
  intros Ht Hs. unfold xor_lanes16.
  rewrite (map_loop len N 0 N _ (λ j x, if decide (j < N) then slice_xor_u16 x (t j) else x)).
  - f_equal. apply tabulate_ext. intros j Hj. by rewrite !decide_True by lia.
  - intros i s' _ Hi Hs'. unfold lanes_emb. rewrite !length_tabulate, (proj2 (Nat.ltb_lt i N)) by done.
    cbn [andb]. rewrite !index_tabulate by done. cbn [obind].
    rewrite update_tabulate by done. f_equal. apply tabulate_ext. intros j _.
    case_decide; [|done]. subst j. by rewrite decide_True by done.
  - intros i x Hx. case_decide; [|done]. destruct (xor_lane x (t i) 0) as [-> _]; [by rewrite Hx, Ht|done].
  - done.
  - lia.
Qed.
End group.
