(* ===== verification/LeoEncode16.v ===== *)
(** * Encoder of the Leopard GF(2^16) engine ([src/core/leopard_gf16/encode.rs], lines 1-251,
    and [work.rs])

    The encoder of [LeoEncode8] on lanes of [u16]: each chunk of the data is read from the
    layout of the user straight into the lanes, and the parity is written back in it. *)

From Stdlib Require Import NArith Lia List Bool.
From stdpp Require Import base numbers list.
From S2P Require Import Prelude Errors Bytes Fields Gf8 Options Leopard LinAlg Lch LeoStages.
From S2P Require Import LeoButterfly LeoPlan LeoDit LeoCache LeoCode LeoGroup LeoChunk.
From S2P Require Import LeoTables16 LeoLch16 LeoSkew16 LeoOps16 LeoGroup16.

(** ** Work space *)
Record FlatWork16 := mk_flat16 {
  work_lanes16 : nat;
  work_lane_len16 : nat;
  work_data16 : list (list u16);
}.

(** Zeroed lanes. *)
Definition flat16_new (lanes lane_len : nat) : FlatWork16 :=
  mk_flat16 lanes lane_len (replicate lanes (replicate lane_len u16_0)).

Definition flat16_bytes (work : FlatWork16) : N :=
  saturating_mul (N.of_nat (work_lanes16 work * work_lane_len16 work)) 2.

Definition EncodeCaches16 : Type := EncodeCaches u16 FlatWork16.

(** The capacities of the vectors in plans. *)
Class PlanSizes16 := plans_retained16 : EncodePlans u16 → N.

Section encoder.
Context {PS : PlanSizes16} (tables : LeopardGf16Tables).
Implicit Types (data parity : list (list byte)).

(** The chunk of elements from [offset] to [stop], in lanes of its size. *)
Definition encode_chunk16 (driver : LeopardGf16EncodeDriver) (plans : EncodePlans u16) data
    (offset stop : nat) (work : list (list u16)) : outcome Error (list (list u16)) :=
  encode_chunk (λ rest plan, ifft_dit_encoder16_with_plan tables rest plan offset stop)
    xor_lanes16 (fft_dit16_with_plan tables) (driver_m driver) plans data work.

(** [work_u16_to_user_bytes(&work_views[idx][..size], &mut out_bytes[offset * 2..end * 2])] *)
Definition write_parity16 (views : list (list u16)) (offset stop : nat) parity
  : outcome Error (list (list byte)) :=
  for_range 0 (length parity) (λ idx parity,
    let! out_bytes := index parity idx in
    let! lane := index views idx in
    let! src := slice lane 0 (stop - offset) in
    let! dst := slice out_bytes (offset * 2) (stop * 2) in
    let! dst := work_u16_to_user_bytes src dst in
    update parity idx (splice out_bytes (offset * 2) dst)) parity.

Definition encode_step16 (driver : LeopardGf16EncodeDriver) (plans : EncodePlans u16) data
    (offset stop : nat) (views : list (list u16)) parity
  : outcome Error (list (list u16) * list (list byte)) :=
  let! views := encode_chunk16 driver plans data offset stop views in
  let! parity := write_parity16 views offset stop parity in
  Ok (views, parity).

(** The run on given plans and lanes. *)
Definition encode_run16 (driver : LeopardGf16EncodeDriver) data (shard_u16_len chunk_cap : nat)
    (plans : EncodePlans u16) (flat_work : FlatWork16) parity
  : outcome Error (FlatWork16 * list (list byte)) :=
  let work_size := Nat.min (driver_m driver * 2) (work_lanes16 flat_work) in
  let! ' (lanes, parity) :=
    lane_chunks (encode_step16 driver plans data) (S shard_u16_len) shard_u16_len
      (driver_chunk_size driver) work_size chunk_cap 0 (work_data16 flat_work) parity in
  Ok (mk_flat16 (work_lanes16 flat_work) (work_lane_len16 flat_work) lanes, parity).

Definition encode_with_tables16 (caches : EncodeCaches16) (data_shards parity_shards : nat) data parity
  : outcome Error (EncodeCaches16 * LeopardGf16EncodeDriver * list (list byte)) :=
  if negb (length data =? data_shards) || negb (length parity =? parity_shards)
  then Err TooFewShards else
  let! first := ok_or (head data) TooFewShards in
  let shard_size := length first in
  let! driver := build_leopard_gf16_encode_driver data_shards parity_shards shard_size in
  let shard_u16_len := shard_size / 2 in
  let chunk_cap := Nat.min shard_u16_len (driver_chunk_size driver) in
  let needed_lanes := driver_work_slices driver in
  let cacheable := leopard_work_cache_fits
    (saturating_mul (saturating_mul (N.of_nat needed_lanes) (N.of_nat chunk_cap)) 2) 0 in
  let! ' (caches, parity) :=
    encode_cached cacheable (data_shards, parity_shards) (needed_lanes, chunk_cap)
      (encode_plans_new data_shards parity_shards driver (fft_skew16 tables))
      (flat16_new needed_lanes chunk_cap)
      (encode_run16 driver data shard_u16_len chunk_cap)
      (λ work, (work_lanes16 work, chunk_cap)) flat16_bytes plans_retained16 caches parity in
  Ok (caches, driver, parity).
End encoder.

(** ** One chunk *)

(** Shapes that the engine serves. *)
Abbreviation shape16 := (leopard_shape 16).
Abbreviation encode_plans16 := (encode_plans slog16).

Lemma fits_shape16 d p :
  leopard_shard_combo_fits (N.of_nat d) (N.of_nat p) LEOPARD_GF16_MAX_SHARDS = true →
  shape16 d p (order2 (Nat.max p 1)).
Proof. apply fits_shape. exact (N2Nat.inj_pow 2 16). Qed.

(** Element [e] of the shards. *)
Definition user_column (shards : list (list byte)) (e i : nat) : u16 :=
  user_elem (default [] (shards !! i)) e.

Section chunk.
Context (d p K : nat) (data : list (list byte)) (blocks ks : nat).
Context (Hsh : shape16 d p K).
Implicit Types (s t : nat → list u16).
#[local] Abbreviation len := (blocks * 32).
#[local] Abbreviation start := (ks * 32).

Definition data_ok16 : Prop := ∀ i, i < d → ∃ shard, data !! i = Some shard ∧ (start + len) * 2 ≤ length shard.
Context (Hok : data_ok16).
#[local] Abbreviation limit_of g := (Nat.min (d - g * 2 ^ K) (2 ^ K)).

Lemma group_data_ok16 g : group_ok16 blocks ks (drop (g * 2 ^ K) data) (limit_of g).
Proof.
  intros i Hi. destruct (Hok (g * 2 ^ K + i) ltac:(lia)) as (shard & Hs & Hl). exists shard.
  by rewrite lookup_drop.
Qed.

Lemma group_column16 b g r : b < len → r < 2 ^ K →
  column (F:=lch16) b (group_lane (F:=lch16) len (shard_part16 blocks ks (drop (g * 2 ^ K) data)) (limit_of g)) r
  = data_elem (F:=lch16) d (shard_part16 blocks ks data) b (g * 2 ^ K + r).
Proof.
  intros Hb Hr. unfold column, group_lane, data_elem, cell.
  destruct (decide (g * 2 ^ K + r < d)) as [Hi|Hi].
  - rewrite decide_True by lia. unfold shard_part16. by rewrite lookup_drop.
  - rewrite decide_False by lia. by rewrite lookup_replicate_2.
Qed.

#[local] Instance chunk_steps16 : ChunkSteps (F:=lch16) pt16 (E:=Error) slog16
  (λ rest plan, ifft_dit_encoder16_with_plan TABLES16 rest plan start (start + len))
  xor_lanes16 (fft_dit16_with_plan TABLES16) d p K len data (shard_part16 blocks ks data).
Proof.
  pose proof (pow2_pos K) as HP. destruct (leopard_shape_order 16 d p K Hsh) as (HK & _).
  pose proof Hsh as (Hd & Hp & HpK & Hfit). split.
  - intros g t Hg Ht. pose proof (nblocks_lt d (2 ^ K) g HP Hg).
    assert ((g + 1 + 1) * 2 ^ K ≤ 2 ^ 16) as Hin.
    { etrans; [|exact Hfit]. apply Nat.mul_le_mono_r. lia. }
    destruct (ifft_encoder16_acts (E:=Error) blocks ks (2 ^ K) (drop (g * 2 ^ K) data)
      (g + 1) K (limit_of g) eq_refl ltac:(lia) ltac:(lia) (group_data_ok16 g) Hin t Ht)
      as (u & Hu & Hgood & HR).
    exists u. split_and!; [done|done|]. intros b r Hb Hr. etrans; [exact (HR b Hb r Hr)|].
    by apply group_column16.
  - intros t s Ht Hs. exists (λ j, slice_xor_u16 (s j) (t j)).
    assert (∀ j b, length (slice_xor_u16 (s j) (t j)) = len ∧
      (b < len → tbl16 (slice_xor_u16 (s j) (t j)) b = u16_xor (tbl16 (s j) b) (tbl16 (t j) b))) as H.
    { intros j b. rewrite <- (Hs j). apply xor_lane. by rewrite Hs, Ht. }
    split_and!; [by apply (xor_lanes16_ok blocks)|intros j; apply (H j 0)|].
    intros b j Hb Hj. by apply H.
  - intros s Hs. destruct (fft_encoder16_acts (E:=Error) blocks (2 ^ K) K p ltac:(lia) HpK ltac:(lia) s Hs)
      as (u & Hu & Hgood & HR).
    exists u. split_and!; [done|done|]. intros b i Hb Hi.
    exact (HR b (λ i, nval (F:=lch16) K (column (F:=lch16) b s) (pt16 i)) Hb ltac:(done) i Hi).
Qed.
End chunk.

(** ** Whole shards *)

(** The driver of a shape. *)
Definition encode_driver16 (d p n : nat) : LeopardGf16EncodeDriver :=
  let m := 2 ^ order2 (Nat.max p 1) in
  mk_encode_driver n m (Nat.min d m) (d mod m) WORK_SIZE16 (m * 2) (m - 1).

Lemma build_encode_driver16_ok d p n : n ≠ 0 → n mod 64 = 0 → order2 (Nat.max p 1) < 16 →
  build_leopard_gf16_encode_driver d p n = Ok (encode_driver16 d p n).
Proof.
  intros Hn H64 Hm. unfold build_leopard_gf16_encode_driver.
  rewrite (proj2 (validate_leopard_shard_len_ok (N.of_nat n))).
  - cbn [obind]. rewrite ceil_pow2_order. pose proof (pow2_order _ Hm). pose proof order_succ.
    pose proof (pow2_pos (order2 (Nat.max p 1))).
    rewrite (proj2 (Nat.ltb_ge _ _)) by lia. reflexivity.
  - split; [lia|]. apply N2Nat.inj. by rewrite N2Nat.inj_mod, Nat2N.id.
Qed.

Lemma work_size16_blocks : WORK_SIZE16 = 2 ^ 10 * 32.
Proof. apply Nat.mul_comm. Qed.
#[local] Opaque WORK_SIZE16.

Section whole.
Context (d p blocks : nat) (data : list (list byte)).
(** Shards of [blocks] times 64 bytes. *)
#[local] Abbreviation n := (blocks * 64).
#[local] Abbreviation K := (order2 (Nat.max p 1)).
#[local] Abbreviation driver := (encode_driver16 d p n).
Context (Hsh : shape16 d p K).
Context (Hdata : length data = d) (Hlen : Forall (λ shard, length shard = n) data).

(** The parity elements below [offset] are right. *)
Definition parity_upto16 (offset : nat) (parity : list (list byte)) : Prop :=
  ∃ P, parity = lanes_emb p P ∧ lanes_good n P ∧
  ∀ e, e < offset → leopard_word (F:=lch16) pt16 (order2 (2 ^ K + d)) K d p
    (user_column data e) (λ i, user_elem (P i) e).

Lemma write_parity16_ok s t P ks nb : p ≤ 2 ^ K → ks + nb ≤ blocks →
  lanes_good (nb * 32) s → lanes_good n P →
  ∃ P', write_parity16 (work_of K s t) (ks * 32) (ks * 32 + nb * 32) (lanes_emb p P) = Ok (lanes_emb p P') ∧
    lanes_good n P' ∧ ∀ i e, i < p → user_elem (P' i) e
      = if decide (ks * 32 ≤ e < ks * 32 + nb * 32) then tbl16 (s i) (e - ks * 32) else user_elem (P i) e.
Proof.
  intros Hp Hn Hs HP. unfold write_parity16. unfold lanes_emb at 1. rewrite length_tabulate.
  set (wr (x : list byte) (l : list u16) := match work_u16_to_user_bytes (E:=Error) l
    (take (nb * 64) (drop (ks * 64) x)) with Ok out => out | _ => [] end).
  assert (∀ x l, length x = n → length l = nb * 32 →
    work_u16_to_user_bytes (E:=Error) l (take (nb * 64) (drop (ks * 64) x)) = Ok (wr x l) ∧
    length (wr x l) = nb * 64 ∧ ∀ e, e < nb * 32 → user_elem (wr x l) e = tbl16 l e) as Hwr.
  { intros x l Hx Hl. unfold wr. destruct (work_u16_to_user_bytes_ok (E:=Error) nb l
      (take (nb * 64) (drop (ks * 64) x)) Hl) as (out & -> & Ho & He); [len|done]. }
  set (f i x := if decide (i < p) then splice x (ks * 64) (wr x (s i)) else x).
  exists (λ i, f i (P i)). split_and!.
  - rewrite (map_loop n p 0 p _ f).
    + f_equal. apply tabulate_ext. intros i Hi. by rewrite decide_True by lia.
    + intros i P' _ Hi HP'. unfold lanes_emb. rewrite index_tabulate by done. cbn [obind].
      rewrite (index_ok _ _ (s i)) by (unfold work_of, lanes_emb; rewrite lookup_app_l, lookup_tabulate
        by (rewrite ?length_tabulate; lia); done). cbn [obind].
      rewrite slice_ok by (rewrite ?Hs; lia). cbn [obind]. rewrite drop_0, (take_ge (s i)) by (rewrite Hs; lia).
      rewrite slice_ok by (rewrite ?HP'; lia). cbn [obind].
      replace ((ks * 32 + nb * 32) * 2 - ks * 32 * 2) with (nb * 64) by lia.
      replace (ks * 32 * 2) with (ks * 64) by lia.
      destruct (Hwr (P' i) (s i) (HP' i) (Hs i)) as (-> & _ & _). cbn [obind].
      rewrite update_tabulate by done. f_equal. apply tabulate_ext. intros j _.
      case_decide; [|done]. subst j. unfold f. by rewrite decide_True by done.
    + intros i x Hx. unfold f. case_decide; [|done].
      destruct (Hwr x (s i) Hx (Hs i)) as (_ & Hl & _). rewrite length_splice; [done|lia].
    + done.
    + lia.
  - intros i. unfold f. case_decide; [|apply HP].
    destruct (Hwr (P i) (s i) (HP i) (Hs i)) as (_ & Hl & _). rewrite length_splice; [apply HP|rewrite HP; lia].
  - intros i e Hi. unfold f. rewrite decide_True by done.
    destruct (Hwr (P i) (s i) (HP i) (Hs i)) as (_ & Hl & He).
    rewrite (user_elem_splice ks nb) by (rewrite ?HP; lia). case_decide; [|done]. apply He. lia.
Qed.

Lemma encode_step16_ok ks nb s t parity : ks + nb ≤ blocks →
  lanes_good (nb * 32) s → lanes_good (nb * 32) t → parity_upto16 (ks * 32) parity →
  ∃ s' t' parity', encode_step16 TABLES16 driver (encode_plans16 d p K) data (ks * 32) (ks * 32 + nb * 32)
      (work_of K s t) parity = Ok (work_of K s' t', parity') ∧
    lanes_good (nb * 32) s' ∧ lanes_good (nb * 32) t' ∧ parity_upto16 (ks * 32 + nb * 32) parity'.
Proof.
  intros Hn Hs Ht (P & -> & HP & Hup). pose proof Hsh as (_ & Hp & HpK & _). unfold encode_step16.
  assert (data_ok16 d data nb ks) as Hok.
  { intros i Hi. destruct (lookup_lt_is_Some_2 data i ltac:(lia)) as [x Hx]. exists x. split; [done|].
    rewrite (Forall_lookup_1 _ _ _ _ Hlen Hx). lia. }
  destruct (encode_chunk_ok (F:=lch16) 16 pt16 slog16 _ _ _ d p K (nb * 32) data (shard_part16 nb ks data)
    (CS:=chunk_steps16 d p K data nb ks Hsh Hok) Hsh Hdata s t Hs Ht) as (s' & t' & Hrun & Hs' & Ht' & Hcol).
  assert (encode_chunk16 TABLES16 driver (encode_plans16 d p K) data (ks * 32) (ks * 32 + nb * 32) (work_of K s t)
    = Ok (work_of K s' t')) as -> by exact Hrun. cbn [obind]. clear Hrun. change (@Elem lch16) with u16 in *.
  destruct (write_parity16_ok s' t' P ks nb HpK Hn Hs' HP) as (P' & -> & HP' & HPe). cbn [obind].
  exists s', t', (lanes_emb p P'). split_and!; [done..|]. exists P'. split_and!; [done..|]. intros e He.
  destruct (decide (ks * 32 ≤ e)) as [Hle|Hlt].
  - eapply (leopard_word_ext (F:=lch16)); [| |apply (Hcol (e - ks * 32)); lia].
    + intros i Hi. unfold shard_part16, cell. rewrite lookup_tabulate by lia. unfold user_column.
      cbn [default from_option id]. f_equal. lia.
    + intros i Hi. rewrite HPe by done. by rewrite decide_True by lia.
  - eapply (leopard_word_ext (F:=lch16)); [done| |apply Hup; lia]. intros i Hi. rewrite HPe by done.
    by rewrite decide_False by lia.
Qed.
End whole.

(** What the caches hold: plans of their key, lanes of their size. *)
Definition lanes_fit16 (key : nat * nat) (work : FlatWork16) : Prop :=
  work_lanes16 work = key.1 ∧ work_lane_len16 work = key.2 ∧
  length (work_data16 work) = key.1 ∧ Forall (λ lane, length lane = key.2) (work_data16 work).

Abbreviation caches_ok16 := (encode_caches_ok slog16 lanes_fit16).

Definition empty_caches16 : EncodeCaches16 :=
  mk_encode_caches (two_new (1024 * 1024)) (two_new LEOPARD_MAX_CACHED_WORK_BYTES).

Lemma empty_caches16_ok : caches_ok16 empty_caches16.
Proof. apply new_caches_ok. Qed.

Lemma flat16_new_fit lanes lane_len : lanes_fit16 (lanes, lane_len) (flat16_new lanes lane_len).
Proof.
  unfold lanes_fit16. cbn. split_and!; [done|done|apply length_replicate|].
  apply Forall_replicate, length_replicate.
Qed.

Section engine.
Context {PS : PlanSizes16}.

Lemma encode_run16_ok d p blocks data parity chunk_cap work :
  shape16 d p (order2 (Nat.max p 1)) → length data = d → Forall (λ shard, length shard = blocks * 64) data →
  chunk_cap = Nat.min (blocks * 32) WORK_SIZE16 → parity_upto16 d p blocks data 0 parity →
  lanes_fit16 (2 ^ order2 (Nat.max p 1) * 2, chunk_cap) work →
  ∃ work' parity', encode_run16 TABLES16 (encode_driver16 d p (blocks * 64)) data (blocks * 32) chunk_cap
      (encode_plans16 d p (order2 (Nat.max p 1))) work parity = Ok (work', parity') ∧
    lanes_fit16 (work_lanes16 work', chunk_cap) work' ∧ parity_upto16 d p blocks data (blocks * 32) parity'.
Proof.
  set (K := order2 (Nat.max p 1)). intros Hsh Hdl Hd Hcap Hup (Hl1 & Hl2 & Hl3 & Hl4).
  destruct work as [lanes lane_len work]. cbn [fst snd work_lanes16 work_lane_len16 work_data16] in *.
  subst lanes lane_len. destruct (lanes_of u16_0 _ _ work Hl3 Hl4) as (L & -> & HL).
  unfold encode_run16. cbn [work_lanes16 work_lane_len16 work_data16].
  change (driver_m (encode_driver16 d p (blocks * 64))) with (2 ^ K). rewrite Nat.min_id.
  change (driver_chunk_size (encode_driver16 d p (blocks * 64))) with WORK_SIZE16.
  assert (0 < WORK_SIZE16) as Hpos by (rewrite work_size16_blocks; pose proof (pow2_pos 10); lia).
  destruct (lane_chunks_ok (E:=Error) K chunk_cap
    (encode_step16 TABLES16 (encode_driver16 d p (blocks * 64)) (encode_plans16 d p K) data)
    32 (blocks * 32) WORK_SIZE16 (parity_upto16 d p blocks data)
    ltac:(by exists blocks) ltac:(exists (2 ^ 10); exact work_size16_blocks) Hpos Hcap)
    with (fuel := S (blocks * 32)) (offset := 0) (L := L) (st := parity)
    as (L' & parity' & Hrun & HL' & Hup'); [|lia|lia|apply Nat.divide_0_r|done|done|].
  { intros offset size s t st H1 _ _ [ks ->] [nb ->] H4 H5 H6.
    by apply (encode_step16_ok d p blocks data Hsh Hdl Hd ks nb); [lia|..]. }
  rewrite Hrun. cbn [obind]. eexists _, _. split_and!; [reflexivity| |done].
  unfold lanes_fit16. cbn. split_and!; [done|done|apply length_tabulate|by apply lanes_forall].
Qed.

Lemma encode_with_tables16_ok caches d p n data parity :
  caches_ok16 caches → shape16 d p (order2 (Nat.max p 1)) → n ≠ 0 → n mod 64 = 0 →
  length data = d → Forall (λ shard, length shard = n) data →
  length parity = p → Forall (λ shard, length shard = n) parity →
  ∃ caches' parity', encode_with_tables16 TABLES16 caches d p data parity
      = Ok (caches', encode_driver16 d p n, parity') ∧
    caches_ok16 caches' ∧ length parity' = p ∧ Forall (λ shard, length shard = n) parity' ∧
    ∀ e, e < n / 2 → leopard_word (F:=lch16) pt16 (order2 (2 ^ order2 (Nat.max p 1) + d))
      (order2 (Nat.max p 1)) d p (user_column data e) (user_column parity' e).
Proof.
  set (K := order2 (Nat.max p 1)). intros Hc Hsh Hn H64 Hdl Hd Hpl Hp.
  destruct (leopard_shape_order 16 d p K Hsh) as (HK & Hfit & Hg). pose proof Hsh as (Hd0 & Hp0 & HpK & Hpad).
  unfold encode_with_tables16. rewrite Hpl, Hdl, !Nat.eqb_refl. cbn [negb orb].
  assert (∃ first, head data = Some first ∧ length first = n) as (first & -> & Hfirst).
  { destruct data as [|x ?]; [simpl in Hdl; lia|]. exists x. split; [done|]. by inversion Hd. }
  cbn [ok_or obind]. rewrite Hfirst. cbv zeta. rewrite build_encode_driver16_ok by done. cbn [obind].
  assert (∃ blocks, n = blocks * 64) as [blocks ->].
  { exists (n / 64). pose proof (Nat.div_mod_eq n 64). lia. }
  assert (blocks * 64 / 2 = blocks * 32) as -> by (symmetry; apply Nat.div_unique_exact; lia).
  change (driver_chunk_size (encode_driver16 d p (blocks * 64))) with WORK_SIZE16.
  change (driver_work_slices (encode_driver16 d p (blocks * 64))) with (2 ^ K * 2).
  set (cap := Nat.min (blocks * 32) WORK_SIZE16).
  edestruct (encode_cached_ok slog16 lanes_fit16 d p
    (encode_plans_new (E:=Error) d p (encode_driver16 d p (blocks * 64)) (fft_skew16 TABLES16))
    (flat16_new (2 ^ K * 2) cap) (2 ^ K * 2, cap)
    (encode_run16 TABLES16 (encode_driver16 d p (blocks * 64)) data (blocks * 32) cap)
    (parity_upto16 d p blocks data (blocks * 32)))
    with (st := parity) (caches := caches) as (caches' & parity' & Hrun & Hc' & (P & HPe & HP & Hup)).
  { apply (encode_plans_new_ok slog16 16 (fft_skew16 TABLES16)); done. }
  { apply flat16_new_fit. }
  { exact Hc. }
  { intros work Hw. apply encode_run16_ok; try done.
    destruct (lanes_of x00 p (blocks * 64) parity Hpl Hp) as (P & -> & HP). exists P. split_and!; [done|done|lia]. }
  rewrite Hrun. cbn [obind]. exists caches', parity'. subst parity'. split_and!; [done|done| | |].
  - apply length_tabulate.
  - by apply lanes_forall.
  - intros e He. eapply (leopard_word_ext (F:=lch16)); [done| |by apply Hup]. intros i Hi.
    unfold user_column, lanes_emb. by rewrite lookup_tabulate by done.
Qed.
End engine.

(** for every supported shape, shard length in units of 64
    bytes and contents of the caches, the GF(2^16) encoder returns without error and leaves in
    each element column of the parity the values, on the first points, of the polynomial of low
    degree whose values on the points behind them are the data; the caches stay sound. *)
Theorem leopard16_encoder_correct {PS : PlanSizes16} caches d p n data parity
    (Hc : caches_ok16 caches) (Hsh : shape16 d p (order2 (Nat.max p 1)))
    (Hn : n ≠ 0) (H64 : n mod 64 = 0) (Hd : length data = d) (Hdl : Forall (λ shard, length shard = n) data)
    (Hp : length parity = p) (Hpl : Forall (λ shard, length shard = n) parity) :
  ∃ caches' parity', encode_with_tables16 TABLES16 caches d p data parity
      = Ok (caches', encode_driver16 d p n, parity') ∧
    caches_ok16 caches' ∧ length parity' = p ∧ Forall (λ shard, length shard = n) parity' ∧
    ∀ e, e < n / 2 → leopard_word (F:=lch16) pt16 (order2 (2 ^ order2 (Nat.max p 1) + d))
      (order2 (Nat.max p 1)) d p (user_column data e) (user_column parity' e).
Proof. by apply encode_with_tables16_ok. Qed.
