(* ===== verification/LeoFused16.v ===== *)
(** * Conversion and multiplication in one ([src/core/leopard_gf16/fused.rs])

    What the decoder does when it reads a part of a shard into a lane and when it
    writes a lane back: the change of the layout and the product with a logarithm.  The portable
    form of the standard build goes through a scratch lane; the form of the build without
    the standard library does both element by element.  They agree
    ([fused_forms_agree]). *)

From Stdlib Require Import NArith Lia List Bool.
From stdpp Require Import base numbers list.
From S2P Require Import Prelude Errors Bytes Fields Gf8 Encode LeoSlices Lch LeoStages LeoTables16 LeoLch16 LeoSkew16 LeoOps16.

Section fused.
Context {E : Type} (tables : LeopardGf16Tables).
Implicit Types (user : list byte) (work out scratch : list u16) (log_m : u16).

(** The three [assert!]s. *)
Definition fused_lengths user out scratch : bool :=
  (length user =? length out * 2) && (length user mod 64 =? 0) && (length scratch =? length out).

Definition user_to_work_mul user out scratch log_m : outcome E (list u16) :=
  if negb (fused_lengths user out scratch) then Panic else
  if is_modulus16 log_m then user_bytes_to_work_u16_into user out else
  let! scratch := user_bytes_to_work_u16_into user scratch in
  Ok (mulgf16 tables log_m out scratch).

Definition work_mul_to_user work user scratch log_m : outcome E (list byte) :=
  if negb (fused_lengths user work scratch) then Panic else
  if is_modulus16 log_m then work_u16_to_user_bytes work user else
  work_u16_to_user_bytes (mulgf16 tables log_m scratch work) user.

(** *** Without the standard library *)
Definition scalar_user_to_work_mul user out log_m : list u16 :=
  let '(blocks, _) := as_chunks 64 user in
  let '(lanes, tail) := as_chunks 32 out in
  List.concat (zip_assign (λ dst src, tabulate (length dst) (λ i,
    mul_elem tables log_m (mk_u16 (tbl src i) (tbl src (i + 32))))) lanes blocks) ++ tail.

Definition scalar_work_mul_to_user work user log_m : list byte :=
  let '(lanes, _) := as_chunks 32 work in
  let '(blocks, tail) := as_chunks 64 user in
  List.concat (zip_assign (λ dst src, foldl (λ dst '(i, value),
    let product := mul_elem tables log_m value in
    <[i + 32 := u16_hi product]> (<[i := u16_lo product]> dst)) dst (imap pair src)) blocks lanes) ++ tail.
End fused.

(** ** The products *)
Definition factor16 (log : u16) : u16 := lexp16 (u16_to_N log).

Lemma factor16_modulus log : is_modulus16 log = true → factor16 log = as_u16 1.
Proof.
  unfold is_modulus16. intros ->%bool_decide_eq_true. unfold factor16.
  pose proof MODULUS16_N as HM. rewrite HM, u16_to_N_small by done.
  rewrite (lexp16_eq 65535 0) by done. apply phi16_inj. by rewrite phi16_lexp, phi16_1.
Qed.

Lemma mul_factor_1 log (a : u16) : is_modulus16 log = true → lch_mul16 a (factor16 log) = a.
Proof. intros H. rewrite factor16_modulus by done. apply (Fields.mul_1_r (F:=lch16)). Qed.

Section forms.
Context {E : Type} (n : nat).
Implicit Types (user : list byte) (work out scratch : list u16) (log : u16).

Lemma fused_lengths_ok user out scratch : length user = n * 64 → length out = n * 32 → length scratch = n * 32 →
  fused_lengths user out scratch = true.
Proof.
  intros Hu Ho Hs. unfold fused_lengths. rewrite Hu, Ho, Hs, Nat.Div0.mod_mul, !Nat.eqb_refl, andb_true_r.
  cbn [Nat.eqb]. rewrite andb_true_r. apply Nat.eqb_eq. lia.
Qed.

Lemma user_to_work_mul_ok user out scratch log : length user = n * 64 → length out = n * 32 → length scratch = n * 32 →
  user_to_work_mul (E:=E) TABLES16 user out scratch log
  = Ok (tabulate (n * 32) (λ e, lch_mul16 (user_elem user e) (factor16 log))).
Proof.
  intros Hu Ho Hs. unfold user_to_work_mul. rewrite fused_lengths_ok by done. cbn [negb].
  destruct (is_modulus16 log) eqn:Hm.
  - rewrite (user_bytes_to_work_u16_into_ok n) by done. f_equal. apply tabulate_ext. intros e _.
    by rewrite mul_factor_1.
  - rewrite (user_bytes_to_work_u16_into_ok n) by done. cbn [obind]. f_equal.
    rewrite mulgf16_words; [|rewrite length_tabulate; lia|done]. by rewrite map_tabulate.
Qed.

Lemma work_mul_to_user_ok work user scratch log : length user = n * 64 → length work = n * 32 → length scratch = n * 32 →
  ∃ bytes, work_mul_to_user (E:=E) TABLES16 work user scratch log = Ok bytes ∧ length bytes = n * 64 ∧
    ∀ e, e < n * 32 → user_elem bytes e = lch_mul16 (tbl16 work e) (factor16 log).
Proof.
  intros Hu Hw Hs. unfold work_mul_to_user. rewrite fused_lengths_ok by done. cbn [negb].
  destruct (is_modulus16 log) eqn:Hm.
  - destruct (work_u16_to_user_bytes_ok (E:=E) n work user Hw Hu) as (bytes & -> & Hl & He).
    exists bytes. split_and!; [done|done|]. intros e Hlt. by rewrite He, mul_factor_1.
  - rewrite mulgf16_words by (lia || done).
    destruct (work_u16_to_user_bytes_ok (E:=E) n (map (λ s, lch_mul16 s (lexp16 (u16_to_N log))) work) user)
      as (bytes & -> & Hl & He); [by rewrite length_map|done|].
    exists bytes. split_and!; [done|done|]. intros e Hlt. rewrite He by done. by rewrite tbl16_map by lia.
Qed.
End forms.

(** ** Both forms *)
Lemma as_chunks_blocks {A} s n (l : list A) : 0 < s → length l = n * s →
  as_chunks s l = (tabulate n (λ k, take s (drop (k * s) l)), []).
Proof.
  intros Hs Hl. unfold as_chunks. assert (n ≤ length l) as Hfuel by nia. revert Hfuel.
  generalize (length l) as fuel. intros fuel. revert n l Hl.
  induction fuel as [|fuel IH]; intros [|n] l Hl Hf; cbn [split_chunks]; try lia.
  - by destruct l.
  - destruct l; [|simpl in Hl; lia]. by rewrite (proj2 (Nat.leb_gt s (length []))) by (simpl; lia).
  - rewrite (proj2 (Nat.leb_le s (length l))) by lia. rewrite (IH n) by len.
    rewrite tabulate_S, Nat.mul_0_l, drop_0. do 2 f_equal. apply tabulate_ext. intros k _.
    rewrite drop_drop. by rewrite Nat.mul_succ_l, Nat.add_comm.
Qed.

Lemma concat_blocks {A} m n (B : nat → list A) : (∀ k, k < n → length (B k) = m) →
  length (List.concat (tabulate n B)) = n * m ∧
  ∀ k r, k < n → r < m → List.concat (tabulate n B) !! (k * m + r) = B k !! r.
Proof.
  revert B. induction n as [|n IH]; intros B HB; [by split; [|lia]|].
  rewrite tabulate_S. cbn [List.concat]. destruct (IH (λ k, B (S k)) ltac:(intros; apply HB; lia)) as [Hl Hk].
  pose proof (HB 0 ltac:(lia)) as H0. split; [rewrite length_app, Hl, H0; lia|].
  intros [|k] r Hkn Hr; [by rewrite lookup_app_l by lia|].
  rewrite lookup_app_r by lia. rewrite H0. replace (S k * m + r - m) with (k * m + r) by lia. apply Hk; lia.
Qed.

(** One block of the scalar writer. *)
Lemma write_block (f : u16 → u16) src : ∀ j dst, j + length src ≤ 32 → length dst = 64 →
  let dst' := foldl (λ dst '(i, value), let product := f value in
    <[i + 32 := u16_hi product]> (<[i := u16_lo product]> dst)) dst (imap (λ i v, (j + i, v)) src) in
  length dst' = 64 ∧ ∀ i, i < 32 →
    mk_u16 (tbl dst' i) (tbl dst' (i + 32)) = if decide (j ≤ i < j + length src)
      then f (tbl16 src (i - j)) else mk_u16 (tbl dst i) (tbl dst (i + 32)).
Proof.
  induction src as [|v src IH]; intros j dst Hj Hd; cbn [imap foldl].
  - split; [done|]. intros i _. by rewrite decide_False by (simpl; lia).
  - cbn [length] in Hj. rewrite Nat.add_0_r. set (dst1 := <[j + 32 := _]> (<[j := _]> dst)).
    specialize (IH (S j) dst1 ltac:(lia) ltac:(unfold dst1; len)).
    erewrite (imap_ext _ (λ i v, (S j + i, v))) by (intros; cbn; f_equal; lia).
    destruct IH as [Hl Hi]. split; [exact Hl|]. intros i Hi32. etrans; [exact (Hi i Hi32)|]. cbn [length].
    assert (∀ i b, i < 64 → tbl (<[i := b]> dst) i = b) as Hsame.
    { intros i' b Hi'. unfold tbl. by rewrite list_lookup_insert_eq by lia. }
    destruct (decide (i = j)) as [->|Hne].
    + rewrite decide_False, decide_True by lia. rewrite Nat.sub_diag. unfold dst1, tbl.
      rewrite (list_lookup_insert_ne _ (j + 32) j), !list_lookup_insert_eq by len.
      change (tbl16 (v :: src) 0) with v. cbn [default from_option id]. by destruct (f v).
    + destruct (decide (S j ≤ i < S j + length src)).
      * rewrite decide_True by lia. f_equal. unfold tbl16. by replace (i - j) with (S (i - S j)) by lia.
      * rewrite decide_False by lia. unfold dst1, tbl. by rewrite !list_lookup_insert_ne by lia.
Qed.

Section scalar.
Context {E : Type} (n : nat).
Implicit Types (user : list byte) (work out scratch : list u16) (log : u16).

Lemma scalar_user_to_work_ok user out log : length user = n * 64 → length out = n * 32 →
  scalar_user_to_work_mul TABLES16 user out log
  = tabulate (n * 32) (λ e, lch_mul16 (user_elem user e) (factor16 log)).
Proof.
  intros Hu Ho. unfold scalar_user_to_work_mul. rewrite (as_chunks_blocks 64 n user), (as_chunks_blocks 32 n out) by lia.
  rewrite app_nil_r, zip_assign_tabulate.
  destruct (concat_blocks 32 n (λ k, tabulate (length (take 32 (drop (k * 32) out))) (λ i, mul_elem TABLES16 log
    (mk_u16 (tbl (take 64 (drop (k * 64) user)) i) (tbl (take 64 (drop (k * 64) user)) (i + 32)))))) as [Hl Hk].
  { intros k Hk. rewrite length_tabulate. len. }
  apply list_ext_lt; [by rewrite Hl, length_tabulate|]. rewrite Hl. intros e He.
  rewrite lookup_tabulate by done. destruct (split_32 e) as (k & r & -> & Hr).
  rewrite Hk by lia. rewrite lookup_tabulate by len. rewrite mul_elem_spec. unfold factor16, user_elem.
  rewrite user_pos_block by done. fold (block k user). rewrite !tbl_block by lia. by rewrite Nat.add_assoc.
Qed.

Lemma scalar_work_mul_ok work user log : length user = n * 64 → length work = n * 32 →
  length (scalar_work_mul_to_user TABLES16 work user log) = n * 64 ∧ ∀ e, e < n * 32 →
    user_elem (scalar_work_mul_to_user TABLES16 work user log) e = lch_mul16 (tbl16 work e) (factor16 log).
Proof.
  intros Hu Hw. unfold scalar_work_mul_to_user. rewrite (as_chunks_blocks 64 n user), (as_chunks_blocks 32 n work) by lia.
  rewrite app_nil_r, zip_assign_tabulate.
  set (B := λ k, foldl _ (take 64 (drop (k * 64) user)) (imap pair (take 32 (drop (k * 32) work)))).
  assert (∀ k, k < n → length (B k) = 64 ∧ ∀ i, i < 32 → mk_u16 (tbl (B k) i) (tbl (B k) (i + 32))
    = mul_elem TABLES16 log (tbl16 work (k * 32 + i))) as HB.
  { intros k Hk. assert (length (take 32 (drop (k * 32) work)) = 32) as Hl32 by len.
    destruct (write_block (mul_elem TABLES16 log) (take 32 (drop (k * 32) work)) 0 (take 64 (drop (k * 64) user)))
      as [Hl Hi]; [lia|len|]. split; [exact Hl|]. intros i Hi32. specialize (Hi i Hi32).
    etrans; [exact Hi|]. rewrite decide_True by lia. f_equal. unfold tbl16.
    by rewrite Nat.sub_0_r, lookup_take_lt, lookup_drop by lia. }
  destruct (concat_blocks 64 n B) as [Hl Hk]; [intros; by apply HB|]. split; [done|]. intros e He.
  destruct (split_32 e) as (k & r & -> & Hr). destruct (HB k ltac:(lia)) as [_ Hi].
  unfold user_elem. rewrite user_pos_block by done. unfold tbl. rewrite <- Nat.add_assoc, !Hk by lia.
  etrans; [apply Hi; lia|]. apply mul_elem_spec.
Qed.

(** Both builds compute the same. *)
Lemma fused_forms_ok user work scratch log : length user = n * 64 → length work = n * 32 → length scratch = n * 32 →
  user_to_work_mul (E:=E) TABLES16 user work scratch log = Ok (scalar_user_to_work_mul TABLES16 user work log) ∧
  work_mul_to_user (E:=E) TABLES16 work user scratch log = Ok (scalar_work_mul_to_user TABLES16 work user log).
Proof.
  intros Hu Hw Hs. split.
  - rewrite (user_to_work_mul_ok n) by done. by rewrite scalar_user_to_work_ok.
  - destruct (work_mul_to_user_ok (E:=E) n work user scratch log) as (b & -> & Hl & He); [done..|].
    destruct (scalar_work_mul_ok work user log) as [Hl' He']; [done..|].
    f_equal. apply (user_elem_ext n); [done..|]. intros e Hlt. by rewrite He, He'.
Qed.
End scalar.

(** on blocks of 64 bytes with lanes and scratch of matching length, the
    conversions of the standard build, through a scratch lane, return without panic what the
    loops of the build without the standard library leave, whatever the old contents are:
    the elements of the shard times the exponential of the logarithm. *)
Theorem fused_forms_agree {E} n (user : list byte) (work scratch : list u16) (log : u16)
    (Hu : length user = n * 64) (Hw : length work = n * 32) (Hs : length scratch = n * 32) :
  user_to_work_mul (E:=E) TABLES16 user work scratch log = Ok (scalar_user_to_work_mul TABLES16 user work log) ∧
  work_mul_to_user (E:=E) TABLES16 work user scratch log = Ok (scalar_work_mul_to_user TABLES16 work user log) ∧
  ∀ e, e < n * 32 →
    scalar_user_to_work_mul TABLES16 user work log !! e = Some (lch_mul16 (user_elem user e) (factor16 log)) ∧
    user_elem (scalar_work_mul_to_user TABLES16 work user log) e = lch_mul16 (tbl16 work e) (factor16 log).
Proof.
  destruct (fused_forms_ok (E:=E) n user work scratch log Hu Hw Hs) as [H1 H2].
  split_and!; [done|done|]. intros e He. split; [|by apply (scalar_work_mul_ok n)].
  rewrite (scalar_user_to_work_ok n) by done. by rewrite lookup_tabulate.
Qed.
