(* ===== verification/LeoDecode16.v ===== *)
(** * Decoder of the Leopard GF(2^16) engine ([src/core/leopard_gf16/decode.rs])

    As [LeoDecode8], with words for bytes, and more: for few erasures the locator is a
    direct sum of logarithms; plans are kept in a process-wide cache ([LeoPlanCache]) and work
    space in a cache of the thread; shards of several chunks may be decoded by groups of chunks
    on several threads.  The definitions follow the standard build. *)

From Stdlib Require Import NArith Lia List Bool.
From stdpp Require Import base numbers list.
From S2P Require Import Prelude Errors Bytes Fields Options Leopard Parallel InversionCache LeoSlices Lch LeoStages.
From S2P Require Import LeoButterfly LeoPlan LeoDit LeoFlat LeoLocator LeoDecode LeoPlanCache.
From S2P Require Import LeoTables16 LeoOps16 LeoGroup16 LeoEncode16 LeoFused16.

Definition LeopardGf16DecodeDriver : Type := LeopardDecodeDriver.

Definition build_leopard_gf16_decode_driver (data_shards parity_shards shard_size : nat)
  : outcome Error LeopardGf16DecodeDriver :=
  build_decode_driver MODULUS16 ORDER16 WORK_SIZE16 data_shards parity_shards shard_size.

(** [MODULUS16 as u16] *)
Definition modulus16 : u16 := as_u16 (N.of_nat MODULUS16).

(** ** Error locators *)

(** The product of two logarithms modulo 65535. *)
Definition mul_mod16 (e w : u16) : u16 := as_u16 ((u16_to_N e * u16_to_N w) mod N.of_nat MODULUS16).

Definition SPARSE_LOCATOR_MAX_WORK_SIZE : nat := 256.
Definition SPARSE_LOCATOR_MAX_TERMS : nat := 16.

Section error_locations.
Context (missing_parity missing_data : list nat) (driver : LeopardGf16DecodeDriver) (tables : LeopardGf16Tables).

(** [shard_idx - driver.data_shards]; an index that wraps around is out of bounds. *)
Definition parity_position (shard_idx : nat) : outcome Error nat :=
  if shard_idx <? dec_data_shards driver then Panic else Ok (shard_idx - dec_data_shards driver).

Definition compute_error_locs16 : outcome Error (list u16) :=
  let err_locs := replicate ORDER16 u16_0 in
  let! err_locs := for_each missing_parity (λ shard_idx err_locs,
    let! pos := parity_position shard_idx in update err_locs pos (as_u16 1)) err_locs in
  let! err_locs := for_range (dec_parity_shards driver) (dec_m driver) (λ i err_locs,
    update err_locs i (as_u16 1)) err_locs in
  let! err_locs := for_each missing_data (λ shard_idx err_locs,
    update err_locs (dec_m driver + shard_idx) (as_u16 1)) err_locs in
  let! err_locs := fwht16_mtrunc err_locs ORDER16 (dec_work_size driver) in
  let! err_locs := walsh_products u16_0 mul_mod16 ORDER16 (log_walsh16 tables) err_locs in
  fwht16_variable err_locs.

(** [sum += u32::from(tables.log_lut[i ^ pos])] *)
Definition add_log (i pos : nat) (sum : N) : outcome Error N :=
  let! l := index (log_lut16 tables) (Nat.lxor i pos) in Ok ((sum + u16_to_N l) mod 2 ^ 32)%N.

Definition sparse_sum (i : nat) : outcome Error N :=
  let! sum := for_each missing_parity (λ shard_idx sum,
    let! pos := parity_position shard_idx in add_log i pos sum) 0%N in
  let! sum := for_range (dec_parity_shards driver) (dec_m driver) (add_log i) sum in
  for_each missing_data (λ shard_idx, add_log i (dec_m driver + shard_idx)) sum.

Definition fill_sparse_error_locs16 (locs : list u16) : outcome Error (list u16) :=
  for_range 0 (length locs) (λ i locs,
    let! sum := sparse_sum i in
    update locs i (as_u16 (sum mod N.of_nat MODULUS16))) locs.

(** A received shard with the factor one is converted without a product. *)
Definition mark_sentinel (pos : nat) (is_present : bool) (locs : list u16) : outcome Error (list u16) :=
  if is_present then
    let! l := index locs pos in
    if bool_decide (l = u16_0) then update locs pos modulus16 else Ok locs
  else Ok locs.

Definition sparse_locs (present : list bool) : outcome Error (list u16) :=
  let d := dec_data_shards driver in
  let! locs := fill_sparse_error_locs16 (replicate (dec_work_size driver) u16_0) in
  let! locs := for_each (imap pair (take d present))
    (λ '(i, here), mark_sentinel (dec_m driver + i) here) locs in
  for_each (imap pair (take (dec_parity_shards driver) (drop d present)))
    (λ '(i, here), mark_sentinel i here) locs.
End error_locations.

(** ** Plans *)
Record LeopardGf16DecodePlan := mk_decode_plan16 {
  plan16_err_locs : list u16;
  plan16_input_count : nat;
  plan16_ifft : IfftDit16Plan;
  plan16_fft : FftDit16Plan;
}.

Section plan.
Context (driver : LeopardGf16DecodeDriver) (present : list bool) (missing_parity missing_data : list nat)
  (tables : LeopardGf16Tables).

Definition input_count16 : nat :=
  foldl (λ ic '(i, here), if here : bool then dec_m driver + i + 1 else ic) (dec_m driver)
    (imap pair (take (dec_data_shards driver) present)).

Definition build_decode_plan : outcome Error LeopardGf16DecodePlan :=
  let terms := length missing_parity + length missing_data + (dec_m driver - dec_parity_shards driver) in
  let! err_locs :=
    if (dec_work_size driver <=? SPARSE_LOCATOR_MAX_WORK_SIZE) && (terms <=? SPARSE_LOCATOR_MAX_TERMS)
    then sparse_locs missing_parity missing_data driver tables present
    else
      let! full := compute_error_locs16 missing_parity missing_data driver tables in
      slice full 0 (dec_work_size driver) in
  let! ifft_plan := build_ifft_decode_dit16_plan input_count16 (dec_n driver) (fft_skew16 tables) in
  let! fft_plan := build_fft_dit16_plan (dec_work_size driver) (dec_n driver) (fft_skew16 tables) in
  Ok (mk_decode_plan16 err_locs input_count16 ifft_plan fft_plan).
End plan.

(** Shard counts and the erasures. *)
Definition DecodePlanKey : Type := nat * nat * list bool.

(** What the machine and the allocator decide: the sizes of plans and keys, the capacity of a
    scratch lane in bytes, the number of threads. *)
Class DecodeMachine16 := {
  plan_bytes16 : LeopardGf16DecodePlan → N;
  key_bytes16 : DecodePlanKey → N;
  scratch_bytes16 : list u16 → N;
  current_num_threads : nat;
}.

Definition MAX_CACHED_PLAN_BYTES : N := 8 * 1024 * 1024.

Definition PlanCache16 {L : LruCache DecodePlanKey (LeopardGf16DecodePlan * N)} : Type :=
  DecodePlanCache DecodePlanKey LeopardGf16DecodePlan.

Section plan_cache.
Context {DM : DecodeMachine16} {L : LruCache DecodePlanKey (LeopardGf16DecodePlan * N)}.

Definition decode_plan_for (cache : PlanCache16) (others : PlanCache16 → PlanCache16)
    (driver : LeopardGf16DecodeDriver) (present : list bool) (missing_parity missing_data : list nat)
    (tables : LeopardGf16Tables) : outcome Error (LeopardGf16DecodePlan * PlanCache16) :=
  plan_cache_for plan_bytes16 key_bytes16 cache others
    (dec_data_shards driver, dec_parity_shards driver, present)
    (build_decode_plan driver present missing_parity missing_data tables).
End plan_cache.

(** ** Work space *)
Definition MAX_CACHED_DECODE_BYTES : N := 4 * 1024 * 1024.

Definition cacheable_decode_size (lanes chunk_len : nat) : bool :=
  (saturating_mul (saturating_mul (saturating_add (N.of_nat lanes) 1) (N.of_nat chunk_len)) 2
   <=? MAX_CACHED_DECODE_BYTES)%N.

(** The scratch lane is overwritten before it is read; its contents are not tracked. *)
Record DecodeBuffers16 := mk_decode_buffers16 { dec_work16 : FlatWork16; dec_scratch16 : list u16 }.

Definition decode_buffers16_new (lanes chunk_len : nat) : DecodeBuffers16 :=
  mk_decode_buffers16 (flat16_new lanes chunk_len) (replicate chunk_len u16_0).

Definition can_reuse16 (work : FlatWork16) (lanes lane_len : nat) : bool :=
  (work_lanes16 work =? lanes) && (work_lane_len16 work =? lane_len).

Definition buffers16_retained_bytes {DM : DecodeMachine16} (buffers : DecodeBuffers16) : N :=
  saturating_add (flat16_bytes (dec_work16 buffers)) (scratch_bytes16 (dec_scratch16 buffers)).

(** [with_decode_buffers]: the cache of the thread is empty while the operation runs. *)
Definition with_decode_buffers {DM : DecodeMachine16} {R} (cache : option DecodeBuffers16) (lanes chunk_len : nat)
    (operation : DecodeBuffers16 → outcome Error (R * DecodeBuffers16))
  : outcome Error (R * option DecodeBuffers16) :=
  let cacheable := cacheable_decode_size lanes chunk_len in
  let fresh := decode_buffers16_new lanes chunk_len in
  let '(buffers, cache) :=
    if cacheable then
      (match cache with
       | Some buffers => if can_reuse16 (dec_work16 buffers) lanes chunk_len then buffers else fresh
       | None => fresh
       end, None)
    else (fresh, cache) in
  let! ' (result, buffers) := operation buffers in
  Ok (result, if cacheable && (buffers16_retained_bytes buffers <=? MAX_CACHED_DECODE_BYTES)%N
              then Some buffers else cache).

(** [if scratch.len() < size { scratch.resize(size, 0) }] *)
Definition resized (scratch : list u16) (size : nat) : list u16 :=
  if length scratch <? size then scratch ++ replicate (size - length scratch) u16_0 else scratch.

(** [&mut scratch[..size]], where the chunk has resized the scratch lane. *)
Definition conversion_scratch (scratch : list u16) (size : nat) : outcome Error (list u16) :=
  slice (resized scratch size) 0 size.

(** ** Transforms of the flat work space *)
Section transforms.
Context (tables : LeopardGf16Tables) (size n : nat).
Implicit Types (work : list (list u16)).

Definition dit4_16 (dir : TransformDir) (log_m01 log_m23 log_m02 : u16) (a b c d : list u16)
  : list u16 * list u16 * list u16 * list u16 :=
  match dir with Forward => fft_dit4_16 tables | Inverse => ifft_dit4_16 tables end a b c d log_m01 log_m23 log_m02.

Definition dit4_decode_at_16 dir work (base dist : nat) (log_m01 log_m23 log_m02 : u16)
  : outcome Error (list (list u16)) :=
  dit4_decode_at (dit2_16 tables) (idit2_16 tables) dit4_16 size dir work base dist log_m01 log_m23 log_m02.

Definition fft_dit_decode16_with_plan (plan : FftDit16Plan) work : outcome Error (list (list u16)) :=
  fft_decode_with_plan (dit2_16 tables) (idit2_16 tables) dit4_16 size n plan work.

Definition ifft_dit_decode16_with_plan (plan : IfftDit16Plan) work : outcome Error (list (list u16)) :=
  ifft_decode_with_plan u16_0 (dit2_16 tables) (idit2_16 tables) dit4_16 size n plan work.

(** [slice_xor_u16(lo, hi)] on the first [size] elements of the lanes. *)
Definition add_pair16 (lo_idx hi_idx : nat) work : list (list u16) :=
  with_pair work lo_idx hi_idx (on_prefix size (λ lo hi, (slice_xor_u16 lo hi, hi))).

Definition compute_formal_derivative16 work : outcome Error (list (list u16)) := formal_derivative add_pair16 n work.
End transforms.

(** ** One reconstruction *)

(** [&input[offset * 2..end * 2]] *)
Definition chunk_of16 (data : list byte) (offset stop : nat) : outcome Error (list byte) :=
  slice data (offset * 2) (stop * 2).

(** [(MODULUS16 as u16).wrapping_sub(err)] *)
Definition inverse_log16 (err : u16) : u16 := as_u16 (N.of_nat MODULUS16 + 2 ^ 16 - u16_to_N err).

(** A lost shard with an output: its index, its lane and the inverse of its factor. *)
Definition RecoveryTarget : Type := nat * nat * u16.

Section reconstruct.
Context (present : list bool) (input_data : list (option (list byte))) (driver : LeopardGf16DecodeDriver)
  (tables : LeopardGf16Tables) (plan : LeopardGf16DecodePlan).

Definition recovery_targets (outputs : list (list byte)) : outcome Error (list RecoveryTarget) :=
  for_range 0 (dec_data_shards driver + dec_parity_shards driver) (λ i targets,
    let! here := index present i in
    if here : bool then Ok targets else
    let! output := index outputs i in
    if length output =? 0 then Ok targets else
    let work_idx := work_index driver i in
    let! err := index (plan16_err_locs plan) work_idx in
    Ok (targets ++ [(i, work_idx, inverse_log16 err)])) [].

(** Conversions with a scratch lane of the buffers. *)
Definition read16 (scratch : list u16) (src : list byte) (view : list u16) (log : u16) : outcome Error (list u16) :=
  let! scratch := conversion_scratch scratch (length view) in
  user_to_work_mul tables src view scratch log.
Definition store16 (scratch : list u16) (src : list u16) (view : list byte) (log : u16) : outcome Error (list byte) :=
  let! scratch := conversion_scratch scratch (length src) in
  work_mul_to_user tables src view scratch log.

(** Steps 1 to 4. *)
Definition compute_reconstruct_chunk (scratch : list u16) (offset stop : nat) (work : list (list u16))
  : outcome Error (list (list u16)) :=
  decode_chunk u16_0 chunk_of16 (read16 scratch) present input_data driver (plan16_err_locs plan)
    (λ size, ifft_dit_decode16_with_plan tables size (dec_n driver) (plan16_ifft plan))
    (λ size, compute_formal_derivative16 size (dec_n driver))
    (λ size, fft_dit_decode16_with_plan tables size (dec_n driver) (plan16_fft plan)) offset stop work.

(** Step 5 for one target, whose output is [outputs[i]] from element [start] on. *)
Definition write_target (scratch : list u16) (start offset stop : nat) (work : list (list u16))
    (i work_idx : nat) (inv_err : u16) (outputs : list (list byte)) : outcome Error (list (list byte)) :=
  let! lane := index work work_idx in
  let! src := slice lane 0 (stop - offset) in
  let! output := index outputs i in
  let! view := slice output ((offset - start) * 2) ((stop - start) * 2) in
  let! view := store16 scratch src view inv_err in
  update outputs i (splice output ((offset - start) * 2) view).

Context {DM : DecodeMachine16} (missing : list RecoveryTarget) (shard_u16_len chunk_cap : nat).
Implicit Types (outputs : list (list byte)) (buffers : DecodeBuffers16).

(** The buffers after a run over [len] elements; the first chunk has resized the scratch lane. *)
Definition left_buffers buffers (len : nat) (work : list (list u16)) : DecodeBuffers16 :=
  let flat := dec_work16 buffers in
  mk_decode_buffers16 (mk_flat16 (work_lanes16 flat) (work_lane_len16 flat) work)
    (resized (dec_scratch16 buffers) (Nat.min (dec_chunk_size driver) len)).

(** *** One chunk after the other *)
Definition serial_chunks outputs buffers : outcome Error (list (list byte) * DecodeBuffers16) :=
  let scratch := dec_scratch16 buffers in
  let! ' (work, outputs) :=
    decode_chunks (compute_reconstruct_chunk scratch)
      (λ offset stop work, for_each missing (λ '(shard_idx, work_idx, inv_err),
         write_target scratch 0 offset stop work shard_idx work_idx inv_err))
      (S shard_u16_len) (dec_chunk_size driver) 0 shard_u16_len (work_data16 (dec_work16 buffers)) outputs in
  Ok (outputs, left_buffers buffers shard_u16_len work).

(** *** Groups of chunks *)

(** A job: the elements from [start] to [group_end], and this part of every output. *)
Definition Job : Type := nat * nat * list (list byte).

Definition group_chunks (chunk_count max_parallel_jobs : nat) : nat :=
  let available_jobs := Nat.max current_num_threads 1 in
  let max_jobs :=
    if max_parallel_jobs =? 0 then available_jobs
    else Nat.max (Nat.min max_parallel_jobs available_jobs) 1 in
  Nat.max (nat_div_ceil chunk_count max_jobs) 1.

(** The next chunk of every output; there must be one. *)
Definition group_views (group_bytes k : nat) (targets : list (list byte)) : outcome Error (list (list byte)) :=
  map_outcome (λ out : list byte,
    if k * group_bytes <? length out then Ok (take group_bytes (drop (k * group_bytes) out)) else Panic) targets.

Fixpoint split_jobs (fuel group_bytes k offset : nat) (targets : list (list byte)) : outcome Error (list Job) :=
  match fuel with
  | O => Panic
  | S fuel =>
      if offset <? dec_shard_size driver then
        let stop := Nat.min (offset + group_bytes) (dec_shard_size driver) in
        let! views := group_views group_bytes k targets in
        let! jobs := split_jobs fuel group_bytes (S k) stop targets in
        Ok ((offset / 2, stop / 2, views) :: jobs)
      else Ok []
  end.

Definition run_job (cache : option DecodeBuffers16) (job : Job)
  : outcome Error (list (list byte) * option DecodeBuffers16) :=
  let '(start, group_end, group_out) := job in
  with_decode_buffers cache (dec_n driver) chunk_cap (λ buffers,
    let scratch := dec_scratch16 buffers in
    let! ' (work, group_out) :=
      decode_chunks (compute_reconstruct_chunk scratch)
        (λ offset stop work, for_each (imap pair missing) (λ '(k, (_, work_idx, inv_err)),
           write_target scratch start offset stop work k work_idx inv_err))
        (S (group_end - start)) (dec_chunk_size driver) start group_end (work_data16 (dec_work16 buffers)) group_out in
    Ok (group_out, left_buffers buffers (group_end - start) work)).

(** The views are parts of the outputs. *)
Definition join_jobs (results : list (list (list byte))) outputs : outcome Error (list (list byte)) :=
  for_each (imap pair missing) (λ '(k, (shard_idx, _, _)), λ outputs,
    update outputs shard_idx (List.concat (map (λ views, default [] (views !! k)) results))) outputs.

(** The jobs touch disjoint parts and share nothing but the plan, so they may run in any order;
    job [j] runs on a thread whose cache holds [caches j] when it starts.  Returns what the
    caches hold after each job. *)
Definition reconstruct_chunks_parallel (caches : nat → option DecodeBuffers16) (max_parallel_jobs : nat) outputs
  : outcome Error (list (list byte) * list (option DecodeBuffers16)) :=
  let chunk_count := nat_div_ceil shard_u16_len (dec_chunk_size driver) in
  let group_bytes := group_chunks chunk_count max_parallel_jobs * (dec_chunk_size driver * 2) in
  let! targets := map_outcome (λ '(shard_idx, _, _), index outputs shard_idx) missing in
  let! jobs := split_jobs (S (dec_shard_size driver)) group_bytes 0 0 targets in
  let! results := map_outcome (λ '(j, job), run_job (caches j) job) (imap pair jobs) in
  let! outputs := join_jobs (map fst results) outputs in
  Ok (outputs, map snd results).
End reconstruct.

Section top.
Context {DM : DecodeMachine16} {L : LruCache DecodePlanKey (LeopardGf16DecodePlan * N)}.

(** What a call shares with others: the plan cache, and what other callers do with it while this
    one builds a plan; the work space of the thread that runs job [j] (the serial form is job 0). *)
Record DecodeShared16 := mk_shared16 {
  shared_plans : PlanCache16;
  other_callers : PlanCache16 → PlanCache16;
  thread_buffers : nat → option DecodeBuffers16;
}.

(** [missing.push(i)] for the shards that are not there. *)
Definition missing_shards (lo hi : nat) (present : list bool) : outcome Error (list nat) :=
  for_range lo hi (λ i missing, let! here := index present i in
    Ok (if here : bool then missing else missing ++ [i])) [].

(** [reconstruct_with_tables16_with_options]: the new contents of the outputs, the plan cache, and
    the work spaces that the jobs leave. *)
Definition decode_with_tables16 (shared : DecodeShared16) (tables : LeopardGf16Tables) (present : list bool)
    (outputs : list (list byte)) (input_data : list (option (list byte))) (data_shards parity_shards : nat)
    (max_parallel_jobs : nat)
  : outcome Error (list (list byte) * PlanCache16 * list (option DecodeBuffers16)) :=
  let! shard_size :=
    validate_leopard_decode_buffers present outputs input_data data_shards parity_shards in
  let total_shards := data_shards + parity_shards in
  if forallb id present || forallb (λ output, length output =? 0) outputs
  then Ok (outputs, shared_plans shared, []) else
  let! driver := build_leopard_gf16_decode_driver data_shards parity_shards shard_size in
  let shard_u16_len := shard_size / 2 in
  let! missing_parity := missing_shards data_shards total_shards present in
  let! missing_data := missing_shards 0 data_shards present in
  let total_missing := length missing_parity + length missing_data in
  if parity_shards <? total_missing then Err TooFewShardsPresent else
  if total_missing =? 0 then Ok (outputs, shared_plans shared, []) else
  let! ' (plan, plans) :=
    decode_plan_for (shared_plans shared) (other_callers shared) driver present missing_parity missing_data tables in
  let chunk_cap := Nat.min shard_u16_len (dec_chunk_size driver) in
  let! missing := recovery_targets present driver plan outputs in
  if negb (max_parallel_jobs =? 1) && (2 <=? nat_div_ceil shard_u16_len (dec_chunk_size driver)) then
    let! ' (outputs, buffers) :=
      reconstruct_chunks_parallel present input_data driver tables plan missing shard_u16_len chunk_cap
        (thread_buffers shared) max_parallel_jobs outputs in
    Ok (outputs, plans, buffers)
  else
    let! ' (outputs, buffers) :=
      with_decode_buffers (thread_buffers shared 0) (dec_n driver) chunk_cap
        (serial_chunks present input_data driver tables plan missing shard_u16_len outputs) in
    Ok (outputs, plans, [buffers]).
End top.
