(* ===== verification/LeoLocator16.v ===== *)
(** * Error locators of the Leopard GF(2^16) decoder ([compute_error_locs16], [fill_sparse_error_locs16])

    The two Walsh transforms of [LeoLocator], over 65536 positions, and the direct sums for
    few erasures: both leave logarithms of the same products of distances. *)

From Stdlib Require Import NArith ZArith Lia List Bool.
From stdpp Require Import base numbers list.
From S2P Require Import Prelude Errors Bytes Fields Options LinAlg Lch LeoStages LeoWalsh LeoPlan.
From S2P Require Import LeoLocator LeoDecode LeoTables16 LeoLch16 LeoSkew16 LeoOps16 LeoFused16 LeoDecode16.

Local Open Scope Z_scope.

(** ** Exponentials of integers modulo 65535 *)
Definition expz16 (z : Z) : u16 := lexp16 (Z.to_N (z mod 65535)).

Lemma expz16_wz a : expz16 (wz a) = factor16 a.
Proof.
  unfold expz16, factor16, wz. apply lexp16_eq. change 65535 with (Z.of_N 65535).
  rewrite <- N2Z.inj_mod, N2Z.id. apply N.Div0.mod_mod.
Qed.

Lemma expz16_eqm a b : eqm65535 a b → expz16 a = expz16 b.
Proof. intros H%eqm_mod; [|lia]. unfold expz16. by rewrite H. Qed.

Lemma lexp16_add n m : lexp16 (n + m) = lch_mul16 (lexp16 n) (lexp16 m).
Proof.
  rewrite lch_mul16_spec by apply lexp16_neq_0. apply lexp16_eq.
  destruct (lexp16_spec n) as (_ & _ & ->), (lexp16_spec m) as (_ & _ & ->).
  by rewrite <- N.Div0.add_mod.
Qed.

Lemma expz16_add a b : expz16 (a + b) = lch_mul16 (expz16 a) (expz16 b).
Proof.
  unfold expz16. rewrite <- lexp16_add. apply lexp16_eq. apply N2Z.inj.
  rewrite !N2Z.inj_mod, N2Z.inj_add, !Z2N.id by (apply Z.mod_pos_bound; lia). change (Z.of_N 65535) with 65535.
  rewrite Z.mod_mod by lia. apply Z.add_mod. lia.
Qed.

Lemma lexp16_0 : lexp16 0 = as_u16 1.
Proof. apply phi16_inj. by rewrite phi16_lexp, phi16_1. Qed.

Lemma expz16_distance i j : (i < 2 ^ 16)%nat → (j < 2 ^ 16)%nat → i ≠ j →
  expz16 (wz (walsh_log16 (Nat.lxor i j))) = u16_xor (pt16 i) (pt16 j).
Proof.
  intros Hi Hj Hij. assert (Nat.lxor i j ≠ 0%nat) as Hne by (intros H; apply Hij; by apply Nat.lxor_eq).
  assert (Nat.lxor i j < ORDER16)%nat as Hlt by (rewrite ORDER16_pow; by apply (lxor_lt 16)).
  rewrite expz16_wz. unfold walsh_log16, factor16. rewrite decide_False by done.
  rewrite <- (u16_to_nat_pt16 (Nat.lxor i j)) by done. change (u16_to_N (tbl16 LOG16 ?v)) with (u16_to_N (tbl16 LOG16 v)).
  fold (llog16 (pt16 (Nat.lxor i j))). rewrite lexp16_llog16.
  - by apply (pt_xor (F:=lch16) (w:=16)).
  - apply pt16_neq_0; [lia|done].
Qed.

#[export] Instance exponents16 : Exponents (F:=lch16) 16 pt16 wz 65535 expz16 walsh_log16.
Proof.
  split; [apply expz16_eqm|apply expz16_add| |exact expz16_distance|].
  - unfold expz16. change (Z.to_N (0 mod 65535)) with 0%N. exact lexp16_0.
  - unfold walsh_log16. by rewrite decide_True.
Qed.

Lemma walsh_of_logs16 : walsh_of_logs 16 wz 65535 walsh_log16 (log_walsh16 TABLES16).
Proof.
  intros i Hi. rewrite <- ORDER16_pow in Hi. eexists. split; [by apply TABLES16_walsh_lookup|].
  by apply TABLES16_walsh.
Qed.

Lemma wz_mul_mod16 e w : eqm65535 (wz (mul_mod16 e w)) (wz e * wz w).
Proof.
  unfold mul_mod16, wz. pose proof MODULUS16_N as ->.
  pose proof (N.mod_lt (u16_to_N e * u16_to_N w) 65535 ltac:(lia)) as H.
  rewrite u16_to_N_small by (change (2 ^ 16)%N with 65536%N; lia).
  rewrite N2Z.inj_mod, N2Z.inj_mul. apply eqm_mod; [lia|]. apply Z.mod_mod. lia.
Qed.

Lemma eqm65535_period x : eqm65535 (2 ^ Z.of_nat 16 * x) x.
Proof. exists x. change (2 ^ Z.of_nat 16) with 65536. lia. Qed.
Local Close Scope Z_scope.

(** ** The erased positions *)
Lemma filter_seq_map (P Q : nat → Prop) `{∀ x, Decision (P x)} `{∀ x, Decision (Q x)} a b n :
  (∀ i, i < n → P (a + i) ↔ Q (b + i)) → filter P (seq a n) = map (λ j, a + (j - b)) (filter Q (seq b n)).
Proof.
  intros HPQ. induction n as [|n IH]; [done|]. rewrite !seq_S, !filter_app, map_app, IH by (intros; apply HPQ; lia).
  f_equal. rewrite !filter_cons, !filter_nil. specialize (HPQ n ltac:(lia)).
  destruct (decide (P (a + n))) as [HP|HP], (decide (Q (b + n))) as [HQ|HQ]; cbn [map]; try tauto.
  do 2 f_equal. lia.
Qed.

Lemma filter_everything {A} (P : A → Prop) `{∀ x, Decision (P x)} (l : list A) : (∀ x, x ∈ l → P x) → filter P l = l.
Proof.
  induction l as [|x l IH]; intros Hl; [done|]. rewrite filter_cons, decide_True by (apply Hl; left).
  f_equal. apply IH. intros y Hy. apply Hl. by right.
Qed.

(** Sums of logarithms over lists. *)
Definition log_sum (f : nat → N) (l : list nat) : N := foldr (λ j s, f j + s)%N 0%N l.

Lemma log_sum_app f l1 l2 : log_sum f (l1 ++ l2) = (log_sum f l1 + log_sum f l2)%N.
Proof.
  induction l1 as [|j l1 IH]; [done|]. cbn [app].
  change (f j + log_sum f (l1 ++ l2) = f j + log_sum f l1 + log_sum f l2)%N. by rewrite IH, N.add_assoc.
Qed.

Lemma log_sum_bound f l b : (∀ j, f j <= b)%N → (log_sum f l <= N.of_nat (length l) * b)%N.
Proof.
  intros Hf. induction l as [|j l IH]; [done|]. change (log_sum f (j :: l)) with (f j + log_sum f l)%N.
  cbn [length]. specialize (Hf j). lia.
Qed.

Lemma log_sum_zsum (er : nat → bool) (f : nat → N) (g : nat → Z) n : (∀ j, eqm65535 (Z.of_N (f j)) (g j)) →
  eqm65535 (Z.of_N (log_sum f (filter er (seq 0 n)))) (zsum n (λ j, Z.b2z (er j) * g j)%Z).
Proof.
  intros Hfg. induction n as [|n IH]; [by exists 0%Z|]. rewrite seq_S, filter_app, log_sum_app. cbn [zsum Nat.add].
  rewrite N2Z.inj_add. apply eqm_mod; [lia|]. apply eqm_mod in IH; [|lia]. rewrite Z.add_mod, IH by lia.
  assert ((Z.of_N (log_sum f (filter er [n])) mod 65535 = (Z.b2z (er n) * g n) mod 65535)%Z) as ->.
  { rewrite filter_cons, filter_nil. destruct (er n); [|done]. rewrite decide_True by done.
    cbn [log_sum foldr Z.b2z]. rewrite N.add_0_r, Z.mul_1_l. by apply eqm_mod; [|apply Hfg]. }
  by rewrite <- Z.add_mod by lia.
Qed.

Lemma for_each_ext_in {E A S} (l : list A) (f g : A → S → outcome E S) s : 
  (∀ x s, x ∈ l → f x s = g x s) → for_each l f s = for_each l g s.
Proof.
  revert s. induction l as [|x l IH]; intros s H; [done|]. cbn [for_each]. rewrite H by left.
  destruct (g x s); [apply IH|done..]. intros y s' Hy. apply H. by right.
Qed.

Section erasures.
Context (present : list bool) (d p K : nat) (driver : LeopardGf16DecodeDriver).
Context (Hd : dec_data_shards driver = d) (Hp : dec_parity_shards driver = p).
Context (Hm : dec_m driver = 2 ^ K) (Hw : dec_work_size driver = 2 ^ K + d).
Context (HpK : p ≤ 2 ^ K) (Hfit : 2 ^ K + d ≤ 2 ^ 16) (Hpresent : length present = d + p).
#[local] Abbreviation here := (here present).
#[local] Abbreviation lost := (lost present d p K).

Definition missing_parity_list : list nat := filter (λ i, ¬ here i) (seq d p).
Definition missing_data_list : list nat := filter (λ i, ¬ here i) (seq 0 d).
#[local] Abbreviation mp := missing_parity_list.
#[local] Abbreviation md := missing_data_list.

Definition erased : list nat := filter lost (seq 0 (2 ^ K + d)).

Lemma not_true_negb (b : bool) : Is_true (negb b) ↔ ¬ Is_true b.
Proof. by destruct b; cbn; intuition. Qed.

Lemma erased_parts : erased = map (λ i, i - d) mp ++ seq p (2 ^ K - p) ++ map (λ i, 2 ^ K + i) md.
Proof.
  clear - HpK.
  unfold erased, missing_parity_list, missing_data_list. replace (2 ^ K + d) with (p + (2 ^ K - p + d)) by lia.
  rewrite !seq_app, !filter_app. f_equal; [|f_equal].
  - rewrite (filter_seq_map lost (λ i, ¬ here i) 0 d p).
    + apply map_ext. intros i. lia.
    + intros i Hi. unfold LeoLocator.lost. rewrite (proj2 (Nat.ltb_lt (0 + i) p)) by lia. apply not_true_negb.
  - rewrite Nat.add_0_l. apply filter_everything. intros i Hi%elem_of_seq. unfold LeoLocator.lost.
    rewrite (proj2 (Nat.ltb_ge i p)), (proj2 (Nat.ltb_lt i (2 ^ K))) by lia. done.
  - rewrite (filter_seq_map lost (λ i, ¬ here i) (0 + p + (2 ^ K - p)) 0 d).
    + apply map_ext. intros i. lia.
    + intros i Hi. unfold LeoLocator.lost.
      rewrite (proj2 (Nat.ltb_ge _ p)), (proj2 (Nat.ltb_ge _ (2 ^ K))), (proj2 (Nat.ltb_lt _ (2 ^ K + d))) by lia.
      replace (0 + p + (2 ^ K - p) + i - 2 ^ K) with (0 + i) by lia. apply not_true_negb.
Qed.

Lemma length_erased : length erased = length mp + (2 ^ K - p) + length md.
Proof. by rewrite erased_parts, !length_app, !length_map, length_seq, Nat.add_assoc. Qed.

Lemma missing_parity_in i : i ∈ mp → d ≤ i ∧ i < d + p.
Proof. intros [_ Hi%elem_of_seq]%list_elem_of_filter. lia. Qed.
Lemma missing_data_in i : i ∈ md → i < d.
Proof. intros [_ Hi%elem_of_seq]%list_elem_of_filter. lia. Qed.

Lemma parity_position_ok i : i ∈ mp → parity_position driver i = Ok (i - d).
Proof. intros [H1 H2]%missing_parity_in. unfold parity_position. by rewrite Hd, (proj2 (Nat.ltb_ge i d)). Qed.

Lemma lost_erased j : lost j ↔ j ∈ erased.
Proof.
  unfold erased. rewrite list_elem_of_filter, elem_of_seq. split; [|tauto]. intros Hl. split; [done|].
  destruct (Nat.lt_ge_cases j (2 ^ K + d)); [lia|]. by rewrite lost_end in Hl.
Qed.

(** *** The marks *)
Definition mark (j : nat) : u16 := if lost j then as_u16 1 else u16_0.

Lemma marks16_ok {B} (k : list u16 → outcome Error B) :
  (let! err_locs := for_each mp (λ shard_idx err_locs,
     let! pos := parity_position driver shard_idx in update err_locs pos (as_u16 1)) (replicate ORDER16 u16_0) in
   let! err_locs := for_range p (2 ^ K) (λ i err_locs, update err_locs i (as_u16 1)) err_locs in
   let! err_locs := for_each md (λ shard_idx err_locs,
     update err_locs (2 ^ K + shard_idx) (as_u16 1)) err_locs in
   k err_locs) = k (tabulate ORDER16 mark).
Proof.
  pose proof Hfit as Hfit'. rewrite <- ORDER16_pow in Hfit'. rewrite replicate_tabulate.
  rewrite (for_each_ext_in mp _ (λ i err_locs, update err_locs (i - d) (as_u16 1)))
    by (intros i s Hi; by rewrite parity_position_ok).
  rewrite (mark_list ORDER16 mp (λ i, i - d)).
  2:{ apply Forall_forall. intros i [H1 H2]%missing_parity_in. lia. }
  cbn [obind]. rewrite (mark_loop ORDER16 p (2 ^ K) _ (λ _, as_u16 1)); [|intros i s _ Hi; apply update_tabulate; lia|done].
  cbn [obind]. rewrite (mark_list ORDER16 md (λ i, 2 ^ K + i)).
  2:{ apply Forall_forall. intros i Hi%missing_data_in. lia. }
  cbn [obind]. f_equal. apply tabulate_ext. intros j _. unfold mark.
  pose proof (lost_erased j) as Hl. rewrite erased_parts, !elem_of_app, elem_of_seq in Hl.
  destruct (lost j) eqn:Hlj; repeat case_decide; try done; exfalso; cbn in Hl; try (apply Hl; tauto).
  - destruct Hl as [Hl _]. destruct (Hl I) as [?|[?|?]]; [tauto|lia|tauto].
  - apply Hl. right; left. lia.
Qed.

Lemma compute_error_locs16_ok :
  ∃ v, compute_error_locs16 mp md driver TABLES16 = Ok (tabulate ORDER16 v) ∧
    locates (F:=lch16) pt16 lost (2 ^ 16) (2 ^ 16) (λ i, factor16 (v i)).
Proof.
  unfold compute_error_locs16. rewrite Hp, Hm, Hw, marks16_ok. pose proof Hfit as Hfit'. rewrite <- ORDER16_pow in Hfit' |- *.
  destruct (fwht16_mtrunc_spec (E:=Error) (2 ^ K + d) mark Hfit') as (t & -> & Ht).
  { intros j Hj. unfold mark. by rewrite lost_end. }
  cbn [obind]. rewrite ORDER16_pow.
  destruct (walsh_products_ok (E:=Error) 16 fwht2_alt16 wz u16_0 65535 walsh_log16 mul_mod16 wz_mul_mod16
    (log_walsh16 TABLES16) t walsh_of_logs16) as (u & Hu & Hu0 & Hut).
  rewrite Hu. cbn [obind]. rewrite <- ORDER16_pow in *.
  destruct (fwht16_variable_spec (E:=Error) u) as (v & Hv & Hspec); [done|].
  exists v. split; [done|]. intros i Hi. rewrite <- expz16_wz. rewrite ORDER16_pow in *.
  apply (walsh_locator_ok (F:=lch16) 16 pt16 wz 65535 expz16 walsh_log16 eqm65535_period lost t u v); [|done..].
  intros j Hj. rewrite Ht by done. rewrite (wht_ext _ _ (λ j, Z.b2z (lost j))); [done|].
  intros l _. unfold mark. by destruct (lost l).
Qed.

(** *** Direct sums *)
Section sums.
Context (Hterms : length erased ≤ 16) (i : nat) (Hi : i < 2 ^ 16).

(** The logarithm of the distance to position [j]. *)
Definition dist_log (j : nat) : N := u16_to_N (tbl16 LOG16 (Nat.lxor i j)).

Lemma dist_log_bound j : (dist_log j <= 65535)%N.
Proof. unfold dist_log. pose proof (u16_to_N_bound (tbl16 LOG16 (Nat.lxor i j))) as H. change (2 ^ 16)%N with 65536%N in H. lia. Qed.

Lemma dist_log_eqm j : eqm65535 (Z.of_N (dist_log j)) (wz (walsh_log16 (Nat.lxor i j))).
Proof.
  unfold dist_log, walsh_log16, wz. case_decide as H0; [|exists 0%Z; clear; lia].
  rewrite H0, log16_0, u16_to_N_small by done. by exists 1%Z.
Qed.

Lemma add_log_ok pos sum : pos < 2 ^ 16 → (sum + 65535 < 2 ^ 32)%N →
  add_log TABLES16 i pos sum = Ok (sum + dist_log pos)%N.
Proof.
  intros Hpos Hs. unfold add_log. rewrite TABLES16_log.
  assert (Nat.lxor i pos < ORDER16) as Hlt by (rewrite ORDER16_pow; by apply (lxor_lt 16)).
  rewrite (index_ok _ _ _ (proj1 (log16_lookup _ Hlt))). cbn [obind]. f_equal. fold (dist_log pos).
  pose proof (dist_log_bound pos). apply N.mod_small. lia.
Qed.

Lemma add_logs_ok {A} (l : list A) (pos : A → nat) sum : Forall (λ x, pos x < 2 ^ 16) l →
  (sum + 65535 * N.of_nat (length l) < 2 ^ 32)%N →
  for_each l (λ x, add_log TABLES16 i (pos x)) sum = Ok (sum + log_sum dist_log (map pos l))%N.
Proof.
  intros Hl. revert sum. induction Hl as [|x l Hx Hl IH]; intros sum Hs; cbn [for_each map].
  - cbn. by rewrite N.add_0_r.
  - cbn [length] in Hs. rewrite add_log_ok by (done || lia). cbn [obind].
    pose proof (dist_log_bound (pos x)). rewrite IH by lia.
    change (log_sum dist_log (pos x :: map pos l)) with (dist_log (pos x) + log_sum dist_log (map pos l))%N.
    by rewrite N.add_assoc.
Qed.

Lemma sparse_sum_ok : sparse_sum mp md driver TABLES16 i = Ok (log_sum dist_log erased).
Proof.
  unfold sparse_sum. pose proof length_erased as Hle.
  rewrite (for_each_ext_in mp _ (λ shard_idx, add_log TABLES16 i (shard_idx - d)))
    by (intros x s Hx; by rewrite parity_position_ok).
  assert (∀ n : nat, (n ≤ 16)%nat → (65535 * N.of_nat n < 2 ^ 20)%N) as Hsmall.
  { intros n Hn. change (2 ^ 20)%N with 1048576%N. lia. }
  assert (∀ l, (length l ≤ 16)%nat → (log_sum dist_log l < 2 ^ 20)%N) as Hls.
  { intros l Hl. pose proof (log_sum_bound dist_log l 65535 dist_log_bound). specialize (Hsmall (length l) Hl). lia. }
  change (2 ^ 20)%N with 1048576%N in *.
  rewrite (add_logs_ok mp (λ i, i - d)).
  2:{ apply Forall_forall. intros x [H1 H2]%missing_parity_in. lia. }
  2:{ change (2 ^ 32)%N with 4294967296%N. specialize (Hsmall (length mp) ltac:(lia)). lia. }
  cbn [obind]. rewrite N.add_0_l, Hp, Hm. unfold for_range.
  rewrite (add_logs_ok (seq p (2 ^ K - p)) (λ i, i)).
  2:{ apply Forall_forall. intros x Hx%elem_of_seq. lia. }
  2:{ change (2 ^ 32)%N with 4294967296%N. rewrite length_seq. specialize (Hsmall (2 ^ K - p) ltac:(lia)).
      specialize (Hls (map (λ i, i - d) mp) ltac:(rewrite length_map; lia)). lia. }
  cbn [obind]. rewrite (add_logs_ok md (λ i, 2 ^ K + i)).
  2:{ apply Forall_forall. intros x Hx%missing_data_in. lia. }
  2:{ change (2 ^ 32)%N with 4294967296%N. specialize (Hsmall (length md) ltac:(lia)).
      pose proof (Hls (map (λ i, i - d) mp) ltac:(rewrite length_map; lia)).
      pose proof (Hls (map (λ i, i) (seq p (2 ^ K - p))) ltac:(rewrite length_map, length_seq; lia)). lia. }
  by rewrite erased_parts, !log_sum_app, map_id, N.add_assoc.
Qed.
End sums.

(** The element at position [i]. *)
Definition sparse_loc (i : nat) : u16 := as_u16 (log_sum (dist_log i) erased mod 65535).

Lemma sparse_loc_factor i : i < 2 ^ K + d →
  factor16 (sparse_loc i) = locator (F:=lch16) pt16 (filter (λ j, lost j ∧ j ≠ i) (seq 0 (2 ^ K + d))) (pt16 i).
Proof.
  intros Hi. rewrite <- expz16_wz. unfold sparse_loc, wz.
  rewrite u16_to_N_small by (pose proof (N.mod_lt (log_sum (dist_log i) erased) 65535 ltac:(lia)); change (2 ^ 16)%N with 65536%N; lia).
  rewrite <- (sum_locator (F:=lch16) 16 pt16 wz 65535 expz16 walsh_log16 lost (2 ^ K + d) i) by lia.
  apply expz16_eqm. etrans.
  - rewrite N2Z.inj_mod. apply eqm_mod; [lia|]. apply Z.mod_mod. lia.
  - apply log_sum_zsum. intros j. apply dist_log_eqm.
Qed.

Lemma fill_sparse_ok : length erased ≤ 16 →
  fill_sparse_error_locs16 mp md driver TABLES16 (replicate (2 ^ K + d) u16_0) = Ok (tabulate (2 ^ K + d) sparse_loc).
Proof.
  intros Hterms. unfold fill_sparse_error_locs16. rewrite replicate_tabulate, length_tabulate.
  rewrite (mark_loop (2 ^ K + d) 0 (2 ^ K + d) _ sparse_loc); [| |lia].
  - f_equal. apply tabulate_ext. intros j Hj. by rewrite decide_True by lia.
  - intros i s _ Hi. rewrite sparse_sum_ok by (done || lia). cbn [obind].
    rewrite MODULUS16_N. by apply update_tabulate.
Qed.

(** The sentinel has the factor of zero. *)
Lemma sentinels_ok (l : list bool) a N v : a + length l ≤ N →
  ensures (for_each (imap pair l) (λ '(i, here), mark_sentinel (a + i) here) (tabulate N v))
    (λ locs, ∃ v', locs = tabulate N v' ∧ ∀ i, factor16 (v' i) = factor16 (v i)) (λ _, False).
Proof.
  intros Hl. apply (for_each_post _ _ (λ _ locs, ∃ v', locs = tabulate N v' ∧ ∀ i, factor16 (v' i) = factor16 (v i)));
    [by exists v| |done].
  intros i [i' b] locs Hx (v' & -> & Hv'). rewrite list_lookup_imap in Hx.
  destruct (l !! i) as [b'|] eqn:Hli; [|done]. injection Hx as <- <-. apply lookup_lt_Some in Hli.
  unfold mark_sentinel. destruct b'; [|by exists v']. rewrite index_tabulate by lia. cbn [obind].
  case_bool_decide as H0; [|by exists v']. rewrite update_tabulate by lia. cbn [ensures]. eexists.
  split; [done|]. intros j. cbv beta. case_decide as Hj; [|apply Hv']. rewrite <- Hv', Hj, H0.
  rewrite factor16_modulus by (by apply bool_decide_eq_true_2). symmetry. exact lexp16_0.
Qed.

Lemma sparse_locs_ok : length erased ≤ 16 →
  ∃ v, sparse_locs mp md driver TABLES16 present = Ok (tabulate (2 ^ K + d) v) ∧
    locates (F:=lch16) pt16 lost (2 ^ K + d) (2 ^ K + d) (λ i, factor16 (v i)).
Proof.
  intros Hterms. unfold sparse_locs. rewrite Hd, Hp, Hm, Hw, fill_sparse_ok by done. cbn [obind].
  pose proof (sentinels_ok (take d present) (2 ^ K) (2 ^ K + d) sparse_loc) as H1.
  apply ensures_noerr in H1 as (locs & -> & v1 & -> & Hv1); [|len]. cbn [obind].
  pose proof (sentinels_ok (take p (drop d present)) 0 (2 ^ K + d) v1) as H2.
  apply ensures_noerr in H2 as (locs & H2 & v2 & -> & Hv2); [|len].
  exists v2. split; [exact H2|]. intros i Hi. rewrite Hv2, Hv1. by apply sparse_loc_factor.
Qed.
End erasures.
