(* ===== verification/LeoRestore16.v ===== *)
(** * Restoring lost shards with the Leopard GF(2^16) engine

    The decoder of [LeoDecode16] is one of the engines of [LeoRestore] ([engine16]); its list of
    recovery targets has the lost shards with an output ([recovery_targets_ok]), and what
    its loops over the targets write is what [recovered] says, whatever slots of the
    outputs the targets have ([write_targets_ok]). *)

From Stdlib Require Import NArith Lia List Bool.
From stdpp Require Import base numbers list.
From S2P Require Import Prelude Errors Bytes Fields Options LinAlg Lch LeoStages LeoWalsh LeoButterfly LeoPlan LeoDit LeoCode LeoGroup LeoChunk.
From S2P Require Import LeoFlat LeoLocator LeoDecode LeoRestore LeoDecoder LeoTables16 LeoLch16 LeoSkew16 LeoOps16 LeoGroup16 LeoEncode16 LeoFused16.
From S2P Require Import LeoDecode16 LeoLocator16.

(** ** The engine *)
Lemma inverse_log16_spec x err : lch_mul16 (lch_mul16 x (factor16 err)) (factor16 (inverse_log16 err)) = x.
Proof.
  rewrite <- (Fields.mul_1_r (F:=lch16) x) at 2. rewrite <- (Fields.mul_assoc (F:=lch16)). f_equal.
  change (lch_mul16 (factor16 err) (factor16 (inverse_log16 err)) = as_u16 1).
  unfold factor16. rewrite <- lexp16_add, <- lexp16_0. apply lexp16_eq.
  unfold inverse_log16. rewrite MODULUS16_N, u16_to_N_as_u16. pose proof (u16_to_N_bound err) as Hb.
  change (2 ^ 16)%N with 65536%N in *.
  replace (65535 + 65536 - u16_to_N err)%N with (65535 - u16_to_N err + 1 * 65536)%N by lia.
  rewrite N.Div0.mod_add, (N.mod_small _ 65536) by lia.
  by replace (u16_to_N err + (65535 - u16_to_N err))%N with 65535%N by lia.
Qed.

Lemma conversion_scratch_ok scratch size : ∃ sc, conversion_scratch scratch size = Ok sc ∧ length sc = size.
Proof.
  unfold conversion_scratch, resized. eexists. rewrite slice_ok; [split; [done|]|lia|];
    destruct (Nat.ltb_spec (length scratch) size); len.
Qed.

Lemma add_pair16_ok N len size lo hi s : size ≤ len → lo < N → hi < N → lo ≠ hi → lanes_good len s →
  ∃ x, add_pair16 size lo hi (lanes_emb N s) = lanes_emb N (λ j, if decide (j = lo) then x else s j) ∧
    length x = len ∧ ∀ b, b < size → cell (F:=lch16) x b = u16_xor (cell (F:=lch16) (s lo) b) (cell (F:=lch16) (s hi) b).
Proof.
  intros Hsize Hlo Hhi Hne Hs. pose proof (Hs lo) as Hl. pose proof (Hs hi) as Hh. change (@Elem lch16) with u16 in *.
  assert (length (take size (s lo)) = length (take size (s hi))) as Hlen by len.
  assert (length (slice_xor_u16 (take size (s lo)) (take size (s hi))) = size) as Hx.
  { rewrite (proj1 (xor_lane _ _ 0 Hlen)). len. }
  exists (slice_xor_u16 (take size (s lo)) (take size (s hi)) ++ drop size (s lo)). split_and!.
  - unfold add_pair16, lanes_emb. rewrite with_pair_tabulate by done. apply tabulate_ext. intros j _.
    unfold set2, on_prefix. cbn [fst snd]. repeat case_decide; [congruence|subst; apply take_drop|done|done].
  - rewrite length_app, Hx. len.
  - intros b Hb. rewrite (cell_app_l (F:=lch16)) by (change (@Elem lch16) with u16; lia).
    etrans; [apply (xor_lane _ _ b Hlen); len|]. f_equal; apply (cell_take (F:=lch16)); done.
Qed.

Section engine.
Context (scratch : list u16).

#[export] Instance engine16 : DecodeEngine (F:=lch16) skew_value16 factor16 (dit2_16 TABLES16) (idit2_16 TABLES16)
  (dit4_16 TABLES16) add_pair16 2 32 user_elem chunk_of16 (read16 TABLES16 scratch) (store16 TABLES16 scratch) inverse_log16.
Proof.
  split.
  - apply word_lanes.
  - intros dir m01 m23 m02 a b c d j. apply dit4_lanes.
  - apply add_pair16_ok.
  - intros data offset size view log [ks ->] [nb ->] Hd Hv. change (@Elem lch16) with u16 in *.
    destruct (conversion_scratch_ok scratch (nb * 32)) as (sc & Hsc & Hlsc).
    exists (take (nb * 64) (drop (ks * 64) data)), (tabulate (nb * 32) (λ e,
      lch_mul16 (user_elem (take (nb * 64) (drop (ks * 64) data)) e) (factor16 log))). split_and!.
    + unfold chunk_of16. rewrite slice_ok by lia. f_equal. f_equal; [lia|]. f_equal. lia.
    + unfold read16. rewrite Hv, Hsc. cbn [obind]. apply (user_to_work_mul_ok nb); [len|lia|done].
    + apply length_tabulate.
    + intros b Hb. unfold cell. rewrite lookup_tabulate by done. cbn [default from_option id].
      by rewrite user_elem_slice by done.
  - intros out offset size lane log [ks ->] [nb ->] Ho Hl. change (@Elem lch16) with u16 in *.
    destruct (conversion_scratch_ok scratch (nb * 32)) as (sc & Hsc & Hlsc).
    replace (nb * 32 * 2) with (nb * 64) by lia. replace (ks * 32 * 2) with (ks * 64) by lia.
    destruct (work_mul_to_user_ok (E:=Error) nb lane (take (nb * 64) (drop (ks * 64) out)) sc log)
      as (x & Hx & Hlx & He); [len|lia|done|].
    exists x. split_and!; [|done|].
    + unfold store16. by rewrite Hl, Hsc.
    + intros e. rewrite (user_elem_splice ks nb) by lia. case_decide; [|done]. apply He. lia.
  - apply inverse_log16_spec.
Qed.
End engine.

(** ** The recovery targets *)
Section targets.
Context (present : list bool) (d p K k : nat) (driver : LeopardGf16DecodeDriver) (v : nat → u16) (scratch : list u16).
Context (Hpresent : length present = d + p) (HpK : p ≤ 2 ^ K) (Hfit : 2 ^ K + d ≤ 2 ^ k).
Context (Hdd : dec_data_shards driver = d) (Hdp : dec_parity_shards driver = p) (Hdm : dec_m driver = 2 ^ K).
#[local] Abbreviation position := (position d K).
Implicit Types (O P : nat → list byte) (W : nat → list u16) (start total len : nat).

(** The shards that get an output. *)
Definition wanted_shards O : list nat := filter (λ i, kept present i (O i) = false) (seq 0 (d + p)).

Definition target_of (i : nat) : RecoveryTarget := (i, position i, inverse_log16 (v (position i))).

Lemma recovery_targets_ok plan O : plan16_err_locs plan = tabulate (2 ^ K + d) v →
  recovery_targets present driver plan (tabulate (d + p) O) = Ok (map target_of (wanted_shards O)).
Proof.
  intros Hplan. unfold recovery_targets, wanted_shards. rewrite Hdd, Hdp, Hplan.
  assert (ensures (E:=Error) (for_range 0 (d + p) (λ i targets,
      let! here := index present i in
      if here : bool then Ok targets else
      let! output := index (tabulate (d + p) O) i in
      if length output =? 0 then Ok targets else
      let! err := index (tabulate (2 ^ K + d) v) (work_index driver i) in
      Ok (targets ++ [(i, work_index driver i, inverse_log16 err)])) [])
    (λ targets, targets = map target_of (filter (λ i, kept present i (O i) = false) (seq 0 (d + p)))) (λ _, False)) as Hrun.
  2:{ by apply ensures_noerr in Hrun as (targets & -> & ->). }
  apply (for_range_post _ _ _ (λ i targets, targets = map target_of (filter (λ i, kept present i (O i) = false) (seq 0 i))));
    [lia|done| |done].
  intros i targets Hi ->. change (1 + i) with (S i). rewrite seq_S, filter_app, map_app, Nat.add_0_l, filter_cons, filter_nil.
  rewrite index_present by lia. cbn [obind].
  assert (kept present i (O i) = here present i || (length (O i) =? 0)) as Hk by done.
  destruct (here present i); cbn [orb ensures] in *; [by rewrite decide_False, app_nil_r by congruence|].
  rewrite index_tabulate by lia. cbn [obind].
  destruct (length (O i) =? 0); cbn [ensures]; [by rewrite decide_False, app_nil_r by congruence|].
  destruct (position_lost present d p K HpK i ltac:(lia)) as (_ & Hpos & _).
  unfold work_index. rewrite Hdd, Hdm. fold (position i). rewrite index_tabulate by done. cbn [obind ensures].
  by rewrite decide_True by done.
Qed.

(** One target, whose part is at slot [j]. *)
Section write.
Context (keep : nat → bool) (start total len offset stop : nat) (W : nat → list u16).
Context (HW : lanes_good len W) (H1 : start ≤ offset) (H2 : offset ≤ stop) (H3 : stop ≤ total) (H4 : stop - offset ≤ len).
Context (H5 : (32 | offset)) (H6 : (32 | stop - offset)) (H7 : (32 | start)).
#[local] Abbreviation recovered16 := (recovered (F:=lch16) 2 (store16 TABLES16 scratch) inverse_log16 d K v keep start W offset stop).

Lemma recovered_keeps_length i output : length output = (total - start) * 2 → length (recovered16 i output) = length output.
Proof.
  intros Ho. unfold recovered. destruct (keep i); [done|].
  destruct (store_part (F:=lch16) skew_value16 factor16 (dit2_16 TABLES16) (idit2_16 TABLES16) (dit4_16 TABLES16)
    add_pair16 2 32 user_elem chunk_of16 (read16 TABLES16 scratch) (store16 TABLES16 scratch) inverse_log16
    d K v start total H7 len offset stop W i output HW H1 H2 H3 H4 H5 H6 Ho) as (x & -> & _ & Hl & _).
  apply length_splice. done.
Qed.

Lemma write_target_ok M P j i : i < d + p → keep i = false → j < M → length (P j) = (total - start) * 2 →
  write_target TABLES16 scratch start offset stop (lanes_emb (2 ^ k) W) j (position i) (inverse_log16 (v (position i)))
    (tabulate M P) = Ok (tabulate M (λ l, if decide (l = j) then recovered16 i (P j) else P l)).
Proof.
  intros Hi Hki Hj Ho. destruct (position_lost present d p K HpK i Hi) as (_ & Hpos & _).
  destruct (store_part (F:=lch16) skew_value16 factor16 (dit2_16 TABLES16) (idit2_16 TABLES16) (dit4_16 TABLES16)
    add_pair16 2 32 user_elem chunk_of16 (read16 TABLES16 scratch) (store16 TABLES16 scratch) inverse_log16
    d K v start total H7 len offset stop W i (P j) HW H1 H2 H3 H4 H5 H6 Ho) as (x & Hx & _).
  unfold write_target, lanes_emb. rewrite index_tabulate by lia. cbn [obind].
  rewrite slice_ok by (rewrite ?(HW (position i)); lia). cbn [obind]. rewrite Nat.sub_0_r, drop_0.
  rewrite index_tabulate by done. cbn [obind]. rewrite slice_ok by lia. cbn [obind].
  replace ((stop - start) * 2 - (offset - start) * 2) with ((stop - offset) * 2) by lia.
  change (@Elem lch16) with u16 in *. rewrite Hx. cbn [obind]. rewrite update_tabulate by done.
  f_equal. apply tabulate_ext. intros l _. case_decide; [|done]. unfold recovered. rewrite Hki.
  change (@Elem lch16) with u16. by rewrite Hx.
Qed.

(** All of a list of slots and shards. *)
Lemma write_targets_ok M P (l : list (nat * nat)) : NoDup (map fst l) →
  Forall (λ '(j, i), j < M ∧ i < d + p ∧ keep i = false ∧ length (P j) = (total - start) * 2) l →
  ∃ P', for_each l (λ '(j, i), write_target TABLES16 scratch start offset stop (lanes_emb (2 ^ k) W) j
      (position i) (inverse_log16 (v (position i)))) (tabulate M P) = Ok (tabulate M P') ∧
    (∀ j i, (j, i) ∈ l → P' j = recovered16 i (P j)) ∧ ∀ j, j ∉ map fst l → P' j = P j.
Proof.
  revert P. induction l as [|[j i] l IH]; intros P Hnd Hl; cbn [for_each].
  - exists P. split_and!; [done| |done]. intros j i H. by apply elem_of_nil in H.
  - cbn [map fst] in Hnd. apply NoDup_cons in Hnd as [Hj Hnd]. apply Forall_cons in Hl as [(HjM & Hi & Hki & Ho) Hl].
    rewrite (write_target_ok M P j i) by done. cbn [obind].
    destruct (IH (λ l, if decide (l = j) then recovered16 i (P j) else P l) Hnd) as (P' & Hrun & Hin & Hout).
    { eapply Forall_impl; [exact Hl|]. intros [j' i'] (? & ? & ? & ?). split_and!; [done..|]. case_decide as Hjj; [|done].
      subst j'. by rewrite recovered_keeps_length. }
    exists P'. split_and!; [done| |].
    + intros j' i' [[= -> ->]|H]%elem_of_cons.
      * rewrite Hout by done. by rewrite decide_True.
      * rewrite (Hin j' i' H). rewrite decide_False; [done|]. intros ->. apply Hj.
        apply list_elem_of_fmap. by exists (j, i').
    + intros j' Hj'. cbn [map fst] in Hj'. apply not_elem_of_cons in Hj' as [Hne Hj'].
      rewrite Hout by done. by rewrite decide_False.
Qed.
End write.
End targets.
