(* ===== verification/LeoDecoder16.v ===== *)
(** * Correctness of the Leopard GF(2^16) decoder

    Plans of the cache are plans for the losses of their key ([plan16_fits]), whether the locator
    was summed directly or transformed, and work space of a thread does not change
    results ([with_decode_buffers_ok]).  A run of chunks restores a window of every wanted
    shard ([window_restored]).  The serial form is one window into the outputs
    ([serial_chunks_ok]); the parallel form cuts the shards into groups of chunks
    ([split_jobs_ok]), each job restores its window into views of the outputs
    ([run_job_ok]), and the views together are the shards ([join_jobs_ok]).  Both forms restore
    every lost shard that has an output ([leopard16_decoder_correct]). *)

From Stdlib Require Import NArith Lia List Bool.
From stdpp Require Import base numbers list.
From S2P Require Import Prelude Errors Bytes Fields LinAlg Options InversionCache Parallel Lch LeoStages LeoWalsh LeoPlan LeoDit LeoCode.
From S2P Require Import LeoChunk LeoFlat LeoLocator LeoDecode LeoRestore LeoPlanCache LeoDecoder LeoTables16 LeoLch16 LeoSkew16 LeoOps16 LeoGroup16 LeoEncode16 LeoFused16.
From S2P Require Import LeoDecode16 LeoLocator16 LeoRestore16.

#[local] Opaque WORK_SIZE16 ORDER16 MODULUS16.

(** ** Shapes *)
Abbreviation decode_shape16 := (decode_shape 16).
Abbreviation decode_driver16 := (decode_driver WORK_SIZE16).
(** Shards whose element columns are words of the code. *)
Abbreviation words_ok16 := (words_ok (F:=lch16) pt16 user_elem).

Lemma usize_16 : (N.of_nat (2 ^ 16) <= USIZE_MAX)%N.
Proof. rewrite Nat2N.inj_pow. by vm_compute. Qed.

Lemma build_decode_driver16_ok d p n : decode_shape16 d p → n ≠ 0 → n mod 64 = 0 →
  build_leopard_gf16_decode_driver d p n = Ok (decode_driver16 d p n).
Proof.
  intros Hsh Hn H64. unfold build_leopard_gf16_decode_driver.
  apply (build_decode_driver_ok 16 d p Hsh); [done|done| |apply ORDER16_pow|apply usize_16].
  rewrite Nat.add_1_r, <- order_succ. apply ORDER16_pow.
Qed.

(** ** The input count *)
Lemma rposition_snoc l b : rposition (l ++ [b]) = if b then Some (length l) else rposition l.
Proof.
  induction l as [|x l IH]; [by destruct b|]. cbn [app rposition length]. rewrite IH. by destruct b.
Qed.

Lemma input_count16_ok driver present d p : dec_data_shards driver = d → dec_m driver = 2 ^ KO p →
  input_count16 driver present = input_count d p present.
Proof.
  intros Hd Hm. unfold input_count16, input_count. rewrite Hd, Hm. generalize (take d present). intros l.
  induction l as [|b l IH] using rev_ind; [done|].
  rewrite imap_app, foldl_app, IH, rposition_snoc. cbn. rewrite Nat.add_0_r. by destruct b.
Qed.

(** ** Plans *)

(** A plan fits the losses. *)
Definition plan16_fits (d p : nat) (present : list bool) (plan : LeopardGf16DecodePlan) : Prop := ∃ v ic,
  plan = mk_decode_plan16 (tabulate (2 ^ KO p + d) v) ic (ifft_plan slog16 0 (NO d p) ic)
    (fft_plan slog16 (NO d p) (2 ^ KO p + d)) ∧
  locates (F:=lch16) pt16 (lost present d p (KO p)) (2 ^ KO p + d) (2 ^ KO p + d) (λ i, factor16 (v i)) ∧
  covers_input d p present ic.

Lemma build_decode_plan_ok d p n present : decode_shape16 d p → length present = d + p →
  ∃ plan, build_decode_plan (decode_driver16 d p n) present (missing_parity_list present d p)
      (missing_data_list present d) TABLES16 = Ok plan ∧ plan16_fits d p present plan.
Proof.
  intros Hsh Hpl. destruct (decode_shape_orders 16 d p Hsh) as (HpK & Hk & Hfit). pose proof Hsh as (_ & _ & _ & Hf).
  pose proof (input_count_ok d p present HpK) as Hic. pose proof Hic as (_ & Hle & _).
  unfold build_decode_plan. set (driver := decode_driver16 d p n).
  set (m := if _ && _ then _ else _).
  assert (∃ v, m = Ok (tabulate (2 ^ KO p + d) v) ∧ locates (F:=lch16) pt16 (lost present d p (KO p))
    (2 ^ KO p + d) (2 ^ KO p + d) (λ i, factor16 (v i))) as (v & -> & Hv).
  { unfold m. destruct (_ && _) eqn:Hsparse.
    - apply andb_true_iff in Hsparse as [_ Hterms%Nat.leb_le].
      apply (sparse_locs_ok present d p (KO p) driver); try done.
      change (dec_m driver) with (2 ^ KO p) in Hterms. change (dec_parity_shards driver) with p in Hterms.
      change SPARSE_LOCATOR_MAX_TERMS with 16 in Hterms. rewrite length_erased by done. clear - Hterms. lia.
    - destruct (compute_error_locs16_ok present d p (KO p) driver eq_refl eq_refl eq_refl eq_refl HpK Hf Hpl) as (v & -> & Hv).
      cbn [obind]. exists v. split.
      + change (dec_work_size driver) with (2 ^ KO p + d). pose proof Hf as Hf'. rewrite <- ORDER16_pow in Hf'.
        rewrite slice_ok by (rewrite ?length_tabulate; lia). rewrite drop_0, Nat.sub_0_r. f_equal.
        apply list_ext_lt; [rewrite length_take, !length_tabulate; lia|].
        intros i Hi. rewrite length_take, length_tabulate in Hi. rewrite lookup_take_lt by lia.
        by rewrite !lookup_tabulate by lia.
      + apply (locates_below (F:=lch16) pt16 _ (2 ^ 16)); try done. intros i. by apply lost_end. }
  cbn [obind]. rewrite (input_count16_ok driver present d p eq_refl eq_refl).
  change (dec_n driver) with (2 ^ NO d p). change (dec_work_size driver) with (2 ^ KO p + d).
  unfold build_ifft_decode_dit16_plan, build_fft_dit16_plan.
  rewrite (build_ifft_decode_plan_ok 16 (fft_skew16 TABLES16) slog16) by (done || lia). cbn [obind].
  rewrite (build_fft_plan_ok 16 (fft_skew16 TABLES16) slog16) by (done || lia). cbn [obind].
  eexists. split; [done|]. by exists v, (input_count d p present).
Qed.

(** The plans of the cache. *)
Definition good_plan16 (key : DecodePlanKey) (plan : LeopardGf16DecodePlan) : Prop :=
  let '(d, p, present) := key in plan16_fits d p present plan.

Section plans.
Context {DM : DecodeMachine16} {L : LruCache DecodePlanKey (LeopardGf16DecodePlan * N)} {LL : LruLaws L}.

(** Other callers keep the plan cache sound. *)
Definition plans_shared_ok (cache : PlanCache16) (others : PlanCache16 → PlanCache16) : Prop :=
  plan_cache_ok good_plan16 cache ∧ ∀ c, plan_cache_ok good_plan16 c → plan_max c = plan_max cache →
    plan_cache_ok good_plan16 (others c) ∧ plan_max (others c) = plan_max cache.

Lemma decode_plan_for_ok d p n present cache others : decode_shape16 d p → length present = d + p →
  plans_shared_ok cache others →
  ∃ plan cache', decode_plan_for cache others (decode_driver16 d p n) present (missing_parity_list present d p)
      (missing_data_list present d) TABLES16 = Ok (plan, cache') ∧
    plan16_fits d p present plan ∧ plan_cache_ok good_plan16 cache' ∧ plan_max cache' = plan_max cache.
Proof.
  intros Hsh Hpl [Hok Hothers]. destruct (build_decode_plan_ok d p n present Hsh Hpl) as (plan & Hb & Hfits).
  unfold decode_plan_for.
  pose proof (plan_cache_for_ok (E:=Error) good_plan16 plan_bytes16 key_bytes16 cache others (d, p, present) _ plan
    Hok Hothers Hb Hfits) as H.
  apply ensures_noerr in H as ([plan' cache'] & Hrun & H1 & H2 & H3).
  exists plan', cache'. split_and!; [exact Hrun|exact H3|exact H1|exact H2].
Qed.
End plans.

(** ** Work space *)
Definition buffers16_ok (cache : option DecodeBuffers16) : Prop := ∀ buffers, cache = Some buffers →
  ∃ lanes lane_len, lanes_fit16 (lanes, lane_len) (dec_work16 buffers).

Lemma no_buffers_ok : buffers16_ok None.
Proof. by intros buffers. Qed.

Lemma with_decode_buffers_ok {DM : DecodeMachine16} {R} (P : R → Prop) cache lanes cap operation :
  buffers16_ok cache →
  (∀ buffers, lanes_fit16 (lanes, cap) (dec_work16 buffers) →
     ensures (operation buffers) (λ '(r, buffers'), P r ∧ lanes_fit16 (lanes, cap) (dec_work16 buffers')) (λ _, False)) →
  ensures (with_decode_buffers cache lanes cap operation) (λ '(r, cache'), P r ∧ buffers16_ok cache') (λ _, False).
Proof.
  intros Hc Hop. unfold with_decode_buffers.
  assert (lanes_fit16 (lanes, cap) (dec_work16 (decode_buffers16_new lanes cap))) as Hnew by apply flat16_new_fit.
  set (start := if cacheable_decode_size lanes cap then _ else _).
  assert (lanes_fit16 (lanes, cap) (dec_work16 start.1) ∧ buffers16_ok start.2) as [Hb Hrest].
  { unfold start. destruct (cacheable_decode_size lanes cap); cbn [fst snd]; [|done]. split; [|apply no_buffers_ok].
    destruct cache as [b|]; [|done]. destruct (can_reuse16 _ _ _) eqn:Hr; [|done].
    destruct (Hc b eq_refl) as (l & n & Hf). unfold can_reuse16 in Hr.
    apply andb_true_iff in Hr as [H1%Nat.eqb_eq H2%Nat.eqb_eq]. destruct Hf as (F1 & F2 & F3 & F4).
    cbn [fst snd] in *. assert (l = lanes) as -> by congruence. assert (n = cap) as -> by congruence. by split_and!. }
  destruct start as [buffers cache1]. cbn [fst snd] in *.
  eapply ensures_bind; [by apply Hop|]. intros [r buffers'] [Hr Hb']. cbn [ensures]. split; [done|].
  destruct (_ && _); [|done]. intros b [= <-]. by exists lanes, cap.
Qed.

#[local] Opaque WORK_SIZE16 ORDER16 MODULUS16.

Lemma chunk16_pos : 0 < WORK_SIZE16.
Proof. rewrite work_size16_blocks. pose proof (pow2_pos 10). lia. Qed.

Lemma chunk16_divide : Nat.divide 32 WORK_SIZE16.
Proof. exists (2 ^ 10). apply work_size16_blocks. Qed.

Lemma imap_pair_map {A B} (f : A → B) (l : list A) :
  imap pair (map f l) = map (λ '(k, x), (k, f x)) (imap pair l).
Proof.
  apply list_eq. intros k. rewrite lookup_map, !list_lookup_imap, lookup_map. by destruct (l !! k).
Qed.

Lemma imap_pair_fst {A} (l : list A) : map fst (imap pair l) = seq 0 (length l).
Proof.
  apply list_eq. intros k. rewrite lookup_map, list_lookup_imap. destruct (l !! k) as [x|] eqn:Hx; symmetry.
  - apply lookup_seq. split; [done|]. by eapply lookup_lt_Some.
  - apply lookup_seq_ge. by apply lookup_ge_None_1.
Qed.

Lemma imap_pair_in {A} (l : list A) k x : (k, x) ∈ imap pair l ↔ l !! k = Some x.
Proof.
  rewrite list_elem_of_lookup. setoid_rewrite list_lookup_imap. split.
  - intros (j & Hj). destruct (l !! j) eqn:Hl; [|done]. injection Hj as <- <-. done.
  - intros Hk. exists k. by rewrite Hk.
Qed.

(** ** One window *)
Section decode.
Context (d p nb : nat) (present : list bool) (shards : list (list byte)) (input_data : list (option (list byte))).
Context (Hsh : decode_shape16 d p) (Hnb : nb ≠ 0).
Context (Hpresent : length present = d + p) (Hcount : d ≤ count_present present).
Context (Hlen : length shards = d + p) (Hshards : Forall (λ shard, length shard = nb * 64) shards).
Context (Hinput : ∀ i shard, present !! i = Some true → shards !! i = Some shard →
  input_data !! i = Some (Some shard)).
Context (Hwords : words_ok16 d p (KO p) (NO d p) (nb * 32) shards).
Context (plan : LeopardGf16DecodePlan) (v : nat → u16) (ic : nat).
Context (Hplan : plan = mk_decode_plan16 (tabulate (2 ^ KO p + d) v) ic (ifft_plan slog16 0 (NO d p) ic)
  (fft_plan slog16 (NO d p) (2 ^ KO p + d))).
Context (Hv : locates (F:=lch16) pt16 (lost present d p (KO p)) (2 ^ KO p + d) (2 ^ KO p + d) (λ i, factor16 (v i))).
Context (Hic : covers_input d p present ic).
Context (outputs : list (list byte)) (Hol : length outputs = d + p) (Hok : Forall (output_ok (nb * 64)) outputs).
#[local] Abbreviation driver := (decode_driver16 d p (nb * 64)).
#[local] Abbreviation shard := (LeoRestore.shard shards).
#[local] Abbreviation emb := (lanes_emb (2 ^ NO d p)).

Definition out_at (i : nat) : list byte := default [] (outputs !! i).
#[local] Abbreviation keep := (λ i, kept present i (out_at i)).
#[local] Abbreviation sel := (wanted_shards present d p out_at).
#[local] Abbreviation missing := (map (target_of d (KO p) v) sel).

Lemma outputs_tabulate : outputs = tabulate (d + p) out_at.
Proof.
  clear - Hol. apply eq_tabulate; [done|]. intros i Hi. unfold out_at.
  by destruct (lookup_lt_is_Some_2 outputs i ltac:(lia)) as [x ->].
Qed.

Lemma out_length i : keep i = false → length (out_at i) = nb * 64.
Proof.
  apply kept_ok. unfold out_at. destruct (outputs !! i) eqn:Ho; [|by left]. by apply (Forall_lookup_1 _ _ _ _ Hok Ho).
Qed.

Lemma sel_spec i : i ∈ sel ↔ i < d + p ∧ keep i = false.
Proof. unfold wanted_shards. rewrite list_elem_of_filter, elem_of_seq. intuition lia. Qed.

Lemma sel_lookup j i : sel !! j = Some i → j < length sel ∧ i < d + p ∧ keep i = false.
Proof. intros Hj. split; [by eapply lookup_lt_Some|]. by apply sel_spec, list_elem_of_lookup_2 with j. Qed.

Lemma shard_len i : i < d + p → shards !! i = Some (shard i) ∧ length (shard i) = nb * 64.
Proof.
  intros Hi. destruct (shard_lookup 2 d p (nb * 32) shards Hlen) with (i := i) as [H1 H2]; [|done|].
  - eapply Forall_impl; [exact Hshards|]. intros x Hx. cbv beta in *. lia.
  - split; [done|]. lia.
Qed.

Section window.
Context (scratch : list u16) (start total len : nat) (Hst : start ≤ total) (Htn : total ≤ nb * 32).
Context (Hus : Nat.divide 32 start) (Hut : Nat.divide 32 total).
Implicit Types (P : nat → list byte) (W L : nat → list u16).

(** The wanted shards have room for the window. *)
Definition roomy P : Prop := ∀ i, i < d + p → keep i = false → length (P i) = (total - start) * 2.

#[local] Abbreviation recovered16 := (recovered (F:=lch16) 2 (store16 TABLES16 scratch) inverse_log16 d (KO p) v keep start).

Lemma window_restored {Out} (embO : (nat → list byte) → Out)
    (recover : nat → nat → list (list u16) → Out → outcome Error Out) fuel L P :
  (∀ offset stop W P, lanes_good len W → roomy P → start ≤ offset → offset < stop → stop ≤ total →
     stop - offset ≤ len → Nat.divide 32 offset → Nat.divide 32 (stop - offset) →
     recover offset stop (emb W) (embO P) = Ok (embO (λ i, recovered16 W offset stop i (P i)))) →
  total - start < fuel → Nat.min (total - start) WORK_SIZE16 ≤ len → lanes_good len L → roomy P →
  ∃ L' P', decode_chunks (compute_reconstruct_chunk present input_data driver TABLES16 plan scratch) recover
      fuel WORK_SIZE16 start total (emb L) (embO P) = Ok (emb L', embO P') ∧ lanes_good len L' ∧
    ∀ i, i < d + p → P' i = if keep i then P i else take ((total - start) * 2) (drop (start * 2) (shard i)).
Proof.
  intros Hrec Hfuel Hcap HL HP. destruct (decode_shape_orders 16 d p Hsh) as (HpK & Hk & Hfit).
  destruct Hic as (Hic0 & HicN & Hrest).
  assert (Forall (λ x : list byte, length x = nb * 32 * 2) shards) as Hshards2.
  { eapply Forall_impl; [exact Hshards|]. intros x Hx. cbv beta in *. lia. }
  destruct (chunks_restored (F:=lch16) 16 pt16 slog16 skew_value16 factor16 (dit2_16 TABLES16) (idit2_16 TABLES16)
    (dit4_16 TABLES16) add_pair16 2 32 user_elem chunk_of16 (read16 TABLES16 scratch) (store16 TABLES16 scratch) inverse_log16
    present d p (KO p) (NO d p) (nb * 32) shards input_data driver
    HpK Hk Hfit Hpresent Hcount eq_refl eq_refl eq_refl eq_refl eq_refl Hlen Hshards2 Hinput Hwords v
    (tabulate (2 ^ KO p + d) v) (λ j Hj, lookup_tabulate _ v j Hj) Hv ic Hic0 (Nat.le_trans _ _ _ HicN Hfit) Hrest
    keep ltac:(intros i Hi; unfold kept; by rewrite (proj1 (Is_true_true _) Hi)) start total Hst Htn Hus Hut
    embO recover len P) with (chunk_size := WORK_SIZE16) (fuel := fuel) (offset := start) (L := L) (O := P)
    as (L' & P' & Hrun & HL' & HP'); [|exact chunk16_pos|exact chunk16_divide|done|apply le_n|done|done|done|done| |].
  { intros offset stop W Q HW HQ. apply Hrec; [done|]. intros i Hi Hki. specialize (HQ i Hi). cbv beta in HQ.
    rewrite Hki in HQ. apply HQ. }
  { by apply (restored_start (F:=lch16) 2 user_elem). }
  exists L', P'. split_and!; [|done|].
  - rewrite Hplan. exact Hrun.
  - intros i Hi. specialize (HP' i Hi). cbv beta in HP'. destruct (kept present i (out_at i)); [done|].
    destruct HP' as [Hl He]. destruct (shard_len i Hi) as [_ Hsl]. destruct Hus as [a ->], Hut as [b ->].
    apply (user_elem_ext (b - a)); [lia|len|]. intros e Hlt. rewrite He by lia.
    replace ((b * 32 - a * 32) * 2) with ((b - a) * 64) by lia. replace (a * 32 * 2) with (a * 64) by lia.
    by rewrite user_elem_slice.
Qed.
End window.

(** ** What a chunk writes *)
Section writes.
Context (scratch : list u16) (start total len offset stop : nat) (W : nat → list u16) (P : nat → list byte).
Context (HW : lanes_good len W) (HP : roomy start total P).
Context (H1 : start ≤ offset) (H2 : offset < stop) (H3 : stop ≤ total) (H4 : stop - offset ≤ len).
Context (H5 : Nat.divide 32 offset) (H6 : Nat.divide 32 (stop - offset)) (H7 : Nat.divide 32 start).
#[local] Abbreviation recovered16 := (recovered (F:=lch16) 2 (store16 TABLES16 scratch) inverse_log16 d (KO p) v keep start W offset stop).

(** Into the outputs themselves. *)
Lemma serial_writes :
  for_each missing (λ '(shard_idx, work_idx, inv_err),
    write_target TABLES16 scratch start offset stop (emb W) shard_idx work_idx inv_err) (tabulate (d + p) P)
  = Ok (tabulate (d + p) (λ i, recovered16 i (P i))).
Proof.
  destruct (decode_shape_orders 16 d p Hsh) as (HpK & _ & Hfit).
  destruct (write_targets_ok present d p (KO p) (NO d p) driver v scratch Hpresent HpK Hfit eq_refl eq_refl eq_refl
    keep start total len offset stop W HW H1 (Nat.lt_le_incl _ _ H2) H3 H4 H5 H6 H7 (d + p) P (map (λ i, (i, i)) sel))
    as (P' & Hrun & Hin & Hout).
  - rewrite map_map. cbn [fst]. rewrite map_id. apply NoDup_filter, NoDup_seq.
  - apply Forall_map, Forall_forall. intros i [Hi Hki]%sel_spec. split_and!; [done|done|done|by apply HP].
  - rewrite for_each_map. rewrite for_each_map in Hrun. etrans; [exact Hrun|]. f_equal. apply tabulate_ext. intros i Hi.
    destruct (decide (i ∈ sel)) as [Hs|Hs].
    + apply Hin. apply list_elem_of_fmap. by exists i.
    + rewrite Hout by (by rewrite map_map; cbn [fst]; rewrite map_id).
      unfold recovered. destruct (kept present i (out_at i)) eqn:Hki; [done|]. exfalso. apply Hs, sel_spec. done.
Qed.

(** Into the views of a job. *)
Lemma group_writes :
  for_each (imap pair missing) (λ '(k, (_, work_idx, inv_err)),
    write_target TABLES16 scratch start offset stop (emb W) k work_idx inv_err) (map P sel)
  = Ok (map (λ i, recovered16 i (P i)) sel).
Proof.
  destruct (decode_shape_orders 16 d p Hsh) as (HpK & _ & Hfit).
  set (at_slot k := default 0 (sel !! k)).
  assert (∀ Q : nat → list byte, map Q sel = tabulate (length sel) (λ k, Q (at_slot k))) as Hmap.
  { intros Q. apply eq_tabulate; [apply length_map|]. intros k Hk.
    destruct (lookup_lt_is_Some_2 sel k Hk) as [i Hi]. unfold at_slot. by rewrite lookup_map, Hi. }
  destruct (write_targets_ok present d p (KO p) (NO d p) driver v scratch Hpresent HpK Hfit eq_refl eq_refl eq_refl
    keep start total len offset stop W HW H1 (Nat.lt_le_incl _ _ H2) H3 H4 H5 H6 H7 (length sel)
    (λ k, P (at_slot k)) (imap pair sel)) as (P' & Hrun & Hin & _).
  - rewrite imap_pair_fst. apply NoDup_seq.
  - apply Forall_forall. intros [k i] Hi%imap_pair_in.
    destruct (sel_lookup k i Hi) as (Hk & Hi' & Hki). unfold at_slot. rewrite Hi. split_and!; [done|done|done|by apply HP].
  - rewrite imap_pair_map, for_each_map, !Hmap. etrans; [etrans; [|exact Hrun]|].
    + apply for_each_ext_in. by intros [k i] s _.
    + f_equal. apply tabulate_ext. intros k Hk. destruct (lookup_lt_is_Some_2 sel k Hk) as [i Hi].
      rewrite (Hin k i) by (by apply imap_pair_in). unfold at_slot. by rewrite Hi.
Qed.
End writes.

(** ** One chunk after the other *)
#[local] Abbreviation cap := (Nat.min (nb * 32) WORK_SIZE16).

Lemma filled_wanted : filled present shards outputs = tabulate (d + p) (λ i, if keep i then out_at i else shard i).
Proof. unfold filled. by rewrite Hol. Qed.

Lemma left_buffers_fit flat len L scratch : lanes_fit16 (2 ^ NO d p, cap) flat → lanes_good cap L →
  lanes_fit16 (2 ^ NO d p, cap) (dec_work16 (left_buffers driver (mk_decode_buffers16 flat scratch) len (emb L))).
Proof.
  intros (F1 & F2 & _) HL. unfold lanes_fit16, left_buffers.
  cbn [dec_work16 work_lanes16 work_lane_len16 work_data16 fst snd] in *.
  split_and!; [done|done|apply length_tabulate|by apply lanes_forall].
Qed.

Lemma work_lanes_of flat : lanes_fit16 (2 ^ NO d p, cap) flat → ∃ L, work_data16 flat = emb L ∧ lanes_good cap L.
Proof. intros (_ & _ & F3 & F4). by apply (lanes_of u16_0). Qed.

Lemma serial_chunks_ok buffers : lanes_fit16 (2 ^ NO d p, cap) (dec_work16 buffers) →
  ensures (serial_chunks present input_data driver TABLES16 plan missing (nb * 32) outputs buffers)
    (λ '(outs, buffers'), outs = filled present shards outputs ∧ lanes_fit16 (2 ^ NO d p, cap) (dec_work16 buffers'))
    (λ _, False).
Proof.
  destruct buffers as [flat scratch]. cbn [dec_work16]. intros Hfit.
  destruct (work_lanes_of flat Hfit) as (L & HL & HLg).
  unfold serial_chunks. cbn [dec_work16 dec_scratch16]. rewrite HL, outputs_tabulate.
  change (dec_chunk_size driver) with WORK_SIZE16.
  destruct (window_restored scratch 0 (nb * 32) cap ltac:(lia) ltac:(lia) ltac:(apply Nat.divide_0_r) ltac:(by exists nb)
    (tabulate (d + p)) (λ offset stop work, for_each missing (λ '(shard_idx, work_idx, inv_err),
         write_target TABLES16 scratch 0 offset stop work shard_idx work_idx inv_err)) (S (nb * 32)) L out_at)
    as (L' & P' & Hrun & HL' & HP').
  - intros offset stop W P HW HP H1 H2 H3 H4 H5 H6.
    by apply (serial_writes scratch 0 (nb * 32) cap); [..|apply Nat.divide_0_r].
  - rewrite Nat.sub_0_r. apply Nat.lt_succ_diag_r.
  - by rewrite Nat.sub_0_r.
  - done.
  - intros i _ Hki. rewrite out_length by done. lia.
  - rewrite Hrun. cbn [obind ensures]. split; [|by apply left_buffers_fit].
    rewrite <- outputs_tabulate, filled_wanted. apply tabulate_ext. intros i Hi. rewrite HP' by done.
    destruct (kept present i (out_at i)) eqn:Hki; [done|]. destruct (shard_len i Hi) as [_ Hsl].
    rewrite Nat.sub_0_r, drop_0, take_ge by lia. done.
Qed.

(** ** Jobs *)
Section jobs.
Context {DM : DecodeMachine16}.

Lemma run_job_ok cache start stop P : buffers16_ok cache → start ≤ stop → stop ≤ nb * 32 →
  Nat.divide 32 start → Nat.divide 32 stop → roomy start stop P →
  ensures (run_job present input_data driver TABLES16 plan missing cap cache (start, stop, map P sel))
    (λ '(views, cache'), views = map (λ i, take ((stop - start) * 2) (drop (start * 2) (shard i))) sel ∧
       buffers16_ok cache') (λ _, False).
Proof.
  intros Hc H1 H2 H3 H4 HP. unfold run_job. change (dec_n driver) with (2 ^ NO d p).
  apply (with_decode_buffers_ok (λ views, views = map (λ i, take ((stop - start) * 2) (drop (start * 2) (shard i))) sel));
    [done|]. intros [flat scratch]. cbn [dec_work16]. intros Hfit.
  destruct (work_lanes_of flat Hfit) as (L & HL & HLg). cbn [dec_work16 dec_scratch16]. rewrite HL.
  change (dec_chunk_size driver) with WORK_SIZE16.
  destruct (window_restored scratch start stop cap H1 H2 H3 H4 (λ P, map P sel)
    (λ offset stop work, for_each (imap pair missing) (λ '(k, (_, work_idx, inv_err)),
       write_target TABLES16 scratch start offset stop work k work_idx inv_err)) (S (stop - start)) L P)
    as (L' & P' & Hrun & HL' & HP').
  - intros offset stop' W Q HW HQ A1 A2 A3 A4 A5 A6. by apply (group_writes scratch start stop cap).
  - apply Nat.lt_succ_diag_r.
  - lia.
  - done.
  - done.
  - rewrite Hrun. cbn [obind ensures]. split; [|by apply left_buffers_fit].
    apply map_ext_in. intros i Hi%list_elem_of_In%sel_spec. rewrite HP' by apply Hi. by rewrite (proj2 Hi).
Qed.

(** *** Cutting the shards *)
Section groups.
Context (gk : nat) (Hgk : 0 < gk).

(** The part of a shard that belongs to job [j], in bytes. *)
Definition part (j : nat) (l : list byte) : list byte := take (gk * 64) (drop (j * (gk * 64)) l).
Definition job_at (j : nat) : Job :=
  (Nat.min (j * gk) nb * 32, Nat.min (S j * gk) nb * 32, map (λ i, part j (out_at i)) sel).

Lemma group_views_ok j : j * gk < nb →
  group_views (gk * 64) j (map out_at sel) = Ok (map (λ i, part j (out_at i)) sel).
Proof.
  intros Hj. unfold group_views.
  assert (∀ l, (∀ i, i ∈ l → keep i = false) → map_outcome (λ out : list byte,
    if j * (gk * 64) <? length out then Ok (E:=Error) (take (gk * 64) (drop (j * (gk * 64)) out)) else Panic)
    (map out_at l) = Ok (map (λ i, part j (out_at i)) l)) as H.
  2:{ apply H. intros i Hi. by apply sel_spec. }
  induction l as [|i l IH]; intros Hl; [done|]. cbn [map map_outcome]. rewrite out_length by (apply Hl; left).
  rewrite (proj2 (Nat.ltb_lt _ _)) by lia. cbn [obind]. rewrite IH; [done|]. intros i' Hi'. apply Hl. by right.
Qed.

Lemma split_jobs_ok fuel : ∀ j, nb * 64 - Nat.min (j * gk) nb * 64 < fuel →
  ∃ c, split_jobs driver fuel (gk * 64) j (Nat.min (j * gk) nb * 64) (map out_at sel) = Ok (map job_at (seq j c)) ∧
    (∀ i, i < j + c → j ≤ i → i * gk < nb) ∧ nb ≤ (j + c) * gk.
Proof.
  induction fuel as [|fuel IH]; intros j Hf; [lia|]. cbn [split_jobs]. change (dec_shard_size driver) with (nb * 64).
  destruct (Nat.ltb_spec (Nat.min (j * gk) nb * 64) (nb * 64)) as [Hlt|Hge].
  - assert (j * gk < nb) as Hj by lia.
    replace (Nat.min (Nat.min (j * gk) nb * 64 + gk * 64) (nb * 64)) with (Nat.min (S j * gk) nb * 64) by lia.
    rewrite group_views_ok by done. cbn [obind].
    destruct (IH (S j) ltac:(lia)) as (c & -> & Hc & Hn). cbn [obind]. exists (S c). split_and!.
    + cbn [seq map]. unfold job_at at 2.
      assert (∀ x, x * 64 / 2 = x * 32) as Hhalf.
      { intros x. replace (x * 64) with (x * 32 * 2) by lia. by apply Nat.div_mul. }
      by rewrite !Hhalf.
    + intros i Hi Hji. destruct (decide (i = j)) as [->|]; [done|]. apply Hc; lia.
    + by replace (j + S c) with (S j + c) by lia.
  - exists 0. split_and!; [done|lia|]. rewrite Nat.add_0_r. lia.
Qed.

(** *** Joining the parts *)
Lemma parts_concat c (l : list byte) : length l = nb * 64 → nb ≤ c * gk →
  List.concat (map (λ j, part j l) (seq 0 c)) = l.
Proof.
  intros Hl Hc.
  assert (∀ m, List.concat (map (λ j, part j l) (seq 0 m)) = take (m * (gk * 64)) l) as H.
  2:{ rewrite H, take_ge; [done|]. nia. }
  clear Hc. induction m as [|m IH]; [done|]. rewrite seq_S, map_app, List.concat_app, IH. cbn [map List.concat Nat.add].
  rewrite app_nil_r. unfold part. rewrite take_take_drop. f_equal. lia.
Qed.

Lemma join_jobs_ok c : nb ≤ c * gk →
  join_jobs missing (map (λ j, map (λ i, part j (shard i)) sel) (seq 0 c)) outputs = Ok (filled present shards outputs).
Proof.
  intros Hc. unfold join_jobs. rewrite imap_pair_map, for_each_map.
  rewrite (for_each_ext_in _ _ (λ x outs, update outs x.2 (shard x.2))).
  2:{ intros [k i] s Hi%imap_pair_in. cbn [target_of fst snd]. f_equal.
      rewrite map_map. rewrite <- (parts_concat c (shard i)); [|apply shard_len; by apply (sel_lookup k)|done].
      f_equal. apply map_ext. intros j. by rewrite lookup_map, Hi. }
  rewrite outputs_tabulate at 1.
  assert (∀ (l : list (nat * nat)) P, Forall (λ x, x.2 < d + p) l →
    for_each l (λ x outs, update outs x.2 (shard x.2)) (tabulate (d + p) P)
    = Ok (E:=Error) (tabulate (d + p) (λ i, if decide (i ∈ map snd l) then shard i else P i))) as Hrun.
  { induction l as [|[k i] l IH]; intros P Hl; cbn [for_each]; [done|]. apply Forall_cons in Hl as [Hi Hl].
    cbn [snd] in *. rewrite update_tabulate by done. cbn [obind]. rewrite IH by done. f_equal. apply tabulate_ext.
    intros i' _. cbn [map snd]. pose proof (elem_of_cons (map snd l) i' i).
    repeat case_decide; subst; try done; exfalso; tauto. }
  assert (map snd (imap pair sel) = sel) as Hsnd.
  { apply list_eq. intros k. rewrite lookup_map, list_lookup_imap. by destruct (sel !! k). }
  rewrite Hrun.
  - rewrite filled_wanted, Hsnd. f_equal. apply tabulate_ext. intros i Hi. pose proof (sel_spec i) as Hs. cbv beta in Hs.
    case_decide as Hin; [by apply Hs in Hin as [_ ->]|].
    destruct (kept present i (out_at i)); [done|]. exfalso. by apply Hin, Hs.
  - apply Forall_forall. intros [k i] Hi%imap_pair_in. by apply (sel_lookup k).
Qed.

(** *** The jobs *)
Lemma job_views_ok caches j : buffers16_ok (caches j) → j * gk < nb →
  ensures (run_job present input_data driver TABLES16 plan missing cap (caches j) (job_at j))
    (λ '(views, cache'), views = map (λ i, part j (shard i)) sel ∧ buffers16_ok cache') (λ _, False).
Proof.
  intros Hc Hj. unfold job_at. set (lo := j * gk) in *. change (S j * gk) with (gk + lo).
  eapply ensures_mono; [apply (run_job_ok _ _ _ (λ i, part j (out_at i)) Hc)| |done].
  - lia.
  - lia.
  - by exists (Nat.min lo nb).
  - by exists (Nat.min (gk + lo) nb).
  - intros i Hi Hki. unfold part. rewrite Nat.mul_assoc. fold lo. rewrite length_take, length_drop, out_length by done. lia.
  - intros [views cache'] [-> Hc']. split; [|done]. apply map_ext_in. intros i Hi%list_elem_of_In%sel_spec.
    destruct (shard_len i (proj1 Hi)) as [_ Hsl]. unfold part. rewrite Nat.mul_assoc. fold lo.
    replace (Nat.min lo nb * 32 * 2) with (lo * 64) by lia.
    destruct (Nat.le_ge_cases (gk + lo) nb).
    + f_equal. lia.
    + rewrite !take_ge by len. done.
Qed.
End groups.

Lemma views_of_jobs {A B C} (f : nat → A) (Q : C → Prop) (l : list (nat * B)) (results : list (A * C)) :
  Forall2 (λ '(j, _) '(views, c), views = f j ∧ Q c) l results →
  map fst results = map f (map fst l) ∧ Forall Q (map snd results).
Proof.
  induction 1 as [|[j b] [views c] l results [-> Hc] _ [IH1 IH2]]; [done|]. cbn [map fst snd]. split; [by f_equal|].
  by constructor.
Qed.

Lemma reconstruct_chunks_parallel_ok caches max_parallel_jobs : (∀ j, buffers16_ok (caches j)) →
  ensures (reconstruct_chunks_parallel present input_data driver TABLES16 plan missing (nb * 32) cap caches
      max_parallel_jobs outputs)
    (λ '(outs, buffers), outs = filled present shards outputs ∧ Forall buffers16_ok buffers) (λ _, False).
Proof.
  intros Hc. unfold reconstruct_chunks_parallel. change (dec_chunk_size driver) with WORK_SIZE16.
  set (g := group_chunks _ _).
  assert (0 < g) as Hg by (unfold g, group_chunks; lia).
  replace (g * (WORK_SIZE16 * 2)) with (g * 2 ^ 10 * 64) by (rewrite work_size16_blocks; lia).
  assert (0 < g * 2 ^ 10) as Hgk by (pose proof (pow2_pos 10); nia). revert Hgk. generalize (g * 2 ^ 10). clear g Hg.
  intros gk Hgk.
  assert (map_outcome (λ '(shard_idx, _, _), index (E:=Error) outputs shard_idx) missing = Ok (map out_at sel)) as ->.
  { rewrite (map_outcome_all _ (λ x : RecoveryTarget, out_at x.1.1)); [by rewrite map_map|].
    intros [[i w] e] Hi. apply list_elem_of_fmap in Hi as (i' & [= -> -> ->] & Hi%sel_spec).
    rewrite outputs_tabulate at 1. by rewrite index_tabulate by apply Hi. }
  cbn [obind]. change (dec_shard_size driver) with (nb * 64).
  destruct (split_jobs_ok gk Hgk (S (nb * 64)) 0) as (c & Hrun & Hjobs & Hn); [lia|].
  change (Nat.min (0 * gk) nb * 64) with 0 in Hrun. rewrite Hrun. cbn [obind].
  eapply (ensures_bind_safe _ _ (λ results, map fst results = map (λ j, map (λ i, part gk j (shard i)) sel) (seq 0 c) ∧
    Forall buffers16_ok (map snd results))).
  - eapply ensures_mono; [apply (map_outcome_ensures _ _ (λ '(j, _) '(views, cache'),
      views = map (λ i, part gk j (shard i)) sel ∧ buffers16_ok cache') (λ _, False))| |done].
    + intros [j job] Hj%imap_pair_in. rewrite lookup_map in Hj. destruct (seq 0 c !! j) as [j'|] eqn:Hjs; [|done].
      apply lookup_seq in Hjs as [-> Hjc]. injection Hj as <-.
      apply (job_views_ok gk Hgk caches j (Hc j)). apply Hjobs; lia.
    + intros results [H1 H2]%views_of_jobs. split; [|done]. by rewrite H1, imap_pair_fst, length_map, length_seq.
  - intros results [-> Hb]. rewrite (join_jobs_ok gk Hgk c) by done. by split.
Qed.
End jobs.
End decode.

(** ** The decoder *)
Lemma missing_shards_ok lo hi present : lo ≤ hi → hi ≤ length present →
  missing_shards lo hi present = Ok (filter (λ i, ¬ here present i) (seq lo (hi - lo))).
Proof.
  intros Hlh Hh. apply (ensures_exact (E:=Error)). unfold missing_shards.
  apply (for_range_post _ _ _ (λ i missing, missing = filter (λ i, ¬ here present i) (seq lo (i - lo))));
    [done|by rewrite Nat.sub_diag| |done].
  intros i missing Hi ->. rewrite index_present by lia. cbn [obind ensures].
  replace (1 + i - lo) with (S (i - lo)) by lia. rewrite seq_S, filter_app, filter_cons, filter_nil.
  replace (lo + (i - lo)) with i by lia. destruct (here present i);
    [rewrite decide_False by (intros Hf; by apply Hf); by rewrite app_nil_r|].
  by rewrite decide_True by (by intros []).
Qed.

Section top.
Context {DM : DecodeMachine16} {L : LruCache DecodePlanKey (LeopardGf16DecodePlan * N)} {LL : LruLaws L}.
Context (d p n : nat) (present : list bool) (shards : list (list byte)) (input_data : list (option (list byte))).
Context (Hsh : decode_shape16 d p) (Hn : n ≠ 0) (H64 : n mod 64 = 0).
Context (Hpresent : length present = d + p) (Hcount : d ≤ count_present present).
Context (Hlen : length shards = d + p) (Hshards : Forall (λ shard, length shard = n) shards).
Context (Hinput : ∀ i shard, present !! i = Some true → shards !! i = Some shard →
  input_data !! i = Some (Some shard)) (Hil : length input_data = d + p).
Context (Hwords : words_ok16 d p (KO p) (NO d p) (n / 2) shards).
Context (outputs : list (list byte)) (Hol : length outputs = d + p) (Hok : Forall (output_ok n) outputs).

(** What others keep: plans for their keys, work space of a consistent size. *)
Definition shared16_ok (shared : DecodeShared16) : Prop :=
  plans_shared_ok (shared_plans shared) (other_callers shared) ∧ ∀ j, buffers16_ok (thread_buffers shared j).

Lemma missing_total : length (missing_parity_list present d p) + length (missing_data_list present d)
  = length (filter (λ i, ¬ here present i) (seq 0 (d + p))).
Proof.
  clear. unfold missing_parity_list, missing_data_list. rewrite seq_app, filter_app, length_app, Nat.add_0_l. lia.
Qed.

Lemma none_missing : filter (λ i, ¬ here present i) (seq 0 (d + p)) = [] → forallb id present = true.
Proof.
  clear - Hpresent. intros Hf. apply forallb_forall. intros b Hb%list_elem_of_In%list_elem_of_lookup. destruct Hb as [i Hi].
  pose proof (lookup_lt_Some _ _ _ Hi) as Hlt. destruct b; [done|]. exfalso.
  assert (i ∈ filter (λ i, ¬ here present i) (seq 0 (d + p))) as Hin.
  { apply list_elem_of_filter. split; [|apply elem_of_seq; lia]. unfold here. rewrite Hi. by intros []. }
  rewrite Hf in Hin. by apply elem_of_nil in Hin.
Qed.

Lemma decode_with_tables16_ok shared max_parallel_jobs : shared16_ok shared →
  ∃ plans' buffers', decode_with_tables16 shared TABLES16 present outputs input_data d p max_parallel_jobs
      = Ok (filled present shards outputs, plans', buffers') ∧
    plan_cache_ok good_plan16 plans' ∧ plan_max plans' = plan_max (shared_plans shared) ∧ Forall buffers16_ok buffers'.
Proof.
  intros [Hplans Hbufs]. pose proof Hplans as [Hplans0 _].
  destruct (decode_shape_orders 16 d p Hsh) as (HpK & _ & _).
  apply Nat.Div0.mod_divides in H64 as Hnb. destruct Hnb as [nb Hnb]. rewrite Nat.mul_comm in Hnb. subst n.
  assert (nb ≠ 0) as Hnb by lia. clear Hn. assert (nb * 64 / 2 = nb * 32) as Hhalf.
  { replace (nb * 64) with (nb * 32 * 2) by lia. by apply Nat.div_mul. }
  rewrite Hhalf in Hwords. unfold decode_with_tables16.
  rewrite (validate_ok present d p (nb * 64) shards input_data ltac:(lia) H64 Hpresent Hcount Hlen Hshards Hinput Hil 16)
    by (done || apply usize_16). cbn [obind].
  destruct (forallb id present || forallb (λ output, length output =? 0) outputs) eqn:Hnone.
  { exists (shared_plans shared), []. rewrite filled_nothing by (done || lia). split_and!; [done..|constructor]. }
  rewrite build_decode_driver16_ok by (done || lia). cbn [obind].
  rewrite missing_shards_ok by lia. cbn [obind]. rewrite missing_shards_ok by lia. cbn [obind].
  replace (d + p - d) with p by lia. rewrite Nat.sub_0_r.
  fold (missing_parity_list present d p) (missing_data_list present d). rewrite missing_total.
  pose proof (count_absent present d p (KO p) HpK Hpresent Hcount) as Habs.
  rewrite (proj2 (Nat.ltb_ge _ _)) by done.
  destruct (Nat.eqb_spec (length (filter (λ i, ¬ here present i) (seq 0 (d + p)))) 0) as [H0%nil_length_inv%none_missing|_];
    [by rewrite H0 in Hnone|].
  destruct (decode_plan_for_ok d p (nb * 64) present (shared_plans shared) (other_callers shared) Hsh Hpresent Hplans)
    as (plan & plans' & -> & (v & ic & Hplan & Hv & Hic) & Hp1 & Hp2). cbn [obind].
  rewrite Hhalf. change (dec_chunk_size (decode_driver16 d p (nb * 64))) with WORK_SIZE16.
  assert (recovery_targets present (decode_driver16 d p (nb * 64)) plan outputs
    = Ok (map (target_of d (KO p) v) (wanted_shards present d p (out_at outputs)))) as ->.
  { rewrite (outputs_tabulate d p outputs Hol) at 1. destruct (decode_shape_orders 16 d p Hsh) as (_ & _ & Hfit).
    apply (recovery_targets_ok present d p (KO p) (NO d p)); try done. by rewrite Hplan. }
  cbn [obind]. destruct (negb (max_parallel_jobs =? 1) && (2 <=? nat_div_ceil (nb * 32) WORK_SIZE16)).
  - pose proof (reconstruct_chunks_parallel_ok d p nb present shards input_data Hsh Hnb Hpresent Hcount Hlen Hshards Hinput
      Hwords plan v ic Hplan Hv Hic outputs Hol Hok (thread_buffers shared) max_parallel_jobs Hbufs) as Hrun.
    apply ensures_noerr in Hrun as ([outs bufs] & -> & -> & Hb). cbn [obind]. by exists plans', bufs.
  - pose proof (with_decode_buffers_ok (λ outs, outs = filled present shards outputs) (thread_buffers shared 0)
      (2 ^ NO d p) (Nat.min (nb * 32) WORK_SIZE16) _ (Hbufs 0)
      (serial_chunks_ok d p nb present shards input_data Hsh Hnb Hpresent Hcount Hlen Hshards Hinput
      Hwords plan v ic Hplan Hv Hic outputs Hol Hok)) as Hrun.
    apply ensures_noerr in Hrun as ([outs buf] & Hrun & -> & Hb).
    change (dec_n (decode_driver16 d p (nb * 64))) with (2 ^ NO d p). rewrite Hrun. cbn [obind].
    exists plans', [buf]. split_and!; [done..|]. by repeat constructor.
Qed.
End top.

(** C9: from any [d] shards of a code word of the GF(2^16) code
    the decoder fills every lost shard that has an output with exactly the shard, leaves the other
    outputs alone, and returns without error and without panic: for few erasures and for many, on
    one thread or with any number of parallel jobs, whatever sound plans the shared cache
    holds, whatever other callers do to it in between, and whatever work space the threads kept;
    the caches stay sound. *)
Theorem leopard16_decoder_correct {DM : DecodeMachine16} {L : LruCache DecodePlanKey (LeopardGf16DecodePlan * N)}
    {LL : LruLaws L} d p n present shards input_data outputs shared max_parallel_jobs
    (Hsh : decode_shape16 d p) (Hn : n ≠ 0) (H64 : n mod 64 = 0)
    (Hpresent : length present = d + p) (Hcount : d ≤ count_present present)
    (Hlen : length shards = d + p) (Hshards : Forall (λ shard, length shard = n) shards)
    (Hinput : ∀ i shard, present !! i = Some true → shards !! i = Some shard →
      input_data !! i = Some (Some shard)) (Hil : length input_data = d + p)
    (Hwords : words_ok16 d p (KO p) (NO d p) (n / 2) shards)
    (Hol : length outputs = d + p) (Hok : Forall (output_ok n) outputs) (Hshared : shared16_ok shared) :
  ∃ plans' buffers', decode_with_tables16 shared TABLES16 present outputs input_data d p max_parallel_jobs
      = Ok (filled present shards outputs, plans', buffers') ∧
    plan_cache_ok good_plan16 plans' ∧ plan_max plans' = plan_max (shared_plans shared) ∧ Forall buffers16_ok buffers'.
Proof. by apply (decode_with_tables16_ok d p n). Qed.
