(* ===== verification/LeoEngine16.v ===== *)
(** * The Leopard GF(2^16) engine behind the codec

    The engine as the adapters call it ([leopard_gf16_encode] of [src/core/leopard.rs],
    [leopard_gf16_reconstruct] of the same file) is an engine in the sense
    of [LeoEngine], for any contents of the caches, any number of parallel jobs, and whatever the
    other family runs. *)

From Stdlib Require Import NArith Lia List Bool.
From stdpp Require Import base numbers list.
From S2P Require Import Prelude Errors Bytes Fields Gf8 Options LinAlg Matrix Leopard InversionCache Parallel Checks Codec.
From S2P Require Import Coding Encode Verify Shards DecodeMatrix RecoveryPlan Execute LeopardReconstruct Reconstruct Gf8Opt.
From S2P Require Import Lch LeoStages LeoPlan LeoDit LeoCode LeoGroup LeoChunk LeoFlat LeoLocator LeoDecode LeoRestore LeoPlanCache LeoDecoder LeoEngine.
From S2P Require Import LeoTables16 LeoLch16 LeoSkew16 LeoOps16 LeoGroup16 LeoEncode16 LeoFused16 LeoDecode16 LeoLocator16 LeoRestore16 LeoDecoder16.

#[local] Opaque WORK_SIZE16 ORDER16 MODULUS16.

(** ** The decoder keeps the lengths of the views *)
Lemma store16_keeps scratch src view log x : store16 TABLES16 scratch src view log = Ok x → length x = length view.
Proof.
  unfold store16. destruct (conversion_scratch_ok scratch (length src)) as (sc & -> & Hsc). cbn [obind].
  destruct (fused_lengths view src sc) eqn:Hf; [|unfold work_mul_to_user; by rewrite Hf].
  unfold fused_lengths in Hf. apply andb_true_iff in Hf as [[Hv%Nat.eqb_eq H64%Nat.eqb_eq]%andb_true_iff _].
  apply Nat.Div0.mod_divides in H64 as [nb Hnb].
  destruct (work_mul_to_user_ok (E:=Error) nb src view sc log) as (y & -> & Hy & _); [lia..|].
  intros [= <-]. lia.
Qed.

Lemma write_target_keeps scratch start offset stop work i w e outputs0 outputs outputs' : same_views outputs0 outputs →
  write_target TABLES16 scratch start offset stop work i w e outputs = Ok outputs' → same_views outputs0 outputs'.
Proof.
  intros Hs. unfold write_target.
  destruct (index work w) as [lane| |]; cbn [obind]; [|done..].
  destruct (slice lane 0 _) as [src| |]; cbn [obind]; [|done..].
  destruct (index outputs i) as [output| |] eqn:Ho; cbn [obind]; [|done..].
  destruct (slice output _ _) as [view| |] eqn:Hv; cbn [obind]; [|done..].
  destruct (store16 _ _ _ _ _) as [x| |] eqn:Hx; cbn [obind]; [|done..].
  apply index_inv in Ho. apply slice_inv in Hv as (H1 & H2 & H3). apply store16_keeps in Hx.
  apply (update_view_keeps _ _ _ output); [done|done|]. apply length_splice. rewrite Hx, H3. lia.
Qed.

Section keeps.
Context (present : list bool) (input_data : list (option (list byte))) (driver : LeopardGf16DecodeDriver)
  (plan : LeopardGf16DecodePlan) (missing : list RecoveryTarget).

Lemma serial_chunks_keep n outputs buffers outs buffers' :
  serial_chunks present input_data driver TABLES16 plan missing n outputs buffers = Ok (outs, buffers') →
  same_views outputs outs.
Proof.
  unfold serial_chunks. destruct (decode_chunks _ _ _ _ _ _ _ _) as [[w o]| |] eqn:Hc; cbn [obind]; [|done..].
  intros [= <- _]. eapply (decode_chunks_keep _ _ outputs); [|done|exact Hc].
  intros offset stop work o1 o2 Hs Hloop. apply (for_each_keeps (same_views outputs)) in Hloop; [done| |done].
  intros [[i wi] e] s s'. apply write_target_keeps.
Qed.

Lemma buffers_result {DM : DecodeMachine16} {R} cache lanes len operation (r : R) cache' :
  with_decode_buffers cache lanes len operation = Ok (r, cache') → ∃ b b', operation b = Ok (r, b').
Proof.
  unfold with_decode_buffers.
  destruct (if cacheable_decode_size lanes len then _ else _) as [b c].
  destruct (operation b) as [[r' b']| |] eqn:Hr; cbn [obind]; [|done..]. intros [= -> _]. by exists b, b'.
Qed.

Section jobs.
Context {DM : DecodeMachine16}.

Lemma run_job_keeps cap cache start stop views views' cache' :
  run_job present input_data driver TABLES16 plan missing cap cache (start, stop, views) = Ok (views', cache') →
  same_views views views'.
Proof.
  unfold run_job. intros (b & b' & Hrun)%buffers_result.
  destruct (decode_chunks _ _ _ _ _ _ _ _) as [[w o]| |] eqn:Hc; cbn [obind] in Hrun; [|done..].
  injection Hrun as <- _. eapply (decode_chunks_keep _ _ views); [|done|exact Hc].
  intros offset stop' work o1 o2 Hs Hloop. apply (for_each_keeps (same_views views)) in Hloop; [done| |done].
  intros [k [[i wi] e]] s s'. apply write_target_keeps.
Qed.

Lemma map_outcome_inv {E A B} (f : A → outcome E B) l results : map_outcome f l = Ok results →
  Forall2 (λ x r, f x = Ok r) l results.
Proof.
  revert results. induction l as [|x l IH]; intros results; cbn [map_outcome]; [by intros [= <-]|].
  destruct (f x) as [y| |] eqn:Hx; cbn [obind]; [|done..].
  destruct (map_outcome f l) as [ys| |]; cbn [obind]; [|done..]. intros [= <-]. constructor; auto.
Qed.

(** The views of the jobs cover the targets. *)
Lemma group_views_inv gb k (targets views : list (list byte)) : group_views gb k targets = Ok views →
  views = map (λ out, take gb (drop (k * gb) out)) targets.
Proof.
  intros H%map_outcome_inv. induction H as [|out view targets views Hv _ IH]; [done|]. cbn [map]. f_equal; [|done].
  destruct (_ <? _); [|done]. by injection Hv as <-.
Qed.

Definition view_length (t : nat) (views : list (list byte)) : nat := length (default [] (views !! t)).

Lemma split_jobs_lengths gb (targets : list (list byte)) : 0 < gb →
  Forall (λ out, length out = dec_shard_size driver) targets → ∀ fuel k jobs,
  split_jobs driver fuel gb k (Nat.min (k * gb) (dec_shard_size driver)) targets = Ok jobs → ∀ t, t < length targets →
  list_sum (map (λ job : Job, view_length t job.2) jobs) = dec_shard_size driver - Nat.min (k * gb) (dec_shard_size driver).
Proof.
  intros Hgb Ht. set (n := dec_shard_size driver) in *.
  induction fuel as [|fuel IH]; intros k jobs; cbn [split_jobs]; [done|]. fold n.
  destruct (Nat.ltb_spec (Nat.min (k * gb) n) n) as [Hlt|Hge].
  2:{ intros [= <-] t _. cbn. lia. }
  destruct (group_views gb k targets) as [views| |] eqn:Hv; cbn [obind]; [|done..]. apply group_views_inv in Hv as ->.
  replace (Nat.min (Nat.min (k * gb) n + gb) n) with (Nat.min (S k * gb) n) by lia.
  destruct (split_jobs driver fuel gb (S k) _ targets) as [jobs'| |] eqn:Hrest; cbn [obind]; [|done..].
  intros [= <-] t Htl. cbn [map list_sum foldr]. specialize (IH (S k) jobs' Hrest t Htl).
  unfold list_sum in IH. rewrite IH. cbn [snd]. unfold view_length. rewrite lookup_map.
  destruct (lookup_lt_is_Some_2 targets t Htl) as [out Hout]. rewrite Hout. cbn [fmap option_fmap option_map default from_option id].
  pose proof (Forall_lookup_1 _ _ _ _ Ht Hout) as Hlo. cbv beta in Hlo. fold n in Hlo.
  rewrite length_take, length_drop, Hlo. lia.
Qed.

Lemma same_view_length views views' t : same_views views views' → view_length t views' = view_length t views.
Proof.
  intros Hs. unfold view_length. pose proof (f_equal (λ l, l !! t) Hs) as Ht. cbv beta in Ht. rewrite !lookup_map in Ht.
  destruct (views' !! t), (views !! t); cbn in *; try done. by injection Ht.
Qed.

Lemma parallel_keeps n cap caches max_jobs outputs outs buffers : 0 < dec_chunk_size driver →
  Forall (λ '(i, _, _), ∃ o, outputs !! i = Some o ∧ length o = dec_shard_size driver) missing →
  reconstruct_chunks_parallel present input_data driver TABLES16 plan missing n cap caches max_jobs outputs
    = Ok (outs, buffers) → same_views outputs outs.
Proof.
  intros Hcs Hm. unfold reconstruct_chunks_parallel.
  set (gb := group_chunks _ _ * _). assert (0 < gb) as Hgb by (unfold gb, group_chunks; nia).
  match goal with |- context [map_outcome ?f missing] => destruct (map_outcome f missing) as [targets| |] eqn:Ht end;
    cbn [obind]; [|done..]. apply map_outcome_inv in Ht.
  destruct (split_jobs _ _ gb 0 0 targets) as [jobs| |] eqn:Hj; cbn [obind]; [|done..].
  match goal with |- context [map_outcome ?f (imap pair jobs)] =>
    destruct (map_outcome f (imap pair jobs)) as [results| |] eqn:Hr end; cbn [obind]; [|done..].
  apply map_outcome_inv in Hr.
  destruct (join_jobs missing (map fst results) outputs) as [o| |] eqn:Hjoin; cbn [obind]; [|done..].
  intros [= <- _]. unfold join_jobs in Hjoin. apply (for_each_keeps_in (same_views outputs)) in Hjoin; [done| |done].
  assert (Forall (λ out, length out = dec_shard_size driver) targets) as Htl.
  { clear - Ht Hm. induction Ht as [|[[i w] e] out missing targets Hi _ IH]; [done|].
    apply Forall_cons in Hm as [(o' & Ho' & Hlo) Hm]. apply index_inv in Hi. constructor; [congruence|by apply IH]. }
  pose proof (split_jobs_lengths gb targets Hgb Htl _ 0 jobs Hj) as Hsum.
  intros [k [[i w] e]] s s' Hk%imap_pair_in Hs. pose proof (lookup_lt_Some _ _ _ Hk) as Hkl.
  specialize (Hsum k (eq_ind _ (λ l, k < l) Hkl _ (Forall2_length _ _ _ Ht))).
  pose proof (Forall_lookup_1 _ _ _ _ Hm Hk) as (out & Hout & Hlo).
  assert (∃ x, s !! i = Some x ∧ length x = dec_shard_size driver) as (x & Hx & Hlx).
  { pose proof (f_equal (λ l, l !! i) Hs) as Hsi. cbv beta in Hsi. rewrite !lookup_map, Hout in Hsi.
    destruct (s !! i) as [x|]; [|done]. exists x. split; [done|]. injection Hsi as Hsi. congruence. }
  apply (update_view_keeps _ _ _ x); [done|done|]. rewrite length_concat, !map_map, Hlx.
  etrans; [etrans; [|exact Hsum]|lia].
  assert (∀ m (jobs : list Job) results, Forall2 (λ '(j, job) r, run_job present input_data driver TABLES16 plan missing cap (caches j) job = Ok r)
    (imap (λ j job, (m + j, job)) jobs) results →
    list_sum (map (λ r, length (default [] (r.1 !! k))) results) = list_sum (map (λ job : Job, view_length k job.2) jobs)) as Hall.
  2:{ apply (Hall 0). eapply Forall2_impl; [exact Hr|]. by intros [j job] r. }
  clear. intros m jobs. revert m. induction jobs as [|[[start stop] views] jobs IH]; intros m results Hf.
  - inversion Hf. done.
  - cbn [imap] in Hf. inversion Hf as [|? [views' c'] ? results' Hrun Hrest]; subst. cbn [map list_sum foldr].
    apply run_job_keeps in Hrun. unfold list_sum in IH. f_equal; [by apply (same_view_length views views' k)|].
    apply (IH (S m)). erewrite imap_ext; [exact Hrest|]. intros j job _. cbn. f_equal. lia.
Qed.
End jobs.
End keeps.

(** ** What the validation tells *)
Lemma validated_outputs present outputs input_data d p n :
  validate_leopard_decode_buffers present outputs input_data d p = Ok n → Forall (output_ok n) outputs.
Proof.
  unfold validate_leopard_decode_buffers. repeat (destruct (_ : bool); [done|]).
  match goal with |- context [obind ?m _] => destruct m as [[sz cnt]| |] end; cbn [obind]; [|done..].
  destruct (cnt <? d); [done|]. destruct sz as [sz|]; cbn [obind ok_or]; [|done].
  destruct (existsb _ outputs) eqn:He; [done|]. intros [= <-]. apply Forall_forall. intros o Ho.
  destruct (Nat.eqb_spec (length o) 0) as [H0%nil_length_inv|H0]; [by left|].
  destruct (Nat.eqb_spec (length o) sz) as [H1|H1]; [by right|]. exfalso.
  assert (existsb (λ output : list byte, negb (length output =? 0) && negb (length output =? sz)) outputs = true) as Ht.
  { apply existsb_exists. exists o. split; [by apply list_elem_of_In|].
    by rewrite (proj2 (Nat.eqb_neq _ _) H0), (proj2 (Nat.eqb_neq _ _) H1). }
  by rewrite He in Ht.
Qed.

Lemma targets_with_outputs present driver plan outputs missing n : Forall (output_ok n) outputs →
  recovery_targets present driver plan outputs = Ok missing →
  Forall (λ '(i, _, _), ∃ o, outputs !! i = Some o ∧ length o = n) missing.
Proof.
  intros Hok. unfold recovery_targets, for_range.
  apply (for_each_keeps (Forall (λ '(i, _, _), ∃ o, outputs !! i = Some o ∧ length o = n))); [|constructor].
  intros i targets targets' Ht. destruct (index present i) as [b| |]; cbn [obind]; [|done..].
  destruct b; [by intros [= <-]|]. destruct (index outputs i) as [o| |] eqn:Ho; cbn [obind]; [|done..].
  destruct (Nat.eqb_spec (length o) 0) as [|H0]; [by intros [= <-]|].
  destruct (index _ (work_index driver i)) as [e| |]; cbn [obind]; [|done..]. intros [= <-].
  apply Forall_app. split; [done|]. apply index_inv in Ho. repeat constructor. exists o. split; [done|].
  destruct (Forall_lookup_1 _ _ _ _ Hok Ho) as [->|]; done.
Qed.

(** ** The engine *)
Section engine.
Context {PS : PlanSizes16} {DM : DecodeMachine16} {L : LruCache DecodePlanKey (LeopardGf16DecodePlan * N)} {LL : LruLaws L}.
Context (encode_caches : EncodeCaches16) (shared : DecodeShared16).

(** [leopard_gf16_encode] of [leopard.rs] *)
Definition engine_encode16 (data_shards parity_shards : nat) (data parity : list (list byte))
  : outcome Error (list (list byte)) :=
  let! ' (_, _, parity) := encode_with_tables16 TABLES16 encode_caches data_shards parity_shards data parity in
  Ok parity.

(** [leopard_gf16_reconstruct] of [leopard.rs] *)
Definition engine_reconstruct16 (max_parallel_jobs : N) : decode_fn := λ present outputs input_data data_shards parity_shards,
  let! ' (outputs, _, _) := decode_with_tables16 shared TABLES16 present outputs input_data
    data_shards parity_shards (N.to_nat max_parallel_jobs) in
  Ok outputs.

Lemma built_driver d p n driver : build_leopard_gf16_decode_driver d p n = Ok driver →
  dec_shard_size driver = n ∧ dec_chunk_size driver = WORK_SIZE16.
Proof.
  unfold build_leopard_gf16_decode_driver, build_decode_driver.
  repeat (destruct (_ : bool); [done|]). by intros [= <-].
Qed.

Lemma engine16_keeps jobs : keeps_views (engine_reconstruct16 jobs).
Proof.
  intros present outputs inputs d p outs. unfold engine_reconstruct16.
  destruct (decode_with_tables16 _ _ _ _ _ _ _ _) as [[[outs' pl] bufs]| |] eqn:Hd; cbn [obind]; [|done..].
  intros [= ->]. unfold decode_with_tables16 in Hd.
  destruct (validate_leopard_decode_buffers _ _ _ _ _) as [n| |] eqn:Hval; cbn [obind] in Hd; [|done..].
  apply validated_outputs in Hval.
  destruct (_ || _); [by injection Hd as <- _ _|].
  destruct (build_leopard_gf16_decode_driver d p n) as [driver| |] eqn:Hdrv; cbn [obind] in Hd; [|done..].
  apply built_driver in Hdrv as [Hsz Hcs].
  destruct (missing_shards d (d + p) present) as [mp| |]; cbn [obind] in Hd; [|done..].
  destruct (missing_shards 0 d present) as [md| |]; cbn [obind] in Hd; [|done..].
  destruct (p <? _); [done|]. destruct (_ =? 0); [by injection Hd as <- _ _|].
  destruct (decode_plan_for _ _ _ _ _ _ _) as [[plan plans]| |]; cbn [obind] in Hd; [|done..].
  destruct (recovery_targets present driver plan outputs) as [missing| |] eqn:Hm; cbn [obind] in Hd; [|done..].
  apply (targets_with_outputs _ _ _ _ _ n Hval) in Hm. destruct (_ && _).
  - destruct (reconstruct_chunks_parallel _ _ _ _ _ _ _ _ _ _ _) as [[o b]| |] eqn:Hp; cbn [obind] in Hd; [|done..].
    injection Hd as <- _ _. apply (parallel_keeps _ _ _ _ _ _ _ _ _ _ _ _ ltac:(rewrite Hcs; apply chunk16_pos)) in Hp; [done|].
    by rewrite Hsz.
  - destruct (with_decode_buffers _ _ _ _) as [[o b]| |] eqn:Hp; cbn [obind] in Hd; [|done..].
    injection Hd as <- _ _. apply buffers_result in Hp as (b1 & b2 & Hp). by apply serial_chunks_keep in Hp.
Qed.

(** *** In its place *)
Context (Hec : caches_ok16 encode_caches) (Hshared : shared16_ok shared).
Context (gf8_encode : nat → nat → list (list byte) → list (list byte) → outcome Error (list (list byte)))
  (gf8_reconstruct : decode_fn).

Definition engine16_encoders : LeopardEncoders := {|
  leopard_gf8_encode := gf8_encode;
  leopard_gf16_encode := engine_encode16;
|}.
Definition engine16_decoders : LeopardDecoders := {|
  reconstruct_with_tables := gf8_reconstruct;
  leopard_gf16_reconstruct := engine_reconstruct16;
|}.

(** The element columns are words of the code. *)
Definition element_words (d p n : nat) (shards : list (list byte)) : Prop :=
  words_ok16 d p (KO p) (NO d p) (n / 2) shards.

Lemma element_words_parts d p n data parity : length data = d →
  element_words d p n (data ++ parity) ↔
  ∀ e, e < n / 2 → leopard_word (F:=lch16) pt16 (NO d p) (KO p) d p (user_column data e) (user_column parity e).
Proof.
  intros <-. unfold element_words, words_ok, shard, user_column.
  split; intros H e He; (eapply (leopard_word_ext (F:=lch16)); [| |by apply H]); intros i Hi; cbv beta.
  - by rewrite lookup_app_l by done.
  - rewrite lookup_app_r by lia. do 3 f_equal. lia.
  - by rewrite lookup_app_l by done.
  - rewrite lookup_app_r by lia. do 3 f_equal. lia.
Qed.

Lemma engine_encode16_ok d p n data parity : family_fits LeopardGF16 d p → n mod 64 = 0 → sep_layout (F:=gf8) d p n data parity →
  ∃ parity', engine_encode16 d p data parity = Ok parity' ∧ length parity' = p ∧ all_len n parity' ∧
    element_words d p n (data ++ parity').
Proof.
  intros Hsh%fits_shape16 H64 (Hd & Hp & Hn & Ha & Ha').
  destruct (encode_with_tables16_ok encode_caches d p n data parity) as (c' & parity' & Hrun & _ & Hl & Ha'' & Hw);
    try done; [lia|]. exists parity'. unfold engine_encode16. rewrite Hrun. cbn [obind].
  split_and!; [done|done|done|]. by apply element_words_parts.
Qed.

(** The data shards determine the others. *)
Lemma element_parity_unique d p n data parity parity' : family_fits LeopardGF16 d p → n mod 64 = 0 → length data = d →
  length parity = p → length parity' = p → all_len n parity → all_len n parity' →
  element_words d p n (data ++ parity) → element_words d p n (data ++ parity') → parity = parity'.
Proof.
  intros Hsh%fits_shape16 H64 Hd Hp Hp' Ha Ha' Hw Hw'. rewrite element_words_parts in Hw, Hw' by done.
  destruct (decode_shape_orders 16 d p (leopard_shape_decodes 16 d p Hsh)) as (HpK & Hk & Hfit).
  apply Nat.Div0.mod_divides in H64 as [nb Hnb].
  assert (n / 2 = nb * 32) as Hhalf by (rewrite Hnb; replace (64 * nb) with (nb * 32 * 2) by lia; by apply Nat.div_mul).
  apply list_ext_lt; [congruence|]. intros i Hi.
  destruct (lookup_lt_is_Some_2 parity i Hi) as [x Hx], (lookup_lt_is_Some_2 parity' i ltac:(lia)) as [y Hy].
  rewrite Hx, Hy. f_equal. pose proof (Forall_lookup_1 _ _ _ _ Ha Hx) as Hlx. pose proof (Forall_lookup_1 _ _ _ _ Ha' Hy) as Hly.
  cbn beta in Hlx, Hly. apply (user_elem_ext nb); [lia..|]. intros e He. rewrite <- Hhalf in He.
  pose proof (leopard_word_unique (F:=lch16) 16 pt16 (NO d p) (KO p) d p _ _ _ Hk Hfit HpK (Hw e He) (Hw' e He) i ltac:(lia)) as H.
  unfold user_column in H. by rewrite Hx, Hy in H.
Qed.

#[export] Instance engine16_laws :
  LeopardEngine (LE:=engine16_encoders) (LD:=engine16_decoders) LeopardGF16 element_words.
Proof.
  split.
  - done.
  - apply engine_encode16_ok.
  - apply element_parity_unique.
  - apply engine16_keeps.
  - intros jobs d p n present shards input_data outputs Hf%fits_shape16 Hn H64 Hp Hc Hl Ha Hi Hil Hw Hol Hok.
    cbn [decode_of engine16_decoders leopard_gf16_reconstruct]. unfold engine_reconstruct16.
    destruct (decode_with_tables16_ok d p n present shards input_data (leopard_shape_decodes 16 d p Hf) Hn H64 Hp Hc Hl Ha
      Hi Hil Hw outputs Hol Hok shared (N.to_nat jobs) Hshared) as (pl & bufs & Hrun & _). by rewrite Hrun.
Qed.
End engine.
