(* ===== verification/LeoTables8.v ===== *)
(** * Tables of the Leopard GF(2^8) engine
    ([src/core/leopard_gf8/tables.rs], the arithmetic of [ops.rs], constants of [mod.rs])

    The engine works in GF(2^8) written in the coordinates of a Cantor basis.  The
    tables are generated as the code generates them; the theorems: with the
    product that the tables define the bytes are a field [lch8] in which they are the
    points of [Lch], the skew table lists the logarithms of the points that the butterflies
    need, and every cell of the product tables is a product. *)

From Stdlib Require Import NArith ZArith Lia List Bool.
From stdpp Require Import base numbers list.
From S2P Require Import Prelude Bytes Fields Gf8 Lch LeoStages LeoWalsh.

Definition BITWIDTH8 : nat := 8.
Definition ORDER8 : nat := 2 ^ BITWIDTH8.
Definition MODULUS8 : nat := ORDER8 - 1.
Definition POLYNOMIAL8 : N := 285.
Definition WORK_SIZE8 : nat := 32 * 2 ^ 10.
Definition WORK_SIZE8_HIGH_FANOUT : nat := 128 * 2 ^ 10.

Record Mul8Lut := mk_lut {
  lut_value : list byte;
  lut_low : list byte;
  lut_high : list byte;
}.

Record LeopardGf8Tables := mk_tables {
  fft_skew : list byte;
  log_walsh : list byte;
  log_lut : list byte;
  exp_lut : list byte;
  mul_luts : list Mul8Lut;
}.

(** ** Logarithms modulo 255 *)
Definition add_mod8 (a b : byte) : byte :=
  let sum := (u8_to_N a + u8_to_N b)%N in as_u8 (sum + N.shiftr sum 8).

(** The subtraction wraps around at the width of [usize]. *)
Definition sub_mod8 (a b : byte) : byte :=
  let dif := ((u8_to_N a + 2 ^ 64 - u8_to_N b) mod 2 ^ 64)%N in
  as_u8 ((dif + N.shiftr dif 8) mod 2 ^ 64).

Definition mul_log8 (a log_b : byte) (log_lut exp_lut : list byte) : byte :=
  if bool_decide (a = x00) then x00
  else tbl exp_lut (u8_to_nat (add_mod8 (tbl log_lut (u8_to_nat a)) log_b)).

Definition fwht2_alt8 (a b : byte) : byte * byte := (add_mod8 a b, sub_mod8 a b).

Definition fwht8 {E} (data : list byte) : outcome E (list byte) :=
  fwht_loop fwht2_alt8 BITWIDTH8 ORDER8 1 ORDER8 data.

Definition fwht8_mtrunc {E} (data : list byte) (mtrunc : nat) : outcome E (list byte) :=
  fwht_loop fwht2_alt8 BITWIDTH8 ORDER8 1 mtrunc data.

Definition fwht_variable {E} (data : list byte) : outcome E (list byte) :=
  fwht_variable_with fwht2_alt8 data.

(** ** [tables.rs] *)
Definition cantor_basis : list byte :=
  map as_u8 [1; 214; 152; 146; 86; 200; 88; 230]%N.

(** [init_luts8]: the tables of logarithms and of exponentials. *)
Definition init_luts8 : outcome Empty_set (list byte * list byte) :=
  let! ' (exp_lut, _) :=
    for_range 0 MODULUS8 (λ i '(exp_lut, state),
      let! exp_lut := update exp_lut (N.to_nat state) (as_u8 (N.of_nat i)) in
      let state := N.shiftl state 1 in
      Ok (exp_lut, if (N.of_nat ORDER8 <=? state)%N then N.lxor state POLYNOMIAL8 else state))
    (replicate ORDER8 x00, 1%N) in
  let! exp_lut := update exp_lut 0 (as_u8 (N.of_nat MODULUS8)) in
  let! log_lut := update (replicate ORDER8 x00) 0 x00 in
  let! log_lut :=
    for_each (imap pair cantor_basis) (λ '(i, basis) log_lut,
      let width := 2 ^ i in
      for_range 0 width (λ j log_lut,
        let! v := index log_lut j in update log_lut (j + width) (u8_xor v basis)) log_lut)
    log_lut in
  let! log_lut :=
    for_range 0 ORDER8 (λ i log_lut,
      let! v := index log_lut i in update log_lut i (tbl exp_lut (u8_to_nat v))) log_lut in
  let! exp_lut :=
    for_range 0 ORDER8 (λ i exp_lut,
      let! v := index log_lut i in update exp_lut (u8_to_nat v) (as_u8 (N.of_nat i))) exp_lut in
  let! first := index exp_lut 0 in
  let! exp_lut := update exp_lut MODULUS8 first in
  Ok (log_lut, exp_lut).

(** One round of [init_fft_skew8]: the skews of one level, and the next [temp]. *)
Definition skew_round (log_lut exp_lut : list byte) (m : nat) (state : list byte * list byte)
  : outcome Empty_set (list byte * list byte) :=
  let '(temp, fft_skew) := state in
  let step := 2 ^ (m + 1) in
  let! fft_skew := update fft_skew (2 ^ m - 1) x00 in
  let! fft_skew :=
    for_range m (BITWIDTH8 - 1) (λ i fft_skew,
      let s := 2 ^ (i + 1) in
      while_below (2 ^ m - 1) s step (λ j fft_skew,
        let! v := index fft_skew j in
        let! t := index temp i in
        update fft_skew (j + s) (u8_xor v t)) fft_skew) fft_skew in
  let! t := index temp m in
  let gf_prod := mul_log8 t (tbl log_lut (u8_to_nat (u8_xor t x01))) log_lut exp_lut in
  let! temp :=
    update temp m
      (as_u8 (N.of_nat MODULUS8 - u8_to_N (tbl log_lut (u8_to_nat gf_prod)))) in
  let! temp :=
    for_range (m + 1) (BITWIDTH8 - 1) (λ i temp,
      let! t := index temp i in
      let! tm := index temp m in
      let sum := add_mod8 (tbl log_lut (u8_to_nat (u8_xor t x01))) tm in
      update temp i (mul_log8 t sum log_lut exp_lut)) temp in
  Ok (temp, fft_skew).

Definition init_fft_skew8 (log_lut exp_lut : list byte)
  : outcome Empty_set (list byte * list byte) :=
  let! temp :=
    for_range 1 BITWIDTH8 (λ i temp, update temp (i - 1) (as_u8 (2 ^ N.of_nat i)))
      (replicate (BITWIDTH8 - 1) x00) in
  let! ' (_, fft_skew) :=
    for_range 0 (BITWIDTH8 - 1) (skew_round log_lut exp_lut) (temp, replicate MODULUS8 x00) in
  let! fft_skew :=
    for_range 0 MODULUS8 (λ i fft_skew,
      let! v := index fft_skew i in update fft_skew i (tbl log_lut (u8_to_nat v))) fft_skew in
  let! log_walsh :=
    for_range 0 ORDER8 (λ i log_walsh, update log_walsh i (tbl log_lut i))
      (replicate ORDER8 x00) in
  let! log_walsh := update log_walsh 0 x00 in
  let! log_walsh := fwht8 log_walsh in
  Ok (fft_skew, log_walsh).

(** [init_mul8_lut]: products of the nibbles, then of the bytes; [nibble] runs to 4, but
    the later two shifts leave the byte. *)
Definition mul8_nibbles (log_lut exp_lut : list byte) (log_m : nat) : list byte :=
  List.concat (map (λ nibble, map (λ x_nibble,
    mul_log8 (as_u8 (N.shiftl (N.of_nat x_nibble) (4 * N.of_nat nibble))) (as_u8 (N.of_nat log_m))
      log_lut exp_lut) (seq 0 16)) (seq 0 4)).

Definition mul8_lut (log_lut exp_lut : list byte) (log_m : nat) : Mul8Lut :=
  let tmp := mul8_nibbles log_lut exp_lut log_m in
  let value := tabulate 256 (λ i, u8_xor
    (tbl tmp (N.to_nat (N.land (N.of_nat i) 15)))
    (tbl tmp (N.to_nat (N.shiftr (N.of_nat i) 4) + 16))) in
  mk_lut value (take 16 value) (tabulate 16 (λ i, tbl value (i * 16))).

Definition init_mul8_lut (log_lut exp_lut : list byte) : list Mul8Lut :=
  tabulate ORDER8 (mul8_lut log_lut exp_lut).

Definition build_tables8 : outcome Empty_set LeopardGf8Tables :=
  let! ' (log_lut, exp_lut) := init_luts8 in
  let! ' (fft_skew, log_walsh) := init_fft_skew8 log_lut exp_lut in
  Ok (mk_tables fft_skew log_walsh log_lut exp_lut (init_mul8_lut log_lut exp_lut)).

(** ** The tables *)
Definition LOG8 : list byte :=
  Eval vm_compute in match init_luts8 with Ok (l, _) => l | _ => [] end.
Definition EXP8 : list byte :=
  Eval vm_compute in match init_luts8 with Ok (_, e) => e | _ => [] end.
Definition SKEW8 : list byte :=
  Eval vm_compute in match init_fft_skew8 LOG8 EXP8 with Ok (s, _) => s | _ => [] end.
Definition WALSH8 : list byte :=
  Eval vm_compute in match init_fft_skew8 LOG8 EXP8 with Ok (_, w) => w | _ => [] end.

(** The static [TABLES8]. *)
Definition TABLES8 : LeopardGf8Tables :=
  mk_tables SKEW8 WALSH8 LOG8 EXP8 (init_mul8_lut LOG8 EXP8).

Lemma TABLES8_built : build_tables8 = Ok TABLES8.
Proof.
  unfold build_tables8. replace init_luts8 with (Ok (E:=Empty_set) (LOG8, EXP8))
    by (vm_compute; reflexivity).
  cbn [obind]. replace (init_fft_skew8 LOG8 EXP8) with (Ok (E:=Empty_set) (SKEW8, WALSH8))
    by (vm_compute; reflexivity).
  reflexivity.
Qed.

(** ** The field of the tables *)
Definition llog (b : byte) : nat := u8_to_nat (tbl LOG8 (u8_to_nat b)).
Definition lexp (n : nat) : byte := tbl EXP8 (n mod 255).

(** The element of [gf8] with the coordinates [b] in the basis. *)
Definition coord (b : byte) (k : N) (v : byte) : byte :=
  if N.testbit (u8_to_N b) k then v else x00.
Definition phi (b : byte) : byte :=
  fold_right (λ '(k, v), u8_xor (coord b k v)) x00 (imap (λ i v, (N.of_nat i, v)) cantor_basis).

Definition lch_mul (a b : byte) : byte :=
  if bool_decide (b = x00) then x00 else mul_log8 a (tbl LOG8 (u8_to_nat b)) LOG8 EXP8.

Definition check_log8 (b : byte) : bool :=
  bool_decide (b = x00) ||
  ((llog b <? 255) && bool_decide (tbl EXP8 (llog b) = b) && bool_decide (gexp (llog b) = phi b)).

Lemma check_log8_all : forallb check_log8 all_bytes = true.
Proof. vm_compute. reflexivity. Qed.

Definition check_exp8 (n : nat) : bool :=
  (llog (tbl EXP8 n) =? n) && negb (bool_decide (tbl EXP8 n = x00)).

Lemma check_exp8_all : forallb check_exp8 (seq 0 255) = true.
Proof. vm_compute. reflexivity. Qed.

Lemma llog_0 : tbl LOG8 0 = as_u8 255.
Proof. reflexivity. Qed.

Lemma llog_spec b : b ≠ x00 → llog b < 255 ∧ tbl EXP8 (llog b) = b ∧ gexp (llog b) = phi b.
Proof.
  intros Hb. pose proof (byte_forall _ check_log8_all b) as H. unfold check_log8 in H.
  rewrite bool_decide_eq_false_2 in H by done. simpl in H.
  apply andb_prop in H as [[H1 H2]%andb_prop H3].
  apply Nat.ltb_lt in H1. apply bool_decide_eq_true in H2, H3. done.
Qed.

Lemma lexp_spec n : n < 255 → llog (tbl EXP8 n) = n ∧ tbl EXP8 n ≠ x00.
Proof.
  intros Hn. pose proof check_exp8_all as H. rewrite forallb_forall in H.
  assert (In n (seq 0 255)) as Hin by (apply in_seq; lia). specialize (H n Hin). unfold check_exp8 in H.
  apply andb_prop in H as [H1 H2]. apply Nat.eqb_eq in H1. apply negb_true_iff in H2.
  by apply bool_decide_eq_false in H2.
Qed.

Lemma tbl_exp8 n : n ≤ 255 → tbl EXP8 n = lexp n.
Proof.
  intros Hn. unfold lexp. destruct (decide (n = 255)) as [->|]; [reflexivity|].
  by rewrite Nat.mod_small by lia.
Qed.

Lemma add_mod8_spec a b :
  u8_to_nat (add_mod8 a b) ≤ 255 ∧
  (u8_to_nat (add_mod8 a b) mod 255 = (u8_to_nat a + u8_to_nat b) mod 255)%nat.
Proof.
  pose proof (u8_to_N_bound a) as Ha. pose proof (u8_to_N_bound b) as Hb.
  assert (u8_to_nat (add_mod8 a b) = if decide (u8_to_nat a + u8_to_nat b < 256)
    then u8_to_nat a + u8_to_nat b else u8_to_nat a + u8_to_nat b - 255)%nat as Hadd.
  { unfold u8_to_nat, add_mod8. rewrite u8_to_N_as_u8, N.shiftr_div_pow2.
    change (2 ^ 8)%N with 256%N.
    set (x := u8_to_N a) in *. set (y := u8_to_N b) in *. case_decide.
    - rewrite N.div_small, N.mod_small by lia. lia.
    - replace ((x + y) / 256)%N with 1%N
        by (apply (N.div_unique _ _ _ (x + y - 256)); lia).
      replace ((x + y + 1) mod 256)%N with (x + y - 255)%N
        by (apply (N.mod_unique _ _ 1); lia).
      lia. }
  rewrite Hadd. pose proof (u8_to_nat_bound a). pose proof (u8_to_nat_bound b). case_decide.
  - split; [lia|done].
  - split; [lia|]. replace (u8_to_nat a + u8_to_nat b)%nat
      with (u8_to_nat a + u8_to_nat b - 255 + 1 * 255)%nat at 2 by lia.
    by rewrite Nat.Div0.mod_add.
Qed.

Lemma mul_log8_spec a log_b : a ≠ x00 →
  mul_log8 a log_b LOG8 EXP8 = lexp (llog a + u8_to_nat log_b).
Proof.
  intros Ha. unfold mul_log8. rewrite bool_decide_eq_false_2 by done.
  destruct (add_mod8_spec (tbl LOG8 (u8_to_nat a)) log_b) as [H1 H2].
  rewrite tbl_exp8 by done. unfold lexp. by rewrite H2.
Qed.

Lemma lexp_neq_0 n : lexp n ≠ x00.
Proof. apply lexp_spec. apply Nat.mod_upper_bound. lia. Qed.

Lemma llog_lexp n : llog (lexp n) = n mod 255.
Proof. apply lexp_spec. apply Nat.mod_upper_bound. lia. Qed.

Lemma lexp_llog b : b ≠ x00 → lexp (llog b) = b.
Proof. intros Hb. destruct (llog_spec b Hb) as (H1 & H2 & _). by rewrite <- tbl_exp8 by lia. Qed.

Lemma phi_lexp n : phi (lexp n) = gexp n.
Proof.
  destruct (llog_spec (lexp n) (lexp_neq_0 n)) as (_ & _ & <-). by rewrite llog_lexp, gexp_mod.
Qed.

Lemma phi_0 : phi x00 = x00.
Proof. reflexivity. Qed.

Lemma phi_neq_0 b : b ≠ x00 → phi b ≠ x00.
Proof. intros Hb. destruct (llog_spec b Hb) as (_ & _ & <-). apply gexp_nonzero. Qed.

Lemma phi_inj a b : phi a = phi b → a = b.
Proof.
  intros H. destruct (decide (a = x00)) as [->|Ha].
  - destruct (decide (b = x00)) as [->|Hb]; [done|]. by destruct (phi_neq_0 b Hb).
  - destruct (decide (b = x00)) as [->|Hb]; [by destruct (phi_neq_0 a Ha)|].
    destruct (llog_spec a Ha) as (Ha1 & Ha2 & Ha3). destruct (llog_spec b Hb) as (Hb1 & Hb2 & Hb3).
    rewrite <- Ha3, <- Hb3 in H. apply (f_equal glog) in H. rewrite !glog_gexp in H.
    rewrite !Nat.mod_small in H by done. congruence.
Qed.

Lemma coord_xor a b k v : coord (u8_xor a b) k v = u8_xor (coord a k v) (coord b k v).
Proof.
  unfold coord. rewrite u8_to_N_xor, N.lxor_spec.
  destruct (N.testbit _ k), (N.testbit _ k); simpl;
    by rewrite ?u8_xor_self, ?u8_xor_0_r, ?u8_xor_0_l.
Qed.

Lemma phi_xor a b : phi (u8_xor a b) = u8_xor (phi a) (phi b).
Proof.
  unfold phi. induction (imap _ cantor_basis) as [|[k v] l IH]; simpl; [done|].
  rewrite IH, coord_xor, !u8_xor_assoc. f_equal. rewrite <- !u8_xor_assoc. f_equal.
  apply u8_xor_comm.
Qed.

Lemma lch_mul_spec a b : a ≠ x00 → b ≠ x00 → lch_mul a b = lexp (llog a + llog b).
Proof. intros Ha Hb. unfold lch_mul. rewrite bool_decide_eq_false_2 by done. by apply mul_log8_spec. Qed.

Lemma phi_mul a b : phi (lch_mul a b) = galois_8.mul (phi a) (phi b).
Proof.
  destruct (decide (b = x00)) as [->|Hb].
  { change (lch_mul a x00) with x00. by rewrite phi_0, u8_mul_0_r. }
  destruct (decide (a = x00)) as [->|Ha].
  { unfold lch_mul, mul_log8. rewrite bool_decide_eq_false_2, bool_decide_eq_true_2 by done.
    by rewrite phi_0, u8_mul_0_l. }
  rewrite lch_mul_spec, phi_lexp by done.
  destruct (llog_spec a Ha) as (_ & _ & <-). destruct (llog_spec b Hb) as (_ & _ & <-).
  by rewrite mul_gexp.
Qed.

(** Back to coordinates. *)
Definition psi (x : byte) : byte := if bool_decide (x = x00) then x00 else lexp (glog x).

Lemma phi_psi x : phi (psi x) = x.
Proof.
  unfold psi. case_bool_decide; [by subst|]. rewrite phi_lexp. by apply gexp_glog.
Qed.

(** The field; only its addition and its product occur in the code. *)
Definition lch8 : Field := {|
  Elem := byte;
  ORDER := 256;
  add := u8_xor;
  mul := lch_mul;
  div a b := psi (galois_8.div (phi a) (phi b));
  exp a n := psi (galois_8.exp (phi a) n);
  zero := x00;
  one := x01;
  nth_internal := as_u8;
  mul_slice c input out :=
    if decide (length input = length out) then Some (zip_with (λ i _, lch_mul c i) input out)
    else None;
  mul_slice_add c input out :=
    if decide (length input = length out)
    then Some (zip_with (λ i o, u8_xor o (lch_mul c i)) input out) else None;
  as_gf8_slice _ := None;
  as_gf8_slice_mut _ := None;
  stable_format := None;
  write_format_element _ _ := None;
|}.

Lemma phi_1 : phi x01 = x01.
Proof. reflexivity. Qed.

#[export] Instance lch8_laws : FieldLaws lch8.
Proof.
  constructor; simpl.
  - apply u8_xor_comm.
  - apply u8_xor_assoc.
  - apply u8_xor_0_l.
  - apply u8_xor_self.
  - intros a b. apply phi_inj. rewrite !phi_mul. apply (Fields.mul_comm (F:=gf8)).
  - intros a b c. apply phi_inj. rewrite !phi_mul. apply (Fields.mul_assoc (F:=gf8)).
  - intros a. apply phi_inj. rewrite phi_mul, phi_1. apply (Fields.mul_1_l (F:=gf8)).
  - intros a b c. apply phi_inj. rewrite phi_xor, !phi_mul, phi_xor.
    apply (Fields.mul_add_l (F:=gf8)).
  - done.
  - intros a b Hb. apply phi_inj. rewrite phi_mul, phi_psi.
    apply (Fields.div_mul (F:=gf8)). by apply phi_neq_0.
  - intros a. apply phi_inj. by rewrite phi_psi, phi_1.
  - intros a n. apply phi_inj. rewrite phi_mul, !phi_psi. apply (Fields.exp_succ (F:=gf8)).
  - apply as_u8_small_inj.
  - done.
  - done.
Qed.

(** ** The points *)
Definition pt8 (i : nat) : byte := as_u8 (N.of_nat i).

Lemma u8_to_nat_pt8 i : i < 256 → u8_to_nat (pt8 i) = i.
Proof. apply u8_to_nat_as_u8. Qed.

Lemma u8_to_N_pt8 i : i < 256 → u8_to_N (pt8 i) = N.of_nat i.
Proof. intros Hi. unfold pt8. rewrite u8_to_N_as_u8. apply N.mod_small. lia. Qed.

Definition check_half (i : nat) : bool :=
  bool_decide (u8_xor (lch_mul (pt8 i) (pt8 i)) (pt8 i) = pt8 (i / 2)).

Lemma check_half_all : forallb check_half (seq 0 256) = true.
Proof. vm_compute. reflexivity. Qed.

#[export] Instance lch8_points : CantorPoints lch8 8 pt8.
Proof.
  split; change (2 ^ 8) with 256; simpl.
  - intros i j Hi Hj. unfold pt8. rewrite of_nat_lxor. unfold u8_xor.
    fold (pt8 i) (pt8 j). by rewrite !u8_to_N_pt8 by done.
  - intros i Hi. pose proof check_half_all as H. rewrite forallb_forall in H.
    assert (In i (seq 0 256)) as Hin by (apply in_seq; lia).
    by apply H, bool_decide_eq_true in Hin.
  - intros i j Hi Hj H%(f_equal u8_to_nat). by rewrite !u8_to_nat_pt8 in H.
  - lia.
Qed.

(** ** Skews and products *)

(** Entry [(2q+1) 2^l - 1] is the logarithm of the point [2q]: the value of [sub l] on
    the block [q] of [2^(l+1)] points. *)
Definition check_skew (l q : nat) : bool :=
  bool_decide (SKEW8 !! ((2 * q + 1) * 2 ^ l - 1) = LOG8 !! (2 * q)).

Lemma check_skew_all : forallb (λ l, forallb (check_skew l) (seq 0 (2 ^ (7 - l)))) (seq 0 8) = true.
Proof. vm_compute. reflexivity. Qed.

Lemma skew_spec l q : l < 8 → q < 2 ^ (7 - l) →
  ∃ g, SKEW8 !! ((2 * q + 1) * 2 ^ l - 1) = Some g ∧ g = tbl LOG8 (2 * q).
Proof.
  intros Hl Hq. pose proof check_skew_all as H. rewrite forallb_forall in H.
  assert (In l (seq 0 8)) as Hin by (apply in_seq; lia). apply H in Hin.
  rewrite forallb_forall in Hin. assert (In q (seq 0 (2 ^ (7 - l)))) as Hin' by (apply in_seq; lia).
  apply Hin, bool_decide_eq_true in Hin'. rewrite Hin'. unfold tbl.
  destruct (LOG8 !! (2 * q)) as [g|] eqn:Hg; [by exists g|]. exfalso.
  apply lookup_ge_None in Hg. change (length LOG8) with 256 in Hg.
  pose proof (Nat.pow_le_mono_r 2 (7 - l) 7 ltac:(lia) ltac:(lia)) as H2.
  change (2 ^ 7) with 128 in H2. lia.
Qed.

(** A skew of 255 is the point zero. *)
Lemma log8_255 b : tbl LOG8 (u8_to_nat b) = as_u8 255 ↔ b = x00.
Proof.
  split; [|by intros ->]. intros H. destruct (decide (b = x00)) as [|Hb]; [done|].
  destruct (llog_spec b Hb) as (Hl & _). unfold llog in Hl. rewrite H in Hl.
  exfalso. revert Hl. vm_compute. lia.
Qed.

(** The product of [a] with the exponential of [log_b]. *)
Lemma mul_log8_lexp a log_b :
  mul_log8 a log_b LOG8 EXP8 = lch_mul a (lexp (u8_to_nat log_b)).
Proof.
  destruct (decide (a = x00)) as [->|Ha].
  - unfold mul_log8 at 1. unfold lch_mul. rewrite bool_decide_eq_true_2 by done.
    case_bool_decide; [done|]. unfold mul_log8. by rewrite bool_decide_eq_true_2.
  - rewrite mul_log8_spec by done. rewrite lch_mul_spec by (done || apply lexp_neq_0).
    unfold lexp at 1. rewrite llog_lexp. unfold lexp. f_equal. by rewrite Nat.Div0.add_mod_idemp_r.
Qed.

Lemma lexp_log8 b : b ≠ x00 → lexp (u8_to_nat (tbl LOG8 (u8_to_nat b))) = b.
Proof. apply lexp_llog. Qed.

Definition mul8_at (log_m : byte) (x : byte) : byte :=
  tbl (lut_value (default (mk_lut [] [] []) (mul_luts TABLES8 !! u8_to_nat log_m))) (u8_to_nat x).

Lemma tbl_tabulate n f i : i < n → tbl (tabulate n f) i = f i.
Proof. intros Hi. unfold tbl. by rewrite lookup_tabulate. Qed.

Lemma lookup_concat_tabulate {A} (f : nat → nat → A) n m k j : k < n → j < m →
  List.concat (map (λ a, map (f a) (seq 0 m)) (seq 0 n)) !! (m * k + j) = Some (f k j).
Proof.
  intros Hk Hj. cut (∀ n s k, k < n →
    List.concat (map (λ a, map (f a) (seq 0 m)) (seq s n)) !! (m * k + j) = Some (f (s + k) j)).
  { intros H. by rewrite (H n 0 k). }
  clear n k Hk. intros n. induction n as [|n IH]; intros s k Hk; [lia|]. simpl.
  destruct k as [|k].
  - rewrite lookup_app_l by len. rewrite Nat.mul_0_r. simpl.
    rewrite lookup_map, lookup_seq_lt by done. simpl. f_equal. f_equal. lia.
  - rewrite lookup_app_r by len. rewrite length_map, length_seq.
    replace (m * S k + j - m) with (m * k + j) by lia. rewrite IH by lia. f_equal. f_equal. lia.
Qed.

Lemma mul8_nibbles_spec log_m k x : k < 4 → x < 16 →
  tbl (mul8_nibbles LOG8 EXP8 log_m) (16 * k + x)
  = mul_log8 (as_u8 (N.shiftl (N.of_nat x) (4 * N.of_nat k))) (as_u8 (N.of_nat log_m)) LOG8 EXP8.
Proof. intros Hk Hx. unfold tbl, mul8_nibbles. by rewrite lookup_concat_tabulate. Qed.

Lemma lch_mul_xor_l a b c : lch_mul (u8_xor a b) c = u8_xor (lch_mul a c) (lch_mul b c).
Proof. apply (mul_add_l (F:=lch8)). Qed.

(** Every cell of the product tables. *)
Lemma mul8_at_spec log_m x : mul8_at log_m x = lch_mul x (lexp (u8_to_nat log_m)).
Proof.
  unfold mul8_at, TABLES8, init_mul8_lut. cbn [mul_luts].
  rewrite lookup_tabulate by apply u8_to_nat_bound. cbn [from_option id mul8_lut lut_value].
  rewrite tbl_tabulate by apply u8_to_nat_bound.
  set (n := u8_to_nat x). assert (n < 256) as Hn by apply u8_to_nat_bound.
  change 15%N with (N.ones 4). rewrite N.land_ones, N.shiftr_div_pow2. change (2 ^ 4)%N with 16%N.
  rewrite !N2Nat.inj_mod, !N2Nat.inj_div, !Nat2N.id. change (N.to_nat 16) with 16.
  assert (n / 16 < 16) by (apply Nat.Div0.div_lt_upper_bound; lia).
  assert (n mod 16 < 16) by (apply Nat.mod_upper_bound; lia).
  replace (n mod 16) with (16 * 0 + n mod 16) by lia. rewrite mul8_nibbles_spec by lia.
  replace (n / 16 + 16) with (16 * 1 + n / 16) by lia. rewrite mul8_nibbles_spec by lia.
  rewrite !mul_log8_lexp, <- lch_mul_xor_l, N.shiftl_0_r, N.shiftl_mul_pow2.
  change (2 ^ (4 * N.of_nat 1))%N with 16%N. rewrite (u8_to_nat_as_u8 (u8_to_nat log_m)) by apply u8_to_nat_bound.
  f_equal. symmetry. etransitivity; [apply nibble_xor|]. unfold low_nibble, high_nibble.
  by rewrite Nat2N.inj_mul.
Qed.

(** C20: building the tables succeeds with the tables of the model; in
    them the product tables hold the products of a field, which is the field of the Classic codec
    under a change of basis; each skew is the logarithm of the point that the butterflies
    of its block multiply with; and halving an index is the map from [x] to [x * x + x]. *)
Theorem leopard_tables_correct :
  build_tables8 = Ok TABLES8 ∧
  (∀ log_m x, mul8_at log_m x = lch_mul x (lexp (u8_to_nat log_m))) ∧
  (∀ a b, phi (u8_xor a b) = galois_8.add (phi a) (phi b) ∧ phi (lch_mul a b) = galois_8.mul (phi a) (phi b)) ∧
  (∀ a b, phi a = phi b → a = b) ∧
  (∀ l q, l < 8 → q < 2 ^ (7 - l) → fft_skew TABLES8 !! ((2 * q + 1) * 2 ^ l - 1) = Some (tbl LOG8 (2 * q))) ∧
  ∀ i, i < 256 → u8_xor (lch_mul (pt8 i) (pt8 i)) (pt8 i) = pt8 (i / 2).
Proof.
  split_and!; [apply TABLES8_built|apply mul8_at_spec| |apply phi_inj| |apply (pt_half (F:=lch8) (w:=8))].
  - intros a b. split; [apply phi_xor|apply phi_mul].
  - intros l q Hl Hq. destruct (skew_spec l q Hl Hq) as (g & Hg & ->). exact Hg.
Qed.
