(* ===== verification/LeoWalsh8.v ===== *)
(** * The Walsh-Hadamard transform of the Leopard GF(2^8) engine
    ([fwht8], [fwht8_mtrunc], [fwht_variable] of [src/core/leopard_gf8/ops.rs])

    The transform works on logarithms, integers modulo 255 kept in bytes where both 0
    and 255 stand for zero; [LeoWalsh] has the passes. *)

From Stdlib Require Import NArith ZArith Lia List Bool Setoid Morphisms.
From stdpp Require Import base numbers list.
From S2P Require Import Prelude Bytes Gf8 Lch LeoStages LeoWalsh LeoTables8.

Local Open Scope Z_scope.

(** ** Bytes as integers modulo 255 *)
Definition bz (b : byte) : Z := Z.of_N (u8_to_N b).

Abbreviation eqm255 := (eqm 255).

Lemma bz_add_mod8 a b : eqm255 (bz (add_mod8 a b)) (bz a + bz b).
Proof.
  destruct (add_mod8_spec a b) as [_ H]. apply eqm_mod; [lia|]. unfold bz.
  replace (Z.of_N (u8_to_N (add_mod8 a b))) with (Z.of_nat (u8_to_nat (add_mod8 a b)))
    by (unfold u8_to_nat; lia).
  replace (Z.of_N (u8_to_N a) + Z.of_N (u8_to_N b)) with (Z.of_nat (u8_to_nat a + u8_to_nat b))
    by (unfold u8_to_nat; lia).
  change 255 with (Z.of_nat 255). rewrite <- !Nat2Z.inj_mod. by rewrite H.
Qed.

Lemma bz_sub_mod8 a b : eqm255 (bz (sub_mod8 a b)) (bz a - bz b).
Proof.
  pose proof (u8_to_N_bound a) as Ha. pose proof (u8_to_N_bound b) as Hb.
  unfold bz, sub_mod8. set (x := u8_to_N a) in *. set (y := u8_to_N b) in *.
  rewrite u8_to_N_as_u8, N.shiftr_div_pow2. change (2 ^ 8)%N with 256%N.
  destruct (decide (y ≤ x)%N) as [Hle|Hlt].
  - replace ((x + 2 ^ 64 - y) mod 2 ^ 64)%N with (x - y)%N
      by (apply (N.mod_unique _ _ 1); lia).
    rewrite N.div_small by lia. rewrite N.add_0_r.
    rewrite (N.mod_small _ (2 ^ 64)), (N.mod_small _ 256) by lia. exists 0. lia.
  - rewrite (N.mod_small (x + 2 ^ 64 - y)) by lia.
    replace ((x + 2 ^ 64 - y) / 256)%N with (2 ^ 56 - 1)%N
      by (apply (N.div_unique _ _ _ (256 + x - y)); lia).
    replace ((x + 2 ^ 64 - y + (2 ^ 56 - 1)) mod 2 ^ 64)%N with (x + 2 ^ 56 - 1 - y)%N
      by (apply (N.mod_unique _ _ 1); lia).
    replace ((x + 2 ^ 56 - 1 - y) mod 256)%N with (x + 255 - y)%N
      by (apply (N.mod_unique _ _ (2 ^ 48 - 1)); lia).
    exists 1. lia.
Qed.

#[export] Instance byte_residues : Residues byte fwht2_alt8 bz x00 255.
Proof. split; [apply bz_add_mod8|apply bz_sub_mod8|done]. Qed.

Local Close Scope Z_scope.

(** ** The transforms of the code *)
Lemma order8_pow : ORDER8 = 2 ^ 8.
Proof. done. Qed.

Lemma fwht8_mtrunc_spec {E} limit f : limit ≤ 256 → zero_from x00 limit f →
  ∃ t, fwht8_mtrunc (E:=E) (tabulate 256 f) limit = Ok (tabulate 256 t) ∧
    ∀ i, i < 256 → eqm255 (bz (t i)) (wht 8 (λ j, bz (f j)) i).
Proof.
  intros Hlim Hf. change 256 with (2 ^ 8) in *. unfold fwht8_mtrunc. rewrite order8_pow.
  pose proof (fwht_loop_spec (E:=E) fwht2_alt8 bz x00 255 8 4 limit f BITWIDTH8 eq_refl
    ltac:(unfold BITWIDTH8; lia) Hlim Hf) as (t & -> & Ht).
  exists t. split; [reflexivity|exact Ht].
Qed.

Lemma fwht8_full {E} data : fwht8 (E:=E) data = fwht8_mtrunc data 256.
Proof. unfold fwht8, fwht8_mtrunc. rewrite order8_pow. reflexivity. Qed.

Lemma fwht8_spec {E} f : zero_from x00 256 f →
  ∃ t, fwht8 (E:=E) (tabulate 256 f) = Ok (tabulate 256 t) ∧
    ∀ i, i < 256 → eqm255 (bz (t i)) (wht 8 (λ j, bz (f j)) i).
Proof.
  intros Hf. rewrite fwht8_full. exact (fwht8_mtrunc_spec 256 f (le_n 256) Hf).
Qed.

Lemma fwht_variable_bytes {E} f : zero_from x00 256 f →
  ∃ t, fwht_variable (E:=E) (tabulate 256 f) = Ok (tabulate 256 t) ∧
    ∀ i, i < 256 → eqm255 (bz (t i)) (wht 8 (λ j, bz (f j)) i).
Proof.
  intros Hf. change 256 with (2 ^ 8) in *.
  pose proof (fwht_variable_spec (E:=E) fwht2_alt8 bz x00 255 8 4 f eq_refl Hf) as (t & Ht & Hs).
  exists t. split; [exact Ht|exact Hs].
Qed.
