(* ===== verification/LeoOps8.v ===== *)
(** * Lane operations of the Leopard GF(2^8) engine
    ([src/core/leopard_gf8/ops.rs], from [slice_xor] on)

    The exclusive or of slices, products with a table, and the butterflies of two and of
    four lanes, in the portable form (the SIMD forms of the same loops are not selected).
    On each byte position a butterfly is the butterfly of [Lch] in the field [lch8]. *)

From Stdlib Require Import NArith Lia List Bool.
From stdpp Require Import base numbers list.
From S2P Require Import Prelude Bytes Fields Gf8 Encode LeoSlices Lch LeoStages LeoTables8.

Definition slice_xor (input out : list byte) : list byte := slice_xor_u64 input out.

(** [lut_xor_impl], the scalar form *)
Definition lut_xor_prebuilt (dst src : list byte) (lut : Mul8Lut) : list byte :=
  zip_assign (λ d s, u8_xor d (tbl (lut_value lut) (u8_to_nat s))) dst src.

Definition mul_lut (tables : LeopardGf8Tables) (log_m : byte) : Mul8Lut :=
  default (mk_lut [] [] []) (mul_luts tables !! u8_to_nat log_m).

Definition mulgf8 (out input : list byte) (log_m : byte) (tables : LeopardGf8Tables) : list byte :=
  zip_assign (λ _ s, tbl (lut_value (mul_lut tables log_m)) (u8_to_nat s)) out input.

(** ** Butterflies *)
Definition skip_log (log_m : byte) : bool := bool_decide (log_m = as_u8 (N.of_nat MODULUS8)).

Definition dit2_step_prebuilt (dst src : list byte) (log_m : byte) (lut : Mul8Lut)
  : list byte * list byte :=
  if skip_log log_m then (dst, slice_xor dst src)
  else let dst := lut_xor_prebuilt dst src lut in (dst, slice_xor dst src).

Definition dit2_step_inv_prebuilt (dst src : list byte) (log_m : byte) (lut : Mul8Lut)
  : list byte * list byte :=
  if skip_log log_m then (dst, slice_xor dst src)
  else let src := slice_xor dst src in (lut_xor_prebuilt dst src lut, src).

Definition fft_dit2 (x y : list byte) (log_m : byte) (tables : LeopardGf8Tables)
  : list byte * list byte := dit2_step_prebuilt x y log_m (mul_lut tables log_m).

Definition ifft_dit2 (x y : list byte) (log_m : byte) (tables : LeopardGf8Tables)
  : list byte * list byte := dit2_step_inv_prebuilt x y log_m (mul_lut tables log_m).

Definition fft_dit4_full_lut_scratch (a b c d : list byte) (log_m01 log_m23 log_m02 : byte)
    (lut01 lut23 lut02 : Mul8Lut) : list byte * list byte * list byte * list byte :=
  let '(a, c) := dit2_step_prebuilt a c log_m02 lut02 in
  let '(b, d) := dit2_step_prebuilt b d log_m02 lut02 in
  let '(a, b) := dit2_step_prebuilt a b log_m01 lut01 in
  let '(c, d) := dit2_step_prebuilt c d log_m23 lut23 in
  (a, b, c, d).

Definition ifft_dit4_full_lut_scratch (a b c d : list byte) (log_m01 log_m23 log_m02 : byte)
    (lut01 lut23 lut02 : Mul8Lut) : list byte * list byte * list byte * list byte :=
  let '(a, b) := dit2_step_inv_prebuilt a b log_m01 lut01 in
  let '(c, d) := dit2_step_inv_prebuilt c d log_m23 lut23 in
  let '(b, d) := dit2_step_inv_prebuilt b d log_m02 lut02 in
  let '(a, c) := dit2_step_inv_prebuilt a c log_m02 lut02 in
  (a, b, c, d).

(** ** The exclusive or is bytewise *)
Section slices.
Implicit Types (a b : list byte).

Lemma slice_xor_bytes a b : length a = length b → slice_xor a b = zip_with u8_xor b a.
Proof. apply slice_xor_u64_bytes. Qed.

(** ** Lanes of bytes as columns *)
Definition skew_value (log_m : byte) : byte :=
  if skip_log log_m then x00 else lexp (u8_to_nat log_m).

Lemma skew_value_log e : skew_value (tbl LOG8 (u8_to_nat e)) = e.
Proof.
  unfold skew_value, skip_log. change (as_u8 (N.of_nat MODULUS8)) with (as_u8 255).
  case_bool_decide as H.
  - symmetry. by apply log8_255.
  - apply lexp_log8. intros ->. by apply H.
Qed.

Lemma tbl_zip f a b j : length a = length b → j < length a →
  tbl (zip_with f a b) j = f (tbl a j) (tbl b j).
Proof.
  intros Hl Hj. unfold tbl. destruct (lookup_lt_is_Some_2 a j Hj) as [x Hx].
  destruct (lookup_lt_is_Some_2 b j ltac:(lia)) as [y Hy].
  by rewrite (lookup_zip_with_lt f a b j x y), Hx, Hy by done.
Qed.

Lemma length_slice_xor a b : length a = length b → length (slice_xor a b) = length b.
Proof. intros Hl. rewrite slice_xor_bytes, length_zip_with by done. lia. Qed.

Lemma tbl_slice_xor a b j : length a = length b → j < length a →
  tbl (slice_xor a b) j = u8_xor (tbl b j) (tbl a j).
Proof. intros Hl Hj. rewrite slice_xor_bytes by done. by rewrite tbl_zip by lia. Qed.

Lemma length_lut_xor a b lut : length a = length b → length (lut_xor_prebuilt a b lut) = length a.
Proof. intros Hl. unfold lut_xor_prebuilt. rewrite zip_assign_eq, length_zip_with by done. lia. Qed.

Lemma tbl_lut_xor a b log j : length a = length b → j < length a →
  tbl (lut_xor_prebuilt a b (mul_lut TABLES8 log)) j
  = u8_xor (tbl a j) (lch_mul (tbl b j) (lexp (u8_to_nat log))).
Proof.
  intros Hl Hj. unfold lut_xor_prebuilt. rewrite zip_assign_eq, tbl_zip by done. f_equal.
  apply mul8_at_spec.
Qed.

Lemma mulgf8_bytes out input log : length out = length input →
  length (mulgf8 out input log TABLES8) = length out ∧ ∀ j, j < length out →
  tbl (mulgf8 out input log TABLES8) j = lch_mul (tbl input j) (lexp (u8_to_nat log)).
Proof.
  intros Hl. unfold mulgf8. rewrite zip_assign_eq by done. split.
  - rewrite length_zip_with. lia.
  - intros j Hj. rewrite tbl_zip by done. apply mul8_at_spec.
Qed.
End slices.
