(* ===== verification/LeoDit8.v ===== *)
(** * Plans, drivers, butterflies and the code of the Leopard GF(2^8) engine
    ([src/core/leopard_gf8/mod.rs], lines 58-95 and 298-500, and [driver.rs])

    [LeoPlan] with the skews of [LeoTables8] and the driver of the encoder; [LeoDit] for
    bytes: the butterflies of [LeoOps8] act on every byte column as the butterflies of
    [Lch] in [lch8]; [LeoCode] over [lch8]. *)

From Stdlib Require Import NArith Lia List Bool.
From stdpp Require Import base numbers list.
From S2P Require Import Prelude Errors Bytes Fields Gf8 LinAlg Options Leopard Lch LeoStages LeoPlan LeoButterfly LeoDit LeoCode.
From S2P Require Import LeoTables8 LeoOps8.

Definition FftDit8Plan : Type := FftPlan byte.
Definition IfftDit8Plan : Type := IfftPlan byte.

Definition build_fft_dit8_plan {E} (mtrunc m : nat) (skew_lut : list byte) : outcome E FftDit8Plan :=
  build_fft_plan mtrunc m skew_lut.

Definition build_ifft_dit8_plan {E} (mtrunc m : nat) (skew_lut : list byte) : outcome E IfftDit8Plan :=
  build_ifft_plan mtrunc m skew_lut.

Definition build_ifft_decode_dit8_plan {E} (mtrunc m : nat) (skew_lut : list byte)
  : outcome E IfftDit8Plan := build_ifft_decode_plan mtrunc m skew_lut.

(** ** [driver.rs] *)
Definition LeopardGf8EncodeDriver : Type := LeopardEncodeDriver.

Definition HIGH_FANOUT_TOTAL_SHARDS : N := 192.
Definition HIGH_FANOUT_TOTAL_SHARDS_WITH_REMAINDER : N := 144.

Definition build_leopard_gf8_encode_driver (data_shards parity_shards shard_size : nat)
  : outcome Error LeopardGf8EncodeDriver :=
  let! _ := validate_leopard_shard_len (N.of_nat shard_size) in
  let m := ceil_pow2 (Nat.max parity_shards 1) in
  if MODULUS8 <? m then Err TooManyShards else
  let mtrunc := Nat.min data_shards m in
  let last_count := data_shards mod m in
  let total_shards := saturating_add (N.of_nat data_shards) (N.of_nat parity_shards) in
  let high_fanout_chunk :=
    (HIGH_FANOUT_TOTAL_SHARDS <=? total_shards)%N
    || ((HIGH_FANOUT_TOTAL_SHARDS_WITH_REMAINDER <=? total_shards)%N && negb (last_count =? 0)) in
  let chunk_size :=
    if high_fanout_chunk && (WORK_SIZE8_HIGH_FANOUT <=? shard_size)
    then WORK_SIZE8_HIGH_FANOUT else WORK_SIZE8 in
  Ok (mk_encode_driver shard_size m mtrunc last_count chunk_size (m * 2) (m - 1)).

(** ** Closed forms *)

(** The logarithm of a point; 255 for the point zero. *)
Definition slog (i : nat) : byte := tbl LOG8 i.

#[export] Instance skew_table8 : SkewTable 8 SKEW8 slog.
Proof.
  intros l q H. pose proof (pow2_pos l). destruct (decide (l < 8)) as [Hl|Hl].
  - destruct (skew_spec l q Hl) as (g & Hg & ->); [|done].
    assert (2 ^ (7 - l) * 2 ^ l = 2 ^ 7) as HP by (rewrite <- Nat.pow_add_r; f_equal; lia).
    change (2 ^ 8) with (2 * 2 ^ 7) in H. nia.
  - exfalso. pose proof (pow2_le 8 l ltac:(lia)). nia.
Qed.

Abbreviation plan_block := (LeoPlan.plan_block slog).
Abbreviation plan_pass := (LeoPlan.plan_pass slog).
Abbreviation fft_plan := (LeoPlan.fft_plan slog).
Abbreviation ifft_plan := (LeoPlan.ifft_plan slog).

Theorem build_fft_dit8_plan_ok {E} K limit : K ≤ 8 → limit ≤ 2 ^ K →
  build_fft_dit8_plan (E:=E) limit (2 ^ K) SKEW8 = Ok (fft_plan K limit).
Proof. exact (build_fft_plan_ok 8 SKEW8 slog K limit). Qed.

(** The plan of the encoder for the group that follows [b] transforms. *)
Theorem build_ifft_dit8_plan_ok {E} b K limit : 0 < b → (b + 1) * 2 ^ K ≤ 256 → limit ≤ 2 ^ K →
  build_ifft_dit8_plan (E:=E) limit (2 ^ K) (drop (b * 2 ^ K - 1) SKEW8) = Ok (ifft_plan b K limit).
Proof. exact (build_ifft_plan_ok 8 SKEW8 slog b K limit). Qed.

Theorem build_ifft_decode_dit8_plan_ok {E} K limit : K ≤ 8 → limit ≤ 2 ^ K →
  build_ifft_decode_dit8_plan (E:=E) limit (2 ^ K) SKEW8 = Ok (ifft_plan 0 K limit).
Proof. exact (build_ifft_decode_plan_ok 8 SKEW8 slog K limit). Qed.

(** C19: the plan builders terminate within their fuel and without
    reading a skew out of range, and build the plans in closed form: the blocks of each
    pass in order, with the logarithms of the points where the factors of the butterflies
    lie, for the whole table (decoder) and for the table of a later group (encoder). *)
Theorem leopard_plans_correct {E} b K limit (Hlim : limit ≤ 2 ^ K) (HK : (b + 1) * 2 ^ K ≤ 256) :
  build_fft_dit8_plan (E:=E) limit (2 ^ K) SKEW8 = Ok (fft_plan K limit) ∧
  build_ifft_decode_dit8_plan (E:=E) limit (2 ^ K) SKEW8 = Ok (ifft_plan 0 K limit) ∧
  (0 < b → build_ifft_dit8_plan (E:=E) limit (2 ^ K) (drop (b * 2 ^ K - 1) SKEW8) = Ok (ifft_plan b K limit)).
Proof.
  assert (K ≤ 8) as HK8.
  { apply Nat.nlt_ge. intros H8. pose proof (pow2_le 9 K H8) as H9. change (2 ^ 9) with 512 in H9. nia. }
  split_and!; [by apply build_fft_dit8_plan_ok|by apply build_ifft_decode_dit8_plan_ok|].
  intros Hb. by apply build_ifft_dit8_plan_ok.
Qed.

#[local] Existing Instance elem_inhabited.

#[export] Instance skew_values8 : SkewValues (F:=lch8) 8 pt8 slog skew_value.
Proof.
  intros i Hi. change (2 ^ 8) with 256 in Hi. unfold slog.
  rewrite <- (u8_to_nat_pt8 i Hi) at 1. apply skew_value_log.
Qed.

(** Butterflies of lanes of [len] bytes that act on the first [size] columns. *)
Abbreviation LaneButterflies8 := (LaneButterflies (F:=lch8) skew_value).

Definition column (b : nat) (s : nat → list byte) : nat → byte := λ i, tbl (s i) b.

Section transforms.
Context {E : Type} (dit2 idit2 : byte → list byte → list byte → list byte * list byte).
Context (len size : nat) {LB : LaneButterflies8 dit2 idit2 len size} (N : nat).
Implicit Types (s t : nat → list byte) (dir : TransformDir) (b : nat) (v : nat → byte).
#[local] Abbreviation lanes_emb := (lanes_emb N).
#[local] Abbreviation lanes_good := (lanes_good len).
#[local] Abbreviation quads_run := (quads_run dit2 idit2 len N).
#[local] Abbreviation pairs_run := (pairs_run dit2 idit2 len N).

Lemma lanes4_column8 dir b B q xs c : b < size → 4 * (B + q) + 2 < 256 →
  Forall (λ x, length x = len) xs → length xs = 4 →
  tbl (lanes4 dit2 idit2 dir (slog (4 * (B + q))) (slog (4 * (B + q) + 2)) (slog (2 * (B + q))) xs c) b
  = dir_block (F:=lch8) pt8 dir (B + q) (map (λ x, tbl x b) xs) c.
Proof. apply (lanes4_column (F:=lch8) 8 pt8 slog skew_value dit2 idit2 len size). Qed.

Lemma quad_step_acts8 dir r dist m01 m23 m02 body : 0 < dist → r + dist * 3 < N →
  (∀ s, lanes_good s →
     body (lanes_emb s) = Ok (lanes_emb (set4 s dist r (lanes4 dit2 idit2 dir m01 m23 m02 (gather 4 dist r s))))) →
  acts (E:=E) lanes_emb lanes_good body (radix_step 4 (lanes4 dit2 idit2 dir m01 m23 m02) dist r).
Proof. apply (quad_step_acts (F:=lch8) skew_value dit2 idit2 len size). Qed.

Lemma run_fft_acts8 quad pair K limit :
  quads_run Forward quad → pairs_run Forward pair → K ≤ 8 → limit ≤ 2 ^ K → 2 ^ K ≤ N →
  acts (E:=E) lanes_emb lanes_good (run_fft quad pair (fft_plan K limit)) (λ s t, ∀ b v, b < size →
    (∀ i, i < 2 ^ K → nval (F:=lch8) K (column b s) (pt8 i) = v i) →
    ∀ i, i < limit → column b t i = v i).
Proof. apply (run_fft_acts (F:=lch8) 8 pt8 slog skew_value dit2 idit2 len size N). Qed.

Lemma run_ifft_rest_acts8 quad pair b0 K limit :
  quads_run Inverse quad → pairs_run Inverse pair → (b0 + 1) * 2 ^ K ≤ 256 →
  0 < limit → limit ≤ 2 ^ K → 2 ^ K ≤ N →
  acts (E:=E) lanes_emb lanes_good (run_ifft_rest quad pair (ifft_plan b0 K limit)) (λ s t, ∀ b v,
    b < size → (∀ i, limit ≤ i → i < 2 ^ K → v i = x00) →
    interp (F:=lch8) pt8 (if 2 <=? K then 2 else 0) (b0 * 2 ^ K) (2 ^ K) limit (column b s) v →
    ∀ i, i < 2 ^ K → nval (F:=lch8) K (column b t) (pt8 (b0 * 2 ^ K + i)) = v i).
Proof. apply (run_ifft_rest_acts (F:=lch8) 8 pt8 slog skew_value dit2 idit2 len size N). Qed.
End transforms.

(** ** The butterflies of the code *)
Lemma lch8_skip log : skip_log log = true → skew_value log = x00.
Proof. intros H. unfold skew_value. by rewrite H. Qed.

Lemma lch8_value log : skip_log log = false → skew_value log = lexp (u8_to_nat log).
Proof. intros H. unfold skew_value. by rewrite H. Qed.

Lemma fwd2_bytes e x y :
  fwd2 (F:=lch8) e x y = (u8_xor x (lch_mul y e), u8_xor y (u8_xor x (lch_mul y e))).
Proof. unfold fwd2. by rewrite (Fields.mul_comm (F:=lch8) e y). Qed.

Lemma inv2_bytes e x y :
  inv2 (F:=lch8) e x y = (u8_xor x (lch_mul (u8_xor y x) e), u8_xor y x).
Proof.
  unfold inv2. cbv zeta. rewrite (Fields.mul_comm (F:=lch8) e). reflexivity.
Qed.

Lemma lch_mul_0_r x : lch_mul x x00 = x00.
Proof. apply (Fields.mul_0_r (F:=lch8) x). Qed.

#[export] Instance byte_lanes n :
  LaneButterflies8 (λ log x y, fft_dit2 x y log TABLES8) (λ log x y, ifft_dit2 x y log TABLES8) n n.
Proof.
  split; intros log b x y Hx Hy; change (@cell lch8) with tbl; change (@Elem lch8) with byte in *; [unfold fft_dit2, dit2_step_prebuilt|unfold ifft_dit2, dit2_step_inv_prebuilt];
    destruct (skip_log log) eqn:Hskip; cbn [fst snd].
  - rewrite length_slice_xor by lia. split_and!; [done..|]. intros Hb.
    by rewrite fwd2_bytes, lch8_skip, lch_mul_0_r, u8_xor_0_r, tbl_slice_xor by (done || lia).
  - rewrite length_slice_xor by (rewrite length_lut_xor; lia). rewrite length_lut_xor by lia.
    split_and!; [done..|]. intros Hb.
    by rewrite fwd2_bytes, lch8_value, tbl_slice_xor, tbl_lut_xor by (done || rewrite ?length_lut_xor; lia).
  - rewrite length_slice_xor by lia. split_and!; [done..|]. intros Hb.
    by rewrite inv2_bytes, lch8_skip, lch_mul_0_r, u8_xor_0_r, tbl_slice_xor by (done || lia).
  - rewrite length_lut_xor by (rewrite length_slice_xor; lia). rewrite length_slice_xor by lia.
    split_and!; [done..|]. intros Hb.
    by rewrite inv2_bytes, lch8_value, tbl_lut_xor, tbl_slice_xor by (done || rewrite ?length_slice_xor; lia).
Qed.

Lemma tbl_take n l j : j < n → tbl (take n l) j = tbl l j.
Proof. intros Hj. unfold tbl. by rewrite lookup_take_lt. Qed.

Lemma tbl_app_l l1 l2 j : j < length l1 → tbl (l1 ++ l2) j = tbl l1 j.
Proof. intros Hj. unfold tbl. by rewrite lookup_app_l. Qed.

(** The butterflies of four lanes are made of those of two. *)
Lemma full_lut_lanes tables dir a b c d m01 m23 m02 k :
  pick4 (match dir with Forward => fft_dit4_full_lut_scratch | Inverse => ifft_dit4_full_lut_scratch end
    a b c d m01 m23 m02 (mul_lut tables m01) (mul_lut tables m23) (mul_lut tables m02)) k
  = lanes4 (λ log x y, fft_dit2 x y log tables) (λ log x y, ifft_dit2 x y log tables)
      dir m01 m23 m02 [a; b; c; d] k.
Proof.
  destruct dir; cbn [lanes4 fwd4 inv4];
    unfold fft_dit4_full_lut_scratch, ifft_dit4_full_lut_scratch, fft_dit2, ifft_dit2.
  - destruct (dit2_step_prebuilt a c m02 _) as [x z], (dit2_step_prebuilt b d m02 _) as [y u].
    by destruct (dit2_step_prebuilt x y m01 _), (dit2_step_prebuilt z u m23 _).
  - destruct (dit2_step_inv_prebuilt a b m01 _) as [x y], (dit2_step_inv_prebuilt c d m23 _) as [z u].
    by destruct (dit2_step_inv_prebuilt y u m02 _), (dit2_step_inv_prebuilt x z m02 _).
Qed.

Abbreviation leopard_word := (LeoCode.leopard_word (F:=lch8) pt8).

Lemma groups_word8 k K d p G (Q : nat → nat → byte) (data parity : nat → byte) :
  k ≤ 8 → (nblocks d (2 ^ K) + 1) * 2 ^ K ≤ 2 ^ k → G = nblocks d (2 ^ K) → p ≤ 2 ^ K →
  (∀ g r, g < G → r < 2 ^ K → nval (F:=lch8) K (Q g) (pt8 ((g + 1) * 2 ^ K + r))
     = if decide (g * 2 ^ K + r < d) then data (g * 2 ^ K + r) else x00) →
  (∀ i, i < p → parity i = nval (F:=lch8) K (λ j, bsum (F:=lch8) G (λ g, Q g j)) (pt8 i)) →
  leopard_word k K d p data parity.
Proof. apply (groups_word (F:=lch8) 8 pt8). Qed.

Lemma leopard_word_unique8 k K d p (data parity parity' : nat → byte) :
  k ≤ 8 → 2 ^ K + d ≤ 2 ^ k → p ≤ 2 ^ K →
  leopard_word k K d p data parity → leopard_word k K d p data parity' →
  ∀ i, i < p → parity i = parity' i.
Proof. apply (leopard_word_unique (F:=lch8) 8 pt8). Qed.
