(* ===== verification/LeoGroup8.v ===== *)
(** * Transforms of the Leopard GF(2^8) encoder ([src/core/leopard_gf8/encode.rs], lines 36-85 and 372-870)

    The three ways to do a radix-4 block, the transforms that the encoder runs on one group
    of lanes, and what they compute: a group is interpolated on its block of points, the
    parity is evaluated on the first block, whatever the strategy and whatever the lanes
    held before. *)

From Stdlib Require Import NArith Lia List Bool.
From stdpp Require Import base numbers list strings.
From S2P Require Import Prelude Errors Bytes Fields Gf8 Options Leopard LinAlg Lch LeoStages.
From S2P Require Import LeoButterfly LeoTables8 LeoOps8 LeoPlan LeoDit LeoDit8 LeoGroup.

(** ** The butterfly strategies *)
Inductive Dit4Strategy : Type := Decomposed | Direct | DirectSafe | Auto.

(** [configured_dit4_mode]: from the value of [RSE_DIT4_STRATEGY], trimmed and in lower
    case; read once for the process. *)
Definition configured_dit4_mode (var : option string) : Dit4Strategy :=
  match var with
  | Some v =>
      if bool_decide (v = "decomposed") then Decomposed else
      if bool_decide (v = "direct") then Direct else
      if bool_decide (v = "direct-safe") then DirectSafe else Auto
  | None => Auto
  end.

Definition active_dit4_strategy (mode : Dit4Strategy) (shard_size : nat) : Dit4Strategy :=
  match mode with
  | Auto => if (N.of_nat shard_size <? 64 * 1024)%N then Decomposed else Direct
  | other => other
  end.

Section strategies.
Context {E : Type} (tables : LeopardGf8Tables).
Implicit Types (work : list (list byte)) (dir : TransformDir).

Definition dit2 (log_m : byte) (x y : list byte) : list byte * list byte := fft_dit2 x y log_m tables.
Definition idit2 (log_m : byte) (x y : list byte) : list byte * list byte := ifft_dit2 x y log_m tables.

(** The four lanes of [dit4_at_direct] and [dit4_at_direct_safe]. *)
Definition dit4_direct_one dir work (a dist : nat) (log_m01 log_m23 log_m02 : byte)
  : outcome E (list (list byte)) :=
  let f := match dir with Forward => fft_dit4_full_lut_scratch | Inverse => ifft_dit4_full_lut_scratch end in
  four_lanes (λ a b c d, f a b c d log_m01 log_m23 log_m02
    (mul_lut tables log_m01) (mul_lut tables log_m23) (mul_lut tables log_m02))
    work a (a + dist) (a + dist * 2) (a + dist * 3).

Definition dit4_at_decomposed dir work (base dist : nat) (log_m01 log_m23 log_m02 : byte)
  : outcome E (list (list byte)) :=
  for_range 0 dist (λ i work,
    Ok (dit4_pairwise_one dit2 idit2 dir work (base + i) dist log_m01 log_m23 log_m02)) work.

Definition dit4_at_direct dir work (base dist : nat) (log_m01 log_m23 log_m02 : byte)
  : outcome E (list (list byte)) :=
  let bulk_end := Nat.min dist (length work - (base + dist * 3)) in
  let! work := for_range 0 bulk_end (λ i work,
    dit4_direct_one dir work (base + i) dist log_m01 log_m23 log_m02) work in
  for_range bulk_end dist (λ i work,
    let a := base + i in
    if a + dist * 3 <? length work then dit4_direct_one dir work a dist log_m01 log_m23 log_m02
    else Ok (dit4_pairwise_one dit2 idit2 dir work a dist log_m01 log_m23 log_m02)) work.

Definition dit4_at_direct_safe dir work (base dist : nat) (log_m01 log_m23 log_m02 : byte)
  : outcome E (list (list byte)) :=
  for_range 0 dist (λ i work,
    let a := base + i in
    if a + dist * 3 <? length work then dit4_direct_one dir work a dist log_m01 log_m23 log_m02
    else Ok (dit4_pairwise_one dit2 idit2 dir work a dist log_m01 log_m23 log_m02)) work.

(** [unreachable!] is a panic. *)
Definition dit4_at (mode : Dit4Strategy) (shard_size : nat) dir work (base dist : nat)
    (log_m01 log_m23 log_m02 : byte) : outcome E (list (list byte)) :=
  match active_dit4_strategy mode shard_size with
  | Decomposed => dit4_at_decomposed dir work base dist log_m01 log_m23 log_m02
  | Direct => dit4_at_direct dir work base dist log_m01 log_m23 log_m02
  | DirectSafe => dit4_at_direct_safe dir work base dist log_m01 log_m23 log_m02
  | Auto => Panic
  end.

(** ** The transforms of the encoder *)

Definition zero_lane_at (i : nat) work : outcome E (list (list byte)) := LeoGroup.zero_lane_at x00 i work.

Definition zero_trailing_lanes (start_lane count : nat) work : outcome E (list (list byte)) :=
  for_range start_lane (start_lane + count) zero_lane_at work.

(** [work[i].copy_from_slice(&data[idx][start..end])] *)
Definition copy_lane (data : list (list byte)) (start stop i : nat) work
  : outcome E (list (list byte)) :=
  let! lane := index work i in
  let! shard := index data i in
  let! src := slice shard start stop in
  if decide (length lane = length src) then update work i src else Panic.

Definition quad_stage (mode : Dit4Strategy) (shard_size : nat) dir (block : Stage4Block byte) work :=
  dit4_at mode shard_size dir work (stage4_r block) (stage4_dist block)
    (stage4_m01 block) (stage4_m23 block) (stage4_m02 block).

Definition fft_dit8_with_plan (mode : Dit4Strategy) (shard_size : nat) (plan : FftDit8Plan) work
  : outcome E (list (list byte)) :=
  run_fft (quad_stage mode shard_size Forward)
    (λ stage, pair_at (dit2 (stage2_m stage)) (stage2_r stage) (stage2_dist stage)) plan work.

Definition ifft_final_stage (stage : Stage2Block byte) work : outcome E (list (list byte)) :=
  for_range 0 (stage2_dist stage) (λ i, pair_at (idit2 (stage2_m stage)) i (stage2_dist stage)) work.

Definition ifft_dit_encoder8_with_plan (mode : Dit4Strategy) (shard_size : nat)
    (data : list (list byte)) (plan : IfftDit8Plan) (start stop : nat) work
  : outcome E (list (list byte)) :=
  ifft_encode (copy_lane data start stop) zero_lane_at zero_trailing_lanes
    (quad_stage mode shard_size Inverse) ifft_final_stage plan work.

(** The end of a later group: its coefficients are added to those of the groups before. *)
Definition xor_lanes (m : nat) (src dst : list (list byte)) : outcome E (list (list byte)) :=
  for_range 0 m (λ idx dst,
    let! x := index src idx in let! y := index dst idx in update dst idx (slice_xor x y)) dst.
End strategies.

(** ** The strategies agree *)
#[local] Existing Instance elem_inhabited.

Section runs.
Context {E : Type} (len N : nat).
Implicit Types (s t : nat → list byte) (dir : TransformDir).
#[local] Abbreviation emb := (lanes_emb N).
#[local] Abbreviation good := (lanes_good len).
#[local] Abbreviation lane_step dir m01 m23 m02 := (lanes4 (dit2 TABLES8) (idit2 TABLES8) dir m01 m23 m02).

#[local] Instance table_lanes : LaneButterflies8 (dit2 TABLES8) (idit2 TABLES8) len len := byte_lanes len.

Lemma direct_one_acts dir r dist m01 m23 m02 : 0 < dist → r + dist * 3 < N →
  acts (E:=E) emb good (λ work, dit4_direct_one TABLES8 dir work r dist m01 m23 m02)
    (radix_step 4 (lane_step dir m01 m23 m02) dist r).
Proof.
  intros Hd Hr. apply (quad_step_acts8 _ _ len len); [done..|]. intros s Hs.
  unfold dit4_direct_one, lanes_emb. rewrite four_lanes_step by done. f_equal.
  rewrite gather4. unfold set4. apply tabulate_ext. intros k _.
  pose proof (full_lut_lanes TABLES8 dir (s r) (s (r + dist)) (s (r + dist * 2)) (s (r + dist * 3))
    m01 m23 m02) as Hc. unfold dit2, idit2.
  by rewrite !Hc.
Qed.

Lemma pairwise_one_acts dir r dist m01 m23 m02 : 0 < dist → r + dist * 3 < N →
  acts (E:=E) emb good (λ work, Ok (dit4_pairwise_one (dit2 TABLES8) (idit2 TABLES8) dir work r dist m01 m23 m02))
    (radix_step 4 (lane_step dir m01 m23 m02) dist r).
Proof.
  intros Hd Hr. apply (quad_step_acts8 _ _ len len); [done..|]. intros s Hs.
  f_equal. by apply pairwise_one_step.
Qed.

Lemma either_one_acts dir r dist m01 m23 m02 : 0 < dist → r + dist * 3 < N →
  acts (E:=E) emb good (λ work,
      if r + dist * 3 <? length work then dit4_direct_one TABLES8 dir work r dist m01 m23 m02
      else Ok (dit4_pairwise_one (dit2 TABLES8) (idit2 TABLES8) dir work r dist m01 m23 m02))
    (radix_step 4 (lane_step dir m01 m23 m02) dist r).
Proof.
  intros Hd Hr s Hs. unfold lanes_emb at 1. rewrite length_tabulate, (proj2 (Nat.ltb_lt _ _)) by done.
  by apply direct_one_acts.
Qed.

(** Whatever the strategy, a block of radix-4 steps is done. *)
Lemma quad_stage_runs mode shard_size dir :
  quads_run (dit2 TABLES8) (idit2 TABLES8) len N dir (quad_stage (E:=E) TABLES8 mode shard_size dir).
Proof.
  intros [r dist m01 m23 m02] Hd HN. cbn [stage4_r stage4_dist stage4_m01 stage4_m23 stage4_m02] in *.
  unfold quad_stage, dit4_at. cbn [stage4_r stage4_dist stage4_m01 stage4_m23 stage4_m02].
  assert (acts emb good (λ work, dit4_at_decomposed (E:=E) TABLES8 dir work r dist m01 m23 m02)
    (radix_block 4 (lane_step dir m01 m23 m02) dist r)) as HA
    by (apply acts_block; intros i Hi; apply pairwise_one_acts; lia).
  assert (acts emb good (λ work, dit4_at_direct_safe (E:=E) TABLES8 dir work r dist m01 m23 m02)
    (radix_block 4 (lane_step dir m01 m23 m02) dist r)) as HC
    by (apply acts_block; intros i Hi; apply either_one_acts; lia).
  assert (acts emb good (λ work, dit4_at_direct (E:=E) TABLES8 dir work r dist m01 m23 m02)
    (radix_block 4 (lane_step dir m01 m23 m02) dist r)) as HB.
  { intros s Hs. unfold dit4_at_direct. cbv zeta. unfold lanes_emb at 1 3. rewrite !length_tabulate.
    replace (Nat.min dist (N - (r + dist * 3))) with dist by lia.
    destruct (acts_block emb good 4 (lane_step dir m01 m23 m02) dist r
      (λ i work, dit4_direct_one (E:=E) TABLES8 dir work (r + i) dist m01 m23 m02)
      (λ i Hi, direct_one_acts dir (r + i) dist m01 m23 m02 Hd ltac:(lia)) s Hs) as (t & Ht & Hg & HR).
    exists t. fold (lanes_emb N s). rewrite Ht. cbn [obind]. unfold for_range. by rewrite Nat.sub_diag. }
  unfold active_dit4_strategy. destruct mode; [exact HA|exact HB|exact HC|].
  destruct (N.of_nat shard_size <? _)%N; [exact HA|exact HB].
Qed.

Lemma fft_pairs_run8 : pairs_run (E:=E) (dit2 TABLES8) (idit2 TABLES8) len N Forward
  (λ stage, pair_at (dit2 TABLES8 (stage2_m stage)) (stage2_r stage) (stage2_dist stage)).
Proof. exact (fft_pairs_run (F:=lch8) skew_value (dit2 TABLES8) (idit2 TABLES8) len N _ (λ _ _ _, eq_refl)). Qed.

Lemma ifft_pairs_run8 : pairs_run (E:=E) (dit2 TABLES8) (idit2 TABLES8) len N Inverse
  (ifft_final_stage TABLES8).
Proof. exact (ifft_pairs_run (F:=lch8) skew_value (dit2 TABLES8) (idit2 TABLES8) len N _ (λ _ _ _ _, eq_refl)). Qed.

(** ** The forward transform of the encoder *)
Lemma fft_encoder_acts mode shard_size K limit : K ≤ 8 → limit ≤ 2 ^ K → 2 ^ K ≤ N →
  acts (E:=E) emb good (fft_dit8_with_plan TABLES8 mode shard_size (fft_plan K limit)) (λ s t, ∀ b v,
    b < len → (∀ i, i < 2 ^ K → nval (F:=lch8) K (column b s) (pt8 i) = v i) →
    ∀ i, i < limit → column b t i = v i).
Proof.
  intros HK Hlim HN. apply (run_fft_acts8 (dit2 TABLES8) (idit2 TABLES8) len len N);
    [apply quad_stage_runs|exact fft_pairs_run8|done..].
Qed.

(** ** The inverse transform of a group *)

(** Shard [i] of a group, bytes [start] on. *)
Definition shard_part (data : list (list byte)) (start i : nat) : list byte :=
  take len (drop start (default [] (data !! i))).

Definition group_ok (data : list (list byte)) (limit start : nat) : Prop :=
  ∀ i, i < limit → ∃ shard, data !! i = Some shard ∧ start + len ≤ length shard.

Lemma shard_part_length data limit start i : group_ok data limit start → i < limit →
  length (shard_part data start i) = len.
Proof.
  intros Hok Hi. unfold shard_part. destruct (Hok i Hi) as (shard & -> & Hl).
  unfold default, from_option, id. len.
Qed.

Lemma copy_lane_step data limit start i s : i < N → i < limit → group_ok data limit start → good s →
  copy_lane (E:=E) data start (start + len) i (emb s)
  = Ok (emb (λ j, if decide (j = i) then shard_part data start i else s j)).
Proof.
  intros Hi Hil Hok Hs. pose proof (shard_part_length data limit start i Hok Hil) as Hpart.
  unfold copy_lane, lanes_emb. rewrite index_tabulate by done.
  destruct (Hok i Hil) as (shard & Hshard & Hl). rewrite (index_ok _ _ _ Hshard). cbn [obind].
  rewrite slice_ok by lia. cbn [obind]. replace (start + len - start) with len by lia.
  unfold shard_part in Hpart |- *. rewrite Hshard in Hpart |- *. cbn [default from_option id] in Hpart |- *.
  rewrite Hs, decide_True by done. by rewrite update_tabulate by done.
Qed.

Lemma zero_trailing_step lo n s : lo + n ≤ N → good s →
  zero_trailing_lanes (E:=E) lo n (emb s)
  = Ok (emb (λ j, if decide (lo ≤ j ∧ j < lo + n) then replicate len x00 else s j)).
Proof.
  intros Hn Hs. unfold zero_trailing_lanes.
  apply (fill_loop len N _ _ _ (λ _, replicate len x00)); [|intros; apply length_replicate|done|lia].
  intros i s' _ Hi Hs'. apply (zero_lane_step len); [lia|apply Hs'].
Qed.

(** A group is interpolated on its block of points. *)
Lemma ifft_encoder_acts mode shard_size data b0 K limit start :
  N = 2 ^ K → 0 < limit → limit ≤ 2 ^ K → group_ok data limit start → (b0 + 1) * 2 ^ K ≤ 256 →
  acts (E:=E) emb good
    (ifft_dit_encoder8_with_plan TABLES8 mode shard_size data (ifft_plan b0 K limit) start (start + len))
    (λ s t, ∀ b, b < len → ∀ i, i < 2 ^ K →
       nval (F:=lch8) K (column b t) (pt8 (b0 * 2 ^ K + i))
       = column b (group_lane (F:=lch8) len (shard_part data start) limit) i).
Proof.
  intros HNK Hpos Hlim Hok HK.
  apply (ifft_encode_acts (F:=lch8) 8 pt8 slog skew_value (dit2 TABLES8) (idit2 TABLES8) len N);
    [intros i; by apply shard_part_length|intros i s Hi Hil; by apply (copy_lane_step data limit)| | |
     apply quad_stage_runs|apply ifft_pairs_run8|done..].
  - intros i s Hi Hs. apply (zero_lane_step len); [done|apply Hs].
  - intros lo n s Hn Hs. by apply zero_trailing_step.
Qed.
End runs.

(** C13: whichever strategy the environment selects, the inverse
    transform of a group takes the values, a block of points at a time, to the coefficients,
    the forward transform takes coefficients to the first values, and two
    strategies leave the same bytes after the inverse transform. *)
Theorem encoder_transforms_correct {E} (mode mode' : Dit4Strategy) (shard_size len K b0 limit start : nat)
    (data : list (list byte)) (s : nat → list byte)
    (Hpos : 0 < limit) (Hlim : limit ≤ 2 ^ K) (Hb : (b0 + 1) * 2 ^ K ≤ 256)
    (Hdata : group_ok len data limit start) (Hs : lanes_good len s) :
  (∃ t, ifft_dit_encoder8_with_plan (E:=E) TABLES8 mode shard_size data (ifft_plan b0 K limit) start (start + len)
          (lanes_emb (2 ^ K) s) = Ok (lanes_emb (2 ^ K) t) ∧
     (∀ b i, b < len → i < 2 ^ K → nval (F:=lch8) K (column b t) (pt8 (b0 * 2 ^ K + i))
        = column b (group_lane (F:=lch8) len (shard_part len data start) limit) i) ∧
     ifft_dit_encoder8_with_plan (E:=E) TABLES8 mode' shard_size data (ifft_plan b0 K limit) start (start + len)
          (lanes_emb (2 ^ K) s) = Ok (lanes_emb (2 ^ K) t)) ∧
  ∃ u, fft_dit8_with_plan (E:=E) TABLES8 mode shard_size (fft_plan K limit) (lanes_emb (2 ^ K) s)
         = Ok (lanes_emb (2 ^ K) u) ∧
    ∀ b i, b < len → i < limit → column b u i = nval (F:=lch8) K (column b s) (pt8 i).
Proof.
  assert (K ≤ 8) as HK8.
  { apply Nat.nlt_ge. intros H8. pose proof (pow2_le 9 K H8) as H9. change (2 ^ 9) with 512 in H9. nia. }
  split.
  - destruct (ifft_encoder_acts (E:=E) len (2 ^ K) mode shard_size data b0 K limit start eq_refl Hpos Hlim Hdata Hb s Hs)
      as (t & Ht & Htg & Hval).
    destruct (ifft_encoder_acts (E:=E) len (2 ^ K) mode' shard_size data b0 K limit start eq_refl Hpos Hlim Hdata Hb s Hs)
      as (t' & Ht' & Htg' & Hval').
    exists t. split_and!; [done|auto|]. rewrite Ht'. f_equal. apply tabulate_ext. intros j Hj.
    apply list_ext_lt; [by rewrite Htg, Htg'|]. intros b Hbl. rewrite Htg' in Hbl.
    assert (column b t' j = column b t j) as Hcol.
    { pose proof (nval_zero_inv (F:=lch8) 8 pt8 K b0 (λ j, u8_xor (column b t' j) (column b t j)) Hb) as Hz.
      apply (Fields.add_cancel (F:=lch8)). apply Hz; [|done]. intros r Hr.
      etrans; [apply (nval_add (F:=lch8))|]. rewrite Hval, Hval' by done. apply (Fields.add_self (F:=lch8)). }
    unfold column, tbl in Hcol.
    destruct (lookup_lt_is_Some_2 (t' j) b) as [x Hx]; [by rewrite Htg'|].
    destruct (lookup_lt_is_Some_2 (t j) b) as [y Hy]; [by rewrite Htg|].
    rewrite Hx, Hy in Hcol |- *. cbn in Hcol. by subst.
  - destruct (fft_encoder_acts (E:=E) len (2 ^ K) mode shard_size K limit HK8 Hlim (le_n _) s Hs) as (u & Hu & _ & Hval).
    exists u. split; [done|]. intros b i Hbl Hi.
    exact (Hval b (λ i, nval (F:=lch8) K (column b s) (pt8 i)) Hbl (λ _ _, eq_refl) i Hi).
Qed.
