(* ===== verification/LeoEncode8.v ===== *)
(** * Encoder of the Leopard GF(2^8) engine ([src/core/leopard_gf8/encode.rs], lines 87-370)

    The data shards are taken in groups of [m] lanes, [m] the power of two above the
    parity count.  Each group is interpolated on its own block of points, the
    coefficients are added up, and the sum is evaluated on the first block: the parity.
    Shards longer than a chunk are encoded chunk by chunk in the same work space, which
    is taken from a cache of the thread or freshly allocated, with any contents. *)

From Stdlib Require Import NArith Lia List Bool.
From stdpp Require Import base numbers list.
From S2P Require Import Prelude Errors Bytes Fields Gf8 Options Leopard LinAlg Lch LeoStages.
From S2P Require Import LeoButterfly LeoTables8 LeoOps8 LeoPlan LeoDit LeoCache LeoCode LeoDit8.
From S2P Require Import LeoGroup LeoChunk LeoGroup8.

(** ** Work space *)

(** [FlatWork]: lanes of one allocation. *)
Record FlatWork := mk_flat {
  work_lanes : nat;
  work_lane_len : nat;
  work_data : list (list byte);
}.

Definition EncodeCaches8 : Type := EncodeCaches byte (FlatWork * list byte).

(** Results of the allocator: what a fresh buffer holds, and the capacities of vectors. *)
Class Allocator8 := {
  new_uninit : nat → nat → list (list byte);
  plans_capacity : EncodePlans byte → N;
  scratch_capacity : list byte → N;
}.

Class AllocatorLaws {AL : Allocator8} : Prop := {
  new_uninit_lanes lanes lane_len :
    length (new_uninit lanes lane_len) = lanes ∧
    Forall (λ lane, length lane = lane_len) (new_uninit lanes lane_len);
}.

Section encoder.
Context {AL : Allocator8} (mode : Dit4Strategy) (tables : LeopardGf8Tables).
Implicit Types (data parity work : list (list byte)).

(** The chunk from [offset] to [stop], in lanes of its size. *)
Definition encode_chunk8 (driver : LeopardGf8EncodeDriver) (plans : EncodePlans byte) data
    (offset stop : nat) work : outcome Error (list (list byte)) :=
  let shard_size := driver_shard_size driver in
  encode_chunk
    (λ rest plan, ifft_dit_encoder8_with_plan tables mode shard_size rest plan offset stop)
    xor_lanes (fft_dit8_with_plan tables mode shard_size) (driver_m driver) plans data work.

(** [output[offset..end].copy_from_slice(&work[idx][..size])] *)
Definition write_parity work (offset stop : nat) parity : outcome Error (list (list byte)) :=
  for_range 0 (length parity) (λ idx parity,
    let! output := index parity idx in
    let! _ := slice (E:=Error) output offset stop in
    let! lane := index work idx in
    let! src := slice lane 0 (stop - offset) in
    update parity idx (splice output offset src)) parity.

(** The body of the loop over the chunks; the scratch grows to the size of the chunk. *)
Definition encode_step8 (driver : LeopardGf8EncodeDriver) (plans : EncodePlans byte) data
    (offset stop : nat) views (st : list byte * list (list byte))
  : outcome Error (list (list byte) * (list byte * list (list byte))) :=
  let '(scratch, parity) := st in
  let size := stop - offset in
  let scratch :=
    if length scratch <? size then scratch ++ replicate (size - length scratch) x00 else scratch in
  let! views := encode_chunk8 driver plans data offset stop views in
  let! parity := write_parity views offset stop parity in
  Ok (views, (scratch, parity)).

(** The run on given plans and buffers. *)
Definition encode_run8 (driver : LeopardGf8EncodeDriver) data (chunk_cap : nat) (plans : EncodePlans byte)
    (buffers : FlatWork * list byte) parity
  : outcome Error ((FlatWork * list byte) * list (list byte)) :=
  let '(flat_work, scratch) := buffers in
  let work_size := Nat.min (driver_m driver * 2) (work_lanes flat_work) in
  let! ' (lanes, (scratch, parity)) :=
    lane_chunks (encode_step8 driver plans data) (S (driver_shard_size driver)) (driver_shard_size driver)
      (driver_chunk_size driver) work_size chunk_cap 0 (work_data flat_work) (scratch, parity) in
  Ok ((mk_flat (work_lanes flat_work) (work_lane_len flat_work) lanes, scratch), parity).

Definition encode_with_tables (caches : EncodeCaches8) (data_shards parity_shards : nat) data parity
  : outcome Error (EncodeCaches8 * LeopardGf8EncodeDriver * list (list byte)) :=
  if negb (length data =? data_shards) || negb (length parity =? parity_shards)
  then Err TooFewShards else
  let! first := ok_or (head data) TooFewShards in
  let! driver := build_leopard_gf8_encode_driver data_shards parity_shards (length first) in
  let chunk_cap := Nat.min (driver_shard_size driver) (driver_chunk_size driver) in
  let needed_lanes := driver_work_slices driver in
  let cacheable := leopard_work_cache_fits
    (saturating_mul (N.of_nat needed_lanes) (N.of_nat chunk_cap)) (N.of_nat chunk_cap) in
  let! ' (caches, parity) :=
    encode_cached cacheable (data_shards, parity_shards) (needed_lanes, chunk_cap)
      (encode_plans_new data_shards parity_shards driver (fft_skew tables))
      (mk_flat needed_lanes chunk_cap (new_uninit needed_lanes chunk_cap), [])
      (encode_run8 driver data chunk_cap)
      (λ buffers, (work_lanes buffers.1, work_lane_len buffers.1))
      (λ buffers, saturating_add (N.of_nat (work_lanes buffers.1 * work_lane_len buffers.1))
                    (scratch_capacity buffers.2))
      plans_capacity caches parity in
  Ok (caches, driver, parity).

(** [encode_skeleton]: the checks and the driver only. *)
Definition encode_skeleton (data_shards parity_shards : nat) data parity
  : outcome Error LeopardGf8EncodeDriver :=
  if negb (length data =? data_shards) || negb (length parity =? parity_shards)
  then Err TooFewShards else
  let! first := ok_or (head data) TooFewShards in
  build_leopard_gf8_encode_driver data_shards parity_shards (length first).
End encoder.

(** ** One chunk *)

(** Shapes that the engine serves: the padded data and the parity block fit the field. *)
Abbreviation shape8 := (leopard_shape 8).
Abbreviation encode_plans8 := (encode_plans slog).

Lemma length_SKEW8 : length SKEW8 = 2 ^ 8 - 1.
Proof. reflexivity. Qed.

Lemma shape8_order d p K : shape8 d p K → K ≤ 7 ∧ d + 2 ^ K ≤ 256 ∧ 0 < nblocks d (2 ^ K).
Proof.
  intros H. destruct (leopard_shape_order 8 d p K H) as (HK & Hd & Hg).
  change (2 ^ 8) with 256 in Hd. split_and!; [lia|done|done].
Qed.

Section chunk.
Context (mode : Dit4Strategy) (shard_size d p K : nat) (data : list (list byte)) (start len : nat).
Context (Hsh : shape8 d p K).
Implicit Types (s t : nat → list byte).

Definition data_ok : Prop := ∀ i, i < d → ∃ shard, data !! i = Some shard ∧ start + len ≤ length shard.
Context (Hok : data_ok).

Lemma xor_lanes_ok {E} t s : lanes_good len t → lanes_good len s →
  xor_lanes (E:=E) (2 ^ K) (lanes_emb (2 ^ K) t) (lanes_emb (2 ^ K) s)
  = Ok (lanes_emb (2 ^ K) (λ j, slice_xor (t j) (s j))).
Proof.
  intros Ht Hs. unfold xor_lanes.
  rewrite (map_loop len (2 ^ K) 0 (2 ^ K) _ (λ j x, if decide (j < 2 ^ K) then slice_xor (t j) x else x));
    [| |intros i x Hx; case_decide; [rewrite length_slice_xor by (by rewrite Ht); done|done]|done|lia].
  - f_equal. apply tabulate_ext. intros j Hj. by rewrite !decide_True by lia.
  - intros i s' _ Hi Hs'. unfold lanes_emb. rewrite !index_tabulate by done. cbn [obind].
    rewrite update_tabulate by done. f_equal. apply tabulate_ext. intros j _.
    case_decide; [|done]. subst j. by rewrite decide_True by done.
Qed.

#[local] Abbreviation limit_of g := (Nat.min (d - g * 2 ^ K) (2 ^ K)).

Lemma group_data_ok g : group_ok len (drop (g * 2 ^ K) data) (limit_of g) start.
Proof.
  intros i Hi. destruct (Hok (g * 2 ^ K + i) ltac:(lia)) as (shard & Hs & Hl). exists shard.
  by rewrite lookup_drop.
Qed.

Lemma group_column b g r : b < len → r < 2 ^ K →
  column b (group_lane (F:=lch8) len (shard_part len (drop (g * 2 ^ K) data) start) (limit_of g)) r
  = data_elem (F:=lch8) d (shard_part len data start) b (g * 2 ^ K + r).
Proof.
  intros Hb Hr. unfold column, group_lane, data_elem.
  destruct (decide (g * 2 ^ K + r < d)) as [Hi|Hi].
  - rewrite decide_True by lia. unfold shard_part. by rewrite lookup_drop.
  - rewrite decide_False by lia. unfold tbl. by rewrite lookup_replicate_2.
Qed.

#[local] Instance chunk_steps8 : ChunkSteps (F:=lch8) pt8 (E:=Error) slog
  (λ rest plan, ifft_dit_encoder8_with_plan TABLES8 mode shard_size rest plan start (start + len))
  xor_lanes (fft_dit8_with_plan TABLES8 mode shard_size) d p K len data (shard_part len data start).
Proof.
  pose proof (pow2_pos K) as HP. destruct (shape8_order d p K Hsh) as (HK & _).
  pose proof Hsh as (Hd & Hp & HpK & Hfit). change (2 ^ 8) with 256 in Hfit. split.
  - intros g t Hg Ht. pose proof (nblocks_lt d (2 ^ K) g HP Hg).
    destruct (ifft_encoder_acts (E:=Error) len (2 ^ K) mode shard_size (drop (g * 2 ^ K) data)
      (g + 1) K (limit_of g) start eq_refl ltac:(lia) ltac:(lia) (group_data_ok g) ltac:(nia) t Ht)
      as (u & Hu & Hgood & HR).
    exists u. split_and!; [done|done|]. intros b r Hb Hr. etrans; [exact (HR b Hb r Hr)|].
    by apply group_column.
  - intros t s Ht Hs. exists (λ j, slice_xor (t j) (s j)). split_and!; [by apply xor_lanes_ok| |].
    + intros j. by rewrite length_slice_xor by (by rewrite Ht, Hs).
    + intros b j Hb Hj. apply (tbl_slice_xor (t j) (s j) b); [by rewrite Ht, Hs|by rewrite Ht].
  - intros s Hs. destruct (fft_encoder_acts (E:=Error) len (2 ^ K) mode shard_size K p ltac:(lia) HpK ltac:(lia) s Hs)
      as (u & Hu & Hgood & HR).
    exists u. split_and!; [done|done|]. intros b i Hb Hi.
    exact (HR b (λ i, nval (F:=lch8) K (column b s) (pt8 i)) Hb ltac:(done) i Hi).
Qed.
End chunk.

(** ** Whole shards *)

(** The driver of a shape. *)
Definition encode_driver (d p n : nat) : LeopardGf8EncodeDriver :=
  let m := 2 ^ order2 (Nat.max p 1) in
  let total := saturating_add (N.of_nat d) (N.of_nat p) in
  mk_encode_driver n m (Nat.min d m) (d mod m)
    (if ((HIGH_FANOUT_TOTAL_SHARDS <=? total)%N
         || ((HIGH_FANOUT_TOTAL_SHARDS_WITH_REMAINDER <=? total)%N && negb (d mod m =? 0)))
        && (WORK_SIZE8_HIGH_FANOUT <=? n)
     then WORK_SIZE8_HIGH_FANOUT else WORK_SIZE8)
    (m * 2) (m - 1).

Lemma build_encode_driver_ok d p n : n ≠ 0 → n mod 64 = 0 → 2 ^ order2 (Nat.max p 1) ≤ MODULUS8 →
  build_leopard_gf8_encode_driver d p n = Ok (encode_driver d p n).
Proof.
  intros Hn H64 Hm. unfold build_leopard_gf8_encode_driver.
  rewrite (proj2 (validate_leopard_shard_len_ok (N.of_nat n))).
  - cbn [obind]. rewrite ceil_pow2_order, (proj2 (Nat.ltb_ge _ _)) by done. reflexivity.
  - split; [lia|]. apply N2Nat.inj. by rewrite N2Nat.inj_mod, Nat2N.id.
Qed.

Lemma driver_chunk_pos d p n : 0 < driver_chunk_size (encode_driver d p n).
Proof.
  cbn [driver_chunk_size encode_driver]. destruct (_ && _); unfold WORK_SIZE8, WORK_SIZE8_HIGH_FANOUT;
    pose proof (pow2_pos 10); lia.
Qed.

(** The byte column [b] of shards. *)
Definition shard_column (shards : list (list byte)) (b i : nat) : byte :=
  tbl (default [] (shards !! i)) b.

Section whole.
Context (mode : Dit4Strategy) (d p n : nat) (data : list (list byte)).
#[local] Abbreviation K := (order2 (Nat.max p 1)).
#[local] Abbreviation driver := (encode_driver d p n).
#[local] Abbreviation cap := (Nat.min n (driver_chunk_size driver)).
Context (Hsh : shape8 d p K).
Context (Hdata : length data = d) (Hlen : Forall (λ shard, length shard = n) data).

(** The parity bytes below [offset] are right. *)
Definition parity_upto (offset : nat) (parity : list (list byte)) : Prop :=
  ∃ P, parity = lanes_emb p P ∧ lanes_good n P ∧
  ∀ b, b < offset → leopard_word (order2 (2 ^ K + d)) K d p (shard_column data b) (λ i, tbl (P i) b).

Lemma write_parity_ok s t P offset size : p ≤ 2 ^ K → offset + size ≤ n →
  lanes_good size s → lanes_good n P →
  write_parity (work_of K s t) offset (offset + size) (lanes_emb p P)
  = Ok (lanes_emb p (λ i, splice (P i) offset (s i))).
Proof.
  intros Hp Hn Hs HP. unfold write_parity. unfold lanes_emb at 1. rewrite length_tabulate.
  rewrite (map_loop n p 0 p _ (λ i x, if decide (i < p) then splice x offset (s i) else x)).
  - f_equal. apply tabulate_ext. intros i Hi. by rewrite !decide_True by lia.
  - intros i P' _ Hi HP'. unfold lanes_emb. rewrite index_tabulate by done. cbn [obind].
    rewrite slice_ok by (rewrite ?HP'; lia). cbn [obind].
    rewrite (index_ok _ _ (s i)) by (unfold work_of, lanes_emb; rewrite lookup_app_l, lookup_tabulate
      by (rewrite ?length_tabulate; lia); done). cbn [obind].
    rewrite slice_ok by (rewrite ?Hs; lia). cbn [obind]. rewrite update_tabulate by done.
    rewrite drop_0, take_ge by (rewrite Hs; lia). f_equal. apply tabulate_ext. intros j _.
    case_decide; [|done]. subst j. by rewrite decide_True by done.
  - intros i x Hx. case_decide; [|done]. rewrite length_splice; [done|]. rewrite Hs. lia.
  - done.
  - lia.
Qed.

Lemma encode_step8_ok offset size s t st : offset + size ≤ n → 0 < size →
  lanes_good size s → lanes_good size t → parity_upto offset st.2 →
  ∃ s' t' st', encode_step8 mode TABLES8 driver (encode_plans8 d p K) data offset (offset + size)
      (work_of K s t) st = Ok (work_of K s' t', st') ∧
    lanes_good size s' ∧ lanes_good size t' ∧ parity_upto (offset + size) st'.2.
Proof.
  intros Hn Hs0 Hs Ht (P & HP0 & HP & Hup). destruct st as [scratch parity]. cbn [snd] in *. subst parity.
  pose proof Hsh as (_ & Hp & HpK & _). unfold encode_step8.
  assert (data_ok d data offset size) as Hok.
  { intros i Hi. destruct (lookup_lt_is_Some_2 data i ltac:(lia)) as [x Hx]. exists x. split; [done|].
    by rewrite (Forall_lookup_1 _ _ _ _ Hlen Hx). }
  destruct (encode_chunk_ok (F:=lch8) 8 pt8 slog _ _ _ d p K size data (shard_part size data offset)
    (CS:=chunk_steps8 mode n d p K data offset size Hsh Hok) Hsh Hdata s t Hs Ht)
    as (s' & t' & Hrun & Hs' & Ht' & Hcol).
  assert (encode_chunk8 mode TABLES8 driver (encode_plans8 d p K) data offset (offset + size) (work_of K s t)
    = Ok (work_of K s' t')) as -> by exact Hrun. cbn [obind].
  rewrite write_parity_ok by (done || lia). cbn [obind]. eexists s', t', (_, _).
  split_and!; [reflexivity|done|done|]. eexists. split_and!; [reflexivity| |].
  - intros i. rewrite length_splice; [done|]. rewrite Hs', HP. lia.
  - intros b Hb. destruct (decide (b < offset)) as [Hbo|Hbo].
    + eapply (leopard_word_ext (F:=lch8)); [done| |by apply Hup]. intros i Hi. unfold tbl.
      rewrite lookup_splice by (rewrite Hs', HP; lia). by rewrite decide_False by lia.
    + eapply (leopard_word_ext (F:=lch8)); [| |apply (Hcol (b - offset)); lia].
      * intros i Hi. unfold shard_column, shard_part. etrans; [apply (tbl_take size); lia|]. unfold tbl.
        rewrite lookup_drop. do 2 f_equal. lia.
      * intros i Hi. unfold tbl. rewrite lookup_splice by (rewrite Hs', HP; lia).
        by rewrite decide_True by (rewrite Hs'; lia).
Qed.
End whole.

(** What the caches hold: plans of their key, buffers of their size. *)
Definition buffers_fit (key : nat * nat) (buffers : FlatWork * list byte) : Prop :=
  work_lanes buffers.1 = key.1 ∧ work_lane_len buffers.1 = key.2 ∧
  length (work_data buffers.1) = key.1 ∧ Forall (λ lane, length lane = key.2) (work_data buffers.1).

Abbreviation caches_ok := (encode_caches_ok slog buffers_fit).

Definition empty_caches : EncodeCaches8 :=
  mk_encode_caches (two_new (1024 * 1024)) (two_new LEOPARD_MAX_CACHED_WORK_BYTES).

Lemma empty_caches_ok : caches_ok empty_caches.
Proof. apply new_caches_ok. Qed.

Section engine.
Context {AL : Allocator8} {ALL : AllocatorLaws} (mode : Dit4Strategy).

Lemma encode_run8_ok d p n data parity chunk_cap buffers :
  shape8 d p (order2 (Nat.max p 1)) → length data = d → Forall (λ shard, length shard = n) data →
  chunk_cap = Nat.min n (driver_chunk_size (encode_driver d p n)) →
  parity_upto d p n data 0 parity →
  buffers_fit (2 ^ order2 (Nat.max p 1) * 2, chunk_cap) buffers →
  ∃ buffers' parity', encode_run8 mode TABLES8 (encode_driver d p n) data chunk_cap
      (encode_plans8 d p (order2 (Nat.max p 1))) buffers parity = Ok (buffers', parity') ∧
    buffers_fit (work_lanes buffers'.1, work_lane_len buffers'.1) buffers' ∧ parity_upto d p n data n parity'.
Proof.
  set (K := order2 (Nat.max p 1)). intros Hsh Hdl Hd Hcap Hup (Hl1 & Hl2 & Hl3 & Hl4).
  destruct buffers as [[lanes lane_len work] scratch]. cbn [fst snd work_lanes work_lane_len work_data] in *.
  subst lanes lane_len. destruct (lanes_of x00 _ _ work Hl3 Hl4) as (L & -> & HL).
  unfold encode_run8. cbn [work_lanes work_lane_len work_data].
  change (driver_m (encode_driver d p n)) with (2 ^ K). rewrite Nat.min_id.
  change (driver_shard_size (encode_driver d p n)) with n.
  pose proof (driver_chunk_pos d p n) as Hpos.
  destruct (lane_chunks_ok (E:=Error) K chunk_cap
    (encode_step8 mode TABLES8 (encode_driver d p n) (encode_plans8 d p K) data)
    1 n (driver_chunk_size (encode_driver d p n)) (λ offset st, parity_upto d p n data offset st.2)
    (Nat.divide_1_l _) (Nat.divide_1_l _) Hpos Hcap) with (fuel := S n) (offset := 0) (L := L) (st := (scratch, parity))
    as (L' & [scratch' parity'] & Hrun & HL' & Hup'); [|lia|lia|apply Nat.divide_1_l|done|done|].
  { intros offset size s t st H1 H2 H3 _ _ H4 H5 H6. by apply (encode_step8_ok mode d p n data Hsh Hdl Hd). }
  cbn [snd] in *. rewrite Hrun. cbn [obind]. eexists _, _. split_and!; [reflexivity| |done].
  unfold buffers_fit. cbn. split_and!; [done|done|apply length_tabulate|by apply lanes_forall].
Qed.

Lemma encode_with_tables_ok caches d p n data parity :
  caches_ok caches → shape8 d p (order2 (Nat.max p 1)) → n ≠ 0 → n mod 64 = 0 →
  length data = d → Forall (λ shard, length shard = n) data →
  length parity = p → Forall (λ shard, length shard = n) parity →
  ∃ caches' parity', encode_with_tables mode TABLES8 caches d p data parity
      = Ok (caches', encode_driver d p n, parity') ∧
    caches_ok caches' ∧ length parity' = p ∧ Forall (λ shard, length shard = n) parity' ∧
    ∀ b, b < n → leopard_word (order2 (2 ^ order2 (Nat.max p 1) + d)) (order2 (Nat.max p 1)) d p
      (shard_column data b) (shard_column parity' b).
Proof.
  set (K := order2 (Nat.max p 1)). intros Hc Hsh Hn H64 Hdl Hd Hpl Hp.
  destruct (shape8_order d p K Hsh) as (HK & Hfit & Hg). pose proof Hsh as (Hd0 & Hp0 & HpK & Hpad).
  unfold encode_with_tables. rewrite Hpl, Hdl, !Nat.eqb_refl. cbn [negb orb].
  assert (∃ first, head data = Some first ∧ length first = n) as (first & -> & Hfirst).
  { destruct data as [|x ?]; [simpl in Hdl; lia|]. exists x. split; [done|]. by inversion Hd. }
  cbn [ok_or obind]. rewrite Hfirst. pose proof (pow2_le K 7 HK) as H128. change (2 ^ 7) with 128 in H128.
  rewrite build_encode_driver_ok by (try done; fold K; change MODULUS8 with 255; lia). cbn [obind].
  change (driver_shard_size (encode_driver d p n)) with n.
  change (driver_work_slices (encode_driver d p n)) with (2 ^ K * 2).
  set (cap := Nat.min n (driver_chunk_size (encode_driver d p n))).
  destruct (new_uninit_lanes (2 ^ K * 2) cap) as [H1 H2].
  edestruct (encode_cached_ok slog buffers_fit d p
    (encode_plans_new (E:=Error) d p (encode_driver d p n) (fft_skew TABLES8))
    (mk_flat (2 ^ K * 2) cap (new_uninit (2 ^ K * 2) cap), []) (2 ^ K * 2, cap)
    (encode_run8 mode TABLES8 (encode_driver d p n) data cap)
    (λ parity, parity_upto d p n data n parity))
    with (st := parity) (caches := caches) as (caches' & parity' & Hrun & Hc' & (P & HPe & HP & Hup)).
  { apply (encode_plans_new_ok slog 8 SKEW8); done. }
  { done. }
  { exact Hc. }
  { intros buffers Hb. apply encode_run8_ok; try done.
    destruct (lanes_of x00 p n parity Hpl Hp) as (P & -> & HP). exists P. split_and!; [done|done|lia]. }
  rewrite Hrun. cbn [obind]. exists caches', parity'. subst parity'. split_and!; [done|done| | |].
  - apply length_tabulate.
  - by apply lanes_forall.
  - intros b Hb. eapply (leopard_word_ext (F:=lch8)); [done| |by apply Hup]. intros i Hi.
    unfold shard_column, lanes_emb. by rewrite lookup_tabulate by done.
Qed.
End engine.

(** C10: for every supported shape, strategy of the butterflies, shard
    length in units of 64 bytes and contents of the caches, the encoder returns without
    error and leaves in each byte column of the parity the values, on the first points, of
    the polynomial of low degree whose values on the points behind them are the data; the caches
    stay sound. *)
Theorem leopard_encoder_correct {AL : Allocator8} {ALL : AllocatorLaws} (mode : Dit4Strategy)
    caches d p n data parity (Hc : caches_ok caches) (Hsh : shape8 d p (order2 (Nat.max p 1)))
    (Hn : n ≠ 0) (H64 : n mod 64 = 0) (Hd : length data = d) (Hdl : Forall (λ shard, length shard = n) data)
    (Hp : length parity = p) (Hpl : Forall (λ shard, length shard = n) parity) :
  ∃ caches' parity', encode_with_tables mode TABLES8 caches d p data parity
      = Ok (caches', encode_driver d p n, parity') ∧
    caches_ok caches' ∧ length parity' = p ∧ Forall (λ shard, length shard = n) parity' ∧
    ∀ b, b < n → leopard_word (order2 (2 ^ order2 (Nat.max p 1) + d)) (order2 (Nat.max p 1)) d p
      (shard_column data b) (shard_column parity' b).
Proof. by apply encode_with_tables_ok. Qed.
