(* ===== verification/LeoDecode8.v ===== *)
(** * Decoder of the Leopard GF(2^8) engine ([src/core/leopard_gf8/decode.rs])

    The lost shards are values of the polynomial of the code word.  The word is multiplied
    by the error locator, interpolated, differentiated and evaluated again: at a lost
    position the result is the lost byte times a factor, which the last step divides out.
    The factors come from a product of logarithms over all erasures, computed by Walsh
    transforms.  Plan and work space are kept in a cache of the thread.  This file has the
    definitions over [LeoDecode]; [LeoRestore8] and [LeoDecoder8] the correctness. *)

From Stdlib Require Import NArith Lia List Bool.
From stdpp Require Import base numbers list.
From S2P Require Import Prelude Errors Bytes Fields Gf8 Options Leopard LinAlg Lch LeoStages.
From S2P Require Import LeoButterfly LeoTables8 LeoWalsh8 LeoOps8 LeoPlan LeoDit LeoCode LeoDit8 LeoGroup8 LeoEncode8.
From S2P Require Import LeoFlat LeoLocator LeoDecode LeoRestore LeoDecoder.

Definition LeopardGf8DecodeDriver : Type := LeopardDecodeDriver.

Definition build_leopard_gf8_decode_driver (data_shards parity_shards shard_size : nat)
  : outcome Error LeopardGf8DecodeDriver :=
  build_decode_driver MODULUS8 ORDER8 WORK_SIZE8 data_shards parity_shards shard_size.

(** ** Error locator *)
Definition u8_from_bool (b : bool) : byte := if b then x01 else x00.

(** The product of two logarithms modulo 255. *)
Definition mul_mod8 (e w : byte) : byte := as_u8 ((u8_to_N e * u8_to_N w) mod N.of_nat MODULUS8).

Definition compute_error_locs (present : list bool) (driver : LeopardGf8DecodeDriver)
    (tables : LeopardGf8Tables) : outcome Error (list byte) :=
  let err_locs := replicate ORDER8 x00 in
  let! err_locs := for_range 0 (dec_parity_shards driver) (λ i err_locs,
    let! here := index present (dec_data_shards driver + i) in
    update err_locs i (u8_from_bool (negb here))) err_locs in
  let! err_locs := for_range (dec_parity_shards driver) (dec_m driver) (λ i err_locs,
    update err_locs i x01) err_locs in
  let! err_locs := for_range 0 (dec_data_shards driver) (λ i err_locs,
    let! here := index present i in
    update err_locs (dec_m driver + i) (u8_from_bool (negb here))) err_locs in
  let! err_locs := fwht8_mtrunc err_locs (dec_work_size driver) in
  let! err_locs := walsh_products x00 mul_mod8 ORDER8 (log_walsh tables) err_locs in
  fwht_variable err_locs.

(** ** Plans, buffers and their cache *)
Record DecodePlan := mk_decode_plan {
  plan_data_shards : nat;
  plan_parity_shards : nat;
  plan_present : list bool;
  plan_err_locs : list byte;
  plan_ifft : IfftDit8Plan;
  plan_fft : FftDit8Plan;
}.

Definition decode_plan_new (present : list bool) (driver : LeopardGf8DecodeDriver)
    (tables : LeopardGf8Tables) : outcome Error DecodePlan :=
  let! data_present := slice present 0 (dec_data_shards driver) in
  let input_count :=
    match rposition data_present with
    | Some i => dec_m driver + i + 1
    | None => dec_m driver
    end in
  let! _ := slice (E:=Error) (replicate ORDER8 false) 0 (length present) in
  let key := splice (replicate ORDER8 false) 0 present in
  let! err_locs := compute_error_locs present driver tables in
  let! ifft := build_ifft_decode_dit8_plan input_count (dec_n driver) (fft_skew tables) in
  let! fft := build_fft_dit8_plan (dec_work_size driver) (dec_n driver) (fft_skew tables) in
  Ok (mk_decode_plan (dec_data_shards driver) (dec_parity_shards driver) key err_locs ifft fft).

Definition plan_matches (plan : DecodePlan) (present : list bool) (driver : LeopardGf8DecodeDriver) : bool :=
  (plan_data_shards plan =? dec_data_shards driver)
  && (plan_parity_shards plan =? dec_parity_shards driver)
  && bool_decide (take (length present) (plan_present plan) = present).

Record DecodeBuffers := mk_decode_buffers { dec_work : FlatWork; dec_scratch : list byte }.

Definition decode_chunk_cap (driver : LeopardGf8DecodeDriver) : nat :=
  Nat.min (dec_shard_size driver) (dec_chunk_size driver).

(** [FlatWork::new]: zeroed lanes. *)
Definition flat_new (lanes lane_len : nat) : FlatWork :=
  mk_flat lanes lane_len (replicate lanes (replicate lane_len x00)).

Definition decode_buffers_new (driver : LeopardGf8DecodeDriver) : DecodeBuffers :=
  mk_decode_buffers (flat_new (dec_n driver) (decode_chunk_cap driver))
    (replicate (decode_chunk_cap driver) x00).

Definition buffers_match (buffers : DecodeBuffers) (driver : LeopardGf8DecodeDriver) : bool :=
  (work_lanes (dec_work buffers) =? dec_n driver)
  && (work_lane_len (dec_work buffers) =? decode_chunk_cap driver).

Definition MAX_CACHED_DECODE_PLAN_BYTES : N := 64 * 1024.
Definition MAX_CACHED_DECODE_WORK_BYTES : N := 4 * 1024 * 1024.

Record DecodeCache := mk_decode_cache {
  cached_plan : option DecodePlan;
  cached_buffers : option DecodeBuffers;
}.

(** The heap sizes that the cache compares with its limits depend on the allocator. *)
Class DecodeSizes := {
  plan_retained_bytes : DecodePlan → N;
  buffers_retained_bytes : DecodeBuffers → N;
}.

(** [with_decode_resources]; [None] is a cache that an outer call has borrowed.  [run]
    returns its result and the buffers, which it may change also when it fails. *)
Definition with_decode_resources {DS : DecodeSizes} {R} (cache : option DecodeCache)
    (present : list bool) (driver : LeopardGf8DecodeDriver) (tables : LeopardGf8Tables)
    (run : DecodePlan → DecodeBuffers → outcome Error (R * DecodeBuffers))
  : outcome Error (R * option DecodeCache) :=
  let locally plan cache :=
    let! ' (result, _) := run plan (decode_buffers_new driver) in Ok (result, cache) in
  match cache with
  | None => let! plan := decode_plan_new present driver tables in locally plan None
  | Some cache =>
      let matching :=
        match cached_plan cache with
        | Some plan => if plan_matches plan present driver then Some plan else None
        | None => None
        end in
      let! plan :=
        match matching with
        | Some plan => Ok plan
        | None => decode_plan_new present driver tables
        end in
      if match matching with
         | Some _ => false
         | None => (MAX_CACHED_DECODE_PLAN_BYTES <? plan_retained_bytes plan)%N
         end
      then locally plan (Some cache)
      else
        let usable :=
          match cached_buffers cache with
          | Some buffers => if buffers_match buffers driver then Some buffers else None
          | None => None
          end in
        match usable with
        | Some buffers =>
            let! ' (result, buffers) := run plan buffers in
            Ok (result, Some (mk_decode_cache (Some plan) (Some buffers)))
        | None =>
            let fresh := decode_buffers_new driver in
            if (MAX_CACHED_DECODE_WORK_BYTES <? buffers_retained_bytes fresh)%N
            then locally plan (Some (mk_decode_cache (Some plan) (cached_buffers cache)))
            else
              let! ' (result, buffers) := run plan fresh in
              Ok (result, Some (mk_decode_cache (Some plan) (Some buffers)))
        end
  end.

(** ** Transforms of the flat work space *)
Section transforms.
Context {E : Type} (tables : LeopardGf8Tables) (size n : nat).
Implicit Types (work : list (list byte)) (dir : TransformDir).

Definition dit2_8 (log_m : byte) (x y : list byte) : list byte * list byte := fft_dit2 x y log_m tables.
Definition idit2_8 (log_m : byte) (x y : list byte) : list byte * list byte := ifft_dit2 x y log_m tables.

(** Four lanes at once, with the three tables of the block. *)
Definition dit4_8 dir (log_m01 log_m23 log_m02 : byte) (a b c d : list byte)
  : list byte * list byte * list byte * list byte :=
  match dir with Forward => fft_dit4_full_lut_scratch | Inverse => ifft_dit4_full_lut_scratch end
    a b c d log_m01 log_m23 log_m02 (mul_lut tables log_m01) (mul_lut tables log_m23) (mul_lut tables log_m02).

Definition dit4_decode_at8 dir work (base dist : nat) (log_m01 log_m23 log_m02 : byte)
  : outcome E (list (list byte)) :=
  dit4_decode_at dit2_8 idit2_8 dit4_8 size dir work base dist log_m01 log_m23 log_m02.

Definition fft_dit_decode8_with_plan (plan : FftDit8Plan) work : outcome E (list (list byte)) :=
  fft_decode_with_plan dit2_8 idit2_8 dit4_8 size n plan work.

Definition ifft_dit_decode8_with_plan (plan : IfftDit8Plan) work : outcome E (list (list byte)) :=
  ifft_decode_with_plan x00 dit2_8 idit2_8 dit4_8 size n plan work.

(** [slice_xor(s, d)] on the first [size] bytes of the lanes. *)
Definition xor_prefix (s d : list byte) : list byte * list byte :=
  on_prefix size (λ s d, (s, slice_xor s d)) s d.

Definition add_pair8 (dst_idx src_idx : nat) work : list (list byte) := with_pair work src_idx dst_idx xor_prefix.

Definition compute_formal_derivative work : outcome E (list (list byte)) := formal_derivative add_pair8 n work.
End transforms.

(** ** One reconstruction *)
Section reconstruct.
Context (present : list bool) (input_data : list (option (list byte))) (driver : LeopardGf8DecodeDriver)
  (tables : LeopardGf8Tables).

(** [&data[offset..end]] *)
Definition chunk_of8 (data : list byte) (offset stop : nat) : outcome Error (list byte) := slice data offset stop.

(** [mulgf8(&mut lane[..size], src, log, tables)], the contents of the destination. *)
Definition mul_into8 (src view : list byte) (log : byte) : outcome Error (list byte) :=
  Ok (mulgf8 view src log tables).

(** [(MODULUS8 as u8).wrapping_sub(err)] *)
Definition inverse_log (err : byte) : byte := as_u8 (N.of_nat MODULUS8 + 256 - u8_to_N err).

(** Steps 1 to 4 of a chunk. *)
Definition decode_chunk8 (plan : DecodePlan) (offset stop : nat) (work : list (list byte))
  : outcome Error (list (list byte)) :=
  decode_chunk x00 chunk_of8 mul_into8 present input_data driver (plan_err_locs plan)
    (λ size, ifft_dit_decode8_with_plan tables size (dec_n driver) (plan_ifft plan))
    (λ size, compute_formal_derivative size (dec_n driver))
    (λ size, fft_dit_decode8_with_plan tables size (dec_n driver) (plan_fft plan)) offset stop work.

Definition recover_shard (err_locs : list byte) (offset stop : nat) (work : list (list byte))
    (i : nat) (outputs : list (list byte)) : outcome Error (list (list byte)) :=
  let! here := index present i in
  let! output := index outputs i in
  if here || (length output =? 0) then Ok outputs else
  let work_idx := work_index driver i in
  let! err := index err_locs work_idx in
  let! view := slice output offset stop in
  let! lane := index work work_idx in
  let! src := slice lane 0 (stop - offset) in
  let! view := mul_into8 src view (inverse_log err) in
  update outputs i (splice output offset view).

(** Step 5. *)
Definition recover_shards (err_locs : list byte) (offset stop : nat) (work outputs : list (list byte))
  : outcome Error (list (list byte)) :=
  for_range 0 (dec_data_shards driver + dec_parity_shards driver)
    (recover_shard err_locs offset stop work) outputs.

Definition reconstruct_chunks (fuel : nat) (plan : DecodePlan) (offset : nat) (work outputs : list (list byte))
  : outcome Error (list (list byte) * list (list byte)) :=
  decode_chunks (decode_chunk8 plan) (recover_shards (plan_err_locs plan)) fuel
    (dec_chunk_size driver) offset (dec_shard_size driver) work outputs.

Definition reconstruct_with_resources (outputs : list (list byte)) (plan : DecodePlan)
    (buffers : DecodeBuffers) : outcome Error (list (list byte) * DecodeBuffers) :=
  let flat := dec_work buffers in
  let! ' (work, outputs) :=
    reconstruct_chunks (S (dec_shard_size driver)) plan 0 (work_data flat) outputs in
  Ok (outputs, mk_decode_buffers (mk_flat (work_lanes flat) (work_lane_len flat) work) (dec_scratch buffers)).
End reconstruct.

(** [reconstruct_with_tables]: the new contents of the outputs and the cache. *)
Definition decode_with_tables {DS : DecodeSizes} (cache : option DecodeCache) (tables : LeopardGf8Tables)
    (present : list bool) (outputs : list (list byte)) (input_data : list (option (list byte)))
    (data_shards parity_shards : nat) : outcome Error (list (list byte) * option DecodeCache) :=
  let! shard_size :=
    validate_leopard_decode_buffers present outputs input_data data_shards parity_shards in
  if forallb id present || forallb (λ output, length output =? 0) outputs then Ok (outputs, cache) else
  let! driver := build_leopard_gf8_decode_driver data_shards parity_shards shard_size in
  with_decode_resources cache present driver tables
    (reconstruct_with_resources present input_data driver tables outputs).
