(* ===== verification/LeoLocator8.v ===== *)
(** * Error locators of the Leopard GF(2^8) decoder ([compute_error_locs])

    The decoder needs, for each position, the product of its distances to the erased
    positions.  The code gets the logarithms of all 256 products with two Walsh
    transforms: the logarithm of a product is a sum, the distance of two points is the
    point of the exclusive or of their indices, and so the sums are a convolution. *)

From Stdlib Require Import NArith ZArith Lia List Bool.
From stdpp Require Import base numbers list.
From S2P Require Import Prelude Errors Bytes Fields Gf8 Options Leopard LinAlg Lch LeoStages.
From S2P Require Import LeoWalsh LeoTables8 LeoWalsh8 LeoOps8 LeoPlan LeoCode LeoDit8 LeoLocator LeoDecode LeoDecode8.

Local Open Scope Z_scope.

(** ** Exponentials of integers modulo 255 *)
Definition expz (z : Z) : byte := lexp (Z.to_nat (z mod 255)).

Lemma expz_eqm a b : eqm255 a b → expz a = expz b.
Proof. intros H%eqm_mod; [|lia]. unfold expz. by rewrite H. Qed.

Lemma bz_nat b : bz b = Z.of_nat (u8_to_nat b).
Proof. unfold bz, u8_to_nat. by rewrite N_nat_Z. Qed.

Lemma expz_bz b : expz (bz b) = lexp (u8_to_nat b).
Proof.
  unfold expz. rewrite bz_nat. change 255 with (Z.of_nat 255). rewrite <- Nat2Z.inj_mod, Nat2Z.id.
  unfold lexp. by rewrite Nat.Div0.mod_mod.
Qed.

Lemma expz_add a b : expz (a + b) = lch_mul (expz a) (expz b).
Proof.
  unfold expz. rewrite lch_mul_spec, !llog_lexp by apply lexp_neq_0. unfold lexp. f_equal.
  apply Nat2Z.inj. rewrite !Nat2Z.inj_mod, Nat2Z.inj_add, !Nat2Z.inj_mod, !Z2Nat.id by (apply Z.mod_pos_bound; lia).
  change (Z.of_nat 255) with 255. rewrite !Z.mod_mod by lia. apply Z.add_mod. lia.
Qed.

Lemma expz_0 : expz 0 = x01.
Proof. by vm_compute. Qed.

(** The table of logarithms, with 0 for the logarithm of zero. *)
Definition walsh_log (i : nat) : byte := if decide (i = 0%nat) then x00 else tbl LOG8 i.

Lemma expz_distance i j : (i < 256)%nat → (j < 256)%nat → i ≠ j →
  expz (bz (walsh_log (Nat.lxor i j))) = u8_xor (pt8 i) (pt8 j).
Proof.
  intros Hi Hj Hij. assert (Nat.lxor i j ≠ 0%nat) as Hne by (intros H; apply Hij; by apply Nat.lxor_eq).
  assert (Nat.lxor i j < 256)%nat as Hlt by (apply (lxor_lt 8); done).
  rewrite expz_bz. unfold walsh_log. rewrite decide_False by done.
  rewrite <- (u8_to_nat_pt8 (Nat.lxor i j)) by done. rewrite lexp_log8.
  - by apply (pt_xor (F:=lch8) (w:=8)).
  - intros H. apply Hne. rewrite <- (u8_to_nat_pt8 (Nat.lxor i j)), H by done. done.
Qed.

#[export] Instance exponents8 : Exponents (F:=lch8) 8 pt8 bz 255 expz walsh_log.
Proof.
  split; [apply expz_eqm|apply expz_add|exact expz_0|exact expz_distance|done].
Qed.

(** ** The transforms *)
Lemma walsh_log_transform i : (i < 256)%nat →
  eqm255 (bz (tbl WALSH8 i)) (wht 8 (λ j, bz (walsh_log j)) i).
Proof.
  intros Hi.
  destruct (fwht8_spec (E:=Empty_set) (λ j, if (j <? 256)%nat then walsh_log j else x00)) as (t & Ht & Hspec).
  { intros j Hj. by rewrite (proj2 (Nat.ltb_ge j 256)). }
  assert (fwht8 (E:=Empty_set) (tabulate 256 (λ j, if (j <? 256)%nat then walsh_log j else x00)) = Ok WALSH8) as HW
    by (vm_compute; reflexivity).
  rewrite Ht in HW. assert (WALSH8 = tabulate 256 t) as -> by congruence. rewrite tbl_tabulate by done.
  rewrite Hspec by done. rewrite (wht_ext _ _ (λ j, bz (walsh_log j))); [done|].
  intros j Hj. by rewrite (proj2 (Nat.ltb_lt j 256)).
Qed.

Lemma eqm255_256 x : eqm255 (2 ^ Z.of_nat 8 * x) x.
Proof. exists x. change (2 ^ Z.of_nat 8) with 256. lia. Qed.

Lemma bz_mul_mod8 e w :
  eqm255 (bz (mul_mod8 e w)) (bz e * bz w).
Proof.
  unfold mul_mod8, bz. rewrite u8_to_N_as_u8. change (N.of_nat MODULUS8) with 255%N.
  pose proof (N.mod_lt (u8_to_N e * u8_to_N w) 255 ltac:(lia)) as H.
  rewrite (N.mod_small _ 256) by lia. rewrite N2Z.inj_mod, N2Z.inj_mul. apply eqm_mod; [lia|].
  apply Z.mod_mod. lia.
Qed.
(** The third table in its role for the locator. *)
Lemma walsh_of_logs8 : walsh_of_logs 8 bz 255 walsh_log WALSH8.
Proof.
  intros i Hi. change (2 ^ 8)%nat with 256%nat in Hi. assert (length WALSH8 = 256)%nat as HW by done.
  destruct (lookup_lt_is_Some_2 WALSH8 i ltac:(lia)) as [x Hx]. exists x. split; [done|].
  rewrite <- walsh_log_transform by done. unfold tbl. by rewrite Hx.
Qed.
Local Close Scope Z_scope.

(** ** [compute_error_locs] *)
Lemma bz_from_bool b : bz (u8_from_bool b) = Z.b2z b.
Proof. by destruct b. Qed.

Section locator.
Context (present : list bool) (d p K : nat) (driver : LeopardGf8DecodeDriver).
Context (Hd : dec_data_shards driver = d) (Hp : dec_parity_shards driver = p).
Context (Hm : dec_m driver = 2 ^ K) (Hw : dec_work_size driver = 2 ^ K + d).
Context (HpK : p ≤ 2 ^ K) (Hfit : 2 ^ K + d ≤ 256) (Hpresent : length present = d + p).
#[local] Abbreviation here := (here present).
#[local] Abbreviation lost := (lost present d p K).

Definition error_products (v : nat → byte) : Prop :=
  locates (F:=lch8) pt8 lost 256 256 (λ i, lexp (u8_to_nat (v i))).

(** The marks, one loop after the other. *)
Lemma marks_ok (k : list byte → outcome Error (list byte)) :
  (let! err_locs := for_range 0 p (λ i err_locs,
     let! here := index present (d + i) in update err_locs i (u8_from_bool (negb here)))
     (replicate ORDER8 x00) in
   let! err_locs := for_range p (2 ^ K) (λ i err_locs, update err_locs i x01) err_locs in
   let! err_locs := for_range 0 d (λ i err_locs,
     let! here := index present i in update err_locs (2 ^ K + i) (u8_from_bool (negb here))) err_locs in
   k err_locs) = k (tabulate 256 (λ i, u8_from_bool (lost i))).
Proof.
  replace (replicate ORDER8 x00) with (tabulate 256 (λ _, x00)) by done.
  rewrite (mark_loop 256 0 p _ (λ i, u8_from_bool (negb (here (d + i))))); [|intros i s _ Hi|lia].
  2:{ rewrite index_present by lia. cbn [obind]. apply update_tabulate. lia. }
  cbn [obind]. rewrite (mark_loop 256 p (2 ^ K) _ (λ _, x01)); [|intros i s _ Hi; apply update_tabulate; lia|done].
  cbn [obind]. match goal with |- context [for_range 0 d ?b ?s] =>
    replace (for_range 0 d b s) with (for_range (E:=Error) (2 ^ K) (2 ^ K + d) (λ i err_locs,
      let! here := index present (i - 2 ^ K) in update err_locs i (u8_from_bool (negb here))) s) end.
  2:{ rewrite for_range_shift. unfold for_range. generalize (seq 0 (d - 0)). intros l.
      match goal with |- for_each l _ ?s = _ => generalize s end.
      induction l as [|x l IH]; intros s; [done|]. cbn [for_each].
      replace (2 ^ K + x - 2 ^ K) with x by lia. destruct (index present x); cbn [obind]; [|done..].
      destruct (update s _ _); cbn [obind]; [apply IH|done..]. }
  rewrite (mark_loop 256 (2 ^ K) (2 ^ K + d) _ (λ i, u8_from_bool (negb (here (i - 2 ^ K))))); [|intros i s Hi Hi'|lia].
  2:{ rewrite index_present by lia. cbn [obind]. apply update_tabulate. lia. }
  cbn [obind]. f_equal. apply tabulate_ext. intros i Hi. unfold LeoLocator.lost.
  destruct (Nat.ltb_spec i p), (Nat.ltb_spec i (2 ^ K)), (Nat.ltb_spec i (2 ^ K + d));
    repeat first [rewrite decide_True by lia | rewrite decide_False by lia]; try done; lia.
Qed.

Lemma compute_error_locs_ok :
  ∃ v, compute_error_locs present driver TABLES8 = Ok (tabulate 256 v) ∧ error_products v.
Proof.
  unfold compute_error_locs. rewrite Hd, Hp, Hm, Hw, marks_ok.
  destruct (fwht8_mtrunc_spec (E:=Error) (2 ^ K + d) (λ i, u8_from_bool (lost i)) Hfit) as (t & -> & Ht).
  { intros j Hj. by rewrite lost_end. }
  cbn [obind].
  destruct (walsh_products_ok (E:=Error) 8 fwht2_alt8 bz x00 255 walsh_log mul_mod8 bz_mul_mod8 WALSH8 t walsh_of_logs8)
    as (u & Hu & Hu0 & Hut).
  change (2 ^ 8) with 256 in *. change ORDER8 with 256. change (log_walsh TABLES8) with WALSH8. rewrite Hu. cbn [obind].
  destruct (fwht_variable_bytes (E:=Error) u) as (v & Hv & Hspec); [done|].
  exists v. split; [done|]. intros i Hi. rewrite <- expz_bz.
  apply (walsh_locator_ok (F:=lch8) 8 pt8 bz 255 expz walsh_log eqm255_256 lost t u v); [|done..].
  intros j Hj. rewrite Ht by done. rewrite (wht_ext _ _ (λ j, Z.b2z (lost j))); [done|].
  intros l _. apply bz_from_bool.
Qed.
End locator.

(** C12: the table that the Walsh transforms leave holds, for each of the
    256 positions, the logarithm of the product of its distances to the erased positions
    other than itself: lost parity, the padding of the parity block, lost data. *)
Theorem error_locs_correct (present : list bool) (d p K : nat) (driver : LeopardGf8DecodeDriver)
    (Hdriver : (dec_data_shards driver, dec_parity_shards driver, dec_m driver, dec_work_size driver)
               = (d, p, 2 ^ K, 2 ^ K + d))
    (Hp : p ≤ 2 ^ K) (Hfit : 2 ^ K + d ≤ 256) (Hl : length present = d + p) :
  ∃ v, compute_error_locs present driver TABLES8 = Ok (tabulate 256 v) ∧ ∀ i, i < 256 →
    lexp (u8_to_nat (v i))
    = locator (F:=lch8) pt8 (filter (λ j, lost present d p K j ∧ j ≠ i) (seq 0 256)) (pt8 i).
Proof.
  injection Hdriver as H1 H2 H3 H4. by apply (compute_error_locs_ok present d p K driver).
Qed.
