(* ===== verification/LeoRestore8.v ===== *)
(** * Restoring lost shards with the Leopard GF(2^8) engine

    The decoder of [LeoDecode8] is one of the engines of [LeoRestore] ([engine8]); its
    loop over the shards writes what [recovered] says ([recover_shards_ok]), so every chunk
    of the lost shards is right. *)

From Stdlib Require Import NArith Lia List Bool.
From stdpp Require Import base numbers list.
From S2P Require Import Prelude Errors Bytes Fields Gf8 Options Leopard LinAlg Lch LeoStages.
From S2P Require Import LeoButterfly LeoTables8 LeoWalsh8 LeoOps8 LeoPlan LeoDit LeoCode LeoDit8 LeoGroup LeoChunk LeoGroup8 LeoEncode8.
From S2P Require Import LeoFlat LeoLocator LeoDecode LeoRestore LeoDecoder LeoDecode8 LeoLocator8.

(** ** The engine *)
Definition factor8 (log : byte) : byte := lexp (u8_to_nat log).

(** The bytes that are written to an output. *)
Definition store8 (lane view : list byte) (log : byte) : outcome Error (list byte) :=
  mul_into8 TABLES8 lane view log.

(** Dividing by the factor. *)
Lemma inverse_log_spec x err : lch_mul (lch_mul x (factor8 err)) (factor8 (inverse_log err)) = x.
Proof.
  unfold factor8.
  assert (lch_mul (lexp (u8_to_nat err)) (lexp (u8_to_nat (inverse_log err))) = x01) as H.
  { rewrite lch_mul_spec, !llog_lexp by apply lexp_neq_0.
    replace x01 with (lexp 0) by (by vm_compute). unfold lexp. f_equal.
    assert (u8_to_nat (inverse_log err) = 255 - u8_to_nat err) as ->.
    { unfold inverse_log, u8_to_nat. rewrite u8_to_N_as_u8. change (N.of_nat MODULUS8) with 255%N.
      pose proof (u8_to_N_bound err). replace (255 + 256 - u8_to_N err)%N with (255 - u8_to_N err + 1 * 256)%N by lia.
      rewrite N.Div0.mod_add, N.mod_small by lia. lia. }
    pose proof (u8_to_N_bound err) as Hb. rewrite <- Nat.Div0.add_mod.
    replace (u8_to_nat err + (255 - u8_to_nat err)) with 255 by (unfold u8_to_nat; lia). done. }
  pose proof (Fields.mul_assoc (F:=lch8) x (lexp (u8_to_nat err)) (lexp (u8_to_nat (inverse_log err)))) as Ha.
  cbn [Fields.mul lch8] in Ha. rewrite <- Ha, H. apply (Fields.mul_1_r (F:=lch8)).
Qed.

(** An addition of lanes. *)
Lemma xor_prefix_ok size len x y : size ≤ len → length x = len → length y = len →
  (xor_prefix size x y).1 = x ∧ length (xor_prefix size x y).2 = len ∧
  ∀ b, b < size → tbl (xor_prefix size x y).2 b = u8_xor (tbl y b) (tbl x b).
Proof.
  intros Hsize Hx Hy. unfold xor_prefix, on_prefix. cbn [fst snd].
  assert (length (take size x) = length (take size y)) as Hlen by len.
  assert (length (slice_xor (take size x) (take size y)) = size) as Hl
    by (rewrite length_slice_xor by done; len).
  split_and!.
  - apply take_drop.
  - rewrite length_app, Hl. len.
  - intros b Hb. rewrite tbl_app_l, tbl_slice_xor, !tbl_take by len. done.
Qed.

Lemma add_pair8_ok N len size lo hi s : size ≤ len → lo < N → hi < N → lo ≠ hi → lanes_good len s →
  ∃ x, add_pair8 size lo hi (lanes_emb N s) = lanes_emb N (λ j, if decide (j = lo) then x else s j) ∧
    length x = len ∧ ∀ b, b < size → tbl x b = u8_xor (tbl (s lo) b) (tbl (s hi) b).
Proof.
  intros Hsize Hlo Hhi Hne Hs.
  destruct (xor_prefix_ok size len (s hi) (s lo) Hsize (Hs _) (Hs _)) as (Hfst & Hlen & Hcol).
  exists (xor_prefix size (s hi) (s lo)).2. split_and!; [|done|done].
  unfold add_pair8, lanes_emb. rewrite with_pair_tabulate by done. apply tabulate_ext. intros j _.
  unfold set2. repeat case_decide; [done|by rewrite Hfst; subst|done].
Qed.

#[export] Instance engine8 : DecodeEngine (F:=lch8) skew_value factor8 (dit2_8 TABLES8) (idit2_8 TABLES8)
  (dit4_8 TABLES8) add_pair8 1 1 tbl chunk_of8 (mul_into8 TABLES8) store8 inverse_log.
Proof.
  split.
  - apply byte_lanes.
  - intros dir m01 m23 m02 a b c d j. apply full_lut_lanes.
  - apply add_pair8_ok.
  - intros data offset size view log _ _ Hd Hv. rewrite Nat.mul_1_r in Hd.
    assert (length (take size (drop offset data)) = size) as Hl by len.
    destruct (mulgf8_bytes view (take size (drop offset data)) log) as [Hm Hb]; [by rewrite Hl|].
    exists (take size (drop offset data)), (mulgf8 view (take size (drop offset data)) log TABLES8).
    change (@Elem lch8) with byte in *.
    split_and!; [|reflexivity|by etrans; [exact Hm|]|].
    + unfold chunk_of8. rewrite slice_ok by lia. by replace (offset + size - offset) with size by lia.
    + intros b Hbs. etrans; [apply Hb; by rewrite Hv|]. rewrite tbl_take by done. unfold tbl at 1. by rewrite lookup_drop.
  - intros out offset size lane log _ _ Ho Hl. change (@Elem lch8) with byte in *. rewrite !Nat.mul_1_r in *.
    assert (length (take size (drop offset out)) = size) as Hv by len.
    destruct (mulgf8_bytes (take size (drop offset out)) lane log) as [Hm Hb]; [by rewrite Hl|]. rewrite Hv in Hm, Hb.
    eexists. split_and!; [reflexivity|done|]. intros e. unfold tbl at 1. rewrite lookup_splice by (rewrite Hm; lia).
    rewrite Hm. case_decide; [|done]. apply Hb. lia.
  - apply inverse_log_spec.
Qed.

(** ** The outputs *)

(** Element [b] of a shard. *)
Lemma shard_columns d p K k n (shards : list (list byte)) : length shards = d + p →
  words_ok (F:=lch8) pt8 tbl d p K k n shards ↔
  ∀ b, b < n → leopard_word k K d p (shard_column (take d shards) b) (shard_column (drop d shards) b).
Proof.
  intros Hlen. unfold words_ok, shard, shard_column.
  split; intros H b Hb; (eapply (leopard_word_ext (F:=lch8)); [| |by apply H]); intros i Hi; cbv beta;
    rewrite ?lookup_drop, ?lookup_take_lt by done; done.
Qed.

Section outputs.
Context (present : list bool) (d p K k n : nat) (driver : LeopardGf8DecodeDriver) (v : nat → byte).
Context (Hpresent : length present = d + p) (HpK : p ≤ 2 ^ K) (Hfit : 2 ^ K + d ≤ 2 ^ k) (H256 : 2 ^ K + d ≤ 256).
Context (Hdd : dec_data_shards driver = d) (Hdp : dec_parity_shards driver = p) (Hdm : dec_m driver = 2 ^ K).
Context (shards : list (list byte)) (O0 : nat → list byte) (Hn : 0 < n).
#[local] Abbreviation keep := (λ i, kept present i (O0 i)).
#[local] Abbreviation recovered8 := (recovered (F:=lch8) 1 store8 inverse_log d K v keep 0).

Lemma recover_shards_ok len offset stop W O : lanes_good len W →
  restored_upto (F:=lch8) 1 tbl d p shards keep 0 n offset O0 O →
  offset < stop → stop ≤ n → stop - offset ≤ len →
  recover_shards present driver TABLES8 (tabulate 256 v) offset stop (lanes_emb (2 ^ k) W) (tabulate (d + p) O)
  = Ok (tabulate (d + p) (λ i, recovered8 W offset stop i (O i))).
Proof.
  intros HW HO Hos Hs Hsz. unfold recover_shards. rewrite Hdd, Hdp.
  set (ok i x := i < d + p → if keep i then x = O0 i else length x = n).
  assert (∀ i x, i < d + p → ok i x → kept present i x = keep i) as Hkept.
  { intros i x Hi Hx. specialize (Hx Hi). destruct (keep i) eqn:Hki; [by rewrite Hx|].
    unfold kept in *. apply orb_false_iff in Hki as [-> _]. rewrite Hx. apply Nat.eqb_neq. lia. }
  rewrite (map_range_at ok (d + p) 0 (d + p) _ (recovered8 W offset stop)); [| | | |lia].
  - f_equal. apply tabulate_ext. intros i Hi. by rewrite decide_True by lia.
  - intros i U _ Hi HU. destruct (position_lost present d p K HpK i Hi) as (_ & Hpos & _). unfold recover_shard.
    rewrite index_present by lia. cbn [obind]. rewrite index_tabulate by done. cbn [obind].
    fold (kept present i (U i)). rewrite (Hkept i (U i) Hi (HU i)). specialize (HU i Hi).
    unfold recovered. destruct (keep i) eqn:Hki.
    + f_equal. apply tabulate_ext. intros j _. case_decide; [|done]. subst j. by rewrite Hki.
    + unfold work_index. rewrite Hdd, Hdm. fold (position d K i). rewrite index_tabulate by lia. cbn [obind].
      rewrite slice_ok by lia. cbn [obind]. unfold lanes_emb. rewrite index_tabulate by lia. cbn [obind].
      rewrite slice_ok by (rewrite ?(HW (position d K i)); lia). cbn [obind]. rewrite Nat.sub_0_r, drop_0.
      unfold mul_into8 at 1. cbn [obind]. rewrite update_tabulate by done.
      f_equal. apply tabulate_ext. intros j _. case_decide; [|done]. subst j.
      rewrite Hki, !Nat.mul_1_r, !Nat.sub_0_r. done.
  - intros i x Hx Hi. specialize (Hx Hi). unfold recovered. destruct (keep i) eqn:Hki; [done|].
    unfold store8, mul_into8. rewrite !Nat.mul_1_r, !Nat.sub_0_r.
    pose proof (HW (position d K i)) as HWi.
    destruct (mulgf8_bytes (take (stop - offset) (drop offset x)) (take (stop - offset) (W (position d K i)))
      (inverse_log (v (position d K i)))) as [Hm _]; [change (@Elem lch8) with byte in *; len|].
    change (@Elem lch8) with byte in *. rewrite length_splice; [done|]. rewrite Hm. len.
  - intros i Hi. specialize (HO i Hi). destruct (keep i); [done|]. destruct HO as [-> _]. lia.
Qed.
End outputs.
