(* ===== verification/LeoDecoder8.v ===== *)
(** * Correctness of the Leopard GF(2^8) decoder

    Plans and buffers of the cache ([decode_cache_ok]) do not change results: with any
    cache, every loss of at most [p] shards of a code word is restored
    ([decode_with_tables_ok]), without error and without panic. *)

From Stdlib Require Import NArith Lia List Bool.
From stdpp Require Import base numbers list.
From S2P Require Import Prelude Errors Bytes Fields Gf8 Options Leopard LinAlg Lch LeoStages.
From S2P Require Import LeoTables8 LeoWalsh8 LeoOps8 LeoPlan LeoDit LeoCode LeoDit8 LeoChunk LeoEncode8.
From S2P Require Import LeoFlat LeoLocator LeoDecode LeoRestore LeoDecoder LeoDecode8 LeoLocator8 LeoRestore8.

(** ** Shapes *)
Abbreviation decode_shape8 := (decode_shape 8).
Abbreviation decode_driver8 := (decode_driver WORK_SIZE8).
(** Shards whose byte columns are words of the code. *)
Abbreviation words_ok8 := (words_ok (F:=lch8) pt8 tbl).

Lemma shape8_orders d p : decode_shape8 d p →
  p ≤ 2 ^ KO p ∧ NO d p ≤ 8 ∧ 2 ^ KO p + d ≤ 2 ^ NO d p ∧ 2 ^ KO p + d ≤ 256.
Proof.
  intros Hsh. destruct (decode_shape_orders 8 d p Hsh) as (? & ? & ?). destruct Hsh as (_ & _ & _ & Hf).
  change (2 ^ 8) with 256 in Hf. done.
Qed.

(** ** Plans *)

(** A plan fits the losses. *)
Definition plan_fits (d p : nat) (present : list bool) (plan : DecodePlan) : Prop := ∃ v ic,
  plan = mk_decode_plan d p (splice (replicate ORDER8 false) 0 present) (tabulate 256 v)
    (ifft_plan 0 (NO d p) ic) (fft_plan (NO d p) (2 ^ KO p + d)) ∧
  error_products present d p (KO p) v ∧ covers_input d p present ic.

Lemma decode_plan_steps present driver tables err_locs ifft fft :
  dec_data_shards driver ≤ length present → length present ≤ ORDER8 →
  compute_error_locs present driver tables = Ok err_locs →
  build_ifft_decode_dit8_plan (E:=Error) (match rposition (take (dec_data_shards driver) present) with
    | Some i => dec_m driver + i + 1 | None => dec_m driver end) (dec_n driver) (fft_skew tables) = Ok ifft →
  build_fft_dit8_plan (E:=Error) (dec_work_size driver) (dec_n driver) (fft_skew tables) = Ok fft →
  decode_plan_new present driver tables = Ok (mk_decode_plan (dec_data_shards driver) (dec_parity_shards driver)
    (splice (replicate ORDER8 false) 0 present) err_locs ifft fft).
Proof.
  intros Hd Hl He Hi Hf. assert (length (replicate ORDER8 false) = ORDER8) as Hkey by apply length_replicate.
  unfold decode_plan_new. rewrite slice_ok by lia. cbn [obind]. rewrite Nat.sub_0_r, drop_0.
  rewrite slice_ok by lia. cbn [obind]. rewrite He. cbn [obind]. rewrite Hi. cbn [obind].
  rewrite Hf. reflexivity.
Qed.

Lemma decode_plan_new_ok d p n present : decode_shape8 d p → length present = d + p →
  ∃ plan, decode_plan_new present (decode_driver8 d p n) TABLES8 = Ok plan ∧ plan_fits d p present plan.
Proof.
  intros Hsh Hpl. destruct (shape8_orders d p Hsh) as (HpK & Hk & Hfit & H256).
  pose proof (input_count_ok d p present HpK) as Hic.
  destruct (compute_error_locs_ok present d p (KO p) (decode_driver8 d p n) eq_refl eq_refl eq_refl eq_refl HpK H256 Hpl)
    as (v & He & Hv).
  eexists. split; [|exists v, (input_count d p present); split_and!; [reflexivity|done|done]].
  apply (decode_plan_steps present (decode_driver8 d p n) TABLES8); [cbn; lia| |exact He| |].
  - change ORDER8 with 256. lia.
  - destruct Hic as (_ & ? & _). apply (build_ifft_decode_dit8_plan_ok (NO d p)); [done|lia].
  - by apply (build_fft_dit8_plan_ok (NO d p)).
Qed.

(** ** The cache *)
Definition decode_buffers_fit (lanes lane_len : nat) (buffers : DecodeBuffers) : Prop :=
  work_lanes (dec_work buffers) = lanes ∧ work_lane_len (dec_work buffers) = lane_len ∧
  length (work_data (dec_work buffers)) = lanes ∧
  Forall (λ lane, length lane = lane_len) (work_data (dec_work buffers)).

Definition decode_cache_ok (cache : option DecodeCache) : Prop := ∀ c, cache = Some c →
  (∀ plan, cached_plan c = Some plan → ∃ d p present,
     decode_shape8 d p ∧ length present = d + p ∧ plan_fits d p present plan) ∧
  ∀ buffers, cached_buffers c = Some buffers → ∃ lanes lane_len, decode_buffers_fit lanes lane_len buffers.

Lemma empty_decode_cache_ok : decode_cache_ok (Some (mk_decode_cache None None)).
Proof. intros c [= <-]. done. Qed.

(** A plan of the cache that matches is a plan for these losses. *)
Lemma matching_plan d p n present d' p' present' plan : length present' = d' + p' →
  decode_shape8 d' p' → plan_fits d' p' present' plan →
  plan_matches plan present (decode_driver8 d p n) = true → length present = d + p →
  plan_fits d p present plan.
Proof.
  intros Hl' Hsh' Hfits Hm Hl. destruct (shape8_orders d' p' Hsh') as (HpK & _ & _ & H256).
  destruct Hfits as (v & ic & -> & H). unfold plan_matches in Hm.
  cbn [plan_data_shards plan_parity_shards plan_present decode_driver dec_data_shards dec_parity_shards] in Hm.
  apply andb_true_iff in Hm as [[->%Nat.eqb_eq ->%Nat.eqb_eq]%andb_true_iff Hkey%bool_decide_eq_true].
  assert (present' = present) as ->; [|by exists v, ic].
  rewrite splice_0 in Hkey by (rewrite length_replicate; change ORDER8 with 256; lia).
  rewrite Hl, <- Hl', take_app_length in Hkey. done.
Qed.

Section resources.
Context {DS : DecodeSizes} {R : Type} (d p n : nat) (present : list bool) (r : R).
Context (Hsh : decode_shape8 d p) (Hl : length present = d + p).
Context (run : DecodePlan → DecodeBuffers → outcome Error (R * DecodeBuffers)).
#[local] Abbreviation lanes := (2 ^ NO d p).
#[local] Abbreviation cap := (decode_chunk_cap (decode_driver8 d p n)).
Context (Hrun : ∀ plan buffers, plan_fits d p present plan → decode_buffers_fit lanes cap buffers →
  ∃ buffers', run plan buffers = Ok (r, buffers') ∧ decode_buffers_fit lanes cap buffers').

Lemma new_buffers_fit : decode_buffers_fit lanes cap (decode_buffers_new (decode_driver8 d p n)).
Proof.
  unfold decode_buffers_fit, decode_buffers_new, flat_new. cbn [dec_work work_lanes work_lane_len work_data].
  change (dec_n (decode_driver8 d p n)) with lanes. generalize cap, lanes. intros c l.
  split_and!; [done|done|apply length_replicate|]. apply Forall_replicate, length_replicate.
Qed.

(** Whatever the cache holds, the result is the same, and the cache stays sound. *)
Lemma with_resources_ok cache : decode_cache_ok cache →
  ∃ cache', with_decode_resources cache present (decode_driver8 d p n) TABLES8 run = Ok (r, cache') ∧
    decode_cache_ok cache'.
Proof.
  intros Hcache. unfold with_decode_resources.
  destruct (decode_plan_new_ok d p n present Hsh Hl) as (fresh & Hfresh & Hfits).
  destruct (Hrun _ _ Hfits new_buffers_fit) as (b0 & Hb0 & Hb0f).
  destruct cache as [c|].
  2:{ rewrite Hfresh. cbn [obind]. rewrite Hb0. cbn [obind]. by exists None. }
  destruct (Hcache c eq_refl) as [Hcp Hcb].
  set (matching := match cached_plan c with
    | Some plan => if plan_matches plan present (decode_driver8 d p n) then Some plan else None
    | None => None end).
  assert (∃ plan, match matching with Some plan => Ok plan
    | None => decode_plan_new present (decode_driver8 d p n) TABLES8 end = Ok plan ∧ plan_fits d p present plan)
    as (plan & -> & Hplan).
  { unfold matching. destruct (cached_plan c) as [plan|]; [|by exists fresh].
    destruct (plan_matches plan present (decode_driver8 d p n)) eqn:Hm; [|by exists fresh].
    exists plan. split; [done|]. destruct (Hcp plan eq_refl) as (d' & p' & pr' & ? & ? & ?).
    by eapply matching_plan. }
  cbn [obind]. destruct (Hrun _ _ Hplan new_buffers_fit) as (b1 & Hb1 & Hb1f).
  match goal with |- context [if ?b then _ else _] => destruct b end.
  { rewrite Hb1. cbn [obind]. by eexists. }
  assert (∀ buffers, decode_buffers_fit lanes cap buffers →
    decode_cache_ok (Some (mk_decode_cache (Some plan) (Some buffers)))) as Hnew.
  { intros buffers Hbf c' [= <-]. cbn. split; [intros ? [= <-]; by exists d, p, present|].
    intros ? [= <-]. by exists lanes, cap. }
  destruct (match cached_buffers c with
    | Some buffers => if buffers_match buffers (decode_driver8 d p n) then Some buffers else None
    | None => None end) as [buffers|] eqn:Hus.
  - destruct (cached_buffers c) as [bufs|] eqn:Hcbe; [|done].
    destruct (buffers_match bufs (decode_driver8 d p n)) eqn:Hbm; [|done]. injection Hus as ->.
    destruct (Hcb buffers eq_refl) as (l & ll & Hl1 & Hl2 & Hl3 & Hl4).
    unfold buffers_match in Hbm. apply andb_true_iff in Hbm as [E1%Nat.eqb_eq E2%Nat.eqb_eq].
    assert (decode_buffers_fit lanes cap buffers) as Hbf.
    { split_and!; [done|done|by rewrite Hl3, <- Hl1|]. by rewrite <- E2, Hl2. }
    destruct (Hrun _ _ Hplan Hbf) as (b2 & -> & Hb2). cbn [obind]. eexists. split; [done|]. by apply Hnew.
  - match goal with |- context [if ?b then _ else _] => destruct b end.
    + rewrite Hb1. cbn [obind]. eexists. split; [done|]. intros c' [= <-]. cbn.
      split; [intros ? [= <-]; by exists d, p, present|done].
    + rewrite Hb1. cbn [obind]. eexists. split; [done|]. by apply Hnew.
Qed.
End resources.

(** ** Decoding *)
Lemma tbl_ext (l1 l2 : list byte) : length l1 = length l2 →
  (∀ b, b < length l1 → tbl l1 b = tbl l2 b) → l1 = l2.
Proof.
  intros Hl H. apply list_ext_lt; [done|]. intros b Hb. specialize (H b Hb). unfold tbl in H.
  destruct (lookup_lt_is_Some_2 l1 b Hb) as [x Hx], (lookup_lt_is_Some_2 l2 b ltac:(lia)) as [y Hy].
  rewrite Hx, Hy in H |- *. cbn in H. by subst.
Qed.

Section decode.
Context (d p n : nat) (present : list bool) (shards : list (list byte)) (input_data : list (option (list byte))).
Context (Hsh : decode_shape8 d p) (Hn : n ≠ 0) (H64 : n mod 64 = 0).
Context (Hpresent : length present = d + p) (Hcount : d ≤ count_present present).
Context (Hlen : length shards = d + p) (Hshards : Forall (λ shard, length shard = n) shards).
Context (Hinput : ∀ i shard, present !! i = Some true → shards !! i = Some shard →
  input_data !! i = Some (Some shard)) (Hil : length input_data = d + p).
Context (Hwords : words_ok8 d p (KO p) (NO d p) n shards).
Context (outputs : list (list byte)) (Hol : length outputs = d + p) (Hok : Forall (output_ok n) outputs).

Lemma run_ok plan buffers : plan_fits d p present plan →
  decode_buffers_fit (2 ^ NO d p) (decode_chunk_cap (decode_driver8 d p n)) buffers →
  ∃ buffers', reconstruct_with_resources present input_data (decode_driver8 d p n) TABLES8 outputs plan buffers
      = Ok (filled present shards outputs, buffers') ∧
    decode_buffers_fit (2 ^ NO d p) (decode_chunk_cap (decode_driver8 d p n)) buffers'.
Proof.
  intros (v & ic & Hplan & Hv & Hic & HicN & Hrest) (Hb1 & Hb2 & Hb3 & Hb4).
  destruct (shape8_orders d p Hsh) as (HpK & Hk & Hfit & H256). pose proof Hsh as (Hd & Hp & _).
  destruct (lanes_of x00 _ _ _ Hb3 Hb4) as (L & HL & HLg).
  set (O i := default [] (outputs !! i)).
  assert (outputs = tabulate (d + p) O) as HO.
  { apply eq_tabulate; [done|]. intros i Hi. unfold O.
    by destruct (lookup_lt_is_Some_2 outputs i ltac:(lia)) as [x ->]. }
  assert (∀ i, output_ok n (O i)) as HOok.
  { intros i. unfold O. destruct (outputs !! i) eqn:Ho; [|by left]. by apply (Forall_lookup_1 _ _ _ _ Hok Ho). }
  assert (0 < dec_chunk_size (decode_driver8 d p n)) as Hchunk by apply (driver_chunk_pos 1 1 0).
  pose proof (locates_below (F:=lch8) pt8 (lost present d p (KO p)) 256 (2 ^ KO p + d) (2 ^ KO p + d) _ H256
    (λ i, lost_end present d p (KO p) i HpK) H256 Hv) as Hv'.
  destruct (chunks_restored (F:=lch8) 8 pt8 slog skew_value factor8 (dit2_8 TABLES8) (idit2_8 TABLES8) (dit4_8 TABLES8)
    add_pair8 1 1 tbl chunk_of8 (mul_into8 TABLES8) store8 inverse_log
    present d p (KO p) (NO d p) n shards input_data (decode_driver8 d p n)
    HpK Hk Hfit Hpresent Hcount eq_refl eq_refl eq_refl eq_refl eq_refl Hlen
    ltac:(by rewrite Nat.mul_1_r) Hinput Hwords v (tabulate 256 v)
    (λ j Hj, lookup_tabulate 256 v j (Nat.lt_le_trans _ _ _ Hj H256)) Hv' ic Hic ltac:(lia) Hrest
    (λ i, kept present i (O i)) ltac:(intros i Hi; unfold kept; by rewrite (proj1 (Is_true_true _) Hi)) 0 n
    ltac:(lia) (le_n _) ltac:(apply Nat.divide_1_l) ltac:(apply Nat.divide_1_l)
    (tabulate (d + p)) (recover_shards present (decode_driver8 d p n) TABLES8 (tabulate 256 v))
    (decode_chunk_cap (decode_driver8 d p n)) O) with
    (chunk_size := dec_chunk_size (decode_driver8 d p n)) (fuel := S n) (offset := 0) (L := L) (O := O)
    as (L' & O' & Hrun & HL' & HO');
    [|exact Hchunk|apply Nat.divide_1_l|rewrite Nat.sub_0_r; apply Nat.lt_succ_diag_r|apply le_n|apply Nat.le_0_l
    |apply Nat.divide_1_l| |exact HLg| |].
  { intros offset stop W O1 HW HO1 _ H3 H4 H5 _ _.
    apply (recover_shards_ok present d p (KO p) (NO d p) n (decode_driver8 d p n) v Hpresent HpK Hfit H256
      eq_refl eq_refl eq_refl shards O ltac:(lia) _ _ _ _ _ HW HO1); done. }
  { rewrite Nat.sub_0_r. apply le_n. }
  { apply (restored_start (F:=lch8) 1 tbl). intros i _ Hki. rewrite Nat.sub_0_r, Nat.mul_1_r.
    by apply (kept_ok n present i). }
  assert (reconstruct_chunks present input_data (decode_driver8 d p n) TABLES8 (S n) plan 0
    (work_data (dec_work buffers)) outputs = Ok (lanes_emb (2 ^ NO d p) L', tabulate (d + p) O')) as Hrun'.
  { rewrite HL, HO, Hplan. exact Hrun. }
  unfold reconstruct_with_resources. change (dec_shard_size (decode_driver8 d p n)) with n. rewrite Hrun'.
  cbn [obind]. eexists. split; [f_equal; f_equal|].
  - unfold filled. rewrite Hol. apply tabulate_ext. intros i Hi. fold (O i). specialize (HO' i Hi). cbv beta in HO'.
    destruct (kept present i (O i)) eqn:Hki; [done|].
    destruct HO' as [Hl Hbytes]. rewrite Nat.sub_0_r, Nat.mul_1_r in Hl.
    destruct (shard_lookup 1 d p n shards Hlen ltac:(by rewrite Nat.mul_1_r) i Hi) as [_ Hsl].
    rewrite Nat.mul_1_r in Hsl. apply tbl_ext.
    + rewrite Hl. by symmetry.
    + intros b Hb. apply Hbytes. lia.
  - unfold decode_buffers_fit. cbn [dec_work work_lanes work_lane_len work_data].
    split_and!; [done|done|apply length_tabulate|by apply lanes_forall].
Qed.

(** Every loss of at most [p] shards is restored, whatever the cache holds. *)
Lemma decode_with_tables_ok {DS : DecodeSizes} cache : decode_cache_ok cache →
  ∃ cache', decode_with_tables cache TABLES8 present outputs input_data d p
      = Ok (filled present shards outputs, cache') ∧ decode_cache_ok cache'.
Proof.
  intros Hcache. unfold decode_with_tables.
  rewrite (validate_ok present d p n shards input_data Hn H64 Hpresent Hcount Hlen Hshards Hinput Hil 8) by (done || by vm_compute). cbn [obind].
  destruct (forallb id present || forallb (λ output, length output =? 0) outputs) eqn:Hnone.
  - exists cache. by rewrite filled_nothing by (done || lia).
  - unfold build_leopard_gf8_decode_driver.
    rewrite (build_decode_driver_ok 8 d p Hsh) by (done || by vm_compute). cbn [obind].
    apply (with_resources_ok d p n present); [done|done|by apply run_ok|done].
Qed.
End decode.

(** C8: from any [d] shards of a code word the decoder fills every
    lost shard that has an output with exactly the shard, leaves the other outputs alone,
    and returns without error, whatever plan and buffers the cache of the thread holds;
    the cache stays sound. *)
Theorem leopard_decoder_correct {DS : DecodeSizes} d p n present shards input_data outputs cache
    (Hsh : decode_shape8 d p) (Hn : n ≠ 0) (H64 : n mod 64 = 0)
    (Hpresent : length present = d + p) (Hcount : d ≤ count_present present)
    (Hlen : length shards = d + p) (Hshards : Forall (λ shard, length shard = n) shards)
    (Hinput : ∀ i shard, present !! i = Some true → shards !! i = Some shard →
      input_data !! i = Some (Some shard)) (Hil : length input_data = d + p)
    (Hwords : words_ok8 d p (KO p) (NO d p) n shards)
    (Hol : length outputs = d + p) (Hok : Forall (output_ok n) outputs) (Hcache : decode_cache_ok cache) :
  ∃ cache', decode_with_tables cache TABLES8 present outputs input_data d p
      = Ok (filled present shards outputs, cache') ∧ decode_cache_ok cache'.
Proof. by apply (decode_with_tables_ok d p n). Qed.
