(* ===== verification/LeoEngine8.v ===== *)
(** * The Leopard GF(2^8) engine behind the codec

    The engine as the adapters call it ([leopard_gf8_encode] of [src/core/leopard.rs],
    [reconstruct_with_tables] of [src/core/leopard_gf8/mod.rs]) is an engine in the sense
    of [LeoEngine], for any contents of the caches and whatever the other family runs. *)

From Stdlib Require Import NArith Lia List Bool.
From stdpp Require Import base numbers list.
From S2P Require Import Prelude Errors Bytes Fields Gf8 Options LinAlg Matrix Leopard InversionCache Parallel Checks Codec.
From S2P Require Import Coding Encode Verify Shards DecodeMatrix RecoveryPlan Execute LeopardReconstruct Reconstruct Gf8Opt.
From S2P Require Import Lch LeoStages LeoTables8 LeoWalsh8 LeoOps8 LeoPlan LeoDit LeoCode LeoDit8 LeoGroup LeoChunk LeoGroup8 LeoEncode8.
From S2P Require Import LeoFlat LeoLocator LeoDecode LeoRestore LeoDecoder LeoEngine LeoDecode8 LeoLocator8 LeoRestore8 LeoDecoder8.

(** ** Shapes that the constructor accepts *)
Lemma fits_shape8 d p : family_fits LeopardGF8 d p → shape8 d p (KO p).
Proof. by apply fits_shape. Qed.

(** ** The decoder keeps the lengths of the views *)
Lemma recover_keeps present driver err_locs offset stop work outputs0 i outputs outputs' :
  same_views outputs0 outputs →
  recover_shard present driver TABLES8 err_locs offset stop work i outputs = Ok outputs' →
  same_views outputs0 outputs'.
Proof.
  intros Hs. unfold recover_shard.
  destruct (index present i) as [here| |]; cbn [obind]; [|done..].
  destruct (index outputs i) as [output| |] eqn:Ho; cbn [obind]; [|done..].
  destruct (here || (length output =? 0)); [by intros [= <-]|].
  destruct (index err_locs _) as [err| |]; cbn [obind]; [|done..].
  destruct (slice output offset stop) as [view| |] eqn:Hv; cbn [obind]; [|done..].
  destruct (index work _) as [lane| |]; cbn [obind]; [|done..].
  destruct (slice lane 0 (stop - offset)) as [src| |] eqn:Hsrc; cbn [obind]; [|done..].
  apply slice_inv in Hv as (H1 & H2 & H3). apply slice_inv in Hsrc as (_ & _ & H4). apply index_inv in Ho.
  destruct (mulgf8_bytes view src (inverse_log err) ltac:(lia)) as [Hl _].
  unfold mul_into8. cbn [obind]. apply (update_view_keeps _ _ _ output); [done|done|].
  apply length_splice. rewrite Hl. lia.
Qed.

Lemma resources_result {DS : DecodeSizes} {R} cache present driver tables run (r : R) cache' :
  with_decode_resources cache present driver tables run = Ok (r, cache') →
  ∃ plan buffers buffers', run plan buffers = Ok (r, buffers').
Proof.
  unfold with_decode_resources.
  assert (∀ plan c, (let! ' (result, _) := run plan (decode_buffers_new driver) in Ok (E:=Error) (result, c))
    = Ok (r, cache') → ∃ plan buffers buffers', run plan buffers = Ok (r, buffers')) as Hlocal.
  { intros plan c. destruct (run plan _) as [[r' b']| |] eqn:Hr; cbn [obind]; [|done..]. intros [= -> _]. eauto. }
  assert (∀ plan b (c : DecodeBuffers → option DecodeCache),
    (let! ' (result, buffers) := run plan b in Ok (E:=Error) (result, c buffers))
    = Ok (r, cache') → ∃ plan buffers buffers', run plan buffers = Ok (r, buffers')) as Hused.
  { intros plan b c. destruct (run plan b) as [[r' b']| |] eqn:Hr; cbn [obind]; [|done..]. intros [= -> _]. eauto. }
  destruct cache as [c|].
  2:{ destruct (decode_plan_new _ _ _) as [plan| |]; cbn [obind]; [|done..]. apply Hlocal. }
  match goal with |- context [obind ?m _] => destruct m as [plan| |] end; cbn [obind]; [|done..].
  repeat match goal with |- context [if ?b then _ else _] => destruct b | |- context [match ?o with Some _ => _ | None => _ end] => destruct o end;
    first [apply Hlocal | apply (Hused _ _ (λ b, Some (mk_decode_cache _ (Some b))))].
Qed.

(** ** The engine *)
Section engine.
Context {AL : Allocator8} {ALL : AllocatorLaws} {DS : DecodeSizes}.
Context (mode : Dit4Strategy) (encode_caches : EncodeCaches8) (decode_cache : option DecodeCache).

(** [leopard_gf8_encode] of [leopard.rs] *)
Definition engine_encode (data_shards parity_shards : nat) (data parity : list (list byte))
  : outcome Error (list (list byte)) :=
  let! ' (_, _, parity) := encode_with_tables mode TABLES8 encode_caches data_shards parity_shards data parity in
  Ok parity.

(** [reconstruct_with_tables] of [leopard_gf8/mod.rs] *)
Definition engine_reconstruct : decode_fn := λ present outputs input_data data_shards parity_shards,
  let! ' (outputs, _) := decode_with_tables decode_cache TABLES8 present outputs input_data
    data_shards parity_shards in
  Ok outputs.

Lemma engine_keeps : keeps_views engine_reconstruct.
Proof.
  intros present outputs inputs d p outs. unfold engine_reconstruct.
  destruct (decode_with_tables _ _ _ _ _ _ _) as [[outs' c]| |] eqn:Hd; cbn [obind]; [|done..].
  intros [= ->]. unfold decode_with_tables in Hd.
  destruct (validate_leopard_decode_buffers _ _ _ _ _) as [n| |]; cbn [obind] in Hd; [|done..].
  destruct (_ || _); [by injection Hd as <- _|].
  destruct (build_leopard_gf8_decode_driver d p n) as [driver| |]; cbn [obind] in Hd; [|done..].
  apply resources_result in Hd as (plan & b & b' & Hd). unfold reconstruct_with_resources in Hd.
  destruct (reconstruct_chunks _ _ _ _ _ _ _ _ _) as [[w o]| |] eqn:Hc; cbn [obind] in Hd; [|done..].
  injection Hd as -> _. eapply (decode_chunks_keep _ _ outputs); [|done|exact Hc].
  intros offset stop work o o' Hs Hloop. unfold recover_shards in Hloop.
  apply (for_each_keeps (same_views outputs)) in Hloop; [done| |done].
  intros i s s' Hs'. by apply recover_keeps.
Qed.

(** *** In its place *)
Context (Hec : caches_ok encode_caches) (Hdc : decode_cache_ok decode_cache).
Context (gf16_encode : nat → nat → list (list byte) → list (list byte) → outcome Error (list (list byte)))
  (gf16_reconstruct : N → decode_fn).

Definition engine_encoders : LeopardEncoders := {|
  leopard_gf8_encode := engine_encode;
  leopard_gf16_encode := gf16_encode;
|}.
Definition engine_decoders : LeopardDecoders := {|
  reconstruct_with_tables := engine_reconstruct;
  leopard_gf16_reconstruct := gf16_reconstruct;
|}.

(** The byte columns are words of the code. *)
Definition byte_words (d p n : nat) (shards : list (list byte)) : Prop := words_ok8 d p (KO p) (NO d p) n shards.

Lemma byte_words_parts d p n data parity : length data = d → length parity = p →
  byte_words d p n (data ++ parity) ↔
  ∀ b, b < n → leopard_word (NO d p) (KO p) d p (shard_column data b) (shard_column parity b).
Proof.
  intros <- <-. unfold byte_words. rewrite shard_columns by len. by rewrite take_app_length, drop_app_length.
Qed.

Lemma engine_encode_ok d p n data parity : family_fits LeopardGF8 d p → n mod 64 = 0 → sep_layout (F:=gf8) d p n data parity →
  ∃ parity', engine_encode d p data parity = Ok parity' ∧ length parity' = p ∧ all_len n parity' ∧
    byte_words d p n (data ++ parity').
Proof.
  intros Hsh%fits_shape8 H64 (Hd & Hp & Hn & Ha & Ha').
  destruct (encode_with_tables_ok mode encode_caches d p n data parity) as (c' & parity' & Hrun & _ & Hl & Ha'' & Hw);
    try done; [lia|]. exists parity'. unfold engine_encode. rewrite Hrun. cbn [obind].
  split_and!; [done|done|done|]. by apply byte_words_parts.
Qed.

(** The data shards determine the others. *)
Lemma parity_unique d p n data parity parity' : family_fits LeopardGF8 d p → length data = d →
  length parity = p → length parity' = p → all_len n parity → all_len n parity' →
  byte_words d p n (data ++ parity) → byte_words d p n (data ++ parity') → parity = parity'.
Proof.
  intros Hsh%fits_shape8 Hd Hp Hp' Ha Ha' Hw Hw'. rewrite byte_words_parts in Hw, Hw' by done.
  destruct (shape8_orders d p (leopard_shape_decodes 8 d p Hsh)) as (HpK & Hk & Hfit & _).
  apply list_ext_lt; [congruence|]. intros i Hi.
  destruct (lookup_lt_is_Some_2 parity i Hi) as [x Hx], (lookup_lt_is_Some_2 parity' i ltac:(lia)) as [y Hy].
  rewrite Hx, Hy. f_equal. pose proof (Forall_lookup_1 _ _ _ _ Ha Hx) as Hlx. pose proof (Forall_lookup_1 _ _ _ _ Ha' Hy) as Hly.
  cbn beta in Hlx, Hly. apply tbl_ext; [congruence|]. intros b Hb.
  pose proof (leopard_word_unique8 (NO d p) (KO p) d p _ _ _ Hk Hfit HpK (Hw b ltac:(lia)) (Hw' b ltac:(lia)) i ltac:(lia)) as H.
  unfold shard_column in H. by rewrite Hx, Hy in H.
Qed.

#[export] Instance engine8_laws :
  LeopardEngine (LE:=engine_encoders) (LD:=engine_decoders) LeopardGF8 byte_words.
Proof.
  split.
  - done.
  - apply engine_encode_ok.
  - intros d p n data parity parity' Hf _. by apply parity_unique.
  - intros jobs. apply engine_keeps.
  - intros jobs d p n present shards input_data outputs Hf%fits_shape8 Hn H64 Hp Hc Hl Ha Hi Hil Hw Hol Hok.
    cbn [decode_of engine_decoders reconstruct_with_tables]. unfold engine_reconstruct.
    destruct (decode_with_tables_ok d p n present shards input_data (leopard_shape_decodes 8 d p Hf) Hn H64 Hp Hc Hl Ha
      Hi Hil Hw outputs Hol Hok decode_cache Hdc) as (c' & Hrun & _). by rewrite Hrun.
Qed.
End engine.
