(* ===== verification/LeoFamilies.v ===== *)
(** * The codec with the Leopard engines

    With both engines in their places the public entry points encode, verify and repair, for
    codecs of either family. *)

From Stdlib Require Import NArith Lia List Bool.
From stdpp Require Import base numbers list.
From S2P Require Import Prelude Errors Bytes Fields Gf8 Options LinAlg Matrix Leopard InversionCache Parallel Checks Codec.
From S2P Require Import Coding Encode Verify Shards DecodeMatrix RecoveryPlan Execute LeopardReconstruct Reconstruct.
From S2P Require Import LeoOps8 LeoGroup8 LeoEncode8 LeoDecode8 LeoRestore LeoDecoder LeoEngine LeoDecoder8 LeoEngine8.
From S2P Require Import LeoPlanCache LeoEncode16 LeoDecode16 LeoDecoder16 LeoEngine16.

(** The words of a family: byte columns of the GF(2^8) code, element columns of the GF(2^16) code. *)
Definition family_words (family : CodecFamily) : nat → nat → nat → list (list byte) → Prop :=
  match family with LeopardGF16 => element_words | _ => byte_words end.

Section families.
Context {RT : Runtime} {St : Storage byte} {L : LruCache (list nat) (CachedMatrix byte)} {LL : LruLaws L}.
Context {AL : Allocator8} {ALL : AllocatorLaws} {DS : DecodeSizes}.
Context {PS : PlanSizes16} {DM : DecodeMachine16} {PL : LruCache DecodePlanKey (LeopardGf16DecodePlan * N)} {PLL : LruLaws PL}.
Context (mode : Dit4Strategy) (encode_caches : EncodeCaches8) (decode_cache : option DecodeCache).
Context (encode_caches16 : EncodeCaches16) (shared : DecodeShared16).
#[local] Abbreviation codec := (@ReedSolomon gf8 L).

Definition both_encoders : LeopardEncoders := {|
  leopard_gf8_encode := engine_encode mode encode_caches;
  leopard_gf16_encode := engine_encode16 encode_caches16;
|}.
Definition both_decoders : LeopardDecoders := {|
  reconstruct_with_tables := engine_reconstruct decode_cache;
  leopard_gf16_reconstruct := engine_reconstruct16 shared;
|}.
#[local] Existing Instances both_encoders both_decoders.

Context (Hec : caches_ok encode_caches) (Hdc : decode_cache_ok decode_cache).
Context (Hec16 : caches_ok16 encode_caches16) (Hshared : shared16_ok shared).

Lemma family_in_place family : family ≠ Classic → LeopardEngine family (family_words family).
Proof.
  destruct family; intros H; [done| |].
  - exact (engine8_laws mode encode_caches decode_cache Hec Hdc (engine_encode16 encode_caches16) (engine_reconstruct16 shared)).
  - exact (engine16_laws encode_caches16 shared Hec16 Hshared (engine_encode mode encode_caches) (engine_reconstruct decode_cache)).
Qed.

(** C3: a codec of a Leopard family that the constructor built
    encodes every well-formed data: [encode_sep] returns parity shards that make a
    word of the code of its family in every column, whatever the caches hold, and [verify]
    answers true for exactly the shard sets that are words of that code. *)
Theorem leopard_encode_verify (self : codec) d p n options data parity
    (Hmode : builtin_mode (matrix_mode options)) (Hnew : with_options (F:=gf8) d p options = Ok self)
    (Hfam : rs_codec_family self ≠ Classic) (H64 : n mod 64 = 0)
    (Hlay : sep_layout (F:=gf8) d p n data parity) :
  let words := family_words (rs_codec_family self) in
  (∃ parity', encode_sep (F:=gf8) self data parity = Ok parity' ∧
     leopard_shards words d p n (data ++ parity')) ∧
  ∀ shards, whole_layout (F:=gf8) (d + p) n shards →
    ∃ b, verify (F:=gf8) self shards = Ok b ∧ (b = true ↔ leopard_shards words d p n shards).
Proof.
  pose proof (family_in_place _ Hfam) as EN.
  pose proof (constructed_codec _ _ d p options self Hmode Hnew eq_refl) as Hc.
  split; [by apply (leopard_encode_ok (rs_codec_family self) _)|].
  intros shards Hw. by apply (leopard_verify_ok (rs_codec_family self) _).
Qed.

(** C2: every loss of at most [p] shards of a word of a
    Leopard code is repaired by every reconstruction entry point of a codec of its family: the
    requested shards hold their bytes again and those that were there still do, for any
    containers, whatever the caches hold and however many parallel jobs are allowed; the calls do
    not panic, and fail only when a container rejects its buffer. *)
Theorem leopard_erasures_corrected {T : Type} {S : ReconstructShard (F:=gf8) T} {SL : ShardLaws T S}
    (self : codec) d p n options shards (slices : list T)
    (Hmode : builtin_mode (matrix_mode options)) (Hnew : with_options (F:=gf8) d p options = Ok self)
    (Hfam : rs_codec_family self ≠ Classic) (H64 : n mod 64 = 0) (Hn : 0 < n)
    (Hsh : leopard_shards (family_words (rs_codec_family self)) d p n shards) (Hpc : pieces_of slices shards)
    (Hcnt : d ≤ LeopardReconstruct.present_count slices) :
  repair_outcome self n shards slices (λ _, true) (reconstruct (F:=gf8) self slices) ∧
  repair_outcome self n shards slices (λ i, bool_decide (i < d)) (reconstruct_data (F:=gf8) self slices) ∧
  ∀ flags, length flags = d ∨ length flags = d + p →
    repair_outcome self n shards slices (is_required flags) (reconstruct_some (F:=gf8) self slices flags).
Proof.
  pose proof (family_in_place _ Hfam) as EN.
  pose proof (constructed_codec _ _ d p options self Hmode Hnew eq_refl) as Hc.
  by apply (leopard_entries_ok (rs_codec_family self) _ self d p n shards slices).
Qed.
End families.
