(* ===== verification/Witnesses.v ===== *)
(** * The theorems on concrete codecs

    Each property with hypotheses is applied here at a concrete input: a
    (2 + 3) codec over GF(2^8) whose policy runs even these small shards in
    parallel, the list implementation of the LRU map, exact capacities, and
    Leopard engines that copy or zero their views.  The schedules are the tasks of the
    codec's own policy decisions in reverse order. *)

From Stdlib Require Import NArith Lia List Bool Init.Byte.
From stdpp Require Import base numbers list relations.
From S2P Require Import Prelude Errors Bytes Fields Gf8 LinAlg Matrix Options Leopard.
From S2P Require Import InversionCache Parallel Checks Codec Coding Encode Verify ShardByShard.
From S2P Require Import Shards Format DecodeMatrix RecoveryPlan Execute LeopardReconstruct.
From S2P Require Import Reconstruct Gf8Opt.

(** ** The instances *)
#[local] Instance example_runtime : Runtime := {|
  resolve_policy_cache_with_options := λ _, policy_cache_new 4 (mk_policy 1 0 0 3);
  matrix_workspace_reuse := false;
|}.

#[local] Instance example_encoders : LeopardEncoders := {|
  leopard_gf8_encode := λ _ _ _ parity, Ok parity;
  leopard_gf16_encode := λ _ _ _ parity, Ok parity;
|}.

Definition zero_decoder : decode_fn := λ _ outputs _ _ _, Ok (map (map (λ _, x00)) outputs).

Lemma zero_decoder_keeps : keeps_views zero_decoder.
Proof.
  intros present outputs inputs d p outs [= <-]. rewrite map_map. apply map_ext. intros a.
  apply length_map.
Qed.

#[local] Instance example_decoders : LeopardDecoders := {|
  reconstruct_with_tables := zero_decoder;
  leopard_gf16_reconstruct := λ _, zero_decoder;
|}.

#[local] Instance gf8_format : FormatLaws gf8.
Proof.
  constructor. simpl. intros a b w bytes H1 H2.
  destruct (w =? 1)%nat; [congruence|done].
Qed.

(** ** The codec *)
Definition get_ok {E A} (m : outcome E A) (H : is_ok m = true) : A :=
  match m return is_ok m = true → A with
  | Ok a => λ _, a
  | Err _ | Panic => λ H, False_rect _ (Bool.diff_false_true H)
  end H.

Lemma get_ok_spec {E A} (m : outcome E A) H : m = Ok (get_ok m H).
Proof. by destruct m. Qed.

Lemma codec_ok : is_ok (with_options 2 3 options_default) = true.
Proof. vm_compute. reflexivity. Qed.

Definition codec : ReedSolomon := get_ok _ codec_ok.

Lemma codec_new : with_options 2 3 options_default = Ok codec.
Proof. apply get_ok_spec. Qed.

Lemma default_builtin : builtin_mode (matrix_mode options_default).
Proof. by split. Qed.

Lemma codec_facts :
  data_shard_count codec = 2%nat ∧ parity_shard_count codec = 3%nat ∧
  rs_codec_family codec = Classic ∧ (∃ M, mds_codec codec M) ∧ cache_valid codec.
Proof.
  pose proof (with_options_ensures 2 3 options_default default_builtin) as H. rewrite codec_new in H.
  destruct H as (_ & _ & _ & Hd & Hp & Hf & HM & Hc & He).
  assert (rs_codec_family codec = Classic) as HC by (vm_compute; reflexivity).
  split_and!; [done..| |].
  - apply HM. rewrite <-Hf. exact HC.
  - split; [exact Hc|]. unfold cache_all. rewrite He. intros k e H. destruct (not_elem_of_nil _ H).
Qed.

#[local] Opaque codec.

(** ** The shards *)
Definition input : list (list Elem) :=
  [[x01; x02]; [x03; x04]; [x00; x00]; [x00; x00]; [x00; x00]].

Lemma encode_runs : is_ok (encode codec input) = true.
Proof. vm_compute. reflexivity. Qed.

Definition encoded : list (list Elem) := get_ok _ encode_runs.

Lemma encoded_eq : encode codec input = Ok encoded.
Proof. apply get_ok_spec. Qed.

#[local] Opaque encoded.

(** Two data shards and a parity shard lost. *)
Definition lost : list (option (list Elem)) :=
  [None; None; encoded !! 2%nat; encoded !! 3%nat; None].

Definition reversed_tasks (d : ParallelDecision) (n_out : nat) : list task :=
  reverse (List.concat (output_chunk_tasks (replicate n_out 2) 2 (N.to_nat (chunk_len d))
    (N.to_nat (jobs d)))).

Definition encode_order : list task := reversed_tasks (parallel_policy codec 2 3) 3.

Lemma encode_order_parallel :
  use_parallel (parallel_policy codec 2 3) = true ∧ policy_schedule codec encode_order 2 3.
Proof.
  split; [vm_compute; reflexivity|]. intros _. unfold is_schedule.
  apply (bool_decide_eq_true_1 _). vm_compute. reflexivity.
Qed.

Lemma encode_correct_witness : ∃ M,
  classic_codec codec M ∧ encode codec input = Ok encoded ∧
  codeword M 2 5 2 encoded ∧ take 2 encoded = [[x01; x02]; [x03; x04]].
Proof.
  destruct codec_facts as (_ & _ & _ & (M & HM & _) & _). exists M.
  split_and!; [done|apply encoded_eq| |].
  all: pose proof (encode_correct codec M input HM) as H; cbv zeta in H; rewrite encoded_eq in H.
  - destruct H as (len & (_ & _ & Hl) & Hcw & _). inversion Hl as [|? ? Hlen].
    simpl in Hlen. rewrite <-Hlen in Hcw. exact Hcw.
  - destruct H as (len & _ & _ & Ht). exact Ht.
Defined.

Lemma encode_paths_agree_witness : ∃ M,
  classic_codec codec M ∧ use_parallel (parallel_policy codec 2 3) = true ∧
  for_range 0 2 (encode_single codec) input = Ok encoded ∧
  encode_par encode_order codec input = Ok encoded.
Proof.
  destruct codec_facts as (_ & _ & _ & (M & HM & _) & _). exists M.
  split; [done|]. split; [apply encode_order_parallel|].
  destruct (encode_paths_agree encode_order codec M input HM) as [H1 H2].
  - intros first [= <-]. apply encode_order_parallel.
  - rewrite encoded_eq in H1, H2. by split.
Defined.

Lemma update_correct_witness : ∃ M parity',
  classic_codec codec M ∧
  rs_update codec (take 2 encoded) [None; Some [x07; x09]] (drop 2 encoded) = Ok parity' ∧
  encode_sep codec [[x01; x02]; [x07; x09]] parity' = Ok parity'.
Proof.
  destruct codec_facts as (_ & _ & _ & (M & HM & _) & _). exists M.
  destruct (update_correct codec M 2 (take 2 encoded) (drop 2 encoded) [None; Some [x07; x09]])
    as (parity' & H1 & H2).
  - exact HM.
  - split_and!; try (vm_compute; reflexivity); [lia|..].
    all: apply (bool_decide_eq_true_1 _); vm_compute; reflexivity.
  - reflexivity.
  - repeat constructor; by intros s [= <-].
  - vm_compute. reflexivity.
  - exists parity'. split; [exact HM|]. by split.
Defined.

(** ** Verification and sessions *)
Lemma encoded_layout : whole_layout 5 2 encoded.
Proof.
  split_and!; [vm_compute; reflexivity|lia|].
  apply (bool_decide_eq_true_1 _). vm_compute. reflexivity.
Qed.

Lemma verify_correct_witness : ∃ M,
  classic_codec codec M ∧ verify codec encoded = Ok true ∧ codeword M 2 5 2 encoded.
Proof.
  destruct codec_facts as (_ & _ & _ & (M & HM & _) & _). exists M.
  assert (verify codec encoded = Ok true) as Hv by (vm_compute; reflexivity).
  split_and!; [done|done|].
  pose proof (verify_correct codec M encoded HM) as H. cbv zeta in H. rewrite Hv in H.
  destruct H as (len & (_ & _ & Hl) & Hb). destruct encoded_layout as (_ & _ & Hl2).
  assert (len = 2%nat) as ->; [|apply Hb; reflexivity].
  assert (∃ s, s ∈ encoded) as [s Hs].
  { exists [x01; x02]. apply (bool_decide_eq_true_1 _). vm_compute. reflexivity. }
  unfold all_len in *. rewrite Forall_forall in Hl, Hl2. rewrite <-(Hl s Hs). exact (Hl2 s Hs).
Defined.

Lemma verify_variants_agree_witness : ∃ M buf,
  classic_codec codec M ∧ verify codec encoded = Ok true ∧
  verify_par encode_order codec encoded = Ok true ∧
  verify_with_buffer_par encode_order codec encoded
    [[x00; x00]; [x09; x09]; [x00; x07]] = Ok (true, buf).
Proof.
  destruct codec_facts as (_ & _ & _ & (M & HM & _) & _). exists M.
  destruct (verify_variants_agree encode_order codec M 2 encoded
      [[x00; x00]; [x09; x09]; [x00; x07]] (Verify.mk_workspace []) HM)
    as (b & buf & H1 & H2 & _ & H4 & _ & _).
  - apply encoded_layout.
  - reflexivity.
  - repeat constructor.
  - apply encode_order_parallel.
  - assert (b = true) as ->.
    { assert (verify codec encoded = Ok true) as Hv by (vm_compute; reflexivity). congruence. }
    exists buf. by split_and!.
Defined.

Lemma verify_detects_witness :
  verify codec encoded = Ok true ∧
  verify codec [[x01; x02]; [x03; x05]; [x09; x09]; [x09; x09]; default [] (encoded !! 4%nat)]
  = Ok false.
Proof.
  destruct codec_facts as (_ & _ & _ & (M & HM) & _).
  destruct (verify_detects codec M input encoded HM encoded_eq) as [H1 H2].
  split; [exact H1|]. apply (H2 _ 2%nat).
  - apply encoded_layout.
  - split_and!; [vm_compute; reflexivity|lia|].
    apply (bool_decide_eq_true_1 _). vm_compute. reflexivity.
  - apply (bool_decide_eq_true_1 _). vm_compute. reflexivity.
  - apply (bool_decide_eq_true_1 _). vm_compute. reflexivity.
Defined.

(** A call of [encode], then one of [encode_sep]. *)
Definition session_end : ShardByShard * list (list Elem) :=
  (mk_sbs codec 2, encoded).

Lemma half_ok : is_ok (encode_single codec 0 input) = true.
Proof. vm_compute. reflexivity. Qed.

Definition half : list (list Elem) := get_ok _ half_ok.

Lemma session_run : session (sbs_new codec, input) session_end.
Proof.
  assert (half = take 2 half ++ drop 2 half) as Hhalf by (by rewrite take_drop).
  assert (session_end = (mk_sbs codec 2, take 2 half ++ drop 2 encoded)) as ->
    by (vm_compute; reflexivity).
  eapply rtc_l; [apply (step_encode _ _ (mk_sbs codec 1) half)|rewrite Hhalf;
    eapply rtc_l; [apply (step_encode_sep _ _ _ (mk_sbs codec 2) (drop 2 encoded))|constructor]].
  - unfold sbs_encode.
    assert (sbs_encode_checks (sbs_new codec) input = Ok tt) as -> by (vm_compute; reflexivity).
    cbn [obind sbs_codec sbs_new cur_input]. by rewrite (get_ok_spec _ half_ok).
  - vm_compute. reflexivity.
Qed.

Lemma shard_by_shard_invariant_witness : ∃ M,
  classic_codec codec M ∧ parity_ready session_end.1 = true ∧ codeword M 2 5 2 session_end.2.
Proof.
  destruct codec_facts as (_ & _ & _ & (M & HM & _) & _). exists M.
  destruct (shard_by_shard_invariant codec M 2 input encoded (mk_sbs codec 2) HM) as [_ H].
  - split_and!; [vm_compute; reflexivity|lia|repeat constructor].
  - apply session_run.
  - split_and!; [done|vm_compute; reflexivity|]. apply H. vm_compute. reflexivity.
Defined.

(** ** Reconstruction *)
Definition goal_some : ReconstructionGoal := GoalRequired [true; false; false; false; true].

Lemma encoded_codeword M : classic_codec codec M → codeword M 2 5 2 encoded.
Proof.
  intros HM. pose proof (encode_ensures codec M HM input) as H. rewrite encoded_eq in H.
  destruct H as (len & Hl & Hout).
  pose proof (codeword_encoded M _ _ len _ _ (cc_systematic _ _ HM) (whole_split _ _ _ _ Hl))
    as Hcw.
  rewrite <-Hout in Hcw. destruct Hl as (_ & _ & Hl). inversion Hl as [|? ? Hlen].
  simpl in Hlen. rewrite <-Hlen in Hcw. exact Hcw.
Qed.

Lemma lost_holds : holds encoded 5 lost.
Proof.
  unfold lost. generalize encoded. intros cw. split; [reflexivity|]. intros i s x.
  do 5 (destruct i as [|i]; [simpl; intros [= <-] H; try done; exact H|]). intros [=].
Qed.

Lemma reconstruct_restores_witness : ∃ M,
  classic_codec codec M ∧
  restored codec M 2 encoded goal_some lost (reconstruct_goal codec lost goal_some) ∧
  (reconstruct_goal codec lost goal_some).1.2
    = [encoded !! 0%nat; None; encoded !! 2%nat; encoded !! 3%nat; encoded !! 4%nat].
Proof.
  destruct codec_facts as (_ & _ & _ & (M & HM & _) & Hv). exists M.
  split; [exact HM|]. split.
  - apply reconstruct_restores; [exact HM|exact Hv|by apply encoded_codeword|apply lost_holds|].
    reflexivity.
  - vm_compute. reflexivity.
Defined.

Lemma erasures_corrected_witness :
  (reconstruct codec lost).2 = Ok tt ∧
  (∃ s, (reconstruct codec lost).1.2 !! 1%nat = Some s ∧ shard_get s = Some [x03; x04]).
Proof.
  pose proof (erasures_corrected 2 3 options_default codec input encoded lost default_builtin
    codec_new (proj1 (proj2 (proj2 codec_facts))) encoded_eq lost_holds) as H.
  destruct (reconstruct codec lost) as [[s' shards'] r] eqn:Hr.
  destruct H as (-> & _ & H).
  - vm_compute. lia.
  - intros s x Hs Hn Hx. change (s = None) in Hn. rewrite Hn. apply option_accepts.
  - split; [done|]. destruct (H 1%nat [x03; x04]) as (s & H1 & H2); [vm_compute; reflexivity|].
    exists s. by split.
Defined.

(** The plan is prepared on the lost shards and executed on their twins with
    retained buffers. *)
Definition slots : list (ShardSlot (list Elem)) :=
  map (λ s, match s with Some x => new_present x | None => new_missing [x07; x07] end) lost.

Lemma slots_same : map shard_len slots = map shard_len lost.
Proof. vm_compute. reflexivity. Qed.

Lemma slots_hold : holds encoded 5 slots.
Proof.
  unfold slots, lost.
  assert (length encoded = 5%nat) as Hlen by apply encoded_layout.
  revert Hlen. generalize encoded. intros cw Hlen. split; [reflexivity|]. intros i s x.
  do 5 (destruct cw as [|? cw]; [discriminate Hlen|]). simpl.
  do 5 (destruct i as [|i]; [simpl; intros [= <-]; simpl; intros [=]; by subst|]). intros [=].
Qed.

Lemma flags_ok : goal_flags_ok codec goal_some = true.
Proof. vm_compute. reflexivity. Qed.

Lemma prepared_ok : is_ok (prepare_reconstruct_workspace_with_goal codec lost goal_some).2 = true.
Proof. vm_compute. reflexivity. Qed.

Lemma prepared_eq :
  prepare_reconstruct_workspace_with_goal codec lost goal_some
  = ((prepare_reconstruct_workspace_with_goal codec lost goal_some).1,
     Ok (get_ok _ prepared_ok)).
Proof.
  rewrite <-get_ok_spec. apply surjective_pairing.
Qed.

Lemma workspace_equals_direct_witness :
  reconstruct_with_workspace false codec slots (get_ok _ prepared_ok)
  = let '(_, slots', r) := reconstruct_goal codec slots goal_some in (slots', r).
Proof.
  destruct codec_facts as (_ & _ & _ & (M & HM & _) & Hv).
  pose proof (workspace_equals_direct false codec codec M lost slots goal_some) as H.
  specialize (H (prepare_reconstruct_workspace_with_goal codec lost goal_some).1
    (get_ok _ prepared_ok) HM Hv HM eq_refl Hv flags_ok prepared_eq slots_same).
  exact H.
Defined.

Definition stage_order (dest : nat) : list task :=
  reversed_tasks (decide_for_elements (policy_reconstruct_data (rs_policy_cache codec)) 2 1 2 1 4) 1.

Lemma workspace_par_restores_witness : ∃ M,
  use_parallel
    (decide_for_elements (policy_reconstruct_data (rs_policy_cache codec)) 2 1 2 1 4) = true ∧
  restored codec M 2 encoded goal_some slots
    (codec, (reconstruct_with_workspace_par stage_order false codec slots (get_ok _ prepared_ok)).1,
     (reconstruct_with_workspace_par stage_order false codec slots (get_ok _ prepared_ok)).2).
Proof.
  destruct codec_facts as (_ & _ & _ & (M & HM & _) & Hv). exists M.
  split; [vm_compute; reflexivity|].
  pose proof (workspace_par_restores false stage_order codec codec M 2 encoded lost slots goal_some)
    as H.
  specialize (H (prepare_reconstruct_workspace_with_goal codec lost goal_some).1
    (get_ok _ prepared_ok) HM Hv HM eq_refl Hv flags_ok prepared_eq slots_same
    (encoded_codeword M HM) slots_hold).
  apply H. clear H.
  destruct (reconstruct_stage_policies _ _) as [dp pp] eqn:Hp.
  assert ((dp, pp) = (policy_reconstruct_data (rs_policy_cache codec),
                      policy_reconstruct_data (rs_policy_cache codec))) as Heq.
  { rewrite <-Hp. vm_compute. reflexivity. }
  apply pair_equal_spec in Heq as [-> ->].
  intros stage dest decision _. unfold decision, is_schedule. destruct stage; apply (bool_decide_eq_true_1 _); vm_compute; reflexivity.
Defined.

(** ** Planning *)
Lemma below_5 x : x ∈ [1; 3]%nat → x < 5.
Proof. revert x. apply Forall_forall. repeat constructor. Qed.

Lemma decode_matrix_correct_witness : ∃ M,
  classic_codec codec M ∧
  ensures (build_data_decode_matrix codec [1; 3])
    (λ m, ∃ X, rep m 2 2 X ∧ inverse_of 2 (λ i c, M (rows_at [1; 3] i) c) X)
    (λ _, False).
Proof.
  destruct codec_facts as (Hd & Hp & _ & (M & HM & Hmds) & _). exists M. split; [exact HM|].
  destruct (decode_matrix_correct codec M [1; 3] HM) as [_ H].
  { rewrite Hd, Hp. split_and!; [repeat constructor|done|exact below_5]. }
  rewrite Hd in H. eapply ensures_mono; [exact H|intros m Hm; exact Hm|].
  intros e [_ Hs]. apply Hs. rewrite Hd, Hp in Hmds. apply Hmds. split.
  - intros i Hi. destruct i as [|[|?]]; [vm_compute; lia..|lia].
  - intros i j Hi Hj. destruct i as [|[|?]], j as [|[|?]]; try lia; vm_compute; lia.
Defined.

Definition present (i : nat) : bool := bool_decide (i ∈ [2; 3]%nat).

Lemma decode_cache_transparent_witness : ∃ c,
  get_data_decode_matrix codec [2; 3] [0; 1; 4]
  = (set_cache codec c, build_data_decode_matrix codec [2; 3]) ∧ cache_valid (set_cache codec c).
Proof.
  destruct codec_facts as (Hd & Hp & _ & _ & Hv).
  destruct (decode_cache_transparent codec present) as (c & H1 & H2).
  - rewrite Hd. lia.
  - exact Hv.
  - vm_compute. reflexivity.
  - exists c. split; [|exact H2]. revert H1. rewrite total_count, Hd, Hp. intros H1. exact H1.
Defined.

Lemma classic_shape_correct_witness :
  ensures (classic_reconstruct_shape codec [None; Some 2; Some 2; None; Some 2])
    (shape_for codec [None; Some 2; Some 2; None; Some 2]) (λ _, False).
Proof.
  destruct codec_facts as (Hd & Hp & _).
  pose proof (classic_shape_correct codec [None; Some 2; Some 2; None; Some 2]) as H.
  assert (total_shard_count codec = 5%nat) as Ht by (rewrite total_count; lia).
  assert (is_ok (classic_reconstruct_shape codec [None; Some 2; Some 2; None; Some 2]) = true)
    as Hok by (vm_compute; reflexivity).
  rewrite Ht, Hd in H. specialize (H ltac:(lia)). simpl in H. revert H Hok.
  destruct (classic_reconstruct_shape _ _); [intros H _; exact H|..];
    intros _ Hok; discriminate Hok.
Defined.

(** ** Formats *)
Lemma codec_format_wf : format_wf (rs_format codec).
Proof.
  destruct codec_facts as (_ & _ & _ & (M & HM & _) & _). exists M.
  destruct (cc_rep _ _ HM) as (H1 & H2 & H3 & H4). split; [reflexivity|].
  split; [reflexivity|]. rewrite H1, H2. split; [exact H3|exact H4].
Qed.

Lemma format_eq_correct_witness :
  ∃ b, format_eq (E:=Error) false (rs_format codec) (rs_format (rs_clone codec)) = Ok b ∧ b = true.
Proof.
  destruct (format_eq_correct (rs_format codec) (rs_format (rs_clone codec)) false
    codec_format_wf codec_format_wf) as (b & H1 & H2); [done|].
  exists b. split; [exact H1|]. apply H2. reflexivity.
Defined.

Lemma id_ok : is_ok (stable_id_bytes (E:=Error) (rs_format codec)) = true.
Proof. vm_compute. reflexivity. Qed.

Lemma id_some : match get_ok _ id_ok with Some id => length id = 94%nat | None => False end.
Proof. vm_compute. reflexivity. Qed.

Lemma stable_id_injective_witness : ∃ id,
  stable_id_bytes (E:=Error) (rs_format codec) = Ok (Some id) ∧ length id = 94%nat ∧
  id_layout (rs_format codec) id.
Proof.
  pose proof id_some as Hid. pose proof (get_ok_spec _ id_ok) as Hok.
  destruct (get_ok _ id_ok) as [id|]; [|destruct Hid]. exists id.
  destruct (stable_id_injective (rs_format codec) (rs_format codec) id
    codec_format_wf codec_format_wf Hok Hok) as [H _].
  split; [exact Hok|]. by split.
Defined.

(** ** Leopard *)
Definition leopard_options : CodecOptions := Options.builder.set_codec_family options_default LeopardGF8.

Lemma leopard_ok : is_ok (with_options 2 2 leopard_options) = true.
Proof. vm_compute. reflexivity. Qed.

Definition leopard_codec : ReedSolomon := get_ok _ leopard_ok.

Lemma leopard_counts :
  data_shard_count leopard_codec = 2%nat ∧ total_shard_count leopard_codec = 4%nat.
Proof. split; vm_compute; reflexivity. Qed.

#[local] Opaque leopard_codec.

Lemma shard_by_shard_total_witness :
  sbs_encode (mk_sbs codec 2) encoded = Err TooManyCalls ∧
  sbs_encode_sep (sbs_new leopard_codec) [[x01]; [x02]] [[x00]; [x00]]
  = Err (RSError UnsupportedCodecFamily).
Proof.
  destruct codec_facts as (Hd & _ & _ & (M & HM & _) & _). split.
  - destruct (shard_by_shard_total codec 2 encoded [] []) as [H _].
    + left. by exists M.
    + rewrite Hd. lia.
    + revert H. generalize (sbs_encode (mk_sbs codec 2) encoded). intros [r|e|];
        cbn [ensures]; intros H; [exfalso|f_equal|destruct H].
      * destruct H as [H _]. rewrite Hd in H. lia.
      * inversion H as [|? Hlt|Hlt]; [done|exfalso; rewrite Hd in Hlt; lia..].
  - assert (parity_shard_count leopard_codec = 2%nat) as Hlp by (vm_compute; reflexivity).
    assert (is_leopard_family leopard_codec = true) as Hleo by (vm_compute; reflexivity).
    destruct leopard_counts as [Hld _].
    destruct (shard_by_shard_total leopard_codec 0 [] [[x01]; [x02]] [[x00]; [x00]])
      as (_ & H & _).
    + right. rewrite Hleo, Hld, Hlp. split_and!; [done|lia..].
    + lia.
    + change (sbs_new leopard_codec) with (mk_sbs leopard_codec 0). rewrite Hld, Hlp in H.
      revert H. generalize (sbs_encode_sep (mk_sbs leopard_codec 0) [[x01]; [x02]] [[x00]; [x00]]).
      intros [r|e|]; cbn [ensures]; intros H; [exfalso|f_equal|destruct H].
      * destruct H as (_ & H & _). congruence.
      * inversion H as [Hend|e' _ Herr|]; [lia|exfalso|done].
        inversion Herr as [?|?|? ?|? ?|? ? Hempty|? ? Hsize]; simpl in *; try lia.
        -- destruct Hempty as [?|[_ ?]]; done.
        -- apply (Hsize 1%nat). by repeat constructor.
Defined.

Definition block : list (option (list Elem)) :=
  [None; Some (replicate 64 x01); Some (replicate 64 x02); None].

Lemma leopard_reconstruct_safe_witness :
  adapted leopard_codec block (λ _, true) zero_decoder
    (reconstruct_leopard_impl leopard_codec block (λ _, true) zero_decoder).
Proof.
  destruct leopard_counts as [Hd _].
  apply leopard_reconstruct_safe; [rewrite Hd; lia|exact zero_decoder_keeps].
Defined.

Lemma leopard_validation_correct_witness :
  validate_leopard_reconstruction leopard_codec block (λ _, true) = Ok (Some 64) ∧
  (∃ len, Some 64 = Some len ∧ regular len block).
Proof.
  assert (validate_leopard_reconstruction leopard_codec block (λ _, true) = Ok (Some 64))
    as Hv by (vm_compute; reflexivity).
  split; [exact Hv|]. destruct leopard_counts as [Hd _].
  pose proof (leopard_validation_correct leopard_codec block (λ _, true)) as H.
  rewrite Hd, Hv in H. destruct (H ltac:(lia)) as (_ & _ & len & _ & _ & Hr & _ & Ho).
  exists len. split; [|exact Hr]. rewrite Ho.
  by replace (any_requested (λ _, true) block) with true by (vm_compute; reflexivity).
Defined.

Lemma leopard_staging_agrees_witness :
  fits_inline 2 64 = true ∧
  reconstruct_leopard_staged leopard_codec block (λ _, true) zero_decoder 64
  = reconstruct_leopard_heap leopard_codec block (λ _, true) zero_decoder 64.
Proof.
  split; [vm_compute; reflexivity|].
  apply leopard_staging_agrees; [exact zero_decoder_keeps|lia].
Defined.

(** ** Matrices *)
Definition square : Matrix Elem := mk_matrix 2 2 [x00; x02; x03; x04].
Definition square_fn (r c : nat) : Elem := default x00 (data square !! (r * 2 + c)%nat).

Lemma square_rep : rep square 2 2 square_fn.
Proof.
  split_and!; [reflexivity..|]. intros r c Hr Hc.
  destruct r as [|[|?]], c as [|[|?]]; try lia; reflexivity.
Qed.

Lemma square_nonsingular : nonsingular 2 2 square_fn.
Proof.
  pose proof (invert_ensures square 2 square_fn square_rep) as H.
  assert (is_ok (invert square) = true) as Hok by (vm_compute; reflexivity).
  destruct (invert square) as [m|e|]; [|discriminate Hok..].
  destruct H as (X & _ & HX). by apply inverse_nonsingular in HX.
Qed.

Lemma invert_correct_witness : ∃ m X,
  invert square = Ok m ∧ rep m 2 2 X ∧ inverse_of 2 square_fn X.
Proof.
  destruct (invert_correct square 2 square_fn square_rep) as [H _].
  exact (H square_nonsingular).
Defined.

(** The pivot is zero: the elimination swaps. *)
Lemma gaussian_elim_correct_witness : ∃ g,
  gaussian_elim square = Ok (mk_matrix 2 2 [x01; x00; x00; x01]) ∧
  same_kernel 2 2 square_fn g ∧ ∀ i j, i < 2 → j < 2 → g i j = delta i j.
Proof.
  destruct (gaussian_elim_correct square 2 2 square_fn square_rep (le_n 2)) as [H _].
  destruct (H square_nonsingular) as (m & g & _ & _ & Hk & Hd). exists g.
  split; [vm_compute; reflexivity|]. by split.
Defined.

Lemma coding_loops_dot_witness :
  code_some_slices_par_chunked_with_jobs encode_order 2
    (rows_of_slices (tabulate 3 (λ k, tabulate 2 (square_fn k))))
    (tabulate 2 (λ i, tabulate 2 (square_fn i))) (replicate 3 [x07; x07])
  = Ok (tabulate 3 (λ k, tabulate 2 (λ j, bsum 2 (λ i, square_fn k i * square_fn i j)%field))).
Proof.
  destruct (coding_loops_dot encode_order 2 3 2
    (N.to_nat (chunk_len (parallel_policy codec 2 3))) (N.to_nat (jobs (parallel_policy codec 2 3)))
    square_fn square_fn (λ _ _, x07) (rows_of_slices (tabulate 3 (λ k, tabulate 2 (square_fn k)))))
    as [_ H].
  - lia.
  - lia.
  - intros k Hk. simpl. destruct k as [|[|[|?]]]; [reflexivity..|lia].
  - apply encode_order_parallel. vm_compute. reflexivity.
  - exact H.
Defined.

(** ** Construction *)
Lemma with_options_correct_witness : ∃ M,
  with_options 2 3 options_default = Ok codec ∧ data_shard_count codec = 2%nat ∧ mds_codec codec M.
Proof.
  pose proof (with_options_correct 2 3 options_default default_builtin) as H. cbv zeta in H.
  rewrite codec_new in H. destruct H as (_ & _ & _ & Hd & _ & _ & HM & _).
  destruct HM as [M HM]; [vm_compute; reflexivity|]. exists M. split; [exact codec_new|]. by split.
Defined.

Lemma custom_ok :
  is_ok (with_custom_matrix 2 1 [[x05; x06]] options_default) = true.
Proof. vm_compute. reflexivity. Qed.

Lemma with_custom_matrix_correct_witness :
  classic_codec (get_ok _ custom_ok) (custom_fn 2 [[x05; x06]]) ∧
  custom_fn 2 [[x05; x06]] 2 1 = x06.
Proof.
  pose proof (with_custom_matrix_correct 2 1 [[x05; x06]] options_default) as H. cbv zeta in H.
  rewrite (get_ok_spec _ custom_ok) in H. destruct H as (_ & _ & _ & _ & _ & _ & _ & _ & H).
  split; [exact H|reflexivity].
Defined.

Lemma split_join_roundtrip_witness : ∃ shards,
  split (E:=Error) codec [x01; x02; x03] = Ok shards ∧ length shards = 2%nat ∧
  join codec shards 3 = Ok [x01; x02; x03].
Proof.
  destruct (split_join_roundtrip codec [x01; x02; x03]) as (shards & len & H1 & H2 & _ & _ & _ & H3).
  - rewrite (proj1 codec_facts). lia.
  - vm_compute. discriminate.
  - left. discriminate.
  - rewrite (proj1 codec_facts) in H2. exists shards. by split_and!.
Defined.

Lemma inversion_cache_budget_witness :
  ∃ c : InversionCache Elem,
    for_each (E:=Empty_set) [OpInsert [0] square; OpGet [0]; OpInsert [1] square] cache_step
      (cache_new 1 4096) = Ok c ∧ (memory_entries (cache_memory c) <= 1)%N.
Proof.
  destruct (inversion_cache_budget (A:=Elem) 1 4096
    [OpInsert [0] square; OpGet [0]; OpInsert [1] square]) as (c & H1 & _ & H2 & _).
  exists c. by split.
Defined.
