(* ===== verification/OptWitnesses.v ===== *)
(** * The option-vector theorems on the concrete codec

    Continues [Witnesses] with the bulk executor, progressive recovery and the
    byte codec's own entry points, on the same (2 + 3) codec and Leopard engines. *)

From Stdlib Require Import NArith Lia List Bool Init.Byte.
From stdpp Require Import base numbers list relations.
From S2P Require Import Prelude Errors Bytes Fields Gf8 LinAlg Matrix Options Leopard.
From S2P Require Import InversionCache Parallel Checks Codec Coding Encode Verify ShardByShard.
From S2P Require Import Shards Format DecodeMatrix RecoveryPlan Execute LeopardReconstruct.
From S2P Require Import Reconstruct OptionVec DecodeIdx Gf8Opt Witnesses.

#[local] Existing Instance example_runtime.
#[local] Existing Instance example_encoders.
#[local] Existing Instance example_decoders.
#[local] Opaque codec encoded leopard_codec.

(** ** The bulk executor *)

(** The tasks of every stage in reverse order. *)
Definition bulk_order (policies : ParallelPolicy * ParallelPolicy) (stage : bool) (t : nat)
  : list task :=
  reversed_tasks (decide_for_elements (if stage then policies.1 else policies.2) 2 1 2
    (N.of_nat t) 4) t.

Lemma bulk_order_schedules policies :
  bulk_schedules codec 2 (bulk_order policies) policies.1 policies.2.
Proof.
  destruct codec_facts as (Hd & _). intros stage t decision _.
  unfold is_schedule, bulk_order, reversed_tasks, decision. rewrite Hd.
  assert (available_parallelism (rs_policy_cache codec) = 4%N) as -> by (vm_compute; reflexivity).
  by rewrite reverse_Permutation.
Qed.

Lemma option_bulk_agrees_witness : ∃ M,
  classic_codec codec M ∧
  reconstruct_classic_goal_opt (bulk_order (goal_policies codec GoalAll)) codec lost GoalAll
    = reconstruct_goal codec lost GoalAll ∧
  (reconstruct_goal codec lost GoalAll).2 = Ok tt.
Proof.
  destruct codec_facts as (_ & _ & _ & (M & HM & _) & Hv). exists M. split; [exact HM|].
  pose proof (option_bulk_agrees codec M 2 encoded lost GoalAll
    (bulk_order (goal_policies codec GoalAll)) HM Hv (encoded_codeword M HM) lost_holds) as H.
  specialize (H eq_refl (bulk_order_schedules _)). destruct H as [H _].
  split; [exact H|vm_compute; reflexivity].
Defined.

Lemma option_workspace_agrees_witness :
  let policies := reconstruct_stage_policies (rs_policy_cache codec)
    (data_only (workspace_plan (get_ok _ prepared_ok))) in
  reconstruct_opt_with_workspace_par (bulk_order policies) false codec lost (get_ok _ prepared_ok)
    = reconstruct_with_workspace false codec lost (get_ok _ prepared_ok).
Proof.
  intros policies. destruct codec_facts as (_ & _ & _ & (M & HM & _) & Hv).
  pose proof (option_workspace_agrees false (bulk_order policies) codec codec M 2 encoded lost lost
    goal_some (prepare_reconstruct_workspace_with_goal codec lost goal_some).1
    (get_ok _ prepared_ok) HM Hv HM eq_refl Hv flags_ok prepared_eq eq_refl
    (encoded_codeword M HM) lost_holds) as H.
  pose proof (bulk_order_schedules policies) as Hs. revert H Hs.
  unfold policies. destruct (reconstruct_stage_policies _ _) as [dp pp]. intros H Hs.
  exact (proj2 (H Hs)).
Defined.

(** ** Progressive recovery: the survivors 2 and 3 arrive one by one, the
    second first, for a lost data shard and a lost parity shard. *)
Definition mask : list bool := [false; false; true; true; false].
Definition zeroed : list (option (list Elem)) :=
  [Some [x00; x00]; None; None; None; Some [x00; x00]].
Definition arrivals : list (list (option (list Elem))) :=
  [[None; None; None; encoded !! 3%nat; None]; [None; None; encoded !! 2%nat; None; None]].

Lemma arrivals_hold : Forall (holds encoded 5) arrivals.
Proof.
  unfold arrivals. assert (length encoded = 5%nat) as Hlen by apply encoded_layout.
  revert Hlen. generalize encoded. intros cw Hlen.
  do 5 (destruct cw as [|? cw]; [discriminate Hlen|]).
  repeat constructor; intros i s x; simpl;
    do 5 (destruct i as [|i]; [simpl; intros [= <-]; simpl; intros [=]; by subst|]); intros [=].
Qed.

Lemma mask_indices : expected_indices mask true = [2; 3]%nat.
Proof. vm_compute. reflexivity. Qed.

Lemma mask_solvable M : mds_codec codec M → nonsingular 2 2 (selected_rows M [2; 3]).
Proof.
  intros [HM Hmds]. destruct codec_facts as (Hd & Hp & _). rewrite Hd, Hp in Hmds.
  apply Hmds. split.
  - intros i Hi. destruct i as [|[|?]]; [vm_compute; lia..|lia].
  - intros i j Hi Hj. destruct i as [|[|?]], j as [|[|?]]; try lia; vm_compute; lia.
Qed.

Lemma arrivals_once :
  List.concat (map (λ input, filter (brings input) (expected_indices mask true)) arrivals)
  ≡ₚ expected_indices mask true.
Proof. apply (bool_decide_eq_true_1 _). vm_compute. reflexivity. Qed.

Lemma decode_idx_progressive_witness : ∃ c,
  decode_batches codec zeroed mask arrivals
  = (set_cache codec c,
     [Some (shard_at encoded 0); None; None; None; Some (shard_at encoded 4)], Ok tt) ∧
  cache_valid (set_cache codec c) ∧ shard_at encoded 0 = [x01; x02].
Proof.
  destruct codec_facts as (Hd & Hp & _ & (M & HM) & Hv).
  pose proof (decode_idx_progressive codec M 2 encoded mask zeroed arrivals (proj1 HM) Hv
    (encoded_codeword M (proj1 HM))) as H.
  rewrite total_count, Hd, Hp, mask_indices in H.
  specialize (H eq_refl eq_refl (mask_solvable M HM) eq_refl).
  destruct H as (c & H1 & H2).
  - exists 0%nat, [x00; x00]. reflexivity.
  - intros o x. do 5 (destruct o as [|o]; [simpl; intros [= <-]; reflexivity || discriminate|]).
    discriminate.
  - exact arrivals_hold.
  - pose proof arrivals_once as Ho. rewrite mask_indices in Ho. exact Ho.
  - exists c. split; [exact H1|]. split; [exact H2|vm_compute; reflexivity].
Defined.

Lemma decode_idx_merge_atomic_witness :
  let '(self, dst, r) := decode_idx codec
    [Some [x01; x02]; None; Some [x01]; None; None] None
    [Some [x01; x00]; None; Some [x02; x03]; None; None] in
  self = codec ∧ r = Err IncorrectShardSize ∧ dst = [Some [x01; x02]; None; Some [x01]; None; None].
Proof.
  destruct codec_facts as (Hd & Hp & _ & (M & HM & _) & _).
  pose proof (decode_idx_merge_atomic codec M [Some [x01; x02]; None; Some [x01]; None; None]
    [Some [x01; x00]; None; Some [x02; x03]; None; None] HM) as H.
  rewrite total_count, Hd, Hp in H. specialize (H eq_refl eq_refl).
  assert ((decode_idx codec [Some [x01; x02]; None; Some [x01]; None; None] None
    [Some [x01; x00]; None; Some [x02; x03]; None; None]).2 = Err IncorrectShardSize) as Hr
    by (vm_compute; reflexivity).
  revert H Hr. destruct (decode_idx _ _ _ _) as [[self dst] r]. simpl. intros [H1 H2] ->.
  destruct H2 as [H2 _]. split; [exact H1|]. split; [reflexivity|exact H2].
Defined.

(** ** Leopard codecs *)
Lemma leopard_opt_agrees_witness :
  reconstruct_opt (λ _ _, []) leopard_codec block = reconstruct leopard_codec block ∧
  (reconstruct leopard_codec block).2 = Ok tt.
Proof.
  destruct leopard_counts as [Hd _]. split; [|vm_compute; reflexivity].
  destruct (leopard_opt_agrees (λ _ _, []) leopard_codec block []) as [H _].
  - rewrite Hd. lia.
  - vm_compute. reflexivity.
  - exact zero_decoder_keeps.
  - intros jobs. exact zero_decoder_keeps.
  - exact H.
Defined.

Definition byte_shards : list (list byte) := replicate 4 (replicate 64 x01).

Lemma opt_encoders_agree_witness :
  encode_opt [] leopard_codec byte_shards = encode_par [] leopard_codec byte_shards ∧
  encode_opt [] leopard_codec byte_shards = Ok byte_shards.
Proof.
  destruct leopard_counts as [Hd Ht]. split; [|vm_compute; reflexivity].
  destruct (opt_encoders_agree [] leopard_codec byte_shards [] [] []) as [H _].
  - rewrite Hd. lia.
  - unfold total_shard_count, data_shard_count, parity_shard_count in *. lia.
  - intros d p data parity out [= <-]. reflexivity.
  - exact H.
Defined.
