(* ===== verification/StreamWitnesses.v ===== *)
(** * The streaming theorems on concrete streams

    Scripted readers and writers, the test doubles of the streams: a reader delivers its
    chunks in order, is interrupted or fails where the script says, and a writer takes
    the scripted numbers of bytes.  They obey the laws of [StreamIo], and the
    streaming theorems are applied to them on the (2 + 3) codec of [Witnesses], with
    parallel input and output in reverse order. *)

From Stdlib Require Import NArith Lia List Bool Init.Byte.
From stdpp Require Import base numbers list.
From S2P Require Import Prelude Errors Bytes Fields Gf8 LinAlg Matrix Options Leopard.
From S2P Require Import InversionCache Parallel Checks Codec Coding Encode Verify ShardByShard.
From S2P Require Import Shards Format DecodeMatrix RecoveryPlan Execute LeopardReconstruct.
From S2P Require Import Reconstruct OptionVec Gf8Opt StreamIo Stream StreamPlan StreamReconstruct.
From S2P Require Import Witnesses.

#[local] Existing Instance example_runtime.
#[local] Existing Instance example_encoders.
#[local] Existing Instance example_decoders.
#[local] Opaque codec encoded.

(** ** Scripted readers *)
Inductive ReadEvent :=
| Arrives (b : byte) (bs : list byte)
| ReadFails (e : io_error).

Record ScriptReader := mk_reader { read_script : list ReadEvent }.

Definition event_bytes (e : ReadEvent) : list byte :=
  match e with Arrives b bs => b :: bs | ReadFails _ => [] end.
Definition event_cost (e : ReadEvent) : nat :=
  match e with Arrives _ bs => S (length bs) | ReadFails _ => 1 end.

#[export] Instance script_read : Read ScriptReader := {
  read r cap :=
    match read_script r with
    | [] => (r, Ok [])
    | ReadFails e :: script => (mk_reader script, Err e)
    | Arrives b bs :: script =>
        (mk_reader match drop cap (b :: bs) with
                   | [] => script
                   | c :: cs => Arrives c cs :: script
                   end, Ok (take cap (b :: bs)))
    end;
  read_budget r := sum_list (map event_cost (read_script r));
}.

#[export, refine] Instance script_read_laws : ReadLaws ScriptReader := {
  contents r := List.concat (map event_bytes (read_script r));
  read_faults r e := e ≠ Interrupted ∧ ReadFails e ∈ read_script r;
}.
Proof.
  intros [script] cap Hcap. destruct script as [|[b bs|e] script]; simpl.
  - split_and!; try done; lia.
  - pose proof (take_drop cap (b :: bs)) as Hsplit.
    assert (take cap (b :: bs) ≠ []) as Hne by (by destruct cap; [lia|]).
    assert (length (take cap (b :: bs)) ≠ 0) as Hl.
    { intros Hz. by apply nil_length_inv in Hz. }
    pose proof (f_equal length Hsplit) as Hlen. rewrite length_app in Hlen. simpl length at 3 in Hlen.
    split_and!.
    + rewrite length_take. lia.
    + transitivity ((take cap (b :: bs) ++ drop cap (b :: bs)) ++
        List.concat (map event_bytes script)); [by rewrite Hsplit|].
      rewrite <- (assoc_L (++)). by destruct (drop cap (b :: bs)).
    + done.
    + rewrite decide_False by done. destruct (drop cap (b :: bs)); simpl in *; lia.
    + intros e [Hi Hin]. split; [done|]. right.
      destruct (drop cap (b :: bs)); [done|]. by apply elem_of_cons in Hin as [|].
  - destruct e; try (by split; [|left]).
    split_and!; [done|lia|]. intros e [Hi Hin]. split; [done|by right].
Defined.

(** ** Scripted writers *)
Inductive WriteEvent :=
| Takes (n : nat)
| WriteFails (e : io_error).

Record ScriptWriter := mk_writer { write_script : list WriteEvent; written : list byte }.

#[export] Instance script_write : Write ScriptWriter := {
  write w buf :=
    match write_script w with
    | [] => (mk_writer [] (written w ++ buf), Ok (length buf))
    | Takes n :: script =>
        (mk_writer script (written w ++ take n buf), Ok (length (take n buf)))
    | WriteFails e :: script => (mk_writer script (written w), Err e)
    end;
  write_budget w := length (write_script w);
}.

#[export, refine] Instance script_write_laws : WriteLaws ScriptWriter := {
  output := written;
  write_faults w e := e ≠ Interrupted ∧ WriteFails e ∈ write_script w ∨
    e = WriteZero ∧ Takes 0 ∈ write_script w;
}.
Proof.
  intros [script out] buf Hbuf. simpl.
  destruct script as [|[n|e] script]; simpl.
  - rewrite firstn_all. split_and!; try done. intros Hz. by apply nil_length_inv in Hz.
  - rewrite length_take. split_and!.
    + lia.
    + rewrite <- (firstn_all (take n buf)) at 1. rewrite length_take, take_take. do 2 f_equal. lia.
    + intros Hz. right. split; [done|]. destruct buf; [done|]. destruct n; [left|simpl in Hz; lia].
    + lia.
    + intros e [[Hi Hin]|[Hi Hin]]; [left|right]; (split; [done|by right]).
  - destruct e; try (by left; split; [|left]).
    split_and!; [done|lia|]. intros e [[Hi Hin]|[Hi Hin]]; [left|right]; (split; [done|by right]).
Defined.

(** ** Schedules *)
Definition reversed_schedule (n : nat) : Schedule := mk_schedule (rev (seq 0 n)) (λ _, true).

Definition reversed_io (readers writers : nat) : StreamSchedules :=
  mk_schedules (λ _, reversed_schedule readers) (λ _, reversed_schedule writers)
    (λ _ len, List.concat (output_chunk_tasks (replicate 3 len) len
       (N.to_nat (chunk_len (parallel_policy codec len 3)))
       (N.to_nat (jobs (parallel_policy codec len 3))))).

Lemma reversed_schedule_ok n : is_io_schedule (reversed_schedule n) n.
Proof. unfold is_io_schedule. simpl. symmetry. apply Permutation_rev. Qed.

Lemma reversed_io_ok readers writers : schedules_ok codec (reversed_io readers writers) readers writers.
Proof.
  destruct codec_facts as (_ & Hp & _). intros k.
  split; [apply reversed_schedule_ok|]. split; [apply reversed_schedule_ok|].
  intros len. rewrite Hp. unfold policy_schedule. intros _. unfold is_schedule. done.
Qed.

Definition small_blocks : StreamOptions := mk_options 0 IoParallel.

(** ** Encoding: short reads, an interruption, a stream that is shorter, short writes. *)
Definition chunky : list ScriptReader :=
  [mk_reader [Arrives x01 []; ReadFails Interrupted; Arrives x02 []]; mk_reader [Arrives x03 []]].
Definition slow_writers : list ScriptWriter :=
  [mk_writer [Takes 1; WriteFails Interrupted] []; mk_writer [] []; mk_writer [Takes 1] []].

Lemma encode_stream_correct_witness : ∃ M,
  classic_codec codec M ∧
  let '(_, parity, r) := encode_stream (reversed_io 2 3) codec chunky slow_writers small_blocks in
  r = Ok tt ∧ received slow_writers parity (parity_of (F:=gf8) M 2 3 2 [[x01; x02]; [x03; x00]]).
Proof.
  destruct codec_facts as (Hd & Hp & _ & (M & HM & _) & _). exists M. split; [exact HM|].
  pose proof (encode_stream_correct (reversed_io 2 3) codec M chunky slow_writers small_blocks HM)
    as H.
  rewrite Hd, Hp in H. specialize (H (reversed_io_ok 2 3)).
  assert ((encode_stream (reversed_io 2 3) codec chunky slow_writers small_blocks).2 = Ok tt) as Hr
    by (vm_compute; reflexivity).
  revert H Hr. destruct (encode_stream _ _ _ _ _) as [[data parity] r]. simpl. intros H ->.
  split; [reflexivity|]. destruct H as (_ & _ & H). exact H.
Defined.

(** ** Verification of the encoded shards, byte by byte and as a whole *)
Definition encoded_readers : list ScriptReader :=
  map (λ s : list byte, mk_reader (map (λ b, Arrives b []) s)) (encoded : list (list byte)).

Lemma encoded_readers_contents :
  map contents encoded_readers = (encoded : list (list byte)).
Proof.
  unfold encoded_readers. rewrite map_map. transitivity (map (λ s : list byte, s) encoded); [|apply map_id].
  apply map_ext. intros s. simpl. induction s; simpl in *; congruence.
Qed.

Lemma verify_stream_correct_witness : ∃ M,
  classic_codec codec M ∧ valid_streams codec M encoded ∧
  (verify_stream (reversed_io 5 0) codec encoded_readers small_blocks).2 = Ok true.
Proof.
  destruct codec_facts as (_ & _ & _ & (M & HM & _) & _). exists M. split; [exact HM|].
  assert ((verify_stream (reversed_io 5 0) codec encoded_readers small_blocks).2 = Ok true) as Hr
    by (vm_compute; reflexivity).
  split; [|exact Hr].
  assert (schedules_ok codec (reversed_io 5 0) (total_shard_count codec) 0) as Hs.
  { assert (total_shard_count codec = 5%nat) as -> by (vm_compute; reflexivity).
    apply reversed_io_ok. }
  pose proof (verify_stream_correct (reversed_io 5 0) codec M encoded_readers small_blocks 0 HM Hs)
    as H.
  revert H Hr. destruct (verify_stream _ _ _ _) as [shards r]. cbn [snd]. intros H ->.
  destruct H as [_ H]. rewrite encoded_readers_contents in H. apply H. reflexivity.
Defined.

(** ** Reconstruction: two data shards and a parity shard are missing. *)
Definition present_readers : list (option ScriptReader) :=
  imap (λ i r, if decide (i = 2 ∨ i = 3) then Some r else None) encoded_readers.
Definition missing_writers : list (option ScriptWriter) :=
  [Some (mk_writer [Takes 1] []); Some (mk_writer [] []); None; None; Some (mk_writer [] [])].

Lemma io_schedules : ∀ k,
  is_io_schedule (sched_reads (reversed_io 5 5) k) (total_shard_count codec) ∧
  is_io_schedule (sched_writes (reversed_io 5 5) k) (total_shard_count codec).
Proof.
  intros k. assert (total_shard_count codec = 5%nat) as -> by (vm_compute; reflexivity).
  split; apply reversed_schedule_ok.
Qed.

Lemma reconstruct_stream_correct_witness : ∃ M writers',
  classic_codec codec M ∧
  (reconstruct_stream_from (reversed_io 5 5) codec present_readers missing_writers
     small_blocks).2 = Ok tt ∧
  streams_restored codec M present_readers missing_writers writers'.
Proof.
  destruct codec_facts as (_ & _ & _ & (M & HM & _) & Hv).
  pose proof (reconstruct_stream_correct (reversed_io 5 5) codec M present_readers missing_writers
    small_blocks HM Hv io_schedules) as H.
  assert ((reconstruct_stream_from (reversed_io 5 5) codec present_readers missing_writers
     small_blocks).2 = Ok tt) as Hr by (vm_compute; reflexivity).
  revert H Hr. destruct (reconstruct_stream_from _ _ _ _ _) as [[[self' readers'] writers'] r].
  simpl. intros H ->. destruct H as (_ & _ & _ & H).
  exists M, writers'. split; [exact HM|]. split; [reflexivity|exact H].
Defined.

(** Cursors at odd positions, three of them emptied. *)
Definition lost_cursors : list Cursor :=
  imap (λ i s, if decide (i = 0 ∨ i = 1 ∨ i = 4) then mk_cursor [] 0 else mk_cursor s 7) encoded.

Lemma lost_cursors_hold i s :
  lost_cursors !! i = Some s → get_ref s = [] ∨ encoded !! i = Some (get_ref s).
Proof.
  unfold lost_cursors. rewrite list_lookup_imap. generalize encoded. intros cw.
  change (@Elem gf8) with byte in *.
  destruct (cw !! i) as [x|]; simpl; [|done]. intros Hs. injection Hs as <-.
  case_decide; [by left|by right].
Qed.

Lemma reconstruct_stream_restores_witness :
  let '(_, shards, r) := reconstruct_stream (reversed_io 5 5) codec lost_cursors small_blocks in
  r = Ok tt ∧ map get_ref shards = encoded.
Proof.
  destruct codec_facts as (Hd & Hp & _ & (M & HM) & Hv).
  pose proof (reconstruct_stream_restores (reversed_io 5 5) codec M 2 encoded lost_cursors
    small_blocks HM Hv io_schedules) as H.
  assert (total_shard_count codec = 5%nat) as Ht by (vm_compute; reflexivity).
  rewrite Hd, Hp, Ht in H. specialize (H (encoded_codeword M (proj1 HM))).
  assert (length lost_cursors = 5%nat) as Hl by (vm_compute; reflexivity).
  specialize (H Hl lost_cursors_hold).
  assert (length (filter (λ s, get_ref s = []) lost_cursors) ≤ 3)%nat as Hm
    by (apply (bool_decide_eq_true_1 _); vm_compute; reflexivity).
  specialize (H Hm). revert H.
  destruct (reconstruct_stream _ _ _ _) as [[self shards] r]. intros (H1 & H2 & _).
  split; [exact H1|exact H2].
Defined.
