(* ===== verification/LeoWitnesses.v ===== *)
(** * The Leopard theorems on a concrete codec

    A (3 + 2) codec of each Leopard family with shards of 64 bytes: empty caches, an
    allocator that hands out zeroed lanes, a machine with four threads, and the parity that
    the engines compute. *)

From Stdlib Require Import NArith Lia List Bool Init.Byte.
From stdpp Require Import base numbers list.
From S2P Require Import Prelude Errors Bytes Fields Gf8 Options LinAlg Matrix Leopard InversionCache Parallel Checks Codec.
From S2P Require Import Coding Encode Verify Shards DecodeMatrix RecoveryPlan Execute LeopardReconstruct Reconstruct Gf8Opt.
From S2P Require Import Witnesses Lch LeoStages LeoTables8 LeoWalsh8 LeoOps8 LeoPlan LeoDit LeoCode LeoDit8 LeoGroup LeoChunk LeoGroup8 LeoEncode8 LeoDecode8.
From S2P Require Import LeoFlat LeoLocator LeoDecode LeoRestore LeoDecoder LeoEngine LeoLocator8 LeoDecode8 LeoRestore8 LeoDecoder8 LeoEngine8.
From S2P Require Import LeoTables16 LeoLch16 LeoSkew16 LeoOps16 LeoGroup16 LeoEncode16.
From S2P Require Import LeoFused16 LeoPlanCache LeoDecode16 LeoDecoder16 LeoEngine16 LeoFamilies.

#[local] Existing Instance example_runtime.

#[local] Instance example_allocator : Allocator8 := {|
  new_uninit := λ lanes lane_len, replicate lanes (replicate lane_len x00);
  plans_capacity := λ _, 100%N;
  scratch_capacity := λ scratch, N.of_nat (length scratch);
|}.

#[local] Instance example_allocator_laws : AllocatorLaws.
Proof.
  constructor. intros lanes lane_len. split; [apply length_replicate|].
  apply Forall_replicate, length_replicate.
Qed.

#[local] Instance example_sizes : DecodeSizes := {|
  plan_retained_bytes := λ _, 1000%N;
  buffers_retained_bytes := λ _, 1000%N;
|}.

Definition leo_options : CodecOptions := builder.set_codec_family options_default LeopardGF8.

Lemma leo_codec_ok : is_ok (with_options (F:=gf8) 3 2 leo_options) = true.
Proof. vm_compute. reflexivity. Qed.

Definition leo_codec : ReedSolomon (F:=gf8) := get_ok _ leo_codec_ok.

Lemma leo_codec_new : with_options (F:=gf8) 3 2 leo_options = Ok leo_codec.
Proof. apply get_ok_spec. Qed.

Lemma leo_codec_family : rs_codec_family leo_codec = LeopardGF8.
Proof. vm_compute. reflexivity. Qed.

Definition leo_options16 : CodecOptions := builder.set_codec_family options_default LeopardGF16.

Lemma leo_codec16_ok : is_ok (with_options (F:=gf8) 3 2 leo_options16) = true.
Proof. vm_compute. reflexivity. Qed.

Definition leo_codec16 : ReedSolomon (F:=gf8) := get_ok _ leo_codec16_ok.

Lemma leo_codec16_new : with_options (F:=gf8) 3 2 leo_options16 = Ok leo_codec16.
Proof. apply get_ok_spec. Qed.

Lemma leo_codec16_family : rs_codec_family leo_codec16 = LeopardGF16.
Proof. vm_compute. reflexivity. Qed.

Lemma leo_not_classic : rs_codec_family leo_codec ≠ Classic ∧ rs_codec_family leo_codec16 ≠ Classic.
Proof. by rewrite leo_codec_family, leo_codec16_family. Qed.

Lemma leo_fits16 : family_fits LeopardGF16 3 2.
Proof. vm_compute. reflexivity. Qed.

Lemma leo_fits : family_fits LeopardGF8 3 2.
Proof. vm_compute. reflexivity. Qed.

Lemma leo_shape : shape8 3 2 (order2 (Nat.max 2 1)).
Proof. apply (fits_shape8 3 2), leo_fits. Qed.

(** ** The shards *)
Definition leo_data : list (list byte) :=
  [tabulate 64 pt8; replicate 64 xff; tabulate 64 (λ i, pt8 (200 - i))].
Definition leo_blank : list (list byte) := replicate 2 (replicate 64 x00).

Lemma leo_data_lengths : Forall (λ shard, length shard = 64) leo_data.
Proof. by repeat constructor. Qed.

Lemma leo_layout : sep_layout (F:=gf8) 3 2 64 leo_data leo_blank.
Proof. split_and!; try done; [lia|by repeat constructor|by repeat constructor]. Qed.

Definition leo_encode : outcome Error (list (list byte)) :=
  engine_encode Direct empty_caches 3 2 leo_data leo_blank.
Definition leo_parity : list (list byte) :=
  Eval vm_compute in match leo_encode with Ok parity => parity | _ => [] end.
Lemma leo_parity_eq : leo_encode = Ok leo_parity.
Proof. vm_compute. reflexivity. Qed.

#[local] Opaque leo_parity.

Definition leo_shards : list (list byte) := leo_data ++ leo_parity.

Lemma leo_shards_ok : leopard_shards byte_words 3 2 64 leo_shards.
Proof.
  destruct (engine_encode_ok Direct empty_caches empty_caches_ok 3 2 64 leo_data leo_blank leo_fits eq_refl leo_layout)
    as (parity & Hrun & Hl & Ha & Hw).
  pose proof (eq_trans (eq_sym leo_parity_eq) Hrun) as Heq.
  assert (parity = leo_parity) as -> by congruence. unfold leo_shards. split_and!.
  - rewrite length_app, Hl. reflexivity.
  - apply Forall_app. split; [exact leo_data_lengths|exact Ha].
  - exact Hw.
Qed.

Lemma leo_words : words_ok8 3 2 (KO 2) (NO 3 2) 64 leo_shards.
Proof. apply leo_shards_ok. Qed.

(** A data shard and a parity shard lost. *)
Definition leo_present : list bool := [true; false; true; true; false].
Definition leo_pieces_of (shards : list (list byte)) : list (option (list byte)) :=
  imap (λ i shard, if default false (leo_present !! i) then Some shard else None) shards.
Definition leo_inputs : list (option (list byte)) := leo_pieces_of leo_shards.
Definition leo_outputs : list (list byte) :=
  [[]; replicate 64 x00; []; []; replicate 64 x00].

Lemma leo_pieces_ok shards i shard : leo_present !! i = Some true → shards !! i = Some shard →
  leo_pieces_of shards !! i = Some (Some shard).
Proof. intros Hp Hs. unfold leo_pieces_of. rewrite list_lookup_imap, Hs. cbn. by rewrite Hp. Qed.

Lemma leo_pieces_length shards : length (leo_pieces_of shards) = length shards.
Proof. apply length_imap. Qed.

Lemma leo_lengths : length leo_shards = 3 + 2 ∧ Forall (λ shard, length shard = 64) leo_shards.
Proof. destruct leo_shards_ok as (H1 & H2 & _). by split. Qed.

Lemma leo_outputs_ok : Forall (output_ok 64) leo_outputs.
Proof. unfold leo_outputs. repeat constructor; first [by left|by right]. Qed.

Lemma leo_pieces shards : length shards = 5 →
  pieces_of (leo_pieces_of shards) shards ∧ 3 ≤ LeopardReconstruct.present_count (F:=gf8) (leo_pieces_of shards).
Proof.
  intros Hl. split; [split; [apply leo_pieces_length|]|].
  - intros i s x. unfold leo_pieces_of. rewrite list_lookup_imap.
    destruct (shards !! i) as [y|] eqn:Hy; [|done]. cbn. intros [= <-].
    destruct (default false (leo_present !! i)); [|done]. cbn. by intros [= ->].
  - do 5 (destruct shards; [done|]). destruct shards; [|done]. apply Nat.leb_le. reflexivity.
Qed.

#[local] Instance example_plan_sizes : PlanSizes16 := λ _, 100%N.
#[local] Instance example_machine : DecodeMachine16 := {|
  plan_bytes16 := λ _, 1000%N;
  key_bytes16 := λ _, 100%N;
  scratch_bytes16 := λ scratch, (2 * N.of_nat (length scratch))%N;
  current_num_threads := 4;
|}.

Lemma leo_shape16 : shape16 3 2 (order2 (Nat.max 2 1)).
Proof. apply (fits_shape16 3 2), leo_fits16. Qed.

(** The shards that the GF(2^16) encoder makes. *)
Lemma leo_shards16 : ∃ parity, leopard_shards element_words 3 2 64 (leo_data ++ parity).
Proof.
  destruct (engine_encode16_ok empty_caches16 empty_caches16_ok 3 2 64 leo_data leo_blank leo_fits16 eq_refl leo_layout)
    as (parity & _ & Hl & Ha & Hw). exists parity. split_and!; [|apply Forall_app; split; [exact leo_data_lengths|exact Ha]|exact Hw].
  rewrite length_app, Hl. reflexivity.
Qed.

Definition leo_shared : DecodeShared16 := mk_shared16 (plan_cache_new (8 * 1024 * 1024)) (λ c, c) (λ _, None).

Lemma leo_shared_ok : shared16_ok leo_shared.
Proof.
  split; [split|].
  - apply plan_cache_new_ok.
  - intros c H Hm. by split.
  - intros j. apply no_buffers_ok.
Qed.

#[local] Opaque leo_codec leo_codec16.

(** ** The theorems *)
Lemma leopard_plans_correct_witness :
  5 ≤ 2 ^ 3 ∧ (1 + 1) * 2 ^ 3 ≤ 256 ∧
  (build_fft_dit8_plan (E:=Error) 5 (2 ^ 3) SKEW8 = Ok (fft_plan 3 5) ∧
   build_ifft_decode_dit8_plan (E:=Error) 5 (2 ^ 3) SKEW8 = Ok (ifft_plan 0 3 5) ∧
   (0 < 1 → build_ifft_dit8_plan (E:=Error) 5 (2 ^ 3) (drop (1 * 2 ^ 3 - 1) SKEW8) = Ok (ifft_plan 1 3 5))).
Proof.
  assert (5 ≤ 2 ^ 3) as H1 by (vm_compute; lia). assert ((1 + 1) * 2 ^ 3 ≤ 256) as H2 by (vm_compute; lia).
  split; [exact H1|]. split; [exact H2|]. exact (leopard_plans_correct (E:=Error) 1 3 5 H1 H2).
Defined.

Definition leo_driver : LeopardGf8DecodeDriver := decode_driver8 3 2 64.

Lemma error_locs_correct_witness :
  length leo_present = 3 + 2 ∧
  ∃ v, compute_error_locs leo_present leo_driver TABLES8 = Ok (tabulate 256 v) ∧ ∀ i, i < 256 →
    lexp (u8_to_nat (v i)) = locator (F:=lch8) pt8 (filter (λ j, lost leo_present 3 2 1 j ∧ j ≠ i) (seq 0 256)) (pt8 i).
Proof.
  split; [reflexivity|]. apply (error_locs_correct leo_present 3 2 1 leo_driver);
    [reflexivity|apply Nat.leb_le; reflexivity|apply Nat.leb_le; reflexivity|reflexivity].
Defined.

Lemma leopard_encoder_correct_witness :
  ∃ caches' parity', encode_with_tables Direct TABLES8 empty_caches 3 2 leo_data leo_blank
      = Ok (caches', encode_driver 3 2 64, parity') ∧
    caches_ok caches' ∧ length parity' = 2 ∧ Forall (λ shard, length shard = 64) parity' ∧
    ∀ b, b < 64 → leopard_word (order2 (2 ^ order2 (Nat.max 2 1) + 3)) (order2 (Nat.max 2 1)) 3 2
      (shard_column leo_data b) (shard_column parity' b).
Proof.
  apply (leopard_encoder_correct Direct empty_caches 3 2 64 leo_data leo_blank);
    [apply empty_caches_ok|apply leo_shape|discriminate|reflexivity|reflexivity|apply leo_data_lengths
    |reflexivity|by repeat constructor].
Defined.

Lemma leopard16_encoder_correct_witness :
  ∃ caches' parity', encode_with_tables16 TABLES16 empty_caches16 3 2 leo_data leo_blank
      = Ok (caches', encode_driver16 3 2 64, parity') ∧
    caches_ok16 caches' ∧ length parity' = 2 ∧ Forall (λ shard, length shard = 64) parity' ∧
    ∀ e, e < 64 / 2 → LeoCode.leopard_word (F:=lch16) pt16 (order2 (2 ^ order2 (Nat.max 2 1) + 3))
      (order2 (Nat.max 2 1)) 3 2 (user_column leo_data e) (user_column parity' e).
Proof.
  apply (leopard16_encoder_correct empty_caches16 3 2 64 leo_data leo_blank);
    [apply empty_caches16_ok|apply leo_shape16|discriminate|reflexivity|reflexivity|apply leo_data_lengths
    |reflexivity|by repeat constructor].
Defined.

Lemma leopard_decoder_correct_witness :
  ∃ cache', decode_with_tables (Some (mk_decode_cache None None)) TABLES8 leo_present leo_outputs leo_inputs 3 2
      = Ok (filled leo_present leo_shards leo_outputs, cache') ∧ decode_cache_ok cache'.
Proof.
  apply (leopard_decoder_correct 3 2 64 leo_present leo_shards leo_inputs leo_outputs
    (Some (mk_decode_cache None None)));
    [apply leopard_shape_decodes, leo_shape|discriminate|reflexivity|reflexivity|apply Nat.leb_le; reflexivity
    |apply leo_lengths|apply leo_lengths|apply leo_pieces_ok|reflexivity|apply leo_words|reflexivity
    |apply leo_outputs_ok|apply empty_decode_cache_ok].
Defined.

Lemma encoder_transforms_correct_witness :
  group_ok 64 leo_data 2 0 ∧ lanes_good 64 (λ _, replicate 64 x00) ∧
  ((∃ t, ifft_dit_encoder8_with_plan (E:=Error) TABLES8 Direct 64 leo_data (ifft_plan 1 1 2) 0 (0 + 64)
          (lanes_emb (2 ^ 1) (λ _, replicate 64 x00)) = Ok (lanes_emb (2 ^ 1) t) ∧
     (∀ b i, b < 64 → i < 2 ^ 1 → nval (F:=lch8) 1 (column b t) (pt8 (1 * 2 ^ 1 + i))
        = column b (group_lane (F:=lch8) 64 (shard_part 64 leo_data 0) 2) i) ∧
     ifft_dit_encoder8_with_plan (E:=Error) TABLES8 Decomposed 64 leo_data (ifft_plan 1 1 2) 0 (0 + 64)
          (lanes_emb (2 ^ 1) (λ _, replicate 64 x00)) = Ok (lanes_emb (2 ^ 1) t)) ∧
   ∃ u, fft_dit8_with_plan (E:=Error) TABLES8 Direct 64 (fft_plan 1 2) (lanes_emb (2 ^ 1) (λ _, replicate 64 x00))
         = Ok (lanes_emb (2 ^ 1) u) ∧
    ∀ b i, b < 64 → i < 2 → column b u i = nval (F:=lch8) 1 (column b (λ _, replicate 64 x00)) (pt8 i)).
Proof.
  assert (group_ok 64 leo_data 2 0) as Hg.
  { intros [|[|i]] Hi; [eexists; by split..|lia]. }
  assert (lanes_good 64 (λ _, replicate 64 x00)) as Hl by (intros i; apply length_replicate).
  split; [exact Hg|]. split; [exact Hl|].
  apply (encoder_transforms_correct Direct Decomposed 64 64 1 1 2 0 leo_data (λ _, replicate 64 x00));
    [lia|apply Nat.leb_le; reflexivity|apply Nat.leb_le; reflexivity|exact Hg|exact Hl].
Defined.

Lemma fused_forms_agree_witness :
  length (replicate 64 xff) = 1 * 64 ∧ length (replicate 32 u16_0) = 1 * 32 ∧
  (user_to_work_mul (E:=Error) TABLES16 (replicate 64 xff) (replicate 32 u16_0) (replicate 32 u16_0) (as_u16 5)
     = Ok (scalar_user_to_work_mul TABLES16 (replicate 64 xff) (replicate 32 u16_0) (as_u16 5)) ∧
   work_mul_to_user (E:=Error) TABLES16 (replicate 32 u16_0) (replicate 64 xff) (replicate 32 u16_0) (as_u16 5)
     = Ok (scalar_work_mul_to_user TABLES16 (replicate 32 u16_0) (replicate 64 xff) (as_u16 5)) ∧
   ∀ e, e < 1 * 32 →
     scalar_user_to_work_mul TABLES16 (replicate 64 xff) (replicate 32 u16_0) (as_u16 5) !! e
       = Some (lch_mul16 (user_elem (replicate 64 xff) e) (factor16 (as_u16 5))) ∧
     user_elem (scalar_work_mul_to_user TABLES16 (replicate 32 u16_0) (replicate 64 xff) (as_u16 5)) e
       = lch_mul16 (tbl16 (replicate 32 u16_0) e) (factor16 (as_u16 5))).
Proof.
  split; [reflexivity|]. split; [reflexivity|].
  apply (fused_forms_agree (E:=Error) 1 (replicate 64 xff) (replicate 32 u16_0) (replicate 32 u16_0) (as_u16 5)); reflexivity.
Defined.

Lemma leopard16_decoder_correct_witness : ∃ parity, let shards := leo_data ++ parity in
  ∃ plans' buffers', decode_with_tables16 leo_shared TABLES16 leo_present leo_outputs (leo_pieces_of shards) 3 2 0
      = Ok (filled leo_present shards leo_outputs, plans', buffers') ∧
    plan_cache_ok good_plan16 plans' ∧ plan_max plans' = plan_max (shared_plans leo_shared) ∧ Forall buffers16_ok buffers'.
Proof.
  destruct leo_shards16 as (parity & Hl & Ha & Hw). exists parity.
  apply (leopard16_decoder_correct 3 2 64 leo_present (leo_data ++ parity) (leo_pieces_of (leo_data ++ parity))
    leo_outputs leo_shared 0);
    [apply leopard_shape_decodes, leo_shape16|discriminate|reflexivity|reflexivity|apply Nat.leb_le; reflexivity
    |exact Hl|exact Ha|apply leo_pieces_ok|rewrite leo_pieces_length; exact Hl|exact Hw|reflexivity|apply leo_outputs_ok
    |exact leo_shared_ok].
Defined.

#[local] Instance leo_encoders : LeopardEncoders := both_encoders Direct empty_caches empty_caches16.
#[local] Instance leo_decoders : LeopardDecoders := both_decoders (Some (mk_decode_cache None None)) leo_shared.

(** What the theorems say of the (3 + 2) codec [self]. *)
Definition encodes_and_verifies (self : ReedSolomon (F:=gf8)) : Prop :=
  (∃ parity', encode_sep (F:=gf8) self leo_data leo_blank = Ok parity' ∧
     leopard_shards (family_words (rs_codec_family self)) 3 2 64 (leo_data ++ parity')) ∧
  ∀ shards, whole_layout (F:=gf8) (3 + 2) 64 shards →
    ∃ b, verify (F:=gf8) self shards = Ok b ∧
      (b = true ↔ leopard_shards (family_words (rs_codec_family self)) 3 2 64 shards).

Definition repairs (self : ReedSolomon (F:=gf8)) (shards : list (list byte)) : Prop :=
  let slices := leo_pieces_of shards in
  repair_outcome self 64 shards slices (λ _, true) (reconstruct (F:=gf8) self slices) ∧
  repair_outcome self 64 shards slices (λ i, bool_decide (i < 3)) (reconstruct_data (F:=gf8) self slices) ∧
  ∀ flags, length flags = 3 ∨ length flags = 3 + 2 →
    repair_outcome self 64 shards slices (is_required flags) (reconstruct_some (F:=gf8) self slices flags).

Lemma leopard_encode_verify_witness : encodes_and_verifies leo_codec ∧ encodes_and_verifies leo_codec16.
Proof.
  pose proof (λ self, leopard_encode_verify Direct empty_caches (Some (mk_decode_cache None None)) empty_caches16 leo_shared
    empty_caches_ok empty_decode_cache_ok empty_caches16_ok leo_shared_ok self 3 2 64) as H. split.
  - apply (H leo_codec leo_options); [by split|exact leo_codec_new|exact (proj1 leo_not_classic)|reflexivity|exact leo_layout].
  - apply (H leo_codec16 leo_options16);
      [by split|exact leo_codec16_new|exact (proj2 leo_not_classic)|reflexivity|exact leo_layout].
Defined.

Lemma words_of_family family family' shards : family' = family →
  leopard_shards (family_words family) 3 2 64 shards → leopard_shards (family_words family') 3 2 64 shards.
Proof. by intros ->. Qed.

(** A data shard and a parity shard lost, with either family. *)
Lemma leopard_erasures_corrected_witness : repairs leo_codec leo_shards ∧ ∃ parity, repairs leo_codec16 (leo_data ++ parity).
Proof.
  pose proof (λ self, leopard_erasures_corrected (T:=option (list byte)) Direct empty_caches (Some (mk_decode_cache None None)) empty_caches16 leo_shared
    empty_caches_ok empty_decode_cache_ok empty_caches16_ok leo_shared_ok self 3 2 64) as H.
  split; [|destruct leo_shards16 as [parity Hsh]; exists parity].
  - destruct (leo_pieces leo_shards (proj1 leo_shards_ok)) as [Hpc Hcnt].
    apply (H leo_codec leo_options leo_shards (leo_pieces_of leo_shards));
      [by split|exact leo_codec_new|exact (proj1 leo_not_classic)|reflexivity|lia| |exact Hpc|exact Hcnt].
    exact (words_of_family LeopardGF8 _ _ leo_codec_family leo_shards_ok).
  - destruct (leo_pieces (leo_data ++ parity) (proj1 Hsh)) as [Hpc Hcnt].
    apply (H leo_codec16 leo_options16 (leo_data ++ parity) (leo_pieces_of (leo_data ++ parity)));
      [by split|exact leo_codec16_new|exact (proj2 leo_not_classic)|reflexivity|lia| |exact Hpc|exact Hcnt].
    exact (words_of_family LeopardGF16 _ _ leo_codec16_family Hsh).
Defined.
